(* ===== verification/_CoqProject ===== *)
-Q . S2P
Prelude.v
JsStd.v
Worklist.v
Vocabulary.v
Plan.v
Graph.v
GraphFacts.v
GraphRun.v
Wave.v
Patch.v
Templates.v
Cli.v
Roster.v
Entities.v
Logic.v
Samples.v
PostActions.v
Engine.v
Frame.v
Rows.v
Classify.v
Limits.v
Starting.v
Lifecycle.v
StepEdit.v
Controls.v
PlanIntake.v
PlanMerge.v
Reports.v
Recovery.v
Calls.v
StepLife.v
Refinement.v
History.v
Guarantees.v
Closing.v
Fences.v
Parallel.v
Budget.v
Concurrent.v
Approvals.v
Tables.v
ConfirmNotify.v
ApprovalService.v
ProgramLogic.v
ApprovalRace.v
Reaper.v
ReaperGuarantees.v
ConfirmFacts.v
Silence.v
Json.v
Outbox.v
CircuitBreaker.v
ProvisionLock.v
DeferStore.v
DeferFacts.v
DeferGuarantees.v
SlotSpec.v
SlotSpecFacts.v
Teams.v
TeamFacts.v
Timeline.v
RunBudget.v
TimelineFacts.v
WorkFolder.v
RunProvisioner.v
ProvisionFacts.v
FolderMutex.v
MissionInputs.v
MissionService.v
MissionFacts.v
DispatchSeats.v
SeatFacts.v
PoolRetry.v
PoolRetryFacts.v
Preflight.v
SpawnSuppress.v
TicketDispatch.v
TicketFacts.v
Anomalies.v
