(* ===== verification/Prelude.v ===== *)
(** * A verified model of the AI Workflow Board's orchestration

    The AI Workflow Board lets an orchestrating agent run a mission: it submits
    a plan of steps, the server hands each step to an agent on some host, takes
    the results, loops, branches, asks the user, recovers what falls silent and
    closes the mission.  This library models that engine, the services around
    it and the host's small machines, and proves what they promise.

    ** The parts and how they interact

    All server paths are under [src/apps/server/src/modules/orchestration],
    host paths under [src/apps/agent-manager/src/lib].

    - Plans and graphs are pure functions.  A plan is a list of steps with
      [depends_on] ([validatePlan], [orchestration.constants.ts]); a mission may
      run on an execution graph with verdict branches and bounded loops instead
      ([orchestration-graph.ts], [orchestration-graph-templates.ts]).  Both are
      evaluated against the step rows into one [Progress].
    - The runner ([orchestration-runner.service.ts]) owns mission and step rows.
      Every method that writes runs under [withMissionLock], changes rows, then
      pumps: it dispatches what became ready within the limits, opens confirm
      gates, blocks what can no longer run, and wakes the orchestrator.
    - Teams ([orchestration-team.service.ts]) keep rosters of slots; a slot's spec
      names a host, a CLI and a configuration that CLI supports
      ([orchestration-member-spec.ts], [runtime-config.ts], [cli-catalog.ts], these
      under [src/apps/server/src/common]).  The roster of a mission
      ([orchestration-roster.ts]) says which slot works where.
    - The mission service ([orchestration-mission.service.ts]) creates, edits and
      deletes missions — for whom it may, within a run budget that it checks
      ([common/run-budget-guard.ts]) — and keeps their timelines.
    - An isolated step is dispatched with a provision ([common/run-workspace-resolver.ts]);
      the host reads it, makes the folder and checks the project out
      ([run-provisioner.ts]), one run per folder ([run-execution-lock.ts]).
    - Tool approvals ([orchestration-approval.service.ts]) and confirm notices
      ([orchestration-confirm-notify.service.ts]) are not under the mission lock:
      they race over rows, and conditional UPDATEs decide who wins.
    - The reaper ([orchestration-reaper.service.ts]) sweeps periodically on every
      server: it reads, then calls the runner and the services like anyone else.
    - The agent manager, the process on each host that runs the agents, has the
      send outbox ([outbox.ts]), the circuit breaker ([circuit-breaker.ts]), the lock
      its processes share ([provision-lock.ts]) and the store of dispatches deferred
      at a session limit ([session-limit-defer.ts]).
    - Its dispatcher ([event-dispatcher.ts]) gives a (ticket, role, agent) one dispatch
      at a time: triggers and mentions claim a seat in one of two registries
      ([ticket-session-manager.ts] over [base-session-manager.ts], or
      [InflightDispatchTracker] of [dispatch-preflight.ts]), and what is turned away
      meanwhile may be replayed.  The rest of [dispatch-preflight.ts] decides whether a
      dispatch may go ahead, damps supervisors that repeat a blocked one, and retries
      when a pool is exhausted.
    - The triggers come from the board: outside missions a ticket has one assignee, and
      the server's ticket dispatch ([modules/agents/ticket-dispatch.service.ts] under
      [src/apps/server/src]) starts queued tickets while their agents have capacity,
      sends again what someone unblocked, answers the managers' acknowledgements, and
      sends for agents that fell silent until it parks their ticket for a human.

    ** The files

    - This file, [JsStd] (ECMAScript strings, numbers, [Map]s), [Worklist] (the
      searches and topological sorts that the validators share).
    - [Vocabulary], [Plan]: [orchestration.constants.ts].
    - [Graph], [GraphFacts], [GraphRun], [Wave], [Patch]: [orchestration-graph.ts]
      — validation, evaluation, promotion of plans, runtime edits.  [Templates]:
      [orchestration-graph-templates.ts].
    - [Cli], [Roster]: [orchestration-roster.ts] and the files it is built from.
      [Json] (values as JSON keeps them), [SlotSpec], [SlotSpecFacts]: reading, storing
      and patching slot specs.  [Teams], [TeamFacts]: teams and slot identities.
    - [RunBudget], [MissionInputs], [MissionService], [MissionFacts]: missions as rows.
      [Timeline], [TimelineFacts]: their events, on each database.  [WorkFolder],
      [RunProvisioner], [ProvisionFacts]: from a mission's folder to the checkout.
    - [Entities]: the rows, the repositories and the engine's monad.  A [World] is
      one mission with its steps, timeline and rooms; a method is a function on
      worlds that returns or throws, and writes made before an error stay.
    - [Engine] (the runner's private methods), [Lifecycle], [StepEdit],
      [PlanIntake], [Reports], [Recovery], [PostActions]: the runner's methods,
      under their names.  [Calls]: a public method as a value, and the mission's
      status machine.
    - [Logic], [Frame], [Rows], [Classify], [Limits], [Starting], [Controls],
      [PlanMerge]: how properties of methods are proved — pre- and postcondition
      rules, evolution of rows ([RowRelation]), and the interface between the
      engines' classification and its clients ([Classification]).
    - [StepLife], [Refinement], [History], [Guarantees]: the abstract life of a
      step, and that every call refines it.  [Closing], [Fences], [Parallel],
      [Budget]: further properties of calls and histories.
    - [Concurrent]: programs whose every awaited query is one step, and a
      rely-guarantee judgement for pools of them.  [Tables], [ProgramLogic]: the
      tables the services share, and rules for programs over them.  [Approvals],
      [ApprovalService], [ApprovalRace]; [ConfirmNotify], [ConfirmFacts]; [Reaper],
      [ReaperGuarantees], [Silence].
    - [Outbox], [CircuitBreaker], [ProvisionLock], [DeferStore] (with [DeferFacts] and
      [DeferGuarantees]), [FolderMutex]: the
      host's machines.
    - [DispatchSeats]: both registries, and the class [SeatRegistry] with its laws
      [SeatLaws] that the dispatcher relies on, and the dispatcher's side,
      written against the class.  [SeatFacts]: its properties from the laws, and the
      laws of both registries.  [PoolRetry], [PoolRetryFacts]: the retry queue.
      [SpawnSuppress]: blocked dispatches.  [Preflight]: the preflight's pure decisions
      and remote addresses.
    - [TicketDispatch], [TicketFacts]: the board's ticket dispatch, as programs over the
      tickets table with what the UPDATEs did as a history.
    - [Samples]: concrete missions the theorems are evaluated on.  [Anomalies]:
      runs in which the code does something its comments do not expect.

    ** What the theorems show

    - Validation is exact: a plan is accepted if and only if it is well formed
      ([Plan.validatePlan_accepts_iff]); an accepted graph is what the engine
      needs it to be ([GraphFacts.validateGraphSpec_structure], its loops bounded
      by [validateGraphSpec_loops_bounded]); edits do what
      they say and keep it so ([Patch.applyGraphPatch_safe]); the two engines agree on plans
      ([Wave.wave_promotion_lossless]); a graph never gets stuck
      ([GraphRun.graph_no_deadlock]).
    - Rosters are sound and report every slot that cannot be placed
      ([Roster.resolveMissionRoster_sound], [.._reports_every_problem]).
    - Every call refines the abstract life of a step
      ([Guarantees.call_refines_life]) and the mission's status machine
      ([Calls.mission_status_machine]), and over whole histories missions stay
      well formed, steps never go back, outcomes stand, plans leave started
      steps alone ([Guarantees]).
    - Starting is guarded: only ready steps ([Starting.pump_starts_ready_only]),
      within the parallel limit ([Parallel.parallel_limit]) and the visit budget
      ([Budget.visit_budget]); loops re-enter as specified
      ([Starting.loop_reentry]).
    - Results are fenced by leases, and decisions by visits: the one that is taken is
      in the stored row ([Fences]); closing a mission is gated
      ([Closing.completion_gate]); post-actions run at most once though the process
      may die anywhere, and all of them given time, but for those whose grace after
      an interruption is not over ([PostActions]).
    - Under concurrency: one answer per approval and only from who may give it
      ([ApprovalRace]); a pass of a gate is announced to the channels at most once and
      reminded of at most once, and a due gate is reminded of ([ConfirmFacts]); the
      reaper spares what waits for its user ([ReaperGuarantees]); silent steps are
      recovered ([Silence.silent_steps_recover]).
    - Slot specs read back as they were accepted and patches change what they name
      ([SlotSpecFacts]); teams belong to their accounts, the orchestrator's own seat
      follows it, and placed agents find their team ([TeamFacts]).  Missions are
      created by whom they may be; they say what they were asked to be, however calls
      overlap, and as many as the ceiling and the creations under way at once allow are
      created in a window; made one after another, calls leave a started mission its
      brief ([MissionFacts]); a reader of the timeline sees every event
      once and in order ([TimelineFacts]).
    - A step's provision crosses the wire, stays below the agent's directory, leads to
      the folder the mission names, apart from other steps', and succeeds only with
      the project checked out ([ProvisionFacts]).
    - On the host: the outbox's file mirrors its queue, messages leave once and
      in order, are accepted when they leave as sent, and the queue drains
      ([Outbox]); breakers open at their threshold, gate, and close for
      named reasons only ([CircuitBreaker]); the provisioning lock excludes and
      recovers ([ProvisionLock]); a folder has one run at a time, in order ([FolderMutex]);
      a deferred dispatch fires, once, and survives the manager ([DeferGuarantees]).
    - Dispatches: two never have one seat unless the first lost it with cause, over
      either registry ([SeatFacts.one_dispatch_per_seat]); a suppressed force respawn
      and a column trigger blocked by a mention wait for as long as no hold of their key
      ends, and the first end of one replays them
      ([suppressed_force_is_replayed], [mention_returns_what_it_blocks]); the registries
      agree where the safety valve is not due ([registries_agree]).  Retries are
      bounded and come to an end, and a trigger leaves the queue only given up or found
      ineligible ([PoolRetryFacts]), one per key where no key is queued
      afresh under a running attempt ([one_retry_per_key]); an episode of aborts pends
      its ticket once and lets supervisors probe once per window ([SpawnSuppress]);
      shown addresses with a scheme keep no user part, query or fragment
      ([Preflight]).
    - Tickets: however many servers pump and sweep, a ticket is started once per
      queueing, sent for at most three times between two signs of progress — or saves of
      its whole row, which may put back an old count — and parked only for cause; a pump
      alone respects the agents' capacity, and a silent agent's ticket is handed over to
      a human by sweeps of any servers, one after the other ([TicketFacts]).

    ** Fuel and termination

    Recursion over data is structural.  The searches of [Worklist] take fuel:
    one step per node for the depth-first search and for the two sorts, each
    step taking a node off the pending ones; [Worklist] proves that much enough,
    and its users pass it.  A sweep loops over snapshots.  The machines of
    [Outbox], [ProvisionLock], [DeferStore], [FolderMutex], [DispatchSeats], [PoolRetry] and
    [Concurrent] are step
    relations without fuel; their liveness theorems count steps.  A reader of the
    timeline follows cursors with fuel: a page for every event is enough.

    ** Assumptions

    - [randomUUID] gives distinct values ([distinct_uuids], [Inj] of [uuid], the
      lock's nonce).
    - What the engine asks of other modules (users, agents, projects, rooms,
      delivery) is an environment [Env] or a parameter; the theorems hold for
      all of them, and the witnesses use the one in [Samples].
    - A runner method is one transition: it holds the mission's lock.  That lock is a
      process's own ([missionLocks]): one server at a time runs the engine on a
      mission.  The approval, notice and reaper programs of any number of servers
      interleave with it at every query.  A method reads the clock once.
    - A query does not fail, but for the look-up of a notice's recipients.  Where the
      process may die the model says so: in post-actions, in the outbox, in the
      provisioning lock, in the mission service.
    - Every write of the deferral's file succeeds; the source logs one that fails and
      goes on with what is in memory ([DeferStore]).
    - The markers of confirm notices are written by the notice service only, and
      process ids are not reused while a lock file names them.
    - A call of the team service is one transition, and so is each part of a call of
      the mission service ([MissionService]); database keys are never reused, and the
      databases keep times as the comments of [created-at-since-param.ts] say.  [JSON.parse] and [Number] of what is not an
      integer are parameters.
    - The deferral's callers add an intent under its own agent, whose id has no colon;
      the handler reports a spawn at once and starts no second run of a ticket; no
      intent is withdrawn while its replay runs.
    - The retry queue's callbacks ([verify], [onRetry], [onGiveUp]) are asynchronous:
      they call the queue back in later steps only.  Exits of a dispatch's process and
      ends of its body may come at any time and more than once.
    - What else writes tickets may reset a count of re-sends, save a whole row with
      the count it had read, queue a ticket or make an output known, all of which the
      history notes; it claims no re-send.  Queries without an order give rows as the table has
      them, and of activities of one time the last saved is the newest.
    - Host paths are POSIX and have no symbolic links, and a clone's git directory is
      its own [.git]: the source installs credentials where git says it is.  Remote
      addresses and what git prints are ASCII; strings hold UTF-16 units below 256.
    - JavaScript numbers here are counters, times and limits far below 2^53: they
      are [Z].  Where a number is the caller's, the readers that clamp it are
      modelled.

    ** Not modelled

    Prompt and notice texts (they are values naming what is said); parsing of the
    mission's own JSON columns in the runner (its rows are decoded); the lists and
    detail views of missions, teams and hosts; controllers and MCP tools, which call
    the modelled methods; log lines; the channels' delivery; the credential store of a
    clone; of the dispatcher, what lies between a seat and its spawn (provisioning,
    capacity, prompts, the CLI process): it is I/O whose outcomes are steps of the
    machine; the host's approval bridge and permission policy, which forward to the
    modelled approval service; a trigger's contents and the preparation of its runtime
    (the ticket dispatch reads their outcomes); the rest of the board's server, of the
    agent manager and the clients. *)

From stdpp Require Export base gmap strings list sorting relations.
From Stdlib Require Export ZArith Lia Ascii.
From coqutil Require Export Datatypes.RecordSettersUsingExistingGetters.

(** [r<|field := v|>] and [r<|field ::= f|>]: [simpl] reads a field through them. *)
#[global] Arguments set {R E} getter {Setter} fieldUpdater r /.
#[global] Arguments const {E} newValue _ /.

Open Scope string_scope.
Open Scope list_scope.
Open Scope Z_scope.

(** ** Results: a value, or the error object a function returns

    [res E A] is the TypeScript idiom [{ ok } | { error }]: a function either
    produces a value or returns the error its caller reports.  The instances
    give it stdpp's [x ← m; k] notation. *)

Inductive res (E A : Type) : Type :=
  | Ok (a : A)
  | Err (e : E).
Arguments Ok {E A} a.
Arguments Err {E A} e.

#[export] Instance res_ret E : MRet (res E) := λ A a, Ok a.
#[export] Instance res_bind E : MBind (res E) := λ A B k m,
  match m with Ok a => k a | Err e => Err e end.
#[export] Instance res_fmap E : FMap (res E) := λ A B f m,
  match m with Ok a => Ok (f a) | Err e => Err e end.

(** [if (b) return { error: e }] *)
Definition fail_if {E} (b : bool) (e : E) : res E unit :=
  if b then Err e else Ok tt.

(** A [for ... of] loop whose body may return an error. *)
Fixpoint foldM {E S A} (f : S → A → res E S) (s : S) (l : list A) : res E S :=
  match l with
  | [] => Ok s
  | a :: l => s' ← f s a; foldM f s' l
  end.

(** A [for ... of] loop that only checks its elements. *)
Fixpoint forM_ {E A} (f : A → res E unit) (l : list A) : res E unit :=
  match l with
  | [] => Ok tt
  | a :: l => _ ← f a; forM_ f l
  end.

Definition is_Ok {E A} (m : res E A) : bool :=
  match m with Ok _ => true | Err _ => false end.

Lemma bind_Ok {E A B} (m : res E A) (k : A → res E B) b :
  (m ≫= k) = Ok b ↔ ∃ a, m = Ok a ∧ k a = Ok b.
Proof.
  destruct m as [a|e]; simpl; split.
  - intros H; exists a; split; [reflexivity|exact H].
  - intros (a' & [= ->] & H); exact H.
  - intros H; discriminate H.
  - intros (a' & H & _); discriminate H.
Qed.

Lemma fail_if_Ok {E} b (e : E) u : fail_if b e = Ok u ↔ b = false.
Proof. destruct b, u; simpl; split; congruence. Qed.

Lemma forM_Ok {E A} (f : A → res E unit) l u :
  forM_ f l = Ok u ↔ ∀ a, a ∈ l → f a = Ok tt.
Proof.
  destruct u. induction l as [|a l IH]; simpl.
  - split; [intros _ a Ha; inversion Ha|reflexivity].
  - rewrite bind_Ok. split.
    + intros ([] & Ha & Hl) b Hb. apply elem_of_cons in Hb as [->|Hb]; [exact Ha|].
      apply IH; [exact Hl|exact Hb].
    + intros H. exists tt. split; [apply H, list_elem_of_here|].
      apply IH. intros b Hb. apply H. apply list_elem_of_further, Hb.
Qed.

(** Invariant rule for the loops above. *)
Lemma foldM_inv {E S A} (f : S → A → res E S) (P : S → Prop) l :
  (∀ s a s', a ∈ l → P s → f s a = Ok s' → P s') →
  ∀ s s', P s → foldM f s l = Ok s' → P s'.
Proof.
  induction l as [|a l IH]; simpl; intros Hf s s' HP H.
  - injection H as <-. exact HP.
  - apply bind_Ok in H as (s1 & H1 & H2).
    eapply IH; [|eapply Hf; [|exact HP|exact H1]|exact H2].
    + intros; eapply Hf; eauto. by apply list_elem_of_further.
    + apply list_elem_of_here.
Qed.

Lemma foldM_Err {E S A} (f : S → A → res E S) l : ∀ s e,
  foldM f s l = Err e → ∃ s' a, a ∈ l ∧ f s' a = Err e.
Proof.
  induction l as [|a l IH]; intros s e H; simpl in H; [discriminate|].
  destruct (f s a) as [s1|e1] eqn:E1; simpl in H.
  - destruct (IH _ _ H) as (s' & b & Hb & ?). exists s', b.
    split; [by apply list_elem_of_further|done].
  - injection H as ->. exists s, a. split; [apply list_elem_of_here|done].
Qed.

Lemma forM_Err {E A} (f : A → res E unit) l e :
  forM_ f l = Err e → ∃ a, a ∈ l ∧ f a = Err e.
Proof.
  induction l as [|a l IH]; intros H; simpl in H; [discriminate|].
  destruct (f a) as [[]|e1] eqn:E1; simpl in H.
  - destruct (IH H) as (b & Hb & ?). exists b. split; [by apply list_elem_of_further|done].
  - injection H as ->. exists a. split; [apply list_elem_of_here|done].
Qed.

(** Inverts every [Ok] equation of the error monad in the context. *)
Ltac res_inv :=
  repeat match goal with
  | H : (_ ≫= _) = Ok _ |- _ =>
      apply bind_Ok in H as (? & ? & ?)
  | H : fail_if _ _ = Ok _ |- _ => apply fail_if_Ok in H
  | H : Ok _ = Ok _ |- _ => injection H as H
  | H : Err _ = Ok _ |- _ => discriminate H
  | H : mret _ = Ok _ |- _ => injection H as H
  end.

(** Peels the binds of [H : (_ ← m1; _ ← m2; ...) = Ok _], keeping the name [H]
    for the continuation. *)
Ltac obind H :=
  repeat (let a := fresh "a" in let E := fresh "Hok" in
          apply bind_Ok in H as (a & E & H);
          try (apply fail_if_Ok in E); cbn beta iota in H).

(** Case analysis on the innermost [match] of a hypothesis or the goal. *)
Ltac split_match_in H :=
  match type of H with
  | context [match ?x with _ => _ end] =>
      lazymatch x with context [match _ with _ => _ end] => fail | _ => idtac end;
      let E := fresh "E" in destruct x eqn:E
  end.

Ltac split_match :=
  match goal with
  | |- context [match ?x with _ => _ end] =>
      lazymatch x with context [match _ with _ => _ end] => fail | _ => idtac end;
      let E := fresh "E" in destruct x eqn:E
  end.

(** Boolean conditions as the code writes them, read as propositions. *)
Create HintDb reflect_db.
Lemma bool_decide_true_iff (P : Prop) `{Decision P} : bool_decide P = true ↔ P.
Proof. apply bool_decide_eq_true. Qed.
Lemma bool_decide_false_iff (P : Prop) `{Decision P} : bool_decide P = false ↔ ¬ P.
Proof. apply bool_decide_eq_false. Qed.

(** ** Lists *)

(** [l.filter(p)], [l.some(p)], [l.every(p)], [l.includes(x)] with boolean
    predicates, the way the source writes them. *)
Definition lfilter {A} (p : A → bool) (l : list A) : list A := List.filter p l.
Definition lsome {A} (p : A → bool) (l : list A) : bool := existsb p l.
Definition levery {A} (p : A → bool) (l : list A) : bool := forallb p l.
Definition includes (l : list string) (x : string) : bool := bool_decide (x ∈ l).

Lemma elem_of_lfilter {A} (p : A → bool) l x : x ∈ lfilter p l ↔ x ∈ l ∧ p x = true.
Proof. unfold lfilter. rewrite !list_elem_of_In, filter_In. tauto. Qed.

Lemma lsome_true {A} (p : A → bool) l : lsome p l = true ↔ ∃ x, x ∈ l ∧ p x = true.
Proof.
  unfold lsome. rewrite existsb_exists.
  setoid_rewrite <- list_elem_of_In. reflexivity.
Qed.

Lemma lsome_false {A} (p : A → bool) l : lsome p l = false ↔ ∀ x, x ∈ l → p x = false.
Proof.
  split.
  - intros H x Hx. destruct (p x) eqn:E; [|reflexivity].
    assert (lsome p l = true) by (apply lsome_true; eauto). congruence.
  - intros H. destruct (lsome p l) eqn:E; [|reflexivity].
    apply lsome_true in E as (x & Hx & Hp). rewrite (H x Hx) in Hp. congruence.
Qed.

Lemma levery_true {A} (p : A → bool) l : levery p l = true ↔ ∀ x, x ∈ l → p x = true.
Proof.
  unfold levery. rewrite forallb_forall.
  setoid_rewrite <- list_elem_of_In. reflexivity.
Qed.

Lemma includes_true l x : includes l x = true ↔ x ∈ l.
Proof. apply bool_decide_true_iff. Qed.
Lemma includes_false l x : includes l x = false ↔ x ∉ l.
Proof. apply bool_decide_false_iff. Qed.
Lemma includes_app l l' x : includes (l ++ l') x = includes l x || includes l' x.
Proof. apply eq_true_iff_eq. rewrite orb_true_iff, !includes_true, elem_of_app. done. Qed.

Lemma includes_cons y l x : includes (y :: l) x = String.eqb y x || includes l x.
Proof.
  unfold includes. apply eq_true_iff_eq.
  rewrite orb_true_iff, !bool_decide_eq_true, elem_of_cons, String.eqb_eq. split; intros [H|H]; auto.
Qed.

(** Reads every boolean condition of the context as a proposition. *)
Ltac breflect :=
  repeat match goal with
  | H : _ && _ = true |- _ => apply andb_true_iff in H as [? ?]
  | H : _ || _ = false |- _ => apply orb_false_iff in H as [? ?]
  | H : negb _ = true |- _ => apply negb_true_iff in H
  | H : negb _ = false |- _ => apply negb_false_iff in H
  | H : bool_decide _ = true |- _ => apply bool_decide_true_iff in H
  | H : bool_decide _ = false |- _ => apply bool_decide_false_iff in H
  | H : (_ <? _) = true |- _ => apply Z.ltb_lt in H
  | H : (_ <? _) = false |- _ => apply Z.ltb_ge in H
  | H : (_ <=? _) = true |- _ => apply Z.leb_le in H
  | H : (_ <=? _) = false |- _ => apply Z.leb_gt in H
  | H : (_ =? _) = true |- _ => apply Z.eqb_eq in H
  | H : (_ =? _) = false |- _ => apply Z.eqb_neq in H
  | H : includes _ _ = true |- _ => apply includes_true in H
  | H : includes _ _ = false |- _ => apply includes_false in H
  | H : String.eqb _ _ = true |- _ => apply String.eqb_eq in H
  | H : String.eqb _ _ = false |- _ => apply String.eqb_neq in H
  end.

Lemma lfilter_cons {A} (p : A → bool) x l :
  lfilter p (x :: l) = if p x then x :: lfilter p l else lfilter p l.
Proof. reflexivity. Qed.

Lemma lfilter_app {A} (p : A → bool) l1 l2 :
  lfilter p (l1 ++ l2) = lfilter p l1 ++ lfilter p l2.
Proof. apply List.filter_app. Qed.

Lemma lfilter_length_le {A} (p : A → bool) l : (length (lfilter p l) ≤ length l)%nat.
Proof. apply List.filter_length_le. Qed.

Lemma lfilter_nil {A} (p : A → bool) l : lfilter p l = [] ↔ ∀ x, x ∈ l → p x = false.
Proof.
  induction l as [|a l IH]; simpl.
  - split; [intros _ x Hx; inversion Hx|reflexivity].
  - split.
    + intros H x Hx. destruct (p a) eqn:E; [discriminate H|].
      apply elem_of_cons in Hx as [->|Hx]; [exact E|by apply IH].
    + intros H. rewrite (H a) by apply list_elem_of_here.
      apply IH. intros x Hx. apply H, list_elem_of_further, Hx.
Qed.

(** A filter within a filter, on other orders of the list, and by a weaker test. *)
Lemma lfilter_within {A} (p q : A → bool) l :
  (∀ x, x ∈ l → p x = true → q x = true) → lfilter p (lfilter q l) = lfilter p l.
Proof.
  induction l as [|x l IH]; intros H; [reflexivity|]. rewrite !lfilter_cons.
  rewrite <- IH by (intros y Hy; apply H, list_elem_of_further, Hy).
  specialize (H x (list_elem_of_here _ _)). destruct (q x); [by rewrite lfilter_cons|].
  destruct (p x); [by specialize (H eq_refl)|reflexivity].
Qed.

Lemma lfilter_perm {A} (p : A → bool) l k : l ≡ₚ k → lfilter p l ≡ₚ lfilter p k.
Proof.
  induction 1 as [|x l k _ IH|x y l|l k m _ IH1 _ IH2]; [reflexivity| | |by rewrite IH1].
  - rewrite !lfilter_cons. by destruct (p x); rewrite IH.
  - rewrite !lfilter_cons. destruct (p x), (p y); try reflexivity. apply Permutation_swap.
Qed.

Lemma lfilter_weaker {A} (p q : A → bool) l :
  (∀ x, x ∈ l → p x = true → q x = true) → (length (lfilter p l) ≤ length (lfilter q l))%nat.
Proof. intros H. rewrite <- (lfilter_within p q l H). apply lfilter_length_le. Qed.

Lemma NoDup_lfilter {A} (p : A → bool) l : NoDup l → NoDup (lfilter p l).
Proof. rewrite !NoDup_ListNoDup. apply List.NoDup_filter. Qed.

Lemma NoDup_fmap_inj_on {A B} (f : A → B) l x y :
  NoDup (f <$> l) → x ∈ l → y ∈ l → f x = f y → x = y.
Proof.
  intros Hnd Hx Hy Hf.
  apply list_elem_of_lookup in Hx as [i Hi], Hy as [j Hj].
  assert (i = j).
  { eapply NoDup_lookup; [exact Hnd| |].
    - rewrite list_lookup_fmap, Hi; reflexivity.
    - rewrite list_lookup_fmap, Hj, Hf; reflexivity. }
  congruence.
Qed.

Lemma NoDup_snoc {A} (l : list A) x : NoDup (l ++ [x]) ↔ NoDup l ∧ x ∉ l.
Proof.
  rewrite NoDup_app. split.
  - intros (Hl & Hd & _). split; [exact Hl|]. intros Hx. apply (Hd x Hx), list_elem_of_here.
  - intros [Hl Hx]. repeat split; [exact Hl| |apply NoDup_singleton].
    intros y Hy Hy'. apply list_elem_of_singleton in Hy' as ->. exact (Hx Hy).
Qed.

Lemma NoDup_subset_length {A} (l k : list A) :
  NoDup l → l ⊆ k → (length l ≤ length k)%nat.
Proof. intros Hl Hs. apply submseteq_length, NoDup_submseteq; [exact Hl|]. exact Hs. Qed.

Lemma find_Some_elem {A} (p : A → bool) l x :
  List.find p l = Some x → x ∈ l ∧ p x = true.
Proof. intros H. apply find_some in H as [? ?]. by rewrite list_elem_of_In. Qed.

Lemma find_None_elem {A} (p : A → bool) l :
  List.find p l = None → ∀ x, x ∈ l → p x = false.
Proof. intros H x Hx. eapply find_none; [exact H|by apply list_elem_of_In]. Qed.

(** No element can be open if every open one has an open one of lower rank. *)
Lemma rank_descent {A} (open : A → Prop) (rank : A → nat) :
  (∀ x, open x → ∃ y, open y ∧ (rank y < rank x)%nat) → ∀ x, ¬ open x.
Proof.
  intros H. assert (Hn : ∀ n x, (rank x < n)%nat → ¬ open x).
  { induction n as [|n IH]; intros x Hx Ho; [lia|].
    destruct (H x Ho) as (y & Hy & Hlt). apply (IH y); [lia|exact Hy]. }
  intros x. apply (Hn (S (rank x))). lia.
Qed.

Lemma elem_of_map {A B} (f : A → B) l y : y ∈ List.map f l ↔ ∃ x, y = f x ∧ x ∈ l.
Proof.
  rewrite list_elem_of_In, in_map_iff. setoid_rewrite <- list_elem_of_In.
  split; intros (x & ? & ?); exists x; auto.
Qed.

Lemma elem_of_map_2 {A B} (f : A → B) l x : x ∈ l → f x ∈ List.map f l.
Proof. intros H. apply elem_of_map. eauto. Qed.

(** ** Closures *)

Lemma rtc_iff {A} (R S : A → A → Prop) x y :
  (∀ a b, R a b ↔ S a b) → rtc R x y ↔ rtc S x y.
Proof.
  intros H. split; (induction 1; [apply rtc_refl|eapply rtc_l; [by apply H|done]]).
Qed.

Lemma rtc_flip {A} (R : A → A → Prop) x y : rtc (λ a b, R b a) x y → rtc R y x.
Proof. induction 1; [apply rtc_refl|]. eapply rtc_r; eauto. Qed.

Lemma NoDup_map_lfilter {A B} (f : A → B) (p : A → bool) l :
  NoDup (List.map f l) → NoDup (List.map f (lfilter p l)).
Proof.
  induction l as [|a l IH]; simpl; [done|]. intros H. inversion H as [|? ? Hn Hnd]; subst.
  destruct (p a); simpl; [|by apply IH]. constructor; [|by apply IH].
  intros (x & Heq & Hx)%elem_of_map. apply elem_of_lfilter in Hx as [Hx _].
  apply Hn, elem_of_map. eauto.
Qed.

(** Elements told apart by [f] are told apart by [g], where [g] determines [f]. *)
Lemma NoDup_map_via {A B C} (f : A → B) (g : A → C) l :
  (∀ x y, x ∈ l → y ∈ l → g x = g y → f x = f y) → NoDup (List.map f l) → NoDup (List.map g l).
Proof.
  induction l as [|x l IH]; intros H Hnd; cbn [List.map] in *; [constructor|].
  inversion Hnd as [|? ? Hx Hl]; subst. constructor.
  - intros (y & He & Hy)%elem_of_map. apply Hx. rewrite (H x y); [by apply elem_of_map_2|apply list_elem_of_here| |done].
    by apply list_elem_of_further.
  - apply IH; [|done]. intros a b Ha Hb. apply H; by apply list_elem_of_further.
Qed.
