(* ===== verification/JsStd.v ===== *)
(** * The JavaScript standard library, as far as the modelled code uses it

    Strings are sequences of UTF-16 code units of value below 256, one
    [ascii] per code unit: every identifier, status, verdict and key of the
    protocol is in this range, and the operations below are the ones
    ECMAScript gives on it ([trim], [toLowerCase], [slice], the character
    classes of the key pattern).  [JMap] is a [Map] (or a [Set]) with its
    insertion order. *)

From S2P Require Import Prelude.
From stdpp Require Import pretty.
#[local] Open Scope Z_scope.

(** ** Strings *)

Section strings.

Definition code (c : ascii) : Z := Z.of_N (N_of_ascii c).

(** WhiteSpace and LineTerminator code units below 256. *)
Definition is_space (c : ascii) : bool :=
  let n := code c in ((9 <=? n) && (n <=? 13)) || (n =? 32) || (n =? 160).

Fixpoint ltrim (s : string) : string :=
  match s with
  | EmptyString => EmptyString
  | String c s' => if is_space c then ltrim s' else s
  end.

Fixpoint rtrim (s : string) : string :=
  match s with
  | EmptyString => EmptyString
  | String c s' =>
      match rtrim s' with
      | EmptyString => if is_space c then EmptyString else String c EmptyString
      | r => String c r
      end
  end.

(** [s.trim()] *)
Definition trim (s : string) : string := rtrim (ltrim s).

Definition lower_char (c : ascii) : ascii :=
  let n := code c in
  if ((65 <=? n) && (n <=? 90)) || ((192 <=? n) && (n <=? 222) && negb (n =? 215))
  then ascii_of_N (Z.to_N (n + 32)) else c.

(** [s.toLowerCase()] *)
Fixpoint toLowerCase (s : string) : string :=
  match s with
  | EmptyString => EmptyString
  | String c s' => String (lower_char c) (toLowerCase s')
  end.

(** [s.length] *)
Definition slength (s : string) : Z := Z.of_nat (String.length s).

(** [s.includes(sub)] *)
Fixpoint str_includes (sub s : string) : bool :=
  String.prefix sub s || match s with EmptyString => false | String _ s' => str_includes sub s' end.

(** [s.slice(0, n)] for [n >= 0] *)
Definition slice (n : Z) (s : string) : string := String.substring 0 (Z.to_nat n) s.

(** [s.startsWith(p)] *)
Definition startsWith (p s : string) : bool := String.prefix p s.

(** Truthiness of a string. *)
Definition truthy (s : string) : bool := negb (String.eqb s "").

Definition is_key_start (c : ascii) : bool :=
  let n := code c in ((97 <=? n) && (n <=? 122)) || ((48 <=? n) && (n <=? 57)).

(** [[a-z0-9._-]] *)
Definition is_key_char (c : ascii) : bool :=
  is_key_start c || (code c =? 46) || (code c =? 95) || (code c =? 45).

Fixpoint all_chars (p : ascii → bool) (s : string) : bool :=
  match s with
  | EmptyString => true
  | String c s' => p c && all_chars p s'
  end.

End strings.

(** ** Numbers

    A JS number that reaches the modelled code from outside: an integer, or
    any other number ([NaN], an infinity, a fraction), kept by its printed
    form. *)
Inductive number : Type :=
  | JInt (z : Z)
  | JNonInt (repr : string).

#[export] Instance number_eq_dec : EqDecision number.
Proof. solve_decision. Defined.

(** A value of type [unknown]: what a JSON request body can hold.  A missing
    property reads as [JUndef]. *)
#[local] Unset Elimination Schemes.
Inductive jsval : Type :=
  | JUndef
  | JNull
  | JBool (b : bool)
  | JNum (n : number)
  | JStr (s : string)
  | JArr (l : list jsval)
  | JObj (fields : list (string * jsval)).
#[local] Set Elimination Schemes.

(** [v == null] *)
Definition is_nullish (v : jsval) : bool :=
  match v with JUndef | JNull => true | _ => false end.

(** [v ?? d] *)
Definition nullish_or (v d : jsval) : jsval := if is_nullish v then d else v.

Definition number_String (n : number) : string :=
  match n with JInt z => pretty z | JNonInt r => r end.

(** [String(v)] *)
Fixpoint js_String (v : jsval) : string :=
  match v with
  | JUndef => "undefined"
  | JNull => "null"
  | JBool b => if b then "true" else "false"
  | JNum n => number_String n
  | JStr s => s
  | JArr l =>
      String.concat "," (List.map (λ v, if is_nullish v then "" else js_String v) l)
  | JObj _ => "[object Object]"
  end.

(** [(v as any)?.key]; on an array or a primitive the keys the code reads are
    absent. *)
Definition prop (v : jsval) (key : string) : jsval :=
  match v with
  | JObj fields =>
      match List.find (λ e, String.eqb (fst e) key) fields with
      | Some e => snd e
      | None => JUndef
      end
  | _ => JUndef
  end.

(** [v === true] *)
Definition is_true_val (v : jsval) : bool := match v with JBool true => true | _ => false end.

(** [Array.from(new Set(l))]: first occurrences, in order. *)
Definition set_add (acc : list string) (x : string) : list string :=
  if includes acc x then acc else acc ++ [x].
Definition new_Set (l : list string) : list string := foldl set_add [] l.

(** A stable sort on an integer key. *)
Fixpoint insert_by {A} (f : A → Z) (x : A) (l : list A) : list A :=
  match l with
  | [] => [x]
  | y :: l' => if f x <? f y then x :: l else y :: insert_by f x l'
  end.
Definition sort_by {A} (f : A → Z) (l : list A) : list A := foldl (λ acc x, insert_by f x acc) [] l.

(** ** Maps in insertion order *)

Module JMap.

Section jmap.
Context {V : Type}.

Definition get (m : list (string * V)) (k : string) : option V :=
  match List.find (λ e, String.eqb (fst e) k) m with
  | Some e => Some (snd e)
  | None => None
  end.

Definition has (m : list (string * V)) (k : string) : bool :=
  match get m k with Some _ => true | None => false end.

(** [m.set(k, v)]: in place when [k] is present, at the end otherwise. *)
Fixpoint set (m : list (string * V)) (k : string) (v : V) : list (string * V) :=
  match m with
  | [] => [(k, v)]
  | (k', v') :: m' =>
      if String.eqb k' k then (k, v) :: m' else (k', v') :: set m' k v
  end.

(** [m.delete(k)] *)
Definition delete (m : list (string * V)) (k : string) : list (string * V) :=
  lfilter (λ e, negb (String.eqb e.1 k)) m.

(** Mutation of the object stored under [k]. *)
Definition update (m : list (string * V)) (k : string) (f : V → V) : list (string * V) :=
  List.map (λ e, if String.eqb (fst e) k then (fst e, f (snd e)) else e) m.

Definition keys (m : list (string * V)) : list string := List.map fst m.
Definition values (m : list (string * V)) : list V := List.map snd m.

(** [new Map(l.map((x) => [key(x), x]))]: a later element replaces the value,
    not the position, of an earlier one with the same key. *)
Definition index_by (key : V → string) (l : list V) : list (string * V) :=
  foldl (λ m x, set m (key x) x) [] l.

Lemma get_nil k : get [] k = None.
Proof. reflexivity. Qed.

Lemma get_cons k' v m k :
  get ((k', v) :: m) k = if String.eqb k' k then Some v else get m k.
Proof. unfold get; simpl. by destruct (String.eqb k' k). Qed.

Lemma get_set_eq m k v : get (set m k v) k = Some v.
Proof.
  induction m as [|[k' v'] m IH]; simpl.
  - by rewrite get_cons, String.eqb_refl.
  - destruct (String.eqb k' k) eqn:E.
    + by rewrite get_cons, String.eqb_refl.
    + by rewrite get_cons, E.
Qed.

Lemma get_set_ne m k k' v : k ≠ k' → get (set m k v) k' = get m k'.
Proof.
  intros Hne. induction m as [|[k0 v0] m IH]; simpl.
  - rewrite get_cons. apply String.eqb_neq in Hne. by rewrite Hne.
  - destruct (String.eqb k0 k) eqn:E.
    + apply String.eqb_eq in E as ->. rewrite !get_cons.
      apply String.eqb_neq in Hne. by rewrite Hne.
    + rewrite !get_cons. destruct (String.eqb k0 k'); [done|exact IH].
Qed.

Lemma get_Some_elem m k v : get m k = Some v → (k, v) ∈ m.
Proof.
  induction m as [|[k' v'] m IH]; [done|]. rewrite get_cons.
  destruct (String.eqb k' k) eqn:E.
  - intros [= ->]. apply String.eqb_eq in E as ->. apply list_elem_of_here.
  - intros H. apply list_elem_of_further. auto.
Qed.

Lemma has_keys m k : has m k = true ↔ k ∈ keys m.
Proof.
  unfold has, keys. induction m as [|[k' v'] m IH]; simpl.
  - split; [discriminate|intros H; inversion H].
  - rewrite get_cons, elem_of_cons. destruct (String.eqb k' k) eqn:E.
    + apply String.eqb_eq in E. split; auto.
    + apply String.eqb_neq in E. rewrite IH. intuition congruence.
Qed.

Lemma get_is_Some_keys m k : is_Some (get m k) ↔ k ∈ keys m.
Proof.
  rewrite <- has_keys. unfold has. destruct (get m k); split; intros H; try done; eauto.
Qed.

Lemma get_None_keys m k : get m k = None ↔ k ∉ keys m.
Proof. rewrite <- get_is_Some_keys, eq_None_not_Some. done. Qed.

Lemma has_false m k : has m k = false ↔ k ∉ keys m.
Proof. rewrite <- has_keys. destruct (has m k); split; congruence. Qed.

Lemma elem_get m k v : NoDup (keys m) → (k, v) ∈ m → get m k = Some v.
Proof.
  induction m as [|[k' v'] m IH]; simpl; intros Hnd Hin; [inversion Hin|].
  apply NoDup_cons in Hnd as [Hn Hnd]. rewrite get_cons.
  apply elem_of_cons in Hin as [[= <- <-]|Hin].
  - by rewrite String.eqb_refl.
  - destruct (String.eqb k' k) eqn:E; [|by apply IH].
    apply String.eqb_eq in E as ->. exfalso; apply Hn.
    unfold keys. apply list_elem_of_In, in_map_iff.
    exists (k, v). split; [done|by apply list_elem_of_In].
Qed.

Lemma keys_set m k v :
  keys (set m k v) = if has m k then keys m else keys m ++ [k].
Proof.
  unfold has. induction m as [|[k' v'] m IH]; simpl; [done|].
  rewrite get_cons. destruct (String.eqb k' k) eqn:E.
  - apply String.eqb_eq in E as ->. done.
  - simpl. rewrite IH. by destruct (get m k).
Qed.

Lemma NoDup_keys_set m k v : NoDup (keys m) → NoDup (keys (set m k v)).
Proof.
  intros H. rewrite keys_set. destruct (has m k) eqn:E; [done|].
  apply NoDup_snoc. split; [done|]. intros Hin. apply has_keys in Hin. congruence.
Qed.

Lemma keys_update m k f : keys (update m k f) = keys m.
Proof.
  unfold keys, update. rewrite List.map_map. apply List.map_ext.
  intros [k' v']; simpl. by destruct (String.eqb k' k).
Qed.

Lemma get_update m k f k' :
  get (update m k f) k' = if String.eqb k k' then f <$> get m k' else get m k'.
Proof.
  induction m as [|[k0 v0] m IH]; simpl.
  - rewrite get_nil. by destruct (String.eqb k k').
  - destruct (String.eqb k0 k) eqn:E0; simpl; rewrite !get_cons, IH.
    + apply String.eqb_eq in E0 as ->. destruct (String.eqb k k') eqn:E; done.
    + destruct (String.eqb k0 k') eqn:E; [|done].
      apply String.eqb_eq in E as ->. rewrite String.eqb_sym, E0. done.
Qed.

Lemma set_absent m k v : get m k = None → set m k v = m ++ [(k, v)].
Proof.
  induction m as [|[k' v'] m IH]; simpl; [done|]. rewrite get_cons.
  destruct (String.eqb k' k); [done|]. intros H. by rewrite IH.
Qed.

Lemma keys_length m : length (keys m) = length m.
Proof. apply List.length_map. Qed.

Lemma keys_lfilter (p : string * V → bool) m : NoDup (keys m) → NoDup (keys (lfilter p m)).
Proof. apply NoDup_map_lfilter. Qed.

Lemma get_lfilter (p : string * V → bool) m k :
  NoDup (keys m) →
  get (lfilter p m) k = match get m k with Some e => if p (k, e) then Some e else None | None => None end.
Proof.
  induction m as [|[k' e] m IH]; intros Hn; [done|]. apply NoDup_cons in Hn as [Hk Hn].
  rewrite lfilter_cons, !get_cons. destruct (String.eqb k' k) eqn:E.
  - apply String.eqb_eq in E as ->. destruct (p (k, e)); [by rewrite get_cons, String.eqb_refl|].
    rewrite IH by done. by rewrite (proj2 (get_None_keys m k) Hk).
  - rewrite <- IH by done. destruct (p (k', e)); [by rewrite get_cons, E|done].
Qed.

Lemma get_delete m k k' : get (delete m k) k' = if String.eqb k k' then None else get m k'.
Proof.
  induction m as [|[k0 v] m IH]; [by destruct (String.eqb k k')|]. unfold delete in *. rewrite lfilter_cons.
  cbn [fst]. destruct (String.eqb_spec k0 k) as [->|N]; cbn [negb]; rewrite ?get_cons, IH.
  - by destruct (String.eqb k k').
  - destruct (String.eqb_spec k k') as [E|]; [|done]. destruct (String.eqb_spec k0 k'); [congruence|done].
Qed.

Lemma get_delete_eq m k : get (delete m k) k = None.
Proof. by rewrite get_delete, String.eqb_refl. Qed.

Lemma get_delete_ne m k k' : k ≠ k' → get (delete m k) k' = get m k'.
Proof. intros N. rewrite get_delete. by destruct (String.eqb_spec k k'). Qed.

Lemma NoDup_keys_delete m k : NoDup (keys m) → NoDup (keys (delete m k)).
Proof. apply keys_lfilter. Qed.

Lemma foldl_set_fresh (key : V → string) l : ∀ m,
  NoDup (keys m ++ List.map key l) →
  foldl (λ m x, set m (key x) x) m l = m ++ List.map (λ x, (key x, x)) l.
Proof.
  induction l as [|x l IH]; intros m Hnd; simpl; [by rewrite app_nil_r|].
  assert (Hx : key x ∉ keys m).
  { apply NoDup_app in Hnd as (_ & Hd & _). intros Hx.
    apply (Hd _ Hx), list_elem_of_here. }
  rewrite set_absent by (by apply get_None_keys).
  rewrite IH; [by rewrite <- app_assoc|].
  unfold keys. rewrite List.map_app, <- app_assoc. exact Hnd.
Qed.

Lemma index_by_map (key : V → string) l :
  NoDup (List.map key l) → index_by key l = List.map (λ x, (key x, x)) l.
Proof. intros H. unfold index_by. by rewrite foldl_set_fresh. Qed.

Lemma get_map_pairs (key : V → string) l k :
  get (List.map (λ x, (key x, x)) l) k = List.find (λ x, String.eqb (key x) k) l.
Proof.
  induction l as [|x l IH]; [done|]. simpl. rewrite get_cons, IH.
  by destruct (String.eqb (key x) k).
Qed.

(** With distinct keys, looking a key up finds the element that carries it. *)
Lemma get_index_by (key : V → string) l k x :
  NoDup (List.map key l) →
  get (index_by key l) k = Some x ↔ x ∈ l ∧ key x = k.
Proof.
  intros Hnd. rewrite index_by_map, get_map_pairs by done. split.
  - intros H. apply find_Some_elem in H as [Hx He]. by apply String.eqb_eq in He.
  - intros [Hx <-].
    destruct (List.find (λ y, String.eqb (key y) (key x)) l) as [y|] eqn:E.
    + apply find_Some_elem in E as [Hy He]. apply String.eqb_eq in He.
      f_equal. eapply (NoDup_fmap_inj_on key); eauto.
    + apply find_None_elem with (x := x) in E; [|done]. simpl in E.
      rewrite String.eqb_refl in E. discriminate.
Qed.

Lemma get_index_by_None (key : V → string) l k :
  NoDup (List.map key l) →
  get (index_by key l) k = None ↔ k ∉ List.map key l.
Proof.
  intros Hnd. rewrite get_None_keys. rewrite index_by_map by done.
  unfold keys. rewrite List.map_map. done.
Qed.
End jmap.

End JMap.

(** ** Facts about sets and strings *)

Lemma elem_of_set_add acc x y : y ∈ set_add acc x ↔ y ∈ acc ∨ y = x.
Proof.
  unfold set_add. destruct (includes acc x) eqn:E.
  - apply includes_true in E. split; [auto|intros [?| ->]; auto].
  - rewrite elem_of_app, list_elem_of_singleton. done.
Qed.

Lemma NoDup_set_add acc x : NoDup acc → NoDup (set_add acc x).
Proof.
  intros H. unfold set_add. destruct (includes acc x) eqn:E; [done|].
  apply includes_false in E. by apply NoDup_snoc.
Qed.

Lemma foldl_set_add_elem l acc y : y ∈ foldl set_add acc l ↔ y ∈ acc ∨ y ∈ l.
Proof.
  revert acc. induction l as [|x l IH]; intros acc; simpl.
  - split; [auto|]. intros [H|H]; [exact H|inversion H].
  - rewrite IH, elem_of_set_add, elem_of_cons. tauto.
Qed.

Lemma elem_of_new_Set l x : x ∈ new_Set l ↔ x ∈ l.
Proof.
  unfold new_Set. rewrite foldl_set_add_elem.
  split; [|auto]. intros [H|H]; [inversion H|exact H].
Qed.

Lemma NoDup_foldl_set_add l acc : NoDup acc → NoDup (foldl set_add acc l).
Proof.
  revert acc. induction l as [|x l IH]; intros acc H; simpl; [done|].
  by apply IH, NoDup_set_add.
Qed.

Lemma NoDup_new_Set l : NoDup (new_Set l).
Proof. apply NoDup_foldl_set_add, NoDup_nil_2. Qed.

Lemma foldl_set_add_fresh l acc :
  NoDup (acc ++ l) → foldl set_add acc l = acc ++ l.
Proof.
  revert acc. induction l as [|x l IH]; intros acc H; simpl.
  - by rewrite app_nil_r.
  - assert (Hx : x ∉ acc).
    { apply NoDup_app in H as (_ & H & _). intros Hx. apply (H x Hx), list_elem_of_here. }
    unfold set_add at 2. rewrite (proj2 (includes_false _ _) Hx).
    rewrite IH; rewrite <- app_assoc; simpl; [done|exact H].
Qed.

Lemma new_Set_NoDup l : NoDup l → new_Set l = l.
Proof. intros H. unfold new_Set. by rewrite foldl_set_add_fresh. Qed.

Lemma truthy_true s : truthy s = true ↔ s ≠ "".
Proof. unfold truthy. rewrite negb_true_iff, String.eqb_neq. done. Qed.

Lemma all_chars_not p (s : string) :
  all_chars p s = true → (∀ c, p c = true → is_space c = false) → trim s = s.
Proof.
  intros Hs Hp.
  assert (Hl : ltrim s = s).
  { destruct s as [|c s]; simpl in *; [done|].
    apply andb_true_iff in Hs as [Hc _]. by rewrite (Hp c Hc). }
  unfold trim. rewrite Hl. clear Hl.
  induction s as [|c s IH]; simpl in *; [done|].
  apply andb_true_iff in Hs as [Hc Hs]. rewrite IH by done.
  destruct s; [by rewrite (Hp c Hc)|done].
Qed.

Lemma is_key_char_not_space c : is_key_char c = true → is_space c = false.
Proof.
  unfold is_key_char, is_key_start, is_space. intros H.
  assert (Hb : (97 <= code c <= 122 ∨ 48 <= code c <= 57) ∨ code c = 46 ∨ code c = 95 ∨ code c = 45)
    by (rewrite ?orb_true_iff, ?andb_true_iff in H; lia).
  rewrite !orb_false_iff, andb_false_iff. lia.
Qed.

(** ** [trim] *)

Lemma rtrim_cons c s : rtrim (String c s) = String c (rtrim s) ∨ rtrim (String c s) = "".
Proof. simpl. destruct (rtrim s); [destruct (is_space c)|]; auto. Qed.

Lemma rtrim_idem s : rtrim (rtrim s) = rtrim s.
Proof.
  induction s as [|c s IH]; [done|]. simpl. destruct (rtrim s) as [|c' s'] eqn:E.
  - destruct (is_space c) eqn:Ec; [done|]. simpl. by rewrite Ec.
  - change (rtrim (String c (String c' s')) = String c (String c' s')).
    cbn [rtrim]. cbn [rtrim] in IH. by rewrite IH.
Qed.

Lemma ltrim_rtrim_ltrim s : ltrim (rtrim (ltrim s)) = rtrim (ltrim s).
Proof.
  induction s as [|c s IH]; [done|]. simpl. destruct (is_space c) eqn:E; [exact IH|].
  simpl. destruct (rtrim s); simpl; [rewrite E; simpl|]; by rewrite E.
Qed.

Lemma trim_idem s : trim (trim s) = trim s.
Proof. unfold trim. by rewrite ltrim_rtrim_ltrim, rtrim_idem. Qed.

Lemma rtrim_trimmed s : trim s = s → rtrim s = s.
Proof. unfold trim. intros H. rewrite <- H at 1. by rewrite rtrim_idem, H. Qed.

Lemma trim_prefixed p s : p ≠ "" → all_chars (λ c, negb (is_space c)) p = true → trim s = s → trim (p +:+ s) = p +:+ s.
Proof.
  intros Hp Ha Hs. apply rtrim_trimmed in Hs.
  assert (Hr : ∀ q, all_chars (λ c, negb (is_space c)) q = true → rtrim (q +:+ s) = q +:+ s).
  { induction q as [|c q IH]; [done|]. intros [Hc Hq]%andb_true_iff.
    change (String c q +:+ s) with (String c (q +:+ s)). cbn [rtrim]. rewrite (IH Hq).
    apply negb_true_iff in Hc. rewrite Hc. by destruct (q +:+ s). }
  unfold trim. rewrite <- (Hr p Ha) at 2. f_equal. destruct p as [|c p]; [done|].
  apply andb_true_iff in Ha as [Hc%negb_true_iff _].
  change (String c p +:+ s) with (String c (p +:+ s)). cbn [ltrim]. by rewrite Hc.
Qed.

Lemma all_chars_slice p n s : all_chars p s = true → all_chars p (slice n s) = true.
Proof.
  unfold slice. generalize (Z.to_nat n). intros k. revert k.
  induction s as [|c s IH]; intros [|k] H; try done. simpl in *.
  apply andb_true_iff in H as [Hc Hs]. rewrite Hc. by apply IH.
Qed.

(** ** The sort keeps the elements *)

Lemma insert_by_perm {A} (f : A → Z) x l : insert_by f x l ≡ₚ x :: l.
Proof.
  induction l as [|y l IH]; simpl; [done|]. destruct (f x <? f y); [done|]. rewrite IH. apply Permutation_swap.
Qed.

Lemma sort_by_perm {A} (f : A → Z) l : sort_by f l ≡ₚ l.
Proof.
  unfold sort_by. rewrite <- (app_nil_r l) at 2. generalize (@nil A).
  induction l as [|x l IH]; intros acc; simpl; [done|].
  rewrite IH, insert_by_perm. symmetry. apply Permutation_middle.
Qed.

Lemma elem_of_sort_by {A} (f : A → Z) l x : x ∈ sort_by f l ↔ x ∈ l.
Proof. by rewrite sort_by_perm. Qed.
