(* ===== verification/Worklist.v ===== *)
(** * Worklist algorithms: depth-first reachability and Kahn's topological sort

    The plan validator and the graph validator run the same two loops over
    their edges.  This file states the loops once, over an adjacency function
    and an edge list, with the invariants that make them correct; the
    components instantiate them. *)

From S2P Require Import Prelude JsStd.

(** ** Depth-first reachability

    [stack.pop()] takes the last pushed element: the head of [stack] here. *)

Section dfs.
Context (adj : string → list string).

Definition visit_next (st : list string * list string) (next : string)
    : list string * list string :=
  let '(seen, stack) := st in
  if includes seen next then st else (seen ++ [next], next :: stack).

Fixpoint dfs (fuel : nat) (seen stack : list string) : list string :=
  match stack with
  | [] => seen
  | cur :: stack' =>
      match fuel with
      | O => seen
      | S fuel' =>
          let '(seen', stack'') := foldl visit_next (seen, stack') (adj cur) in
          dfs fuel' seen' stack''
      end
  end.

Definition step_to (x y : string) : Prop := y ∈ adj x.

Record dfs_inv (from : string) (seen stack : list string) : Prop := {
  dfs_from : from ∈ seen;
  dfs_nodup : NoDup seen;
  dfs_sound : ∀ y, y ∈ seen → rtc step_to from y;
  dfs_stack : stack ⊆ seen;
  dfs_closed : ∀ x y, x ∈ seen → x ∉ stack → y ∈ adj x → y ∈ seen
}.

Lemma visit_next_fold l : ∀ seen stack seen' stack',
  foldl visit_next (seen, stack) l = (seen', stack') →
  ∃ new, seen' = seen ++ new ∧ stack' = reverse new ++ stack ∧
         (NoDup seen → NoDup seen') ∧
         (∀ y, y ∈ new → y ∈ l) ∧ (∀ y, y ∈ l → y ∈ seen').
Proof.
  induction l as [|x l IH]; intros seen stack seen' stack' H; simpl in H.
  - injection H as <- <-. exists []. rewrite app_nil_r.
    repeat split; auto; intros y Hy; inversion Hy.
  - destruct (includes seen x) eqn:E.
    + apply includes_true in E.
      destruct (IH _ _ _ _ H) as (new & -> & -> & Hnd & Hn & Hl).
      exists new. repeat split; auto.
      * intros y Hy. apply list_elem_of_further. auto.
      * intros y [->|Hy]%elem_of_cons; auto. apply elem_of_app; auto.
    + apply includes_false in E.
      destruct (IH _ _ _ _ H) as (new & -> & -> & Hnd & Hn & Hl).
      exists (x :: new). rewrite reverse_cons, <- !app_assoc. simpl.
      repeat split; auto.
      * intros Hs. rewrite <- app_assoc in Hnd. simpl in Hnd.
        apply Hnd, NoDup_snoc. auto.
      * intros y [->|Hy]%elem_of_cons; [apply list_elem_of_here|].
        apply list_elem_of_further; auto.
      * intros y Hy. rewrite <- app_assoc in Hl. simpl in Hl.
        apply elem_of_cons in Hy as [->|Hy]; [|auto].
        apply elem_of_app. right. apply list_elem_of_here.
Qed.

Lemma dfs_step_inv from seen cur stack seen' stack' :
  dfs_inv from seen (cur :: stack) →
  foldl visit_next (seen, stack) (adj cur) = (seen', stack') →
  dfs_inv from seen' stack'.
Proof.
  intros [Hf Hnd Hs Hst Hc] H.
  destruct (visit_next_fold _ _ _ _ _ H) as (new & -> & -> & Hnd' & Hn & Hl).
  assert (Hcur : cur ∈ seen) by apply Hst, list_elem_of_here.
  split.
  - apply elem_of_app; auto.
  - auto.
  - intros y [Hy|Hy]%elem_of_app; [auto|].
    eapply rtc_r; [apply Hs, Hcur|]. red. auto.
  - intros y [Hy|Hy]%elem_of_app; apply elem_of_app.
    + right. by rewrite elem_of_reverse in Hy.
    + left. apply Hst, list_elem_of_further, Hy.
  - intros x y Hx Hxs Hy.
    destruct (decide (x = cur)) as [->|Hne]; [auto|].
    apply elem_of_app in Hx as [Hx|Hx].
    + apply elem_of_app. left. eapply Hc; [exact Hx| |exact Hy].
      intros [?|Hin]%elem_of_cons; [congruence|].
      apply Hxs, elem_of_app. auto.
    + exfalso. apply Hxs, elem_of_app. left. by apply elem_of_reverse.
Qed.

(** With at least as much fuel as there are nodes to see, the loop ends
    with an empty stack, so the invariant holds there. *)
Lemma dfs_run from U fuel : ∀ seen stack,
  dfs_inv from seen stack →
  (∀ x y, y ∈ adj x → y ∈ U) → seen ⊆ U →
  (length U + length stack ≤ fuel + length seen)%nat →
  dfs_inv from (dfs fuel seen stack) [] ∧ dfs fuel seen stack ⊆ U.
Proof.
  induction fuel as [|fuel IH]; intros seen stack Hinv HU Hsub Hfuel.
  - assert (length seen ≤ length U)%nat
      by (apply NoDup_subset_length; [apply Hinv|exact Hsub]).
    destruct stack; simpl in *; [|lia]. split; [exact Hinv|exact Hsub].
  - destruct stack as [|cur stack]; simpl; [split; [exact Hinv|exact Hsub]|].
    destruct (foldl visit_next (seen, stack) (adj cur)) as [seen' stack'] eqn:E.
    pose proof (dfs_step_inv _ _ _ _ _ _ Hinv E) as Hinv'.
    destruct (visit_next_fold _ _ _ _ _ E) as (new & -> & -> & _ & Hn & _).
    apply IH; [exact Hinv'|exact HU| |].
    + intros y [Hy|Hy]%elem_of_app; [auto|]. eapply HU; eauto.
    + rewrite !length_app, length_reverse. simpl in Hfuel. lia.
Qed.

Lemma dfs_correct from U fuel :
  (∀ x y, y ∈ adj x → y ∈ U) → from ∈ U → (length U ≤ fuel)%nat →
  NoDup (dfs fuel [from] [from]) ∧
  ∀ y, y ∈ dfs fuel [from] [from] ↔ rtc step_to from y.
Proof.
  intros HU HfU Hfuel.
  assert (Hinit : dfs_inv from [from] [from]).
  { split.
    - apply list_elem_of_here.
    - apply NoDup_singleton.
    - intros y ->%list_elem_of_singleton. apply rtc_refl.
    - intros y Hy; exact Hy.
    - intros x y Hx Hx'. contradiction. }
  destruct (dfs_run from U fuel [from] [from] Hinit HU) as [Hfin _].
  - intros y ->%list_elem_of_singleton. exact HfU.
  - simpl. lia.
  - split; [apply Hfin|]. intros y. split; [apply Hfin|].
    revert y. apply rtc_ind_r; [apply Hfin|]. intros y z _ Hyz IH.
    eapply (dfs_closed _ _ _ Hfin); [exact IH| |exact Hyz].
    intros Hin; inversion Hin.
Qed.

End dfs.

(** ** Kahn's algorithm

    [edges] is a list of (source, target) pairs, possibly with repetitions;
    the in-degree of a node counts them all. *)

Section kahn.
Context (edges : list (string * string)).

Definition dependents_of (d : string) : list string :=
  List.map snd (lfilter (λ e, String.eqb (fst e) d) edges).

Definition degree (indegree : gmap string Z) (k : string) : Z :=
  default 0 (indegree !! k).

(** The loop over [dependents.get(cur)]: decrement, and push at zero. *)
Definition relax (st : gmap string Z * list string) (next : string)
    : gmap string Z * list string :=
  let '(indegree, out) := st in
  let remaining := degree indegree next - 1 in
  (<[next := remaining]> indegree, if remaining =? 0 then out ++ [next] else out).

(** First in, first out: [queue.shift()] / [queue.push(next)]. *)
Fixpoint kahn_fifo (fuel : nat) (indegree : gmap string Z) (queue order : list string)
    : list string :=
  match queue with
  | [] => order
  | cur :: queue' =>
      match fuel with
      | O => order
      | S fuel' =>
          let '(indegree', queue'') := foldl relax (indegree, queue') (dependents_of cur) in
          kahn_fifo fuel' indegree' queue'' (order ++ [cur])
      end
  end.

(** One layer: every ready node in turn, collecting the nodes it frees. *)
Fixpoint kahn_layer (ready : list string) (indegree : gmap string Z)
    (next order : list string) : gmap string Z * list string * list string :=
  match ready with
  | [] => (indegree, next, order)
  | cur :: ready' =>
      let '(indegree', next') := foldl relax (indegree, next) (dependents_of cur) in
      kahn_layer ready' indegree' next' (order ++ [cur])
  end.

(** Layer by layer, each layer sorted in the author's order. *)
Fixpoint kahn_layers (fuel : nat) (authorOrder : list string)
    (indegree : gmap string Z) (ready order : list string) : list string :=
  match ready with
  | [] => order
  | _ =>
      match fuel with
      | O => order
      | S fuel' =>
          let '(indegree', next, order') := kahn_layer ready indegree [] order in
          kahn_layers fuel' authorOrder indegree'
            (lfilter (λ k, includes next k) authorOrder) order'
      end
  end.

(** *** Invariant *)

(** Edges into [k] from nodes not yet ordered. *)
Definition open_in (order : list string) (k : string) : nat :=
  length (lfilter (λ e, String.eqb (snd e) k && negb (includes order (fst e))) edges).

Definition mult (k : string) (l : list string) : nat :=
  length (lfilter (λ x, String.eqb x k) l).

Definition topo_sorted (order : list string) : Prop :=
  ∀ l1 k l2, order = l1 ++ k :: l2 → ∀ a, (a, k) ∈ edges → a ∈ l1.

Record kahn_inv (keys order pend : list string) (indegree : gmap string Z) : Prop := {
  ki_nodup : NoDup (order ++ pend);
  ki_order : order ⊆ keys;
  ki_pend : pend ⊆ keys;
  ki_degree : ∀ k, k ∈ keys → degree indegree k = Z.of_nat (open_in order k);
  ki_ready : ∀ k, k ∈ keys → k ∉ order → k ∈ pend ↔ open_in order k = 0%nat;
  ki_topo : topo_sorted order
}.

Lemma mult_cons k x l :
  mult k (x :: l) = if String.eqb x k then S (mult k l) else mult k l.
Proof. unfold mult; simpl. by destruct (String.eqb x k). Qed.

Lemma mult_0 k l : mult k l = 0%nat ↔ k ∉ l.
Proof.
  induction l as [|x l IH].
  - split; [intros _ H; inversion H|reflexivity].
  - rewrite mult_cons, elem_of_cons. destruct (String.eqb x k) eqn:E.
    + apply String.eqb_eq in E. split; [discriminate|]. intros H. exfalso; apply H; auto.
    + apply String.eqb_neq in E. rewrite IH. split; intros H ?; apply H; intuition congruence.
Qed.

Lemma mult_pos k l : (0 < mult k l)%nat ↔ k ∈ l.
Proof.
  destruct (mult k l) eqn:E.
  - apply mult_0 in E. split; [lia|contradiction].
  - split; [|lia]. intros _. destruct (decide (k ∈ l)) as [|Hn]; [done|].
    apply mult_0 in Hn. lia.
Qed.

Lemma degree_insert m k v k' :
  degree (<[k := v]> m) k' = if String.eqb k k' then v else degree m k'.
Proof.
  unfold degree. destruct (String.eqb k k') eqn:E.
  - apply String.eqb_eq in E as ->. by rewrite lookup_insert_eq.
  - apply String.eqb_neq in E. by rewrite lookup_insert_ne.
Qed.

Lemma relax_spec ds : ∀ m out m' out',
  foldl relax (m, out) ds = (m', out') →
  (∀ k, k ∈ ds → Z.of_nat (mult k ds) <= degree m k) →
  (∀ k, degree m' k = degree m k - Z.of_nat (mult k ds)) ∧
  ∃ new, out' = out ++ new ∧ NoDup new ∧
         ∀ k, k ∈ new ↔ k ∈ ds ∧ degree m k = Z.of_nat (mult k ds).
Proof.
  induction ds as [|d ds IH]; intros m out m' out' H Hdeg; simpl in H.
  { injection H as <- <-. split; [intros k; change (mult k []) with 0%nat; lia|].
    exists []. rewrite app_nil_r. repeat split; try constructor.
    - inversion H.
    - inversion H.
    - intros [Hin _]; inversion Hin. }
  set (r := degree m d - 1) in *.
  assert (Hd : Z.of_nat (mult d (d :: ds)) <= degree m d) by apply Hdeg, list_elem_of_here.
  rewrite mult_cons, String.eqb_refl in Hd.
  assert (Hdeg' : ∀ k, k ∈ ds → Z.of_nat (mult k ds) <= degree (<[d := r]> m) k).
  { intros k Hk. rewrite degree_insert. destruct (String.eqb d k) eqn:E.
    - apply String.eqb_eq in E as <-. unfold r. lia.
    - etrans; [|apply Hdeg, list_elem_of_further, Hk].
      rewrite mult_cons, E. lia. }
  destruct (IH _ _ _ _ H Hdeg') as (Hdec & new & -> & Hnd & Hnew).
  split.
  - intros k. rewrite Hdec, degree_insert, mult_cons.
    destruct (String.eqb d k) eqn:E; [|lia].
    apply String.eqb_eq in E as <-. unfold r. lia.
  - assert (Hrest : ∀ k, k ≠ d →
      (k ∈ new ↔ k ∈ d :: ds ∧ degree m k = Z.of_nat (mult k (d :: ds)))).
    { intros k Hk. rewrite Hnew, degree_insert, mult_cons, elem_of_cons.
      destruct (String.eqb d k) eqn:E; [apply String.eqb_eq in E; congruence|].
      intuition congruence. }
    destruct (r =? 0) eqn:Er.
    + apply Z.eqb_eq in Er.
      assert (Hdn : mult d ds = 0%nat) by (unfold r in Er; lia).
      assert (Hdnew : d ∉ new) by (rewrite Hnew; apply mult_0 in Hdn; tauto).
      exists (d :: new). rewrite <- app_assoc. repeat split; [by constructor| | |].
      * apply elem_of_cons in H0 as [->|Hk]; [apply list_elem_of_here|].
        apply list_elem_of_further. by apply Hnew in Hk as [? _].
      * apply elem_of_cons in H0 as [->|Hk].
        { rewrite mult_cons, String.eqb_refl. unfold r in Er. lia. }
        destruct (decide (k = d)) as [->|Hne]; [contradiction|].
        by apply Hrest in Hk as [_ ?].
      * intros [Hk Hm]. destruct (decide (k = d)) as [->|Hne]; [apply list_elem_of_here|].
        apply list_elem_of_further. by apply Hrest.
    + apply Z.eqb_neq in Er. exists new. repeat split; [done| | |].
      * apply list_elem_of_further. by apply Hnew in H0 as [? _].
      * destruct (decide (k = d)) as [->|Hne]; [|by apply Hrest in H0 as [_ ?]].
        apply Hnew in H0 as [_ Hk]. rewrite degree_insert, String.eqb_refl in Hk.
        rewrite mult_cons, String.eqb_refl. unfold r in Hk. lia.
      * intros [Hk Hm]. destruct (decide (k = d)) as [->|Hne]; [|by apply Hrest].
        rewrite mult_cons, String.eqb_refl in Hm.
        apply Hnew. split.
        { apply mult_pos. unfold r in Er. lia. }
        rewrite degree_insert, String.eqb_refl. unfold r. lia.
Qed.

(** *** One step of either loop keeps the invariant *)

Lemma elem_dependents d k : k ∈ dependents_of d ↔ (d, k) ∈ edges.
Proof.
  unfold dependents_of. rewrite list_elem_of_In, in_map_iff. split.
  - intros ([a b] & Hb & Hin). simpl in Hb; subst b.
    apply list_elem_of_In, elem_of_lfilter in Hin as [Hin Ha].
    simpl in Ha. apply String.eqb_eq in Ha as ->. exact Hin.
  - intros Hin. exists (d, k). split; [done|].
    apply list_elem_of_In, elem_of_lfilter. split; [done|apply String.eqb_refl].
Qed.

Lemma open_in_snoc order cur k :
  cur ∉ order →
  open_in order k = (open_in (order ++ [cur]) k + mult k (dependents_of cur))%nat.
Proof.
  intros Hcur. unfold open_in, dependents_of.
  induction edges as [|[a b] es IH]; [reflexivity|]. simpl.
  assert (Ha : includes (order ++ [cur]) a = includes order a || String.eqb a cur).
  { apply eq_true_iff_eq.
    rewrite orb_true_iff, !includes_true, String.eqb_eq, elem_of_app, list_elem_of_singleton.
    tauto. }
  rewrite Ha, negb_orb.
  destruct (String.eqb a cur) eqn:Eac; simpl.
  - apply String.eqb_eq in Eac as ->.
    rewrite (proj2 (includes_false _ _) Hcur). simpl.
    rewrite mult_cons, andb_false_r, andb_true_r. destruct (String.eqb b k); simpl; lia.
  - rewrite andb_true_r. destruct (String.eqb b k && negb (includes order a)); simpl; lia.
Qed.

Lemma open_in_0 order k : open_in order k = 0%nat ↔ ∀ a, (a, k) ∈ edges → a ∈ order.
Proof.
  unfold open_in. rewrite length_zero_iff_nil, lfilter_nil. split.
  - intros H a Ha. specialize (H _ Ha). simpl in H.
    rewrite String.eqb_refl in H. simpl in H.
    apply negb_false_iff, includes_true in H. exact H.
  - intros H [a b] Hab. simpl. destruct (String.eqb b k) eqn:E; [|done].
    apply String.eqb_eq in E as ->. simpl.
    apply negb_false_iff, includes_true. auto.
Qed.

Lemma open_in_pos order a k : (a, k) ∈ edges → a ∉ order → (0 < open_in order k)%nat.
Proof.
  intros Hk Ha. destruct (open_in order k) eqn:E; [|lia].
  rewrite open_in_0 in E. exfalso. apply Ha. auto.
Qed.

Lemma topo_sorted_snoc order k :
  topo_sorted order → open_in order k = 0%nat → topo_sorted (order ++ [k]).
Proof.
  intros Ht Hk l1 x l2 Heq a Ha.
  destruct (decide (l2 = [])) as [->|Hne].
  - apply app_inj_tail in Heq as [-> ->]. rewrite open_in_0 in Hk. auto.
  - destruct (exists_last Hne) as (l2' & y & ->).
    change (x :: l2' ++ [y]) with ((x :: l2') ++ [y]) in Heq.
    rewrite app_assoc in Heq. apply app_inj_tail in Heq as [-> _].
    eapply Ht; [reflexivity|exact Ha].
Qed.

Lemma topo_sorted_closed order a k :
  topo_sorted order → k ∈ order → (a, k) ∈ edges → a ∈ order.
Proof.
  intros Ht Hk Ha. apply list_elem_of_split in Hk as (l1 & l2 & ->).
  apply elem_of_app. left. eapply Ht; eauto.
Qed.

Lemma kahn_inv_perm keys order p1 p2 m :
  p1 ≡ₚ p2 → kahn_inv keys order p1 m → kahn_inv keys order p2 m.
Proof.
  intros Hp [Hnd Ho Hpd Hdeg Hr Ht]. split; auto.
  - by rewrite <- Hp.
  - intros x Hx. apply Hpd. by rewrite Hp.
  - intros k Hk Hk'. rewrite <- Hp. auto.
Qed.

Lemma kahn_step keys order cur pend out m m' out' :
  (∀ a b, (a, b) ∈ edges → a ∈ keys ∧ b ∈ keys) →
  kahn_inv keys order (cur :: pend) m →
  foldl relax (m, out) (dependents_of cur) = (m', out') →
  ∃ new, out' = out ++ new ∧ kahn_inv keys (order ++ [cur]) (pend ++ new) m'.
Proof.
  intros Hkeys [Hnd Ho Hp Hdeg Hr Ht] Hrel.
  assert (Hcur : cur ∈ keys) by apply Hp, list_elem_of_here.
  apply NoDup_app in Hnd as (Hnd1 & Hdisj & Hnd2).
  apply NoDup_cons in Hnd2 as [Hcp Hnd2].
  assert (Hco : cur ∉ order).
  { intros Hc. apply (Hdisj cur Hc), list_elem_of_here. }
  assert (Hc0 : open_in order cur = 0%nat) by (apply Hr; auto; apply list_elem_of_here).
  assert (Hdep : ∀ k, k ∈ dependents_of cur → k ∈ keys).
  { intros k Hk. apply elem_dependents in Hk. by destruct (Hkeys _ _ Hk). }
  destruct (relax_spec _ _ _ _ _ Hrel) as (Hdec & new & -> & Hnnd & Hnew).
  { intros k Hk. rewrite Hdeg by auto. rewrite (open_in_snoc order cur) by done. lia. }
  exists new. split; [done|].
  assert (Hnew0 : ∀ k, k ∈ new ↔ k ∈ dependents_of cur ∧ open_in (order ++ [cur]) k = 0%nat).
  { intros k. rewrite Hnew. split; intros [Hk H]; (split; [done|]).
    - rewrite Hdeg, (open_in_snoc order cur k) in H by auto. lia.
    - rewrite Hdeg, (open_in_snoc order cur k) by auto. lia. }
  assert (Hnfresh : ∀ k, k ∈ new → (k ∉ order) ∧ k ≠ cur ∧ k ∉ pend).
  { intros k Hk. apply Hnew0 in Hk as [Hk _].
    assert (He : (cur, k) ∈ edges) by by apply elem_dependents.
    assert (Hpos : (0 < open_in order k)%nat) by (eapply open_in_pos; eauto).
    assert (Hkc : k ≠ cur) by (intros ->; lia).
    assert (Hko : k ∉ order).
    { intros Hk'. apply Hco. eapply topo_sorted_closed; eauto. }
    repeat split; auto. intros Hkp.
    assert (open_in order k = 0%nat); [|lia].
    apply Hr; auto. by apply list_elem_of_further. }
  split.
  - apply NoDup_app. repeat split.
    + apply NoDup_snoc; auto.
    + intros x [Hx| ->%list_elem_of_singleton]%elem_of_app [Hx'|Hx']%elem_of_app.
      * apply (Hdisj x Hx). by apply list_elem_of_further.
      * by apply Hnfresh in Hx' as (? & _).
      * done.
      * by apply Hnfresh in Hx' as (_ & ? & _).
    + apply NoDup_app. repeat split; auto.
      intros x Hx Hx'. by apply Hnfresh in Hx' as (_ & _ & ?).
  - intros x [Hx| ->%list_elem_of_singleton]%elem_of_app; auto.
  - intros x [Hx|Hx]%elem_of_app; [apply Hp, list_elem_of_further, Hx|].
    apply Hnew0 in Hx as [? _]; auto.
  - intros k Hk. rewrite Hdec, Hdeg by done. rewrite (open_in_snoc order cur) by done. lia.
  - intros k Hk Hko. rewrite elem_of_app, list_elem_of_singleton in Hko.
    assert (Hko1 : k ∉ order) by tauto. assert (Hko2 : k ≠ cur) by tauto.
    pose proof (Hr k Hk Hko1) as Hrk. rewrite elem_of_cons in Hrk.
    pose proof (open_in_snoc order cur k Hco) as Hs.
    rewrite elem_of_app, Hnew0. split.
    + intros [Hkp|[_ ?]]; [|done]. assert (open_in order k = 0%nat) by tauto. lia.
    + intros H0. destruct (decide (k ∈ dependents_of cur)) as [|Hnd]; [auto|left].
      apply mult_0 in Hnd. assert (k = cur ∨ k ∈ pend) by (apply Hrk; lia). tauto.
  - apply topo_sorted_snoc; auto.
Qed.

(** *** Result of a finished run: the whole key set, or a cycle *)

Definition topo_of (keys order : list string) : Prop :=
  NoDup order ∧ order ⊆ keys ∧ topo_sorted order ∧
  (∀ k, k ∈ keys → (k ∉ order) → ∃ a, a ∈ keys ∧ (a ∉ order) ∧ (a, k) ∈ edges).

Lemma kahn_inv_done keys order m :
  (∀ a b, (a, b) ∈ edges → a ∈ keys ∧ b ∈ keys) →
  kahn_inv keys order [] m → topo_of keys order.
Proof.
  intros Hkeys [Hnd Ho _ _ Hr Ht]. rewrite app_nil_r in Hnd.
  repeat split; auto. intros k Hk Hko.
  destruct (List.find (λ e, String.eqb (snd e) k && negb (includes order (fst e))) edges)
    as [[a b]|] eqn:E.
  - apply find_Some_elem in E as [Hin Hp]. simpl in Hp. breflect. subst.
    exists a.
    destruct (Hkeys _ _ Hin). auto.
  - exfalso. specialize (Hr k Hk Hko).
    assert (k ∈ ([] : list string)) as Hin; [|inversion Hin].
    apply Hr, open_in_0. intros a Ha. apply find_None_elem with (x := (a, k)) in E; [|done].
    simpl in E. rewrite String.eqb_refl in E. simpl in E.
    by apply negb_false_iff, includes_true in E.
Qed.

Lemma kahn_fifo_correct keys fuel : ∀ indegree queue order,
  (∀ a b, (a, b) ∈ edges → a ∈ keys ∧ b ∈ keys) →
  kahn_inv keys order queue indegree →
  (length keys ≤ fuel + length order)%nat →
  topo_of keys (kahn_fifo fuel indegree queue order).
Proof.
  induction fuel as [|fuel IH]; intros m queue order Hk Hinv Hf.
  - assert (queue = []) as ->.
    { destruct Hinv as [Hnd Ho Hp _ _ _].
      assert (length (order ++ queue) ≤ length keys)%nat as Hl.
      { apply NoDup_subset_length; [done|]. intros x [?|?]%elem_of_app; auto. }
      rewrite length_app in Hl. destruct queue; simpl in *; [done|lia]. }
    simpl. eapply kahn_inv_done; eauto.
  - destruct queue as [|cur queue]; simpl; [eapply kahn_inv_done; eauto|].
    destruct (foldl relax (m, queue) (dependents_of cur)) as [m' q'] eqn:E.
    destruct (kahn_step _ _ _ queue _ _ _ _ Hk Hinv E) as (new & -> & Hinv').
    apply IH; auto. rewrite length_app. simpl. lia.
Qed.

Lemma kahn_layer_correct keys ready : ∀ m next order m' next' order',
  (∀ a b, (a, b) ∈ edges → a ∈ keys ∧ b ∈ keys) →
  kahn_inv keys order (ready ++ next) m →
  kahn_layer ready m next order = (m', next', order') →
  kahn_inv keys order' next' m' ∧ length order' = (length order + length ready)%nat.
Proof.
  induction ready as [|cur ready IH]; intros m next order m' next' order' Hk Hinv H; simpl in H.
  - injection H as <- <- <-. simpl in Hinv. split; [done|simpl; lia].
  - destruct (foldl relax (m, next) (dependents_of cur)) as [m1 n1] eqn:E.
    simpl in Hinv.
    destruct (kahn_step _ _ _ _ _ _ _ _ Hk Hinv E) as (new & -> & Hinv').
    rewrite <- app_assoc in Hinv'.
    destruct (IH _ _ _ _ _ _ Hk Hinv' H) as [Hfin Hlen]. split; [done|].
    rewrite Hlen, length_app. simpl. lia.
Qed.

Lemma kahn_layers_correct keys fuel : ∀ indegree ready order,
  (∀ a b, (a, b) ∈ edges → a ∈ keys ∧ b ∈ keys) → NoDup keys →
  kahn_inv keys order ready indegree →
  (length keys ≤ fuel + length order)%nat →
  topo_of keys (kahn_layers fuel keys indegree ready order).
Proof.
  induction fuel as [|fuel IH]; intros m ready order Hk Hnk Hinv Hf.
  - assert (ready = []) as ->.
    { destruct Hinv as [Hnd Ho Hp _ _ _].
      assert (length (order ++ ready) ≤ length keys)%nat as Hl.
      { apply NoDup_subset_length; [done|]. intros x [?|?]%elem_of_app; auto. }
      rewrite length_app in Hl. destruct ready; simpl in *; [done|lia]. }
    simpl. eapply kahn_inv_done; eauto.
  - destruct ready as [|cur ready]; [simpl; eapply kahn_inv_done; eauto|].
    cbn [kahn_layers].
    destruct (kahn_layer (cur :: ready) m [] order) as [[m' next] order'] eqn:E.
    destruct (kahn_layer_correct keys (cur :: ready) _ _ _ _ _ _ Hk
                ltac:(by rewrite app_nil_r) E) as [Hinv' Hlen].
    apply IH; auto.
    + eapply kahn_inv_perm; [|exact Hinv'].
      apply NoDup_Permutation.
      * destruct Hinv' as [Hnd _ _ _ _ _]. by apply NoDup_app in Hnd as (_ & _ & ?).
      * by apply NoDup_lfilter.
      * intros x. rewrite elem_of_lfilter, includes_true. split; [|tauto].
        intros Hx. split; [|done]. by apply (ki_pend _ _ _ _ Hinv').
    + rewrite Hlen. simpl. lia.
Qed.

(** *** Initial state *)

(** [indegree.set(to, (indegree.get(to) ?? 0) + 1)] over the edges. *)
Definition count_in (m : gmap string Z) (e : string * string) : gmap string Z :=
  <[snd e := degree m (snd e) + 1]> m.

Definition indegree0 (keys : list string) : gmap string Z :=
  foldl (λ m k, <[k := 0]> m) ∅ keys.

Lemma degree_indegree0 keys k : degree (indegree0 keys) k = 0.
Proof.
  unfold indegree0. assert (Hz : ∀ m, (∀ k, degree m k = 0) → ∀ k,
    degree (foldl (λ m k, <[k := 0]> m) m keys) k = 0); [|apply Hz; intros j; done].
  induction keys as [|x keys IH]; intros m Hm j; simpl; [apply Hm|].
  apply IH. intros i. rewrite degree_insert. destruct (String.eqb x i); auto.
Qed.

Lemma degree_count_in (es : list (string * string)) : ∀ m k,
  degree (foldl count_in m es) k
  = degree m k + Z.of_nat (length (lfilter (λ e, String.eqb (snd e) k) es)).
Proof.
  induction es as [|[a b] es IH]; intros m k; simpl; [lia|].
  rewrite IH. unfold count_in. simpl. rewrite degree_insert.
  destruct (String.eqb b k) eqn:E; simpl; [|lia].
  apply String.eqb_eq in E as ->. lia.
Qed.

Lemma kahn_init keys m ready :
  NoDup keys → (∀ k, k ∈ keys → degree m k = Z.of_nat (open_in [] k)) →
  ready = lfilter (λ k, degree m k =? 0) keys →
  kahn_inv keys [] ready m.
Proof.
  intros Hnd Hdeg ->. split; simpl.
  - by apply NoDup_lfilter.
  - intros x Hx; inversion Hx.
  - intros x Hx. by apply elem_of_lfilter in Hx as [? _].
  - exact Hdeg.
  - intros k Hk _. rewrite elem_of_lfilter, Z.eqb_eq, Hdeg by done. intuition lia.
  - intros l1 k l2 H. by destruct l1.
Qed.

Lemma open_in_nil k :
  open_in [] k = length (lfilter (λ e, String.eqb (snd e) k) edges).
Proof.
  unfold open_in. f_equal. unfold lfilter. apply List.filter_ext. intros e.
  assert (includes [] (fst e) = false) as ->.
  { apply includes_false. intros H; inversion H. }
  by rewrite andb_true_r.
Qed.

(** A rank that increases along every edge: the edges form a DAG. *)
Definition ranked : Prop :=
  ∃ rank : string → nat, ∀ a b, (a, b) ∈ edges → (rank a < rank b)%nat.

Fixpoint index_of (k : string) (l : list string) : nat :=
  match l with
  | [] => 0
  | x :: l => if String.eqb x k then 0 else S (index_of k l)
  end%nat.

Lemma index_of_app_l k l1 l2 : k ∈ l1 → index_of k (l1 ++ l2) = index_of k l1 ∧ (index_of k l1 < length l1)%nat.
Proof.
  induction l1 as [|x l1 IH]; intros Hk; [inversion Hk|]. simpl.
  destruct (String.eqb x k) eqn:E; [split; [done|lia]|].
  apply elem_of_cons in Hk as [->|Hk]; [by rewrite String.eqb_refl in E|].
  destruct (IH Hk) as [-> ?]. split; [done|lia].
Qed.

Lemma index_of_app_r k l1 l2 : k ∉ l1 → index_of k (l1 ++ l2) = (length l1 + index_of k l2)%nat.
Proof.
  induction l1 as [|x l1 IH]; intros Hk; [done|]. simpl.
  destruct (String.eqb x k) eqn:E.
  - apply String.eqb_eq in E as ->. exfalso. apply Hk, list_elem_of_here.
  - rewrite IH; [done|]. intros ?. apply Hk. by apply list_elem_of_further.
Qed.

Lemma topo_sorted_ranked order :
  NoDup order → topo_sorted order → (∀ a b, (a, b) ∈ edges → b ∈ order) → ranked.
Proof.
  intros Hnd Ht Hin. exists (λ k, index_of k order). intros a b Hab.
  pose proof (Hin _ _ Hab) as Hb. apply list_elem_of_split in Hb as (l1 & l2 & ->).
  assert (Ha : a ∈ l1) by (eapply Ht; eauto).
  apply NoDup_app in Hnd as (_ & Hd & _).
  assert (Hb1 : b ∉ l1) by (intros Hb; apply (Hd b Hb), list_elem_of_here).
  destruct (index_of_app_l a l1 (b :: l2) Ha) as [-> ?].
  rewrite index_of_app_r by done. simpl. rewrite String.eqb_refl. lia.
Qed.

Lemma ranked_complete keys order : topo_of keys order → ranked → keys ⊆ order.
Proof.
  intros (_ & _ & _ & Hpred) [rank Hrank].
  assert (Hall : ∀ n k, (rank k < n)%nat → k ∈ keys → k ∈ order).
  { induction n as [|n IHn]; intros k Hn Hk; [lia|].
    destruct (decide (k ∈ order)) as [|Hko]; [done|].
    destruct (Hpred k Hk Hko) as (a & Ha & Hao & He). exfalso. apply Hao.
    apply IHn; [|done]. specialize (Hrank _ _ He). lia. }
  intros k Hk. eapply Hall; [|exact Hk]. apply Nat.lt_succ_diag_r.
Qed.

(** The run orders every key exactly when the edges form a DAG. *)
Lemma topo_of_complete keys order :
  (∀ a b, (a, b) ∈ edges → a ∈ keys ∧ b ∈ keys) → NoDup keys →
  topo_of keys order →
  (length order = length keys ↔ ranked) ∧ (length order = length keys → order ≡ₚ keys).
Proof.
  intros Hk Hnk Hto. pose proof Hto as (Hnd & Ho & Ht & _).
  assert (Hperm : length order = length keys → order ≡ₚ keys).
  { intros Hl. apply (submseteq_length_Permutation order keys); [|lia].
    by apply NoDup_submseteq. }
  repeat split; auto.
  - intros Hl. apply (topo_sorted_ranked order); auto.
    intros a b Hab. rewrite (Hperm Hl). by destruct (Hk _ _ Hab).
  - intros Hr. pose proof (ranked_complete _ _ Hto Hr) as Hsub.
    apply Nat.le_antisymm; apply NoDup_subset_length; auto.
Qed.

End kahn.
