(* ===== verification/Vocabulary.v ===== *)
(** * Shared vocabulary of orchestration mode

    Models [orchestration.constants.ts] up to plan validation: mission and step
    statuses and the predicates over them, the confirm and chat policies with
    their defensive readers, completion criteria and post-actions.  A status is
    a string, as in the entity columns: a row may hold a value outside the
    list, and the predicates are what decides how it is treated. *)

From S2P Require Import Prelude JsStd.

(** ** Mission status *)

Definition MISSION_STATUSES : list string :=
  ["draft"; "planning"; "running"; "paused"; "completed"; "failed"; "cancelled"].

Definition TERMINAL_MISSION_STATUSES : list string := ["completed"; "failed"; "cancelled"].

Definition isTerminalMissionStatus (s : string) : bool := includes TERMINAL_MISSION_STATUSES s.

(** ** Step status *)

Definition STEP_STATUSES : list string :=
  ["pending"; "ready"; "dispatched"; "running"; "done"; "failed"; "blocked"; "skipped";
   "cancelled"; "needs_recovery"; "awaiting_user"].

Definition IN_FLIGHT_STEP_STATUSES : list string := ["dispatched"; "running"].

Definition TERMINAL_STEP_STATUSES : list string :=
  ["done"; "failed"; "blocked"; "skipped"; "cancelled"; "needs_recovery"].

Definition AWAITING_USER_STATUS : string := "awaiting_user".

Definition isAwaitingUser (s : string) : bool := String.eqb s AWAITING_USER_STATUS.

Definition STEP_RETRY_POLICIES : list string := ["auto"; "manual"].

Definition DEPENDENCY_SATISFYING_STATUSES : list string := ["done"; "skipped"].

Definition DEPENDENCY_POISONING_STATUSES : list string :=
  ["failed"; "blocked"; "cancelled"; "needs_recovery"].

Definition isInFlight (s : string) : bool := includes IN_FLIGHT_STEP_STATUSES s.

Definition isTerminalStepStatus (s : string) : bool := includes TERMINAL_STEP_STATUSES s.

(** ** Confirm policy *)

Inductive ConfirmPolicy : Type := policy_none | policy_auto | policy_key_steps | policy_every_step.

#[export] Instance ConfirmPolicy_eq_dec : EqDecision ConfirmPolicy.
Proof. solve_decision. Defined.

Definition ConfirmPolicy_string (p : ConfirmPolicy) : string :=
  match p with
  | policy_none => "none"
  | policy_auto => "auto"
  | policy_key_steps => "key_steps"
  | policy_every_step => "every_step"
  end.

Definition CONFIRM_POLICIES : list ConfirmPolicy :=
  [policy_none; policy_auto; policy_key_steps; policy_every_step].

Definition DEFAULT_CONFIRM_POLICY : ConfirmPolicy := policy_auto.

Definition normalizeConfirmPolicy (value : jsval) : ConfirmPolicy :=
  let v := toLowerCase (trim (js_String (nullish_or value (JStr "")))) in
  match List.find (λ p, String.eqb (ConfirmPolicy_string p) v) CONFIRM_POLICIES with
  | Some p => p
  | None => DEFAULT_CONFIRM_POLICY
  end.

(** ** User chat mode *)

Inductive UserChatMode : Type := chat_open | chat_participants_only | chat_off.

#[export] Instance UserChatMode_eq_dec : EqDecision UserChatMode.
Proof. solve_decision. Defined.

Definition UserChatMode_string (m : UserChatMode) : string :=
  match m with
  | chat_open => "open"
  | chat_participants_only => "participants_only"
  | chat_off => "off"
  end.

Definition USER_CHAT_MODES : list UserChatMode := [chat_open; chat_participants_only; chat_off].

Definition DEFAULT_USER_CHAT_MODE : UserChatMode := chat_open.

Definition normalizeUserChatMode (value : jsval) : UserChatMode :=
  let v := toLowerCase (trim (js_String (nullish_or value (JStr "")))) in
  match List.find (λ p, String.eqb (UserChatMode_string p) v) USER_CHAT_MODES with
  | Some p => p
  | None => DEFAULT_USER_CHAT_MODE
  end.

Definition openJoinForUserChatMode (mode : UserChatMode) : bool :=
  bool_decide (mode = chat_open).

(** ** Confirm verdicts *)

Definition CONFIRM_VERDICTS : list string := ["pass"; "fail"].
Definition CONFIRM_FEEDBACK_MAX : Z := 4000.

Record ConfirmDecision := {
  cd_verdict : string;
  cd_feedback : string;
  cd_decided_by_user_id : string;
  cd_decided_by_name : string;
  cd_decided_at : Z;
  cd_visit : Z
}.

(** ** Limits *)

(** [/^[a-z0-9][a-z0-9._-]{0,47}$/], also [CRITERION_KEY_PATTERN]. *)
Definition STEP_KEY_PATTERN (s : string) : bool :=
  match s with
  | EmptyString => false
  | String c s' => is_key_start c && all_chars is_key_char s' && (slength s' <=? 47)
  end.

Definition MAX_STEPS_CEILING : Z := 200.
Definition MAX_PARALLEL_CEILING : Z := 12.
Definition MAX_STEP_ATTEMPTS_CEILING : Z := 20.
Definition INSTRUCTIONS_MAX : Z := 8000.
Definition SUMMARY_MAX : Z := 8000.
Definition MAX_ARTIFACTS_PER_STEP : Z := 30.

(** ** Completion criteria *)

Record MissionCompletionCriterion := {
  cc_key : string;
  cc_description : string;
  cc_met : bool;
  cc_met_at : jsval;
  cc_note : string
}.

Inductive criteria_error : Type :=
  | criteria_not_an_array
  | criterion_invalid_key (raw : jsval)
  | criterion_duplicate_key (key : string)
  | criterion_no_description (key : string).

Definition read_string (v : jsval) (key : string) : string :=
  js_String (nullish_or (prop v key) (JStr "")).

(** One iteration of [normalizeCompletionCriteria]: the set of keys seen so far
    and the output array. *)
Definition normalize_criterion (st : list string * list MissionCompletionCriterion) (raw : jsval)
    : res criteria_error (list string * list MissionCompletionCriterion) :=
  let '(seen, out) := st in
  let key := trim (read_string raw "key") in
  _ ← fail_if (negb (STEP_KEY_PATTERN key)) (criterion_invalid_key (prop raw "key"));
  _ ← fail_if (includes seen key) (criterion_duplicate_key key);
  let description := trim (read_string raw "description") in
  _ ← fail_if (negb (truthy description)) (criterion_no_description key);
  let met := is_true_val (prop raw "met") in
  Ok (set_add seen key,
      out ++ [{| cc_key := key; cc_description := description; cc_met := met;
                 cc_met_at := if met then nullish_or (prop raw "met_at") JNull else JNull;
                 cc_note := slice 1000 (read_string raw "note") |}]).

Definition normalizeCompletionCriteria (input : jsval)
    : res criteria_error (list MissionCompletionCriterion) :=
  if is_nullish input then Ok []
  else match input with
  | JArr items => '(_, out) ← foldM normalize_criterion ([], []) items; Ok out
  | _ => Err criteria_not_an_array
  end.

(** The JSON a stored criterion is written as. *)
Definition criterion_json (c : MissionCompletionCriterion) : jsval :=
  JObj [("key", JStr (cc_key c)); ("description", JStr (cc_description c));
        ("met", JBool (cc_met c)); ("met_at", cc_met_at c); ("note", JStr (cc_note c))].

Definition allCriteriaMet (criteria : option (list MissionCompletionCriterion)) : bool :=
  match criteria with
  | None | Some [] => true
  | Some cs => levery cc_met cs
  end.

(** ** Post-actions *)

Inductive PostActionCondition : Type := always | on_success | on_failure.
Inductive PostActionStatus : Type :=
  | pa_pending | pa_in_flight | pa_dispatched | pa_dispatch_failed | pa_skipped.

#[export] Instance PostActionCondition_eq_dec : EqDecision PostActionCondition.
Proof. solve_decision. Defined.
#[export] Instance PostActionStatus_eq_dec : EqDecision PostActionStatus.
Proof. solve_decision. Defined.

Definition POST_ACTION_STALE_IN_FLIGHT_MS : Z := 2 * 60000.

Record MissionPostAction := {
  pa_action_id : string;
  pa_order : Z;
  pa_condition : PostActionCondition;
  pa_status : PostActionStatus;
  pa_run_id : option string;
  pa_room_id : option string;
  pa_error : string;
  pa_dispatched_at : option Z
}.

Definition parse_condition (v : jsval) : option PostActionCondition :=
  match v with
  | JStr "always" => Some always
  | JStr "on_success" => Some on_success
  | JStr "on_failure" => Some on_failure
  | _ => None
  end.

Definition normalize_post_action (out : list MissionPostAction) (raw : jsval)
    : list MissionPostAction :=
  let actionId := trim (read_string raw "action_id") in
  if negb (truthy actionId) then out
  else
    out ++ [{| pa_action_id := actionId; pa_order := Z.of_nat (length out);
               pa_condition := default always (parse_condition (prop raw "condition"));
               pa_status := pa_pending; pa_run_id := None; pa_room_id := None;
               pa_error := ""; pa_dispatched_at := None |}].

Definition normalizePostActions (input : jsval) : res unit (list MissionPostAction) :=
  if is_nullish input then Ok []
  else match input with
  | JArr items => Ok (foldl normalize_post_action [] items)
  | _ => Err tt
  end.

Definition postActionApplies (condition : PostActionCondition) (missionStatus : string) : bool :=
  match condition with
  | always => true
  | on_success => String.eqb missionStatus "completed"
  | on_failure => String.eqb missionStatus "failed"
  end.

(** ** Facts *)

Lemma status_terminal_split s :
  isTerminalStepStatus s
  = includes DEPENDENCY_SATISFYING_STATUSES s || includes DEPENDENCY_POISONING_STATUSES s.
Proof.
  unfold isTerminalStepStatus. apply eq_true_iff_eq.
  rewrite orb_true_iff, !includes_true.
  unfold TERMINAL_STEP_STATUSES, DEPENDENCY_SATISFYING_STATUSES, DEPENDENCY_POISONING_STATUSES.
  rewrite !elem_of_cons, !elem_of_nil. tauto.
Qed.

Lemma satisfying_not_poisoning s :
  includes DEPENDENCY_SATISFYING_STATUSES s = true →
  includes DEPENDENCY_POISONING_STATUSES s = false.
Proof.
  rewrite includes_true, includes_false.
  unfold DEPENDENCY_SATISFYING_STATUSES, DEPENDENCY_POISONING_STATUSES.
  rewrite !elem_of_cons, !elem_of_nil. intros [->|[->|[]]]; intuition discriminate.
Qed.

Lemma step_key_trim s : STEP_KEY_PATTERN s = true → trim s = s.
Proof.
  intros H. apply (all_chars_not is_key_char); [|apply is_key_char_not_space].
  destruct s as [|c s]; [done|]. simpl in *. breflect.
  unfold is_key_char at 1. rewrite H. simpl. done.
Qed.

Lemma step_key_not_empty s : STEP_KEY_PATTERN s = true → s ≠ "".
Proof. by intros H ->. Qed.
