(* ===== verification/Plan.v ===== *)
(** * Wave plans: validation and progress

    Models the plan half of [orchestration.constants.ts]: [validatePlan], which
    accepts an orchestrator's step list exactly when its [depends_on] arrays
    form a DAG over well-formed keys, and [computePlanProgress], which sorts the
    steps of a mission into dispatchable, waiting, blocked and so on.  The
    [Progress] record and [push_class] are shared with the graph engine. *)

From S2P Require Import Prelude JsStd Worklist Vocabulary.
#[local] Open Scope Z_scope.

(** ** Input *)

Record PlanStepInput := {
  pi_step_key : string;
  pi_title : string;
  pi_instructions : option string;
  pi_acceptance_criteria : option string;
  pi_depends_on : option (list string);
  pi_assignee : option string;
  pi_assignee_agent_id : option string;
  pi_project : option string;
  pi_retry_policy : option string
}.

Inductive plan_error : Type :=
  | plan_empty
  | plan_too_long (n max : Z)
  | plan_invalid_key (raw : string)
  | plan_duplicate_key (key : string)
  | plan_no_title (key : string)
  | plan_long_instructions (key : string)
  | plan_self_dependency (key : string)
  | plan_unknown_dependency (key dep : string)
  | plan_cycle (stuck : list string).

(** [String(s.step_key).trim()] *)
Definition plan_key (s : PlanStepInput) : string := trim (pi_step_key s).

(** ** Validation *)

(** First loop: key shape, uniqueness, title, instruction length. *)
Definition check_step (seen : list string) (s : PlanStepInput) : res plan_error (list string) :=
  let key := plan_key s in
  _ ← fail_if (negb (STEP_KEY_PATTERN key)) (plan_invalid_key (pi_step_key s));
  _ ← fail_if (includes seen key) (plan_duplicate_key key);
  let seen := set_add seen key in
  _ ← fail_if (negb (truthy (trim (pi_title s)))) (plan_no_title key);
  _ ← fail_if (INSTRUCTIONS_MAX <? slength (default "" (pi_instructions s)))
        (plan_long_instructions key);
  Ok seen.

(** The deduplicated, trimmed dependency list of one step. *)
Definition plan_deps (s : PlanStepInput) : list string :=
  match pi_depends_on s with
  | Some l => new_Set (lfilter truthy (List.map trim l))
  | None => []
  end.

(** Second loop: dependency targets. *)
Definition check_deps (seen : list string) (deps : list (string * list string))
    (s : PlanStepInput) : res plan_error (list (string * list string)) :=
  let key := plan_key s in
  let list := plan_deps s in
  _ ← forM_ (λ d,
        _ ← fail_if (String.eqb d key) (plan_self_dependency key);
        fail_if (negb (includes seen d)) (plan_unknown_dependency key d)) list;
  Ok (JMap.set deps key list).

(** The edges the [dependents] map is filled with, in that order. *)
Definition plan_edges (deps : list (string * list string)) : list (string * string) :=
  List.flat_map (λ e, List.map (λ d, (d, fst e)) (snd e)) deps.

Definition plan_indegree (deps : list (string * list string)) : gmap string Z :=
  foldl (λ m e, <[fst e := Z.of_nat (length (snd e))]> m) (indegree0 (JMap.keys deps)) deps.

(** Kahn's algorithm in layers, each in author order. *)
Definition plan_order (steps : list PlanStepInput) (deps : list (string * list string))
    : list PlanStepInput :=
  let byKey := JMap.index_by plan_key steps in
  let authorOrder := List.map plan_key steps in
  let indegree := plan_indegree deps in
  let ready := lfilter (λ k, degree indegree k =? 0) authorOrder in
  omap (JMap.get byKey)
    (kahn_layers (plan_edges deps) (length steps) authorOrder indegree ready []).

Definition validatePlan (steps : list PlanStepInput) (maxSteps : Z)
    : res plan_error (list PlanStepInput) :=
  _ ← fail_if (bool_decide (length steps = 0%nat)) plan_empty;
  _ ← fail_if (maxSteps <? Z.of_nat (length steps))
        (plan_too_long (Z.of_nat (length steps)) maxSteps);
  seen ← foldM check_step [] steps;
  deps ← foldM (check_deps seen) [] steps;
  let ordered := plan_order steps deps in
  if bool_decide (length ordered = length steps) then Ok ordered
  else Err (plan_cycle (lfilter (λ k, negb (lsome (λ s, String.eqb (plan_key s) k) ordered))
                          (List.map plan_key steps))).

(** ** Progress *)

Record Progress := {
  pr_dispatchable : list string;
  pr_waiting : list string;
  pr_newlyBlocked : list string;
  pr_inFlight : list string;
  pr_awaitingUser : list string;
  pr_done : list string;
  pr_failed : list string;
  pr_allTerminal : bool
}.

Definition empty_progress : Progress :=
  {| pr_dispatchable := []; pr_waiting := []; pr_newlyBlocked := []; pr_inFlight := [];
     pr_awaitingUser := []; pr_done := []; pr_failed := []; pr_allTerminal := true |}.

(** The list a step is pushed on. *)
Inductive step_class : Type :=
  | cls_dispatchable | cls_waiting | cls_newlyBlocked | cls_inFlight | cls_awaitingUser
  | cls_done | cls_failed.

#[export] Instance step_class_eq_dec : EqDecision step_class.
Proof. solve_decision. Defined.

Definition class_terminal (c : step_class) : bool :=
  match c with cls_done | cls_failed => true | _ => false end.

(** [out.<list>.push(key)], with [out.allTerminal = false] on the open classes. *)
Definition push_class (out : Progress) (key : string) (c : step_class) : Progress :=
  let out := if class_terminal c then out else out<|pr_allTerminal := false|> in
  match c with
  | cls_dispatchable => out<|pr_dispatchable := pr_dispatchable out ++ [key]|>
  | cls_waiting => out<|pr_waiting := pr_waiting out ++ [key]|>
  | cls_newlyBlocked => out<|pr_newlyBlocked := pr_newlyBlocked out ++ [key]|>
  | cls_inFlight => out<|pr_inFlight := pr_inFlight out ++ [key]|>
  | cls_awaitingUser => out<|pr_awaitingUser := pr_awaitingUser out ++ [key]|>
  | cls_done => out<|pr_done := pr_done out ++ [key]|>
  | cls_failed => out<|pr_failed := pr_failed out ++ [key]|>
  end.

Record StepStateView := {
  sv_step_key : string;
  sv_status : string;
  sv_depends_on : option (list string)
}.

(** The loop over a pending step's dependencies, with its [break]. *)
Fixpoint scan_deps (byKey : list (string * StepStateView)) (deps : list string)
    (waiting : bool) : step_class :=
  match deps with
  | [] => if waiting then cls_waiting else cls_dispatchable
  | d :: deps =>
      match JMap.get byKey d with
      | None => scan_deps byKey deps waiting
      | Some dep =>
          if includes DEPENDENCY_POISONING_STATUSES (sv_status dep) then cls_newlyBlocked
          else scan_deps byKey deps
                 (waiting || negb (includes DEPENDENCY_SATISFYING_STATUSES (sv_status dep)))
      end
  end.

(** One iteration of the classification loop. *)
Definition plan_class (byKey : list (string * StepStateView)) (s : StepStateView) : step_class :=
  let status := sv_status s in
  if isInFlight status then cls_inFlight
  else if isAwaitingUser status then cls_awaitingUser
  else if String.eqb status "done" || String.eqb status "skipped" then cls_done
  else if String.eqb status "failed" || String.eqb status "blocked"
          || String.eqb status "cancelled" || String.eqb status "needs_recovery"
       then cls_failed
  else scan_deps byKey (default [] (sv_depends_on s)) false.

Definition views_by_key (steps : list StepStateView) : list (string * StepStateView) :=
  JMap.index_by sv_step_key steps.

Definition computePlanProgress (steps : list StepStateView) : Progress :=
  let byKey := views_by_key steps in
  foldl (λ out s, push_class out (sv_step_key s) (plan_class byKey s)) empty_progress steps.

(** ** Facts about the validation loops *)

Definition step_ok (s : PlanStepInput) : Prop :=
  STEP_KEY_PATTERN (plan_key s) = true ∧ trim (pi_title s) ≠ "" ∧
  slength (default "" (pi_instructions s)) <= INSTRUCTIONS_MAX.

Lemma check_step_iff seen s seen' :
  check_step seen s = Ok seen' ↔ step_ok s ∧ (plan_key s ∉ seen) ∧ seen' = seen ++ [plan_key s].
Proof.
  unfold check_step, step_ok, set_add. split.
  - intros H. res_inv. breflect.
    repeat match goal with
    | H : truthy _ = true |- _ => apply truthy_true in H
    | H : _ ∉ seen |- _ => rewrite (proj2 (includes_false _ _) H) in *
    end.
    repeat split; auto.
  - intros ((Hk & Ht & Hl) & Hs & ->). rewrite Hk. simpl.
    rewrite (proj2 (includes_false _ _) Hs). simpl.
    rewrite (proj2 (truthy_true _) Ht). simpl.
    rewrite (proj2 (Z.ltb_ge _ _) Hl). done.
Qed.

Lemma check_steps_iff steps : ∀ acc seen,
  NoDup acc →
  foldM check_step acc steps = Ok seen ↔
  (∀ s, s ∈ steps → step_ok s) ∧ NoDup (acc ++ List.map plan_key steps) ∧
  seen = acc ++ List.map plan_key steps.
Proof.
  induction steps as [|s steps IH]; intros acc seen Hnd; simpl.
  - rewrite app_nil_r. split.
    + intros [= <-]. repeat split; auto. all: inversion H.
    + intros (_ & _ & ->). done.
  - rewrite bind_Ok. split.
    + intros (acc' & Hs & Hr). apply check_step_iff in Hs as (Hok & Hfresh & ->).
      apply IH in Hr as (Hall & Hnd' & ->); [|by apply NoDup_snoc].
      rewrite <- app_assoc in Hnd' |- *. repeat split; auto.
      all: apply elem_of_cons in H as [->|H]; [apply Hok|by apply Hall].
    + intros (Hall & Hnd' & ->). exists (acc ++ [plan_key s]). split.
      * apply check_step_iff. repeat split; try apply Hall, list_elem_of_here.
        apply NoDup_app in Hnd' as (_ & Hd & _). intros Hin.
        apply (Hd _ Hin), list_elem_of_here.
      * apply IH.
        { apply NoDup_snoc. split; [done|].
          apply NoDup_app in Hnd' as (_ & Hd & _). intros Hin.
          apply (Hd _ Hin), list_elem_of_here. }
        rewrite <- app_assoc. repeat split; auto.
        all: apply Hall; by apply list_elem_of_further.
Qed.

Definition deps_ok (seen : list string) (s : PlanStepInput) : Prop :=
  ∀ d, d ∈ plan_deps s → d ≠ plan_key s ∧ d ∈ seen.

Lemma check_deps_iff seen deps s deps' :
  check_deps seen deps s = Ok deps' ↔
  deps_ok seen s ∧ deps' = JMap.set deps (plan_key s) (plan_deps s).
Proof.
  unfold check_deps, deps_ok. rewrite bind_Ok. setoid_rewrite forM_Ok. split.
  - intros (_ & Hd & [= <-]). split; [|done]. intros d Hin. specialize (Hd d Hin).
    res_inv. breflect. done.
  - intros (Hd & ->). exists tt. split; [|done]. intros d Hin. specialize (Hd d Hin) as [Hne Hs].
    apply String.eqb_neq in Hne. rewrite Hne. simpl.
    by rewrite (proj2 (includes_true _ _) Hs).
Qed.

Definition dep_entries (steps : list PlanStepInput) : list (string * list string) :=
  List.map (λ s, (plan_key s, plan_deps s)) steps.

Lemma check_all_deps_iff seen steps : ∀ acc deps,
  NoDup (JMap.keys acc ++ List.map plan_key steps) →
  foldM (check_deps seen) acc steps = Ok deps ↔
  (∀ s, s ∈ steps → deps_ok seen s) ∧ deps = acc ++ dep_entries steps.
Proof.
  induction steps as [|s steps IH]; intros acc deps Hnd; simpl.
  - rewrite app_nil_r. split; [intros [= <-]; split; [intros s Hs; inversion Hs|done]|].
    intros [_ ->]; done.
  - assert (Hk : JMap.get acc (plan_key s) = None).
    { apply JMap.get_None_keys. apply NoDup_app in Hnd as (_ & Hd & _). intros Hin.
      apply (Hd _ Hin), list_elem_of_here. }
    assert (Hnd' : NoDup (JMap.keys (acc ++ [(plan_key s, plan_deps s)])
                          ++ List.map plan_key steps)).
    { unfold JMap.keys. rewrite List.map_app, <- app_assoc. exact Hnd. }
    rewrite bind_Ok. split.
    + intros (acc' & Hs & Hr). apply check_deps_iff in Hs as (Hok & ->).
      rewrite JMap.set_absent in Hr by done. apply IH in Hr as (Hall & ->); [|done].
      rewrite <- app_assoc. split; [|done].
      intros x [->|Hx]%elem_of_cons; auto.
    + intros (Hall & ->). eexists. split.
      * apply check_deps_iff. split; [|done]. apply Hall, list_elem_of_here.
      * rewrite JMap.set_absent by done. apply IH; [done|]. rewrite <- app_assoc.
        split; [|done]. intros x Hx. apply Hall. by apply list_elem_of_further.
Qed.

(** ** Facts about the sort *)

Lemma plan_edges_elem steps a b :
  (a, b) ∈ plan_edges (dep_entries steps) ↔ ∃ s, s ∈ steps ∧ plan_key s = b ∧ a ∈ plan_deps s.
Proof.
  unfold plan_edges, dep_entries. rewrite list_elem_of_In, in_flat_map. split.
  - intros ([k l] & Hk & Hin). apply in_map_iff in Hk as (s & [= <- <-] & Hs).
    apply in_map_iff in Hin as (d & [= -> <-] & Hd). exists s.
    by rewrite !list_elem_of_In.
  - intros (s & Hs & <- & Ha). exists (plan_key s, plan_deps s). simpl.
    rewrite !in_map_iff. rewrite !list_elem_of_In in *. split; eauto.
Qed.

Lemma count_edges_into k0 (l : list string) k :
  length (lfilter (λ e : string * string, String.eqb (snd e) k)
            (List.map (λ d, (d, k0)) l))
  = if String.eqb k0 k then length l else 0%nat.
Proof.
  induction l as [|d l IH]; simpl; [by destruct (String.eqb k0 k)|].
  destruct (String.eqb k0 k); simpl; by rewrite IH.
Qed.

Lemma plan_indegree_entries deps : ∀ m k,
  NoDup (JMap.keys deps) →
  degree (foldl (λ m e, <[fst e := Z.of_nat (length (snd e))]> m) m deps) k
  = if includes (JMap.keys deps) k
    then Z.of_nat (length (lfilter (λ e, String.eqb (snd e) k) (plan_edges deps)))
    else degree m k.
Proof.
  induction deps as [|[k0 l] deps IH]; intros m k Hnd; simpl; [done|].
  simpl in Hnd. apply NoDup_cons in Hnd as [Hk0 Hnd]. rewrite IH by done.
  rewrite lfilter_app, length_app, count_edges_into, degree_insert.
  assert (Hinc : includes (k0 :: JMap.keys deps) k
                 = String.eqb k0 k || includes (JMap.keys deps) k).
  { apply eq_true_iff_eq. rewrite orb_true_iff, !includes_true, elem_of_cons, String.eqb_eq.
    intuition congruence. }
  rewrite Hinc. destruct (String.eqb k0 k) eqn:E; simpl.
  - apply String.eqb_eq in E as ->.
    rewrite (proj2 (includes_false _ _) Hk0).
    assert (lfilter (λ e : string * string, String.eqb e.2 k) (plan_edges deps) = []) as ->;
      [|simpl; lia].
    apply lfilter_nil. intros [a b] Hab. simpl. apply String.eqb_neq. intros ->.
    apply Hk0. unfold plan_edges in Hab. apply list_elem_of_In, in_flat_map in Hab.
    destruct Hab as ([k1 l1] & Hk1 & Hin). apply in_map_iff in Hin as (d & [= _ <-] & _).
    apply list_elem_of_In, in_map_iff. by exists (k1, l1).
  - done.
Qed.

Lemma plan_sort_correct steps :
  NoDup (List.map plan_key steps) →
  (∀ s, s ∈ steps → deps_ok (List.map plan_key steps) s) →
  let deps := dep_entries steps in
  let keys := List.map plan_key steps in
  topo_of (plan_edges deps) keys
    (kahn_layers (plan_edges deps) (length steps) keys (plan_indegree deps)
       (lfilter (λ k, degree (plan_indegree deps) k =? 0) keys) []).
Proof.
  intros Hnd Hdeps deps keys.
  assert (Hkeys : JMap.keys deps = keys).
  { unfold deps, dep_entries, JMap.keys. by rewrite List.map_map. }
  apply kahn_layers_correct; auto.
  - intros a b (s & Hs & <- & Ha)%plan_edges_elem. split; [by apply (Hdeps s Hs)|].
    apply list_elem_of_In, in_map. by apply list_elem_of_In.
  - apply kahn_init; auto. intros k Hk. rewrite open_in_nil.
    unfold plan_indegree. rewrite plan_indegree_entries by (by rewrite Hkeys).
    rewrite Hkeys. by rewrite (proj2 (includes_true _ _) Hk).
  - unfold keys. rewrite List.length_map. simpl. lia.
Qed.

Lemma omap_index_by {V} (key : V → string) l ks :
  NoDup (List.map key l) → ks ⊆ List.map key l →
  List.map key (omap (JMap.get (JMap.index_by key l)) ks) = ks ∧
  omap (JMap.get (JMap.index_by key l)) ks ⊆ l.
Proof.
  intros Hnd. induction ks as [|k ks IH]; intros Hs; simpl; [split; [done|intros x Hx; inversion Hx]|].
  assert (Hk : k ∈ List.map key l) by apply Hs, list_elem_of_here.
  apply list_elem_of_In, in_map_iff in Hk as (x & <- & Hx). apply list_elem_of_In in Hx.
  assert (Hg : JMap.get (JMap.index_by key l) (key x) = Some x) by (by apply JMap.get_index_by).
  rewrite Hg. simpl. destruct IH as [IH1 IH2].
  { intros y Hy. apply Hs. by apply list_elem_of_further. }
  split; [f_equal; exact IH1|]. intros y [->|Hy]%elem_of_cons; [done|]. by apply IH2.
Qed.

(** The dependency graph of a plan, and the order of its steps. *)
Definition plan_acyclic (steps : list PlanStepInput) : Prop :=
  ∃ rank : string → nat, ∀ s d, s ∈ steps → d ∈ plan_deps s → (rank d < rank (plan_key s))%nat.

Definition dependency_first (steps : list PlanStepInput) : Prop :=
  ∀ before s after, steps = before ++ s :: after →
  ∀ d, d ∈ plan_deps s → d ∈ List.map plan_key before.

Lemma plan_ranked steps : ranked (plan_edges (dep_entries steps)) ↔ plan_acyclic steps.
Proof.
  split; intros [rank Hr]; exists rank.
  - intros s d Hs Hd. apply Hr, plan_edges_elem. eauto.
  - intros a b (s & Hs & <- & Ha)%plan_edges_elem. auto.
Qed.

Lemma plan_order_correct steps :
  NoDup (List.map plan_key steps) →
  (∀ s, s ∈ steps → deps_ok (List.map plan_key steps) s) →
  let out := plan_order steps (dep_entries steps) in
  (length out = length steps ↔ plan_acyclic steps) ∧
  (length out = length steps → out ≡ₚ steps ∧ dependency_first out).
Proof.
  intros Hnd Hdeps out.
  pose proof (plan_sort_correct steps Hnd Hdeps) as Ht. cbv zeta in Ht.
  set (order := kahn_layers _ _ _ _ _ _) in Ht.
  assert (Hsub : order ⊆ List.map plan_key steps) by apply Ht.
  destruct (omap_index_by plan_key steps order Hnd Hsub) as [Hk Hs].
  change (omap _ order) with out in Hk, Hs.
  assert (Hlen : length out = length order) by (rewrite <- Hk; by rewrite List.length_map).
  assert (Hnout : NoDup (List.map plan_key out)) by (rewrite Hk; apply Ht).
  destruct (topo_of_complete (plan_edges (dep_entries steps)) (List.map plan_key steps) order)
    as [Hiff _]; auto.
  { intros a b (s & Hs' & <- & Ha)%plan_edges_elem. split; [by apply (Hdeps s Hs')|].
    apply list_elem_of_In, in_map. by apply list_elem_of_In. }
  rewrite List.length_map in Hiff. rewrite Hlen, <- plan_ranked. split; [exact Hiff|].
  intros Hl. split.
  - apply (submseteq_length_Permutation out steps); [|lia].
    apply NoDup_submseteq; [|exact Hs].
    apply NoDup_ListNoDup, (NoDup_map_inv plan_key), NoDup_ListNoDup, Hnout.
  - intros before s after Heq d Hd.
    destruct Ht as (_ & _ & Htopo & _).
    apply (Htopo (List.map plan_key before) (plan_key s) (List.map plan_key after)).
    + rewrite <- Hk, Heq, List.map_app. done.
    + apply plan_edges_elem. exists s. repeat split; auto.
      apply Hs. rewrite Heq. apply elem_of_app. right. apply list_elem_of_here.
Qed.

Definition well_formed_plan (steps : list PlanStepInput) (maxSteps : Z) : Prop :=
  steps ≠ [] ∧ Z.of_nat (length steps) <= maxSteps ∧
  (∀ s, s ∈ steps → step_ok s) ∧ NoDup (List.map plan_key steps) ∧
  (∀ s, s ∈ steps → deps_ok (List.map plan_key steps) s) ∧ plan_acyclic steps.

Lemma validatePlan_iff steps maxSteps out :
  validatePlan steps maxSteps = Ok out ↔
  well_formed_plan steps maxSteps ∧ out = plan_order steps (dep_entries steps).
Proof.
  unfold validatePlan, well_formed_plan. split.
  - intros H. res_inv. breflect.
    match goal with H : foldM check_step _ _ = Ok _ |- _ =>
      apply check_steps_iff in H as (Hok & Hnd & ->); [|apply NoDup_nil_2] end.
    match goal with H : foldM (check_deps _) _ _ = Ok _ |- _ =>
      apply check_all_deps_iff in H as (Hd & ->); [|exact Hnd] end.
    simpl in *. destruct (plan_order_correct steps Hnd Hd) as [Hiff _].
    case_bool_decide as Hl; [|discriminate].
    match goal with H : Ok _ = Ok _ |- _ => injection H as <- end.
    split_and!; auto; [intros ->; done|by apply Hiff].
  - intros ((Hne & Hmax & Hok & Hnd & Hd & Hac) & ->).
    rewrite bool_decide_false by (intros Hl; by apply nil_length_inv in Hl). simpl.
    rewrite (proj2 (Z.ltb_ge _ _) Hmax). simpl.
    rewrite (proj2 (check_steps_iff steps [] _ (NoDup_nil_2)))
      by (split_and!; eauto). simpl.
    rewrite (proj2 (check_all_deps_iff _ steps [] _ Hnd)) by (split; eauto). simpl.
    destruct (plan_order_correct steps Hnd Hd) as [Hiff _].
    rewrite bool_decide_true by (by apply Hiff). done.
Qed.

(** ** Facts about progress *)

Definition class_list (c : step_class) (p : Progress) : list string :=
  match c with
  | cls_dispatchable => pr_dispatchable p
  | cls_waiting => pr_waiting p
  | cls_newlyBlocked => pr_newlyBlocked p
  | cls_inFlight => pr_inFlight p
  | cls_awaitingUser => pr_awaitingUser p
  | cls_done => pr_done p
  | cls_failed => pr_failed p
  end.

Definition has_class {A} (cls : A → step_class) (c : step_class) (x : A) : bool :=
  bool_decide (cls x = c).

Section classify.
Context {A : Type} (key : A → string) (cls : A → step_class).

Definition classify_step (out : Progress) (x : A) : Progress := push_class out (key x) (cls x).

Lemma class_list_push c p k c' :
  class_list c (push_class p k c')
  = class_list c p ++ (if bool_decide (c' = c) then [k] else []).
Proof. destruct c, c'; simpl; rewrite ?app_nil_r; reflexivity. Qed.

Lemma allTerminal_push p k c :
  pr_allTerminal (push_class p k c) = pr_allTerminal p && class_terminal c.
Proof. destruct p as [? ? ? ? ? ? ? t]; destruct c, t; reflexivity. Qed.

(** The classification loop puts each element on the list of its class, in order. *)
Lemma class_list_fold c l : ∀ p,
  class_list c (foldl classify_step p l)
  = class_list c p ++ List.map key (lfilter (has_class cls c) l).
Proof.
  induction l as [|x l IH]; intros p; simpl; [by rewrite app_nil_r|].
  rewrite IH. unfold classify_step. rewrite class_list_push, <- app_assoc.
  f_equal. unfold has_class at 2. by case_bool_decide.
Qed.

Lemma allTerminal_fold l : ∀ p,
  pr_allTerminal (foldl classify_step p l)
  = pr_allTerminal p && levery (λ x, class_terminal (cls x)) l.
Proof.
  induction l as [|x l IH]; intros p; simpl; [by rewrite andb_true_r|].
  rewrite IH. unfold classify_step. by rewrite allTerminal_push, andb_assoc.
Qed.

Definition all_lists (p : Progress) : list string :=
  class_list cls_dispatchable p ++ class_list cls_waiting p ++
  class_list cls_newlyBlocked p ++ class_list cls_inFlight p ++
  class_list cls_awaitingUser p ++ class_list cls_done p ++ class_list cls_failed p.

Lemma all_lists_push p k c : all_lists (push_class p k c) ≡ₚ k :: all_lists p.
Proof.
  unfold all_lists. rewrite !class_list_push.
  destruct c; rewrite ?bool_decide_true, ?bool_decide_false by done;
    rewrite ?app_nil_r, <- ?app_assoc; simpl app;
    repeat rewrite <- Permutation_middle; rewrite ?app_nil_r; reflexivity.
Qed.

Lemma all_lists_fold l : ∀ p,
  all_lists (foldl classify_step p l) ≡ₚ all_lists p ++ List.map key l.
Proof.
  induction l as [|x l IH]; intros p; simpl; [by rewrite app_nil_r|].
  rewrite IH. unfold classify_step. rewrite all_lists_push. simpl.
  by rewrite Permutation_middle.
Qed.

Lemma class_list_elem c l k :
  k ∈ class_list c (foldl classify_step empty_progress l) ↔
  ∃ x, x ∈ l ∧ key x = k ∧ cls x = c.
Proof.
  rewrite class_list_fold. replace (class_list c empty_progress) with (@nil string)
    by (by destruct c). simpl. rewrite list_elem_of_In, in_map_iff.
  setoid_rewrite <- list_elem_of_In. setoid_rewrite elem_of_lfilter.
  unfold has_class. setoid_rewrite bool_decide_true_iff. split.
  - intros (x & Hk & Hx & Hc). eauto.
  - intros (x & Hx & Hk & Hc). eauto.
Qed.
End classify.

Lemma computePlanProgress_classify steps :
  computePlanProgress steps
  = foldl (classify_step sv_step_key (plan_class (views_by_key steps))) empty_progress steps.
Proof. reflexivity. Qed.


Lemma plan_class_open byKey s :
  plan_class byKey s = cls_waiting →
  ∃ d dep, d ∈ default [] (sv_depends_on s) ∧ JMap.get byKey d = Some dep ∧
    includes DEPENDENCY_POISONING_STATUSES (sv_status dep) = false ∧
    includes DEPENDENCY_SATISFYING_STATUSES (sv_status dep) = false.
Proof.
  unfold plan_class. intros H. do 4 (case_match; [discriminate|]).
  assert (Hscan : ∀ deps w, scan_deps byKey deps w = cls_waiting → w = true ∨
    ∃ d dep, d ∈ deps ∧ JMap.get byKey d = Some dep ∧
      includes DEPENDENCY_POISONING_STATUSES (sv_status dep) = false ∧
      includes DEPENDENCY_SATISFYING_STATUSES (sv_status dep) = false).
  { induction deps as [|d deps IH]; intros w Hw; simpl in Hw; [destruct w; [by left|done]|].
    destruct (JMap.get byKey d) as [dep|] eqn:Hg.
    - destruct (includes DEPENDENCY_POISONING_STATUSES _) eqn:Hp; [discriminate|].
      destruct (includes DEPENDENCY_SATISFYING_STATUSES (sv_status dep)) eqn:Hs.
      + rewrite orb_false_r in Hw. destruct (IH _ Hw) as [->|(d' & x & Hd & ?)]; [by left|].
        right. exists d', x. split; [by apply list_elem_of_further|done].
      + right. exists d, dep. split_and!; auto. apply list_elem_of_here.
    - destruct (IH _ Hw) as [->|(d' & x & Hd & ?)]; [by left|].
      right. exists d', x. split; [by apply list_elem_of_further|done]. }
  destruct (Hscan _ _ H) as [|?]; [discriminate|done].
Qed.

Lemma plan_class_terminal byKey s :
  class_terminal (plan_class byKey s) = isTerminalStepStatus (sv_status s).
Proof.
  unfold plan_class. rewrite status_terminal_split.
  destruct (isInFlight (sv_status s)) eqn:E1.
  { apply includes_true in E1. unfold IN_FLIGHT_STEP_STATUSES in E1.
    rewrite !elem_of_cons, elem_of_nil in E1. by destruct E1 as [->|[->|[]]]. }
  destruct (isAwaitingUser (sv_status s)) eqn:E2.
  { apply String.eqb_eq in E2 as ->. done. }
  destruct (String.eqb (sv_status s) "done" || String.eqb (sv_status s) "skipped") eqn:E3.
  { by apply orb_true_iff in E3 as [E3|E3]; apply String.eqb_eq in E3 as ->. }
  destruct (_ || _) eqn:E4 in |- *.
  { rewrite !orb_true_iff, !String.eqb_eq in E4.
    by destruct E4 as [[[->| ->]| ->]| ->]. }
  assert (Hs : ∀ deps w, class_terminal (scan_deps byKey deps w) = false).
  { induction deps as [|d deps IH]; intros w; simpl; [by destruct w|].
    destruct (JMap.get byKey d); [|apply IH].
    destruct (includes DEPENDENCY_POISONING_STATUSES _); [done|apply IH]. }
  rewrite Hs. symmetry. apply orb_false_iff. rewrite !includes_false.
  rewrite !orb_false_iff, !String.eqb_neq in E3. rewrite !orb_false_iff, !String.eqb_neq in E4.
  unfold DEPENDENCY_SATISFYING_STATUSES, DEPENDENCY_POISONING_STATUSES.
  rewrite !elem_of_cons, !elem_of_nil. intuition.
Qed.

Lemma get_views steps d dep :
  JMap.get (views_by_key steps) d = Some dep → dep ∈ steps ∧ sv_step_key dep = d.
Proof.
  unfold views_by_key, JMap.index_by.
  assert (H : ∀ l m, (∀ k x, JMap.get m k = Some x → x ∈ steps ∧ sv_step_key x = k) → l ⊆ steps →
    ∀ k x, JMap.get (foldl (λ m x, JMap.set m (sv_step_key x) x) m l) k = Some x →
           x ∈ steps ∧ sv_step_key x = k).
  { induction l as [|y l IH]; intros m Hm Hl k x; simpl; [apply Hm|].
    apply IH; [|intros z Hz; apply Hl; by apply list_elem_of_further].
    intros k' x' Hx'. destruct (decide (sv_step_key y = k')) as [<-|Hne].
    - rewrite JMap.get_set_eq in Hx'. injection Hx' as <-.
      split; [apply Hl, list_elem_of_here|done].
    - rewrite JMap.get_set_ne in Hx' by done. by apply Hm. }
  apply H; [intros k x Hx; discriminate|done].
Qed.

(** ** Properties *)

(** C28: [validatePlan] accepts a plan if and only if it is non-empty and within the
    mission's limit, every step has a well-formed key, a title and bounded
    instructions, keys are unique, dependencies name other steps of the plan, and
    the dependency graph is acyclic. *)
Theorem validatePlan_accepts_iff (steps : list PlanStepInput) (maxSteps : Z) :
  is_Ok (validatePlan steps maxSteps) = true ↔ well_formed_plan steps maxSteps.
Proof.
  split.
  - destruct (validatePlan steps maxSteps) as [out|e] eqn:E; [|done]. intros _.
    by apply validatePlan_iff in E as [? _].
  - intros H. by rewrite (proj2 (validatePlan_iff _ _ _) (conj H eq_refl)).
Qed.

(** An accepted plan is returned as a permutation of the submitted steps in
    which every step comes after all of its dependencies. *)
Theorem validatePlan_topological (steps : list PlanStepInput) (maxSteps : Z) out :
  validatePlan steps maxSteps = Ok out → out ≡ₚ steps ∧ dependency_first out.
Proof.
  intros H. apply validatePlan_iff in H as ((_ & _ & _ & Hnd & Hd & Hac) & ->).
  destruct (plan_order_correct steps Hnd Hd) as [Hiff Hout]. by apply Hout, Hiff.
Qed.

Definition sample_step (key : string) (deps : list string) : PlanStepInput :=
  {| pi_step_key := key; pi_title := "work"; pi_instructions := None;
     pi_acceptance_criteria := None; pi_depends_on := Some deps; pi_assignee := None;
     pi_assignee_agent_id := None; pi_project := None; pi_retry_policy := None |}.

Lemma validatePlan_topological_witness :
  let steps := [sample_step "c" ["a"; " b"]; sample_step "b" ["a"]; sample_step "a" []] in
  let out := [sample_step "a" []; sample_step "b" ["a"]; sample_step "c" ["a"; " b"]] in
  out ≡ₚ steps ∧ dependency_first out.
Proof.
  intros steps out. apply (validatePlan_topological steps 20 out). vm_compute. reflexivity.
Defined.

(** [computePlanProgress] puts every step on exactly one list, and reports
    [allTerminal] exactly when every step has a terminal status. *)
Theorem plan_progress_partition (steps : list StepStateView) :
  all_lists (computePlanProgress steps) ≡ₚ List.map sv_step_key steps ∧
  (pr_allTerminal (computePlanProgress steps) = true ↔
   ∀ s, s ∈ steps → isTerminalStepStatus (sv_status s) = true).
Proof.
  rewrite computePlanProgress_classify. split.
  - by rewrite all_lists_fold.
  - rewrite allTerminal_fold. simpl. rewrite levery_true.
    split; intros H s Hs; [rewrite <- (plan_class_terminal (views_by_key steps))|
                           rewrite plan_class_terminal]; auto.
Qed.

(** No deadlock on an acyclic plan: if some step is open, nothing is in
    flight and nothing awaits the user, then a step is dispatchable or can be
    declared blocked. *)
Theorem plan_no_deadlock (steps : list StepStateView) (rank : string → nat) :
  (∀ s d, s ∈ steps → d ∈ default [] (sv_depends_on s) → (rank d < rank (sv_step_key s))%nat) →
  let p := computePlanProgress steps in
  pr_allTerminal p = false → pr_inFlight p = [] → pr_awaitingUser p = [] →
  pr_dispatchable p ≠ [] ∨ pr_newlyBlocked p ≠ [].
Proof.
  intros Hrank p Hopen Hfl Haw.
  destruct (pr_dispatchable p) as [|? ?] eqn:Hd; [|by left].
  destruct (pr_newlyBlocked p) as [|? ?] eqn:Hb; [|by right]. exfalso.
  set (cls := plan_class (views_by_key steps)).
  assert (Hno : ∀ c s, class_list c p = [] → s ∈ steps → cls s ≠ c).
  { intros c s Hc Hs He.
    assert (Hin : sv_step_key s ∈ class_list c p) by (apply class_list_elem; eauto).
    rewrite Hc in Hin. inversion Hin. }
  assert (Hwait : ∀ s, s ∈ steps → isTerminalStepStatus (sv_status s) = false →
                       cls s = cls_waiting).
  { intros s Hs Ht. pose proof (plan_class_terminal (views_by_key steps) s) as Hct.
    rewrite Ht in Hct. fold cls in Hct. destruct (cls s) eqn:Ec; try done; exfalso;
      (eapply Hno; [|exact Hs|exact Ec]; assumption). }
  unfold p in Hopen. rewrite computePlanProgress_classify, allTerminal_fold in Hopen.
  simpl in Hopen. apply not_true_iff_false in Hopen. apply Hopen, levery_true.
  intros s Hs. rewrite plan_class_terminal. apply not_false_iff_true.
  set (open s := s ∈ steps ∧ isTerminalStepStatus (sv_status s) = false).
  assert (Hn : ¬ open s); [|by intros ?; apply Hn].
  apply (rank_descent open (λ s, rank (sv_step_key s))).
  intros x [Hx Hxo].
  destruct (plan_class_open _ _ (Hwait x Hx Hxo)) as (d & dep & Hin & Hg & Hp & Hsat).
  apply get_views in Hg as [Hdep <-]. exists dep. split; [|eauto].
  split; [done|]. rewrite status_terminal_split. by rewrite Hp, Hsat.
Qed.

Lemma plan_no_deadlock_witness :
  let steps := [{| sv_step_key := "a"; sv_status := "failed"; sv_depends_on := None |};
                {| sv_step_key := "b"; sv_status := "pending"; sv_depends_on := Some ["a"] |};
                {| sv_step_key := "c"; sv_status := "pending"; sv_depends_on := Some ["b"] |}] in
  pr_dispatchable (computePlanProgress steps) ≠ [] ∨
  pr_newlyBlocked (computePlanProgress steps) ≠ [].
Proof.
  intros steps.
  apply (plan_no_deadlock steps
           (λ k, if String.eqb k "a" then 0 else if String.eqb k "b" then 1 else 2)%nat);
    [|reflexivity..].
  intros s d Hs Hd. unfold steps in Hs.
  repeat (apply elem_of_cons in Hs as [->|Hs]; simpl in Hd;
          [repeat (apply elem_of_cons in Hd as [->|Hd]; [simpl; lia|]); inversion Hd|]).
  inversion Hs.
Defined.
