(* ===== verification/Graph.v ===== *)
(** * GraphSpec: schema and validation

    Models the first half of [orchestration-graph.ts]: the versioned execution
    graph of a mission, its input form, and [validateGraphSpec], phase by phase
    in the order of the code.  Each [return { error }] of the validator is a
    constructor of [graph_error].  The facts are in [GraphFacts]. *)

From S2P Require Import Prelude JsStd Worklist Vocabulary.
#[local] Open Scope Z_scope.

Definition GRAPH_SPEC_VERSION : Z := 1.

(** ** Vocabulary *)

Inductive GraphNodeKind : Type := nk_task | nk_evaluator | nk_router | nk_confirm.
Inductive GraphEdgeKind : Type := ek_sequence | ek_conditional | ek_loop_back.
Inductive JoinPolicy : Type := join_all | join_any.

#[export] Instance GraphNodeKind_eq_dec : EqDecision GraphNodeKind.
Proof. solve_decision. Defined.
#[export] Instance GraphEdgeKind_eq_dec : EqDecision GraphEdgeKind.
Proof. solve_decision. Defined.
#[export] Instance JoinPolicy_eq_dec : EqDecision JoinPolicy.
Proof. solve_decision. Defined.

Definition GRAPH_NODE_KINDS : list (string * GraphNodeKind) :=
  [("task", nk_task); ("evaluator", nk_evaluator); ("router", nk_router); ("confirm", nk_confirm)].
Definition GRAPH_EDGE_KINDS : list (string * GraphEdgeKind) :=
  [("sequence", ek_sequence); ("conditional", ek_conditional); ("loop_back", ek_loop_back)].
Definition JOIN_POLICIES : list (string * JoinPolicy) := [("all", join_all); ("any", join_any)].

Definition node_kind_string (k : GraphNodeKind) : string :=
  match k with
  | nk_task => "task" | nk_evaluator => "evaluator" | nk_router => "router"
  | nk_confirm => "confirm"
  end.
Definition edge_kind_string (k : GraphEdgeKind) : string :=
  match k with
  | ek_sequence => "sequence" | ek_conditional => "conditional" | ek_loop_back => "loop_back"
  end.
Definition join_string (j : JoinPolicy) : string :=
  match j with join_all => "all" | join_any => "any" end.

Definition CONFIRM_PASS : string := "pass".
Definition CONFIRM_FAIL : string := "fail".

Definition MAX_NODE_VISITS_CEILING : Z := 25.
Definition MAX_TOTAL_VISITS_CEILING : Z := 500.
Definition MIN_LOOP_MAX_VISITS : Z := 2.

(** ** Schema *)

Record EdgeCondition := {
  ec_status : option (list string);
  ec_verdict : option (list string)
}.

#[export] Instance EdgeCondition_eq_dec : EqDecision EdgeCondition.
Proof. solve_decision. Defined.

Record GraphNode := {
  gn_key : string;
  gn_kind : GraphNodeKind;
  gn_join : JoinPolicy;
  gn_max_visits : Z
}.

Record GraphEdge := {
  ge_from : string;
  ge_to : string;
  ge_kind : GraphEdgeKind;
  ge_when : option EdgeCondition;
  ge_label : option string
}.

Record GraphSpec := {
  gs_version : Z;
  gs_nodes : list GraphNode;
  gs_edges : list GraphEdge;
  gs_entry : list string;
  gs_terminal : list string;
  gs_max_total_visits : Z
}.

Record GraphNodeInput := {
  ni_key : string;
  ni_kind : option string;
  ni_join : option string;
  ni_max_visits : option number
}.

Record GraphEdgeInput := {
  ei_from : string;
  ei_to : string;
  ei_kind : option string;
  ei_when : option EdgeCondition;
  ei_label : option string
}.

#[export] Instance GraphEdgeInput_eq_dec : EqDecision GraphEdgeInput.
Proof. solve_decision. Defined.

Record GraphSpecInput := {
  si_version : option number;
  si_nodes : option (list GraphNodeInput);
  si_edges : option (list GraphEdgeInput);
  si_max_total_visits : option number
}.

Inductive graph_error : Type :=
  | g_not_object
  | g_unsupported_version (version : number)
  | g_no_nodes
  | g_invalid_node_key (raw : string)
  | g_unknown_node (key : string)
  | g_duplicate_node (key : string)
  | g_unknown_kind (key : string)
  | g_unknown_join (key : string)
  | g_invalid_max_visits (key : string)
  | g_unknown_source (raw : string)
  | g_unknown_target (raw : string)
  | g_self_edge (from to : string)
  | g_unknown_edge_kind (from to : string)
  | g_duplicate_edge (from to : string) (kind : GraphEdgeKind)
  | g_conditional_without_when (from to : string)
  | g_loop_without_when (from to : string)
  | g_cycle (stuck : list string)
  | g_loop_not_closing (from to : string)
  | g_loop_low_cap (from to : string) (max_visits : Z)
  | g_loop_without_budget (loops : Z)
  | g_invalid_budget
  | g_budget_below_nodes (budget nodes : Z)
  | g_no_entry
  | g_orphans (keys : list string)
  | g_router_few_edges (key : string) (n : Z)
  | g_router_unconditional (key : string) (targets : list string)
  | g_evaluator_no_verdict (key : string)
  | g_confirm_policy_none (key : string)
  | g_confirm_missing_verdict (key : string) (missing : list string)
  | g_confirm_both_on_one_edge (key to : string)
  | g_confirm_shared_target (key to : string).

(** ** Helpers *)

(** [isPositiveInt], returning the integer it established. *)
Definition isPositiveInt (v : number) : option Z :=
  match v with
  | JInt z => if 0 <? z then Some z else None
  | JNonInt _ => None
  end.

Definition nonempty (l : list string) : option (list string) :=
  match l with [] => None | _ => Some l end.

Definition normalizeCondition (raw : option EdgeCondition) : option EdgeCondition :=
  match raw with
  | None => None
  | Some src =>
      let status :=
        new_Set (lfilter truthy (List.map trim (default [] (ec_status src)))) in
      let verdict :=
        new_Set (lfilter truthy
          (List.map (λ s, toLowerCase (trim s)) (default [] (ec_verdict src)))) in
      match status, verdict with
      | [], [] => None
      | _, _ => Some {| ec_status := nonempty status; ec_verdict := nonempty verdict |}
      end
  end.

Definition is_loop_back (e : GraphEdge) : bool := bool_decide (ge_kind e = ek_loop_back).

(** [adjacency.get(cur) ?? []] *)
Definition adjacency (edges : list GraphEdge) (includeLoopBack : bool) (cur : string) : list string :=
  List.map ge_to
    (lfilter (λ e, (includeLoopBack || negb (is_loop_back e)) && String.eqb (ge_from e) cur) edges).

(** Each node enters the stack once, and every node but the first is the target
    of an edge, so [S (length edges)] iterations empty the stack. *)
Definition reachableVia (edges : list GraphEdge) (from : string) (includeLoopBack : bool)
    : list string :=
  dfs (adjacency edges includeLoopBack) (S (length edges)) [from] [from].

Definition swap_edge (e : GraphEdge) : GraphEdge :=
  {| ge_from := ge_to e; ge_to := ge_from e; ge_kind := ge_kind e;
     ge_when := None; ge_label := None |}.

Definition loopBodyNodes (edges : list GraphEdge) (loop : GraphEdge) : list string :=
  let forwardFromTarget := reachableVia edges (ge_to loop) false in
  let reversed := List.map swap_edge (lfilter (λ e, negb (is_loop_back e)) edges) in
  let canReachSource := reachableVia reversed (ge_from loop) false in
  lfilter (includes canReachSource) forwardFromTarget.

(** ** Validation, phase by phase *)

Definition nodes_map := list (string * GraphNode).

(** The loop over [input.nodes]. *)
Definition check_node (planKeys : list string) (byKey : nodes_map) (raw : GraphNodeInput)
    : res graph_error nodes_map :=
  let key := trim (ni_key raw) in
  _ ← fail_if (negb (STEP_KEY_PATTERN key)) (g_invalid_node_key (ni_key raw));
  _ ← fail_if (negb (includes planKeys key)) (g_unknown_node key);
  _ ← fail_if (JMap.has byKey key) (g_duplicate_node key);
  match JMap.get GRAPH_NODE_KINDS (trim (default "task" (ni_kind raw))) with
  | None => Err (g_unknown_kind key)
  | Some kind =>
  match JMap.get JOIN_POLICIES (trim (default "all" (ni_join raw))) with
  | None => Err (g_unknown_join key)
  | Some join =>
  match isPositiveInt (default (JInt 1) (ni_max_visits raw)) with
  | None => Err (g_invalid_max_visits key)
  | Some maxVisits =>
      _ ← fail_if (MAX_NODE_VISITS_CEILING <? maxVisits) (g_invalid_max_visits key);
      Ok (JMap.set byKey key
            {| gn_key := key; gn_kind := kind; gn_join := join; gn_max_visits := maxVisits |})
  end end end.

(** Steps the graph does not mention become isolated task nodes. *)
Definition default_node (key : string) : GraphNode :=
  {| gn_key := key; gn_kind := nk_task; gn_join := join_all; gn_max_visits := 1 |}.

Definition fill_node (byKey : nodes_map) (key : string) : nodes_map :=
  if JMap.has byKey key then byKey else JMap.set byKey key (default_node key).

(** The separator is the code unit 0, which no key contains. *)
Definition dedupe_key (from to : string) (kind : GraphEdgeKind) : string :=
  String.append from (String "000" (String.append to (String "000" (edge_kind_string kind)))).

(** The loop over [input.edges]. *)
Definition check_edge (byKey : nodes_map) (st : list GraphEdge * list string)
    (raw : GraphEdgeInput) : res graph_error (list GraphEdge * list string) :=
  let '(edges, seenEdge) := st in
  let from := trim (ei_from raw) in
  let to := trim (ei_to raw) in
  _ ← fail_if (negb (JMap.has byKey from)) (g_unknown_source (ei_from raw));
  _ ← fail_if (negb (JMap.has byKey to)) (g_unknown_target (ei_to raw));
  _ ← fail_if (String.eqb from to) (g_self_edge from to);
  match JMap.get GRAPH_EDGE_KINDS (trim (default "sequence" (ei_kind raw))) with
  | None => Err (g_unknown_edge_kind from to)
  | Some kind =>
      let dedupe := dedupe_key from to kind in
      _ ← fail_if (includes seenEdge dedupe) (g_duplicate_edge from to kind);
      let when := normalizeCondition (ei_when raw) in
      _ ← fail_if (bool_decide (kind = ek_conditional) && bool_decide (when = None))
            (g_conditional_without_when from to);
      _ ← fail_if (bool_decide (kind = ek_loop_back) && bool_decide (when = None))
            (g_loop_without_when from to);
      let label := trim (default "" (ei_label raw)) in
      Ok (edges ++ [{| ge_from := from; ge_to := to; ge_kind := kind; ge_when := when;
                       ge_label := if truthy label then Some (slice 120 label) else None |}],
          set_add seenEdge dedupe)
  end.

Definition forward_edges (edges : list GraphEdge) : list GraphEdge :=
  lfilter (λ e, negb (is_loop_back e)) edges.
Definition loop_edges (edges : list GraphEdge) : list GraphEdge := lfilter is_loop_back edges.

Definition edge_pairs (edges : list GraphEdge) : list (string * string) :=
  List.map (λ e, (ge_from e, ge_to e)) edges.

(** Kahn's algorithm over the forward edges. *)
Definition forward_order (keys : list string) (edges : list GraphEdge) : list string :=
  let forward := edge_pairs (forward_edges edges) in
  let indegree := foldl count_in (indegree0 keys) forward in
  let queue := lfilter (λ k, degree indegree k =? 0) keys in
  kahn_fifo forward (length keys) indegree queue [].

(** The rules of one loop_back edge. *)
Definition check_loop (byKey : nodes_map) (edges : list GraphEdge) (loop : GraphEdge)
    : res graph_error unit :=
  let downstream := reachableVia edges (ge_to loop) false in
  _ ← fail_if (negb (includes downstream (ge_from loop)))
        (g_loop_not_closing (ge_from loop) (ge_to loop));
  match JMap.get byKey (ge_to loop) with
  | None => Ok tt
  | Some target =>
      fail_if (gn_max_visits target <? MIN_LOOP_MAX_VISITS)
        (g_loop_low_cap (ge_from loop) (ge_to loop) (gn_max_visits target))
  end.

(** The global budget. *)
Definition check_budget (max_total_visits : option number) (loops : list GraphEdge) (size : Z)
    : res graph_error Z :=
  maxTotalVisits ←
    match max_total_visits with
    | None =>
        _ ← fail_if (bool_decide (0 < Z.of_nat (length loops)))
              (g_loop_without_budget (Z.of_nat (length loops)));
        Ok (JInt size)
    | Some n => Ok n
    end;
  match isPositiveInt maxTotalVisits with
  | None => Err g_invalid_budget
  | Some n =>
      _ ← fail_if (MAX_TOTAL_VISITS_CEILING <? n) g_invalid_budget;
      _ ← fail_if (n <? size) (g_budget_below_nodes n size);
      Ok n
  end.

(** Raising the body nodes of one loop to its target's cap. *)
Definition raise_visits (cap : Z) (n : GraphNode) : GraphNode :=
  if gn_max_visits n <? cap then n<|gn_max_visits := cap|> else n.

Definition propagate_loop (edges : list GraphEdge) (byKey : nodes_map) (loop : GraphEdge)
    : nodes_map :=
  match JMap.get byKey (ge_to loop) with
  | None => byKey
  | Some target =>
      foldl (λ m key, JMap.update m key (raise_visits (gn_max_visits target))) byKey
        (loopBodyNodes edges loop)
  end.

Definition entry_nodes (keys : list string) (edges : list GraphEdge) : list string :=
  lfilter (λ k, negb (includes (List.map ge_to (forward_edges edges)) k)) keys.
Definition terminal_nodes (keys : list string) (edges : list GraphEdge) : list string :=
  lfilter (λ k, negb (includes (List.map ge_from edges) k)) keys.

Definition orphan_nodes (keys entry : list string) (edges : list GraphEdge) : list string :=
  let reachable := foldl (λ acc start, foldl set_add acc (reachableVia edges start true)) [] entry in
  lfilter (λ k, negb (includes reachable k)) keys.

(** ** Rules per node kind *)

Definition outgoing_edges (edges : list GraphEdge) (key : string) : list GraphEdge :=
  lfilter (λ e, String.eqb (ge_from e) key) edges.

(** [e.when?.verdict ?? []] *)
Definition edge_verdicts (e : GraphEdge) : list string :=
  match ge_when e with Some w => default [] (ec_verdict w) | None => [] end.

Definition check_router (key : string) (outgoing : list GraphEdge) : res graph_error unit :=
  _ ← fail_if (Z.of_nat (length outgoing) <? 2) (g_router_few_edges key (Z.of_nat (length outgoing)));
  let unconditional := lfilter (λ e, bool_decide (ge_when e = None)) outgoing in
  fail_if (0 <? Z.of_nat (length unconditional))
    (g_router_unconditional key (List.map ge_to unconditional)).

Definition check_evaluator (key : string) (outgoing : list GraphEdge) : res graph_error unit :=
  let verdictEdges := lfilter (λ e, 0 <? Z.of_nat (length (edge_verdicts e))) outgoing in
  fail_if (Z.of_nat (length verdictEdges) =? 0) (g_evaluator_no_verdict key).

Definition edges_for (outgoing : list GraphEdge) (verdict : string) : list GraphEdge :=
  lfilter (λ e, includes (edge_verdicts e) verdict) outgoing.

Definition check_confirm (policy : ConfirmPolicy) (key : string) (outgoing : list GraphEdge)
    : res graph_error unit :=
  _ ← fail_if (bool_decide (policy = policy_none)) (g_confirm_policy_none key);
  let passEdges := edges_for outgoing CONFIRM_PASS in
  let failEdges := edges_for outgoing CONFIRM_FAIL in
  let missing :=
    (if Z.of_nat (length passEdges) =? 0 then [CONFIRM_PASS] else []) ++
    (if Z.of_nat (length failEdges) =? 0 then [CONFIRM_FAIL] else []) in
  _ ← fail_if (0 <? Z.of_nat (length missing)) (g_confirm_missing_verdict key missing);
  _ ← match List.find (λ e, includes (edge_verdicts e) CONFIRM_PASS
                            && includes (edge_verdicts e) CONFIRM_FAIL) outgoing with
      | Some e => Err (g_confirm_both_on_one_edge key (ge_to e))
      | None => Ok tt
      end;
  match List.find (includes (List.map ge_to passEdges)) (List.map ge_to failEdges) with
  | Some to => if truthy to then Err (g_confirm_shared_target key to) else Ok tt
  | None => Ok tt
  end.

Definition check_kind (policy : ConfirmPolicy) (edges : list GraphEdge) (node : GraphNode)
    : res graph_error unit :=
  let outgoing := outgoing_edges edges (gn_key node) in
  _ ← (if bool_decide (gn_kind node = nk_router)
       then check_router (gn_key node) outgoing else Ok tt);
  _ ← (if bool_decide (gn_kind node = nk_evaluator)
       then check_evaluator (gn_key node) outgoing else Ok tt);
  if bool_decide (gn_kind node = nk_confirm)
  then check_confirm policy (gn_key node) outgoing else Ok tt.

(** ** The validator *)

(** Everything after [byKey] and [edges] are built. *)
Definition validate_structure (policy : ConfirmPolicy) (max_total_visits : option number)
    (byKey : nodes_map) (edges : list GraphEdge) : res graph_error GraphSpec :=
  let keys := JMap.keys byKey in
  let order := forward_order keys edges in
  _ ← fail_if (negb (bool_decide (length order = length keys)))
        (g_cycle (lfilter (λ k, negb (includes order k)) keys));
  let loops := loop_edges edges in
  _ ← forM_ (check_loop byKey edges) loops;
  maxTotalVisits ← check_budget max_total_visits loops (Z.of_nat (length keys));
  let byKey := foldl (propagate_loop edges) byKey loops in
  let entry := entry_nodes keys edges in
  let terminal := terminal_nodes keys edges in
  _ ← fail_if (bool_decide (entry = [])) g_no_entry;
  let orphans := orphan_nodes keys entry edges in
  _ ← fail_if (negb (bool_decide (orphans = []))) (g_orphans orphans);
  _ ← forM_ (check_kind policy edges) (JMap.values byKey);
  Ok {| gs_version := GRAPH_SPEC_VERSION; gs_nodes := omap (JMap.get byKey) order;
        gs_edges := edges; gs_entry := entry; gs_terminal := terminal;
        gs_max_total_visits := maxTotalVisits |}.

Definition validateGraphSpec (input : option GraphSpecInput) (nodeKeys : list string)
    (confirmPolicy : jsval) : res graph_error GraphSpec :=
  match input with
  | None => Err g_not_object
  | Some input =>
      let policy := normalizeConfirmPolicy confirmPolicy in
      let version := default (JInt GRAPH_SPEC_VERSION) (si_version input) in
      _ ← fail_if (negb (bool_decide (version = JInt GRAPH_SPEC_VERSION)))
            (g_unsupported_version version);
      let planKeys := new_Set nodeKeys in
      _ ← fail_if (bool_decide (planKeys = [])) g_no_nodes;
      byKey ← foldM (check_node planKeys) [] (default [] (si_nodes input));
      let byKey := foldl fill_node byKey nodeKeys in
      '(edges, _) ← foldM (check_edge byKey) ([], []) (default [] (si_edges input));
      validate_structure policy (si_max_total_visits input) byKey edges
  end.
