(* ===== verification/GraphFacts.v ===== *)
(** * Facts about graph validation

    What [Graph.validateGraphSpec] guarantees about a spec it accepts
    ([graph_valid]), and which of its error returns no input can reach. *)

From S2P Require Import Prelude JsStd Worklist Vocabulary Graph.
#[local] Open Scope Z_scope.

(** ** Declarative reading of an accepted graph *)

Definition node_keys (spec : GraphSpec) : list string := List.map gn_key (gs_nodes spec).

Definition edge_step (edges : list GraphEdge) (includeLoopBack : bool) (a b : string) : Prop :=
  ∃ e, e ∈ edges ∧ ge_from e = a ∧ ge_to e = b ∧
       (includeLoopBack = true ∨ ge_kind e ≠ ek_loop_back).

Definition edge_id (e : GraphEdge) : string * string * GraphEdgeKind :=
  (ge_from e, ge_to e, ge_kind e).

Definition node_rules (policy : ConfirmPolicy) (edges : list GraphEdge) (n : GraphNode) : Prop :=
  let out e := e ∈ outgoing_edges edges (gn_key n) in
  match gn_kind n with
  | nk_task => True
  | nk_router =>
      (2 ≤ length (outgoing_edges edges (gn_key n)))%nat ∧ ∀ e, out e → ge_when e ≠ None
  | nk_evaluator => ∃ e, out e ∧ edge_verdicts e ≠ []
  | nk_confirm =>
      policy ≠ policy_none ∧
      (∃ e, out e ∧ CONFIRM_PASS ∈ edge_verdicts e) ∧
      (∃ e, out e ∧ CONFIRM_FAIL ∈ edge_verdicts e) ∧
      (∀ e, out e → CONFIRM_PASS ∈ edge_verdicts e → CONFIRM_FAIL ∉ edge_verdicts e) ∧
      (∀ e e', out e → out e' → CONFIRM_PASS ∈ edge_verdicts e →
               CONFIRM_FAIL ∈ edge_verdicts e' → ge_to e ≠ ge_to e')
  end.

Record graph_valid (policy : ConfirmPolicy) (nodeKeys : list string) (spec : GraphSpec) : Prop := {
  gv_nodes : ∀ k, k ∈ node_keys spec ↔ k ∈ nodeKeys;
  gv_nodup : NoDup (node_keys spec);
  gv_visits : ∀ n, n ∈ gs_nodes spec → 1 <= gn_max_visits n <= MAX_NODE_VISITS_CEILING;
  gv_edges : ∀ e, e ∈ gs_edges spec →
    ge_from e ∈ node_keys spec ∧ ge_to e ∈ node_keys spec ∧ ge_from e ≠ ge_to e ∧
    (ge_kind e ≠ ek_sequence → ge_when e ≠ None);
  gv_edge_nodup : NoDup (List.map edge_id (gs_edges spec));
  gv_order : ∀ l1 n l2, gs_nodes spec = l1 ++ n :: l2 →
    ∀ a, edge_step (gs_edges spec) false a (gn_key n) → a ∈ List.map gn_key l1;
  gv_loops : ∀ e, e ∈ gs_edges spec → ge_kind e = ek_loop_back →
    rtc (edge_step (gs_edges spec) false) (ge_to e) (ge_from e) ∧
    ∀ n, n ∈ gs_nodes spec → gn_key n = ge_to e → MIN_LOOP_MAX_VISITS <= gn_max_visits n;
  gv_budget : Z.of_nat (length (gs_nodes spec)) <= gs_max_total_visits spec
              <= MAX_TOTAL_VISITS_CEILING;
  gv_entry : ∀ k, k ∈ gs_entry spec ↔
    k ∈ node_keys spec ∧ ∀ a, ¬ edge_step (gs_edges spec) false a k;
  gv_terminal : ∀ k, k ∈ gs_terminal spec ↔
    k ∈ node_keys spec ∧ ∀ b, ¬ edge_step (gs_edges spec) true k b;
  gv_reach : ∀ k, k ∈ node_keys spec →
    ∃ s, s ∈ gs_entry spec ∧ rtc (edge_step (gs_edges spec) false) s k;
  gv_rules : ∀ n, n ∈ gs_nodes spec → node_rules policy (gs_edges spec) n
}.

(** ** Reachability *)

Lemma is_loop_back_true e : is_loop_back e = true ↔ ge_kind e = ek_loop_back.
Proof. apply bool_decide_true_iff. Qed.
Lemma is_loop_back_false e : is_loop_back e = false ↔ ge_kind e ≠ ek_loop_back.
Proof. apply bool_decide_false_iff. Qed.

Lemma step_to_adjacency edges b x y : step_to (adjacency edges b) x y ↔ edge_step edges b x y.
Proof.
  unfold step_to, adjacency, edge_step. rewrite elem_of_map.
  setoid_rewrite elem_of_lfilter. setoid_rewrite andb_true_iff.
  setoid_rewrite orb_true_iff. setoid_rewrite negb_true_iff.
  setoid_rewrite is_loop_back_false. setoid_rewrite String.eqb_eq.
  split; intros (e & H); exists e; intuition.
Qed.

Lemma reachableVia_spec edges from b :
  NoDup (reachableVia edges from b) ∧
  ∀ y, y ∈ reachableVia edges from b ↔ rtc (edge_step edges b) from y.
Proof.
  destruct (dfs_correct (adjacency edges b) from (from :: List.map ge_to edges)
              (S (length edges))) as [Hnd Hr].
  - intros x y (e & -> & [He _]%elem_of_lfilter)%elem_of_map.
    apply list_elem_of_further, elem_of_map. eauto.
  - apply list_elem_of_here.
  - simpl. by rewrite List.length_map.
  - split; [exact Hnd|]. intros y. unfold reachableVia. rewrite Hr.
    apply rtc_iff, step_to_adjacency.
Qed.

Lemma elem_of_reachableVia edges from b y :
  y ∈ reachableVia edges from b ↔ rtc (edge_step edges b) from y.
Proof. apply reachableVia_spec. Qed.

Lemma edge_step_loop edges a b : edge_step edges false a b → edge_step edges true a b.
Proof. intros (e & ? & ? & ? & [|?]); [done|]. exists e. auto. Qed.

Lemma rtc_loop edges x y :
  rtc (edge_step edges false) x y → rtc (edge_step edges true) x y.
Proof. induction 1; [apply rtc_refl|]. eapply rtc_l; [by apply edge_step_loop|done]. Qed.

Lemma edge_pairs_forward edges a b :
  (a, b) ∈ edge_pairs (forward_edges edges) ↔ edge_step edges false a b.
Proof.
  unfold edge_pairs, forward_edges, edge_step. rewrite elem_of_map.
  setoid_rewrite elem_of_lfilter. setoid_rewrite negb_true_iff.
  setoid_rewrite is_loop_back_false. split.
  - intros (e & [= -> ->] & He & Hk). exists e. auto.
  - intros (e & He & <- & <- & [|Hk]); [done|]. by exists e.
Qed.

Lemma edge_step_swap edges a b :
  edge_step (List.map swap_edge (forward_edges edges)) false a b ↔ edge_step edges false b a.
Proof.
  unfold edge_step, forward_edges. setoid_rewrite elem_of_map. setoid_rewrite elem_of_lfilter.
  setoid_rewrite negb_true_iff. setoid_rewrite is_loop_back_false. split.
  - intros (e & (e' & -> & He & Hk) & <- & <- & _). exists e'. auto.
  - intros (e & He & <- & <- & [|Hk]); [done|]. exists (swap_edge e). split_and!; eauto.
Qed.

Lemma elem_of_loopBodyNodes edges loop k :
  k ∈ loopBodyNodes edges loop ↔
  rtc (edge_step edges false) (ge_to loop) k ∧ rtc (edge_step edges false) k (ge_from loop).
Proof.
  unfold loopBodyNodes. rewrite elem_of_lfilter, includes_true, !elem_of_reachableVia.
  fold (forward_edges edges).
  rewrite (rtc_iff _ (λ a b, edge_step edges false b a) (ge_from loop) k
             (edge_step_swap edges)).
  split; intros [? H]; (split; [done|]); [by apply rtc_flip in H|].
  by apply (rtc_flip (λ a b, edge_step edges false b a)).
Qed.

(** ** The node loop *)

Record node_inv (planKeys : list string) (m : nodes_map) : Prop := {
  nv_nodup : NoDup (JMap.keys m);
  nv_entry : ∀ k n, (k, n) ∈ m →
    gn_key n = k ∧ k ∈ planKeys ∧ 1 <= gn_max_visits n <= MAX_NODE_VISITS_CEILING
}.

Lemma JMap_keys_app {V} (m1 m2 : list (string * V)) :
  JMap.keys (m1 ++ m2) = JMap.keys m1 ++ JMap.keys m2.
Proof. apply List.map_app. Qed.

Lemma node_inv_snoc planKeys m n :
  node_inv planKeys m → gn_key n ∉ JMap.keys m → gn_key n ∈ planKeys →
  1 <= gn_max_visits n <= MAX_NODE_VISITS_CEILING →
  node_inv planKeys (m ++ [(gn_key n, n)]).
Proof.
  intros [Hnd He] Hk Hp Hv. split.
  - rewrite JMap_keys_app. apply NoDup_snoc. done.
  - intros k n' [H|H]%elem_of_app; [by apply He|].
    apply list_elem_of_singleton in H as [= -> ->]. done.
Qed.

Lemma isPositiveInt_Some v z : isPositiveInt v = Some z ↔ v = JInt z ∧ 0 < z.
Proof.
  destruct v as [y|r]; simpl.
  - destruct (0 <? y) eqn:E; breflect; (split; [intros H|intros [H ?]]);
      try discriminate; injection H as ->; (done || lia).
  - split; [discriminate|intros [? _]; discriminate].
Qed.

Lemma JMap_has_None {V} (m : list (string * V)) k : JMap.has m k = false → JMap.get m k = None.
Proof. unfold JMap.has. by destruct (JMap.get m k). Qed.

Lemma check_node_inv planKeys m raw m' :
  node_inv planKeys m → check_node planKeys m raw = Ok m' → node_inv planKeys m'.
Proof.
  intros Hinv H. unfold check_node in H. obind H.
  do 3 (split_match_in H; [|discriminate]). obind H. injection H as <-. breflect.
  apply isPositiveInt_Some in E1 as [_ Hpos].
  rewrite JMap.set_absent by (by apply JMap_has_None).
  apply (node_inv_snoc planKeys m {| gn_key := trim (ni_key raw) |}); simpl; auto; [|lia].
  by apply JMap.has_false.
Qed.

Lemma fill_node_inv planKeys m k :
  node_inv planKeys m → k ∈ planKeys →
  node_inv planKeys (fill_node m k) ∧ k ∈ JMap.keys (fill_node m k) ∧
  JMap.keys m ⊆ JMap.keys (fill_node m k).
Proof.
  intros Hinv Hk. unfold fill_node. destruct (JMap.has m k) eqn:E.
  - apply JMap.has_keys in E. split_and!; auto.
  - rewrite JMap.set_absent by (by apply JMap_has_None). split_and!.
    + apply (node_inv_snoc planKeys m (default_node k)); auto.
      * by apply JMap.has_false.
      * simpl. unfold MAX_NODE_VISITS_CEILING. lia.
    + rewrite JMap_keys_app. apply elem_of_app. right. apply list_elem_of_here.
    + rewrite JMap_keys_app. intros x Hx. apply elem_of_app. by left.
Qed.

Lemma fill_nodes_inv planKeys ks : ∀ m,
  node_inv planKeys m → ks ⊆ planKeys →
  node_inv planKeys (foldl fill_node m ks) ∧ ks ⊆ JMap.keys (foldl fill_node m ks) ∧
  JMap.keys m ⊆ JMap.keys (foldl fill_node m ks).
Proof.
  induction ks as [|k ks IH]; intros m Hm Hs; simpl.
  { split_and!; auto. intros x Hx; inversion Hx. }
  destruct (fill_node_inv planKeys m k Hm) as (H1 & H2 & H3); [apply Hs, list_elem_of_here|].
  destruct (IH _ H1) as (H4 & H5 & H6).
  { intros x Hx. apply Hs. by apply list_elem_of_further. }
  split_and!; [done| |by etrans].
  intros x [->|Hx]%elem_of_cons; auto.
Qed.

(** ** The edge loop *)

Record edge_inv (keys : list string) (edges : list GraphEdge) (seen : list string) : Prop := {
  ev_edge : ∀ e, e ∈ edges → ge_from e ∈ keys ∧ ge_to e ∈ keys ∧ ge_from e ≠ ge_to e ∧
            (ge_kind e ≠ ek_sequence → ge_when e ≠ None);
  ev_nodup : NoDup (List.map edge_id edges);
  ev_seen : ∀ e, e ∈ edges → dedupe_key (ge_from e) (ge_to e) (ge_kind e) ∈ seen
}.

Lemma check_edge_inv m edges seen raw edges' seen' :
  edge_inv (JMap.keys m) edges seen → check_edge m (edges, seen) raw = Ok (edges', seen') →
  edge_inv (JMap.keys m) edges' seen'.
Proof.
  intros [He Hnd Hs] H. unfold check_edge in H. obind H.
  split_match_in H; [|discriminate]. obind H. injection H as <- <-. breflect.
  rewrite JMap.has_keys in *. split.
  - intros e [Hin| ->%list_elem_of_singleton]%elem_of_app; [by apply He|]. simpl.
    split_and!; auto. intros Hk Hw. destruct g; [done| |];
      rewrite Hw in *; simpl in *; discriminate.
  - rewrite List.map_app. apply NoDup_snoc. split; [done|].
    intros (e & Heq & Hin)%elem_of_map. injection Heq as Hf Ht Hk.
    apply Hs in Hin. rewrite <- Hf, <- Ht, <- Hk in Hin. done.
  - intros e [Hin| ->%list_elem_of_singleton]%elem_of_app; apply elem_of_set_add; simpl; auto.
Qed.

(** ** The topological order *)

Definition graph_acyclic (edges : list GraphEdge) : Prop :=
  ∃ rank : string → nat, ∀ a b, edge_step edges false a b → (rank a < rank b)%nat.

Lemma graph_ranked edges : ranked (edge_pairs (forward_edges edges)) ↔ graph_acyclic edges.
Proof.
  unfold ranked, graph_acyclic. split; intros [r H]; exists r; intros a b Hab; apply H;
    by apply edge_pairs_forward.
Qed.

Lemma forward_order_topo keys edges seen :
  NoDup keys → edge_inv keys edges seen →
  topo_of (edge_pairs (forward_edges edges)) keys (forward_order keys edges).
Proof.
  intros Hnd Hinv. apply kahn_fifo_correct.
  - intros a b (e & He & <- & <- & _)%edge_pairs_forward.
    destruct (ev_edge _ _ _ Hinv e He) as (? & ? & _). done.
  - apply kahn_init; auto. intros k Hk.
    by rewrite degree_count_in, degree_indegree0, open_in_nil.
  - simpl. lia.
Qed.

Lemma forward_order_spec keys edges seen :
  NoDup keys → edge_inv keys edges seen →
  let order := forward_order keys edges in
  (length order = length keys ↔ graph_acyclic edges) ∧
  (length order = length keys → order ≡ₚ keys) ∧
  topo_sorted (edge_pairs (forward_edges edges)) order.
Proof.
  intros Hnd Hinv order. pose proof (forward_order_topo keys edges seen Hnd Hinv) as Ht.
  destruct (topo_of_complete (edge_pairs (forward_edges edges)) keys order) as [H1 H2]; auto.
  - intros a b (e & He & <- & <- & _)%edge_pairs_forward.
    destruct (ev_edge _ _ _ Hinv e He) as (? & ? & _). done.
  - rewrite <- graph_ranked. split_and!; auto. apply Ht.
Qed.

(** In a DAG every node is reachable from a node without incoming edges. *)
Lemma acyclic_reach keys edges seen :
  edge_inv keys edges seen → graph_acyclic edges →
  ∀ k, k ∈ keys → ∃ s, s ∈ entry_nodes keys edges ∧ rtc (edge_step edges false) s k.
Proof.
  intros Hinv [rank Hr].
  set (open k := k ∈ keys ∧
    ¬ ∃ s, s ∈ entry_nodes keys edges ∧ rtc (edge_step edges false) s k).
  assert (Hopen : ∀ k, ¬ open k).
  { apply (rank_descent open rank). intros k [Hk Hno].
    destruct (includes (List.map ge_to (forward_edges edges)) k) eqn:E.
    - apply includes_true, elem_of_map in E as (e & -> & He).
      apply elem_of_lfilter in He as [He Hl]. apply negb_true_iff, is_loop_back_false in Hl.
      assert (Hstep : edge_step edges false (ge_from e) (ge_to e)) by (exists e; auto).
      exists (ge_from e). split; [|by apply Hr]. split; [by apply (ev_edge _ _ _ Hinv)|].
      intros (s & Hs & Hp). apply Hno. exists s. split; [done|]. by eapply rtc_r.
    - exfalso. apply Hno. exists k. split; [|apply rtc_refl].
      apply elem_of_lfilter. by rewrite E. }
  intros k Hk.
  destruct (List.find (λ s, includes (reachableVia edges s false) k) (entry_nodes keys edges))
    as [s|] eqn:E.
  - apply find_Some_elem in E as [Hs Hr']. apply includes_true, elem_of_reachableVia in Hr'. eauto.
  - exfalso. apply (Hopen k). split; [done|]. intros (s & Hs & Hp).
    apply find_None_elem with (x := s) in E; [|done].
    apply includes_false in E. apply E. by apply elem_of_reachableVia.
Qed.

Lemma elem_of_entry_nodes keys edges k :
  k ∈ entry_nodes keys edges ↔ k ∈ keys ∧ ∀ a, ¬ edge_step edges false a k.
Proof.
  unfold entry_nodes. rewrite elem_of_lfilter, negb_true_iff, includes_false, elem_of_map.
  split; intros [Hk H]; split; auto.
  - intros a (e & He & _ & <- & [|Hl]); [done|]. apply H. exists e. split; [done|].
    apply elem_of_lfilter. split; [done|]. by apply negb_true_iff, is_loop_back_false.
  - intros (e & -> & He). apply elem_of_lfilter in He as [He Hl].
    apply negb_true_iff, is_loop_back_false in Hl. apply (H (ge_from e)). exists e. auto.
Qed.

Lemma elem_of_terminal_nodes keys edges k :
  k ∈ terminal_nodes keys edges ↔ k ∈ keys ∧ ∀ b, ¬ edge_step edges true k b.
Proof.
  unfold terminal_nodes. rewrite elem_of_lfilter, negb_true_iff, includes_false, elem_of_map.
  split; intros [Hk H]; split; auto.
  - intros b (e & He & <- & _). apply H. eauto.
  - intros (e & -> & He). apply (H (ge_to e)). exists e. auto.
Qed.

(** ** Visit propagation *)

Definition raised (n n' : GraphNode) : Prop :=
  gn_key n' = gn_key n ∧ gn_kind n' = gn_kind n ∧ gn_join n' = gn_join n ∧
  gn_max_visits n <= gn_max_visits n' ∧
  (gn_max_visits n <= MAX_NODE_VISITS_CEILING → gn_max_visits n' <= MAX_NODE_VISITS_CEILING).

(** Pointwise relation between two stages of [byKey]. *)
Definition map_raised : nodes_map → nodes_map → Prop :=
  Forall2 (λ e e', fst e' = fst e ∧ raised (snd e) (snd e')).

Lemma raised_refl n : raised n n.
Proof. unfold raised. split_and!; auto. lia. Qed.

Lemma raised_trans n1 n2 n3 : raised n1 n2 → raised n2 n3 → raised n1 n3.
Proof. unfold raised. intros (?&?&?&?&?) (?&?&?&?&?). split_and!; try congruence; [lia|auto]. Qed.

Lemma map_raised_refl m : map_raised m m.
Proof. induction m; constructor; [split; [done|apply raised_refl]|done]. Qed.

Lemma map_raised_trans m1 m2 m3 : map_raised m1 m2 → map_raised m2 m3 → map_raised m1 m3.
Proof.
  intros H12 H23. revert m3 H23. induction H12 as [|x y m1 m2 Hxy H IH]; intros m3 H23.
  - inversion H23; subst. constructor.
  - inversion H23 as [|? z ? m3' Hyz H23']; subst. constructor; [|by apply IH].
    destruct Hxy as [? ?], Hyz as [? ?]. split; [congruence|by eapply raised_trans].
Qed.

Lemma map_raised_keys m m' : map_raised m m' → JMap.keys m' = JMap.keys m.
Proof. induction 1 as [|x y m m' [Hk _] _ IH]; simpl; [done|by f_equal]. Qed.

Lemma raise_visits_raised cap n : cap <= MAX_NODE_VISITS_CEILING → raised n (raise_visits cap n).
Proof.
  intros Hc. unfold raise_visits. destruct (gn_max_visits n <? cap) eqn:E; [|apply raised_refl].
  breflect. destruct n; unfold raised; simpl in *. split_and!; auto. lia.
Qed.

Lemma update_raised m k cap : cap <= MAX_NODE_VISITS_CEILING →
  map_raised m (JMap.update m k (raise_visits cap)).
Proof.
  intros Hc. induction m as [|[k' n] m IH]; simpl; constructor; auto. simpl.
  destruct (String.eqb k' k); simpl; (split; [done|]); [by apply raise_visits_raised|apply raised_refl].
Qed.

Definition visits_bounded (m : nodes_map) : Prop :=
  ∀ k n, JMap.get m k = Some n → gn_max_visits n <= MAX_NODE_VISITS_CEILING.

Lemma map_raised_get m m' k :
  map_raised m m' →
  (∀ n', JMap.get m' k = Some n' → ∃ n, JMap.get m k = Some n ∧ raised n n') ∧
  (∀ n, JMap.get m k = Some n → ∃ n', JMap.get m' k = Some n' ∧ raised n n').
Proof.
  induction 1 as [|[k1 n1] [k2 n2] m m' [Hk Hr] _ IH]; [by split|]. simpl in Hk; subst k2.
  rewrite !JMap.get_cons. destruct (String.eqb k1 k); [|exact IH].
  split; intros n [= <-]; eauto.
Qed.

Lemma visits_bounded_raised m m' : map_raised m m' → visits_bounded m → visits_bounded m'.
Proof.
  intros Hr Hb k n' Hn'. destruct (map_raised_get m m' k Hr) as [H _].
  destruct (H n' Hn') as (n & Hn & (_ & _ & _ & _ & Hcap)). by eapply Hcap, Hb.
Qed.

Lemma propagate_loop_raised edges m loop :
  visits_bounded m → map_raised m (propagate_loop edges m loop).
Proof.
  intros Hb. unfold propagate_loop. destruct (JMap.get m (ge_to loop)) as [t|] eqn:E;
    [|apply map_raised_refl].
  pose proof (Hb _ _ E) as Hc. clear Hb E. revert m.
  induction (loopBodyNodes edges loop) as [|k ks IH]; intros m; simpl; [apply map_raised_refl|].
  eapply map_raised_trans; [by apply update_raised|apply IH].
Qed.

Lemma propagate_raised edges loops : ∀ m,
  visits_bounded m → map_raised m (foldl (propagate_loop edges) m loops).
Proof.
  induction loops as [|l loops IH]; intros m Hb; simpl; [apply map_raised_refl|].
  pose proof (propagate_loop_raised edges m l Hb) as Hr.
  eapply map_raised_trans; [exact Hr|]. by apply IH, (visits_bounded_raised m).
Qed.

(** ** Rules per node kind *)

Lemma elem_of_outgoing edges key e :
  e ∈ outgoing_edges edges key ↔ e ∈ edges ∧ ge_from e = key.
Proof. unfold outgoing_edges. by rewrite elem_of_lfilter, String.eqb_eq. Qed.

Lemma elem_of_edges_for out v e : e ∈ edges_for out v ↔ e ∈ out ∧ v ∈ edge_verdicts e.
Proof. unfold edges_for. by rewrite elem_of_lfilter, includes_true. Qed.

Lemma length_pos_elem {A} (l : list A) : Z.of_nat (length l) ≠ 0 → ∃ x, x ∈ l.
Proof. destruct l as [|x l]; [done|]. exists x. apply list_elem_of_here. Qed.

Lemma check_router_rules key out :
  check_router key out = Ok tt → (2 ≤ length out)%nat ∧ ∀ e, e ∈ out → ge_when e ≠ None.
Proof.
  unfold check_router. intros H. obind H. apply fail_if_Ok in H. breflect.
  split; [lia|]. intros e He Hw.
  assert (Hin : e ∈ lfilter (λ e, bool_decide (ge_when e = None)) out).
  { apply elem_of_lfilter. split; [done|]. by apply bool_decide_true_iff. }
  destruct (lfilter _ out); [inversion Hin|simpl in H; lia].
Qed.

Lemma check_evaluator_rules key out :
  check_evaluator key out = Ok tt → ∃ e, e ∈ out ∧ edge_verdicts e ≠ [].
Proof.
  unfold check_evaluator. intros H. apply fail_if_Ok in H. breflect.
  apply length_pos_elem in H as (e & He). apply elem_of_lfilter in He as [He Hl]. breflect.
  exists e. split; [done|]. intros Hnil. rewrite Hnil in Hl. simpl in Hl. lia.
Qed.

Lemma edges_for_pos out v :
  (Z.of_nat (length (edges_for out v)) =? 0) = false → ∃ e, e ∈ out ∧ v ∈ edge_verdicts e.
Proof.
  intros Hv. breflect. apply length_pos_elem in Hv as (e & He).
  exists e. by apply elem_of_edges_for.
Qed.

Lemma check_confirm_rules policy key out :
  (∀ e, e ∈ out → ge_to e ≠ "") → check_confirm policy key out = Ok tt →
  policy ≠ policy_none ∧
  (∃ e, e ∈ out ∧ CONFIRM_PASS ∈ edge_verdicts e) ∧
  (∃ e, e ∈ out ∧ CONFIRM_FAIL ∈ edge_verdicts e) ∧
  (∀ e, e ∈ out → CONFIRM_PASS ∈ edge_verdicts e → CONFIRM_FAIL ∉ edge_verdicts e) ∧
  (∀ e e', e ∈ out → e' ∈ out → CONFIRM_PASS ∈ edge_verdicts e →
           CONFIRM_FAIL ∈ edge_verdicts e' → ge_to e ≠ ge_to e').
Proof.
  unfold check_confirm. intros Hto H. obind H. breflect. rewrite length_app in Hok0.
  destruct (Z.of_nat (length (edges_for out CONFIRM_PASS)) =? 0) eqn:Ep; [simpl in Hok0; lia|].
  destruct (Z.of_nat (length (edges_for out CONFIRM_FAIL)) =? 0) eqn:Ef; [simpl in Hok0; lia|].
  apply edges_for_pos in Ep, Ef.
  destruct (List.find _ out) as [b|] eqn:Eb in Hok1; [discriminate|].
  split_and!; auto.
  - intros e He Hp Hf. apply find_None_elem with (x := e) in Eb; [|done].
    apply andb_false_iff in Eb as [Eb|Eb]; by apply includes_false in Eb.
  - intros e e' He He' Hp Hf Heq.
    assert (Hin : ge_to e' ∈ List.map ge_to (edges_for out CONFIRM_FAIL)).
    { apply elem_of_map. exists e'. by rewrite elem_of_edges_for. }
    destruct (List.find _ (List.map ge_to _)) as [t|] eqn:Et in H.
    + apply find_Some_elem in Et as [Ht _]. apply elem_of_map in Ht as (x & -> & Hx).
      apply elem_of_edges_for in Hx as [Hx _]. apply Hto in Hx. apply truthy_true in Hx.
      rewrite Hx in H. discriminate.
    + apply find_None_elem with (x := ge_to e') in Et; [|done].
      apply includes_false in Et. apply Et, elem_of_map. exists e.
      by rewrite elem_of_edges_for.
Qed.

Lemma check_kind_rules policy edges n :
  (∀ e, e ∈ edges → ge_to e ≠ "") → check_kind policy edges n = Ok tt → node_rules policy edges n.
Proof.
  intros Hto H. unfold check_kind in H. obind H. unfold node_rules.
  assert (Hto' : ∀ e, e ∈ outgoing_edges edges (gn_key n) → ge_to e ≠ "").
  { intros e He. apply elem_of_outgoing in He as [He _]. auto. }
  repeat match goal with a : () |- _ => destruct a end.
  destruct (gn_kind n); simpl in *; auto.
  - by apply (check_evaluator_rules (gn_key n)).
  - by apply (check_router_rules (gn_key n)).
  - by apply (check_confirm_rules policy (gn_key n)).
Qed.

(** ** The validator *)

Lemma check_budget_spec budget loops size z :
  check_budget budget loops size = Ok z →
  size <= z <= MAX_TOTAL_VISITS_CEILING ∧ (budget = None → loops = [] ∧ z = size) ∧
  (∀ n, budget = Some n → n = JInt z).
Proof.
  unfold check_budget. intros H. obind H.
  split_match_in H; [|discriminate]. obind H. injection H as <-. breflect.
  apply isPositiveInt_Some in E as [-> Hpos]. split_and!; [lia|lia| |].
  - intros ->. obind Hok. injection Hok as ->. breflect. split; [|done].
    destruct loops; [done|]. simpl in *. lia.
  - intros n ->. by injection Hok.
Qed.

Lemma omap_get (m : nodes_map) ks :
  NoDup (JMap.keys m) → (∀ k n, (k, n) ∈ m → gn_key n = k) → ks ⊆ JMap.keys m →
  List.map gn_key (omap (JMap.get m) ks) = ks ∧
  (∀ n, n ∈ omap (JMap.get m) ks → (gn_key n, n) ∈ m).
Proof.
  intros Hnd Hm. induction ks as [|k ks IH]; intros Hs; [split; [done|intros n Hn; inversion Hn]|].
  destruct IH as [IH1 IH2]. { intros x Hx. apply Hs. by apply list_elem_of_further. }
  assert (Hk : k ∈ JMap.keys m) by apply Hs, list_elem_of_here.
  apply JMap.get_is_Some_keys in Hk as [n Hn].
  pose proof (JMap.get_Some_elem _ _ _ Hn) as Hin. pose proof (Hm _ _ Hin) as Hkey.
  simpl. rewrite Hn. simpl. split; [by rewrite Hkey; f_equal|].
  intros n' [->|Hn']%elem_of_cons; [by rewrite Hkey|by apply IH2].
Qed.

Lemma node_inv_raised planKeys m m' :
  node_inv planKeys m → map_raised m m' → node_inv planKeys m'.
Proof.
  intros [Hnd He] Hr. split; [by rewrite (map_raised_keys _ _ Hr)|].
  intros k n' Hin. apply JMap.elem_get in Hin; [|by rewrite (map_raised_keys _ _ Hr)].
  destruct (map_raised_get m m' k Hr) as [H _]. destruct (H _ Hin) as (n & Hn & Hk & _ & _ & Hv & Hc).
  apply JMap.get_Some_elem, He in Hn as (<- & ? & ?). split_and!; auto; [lia|]. apply Hc. lia.
Qed.

Lemma elem_of_split_map {A B} (f : A → B) l l1 x l2 :
  l = l1 ++ x :: l2 → List.map f l = List.map f l1 ++ f x :: List.map f l2.
Proof. intros ->. by rewrite List.map_app. Qed.

Lemma check_loop_spec m edges loop :
  check_loop m edges loop = Ok tt →
  rtc (edge_step edges false) (ge_to loop) (ge_from loop) ∧
  ∀ n, JMap.get m (ge_to loop) = Some n → MIN_LOOP_MAX_VISITS <= gn_max_visits n.
Proof.
  unfold check_loop. intros H. obind H. breflect.
  match goal with H : _ ∈ reachableVia _ _ _ |- _ => apply elem_of_reachableVia in H end.
  split; [done|]. intros n Hn. rewrite Hn in H. apply fail_if_Ok in H. by breflect.
Qed.

(** A node of the map carries its key, so the map is determined by its values. *)
Lemma node_inv_get planKeys m n :
  node_inv planKeys m → (gn_key n, n) ∈ m → JMap.get m (gn_key n) = Some n.
Proof. intros [Hnd _] H. by apply JMap.elem_get. Qed.

Lemma validate_structure_valid policy budget m edges seen nodeKeys spec :
  node_inv nodeKeys m → nodeKeys ⊆ JMap.keys m → edge_inv (JMap.keys m) edges seen →
  "" ∉ nodeKeys →
  validate_structure policy budget m edges = Ok spec → graph_valid policy nodeKeys spec.
Proof.
  intros Hm Hfill He Hempty H. unfold validate_structure in H. obind H.
  injection H as <-. breflect.
  pose proof (nv_nodup _ _ Hm) as Hnd.
  destruct (forward_order_spec _ _ _ Hnd He) as (Hac & Hperm & Htopo). simpl in Hac, Hperm.
  set (m' := foldl (propagate_loop edges) m (loop_edges edges)) in *.
  assert (Hr : map_raised m m').
  { apply propagate_raised. intros k n Hn. apply JMap.get_Some_elem, Hm in Hn. lia. }
  pose proof (node_inv_raised _ _ _ Hm Hr) as Hm'.
  pose proof (map_raised_keys _ _ Hr) as Hkeys.
  destruct (omap_get m' (forward_order (JMap.keys m) edges)) as [Hnk Hin].
  { apply Hm'. } { intros k n Hn. by apply Hm' in Hn as (? & _). }
  { rewrite Hkeys, (Hperm Hok). done. }
  assert (Hkeyset : ∀ k, k ∈ JMap.keys m ↔ k ∈ nodeKeys).
  { intros k. split; [|apply Hfill]. intros Hk. apply JMap.get_is_Some_keys in Hk as [n Hn].
    by apply JMap.get_Some_elem, Hm in Hn as (_ & ? & _). }
  rewrite forM_Ok in Hok0. rewrite forM_Ok in Hok4.
  apply check_budget_spec in Hok1 as (Hbud & _ & _).
  assert (Hord : ∀ k, k ∈ forward_order (JMap.keys m) edges ↔ k ∈ JMap.keys m)
    by (intros k; by rewrite (Hperm Hok)).
  split; unfold node_keys; cbn [gs_nodes gs_edges gs_entry gs_terminal gs_max_total_visits];
    rewrite ?Hnk.
  - intros k. by rewrite Hord.
  - by rewrite (Hperm Hok).
  - intros n Hn. apply Hin, Hm' in Hn. lia.
  - intros e Hin'. rewrite !Hord. by apply (ev_edge _ _ _ He).
  - apply (ev_nodup _ _ _ He).
  - intros l1 n l2 Hl b Hb. apply edge_pairs_forward in Hb.
    eapply Htopo; [|exact Hb]. rewrite <- Hnk. by eapply elem_of_split_map.
  - intros e Hin' Hk. assert (Hl : e ∈ loop_edges edges).
    { apply elem_of_lfilter. split; [done|]. by apply is_loop_back_true. }
    apply Hok0, check_loop_spec in Hl as [Hp Hcap]. split; [done|].
    intros n Hn Heq. apply Hin in Hn. apply (node_inv_get _ _ _ Hm') in Hn.
    rewrite Heq in Hn. destruct (map_raised_get m m' (ge_to e) Hr) as [Hg _].
    destruct (Hg _ Hn) as (n0 & Hn0 & _ & _ & _ & Hle & _). specialize (Hcap _ Hn0). lia.
  - rewrite <- (List.length_map gn_key), Hnk, Hok. rewrite JMap.keys_length in *. lia.
  - intros k. by rewrite Hord, elem_of_entry_nodes.
  - intros k. by rewrite Hord, elem_of_terminal_nodes.
  - intros k Hk. apply Hord in Hk. apply (acyclic_reach _ _ _ He); [|done]. by apply Hac.
  - intros n Hn. apply check_kind_rules.
    + intros e Hin' Hto. apply (ev_edge _ _ _ He) in Hin' as (_ & Hin' & _).
      rewrite Hto in Hin'. by apply Hempty, Hkeyset.
    + apply Hok4. apply Hin in Hn. unfold JMap.values. apply elem_of_map. by exists (gn_key n, n).
Qed.

Lemma foldM_check_node_inv planKeys raws m m' :
  node_inv planKeys m → foldM (check_node planKeys) m raws = Ok m' → node_inv planKeys m'.
Proof.
  apply (foldM_inv (check_node planKeys) (node_inv planKeys)).
  intros s a s' _. apply check_node_inv.
Qed.

Lemma foldM_check_edge_inv m raws st' :
  foldM (check_edge m) ([], []) raws = Ok st' → edge_inv (JMap.keys m) (fst st') (snd st').
Proof.
  apply (foldM_inv (check_edge m) (λ st, edge_inv (JMap.keys m) (fst st) (snd st))).
  - intros [e s] a [e' s'] _. apply check_edge_inv.
  - split; simpl; [intros e He; inversion He|constructor|intros e He; inversion He].
Qed.

Lemma node_inv_nil planKeys : node_inv planKeys [].
Proof. split; [constructor|]. intros k n H; inversion H. Qed.

Lemma node_inv_new_Set nodeKeys m : node_inv (new_Set nodeKeys) m → node_inv nodeKeys m.
Proof.
  intros [Hnd He]. split; [done|]. intros k n H. destruct (He k n H) as (? & Hk & ?).
  rewrite elem_of_new_Set in Hk. done.
Qed.

(** The errors of the node and edge loops. *)
Definition structural_error (e : graph_error) : Prop :=
  e = g_no_entry ∨ ∃ o, e = g_orphans o.

Ltac no_structural H :=
  intros [->|[? ->]]; repeat (split_match_in H; simpl in H; try discriminate).

Lemma check_node_error planKeys m raw e :
  check_node planKeys m raw = Err e → ¬ structural_error e.
Proof. unfold check_node, fail_if. intros H. no_structural H. Qed.

Lemma check_edge_error m st raw e : check_edge m st raw = Err e → ¬ structural_error e.
Proof. destruct st as [es seen]. unfold check_edge, fail_if. intros H. no_structural H. Qed.

Lemma check_loop_error m edges l e : check_loop m edges l = Err e → ¬ structural_error e.
Proof. unfold check_loop, fail_if. intros H. no_structural H. Qed.

Lemma check_budget_error b loops size e :
  check_budget b loops size = Err e → ¬ structural_error e.
Proof. unfold check_budget, fail_if. intros H. no_structural H. Qed.

Lemma check_kind_error policy edges n e :
  check_kind policy edges n = Err e → ¬ structural_error e.
Proof.
  unfold check_kind, check_router, check_evaluator, check_confirm, fail_if. intros H.
  no_structural H.
Qed.

(** The state in which the structural phases start. *)
Lemma validateGraphSpec_inputs input nodeKeys cp :
  (∃ m edges seen,
     node_inv nodeKeys m ∧ nodeKeys ⊆ JMap.keys m ∧ nodeKeys ≠ [] ∧
     edge_inv (JMap.keys m) edges seen ∧
     validateGraphSpec (Some input) nodeKeys cp
     = validate_structure (normalizeConfirmPolicy cp) (si_max_total_visits input) m edges) ∨
  (∃ e, validateGraphSpec (Some input) nodeKeys cp = Err e ∧ ¬ structural_error e).
Proof.
  unfold validateGraphSpec.
  destruct (negb _); [right; eexists; split; [reflexivity|by intros [?|[??]]]|]. simpl.
  destruct (bool_decide (new_Set nodeKeys = [])) eqn:En;
    [right; eexists; split; [reflexivity|by intros [?|[??]]]|]. simpl. breflect.
  destruct (foldM (check_node _) _ _) as [m0|e] eqn:E0.
  2: { right. exists e. split; [done|]. apply foldM_Err in E0 as (? & ? & _ & E0).
       by eapply check_node_error. }
  simpl. destruct (foldM (check_edge _) _ _) as [[edges seen]|e] eqn:E1.
  2: { right. exists e. split; [done|]. apply foldM_Err in E1 as (? & ? & _ & E1).
       by eapply check_edge_error. }
  left. simpl.
  apply foldM_check_node_inv in E0; [|apply node_inv_nil]. apply node_inv_new_Set in E0.
  destruct (fill_nodes_inv nodeKeys nodeKeys m0 E0) as (Hm & Hf & _); [done|].
  apply foldM_check_edge_inv in E1.
  exists (foldl fill_node m0 nodeKeys), edges, seen. split_and!; auto.
  by intros ->.
Qed.

(** Everything the validator guarantees about a spec it returns. *)
Lemma validateGraphSpec_valid input nodeKeys cp spec :
  "" ∉ nodeKeys → validateGraphSpec input nodeKeys cp = Ok spec →
  graph_valid (normalizeConfirmPolicy cp) nodeKeys spec.
Proof.
  intros Hempty H. destruct input as [input|]; [|discriminate].
  destruct (validateGraphSpec_inputs input nodeKeys cp)
    as [(m & edges & seen & Hm & Hf & _ & He & Heq)|(e & Heq & _)]; [|congruence].
  rewrite Heq in H. by eapply validate_structure_valid.
Qed.

Lemma orphan_nodes_nil keys edges seen :
  edge_inv keys edges seen → graph_acyclic edges →
  orphan_nodes keys (entry_nodes keys edges) edges = [].
Proof.
  intros He Hac. unfold orphan_nodes. apply lfilter_nil. intros k Hk.
  apply negb_false_iff, includes_true.
  destruct (acyclic_reach keys edges seen He Hac k Hk) as (s & Hs & Hp).
  assert (Hfold : ∀ l acc, (k ∈ acc ∨ s ∈ l) →
    k ∈ foldl (λ acc start, foldl set_add acc (reachableVia edges start true)) acc l).
  { induction l as [|x l IH]; intros acc [H|H]; simpl; [done|inversion H| |];
      apply IH; rewrite foldl_set_add_elem; [by left; left|].
    apply elem_of_cons in H as [->|H]; [|by right].
    left. right. apply elem_of_reachableVia, rtc_loop, Hp. }
  apply Hfold. by right.
Qed.

Lemma validate_structure_error policy budget m edges seen e :
  edge_inv (JMap.keys m) edges seen → NoDup (JMap.keys m) → JMap.keys m ≠ [] →
  validate_structure policy budget m edges = Err e → ¬ structural_error e.
Proof.
  intros He Hnd Hne H. unfold validate_structure in H. cbv zeta in H.
  destruct (forward_order_spec _ _ _ Hnd He) as (Hac & _ & _). simpl in Hac.
  destruct (bool_decide (length _ = length _)) eqn:Eo in H; simpl in H;
    [|injection H as <-; by intros [?|[??]]].
  breflect. apply Hac in Eo.
  destruct (forM_ (check_loop m edges) _) as [|el] eqn:El; simpl in H.
  2: { injection H as <-. apply forM_Err in El as (? & _ & El). by eapply check_loop_error. }
  destruct (check_budget _ _ _) as [|eb] eqn:Eb; simpl in H.
  2: { injection H as <-. by eapply check_budget_error. }
  destruct (bool_decide (entry_nodes _ _ = [])) eqn:Een; simpl in H.
  { exfalso. breflect. destruct (JMap.keys m) as [|k ks] eqn:Ek; [done|].
    destruct (acyclic_reach (k :: ks) edges seen He Eo k) as (s & Hs & _);
      [apply list_elem_of_here|]. rewrite Een in Hs. inversion Hs. }
  rewrite (orphan_nodes_nil _ _ seen) in H by done. simpl in H.
  destruct (forM_ (check_kind policy edges) _) as [|ek] eqn:Ek; simpl in H; [discriminate|].
  injection H as <-. apply forM_Err in Ek as (? & _ & Ek). by eapply check_kind_error.
Qed.

(** ** Properties *)

(** C29: a spec the validator returns has exactly the plan's steps as nodes, in
    an order in which every forward edge goes from an earlier node to a later
    one; its edges are distinct, join two different nodes, and carry a condition
    unless they are sequence edges; every node is reachable from an entry node. *)
Theorem validateGraphSpec_structure input nodeKeys cp spec :
  "" ∉ nodeKeys → validateGraphSpec input nodeKeys cp = Ok spec →
  NoDup (node_keys spec) ∧ (∀ k, k ∈ node_keys spec ↔ k ∈ nodeKeys) ∧
  NoDup (List.map edge_id (gs_edges spec)) ∧
  (∀ e, e ∈ gs_edges spec →
     ge_from e ∈ nodeKeys ∧ ge_to e ∈ nodeKeys ∧ ge_from e ≠ ge_to e ∧
     (ge_kind e ≠ ek_sequence → ge_when e ≠ None)) ∧
  (∀ l1 n l2, gs_nodes spec = l1 ++ n :: l2 →
     ∀ a, edge_step (gs_edges spec) false a (gn_key n) → a ∈ List.map gn_key l1) ∧
  (∀ k, k ∈ nodeKeys →
     ∃ s, s ∈ gs_entry spec ∧ rtc (edge_step (gs_edges spec) false) s k).
Proof.
  intros Hempty H. apply validateGraphSpec_valid in H; [|done].
  pose proof (gv_nodes _ _ _ H) as Hk. split_and!; try apply H; auto.
  - intros e He. rewrite <- !Hk. by apply H.
  - intros k Hin. apply H. by apply Hk.
Qed.

(** Every loop_back edge of an accepted graph closes a cycle of forward
    edges and re-enters a node that may run at least twice; every node's visit
    cap is between 1 and 25, and the mission-wide budget lies between the number
    of nodes and 500. *)
Theorem validateGraphSpec_loops_bounded input nodeKeys cp spec :
  "" ∉ nodeKeys → validateGraphSpec input nodeKeys cp = Ok spec →
  (∀ e, e ∈ gs_edges spec → ge_kind e = ek_loop_back →
     rtc (edge_step (gs_edges spec) false) (ge_to e) (ge_from e) ∧
     ∀ n, n ∈ gs_nodes spec → gn_key n = ge_to e → MIN_LOOP_MAX_VISITS <= gn_max_visits n) ∧
  (∀ n, n ∈ gs_nodes spec → 1 <= gn_max_visits n <= MAX_NODE_VISITS_CEILING) ∧
  Z.of_nat (length (gs_nodes spec)) <= gs_max_total_visits spec <= MAX_TOTAL_VISITS_CEILING.
Proof.
  intros Hempty H. apply validateGraphSpec_valid in H; [|done].
  split_and!; apply H.
Qed.

(** Routers, evaluators and confirm gates of an accepted graph obey their
    rules; in particular a confirm gate exists only when the mission's policy is
    not [none], and routes pass and fail to different nodes. *)
Theorem validateGraphSpec_kind_rules input nodeKeys cp spec :
  "" ∉ nodeKeys → validateGraphSpec input nodeKeys cp = Ok spec →
  ∀ n, n ∈ gs_nodes spec → node_rules (normalizeConfirmPolicy cp) (gs_edges spec) n.
Proof. intros Hempty H. apply validateGraphSpec_valid in H; [apply H|done]. Qed.

(** The two deadlock checks after the cycle check never fire: acyclicity
    already implies that an entry node exists and that every node is reachable. *)
Theorem validateGraphSpec_deadlock_checks_redundant input nodeKeys cp :
  validateGraphSpec input nodeKeys cp ≠ Err g_no_entry ∧
  ∀ o, validateGraphSpec input nodeKeys cp ≠ Err (g_orphans o).
Proof.
  assert (H : ∀ e, validateGraphSpec input nodeKeys cp = Err e → ¬ structural_error e).
  { intros e H. destruct input as [input|]; [|injection H as <-; by intros [?|[??]]].
    destruct (validateGraphSpec_inputs input nodeKeys cp)
      as [(m & edges & seen & Hm & Hf & Hne & He & Heq)|(e' & Heq & Hn)].
    - rewrite Heq in H. eapply (validate_structure_error _ _ m edges seen); eauto.
      + apply Hm.
      + intros Hk. rewrite Hk in Hf. destruct nodeKeys as [|k ks]; [done|].
        assert (Hin : k ∈ ([] : list string)) by apply Hf, list_elem_of_here. inversion Hin.
    - congruence. }
  split; [|intros o]; intros Herr; apply (H _ Herr); [by left|right; by exists o].
Qed.

(** Over well-formed edges, the cycle error is reported exactly when the
    forward edges are not acyclic. *)
Theorem cycle_error_iff policy budget m edges seen :
  NoDup (JMap.keys m) → edge_inv (JMap.keys m) edges seen →
  (∃ stuck, validate_structure policy budget m edges = Err (g_cycle stuck)) ↔
  ¬ graph_acyclic edges.
Proof.
  intros Hnd He. destruct (forward_order_spec _ _ _ Hnd He) as (Hac & _ & _). simpl in Hac.
  unfold validate_structure. cbv zeta.
  destruct (bool_decide (length _ = length _)) eqn:Eo.
  - simpl. breflect. apply Hac in Eo. split; [|done]. intros (stuck & H). exfalso.
    destruct (forM_ (check_loop m edges) _) as [|el] eqn:El; simpl in H.
    2: { injection H as ->. apply forM_Err in El as (l & _ & El).
         unfold check_loop, fail_if in El. repeat (split_match_in El; simpl in El; try discriminate). }
    destruct (check_budget _ _ _) as [|eb] eqn:Eb; simpl in H.
    2: { injection H as ->. unfold check_budget, fail_if in Eb.
         repeat (split_match_in Eb; simpl in Eb; try discriminate). }
    destruct (bool_decide (entry_nodes _ _ = [])); simpl in H; [discriminate|].
    destruct (negb (bool_decide (orphan_nodes _ _ _ = []))); simpl in H; [discriminate|].
    destruct (forM_ (check_kind policy edges) _) as [|ek] eqn:Ek; simpl in H; [discriminate|].
    injection H as ->. apply forM_Err in Ek as (n & _ & Ek).
    unfold check_kind, check_router, check_evaluator, check_confirm, fail_if in Ek.
    repeat (split_match_in Ek; simpl in Ek; try discriminate).
  - simpl. breflect. rewrite <- Hac. split; [done|]. intros _. eauto.
Qed.

(** [reachableVia] computes reachability along forward edges (or along all
    edges), and [loopBodyNodes] the nodes on a forward path from the loop's
    target to its source. *)
Theorem reachableVia_loopBody_correct edges from b loop :
  (∀ y, y ∈ reachableVia edges from b ↔ rtc (edge_step edges b) from y) ∧
  (∀ k, k ∈ loopBodyNodes edges loop ↔
     rtc (edge_step edges false) (ge_to loop) k ∧ rtc (edge_step edges false) k (ge_from loop)).
Proof. split; [apply reachableVia_spec|apply elem_of_loopBodyNodes]. Qed.

(** ** Witnesses *)

(** plan → build → review, where review asks the user and loops back to build. *)
Definition sample_edge (from to : string) (kind : string) (verdict : list string) : GraphEdgeInput :=
  {| ei_from := from; ei_to := to; ei_kind := Some kind;
     ei_when := match verdict with [] => None
                | _ => Some {| ec_status := None; ec_verdict := Some verdict |} end;
     ei_label := None |}.

Definition sample_node (key kind : string) (visits : Z) : GraphNodeInput :=
  {| ni_key := key; ni_kind := Some kind; ni_join := None; ni_max_visits := Some (JInt visits) |}.

Definition sample_graph : GraphSpecInput :=
  {| si_version := None;
     si_nodes := Some [sample_node "ask" "confirm" 1; sample_node "build" "task" 3];
     si_edges := Some [sample_edge "build" "ask" "sequence" [];
                       sample_edge "ask" "ship" "conditional" ["PASS "];
                       sample_edge "ask" "build" "loop_back" ["fail"]];
     si_max_total_visits := Some (JInt 20) |}.

Definition sample_keys : list string := ["build"; "ask"; "ship"].

Definition sample_spec : GraphSpec :=
  match validateGraphSpec (Some sample_graph) sample_keys (JStr "auto") with
  | Ok s => s
  | Err _ => {| gs_version := 0; gs_nodes := []; gs_edges := []; gs_entry := [];
                gs_terminal := []; gs_max_total_visits := 0 |}
  end.

Lemma sample_keys_nonempty : "" ∉ sample_keys.
Proof. apply includes_false. reflexivity. Qed.

Lemma validateGraphSpec_structure_witness :
  node_keys sample_spec = ["build"; "ask"; "ship"] ∧ NoDup (node_keys sample_spec).
Proof.
  split; [vm_compute; reflexivity|].
  apply (validateGraphSpec_structure (Some sample_graph) sample_keys (JStr "auto") sample_spec).
  - apply sample_keys_nonempty.
  - vm_compute. reflexivity.
Defined.

Lemma validateGraphSpec_loops_bounded_witness :
  Z.of_nat (length (gs_nodes sample_spec)) <= gs_max_total_visits sample_spec
  <= MAX_TOTAL_VISITS_CEILING.
Proof.
  apply (validateGraphSpec_loops_bounded (Some sample_graph) sample_keys (JStr "auto") sample_spec).
  - apply sample_keys_nonempty.
  - vm_compute. reflexivity.
Defined.

Lemma validateGraphSpec_kind_rules_witness :
  match List.nth_error (gs_nodes sample_spec) 1 with
  | Some n => node_rules (normalizeConfirmPolicy (JStr "auto")) (gs_edges sample_spec) n
  | None => False
  end.
Proof.
  apply (validateGraphSpec_kind_rules (Some sample_graph) sample_keys (JStr "auto") sample_spec).
  - apply sample_keys_nonempty.
  - vm_compute. reflexivity.
  - vm_compute. right. left.
Defined.

Lemma cycle_error_iff_witness :
  let e a b := {| ge_from := a; ge_to := b; ge_kind := ek_sequence; ge_when := None;
                  ge_label := None |} in
  ¬ graph_acyclic [e "a" "b"; e "b" "a"].
Proof.
  intros e.
  apply (cycle_error_iff policy_auto None [("a", default_node "a"); ("b", default_node "b")]
           [e "a" "b"; e "b" "a"]
           [dedupe_key "a" "b" ek_sequence; dedupe_key "b" "a" ek_sequence]).
  - vm_compute. apply NoDup_cons_2; [|apply NoDup_singleton].
    intros H. apply list_elem_of_singleton in H. discriminate.
  - split.
    + intros x Hx. apply elem_of_cons in Hx as [->|Hx].
      * split_and!; [apply includes_true; reflexivity..|discriminate|done].
      * apply list_elem_of_singleton in Hx as ->.
        split_and!; [apply includes_true; reflexivity..|discriminate|done].
    + vm_compute. apply NoDup_cons_2; [|apply NoDup_singleton].
      intros H. apply list_elem_of_singleton in H. discriminate.
    + intros x Hx. apply includes_true. apply elem_of_cons in Hx as [->|Hx]; [reflexivity|].
      by apply list_elem_of_singleton in Hx as ->.
  - eexists. vm_compute. reflexivity.
Defined.

(** Cap propagation visits the loops once, in the order of the edges: a loop body
    can end below its target's cap, and validating the result again raises it. *)
Definition overlapping_loops : GraphSpecInput :=
  {| si_version := None;
     si_nodes := Some [sample_node "a" "task" 5; sample_node "b" "task" 2];
     si_edges := Some [sample_edge "a" "b" "sequence" []; sample_edge "b" "c" "sequence" [];
                       sample_edge "b" "d" "sequence" [];
                       sample_edge "d" "b" "loop_back" ["redo"];
                       sample_edge "c" "a" "loop_back" ["redo"]];
     si_max_total_visits := Some (JInt 50) |}.

Lemma cap_propagation_incomplete :
  (fmap (λ s, List.map (λ n, (gn_key n, gn_max_visits n)) (gs_nodes s))
     (validateGraphSpec (Some overlapping_loops) ["a"; "b"; "c"; "d"] JUndef))
  = Ok [("a", 5); ("b", 5); ("c", 5); ("d", 2)].
Proof. vm_compute. reflexivity. Qed.
