(* ===== verification/GraphRun.v ===== *)
(** * Graph execution: edge evaluation and progress

    Models the execution half of [orchestration-graph.ts]: [evaluateEdge],
    [computeGraphProgress], [selectOutgoingEdges], [firedLoopBacks] and the one
    entry point both engines share, [computeMissionProgress]. *)

From S2P Require Import Prelude JsStd Worklist Vocabulary Plan Graph GraphFacts.
#[local] Open Scope Z_scope.

Record GraphNodeState := {
  ns_key : string;
  ns_status : string;
  ns_visit : Z;
  ns_verdict : option string
}.

Inductive EdgeState : Type := es_satisfied | es_pending | es_dead.

#[export] Instance EdgeState_eq_dec : EqDecision EdgeState.
Proof. solve_decision. Defined.

(** The sentence recorded in the execution trace, by the branch that wrote it. *)
Inductive edge_reason : Type :=
  | r_source_gone (from : string)
  | r_still_open (from status : string)
  | r_finished (from status : string)
  | r_cannot_satisfy (from status : string)
  | r_other_status (from status : string) (wanted : list string)
  | r_untrusted_verdict (from status : string)
  | r_no_verdict (from : string)
  | r_other_verdict (from verdict : string) (wanted : list string)
  | r_verdict (from verdict : string)
  | r_ended (from status : string).

Record EdgeEvaluation := {
  ee_edge : GraphEdge;
  ee_state : EdgeState;
  ee_reason : edge_reason
}.

Definition satisfies (status : string) : bool := includes DEPENDENCY_SATISFYING_STATUSES status.

Definition evaluateEdge (edge : GraphEdge) (source : option GraphNodeState) : EdgeEvaluation :=
  let from := ge_from edge in
  let verdict_of st := {| ee_edge := edge; ee_state := fst st; ee_reason := snd st |} in
  verdict_of
  match source with
  | None => (es_satisfied, r_source_gone from)
  | Some source =>
      let status := ns_status source in
      if negb (isTerminalStepStatus status) then (es_pending, r_still_open from status)
      else match ge_when edge with
      | None =>
          if satisfies status then (es_satisfied, r_finished from status)
          else (es_dead, r_cannot_satisfy from status)
      | Some when =>
          if match ec_status when with Some l => negb (includes l status) | None => false end
          then (es_dead, r_other_status from status (default [] (ec_status when)))
          else match ec_verdict when with
          | Some wanted =>
              if bool_decide (ec_status when = None) && negb (satisfies status)
              then (es_dead, r_untrusted_verdict from status)
              else
                let verdict := toLowerCase (trim (default "" (ns_verdict source))) in
                if negb (truthy verdict) then (es_dead, r_no_verdict from)
                else if negb (includes wanted verdict)
                then (es_dead, r_other_verdict from verdict wanted)
                else (es_satisfied, r_verdict from verdict)
          | None => (es_satisfied, r_ended from status)
          end
      end
  end.

Definition state_is (s : EdgeState) (e : EdgeEvaluation) : bool := bool_decide (ee_state e = s).

(** [incomingByNode]: loop_back edges are not dependencies. *)
Definition incoming_edges (spec : GraphSpec) (key : string) : list GraphEdge :=
  lfilter (λ e, negb (is_loop_back e) && String.eqb (ge_to e) key) (gs_edges spec).

Definition states_by_key (states : list GraphNodeState) : list (string * GraphNodeState) :=
  JMap.index_by ns_key states.

Definition node_status (byKey : list (string * GraphNodeState)) (key : string) : string :=
  match JMap.get byKey key with Some s => ns_status s | None => "pending" end.

Definition node_evaluations (spec : GraphSpec) (byKey : list (string * GraphNodeState))
    (key : string) : list EdgeEvaluation :=
  List.map (λ e, evaluateEdge e (JMap.get byKey (ge_from e))) (incoming_edges spec key).

(** The join rules of a pending node. *)
Definition join_class (join : JoinPolicy) (evaluations : list EdgeEvaluation) : step_class :=
  match evaluations with
  | [] => cls_dispatchable
  | _ =>
      let satisfiedCount := Z.of_nat (length (lfilter (state_is es_satisfied) evaluations)) in
      let deadCount := Z.of_nat (length (lfilter (state_is es_dead) evaluations)) in
      let total := Z.of_nat (length evaluations) in
      match join with
      | join_any =>
          if 0 <? satisfiedCount then cls_dispatchable
          else if deadCount =? total then cls_newlyBlocked else cls_waiting
      | join_all =>
          if 0 <? deadCount then cls_newlyBlocked
          else if satisfiedCount =? total then cls_dispatchable else cls_waiting
      end
  end.

Definition graph_class (spec : GraphSpec) (byKey : list (string * GraphNodeState))
    (node : GraphNode) : step_class :=
  let status := node_status byKey (gn_key node) in
  if isInFlight status then cls_inFlight
  else if isAwaitingUser status then cls_awaitingUser
  else if String.eqb status "done" || String.eqb status "skipped" then cls_done
  else if isTerminalStepStatus status && negb (String.eqb status "done")
          && negb (String.eqb status "skipped") then cls_failed
  else join_class (gn_join node) (node_evaluations spec byKey (gn_key node)).

Record GraphProgress := {
  gp_progress : Progress;
  gp_incoming : list (string * list EdgeEvaluation)
}.

Definition computeGraphProgress (spec : GraphSpec) (states : list GraphNodeState) : GraphProgress :=
  let byKey := states_by_key states in
  foldl (λ out node,
    {| gp_progress := push_class (gp_progress out) (gn_key node) (graph_class spec byKey node);
       gp_incoming := JMap.set (gp_incoming out) (gn_key node)
                        (node_evaluations spec byKey (gn_key node)) |})
    {| gp_progress := empty_progress; gp_incoming := [] |} (gs_nodes spec).

(** Edges out of a node that just ended: taken and not taken, each with its reason. *)
Definition select_edge (nodeKey : string) (state : GraphNodeState)
    (acc : list EdgeEvaluation * list EdgeEvaluation) (edge : GraphEdge)
    : list EdgeEvaluation * list EdgeEvaluation :=
  if negb (String.eqb (ge_from edge) nodeKey) then acc
  else
    let evaluation := evaluateEdge edge (Some state) in
    match ee_state evaluation with
    | es_satisfied => (fst acc ++ [evaluation], snd acc)
    | es_dead => (fst acc, snd acc ++ [evaluation])
    | es_pending => acc
    end.

Definition selectOutgoingEdges (spec : GraphSpec) (nodeKey : string) (state : GraphNodeState)
    : list EdgeEvaluation * list EdgeEvaluation :=
  foldl (select_edge nodeKey state) ([], []) (gs_edges spec).

Definition firedLoopBacks (spec : GraphSpec) (nodeKey : string) (state : GraphNodeState)
    : list GraphEdge :=
  lfilter (λ e, state_is es_satisfied (evaluateEdge e (Some state)))
    (lfilter (λ e, is_loop_back e && String.eqb (ge_from e) nodeKey) (gs_edges spec)).

(** ** Mission progress *)

Record MissionStepStateView := {
  mv_step_key : string;
  mv_status : string;
  mv_depends_on : option (list string);
  mv_visit : option Z;
  mv_verdict : option string
}.

Definition view_state (s : MissionStepStateView) : GraphNodeState :=
  {| ns_key := mv_step_key s; ns_status := mv_status s; ns_visit := default 0 (mv_visit s);
     ns_verdict := Some (default "" (mv_verdict s)) |}.

Definition view_plan (s : MissionStepStateView) : StepStateView :=
  {| sv_step_key := mv_step_key s; sv_status := mv_status s; sv_depends_on := mv_depends_on s |}.

Definition computeMissionProgress (graphSpec : option GraphSpec)
    (steps : list MissionStepStateView) : Progress :=
  match graphSpec with
  | Some spec => gp_progress (computeGraphProgress spec (List.map view_state steps))
  | None => computePlanProgress (List.map view_plan steps)
  end.

(** ** Facts *)

Lemma gp_progress_classify spec states :
  gp_progress (computeGraphProgress spec states)
  = foldl (classify_step gn_key (graph_class spec (states_by_key states))) empty_progress
      (gs_nodes spec).
Proof.
  unfold computeGraphProgress.
  change empty_progress with (gp_progress {| gp_progress := empty_progress; gp_incoming := [] |}) at 2.
  generalize {| gp_progress := empty_progress; gp_incoming := [] |} as g.
  induction (gs_nodes spec) as [|n nodes IH]; intros g; simpl; [done|]. by rewrite IH.
Qed.

Lemma evaluateEdge_pending e source :
  ee_state (evaluateEdge e source) = es_pending ↔
  ∃ s, source = Some s ∧ isTerminalStepStatus (ns_status s) = false.
Proof.
  unfold evaluateEdge. cbn [ee_state]. destruct source as [s|]; simpl.
  2: { split; [discriminate|intros (? & ? & _); discriminate]. }
  destruct (isTerminalStepStatus (ns_status s)) eqn:E; simpl.
  - split; [|intros (? & [= <-] & ?); congruence]. intros H.
    repeat (split_match_in H; simpl in H; try discriminate).
  - split; eauto.
Qed.

Lemma terminal_not_inFlight s : isInFlight s = true → isTerminalStepStatus s = false.
Proof.
  intros H. apply includes_true in H. unfold IN_FLIGHT_STEP_STATUSES in H.
  rewrite !elem_of_cons, elem_of_nil in H. by destruct H as [->|[->|[]]].
Qed.

Lemma terminal_not_awaiting s : isAwaitingUser s = true → isTerminalStepStatus s = false.
Proof. intros H. by apply String.eqb_eq in H as ->. Qed.

Lemma join_class_open j evs : class_terminal (join_class j evs) = false.
Proof. unfold join_class. destruct evs, j; simpl; repeat case_match; done. Qed.

Lemma graph_class_terminal spec byKey n :
  class_terminal (graph_class spec byKey n) = isTerminalStepStatus (node_status byKey (gn_key n)).
Proof.
  unfold graph_class. set (st := node_status byKey (gn_key n)).
  destruct (isInFlight st) eqn:E1; [by rewrite terminal_not_inFlight|].
  destruct (isAwaitingUser st) eqn:E2; [by rewrite terminal_not_awaiting|].
  destruct (String.eqb st "done") eqn:E3; [by apply String.eqb_eq in E3 as ->|].
  destruct (String.eqb st "skipped") eqn:E4; [by apply String.eqb_eq in E4 as ->|]. simpl.
  destruct (isTerminalStepStatus st); simpl; [done|apply join_class_open].
Qed.

Lemma join_class_waiting j evs :
  join_class j evs = cls_waiting → ∃ e, e ∈ evs ∧ ee_state e = es_pending.
Proof.
  intros H.
  destruct (List.find (state_is es_pending) evs) as [e|] eqn:E.
  { apply find_Some_elem in E as [He Hp]. unfold state_is in Hp. breflect. eauto. }
  exfalso. pose proof (find_None_elem _ _ E) as Hno. clear E.
  assert (Hlen : (length (lfilter (state_is es_satisfied) evs)
                  + length (lfilter (state_is es_dead) evs) = length evs)%nat).
  { clear H. induction evs as [|e evs IH]; [done|].
    assert (He : state_is es_pending e = false) by apply Hno, list_elem_of_here.
    assert (IH' := IH (λ x Hx, Hno x (list_elem_of_further _ _ _ Hx))).
    rewrite !lfilter_cons.
    destruct (state_is es_satisfied e) eqn:E1, (state_is es_dead e) eqn:E2;
      unfold state_is in He, E1, E2; breflect; simpl; try lia;
      destruct (ee_state e); congruence. }
  unfold join_class in H. destruct evs as [|e0 evs0] eqn:Eevs; [discriminate|].
  rewrite <- Eevs in *. destruct j; repeat (split_match_in H; try discriminate); breflect; lia.
Qed.

Lemma graph_class_waiting spec byKey n :
  graph_class spec byKey n = cls_waiting →
  ∃ a s, edge_step (gs_edges spec) false a (gn_key n) ∧ JMap.get byKey a = Some s ∧
         isTerminalStepStatus (ns_status s) = false.
Proof.
  unfold graph_class. intros H. do 4 (case_match; [discriminate|]).
  apply join_class_waiting in H as (ev & Hev & Hp).
  unfold node_evaluations, incoming_edges in Hev.
  apply elem_of_map in Hev as (e & -> & He). apply elem_of_lfilter in He as [He Hb].
  apply evaluateEdge_pending in Hp as (s & Hs & Ht). breflect.
  match goal with H : is_loop_back _ = false |- _ => apply is_loop_back_false in H end.
  exists (ge_from e), s. split_and!; auto. exists e. auto.
Qed.

Lemma graph_valid_acyclic policy nodeKeys spec :
  graph_valid policy nodeKeys spec → graph_acyclic (gs_edges spec).
Proof.
  intros H. apply graph_ranked, (topo_sorted_ranked _ (node_keys spec)).
  - apply H.
  - intros l1 k l2 Hl a Ha. apply edge_pairs_forward in Ha.
    unfold node_keys in Hl. apply List.map_eq_app in Hl as (n1 & n2 & Hn & <- & Hn2).
    destruct n2 as [|n n2]; [discriminate|]. injection Hn2 as <- <-.
    by eapply (gv_order _ _ _ H).
  - intros a b (e & He & _ & <- & _)%edge_pairs_forward. by apply (gv_edges _ _ _ H).
Qed.

Lemma state_is_true s e : state_is s e = true ↔ ee_state e = s.
Proof. apply bool_decide_true_iff. Qed.

Lemma lfilter_full {A} (p : A → bool) l :
  length (lfilter p l) = length l ↔ ∀ x, x ∈ l → p x = true.
Proof.
  induction l as [|a l IH]; [split; [intros _ x Hx; inversion Hx|done]|].
  rewrite lfilter_cons. pose proof (lfilter_length_le p l) as Hle. split.
  - intros H x Hx. destruct (p a) eqn:E; simpl in H; [|lia].
    apply elem_of_cons in Hx as [->|Hx]; [done|]. apply IH; [lia|done].
  - intros H. rewrite (H a (list_elem_of_here _ _)). simpl. f_equal. apply IH.
    intros x Hx. apply H. by apply list_elem_of_further.
Qed.

Lemma lfilter_pos {A} (p : A → bool) l :
  0 < Z.of_nat (length (lfilter p l)) ↔ ∃ x, x ∈ l ∧ p x = true.
Proof.
  setoid_rewrite <- elem_of_lfilter. destruct (lfilter p l) as [|a k].
  - simpl. split; [lia|intros (x & Hx); inversion Hx].
  - split; [|simpl; lia]. intros _. exists a. apply list_elem_of_here.
Qed.

(** What the join policies ask of the incoming edges. *)
Definition join_ready (j : JoinPolicy) (evs : list EdgeEvaluation) : Prop :=
  match j with
  | join_all => ∀ e, e ∈ evs → ee_state e = es_satisfied
  | join_any => evs = [] ∨ ∃ e, e ∈ evs ∧ ee_state e = es_satisfied
  end.

Lemma join_class_ready j evs : join_class j evs = cls_dispatchable ↔ join_ready j evs.
Proof.
  unfold join_class, join_ready. destruct evs as [|e0 evs0] eqn:Eevs.
  { destruct j; (split; [intros _|done]); [intros e He; inversion He|by left]. }
  rewrite <- Eevs. destruct j.
  - destruct (0 <? _) eqn:Ed; breflect.
    + split; [discriminate|]. intros H. apply lfilter_pos in Ed as (e & He & Hs).
      apply state_is_true in Hs. rewrite (H e He) in Hs. discriminate.
    + destruct (_ =? _) eqn:Es; breflect.
      * split; [intros _ e He|done]. apply state_is_true.
        eapply (proj1 (lfilter_full _ _)); [|exact He]. lia.
      * split; [discriminate|]. intros H. exfalso. apply Es. f_equal.
        apply lfilter_full. intros e He. by apply state_is_true, H.
  - destruct (0 <? _) eqn:Ed; breflect.
    + split; [intros _|done]. right. apply lfilter_pos in Ed as (e & He & Hs).
      exists e. by apply state_is_true in Hs.
    + split; [intros H; split_match_in H; discriminate|].
      intros [H|(e & He & Hs)]; [by rewrite Eevs in H|]. exfalso.
      assert (0 < Z.of_nat (length (lfilter (state_is es_satisfied) evs))); [|lia].
      apply lfilter_pos. exists e. by rewrite state_is_true.
Qed.

Definition open_status (s : string) : Prop :=
  isInFlight s = false ∧ isAwaitingUser s = false ∧ isTerminalStepStatus s = false.

Lemma graph_class_dispatchable spec byKey n :
  graph_class spec byKey n = cls_dispatchable ↔
  open_status (node_status byKey (gn_key n)) ∧
  join_ready (gn_join n) (node_evaluations spec byKey (gn_key n)).
Proof.
  pose proof (graph_class_terminal spec byKey n) as Ht. unfold open_status.
  unfold graph_class in *. set (st := node_status byKey (gn_key n)) in *.
  destruct (isInFlight st) eqn:E1; [split; [discriminate|intros ((H & _) & _); congruence]|].
  destruct (isAwaitingUser st) eqn:E2; [split; [discriminate|intros ((_ & H & _) & _); congruence]|].
  destruct (_ || _); [split; [discriminate|intros ((_ & _ & H) & _)]; simpl in Ht; congruence|].
  destruct (_ && _) in Ht |- *;
    [split; [discriminate|intros ((_ & _ & H) & _)]; simpl in Ht; congruence|].
  rewrite join_class_open in Ht. rewrite join_class_ready. rewrite <- Ht. tauto.
Qed.

Lemma selectOutgoing_fold nodeKey state edges :
  isTerminalStepStatus (ns_status state) = true → ∀ acc,
  let r := foldl (select_edge nodeKey state) acc edges in
  fst r ++ snd r ≡ₚ (fst acc ++ snd acc) ++
    List.map (λ e, evaluateEdge e (Some state)) (outgoing_edges edges nodeKey) ∧
  (∀ e, e ∈ fst r → e ∈ fst acc ∨ ee_state e = es_satisfied) ∧
  (∀ e, e ∈ snd r → e ∈ snd acc ∨ ee_state e = es_dead).
Proof.
  intros Ht. unfold outgoing_edges.
  induction edges as [|e edges IH]; intros acc; cbn [foldl].
  { simpl. rewrite app_nil_r. split_and!; auto. }
  rewrite lfilter_cons. destruct (IH (select_edge nodeKey state acc e)) as (Hp & H1 & H2).
  split_and!.
  - rewrite Hp. unfold select_edge.
    destruct (String.eqb (ge_from e) nodeKey); [|done]. cbn [negb List.map].
    destruct (ee_state (evaluateEdge e (Some state))) eqn:Es; cbn [fst snd].
    + rewrite <- !app_assoc. simpl. apply Permutation_app_head. by rewrite Permutation_middle.
    + apply evaluateEdge_pending in Es as (? & [= <-] & ?). congruence.
    + rewrite <- !app_assoc. done.
  - intros x Hx. destruct (H1 x Hx) as [Hx'|?]; [|by right]. revert Hx'. unfold select_edge.
    destruct (String.eqb (ge_from e) nodeKey); [|by left]. cbn [negb].
    destruct (ee_state _) eqn:Es; cbn [fst]; auto.
    intros [?| ->%list_elem_of_singleton]%elem_of_app; auto.
  - intros x Hx. destruct (H2 x Hx) as [Hx'|?]; [|by right]. revert Hx'. unfold select_edge.
    destruct (String.eqb (ge_from e) nodeKey); [|by left]. cbn [negb].
    destruct (ee_state _) eqn:Es; cbn [snd]; auto.
    intros [?| ->%list_elem_of_singleton]%elem_of_app; auto.
Qed.

(** ** Properties *)

(** [computeGraphProgress] puts every node on exactly one list and reports
    [allTerminal] exactly when every node's status is terminal. *)
Theorem graph_progress_partition spec states :
  let p := gp_progress (computeGraphProgress spec states) in
  all_lists p ≡ₚ node_keys spec ∧
  (pr_allTerminal p = true ↔
   ∀ n, n ∈ gs_nodes spec →
     isTerminalStepStatus (node_status (states_by_key states) (gn_key n)) = true).
Proof.
  cbv zeta. rewrite gp_progress_classify. split.
  - by rewrite all_lists_fold.
  - rewrite allTerminal_fold. simpl. rewrite levery_true.
    split; intros H n Hn; [rewrite <- (graph_class_terminal spec)|rewrite graph_class_terminal]; auto.
Qed.

(** C30: no deadlock on a validated graph: if some node is open, nothing is in
    flight and nothing awaits the user, then a node is dispatchable or can be
    declared blocked. *)
Theorem graph_no_deadlock input nodeKeys cp spec states :
  "" ∉ nodeKeys → validateGraphSpec input nodeKeys cp = Ok spec →
  let p := gp_progress (computeGraphProgress spec states) in
  pr_allTerminal p = false → pr_inFlight p = [] → pr_awaitingUser p = [] →
  pr_dispatchable p ≠ [] ∨ pr_newlyBlocked p ≠ [].
Proof.
  intros Hempty Hv p Hopen Hfl Haw. apply validateGraphSpec_valid in Hv; [|done].
  destruct (graph_valid_acyclic _ _ _ Hv) as [rank Hrank].
  destruct (pr_dispatchable p) as [|? ?] eqn:Hd; [|by left].
  destruct (pr_newlyBlocked p) as [|? ?] eqn:Hb; [|by right]. exfalso.
  set (byKey := states_by_key states). set (cls := graph_class spec byKey).
  assert (Hp : p = foldl (classify_step gn_key cls) empty_progress (gs_nodes spec))
    by apply gp_progress_classify.
  assert (Hno : ∀ c n, class_list c p = [] → n ∈ gs_nodes spec → cls n ≠ c).
  { intros c n Hc Hn He.
    assert (Hin : gn_key n ∈ class_list c p) by (rewrite Hp; apply class_list_elem; eauto).
    rewrite Hc in Hin. inversion Hin. }
  set (open n := n ∈ gs_nodes spec ∧ isTerminalStepStatus (node_status byKey (gn_key n)) = false).
  assert (Hn : ∀ n, ¬ open n).
  { apply (rank_descent open (λ n, rank (gn_key n))). intros n [Hn Ht].
    pose proof (graph_class_terminal spec byKey n) as Hct. rewrite Ht in Hct. fold cls in Hct.
    assert (Hw : cls n = cls_waiting).
    { destruct (cls n) eqn:Ec; try done; exfalso; (eapply Hno; [|exact Hn|exact Ec]; assumption). }
    destruct (graph_class_waiting _ _ _ Hw) as (a & s & Hstep & Hs & Hst).
    assert (Ha : a ∈ node_keys spec).
    { destruct Hstep as (e & He & <- & _). by apply (gv_edges _ _ _ Hv). }
    apply elem_of_map in Ha as (m & -> & Hm). exists m. split; [split; [done|]|by apply Hrank].
    unfold node_status. by rewrite Hs. }
  rewrite Hp, allTerminal_fold in Hopen. simpl in Hopen.
  apply not_true_iff_false in Hopen. apply Hopen, levery_true. intros n Hin.
  unfold cls. rewrite graph_class_terminal. apply not_false_iff_true. intros Ht. by apply (Hn n).
Qed.

(** A node is dispatchable exactly when its status is open and its incoming
    forward edges meet its join policy: all of them satisfied, or (for [any])
    none present or one satisfied. *)
Theorem graph_dispatchable_iff spec states n :
  NoDup (node_keys spec) → n ∈ gs_nodes spec →
  let byKey := states_by_key states in
  gn_key n ∈ pr_dispatchable (gp_progress (computeGraphProgress spec states)) ↔
  open_status (node_status byKey (gn_key n)) ∧
  join_ready (gn_join n) (node_evaluations spec byKey (gn_key n)).
Proof.
  intros Hnd Hn byKey. rewrite gp_progress_classify, <- graph_class_dispatchable.
  change (pr_dispatchable ?p) with (class_list cls_dispatchable p). rewrite class_list_elem.
  split; [|eauto]. intros (x & Hx & Hk & Hc).
  assert (x = n) as <- by (eapply (NoDup_fmap_inj_on gn_key); eauto). done.
Qed.

(** When a node has ended, every edge out of it is decided: the taken and
    not-taken lists together are the evaluations of all its outgoing edges. *)
Theorem selectOutgoingEdges_complete spec nodeKey state :
  isTerminalStepStatus (ns_status state) = true →
  let taken := fst (selectOutgoingEdges spec nodeKey state) in
  let notTaken := snd (selectOutgoingEdges spec nodeKey state) in
  taken ++ notTaken ≡ₚ
    List.map (λ e, evaluateEdge e (Some state)) (outgoing_edges (gs_edges spec) nodeKey) ∧
  (∀ e, e ∈ taken → ee_state e = es_satisfied) ∧ (∀ e, e ∈ notTaken → ee_state e = es_dead).
Proof.
  intros Ht.
  destruct (selectOutgoing_fold nodeKey state (gs_edges spec) Ht ([], [])) as (Hp & H1 & H2).
  cbv zeta. split_and!; [exact Hp| |]; intros e He;
    [destruct (H1 e He) as [Hi|?]|destruct (H2 e He) as [Hi|?]]; auto; inversion Hi.
Qed.

(** On a validated graph the two answers to a confirm gate open different
    nodes: an edge with a verdict condition taken on "pass" and one taken on
    "fail" never have the same target. *)
Theorem confirm_answers_exclusive input nodeKeys cp spec n e e' s s' :
  "" ∉ nodeKeys → validateGraphSpec input nodeKeys cp = Ok spec →
  n ∈ gs_nodes spec → gn_kind n = nk_confirm →
  e ∈ outgoing_edges (gs_edges spec) (gn_key n) → edge_verdicts e ≠ [] →
  e' ∈ outgoing_edges (gs_edges spec) (gn_key n) → edge_verdicts e' ≠ [] →
  ns_verdict s = Some CONFIRM_PASS → ns_verdict s' = Some CONFIRM_FAIL →
  ee_state (evaluateEdge e (Some s)) = es_satisfied →
  ee_state (evaluateEdge e' (Some s')) = es_satisfied →
  ge_to e ≠ ge_to e'.
Proof.
  intros Hempty Hv Hn Hk He Hve He' Hve' Hs Hs' Hsat Hsat'.
  apply validateGraphSpec_valid in Hv; [|done].
  pose proof (gv_rules _ _ _ Hv n Hn) as Hr. unfold node_rules in Hr. rewrite Hk in Hr.
  destruct Hr as (_ & _ & _ & _ & Hd). apply Hd; auto.
  all: clear Hd; unfold evaluateEdge, edge_verdicts in *; cbn [ee_state] in *.
  - destruct (ge_when e) as [w|]; [|done]. destruct (ec_verdict w) as [l|]; [|done].
    rewrite Hs in Hsat. simpl in *. repeat (split_match_in Hsat; simpl in Hsat; try discriminate);
      breflect; assumption.
  - destruct (ge_when e') as [w|]; [|done]. destruct (ec_verdict w) as [l|]; [|done].
    rewrite Hs' in Hsat'. simpl in *. repeat (split_match_in Hsat'; simpl in Hsat'; try discriminate);
      breflect; assumption.
Qed.

(** ** Witnesses *)

Definition sample_state (key status verdict : string) (visit : Z) : GraphNodeState :=
  {| ns_key := key; ns_status := status; ns_visit := visit; ns_verdict := Some verdict |}.

Definition sample_states : list GraphNodeState :=
  [sample_state "build" "done" "" 1; sample_state "ask" "failed" "" 1;
   sample_state "ship" "pending" "" 0].

Lemma graph_no_deadlock_witness :
  let p := gp_progress (computeGraphProgress sample_spec sample_states) in
  pr_dispatchable p ≠ [] ∨ pr_newlyBlocked p ≠ [].
Proof.
  apply (graph_no_deadlock (Some sample_graph) sample_keys (JStr "auto") sample_spec sample_states).
  - apply sample_keys_nonempty.
  - vm_compute. reflexivity.
  - vm_compute. reflexivity.
  - vm_compute. reflexivity.
  - vm_compute. reflexivity.
Defined.

Lemma graph_dispatchable_iff_witness :
  let states := [sample_state "build" "done" "" 1] in
  "ask" ∈ pr_dispatchable (gp_progress (computeGraphProgress sample_spec states)).
Proof.
  intros states.
  apply (graph_dispatchable_iff sample_spec states
           {| gn_key := "ask"; gn_kind := nk_confirm; gn_join := join_all; gn_max_visits := 3 |}).
  - vm_compute. repeat (apply NoDup_cons_2; [intros H; repeat (apply elem_of_cons in H as [H|H];
      [discriminate|]); inversion H|]). apply NoDup_nil_2.
  - vm_compute. apply list_elem_of_further, list_elem_of_here.
  - split; [repeat split; reflexivity|]. intros e He.
    apply elem_of_map in He as (x & -> & Hx). vm_compute in Hx.
    apply list_elem_of_singleton in Hx as ->. reflexivity.
Defined.

Lemma selectOutgoingEdges_complete_witness :
  fst (selectOutgoingEdges sample_spec "ask" (sample_state "ask" "done" "fail" 1)) ++
  snd (selectOutgoingEdges sample_spec "ask" (sample_state "ask" "done" "fail" 1))
  ≡ₚ List.map (λ e, evaluateEdge e (Some (sample_state "ask" "done" "fail" 1)))
       (outgoing_edges (gs_edges sample_spec) "ask").
Proof.
  apply (selectOutgoingEdges_complete sample_spec "ask" (sample_state "ask" "done" "fail" 1)).
  reflexivity.
Defined.

Lemma confirm_answers_exclusive_witness :
  let e := {| ge_from := "ask"; ge_to := "ship"; ge_kind := ek_conditional;
              ge_when := Some {| ec_status := None; ec_verdict := Some ["pass"] |};
              ge_label := None |} in
  let e' := {| ge_from := "ask"; ge_to := "build"; ge_kind := ek_loop_back;
               ge_when := Some {| ec_status := None; ec_verdict := Some ["fail"] |};
               ge_label := None |} in
  ge_to e ≠ ge_to e'.
Proof.
  intros e e'.
  apply (confirm_answers_exclusive (Some sample_graph) sample_keys (JStr "auto") sample_spec
           {| gn_key := "ask"; gn_kind := nk_confirm; gn_join := join_all; gn_max_visits := 3 |}
           e e' (sample_state "ask" "done" "pass" 1) (sample_state "ask" "done" "fail" 1)).
  - apply sample_keys_nonempty.
  - vm_compute. reflexivity.
  - vm_compute. apply list_elem_of_further, list_elem_of_here.
  - reflexivity.
  - vm_compute. apply list_elem_of_here.
  - vm_compute. discriminate.
  - vm_compute. apply list_elem_of_further, list_elem_of_here.
  - vm_compute. discriminate.
  - reflexivity.
  - reflexivity.
  - reflexivity.
  - reflexivity.
Defined.
