(* ===== verification/Wave.v ===== *)
(** * Wave plans as graphs, and graphs across replans

    Models [graphFromWavePlan], which turns a [depends_on] plan into an execution
    graph, and [carryGraphThroughReplan], which keeps an existing graph when a
    replan adds steps.  A thrown exception of [graphFromWavePlan] is its [Err]. *)

From S2P Require Import Prelude JsStd Worklist Vocabulary Plan Graph GraphFacts GraphRun.
#[local] Open Scope Z_scope.

Record WaveStepInput := {
  ws_step_key : string;
  ws_depends_on : option (list string)
}.

Definition plain_node (key : string) : GraphNodeInput :=
  {| ni_key := key; ni_kind := None; ni_join := None; ni_max_visits := None |}.

Definition sequence_edge (from to : string) : GraphEdgeInput :=
  {| ei_from := from; ei_to := to; ei_kind := Some "sequence"; ei_when := None; ei_label := None |}.

(** The edges of one step: dangling, empty and self dependencies are skipped. *)
Definition wave_edges_of (known : list string) (step : WaveStepInput) : list GraphEdgeInput :=
  let to := trim (ws_step_key step) in
  List.map (λ from, sequence_edge from to)
    (lfilter (λ from, truthy from && negb (String.eqb from to) && includes known from)
       (List.map trim (default [] (ws_depends_on step)))).

Definition graphFromWavePlan (steps : list WaveStepInput) : res graph_error GraphSpec :=
  let keys := lfilter truthy (List.map (λ s, trim (ws_step_key s)) steps) in
  let edges := List.flat_map (wave_edges_of (new_Set keys)) steps in
  validateGraphSpec
    (Some {| si_version := Some (JInt GRAPH_SPEC_VERSION);
             si_nodes := Some (List.map plain_node keys);
             si_edges := Some edges;
             si_max_total_visits := Some (JInt (Z.of_nat (length keys))) |})
    keys JUndef.

(** A stored spec back in input form. *)
Definition node_input (n : GraphNode) : GraphNodeInput :=
  {| ni_key := gn_key n; ni_kind := Some (node_kind_string (gn_kind n));
     ni_join := Some (join_string (gn_join n)); ni_max_visits := Some (JInt (gn_max_visits n)) |}.

Definition edge_input (e : GraphEdge) : GraphEdgeInput :=
  {| ei_from := ge_from e; ei_to := ge_to e; ei_kind := Some (edge_kind_string (ge_kind e));
     ei_when := ge_when e; ei_label := ge_label e |}.

Definition carryGraphThroughReplan (spec : GraphSpec) (nodeKeys : list string) (confirmPolicy : jsval)
    : res graph_error (GraphSpec * list string) :=
  let planKeys := new_Set (lfilter truthy (List.map trim nodeKeys)) in
  let known := List.map gn_key (gs_nodes spec) in
  let added := lfilter (λ k, negb (includes known k)) planKeys in
  revalidated ← validateGraphSpec
    (Some {| si_version := Some (JInt GRAPH_SPEC_VERSION);
             si_nodes := Some (List.map node_input (gs_nodes spec));
             si_edges := Some (List.map edge_input (gs_edges spec));
             si_max_total_visits :=
               Some (JInt (Z.max (gs_max_total_visits spec) (Z.of_nat (length planKeys)))) |})
    planKeys confirmPolicy;
  Ok (revalidated, added).

(** ** Running the node loop on fresh, well-formed nodes *)

(** What the node loop stores for an input it accepts. *)
Definition node_of_input (r : GraphNodeInput) : option GraphNode :=
  match JMap.get GRAPH_NODE_KINDS (trim (default "task" (ni_kind r))),
        JMap.get JOIN_POLICIES (trim (default "all" (ni_join r))),
        isPositiveInt (default (JInt 1) (ni_max_visits r)) with
  | Some k, Some j, Some v =>
      if v <=? MAX_NODE_VISITS_CEILING
      then Some {| gn_key := trim (ni_key r); gn_kind := k; gn_join := j; gn_max_visits := v |}
      else None
  | _, _, _ => None
  end.

Lemma check_node_run planKeys m r n :
  node_of_input r = Some n → STEP_KEY_PATTERN (gn_key n) = true → gn_key n ∈ planKeys →
  gn_key n ∉ JMap.keys m → check_node planKeys m r = Ok (m ++ [(gn_key n, n)]).
Proof.
  unfold node_of_input, check_node. intros H Hpat Hin Hfresh.
  destruct (JMap.get GRAPH_NODE_KINDS _) as [k|]; [|discriminate].
  destruct (JMap.get JOIN_POLICIES _) as [j|]; [|discriminate].
  destruct (isPositiveInt _) as [v|]; [|discriminate].
  destruct (v <=? _) eqn:Ev; [|discriminate]. injection H as <-. cbn [gn_key] in *.
  rewrite Hpat, (proj2 (includes_true _ _) Hin). simpl.
  rewrite (proj2 (JMap.has_false _ _) Hfresh). simpl.
  assert ((MAX_NODE_VISITS_CEILING <? v) = false) as -> by (breflect; by apply Z.ltb_ge).
  simpl. rewrite JMap.set_absent by (by apply JMap.get_None_keys). done.
Qed.

Lemma check_nodes_run planKeys (rs : list GraphNodeInput) (ns : list GraphNode) : ∀ m,
  Forall2 (λ r n, node_of_input r = Some n) rs ns →
  (∀ n, n ∈ ns → STEP_KEY_PATTERN (gn_key n) = true ∧ gn_key n ∈ planKeys) →
  NoDup (JMap.keys m ++ List.map gn_key ns) →
  foldM (check_node planKeys) m rs = Ok (m ++ List.map (λ n, (gn_key n, n)) ns).
Proof.
  revert ns. induction rs as [|r rs IH]; intros ns m H2 Hn Hnd.
  - inversion H2; subst. simpl. by rewrite app_nil_r.
  - inversion H2 as [|? n ? ns' Hr H2']; subst. simpl.
    destruct (Hn n (list_elem_of_here _ _)) as [Hp Hk].
    assert (Hfresh : gn_key n ∉ JMap.keys m).
    { apply NoDup_app in Hnd as (_ & Hd & _). intros Hin. apply (Hd _ Hin), list_elem_of_here. }
    rewrite (check_node_run _ _ _ _ Hr Hp Hk Hfresh). simpl.
    rewrite (IH ns'); [by rewrite <- app_assoc|done| |].
    + intros x Hx. apply Hn. by apply list_elem_of_further.
    + rewrite JMap_keys_app, <- app_assoc. exact Hnd.
Qed.

Lemma fill_nodes_noop ks : ∀ m : nodes_map, ks ⊆ JMap.keys m → foldl fill_node m ks = m.
Proof.
  induction ks as [|k ks IH]; intros m Hs; simpl; [done|].
  unfold fill_node at 2. rewrite (proj2 (JMap.has_keys _ _)) by apply Hs, list_elem_of_here.
  apply IH. intros x Hx. apply Hs. by apply list_elem_of_further.
Qed.

(** ** Running the edge loop *)

(** Strings over the alphabet of step keys. *)
Definition key_chars (s : string) : bool := all_chars is_key_char s.

Lemma step_key_chars s : STEP_KEY_PATTERN s = true → key_chars s = true.
Proof.
  intros H. destruct s as [|c s]; [done|]. unfold key_chars. simpl in *. breflect.
  apply andb_true_iff. split; [|done]. unfold is_key_char.
  match goal with H : is_key_start _ = true |- _ => rewrite H end. done.
Qed.

Lemma sep_split_inj a : ∀ b r r',
  key_chars a = true → key_chars b = true →
  String.append a (String "000" r) = String.append b (String "000" r') → a = b ∧ r = r'.
Proof.
  unfold key_chars.
  induction a as [|c a IH]; intros b r r' Ha Hb H; cbn [String.append] in H.
  - destruct b as [|d b]; [split; [done|]; inversion H; done|].
    exfalso. inversion H; subst; discriminate Hb.
  - destruct b as [|d b].
    + exfalso. inversion H; subst; discriminate Ha.
    + inversion H as [[Hc Hrest]]. clear H. subst d. simpl in Ha, Hb. breflect.
      destruct (IH b r r') as [-> ->]; auto.
Qed.

(** The separator makes the dedupe string injective on step keys. *)
Lemma dedupe_key_inj a b k a' b' k' :
  key_chars a = true → key_chars b = true → key_chars a' = true → key_chars b' = true →
  dedupe_key a b k = dedupe_key a' b' k' → a = a' ∧ b = b' ∧ k = k'.
Proof.
  unfold dedupe_key. intros Ha Hb Ha' Hb' H.
  apply sep_split_inj in H as [-> H]; [|done..].
  apply sep_split_inj in H as [-> H]; [|done..].
  split_and!; auto. by destruct k, k'.
Qed.

Definition edge_of_input (r : GraphEdgeInput) : option GraphEdge :=
  match JMap.get GRAPH_EDGE_KINDS (trim (default "sequence" (ei_kind r))) with
  | Some k =>
      let when := normalizeCondition (ei_when r) in
      let label := trim (default "" (ei_label r)) in
      if bool_decide (k ≠ ek_sequence) && bool_decide (when = None) then None
      else Some {| ge_from := trim (ei_from r); ge_to := trim (ei_to r); ge_kind := k;
                   ge_when := when;
                   ge_label := if truthy label then Some (slice 120 label) else None |}
  | None => None
  end.

Lemma check_edge_run m edges seen r e :
  edge_of_input r = Some e →
  ge_from e ∈ JMap.keys m → ge_to e ∈ JMap.keys m → ge_from e ≠ ge_to e →
  dedupe_key (ge_from e) (ge_to e) (ge_kind e) ∉ seen →
  check_edge m (edges, seen) r
  = Ok (edges ++ [e], seen ++ [dedupe_key (ge_from e) (ge_to e) (ge_kind e)]).
Proof.
  unfold edge_of_input, check_edge. intros H Hf Ht Hne Hs.
  destruct (JMap.get GRAPH_EDGE_KINDS _) as [k|]; [|discriminate]. cbv zeta in H.
  destruct (bool_decide (k ≠ ek_sequence) && _) eqn:Ek in H; [discriminate|].
  injection H as <-. simpl in *.
  rewrite (proj2 (JMap.has_keys _ _) Hf), (proj2 (JMap.has_keys _ _) Ht). simpl.
  apply String.eqb_neq in Hne. rewrite Hne. simpl.
  rewrite (proj2 (includes_false _ _) Hs). simpl. unfold set_add.
  rewrite (proj2 (includes_false _ _) Hs).
  destruct k, (bool_decide (normalizeCondition _ = None)); simpl in *; done.
Qed.

Lemma check_edges_run m (rs : list GraphEdgeInput) (es : list GraphEdge) : ∀ edges seen,
  Forall2 (λ r e, edge_of_input r = Some e) rs es →
  (∀ e, e ∈ es → ge_from e ∈ JMap.keys m ∧ ge_to e ∈ JMap.keys m ∧ ge_from e ≠ ge_to e) →
  NoDup (seen ++ List.map (λ e, dedupe_key (ge_from e) (ge_to e) (ge_kind e)) es) →
  foldM (check_edge m) (edges, seen) rs
  = Ok (edges ++ es, seen ++ List.map (λ e, dedupe_key (ge_from e) (ge_to e) (ge_kind e)) es).
Proof.
  revert es. induction rs as [|r rs IH]; intros es edges seen H2 He Hnd.
  - inversion H2; subst. simpl. by rewrite !app_nil_r.
  - inversion H2 as [|? e ? es' Hr H2']; subst. cbn [foldM List.map].
    destruct (He e (list_elem_of_here _ _)) as (Hf & Ht & Hne).
    assert (Hs : dedupe_key (ge_from e) (ge_to e) (ge_kind e) ∉ seen).
    { apply NoDup_app in Hnd as (_ & Hd & _). intros Hin. apply (Hd _ Hin), list_elem_of_here. }
    rewrite (check_edge_run _ _ _ _ _ Hr Hf Ht Hne Hs). cbn [mbind res_bind].
    rewrite (IH es'); [by rewrite <- !app_assoc|done| |].
    + intros x Hx. apply He. by apply list_elem_of_further.
    + rewrite <- app_assoc. exact Hnd.
Qed.

(** ** The structural phases succeed when their conditions hold *)

Lemma validate_structure_complete policy budget nodeKeys m edges seen z :
  node_inv nodeKeys m → JMap.keys m ≠ [] → edge_inv (JMap.keys m) edges seen →
  graph_acyclic edges →
  (∀ loop, loop ∈ loop_edges edges → check_loop m edges loop = Ok tt) →
  check_budget budget (loop_edges edges) (Z.of_nat (length (JMap.keys m))) = Ok z →
  (∀ n, n ∈ JMap.values (foldl (propagate_loop edges) m (loop_edges edges)) →
        check_kind policy edges n = Ok tt) →
  validate_structure policy budget m edges = Ok
    {| gs_version := GRAPH_SPEC_VERSION;
       gs_nodes := omap (JMap.get (foldl (propagate_loop edges) m (loop_edges edges)))
                     (forward_order (JMap.keys m) edges);
       gs_edges := edges; gs_entry := entry_nodes (JMap.keys m) edges;
       gs_terminal := terminal_nodes (JMap.keys m) edges; gs_max_total_visits := z |}.
Proof.
  intros Hm Hne He Hac Hl Hb Hk. unfold validate_structure. cbv zeta.
  destruct (forward_order_spec _ _ _ (nv_nodup _ _ Hm) He) as (Hlen & _ & _). simpl in Hlen.
  rewrite (bool_decide_true (length (forward_order (JMap.keys m) edges) = _)) by (by apply Hlen).
  simpl.
  rewrite (proj2 (forM_Ok _ _ tt)) by done. simpl. rewrite Hb. simpl.
  rewrite (bool_decide_false (entry_nodes _ _ = [])).
  2: { intros Hen. destruct (JMap.keys m) as [|k ks] eqn:Ek; [done|].
       destruct (acyclic_reach (k :: ks) edges seen He Hac k) as (s & Hs & _);
         [apply list_elem_of_here|]. rewrite Hen in Hs. inversion Hs. }
  simpl. rewrite (orphan_nodes_nil _ _ seen) by done. simpl.
  rewrite (proj2 (forM_Ok _ _ tt)) by done. done.
Qed.

(** The input phases, run forward. *)
Lemma validateGraphSpec_run nodes edges_in budget nodeKeys cp ns es :
  NoDup nodeKeys → nodeKeys ≠ [] →
  Forall2 (λ r n, node_of_input r = Some n) nodes ns →
  (∀ n, n ∈ ns → STEP_KEY_PATTERN (gn_key n) = true ∧ gn_key n ∈ nodeKeys) →
  NoDup (List.map gn_key ns) →
  let m := foldl fill_node (List.map (λ n, (gn_key n, n)) ns) nodeKeys in
  Forall2 (λ r e, edge_of_input r = Some e) edges_in es →
  (∀ e, e ∈ es → ge_from e ∈ JMap.keys m ∧ ge_to e ∈ JMap.keys m ∧ ge_from e ≠ ge_to e) →
  NoDup (List.map (λ e, dedupe_key (ge_from e) (ge_to e) (ge_kind e)) es) →
  validateGraphSpec
    (Some {| si_version := Some (JInt GRAPH_SPEC_VERSION); si_nodes := Some nodes;
             si_edges := Some edges_in; si_max_total_visits := budget |}) nodeKeys cp
  = validate_structure (normalizeConfirmPolicy cp) budget m es.
Proof.
  intros Hnd Hne Hn Hns Hnsd m He Hes Hesd. unfold validateGraphSpec.
  rewrite (new_Set_NoDup _ Hnd). simpl.
  rewrite (bool_decide_false (nodeKeys = [])) by done. simpl.
  rewrite (check_nodes_run _ _ ns []) by (simpl; auto). simpl. fold m.
  rewrite (check_edges_run _ _ es [] []) by (simpl; auto). done.
Qed.

(** ** Well-formed wave plans *)

Definition wave_deps (s : WaveStepInput) : list string := List.map trim (default [] (ws_depends_on s)).

Definition wave_keys (steps : list WaveStepInput) : list string := List.map ws_step_key steps.

Record wave_ok (steps : list WaveStepInput) : Prop := {
  wo_nonempty : steps ≠ [];
  wo_bound : Z.of_nat (length steps) <= MAX_TOTAL_VISITS_CEILING;
  wo_keys : ∀ s, s ∈ steps → STEP_KEY_PATTERN (ws_step_key s) = true;
  wo_nodup : NoDup (wave_keys steps);
  wo_deps : ∀ s, s ∈ steps → NoDup (wave_deps s);
  wo_acyclic : ∃ rank : string → nat, ∀ s d, s ∈ steps → d ∈ wave_deps s → d ∈ wave_keys steps →
    (rank d < rank (ws_step_key s))%nat
}.

Definition plain_edge (from to : string) : GraphEdge :=
  {| ge_from := from; ge_to := to; ge_kind := ek_sequence; ge_when := None; ge_label := None |}.

(** The dependencies that become edges. *)
Definition live_deps (steps : list WaveStepInput) (s : WaveStepInput) : list string :=
  lfilter (λ d, truthy d && negb (String.eqb d (ws_step_key s)) && includes (wave_keys steps) d)
    (wave_deps s).

Definition wave_edges (steps : list WaveStepInput) : list GraphEdge :=
  List.flat_map (λ s, List.map (λ d, plain_edge d (ws_step_key s)) (live_deps steps s)) steps.

Lemma elem_of_flat_map {A B} (f : A → list B) l y :
  y ∈ List.flat_map f l ↔ ∃ x, x ∈ l ∧ y ∈ f x.
Proof.
  rewrite list_elem_of_In, in_flat_map. setoid_rewrite <- list_elem_of_In. done.
Qed.

Lemma elem_of_wave_edges steps e :
  e ∈ wave_edges steps ↔ ∃ s d, s ∈ steps ∧ d ∈ live_deps steps s ∧ e = plain_edge d (ws_step_key s).
Proof.
  unfold wave_edges. rewrite elem_of_flat_map. setoid_rewrite elem_of_map.
  split; [intros (s & Hs & d & -> & Hd)|intros (s & d & Hs & Hd & ->)]; eauto.
Qed.

Lemma elem_of_live_deps steps s d :
  d ∈ live_deps steps s ↔
  d ∈ wave_deps s ∧ d ≠ "" ∧ d ≠ ws_step_key s ∧ d ∈ wave_keys steps.
Proof.
  unfold live_deps. rewrite elem_of_lfilter, !andb_true_iff, truthy_true, negb_true_iff,
    String.eqb_neq, includes_true. tauto.
Qed.

Section wave.
Context (steps : list WaveStepInput) (Hok : wave_ok steps).

Lemma wave_trim s : s ∈ steps → trim (ws_step_key s) = ws_step_key s.
Proof using Hok. intros Hs. by apply step_key_trim, (wo_keys _ Hok). Qed.

Lemma wave_keys_computed : lfilter truthy (List.map (λ s, trim (ws_step_key s)) steps) = wave_keys steps.
Proof using Hok.
  unfold wave_keys. assert (Hs : ∀ s, s ∈ steps → trim (ws_step_key s) = ws_step_key s ∧
    truthy (ws_step_key s) = true).
  { intros s Hs. split; [by apply wave_trim|].
    apply truthy_true, step_key_not_empty, (wo_keys _ Hok), Hs. }
  clear Hok. induction steps as [|s l IH]; simpl; [done|].
  destruct (Hs s (list_elem_of_here _ _)) as [-> Ht]. rewrite Ht. f_equal. apply IH.
  intros x Hx. apply Hs. by apply list_elem_of_further.
Qed.

Lemma wave_edges_computed :
  Forall2 (λ r e, edge_of_input r = Some e)
    (List.flat_map (wave_edges_of (new_Set (wave_keys steps))) steps) (wave_edges steps).
Proof using Hok.
  unfold wave_edges. rewrite (new_Set_NoDup _ (wo_nodup _ Hok)).
  assert (Hgen : ∀ l, l ⊆ steps →
    Forall2 (λ r e, edge_of_input r = Some e)
      (List.flat_map (wave_edges_of (wave_keys steps)) l)
      (List.flat_map (λ s, List.map (λ d, plain_edge d (ws_step_key s)) (live_deps steps s)) l));
    [|by apply Hgen].
  induction l as [|s l IH]; intros Hl; simpl; [constructor|].
  assert (Hs : s ∈ steps) by apply Hl, list_elem_of_here.
  apply Forall2_app; [|apply IH; intros x Hx; apply Hl; by apply list_elem_of_further].
  unfold wave_edges_of. rewrite (wave_trim s Hs). unfold live_deps, wave_deps.
  set (ds := lfilter _ _).
  assert (Hds : ∀ d, d ∈ ds → d ∈ wave_keys steps).
  { intros d [_ Hd]%elem_of_lfilter. breflect. done. }
  clearbody ds. induction ds as [|d ds IHd]; simpl; [constructor|].
  constructor; [|apply IHd; intros x Hx; apply Hds; by apply list_elem_of_further].
  assert (Htd : trim d = d).
  { destruct (proj1 (elem_of_map _ _ _) (Hds d (list_elem_of_here _ _))) as (x & -> & Hx).
    by apply wave_trim. }
  unfold edge_of_input. simpl. rewrite Htd, (wave_trim s Hs). reflexivity.
Qed.

Lemma wave_edges_distinct :
  NoDup (List.map (λ e, dedupe_key (ge_from e) (ge_to e) (ge_kind e)) (wave_edges steps)).
Proof using Hok.
  assert (Hns : ∀ k, k ∈ wave_keys steps → key_chars k = true).
  { intros k (s & -> & Hs)%elem_of_map. by apply step_key_chars, (wo_keys _ Hok). }
  assert (Hgen : ∀ l, l ⊆ steps → NoDup (wave_keys l) →
    NoDup (List.map (λ e, dedupe_key (ge_from e) (ge_to e) (ge_kind e))
      (List.flat_map (λ s, List.map (λ d, plain_edge d (ws_step_key s)) (live_deps steps s)) l)));
    [|apply Hgen; [done|apply Hok]].
  induction l as [|s l IH]; intros Hl Hnd; [constructor|].
  cbn [List.flat_map]. rewrite List.map_app, List.map_map. cbn [plain_edge ge_from ge_to ge_kind].
  assert (Hs : s ∈ steps) by apply Hl, list_elem_of_here.
  assert (Hsk : ws_step_key s ∈ wave_keys steps) by (apply elem_of_map; eauto).
  inversion Hnd as [|? ? Hfresh Hnd']; subst.
  apply NoDup_app. split_and!.
  - apply NoDup_fmap_2_strong.
    + intros d d' Hd Hd' Heq. apply elem_of_live_deps in Hd as (_ & _ & _ & Hd).
      apply elem_of_live_deps in Hd' as (_ & _ & _ & Hd').
      apply dedupe_key_inj in Heq as (? & _); auto.
    + apply NoDup_lfilter, (wo_deps _ Hok), Hs.
  - intros x (d & -> & Hd)%elem_of_map Hin.
    apply elem_of_map in Hin as (e & Heq & He). apply elem_of_flat_map in He as (s' & Hs' & He).
    apply elem_of_map in He as (d' & -> & Hd'). simpl in Heq.
    apply elem_of_live_deps in Hd as (_ & _ & _ & Hd).
    apply elem_of_live_deps in Hd' as (_ & _ & _ & Hd').
    assert (Hs'k : ws_step_key s' ∈ wave_keys steps).
    { apply elem_of_map. exists s'. split; [done|]. apply Hl. by apply list_elem_of_further. }
    apply dedupe_key_inj in Heq as (_ & Hk & _); auto.
    apply Hfresh. rewrite Hk. apply elem_of_map. eauto.
  - apply IH; [|done]. intros x Hx. apply Hl. by apply list_elem_of_further.
Qed.

Lemma wave_edges_endpoints e :
  e ∈ wave_edges steps →
  ge_from e ∈ wave_keys steps ∧ ge_to e ∈ wave_keys steps ∧ ge_from e ≠ ge_to e.
Proof using.
  intros (s & d & Hs & Hd & ->)%elem_of_wave_edges.
  apply elem_of_live_deps in Hd as (_ & _ & Hne & Hk). simpl. split_and!; auto.
  apply elem_of_map. eauto.
Qed.

Lemma wave_graph_acyclic : graph_acyclic (wave_edges steps).
Proof using Hok.
  destruct (wo_acyclic _ Hok) as [rank Hr]. exists rank.
  intros a b (e & He & <- & <- & _). apply elem_of_wave_edges in He as (s & d & Hs & Hd & ->).
  apply elem_of_live_deps in Hd as (Hd & _ & _ & Hk). by apply Hr.
Qed.

Definition wave_map : nodes_map :=
  List.map (λ n, (gn_key n, n)) (List.map default_node (wave_keys steps)).

Lemma wave_map_keys : JMap.keys wave_map = wave_keys steps.
Proof using. unfold wave_map, JMap.keys. rewrite !List.map_map. simpl. apply List.map_id. Qed.

Lemma wave_node_inv : node_inv (wave_keys steps) wave_map.
Proof using Hok.
  split; [rewrite wave_map_keys; apply Hok|]. intros k n Hin. unfold wave_map in Hin.
  rewrite List.map_map in Hin. apply elem_of_map in Hin as (k' & [= -> ->] & Hk). simpl.
  split_and!; auto; unfold MAX_NODE_VISITS_CEILING; lia.
Qed.

Lemma wave_edge_inv seen :
  (∀ e, e ∈ wave_edges steps → dedupe_key (ge_from e) (ge_to e) (ge_kind e) ∈ seen) →
  edge_inv (JMap.keys wave_map) (wave_edges steps) seen.
Proof using Hok.
  intros Hseen. rewrite wave_map_keys. split; [| |done].
  - intros e He. destruct (wave_edges_endpoints e He) as (? & ? & ?). split_and!; auto.
    apply elem_of_wave_edges in He as (s & d & _ & _ & ->). by intros [].
  - pose proof wave_edges_distinct as Hnd.
    apply NoDup_ListNoDup. apply NoDup_ListNoDup in Hnd.
    eapply (NoDup_map_inv (λ id, dedupe_key (fst (fst id)) (snd (fst id)) (snd id))).
    by rewrite List.map_map.
Qed.

Lemma wave_loops_nil : loop_edges (wave_edges steps) = [].
Proof using.
  apply lfilter_nil. intros e (s & d & _ & _ & ->)%elem_of_wave_edges. done.
Qed.

(** Promotion succeeds and produces the transposed dependencies. *)
Lemma graphFromWavePlan_Ok : ∃ spec,
  graphFromWavePlan steps = Ok spec ∧ gs_edges spec = wave_edges steps ∧
  node_keys spec ≡ₚ wave_keys steps ∧ (∀ n, n ∈ gs_nodes spec → n = default_node (gn_key n)).
Proof using Hok.
  set (seen := List.map (λ e, dedupe_key (ge_from e) (ge_to e) (ge_kind e)) (wave_edges steps)).
  assert (Hei : edge_inv (JMap.keys wave_map) (wave_edges steps) seen).
  { apply wave_edge_inv. intros e He. apply elem_of_map. eauto. }
  assert (Hne : wave_keys steps ≠ []).
  { intros Hn. apply (wo_nonempty _ Hok). by destruct steps. }
  assert (Hlen : Z.of_nat (length (wave_keys steps)) <= MAX_TOTAL_VISITS_CEILING).
  { unfold wave_keys. rewrite List.length_map. apply Hok. }
  assert (Hstr := validate_structure_complete (normalizeConfirmPolicy JUndef)
    (Some (JInt (Z.of_nat (length (wave_keys steps))))) (wave_keys steps) wave_map
    (wave_edges steps) seen (Z.of_nat (length (wave_keys steps))) wave_node_inv).
  rewrite wave_loops_nil, wave_map_keys in Hstr. cbn [foldl] in Hstr.
  assert (Hdk : List.map gn_key (List.map default_node (wave_keys steps)) = wave_keys steps).
  { rewrite List.map_map. apply List.map_id. }
  assert (Hdn : ∀ n, n ∈ List.map default_node (wave_keys steps) →
    STEP_KEY_PATTERN (gn_key n) = true ∧ gn_key n ∈ wave_keys steps).
  { intros n (k & -> & Hk)%elem_of_map. split; [|done].
    apply elem_of_map in Hk as (s & -> & Hs). by apply (wo_keys _ Hok). }
  assert (Hrun := validateGraphSpec_run
    (List.map plain_node (wave_keys steps))
    (List.flat_map (wave_edges_of (new_Set (wave_keys steps))) steps)
    (Some (JInt (Z.of_nat (length (wave_keys steps))))) (wave_keys steps) JUndef
    (List.map default_node (wave_keys steps)) (wave_edges steps) (wo_nodup _ Hok) Hne).
  cbv zeta in Hrun. fold wave_map in Hrun. rewrite fill_nodes_noop in Hrun by (by rewrite wave_map_keys).
  rewrite wave_map_keys in Hrun.
  eexists. split; [|cbn [gs_edges gs_nodes]].
  - unfold graphFromWavePlan. rewrite wave_keys_computed, Hrun; clear Hrun; auto.
    + apply Hstr; auto.
      * by rewrite <- wave_map_keys.
      * apply wave_graph_acyclic.
      * intros l Hl; inversion Hl.
      * unfold check_budget, isPositiveInt. simpl.
        assert (0 < Z.of_nat (length (wave_keys steps)))
          by (destruct (wave_keys steps); [done|simpl; lia]).
        rewrite (proj2 (Z.ltb_lt _ _)) by done.
        rewrite (proj2 (Z.ltb_ge MAX_TOTAL_VISITS_CEILING _)) by done. simpl.
        by rewrite Z.ltb_irrefl.
      * intros n Hn. unfold JMap.values, wave_map in Hn. rewrite !List.map_map in Hn.
        apply elem_of_map in Hn as (k & -> & _). reflexivity.
    + assert (Hk : ∀ k, k ∈ wave_keys steps → trim k = k).
      { intros k (s & -> & Hs)%elem_of_map. by apply wave_trim. }
      clear - Hk. induction (wave_keys steps) as [|k ks IH]; simpl; constructor.
      * unfold node_of_input. simpl. by rewrite (Hk k (list_elem_of_here _ _)).
      * apply IH. intros x Hx. apply Hk. by apply list_elem_of_further.
    + rewrite Hdk. apply Hok.
    + apply wave_edges_computed.
    + apply wave_edges_endpoints.
    + apply wave_edges_distinct.
  - destruct (forward_order_spec _ _ _ (nv_nodup _ _ wave_node_inv) Hei) as (Hac & Hperm & _).
    simpl in Hac, Hperm. rewrite wave_map_keys in Hac, Hperm.
    specialize (Hperm (proj2 Hac wave_graph_acyclic)).
    destruct (omap_get wave_map (forward_order (wave_keys steps) (wave_edges steps)))
      as [Hk Hin].
    { apply wave_node_inv. } { intros k n Hn. by apply wave_node_inv in Hn as (? & _). }
    { by rewrite wave_map_keys, Hperm. }
    split_and!; [done|unfold node_keys; cbn [gs_nodes]; by rewrite Hk|].
    intros n Hn. apply Hin in Hn. unfold wave_map in Hn. rewrite List.map_map in Hn.
    by apply elem_of_map in Hn as (k & [= -> ->] & _).
Qed.
End wave.

(** ** The promoted graph classifies every step as the plan does *)

Definition wave_input (v : MissionStepStateView) : WaveStepInput :=
  {| ws_step_key := mv_step_key v; ws_depends_on := mv_depends_on v |}.

Lemma get_index_by_fmap {A B} (key : B → string) (f : A → B) (l : list A) k :
  NoDup (List.map (λ x, key (f x)) l) →
  JMap.get (JMap.index_by key (List.map f l)) k
  = f <$> List.find (λ x, String.eqb (key (f x)) k) l.
Proof.
  intros Hnd. rewrite JMap.index_by_map by (by rewrite List.map_map).
  rewrite JMap.get_map_pairs. clear Hnd. induction l as [|x l IH]; simpl; [done|].
  by destruct (String.eqb (key (f x)) k).
Qed.

(** A dependency seen as an unconditional edge. *)
Definition dep_state (status : option string) : EdgeState :=
  match status with
  | None => es_satisfied
  | Some s =>
      if includes DEPENDENCY_POISONING_STATUSES s then es_dead
      else if includes DEPENDENCY_SATISFYING_STATUSES s then es_satisfied else es_pending
  end.

Lemma evaluate_plain_edge a b source :
  ee_state (evaluateEdge (plain_edge a b) source) = dep_state (ns_status <$> source).
Proof.
  destruct source as [s|]; [|done]. unfold evaluateEdge, dep_state. cbn [ee_state fmap option_fmap option_map].
  simpl. rewrite status_terminal_split. unfold satisfies.
  destruct (includes DEPENDENCY_SATISFYING_STATUSES (ns_status s)) eqn:E.
  - by rewrite (satisfying_not_poisoning _ E).
  - by destruct (includes DEPENDENCY_POISONING_STATUSES (ns_status s)).
Qed.

(** Both scans: blocked if one is dead, else waiting if one is pending. *)
Definition summary (dead pending : bool) : step_class :=
  if dead then cls_newlyBlocked else if pending then cls_waiting else cls_dispatchable.

Lemma scan_deps_summary byKey deps : ∀ w,
  scan_deps byKey deps w
  = summary (lsome (λ d, bool_decide (dep_state (sv_status <$> JMap.get byKey d) = es_dead)) deps)
      (w || lsome (λ d, bool_decide (dep_state (sv_status <$> JMap.get byKey d) = es_pending)) deps).
Proof.
  induction deps as [|d deps IH]; intros w; simpl; [by rewrite orb_false_r|].
  destruct (JMap.get byKey d) as [dep|]; simpl; [|by rewrite IH].
  destruct (includes DEPENDENCY_POISONING_STATUSES _); simpl; [done|]. rewrite IH.
  destruct (includes DEPENDENCY_SATISFYING_STATUSES _); simpl; [by rewrite orb_false_r|].
  by rewrite orb_true_r.
Qed.

Lemma join_all_summary evs :
  join_class join_all evs
  = summary (lsome (state_is es_dead) evs) (lsome (state_is es_pending) evs).
Proof.
  destruct (join_class join_all evs) eqn:E; unfold summary.
  - apply join_class_ready in E. simpl in E.
    rewrite (proj2 (lsome_false _ _)), (proj2 (lsome_false _ _)); [done| |];
      intros e He; unfold state_is; by rewrite (E e He).
  - unfold join_class in E. destruct evs as [|e0 evs0] eqn:Ev; [discriminate|]. rewrite <- Ev in *.
    split_match_in E; [discriminate|]. split_match_in E; [discriminate|]. breflect.
    assert (Hd : lsome (state_is es_dead) evs = false).
    { apply lsome_false. intros e He. destruct (state_is es_dead e) eqn:Es; [|done]. exfalso.
      assert (0 < Z.of_nat (length (lfilter (state_is es_dead) evs))); [|lia].
      apply lfilter_pos. eauto. }
    rewrite Hd. assert (lsome (state_is es_pending) evs = true) as ->; [|done].
    apply not_false_iff_true. intros Hp. apply E1. f_equal. apply lfilter_full. intros e He.
    rewrite lsome_false in Hd, Hp. specialize (Hd e He). specialize (Hp e He).
    unfold state_is in *. breflect. apply bool_decide_true_iff. by destruct (ee_state e).
  - unfold join_class in E. destruct evs as [|e0 evs0] eqn:Ev; [discriminate|]. rewrite <- Ev in *.
    destruct (0 <? _) eqn:Ed in E; [|split_match_in E; discriminate]. breflect.
    apply lfilter_pos in Ed as (e & He & Hs).
    rewrite (proj2 (lsome_true _ _)) by eauto. done.
  - exfalso. pose proof (join_class_open join_all evs) as Ho.
    unfold join_class in E. repeat (split_match_in E; try discriminate).
  - exfalso. unfold join_class in E. repeat (split_match_in E; try discriminate).
  - exfalso. unfold join_class in E. repeat (split_match_in E; try discriminate).
  - exfalso. unfold join_class in E. repeat (split_match_in E; try discriminate).
Qed.

Section equivalence.
Context (views : list MissionStepStateView) (spec : GraphSpec).
Context (Hok : wave_ok (List.map wave_input views)).
Context (Htrim : ∀ v d, v ∈ views → d ∈ default [] (mv_depends_on v) → trim d = d).
Context (Hedges : gs_edges spec = wave_edges (List.map wave_input views)).

Let keys : list string := List.map mv_step_key views.
Let graph_states := states_by_key (List.map view_state views).
Let plan_states := views_by_key (List.map view_plan views).

Lemma view_keys : wave_keys (List.map wave_input views) = keys.
Proof using. unfold wave_keys. by rewrite List.map_map. Qed.

Lemma view_nodup : NoDup keys.
Proof using Hok. rewrite <- view_keys. apply Hok. Qed.

Definition view_of (k : string) : option MissionStepStateView :=
  List.find (λ v, String.eqb (mv_step_key v) k) views.

Lemma graph_states_get k : JMap.get graph_states k = view_state <$> view_of k.
Proof using Hok. unfold graph_states. apply (get_index_by_fmap ns_key view_state). apply view_nodup. Qed.
Lemma plan_states_get k : JMap.get plan_states k = view_plan <$> view_of k.
Proof using Hok. unfold plan_states. apply (get_index_by_fmap sv_step_key view_plan). apply view_nodup. Qed.

Lemma view_of_Some v : v ∈ views → view_of (mv_step_key v) = Some v.
Proof using Hok.
  intros Hv. unfold view_of. destruct (List.find _ views) as [w|] eqn:E.
  - apply find_Some_elem in E as [Hw He]. apply String.eqb_eq in He. f_equal.
    eapply (NoDup_fmap_inj_on mv_step_key); eauto. apply view_nodup.
  - apply find_None_elem with (x := v) in E; [|done]. simpl in E.
    by rewrite String.eqb_refl in E.
Qed.

Lemma view_of_None k : k ∉ keys → view_of k = None.
Proof using.
  intros Hk. unfold view_of. destruct (List.find _ views) as [w|] eqn:E; [|done].
  apply find_Some_elem in E as [Hw He]. apply String.eqb_eq in He as <-.
  exfalso. apply Hk, elem_of_map. eauto.
Qed.

Lemma view_deps v : v ∈ views → wave_deps (wave_input v) = default [] (mv_depends_on v).
Proof using Htrim.
  intros Hv. unfold wave_deps. simpl. pose proof (λ d, Htrim v d Hv) as Ht. clear Htrim.
  induction (default [] (mv_depends_on v)) as [|d ds IH]; simpl; [done|].
  rewrite (Ht d (list_elem_of_here _ _)). f_equal. apply IH.
  intros x Hx. apply Ht. by apply list_elem_of_further.
Qed.

Lemma incoming_wave v e : v ∈ views →
  e ∈ incoming_edges spec (mv_step_key v) ↔
  ∃ d, d ∈ live_deps (List.map wave_input views) (wave_input v) ∧
       e = plain_edge d (mv_step_key v).
Proof using Hok Hedges.
  intros Hv. unfold incoming_edges. rewrite Hedges, elem_of_lfilter, elem_of_wave_edges. split.
  - intros [(s & d & Hs & Hd & ->) He]. breflect. simpl in *.
    apply elem_of_map in Hs as (w & -> & Hw). simpl in *.
    assert (w = v) as -> by (eapply (NoDup_fmap_inj_on mv_step_key); eauto; apply view_nodup).
    eauto.
  - intros (d & Hd & ->). split; [|simpl; by rewrite String.eqb_refl].
    exists (wave_input v), d. split_and!; auto. apply elem_of_map. eauto.
Qed.

(** Skipped dependencies are the ones the plan treats as satisfied. *)
Lemma dead_dep v d : v ∈ views → d ∈ default [] (mv_depends_on v) →
  dep_state (mv_status <$> view_of d) ≠ es_satisfied →
  d ∈ live_deps (List.map wave_input views) (wave_input v).
Proof using Hok Htrim.
  intros Hv Hd Hs.
  assert (Hk : d ∈ keys).
  { destruct (decide (d ∈ keys)) as [|Hn]; [done|]. by rewrite (view_of_None d Hn) in Hs. }
  apply elem_of_live_deps. rewrite view_keys, (view_deps v Hv). split_and!; auto.
  - intros ->. apply elem_of_map in Hk as (w & Hw & Hin).
    assert (Hp : STEP_KEY_PATTERN (ws_step_key (wave_input w)) = true).
    { apply (wo_keys _ Hok). apply elem_of_map. eauto. }
    simpl in Hp. by rewrite <- Hw in Hp.
  - intros ->. simpl in *. destruct (wo_acyclic _ Hok) as [rank Hr].
    specialize (Hr (wave_input v) (mv_step_key v)). simpl in Hr.
    rewrite view_keys, (view_deps v Hv) in Hr.
    assert (rank (mv_step_key v) < rank (mv_step_key v))%nat; [|lia].
    apply Hr; auto. apply elem_of_map. eauto.
Qed.

Lemma lsome_states v st : v ∈ views → st ≠ es_satisfied →
  lsome (state_is st) (node_evaluations spec graph_states (mv_step_key v))
  = lsome (λ d, bool_decide (dep_state (sv_status <$> JMap.get plan_states d) = st))
      (default [] (mv_depends_on v)).
Proof using Hok Htrim Hedges.
  intros Hv Hst. apply eq_true_iff_eq. rewrite !lsome_true. split.
  - intros (ev & Hev & Hs). apply state_is_true in Hs.
    unfold node_evaluations in Hev. apply elem_of_map in Hev as (e & -> & He).
    apply (incoming_wave v e Hv) in He as (d & Hd & ->).
    rewrite evaluate_plain_edge in Hs. simpl in Hs. rewrite graph_states_get in Hs.
    exists d. apply elem_of_live_deps in Hd as (Hd & _). rewrite (view_deps v Hv) in Hd.
    split; [done|]. apply bool_decide_true_iff. rewrite plan_states_get, <- Hs.
    by destruct (view_of d).
  - intros (d & Hd & Hs). apply bool_decide_true_iff in Hs. rewrite plan_states_get in Hs.
    exists (evaluateEdge (plain_edge d (mv_step_key v)) (JMap.get graph_states d)). split.
    + unfold node_evaluations. apply elem_of_map. exists (plain_edge d (mv_step_key v)).
      split; [done|]. apply incoming_wave; [done|]. exists d. split; [|done].
      apply dead_dep; auto. rewrite <- Hs in Hst. by destruct (view_of d).
    + apply state_is_true. rewrite evaluate_plain_edge, graph_states_get, <- Hs.
      by destruct (view_of d).
Qed.

Lemma class_agree v : v ∈ views →
  graph_class spec graph_states (default_node (mv_step_key v))
  = plan_class plan_states (view_plan v).
Proof using Hok Htrim Hedges.
  intros Hv. unfold graph_class, plan_class, node_status. simpl.
  rewrite graph_states_get, (view_of_Some v Hv). simpl.
  destruct (isInFlight (mv_status v)); [done|]. destruct (isAwaitingUser (mv_status v)); [done|].
  destruct (String.eqb (mv_status v) "done") eqn:E1; [done|].
  destruct (String.eqb (mv_status v) "skipped") eqn:E2; [done|]. simpl.
  assert (Hf : isTerminalStepStatus (mv_status v) && true && true
               = String.eqb (mv_status v) "failed" || String.eqb (mv_status v) "blocked"
                 || String.eqb (mv_status v) "cancelled"
                 || String.eqb (mv_status v) "needs_recovery").
  { rewrite !andb_true_r. apply eq_true_iff_eq. unfold isTerminalStepStatus, TERMINAL_STEP_STATUSES.
    breflect. rewrite includes_true, !elem_of_cons, elem_of_nil, !orb_true_iff, !String.eqb_eq.
    tauto. }
  rewrite Hf. destruct (_ || _); [done|].
  rewrite join_all_summary, scan_deps_summary, !lsome_states by done. done.
Qed.
End equivalence.

(** A plan step as the runner hands it to the promotion. *)
Definition plan_wave_input (s : PlanStepInput) : WaveStepInput :=
  {| ws_step_key := plan_key s; ws_depends_on := Some (default [] (pi_depends_on s)) |}.

Lemma well_formed_plan_wave_ok steps maxSteps out :
  well_formed_plan steps maxSteps → maxSteps <= MAX_TOTAL_VISITS_CEILING → out ≡ₚ steps →
  (∀ s, s ∈ steps → NoDup (List.map trim (default [] (pi_depends_on s)))) →
  wave_ok (List.map plan_wave_input out).
Proof.
  intros (Hne & Hmax & Hok & Hnd & Hdeps & rank & Hr) Hceil Hperm Hdd.
  assert (Hkeys : wave_keys (List.map plan_wave_input out) = List.map plan_key out).
  { unfold wave_keys. by rewrite List.map_map. }
  assert (Hin : ∀ s, s ∈ out ↔ s ∈ steps) by (intros s; by rewrite Hperm).
  split.
  - intros Hn. apply map_eq_nil in Hn. subst. by apply Permutation_nil_l in Hperm.
  - rewrite List.length_map, Hperm. lia.
  - intros w (s & -> & Hs)%elem_of_map. apply Hin, Hok in Hs as (? & _). done.
  - rewrite Hkeys. by rewrite Hperm.
  - intros w (s & -> & Hs)%elem_of_map. apply Hdd, Hin, Hs.
  - exists rank. intros w d (s & -> & Hs)%elem_of_map Hd Hk. simpl. apply Hr; [by apply Hin|].
    unfold wave_deps in Hd. simpl in Hd. unfold plan_deps.
    destruct (pi_depends_on s) as [l|]; [|inversion Hd]. simpl in Hd.
    apply elem_of_new_Set, elem_of_lfilter. split; [done|]. apply truthy_true.
    rewrite Hkeys in Hk. apply elem_of_map in Hk as (s' & -> & Hs').
    apply Hin, Hok in Hs' as (Hp & _). by apply step_key_not_empty.
Qed.

(** ** Properties of promotion *)

(** C31: the graph made from a wave plan is lossless: whatever the steps'
    statuses, the graph engine and the plan engine put the same steps on every
    list. *)
Theorem wave_promotion_lossless (views : list MissionStepStateView) :
  wave_ok (List.map wave_input views) →
  (∀ v d, v ∈ views → d ∈ default [] (mv_depends_on v) → trim d = d) →
  ∃ spec, graphFromWavePlan (List.map wave_input views) = Ok spec ∧
    let g := computeMissionProgress (Some spec) views in
    let p := computeMissionProgress None views in
    (∀ c, class_list c g ≡ₚ class_list c p) ∧ pr_allTerminal g = pr_allTerminal p.
Proof.
  intros Hok Htrim. destruct (graphFromWavePlan_Ok _ Hok) as (spec & Hrun & Hedges & Hkeys & Hnodes).
  exists spec. split; [done|]. cbv zeta. simpl.
  rewrite gp_progress_classify, computePlanProgress_classify.
  rewrite (view_keys views) in Hkeys.
  assert (Hin : ∀ n, n ∈ gs_nodes spec ↔ ∃ v, v ∈ views ∧ n = default_node (mv_step_key v)).
  { intros n. split.
    - intros Hn. assert (Hk : gn_key n ∈ List.map mv_step_key views).
      { rewrite <- Hkeys. apply elem_of_map. eauto. }
      apply elem_of_map in Hk as (v & Hv & ?). exists v. split; [done|].
      rewrite (Hnodes n Hn) at 1. by rewrite Hv.
    - intros (v & Hv & ->). assert (Hk : mv_step_key v ∈ node_keys spec).
      { rewrite Hkeys. apply elem_of_map. eauto. }
      apply elem_of_map in Hk as (n & -> & Hn). by rewrite <- (Hnodes n Hn). }
  split.
  - intros c. apply NoDup_Permutation.
    + rewrite class_list_fold. destruct c; simpl; apply NoDup_map_lfilter;
        fold (node_keys spec); rewrite Hkeys; by apply view_nodup.
    + rewrite class_list_fold.
      destruct c; simpl; apply NoDup_map_lfilter; rewrite List.map_map; by apply view_nodup.
    + intros k. rewrite !class_list_elem. setoid_rewrite Hin. split.
      * intros (n & (v & Hv & ->) & <- & Hc). exists (view_plan v).
        split_and!; [apply elem_of_map; eauto|done|]. by rewrite <- class_agree with (spec := spec).
      * intros (x & Hx & <- & Hc). apply elem_of_map in Hx as (v & -> & Hv).
        exists (default_node (mv_step_key v)). split_and!; eauto. by rewrite class_agree.
  - rewrite !allTerminal_fold. simpl. apply eq_true_iff_eq. rewrite !levery_true.
    setoid_rewrite Hin. split.
    + intros H x (v & -> & Hv)%elem_of_map. rewrite <- class_agree with (spec := spec); eauto.
    + intros H n (v & Hv & ->). rewrite class_agree by done. apply H, elem_of_map. eauto.
Qed.

Definition sample_view (key status : string) (deps : list string) : MissionStepStateView :=
  {| mv_step_key := key; mv_status := status; mv_depends_on := Some deps; mv_visit := None;
     mv_verdict := None |}.

Lemma wave_promotion_lossless_witness :
  let views := [sample_view "c" "pending" ["a"; "b"; "gone"]; sample_view "a" "done" [];
                sample_view "b" "failed" ["a"]] in
  ∃ spec, graphFromWavePlan (List.map wave_input views) = Ok spec ∧
    let g := computeMissionProgress (Some spec) views in
    let p := computeMissionProgress None views in
    (∀ c, class_list c g ≡ₚ class_list c p) ∧ pr_allTerminal g = pr_allTerminal p.
Proof.
  intros views. apply (wave_promotion_lossless views).
  - split.
    + discriminate.
    + vm_compute. discriminate.
    + intros s Hs. repeat (apply elem_of_cons in Hs as [->|Hs]; [reflexivity|]). inversion Hs.
    + apply (bool_decide_unpack _). vm_compute. exact I.
    + intros s Hs. repeat (apply elem_of_cons in Hs as [->|Hs];
        [apply (bool_decide_unpack _); vm_compute; exact I|]). inversion Hs.
    + exists (λ k, if String.eqb k "a" then 0 else if String.eqb k "b" then 1 else 2)%nat.
      intros s d Hs Hd Hk. vm_compute in Hk.
      repeat (apply elem_of_cons in Hs as [->|Hs]; [vm_compute in Hd;
        repeat (apply elem_of_cons in Hd as [->|Hd]; [first [vm_compute; lia
          | exfalso; repeat (apply elem_of_cons in Hk as [Hk|Hk]; [discriminate|]); inversion Hk]|]);
        inversion Hd|]). inversion Hs.
  - intros v d Hv Hd.
    repeat (apply elem_of_cons in Hv as [->|Hv]; [vm_compute in Hd;
      repeat (apply elem_of_cons in Hd as [->|Hd]; [reflexivity|]); inversion Hd|]). inversion Hv.
Defined.

(** Promotion succeeds for every validated plan whose dependency lists name
    each dependency once. *)
Theorem validated_plan_promotes steps maxSteps out :
  validatePlan steps maxSteps = Ok out → maxSteps <= MAX_TOTAL_VISITS_CEILING →
  (∀ s, s ∈ steps → NoDup (List.map trim (default [] (pi_depends_on s)))) →
  ∃ spec, graphFromWavePlan (List.map plan_wave_input out) = Ok spec ∧
          node_keys spec ≡ₚ List.map plan_key steps.
Proof.
  intros H Hmax Hdd. apply validatePlan_iff in H as (Hwf & ->).
  pose proof Hwf as (_ & _ & _ & Hnd & Hd & Hac).
  destruct (plan_order_correct steps Hnd Hd) as [Hiff Hout].
  destruct (Hout (proj2 Hiff Hac)) as [Hperm _].
  destruct (graphFromWavePlan_Ok _ (well_formed_plan_wave_ok _ _ _ Hwf Hmax Hperm Hdd))
    as (spec & Hrun & _ & Hkeys & _).
  exists spec. split; [done|]. rewrite Hkeys. unfold wave_keys. rewrite List.map_map. simpl.
  by rewrite Hperm.
Qed.

Lemma validated_plan_promotes_witness :
  let out := [sample_step "a" []; sample_step "b" ["a"]; sample_step "c" ["a"; " b"]] in
  ∃ spec, graphFromWavePlan (List.map plan_wave_input out) = Ok spec ∧
          node_keys spec ≡ₚ ["c"; "b"; "a"].
Proof.
  intros out.
  apply (validated_plan_promotes
    [sample_step "c" ["a"; " b"]; sample_step "b" ["a"]; sample_step "a" []] 200 out).
  - vm_compute. reflexivity.
  - vm_compute. discriminate.
  - intros s Hs. repeat (apply elem_of_cons in Hs as [->|Hs];
      [apply (bool_decide_unpack _); vm_compute; exact I|]). inversion Hs.
Defined.

(** The condition of [validated_plan_promotes] is needed: a plan that names a dependency twice is
    accepted by [validatePlan], which deduplicates, while the promotion of the
    same steps, which does not, throws. *)
Theorem duplicate_dependency_throws :
  let steps := [sample_step "a" []; sample_step "b" ["a"; "a"]] in
  validatePlan steps 200 = Ok steps ∧
  graphFromWavePlan (List.map plan_wave_input steps) = Err (g_duplicate_edge "a" "b" ek_sequence).
Proof. split; vm_compute; reflexivity. Qed.
