(* ===== verification/Patch.v ===== *)
(** * Runtime graph patches

    Models [applyGraphPatch]: a partial edit of a running mission's graph, which
    is re-validated as a whole and then compared with the execution history. *)

From S2P Require Import Prelude JsStd Worklist Vocabulary Plan Graph GraphFacts GraphRun Wave.
#[local] Open Scope Z_scope.

Definition MAX_GRAPH_PATCHES : Z := 50.

Record GraphNodePatch := {
  np_key : string;
  np_kind : option string;
  np_join : option string;
  np_max_visits : option number
}.

Record GraphEdgeRemoval := {
  er_from : string;
  er_to : string;
  er_kind : option string
}.

Record GraphPatchInput := {
  gp_set_nodes : option (list GraphNodePatch);
  gp_add_edges : option (list GraphEdgeInput);
  gp_remove_edges : option (list GraphEdgeRemoval);
  gp_max_total_visits : option number
}.

Record GraphRuntimeState := {
  rt_nodes : list GraphNodeState;
  rt_total_visits : Z
}.

Inductive inert_cause : Type :=
  | already_finished (to status : string)
  | already_running (to status : string).

Inductive change_detail : Type :=
  | edge_removed (from to : string) (kind : option string)
  | edge_added (from to kind : string)
  | node_updated (key before after : string)
  | budget_updated (before : Z) (after : number).

Record GraphPatchChange := {
  gc_detail : change_detail;
  gc_inert_reason : option inert_cause
}.

Inductive patch_error : Type :=
  | pe_not_object
  | pe_empty
  | pe_no_such_edge (from to : string) (kind : option string)
  | pe_unknown_node (raw : string)
  | pe_no_change
  | pe_rejected (e : graph_error)
  | pe_visits_below (key : string) (used max_visits : Z)
  | pe_budget_below (used budget : Z).

(** [raw?.kind ? String(raw.kind).trim() : d] *)
Definition truthy_or (v : option string) (d : option string) : option string :=
  match v with Some s => if truthy s then Some (trim s) else d | None => d end.

(** One removal: at least one edge must match. *)
Definition removal_matches (from to : string) (kind : option string) (e : GraphEdgeInput) : bool :=
  String.eqb (ei_from e) from && String.eqb (ei_to e) to &&
  match kind with
  | Some k => if truthy k then bool_decide (ei_kind e = Some k) else true
  | None => true
  end.

Definition remove_edge (st : list GraphEdgeInput * list GraphPatchChange) (removal : GraphEdgeRemoval)
    : res patch_error (list GraphEdgeInput * list GraphPatchChange) :=
  let '(edgeInputs, changes) := st in
  let from := trim (er_from removal) in
  let to := trim (er_to removal) in
  let kind := truthy_or (er_kind removal) None in
  let matches := lfilter (removal_matches from to kind) edgeInputs in
  _ ← fail_if (bool_decide (length matches = 0%nat)) (pe_no_such_edge from to kind);
  Ok (lfilter (λ e, negb (removal_matches from to kind e)) edgeInputs,
      changes ++ List.map (λ m, {| gc_detail := edge_removed (ei_from m) (ei_to m) (ei_kind m);
                                   gc_inert_reason := None |}) matches).

(** One addition, with the warning of rule 4. *)
Definition inert_reason_of (stateByKey : list (string * GraphNodeState)) (to kind : string)
    : option inert_cause :=
  match JMap.get stateByKey to with
  | Some target =>
      if String.eqb kind "loop_back" then None
      else if isTerminalStepStatus (ns_status target) then Some (already_finished to (ns_status target))
      else if isInFlight (ns_status target) then Some (already_running to (ns_status target))
      else None
  | None => None
  end.

Definition add_edge (stateByKey : list (string * GraphNodeState))
    (st : list GraphEdgeInput * list GraphPatchChange) (raw : GraphEdgeInput)
    : list GraphEdgeInput * list GraphPatchChange :=
  let '(edgeInputs, changes) := st in
  let from := trim (ei_from raw) in
  let to := trim (ei_to raw) in
  let kind := default "sequence" (truthy_or (ei_kind raw) (Some "sequence")) in
  (edgeInputs ++ [{| ei_from := from; ei_to := to; ei_kind := Some kind; ei_when := ei_when raw;
                     ei_label := match ei_label raw with
                                 | Some l => if truthy l then Some l else None
                                 | None => None end |}],
   changes ++ [{| gc_detail := edge_added from to kind;
                  gc_inert_reason := inert_reason_of stateByKey to kind |}]).

Definition describe_node (n : GraphNodeInput) : string :=
  ("kind=" ++ default "undefined" (ni_kind n) ++ ", join=" ++ default "undefined" (ni_join n)
   ++ ", max_visits=" ++ match ni_max_visits n with Some v => number_String v | None => "undefined" end)%string.

(** One node update, in place on the input object. *)
Definition patch_node (raw : GraphNodePatch) (n : GraphNodeInput) : GraphNodeInput :=
  {| ni_key := ni_key n;
     ni_kind := match np_kind raw with Some k => Some (trim k) | None => ni_kind n end;
     ni_join := match np_join raw with Some j => Some (trim j) | None => ni_join n end;
     ni_max_visits := match np_max_visits raw with Some v => Some v | None => ni_max_visits n end |}.

Definition set_node (st : list (string * GraphNodeInput) * list GraphPatchChange)
    (raw : GraphNodePatch) : res patch_error (list (string * GraphNodeInput) * list GraphPatchChange) :=
  let '(nodeInputs, changes) := st in
  let key := trim (np_key raw) in
  match JMap.get nodeInputs key with
  | None => Err (pe_unknown_node (np_key raw))
  | Some current =>
      let before := describe_node current in
      let after := describe_node (patch_node raw current) in
      Ok (JMap.update nodeInputs key (patch_node raw),
          if String.eqb before after then changes
          else changes ++ [{| gc_detail := node_updated key before after; gc_inert_reason := None |}])
  end.

(** Rule 1, on the re-validated caps. *)
Definition check_visits (stateByKey : list (string * GraphNodeState)) (n : GraphNode)
    : res patch_error unit :=
  let used := match JMap.get stateByKey (gn_key n) with Some s => ns_visit s | None => 0 end in
  fail_if (gn_max_visits n <? used) (pe_visits_below (gn_key n) used (gn_max_visits n)).

Definition applyGraphPatch (spec : GraphSpec) (patch : option GraphPatchInput)
    (nodeKeys : list string) (runtime : GraphRuntimeState) (confirmPolicy : jsval)
    : res patch_error (GraphSpec * list GraphPatchChange) :=
  match patch with
  | None => Err pe_not_object
  | Some patch =>
      let setNodes := default [] (gp_set_nodes patch) in
      let addEdges := default [] (gp_add_edges patch) in
      let removeEdges := default [] (gp_remove_edges patch) in
      let budgetGiven := bool_decide (gp_max_total_visits patch ≠ None) in
      _ ← fail_if (bool_decide (length setNodes = 0%nat) && bool_decide (length addEdges = 0%nat)
                   && bool_decide (length removeEdges = 0%nat) && negb budgetGiven) pe_empty;
      let stateByKey := states_by_key (rt_nodes runtime) in
      let nodeInputs := foldl (λ m n, JMap.set m (gn_key n) (node_input n)) [] (gs_nodes spec) in
      let edgeInputs := List.map edge_input (gs_edges spec) in
      '(edgeInputs, changes) ← foldM remove_edge (edgeInputs, []) removeEdges;
      let '(edgeInputs, changes) := foldl (add_edge stateByKey) (edgeInputs, changes) addEdges in
      '(nodeInputs, changes) ← foldM set_node (nodeInputs, changes) setNodes;
      let nextBudget := default (JInt (gs_max_total_visits spec)) (gp_max_total_visits patch) in
      let changes :=
        if budgetGiven && negb (bool_decide (nextBudget = JInt (gs_max_total_visits spec)))
        then changes ++ [{| gc_detail := budget_updated (gs_max_total_visits spec) nextBudget;
                            gc_inert_reason := None |}]
        else changes in
      _ ← fail_if (bool_decide (length changes = 0%nat)) pe_no_change;
      match validateGraphSpec
              (Some {| si_version := Some (JInt GRAPH_SPEC_VERSION);
                       si_nodes := Some (JMap.values nodeInputs);
                       si_edges := Some edgeInputs;
                       si_max_total_visits := Some nextBudget |}) nodeKeys confirmPolicy with
      | Err e => Err (pe_rejected e)
      | Ok revalidated =>
          _ ← forM_ (check_visits stateByKey) (gs_nodes revalidated);
          _ ← fail_if (gs_max_total_visits revalidated <? rt_total_visits runtime)
                (pe_budget_below (rt_total_visits runtime) (gs_max_total_visits revalidated));
          Ok (revalidated, changes)
      end
  end.

(** ** Facts *)

Lemma applyGraphPatch_inv spec patch nodeKeys runtime cp spec' changes :
  applyGraphPatch spec patch nodeKeys runtime cp = Ok (spec', changes) →
  (∃ input, validateGraphSpec (Some input) nodeKeys cp = Ok spec') ∧
  (∀ n, n ∈ gs_nodes spec' → check_visits (states_by_key (rt_nodes runtime)) n = Ok tt) ∧
  rt_total_visits runtime <= gs_max_total_visits spec' ∧ changes ≠ [].
Proof.
  unfold applyGraphPatch. destruct patch as [patch|]; [|discriminate]. cbv zeta. intros H.
  apply bind_Ok in H as (? & _ & H). apply bind_Ok in H as ([e1 c1] & _ & H).
  destruct (foldl (add_edge _) (e1, c1) _) as [e2 c2].
  apply bind_Ok in H as ([n3 c3] & _ & H). apply bind_Ok in H as (? & Hc & H).
  split_match_in H; [|discriminate].
  apply bind_Ok in H as (? & Hv & H). apply bind_Ok in H as (? & Hb & H).
  injection H as <- <-. apply fail_if_Ok in Hc, Hb. rewrite forM_Ok in Hv. breflect.
  split_and!; eauto. intros Hn. apply Hc. by rewrite Hn.
Qed.

Definition visits_used (runtime : GraphRuntimeState) (key : string) : Z :=
  match JMap.get (states_by_key (rt_nodes runtime)) key with Some s => ns_visit s | None => 0 end.

(** ** What validation makes of its input *)

(** [label.trim().slice(0, 120)], where there is one. *)
Definition clean_label (label : option string) : option string :=
  let label := trim (default "" label) in if truthy label then Some (slice 120 label) else None.

(** An edge that is written as [from], [to], [kind], ... and validated. *)
Record reads_as (from to kind : string) (when : option EdgeCondition) (label : option string) (e : GraphEdge) : Prop := {
  ra_from : ge_from e = trim from;
  ra_to : ge_to e = trim to;
  ra_kind : JMap.get GRAPH_EDGE_KINDS (trim kind) = Some (ge_kind e);
  ra_when : ge_when e = normalizeCondition when;
  ra_label : ge_label e = clean_label label
}.

Definition edge_reads_as (raw : GraphEdgeInput) : GraphEdge → Prop :=
  reads_as (ei_from raw) (ei_to raw) (default "sequence" (ei_kind raw)) (ei_when raw) (ei_label raw).

Lemma check_edges_read m raws : ∀ st st', foldM (check_edge m) st raws = Ok st' →
  ∃ l, fst st' = fst st ++ l ∧ Forall2 edge_reads_as raws l.
Proof.
  induction raws as [|raw raws IH]; intros [es seen] st' H; simpl in H.
  { injection H as <-. exists []. by rewrite app_nil_r. }
  apply bind_Ok in H as ([es1 seen1] & H1 & H). destruct (IH _ _ H) as (l & E & Hl). cbn [fst] in E |- *.
  unfold check_edge in H1. obind H1. split_match_in H1; [|discriminate]. obind H1. injection H1 as <- <-.
  eexists (_ :: l). rewrite E, <- app_assoc. split; [reflexivity|]. constructor; [by split|done].
Qed.

(** A node written with these values: its cap may be raised, by the loops whose body it
    is in. *)
Record node_reads_as (edges : list GraphEdge) (kind join : string) (visits : number) (n : GraphNode) : Prop := {
  nr_kind : JMap.get GRAPH_NODE_KINDS (trim kind) = Some (gn_kind n);
  nr_join : JMap.get JOIN_POLICIES (trim join) = Some (gn_join n);
  nr_visits : ∃ v, visits = JInt v ∧ v <= gn_max_visits n ∧
    ((∀ loop, loop ∈ loop_edges edges → gn_key n ∉ loopBodyNodes edges loop) → gn_max_visits n = v)
}.

Definition input_reads_as edges (raw : GraphNodeInput) (n : GraphNode) : Prop :=
  gn_key n = trim (ni_key raw) ∧
  node_reads_as edges (default "task" (ni_kind raw)) (default "all" (ni_join raw)) (default (JInt 1) (ni_max_visits raw)) n.

(** The node of [byKey] before the caps are raised. *)
Definition made_of (raw : GraphNodeInput) (n : GraphNode) : Prop :=
  gn_key n = trim (ni_key raw) ∧ JMap.get GRAPH_NODE_KINDS (trim (default "task" (ni_kind raw))) = Some (gn_kind n) ∧
  JMap.get JOIN_POLICIES (trim (default "all" (ni_join raw))) = Some (gn_join n) ∧
  default (JInt 1) (ni_max_visits raw) = JInt (gn_max_visits n).

Lemma check_nodes_made planKeys raws : ∀ m m', foldM (check_node planKeys) m raws = Ok m' →
  (∀ k n, (k, n) ∈ m' → (k, n) ∈ m ∨ ∃ raw, raw ∈ raws ∧ made_of raw n ∧ k = gn_key n) ∧
  (∀ k, k ∈ JMap.keys m ∨ k ∈ List.map (λ raw, trim (ni_key raw)) raws → k ∈ JMap.keys m').
Proof.
  induction raws as [|raw raws IH]; intros m m' H; simpl in H.
  { injection H as <-. split; [by left|]. intros k [Hk|Hk%not_elem_of_nil]; done. }
  apply bind_Ok in H as (m1 & H1 & H). destruct (IH _ _ H) as [Hn Hk]. unfold check_node in H1. obind H1.
  do 3 (split_match_in H1; [|discriminate]). obind H1. injection H1 as <-. breflect.
  apply isPositiveInt_Some in E1 as [Ev _]. rewrite JMap.set_absent in * by (by apply JMap_has_None). split.
  - intros k n Hin. destruct (Hn k n Hin) as [[Hm|Hm]%elem_of_app|(r & Hr & Hm)]; [by left| |right; exists r; split; [by apply list_elem_of_further|done]].
    apply list_elem_of_singleton in Hm as [= -> ->]. right. exists raw. split; [apply list_elem_of_here|]. by split.
  - intros k Hin. apply Hk. rewrite JMap_keys_app, elem_of_app. simpl in Hin. rewrite elem_of_cons in Hin.
    destruct Hin as [Hin|[->|Hin]]; [by left; left|left; right; apply list_elem_of_here|by right].
Qed.

Lemma fill_nodes_made ks : ∀ m k n, (k, n) ∈ foldl fill_node m ks →
  (k, n) ∈ m ∨ (n = default_node k ∧ k ∉ JMap.keys m).
Proof.
  induction ks as [|k0 ks IH]; intros m k n H; simpl in H; [by left|]. apply IH in H. unfold fill_node in H.
  destruct (JMap.has m k0) eqn:E; [done|]. rewrite JMap.set_absent in H by (by apply JMap_has_None).
  destruct H as [[H|H]%elem_of_app|[-> H]].
  - by left.
  - apply list_elem_of_singleton in H as [= -> ->]. right. split; [done|]. by apply JMap.has_false.
  - right. split; [done|]. intros Hk. apply H. rewrite JMap_keys_app, elem_of_app. by left.
Qed.

Lemma propagate_outside edges k m loop : k ∉ loopBodyNodes edges loop → JMap.get (propagate_loop edges m loop) k = JMap.get m k.
Proof.
  unfold propagate_loop. destruct (JMap.get m (ge_to loop)) as [t|]; [|done]. generalize (gn_max_visits t) as cap. intros cap.
  revert m. induction (loopBodyNodes edges loop) as [|x l IH]; intros m Hk; [done|].
  apply not_elem_of_cons in Hk as [N Hk]. simpl. rewrite IH by done. rewrite JMap.get_update.
  destruct (String.eqb_spec x k) as [->|]; done.
Qed.

Lemma propagates_outside edges k loops : ∀ m, (∀ loop, loop ∈ loops → k ∉ loopBodyNodes edges loop) →
  JMap.get (foldl (propagate_loop edges) m loops) k = JMap.get m k.
Proof.
  induction loops as [|l loops IH]; intros m H; [done|]. simpl. rewrite IH.
  - apply propagate_outside, H, list_elem_of_here.
  - intros loop Hl. by apply H, list_elem_of_further.
Qed.

(** What [validateGraphSpec] returns is what it was given. *)
Record reads_input (input : GraphSpecInput) (spec : GraphSpec) : Prop := {
  ri_edges : Forall2 edge_reads_as (default [] (si_edges input)) (gs_edges spec);
  ri_nodes : ∀ n, n ∈ gs_nodes spec →
    (∃ raw, raw ∈ default [] (si_nodes input) ∧ input_reads_as (gs_edges spec) raw n) ∨
    ((∀ raw, raw ∈ default [] (si_nodes input) → trim (ni_key raw) ≠ gn_key n) ∧
     node_reads_as (gs_edges spec) "task" "all" (JInt 1) n);
  ri_budget : ∀ v, si_max_total_visits input = Some v → v = JInt (gs_max_total_visits spec)
}.

Lemma validate_structure_nodes policy budget m edges nodeKeys spec : node_inv nodeKeys m →
  validate_structure policy budget m edges = Ok spec →
  gs_edges spec = edges ∧ (∀ v, budget = Some v → v = JInt (gs_max_total_visits spec)) ∧
  ∀ n, n ∈ gs_nodes spec → ∃ n0, (gn_key n, n0) ∈ m ∧ raised n0 n ∧
    ((∀ loop, loop ∈ loop_edges edges → gn_key n ∉ loopBodyNodes edges loop) → gn_max_visits n = gn_max_visits n0).
Proof.
  intros Hm H. unfold validate_structure in H. obind H. injection H as <-.
  apply check_budget_spec in Hok1 as (_ & _ & Hb). cbn. split_and!; [done|done|].
  set (m' := foldl (propagate_loop edges) m (loop_edges edges)) in *. intros n (k & _ & Hn)%list_elem_of_omap.
  assert (Hr : map_raised m m'). { apply propagate_raised. intros k0 n0 Hn0. apply JMap.get_Some_elem, Hm in Hn0. lia. }
  assert (gn_key n = k) as Ek.
  { apply JMap.get_Some_elem, (nv_entry _ _ (node_inv_raised _ _ _ Hm Hr)) in Hn. apply Hn. }
  rewrite Ek. destruct (proj1 (map_raised_get m m' k Hr) n Hn) as (n0 & H0 & Hrn). exists n0.
  split_and!; [by apply JMap.get_Some_elem|done|]. intros Hl. unfold m' in Hn. rewrite propagates_outside in Hn by done. congruence.
Qed.

Lemma raised_reads_as edges kind join n0 n : raised n0 n →
  ((∀ loop, loop ∈ loop_edges edges → gn_key n ∉ loopBodyNodes edges loop) → gn_max_visits n = gn_max_visits n0) →
  JMap.get GRAPH_NODE_KINDS (trim kind) = Some (gn_kind n0) → JMap.get JOIN_POLICIES (trim join) = Some (gn_join n0) →
  node_reads_as edges kind join (JInt (gn_max_visits n0)) n.
Proof. intros (_ & Ek & Ej & Hv & _) Hl Hk Hj. split; [by rewrite Ek|by rewrite Ej|]. by exists (gn_max_visits n0). Qed.

Lemma validateGraphSpec_reads input nodeKeys cp spec :
  validateGraphSpec (Some input) nodeKeys cp = Ok spec → reads_input input spec.
Proof.
  unfold validateGraphSpec. intros H. apply bind_Ok in H as ([] & _ & H). apply bind_Ok in H as ([] & _ & H).
  apply bind_Ok in H as (m0 & H0 & H). apply bind_Ok in H as ([edges seen] & H1 & H).
  pose proof (check_nodes_made _ _ _ _ H0) as [Hmade Hkeys].
  apply foldM_check_node_inv in H0; [|apply node_inv_nil]. apply node_inv_new_Set in H0.
  destruct (fill_nodes_inv nodeKeys nodeKeys m0 H0) as (Hm & _ & _); [done|].
  apply (validate_structure_nodes _ _ _ _ nodeKeys) in H as (Ee & Hb & Hn); [|exact Hm].
  destruct (check_edges_read _ _ _ _ H1) as (l & El & Hl). simpl in El. rewrite <- El in Hl. split; [by rewrite Ee|rewrite Ee|done].
  intros n Hin. destruct (Hn n Hin) as (n0 & Hn0 & Hr & Hv). pose proof Hr as (Ek & _).
  apply fill_nodes_made in Hn0 as [Hn0|[-> Hnew]].
  - left. apply Hmade in Hn0 as [Hn0%not_elem_of_nil|(raw & Hraw & (Er & H2 & H3 & H4) & _)]; [done|].
    exists raw. split; [done|]. split; [by rewrite Ek|]. rewrite H4. by apply raised_reads_as.
  - right. split.
    + intros raw Hraw E. apply Hnew, Hkeys. right. apply elem_of_map. by exists raw.
    + by apply (raised_reads_as edges "task" "all" _ n Hr).
Qed.

(** ** What a patch asks for *)

(** The removal names the edge. *)
Definition removes (r : GraphEdgeRemoval) (e : GraphEdge) : bool :=
  String.eqb (ge_from e) (trim (er_from r)) && String.eqb (ge_to e) (trim (er_to r)) &&
  match er_kind r with
  | Some k => negb (truthy (trim k)) || String.eqb (edge_kind_string (ge_kind e)) (trim k)
  | None => true
  end.

(** The last value that a patch gives a node. *)
Fixpoint asked {A} (given : GraphNodePatch → option A) (sets : list GraphNodePatch) (key : string) : option A :=
  match sets with
  | [] => None
  | p :: sets =>
      match asked given sets key with
      | Some v => Some v
      | None => if String.eqb (trim (np_key p)) key then given p else None
      end
  end.

Lemma removal_matches_input r e :
  removal_matches (trim (er_from r)) (trim (er_to r)) (truthy_or (er_kind r) None) (edge_input e) = removes r e.
Proof.
  unfold removal_matches, removes, truthy_or, edge_input. cbn. destruct (er_kind r) as [k|]; [|done].
  destruct (truthy k) eqn:E.
  - destruct (truthy (trim k)); [|done]. simpl. f_equal.
    destruct (String.eqb_spec (edge_kind_string (ge_kind e)) (trim k)) as [->|N]; [by rewrite bool_decide_true|].
    rewrite bool_decide_false; [done|]. intros [=]. done.
  - apply negb_false_iff, String.eqb_eq in E. subst k. done.
Qed.

Lemma remove_edges_effect removals : ∀ l ch st,
  foldM remove_edge (List.map edge_input l, ch) removals = Ok st →
  fst st = List.map edge_input (lfilter (λ e, negb (lsome (λ r, removes r e) removals)) l).
Proof.
  assert (Hf : ∀ (p : GraphEdgeInput → bool) (q : GraphEdge → bool), (∀ e, p (edge_input e) = q e) →
            ∀ l, lfilter p (List.map edge_input l) = List.map edge_input (lfilter q l)).
  { intros p q E. induction l as [|e l IH]; [done|]. cbn [List.map]. rewrite !lfilter_cons, E, IH. by destruct (q e). }
  induction removals as [|r removals IH]; intros l ch st H; simpl in H.
  - injection H as <-. cbn [fst]. f_equal. clear. induction l as [|e l IH]; [done|]. by rewrite lfilter_cons, <- IH.
  - apply bind_Ok in H as (st1 & H1 & H). apply bind_Ok in H1 as ([] & _ & [= <-]).
    rewrite (Hf _ (λ e, negb (removes r e))) in H by (intros e; by rewrite removal_matches_input).
    apply IH in H. rewrite H. f_equal. clear. induction l as [|e l IH]; [done|]. rewrite !lfilter_cons.
    change (lsome (λ r0, removes r0 e) (r :: removals)) with (removes r e || lsome (λ r0, removes r0 e) removals).
    destruct (removes r e); cbn [negb orb]; [exact IH|]. rewrite lfilter_cons, IH. done.
Qed.

(** The edge that an addition stands for. *)
Definition adds (raw : GraphEdgeInput) : GraphEdge → Prop :=
  reads_as (ei_from raw) (ei_to raw)
    match ei_kind raw with Some k => if truthy k then k else "sequence" | None => "sequence" end
    (ei_when raw) (ei_label raw).

Lemma add_edges_effect stateByKey raws : ∀ es ch, ∃ inputs,
  fst (foldl (add_edge stateByKey) (es, ch) raws) = es ++ inputs ∧
  ∀ l, Forall2 edge_reads_as inputs l → Forall2 adds raws l.
Proof.
  induction raws as [|raw raws IH]; intros es ch.
  { exists []. rewrite app_nil_r. split; [done|]. intros l H. inversion H; subst. constructor. }
  cbn [foldl add_edge]. edestruct IH as (inputs & E & Hl). rewrite E. eexists (_ :: inputs). rewrite <- app_assoc. split; [reflexivity|].
  intros l H. inversion H as [|x e ? l' [Hf Ht Hk Hw Hlb] Hr]; subst. constructor; [|by apply Hl].
  cbn [ei_from ei_to ei_kind ei_when ei_label from_option id] in Hf, Ht, Hk, Hw, Hlb. rewrite trim_idem in Hf, Ht. split; [done|done| |done|].
  - unfold truthy_or in Hk. destruct (ei_kind raw) as [k|]; [|done]. destruct (truthy k); cbn [from_option id] in Hk |- *; [by rewrite trim_idem in Hk|done].
  - rewrite Hlb. destruct (ei_label raw) as [x|]; [|done]. destruct (truthy x) eqn:E'; [done|].
    apply negb_false_iff, String.eqb_eq in E'. by subst x.
Qed.

Definition asked_input (sets : list GraphNodePatch) (key : string) (raw : GraphNodeInput) : GraphNodeInput :=
  {| ni_key := ni_key raw;
     ni_kind := match asked np_kind sets key with Some k => Some (trim k) | None => ni_kind raw end;
     ni_join := match asked np_join sets key with Some j => Some (trim j) | None => ni_join raw end;
     ni_max_visits := match asked np_max_visits sets key with Some v => Some v | None => ni_max_visits raw end |}.

Lemma set_nodes_effect sets : ∀ m ch st, foldM set_node (m, ch) sets = Ok st →
  fst st = List.map (λ '(k, raw), (k, asked_input sets k raw)) m.
Proof.
  induction sets as [|p sets IH]; intros m ch st H; simpl in H.
  - injection H as <-. cbn [fst]. induction m as [|[k raw] m IH]; [done|]. cbn [List.map]. rewrite <- IH. by destruct raw.
  - apply bind_Ok in H as (st1 & H1 & H). unfold set_node in H1. split_match_in H1; [|discriminate]. injection H1 as <-.
    apply IH in H. rewrite H. clear. unfold JMap.update. rewrite List.map_map. apply List.map_ext. intros [k raw].
    unfold asked_input, patch_node. cbn [asked]. rewrite (String.eqb_sym k).
    destruct (String.eqb (trim (np_key p)) k); cbn;
      destruct (asked np_kind sets k), (asked np_join sets k), (asked np_max_visits sets k); done.
Qed.

Lemma node_inputs_of spec k raw : (k, raw) ∈ foldl (λ m n, JMap.set m (gn_key n) (node_input n)) [] (gs_nodes spec) →
  ∃ n0, n0 ∈ gs_nodes spec ∧ k = gn_key n0 ∧ raw = node_input n0.
Proof.
  assert (Hs : ∀ (m : list (string * GraphNodeInput)) k' v x y, (x, y) ∈ JMap.set m k' v → (x, y) ∈ m ∨ (x = k' ∧ y = v)).
  { induction m as [|[k1 v1] m IH]; intros k' v x y; cbn; [intros [= -> ->]%list_elem_of_singleton; by right|].
    destruct (String.eqb_spec k1 k') as [->|]; intros [[= -> ->]|H]%elem_of_cons; rewrite ?elem_of_cons; auto.
    apply IH in H as [H|H]; auto. }
  assert (G : ∀ l m, (k, raw) ∈ foldl (λ m n, JMap.set m (gn_key n) (node_input n)) m l →
            (k, raw) ∈ m ∨ ∃ n0, n0 ∈ l ∧ k = gn_key n0 ∧ raw = node_input n0).
  { induction l as [|n l IH]; intros m H; [by left|]. cbn in H. apply IH in H as [H|(n0 & ? & H)].
    - apply Hs in H as [H|[-> ->]]; [by left|right]. exists n. split; [apply list_elem_of_here|done].
    - right. exists n0. split; [by apply list_elem_of_further|done]. }
  intros H. apply G in H as [H%not_elem_of_nil|H]; done.
Qed.

Lemma node_inputs_know spec n0 : n0 ∈ gs_nodes spec →
  gn_key n0 ∈ JMap.keys (foldl (λ m n, JMap.set m (gn_key n) (node_input n)) [] (gs_nodes spec)).
Proof.
  generalize (gs_nodes spec) as l. intros l. assert (G : ∀ m, gn_key n0 ∈ JMap.keys m ∨ n0 ∈ l →
    gn_key n0 ∈ JMap.keys (foldl (λ m n, JMap.set m (gn_key n) (node_input n)) m l)); [|by intros H; apply G; right].
  induction l as [|n l IH]; intros m H; [by destruct H as [H|H%not_elem_of_nil]|]. cbn [foldl]. apply IH.
  rewrite <- !JMap.get_is_Some_keys in *.
  destruct (decide (gn_key n = gn_key n0)) as [E|N]; [left; rewrite E, JMap.get_set_eq; by eexists|].
  rewrite JMap.get_set_ne by done. destruct H as [H|[->|H]%elem_of_cons]; auto; done.
Qed.

(** *** Validated edges stay as they are *)

Lemma lower_char_idem c : lower_char (lower_char c) = lower_char c.
Proof. by destruct c as [[] [] [] [] [] [] [] []]. Qed.
Lemma lower_char_space c : is_space (lower_char c) = is_space c.
Proof. by destruct c as [[] [] [] [] [] [] [] []]. Qed.
Lemma lower_idem s : toLowerCase (toLowerCase s) = toLowerCase s.
Proof. induction s as [|c s IH]; [done|]. cbn. by rewrite lower_char_idem, IH. Qed.
Lemma ltrim_lower s : ltrim (toLowerCase s) = toLowerCase (ltrim s).
Proof. induction s as [|c s IH]; [done|]. cbn. rewrite lower_char_space. by destruct (is_space c). Qed.

Lemma rtrim_lower s : rtrim (toLowerCase s) = toLowerCase (rtrim s).
Proof.
  induction s as [|c s IH]; [done|]. cbn. rewrite IH, lower_char_space.
  destruct (rtrim s); cbn; [by destruct (is_space c)|done].
Qed.

Lemma normalized_texts f l : (∀ s, f (f s) = f s) → List.map f (new_Set (lfilter truthy (List.map f l))) = new_Set (lfilter truthy (List.map f l)) ∧
  new_Set (lfilter truthy (new_Set (lfilter truthy (List.map f l)))) = new_Set (lfilter truthy (List.map f l)).
Proof.
  intros Hf. set (s := new_Set _).
  assert (Hs : ∀ x, x ∈ s → f x = x ∧ truthy x = true).
  { intros x Hx. apply elem_of_new_Set, elem_of_lfilter in Hx as [(y & -> & _)%elem_of_map Ht]. by rewrite Hf. }
  split.
  - rewrite <- (List.map_id s) at 2. apply List.map_ext_in. intros x Hx. by apply Hs, list_elem_of_In.
  - assert (lfilter truthy s = s) as ->; [|apply new_Set_NoDup, NoDup_new_Set].
    clearbody s. induction s as [|x s IH]; [done|]. rewrite lfilter_cons, (proj2 (Hs x (list_elem_of_here _ _))), IH; [done|].
    intros y Hy. by apply Hs, list_elem_of_further.
Qed.

Lemma nonempty_id l : default [] (nonempty l) = l.
Proof. by destruct l. Qed.

Lemma normalizeCondition_idem w : normalizeCondition (normalizeCondition w) = normalizeCondition w.
Proof.
  destruct w as [w|]; [|done]. unfold normalizeCondition at 2 3.
  destruct (normalized_texts trim (default [] (ec_status w)) trim_idem) as [S1 S2].
  destruct (normalized_texts (λ s, toLowerCase (trim s)) (default [] (ec_verdict w))) as [V1 V2].
  { intros s. cbn. unfold trim at 1. rewrite ltrim_lower, rtrim_lower, lower_idem. fold (trim (trim s)). by rewrite trim_idem. }
  set (status := new_Set (lfilter truthy (List.map trim _))) in *. set (verdict := new_Set (lfilter truthy (List.map _ (default [] (ec_verdict w))))) in *.
  assert (G : normalizeCondition (Some {| ec_status := nonempty status; ec_verdict := nonempty verdict |}) =
            match status, verdict with [], [] => None | _, _ => Some {| ec_status := nonempty status; ec_verdict := nonempty verdict |} end).
  { unfold normalizeCondition. cbn [ec_status ec_verdict]. by rewrite !nonempty_id, S1, V1, S2, V2. }
  destruct status as [|x status], verdict as [|y verdict]; [done|exact G..].
Qed.

(** The same edge; its label may lose the space at which it was cut. *)
Definition same_edge (e e' : GraphEdge) : Prop :=
  ge_from e' = ge_from e ∧ ge_to e' = ge_to e ∧ ge_kind e' = ge_kind e ∧ ge_when e' = ge_when e ∧
  ge_label e' = clean_label (ge_label e).

Lemma validated_edge_stays raw e e' : edge_reads_as raw e → edge_reads_as (edge_input e) e' → same_edge e e'.
Proof.
  intros [Hf Ht _ Hw _] [Hf' Ht' Hk' Hw' Hl'].
  cbn [edge_input ei_from ei_to ei_kind ei_when ei_label from_option id] in *. split_and!; [by rewrite Hf', Hf, trim_idem|by rewrite Ht', Ht, trim_idem| | |done].
  - revert Hk'. destruct (ge_kind e); vm_compute; congruence.
  - rewrite Hw', Hw. apply normalizeCondition_idem.
Qed.

(** *** The patched graph *)

Lemma Forall2_map_source {A B C} (f : A → B) (P : B → C → Prop) l k : Forall2 P (List.map f l) k → Forall2 (λ x, P (f x)) l k.
Proof. revert k. induction l as [|x l IH]; intros k H; inversion H; subst; constructor; auto. Qed.

Definition set_nodes_of (patch : GraphPatchInput) := default [] (gp_set_nodes patch).

(** What the patch leaves of the edges. *)
Definition unremoved (spec : GraphSpec) (patch : GraphPatchInput) : list GraphEdge :=
  lfilter (λ e, negb (lsome (λ r, removes r e) (default [] (gp_remove_edges patch)))) (gs_edges spec).

(** A graph that the validator has returned. *)
Definition validated (spec : GraphSpec) : Prop := ∃ input keys cp, validateGraphSpec (Some input) keys cp = Ok spec.

(** The edges that the patch does not remove — unchanged where the graph had been
    validated, and else as the validator reads them — then those it adds; every node with what
    the patch gives it, and otherwise what it had; a step that the graph did not know
    is a plain node; the budget that is given. *)
Record patched_to (spec : GraphSpec) (patch : GraphPatchInput) (spec' : GraphSpec) : Prop := {
  pt_edges : ∃ kept added, gs_edges spec' = kept ++ added ∧
    Forall2 (λ e, edge_reads_as (edge_input e)) (unremoved spec patch) kept ∧
    (validated spec → Forall2 same_edge (unremoved spec patch) kept) ∧
    Forall2 adds (default [] (gp_add_edges patch)) added;
  pt_nodes : ∀ n, n ∈ gs_nodes spec' →
    (∃ n0, n0 ∈ gs_nodes spec ∧ gn_key n = trim (gn_key n0) ∧
       node_reads_as (gs_edges spec') (default (node_kind_string (gn_kind n0)) (asked np_kind (set_nodes_of patch) (gn_key n0)))
         (default (join_string (gn_join n0)) (asked np_join (set_nodes_of patch) (gn_key n0)))
         (default (JInt (gn_max_visits n0)) (asked np_max_visits (set_nodes_of patch) (gn_key n0))) n) ∨
    node_reads_as (gs_edges spec') "task" "all" (JInt 1) n ∧ (∀ n0, n0 ∈ gs_nodes spec → trim (gn_key n0) ≠ gn_key n);
  pt_budget : default (JInt (gs_max_total_visits spec)) (gp_max_total_visits patch) = JInt (gs_max_total_visits spec')
}.

(** The input that [applyGraphPatch] has validated. *)
Lemma applyGraphPatch_input spec patch nodeKeys runtime cp spec' changes :
  applyGraphPatch spec (Some patch) nodeKeys runtime cp = Ok (spec', changes) →
  ∃ input inputs, reads_input input spec' ∧
    default [] (si_edges input) = List.map edge_input (unremoved spec patch) ++ inputs ∧
    (∀ l, Forall2 edge_reads_as inputs l → Forall2 adds (default [] (gp_add_edges patch)) l) ∧
    default [] (si_nodes input) = JMap.values (List.map (λ '(k, raw), (k, asked_input (set_nodes_of patch) k raw))
      (foldl (λ m n, JMap.set m (gn_key n) (node_input n)) [] (gs_nodes spec))) ∧
    si_max_total_visits input = Some (default (JInt (gs_max_total_visits spec)) (gp_max_total_visits patch)).
Proof.
  unfold applyGraphPatch. cbv zeta. intros H. apply bind_Ok in H as ([] & _ & H).
  apply bind_Ok in H as ([e1 c1] & H1 & H). apply remove_edges_effect in H1.
  destruct (add_edges_effect (states_by_key (rt_nodes runtime)) (default [] (gp_add_edges patch)) e1 c1) as (inputs & E2 & Hl).
  destruct (foldl (add_edge _) (e1, c1) _) as [e2 c2].
  apply bind_Ok in H as ([n3 c3] & H3 & H). apply set_nodes_effect in H3. apply bind_Ok in H as ([] & _ & H).
  split_match_in H; [|discriminate]. apply bind_Ok in H as ([] & _ & H). apply bind_Ok in H as ([] & _ & [= <- <-]).
  cbn [fst] in H1, E2, H3. subst e1 e2 n3. eexists _, inputs. split; [by eapply validateGraphSpec_reads|].
  split_and!; done.
Qed.

Lemma validated_edges_stay spec l k : validated spec → (∀ e, e ∈ l → e ∈ gs_edges spec) →
  Forall2 (λ e, edge_reads_as (edge_input e)) l k → Forall2 same_edge l k.
Proof.
  intros (input & keys & cp & [He _ _]%validateGraphSpec_reads) Hl H. induction H as [|e e' l k H _ IH]; constructor.
  - destruct (proj1 (list_elem_of_lookup _ _) (Hl e (list_elem_of_here _ _))) as [i Hi].
    destruct (Forall2_lookup_r _ _ _ _ _ He Hi) as (raw & _ & Hr). by eapply validated_edge_stays.
  - apply IH. intros x Hx. by apply Hl, list_elem_of_further.
Qed.

Lemma applyGraphPatch_effect spec patch nodeKeys runtime cp spec' changes :
  applyGraphPatch spec (Some patch) nodeKeys runtime cp = Ok (spec', changes) → patched_to spec patch spec'.
Proof.
  intros (input & inputs & [He Hn Hb] & Ee & Hl & En & Eb)%applyGraphPatch_input. split; [| |by apply Hb].
  - rewrite Ee in He. apply Forall2_app_inv_l in He as (kept & added & Hk & Ha & E). exists kept, added.
    apply Forall2_map_source in Hk. split_and!; [done|exact Hk| |by apply Hl]. intros Hs.
    apply (validated_edges_stay spec); [done| |exact Hk]. by intros e [He' _]%elem_of_lfilter.
  - rewrite En in Hn. intros n Hin.
    assert (Hm : ∀ raw, raw ∈ JMap.values (List.map (λ '(k, raw), (k, asked_input (set_nodes_of patch) k raw))
        (foldl (λ m n, JMap.set m (gn_key n) (node_input n)) [] (gs_nodes spec))) →
        ∃ n0, n0 ∈ gs_nodes spec ∧ raw = asked_input (set_nodes_of patch) (gn_key n0) (node_input n0)).
    { intros raw ([k r] & -> & ([k0 r0] & E & H0)%elem_of_map)%elem_of_map. injection E as -> ->.
      apply node_inputs_of in H0 as (n0 & ? & -> & ->). by exists n0. }
    destruct (Hn n Hin) as [(raw & (n0 & H0 & ->)%Hm & Ek & [Hk Hj Hv])|[Hk Hr]].
    + left. exists n0. split; [done|]. split; [exact Ek|]. unfold asked_input, node_input in *. cbn [ni_kind ni_join ni_max_visits] in *.
      split.
      * destruct (asked np_kind _ _); [by rewrite <- Hk; cbn [from_option id]; rewrite trim_idem|done].
      * destruct (asked np_join _ _); [by rewrite <- Hj; cbn [from_option id]; rewrite trim_idem|done].
      * by destruct (asked np_max_visits _ _).
    + right. split; [done|]. intros n0 H0 E.
      pose proof (node_inputs_know spec n0 H0) as [raw Hraw%JMap.get_Some_elem]%JMap.get_is_Some_keys.
      destruct (node_inputs_of _ _ _ Hraw) as (n1 & _ & E1 & ->).
      apply (Hk (asked_input (set_nodes_of patch) (gn_key n0) (node_input n1))); [|cbn [asked_input node_input ni_key]; congruence].
      apply elem_of_map. exists (gn_key n0, asked_input (set_nodes_of patch) (gn_key n0) (node_input n1)).
      split; [done|]. apply elem_of_map. by exists (gn_key n0, node_input n1).
Qed.

(** C32: An accepted patch does what it asks and never invalidates history: what it does
    not remove of the graph is kept, every edge it adds is there, every node has the
    kind, the join and at least the cap it was last given — and what it had where it
    was given nothing — and the budget is the one given; the patched graph passes
    every rule of validation, no node has run more often than its new cap, the budget
    covers the visits already spent, and something is reported as changed. *)
Theorem applyGraphPatch_safe spec patch nodeKeys runtime cp spec' changes :
  "" ∉ nodeKeys → applyGraphPatch spec (Some patch) nodeKeys runtime cp = Ok (spec', changes) →
  patched_to spec patch spec' ∧ graph_valid (normalizeConfirmPolicy cp) nodeKeys spec' ∧
  (∀ n, n ∈ gs_nodes spec' → visits_used runtime (gn_key n) <= gn_max_visits n) ∧
  rt_total_visits runtime <= gs_max_total_visits spec' ∧ changes ≠ [].
Proof.
  intros Hempty H. pose proof (applyGraphPatch_effect _ _ _ _ _ _ _ H) as Hp.
  apply applyGraphPatch_inv in H as ((input & Hin) & Hv & Hb & Hc). split_and!; auto.
  - by eapply validateGraphSpec_valid.
  - intros n Hn. specialize (Hv n Hn). unfold check_visits in Hv. cbv zeta in Hv.
    apply fail_if_Ok in Hv. breflect. exact Hv.
Qed.

(** The way to [ship] is rebuilt, and the loop shortened. *)
Definition rework : GraphPatchInput :=
  {| gp_set_nodes := Some [{| np_key := " build"; np_kind := None; np_join := None; np_max_visits := Some (JInt 5) |};
                           {| np_key := "build"; np_kind := None; np_join := None; np_max_visits := Some (JInt 2) |}];
     gp_add_edges := Some [sample_edge " ask" "ship" "conditional" ["Pass"; "ok"]; sample_edge "build" "ship" "" []];
     gp_remove_edges := Some [{| er_from := "ask"; er_to := "ship"; er_kind := None |}];
     gp_max_total_visits := Some (JInt 9) |}.

Definition sample_runtime (visit total : Z) : GraphRuntimeState :=
  {| rt_nodes := [sample_state "build" "running" "" visit]; rt_total_visits := total |}.

Lemma applyGraphPatch_safe_witness :
  match applyGraphPatch sample_spec (Some rework) sample_keys (sample_runtime 2 4) (JStr "auto") with
  | Ok (s, changes) => gs_max_total_visits s = 9 ∧ length (gs_edges s) = 4%nat ∧ length changes = 6%nat ∧
                 patched_to sample_spec rework s ∧ graph_valid (normalizeConfirmPolicy (JStr "auto")) sample_keys s
  | Err _ => False
  end.
Proof.
  pose proof (λ s c, applyGraphPatch_safe sample_spec rework sample_keys
    (sample_runtime 2 4) (JStr "auto") s c sample_keys_nonempty) as H.
  destruct (applyGraphPatch _ _ _ _ _) as [[s c]|e] eqn:E.
  - split_and!; [..|by apply (H s c)|by apply (H s c)]; vm_compute in E; by injection E as <- <-.
  - vm_compute in E. discriminate.
Defined.

(** The documented way to stop a runaway loop, lowering a loop target's cap
    to its current visit, is refused on the first visit: validation wants at
    least two visits on a loop target.  On the second visit it is accepted. *)
Theorem lowering_loop_target_to_visit :
  let lower v := Some {| gp_set_nodes := Some [{| np_key := "build"; np_kind := None;
      np_join := None; np_max_visits := Some (JInt v) |}];
    gp_add_edges := None; gp_remove_edges := None; gp_max_total_visits := None |} in
  applyGraphPatch sample_spec (lower 1) sample_keys (sample_runtime 1 1) (JStr "auto")
    = Err (pe_rejected (g_loop_low_cap "ask" "build" 1)) ∧
  is_Ok (applyGraphPatch sample_spec (lower 2) sample_keys (sample_runtime 2 3) (JStr "auto")) = true.
Proof. split; vm_compute; reflexivity. Qed.

(** A graph whose evaluator branches only through its loop. *)
Definition evaluator_loop : GraphSpecInput :=
  {| si_version := None;
     si_nodes := Some [sample_node "build" "task" 3; sample_node "check" "evaluator" 1];
     si_edges := Some [sample_edge "build" "check" "sequence" [];
                       sample_edge "check" "build" "loop_back" ["revise"]];
     si_max_total_visits := Some (JInt 10) |}.

(** Removing a loop_back edge is not always allowed: when it carries the
    only verdict branch of an evaluator, the re-validation rejects the removal. *)
Theorem removing_loop_back_can_be_rejected :
  match validateGraphSpec (Some evaluator_loop) ["build"; "check"] JUndef with
  | Ok spec =>
      applyGraphPatch spec
        (Some {| gp_set_nodes := None; gp_add_edges := None;
                 gp_remove_edges := Some [{| er_from := "check"; er_to := "build";
                                             er_kind := Some "loop_back" |}];
                 gp_max_total_visits := None |})
        ["build"; "check"] {| rt_nodes := []; rt_total_visits := 0 |} JUndef
      = Err (pe_rejected (g_evaluator_no_verdict "check"))
  | Err _ => False
  end.
Proof. vm_compute. reflexivity. Qed.
