(* ===== verification/Templates.v ===== *)
(** * Graph templates

    [orchestration-graph-templates.ts]: three named shapes an orchestrator can
    ask for, expanded to a graph input and validated like a hand-written one. *)

From S2P Require Import Prelude JsStd Worklist Vocabulary Graph GraphFacts Wave.
#[local] Open Scope Z_scope.

(** ** Reading parameters *)

Inductive template_error : Type :=
  | t_unknown (name : string)
  | t_needs_key (template param : string)
  | t_needs_list (template param : string)
  | t_list_too_short (template param : string) (minimum : Z)
  | t_listed_twice (template param key : string)
  | t_needs_count (template param : string)
  | t_bad_count (template param : string) (min max : Z)
  | t_same_steps
  | t_on_pass_in_loop
  | t_same_verdicts
  | t_aggregate_is_branch
  | t_source_not_distinct
  | t_not_in_plan (template : string) (missing : list string)
  | t_invalid_graph (template : string) (e : graph_error).

Section templates.
(** [Number(raw)], for a parameter that is not a number already. *)
Context (Number : jsval → number).

(** [typeof raw === 'string' ? raw.trim() : ''] *)
Definition trimmed_string (raw : jsval) : string :=
  match raw with JStr s => trim s | _ => "" end.

Definition readKey (params : jsval) (name template : string) : res template_error string :=
  let value := trimmed_string (prop params name) in
  _ ← fail_if (negb (truthy value)) (t_needs_key template name);
  Ok value.

Definition add_distinct (template name : string) (seen : list string) (key : string)
    : res template_error (list string) :=
  _ ← fail_if (includes seen key) (t_listed_twice template name key);
  Ok (set_add seen key).

Definition readKeyList (params : jsval) (name template : string) (minimum : Z)
    : res template_error (list string) :=
  match prop params name with
  | JArr raw =>
      let keys := lfilter truthy (List.map trimmed_string raw) in
      _ ← fail_if (Z.of_nat (length keys) <? minimum) (t_list_too_short template name minimum);
      _ ← foldM (add_distinct template name) [] keys;
      Ok keys
  | _ => Err (t_needs_list template name)
  end.

Definition readCount (params : jsval) (name template : string) (min max : Z)
    : res template_error Z :=
  let raw := prop params name in
  _ ← fail_if (is_nullish raw) (t_needs_count template name);
  match (match raw with JNum n => n | _ => Number raw end) with
  | JInt z => if (z <? min) || (max <? z) then Err (t_bad_count template name min max) else Ok z
  | JNonInt _ => Err (t_bad_count template name min max)
  end.

Definition readVerdict (params : jsval) (name fallback : string) : string :=
  let value := match prop params name with JStr s => toLowerCase (trim s) | _ => "" end in
  if truthy value then value else fallback.

(** ** The templates *)

Definition loopBudget (nodeCount loopBodySize passes : Z) : Z :=
  Z.min MAX_TOTAL_VISITS_CEILING (nodeCount + loopBodySize * (passes - 1)).

Definition no_budget (nodes : list GraphNodeInput) (edges : list GraphEdgeInput) : GraphSpecInput :=
  {| si_version := Some (JInt GRAPH_SPEC_VERSION); si_nodes := Some nodes; si_edges := Some edges;
     si_max_total_visits := None |}.

(** The edges from each step to the next. *)
Fixpoint chain_edges (steps : list string) : list GraphEdgeInput :=
  match steps with
  | a :: rest => match rest with
                 | b :: _ => sequence_edge a b :: chain_edges rest
                 | [] => []
                 end
  | [] => []
  end.

Definition build_linear (params : jsval) : res template_error GraphSpecInput :=
  steps ← readKeyList params "steps" "linear" 2;
  Ok (no_budget (List.map plain_node steps) (chain_edges steps)).

Definition capped_node (key : string) (kind : option string) (visits : Z) : GraphNodeInput :=
  {| ni_key := key; ni_kind := kind; ni_join := None; ni_max_visits := Some (JInt visits) |}.

Definition verdict_edge (from to kind verdict label : string) : GraphEdgeInput :=
  {| ei_from := from; ei_to := to; ei_kind := Some kind;
     ei_when := Some {| ec_status := None; ec_verdict := Some [verdict] |}; ei_label := Some label |}.

(** An explicit [max_total_visits], passed on as it is. *)
Definition explicit_budget (raw : jsval) : number :=
  match raw with JNum n => n | _ => JNonInt "not a number" end.

Definition build_review_loop (params : jsval) : res template_error GraphSpecInput :=
  work ← readKey params "work" "review_loop";
  review ← readKey params "review" "review_loop";
  _ ← fail_if (String.eqb work review) t_same_steps;
  passes ← readCount params "max_passes" "review_loop" MIN_LOOP_MAX_VISITS MAX_NODE_VISITS_CEILING;
  let onPass := trimmed_string (prop params "on_pass") in
  _ ← fail_if (truthy onPass && (String.eqb onPass work || String.eqb onPass review)) t_on_pass_in_loop;
  let passVerdict := readVerdict params "pass_verdict" "pass" in
  let reviseVerdict := readVerdict params "revise_verdict" "revise" in
  _ ← fail_if (String.eqb passVerdict reviseVerdict) t_same_verdicts;
  let nodes := [capped_node work None passes; capped_node review (Some "evaluator") passes]
                 ++ (if truthy onPass then [plain_node onPass] else []) in
  let edges := [sequence_edge work review; verdict_edge review work "loop_back" reviseVerdict "needs revision"]
                 ++ (if truthy onPass
                     then [verdict_edge review onPass "conditional" passVerdict "approved"] else []) in
  let explicit := prop params "max_total_visits" in
  Ok {| si_version := Some (JInt GRAPH_SPEC_VERSION); si_nodes := Some nodes; si_edges := Some edges;
        si_max_total_visits :=
          Some (if is_nullish explicit then JInt (loopBudget (Z.of_nat (length nodes)) 2 passes)
                else explicit_budget explicit) |}.

Definition join_node (key : string) : GraphNodeInput :=
  {| ni_key := key; ni_kind := None; ni_join := Some "all"; ni_max_visits := None |}.

Definition build_fan_out (params : jsval) : res template_error GraphSpecInput :=
  branches ← readKeyList params "branches" "fan_out_aggregate" 2;
  aggregate ← readKey params "aggregate" "fan_out_aggregate";
  _ ← fail_if (includes branches aggregate) t_aggregate_is_branch;
  let source := trimmed_string (prop params "source") in
  _ ← fail_if (truthy source && (includes branches source || String.eqb source aggregate))
        t_source_not_distinct;
  let nodes := List.map plain_node branches ++ [join_node aggregate]
                 ++ (if truthy source then [plain_node source] else []) in
  let edges := List.flat_map (λ b,
    (if truthy source then [sequence_edge source b] else []) ++ [sequence_edge b aggregate]) branches in
  Ok (no_budget nodes edges).

Definition TEMPLATES : list (string * (jsval → res template_error GraphSpecInput)) :=
  [("linear", build_linear); ("review_loop", build_review_loop); ("fan_out_aggregate", build_fan_out)].

(** The steps a built graph mentions. *)
Definition referenced (built : GraphSpecInput) : list string :=
  new_Set (List.map ni_key (default [] (si_nodes built))
             ++ List.flat_map (λ e, [ei_from e; ei_to e]) (default [] (si_edges built))).

Definition expandGraphTemplate (name : string) (params : jsval) (nodeKeys : list string) (confirmPolicy : jsval)
    : res template_error GraphSpec :=
  let name := trim name in
  match JMap.get TEMPLATES name with
  | None => Err (t_unknown name)
  | Some build =>
      built ← build (if is_nullish params then JObj [] else params);
      let missing := lfilter (λ k, negb (includes nodeKeys k)) (referenced built) in
      _ ← fail_if (bool_decide (0 < length missing)%nat) (t_not_in_plan name missing);
      match validateGraphSpec (Some built) nodeKeys confirmPolicy with
      | Err e => Err (t_invalid_graph name e)
      | Ok spec => Ok spec
      end
  end.
End templates.

(** ** Sequence graphs always validate *)

Lemma normalize_none : normalizeCondition None = None.
Proof. reflexivity. Qed.

Lemma trim_pattern k : STEP_KEY_PATTERN k = true → trim k = k.
Proof. apply step_key_trim. Qed.

(** What a template without loops or conditions builds. *)
Record sequence_graph (planKeys : list string) (nodes : list GraphNodeInput) (edges : list GraphEdgeInput) : Prop := {
  sg_plan : NoDup planKeys ∧ planKeys ≠ [] ∧ Z.of_nat (length planKeys) <= MAX_TOTAL_VISITS_CEILING;
  sg_keys : ∀ k, k ∈ planKeys → STEP_KEY_PATTERN k = true;
  sg_nodes : ∀ r, r ∈ nodes → ∃ j, r = {| ni_key := ni_key r; ni_kind := None; ni_join := j; ni_max_visits := None |}
                                   ∧ (j = None ∨ j = Some "all") ∧ ni_key r ∈ planKeys;
  sg_nodup : NoDup (List.map ni_key nodes);
  sg_edges : ∀ r, r ∈ edges → r = sequence_edge (ei_from r) (ei_to r) ∧
                              ei_from r ∈ planKeys ∧ ei_to r ∈ planKeys;
  sg_distinct : NoDup (List.map (λ r, (ei_from r, ei_to r)) edges);
  sg_ranked : ∃ rank : string → nat, ∀ r, r ∈ edges → (rank (ei_from r) < rank (ei_to r))%nat
}.

Definition task_of (r : GraphNodeInput) : GraphNode := default_node (ni_key r).
Definition edge_of (r : GraphEdgeInput) : GraphEdge := plain_edge (ei_from r) (ei_to r).

Section sequence_graph.
Context (planKeys : list string) (nodes : list GraphNodeInput) (edges : list GraphEdgeInput).
Context (Hg : sequence_graph planKeys nodes edges).

Lemma sg_trim k : k ∈ planKeys → trim k = k.
Proof. intros Hk. apply trim_pattern. by apply (sg_keys _ _ _ Hg). Qed.

Lemma sg_node_inputs : Forall2 (λ r n, node_of_input r = Some n) nodes (List.map task_of nodes).
Proof.
  cut (∀ l, (∀ r, r ∈ l → r ∈ nodes) → Forall2 (λ r n, node_of_input r = Some n) l (List.map task_of l));
    [intros Hc; by apply Hc|].
  induction l as [|r l IH]; intros Hl; simpl; constructor.
  - destruct (sg_nodes _ _ _ Hg r (Hl r (list_elem_of_here _ _))) as (j & -> & Hj & Hk).
    unfold node_of_input. cbn [ni_key] in *. cbn [ni_key ni_kind ni_join ni_max_visits]. rewrite (sg_trim _ Hk).
    by destruct Hj as [-> | ->].
  - apply IH. intros x Hx. by apply Hl, list_elem_of_further.
Qed.

Lemma sg_edge_inputs : Forall2 (λ r e, edge_of_input r = Some e) edges (List.map edge_of edges).
Proof.
  cut (∀ l, (∀ r, r ∈ l → r ∈ edges) → Forall2 (λ r e, edge_of_input r = Some e) l (List.map edge_of l));
    [intros Hc; by apply Hc|].
  induction l as [|r l IH]; intros Hl; simpl; constructor.
  - destruct (sg_edges _ _ _ Hg r (Hl r (list_elem_of_here _ _))) as (Hr & Hf & Ht).
    unfold edge_of. rewrite Hr at 1. unfold edge_of_input, sequence_edge. cbn [ei_kind ei_from ei_to ei_when ei_label].
    by rewrite (sg_trim _ Hf), (sg_trim _ Ht).
  - apply IH. intros x Hx. by apply Hl, list_elem_of_further.
Qed.

Definition sg_map : nodes_map := foldl fill_node (List.map (λ n, (gn_key n, n)) (List.map task_of nodes)) planKeys.

Lemma sg_node_inv : node_inv planKeys sg_map ∧ planKeys ⊆ JMap.keys sg_map.
Proof.
  destruct (fill_nodes_inv planKeys planKeys (List.map (λ n, (gn_key n, n)) (List.map task_of nodes)))
    as (Hi & Hs & _); [|done|by split].
  split.
  - unfold JMap.keys. rewrite !List.map_map. exact (sg_nodup _ _ _ Hg).
  - intros k n Hin. rewrite List.map_map in Hin. apply elem_of_map in Hin as (r & [= -> ->] & Hr). simpl.
    destruct (sg_nodes _ _ _ Hg r Hr) as (j & _ & _ & ?). split_and!; [done|done|lia|].
    unfold MAX_NODE_VISITS_CEILING. lia.
Qed.

Lemma sg_map_keys k : k ∈ JMap.keys sg_map ↔ k ∈ planKeys.
Proof.
  destruct sg_node_inv as [Hi Hs]. split; [|apply Hs]. intros (e & -> & He)%elem_of_map.
  destruct e as [k n]. by apply (nv_entry _ _ Hi) in He as (_ & ? & _).
Qed.

Lemma sg_map_values n : n ∈ JMap.values sg_map → n = default_node (gn_key n).
Proof.
  assert (Hf : ∀ ks (m : nodes_map), (∀ n, n ∈ JMap.values m → n = default_node (gn_key n)) →
    ∀ n, n ∈ JMap.values (foldl fill_node m ks) → n = default_node (gn_key n)).
  { induction ks as [|x ks IH]; intros m Hm; simpl; [done|]. apply IH. unfold fill_node.
    destruct (JMap.has m x) eqn:E; [done|]. intros v Hv.
    rewrite JMap.set_absent in Hv by by apply JMap_has_None. unfold JMap.values in Hv.
    rewrite List.map_app in Hv. apply elem_of_app in Hv as [Hv|Hv]; [by apply Hm|].
    by apply list_elem_of_singleton in Hv as ->. }
  apply Hf. intros v Hv. unfold JMap.values in Hv. rewrite !List.map_map in Hv.
  by apply elem_of_map in Hv as (r & -> & _).
Qed.

Lemma sg_map_length : length (JMap.keys sg_map) = length planKeys.
Proof.
  destruct sg_node_inv as [Hi Hs]. destruct (sg_plan _ _ _ Hg) as [Hnd _].
  apply Nat.le_antisymm; apply NoDup_subset_length; auto; [by apply (nv_nodup _ _ Hi)|].
  intros k Hk. by apply sg_map_keys.
Qed.

Lemma sg_acyclic : graph_acyclic (List.map edge_of edges).
Proof.
  destruct (sg_ranked _ _ _ Hg) as [rank Hr]. exists rank. intros a b (e & He & <- & <- & _).
  apply elem_of_map in He as (r & -> & Hin). by apply Hr.
Qed.

Lemma sg_no_loops : loop_edges (List.map edge_of edges) = [].
Proof. apply lfilter_nil. intros e (r & -> & _)%elem_of_map. reflexivity. Qed.

Lemma sg_ids : NoDup (List.map edge_id (List.map edge_of edges)).
Proof.
  rewrite List.map_map. pose proof (sg_distinct _ _ _ Hg) as Hd.
  rewrite <- (List.map_map (λ r, (ei_from r, ei_to r)) (λ p, (fst p, snd p, ek_sequence))).
  apply NoDup_fmap_2; [|done]. intros [a b] [c d] [= -> ->]. done.
Qed.

Lemma sg_dedupe :
  NoDup (List.map (λ e, dedupe_key (ge_from e) (ge_to e) (ge_kind e)) (List.map edge_of edges)).
Proof.
  pose proof sg_ids as Hids. pose proof (sg_edges _ _ _ Hg) as He.
  assert (Hin : ∀ e, e ∈ List.map edge_of edges → key_chars (ge_from e) = true ∧ key_chars (ge_to e) = true).
  { intros e (r & -> & Hr)%elem_of_map. destruct (He r Hr) as (_ & ? & ?).
    split; apply step_key_chars; by apply (sg_keys _ _ _ Hg). }
  revert Hids Hin. generalize (List.map edge_of edges). intros l. induction l as [|e l IH]; simpl; intros Hids Hin.
  - constructor.
  - inversion Hids as [|? ? Hn Hd]; subst. constructor; [|apply IH; [done|intros x Hx; by apply Hin, list_elem_of_further]].
    intros (x & Heq & Hx)%elem_of_map. apply Hn, elem_of_map. exists x. split; [|done].
    destruct (Hin e (list_elem_of_here _ _)) as [? ?], (Hin x (list_elem_of_further _ _ _ Hx)) as [? ?].
    unfold edge_id. apply dedupe_key_inj in Heq as (-> & -> & ->); done.
Qed.

Lemma sg_edge_inv seen :
  (∀ e, e ∈ List.map edge_of edges → dedupe_key (ge_from e) (ge_to e) (ge_kind e) ∈ seen) →
  edge_inv (JMap.keys sg_map) (List.map edge_of edges) seen.
Proof.
  intros Hseen. split; [|apply sg_ids|done]. intros e (r & -> & Hr)%elem_of_map. simpl.
  destruct (sg_edges _ _ _ Hg r Hr) as (_ & Hf & Ht). rewrite !sg_map_keys. split_and!; [done|done| |done].
  destruct (sg_ranked _ _ _ Hg) as [rank Hrk]. intros Heq. specialize (Hrk r Hr). rewrite Heq in Hrk. lia.
Qed.

(** Such a graph validates, with one visit per plan step as its budget. *)
Lemma sequence_graph_validates cp :
  ∃ spec, validateGraphSpec (Some (no_budget nodes edges)) planKeys cp = Ok spec ∧
    gs_edges spec = List.map edge_of edges ∧ gs_max_total_visits spec = Z.of_nat (length planKeys).
Proof.
  destruct (sg_plan _ _ _ Hg) as (Hnd & Hne & Hle). destruct sg_node_inv as [Hi Hs].
  set (seen := List.map (λ e, dedupe_key (ge_from e) (ge_to e) (ge_kind e)) (List.map edge_of edges)).
  assert (Hseen : ∀ e, e ∈ List.map edge_of edges → dedupe_key (ge_from e) (ge_to e) (ge_kind e) ∈ seen)
    by (intros e He; apply elem_of_map; eauto).
  pose proof (validateGraphSpec_run nodes edges None planKeys cp (List.map task_of nodes) (List.map edge_of edges)
    Hnd Hne sg_node_inputs) as Hrun. cbv zeta in Hrun. fold sg_map in Hrun.
  eexists. split; [|cbn [gs_edges gs_max_total_visits]].
  - unfold no_budget. rewrite Hrun; clear Hrun.
    + apply (validate_structure_complete _ None planKeys sg_map (List.map edge_of edges) seen
        (Z.of_nat (length planKeys))); [done| |by apply sg_edge_inv|apply sg_acyclic| | |].
      * intros Hk. rewrite <- (List.length_zero_iff_nil), sg_map_length, List.length_zero_iff_nil in Hk. done.
      * rewrite sg_no_loops. intros l Hl. inversion Hl.
      * rewrite sg_no_loops, sg_map_length. unfold check_budget, isPositiveInt. simpl.
        assert (0 < Z.of_nat (length planKeys)) by (destruct planKeys; [done|simpl; lia]).
        rewrite (proj2 (Z.ltb_lt _ _)) by done.
        rewrite (proj2 (Z.ltb_ge MAX_TOTAL_VISITS_CEILING _)) by done. simpl. by rewrite Z.ltb_irrefl.
      * rewrite sg_no_loops. cbn [foldl]. intros n Hn. by rewrite (sg_map_values n Hn).
    + intros n (r & -> & Hr)%elem_of_map. simpl. destruct (sg_nodes _ _ _ Hg r Hr) as (j & _ & _ & Hk).
      split; [by apply (sg_keys _ _ _ Hg)|done].
    + rewrite List.map_map. exact (sg_nodup _ _ _ Hg).
    + apply sg_edge_inputs.
    + intros e He. by apply (ev_edge _ _ _ (sg_edge_inv seen Hseen)) in He as (? & ? & ? & _).
    + apply sg_dedupe.
  - done.
Qed.
End sequence_graph.

(** ** The loop-free templates *)

Definition jstrings (l : list string) : jsval := JArr (List.map JStr l).

Lemma foldM_add_distinct template name l : ∀ seen,
  NoDup (seen ++ l) → foldM (add_distinct template name) seen l = Ok (seen ++ l).
Proof.
  induction l as [|k l IH]; intros seen Hnd; cbn [foldM]; [by rewrite app_nil_r|].
  assert (Hk : k ∉ seen).
  { apply NoDup_app in Hnd as (_ & Hd & _). intros Hk. apply (Hd k Hk), list_elem_of_here. }
  assert (Ha : add_distinct template name seen k = Ok (seen ++ [k])).
  { unfold add_distinct, set_add. by rewrite (proj2 (includes_false _ _) Hk). }
  rewrite Ha. cbn [mbind res_bind]. rewrite IH; by rewrite <- app_assoc.
Qed.

Lemma keys_read (l : list string) :
  (∀ k, k ∈ l → STEP_KEY_PATTERN k = true) →
  lfilter truthy (List.map trimmed_string (List.map JStr l)) = l.
Proof.
  intros Hk. induction l as [|k l IH]; simpl; [done|].
  rewrite (trim_pattern k) by apply Hk, list_elem_of_here.
  rewrite (proj2 (truthy_true k)) by apply step_key_not_empty, Hk, list_elem_of_here.
  f_equal. apply IH. intros x Hx. by apply Hk, list_elem_of_further.
Qed.

Lemma readKeyList_strings params name template minimum l :
  prop params name = jstrings l → (∀ k, k ∈ l → STEP_KEY_PATTERN k = true) → NoDup l →
  minimum <= Z.of_nat (length l) → readKeyList params name template minimum = Ok l.
Proof.
  intros Hp Hk Hnd Hm. unfold readKeyList, jstrings in *. rewrite Hp.
  rewrite keys_read by done. rewrite (proj2 (Z.ltb_ge _ _)) by done. simpl.
  by rewrite (foldM_add_distinct template name l []).
Qed.

(** The position of a key in a list of steps. *)
Fixpoint pos (l : list string) (k : string) : nat :=
  match l with [] => 0 | a :: l => if String.eqb a k then 0 else S (pos l k) end.

Lemma chain_edges_facts l :
  NoDup l →
  (∀ r, r ∈ chain_edges l → r = sequence_edge (ei_from r) (ei_to r) ∧ ei_from r ∈ l ∧ ei_to r ∈ l ∧
     (pos l (ei_from r) < pos l (ei_to r))%nat) ∧
  NoDup (List.map (λ r, (ei_from r, ei_to r)) (chain_edges l)).
Proof.
  induction l as [|a l IH]; intros Hnd; [split; [intros r Hr; inversion Hr|constructor]|].
  inversion Hnd as [|? ? Ha Hnd']; subst. destruct (IH Hnd') as [IH1 IH2].
  destruct l as [|b l]; [split; [intros r Hr; inversion Hr|constructor]|].
  change (chain_edges (a :: b :: l)) with (sequence_edge a b :: chain_edges (b :: l)).
  assert (Hab : a ≠ b) by (intros ->; apply Ha, list_elem_of_here).
  split.
  - intros r [->|Hr]%elem_of_cons.
    + cbn [ei_from ei_to sequence_edge pos]. rewrite String.eqb_refl.
      rewrite (proj2 (String.eqb_neq a b)) by done. split_and!; [done|apply list_elem_of_here| |lia].
      apply list_elem_of_further, list_elem_of_here.
    + destruct (IH1 r Hr) as (He & Hf & Ht & Hp). cbn [pos].
      rewrite (proj2 (String.eqb_neq a (ei_from r))) by (intros ->; done).
      rewrite (proj2 (String.eqb_neq a (ei_to r))) by (intros ->; done).
      split_and!; [done|by apply list_elem_of_further|by apply list_elem_of_further|].
      apply Nat.succ_lt_mono in Hp. exact Hp.
  - cbn [List.map]. constructor; [|done]. intros (r & Heq & Hr)%elem_of_map.
    injection Heq as Hf _. destruct (IH1 r Hr) as (_ & Hin & _). rewrite <- Hf in Hin. done.
Qed.

Section expansion.
Context (Number : jsval → number) (planKeys : list string) (cp : jsval).
Context (Hnd : NoDup planKeys) (Hkeys : ∀ k, k ∈ planKeys → STEP_KEY_PATTERN k = true).
Context (Hsize : Z.of_nat (length planKeys) <= MAX_TOTAL_VISITS_CEILING).

(** Expansion of a template that built a sequence graph. *)
Lemma expand_sequence name build params built :
  trim name = name → JMap.get (TEMPLATES Number) name = Some build → is_nullish params = false →
  build params = Ok built →
  (∃ nodes edges, built = no_budget nodes edges ∧ sequence_graph planKeys nodes edges) →
  ∃ spec, expandGraphTemplate Number name params planKeys cp = Ok spec ∧
    gs_edges spec = List.map edge_of (default [] (si_edges built)) ∧
    gs_max_total_visits spec = Z.of_nat (length planKeys).
Proof.
  intros Hn Hb Hp Hbuilt (nodes & edges & -> & Hg). unfold expandGraphTemplate.
  rewrite Hn, Hb, Hp, Hbuilt. cbn [mbind res_bind].
  rewrite (proj2 (lfilter_nil _ _)).
  2:{ intros k Hk. apply negb_false_iff, includes_true. unfold referenced in Hk. simpl in Hk.
      apply elem_of_new_Set, elem_of_app in Hk as [Hk|Hk].
      - apply elem_of_map in Hk as (r & -> & Hr). by destruct (sg_nodes _ _ _ Hg r Hr) as (j & _ & _ & ?).
      - apply elem_of_flat_map in Hk as (r & Hr & Hk).
        destruct (sg_edges _ _ _ Hg r Hr) as (_ & Hf & Ht). rewrite !elem_of_cons in Hk.
        destruct Hk as [->|[->|Hk]]; [done|done|inversion Hk]. }
  rewrite bool_decide_false by (simpl; lia). cbn [fail_if mbind res_bind].
  destruct (sequence_graph_validates _ _ _ Hg cp) as (spec & -> & ? & ?). eauto.
Qed.

Lemma planKeys_nonempty k : k ∈ planKeys → planKeys ≠ [].
Proof. intros Hk ->. inversion Hk. Qed.

Lemma linear_sequence_graph steps :
  steps ≠ [] → NoDup steps → steps ⊆ planKeys →
  sequence_graph planKeys (List.map plain_node steps) (chain_edges steps).
Proof using Hnd Hkeys Hsize.
  intros Hne Hs Hsub. destruct (chain_edges_facts steps Hs) as [Hc1 Hc2]. constructor.
  - split_and!; [done| |done]. destruct steps as [|k ks]; [done|].
    apply (planKeys_nonempty k), Hsub, list_elem_of_here.
  - done.
  - intros r (k & -> & Hk)%elem_of_map. exists None. split_and!; [done|by left|by apply Hsub].
  - rewrite List.map_map. by rewrite List.map_id.
  - intros r Hr. destruct (Hc1 r Hr) as (? & ? & ? & _). auto.
  - done.
  - exists (pos steps). intros r Hr. apply Hc1. done.
Qed.

Lemma fan_out_sequence_graph branches aggregate source :
  NoDup branches → branches ⊆ planKeys → aggregate ∈ planKeys → aggregate ∉ branches →
  (truthy source = true → source ∈ planKeys ∧ (source ∉ branches) ∧ source ≠ aggregate) →
  sequence_graph planKeys
    (List.map plain_node branches ++ [join_node aggregate] ++ (if truthy source then [plain_node source] else []))
    (List.flat_map (λ b, (if truthy source then [sequence_edge source b] else []) ++ [sequence_edge b aggregate])
       branches).
Proof using Hnd Hkeys Hsize.
  intros Hb Hsub Ha Hab Hs.
  assert (Hel : ∀ bs r, r ∈ List.flat_map (λ b, (if truthy source then [sequence_edge source b] else [])
      ++ [sequence_edge b aggregate]) bs →
    ∃ b, b ∈ bs ∧ (r = sequence_edge b aggregate ∨ truthy source = true ∧ r = sequence_edge source b)).
  { intros bs r (b & Hin & Hr)%elem_of_flat_map. exists b. split; [done|].
    destruct (truthy source); simpl in Hr; rewrite ?elem_of_cons in Hr; [|destruct Hr as [?|Hr]; [auto|inversion Hr]].
    destruct Hr as [?|[?|Hr]]; [auto|auto|inversion Hr]. }
  constructor.
  - split_and!; [done|by apply (planKeys_nonempty aggregate)|done].
  - done.
  - intros r [(k & -> & Hk)%elem_of_map|[ ->%list_elem_of_singleton|Hr]%elem_of_app]%elem_of_app.
    + exists None. split_and!; [done|by left|by apply Hsub].
    + exists (Some "all"). split_and!; [done|by right|done].
    + destruct (truthy source) eqn:E; [|inversion Hr]. apply list_elem_of_singleton in Hr as ->.
      exists None. split_and!; [done|by left|by destruct (Hs ltac:(done)) as (? & _)].
  - rewrite List.map_app, List.map_map, List.map_id. apply NoDup_app. split_and!; [done| |].
    + intros k Hk Hx. simpl in Hx. destruct (truthy source) eqn:E; simpl in Hx; rewrite !elem_of_cons in Hx.
      * destruct Hx as [->|[->|Hx]]; [done|by destruct (Hs ltac:(done)) as (_ & ? & _)|inversion Hx].
      * destruct Hx as [->|Hx]; [done|inversion Hx].
    + destruct (truthy source) eqn:E; simpl; [|apply NoDup_singleton].
      apply NoDup_cons. split; [|apply NoDup_singleton].
      intros Hx%list_elem_of_singleton. by destruct (Hs ltac:(done)) as (_ & _ & ?).
  - intros r Hr. destruct (Hel _ _ Hr) as (b & Hin & [->|[E ->]]); simpl;
      (split_and!; [done| |]); auto. by destruct (Hs ltac:(done)) as (? & _).
  - clear Hsub. induction branches as [|b bs IH]; simpl; [constructor|].
    inversion Hb as [|? ? Hbn Hb']; subst.
    assert (Hab' : aggregate ∉ bs) by (intros Hx; by apply Hab, list_elem_of_further).
    assert (Hs' : truthy source = true → source ∈ planKeys ∧ (source ∉ bs) ∧ source ≠ aggregate).
    { intros E. destruct (Hs ltac:(done)) as (? & Hx & ?). split_and!; [done| |done].
      intros Hy. by apply Hx, list_elem_of_further. }
    specialize (IH Hb' Hab' Hs'). rewrite List.map_app. apply NoDup_app. split_and!; [| |done].
    + destruct (truthy source) eqn:E; simpl; [|apply NoDup_singleton].
      apply NoDup_cons. split; [|apply NoDup_singleton].
      intros Hx%list_elem_of_singleton. injection Hx as Hx _. subst.
      destruct (Hs ltac:(done)) as (_ & Hx & _). by apply Hx, list_elem_of_here.
    + intros p Hp (r & -> & Hr)%elem_of_map. destruct (Hel _ _ Hr) as (b' & Hin & Hr').
      assert (b' ≠ b) by (intros ->; done).
      destruct (truthy source) eqn:E; simpl in Hp; rewrite ?elem_of_cons in Hp.
      * destruct (Hs ltac:(done)) as (_ & Hsb & Hsa).
        destruct Hp as [Hp|[Hp|Hp]]; [| |inversion Hp]; destruct Hr' as [->|[_ ->]]; simpl in Hp;
          simplify_eq; exfalso; apply Hsb; first [apply list_elem_of_here|by apply list_elem_of_further].
      * destruct Hp as [Hp|Hp]; [|inversion Hp]. destruct Hr' as [->|[? ->]]; [|done].
        simpl in Hp. injection Hp as Hp. done.
  - exists (λ k, if String.eqb k aggregate then 2%nat else if truthy source && String.eqb k source then 0%nat else 1%nat).
    intros r Hr. destruct (Hel _ _ Hr) as (b & Hin & [->|[E ->]]); simpl; rewrite String.eqb_refl.
    + rewrite (proj2 (String.eqb_neq b aggregate)) by (intros ->; done).
      destruct (truthy source && String.eqb b source); lia.
    + destruct (Hs ltac:(done)) as (_ & Hsb & Hsa). rewrite E, (proj2 (String.eqb_neq source aggregate)) by done. simpl.
      rewrite (proj2 (String.eqb_neq b aggregate)) by (intros ->; done).
      rewrite (proj2 (String.eqb_neq b source)) by (intros ->; done). lia.
Qed.
End expansion.

(** ** Properties *)

Definition linear_params (steps : list string) : jsval := JObj [("steps", jstrings steps)].
Definition fan_out_params (branches : list string) (aggregate source : string) : jsval :=
  JObj [("branches", jstrings branches); ("aggregate", JStr aggregate); ("source", JStr source)].

(** The loop-free templates never produce a graph the validator refuses: over any
    plan of at most 500 well-formed, distinct steps, [linear] expands for any two or
    more distinct steps of the plan to exactly the chain of their order, and
    [fan_out_aggregate] for any two or more branches, another step to aggregate
    them and optionally a third as source, to exactly the edges from the source to
    each branch and from each branch to the aggregate; each run costs one visit per
    step of the plan. *)
Theorem loop_free_templates_expand Number planKeys cp :
  NoDup planKeys → (∀ k, k ∈ planKeys → STEP_KEY_PATTERN k = true) →
  Z.of_nat (length planKeys) <= MAX_TOTAL_VISITS_CEILING →
  (∀ steps, 2 <= Z.of_nat (length steps) → NoDup steps → steps ⊆ planKeys →
     ∃ spec, expandGraphTemplate Number "linear" (linear_params steps) planKeys cp = Ok spec ∧
       gs_edges spec = List.map edge_of (chain_edges steps) ∧
       gs_max_total_visits spec = Z.of_nat (length planKeys)) ∧
  (∀ branches aggregate source, 2 <= Z.of_nat (length branches) → NoDup branches → branches ⊆ planKeys →
     aggregate ∈ planKeys → aggregate ∉ branches →
     (source = "" ∨ source ∈ planKeys ∧ (source ∉ branches) ∧ source ≠ aggregate) →
     ∃ spec, expandGraphTemplate Number "fan_out_aggregate" (fan_out_params branches aggregate source) planKeys cp
               = Ok spec ∧
       gs_edges spec = List.flat_map (λ b, (if truthy source then [plain_edge source b] else [])
                                             ++ [plain_edge b aggregate]) branches ∧
       gs_max_total_visits spec = Z.of_nat (length planKeys)).
Proof.
  intros Hnd Hk Hsize. split.
  - intros steps H2 Hs Hsub.
    apply (expand_sequence Number planKeys cp "linear" build_linear (linear_params steps)
      (no_budget (List.map plain_node steps) (chain_edges steps))); [reflexivity..| |].
    + unfold build_linear.
      rewrite (readKeyList_strings _ "steps" "linear" 2 steps); [reflexivity|reflexivity|by eauto|done|done].
    + exists (List.map plain_node steps), (chain_edges steps). split; [done|].
      apply linear_sequence_graph; try done. intros ->. simpl in H2. lia.
  - intros branches aggregate source H2 Hb Hsub Ha Hab Hs.
    assert (Htrim : trim source = source).
    { destruct Hs as [-> |(? & _)]; [done|]. apply trim_pattern. auto. }
    assert (Hsr : truthy source = true → source ∈ planKeys ∧ (source ∉ branches) ∧ source ≠ aggregate).
    { intros Ht. apply truthy_true in Ht. by destruct Hs as [?|?]. }
    edestruct (expand_sequence Number planKeys cp "fan_out_aggregate" build_fan_out
      (fan_out_params branches aggregate source)) as (spec & Hx & He & Hm); [reflexivity..| | |].
    + unfold build_fan_out.
      rewrite (readKeyList_strings _ "branches" _ 2 branches); [|reflexivity|by eauto|done|done].
      assert (Hr : readKey (fan_out_params branches aggregate source) "aggregate" "fan_out_aggregate" = Ok aggregate).
      { unfold readKey. change (prop (fan_out_params branches aggregate source) "aggregate") with (JStr aggregate).
        unfold trimmed_string. rewrite (trim_pattern aggregate) by auto.
        by rewrite (proj2 (truthy_true aggregate)) by (apply step_key_not_empty; auto). }
      cbn [mbind res_bind]. rewrite Hr. cbn [mbind res_bind].
      change (trimmed_string (prop (fan_out_params branches aggregate source) "source")) with (trim source).
      rewrite Htrim.
      cbn [negb fail_if mbind res_bind]. rewrite (proj2 (includes_false _ _) Hab). cbn [fail_if mbind res_bind].
      replace (truthy source && (includes branches source || String.eqb source aggregate)) with false; [reflexivity|].
      symmetry. apply andb_false_iff. destruct (truthy source) eqn:E; [right|by left].
      destruct (Hsr eq_refl) as (_ & Hx & Hy). apply orb_false_iff. split; [by apply includes_false|by apply String.eqb_neq].
    + eexists _, _. split; [reflexivity|]. by apply fan_out_sequence_graph.
    + exists spec. split_and!; [exact Hx| |exact Hm]. rewrite He. cbn [si_edges no_budget].
      unfold default, id. clear He Hx Hm.
      clear. induction branches as [|b bs IH]; simpl; [done|].
      rewrite List.map_app, IH. by destruct (truthy source).
Qed.

Lemma validateGraphSpec_budget input z nodeKeys cp spec :
  si_max_total_visits input = Some (JInt z) → validateGraphSpec (Some input) nodeKeys cp = Ok spec →
  gs_max_total_visits spec = z.
Proof.
  intros Hz H. unfold validateGraphSpec in H. obind H.
  match goal with Hp : foldM (check_edge _) _ _ = Ok ?p |- _ => destruct p as [edges seen] end.
  unfold validate_structure in H. obind H. injection H as <-. simpl.
  match goal with Hb : check_budget _ _ _ = Ok _ |- _ =>
    apply check_budget_spec in Hb as (_ & _ & Hb); specialize (Hb _ Hz); by injection Hb end.
Qed.

Lemma readCount_range Number params name template lo hi z :
  readCount Number params name template lo hi = Ok z → lo <= z <= hi.
Proof.
  unfold readCount. intros H. apply bind_Ok in H as (_ & _ & H).
  destruct (match prop params name with JNum n => n | _ => _ end) as [n|]; [|discriminate].
  destruct (_ || _) eqn:E; [discriminate|]. injection H as <-. breflect. lia.
Qed.

(** Without an explicit budget, [review_loop] gives the mission the visits of the
    template's own nodes only: whatever plan it is asked for, an accepted expansion
    has at most 3 + 2 (passes - 1) steps, passes being at most 25.  A plan with more
    steps, every other node of which the validator would add as an isolated node,
    is refused although its graph is well formed. *)
Theorem review_loop_budget_ignores_the_plan Number params nodeKeys cp spec :
  NoDup nodeKeys → "" ∉ nodeKeys → is_nullish (prop params "max_total_visits") = true →
  expandGraphTemplate Number "review_loop" params nodeKeys cp = Ok spec →
  ∃ passes, MIN_LOOP_MAX_VISITS <= passes <= MAX_NODE_VISITS_CEILING ∧
    gs_max_total_visits spec <= 3 + 2 * (passes - 1) ∧
    Z.of_nat (length nodeKeys) <= 3 + 2 * (passes - 1).
Proof.
  intros Hnd Hne Hnull H. unfold expandGraphTemplate in H.
  change (JMap.get (TEMPLATES Number) (trim "review_loop")) with (Some (build_review_loop Number)) in H.
  cbn beta iota in H. apply bind_Ok in H as (built & Hb & H). apply bind_Ok in H as (u & _ & H).
  destruct (validateGraphSpec (Some built) nodeKeys cp) as [s|e] eqn:Hv; [|discriminate]. injection H as <-.
  assert (Hnull' : is_nullish (prop (if is_nullish params then JObj [] else params) "max_total_visits") = true)
    by (by destruct (is_nullish params)).
  unfold build_review_loop in Hb. obind Hb. rewrite Hnull' in Hb. injection Hb as <-.
  match goal with Hc : readCount _ _ _ _ _ _ = Ok ?z |- _ =>
    rename z into passes; pose proof (readCount_range _ _ _ _ _ _ _ Hc) as Hr end.
  exists passes.
  pose proof (λ z Hz, validateGraphSpec_budget _ z nodeKeys cp s Hz Hv) as Hbud. specialize (Hbud _ eq_refl).
  pose proof (validateGraphSpec_valid _ _ _ _ Hne Hv) as Hval.
  pose proof (gv_budget _ _ _ Hval) as [Hlen _].
  assert (Hn : length nodeKeys = length (gs_nodes s)).
  { rewrite <- (List.length_map gn_key (gs_nodes s)). fold (node_keys s).
    apply Nat.le_antisymm; apply NoDup_subset_length; try done; [|by apply (gv_nodup _ _ _ Hval)|];
      intros k Hk; by apply (gv_nodes _ _ _ Hval). }
  split; [done|]. rewrite Hn.
  assert (gs_max_total_visits s <= 3 + 2 * (passes - 1)); [|lia].
  rewrite Hbud. unfold loopBudget.
  destruct (truthy (trimmed_string _)); simpl; lia.
Qed.

Definition template_number (v : jsval) : number := JNonInt "NaN".

Lemma loop_free_templates_expand_witness :
  ∃ spec, expandGraphTemplate template_number "linear" (linear_params ["research"; "draft"])
            ["draft"; "research"; "publish"] JUndef = Ok spec ∧
    gs_edges spec = [plain_edge "research" "draft"].
Proof.
  destruct (proj1 (loop_free_templates_expand template_number ["draft"; "research"; "publish"] JUndef
    ltac:(apply (bool_decide_unpack _); reflexivity)
    ltac:(intros k Hk; rewrite !elem_of_cons in Hk; destruct Hk as [-> |[-> |[-> |Hk]]];
          [reflexivity|reflexivity|reflexivity|inversion Hk])
    ltac:(vm_compute; discriminate)) ["research"; "draft"]
    ltac:(vm_compute; discriminate) ltac:(apply (bool_decide_unpack _); reflexivity)) as (spec & Hs & He & _).
  - intros k Hk. rewrite !elem_of_cons in Hk. rewrite !elem_of_cons. tauto.
  - exists spec. split; [exact Hs|exact He].
Defined.

Definition review_params : jsval :=
  JObj [("work", JStr "draft"); ("review", JStr "critique"); ("max_passes", JNum (JInt 2))].

Lemma review_loop_budget_ignores_the_plan_witness :
  ∃ spec, expandGraphTemplate template_number "review_loop" review_params ["draft"; "critique"] JUndef = Ok spec ∧
    gs_max_total_visits spec = 4.
Proof.
  destruct (expandGraphTemplate template_number "review_loop" review_params ["draft"; "critique"] JUndef)
    as [spec|e] eqn:E; [|vm_compute in E; discriminate E].
  exists spec. split; [reflexivity|].
  destruct (review_loop_budget_ignores_the_plan template_number review_params ["draft"; "critique"] JUndef spec
    ltac:(apply (bool_decide_unpack _); reflexivity) ltac:(apply (bool_decide_unpack _); reflexivity) eq_refl E)
    as (passes & _ & _ & _).
  vm_compute in E. injection E as <-. reflexivity.
Defined.

(** The same template on a plan of five steps. *)
Example review_loop_refused :
  expandGraphTemplate template_number "review_loop" review_params
    ["draft"; "critique"; "publish"; "notify"; "archive"] JUndef
  = Err (t_invalid_graph "review_loop" (g_budget_below_nodes 4 5)).
Proof. reflexivity. Qed.
