(* ===== verification/Cli.v ===== *)
(** * The CLI catalog

    [cli-catalog.ts] as far as the modelled code reads it: which CLIs the manager
    runs, and what each of them supports. *)

From S2P Require Import Prelude JsStd.
#[local] Open Scope Z_scope.

Record CliDescriptor := {
  cl_id : string;
  cl_executable : bool;
  cl_collaboration : list string;
  (** [effort.keys]; [None] for a CLI without an effort block. *)
  cl_effort : option (list string);
  (** [runtime_config.profiles], [runtime_config.child_limits] *)
  cl_profiles : bool;
  cl_child_limits : bool;
  cl_mission_approvals : bool
}.

Definition CLI_CATALOG : list CliDescriptor :=
  [ {| cl_id := "claude"; cl_executable := true; cl_collaboration := ["single"];
       cl_effort := Some ["effort"; "ultracode"; "model"]; cl_profiles := false;
       cl_child_limits := false; cl_mission_approvals := true |};
    {| cl_id := "deepseek"; cl_executable := true; cl_collaboration := ["single"];
       cl_effort := Some ["effort"; "ultracode"; "model"]; cl_profiles := false;
       cl_child_limits := false; cl_mission_approvals := true |};
    {| cl_id := "codex"; cl_executable := true; cl_collaboration := ["single"];
       cl_effort := Some ["model"; "effort"]; cl_profiles := false;
       cl_child_limits := false; cl_mission_approvals := false |};
    {| cl_id := "antigravity"; cl_executable := true; cl_collaboration := ["single"];
       cl_effort := Some ["model"]; cl_profiles := false;
       cl_child_limits := false; cl_mission_approvals := false |};
    {| cl_id := "pi"; cl_executable := true; cl_collaboration := ["single"];
       cl_effort := Some ["model"]; cl_profiles := false;
       cl_child_limits := false; cl_mission_approvals := false |};
    {| cl_id := "opencode"; cl_executable := true; cl_collaboration := ["single"];
       cl_effort := Some ["model"]; cl_profiles := false;
       cl_child_limits := false; cl_mission_approvals := false |};
    {| cl_id := "hermes"; cl_executable := true; cl_collaboration := ["single"; "delegated"; "swarm"];
       cl_effort := None; cl_profiles := true;
       cl_child_limits := true; cl_mission_approvals := true |};
    {| cl_id := "custom"; cl_executable := false; cl_collaboration := ["single"];
       cl_effort := None; cl_profiles := false;
       cl_child_limits := false; cl_mission_approvals := false |} ].

Definition find_cli (id : string) : option CliDescriptor :=
  List.find (λ d, String.eqb (cl_id d) id) CLI_CATALOG.

Definition cliDescriptor (id : string) : option CliDescriptor :=
  let key := toLowerCase (trim id) in
  if truthy key then find_cli key else None.

(** [EXECUTABLE_RUNTIMES.has(runtime)] *)
Definition executable_runtime (runtime : string) : bool :=
  includes (List.map cl_id (lfilter cl_executable CLI_CATALOG)) runtime.

Definition isExecutableRuntime (runtimeId : string) : bool :=
  executable_runtime (toLowerCase (trim runtimeId)).

(** [TEAM_SLOT_CLIS] *)
Definition TEAM_SLOT_CLIS : list string := lfilter isExecutableRuntime (List.map cl_id CLI_CATALOG).

Lemma TEAM_SLOT_CLIS_eq :
  TEAM_SLOT_CLIS = ["claude"; "deepseek"; "codex"; "antigravity"; "pi"; "opencode"; "hermes"].
Proof. reflexivity. Qed.

(** The name of an executable CLI is its own trimmed lower-case form. *)
Lemma slot_cli_normal cli :
  includes TEAM_SLOT_CLIS cli = true →
  toLowerCase (trim cli) = cli ∧ cli ≠ "" ∧ executable_runtime cli = true.
Proof.
  rewrite TEAM_SLOT_CLIS_eq. intros H%includes_true.
  repeat (apply elem_of_cons in H as [->|H]; [by vm_compute|]). inversion H.
Qed.
