(* ===== verification/Roster.v ===== *)
(** * The mission's runtime roster

    [orchestration-roster.ts], with the parts of [orchestration-member-spec.ts],
    [orchestration-project.ts], [orchestration-approval.ts] and
    [manager-capability-gate.ts] it is built from: which slot runs where, which
    runtime a step assignment means, and when two shared missions collide.

    A stored roster or execution spec is modelled decoded: [None] stands for
    every value [readRuntimeRoster] or [parseTeamAgentSpec] reads as null. *)

From S2P Require Import Prelude JsStd Cli.
#[local] Open Scope Z_scope.

(** ** Specs *)

Inductive MemberFolderScope : Type := shared | isolated.
#[export] Instance MemberFolderScope_eq_dec : EqDecision MemberFolderScope.
Proof. solve_decision. Defined.

Record AgentRuntimeConfig := {
  rc_strategy : string;
  rc_permission_mode : string;
  rc_profile : option string;
  rc_max_children : option Z;
  rc_max_iterations : option Z;
  rc_extra : option (list (string * jsval))
}.

Record TeamSlotSpec := {
  ss_manager_agent_id : string;
  ss_cli : string;
  ss_model : option string;
  ss_credential_id : option string;
  ss_cli_runtime_profile : option string;
  ss_runtime_config : AgentRuntimeConfig
}.

(** An execution spec: a slot placed in one folder. *)
Record TeamAgentSpec := {
  ta_slot : TeamSlotSpec;
  ta_working_dir : string;
  ta_folder_scope : MemberFolderScope
}.

Definition chr (n : N) : string := String (ascii_of_N n) EmptyString.
Definition slash : string := chr 47.
Definition backslash : string := chr 92.

Definition is_letter (c : ascii) : bool :=
  let n := code c in ((65 <=? n) && (n <=? 90)) || ((97 <=? n) && (n <=? 122)).
Definition is_separator (c : ascii) : bool := (code c =? 47) || (code c =? 92).

(** [/^[a-zA-Z]:[\\/]/.test(path)] *)
Definition drive_path (path : string) : bool :=
  match path with
  | String c1 (String c2 (String c3 _)) => is_letter c1 && (code c2 =? 58) && is_separator c3
  | _ => false
  end.

Definition isAbsoluteHostPath (path : string) : bool :=
  startsWith slash path || drive_path path || startsWith (backslash +:+ backslash) path.

Definition slotExecutionSpec (slot : TeamSlotSpec) (workingDir : string) (folderScope : MemberFolderScope)
    : res string TeamAgentSpec :=
  let dir := trim workingDir in
  _ ← fail_if (negb (isAbsoluteHostPath dir)) dir;
  Ok {| ta_slot := slot; ta_working_dir := dir; ta_folder_scope := folderScope |}.

(** [missionApprovalProblem], as whether it finds one. *)
Definition missionApprovalProblem (spec : TeamSlotSpec) : bool :=
  String.eqb (rc_permission_mode (ss_runtime_config spec)) "approve"
  && match cliDescriptor (ss_cli spec) with
     | Some cli => negb (cl_mission_approvals cli)
     | None => true
     end.

(** ** Live managers *)

Record ManagerCapabilitySnapshot := {
  mc_plugin_version : string;
  mc_manager_capabilities : option (list string)
}.

Definition MANAGER_CAPABILITY_MISSION_APPROVALS : string := "mission_approvals".

Definition evaluateManagerCapability (instances : list ManagerCapabilitySnapshot) (capability : string)
    : bool :=
  match instances with
  | [] => true
  | _ =>
      bool_decide (length (lfilter (λ i,
        match mc_manager_capabilities i with
        | None => true
        | Some l => negb (includes l capability)
        end) instances) = 0%nat)
  end.

Definition approvalHostProblem (spec : TeamSlotSpec) (instances : list ManagerCapabilitySnapshot) : bool :=
  String.eqb (rc_permission_mode (ss_runtime_config spec)) "approve"
  && negb (evaluateManagerCapability instances MANAGER_CAPABILITY_MISSION_APPROVALS).

(** ** Projects and rosters *)

Record MissionProject := {
  mp_id : string;
  mp_name : string;
  mp_host_folders : list (string * string)
}.

Definition projectFolderForHost (project : MissionProject) (hostId : string) : option string :=
  if truthy hostId then JMap.get (mp_host_folders project) hostId else None.

(** The folder a filter keeps a project for: present and not empty. *)
Definition workable_on (host : string) (p : MissionProject) : bool :=
  match projectFolderForHost p host with Some f => truthy f | None => false end.

Definition ORCHESTRATOR_SLOT_ID : string := "orchestrator".

Inductive RosterSlotKind : Type := slot_member | slot_extra | slot_orchestrator.

Record RosterSlot := {
  rs_slot_id : string;
  rs_kind : RosterSlotKind;
  rs_name : string;
  rs_role_label : string;
  rs_capabilities : string;
  rs_max_concurrent : Z;
  rs_spec : TeamSlotSpec
}.

Record MissionRuntime := {
  mr_slot_id : string;
  mr_project_id : string;
  mr_agent_id : string;
  mr_spec : TeamAgentSpec
}.

Record MissionRuntimeRoster := {
  ro_folder_scope : MemberFolderScope;
  ro_orchestrator : RosterSlot;
  ro_members : list RosterSlot;
  ro_runtimes : list MissionRuntime
}.

Definition slot_host (s : RosterSlot) : string := ss_manager_agent_id (rs_spec s).
Definition runtime_host (r : MissionRuntime) : string := ss_manager_agent_id (ta_slot (mr_spec r)).

Inductive roster_problem : Type :=
  | orchestrator_has_no_folder
  | member_has_no_folder (slot_id : string).

Inductive roster_error : Type :=
  | roster_no_project
  | roster_problems (l : list roster_problem)
  | roster_relative_folder (dir : string).

Section roster.
(** [createHash('sha256').update(s).digest('hex')] *)
Context (sha256hex : string → string).

Definition nul : string := chr 0.

Definition runtimeIdentityKey (spec : TeamAgentSpec) : string :=
  "rt-" +:+ slice 16 (sha256hex
    (toLowerCase (trim (ss_cli (ta_slot spec))) +:+ nul +:+ trim (ta_working_dir spec) +:+ nul
       +:+ trim (default "" (ss_credential_id (ta_slot spec))))).

Definition runtimeFor (slot : RosterSlot) (project : MissionProject) (folderScope : MemberFolderScope)
    : res roster_error MissionRuntime :=
  match slotExecutionSpec (rs_spec slot)
          (default "" (projectFolderForHost project (slot_host slot))) folderScope with
  | Err dir => Err (roster_relative_folder dir)
  | Ok spec => Ok {| mr_slot_id := rs_slot_id slot; mr_project_id := mp_id project;
                     mr_agent_id := runtimeIdentityKey spec; mr_spec := spec |}
  end.

(** [workableForOrchestrator.find(...)], whose predicate builds a runtime. *)
Fixpoint find_preferred (orchestrator : RosterSlot) (prefer : option string)
    (projects : list MissionProject) : res roster_error (option MissionProject) :=
  match projects with
  | [] => Ok None
  | p :: rest =>
      match prefer with
      | Some wanted =>
          if truthy wanted then
            r ← runtimeFor orchestrator p shared;
            if String.eqb (mr_agent_id r) wanted then Ok (Some p)
            else find_preferred orchestrator prefer rest
          else find_preferred orchestrator prefer rest
      | None => find_preferred orchestrator prefer rest
      end
  end.

(** The runtimes of one slot, over the projects it can work on. *)
Definition slot_runtimes (slot : RosterSlot) (scope : MemberFolderScope)
    (workable : list MissionProject) : res roster_error (list MissionRuntime) :=
  foldM (λ acc p, r ← runtimeFor slot p scope; Ok (acc ++ [r])) [] workable.

(** One member of the loop: its runtimes, or the problem it has. *)
Definition place_member (projects : list MissionProject) (scope : MemberFolderScope)
    (st : list MissionRuntime * list roster_problem) (slot : RosterSlot)
    : res roster_error (list MissionRuntime * list roster_problem) :=
  let '(runtimes, problems) := st in
  match lfilter (workable_on (slot_host slot)) projects with
  | [] => Ok (runtimes, problems ++ [member_has_no_folder (rs_slot_id slot)])
  | workable =>
      rs ← slot_runtimes slot scope workable;
      Ok (runtimes ++ rs, problems)
  end.

Definition place_orchestrator (orchestrator : RosterSlot) (projects : list MissionProject)
    (prefer : option string) : res roster_error (list MissionRuntime * list roster_problem) :=
  let workable := lfilter (workable_on (slot_host orchestrator)) projects in
  preferred ← find_preferred orchestrator prefer workable;
  match (match preferred with Some p => Some p | None => head workable end) with
  | None => Ok ([], [orchestrator_has_no_folder])
  | Some p => r ← runtimeFor orchestrator p shared; Ok ([r], [])
  end.

Definition resolveMissionRoster (orchestrator : RosterSlot) (members : list RosterSlot)
    (projects : list MissionProject) (folderScope : MemberFolderScope) (prefer : option string)
    : res roster_error MissionRuntimeRoster :=
  _ ← fail_if (bool_decide (length projects = 0%nat)) roster_no_project;
  st ← place_orchestrator orchestrator projects prefer;
  st ← foldM (place_member projects folderScope) st members;
  _ ← fail_if (bool_decide (0 < length (snd st))%nat) (roster_problems (snd st));
  Ok {| ro_folder_scope := folderScope; ro_orchestrator := orchestrator;
        ro_members := members; ro_runtimes := fst st |}.
End roster.

(** ** Reading a roster *)

Definition orchestratorRuntime (roster : MissionRuntimeRoster) : option MissionRuntime :=
  List.find (λ r, String.eqb (mr_slot_id r) ORCHESTRATOR_SLOT_ID) (ro_runtimes roster).

Definition runtimesForSlot (roster : MissionRuntimeRoster) (slotId : string) : list MissionRuntime :=
  lfilter (λ r, String.eqb (mr_slot_id r) slotId && negb (String.eqb slotId ORCHESTRATOR_SLOT_ID))
    (ro_runtimes roster).

Definition member_by_slot (roster : MissionRuntimeRoster) (slotId : string) : option RosterSlot :=
  List.find (λ m, String.eqb (rs_slot_id m) slotId) (ro_members roster).

Record ProjectName := { pn_id : string; pn_name : string }.

Inductive assign_error : Type :=
  | identity_of_several_slots (slots : list string)
  | not_on_roster (wanted : string)
  | not_a_project (named : string)
  | project_required (slot : string)
  | slot_cannot_work_on (slot project : string).

(** The slot an assignment names, and the project a legacy identity implies. *)
Definition resolve_slot (roster : MissionRuntimeRoster) (wanted : string)
    : res assign_error (option RosterSlot * option string) :=
  match member_by_slot roster wanted with
  | Some m => Ok (Some m, None)
  | None =>
      if negb (truthy wanted) then Ok (None, None)
      else
        let byIdentity := lfilter (λ r, String.eqb (mr_agent_id r) wanted
                                        && negb (String.eqb (mr_slot_id r) ORCHESTRATOR_SLOT_ID))
                            (ro_runtimes roster) in
        match new_Set (List.map mr_slot_id byIdentity) with
        | [] => Ok (None, None)
        | [only] =>
            Ok (member_by_slot roster only,
                match byIdentity with [r] => Some (mr_project_id r) | _ => None end)
        | many => Err (identity_of_several_slots many)
        end
  end.

(** A project by id, or by a name exactly one project carries. *)
Definition project_named (projects : list ProjectName) (named : string) : option string :=
  match List.find (λ p, String.eqb (pn_id p) named) projects with
  | Some p => Some (pn_id p)
  | None =>
      match lfilter (λ p, String.eqb (toLowerCase (pn_name p)) (toLowerCase named)) projects with
      | [p] => Some (pn_id p)
      | _ => None
      end
  end.

Definition resolve_project (projects : list ProjectName) (slot : RosterSlot) (named : string)
    (implied : option string) (options : list MissionRuntime) : res assign_error string :=
  if truthy named then
    match project_named projects named with
    | Some id => if truthy id then Ok id else Err (not_a_project named)
    | None => Err (not_a_project named)
    end
  else
    match implied with
    | Some p =>
        if truthy p then Ok p
        else match options with
             | [r] => Ok (mr_project_id r)
             | _ => Err (project_required (rs_slot_id slot))
             end
    | None =>
        match options with
        | [r] => Ok (mr_project_id r)
        | _ => Err (project_required (rs_slot_id slot))
        end
    end.

Definition resolveStepAssignment (roster : MissionRuntimeRoster) (projects : list ProjectName)
    (slotInput : string) (projectInput : option string)
    : res assign_error (RosterSlot * MissionRuntime) :=
  let wanted := trim slotInput in
  '(slot, implied) ← resolve_slot roster wanted;
  match slot with
  | None => Err (not_on_roster wanted)
  | Some slot =>
      let options := runtimesForSlot roster (rs_slot_id slot) in
      projectId ← resolve_project projects slot (trim (default "" projectInput)) implied options;
      match List.find (λ r, String.eqb (mr_project_id r) projectId) options with
      | None => Err (slot_cannot_work_on (rs_slot_id slot) projectId)
      | Some runtime => Ok (slot, runtime)
      end
  end.

(** ** Shared folders *)

(** [path.replace(/[\\/]+$/, '')] *)
Fixpoint trimFolder (path : string) : string :=
  match path with
  | EmptyString => EmptyString
  | String c path' =>
      match trimFolder path' with
      | EmptyString => if is_separator c then EmptyString else String c EmptyString
      | r => String c r
      end
  end.

Definition sameFolder (a b : string) : bool := String.eqb (trimFolder a) (trimFolder b).

Definition folderMatesOf (roster : MissionRuntimeRoster) (runtime : MissionRuntime) : list RosterSlot :=
  let mateIds := new_Set (List.map mr_slot_id (lfilter (λ r,
    negb (String.eqb (mr_slot_id r) (mr_slot_id runtime))
    && negb (String.eqb (mr_slot_id r) ORCHESTRATOR_SLOT_ID)
    && String.eqb (runtime_host r) (runtime_host runtime)
    && sameFolder (ta_working_dir (mr_spec r)) (ta_working_dir (mr_spec runtime)))
    (ro_runtimes roster))) in
  lfilter (λ m, includes mateIds (rs_slot_id m)) (ro_members roster).

Record HostFolder := { hf_host : string; hf_folder : string }.

Definition folder_key (f : HostFolder) : string := hf_host f +:+ chr 0 +:+ hf_folder f.

Definition memberFolders (roster : MissionRuntimeRoster) : list HostFolder :=
  JMap.values (foldl (λ seen r,
    if String.eqb (mr_slot_id r) ORCHESTRATOR_SLOT_ID then seen
    else
      let f := {| hf_host := runtime_host r; hf_folder := trimFolder (ta_working_dir (mr_spec r)) |} in
      JMap.set seen (folder_key f) f) [] (ro_runtimes roster)).

Record OtherMission := { om_id : string; om_roster : option MissionRuntimeRoster }.

Definition is_shared (r : MissionRuntimeRoster) : bool := bool_decide (ro_folder_scope r = shared).

Definition conflict_with (mine : list HostFolder) (other : OtherMission) : option (string * HostFolder) :=
  match om_roster other with
  | None => None
  | Some theirs =>
      if negb (is_shared theirs) then None
      else
        let keys := List.map folder_key (memberFolders theirs) in
        match List.find (λ f, includes keys (folder_key f)) mine with
        | Some hit => Some (om_id other, hit)
        | None => None
        end
  end.

(** The first conflict, over the other missions in order. *)
Fixpoint first_conflict (mine : list HostFolder) (others : list OtherMission)
    : option (string * HostFolder) :=
  match others with
  | [] => None
  | o :: rest =>
      match conflict_with mine o with Some hit => Some hit | None => first_conflict mine rest end
  end.

Definition sharedFolderConflict (roster : MissionRuntimeRoster) (others : list OtherMission)
    : option (string * HostFolder) :=
  if negb (is_shared roster) then None else first_conflict (memberFolders roster) others.

(** [keepOrchestratorRuntime]: a reopen keeps the orchestrator the room has. *)
Definition keepOrchestratorRuntime (sha256hex : string → string) (roster : MissionRuntimeRoster)
    (orchestrator_spec : option TeamAgentSpec) : MissionRuntimeRoster :=
  match orchestrator_spec, orchestratorRuntime roster with
  | Some spec, Some current =>
      let kept := {| mr_slot_id := ORCHESTRATOR_SLOT_ID; mr_project_id := mr_project_id current;
                     mr_agent_id := runtimeIdentityKey sha256hex spec; mr_spec := spec |} in
      {| ro_folder_scope := ro_folder_scope roster; ro_orchestrator := ro_orchestrator roster;
         ro_members := ro_members roster;
         ro_runtimes := kept :: lfilter (λ r, negb (String.eqb (mr_slot_id r) ORCHESTRATOR_SLOT_ID))
                                  (ro_runtimes roster) |}
  | _, _ => roster
  end.

(** ** Resolving a roster *)

(** [r] is [slot] placed in [project]'s folder on the slot's own host. *)
Record placed (sha256hex : string → string) (scope : MemberFolderScope) (slot : RosterSlot)
    (project : MissionProject) (r : MissionRuntime) : Prop := {
  placed_slot : mr_slot_id r = rs_slot_id slot;
  placed_project : mr_project_id r = mp_id project;
  placed_spec : ta_slot (mr_spec r) = rs_spec slot;
  placed_folder : ∃ f, projectFolderForHost project (slot_host slot) = Some f ∧ f ≠ ""
                       ∧ ta_working_dir (mr_spec r) = trim f;
  placed_absolute : isAbsoluteHostPath (ta_working_dir (mr_spec r)) = true;
  placed_scope : ta_folder_scope (mr_spec r) = scope;
  placed_identity : mr_agent_id r = runtimeIdentityKey sha256hex (mr_spec r)
}.

Lemma runtimeFor_placed h slot p scope r :
  workable_on (slot_host slot) p = true → runtimeFor h slot p scope = Ok r → placed h scope slot p r.
Proof.
  unfold workable_on, runtimeFor. intros Hw H.
  destruct (projectFolderForHost p (slot_host slot)) as [f|] eqn:Ef; [|discriminate].
  apply truthy_true in Hw. unfold slotExecutionSpec in H. simpl in H.
  destruct (isAbsoluteHostPath (trim f)) eqn:Ea; simpl in H; [|discriminate].
  injection H as <-. constructor; simpl; eauto.
Qed.

Lemma runtimeFor_Ok h slot p scope f :
  projectFolderForHost p (slot_host slot) = Some f → isAbsoluteHostPath (trim f) = true →
  is_Ok (runtimeFor h slot p scope) = true.
Proof. intros Hf Ha. unfold runtimeFor, slotExecutionSpec. rewrite Hf. simpl. by rewrite Ha. Qed.

(** The runtimes of a slot correspond one to one, in order, to its workable projects. *)
Lemma slot_runtimes_placed h slot scope ps rs :
  (∀ p, p ∈ ps → workable_on (slot_host slot) p = true) →
  slot_runtimes h slot scope ps = Ok rs → Forall2 (placed h scope slot) ps rs.
Proof.
  intros Hw. unfold slot_runtimes.
  cut (∀ acc done, Forall2 (placed h scope slot) done acc →
    ∀ rs, foldM (λ acc p, r ← runtimeFor h slot p scope; Ok (acc ++ [r])) acc ps = Ok rs →
    Forall2 (placed h scope slot) (done ++ ps) rs).
  { intros Hc Hrs. by apply (Hc [] []). }
  induction ps as [|p ps IH]; intros acc ds Hd rs' H; simpl in H.
  - injection H as <-. by rewrite app_nil_r.
  - apply bind_Ok in H as (acc' & H1 & H2). apply bind_Ok in H1 as (r & Hr & H1).
    injection H1 as <-. replace (ds ++ p :: ps) with ((ds ++ [p]) ++ ps) by by rewrite <- app_assoc.
    eapply IH; [intros q Hq; apply Hw, list_elem_of_further, Hq| |exact H2].
    apply Forall2_app; [done|]. constructor; [|constructor].
    eapply runtimeFor_placed; [apply Hw, list_elem_of_here|exact Hr].
Qed.

Lemma find_preferred_elem h orchestrator prefer ps p :
  find_preferred h orchestrator prefer ps = Ok (Some p) → p ∈ ps.
Proof.
  induction ps as [|q ps IH]; simpl; intros H; [discriminate|].
  destruct prefer as [w|]; [|by apply list_elem_of_further, IH].
  destruct (truthy w); [|by apply list_elem_of_further, IH].
  apply bind_Ok in H as (r & _ & H). destruct (String.eqb (mr_agent_id r) w).
  - injection H as <-. apply list_elem_of_here.
  - by apply list_elem_of_further, IH.
Qed.

(** What one member contributes to the loop. *)
Lemma place_member_cases h ps scope rs probs slot st :
  place_member h ps scope (rs, probs) slot = Ok st →
  (lfilter (workable_on (slot_host slot)) ps = [] ∧ st = (rs, probs ++ [member_has_no_folder (rs_slot_id slot)]))
  ∨ (lfilter (workable_on (slot_host slot)) ps ≠ [] ∧
     ∃ own, st = (rs ++ own, probs) ∧
            Forall2 (placed h scope slot) (lfilter (workable_on (slot_host slot)) ps) own).
Proof.
  unfold place_member. intros H.
  destruct (lfilter (workable_on (slot_host slot)) ps) as [|w ws] eqn:Ew.
  - injection H as <-. by left.
  - right. split; [done|]. apply bind_Ok in H as (own & Ho & H). injection H as <-.
    exists own. split; [done|]. eapply slot_runtimes_placed; [|exact Ho].
    rewrite <- Ew. intros p Hp. by apply elem_of_lfilter in Hp as [_ Hp].
Qed.

Definition homeless (ps : list MissionProject) (slot : RosterSlot) : bool :=
  negb (lsome (workable_on (slot_host slot)) ps).

Lemma homeless_true ps slot :
  homeless ps slot = true ↔ lfilter (workable_on (slot_host slot)) ps = [].
Proof.
  unfold homeless. rewrite negb_true_iff, lsome_false, lfilter_nil. done.
Qed.

(** The loop over the members, from any state. *)
Lemma place_members h ps scope ms : ∀ rs probs rs' probs',
  foldM (place_member h ps scope) (rs, probs) ms = Ok (rs', probs') →
  (∃ own, rs' = rs ++ own ∧
     (∀ r, r ∈ own → ∃ m p, m ∈ ms ∧ p ∈ ps ∧ placed h scope m p r) ∧
     (∀ m p, m ∈ ms → p ∈ ps → workable_on (slot_host m) p = true → ∃ r, r ∈ own ∧ placed h scope m p r)) ∧
  probs' = probs ++ List.map (λ m, member_has_no_folder (rs_slot_id m)) (lfilter (homeless ps) ms).
Proof.
  induction ms as [|m ms IH]; intros rs probs rs' probs' H; simpl in H.
  - injection H as <- <-. split; [|by rewrite app_nil_r].
    exists []. split_and!; [by rewrite app_nil_r|intros r Hr; inversion Hr|intros m p Hm; inversion Hm].
  - apply bind_Ok in H as ([rs1 probs1] & H1 & H2).
    apply IH in H2 as [(own & -> & Ho1 & Ho2) ->]. rewrite lfilter_cons.
    apply place_member_cases in H1 as [[Hw [= -> ->]]|[Hw (own0 & [= -> ->] & HF)]].
    + rewrite (proj2 (homeless_true ps m) Hw). simpl. rewrite <- app_assoc. split; [|done].
      exists own. split_and!; [done| |].
      * intros r Hr. destruct (Ho1 r Hr) as (m' & p & ? & ? & ?). exists m', p. split_and!; try done.
        by apply list_elem_of_further.
      * intros m' p Hm Hp Hwp. apply elem_of_cons in Hm as [-> |Hm]; [|by apply Ho2].
        rewrite lfilter_nil in Hw. rewrite (Hw p Hp) in Hwp. discriminate.
    + destruct (homeless ps m) eqn:Eh; [by apply homeless_true in Eh|]. split; [|done].
      exists (own0 ++ own). split_and!; [by rewrite app_assoc| |].
      * intros r Hr. apply elem_of_app in Hr as [Hr|Hr].
        -- apply list_elem_of_lookup in Hr as [i Hi].
           destruct (Forall2_lookup_r _ _ _ _ _ HF Hi) as (p & Hp & Hpl).
           apply list_elem_of_lookup_2, elem_of_lfilter in Hp as [Hp _].
           exists m, p. split_and!; [apply list_elem_of_here|done|done].
        -- destruct (Ho1 r Hr) as (m' & p & ? & ? & ?). exists m', p. split_and!; try done.
           by apply list_elem_of_further.
      * intros m' p Hm Hp Hwp. apply elem_of_cons in Hm as [-> |Hm].
        -- assert (Hin : p ∈ lfilter (workable_on (slot_host m)) ps) by by apply elem_of_lfilter.
           apply list_elem_of_lookup in Hin as [i Hi].
           destruct (Forall2_lookup_l _ _ _ _ _ HF Hi) as (r & Hr & Hpl).
           exists r. split; [|done]. apply elem_of_app. left. by eapply list_elem_of_lookup_2.
        -- destruct (Ho2 m' p Hm Hp Hwp) as (r & Hr & Hpl). exists r. split; [|done].
           apply elem_of_app. by right.
Qed.

Lemma place_orchestrator_cases h o ps prefer rs probs :
  place_orchestrator h o ps prefer = Ok (rs, probs) →
  (homeless ps o = true ∧ rs = [] ∧ probs = [orchestrator_has_no_folder]) ∨
  (homeless ps o = false ∧ probs = [] ∧ ∃ p r, p ∈ ps ∧ rs = [r] ∧ placed h shared o p r).
Proof.
  unfold place_orchestrator. intros H. apply bind_Ok in H as (preferred & Hp & H).
  assert (Hel : ∀ p, (match preferred with Some p => Some p
                      | None => head (lfilter (workable_on (slot_host o)) ps) end) = Some p →
                     p ∈ lfilter (workable_on (slot_host o)) ps).
  { intros p Hm. destruct preferred as [q|].
    - injection Hm as ->. by eapply find_preferred_elem.
    - destruct (lfilter _ ps) as [|q l]; [discriminate|]. injection Hm as ->. apply list_elem_of_here. }
  destruct (match preferred with Some p => Some p | None => _ end) as [p|] eqn:E.
  - right. apply bind_Ok in H as (r & Hr & H). injection H as <- <-.
    specialize (Hel p eq_refl). pose proof Hel as Hel'. apply elem_of_lfilter in Hel' as [Hps Hw].
    split; [|split; [done|exists p, r; split_and!; [done|done|by eapply runtimeFor_placed]]].
    destruct (homeless ps o) eqn:Eh; [|done]. apply homeless_true in Eh. rewrite Eh in Hel. inversion Hel.
  - left. injection H as <- <-. split; [|done]. apply homeless_true.
    destruct preferred; [discriminate|]. by destruct (lfilter _ ps).
Qed.

(** Every runtime of a resolved roster is one of its slots in one of the projects. *)
Lemma resolved_runtimes h orchestrator members projects scope prefer roster r :
  resolveMissionRoster h orchestrator members projects scope prefer = Ok roster →
  r ∈ ro_runtimes roster →
  ∃ slot p scope', p ∈ projects ∧ placed h scope' slot p r ∧
    (slot = orchestrator ∧ head (ro_runtimes roster) = Some r ∨ slot ∈ members).
Proof.
  unfold resolveMissionRoster. intros H. obind H. destruct a0 as [rs0 probs0], a1 as [rs1 probs1].
  injection H as <-. simpl in *. breflect.
  destruct (place_members h projects scope members _ _ _ _ Hok1) as [(own & -> & Ho1 & _) Hp].
  assert (Hnil : probs1 = []) by (destruct probs1; [done|simpl in *; lia]). rewrite Hp in Hnil.
  apply app_nil in Hnil as [Hp0 _].
  destruct (place_orchestrator_cases h orchestrator projects prefer _ _ Hok0)
    as [(_ & _ & Hx)|(_ & _ & p & r0 & Hp' & -> & Hpl)]; [congruence|].
  intros Hr. apply elem_of_cons in Hr as [->|Hr].
  - exists orchestrator, p, shared. auto.
  - destruct (Ho1 r Hr) as (m & q & ? & ? & ?). exists m, q, scope. auto.
Qed.

(** A resolved roster runs every slot only where its host has the work: each
    runtime is the orchestrator's or a member's own spec placed in the (absolute,
    non-empty) folder its own host registered for one of the mission's projects,
    under the execution identity of that spec; the orchestrator has exactly the
    first runtime, in the shared folder; and every member has a runtime for every
    project its host can work on, at least one. *)
Theorem resolveMissionRoster_sound h orchestrator members projects scope prefer roster :
  resolveMissionRoster h orchestrator members projects scope prefer = Ok roster →
  ro_orchestrator roster = orchestrator ∧ ro_members roster = members ∧ ro_folder_scope roster = scope ∧
  ∃ first rest, ro_runtimes roster = first :: rest ∧
    (∃ p, p ∈ projects ∧ placed h shared orchestrator p first) ∧
    (∀ r, r ∈ rest → ∃ m p, m ∈ members ∧ p ∈ projects ∧ placed h scope m p r) ∧
    (∀ m, m ∈ members → ∃ p, p ∈ projects ∧ workable_on (slot_host m) p = true) ∧
    (∀ m p, m ∈ members → p ∈ projects → workable_on (slot_host m) p = true →
       ∃ r, r ∈ rest ∧ placed h scope m p r).
Proof.
  unfold resolveMissionRoster. intros H. obind H.
  destruct a0 as [rs0 probs0], a1 as [rs1 probs1]. injection H as <-. simpl in *.
  breflect. destruct (place_members h projects scope members _ _ _ _ Hok1) as [(own & Hrs & Ho1 & Ho2) Hp].
  assert (Hnil : probs1 = []) by (destruct probs1; [done|simpl in *; lia]). rewrite Hp in Hnil.
  apply app_nil in Hnil as [Hp0 Hms].
  destruct (place_orchestrator_cases h orchestrator projects prefer _ _ Hok0)
    as [(_ & _ & Hx)|(_ & _ & p & r & Hp' & Hr & Hpl)]; [congruence|].
  split_and!; [done|done|done|]. exists r, own. split_and!; [by rewrite Hrs, Hr|by exists p|done| |done].
  intros m Hm. apply map_eq_nil in Hms. rewrite lfilter_nil in Hms.
  specialize (Hms m Hm). unfold homeless in Hms. apply negb_false_iff in Hms.
  apply lsome_true in Hms as (q & ? & ?). eauto.
Qed.

(** Every folder the mission would use is an absolute path. *)
Definition folders_absolute (slots : list RosterSlot) (projects : list MissionProject) : Prop :=
  ∀ s p f, s ∈ slots → p ∈ projects → projectFolderForHost p (slot_host s) = Some f → f ≠ "" →
    isAbsoluteHostPath (trim f) = true.

Lemma runtimeFor_total h slots ps s p scope :
  folders_absolute slots ps → s ∈ slots → p ∈ ps → workable_on (slot_host s) p = true →
  ∃ r, runtimeFor h s p scope = Ok r.
Proof.
  intros Ha Hs Hp Hw. unfold workable_on in Hw.
  destruct (projectFolderForHost p (slot_host s)) as [f|] eqn:Ef; [|discriminate].
  apply truthy_true in Hw.
  pose proof (runtimeFor_Ok h s p scope f Ef (Ha s p f Hs Hp Ef Hw)) as Ht.
  destruct (runtimeFor h s p scope); [eauto|discriminate].
Qed.

Lemma slot_runtimes_total h s scope ps :
  (∀ p, p ∈ ps → ∃ r, runtimeFor h s p scope = Ok r) → ∃ rs, slot_runtimes h s scope ps = Ok rs.
Proof.
  intros Ht. unfold slot_runtimes.
  cut (∀ acc, ∃ rs, foldM (λ acc p, r ← runtimeFor h s p scope; Ok (acc ++ [r])) acc ps = Ok rs);
    [intros Hc; apply Hc|].
  induction ps as [|p ps IH]; intros acc; simpl; [eauto|].
  destruct (Ht p (list_elem_of_here _ _)) as [r ->]. simpl. apply IH.
  intros q Hq. by apply Ht, list_elem_of_further.
Qed.

Lemma find_preferred_total h o prefer ps :
  (∀ p, p ∈ ps → ∃ r, runtimeFor h o p shared = Ok r) → ∃ q, find_preferred h o prefer ps = Ok q.
Proof.
  induction ps as [|p ps IH]; intros Ht; simpl; [eauto|].
  assert (IH' : ∃ q, find_preferred h o prefer ps = Ok q)
    by (apply IH; intros q Hq; by apply Ht, list_elem_of_further).
  destruct prefer as [w|]; [|done]. destruct (truthy w); [|done].
  destruct (Ht p (list_elem_of_here _ _)) as [r ->]. simpl.
  destruct (String.eqb (mr_agent_id r) w); eauto.
Qed.

Lemma place_orchestrator_total h o ps prefer :
  (∀ p, p ∈ ps → workable_on (slot_host o) p = true → ∃ r, runtimeFor h o p shared = Ok r) →
  ∃ st, place_orchestrator h o ps prefer = Ok st.
Proof.
  intros Ht. unfold place_orchestrator.
  assert (Ht' : ∀ p, p ∈ lfilter (workable_on (slot_host o)) ps → ∃ r, runtimeFor h o p shared = Ok r).
  { intros p [Hp Hw]%elem_of_lfilter. eauto. }
  destruct (find_preferred_total h o prefer _ Ht') as [q Hq]. rewrite Hq. simpl.
  destruct q as [p|].
  - destruct (Ht' p) as [r ->]; [by eapply find_preferred_elem|]. simpl. eauto.
  - destruct (lfilter _ ps) as [|p l]; simpl; [eauto|].
    destruct (Ht' p (list_elem_of_here _ _)) as [r ->]. simpl. eauto.
Qed.

Lemma place_members_total h ps scope ms :
  (∀ m p, m ∈ ms → p ∈ ps → workable_on (slot_host m) p = true → ∃ r, runtimeFor h m p scope = Ok r) →
  ∀ st, ∃ st', foldM (place_member h ps scope) st ms = Ok st'.
Proof.
  induction ms as [|m ms IH]; intros Ht [rs probs]; cbn [foldM]; [eauto|].
  assert (H1 : ∃ st, place_member h ps scope (rs, probs) m = Ok st).
  { unfold place_member. destruct (lfilter _ ps) as [|w ws] eqn:Ew; [eauto|].
    destruct (slot_runtimes_total h m scope (w :: ws)) as [own ->]; [|simpl; eauto].
    rewrite <- Ew. intros p [Hp Hw]%elem_of_lfilter. eapply Ht; eauto. apply list_elem_of_here. }
  destruct H1 as [st ->]. simpl. apply IH. intros m' p Hm. apply Ht. by apply list_elem_of_further.
Qed.

(** The problems of a roster, in report order. *)
Definition roster_problems_of (o : RosterSlot) (ms : list RosterSlot) (ps : list MissionProject)
    : list roster_problem :=
  (if homeless ps o then [orchestrator_has_no_folder] else []) ++
  List.map (λ m, member_has_no_folder (rs_slot_id m)) (lfilter (homeless ps) ms).

(** C37: Over absolute folders, a mission with at least one project resolves unless
    some slot's host has no folder for any project, and then the one error lists
    every such slot, the orchestrator first and the members in roster order. *)
Theorem resolveMissionRoster_reports_every_problem h orchestrator members projects scope prefer :
  projects ≠ [] → folders_absolute (orchestrator :: members) projects →
  match roster_problems_of orchestrator members projects with
  | [] => is_Ok (resolveMissionRoster h orchestrator members projects scope prefer) = true
  | probs => resolveMissionRoster h orchestrator members projects scope prefer = Err (roster_problems probs)
  end.
Proof.
  intros Hne Ha. unfold resolveMissionRoster.
  rewrite bool_decide_false by (by destruct projects). simpl.
  destruct (place_orchestrator_total h orchestrator projects prefer) as [[rs0 probs0] H0].
  { intros p Hp Hw. eapply runtimeFor_total; eauto. apply list_elem_of_here. }
  rewrite H0. simpl.
  destruct (place_members_total h projects scope members) with (st := (rs0, probs0)) as [[rs1 probs1] H1].
  { intros m p Hm Hp Hw. eapply runtimeFor_total; eauto. by apply list_elem_of_further. }
  rewrite H1. simpl. destruct (place_members _ _ _ _ _ _ _ _ H1) as [_ ->].
  replace probs0 with (if homeless projects orchestrator then [orchestrator_has_no_folder] else []).
  2:{ destruct (place_orchestrator_cases _ _ _ _ _ _ H0) as [(-> & _ & ->)|(-> & -> & _)]; done. }
  fold (roster_problems_of orchestrator members projects).
  by destruct (roster_problems_of orchestrator members projects).
Qed.

(** ** Assignments *)

Lemma member_by_slot_Some roster id m :
  member_by_slot roster id = Some m → m ∈ ro_members roster ∧ rs_slot_id m = id.
Proof. intros H. apply find_Some_elem in H as [? He]. by apply String.eqb_eq in He. Qed.

Lemma elem_of_runtimesForSlot roster id r :
  r ∈ runtimesForSlot roster id ↔
  r ∈ ro_runtimes roster ∧ mr_slot_id r = id ∧ id ≠ ORCHESTRATOR_SLOT_ID.
Proof.
  unfold runtimesForSlot. rewrite elem_of_lfilter, andb_true_iff, negb_true_iff, String.eqb_eq, String.eqb_neq.
  tauto.
Qed.

Lemma resolve_slot_cases roster wanted s implied :
  resolve_slot roster wanted = Ok (Some s, implied) →
  s ∈ ro_members roster ∧
  (rs_slot_id s = wanted ∧ implied = None ∨
   (∀ m, m ∈ ro_members roster → rs_slot_id m ≠ wanted) ∧
   (∃ r, r ∈ ro_runtimes roster ∧ mr_agent_id r = wanted ∧ mr_slot_id r = rs_slot_id s) ∧
   (∀ r, r ∈ ro_runtimes roster → mr_agent_id r = wanted → mr_slot_id r ≠ ORCHESTRATOR_SLOT_ID →
      mr_slot_id r = rs_slot_id s)).
Proof.
  unfold resolve_slot. intros H. destruct (member_by_slot roster wanted) as [m|] eqn:Em.
  - injection H as <- <-. apply member_by_slot_Some in Em as [? ?]. split; [done|]. by left.
  - destruct (negb (truthy wanted)); [discriminate|].
    set (bi := lfilter _ _) in H.
    assert (Hbi : ∀ id, id ∈ new_Set (List.map mr_slot_id bi) ↔
      ∃ r, r ∈ ro_runtimes roster ∧ mr_agent_id r = wanted ∧ mr_slot_id r ≠ ORCHESTRATOR_SLOT_ID ∧ mr_slot_id r = id).
    { intros id. rewrite elem_of_new_Set, elem_of_map. split.
      - intros (r & -> & Hr). unfold bi in Hr. apply elem_of_lfilter in Hr as [Hr Hb]. breflect. eauto 6.
      - intros (r & Hr & Ha & Ho & <-). exists r. split; [done|]. apply elem_of_lfilter. split; [done|].
        rewrite Ha, String.eqb_refl. by apply negb_true_iff, String.eqb_neq. }
    destruct (new_Set (List.map mr_slot_id bi)) as [|only [|]] eqn:En; try discriminate.
    injection H as Hs _. apply member_by_slot_Some in Hs as [Hin <-]. split; [done|]. right.
    split_and!.
    + intros m Hm Heq. pose proof (find_None_elem _ _ Em m Hm) as Hn. simpl in Hn.
      apply String.eqb_neq in Hn. done.
    + destruct (proj1 (Hbi _) (list_elem_of_here _ _)) as (r & ? & ? & _ & ?). eauto.
    + intros r Hr Ha Ho. assert (Hx : mr_slot_id r ∈ [rs_slot_id s]) by (apply Hbi; eauto 6).
      by apply list_elem_of_singleton in Hx.
Qed.

(** An accepted assignment names a member slot of the frozen roster, by its slot
    id or by an execution identity no other member slot runs as, and gets one of
    that member's own runtimes, never the orchestrator's; when the input names a
    project, the runtime is for the project with that id or the only project with
    that name. *)
Theorem resolveStepAssignment_sound roster projects slotInput projectInput slot runtime :
  resolveStepAssignment roster projects slotInput projectInput = Ok (slot, runtime) →
  slot ∈ ro_members roster ∧ runtime ∈ ro_runtimes roster ∧
  mr_slot_id runtime = rs_slot_id slot ∧ mr_slot_id runtime ≠ ORCHESTRATOR_SLOT_ID ∧
  (rs_slot_id slot = trim slotInput ∨
   (∀ r, r ∈ ro_runtimes roster → mr_agent_id r = trim slotInput → mr_slot_id r ≠ ORCHESTRATOR_SLOT_ID →
      mr_slot_id r = rs_slot_id slot)) ∧
  (trim (default "" projectInput) ≠ "" →
   ∃ p, p ∈ projects ∧ mr_project_id runtime = pn_id p ∧
        (pn_id p = trim (default "" projectInput) ∨
         toLowerCase (pn_name p) = toLowerCase (trim (default "" projectInput)) ∧
         ∀ q, q ∈ projects → toLowerCase (pn_name q) = toLowerCase (trim (default "" projectInput)) → q = p)).
Proof.
  unfold resolveStepAssignment. intros H. apply bind_Ok in H as ([s implied] & Hs & H).
  destruct s as [s|]; [|discriminate]. apply bind_Ok in H as (pid & Hp & H).
  destruct (List.find _ _) as [r|] eqn:Ef; [|discriminate]. injection H as <- <-.
  apply find_Some_elem in Ef as [Hr Hpid]. apply String.eqb_eq in Hpid.
  apply elem_of_runtimesForSlot in Hr as (Hr & Hsl & Ho).
  destruct (resolve_slot_cases _ _ _ _ Hs) as [Hm Hc]. split_and!; [done|done|done|congruence| |].
  - destruct Hc as [[? _]|(_ & _ & ?)]; auto.
  - intros Hne. unfold resolve_project in Hp.
    rewrite (proj2 (truthy_true _) Hne) in Hp.
    destruct (project_named projects (trim (default "" projectInput))) as [id|] eqn:En; [|discriminate].
    destruct (truthy id); [|discriminate]. injection Hp as <-. unfold project_named in En.
    destruct (List.find _ projects) as [p|] eqn:Ep.
    + injection En as <-. apply find_Some_elem in Ep as [? He]. apply String.eqb_eq in He. eauto.
    + destruct (lfilter _ projects) as [|p [|]] eqn:El; try discriminate. injection En as <-.
      assert (Hp : ∀ q, q ∈ projects ∧ toLowerCase (pn_name q) = toLowerCase (trim (default "" projectInput)) ↔ q ∈ [p]).
      { intros q. rewrite <- El, elem_of_lfilter, String.eqb_eq. done. }
      destruct (proj2 (Hp p) (list_elem_of_here _ _)) as [Hin Hnm]. exists p. split_and!; [done|done|right].
      split; [done|]. intros q Hq Hqn. apply list_elem_of_singleton, Hp. done.
Qed.

(** ** Shared missions *)

(** A member of the mission writes to [f]; the orchestrator only reads. *)
Definition writes_to (roster : MissionRuntimeRoster) (f : HostFolder) : Prop :=
  ∃ r, r ∈ ro_runtimes roster ∧ mr_slot_id r ≠ ORCHESTRATOR_SLOT_ID ∧
       f = {| hf_host := runtime_host r; hf_folder := trimFolder (ta_working_dir (mr_spec r)) |}.

Lemma elem_of_values_set {V} (m : list (string * V)) k v x :
  x ∈ JMap.values (JMap.set m k v) → x ∈ JMap.values m ∨ x = v.
Proof.
  induction m as [|[k' v'] m IH]; simpl.
  - intros ->%list_elem_of_singleton. by right.
  - destruct (String.eqb k' k); simpl; rewrite !elem_of_cons; [tauto|].
    intros [-> |H]; [by left; left|]. destruct (IH H); auto.
Qed.

Lemma memberFolders_spec roster :
  (∀ f, f ∈ memberFolders roster → writes_to roster f) ∧
  (∀ f, writes_to roster f → folder_key f ∈ List.map folder_key (memberFolders roster)).
Proof.
  unfold memberFolders, writes_to.
  cut (∀ rs seen,
    let out := foldl (λ seen r, if String.eqb (mr_slot_id r) ORCHESTRATOR_SLOT_ID then seen
      else JMap.set seen (folder_key {| hf_host := runtime_host r; hf_folder := trimFolder (ta_working_dir (mr_spec r)) |})
             {| hf_host := runtime_host r; hf_folder := trimFolder (ta_working_dir (mr_spec r)) |}) seen rs in
    (∀ k f, JMap.get seen k = Some f → folder_key f = k) →
    (∀ f, f ∈ JMap.values out → f ∈ JMap.values seen ∨ ∃ r, r ∈ rs ∧ mr_slot_id r ≠ ORCHESTRATOR_SLOT_ID ∧
       f = {| hf_host := runtime_host r; hf_folder := trimFolder (ta_working_dir (mr_spec r)) |}) ∧
    (∀ k f, JMap.get out k = Some f → folder_key f = k) ∧
    (∀ k, is_Some (JMap.get seen k) → is_Some (JMap.get out k)) ∧
    (∀ r, r ∈ rs → mr_slot_id r ≠ ORCHESTRATOR_SLOT_ID →
       is_Some (JMap.get out (folder_key {| hf_host := runtime_host r; hf_folder := trimFolder (ta_working_dir (mr_spec r)) |})))).
  { intros Hc. destruct (Hc (ro_runtimes roster) []) as (H1 & H2 & _ & H3); [done|]. split.
    - intros f Hf. destruct (H1 f Hf) as [Hn|?]; [inversion Hn|done].
    - intros f (r & Hr & Ho & ->). destruct (H3 r Hr Ho) as [g Hg].
      apply elem_of_map. exists g. split; [symmetry; by apply (H2 _ _ Hg)|].
      apply JMap.get_Some_elem in Hg. unfold JMap.values. apply elem_of_map.
      eexists (_, g). split; [done|exact Hg]. }
  induction rs as [|r rs IH]; intros seen; cbn zeta; simpl; intros Hk.
  - split_and!; [auto|done|done|intros r Hr; inversion Hr].
  - destruct (String.eqb (mr_slot_id r) ORCHESTRATOR_SLOT_ID) eqn:E; breflect.
    + destruct (IH seen Hk) as (H1 & H2 & H3 & H4). split_and!; [|done|done|].
      * intros f Hf. destruct (H1 f Hf) as [?|(r' & ? & ?)]; [auto|right].
        exists r'. split; [by apply list_elem_of_further|done].
      * intros r' [-> |Hr']%elem_of_cons Ho; [done|auto].
    + set (f0 := {| hf_host := runtime_host r; hf_folder := _ |}).
      destruct (IH (JMap.set seen (folder_key f0) f0)) as (H1 & H2 & H3 & H4).
      { intros k f Hg. destruct (decide (folder_key f0 = k)) as [<-|Hne].
        - rewrite JMap.get_set_eq in Hg. by injection Hg as <-.
        - rewrite JMap.get_set_ne in Hg by done. auto. }
      split_and!; [|done| |].
      * intros f Hf. destruct (H1 f Hf) as [Hs|(r' & ? & ?)].
        -- apply elem_of_values_set in Hs as [?| ->]; [auto|right].
           exists r. split; [apply list_elem_of_here|done].
        -- right. exists r'. split; [by apply list_elem_of_further|done].
      * intros k [f Hg]. apply H3. destruct (decide (folder_key f0 = k)) as [<-|Hne].
        -- rewrite JMap.get_set_eq. eauto.
        -- rewrite JMap.get_set_ne by done. eauto.
      * intros r' [-> |Hr']%elem_of_cons Ho; [|auto]. apply H3. rewrite JMap.get_set_eq. eauto.
Qed.

Lemma first_conflict_Some mine others hit :
  first_conflict mine others = Some hit → ∃ o, o ∈ others ∧ conflict_with mine o = Some hit.
Proof.
  induction others as [|o os IH]; simpl; [discriminate|]. destruct (conflict_with mine o) as [h|] eqn:E.
  - intros [= ->]. exists o. split; [apply list_elem_of_here|done].
  - intros H. destruct (IH H) as (o' & ? & ?). exists o'. split; [by apply list_elem_of_further|done].
Qed.

Lemma first_conflict_None mine others :
  first_conflict mine others = None → ∀ o, o ∈ others → conflict_with mine o = None.
Proof.
  induction others as [|o os IH]; simpl; intros H o' Ho; [inversion Ho|].
  destruct (conflict_with mine o) as [h|] eqn:E; [discriminate|].
  apply elem_of_cons in Ho as [-> |Ho]; [done|by apply IH].
Qed.

(** The shared-folder check is exact: for a shared mission it reports no conflict
    only when no member of it writes to a folder (up to trailing separators) of a
    host that a member of another shared mission writes to, and a reported
    conflict is such a folder. *)
Theorem sharedFolderConflict_exact roster others :
  match sharedFolderConflict roster others with
  | None =>
      ro_folder_scope roster = shared →
      ∀ o theirs f, o ∈ others → om_roster o = Some theirs → ro_folder_scope theirs = shared →
        writes_to roster f → ¬ writes_to theirs f
  | Some (id, f) =>
      ro_folder_scope roster = shared ∧ writes_to roster f ∧
      ∃ o theirs g, o ∈ others ∧ om_id o = id ∧ om_roster o = Some theirs ∧
        ro_folder_scope theirs = shared ∧ writes_to theirs g ∧ folder_key g = folder_key f
  end.
Proof.
  unfold sharedFolderConflict, is_shared.
  destruct (bool_decide (ro_folder_scope roster = shared)) eqn:Es; simpl; breflect; [|done].
  destruct (memberFolders_spec roster) as [Hm1 Hm2].
  destruct (first_conflict (memberFolders roster) others) as [[id f]|] eqn:Ef.
  - apply first_conflict_Some in Ef as (o & Ho & Hc). unfold conflict_with, is_shared in Hc.
    destruct (om_roster o) as [theirs|] eqn:Et; [|discriminate].
    destruct (bool_decide (ro_folder_scope theirs = shared)) eqn:Es2; simpl in Hc; [|discriminate].
    breflect. destruct (List.find _ _) as [h|] eqn:Eh; [|discriminate]. injection Hc as <- <-.
    apply find_Some_elem in Eh as [Hh Hk]. breflect. apply elem_of_map in Hk as (g & Hk & Hg).
    split_and!; [done|by apply Hm1|]. exists o, theirs, g. split_and!; try done.
    by apply (proj1 (memberFolders_spec theirs)).
  - intros _ o theirs f Ho Ht Hs Hw Hw'.
    pose proof (first_conflict_None _ _ Ef o Ho) as Hn. unfold conflict_with, is_shared in Hn.
    rewrite Ht, bool_decide_true in Hn by done. simpl in Hn.
    destruct (List.find _ _) eqn:Eh; [discriminate|].
    apply Hm2 in Hw. apply elem_of_map in Hw as (g & Hg & Hin).
    pose proof (find_None_elem _ _ Eh g Hin) as Hx. simpl in Hx. breflect. apply Hx.
    rewrite <- Hg. by apply (proj2 (memberFolders_spec theirs)).
Qed.

(** ** Witnesses *)

Definition sample_config : AgentRuntimeConfig :=
  {| rc_strategy := "single"; rc_permission_mode := "trusted"; rc_profile := None;
     rc_max_children := None; rc_max_iterations := None; rc_extra := None |}.
Definition sample_slot (id host : string) : RosterSlot :=
  {| rs_slot_id := id; rs_kind := slot_member; rs_name := id; rs_role_label := ""; rs_capabilities := "";
     rs_max_concurrent := 1;
     rs_spec := {| ss_manager_agent_id := host; ss_cli := "claude"; ss_model := None;
                   ss_credential_id := None; ss_cli_runtime_profile := None;
                   ss_runtime_config := sample_config |} |}.
Definition sample_project : MissionProject :=
  {| mp_id := "p1"; mp_name := "Core"; mp_host_folders := [("h1", "/srv/core"); ("h2", "/home/core/")] |}.
Definition sample_roster : MissionRuntimeRoster :=
  match resolveMissionRoster (λ s, s) (sample_slot ORCHESTRATOR_SLOT_ID "h1") [sample_slot "m1" "h2"]
          [sample_project] shared None with
  | Ok r => r
  | Err _ => {| ro_folder_scope := isolated; ro_orchestrator := sample_slot "" ""; ro_members := [];
                ro_runtimes := [] |}
  end.

Lemma resolveMissionRoster_sound_witness :
  ∃ first rest, ro_runtimes sample_roster = first :: rest ∧ mr_slot_id first = ORCHESTRATOR_SLOT_ID.
Proof.
  destruct (resolveMissionRoster_sound (λ s, s) (sample_slot ORCHESTRATOR_SLOT_ID "h1") [sample_slot "m1" "h2"]
    [sample_project] shared None sample_roster ltac:(reflexivity)) as (_ & _ & _ & first & rest & He & (p & _ & Hp) & _).
  exists first, rest. split; [exact He|exact (placed_slot _ _ _ _ _ Hp)].
Defined.

Lemma sample_folders_absolute :
  folders_absolute [sample_slot ORCHESTRATOR_SLOT_ID "h1"; sample_slot "m1" "h9"] [sample_project].
Proof.
  intros s p f Hs Hp Hf _. apply list_elem_of_singleton in Hp as ->.
  rewrite !elem_of_cons in Hs. destruct Hs as [-> | [-> | Hs]]; [|discriminate Hf|inversion Hs].
  injection Hf as <-. reflexivity.
Qed.

Lemma resolveMissionRoster_reports_every_problem_witness :
  resolveMissionRoster (λ s, s) (sample_slot ORCHESTRATOR_SLOT_ID "h1") [sample_slot "m1" "h9"]
    [sample_project] shared None = Err (roster_problems [member_has_no_folder "m1"]).
Proof.
  exact (resolveMissionRoster_reports_every_problem (λ s, s) (sample_slot ORCHESTRATOR_SLOT_ID "h1")
    [sample_slot "m1" "h9"] [sample_project] shared None ltac:(discriminate) sample_folders_absolute).
Defined.

Lemma resolveStepAssignment_sound_witness :
  ∃ slot runtime, resolveStepAssignment sample_roster [{| pn_id := "p1"; pn_name := "Core" |}] "m1" (Some "core")
                    = Ok (slot, runtime) ∧ slot ∈ ro_members sample_roster.
Proof.
  destruct (resolveStepAssignment sample_roster [{| pn_id := "p1"; pn_name := "Core" |}] "m1" (Some "core"))
    as [[slot runtime]|e] eqn:E; [|vm_compute in E; discriminate E].
  exists slot, runtime. split; [reflexivity|].
  exact (proj1 (resolveStepAssignment_sound _ _ _ _ _ _ E)).
Defined.
