(* ===== verification/Entities.v ===== *)
(** * Mission state and the engine's monad

    The rows the runner reads and writes ([OrchestrationMission],
    [OrchestrationStep], the event timeline), the messages it posts to rooms, and
    the state-and-error monad its methods are written in.  One [World] is one
    mission: every state-changing method of the runner runs under
    [withMissionLock], so a method is one atomic transition of the world, and
    the writes it made before an error stay. *)

From S2P Require Import Prelude JsStd Vocabulary Plan Graph GraphRun Patch Templates Roster.
#[local] Open Scope Z_scope.

(** ** Rows *)

Record Artifact := { ar_kind : string; ar_ref : string; ar_label : string }.

Record Step := {
  st_id : string;
  st_key : string;
  st_title : string;
  st_instructions : string;
  st_acceptance_criteria : string;
  st_depends_on : option (list string);
  st_assignee_slot : option string;
  st_project_id : option string;
  st_assignee_agent_id : option string;
  st_assignee_spec : option TeamAgentSpec;
  st_status : string;
  st_position : Z;
  st_plan_version : Z;
  st_room_id : option string;
  st_result_summary : string;
  st_artifacts : option (list Artifact);
  st_attempt : Z;
  st_max_attempts : Z;
  st_lease_token : string;
  st_last_heartbeat_at : option Z;
  st_retry_policy : string;
  st_recovery_reason : string;
  st_checkpoint : option jsval;
  st_checkpoint_at : option Z;
  st_lease_stale_since : option Z;
  st_auto_blocked : bool;
  st_visit : Z;
  st_verdict : string;
  st_confirm_decision : option ConfirmDecision;
  st_dispatched_at : option Z;
  st_started_at : option Z;
  st_finished_at : option Z
}.

(** An ad-hoc member the mission adds to its team's roster. *)
Record ExtraMember := {
  xm_slot_id : string;
  xm_role_label : string;
  xm_capabilities : string;
  (** The whole part of a finite number; [None] for anything else. *)
  xm_max_concurrent : option Z;
  xm_spec : option TeamSlotSpec
}.

Record Mission := {
  ms_id : string;
  ms_account_id : string;
  ms_orchestrator_agent_id : option string;
  ms_orchestrator_spec : option TeamAgentSpec;
  ms_status : string;
  ms_room_id : option string;
  ms_runtime_roster : option MissionRuntimeRoster;
  ms_folder_scope : MemberFolderScope;
  (** The ids [readMissionProjects] reads. *)
  ms_project_ids : list string;
  ms_excluded_member_ids : list string;
  ms_extra_members : list ExtraMember;
  ms_plan_version : Z;
  ms_max_plan_versions : Z;
  ms_max_steps : Z;
  ms_max_parallel_steps : Z;
  ms_graph_enabled : bool;
  ms_graph_spec : option GraphSpec;
  ms_graph_revision : Z;
  ms_total_visits : Z;
  ms_confirm_policy : string;
  ms_completion_criteria : option (list MissionCompletionCriterion);
  ms_post_actions : option (list MissionPostAction);
  ms_post_actions_pending : bool;
  ms_plan_summary : string;
  ms_result_summary : string;
  ms_failure_reason : string;
  ms_step_timeout_minutes : Z;
  ms_created_at : option Z;
  ms_started_at : option Z;
  ms_finished_at : option Z
}.

(** A timeline row: its type, the step it is about, the keys (or the reason) its
    data names, and when it was written. *)
Record Event := {
  ev_type : string; ev_step_key : option string; ev_keys : list string; ev_created_at : Z
}.

(** What a prompt posted to a room asks of its reader. *)
Inductive PostBody : Type :=
  | work_order (key : string) (attempt visit : Z) (lease_token : string) (recovery : bool)
      (dependencies : list string) (confirmFeedback : list (string * ConfirmDecision))
  | mission_brief
  | wake_prompt (reason : string)
  | reconnect_request (key : string)
  | approval_wake (approval_id : string).

Record Post := { po_room : string; po_body : PostBody }.

(** A run the actions service created, with the correlation key it was given. *)
Record ActionRun := { rn_action_id : string; rn_triggered_by_id : string; rn_id : string; rn_room_id : string }.

Record World := {
  w_mission : Mission;
  w_steps : list Step;
  w_events : list Event;
  w_posts : list Post;
  w_nonce : nat;
  (** [ActionRun] rows, oldest first, and the correlation keys of the calls to
      [actionsService.dispatch]. *)
  w_runs : list ActionRun;
  w_dispatch_calls : list string;
  (** The database's clock, which stamps the rows as they are written. *)
  w_clock : Z
}.

(** ** Errors *)

Inductive why : Type :=
  | step_not_found
  | mission_not_found
  | mission_is (status : string)
  | mission_not_paused (status : string)
  | not_authenticated
  | not_orchestrator
  | not_step_actor (key : string)
  | step_already (key status : string)
  | step_in_flight (key : string)
  | no_lease_token (key : string)
  | stale_lease (key : string) (attempt : Z)
  | visit_required (key : string)
  | stale_visit (key : string) (current : Z)
  | bad_verdict
  | bad_visit
  | not_confirm_node (key : string)
  | already_decided_otherwise (key : string)
  | not_awaiting (key status : string)
  | bad_max_attempts
  | max_attempts_over_ceiling
  | max_attempts_below_used (used : Z)
  | retry_budget_required
  | retries_exhausted (key : string) (max : Z)
  | assignee_required
  | no_runtime_roster
  | assignment_rejected (e : assign_error)
  | not_a_mission_project (named : string)
  | no_runtime_to_run_on (key : string)
  | approval_unavailable (cli : string)
  | host_cannot_approve (host : string)
  | team_not_found
  | team_disabled
  | projects_missing (ids : list string)
  | no_orchestrator_slot
  | no_members_available
  | roster_rejected (e : roster_error)
  | shared_folder_conflict (mission : string)
  | preparation_failed (detail : string)
  | open_steps (keys : list string)
  | criteria_unmet (keys : list string)
  | no_criteria
  | unknown_criterion (key : string)
  | criteria_invalid
  | plan_limit (max : Z)
  | plan_rejected (e : plan_error)
  | graph_disabled
  | graph_reset_conflict
  | graph_rejected (e : graph_error)
  | graph_cannot_absorb (e : graph_error)
  | no_graph
  | patch_limit
  | patch_rejected (e : patch_error)
  | template_rejected (e : template_error)
  | not_started
  | delivery_failed (message : string).

Record oerr := { oe_code : Z; oe_why : why }.

(** ** The environment *)

(** The team row a mission points at, with its slots. *)
Record TeamMember := {
  tm_id : string;
  tm_agent_id : option string;
  tm_role_label : string;
  tm_capabilities : string;
  tm_max_concurrent : Z;
  tm_spec : option TeamSlotSpec
}.
Record Team := {
  te_enabled : Z;
  te_orchestrator_spec : option TeamSlotSpec;
  te_members : list TeamMember
}.

(** What [actionsService.dispatch] did: the runs it created, and its result. *)
Record Dispatched := { di_runs : list ActionRun; di_result : res string (string * string) }.

(** The collaborators outside the state machine, as functions the engine asks. *)
Record Env := {
  (** [randomUUID()], the n-th call. *)
  env_uuid : nat → string;
  (** [postToRoom] of the n-th message: the error it throws, if it does. *)
  env_post : nat → Post → option string;
  (** [createHash('sha256')...digest('hex')]. *)
  env_sha256hex : string → string;
  (** The spec of the team row an identity had before steps carried their own. *)
  env_legacy_spec : string → option TeamAgentSpec;
  (** [InstanceRegistryService.listForAgent]: live managers of a host. *)
  env_instances : string → list ManagerCapabilitySnapshot;
  (** The host's name, where the lookup knows it. *)
  env_host_name : string → option string;
  (** The mission's team row. *)
  env_team : option Team;
  (** [projects.getInAccount], with the host folders; the name of a project row. *)
  env_project : string → option MissionProject;
  env_project_name : string → option string;
  (** The other missions that are planning, running or paused. *)
  env_others : list OtherMission;
  (** [prepareRuntimes]: the failure it reports, if any host refuses. *)
  env_prepare : list TeamAgentSpec → option string;
  (** [actionRepo.findOne]: the account of an action. *)
  env_action : string → option string;
  (** The n-th [actionsService.dispatch] of an action, under a correlation key. *)
  env_dispatch : nat → string → string → Dispatched;
  (** [orchestrationError] texts. *)
  env_error_message : why → string;
  (** [Number(raw)] of a value that is not a number. *)
  env_Number : jsval → number;
  (** The sentence appended for a [manual] step, and for an exhausted budget. *)
  env_manual_note : string;
  env_budget_note : Z → string
}.

(** ** The monad *)

Definition M (A : Type) : Type := World → res oerr A * World.

#[export] Instance M_ret : MRet M := λ A a w, (Ok a, w).
#[export] Instance M_bind : MBind M := λ A B k m w,
  match m w with
  | (Ok a, w') => k a w'
  | (Err e, w') => (Err e, w')
  end.

Definition throw {A} (code : Z) (y : why) : M A := λ w, (Err {| oe_code := code; oe_why := y |}, w).
Definition throw_if (b : bool) (code : Z) (y : why) : M () := if b then throw code y else mret tt.
Definition gets {A} (f : World → A) : M A := λ w, (Ok (f w), w).
Definition modify (f : World → World) : M () := λ w, (Ok tt, f w).
(** [try { m } catch (e) { h(e) }] *)
Definition try_catch {A} (m : M A) (h : oerr → M A) : M A := λ w,
  match m w with
  | (Ok a, w') => (Ok a, w')
  | (Err e, w') => h e w'
  end.

Definition lift {E A} (code : Z) (f : E → why) (r : res E A) : M A :=
  match r with Ok a => mret a | Err e => throw code (f e) end.

(** [for (const x of l) ...] over an accumulator. *)
Fixpoint loop {A S} (body : S → A → M S) (s : S) (l : list A) : M S :=
  match l with
  | [] => mret s
  | a :: l => s' ← body s a; loop body s' l
  end.

(** The world after a method, and its result. *)
Definition world_of {A} (m : M A) (w : World) : World := snd (m w).
Definition result_of {A} (m : M A) (w : World) : res oerr A := fst (m w).

(** ** Repository operations *)

(** [ORDER BY position ASC, created_at ASC]: rows are kept in creation order. *)
Definition listSteps : M (list Step) := gets (λ w, sort_by st_position (w_steps w)).

Definition find_step (w : World) (id : string) : option Step :=
  List.find (λ s, String.eqb (st_id s) id) (w_steps w).

Definition requireStep (id : string) : M Step := λ w,
  match find_step w id with
  | Some s => (Ok s, w)
  | None => (Err {| oe_code := 404; oe_why := step_not_found |}, w)
  end.

Definition get_mission : M Mission := gets w_mission.

Definition requireMission (accountId : option string) : M Mission :=
  mission ← get_mission;
  match accountId with
  | Some a => if truthy a && negb (String.eqb a (ms_account_id mission))
              then throw 404 mission_not_found else mret mission
  | None => mret mission
  end.

(** [stepRepo.save(step)] *)
Definition put_step (s : Step) (l : list Step) : list Step :=
  List.map (λ x, if String.eqb (st_id x) (st_id s) then s else x) l.
Definition save_step (s : Step) : M () := modify (λ w, w<|w_steps ::= put_step s|>).
Definition save_steps (ss : list Step) : M () :=
  modify (λ w, w<|w_steps ::= λ l, foldl (λ l s, put_step s l) l ss|>).
Definition save_mission (m : Mission) : M () := modify (λ w, w<|w_mission := m|>).
Definition update_mission (f : Mission → Mission) : M () := modify (λ w, w<|w_mission ::= f|>).

Definition recordEvent (type : string) (key : option string) (keys : list string) : M () :=
  modify (λ w, w<|w_events ::= λ l, l ++ [{| ev_type := type; ev_step_key := key; ev_keys := keys;
                                            ev_created_at := w_clock w |}]|>).

(** ** Callers *)

Record Caller := { ca_agentId : string; ca_runtimeKey : option string }.

(** [callerHoldsId] *)
Definition callerHoldsId (caller : Caller) (storedId : option string) : bool :=
  let id := trim (default "" storedId) in
  truthy id && (String.eqb (ca_agentId caller) id
                || match ca_runtimeKey caller with Some k => String.eqb k id | None => false end).

Definition unauthenticated (caller : Caller) : bool :=
  negb (truthy (ca_agentId caller)) &&
  match ca_runtimeKey caller with Some k => negb (truthy k) | None => true end.

Definition requireOrchestrator (mission : Mission) (caller : Caller) : M () :=
  throw_if (unauthenticated caller) 401 not_authenticated;;
  throw_if (negb (callerHoldsId caller (ms_orchestrator_agent_id mission))) 403 not_orchestrator.

Definition requireStepActor (step : Step) (mission : Mission) (caller : Caller) : M () :=
  throw_if (unauthenticated caller) 401 not_authenticated;;
  throw_if (negb (callerHoldsId caller (st_assignee_agent_id step)
                  || callerHoldsId caller (ms_orchestrator_agent_id mission)))
    403 (not_step_actor (st_key step)).

Definition step_view (s : Step) : MissionStepStateView :=
  {| mv_step_key := st_key s; mv_status := st_status s; mv_depends_on := st_depends_on s;
     mv_visit := Some (st_visit s); mv_verdict := Some (st_verdict s) |}.

Definition step_state (s : Step) : GraphNodeState :=
  {| ns_key := st_key s; ns_status := st_status s; ns_visit := st_visit s;
     ns_verdict := Some (st_verdict s) |}.
