(* ===== verification/Logic.v ===== *)
(** * Reasoning about the engine's methods

    [moves R m w]: whatever [m] does when run in [w], and whether it returns or
    throws, the world it leaves is related to [w] by [R].  For a preorder [R]
    the rules below follow the structure of a method, so one proof script covers
    every branch of it. *)

From S2P Require Import Prelude JsStd Vocabulary Plan Graph GraphRun Roster Entities.
#[local] Open Scope Z_scope.

Definition moves (R : World → World → Prop) {A} (m : M A) (w : World) : Prop := R w (snd (m w)).

Section rules.
Context (R : World → World → Prop) `{!PreOrder R}.

Lemma moves_ret {A} (a : A) w : moves R (mret a) w.
Proof. unfold moves; simpl. reflexivity. Qed.

Lemma moves_throw {A} c y w : moves R (throw (A := A) c y) w.
Proof. unfold moves; simpl. reflexivity. Qed.

Lemma moves_throw_if b c y w : moves R (throw_if b c y) w.
Proof. destruct b; unfold moves; simpl; reflexivity. Qed.

Lemma moves_gets {A} (f : World → A) w : moves R (gets f) w.
Proof. unfold moves; simpl. reflexivity. Qed.

Lemma moves_requireStep id w : moves R (requireStep id) w.
Proof. unfold moves, requireStep. destruct (find_step w id); simpl; reflexivity. Qed.

Lemma moves_lift {E A} c (f : E → why) (r : res E A) w : moves R (lift c f r) w.
Proof. destruct r; unfold moves; simpl; reflexivity. Qed.

Lemma moves_modify f w : R w (f w) → moves R (modify f) w.
Proof. done. Qed.

Lemma moves_bind {A B} (m : M A) (k : A → M B) w :
  moves R m w → (∀ a w', m w = (Ok a, w') → moves R (k a) w') → moves R (m ≫= k) w.
Proof.
  unfold moves, mbind, M_bind. intros Hm Hk. destruct (m w) as [[a|e] w'] eqn:E; simpl in *; [|done].
  etransitivity; [exact Hm|]. by apply Hk.
Qed.

Lemma moves_bind_all {A B} (m : M A) (k : A → M B) w :
  moves R m w → (∀ a w', moves R (k a) w') → moves R (m ≫= k) w.
Proof. intros Hm Hk. apply moves_bind; auto. Qed.

(** A read leaves the world in place, so the rest is judged in the same world. *)
Lemma moves_gets_bind {A B} (f : World → A) (k : A → M B) w :
  moves R (k (f w)) w → moves R (gets f ≫= k) w.
Proof. done. Qed.

Lemma moves_try {A} (m : M A) h w :
  moves R m w → (∀ e w', m w = (Err e, w') → moves R (h e) w') → moves R (try_catch m h) w.
Proof.
  unfold moves, try_catch. intros Hm Hh. destruct (m w) as [[a|e] w'] eqn:E; simpl in *; [done|].
  etransitivity; [exact Hm|]. by apply Hh.
Qed.

Lemma moves_loop {A S} (body : S → A → M S) l : ∀ s w,
  (∀ s a w, a ∈ l → moves R (body s a) w) → moves R (loop body s l) w.
Proof.
  induction l as [|a l IH]; intros s w Hb; simpl; [apply moves_ret|].
  apply moves_bind; [apply Hb, list_elem_of_here|]. intros s' w' _. apply IH.
  intros s1 b w1 Hin. by apply Hb, list_elem_of_further.
Qed.

(** A relation a write keeps at every world. *)
Lemma moves_modify_all f w : (∀ v, R v (f v)) → moves R (modify f) w.
Proof. intros H. apply H. Qed.
End rules.

(** Guards and reads, with what they establish for the rest of the method. *)
Section guards.
Context (R : World → World → Prop) `{!PreOrder R}.

Lemma moves_guard {B} b c y (k : () → M B) w :
  (b = false → moves R (k tt) w) → moves R (throw_if b c y ≫= k) w.
Proof.
  destruct b; intros H; [|by apply H]. unfold moves. simpl. reflexivity.
Qed.

(** A check that passes leaves the world as it was. *)
Lemma moves_check_bind {A B} (m : M A) (k : A → M B) w :
  (∀ a w', m w = (Ok a, w') → w' = w) → moves R m w → (∀ a, m w = (Ok a, w) → moves R (k a) w) →
  moves R (m ≫= k) w.
Proof.
  intros Hsame Hm Hk. unfold moves, mbind, M_bind in *. destruct (m w) as [[a|e] w'] eqn:E; [|exact Hm].
  pose proof (Hsame _ _ eq_refl) as ->. by apply Hk.
Qed.

Lemma moves_requireMission_bind {B} a (k : Mission → M B) w :
  moves R (k (w_mission w)) w → moves R (requireMission a ≫= k) w.
Proof.
  intros H. unfold moves, requireMission, mbind, M_bind, get_mission, gets.
  destruct a as [a|]; [|exact H]. destruct (truthy a && _); [simpl; reflexivity|exact H].
Qed.

Lemma moves_requireStep_bind {B} id (k : Step → M B) w :
  (∀ s, s ∈ w_steps w → st_id s = id → moves R (k s) w) → moves R (requireStep id ≫= k) w.
Proof.
  intros H. unfold moves, mbind, M_bind, requireStep.
  destruct (find_step w id) as [s|] eqn:E; [|simpl; reflexivity].
  apply find_Some_elem in E as [Hin He]. apply String.eqb_eq in He. by apply H.
Qed.

Lemma moves_requireOrchestrator_bind {B} m c (k : () → M B) w :
  (unauthenticated c = false → callerHoldsId c (ms_orchestrator_agent_id m) = true → moves R (k tt) w) →
  moves R (requireOrchestrator m c ≫= k) w.
Proof.
  intros H. unfold moves, requireOrchestrator, mbind, M_bind.
  destruct (unauthenticated c); [simpl; reflexivity|]. destruct (callerHoldsId _ _); [by apply H|simpl; reflexivity].
Qed.

Lemma moves_requireStepActor_bind {B} s m c (k : () → M B) w :
  moves R (k tt) w → moves R (requireStepActor s m c ≫= k) w.
Proof.
  intros H. unfold moves, requireStepActor, mbind, M_bind.
  destruct (unauthenticated c); [simpl; reflexivity|]. destruct (_ || _); [exact H|simpl; reflexivity].
Qed.
End guards.

(** One rule of the logic, by the shape of the method.  The lemmas about whole
    methods are in the database [moves]. *)
Create HintDb moves.

Ltac moves_class := try typeclasses eauto.
Ltac moves_step :=
  match goal with
  | |- moves _ (mret _) _ => apply moves_ret; moves_class
  | |- moves _ (throw _ _) _ => apply moves_throw; moves_class
  | |- moves _ (throw_if _ _ _) _ => apply moves_throw_if; moves_class
  | |- moves _ (gets _) _ => apply moves_gets; moves_class
  | |- moves _ (requireStep _) _ => apply moves_requireStep; moves_class
  | |- moves _ (lift _ _ _) _ => apply moves_lift; moves_class
  | |- moves _ get_mission _ => apply moves_gets; moves_class
  | |- moves _ listSteps _ => apply moves_gets; moves_class
  | |- moves _ (get_mission ≫= _) _ => apply moves_gets_bind
  | |- moves _ (listSteps ≫= _) _ => apply moves_gets_bind
  | |- moves _ (throw_if _ _ _ ≫= _) _ => apply moves_guard; [moves_class|intros ?]
  | |- moves _ (requireMission _ ≫= _) _ => apply moves_requireMission_bind; [moves_class|]
  | |- moves _ (requireStep _ ≫= _) _ => apply moves_requireStep_bind; [moves_class|intros ? ? ?]
  | |- moves _ (requireOrchestrator _ _ ≫= _) _ =>
      apply moves_requireOrchestrator_bind; [moves_class|intros ? ?]
  | |- moves _ (requireStepActor _ _ _ ≫= _) _ => apply moves_requireStepActor_bind; [moves_class|]
  | |- moves _ (_ ≫= _) _ => apply moves_bind_all; [moves_class| |intros ? ?]
  | |- moves _ (try_catch _ _) _ => apply moves_try; [moves_class| |intros ? ? _]
  | |- moves _ (let '(_, _) := ?x in _) _ => destruct x
  | |- moves _ (match ?x with _ => _ end) _ => destruct x eqn:?
  | |- moves _ (if ?x then _ else _) _ => destruct x eqn:?
  end.
Ltac moves_auto := repeat (first [solve [auto 2 with moves] | moves_step; cbv beta zeta]).

(** ** Results of the primitives *)

Lemma bind_run {A B} (m : M A) (k : A → M B) w a w' :
  m w = (Ok a, w') → (m ≫= k) w = k a w'.
Proof. intros H. unfold mbind, M_bind. by rewrite H. Qed.

Lemma bind_Ok_inv {A B} (m : M A) (k : A → M B) w b w2 :
  (m ≫= k) w = (Ok b, w2) → ∃ a w1, m w = (Ok a, w1) ∧ k a w1 = (Ok b, w2).
Proof. unfold mbind, M_bind. destruct (m w) as [[a|e] w1]; [eauto|discriminate]. Qed.

Lemma throw_if_Ok b c y w u w' : throw_if b c y w = (Ok u, w') → b = false ∧ w' = w.
Proof. destruct b; simpl; [discriminate|]. intros [= _ ->]. done. Qed.

Lemma requireStep_Ok id w s w' : requireStep id w = (Ok s, w') → w' = w ∧ find_step w id = Some s.
Proof. unfold requireStep. destruct (find_step w id); [intros [= -> ->]; done|discriminate]. Qed.

Lemma find_step_Some w id s : find_step w id = Some s → s ∈ w_steps w ∧ st_id s = id.
Proof. intros H. apply find_Some_elem in H as [? He]. by apply String.eqb_eq in He. Qed.

Lemma requireMission_Ok a w m w' : requireMission a w = (Ok m, w') → w' = w ∧ m = w_mission w.
Proof.
  unfold requireMission, mbind, M_bind, get_mission, gets. destruct a as [a|]; [|by intros [= -> ->]].
  destruct (truthy a && _); [discriminate|]. by intros [= -> ->].
Qed.

Lemma moves_requireMission R `{!PreOrder R} a w : moves R (requireMission a) w.
Proof. unfold requireMission. moves_auto. Qed.

Lemma moves_requireOrchestrator R `{!PreOrder R} m c w : moves R (requireOrchestrator m c) w.
Proof. unfold requireOrchestrator. moves_auto. Qed.

Lemma moves_requireStepActor R `{!PreOrder R} s m c w : moves R (requireStepActor s m c) w.
Proof. unfold requireStepActor. moves_auto. Qed.

#[export] Hint Extern 1 (moves _ (requireMission _) _) => apply moves_requireMission; typeclasses eauto : moves.
#[export] Hint Extern 1 (moves _ (requireOrchestrator _ _) _) =>
  apply moves_requireOrchestrator; typeclasses eauto : moves.
#[export] Hint Extern 1 (moves _ (requireStepActor _ _ _) _) =>
  apply moves_requireStepActor; typeclasses eauto : moves.

(** ** Rows *)

Lemma put_step_ids s l : List.map st_id (put_step s l) = List.map st_id l.
Proof.
  unfold put_step. rewrite List.map_map. apply List.map_ext. intros x.
  destruct (String.eqb (st_id x) (st_id s)) eqn:E; [|done]. apply String.eqb_eq in E. done.
Qed.

Lemma elem_of_put_step x s l : x ∈ put_step s l → x = s ∨ x ∈ l ∧ st_id x ≠ st_id s.
Proof.
  unfold put_step. intros (y & -> & Hy)%elem_of_map.
  destruct (String.eqb (st_id y) (st_id s)) eqn:E; [by left|right]. apply String.eqb_neq in E. done.
Qed.

Lemma put_step_present s l : st_id s ∈ List.map st_id l → s ∈ put_step s l.
Proof.
  intros (y & He & Hy)%elem_of_map. unfold put_step. apply elem_of_map. exists y. split; [|done].
  by rewrite He, String.eqb_refl.
Qed.

Lemma put_step_kept x s l : x ∈ l → st_id x ≠ st_id s → x ∈ put_step s l.
Proof.
  intros Hx Hne. unfold put_step. apply elem_of_map. exists x. split; [|done].
  apply String.eqb_neq in Hne. by rewrite Hne.
Qed.

(** Saving a step with the key it had keeps the keys. *)
Lemma put_step_keys s l :
  (∀ x, x ∈ l → st_id x = st_id s → st_key x = st_key s) → List.map st_key (put_step s l) = List.map st_key l.
Proof.
  intros H. unfold put_step. rewrite List.map_map. apply map_ext_in. intros x Hx.
  apply list_elem_of_In in Hx. destruct (String.eqb (st_id x) (st_id s)) eqn:E; [|done].
  apply String.eqb_eq in E. symmetry. by apply H.
Qed.

(** Saving updated versions of some of the rows updates exactly those. *)
Lemma save_each (f g : Step → Step) q : ∀ l,
  NoDup (List.map st_id l) → (∀ x, x ∈ q → x ∈ l) →
  (∀ x, st_id (f x) = st_id x) → (∀ x, st_id (g x) = st_id x) →
  foldl (λ l s, put_step s l) (List.map g l) (List.map f q)
  = List.map (λ s, if includes (List.map st_id q) (st_id s) then f s else g s) l.
Proof.
  revert g. induction q as [|a q IH]; intros g l Hnd Hq Hf Hg; [done|]. cbn [List.map foldl].
  assert (Hput : put_step (f a) (List.map g l) = List.map (λ s, if String.eqb (st_id s) (st_id a) then f s else g s) l).
  { unfold put_step. rewrite List.map_map. apply map_ext_in. intros x Hx. rewrite Hg, Hf.
    destruct (String.eqb (st_id x) (st_id a)) eqn:E; [|done]. apply String.eqb_eq in E.
    assert (x = a) as ->; [|done]. apply (NoDup_fmap_inj_on st_id l); [done|by apply list_elem_of_In| |done].
    apply Hq, list_elem_of_here. }
  rewrite Hput, IH; [|done|intros x Hx; by apply Hq, list_elem_of_further|done|].
  - apply List.map_ext. intros x. cbn [List.map]. rewrite includes_cons, (String.eqb_sym (st_id a)).
    destruct (String.eqb (st_id x) (st_id a)), (includes (List.map st_id q) (st_id x)); done.
  - intros x. by destruct (String.eqb _ _).
Qed.

(** Updating the open rows of a listing updates the open rows. *)
Lemma save_filtered (f : Step → Step) (p : Step → bool) l l' :
  NoDup (List.map st_id l) → l' ≡ₚ l → (∀ x, st_id (f x) = st_id x) →
  foldl (λ l s, put_step s l) l (List.map f (lfilter p l')) = List.map (λ s, if p s then f s else s) l.
Proof.
  intros Hnd Hp Hf. rewrite <- (List.map_id l) at 1. rewrite save_each; [|done| |done|done].
  - apply map_ext_in. intros x Hx. apply list_elem_of_In in Hx.
    destruct (includes _ (st_id x)) eqn:E.
    + apply includes_true in E. apply elem_of_map in E as (y & Hy & Hin).
      apply elem_of_lfilter in Hin as [Hin Hpy]. rewrite Hp in Hin.
      assert (x = y) as -> by (by apply (NoDup_fmap_inj_on st_id l)). by rewrite Hpy.
    + apply includes_false in E. destruct (p x) eqn:Ep; [|done]. exfalso. apply E, elem_of_map.
      exists x. split; [done|]. apply elem_of_lfilter. by rewrite Hp.
  - intros x Hx. apply elem_of_lfilter in Hx as [Hx _]. by rewrite Hp in Hx.
Qed.

(** ** Running a method step by step *)

Lemma run_gets {A B} (f : World → A) (k : A → M B) w : (gets f ≫= k) w = k (f w) w.
Proof. done. Qed.

Lemma run_guard {B} b c y (k : () → M B) w :
  (throw_if b c y ≫= k) w = if b then (Err {| oe_code := c; oe_why := y |}, w) else k tt w.
Proof. by destruct b. Qed.

Lemma run_requireMission {B} (k : Mission → M B) w : (requireMission None ≫= k) w = k (w_mission w) w.
Proof. done. Qed.

Lemma run_requireOrchestrator {B} m c (k : () → M B) w :
  (requireOrchestrator m c ≫= k) w =
  if unauthenticated c then (Err {| oe_code := 401; oe_why := not_authenticated |}, w)
  else if callerHoldsId c (ms_orchestrator_agent_id m) then k tt w
  else (Err {| oe_code := 403; oe_why := not_orchestrator |}, w).
Proof.
  unfold requireOrchestrator, mbind, M_bind. destruct (unauthenticated c); [done|]. by destruct (callerHoldsId _ _).
Qed.

Lemma run_requireStep {B} id (k : Step → M B) w :
  (requireStep id ≫= k) w =
  match find_step w id with
  | Some s => k s w
  | None => (Err {| oe_code := 404; oe_why := step_not_found |}, w)
  end.
Proof. unfold mbind, M_bind, requireStep. by destruct (find_step w id). Qed.
