(* ===== verification/Samples.v ===== *)
(** * Sample worlds

    Concrete environments, missions and steps the witnesses evaluate the model
    on. *)

From S2P Require Import Prelude JsStd Vocabulary Plan Graph GraphRun Roster Entities.
From stdpp Require Import pretty.
#[local] Open Scope Z_scope.

Definition sample_spec : TeamAgentSpec :=
  {| ta_slot := rs_spec (sample_slot "m1" "h1"); ta_working_dir := "/srv/core"; ta_folder_scope := shared |}.

Definition sample_env : Env := {|
  env_uuid := λ n, "uuid-" +:+ pretty n;
  env_post := λ _ _, None;
  env_sha256hex := λ s, s;
  env_legacy_spec := λ _, None;
  env_instances := λ _, [];
  env_host_name := λ _, None;
  env_team := Some {| te_enabled := 1; te_orchestrator_spec := Some (rs_spec (sample_slot "o" "h1"));
                      te_members := [{| tm_id := "m1"; tm_agent_id := None; tm_role_label := "dev";
                                        tm_capabilities := ""; tm_max_concurrent := 1;
                                        tm_spec := Some (rs_spec (sample_slot "m1" "h1")) |}] |};
  env_project := λ id, if String.eqb id "p1" then Some sample_project else None;
  env_project_name := λ id, if String.eqb id "p1" then Some "Core" else None;
  env_others := [];
  env_prepare := λ _, None;
  env_action := λ _, Some "acc";
  env_dispatch := λ n id trigger,
    {| di_runs := [{| rn_action_id := id; rn_triggered_by_id := trigger;
                      rn_id := "run-" +:+ pretty n; rn_room_id := "room" |}];
       di_result := Ok ("run-" +:+ pretty n, "room") |};
  env_error_message := λ _, "error";
  env_Number := λ _, JNonInt "NaN";
  env_manual_note := "manual";
  env_budget_note := λ _, "budget"
|}.

Definition sample_mission (status : string) : Mission := {|
  ms_id := "mission"; ms_account_id := "acc";
  ms_orchestrator_agent_id := Some "orch"; ms_orchestrator_spec := None;
  ms_status := status; ms_room_id := Some "room"; ms_runtime_roster := Some sample_roster;
  ms_folder_scope := shared; ms_project_ids := ["p1"]; ms_excluded_member_ids := []; ms_extra_members := [];
  ms_plan_version := 1; ms_max_plan_versions := 5; ms_max_steps := 20; ms_max_parallel_steps := 2;
  ms_graph_enabled := false; ms_graph_spec := None; ms_graph_revision := 0; ms_total_visits := 0;
  ms_confirm_policy := "auto"; ms_completion_criteria := None;
  ms_post_actions := None; ms_post_actions_pending := false;
  ms_plan_summary := ""; ms_result_summary := ""; ms_failure_reason := "";
  ms_step_timeout_minutes := 30; ms_created_at := Some 0;
  ms_started_at := Some 0; ms_finished_at := None
|}.

Definition sample_step (key status : string) (deps : list string) (position : Z) : Step := {|
  st_id := "id-" +:+ key; st_key := key; st_title := key; st_instructions := "";
  st_acceptance_criteria := ""; st_depends_on := Some deps;
  st_assignee_slot := Some "m1"; st_project_id := Some "p1"; st_assignee_agent_id := Some "agent";
  st_assignee_spec := Some sample_spec; st_status := status; st_position := position;
  st_plan_version := 1; st_room_id := None; st_result_summary := ""; st_artifacts := None;
  st_attempt := 0; st_max_attempts := 2; st_lease_token := ""; st_last_heartbeat_at := None;
  st_retry_policy := "auto"; st_recovery_reason := ""; st_checkpoint := None; st_checkpoint_at := None;
  st_lease_stale_since := None; st_auto_blocked := false; st_visit := 0; st_verdict := "";
  st_confirm_decision := None; st_dispatched_at := None; st_started_at := None; st_finished_at := None
|}.

Definition sample_world (status : string) (steps : list Step) : World := {|
  w_mission := sample_mission status; w_steps := steps; w_events := []; w_posts := [];
  w_nonce := 0; w_runs := []; w_dispatch_calls := []; w_clock := 0
|}.

Definition the_orchestrator : Caller := {| ca_agentId := "orch"; ca_runtimeKey := None |}.
Definition the_agent : Caller := {| ca_agentId := "agent"; ca_runtimeKey := None |}.

(** Distinct tokens a witness can reason about. *)
Definition unary_uuid (n : nat) : string := Nat.iter n (String "a"%char) "u".
Definition fenced_env : Env := sample_env<|env_uuid := unary_uuid|>.

Lemma unary_uuid_length n : String.length (unary_uuid n) = S n.
Proof. induction n as [|n IH]; [done|]. change (S (String.length (unary_uuid n)) = S (S n)). by rewrite IH. Qed.

Lemma unary_uuid_trim n : trim (unary_uuid n) = unary_uuid n.
Proof.
  apply (all_chars_not (λ c, negb (is_space c))); [|intros c H; by apply negb_true_iff in H].
  induction n as [|n IH]; [done|]. exact IH.
Qed.

Lemma unary_uuid_inj n m : unary_uuid n = unary_uuid m → n = m.
Proof. intros He. apply (f_equal String.length) in He. rewrite !unary_uuid_length in He. congruence. Qed.
