(* ===== verification/PostActions.v ===== *)
(** * Post-actions, and the crashes they survive

    [runPostActions] and [recoverPostActions]: the actions a mission fires when it
    is completed.  The process may die between any two writes, so the methods
    are modelled in a monad in which every write to the database and every
    effect of a dispatch spends one unit of the life the process has left.  A run
    reads the clock once; the source reads it again for every entry. *)

From S2P Require Import Prelude JsStd Vocabulary Entities Samples.
From stdpp Require Import pretty.
#[local] Open Scope Z_scope.

(** ** Runs that may die *)

(** The writes the process lives for; [None] when nothing kills it. *)
Definition life : Type := option nat.

(** The result is [None] when the process died on the way. *)
Definition C (A : Type) : Type := World → life → option A * World * life.

#[export] Instance C_ret : MRet C := λ A a w n, (Some a, w, n).
#[export] Instance C_bind : MBind C := λ A B k m w n,
  match m w n with
  | (Some a, w', n') => k a w' n'
  | (None, w', n') => (None, w', n')
  end.

Definition getsC {A} (f : World → A) : C A := λ w n, (Some (f w), w, n).

(** One write. *)
Definition durable (f : World → World) : C () := λ w n,
  match n with
  | Some O => (None, w, Some O)
  | Some (S n') => (Some tt, f w, Some n')
  | None => (Some tt, f w, None)
  end.

Fixpoint durables (fs : list (World → World)) : C () :=
  match fs with
  | [] => mret tt
  | f :: fs => durable f;; durables fs
  end.

(** ** The methods *)

Section post_actions.
Context (env : Env).

Definition postActionTriggerId (missionId : string) (order : Z) : string :=
  "orchestration:" +:+ missionId +:+ ":" +:+ pretty order.

Definition is_unsettled (p : MissionPostAction) : bool :=
  bool_decide (pa_status p = pa_pending) || bool_decide (pa_status p = pa_in_flight).

(** [syncPostActionsPendingFlag], then [missionRepo.save]. *)
Definition store_actions (l : list MissionPostAction) (m : Mission) : Mission :=
  m<|ms_post_actions := Some l|><|ms_post_actions_pending := lsome is_unsettled l|>.

Definition save_actions (l : list MissionPostAction) : C () :=
  durable (λ w, w<|w_mission ::= store_actions l|>).

Definition eventC (type : string) : C () :=
  durable (λ w, w<|w_events ::= λ l, l ++ [{| ev_type := type; ev_step_key := None; ev_keys := [];
                                             ev_created_at := w_clock w |}]|>).

Definition is_stale (now : Z) (pa : MissionPostAction) : bool :=
  match pa_dispatched_at pa with
  | None => true
  | Some t => POST_ACTION_STALE_IN_FLIGHT_MS <=? now - t
  end.

(** The newest run recorded under a correlation key. *)
Definition existing_run (runs : list ActionRun) (action_id trigger : string) : option ActionRun :=
  List.find (λ r, String.eqb (rn_action_id r) action_id && String.eqb (rn_triggered_by_id r) trigger)
    (reverse runs).

Definition mark_skipped (p : MissionPostAction) : MissionPostAction := p<|pa_status := pa_skipped|>.
Definition mark_in_flight (now : Z) (p : MissionPostAction) : MissionPostAction :=
  p<|pa_status := pa_in_flight|><|pa_dispatched_at := Some now|>.
Definition mark_dispatched (run room : string) (p : MissionPostAction) : MissionPostAction :=
  p<|pa_status := pa_dispatched|><|pa_run_id := Some run|><|pa_room_id := Some room|><|pa_error := ""|>.
Definition mark_failed (error : string) (p : MissionPostAction) : MissionPostAction :=
  p<|pa_status := pa_dispatch_failed|><|pa_error := error|>.

Definition lost_message : string := "[no matching run]".

(** The [try] block up to [actionsService.dispatch], and its result. *)
Definition dispatch_action (missionId accountId : string) (pa : MissionPostAction)
    : C (res string (string * string)) :=
  match env_action env (pa_action_id pa) with
  | None => mret (Err "action not found")
  | Some account =>
      if negb (String.eqb account accountId) then mret (Err "action belongs to a different account")
      else
        let trigger := postActionTriggerId missionId (pa_order pa) in
        calls ← getsC w_dispatch_calls;
        let d := env_dispatch env (length calls) (pa_action_id pa) trigger in
        durable (λ w, w<|w_dispatch_calls ::= λ l, l ++ [trigger]|>);;
        durables (List.map (λ r w, w<|w_runs ::= λ l, l ++ [r]|>) (di_runs d));;
        mret (di_result d)
  end.

(** One iteration of the loop; [save] stores the whole list with this entry. *)
Definition run_one (now : Z) (missionId accountId status : string)
    (save : MissionPostAction → C ()) (pa : MissionPostAction) : C MissionPostAction :=
  let settle_as (event : string) (p : MissionPostAction) : C MissionPostAction :=
    save p;; eventC event;; mret p in
  match pa_status pa with
  | pa_in_flight =>
      if negb (is_stale now pa) then mret pa
      else
        runs ← getsC w_runs;
        match existing_run runs (pa_action_id pa) (postActionTriggerId missionId (pa_order pa)) with
        | Some r => settle_as "post_action_dispatched" (mark_dispatched (rn_id r) (rn_room_id r) pa)
        | None => settle_as "post_action_dispatch_failed" (mark_failed lost_message pa)
        end
  | pa_pending =>
      if negb (postActionApplies (pa_condition pa) status)
      then settle_as "post_action_skipped" (mark_skipped pa)
      else
        let pa := mark_in_flight now pa in
        save pa;;
        outcome ← dispatch_action missionId accountId pa;
        match outcome with
        | Ok (run, room) => settle_as "post_action_dispatched" (mark_dispatched run room pa)
        | Err message => settle_as "post_action_dispatch_failed" (mark_failed (slice 1000 message) pa)
        end
  | _ => mret pa
  end.

Fixpoint run_all (now : Z) (missionId accountId status : string)
    (done todo : list MissionPostAction) : C () :=
  match todo with
  | [] => mret tt
  | pa :: rest =>
      pa' ← run_one now missionId accountId status (λ p, save_actions (done ++ p :: rest)) pa;
      run_all now missionId accountId status (done ++ [pa']) rest
  end.

Definition runPostActions (now : Z) : C () :=
  mission ← getsC w_mission;
  match default [] (ms_post_actions mission) with
  | [] => mret tt
  | l => run_all now (ms_id mission) (ms_account_id mission) (ms_status mission) [] (sort_by pa_order l)
  end.

Definition recoverPostActions (now : Z) : C () :=
  mission ← getsC w_mission;
  if negb (isTerminalMissionStatus (ms_status mission)) then mret tt else runPostActions now.

(** Any number of runs, each cut short wherever its life ends. *)
Fixpoint recoveries (lives : list (Z * life)) (w : World) : World :=
  match lives with
  | [] => w
  | (now, n) :: rest => let '(_, w', _) := recoverPostActions now w n in recoveries rest w'
  end.
End post_actions.

(** ** Reasoning about runs that may die

    [triple I P m Q]: started where [P] holds, [m] keeps [I] on every write, and
    [Q] holds if it returns. *)

Definition triple {A} (I P : World → Prop) (m : C A) (Q : A → World → Prop) : Prop :=
  ∀ w n, P w → match m w n with
               | (Some a, w', _) => Q a w' ∧ I w'
               | (None, w', _) => I w'
               end.

Lemma triple_ret {A} I P (a : A) (Q : A → World → Prop) :
  (∀ w, P w → Q a w ∧ I w) → triple I P (mret a) Q.
Proof. intros H w n Hw. simpl. auto. Qed.

Lemma triple_bind {A B} I P (m : C A) (k : A → C B) (R : A → World → Prop) Q :
  triple I P m R → (∀ a, triple I (R a) (k a) Q) → triple I P (m ≫= k) Q.
Proof.
  intros Hm Hk w n Hw. specialize (Hm w n Hw). unfold mbind, C_bind.
  destruct (m w n) as [[[a|] w'] n']; [|exact Hm]. destruct Hm as [Hr _]. by apply Hk.
Qed.

Lemma triple_gets {A} I P (f : World → A) (Q : A → World → Prop) :
  (∀ w, P w → Q (f w) w ∧ I w) → triple I P (getsC f) Q.
Proof. intros H w n Hw. simpl. auto. Qed.

Lemma triple_durable I P f (Q : () → World → Prop) :
  (∀ w, P w → I w) → (∀ w, P w → Q tt (f w) ∧ I (f w)) → triple I P (durable f) Q.
Proof. intros HP H w [[|n]|] Hw; simpl; auto. Qed.

Lemma triple_durables I P fs :
  (∀ w, P w → I w) → (∀ f w, f ∈ fs → P w → P (f w)) → triple I P (durables fs) (λ _, P).
Proof.
  intros HI. induction fs as [|f fs IH]; intros Hf; simpl.
  - apply triple_ret. auto.
  - apply (triple_bind _ _ _ _ (λ _, P)).
    + apply triple_durable; [done|]. intros w Hw. split; [|apply HI]; apply Hf; auto; apply list_elem_of_here.
    + intros _. apply IH. intros g w Hg. apply Hf. by apply list_elem_of_further.
Qed.

Lemma triple_weaken {A} I (P P' : World → Prop) (m : C A) (Q Q' : A → World → Prop) :
  triple I P' m Q' → (∀ w, P w → P' w) → (∀ a w, Q' a w → Q a w) → triple I P m Q.
Proof.
  intros H HP HQ w n Hw. specialize (H w n (HP w Hw)).
  destruct (m w n) as [[[a|] w'] n']; [destruct H; split; auto|exact H].
Qed.

(** ** Order of the actions *)

Lemma postActionTriggerId_inj id o1 o2 :
  postActionTriggerId id o1 = postActionTriggerId id o2 → o1 = o2.
Proof.
  unfold postActionTriggerId. intros H.
  repeat match type of H with (?a +:+ _) = (?a +:+ _) => apply (inj (String.append a)) in H end.
  by apply (inj pretty) in H.
Qed.

(** The orders [normalizePostActions] gives are the positions, so they differ. *)
Lemma normalize_post_actions_orders l : ∀ out,
  List.map pa_order out = List.map Z.of_nat (seq 0 (length out)) →
  let out' := foldl normalize_post_action out l in
  List.map pa_order out' = List.map Z.of_nat (seq 0 (length out')).
Proof.
  induction l as [|x l IH]; intros out H; simpl; [done|]. apply IH.
  unfold normalize_post_action. destruct (negb _); [done|].
  rewrite List.length_app. simpl. rewrite Nat.add_1_r, seq_S, !List.map_app, H. done.
Qed.

Lemma normalizePostActions_orders input l :
  normalizePostActions input = Ok l → NoDup (List.map pa_order l) ∧ ∀ p, p ∈ l → pa_status p = pa_pending.
Proof.
  unfold normalizePostActions. intros H.
  assert (Hl : ∃ items, l = foldl normalize_post_action [] items).
  { destruct (is_nullish input); [injection H as <-; by exists []|].
    destruct input; try discriminate. injection H as <-. eauto. }
  destruct Hl as [items ->]. split.
  - rewrite normalize_post_actions_orders by done.
    apply (NoDup_fmap_2 Z.of_nat), NoDup_seq.
  - cut (∀ items out, (∀ p, p ∈ out → pa_status p = pa_pending) →
           ∀ p, p ∈ foldl normalize_post_action out items → pa_status p = pa_pending).
    { intros Hc. apply Hc. intros p Hp. inversion Hp. }
    clear. induction items as [|x items IH]; intros out Ho; simpl; [done|]. apply IH.
    unfold normalize_post_action. destruct (negb _); [done|].
    intros p [Hp|Hp]%elem_of_app; [auto|]. by apply list_elem_of_singleton in Hp as ->.
Qed.

(** ** At most once *)

Section at_most_once.
Context (env : Env) (id account status : string).

Definition actions_of (w : World) : list MissionPostAction := default [] (ms_post_actions (w_mission w)).
Definition trigger_of (p : MissionPostAction) : string := postActionTriggerId id (pa_order p).

(** What every write keeps. *)
Record pa_inv (w : World) : Prop := {
  inv_id : ms_id (w_mission w) = id;
  inv_account : ms_account_id (w_mission w) = account;
  inv_status : ms_status (w_mission w) = status;
  inv_orders : NoDup (List.map pa_order (actions_of w));
  inv_calls : NoDup (w_dispatch_calls w);
  inv_pending : ∀ p, p ∈ actions_of w → pa_status p = pa_pending → trigger_of p ∉ w_dispatch_calls w;
  inv_entitled : ∀ t, t ∈ w_dispatch_calls w → ∃ p, p ∈ actions_of w ∧ t = trigger_of p ∧
    postActionApplies (pa_condition p) status = true ∧ env_action env (pa_action_id p) = Some account
}.

Definition same_action (p q : MissionPostAction) : Prop :=
  pa_order p = pa_order q ∧ pa_condition p = pa_condition q ∧ pa_action_id p = pa_action_id q.

(** Saving the list with one entry moved on keeps the invariant. *)
Lemma pa_inv_store w pre p q rest :
  pa_inv w → pre ++ p :: rest ≡ₚ actions_of w → same_action q p → pa_status q ≠ pa_pending →
  pa_inv (w<|w_mission ::= store_actions (pre ++ q :: rest)|>).
Proof.
  intros Hi Hp (Ho & Hc & Ha) Hq. destruct Hi as [? ? ? Hor Hca Hpe Hen].
  assert (Hmap : List.map pa_order (pre ++ q :: rest) = List.map pa_order (pre ++ p :: rest))
    by (rewrite !List.map_app; simpl; by rewrite Ho).
  constructor; simpl; try done.
  - unfold actions_of; simpl. rewrite Hmap. by rewrite (Permutation_map pa_order Hp).
  - unfold actions_of; simpl. intros r Hr Hs. apply Hpe; [|done]. rewrite <- Hp.
    rewrite elem_of_app, elem_of_cons in *. destruct Hr as [?|[->|?]]; [auto|done|auto].
  - unfold actions_of; simpl. intros t Ht. destruct (Hen t Ht) as (r & Hr & -> & Hap & Hac).
    rewrite <- Hp, elem_of_app, elem_of_cons in Hr.
    destruct Hr as [Hr|[->|Hr]].
    + exists r. split; [|done]. apply elem_of_app. by left.
    + exists q. unfold trigger_of. rewrite Ho, Hc, Ha. split; [|done]. apply elem_of_app. right. apply list_elem_of_here.
    + exists r. split; [|done]. apply elem_of_app. right. by apply list_elem_of_further.
Qed.

Lemma pa_inv_event w type :
  pa_inv w → pa_inv (w<|w_events ::= λ l, l ++ [{| ev_type := type; ev_step_key := None; ev_keys := [];
                                                  ev_created_at := w_clock w |}]|>).
Proof. intros [? ? ? ? ? ? ?]. by constructor. Qed.

Lemma pa_inv_run w r : pa_inv w → pa_inv (w<|w_runs ::= λ l, l ++ [r]|>).
Proof. intros [? ? ? ? ? ? ?]. by constructor. Qed.

(** A call is entitled once its entry is stored as in flight. *)
Lemma pa_inv_call w p :
  pa_inv w → p ∈ actions_of w → pa_status p = pa_in_flight → trigger_of p ∉ w_dispatch_calls w →
  postActionApplies (pa_condition p) status = true → env_action env (pa_action_id p) = Some account →
  pa_inv (w<|w_dispatch_calls ::= λ l, l ++ [trigger_of p]|>).
Proof.
  intros [? ? ? Hor Hca Hpe Hen] Hp Hs Ht Hap Hac. constructor; simpl; try done.
  - by apply NoDup_snoc.
  - intros q Hq Hqs [Hx|Hx]%elem_of_app; [by apply (Hpe q)|].
    apply list_elem_of_singleton, postActionTriggerId_inj in Hx.
    assert (q = p) as -> by (by eapply (NoDup_fmap_inj_on pa_order)). congruence.
  - intros t [Hx|Hx]%elem_of_app; [by apply Hen|]. apply list_elem_of_singleton in Hx as ->. eauto 6.
Qed.

(** The state of the loop: the list in memory is the stored one, reordered. *)
Definition loop_at (l : list MissionPostAction) (w : World) : Prop := pa_inv w ∧ l ≡ₚ actions_of w.

Definition stored (l : list MissionPostAction) (w : World) : Prop := pa_inv w ∧ actions_of w = l.

Lemma stored_loop l w : stored l w → loop_at l w.
Proof. intros [? <-]. by split. Qed.

Lemma settle_as_triple pre p q rest event :
  same_action q p → pa_status q ≠ pa_pending →
  triple pa_inv (loop_at (pre ++ p :: rest))
    (save_actions (pre ++ q :: rest);; eventC event;; mret q)
    (λ r, stored (pre ++ r :: rest)).
Proof.
  intros Hs Hq. apply (triple_bind _ _ _ _ (λ _, stored (pre ++ q :: rest))).
  - apply triple_durable; [by intros w [? _]|]. intros w [Hi Hp].
    pose proof (pa_inv_store w pre p q rest Hi Hp Hs Hq). by split.
  - intros _. apply (triple_bind _ _ _ _ (λ _, stored (pre ++ q :: rest))).
    + apply triple_durable; [by intros w [? _]|]. intros w [Hi Hp].
      pose proof (pa_inv_event w event Hi). split; [split; [done|exact Hp]|done].
    + intros _. apply triple_ret. intros w Hw. split; [exact Hw|by destruct Hw].
Qed.

Lemma dispatch_action_triple l p :
  p ∈ l → pa_status p = pa_in_flight → postActionApplies (pa_condition p) status = true →
  triple pa_inv (λ w, stored l w ∧ trigger_of p ∉ w_dispatch_calls w)
    (dispatch_action env id account p) (λ _, stored l).
Proof.
  intros Hp Hs Hap. unfold dispatch_action.
  destruct (env_action env (pa_action_id p)) as [acc|] eqn:Ea;
    [|apply triple_ret; intros w [Hw _]; split; [done|by destruct Hw]].
  destruct (negb (String.eqb acc account)) eqn:En;
    [apply triple_ret; intros w [Hw _]; split; [done|by destruct Hw]|].
  breflect. subst acc.
  apply (triple_bind _ _ _ _ (λ _ w, stored l w ∧ trigger_of p ∉ w_dispatch_calls w)).
  { apply triple_gets. intros w Hw. split; [done|by destruct Hw as [[? _] _]]. }
  intros calls. apply (triple_bind _ _ _ _ (λ _, stored l)).
  { apply triple_durable; [by intros w [[? _] _]|]. intros w [[Hi Hl] Ht].
    assert (Hc : pa_inv (w<|w_dispatch_calls ::= λ l, l ++ [trigger_of p]|>)).
    { apply pa_inv_call; try done. by rewrite Hl. }
    split; [split; [exact Hc|exact Hl]|exact Hc]. }
  intros _. apply (triple_bind _ _ _ _ (λ _, stored l)); [|intros _; apply triple_ret; intros w Hw; split; [done|by destruct Hw]].
  apply triple_durables; [by intros w [? _]|].
  intros f w (r & -> & _)%elem_of_map [Hi Hl]. split; [by apply pa_inv_run|exact Hl].
Qed.

Lemma run_one_triple now pre p rest :
  triple pa_inv (loop_at (pre ++ p :: rest))
    (run_one env now id account status (λ q, save_actions (pre ++ q :: rest)) p)
    (λ q, loop_at (pre ++ q :: rest)).
Proof.
  assert (Hstay : triple pa_inv (loop_at (pre ++ p :: rest)) (mret p) (λ q, loop_at (pre ++ q :: rest))).
  { apply triple_ret. intros w Hw. split; [done|by destruct Hw]. }
  assert (Hset : ∀ q event, same_action q p → pa_status q ≠ pa_pending →
    triple pa_inv (loop_at (pre ++ p :: rest)) (save_actions (pre ++ q :: rest);; eventC event;; mret q)
      (λ r, loop_at (pre ++ r :: rest))).
  { intros q event Hs Hq. eapply triple_weaken; [by apply settle_as_triple|done|].
    intros r w Hw. by apply stored_loop. }
  unfold run_one. destruct (pa_status p) eqn:Es; [|destruct (is_stale now p); simpl| | |]; try exact Hstay.
  - destruct (postActionApplies (pa_condition p) status) eqn:Ea; simpl; [|by apply Hset].
    set (p1 := mark_in_flight now p).
    apply (triple_bind _ _ _ _ (λ _ w, stored (pre ++ p1 :: rest) w ∧ trigger_of p1 ∉ w_dispatch_calls w)).
    { apply triple_durable; [by intros w [? _]|]. intros w [Hi Hp].
      assert (Hi' := pa_inv_store w pre p p1 rest Hi Hp ltac:(done) ltac:(done)).
      split; [split; [by split|]|done]. apply (inv_pending w Hi p); [|done].
      rewrite <- Hp. apply elem_of_app. right. apply list_elem_of_here. }
    intros _. eapply triple_bind.
    { apply (dispatch_action_triple (pre ++ p1 :: rest)); [|done|done].
      apply elem_of_app. right. apply list_elem_of_here. }
    intros [[run room]|message];
      (eapply triple_weaken; [apply (settle_as_triple pre p1); done|intros w; apply stored_loop|
         intros r w; apply stored_loop]).
  - apply (triple_bind _ _ _ _ (λ _, loop_at (pre ++ p :: rest))).
    { apply triple_gets. intros w Hw. split; [done|by destruct Hw]. }
    intros runs. destruct (existing_run _ _ _); by apply Hset.
Qed.

Lemma run_all_triple now : ∀ todo pre,
  triple pa_inv (loop_at (pre ++ todo)) (run_all env now id account status pre todo) (λ _ _, True).
Proof.
  induction todo as [|p todo IH]; intros pre; simpl.
  - apply triple_ret. by intros w [? _].
  - eapply triple_bind; [apply run_one_triple|]. intros q.
    eapply triple_weaken; [apply IH|intros w Hw; by rewrite <- app_assoc|done].
Qed.

Lemma recoverPostActions_inv now w n :
  pa_inv w → pa_inv (snd (fst (recoverPostActions env now w n))).
Proof.
  intros Hi. unfold recoverPostActions, mbind, C_bind, getsC; simpl.
  destruct (negb _); [done|]. unfold runPostActions, mbind, C_bind, getsC; simpl.
  destruct (default [] (ms_post_actions (w_mission w))) as [|p l] eqn:El; [done|].
  rewrite (inv_id w Hi), (inv_account w Hi), (inv_status w Hi).
  pose proof (run_all_triple now (sort_by pa_order (p :: l)) [] w n) as Ht. simpl app in Ht.
  assert (Hl : loop_at (sort_by pa_order (p :: l)) w).
  { split; [done|]. rewrite sort_by_perm. unfold actions_of. by rewrite El. }
  specialize (Ht Hl). destruct (run_all _ _ _ _ _ _ _ w n) as [[[[]|] w'] n']; simpl; [by destruct Ht|done].
Qed.

Lemma recoveries_inv lives : ∀ w, pa_inv w → pa_inv (recoveries env lives w).
Proof.
  induction lives as [|[now n] lives IH]; intros w Hi; simpl; [done|].
  pose proof (recoverPostActions_inv now w n Hi) as H.
  destruct (recoverPostActions env now w n) as [[r w'] n']. by apply IH.
Qed.
End at_most_once.

(** C22: However often the process dies in the middle of [runPostActions] and starts
    it again, no action is ever dispatched twice: starting from a finished mission
    whose actions have not been dispatched, the correlation keys handed to the
    actions service stay distinct, and each belongs to an action whose condition
    fits the mission's final status and which is in the mission's account. *)
Theorem post_actions_at_most_once env w lives :
  NoDup (List.map pa_order (actions_of w)) → w_dispatch_calls w = [] →
  let w' := recoveries env lives w in
  NoDup (w_dispatch_calls w') ∧
  ∀ t, t ∈ w_dispatch_calls w' → ∃ p, p ∈ actions_of w' ∧
    t = postActionTriggerId (ms_id (w_mission w)) (pa_order p) ∧
    postActionApplies (pa_condition p) (ms_status (w_mission w)) = true ∧
    env_action env (pa_action_id p) = Some (ms_account_id (w_mission w)).
Proof.
  intros Ho Hc w'.
  assert (Hi : pa_inv env (ms_id (w_mission w)) (ms_account_id (w_mission w)) (ms_status (w_mission w)) w').
  { apply recoveries_inv. constructor; try done; rewrite Hc.
    - constructor.
    - intros p _ _ Hp. inversion Hp.
    - intros t Ht. inversion Ht. }
  split; [by apply inv_calls in Hi|]. intros t Ht.
  destruct (inv_entitled _ _ _ _ _ Hi t Ht) as (p & ? & ? & ? & ?). eauto 6.
Qed.

(** ** Uninterrupted runs *)

(** [m] returns [a], in any life of at least some length. *)
Definition runs_to {A} (m : C A) (w : World) (a : A) (w' : World) : Prop :=
  (∃ k, ∀ n, m w (Some (k + n)%nat) = (Some a, w', Some n)) ∧ m w None = (Some a, w', None).

Lemma runs_to_ret {A} (a : A) w : runs_to (mret a) w a w.
Proof. split; [exists O|]; done. Qed.

Lemma runs_to_bind {A B} (m : C A) (k : A → C B) w a w1 b w2 :
  runs_to m w a w1 → runs_to (k a) w1 b w2 → runs_to (m ≫= k) w b w2.
Proof.
  intros [[j Hj] Hm] [[i Hi] Hk]. unfold runs_to, mbind, C_bind. split; [|by rewrite Hm].
  exists (j + i)%nat. intros n. by rewrite <- Nat.add_assoc, Hj, Hi.
Qed.

Lemma runs_to_gets {A} (f : World → A) w : runs_to (getsC f) w (f w) w.
Proof. split; [exists O|]; done. Qed.

Lemma runs_to_durable f w : runs_to (durable f) w tt (f w).
Proof. split; [exists 1%nat|]; done. Qed.

Lemma runs_to_durables fs : ∀ w, runs_to (durables fs) w tt (foldl (λ w f, f w) w fs).
Proof.
  induction fs as [|f fs IH]; intros w; simpl; [apply runs_to_ret|].
  eapply runs_to_bind; [apply runs_to_durable|apply IH].
Qed.

Section uninterrupted.
Context (env : Env).

(** The parts of the world the loop leaves alone. *)
Record outside_same (w w' : World) : Prop := {
  os_steps : w_steps w' = w_steps w;
  os_posts : w_posts w' = w_posts w;
  os_mission : ∃ l f, w_mission w' = (w_mission w)<|ms_post_actions := l|><|ms_post_actions_pending := f|>
}.

#[local] Instance outside_same_refl : Reflexive outside_same.
Proof.
  intros w. constructor; try done.
  exists (ms_post_actions (w_mission w)), (ms_post_actions_pending (w_mission w)). by destruct (w_mission w).
Qed.
#[local] Instance outside_same_trans : Transitive outside_same.
Proof.
  intros w1 w2 w3 [? ? (l & f & H1)] [? ? (l' & f' & H2)]. constructor; [congruence|congruence|].
  exists l', f'. rewrite H2, H1. done.
Qed.

(** Whether a run of the list fires [p]. *)
Definition fires (account status : string) (p : MissionPostAction) : bool :=
  bool_decide (pa_status p = pa_pending) && postActionApplies (pa_condition p) status &&
  bool_decide (env_action env (pa_action_id p) = Some account).

Lemma dispatch_action_runs id account p w :
  ∃ r w', runs_to (dispatch_action env id account p) w r w' ∧ outside_same w w' ∧
    w_mission w' = w_mission w ∧ (∃ rs, w_runs w' = w_runs w ++ rs) ∧
    w_dispatch_calls w' = w_dispatch_calls w ++
      (if bool_decide (env_action env (pa_action_id p) = Some account)
       then [postActionTriggerId id (pa_order p)] else []).
Proof.
  assert (Hsame : ∃ rs, w_runs w = w_runs w ++ rs) by (exists []; by rewrite app_nil_r).
  unfold dispatch_action. destruct (env_action env (pa_action_id p)) as [acc|] eqn:Ea.
  2:{ eexists _, w. split; [apply runs_to_ret|]. rewrite bool_decide_false, app_nil_r by done. done. }
  destruct (String.eqb acc account) eqn:En; simpl; breflect.
  2:{ eexists _, w. split; [apply runs_to_ret|]. rewrite bool_decide_false, app_nil_r by congruence. done. }
  subst acc. rewrite bool_decide_true by done.
  set (t := postActionTriggerId id (pa_order p)).
  set (d := env_dispatch env (length (w_dispatch_calls w)) (pa_action_id p) t).
  set (w1 := w<|w_dispatch_calls ::= λ l, l ++ [t]|>).
  set (w2 := foldl (λ w (f : World → World), f w) w1
               (List.map (λ r w, w<|w_runs ::= λ l, l ++ [r]|>) (di_runs d))).
  exists (di_result d), w2. split.
  { eapply runs_to_bind; [apply runs_to_gets|]. cbv beta. fold t d.
    eapply runs_to_bind; [apply runs_to_durable|]. eapply runs_to_bind; [apply runs_to_durables|apply runs_to_ret]. }
  assert (Hf : ∀ (rs : list ActionRun) (v : World),
    let v' := foldl (λ w (f : World → World), f w) v (List.map (λ r w, w<|w_runs ::= λ l, l ++ [r]|>) rs) in
    w_mission v' = w_mission v ∧ w_steps v' = w_steps v ∧ w_posts v' = w_posts v ∧ w_runs v' = w_runs v ++ rs ∧
    w_dispatch_calls v' = w_dispatch_calls v).
  { induction rs as [|r rs IH]; intros v; [simpl; by rewrite app_nil_r|].
    destruct (IH (v<|w_runs ::= λ l, l ++ [r]|>)) as (? & ? & ? & Hr & ?). split_and!; try done.
    etransitivity; [exact Hr|]. cbn. by rewrite <- app_assoc. }
  destruct (Hf (di_runs d) w1) as (H1 & H2 & H3 & H4' & H4). fold w2 in H1, H2, H3, H4', H4.
  split_and!; [|by rewrite H1|exists (di_runs d); by rewrite H4'|by rewrite H4].
  constructor; [by rewrite H2|by rewrite H3|]. rewrite H1. by destruct (outside_same_refl w).
Qed.

(** Interrupted, and within the grace period of an interrupted dispatch. *)
Definition in_grace (now : Z) (p : MissionPostAction) : bool :=
  bool_decide (pa_status p = pa_in_flight) && negb (is_stale now p).

(** A run has something to do about the entry. *)
Definition is_due (now : Z) (p : MissionPostAction) : bool := is_unsettled p && negb (in_grace now p).

(** What a run makes of an entry: what is in its grace period and what was settled stays;
    what does not apply is skipped; what applies is dispatched or fails; and an
    interrupted one whose run is on record is a dispatch that succeeded. *)
Definition settles (now : Z) (id status : string) (runs : list ActionRun) (p q : MissionPostAction) : Prop :=
  same_action q p ∧
  match pa_status p with
  | pa_pending =>
      if postActionApplies (pa_condition p) status then pa_status q = pa_dispatched ∨ pa_status q = pa_dispatch_failed
      else pa_status q = pa_skipped
  | pa_in_flight =>
      if is_stale now p then
        (pa_status q = pa_dispatched ∨ pa_status q = pa_dispatch_failed) ∧
        (existing_run runs (pa_action_id p) (postActionTriggerId id (pa_order p)) ≠ None → pa_status q = pa_dispatched)
      else q = p
  | _ => q = p
  end.

Lemma settles_unsettled now id status runs p q : settles now id status runs p q → is_unsettled q = in_grace now p.
Proof.
  intros [_ H]. unfold is_unsettled, in_grace. destruct (pa_status p) eqn:E; try (subst q; rewrite E; done).
  - destruct (postActionApplies _ _); [destruct H as [-> | ->]|rewrite H]; done.
  - destruct (is_stale now p); [destruct H as [[-> | ->] _]|subst q; rewrite E]; done.
Qed.

Lemma existing_run_app runs rs a t : existing_run runs a t ≠ None → existing_run (runs ++ rs) a t ≠ None.
Proof.
  unfold existing_run. rewrite reverse_app. intros H E. apply H.
  destruct (List.find _ (reverse runs)) as [r|] eqn:Er; [|done]. exfalso. apply List.find_some in Er as [Hr Hp].
  pose proof (List.find_none _ _ E r (in_or_app _ _ _ (or_intror Hr))) as Hn. cbn in Hn. congruence.
Qed.

(** The runs on record only grow. *)
Lemma settles_earlier now id status runs rs p q : settles now id status (runs ++ rs) p q → settles now id status runs p q.
Proof.
  intros [Ha H]. split; [done|]. destruct (pa_status p); try done. destruct (is_stale now p); [|done].
  destruct H as [H1 H2]. split; [done|]. intros H. by apply H2, existing_run_app.
Qed.

(** The list is stored, with its flag. *)
Definition saved (l : list MissionPostAction) (w : World) : Prop :=
  ms_post_actions (w_mission w) = Some l ∧ ms_post_actions_pending (w_mission w) = lsome is_unsettled l.

Lemma settle_as_runs pre q rest event w :
  ∃ w', runs_to (save_actions (pre ++ q :: rest);; eventC event;; mret q) w q w' ∧
    outside_same w w' ∧ w_dispatch_calls w' = w_dispatch_calls w ∧ w_runs w' = w_runs w ∧
    saved (pre ++ q :: rest) w'.
Proof.
  eexists. split.
  { eapply runs_to_bind; [apply runs_to_durable|]. eapply runs_to_bind; [apply runs_to_durable|apply runs_to_ret]. }
  split_and!; try done. constructor; try done. unfold store_actions. simpl. eauto.
Qed.

(** An entry is settled by a write, with what [settles] asks for. *)
Lemma run_one_pending now id account status pre p rest w : pa_status p = pa_pending →
  ∃ q w' rs, runs_to (run_one env now id account status (λ q, save_actions (pre ++ q :: rest)) p) w q w' ∧
    outside_same w w' ∧ settles now id status (w_runs w) p q ∧ w_runs w' = w_runs w ++ rs ∧
    w_dispatch_calls w' = w_dispatch_calls w ++
      (if fires account status p then [postActionTriggerId id (pa_order p)] else []) ∧ saved (pre ++ q :: rest) w'.
Proof.
  intros Es. unfold run_one, fires, settles. rewrite Es, (bool_decide_true (pa_pending = pa_pending)) by done. simpl.
  destruct (postActionApplies (pa_condition p) status) eqn:Ea; simpl.
  2:{ destruct (settle_as_runs pre (mark_skipped p) rest "post_action_skipped" w) as (w' & ? & ? & Hd & Hr & ?).
      exists (mark_skipped p), w', []. by rewrite Hd, Hr, !app_nil_r. }
  set (p1 := mark_in_flight now p). set (w1 := w<|w_mission ::= store_actions (pre ++ p1 :: rest)|>).
  destruct (dispatch_action_runs id account p1 w1) as (r & w2 & Hr & Hs & Hm & (rs & Hrs) & Hc).
  assert (Hw1 : outside_same w w1) by (constructor; try done; unfold store_actions; simpl; eauto).
  assert (Hfin : ∀ q event, ∃ w', runs_to (save_actions (pre ++ q :: rest);; eventC event;; mret q) w2 q w' ∧
      outside_same w w' ∧ w_dispatch_calls w' = w_dispatch_calls w2 ∧ w_runs w' = w_runs w2 ∧ saved (pre ++ q :: rest) w').
  { intros q event. destruct (settle_as_runs pre q rest event w2) as (w' & ? & Ho & ? & ? & ?).
    exists w'. split_and!; try done. by rewrite Hw1, Hs. }
  destruct r as [[run room]|message].
  - destruct (Hfin (mark_dispatched run room p1) "post_action_dispatched") as (w' & Hf & Ho & Hd & Hw & Ha).
    exists (mark_dispatched run room p1), w', rs. split_and!; try done; [|by left|by rewrite Hw, Hrs|by rewrite Hd, Hc].
    eapply runs_to_bind; [apply runs_to_durable|]. by eapply runs_to_bind.
  - destruct (Hfin (mark_failed (slice 1000 message) p1) "post_action_dispatch_failed") as (w' & Hf & Ho & Hd & Hw & Ha).
    exists (mark_failed (slice 1000 message) p1), w', rs. split_and!; try done; [|by right|by rewrite Hw, Hrs|by rewrite Hd, Hc].
    eapply runs_to_bind; [apply runs_to_durable|]. by eapply runs_to_bind.
Qed.

Lemma run_one_stale now id account status pre p rest w : pa_status p = pa_in_flight → is_stale now p = true →
  ∃ q w', runs_to (run_one env now id account status (λ q, save_actions (pre ++ q :: rest)) p) w q w' ∧
    outside_same w w' ∧ settles now id status (w_runs w) p q ∧ w_runs w' = w_runs w ∧
    w_dispatch_calls w' = w_dispatch_calls w ∧ saved (pre ++ q :: rest) w'.
Proof.
  intros Es Hst. unfold run_one, settles. rewrite Es, Hst. simpl.
  destruct (existing_run (w_runs w) (pa_action_id p) (postActionTriggerId id (pa_order p))) as [r|] eqn:Er.
  - destruct (settle_as_runs pre (mark_dispatched (rn_id r) (rn_room_id r) p) rest "post_action_dispatched" w)
      as (w' & ? & ? & ? & ? & ?).
    exists (mark_dispatched (rn_id r) (rn_room_id r) p), w'. split_and!; try done; [|by left].
    eapply runs_to_bind; [apply runs_to_gets|]. cbv beta. by rewrite Er.
  - destruct (settle_as_runs pre (mark_failed lost_message p) rest "post_action_dispatch_failed" w) as (w' & ? & ? & ? & ? & ?).
    exists (mark_failed lost_message p), w'. split_and!; try done; [|by right].
    eapply runs_to_bind; [apply runs_to_gets|]. cbv beta. by rewrite Er.
Qed.

Lemma run_one_runs now id account status pre p rest w :
  ∃ q w' rs, runs_to (run_one env now id account status (λ q, save_actions (pre ++ q :: rest)) p) w q w' ∧
    outside_same w w' ∧ settles now id status (w_runs w) p q ∧ w_runs w' = w_runs w ++ rs ∧
    w_dispatch_calls w' = w_dispatch_calls w ++
      (if fires account status p then [postActionTriggerId id (pa_order p)] else []) ∧
    ((q = p ∧ w' = w ∧ is_due now p = false) ∨ saved (pre ++ q :: rest) w').
Proof.
  destruct (pa_status p) eqn:Es.
  - destruct (run_one_pending now id account status pre p rest w Es) as (q & w' & rs & ? & ? & ? & ? & ? & ?).
    exists q, w', rs. split_and!; try done. by right.
  - destruct (is_stale now p) eqn:Hst.
    + destruct (run_one_stale now id account status pre p rest w Es Hst) as (q & w' & ? & ? & ? & Hr & Hc & ?).
      exists q, w', []. split_and!; try done; [by rewrite app_nil_r| |by right]. unfold fires. by rewrite Es, Hc, app_nil_r.
    + exists p, w, []. unfold run_one, settles, fires, is_due, in_grace. rewrite Es, Hst, !app_nil_r. simpl.
      split_and!; try done; [apply runs_to_ret|]. left. by rewrite andb_false_r.
  - exists p, w, []. unfold run_one, settles, fires, is_due, is_unsettled. rewrite Es, !app_nil_r.
    split_and!; try done; [apply runs_to_ret|by left].
  - exists p, w, []. unfold run_one, settles, fires, is_due, is_unsettled. rewrite Es, !app_nil_r.
    split_and!; try done; [apply runs_to_ret|by left].
  - exists p, w, []. unfold run_one, settles, fires, is_due, is_unsettled. rewrite Es, !app_nil_r.
    split_and!; try done; [apply runs_to_ret|by left].
Qed.

Lemma run_all_runs now id account status : ∀ todo pre w,
  ∃ fin w' rs, runs_to (run_all env now id account status pre todo) w tt w' ∧
    outside_same w w' ∧ Forall2 (settles now id status (w_runs w)) todo fin ∧ w_runs w' = w_runs w ++ rs ∧
    w_dispatch_calls w' = w_dispatch_calls w ++
      List.map (λ p, postActionTriggerId id (pa_order p)) (lfilter (fires account status) todo) ∧
    ((fin = todo ∧ w' = w ∧ lsome (is_due now) todo = false) ∨ saved (pre ++ fin) w').
Proof.
  induction todo as [|p todo IH]; intros pre w; simpl.
  - exists [], w, []. rewrite !app_nil_r. split_and!; [apply runs_to_ret|done|constructor|done|done|by left].
  - destruct (run_one_runs now id account status pre p todo w) as (q & w1 & rs & H1 & Ho & Hq & Hr & Hc & Hsv).
    destruct (IH (pre ++ [q]) w1) as (fin & w2 & rs2 & H2 & Ho2 & Hf & Hr2 & Hc2 & Hsv2).
    exists (q :: fin), w2, (rs ++ rs2). split_and!.
    + by eapply runs_to_bind.
    + by rewrite Ho.
    + constructor; [done|]. eapply Forall2_impl; [exact Hf|]. intros x y Hxy. rewrite Hr in Hxy. by eapply settles_earlier.
    + by rewrite Hr2, Hr, app_assoc.
    + rewrite Hc2, Hc, <- app_assoc. f_equal. by destruct (fires account status p).
    + rewrite <- app_assoc in Hsv2. simpl in Hsv2.
      destruct Hsv2 as [(-> & -> & Hn)|?]; [|by right]. destruct Hsv as [(-> & -> & Hd)|?]; [|by right].
      left. split_and!; [done..|]. unfold lsome in *. cbn. by rewrite Hd.
Qed.
End uninterrupted.

(** C24: Given enough life, a recovery sweep settles every post-action but those that were
    interrupted less than the grace period ago: it returns; each entry is settled as
    [settles] says (those still in their grace period stay as they are, for a later
    sweep); the pending flag, which the reaper scans by, is up exactly if such entries
    are left; the actions fired are exactly the pending ones that apply and belong to
    the mission's account, in their order; and nothing else of the mission changes. *)
Theorem post_actions_complete env now w :
  isTerminalMissionStatus (ms_status (w_mission w)) = true →
  let entries := sort_by pa_order (actions_of w) in
  ∃ w' fin, runs_to (recoverPostActions env now) w tt w' ∧ actions_of w' ≡ₚ fin ∧
    Forall2 (settles now (ms_id (w_mission w)) (ms_status (w_mission w)) (w_runs w)) entries fin ∧
    (lsome (is_due now) entries = true → ms_post_actions_pending (w_mission w') = lsome (in_grace now) entries) ∧
    w_dispatch_calls w' = w_dispatch_calls w ++
      List.map (λ p, postActionTriggerId (ms_id (w_mission w)) (pa_order p))
        (lfilter (fires env (ms_account_id (w_mission w)) (ms_status (w_mission w))) entries) ∧
    ms_status (w_mission w') = ms_status (w_mission w) ∧ w_steps w' = w_steps w ∧ w_posts w' = w_posts w.
Proof.
  intros Ht entries.
  destruct (run_all_runs env now (ms_id (w_mission w)) (ms_account_id (w_mission w)) (ms_status (w_mission w))
    entries [] w) as (fin & w' & rs & Hr & [Ho1 Ho2 (l & f & Ho3)] & Hf & _ & Hc & Hsv).
  assert (Hw : runs_to (recoverPostActions env now) w tt w').
  { unfold recoverPostActions. eapply runs_to_bind; [apply runs_to_gets|]. cbv beta. rewrite Ht. simpl.
    unfold runPostActions. eapply runs_to_bind; [apply runs_to_gets|]. cbv beta.
    unfold entries, actions_of in Hr. by destruct (default [] (ms_post_actions (w_mission w))). }
  assert (Hu : lsome is_unsettled fin = lsome (in_grace now) entries).
  { clear -Hf. induction Hf as [|p q lp lq H _ IH]; [done|]. unfold lsome in *. cbn. by rewrite IH, (settles_unsettled _ _ _ _ _ _ H). }
  exists w', fin. split_and!; [done| |done| |done|by rewrite Ho3|done|done].
  - destruct Hsv as [(-> & -> & _)|[Hl _]]; [unfold entries; by rewrite sort_by_perm|unfold actions_of; by rewrite Hl].
  - intros Hn. destruct Hsv as [(_ & _ & Hd)|[_ ->]]; [congruence|exact Hu].
Qed.

(** ** Witnesses *)

Definition sample_action (id : string) (order : Z) (c : PostActionCondition) : MissionPostAction :=
  {| pa_action_id := id; pa_order := order; pa_condition := c; pa_status := pa_pending;
     pa_run_id := None; pa_room_id := None; pa_error := ""; pa_dispatched_at := None |}.

Definition sample_finished : World :=
  (sample_world "completed" [])<|w_mission ::= λ m,
    m<|ms_post_actions := Some [sample_action "notify" 0 always; sample_action "rollback" 1 on_failure]|>
     <|ms_post_actions_pending := true|>|>.

(** The first run dies right after the dispatch; the later ones recover it. *)
Lemma post_actions_at_most_once_witness :
  NoDup (w_dispatch_calls (recoveries sample_env [(0, Some 3%nat); (1000, Some 5%nat); (200000, None)] sample_finished)).
Proof.
  refine (proj1 (post_actions_at_most_once sample_env sample_finished _ _ eq_refl)).
  vm_compute. apply NoDup_cons. split; [|apply NoDup_singleton].
  intros H. apply list_elem_of_singleton in H. discriminate H.
Defined.

(** Two pending entries, one that was interrupted long ago and whose run is on record, one
    that was interrupted long ago without a trace, and one that was interrupted just now. *)
Definition interrupted (id : string) (order at_ : Z) : MissionPostAction :=
  (sample_action id order always)<|pa_status := pa_in_flight|><|pa_dispatched_at := Some at_|>.

Definition sample_interrupted : World :=
  (sample_world "completed" [])<|w_mission ::= λ m,
    m<|ms_post_actions := Some [sample_action "notify" 0 always; sample_action "rollback" 1 on_failure;
                               interrupted "notify" 2 0; interrupted "notify" 3 0; interrupted "notify" 4 999000]|>
     <|ms_post_actions_pending := true|>|>
  <|w_runs := [{| rn_id := "run-2"; rn_action_id := "notify"; rn_triggered_by_id := postActionTriggerId "mission" 2;
                  rn_room_id := "room-2" |}]|>.

Lemma post_actions_complete_witness :
  ∃ w' fin, runs_to (recoverPostActions sample_env 1000000) sample_interrupted tt w' ∧ actions_of w' ≡ₚ fin ∧
    w_dispatch_calls w' = [postActionTriggerId "mission" 0] ∧ ms_post_actions_pending (w_mission w') = true ∧
    pa_status <$> fin !! 1%nat = Some pa_skipped ∧ pa_status <$> fin !! 2%nat = Some pa_dispatched ∧
    fin !! 4%nat = Some (interrupted "notify" 4 999000).
Proof.
  destruct (post_actions_complete sample_env 1000000 sample_interrupted eq_refl) as (w' & fin & Hr & Ha & Hf & Hp & Hc & _).
  exists w', fin. split; [exact Hr|]. split; [exact Ha|]. split; [rewrite Hc; reflexivity|]. split; [exact (Hp eq_refl)|].
  assert (Hnth : ∀ i p, sort_by pa_order (actions_of sample_interrupted) !! i = Some p → ∃ q, fin !! i = Some q ∧
    settles 1000000 "mission" "completed" (w_runs sample_interrupted) p q) by (intros i p Hi; exact (Forall2_lookup_l _ _ _ _ _ Hf Hi)).
  destruct (Hnth 1%nat _ eq_refl) as (q1 & -> & _ & H1), (Hnth 2%nat _ eq_refl) as (q2 & -> & _ & _ & H2),
    (Hnth 4%nat _ eq_refl) as (q4 & -> & _ & H4).
  split; [cbn; f_equal; exact H1|]. split; [cbn; f_equal; apply H2; discriminate|]. f_equal. exact H4.
Defined.

(** ** What the post-actions leave alone *)

(** The rows of a world, but for the record of the post-actions. *)
Record Core := { co_mission : Mission; co_steps : list Step; co_nonce : nat }.
Definition core_of (w : World) : Core :=
  {| co_mission := (w_mission w)<|ms_post_actions := None|><|ms_post_actions_pending := false|>;
     co_steps := w_steps w; co_nonce := w_nonce w |}.

Section core.
Context (env : Env) (c : Core).

Definition same_core (w : World) : Prop := core_of w = c.
Definition keeps_core {A} (m : C A) : Prop := triple same_core same_core m (λ _, same_core).

Lemma keeps_core_ret {A} (a : A) : keeps_core (mret a).
Proof. by apply triple_ret. Qed.

Lemma keeps_core_bind {A B} (m : C A) (k : A → C B) : keeps_core m → (∀ a, keeps_core (k a)) → keeps_core (m ≫= k).
Proof. intros Hm Hk. by apply (triple_bind _ _ _ _ (λ _, same_core)). Qed.

Lemma keeps_core_gets {A} (f : World → A) : keeps_core (getsC f).
Proof. by apply triple_gets. Qed.

Lemma keeps_core_durable f : (∀ w, core_of (f w) = core_of w) → keeps_core (durable f).
Proof. intros H. apply triple_durable; [done|]. intros w Hw. unfold same_core in *. by rewrite H. Qed.

Lemma keeps_core_settle pre rest event p :
  keeps_core (save_actions (pre ++ p :: rest);; eventC event;; mret p).
Proof.
  apply keeps_core_bind; [by apply keeps_core_durable|]. intros _.
  apply keeps_core_bind; [by apply keeps_core_durable|]. intros _. apply keeps_core_ret.
Qed.

Lemma keeps_core_dispatch id account pa : keeps_core (dispatch_action env id account pa).
Proof.
  unfold dispatch_action. destruct (env_action env _) as [a|]; [|apply keeps_core_ret].
  destruct (negb _); [apply keeps_core_ret|]. apply keeps_core_bind; [apply keeps_core_gets|]. intros calls.
  apply keeps_core_bind; [by apply keeps_core_durable|]. intros _.
  apply keeps_core_bind; [|intros _; apply keeps_core_ret].
  apply (triple_durables same_core same_core); [done|]. intros f w (r & -> & _)%elem_of_map. done.
Qed.

Lemma keeps_core_one now id account status pre rest pa :
  keeps_core (run_one env now id account status (λ p, save_actions (pre ++ p :: rest)) pa).
Proof.
  unfold run_one. destruct (pa_status pa); try apply keeps_core_ret.
  - destruct (negb _); [apply keeps_core_settle|].
    apply keeps_core_bind; [by apply keeps_core_durable|]. intros _.
    apply keeps_core_bind; [apply keeps_core_dispatch|]. intros [[run room]|e]; apply keeps_core_settle.
  - destruct (negb _); [apply keeps_core_ret|]. apply keeps_core_bind; [apply keeps_core_gets|].
    intros runs. destruct (existing_run _ _ _); apply keeps_core_settle.
Qed.

Lemma keeps_core_all now id account status : ∀ todo pre, keeps_core (run_all env now id account status pre todo).
Proof.
  induction todo as [|p todo IH]; intros pre; simpl; [apply keeps_core_ret|].
  apply keeps_core_bind; [apply keeps_core_one|]. intros q. apply IH.
Qed.
End core.

Lemma runPostActions_core env now w :
  let '(_, w', _) := runPostActions env now w None in core_of w' = core_of w.
Proof.
  assert (H : keeps_core (core_of w) (runPostActions env now)).
  { apply keeps_core_bind; [apply keeps_core_gets|]. intros m.
    destruct (default [] (ms_post_actions m)); [apply keeps_core_ret|apply keeps_core_all]. }
  specialize (H w None eq_refl). destruct (runPostActions env now w None) as [[[[]|] w'] n]; [by destruct H|exact H].
Qed.
