(* ===== verification/Engine.v ===== *)
(** * Engine internals

    The private methods of [orchestration-runner.service.ts] that every public
    method ends in: classification, the pump with its limits, dispatch, confirm
    gates, loop re-entry, blocking and unblocking, and waking the orchestrator. *)

From S2P Require Import Prelude JsStd Vocabulary Plan Graph GraphFacts GraphRun Roster Entities.
#[local] Open Scope Z_scope.

Section engine.
Context (env : Env).

(** ** Classification and limits *)

Definition progressOf (mission : Mission) (steps : list Step) : Progress :=
  computeMissionProgress (ms_graph_spec mission) (List.map step_view steps).

(** [None] is [Infinity]. *)
Definition remainingVisitBudget (mission : Mission) : option Z :=
  match ms_graph_spec mission with
  | Some spec => Some (gs_max_total_visits spec - ms_total_visits mission)
  | None => None
  end.

Definition budget_spent (mission : Mission) : bool :=
  match remainingVisitBudget mission with Some b => b <=? 0 | None => false end.

Definition confirmNodeOf (mission : Mission) (stepKey : string) : option GraphNode :=
  match ms_graph_spec mission with
  | None => None
  | Some spec =>
      match List.find (λ n, String.eqb (gn_key n) stepKey) (gs_nodes spec) with
      | Some node => if bool_decide (gn_kind node = nk_confirm) then Some node else None
      | None => None
      end
  end.

Definition is_confirm (mission : Mission) (s : Step) : bool :=
  match confirmNodeOf mission (st_key s) with Some _ => true | None => false end.

(** ** Messages and events *)

Definition fresh_uuid : M string := λ w,
  (Ok (env_uuid env (w_nonce w)), w<|w_nonce ::= S|>).

Definition postToRoom (room : string) (body : PostBody) : M () := λ w,
  let post := {| po_room := room; po_body := body |} in
  match env_post env (length (w_posts w)) post with
  | Some e => (Err {| oe_code := 502; oe_why := delivery_failed e |}, w)
  | None => (Ok tt, w<|w_posts ::= λ l, l ++ [post]|>)
  end.

(** [e.message], as a catch block reads it. *)
Definition error_message (e : oerr) : string :=
  match oe_why e with delivery_failed m => m | y => env_error_message env y end.

(** ** Confirm feedback for a work order *)

Definition confirmFeedbackFor (mission : Mission) (step : Step) (allSteps : list Step)
    : list (string * ConfirmDecision) :=
  match ms_graph_spec mission with
  | None => []
  | Some spec =>
      let confirmKeys :=
        List.map gn_key (lfilter (λ n, bool_decide (gn_kind n = nk_confirm)) (gs_nodes spec)) in
      let byKey := JMap.index_by st_key allSteps in
      omap (λ key,
        if String.eqb key (st_key step) then None
        else match JMap.get byKey key with
        | Some source =>
            match st_confirm_decision source with
            | Some decision =>
                if includes (reachableVia (gs_edges spec) key true) (st_key step)
                then Some (st_key source, decision) else None
            | None => None
            end
        | None => None
        end) confirmKeys
  end.

(** Dependencies whose results travel with the work order. *)
Definition dependency_keys (step : Step) (allSteps : list Step) : list string :=
  let depKeys := default [] (st_depends_on step) in
  List.map st_key
    (lfilter (λ s, includes DEPENDENCY_SATISFYING_STATUSES (st_status s))
       (lfilter (λ s, includes depKeys (st_key s)) allSteps)).

(** ** Dispatch *)

(** The stamp of a new attempt, committed before the work order is sent. *)
Definition stamp_attempt (now : Z) (token room : string) (step : Step) : Step :=
  step<|st_attempt ::= λ a, a + 1|>
      <|st_visit := if st_visit step <? 1 then 1 else st_visit step|>
      <|st_lease_token := token|>
      <|st_status := "dispatched"|>
      <|st_room_id := Some room|>
      <|st_dispatched_at := Some now|>
      <|st_started_at := None|>
      <|st_finished_at := None|>
      <|st_last_heartbeat_at := None|>
      <|st_lease_stale_since := None|>
      <|st_recovery_reason := ""|>.

Definition bump_visits (m : Mission) : Mission := m<|ms_total_visits ::= λ v, v + 1|>.

(** The execution spec a step runs from, and the checks on it. *)
Definition execution_spec (step : Step) : option TeamAgentSpec :=
  match st_assignee_spec step with
  | Some spec => Some spec
  | None => env_legacy_spec env (default "" (st_assignee_agent_id step))
  end.

Definition requireRuntime (step : Step) : M () :=
  match execution_spec step with
  | None => throw 400 (no_runtime_to_run_on (st_key step))
  | Some spec =>
      let host := ss_manager_agent_id (ta_slot spec) in
      throw_if (missionApprovalProblem (ta_slot spec)) 409 (approval_unavailable (ss_cli (ta_slot spec)));;
      throw_if (approvalHostProblem (ta_slot spec) (env_instances env host)) 409 (host_cannot_approve host)
  end.

Definition dispatchStep (now : Z) (step : Step) (recovery : bool) : M () :=
  mission ← get_mission;
  allSteps ← listSteps;
  requireRuntime step;;
  room ← fresh_uuid;
  token ← fresh_uuid;
  let dependencies := dependency_keys step allSteps in
  let stamped := stamp_attempt now token room step in
  save_step stamped;;
  (match ms_graph_spec mission with
   | Some _ => update_mission bump_visits
   | None => mret tt
   end);;
  allSteps ← listSteps;
  postToRoom room
    (work_order (st_key stamped) (st_attempt stamped) (st_visit stamped) (st_lease_token stamped)
       ((1 <? st_attempt stamped) || recovery) dependencies
       (confirmFeedbackFor mission stamped allSteps));;
  recordEvent "step_dispatched" (Some (st_key step)) [].

(** ** Confirm gates *)

(** The artifacts of the satisfied upstream steps, without duplicates. *)
Definition collect_artifact (st : list Artifact * list string) (a : Artifact)
    : list Artifact * list string :=
  let '(evidence, seen) := st in
  let dedupe := String.append (ar_kind a) (String "000" (ar_ref a)) in
  if includes seen dedupe then st
  else if MAX_ARTIFACTS_PER_STEP <=? Z.of_nat (length evidence)
  then (evidence, set_add seen dedupe)
  else (evidence ++ [a], set_add seen dedupe).

Definition gate_evidence (spec : GraphSpec) (step : Step) (allSteps : list Step)
    : list Artifact :=
  let byKey := JMap.index_by st_key allSteps in
  fst (foldl (λ st edge,
    if negb (String.eqb (ge_to edge) (st_key step)) || is_loop_back edge then st
    else match JMap.get byKey (ge_from edge) with
    | None => st
    | Some source =>
        match ee_state (evaluateEdge edge (Some (step_state source))) with
        | es_satisfied => foldl collect_artifact st (default [] (st_artifacts source))
        | _ => st
        end
    end) ([], []) (gs_edges spec)).

Definition open_gate (now : Z) (evidence : list Artifact) (step : Step) : Step :=
  step<|st_status := "awaiting_user"|>
      <|st_visit := if st_visit step <? 1 then 1 else st_visit step|>
      <|st_dispatched_at := Some now|>
      <|st_started_at := None|>
      <|st_finished_at := None|>
      <|st_confirm_decision := None|>
      <|st_verdict := ""|>
      <|st_result_summary := ""|>
      <|st_artifacts := match evidence with [] => None | _ => Some evidence end|>.

Definition openConfirmGate (now : Z) (step : Step) : M () :=
  mission ← get_mission;
  allSteps ← listSteps;
  match ms_graph_spec mission with
  | None => mret tt
  | Some spec =>
      save_step (open_gate now (gate_evidence spec step allSteps) step);;
      update_mission bump_visits;;
      recordEvent "confirm_requested" (Some (st_key step)) []
  end.

(** ** The pump *)

Definition str_or (a : option string) (b : string) : string :=
  match a with Some s => if truthy s then s else b | None => b end.

(** [loadKey]: capacity is counted per roster slot. *)
Definition loadKey (s : Step) : string :=
  str_or (st_assignee_slot s)
    (match st_assignee_agent_id s with
     | Some a => if truthy a then String.append "identity:" a else ""
     | None => "" end).

Definition load_of (steps : list Step) (key : string) : Z :=
  Z.of_nat (length (lfilter (λ s, isInFlight (st_status s) && String.eqb (loadKey s) key) steps)).

(** [capBySlot.get(slot) ?? 1]: a later member of the same slot id wins. *)
Definition slot_cap (mission : Mission) (s : Step) : Z :=
  let members := match ms_runtime_roster mission with Some r => ro_members r | None => [] end in
  match List.find (λ m, String.eqb (rs_slot_id m) (default "" (st_assignee_slot s))) (reverse members) with
  | Some m => rs_max_concurrent m
  | None => 1
  end.

Record PumpState := {
  ps_dispatched : list string;
  ps_failed : list Step;
  ps_slots : Z;
  ps_load : list (string * Z);
  ps_exhausted : bool;
  ps_withheld : list string
}.

Definition load_get (m : list (string * Z)) (k : string) : Z := default 0 (JMap.get m k).

(** [loadBySlot], counted over the steps in flight. *)
Definition initial_load (steps : list Step) : list (string * Z) :=
  foldl (λ m s,
    let key := loadKey s in
    if isInFlight (st_status s) && truthy key then JMap.set m key (load_get m key + 1) else m)
    [] steps.

(** The confirm gates, opened first and outside the parallel limit. *)
Definition pump_gate (now : Z) (ps : PumpState) (step : Step) : M PumpState :=
  mission ← get_mission;
  if budget_spent mission
  then mret (ps<|ps_exhausted := true|><|ps_withheld ::= λ l, l ++ [st_key step]|>)
  else
    openConfirmGate now step;;
    mret (ps<|ps_dispatched ::= λ l, l ++ [st_key step]|>).

Definition mark_ready (step : Step) : M () :=
  if String.eqb (st_status step) "ready" then mret tt
  else save_step (step<|st_status := "ready"|>).

Definition fail_dispatch (now : Z) (message : string) (step : Step) : Step :=
  step<|st_status := "failed"|>
      <|st_result_summary := String.append
          "[dispatch failed] the work order could not be delivered to the assignee: " message|>
      <|st_finished_at := Some now|>.

(** A failed dispatch fails the step, on whatever was already stamped. *)
Definition dispatch_failed (now : Z) (step : Step) (ps : PumpState) (e : oerr) : M PumpState :=
  current ← requireStep (st_id step);
  let failed := fail_dispatch now (error_message e) current in
  save_step failed;;
  recordEvent "step_failed" (Some (st_key step)) [];;
  mret (ps<|ps_failed ::= λ l, l ++ [failed]|>).

Definition pump_dispatch (now : Z) (step : Step) (slotKey : string) (load : Z) (ps : PumpState)
    : M PumpState :=
  try_catch
    (dispatchStep now step false;;
     mret (ps<|ps_load := JMap.set (ps_load ps) slotKey (load + 1)|>
             <|ps_slots ::= λ n, n - 1|>
             <|ps_dispatched ::= λ l, l ++ [st_key step]|>))
    (dispatch_failed now step ps).

(** The dispatch loop; [break] stops it, leaving the rest withheld. *)
Fixpoint pump_regular (now : Z) (ps : PumpState) (regular : list Step) : M PumpState :=
  match regular with
  | [] => mret ps
  | step :: rest =>
      mission ← get_mission;
      if ps_slots ps <=? 0 then mret (ps<|ps_withheld ::= λ l, l ++ List.map st_key regular|>)
      else if budget_spent mission
      then mret (ps<|ps_exhausted := true|>
                   <|ps_withheld ::= λ l, l ++ List.map st_key regular|>)
      else if negb (truthy (default "" (st_assignee_agent_id step)))
      then mark_ready step;; pump_regular now ps rest
      else
        let slotKey := loadKey step in
        let load := load_get (ps_load ps) slotKey in
        if slot_cap mission step <=? load
        then mark_ready step;; pump_regular now ps rest
        else ps' ← pump_dispatch now step slotKey load ps; pump_regular now ps' rest
  end.

Record Pumped := { pm_dispatched : list string; pm_failed : list Step }.
Definition nothing_pumped : Pumped := {| pm_dispatched := []; pm_failed := [] |}.

(** Dispatchable steps, in plan order. *)
Definition pump_candidates (steps : list Step) (progress : Progress) : list Step :=
  sort_by st_position (omap (JMap.get (JMap.index_by st_key steps)) (pr_dispatchable progress)).

Definition pump_start (mission : Mission) (steps : list Step) (progress : Progress) : PumpState :=
  {| ps_dispatched := []; ps_failed := [];
     ps_slots := ms_max_parallel_steps mission - Z.of_nat (length (pr_inFlight progress));
     ps_load := initial_load steps; ps_exhausted := false; ps_withheld := [] |}.

Definition pump (now : Z) : M Pumped :=
  mission ← get_mission;
  if negb (String.eqb (ms_status mission) "running") then mret nothing_pumped
  else
    steps ← listSteps;
    let progress := progressOf mission steps in
    if bool_decide (length (pr_dispatchable progress) = 0%nat) then mret nothing_pumped
    else
      let candidates := pump_candidates steps progress in
      let ps := pump_start mission steps progress in
      if (ps_slots ps <=? 0) && negb (lsome (is_confirm mission) candidates)
      then mret nothing_pumped
      else
        ps ← loop (pump_gate now) ps (lfilter (is_confirm mission) candidates);
        ps ← pump_regular now ps (lfilter (λ s, negb (is_confirm mission s)) candidates);
        (if ps_exhausted ps
         then recordEvent "graph_budget_exhausted" None (ps_withheld ps) else mret tt);;
        mret {| pm_dispatched := ps_dispatched ps; pm_failed := ps_failed ps |}.

(** ** Blocking and unblocking *)

Definition AUTO_BLOCKED : string := "[auto-blocked]".
Definition auto_blocked_note : string := String.append AUTO_BLOCKED
  " an upstream step this work depends on did not succeed, so this step can never run as planned. The orchestrator must retry the upstream step or restructure the plan.".

Definition block_step (now : Z) (s : Step) : Step :=
  s<|st_status := "blocked"|><|st_auto_blocked := true|><|st_finished_at := Some now|>
   <|st_result_summary := if truthy (st_result_summary s) then st_result_summary s
                          else auto_blocked_note|>.

Definition propagateBlocking (now : Z) : M (list string) :=
  mission ← get_mission;
  steps ← listSteps;
  let progress := progressOf mission steps in
  let byKey := JMap.index_by st_key steps in
  let changed := List.map (block_step now)
    (lfilter (λ s, negb (String.eqb (st_status s) "blocked"))
       (omap (JMap.get byKey) (pr_newlyBlocked progress))) in
  match changed with
  | [] => mret []
  | _ =>
      save_steps changed;;
      recordEvent "step_blocked" None (List.map st_key changed);;
      mret (List.map st_key changed)
  end.

Definition unblock_step (s : Step) : Step :=
  s<|st_status := "pending"|><|st_auto_blocked := false|><|st_finished_at := None|>
   <|st_result_summary := if startsWith AUTO_BLOCKED (st_result_summary s) then ""
                          else st_result_summary s|>.

Definition auto_blocked_candidate (s : Step) : bool :=
  String.eqb (st_status s) "blocked" && st_auto_blocked s.

Definition unblockAutoBlockedDependents : M (list string) :=
  mission ← get_mission;
  steps ← listSteps;
  let candidates := lfilter auto_blocked_candidate steps in
  let candidateKeys := List.map st_key candidates in
  let hypothetical :=
    List.map (λ s, if includes candidateKeys (st_key s) then s<|st_status := "pending"|> else s) steps in
  let stillBlocked := pr_newlyBlocked (progressOf mission hypothetical) in
  let restored := List.map unblock_step
    (lfilter (λ s, negb (includes stillBlocked (st_key s))) candidates) in
  match restored with
  | [] => mret []
  | _ =>
      save_steps restored;;
      recordEvent "step_unblocked" None (List.map st_key restored);;
      mret (List.map st_key restored)
  end.

(** ** Waking the orchestrator *)

(** The decision: [None] when the engine can go on by itself. *)
Definition wake_reason (mission : Mission) (steps : list Step) (justFinished : Step)
    : option string :=
  let progress := progressOf mission steps in
  let quiet := bool_decide (length (pr_inFlight progress) = 0%nat)
               && bool_decide (length (pr_awaitingUser progress) = 0%nat) in
  if String.eqb (st_status justFinished) "failed" then Some "step_failed"
  else if String.eqb (st_status justFinished) "blocked" then Some "step_blocked"
  else if pr_allTerminal progress then Some "all_steps_terminal"
  else if quiet then Some "stalled"
  else None.

Definition decideWake (justFinished : Step) : M bool :=
  mission ← get_mission;
  if negb (String.eqb (ms_status mission) "running") then mret false
  else
    steps ← listSteps;
    match wake_reason mission steps justFinished with
    | None => mret false
    | Some reason =>
        match ms_room_id mission with
        | None => mret false
        | Some room =>
            if negb (truthy room) then mret false
            else
              sent ← try_catch (A := bool) (postToRoom room (wake_prompt reason);; mret true)
                       (λ _, recordEvent "error" None [];; mret false);
              if sent : bool then (recordEvent "orchestrator_woken" None [reason];; mret true)
              else mret false
        end
    end.

(** At most one wake per pump: the latest dispatch failure, else the caller's step. *)
Definition wakeAfterPump (pumped : Pumped) (fallback : option Step) : M bool :=
  match List.last (List.map Some (pm_failed pumped)) fallback with
  | None => mret false
  | Some justFinished => decideWake justFinished
  end.

(** ** Loop re-entry *)

Definition reset_for_visit (s : Step) : Step :=
  s<|st_status := "pending"|><|st_visit ::= λ v, v + 1|><|st_attempt := 0|>
   <|st_verdict := ""|><|st_result_summary := ""|><|st_artifacts := None|>
   <|st_room_id := None|><|st_dispatched_at := None|><|st_started_at := None|>
   <|st_finished_at := None|>.

(** One fired loop, over the in-memory rows and the keys already re-entered. *)
Definition reenter (spec : GraphSpec) (stepKey : string) (st : list Step * list string) (lp : GraphEdge)
    : M (list Step * list string) :=
  let '(steps, reentered) := st in
  match JMap.get (JMap.index_by st_key steps) (ge_to lp),
        JMap.get (JMap.index_by gn_key (gs_nodes spec)) (ge_to lp) with
  | Some target, Some node =>
      if gn_max_visits node <? st_visit target + 1
      then recordEvent "loop_exhausted" (Some stepKey) [ge_to lp];; mret (steps, reentered)
      else
        let keys := List.map st_key steps in
        let body := loopBodyNodes (gs_edges spec) lp in
        let fresh := lfilter (λ k, includes keys k && negb (includes reentered k)) body in
        let steps' := List.map (λ s, if includes fresh (st_key s) then reset_for_visit s else s) steps in
        recordEvent "node_revisited" (Some stepKey) body;;
        mret (steps', reentered ++ fresh)
  | _, _ => mret (steps, reentered)
  end.

Definition applyGraphTransitions (step : Step) : M (list string) :=
  mission ← get_mission;
  match ms_graph_spec mission with
  | None => mret []
  | Some spec =>
      let state := step_state step in
      let chosen := selectOutgoingEdges spec (st_key step) state in
      (if bool_decide (0 < length (fst chosen) + length (snd chosen))%nat
       then recordEvent "edge_selected" (Some (st_key step))
              (List.map (λ t, ge_to (ee_edge t)) (fst chosen))
       else mret tt);;
      let fired := firedLoopBacks spec (st_key step) state in
      if bool_decide (length fired = 0%nat) then mret []
      else
        steps ← listSteps;
        '(steps', reentered) ← loop (reenter spec (st_key step)) (steps, []) fired;
        save_steps (lfilter (λ s, includes reentered (st_key s)) steps');;
        mret reentered
  end.
End engine.
