(* ===== verification/Frame.v ===== *)
(** * What the engine's internals leave alone

    The private methods of [Engine] rewrite step rows, post messages and record
    events, but of the mission's row they change the visit counter only. *)

From S2P Require Import Prelude JsStd Vocabulary Plan Graph GraphRun Roster Entities Logic Engine.
#[local] Open Scope Z_scope.

Lemma moves_post_with (R : World → World → Prop) `{!PreOrder R} env room body w :
  (∀ v l, R v (v<|w_posts := l|>)) → moves R (postToRoom env room body) w.
Proof. intros H. unfold moves, postToRoom. destruct (env_post _ _ _); simpl; [reflexivity|apply H]. Qed.

(** The mission's row without its visit counter. *)
Definition row_of (w : World) : Mission := (w_mission w)<|ms_total_visits := 0|>.
Definition same_row (w w' : World) : Prop := row_of w' = row_of w.

#[export] Instance same_row_preorder : PreOrder same_row.
Proof. unfold same_row. split; [done|intros u v w H1 H2; congruence]. Qed.

Definition status_of (w : World) : string := ms_status (w_mission w).

Lemma same_row_status w w' : same_row w w' → status_of w' = status_of w.
Proof. intros H. exact (f_equal ms_status H). Qed.

(** Writes that do not name the mission's row, or name its counter only. *)
#[export] Hint Extern 1 (moves same_row (recordEvent _ _ _) _) => reflexivity : moves.
#[export] Hint Extern 1 (moves same_row (save_step _) _) => reflexivity : moves.
#[export] Hint Extern 1 (moves same_row (save_steps _) _) => reflexivity : moves.
#[export] Hint Extern 1 (moves same_row (fresh_uuid _) _) => reflexivity : moves.
#[export] Hint Extern 1 (moves same_row (update_mission bump_visits) _) => reflexivity : moves.

Lemma same_row_post env room body w : moves same_row (postToRoom env room body) w.
Proof. by apply moves_post_with; [typeclasses eauto|]. Qed.
#[export] Hint Resolve same_row_post : moves.

Section frame.
Context (env : Env).

Lemma same_row_requireRuntime s w : moves same_row (requireRuntime env s) w.
Proof. unfold requireRuntime. moves_auto. Qed.
#[local] Hint Resolve same_row_requireRuntime : moves.

Lemma same_row_dispatch now s r w : moves same_row (dispatchStep env now s r) w.
Proof. unfold dispatchStep. moves_auto. Qed.
#[local] Hint Resolve same_row_dispatch : moves.

Lemma same_row_regular now : ∀ l ps w, moves same_row (pump_regular env now ps l) w.
Proof.
  induction l as [|s l IH]; intros ps w; simpl; unfold mark_ready, pump_dispatch, dispatch_failed;
    moves_auto; apply IH.
Qed.
#[local] Hint Resolve same_row_regular : moves.

Lemma same_row_pump now w : moves same_row (pump env now) w.
Proof.
  unfold pump. moves_auto. apply moves_loop; [typeclasses eauto|]. intros ps s v _.
  unfold pump_gate, openConfirmGate. moves_auto.
Qed.

Lemma same_row_propagate now w : moves same_row (propagateBlocking now) w.
Proof. unfold propagateBlocking. moves_auto. Qed.

Lemma same_row_unblock w : moves same_row unblockAutoBlockedDependents w.
Proof. unfold unblockAutoBlockedDependents. moves_auto. Qed.

Lemma same_row_wake pumped fallback w : moves same_row (wakeAfterPump env pumped fallback) w.
Proof. unfold wakeAfterPump, decideWake. moves_auto. Qed.

Lemma same_row_transitions step w : moves same_row (applyGraphTransitions step) w.
Proof.
  unfold applyGraphTransitions. moves_auto. apply moves_loop; [typeclasses eauto|].
  intros [steps keys] e v _. unfold reenter. moves_auto.
Qed.
End frame.
#[export] Hint Resolve same_row_dispatch same_row_pump same_row_propagate same_row_unblock same_row_wake
  same_row_transitions : moves.
