(* ===== verification/Rows.v ===== *)
(** * How the rows of a mission change

    A relation between a step row and its later versions, lifted to worlds: rows
    keep their place and identity, each evolves by the relation, and new rows are
    only added at the end.  [evolves] also carries what makes the rows
    identifiable — distinct ids and keys, and no id the generator still has to
    hand out — so a client proves row facts without restating it. *)

From S2P Require Import Prelude JsStd Vocabulary Plan Graph GraphFacts GraphRun Roster Entities Logic Engine Frame.
#[local] Open Scope Z_scope.

(** The identity a row keeps. *)
Definition same_identity (s s' : Step) : Prop := st_id s = st_id s' ∧ st_key s = st_key s'.

(** A relation between versions of a row. *)
Class RowRelation (R : Step → Step → Prop) : Prop := {
  row_preorder :: PreOrder R;
  row_identity s s' : R s s' → same_identity s s'
}.

(** What new rows may be, and become. *)
Class Births (R : Step → Step → Prop) (B : Step → Prop) : Prop :=
  births_closed : ∀ s s', B s → R s s' → B s'.

(** [randomUUID] never repeats itself. *)
Definition distinct_uuids (env : Env) : Prop := ∀ n m, env_uuid env n = env_uuid env m → n = m.

(** The keys of the mission's graph. *)
Definition graph_nodes (m : Mission) : list string :=
  match ms_graph_spec m with Some g => node_keys g | None => [] end.

(** The rows are identified by their ids and by their keys, graph nodes by theirs.
    Keys are well formed, and no id is one the generator has still to hand out. *)
Record identified (env : Env) (w : World) : Prop := {
  id_ids : NoDup (List.map st_id (w_steps w));
  id_keys : NoDup (List.map st_key (w_steps w));
  id_named k : k ∈ List.map st_key (w_steps w) → STEP_KEY_PATTERN k = true;
  id_fresh s n : s ∈ w_steps w → (w_nonce w <= n)%nat → env_uuid env n ≠ st_id s;
  id_nodes : NoDup (graph_nodes (w_mission w))
}.

Lemma identified_nonempty env w : identified env w → "" ∉ List.map st_key (w_steps w).
Proof. intros H He%(id_named env w H). discriminate. Qed.

(** A later world with the same graph nodes. *)
Definition onward (w w' : World) : Prop :=
  (w_nonce w <= w_nonce w')%nat ∧ graph_nodes (w_mission w') = graph_nodes (w_mission w).

Lemma onward_refl w w' :
  w_nonce w' = w_nonce w → ms_graph_spec (w_mission w') = ms_graph_spec (w_mission w) → onward w w'.
Proof. unfold onward, graph_nodes. intros -> ->. split; [lia|done]. Qed.

Section rows.
Context (env : Env) (R : Step → Step → Prop) `{!RowRelation R} (B : Step → Prop) `{!Births R B}.

(** The rows of [l], each evolved, and then new ones. *)
Definition grows (l l' : list Step) : Prop := ∃ old new, l' = old ++ new ∧ Forall2 R l old ∧ Forall B new.

Lemma grows_refl l : grows l l.
Proof using Type*. exists l, []. rewrite app_nil_r. split_and!; [done| |constructor]. induction l; constructor; [reflexivity|done]. Qed.

Lemma grows_trans l1 l2 l3 : grows l1 l2 → grows l2 l3 → grows l1 l3.
Proof using Type*.
  intros (o1 & n1 & -> & H1 & B1) (o2 & n2 & -> & H2 & B2).
  apply Forall2_app_inv_l in H2 as (a & b & Ha & Hb & ->).
  exists a, (b ++ n2). rewrite app_assoc. split_and!; [done|by transitivity o1|].
  apply Forall_app. split; [|done]. clear -B1 Hb Births0.
  induction Hb; [constructor|]. inversion B1; subst. constructor; [by eapply births_closed|auto].
Qed.

Lemma grows_all l l' : Forall2 R l l' → grows l l'.
Proof. intros H. exists l', []. rewrite app_nil_r. split_and!; [done|done|constructor]. Qed.

Lemma Forall2_identity l l' :
  Forall2 R l l' → List.map st_id l = List.map st_id l' ∧ List.map st_key l = List.map st_key l'.
Proof using RowRelation0.
  induction 1 as [|s s' l l' H _ [IH1 IH2]]; [done|]. apply row_identity in H as [H1 H2]. simpl. split; congruence.
Qed.

Definition evolves (w w' : World) : Prop :=
  identified env w →
  identified env w' ∧ grows (w_steps w) (w_steps w') ∧ (w_nonce w <= w_nonce w')%nat.

#[export] Instance evolves_preorder : PreOrder evolves.
Proof using Type*.
  split.
  - intros w H. split_and!; [done|apply grows_refl|lia].
  - intros u v w H1 H2 H. destruct (H1 H) as (Hv & G1 & N1). destruct (H2 Hv) as (Hw & G2 & N2).
    split_and!; [done|by eapply grows_trans|lia].
Qed.

(** Every row of the new world is the row of the old one, evolved. *)
Lemma evolves_rows w w' :
  Forall2 R (w_steps w) (w_steps w') → onward w w' → evolves w w'.
Proof using Type*.
  intros HR [Hn Hg] [Hi Hk Hm Hf Hnodes]. split_and!; [|by apply grows_all|done].
  destruct (Forall2_identity _ _ HR) as [Ei Ek]. constructor; [by rewrite <- Ei|by rewrite <- Ek|by rewrite <- Ek| |by rewrite Hg].
  intros s n Hs Hle. apply (elem_of_map_2 st_id) in Hs. rewrite <- Ei in Hs.
  apply elem_of_map in Hs as (x & -> & Hx). apply Hf; [done|lia].
Qed.

Lemma evolves_same w w' : w_steps w' = w_steps w → onward w w' → evolves w w'.
Proof using Type*. intros Hs. apply evolves_rows. rewrite Hs. induction (w_steps w); constructor; [reflexivity|done]. Qed.

Lemma evolves_map f w w' :
  w_steps w' = List.map f (w_steps w) → (∀ s, s ∈ w_steps w → R s (f s)) → onward w w' →
  evolves w w'.
Proof using Type*.
  intros Hs Hf. apply evolves_rows. rewrite Hs. clear Hs w'. induction (w_steps w) as [|s l IH]; constructor.
  - apply Hf, list_elem_of_here.
  - apply IH. intros x Hx. by apply Hf, list_elem_of_further.
Qed.

Lemma evolves_put s x w w' :
  x ∈ w_steps w → R x s → w_steps w' = put_step s (w_steps w) → onward w w' → evolves w w'.
Proof using Type*.
  intros Hx HR Hs Hn Hi. refine (evolves_map (λ y, if String.eqb (st_id y) (st_id s) then s else y) w w' Hs _ Hn Hi).
  intros y Hy. cbv beta. destruct (String.eqb (st_id y) (st_id s)) eqn:E; [|reflexivity]. apply String.eqb_eq in E.
  assert (y = x) as ->; [|done]. apply (NoDup_fmap_inj_on st_id (w_steps w)); [apply Hi|done|done|].
  apply row_identity in HR as [? _]. congruence.
Qed.

(** ** The rules for the repository operations *)

Lemma evolves_save s x w : x ∈ w_steps w → R x s → moves evolves (save_step s) w.
Proof using Type*. intros Hx HR. apply (evolves_put s x); [done..|]. by apply onward_refl. Qed.

(** Saving updated versions of rows of the world, however often. *)
Lemma evolves_save_map f q w :
  (∀ s, s ∈ q → s ∈ w_steps w) → (∀ s, st_id (f s) = st_id s) → (∀ s, s ∈ q → R s (f s)) →
  moves evolves (save_steps (List.map f q)) w.
Proof using Type*.
  intros Hq Hid Hf Hi. assert (Hnd := id_ids _ _ Hi). revert Hi.
  apply (evolves_map (λ s, if includes (List.map st_id q) (st_id s) then f s else s)); [| |by apply onward_refl].
  - simpl. rewrite <- (List.map_id (w_steps w)) at 1. by apply save_each.
  - intros s Hs. destruct (includes _ _) eqn:E; [|reflexivity]. apply includes_true, elem_of_map in E as (y & Hy & Hin).
    apply Hf. assert (s = y) as ->; [|done]. by apply (NoDup_fmap_inj_on st_id (w_steps w)); [|done|apply Hq|].
Qed.

Lemma evolves_modify f w :
  w_steps (f w) = w_steps w → w_nonce (f w) = w_nonce w →
  ms_graph_spec (w_mission (f w)) = ms_graph_spec (w_mission w) → moves evolves (modify f) w.
Proof using Type*. intros Hs Hn Hg. apply evolves_same; [exact Hs|by apply onward_refl]. Qed.

Lemma evolves_update f w : (∀ m, ms_graph_spec (f m) = ms_graph_spec m) → moves evolves (update_mission f) w.
Proof using Type*. intros H. by apply evolves_modify; [..|apply H]. Qed.

(** A new graph, whose nodes are distinct. *)
Lemma evolves_graph f w : NoDup (graph_nodes (f (w_mission w))) → moves evolves (update_mission f) w.
Proof using Type*.
  intros Hg [Hi Hk Hm Hf _]. split_and!; [by constructor|apply grows_refl|simpl; lia].
Qed.

Lemma evolves_event t k ks w : moves evolves (recordEvent t k ks) w.
Proof using Type*. by apply evolves_modify. Qed.

Lemma evolves_uuid w : moves evolves (fresh_uuid env) w.
Proof using Type*. apply evolves_same; [done|]. split; [simpl; lia|done]. Qed.

Lemma evolves_post room body w : moves evolves (postToRoom env room body) w.
Proof using Type*. apply moves_post_with; [typeclasses eauto|]. intros v l. apply evolves_same; [done|]. by apply onward_refl. Qed.

(** What [identified] gives may be used in a proof about [evolves]. *)
Lemma evolves_assuming {A} (m : M A) w : (identified env w → moves evolves m w) → moves evolves m w.
Proof. intros H Hi. by apply H. Qed.
End rows.

#[export] Hint Extern 1 (moves (evolves _ _ _) (recordEvent _ _ _) _) => apply evolves_event; typeclasses eauto : moves.
#[export] Hint Extern 1 (moves (evolves _ _ _) (fresh_uuid _) _) => apply evolves_uuid; typeclasses eauto : moves.
#[export] Hint Extern 1 (moves (evolves _ _ _) (postToRoom _ _ _) _) => apply evolves_post; typeclasses eauto : moves.
#[export] Hint Extern 1 (moves (evolves _ _ _) (update_mission _) _) => apply evolves_update; [typeclasses eauto..|reflexivity] : moves.

(** ** Rows a method leaves alone *)

(** Every row but the ones with these ids is still there. *)
Definition spares (ids : list string) (w w' : World) : Prop :=
  ∀ x, x ∈ w_steps w → st_id x ∉ ids → x ∈ w_steps w'.

#[export] Instance spares_preorder ids : PreOrder (spares ids).
Proof. split; [intros w x H _; exact H|intros u v w H1 H2 x Hx Hne; auto]. Qed.

Lemma spares_same ids w w' : w_steps w' = w_steps w → spares ids w w'.
Proof. intros H x Hx _. by rewrite H. Qed.

Lemma spares_more ids ids' {A} (m : M A) w :
  (∀ i, i ∈ ids → i ∈ ids') → moves (spares ids) m w → moves (spares ids') m w.
Proof. intros Hi Hm x Hx Hne. apply Hm; [done|]. intros H. by apply Hne, Hi. Qed.

Lemma spares_save s ids w : st_id s ∈ ids → moves (spares ids) (save_step s) w.
Proof. intros Hs x Hx Hne. apply put_step_kept; [done|]. intros H. apply Hne. by rewrite H. Qed.

Lemma spares_post ids env room body w : moves (spares ids) (postToRoom env room body) w.
Proof. apply moves_post_with; [typeclasses eauto|]. intros v l. by apply spares_same. Qed.

#[export] Hint Extern 1 (moves (spares _) (recordEvent _ _ _) _) => by apply spares_same : moves.
#[export] Hint Extern 1 (moves (spares _) (fresh_uuid _) _) => by apply spares_same : moves.
#[export] Hint Extern 1 (moves (spares _) (update_mission _) _) => by apply spares_same : moves.
#[export] Hint Resolve spares_post : moves.

(** ** Ids never handed out twice *)

Definition nonce_grows (w w' : World) : Prop := (w_nonce w <= w_nonce w')%nat.

#[export] Instance nonce_grows_preorder : PreOrder nonce_grows.
Proof. unfold nonce_grows. split; [intros w; lia|intros u v w; lia]. Qed.

Lemma nonce_grows_post env room body w : moves nonce_grows (postToRoom env room body) w.
Proof. apply moves_post_with; [typeclasses eauto|]. intros v l. unfold nonce_grows. simpl. lia. Qed.

#[export] Hint Extern 1 (moves nonce_grows (recordEvent _ _ _) _) => (unfold moves, nonce_grows; simpl; lia) : moves.
#[export] Hint Extern 1 (moves nonce_grows (fresh_uuid _) _) => (unfold moves, nonce_grows; simpl; lia) : moves.
#[export] Hint Extern 1 (moves nonce_grows (update_mission _) _) => (unfold moves, nonce_grows; simpl; lia) : moves.
#[export] Hint Extern 1 (moves nonce_grows (save_step _) _) => (unfold moves, nonce_grows; simpl; lia) : moves.
#[export] Hint Resolve nonce_grows_post : moves.
