(* ===== verification/Classify.v ===== *)
(** * What the engine relies on in a classification

    The pump, blocking and waking work from a [Progress]: the keys of a mission's
    steps sorted into classes.  [Classification] states what they rely on; the
    plan engine and the graph engine implement it, and so does [progressOf],
    which picks one of them by the mission. *)

From S2P Require Import Prelude JsStd Vocabulary Plan Graph GraphFacts GraphRun Roster Entities Engine Rows.
#[local] Open Scope Z_scope.

Class Classification (knows : list string → Prop) (classify : list Step → Progress) : Prop := {
  cl_inFlight steps s :
    NoDup (List.map st_key steps) → knows (List.map st_key steps) →
    s ∈ steps → isInFlight (st_status s) = true → st_key s ∈ pr_inFlight (classify steps);
  cl_dispatchable steps s :
    NoDup (List.map st_key steps) → s ∈ steps →
    st_key s ∈ pr_dispatchable (classify steps) → open_status (st_status s);
  cl_newlyBlocked steps s :
    NoDup (List.map st_key steps) → s ∈ steps →
    st_key s ∈ pr_newlyBlocked (classify steps) → open_status (st_status s)
}.

(** ** The classes of open steps *)

Definition settled_class (c : step_class) : bool :=
  match c with cls_inFlight | cls_awaitingUser | cls_done | cls_failed => true | _ => false end.

Lemma scan_deps_open byKey ds : ∀ w, settled_class (scan_deps byKey ds w) = false.
Proof.
  induction ds as [|d ds IH]; intros w; simpl; [by destruct w|].
  destruct (JMap.get byKey d); [|done]. by destruct (includes _ _).
Qed.

Lemma plan_class_settled byKey s : settled_class (plan_class byKey s) = false → open_status (sv_status s).
Proof.
  unfold open_status. rewrite <- (plan_class_terminal byKey). unfold plan_class.
  destruct (isInFlight _); [discriminate|]. destruct (isAwaitingUser _); [discriminate|].
  destruct (_ || _); [discriminate|]. destruct (_ || _); [discriminate|]. intros H.
  split_and!; [done|done|]. by destruct (scan_deps _ _ _).
Qed.

Lemma graph_class_settled g byKey n :
  settled_class (graph_class g byKey n) = false → open_status (node_status byKey (gn_key n)).
Proof.
  unfold open_status. rewrite <- (graph_class_terminal g byKey n). unfold graph_class.
  destruct (isInFlight _); [discriminate|]. destruct (isAwaitingUser _); [discriminate|].
  destruct (_ || _); [discriminate|]. destruct (_ && _); [discriminate|]. intros H.
  split_and!; [done|done|]. by destruct (join_class _ _).
Qed.

(** ** The plan engine *)

Definition plan_progress (steps : list Step) : Progress :=
  computePlanProgress (List.map view_plan (List.map step_view steps)).

Definition plan_views (steps : list Step) : list (string * StepStateView) :=
  views_by_key (List.map view_plan (List.map step_view steps)).

Lemma plan_progress_class c steps s :
  NoDup (List.map st_key steps) → s ∈ steps →
  st_key s ∈ class_list c (plan_progress steps) ↔ plan_class (plan_views steps) (view_plan (step_view s)) = c.
Proof.
  intros Hnd Hs. unfold plan_progress. rewrite computePlanProgress_classify, class_list_elem. split.
  - intros (v & Hv & Hk & Hc). apply elem_of_map in Hv as (m & -> & Hv). apply elem_of_map in Hv as (s' & -> & Hs').
    simpl in Hk. assert (s' = s) as -> by (by eapply (NoDup_fmap_inj_on st_key)). exact Hc.
  - intros Hc. exists (view_plan (step_view s)). split_and!; [|done|done].
    apply elem_of_map. exists (step_view s). split; [done|]. apply elem_of_map. eauto.
Qed.

#[export] Instance plan_classification : Classification (λ _, True) plan_progress.
Proof.
  split; intros steps s Hnd.
  - intros _ Hs Hf. apply (plan_progress_class cls_inFlight); [done|done|]. unfold plan_class. simpl. by rewrite Hf.
  - intros Hs H. apply (plan_progress_class cls_dispatchable) in H; [|done|done].
    apply (plan_class_settled (plan_views steps) (view_plan (step_view s))). by rewrite H.
  - intros Hs H. apply (plan_progress_class cls_newlyBlocked) in H; [|done|done].
    apply (plan_class_settled (plan_views steps) (view_plan (step_view s))). by rewrite H.
Qed.

(** ** The graph engine *)

Definition graph_progress (g : GraphSpec) (steps : list Step) : Progress :=
  gp_progress (computeGraphProgress g (List.map view_state (List.map step_view steps))).

Definition graph_states (steps : list Step) : list (string * GraphNodeState) :=
  states_by_key (List.map view_state (List.map step_view steps)).

Lemma graph_states_status steps s :
  NoDup (List.map st_key steps) → s ∈ steps → node_status (graph_states steps) (st_key s) = st_status s.
Proof.
  intros Hnd Hs. unfold node_status, graph_states, states_by_key.
  assert (Hnd' : NoDup (List.map ns_key (List.map view_state (List.map step_view steps))))
    by (by rewrite !List.map_map).
  rewrite (proj2 (JMap.get_index_by ns_key _ (st_key s) (step_state s) Hnd')); [done|].
  split; [|done]. apply elem_of_map. exists (step_view s). split; [done|]. apply elem_of_map. eauto.
Qed.

Lemma graph_progress_class g c steps k :
  k ∈ class_list c (graph_progress g steps) ↔
  ∃ n, n ∈ gs_nodes g ∧ gn_key n = k ∧ graph_class g (graph_states steps) n = c.
Proof. unfold graph_progress. by rewrite gp_progress_classify, class_list_elem. Qed.

(** Every step is a node of the graph. *)
Definition covered_by (g : GraphSpec) (keys : list string) : Prop :=
  NoDup (node_keys g) ∧ ∀ k, k ∈ keys → k ∈ node_keys g.

Lemma graph_open_class g c steps s :
  settled_class c = false → NoDup (List.map st_key steps) → s ∈ steps →
  st_key s ∈ class_list c (graph_progress g steps) → open_status (st_status s).
Proof.
  intros Hc Hnd Hs (n & Hn & Hk & Hcl)%graph_progress_class.
  rewrite <- (graph_states_status steps s), <- Hk by done. apply (graph_class_settled g). by rewrite Hcl.
Qed.

#[export] Instance graph_classification g : Classification (covered_by g) (graph_progress g).
Proof.
  split; intros steps s Hnd.
  - intros [_ Hc] Hs Hf. apply (graph_progress_class g cls_inFlight).
    assert (Hk : st_key s ∈ node_keys g) by (apply Hc, elem_of_map; eauto).
    apply elem_of_map in Hk as (n & Hn & Hin). exists n. split_and!; [done|done|].
    unfold graph_class. rewrite <- Hn, graph_states_status by done. by rewrite Hf.
  - by apply (graph_open_class g cls_dispatchable).
  - by apply (graph_open_class g cls_newlyBlocked).
Qed.

(** ** The mission's engine *)

(** Every step is a node of the graph, when there is one. *)
Definition covers (spec : option GraphSpec) (keys : list string) : Prop :=
  match spec with None => True | Some g => covered_by g keys end.

#[export] Instance mission_classification mission :
  Classification (covers (ms_graph_spec mission)) (progressOf mission).
Proof.
  unfold progressOf, computeMissionProgress.
  destruct (ms_graph_spec mission) as [g|]; [apply (graph_classification g)|apply plan_classification].
Qed.

(** ** Each step is listed once *)

Lemma class_list_distinct {A} (key : A → string) cls c l :
  NoDup (List.map key l) → NoDup (class_list c (foldl (classify_step key cls) empty_progress l)).
Proof.
  intros H. rewrite class_list_fold. replace (class_list c empty_progress) with (@nil string) by (by destruct c).
  by apply NoDup_map_lfilter.
Qed.

Lemma dispatchable_distinct mission steps :
  NoDup (List.map st_key steps) → NoDup (graph_nodes mission) → NoDup (pr_dispatchable (progressOf mission steps)).
Proof.
  unfold graph_nodes, progressOf, computeMissionProgress. intros Hk Hn. destruct (ms_graph_spec mission) as [g|].
  - rewrite gp_progress_classify. by apply (class_list_distinct gn_key _ cls_dispatchable).
  - rewrite computePlanProgress_classify. apply (class_list_distinct sv_step_key _ cls_dispatchable).
    by rewrite !List.map_map.
Qed.

(** The rows picked by distinct keys are distinct. *)
Lemma picked_distinct (l : list Step) ks :
  NoDup (List.map st_key l) → NoDup ks → NoDup (List.map st_key (omap (JMap.get (JMap.index_by st_key l)) ks)).
Proof.
  intros Hl. induction 1 as [|k ks Hk _ IH]; [constructor|]. cbn.
  destruct (JMap.get _ k) as [s|] eqn:Eg; [|exact IH]. cbn. constructor; [|exact IH].
  apply (JMap.get_index_by st_key) in Eg as [_ <-]; [|done]. intros (x & He & Hx)%elem_of_map.
  apply list_elem_of_omap in Hx as (k' & Hk' & Hg). apply (JMap.get_index_by st_key) in Hg as [_ <-]; [|done]. congruence.
Qed.
