(* ===== verification/Limits.v ===== *)
(** * The limits the pump keeps

    What classification says about a mission's steps, and the invariant that
    bounds how many of them are in flight: whatever the engine's internals do,
    the number of steps in flight stays under any bound that is at least
    [max_parallel_steps] and holds already. *)

From S2P Require Import Prelude JsStd Vocabulary Plan Graph GraphFacts GraphRun Roster Entities Logic PostActions Engine Classify.
#[local] Open Scope Z_scope.

(** ** Listing *)

Lemma elem_of_listing (l : list Step) s : s ∈ sort_by st_position l ↔ s ∈ l.
Proof. by rewrite sort_by_perm. Qed.

Definition step_sig (s : Step) : string * string := (st_id s, st_key s).

Definition running_step (s : Step) : bool := isInFlight (st_status s).

Definition in_flight_count (l : list Step) : Z := Z.of_nat (length (lfilter running_step l)).

Lemma in_flight_count_perm l l' : l ≡ₚ l' → in_flight_count l = in_flight_count l'.
Proof.
  intros H. unfold in_flight_count. f_equal. induction H as [|x l l' _ IH|x y l|l1 l2 l3 _ IH1 _ IH2]; simpl; try done.
  - destruct (running_step x); simpl; congruence.
  - by destruct (running_step x), (running_step y).
  - congruence.
Qed.

(** ** Classification of a mission's steps *)

Lemma in_flight_count_listed mission steps :
  NoDup (List.map st_key steps) → covers (ms_graph_spec mission) (List.map st_key steps) →
  in_flight_count steps <= Z.of_nat (length (pr_inFlight (progressOf mission steps))).
Proof.
  intros Hnd Hc. unfold in_flight_count. apply Nat2Z.inj_le.
  rewrite <- (List.length_map st_key). apply NoDup_subset_length; [by apply NoDup_map_lfilter|].
  intros k (s & -> & Hs)%elem_of_map. apply elem_of_lfilter in Hs as [Hs Hf]. by apply cl_inFlight.
Qed.

(** ** Writing rows *)

Lemma put_step_absent s l : st_id s ∉ List.map st_id l → put_step s l = l.
Proof.
  intros H. unfold put_step. rewrite <- (List.map_id l) at 2. apply map_ext_in. intros x Hx.
  destruct (String.eqb (st_id x) (st_id s)) eqn:E; [|done]. apply String.eqb_eq in E.
  exfalso. apply H, elem_of_map. exists x. split; [congruence|by apply list_elem_of_In].
Qed.

(** Writing a row adds it to the count, and takes the row it replaces out. *)
Lemma in_flight_count_put s l :
  NoDup (List.map st_id l) →
  in_flight_count (put_step s l) <= in_flight_count l + (if running_step s then 1 else 0) ∧
  ∀ x, x ∈ l → st_id x = st_id s → running_step x = true → in_flight_count (put_step s l) <= in_flight_count l.
Proof.
  unfold in_flight_count. induction l as [|y l IH]; intros Hnd.
  - split; [simpl; destruct (running_step s); lia|intros x Hx; inversion Hx].
  - cbn [List.map] in Hnd. inversion Hnd as [|? ? Hy Hnd']; subst. specialize (IH Hnd') as [IH1 IH2].
    change (put_step s (y :: l)) with ((if String.eqb (st_id y) (st_id s) then s else y) :: put_step s l).
    rewrite !lfilter_cons. destruct (String.eqb (st_id y) (st_id s)) eqn:E.
    + apply String.eqb_eq in E. rewrite (put_step_absent s l) by congruence. split.
      * destruct (running_step s), (running_step y); simpl; lia.
      * intros x [->|Hx]%elem_of_cons He Hr.
        -- rewrite Hr. destruct (running_step s); simpl; lia.
        -- exfalso. apply Hy, elem_of_map. exists x. split; [congruence|done].
    + apply String.eqb_neq in E. split; [destruct (running_step y); simpl; lia|].
      intros x [->|Hx]%elem_of_cons He Hr; [done|]. specialize (IH2 x Hx He Hr).
      destruct (running_step y); simpl; lia.
Qed.

Lemma put_step_twice s s' l : st_id s = st_id s' → put_step s (put_step s' l) = put_step s l.
Proof.
  intros He. unfold put_step. rewrite List.map_map. apply List.map_ext. intros x.
  destruct (String.eqb (st_id x) (st_id s')) eqn:E; [|by rewrite He, E].
  rewrite He, E. by rewrite String.eqb_refl.
Qed.

Lemma put_step_sig s l :
  NoDup (List.map st_id l) → step_sig s ∈ List.map step_sig l →
  List.map step_sig (put_step s l) = List.map step_sig l.
Proof.
  intros Hnd Hs. unfold put_step. rewrite List.map_map. apply map_ext_in. intros x Hx.
  destruct (String.eqb (st_id x) (st_id s)) eqn:E; [|done]. apply String.eqb_eq in E.
  apply elem_of_map in Hs as (y & Hy & Hin). apply list_elem_of_In in Hx.
  assert (x = y) as -> by (eapply (NoDup_fmap_inj_on st_id); eauto; unfold step_sig in Hy; congruence). done.
Qed.

(** Unblocking leaves the other rows in place. *)
Lemma unblock_keeps x w :
  NoDup (List.map st_id (w_steps w)) → x ∈ w_steps w → auto_blocked_candidate x = false →
  x ∈ w_steps (snd (unblockAutoBlockedDependents w)).
Proof.
  intros Hnd Hx Hc. unfold unblockAutoBlockedDependents, get_mission, listSteps. rewrite !run_gets. cbv zeta.
  set (p := λ s : Step, negb (includes _ (st_key s))).
  destruct (List.map unblock_step _) as [|y l] eqn:El; [done|]. rewrite <- El. clear El y l.
  change (x ∈ foldl (λ l s, put_step s l) (w_steps w)
    (List.map unblock_step (lfilter p (lfilter auto_blocked_candidate (sort_by st_position (w_steps w)))))).
  assert (Hin : ∀ y, y ∈ lfilter p (lfilter auto_blocked_candidate (sort_by st_position (w_steps w))) →
    y ∈ w_steps w ∧ auto_blocked_candidate y = true).
  { intros y [[Hy Hcy]%elem_of_lfilter _]%elem_of_lfilter. by apply elem_of_sort_by in Hy. }
  rewrite <- (List.map_id (w_steps w)) at 1. rewrite save_each; [|done|intros y Hy; by apply Hin|done|done].
  apply elem_of_map. exists x. split; [|done]. case_match eqn:Ei; [|done].
  apply includes_true, elem_of_map in Ei as (y & Hid & Hy). apply Hin in Hy as [Hy Hcy].
  assert (x = y) as ->; [|congruence]. by apply (NoDup_fmap_inj_on st_id (w_steps w)).
Qed.

(** ** The bound on steps in flight *)

Section bound.
Context (env : Env) (sig0 : list (string * string)) (spec0 : option GraphSpec) (maxp B : Z).
Context (Hids : NoDup (List.map fst sig0)) (Hkeys : NoDup (List.map snd sig0)).
Context (Hcovers : covers spec0 (List.map snd sig0)) (HB : maxp <= B).

(** The rows are the ones the mission started with, and few are in flight. *)
Record bounded (w : World) : Prop := {
  bd_sig : List.map step_sig (w_steps w) = sig0;
  bd_spec : ms_graph_spec (w_mission w) = spec0;
  bd_par : ms_max_parallel_steps (w_mission w) = maxp;
  bd_count : in_flight_count (w_steps w) <= B
}.

Definition keeps_bound (w w' : World) : Prop := bounded w → bounded w'.

#[export] Instance keeps_bound_preorder : PreOrder keeps_bound.
Proof. unfold keeps_bound. split; [intros w H; exact H|intros u v w H1 H2 H; auto]. Qed.

Lemma bounded_ids w : bounded w → NoDup (List.map st_id (w_steps w)).
Proof.
  intros H. pose proof Hids as Hn. rewrite <- (bd_sig w H), List.map_map in Hn. exact Hn.
Qed.

Lemma bounded_keys w : bounded w → List.map st_key (w_steps w) = List.map snd sig0.
Proof. intros H. rewrite <- (bd_sig w H), List.map_map. done. Qed.

Lemma bounded_elem w s : bounded w → s ∈ w_steps w → step_sig s ∈ sig0.
Proof. intros H Hs. rewrite <- (bd_sig w H). apply elem_of_map. eauto. Qed.

(** A write that touches neither the rows nor the limits. *)
Lemma bounded_same w w' :
  bounded w → w_steps w' = w_steps w → ms_graph_spec (w_mission w') = ms_graph_spec (w_mission w) →
  ms_max_parallel_steps (w_mission w') = ms_max_parallel_steps (w_mission w) → bounded w'.
Proof. intros [? ? ? ?] Hs Hg Hp. constructor; rewrite ?Hs, ?Hg, ?Hp; done. Qed.

Lemma moves_mission f w :
  (∀ m, ms_graph_spec (f m) = ms_graph_spec m) → (∀ m, ms_max_parallel_steps (f m) = ms_max_parallel_steps m) →
  moves keeps_bound (update_mission f) w.
Proof. intros Hg Hp Hb. eapply bounded_same; [exact Hb|done|apply Hg|apply Hp]. Qed.

Lemma moves_event type key keys w : moves keeps_bound (recordEvent type key keys) w.
Proof. intros Hb. by eapply bounded_same. Qed.

Lemma moves_uuid w : moves keeps_bound (fresh_uuid env) w.
Proof. intros Hb. by eapply bounded_same. Qed.

Lemma moves_post room body w : moves keeps_bound (postToRoom env room body) w.
Proof. unfold moves, postToRoom. destruct (env_post _ _ _); intros Hb; by eapply bounded_same. Qed.

(** Writing one row. *)
Lemma bounded_put w s :
  bounded w → step_sig s ∈ sig0 →
  in_flight_count (put_step s (w_steps w)) <= B → bounded (w<|w_steps ::= put_step s|>).
Proof.
  intros Hb Hs Hc. pose proof (bounded_ids w Hb) as Hi. destruct Hb as [Hsig ? ? ?].
  constructor; simpl; try done. rewrite put_step_sig; [done|done|by rewrite Hsig].
Qed.

(** A row that is not in flight any more, or not yet. *)
Lemma bounded_save_idle s w :
  step_sig s ∈ sig0 → running_step s = false → moves keeps_bound (save_step s) w.
Proof.
  intros Hs Hr Hb. apply bounded_put; [done|done|].
  destruct (in_flight_count_put s (w_steps w) (bounded_ids w Hb)) as [H _]. rewrite Hr in H.
  pose proof (bd_count w Hb). lia.
Qed.

(** A row whose version on record is in flight already. *)
Lemma bounded_save_running s x w :
  step_sig s ∈ sig0 → x ∈ w_steps w → st_id x = st_id s → running_step x = true →
  moves keeps_bound (save_step s) w.
Proof.
  intros Hs Hx He Hr Hb. apply bounded_put; [done|done|].
  destruct (in_flight_count_put s (w_steps w) (bounded_ids w Hb)) as [_ H]. specialize (H x Hx He Hr).
  pose proof (bd_count w Hb). lia.
Qed.

Lemma bounded_save_all ss : ∀ w,
  (∀ s, s ∈ ss → step_sig s ∈ sig0 ∧ running_step s = false) → moves keeps_bound (save_steps ss) w.
Proof.
  unfold moves, save_steps, modify. simpl. induction ss as [|s ss IH]; intros w Hss Hb; simpl.
  - by eapply bounded_same.
  - destruct (Hss s (list_elem_of_here _ _)) as [H1 H2].
    assert (Hb' := bounded_save_idle s w H1 H2 Hb).
    refine (IH (w<|w_steps ::= put_step s|>) _ Hb'). intros x Hx. by apply Hss, list_elem_of_further.
Qed.

(** What is proved of the world may be assumed of it. *)
Lemma assuming {A} (m : M A) w : (bounded w → moves keeps_bound m w) → moves keeps_bound m w.
Proof. intros H Hb. by apply H. Qed.

(** ** Dispatching *)

Lemma requireRuntime_same step w : snd (requireRuntime env step w) = w.
Proof.
  unfold requireRuntime. destruct (execution_spec env step) as [spec|]; [|done].
  unfold mbind, M_bind. by destruct (missionApprovalProblem _), (approvalHostProblem _ _).
Qed.

Lemma postToRoom_same room body w :
  w_steps (snd (postToRoom env room body w)) = w_steps w ∧ w_mission (snd (postToRoom env room body w)) = w_mission w.
Proof. unfold postToRoom. by destruct (env_post _ _ _). Qed.

(** [dispatchStep] either leaves the rows alone or writes the stamped one. *)
Definition stamped_rows (now : Z) (step : Step) (w w' : World) : Prop :=
  (w_mission w' = w_mission w ∨
   ms_graph_spec (w_mission w) ≠ None ∧ w_mission w' = bump_visits (w_mission w)) ∧
  (w_steps w' = w_steps w ∨
   ∃ token room, w_steps w' = put_step (stamp_attempt now token room step) (w_steps w)).

Lemma dispatchStep_rows now step recovery w :
  stamped_rows now step w (snd (dispatchStep env now step recovery w)).
Proof.
  unfold dispatchStep. pose proof (requireRuntime_same step w) as Hr.
  unfold mbind at 1, M_bind at 1, get_mission, gets. unfold mbind at 1, M_bind at 1, listSteps, gets.
  unfold mbind at 1, M_bind at 1. destruct (requireRuntime env step w) as [[u|e] w1]; simpl in Hr; subst w1;
    [|cbn [snd]; unfold stamped_rows; auto].
  unfold mbind, M_bind, fresh_uuid, save_step, modify, update_mission, recordEvent.
  destruct (ms_graph_spec (w_mission w)) as [g|] eqn:Eg; cbn -[put_step stamped_rows stamp_attempt];
    match goal with |- context [postToRoom env ?r ?b ?v] =>
      pose proof (postToRoom_same r b v) as [Hs Hm]; destruct (postToRoom env r b v) as [[?|?] ?] end;
    cbn -[put_step stamp_attempt] in Hs, Hm |- *; unfold stamped_rows; cbn -[put_step stamp_attempt]; rewrite Hs, Hm;
    cbn -[put_step stamp_attempt]; (split; [|eauto]); try (by left); right; by rewrite Eg.
Qed.

Lemma stamped_limits now step w w' :
  stamped_rows now step w w' →
  ms_graph_spec (w_mission w') = ms_graph_spec (w_mission w) ∧
  ms_max_parallel_steps (w_mission w') = ms_max_parallel_steps (w_mission w).
Proof. intros [[->|[_ ->]] _]; done. Qed.

Definition room_left (slots : Z) (w : World) : Prop := in_flight_count (w_steps w) + slots <= maxp ∨ slots <= 0.

Lemma save_idle_count s w :
  bounded w → running_step s = false →
  in_flight_count (w_steps (snd (save_step s w))) <= in_flight_count (w_steps w).
Proof.
  intros Hb Hr. destruct (in_flight_count_put s (w_steps w) (bounded_ids w Hb)) as [H _].
  rewrite Hr in H. simpl. lia.
Qed.

Lemma dispatch_bounded now step recovery w :
  bounded w → step_sig step ∈ sig0 → in_flight_count (w_steps w) < B →
  let w' := snd (dispatchStep env now step recovery w) in
  bounded w' ∧ in_flight_count (w_steps w') <= in_flight_count (w_steps w) + 1 ∧
  ∀ s, st_id s = st_id step → put_step s (w_steps w') = put_step s (w_steps w).
Proof.
  intros Hb Hs Hc w'. pose proof (dispatchStep_rows now step recovery w) as Hd. fold w' in Hd.
  destruct (stamped_limits _ _ _ _ Hd) as [Hg Hp]. destruct Hd as [_ Hrows].
  destruct Hrows as [Hrows|(token & room & Hrows)].
  - rewrite Hrows. split_and!; [by eapply bounded_same|lia|done].
  - set (st := stamp_attempt now token room step) in *.
    destruct (in_flight_count_put st (w_steps w) (bounded_ids w Hb)) as [Hput _].
    change (in_flight_count (put_step st (w_steps w)) <= in_flight_count (w_steps w) + 1) in Hput. rewrite Hrows. split_and!.
    + assert (Hb' : bounded (w<|w_steps ::= put_step st|>)) by (apply bounded_put; [done|done|lia]).
      by eapply bounded_same.
    + lia.
    + intros s Hid. by apply put_step_twice.
Qed.

(** The world a pumping step leaves: still bounded, with room for its slots. *)
Definition pumped_in_room (r : res oerr PumpState * World) : Prop :=
  bounded (snd r) ∧ ∀ ps', fst r = Ok ps' → room_left (ps_slots ps') (snd r).

Lemma pump_dispatch_bound now step slotKey load ps w :
  bounded w → step_sig step ∈ sig0 → 0 < ps_slots ps → room_left (ps_slots ps) w →
  pumped_in_room (pump_dispatch env now step slotKey load ps w).
Proof.
  intros Hb Hs Hpos Hroom. destruct Hroom as [Hroom|?]; [|lia].
  assert (Hlt : in_flight_count (w_steps w) < B) by lia.
  destruct (dispatch_bounded now step false w Hb Hs Hlt) as (Hb' & Hc' & Hput).
  unfold pump_dispatch, try_catch. unfold mbind at 1, M_bind at 1.
  destruct (dispatchStep env now step false w) as [[u|e] w1] eqn:Ed; cbn [snd fst] in *.
  - split; [done|]. intros ps' [= <-]. left. cbn -[in_flight_count]. lia.
  - unfold dispatch_failed, mbind, M_bind, requireStep.
    destruct (find_step w1 (st_id step)) as [current|] eqn:Ef; [|split; [done|discriminate]].
    apply find_step_Some in Ef as [Hin Hid].
    set (failed := fail_dispatch now _ current).
    assert (Hsig : step_sig failed ∈ sig0) by (apply (bounded_elem w1 current Hb' Hin)).
    unfold pumped_in_room. cbn -[put_step]. split; [by apply (bounded_same _ _ (bounded_save_idle failed w1 Hsig eq_refl Hb'))|].
    intros ps' [= <-]. left. cbn -[put_step]. rewrite Hput by done.
    destruct (in_flight_count_put failed (w_steps w) (bounded_ids w Hb)) as [Hx _].
    change (in_flight_count (put_step failed (w_steps w)) <= in_flight_count (w_steps w) + 0) in Hx. lia.
Qed.

Lemma mark_ready_bound s w :
  bounded w → step_sig s ∈ sig0 → running_step s = false →
  bounded (snd (mark_ready s w)) ∧ fst (mark_ready s w) = Ok tt ∧
  in_flight_count (w_steps (snd (mark_ready s w))) <= in_flight_count (w_steps w).
Proof.
  intros Hb Hs Hr. unfold mark_ready. destruct (String.eqb (st_status s) "ready"); [simpl; split_and!; [done|done|lia]|].
  split_and!; [|done|].
  - by apply (bounded_save_idle (s<|st_status := "ready"|>) w).
  - by apply (save_idle_count (s<|st_status := "ready"|>) w).
Qed.

Definition idle_rows (l : list Step) : Prop := ∀ s, s ∈ l → step_sig s ∈ sig0 ∧ running_step s = false.

Lemma idle_tail s l : idle_rows (s :: l) → idle_rows l.
Proof. intros H x Hx. by apply H, list_elem_of_further. Qed.

Lemma pump_regular_bound now : ∀ regular ps w,
  idle_rows regular → bounded w → room_left (ps_slots ps) w → bounded (snd (pump_regular env now ps regular w)).
Proof.
  induction regular as [|s rest IH]; intros ps w Hrows Hb Hroom; [done|].
  destruct (Hrows s (list_elem_of_here _ _)) as [Hs Hr]. cbn [pump_regular].
  unfold mbind at 1, M_bind at 1, get_mission, gets.
  destruct (ps_slots ps <=? 0) eqn:Esl; [done|]. breflect.
  destruct (budget_spent (w_mission w)); [done|].
  assert (Hready : bounded (snd ((mark_ready s;; pump_regular env now ps rest) w))).
  { destruct (mark_ready_bound s w Hb Hs Hr) as (Hb1 & Hok & Hc1). unfold mbind, M_bind.
    destruct (mark_ready s w) as [r w1]. simpl in *. subst r.
    apply IH; [by apply (idle_tail s)|done|]. destruct Hroom; [left; lia|by right]. }
  destruct (negb (truthy _)); [exact Hready|]. cbv zeta. destruct (_ <=? _); [exact Hready|].
  destruct (pump_dispatch_bound now s (loadKey s) (load_get (ps_load ps) (loadKey s)) ps w Hb Hs) as [Hb1 Hroom1];
    [lia|done|]. unfold mbind, M_bind.
  destruct (pump_dispatch env now s (loadKey s) _ ps w) as [[ps'|e] w1]; cbn [snd fst] in *; [|done].
  apply IH; [by apply (idle_tail s)|done|by apply Hroom1].
Qed.

(** Opening a gate: the row waits for a user. *)
Definition gate_kept (ps : PumpState) (w : World) (r : res oerr PumpState * World) : Prop :=
  bounded (snd r) ∧ in_flight_count (w_steps (snd r)) <= in_flight_count (w_steps w) ∧
  ∀ ps', fst r = Ok ps' → ps_slots ps' = ps_slots ps.

Lemma pump_gate_bound now ps s w :
  bounded w → step_sig s ∈ sig0 → gate_kept ps w (pump_gate now ps s w).
Proof.
  intros Hb Hs. unfold pump_gate. unfold mbind at 1, M_bind at 1, get_mission, gets.
  destruct (budget_spent (w_mission w)).
  { unfold gate_kept. cbn -[in_flight_count]. split_and!; [done|lia|by intros ps' [= <-]]. }
  unfold openConfirmGate, mbind, M_bind, get_mission, gets, listSteps. cbv beta iota.
  destruct (ms_graph_spec (w_mission w)) as [g|] eqn:Eg.
  2:{ unfold gate_kept. cbn -[in_flight_count]. split_and!; [done|lia|by intros ps' [= <-]]. }
  set (gate := open_gate now (gate_evidence g s (sort_by st_position (w_steps w))) s).
  assert (Hb1 := bounded_save_idle gate w Hs eq_refl Hb).
  pose proof (save_idle_count gate w Hb eq_refl) as Hc. unfold gate_kept.
  cbn -[in_flight_count put_step open_gate sort_by].
  split_and!; [|exact Hc|by intros ps' [= <-]]. by apply (bounded_same _ _ Hb1).
Qed.

Lemma pump_gates_bound now : ∀ gates ps w,
  (∀ s, s ∈ gates → step_sig s ∈ sig0) → bounded w → room_left (ps_slots ps) w →
  pumped_in_room (loop (pump_gate now) ps gates w).
Proof.
  induction gates as [|s gates IH]; intros ps w Hg Hb Hroom.
  { split; [done|]. by intros ps' [= <-]. }
  cbn [loop]. unfold mbind, M_bind.
  destruct (pump_gate_bound now ps s w Hb (Hg s (list_elem_of_here _ _))) as (Hb1 & Hc1 & Hs1).
  destruct (pump_gate now ps s w) as [[ps1|e] w1]; cbn [snd fst] in *; [|split; [done|discriminate]].
  apply IH; [intros x Hx; by apply Hg, list_elem_of_further|done|].
  specialize (Hs1 _ eq_refl). unfold room_left in *. rewrite Hs1. destruct Hroom; [left; lia|by right].
Qed.

(** ** The pump *)

Lemma listing_keys w :
  bounded w → NoDup (List.map st_key (sort_by st_position (w_steps w))) ∧
  covers (ms_graph_spec (w_mission w)) (List.map st_key (sort_by st_position (w_steps w))).
Proof.
  intros Hb. pose proof (bounded_keys w Hb) as Hk.
  assert (Hp : List.map st_key (sort_by st_position (w_steps w)) ≡ₚ List.map snd sig0)
    by (rewrite <- Hk; by rewrite sort_by_perm).
  split; [by rewrite Hp|]. rewrite (bd_spec w Hb). unfold covers in *. destruct spec0 as [g|]; [|done].
  destruct Hcovers as [? Hc]. split; [done|]. intros k Hin. apply Hc. by rewrite <- Hp.
Qed.

Lemma candidates_rows mission steps s :
  s ∈ pump_candidates steps (progressOf mission steps) → NoDup (List.map st_key steps) →
  s ∈ steps ∧ st_key s ∈ pr_dispatchable (progressOf mission steps).
Proof.
  unfold pump_candidates. rewrite elem_of_listing, list_elem_of_omap. intros (k & Hk & Hg) Hnd.
  apply (JMap.get_index_by st_key) in Hg as [Hs <-]; done.
Qed.

Lemma pump_bound now w : moves keeps_bound (pump env now) w.
Proof.
  intros Hb. unfold pump. unfold mbind at 1, M_bind at 1, get_mission, gets.
  destruct (negb (String.eqb _ _)); [done|]. unfold mbind at 1, M_bind at 1, listSteps, gets.
  cbv zeta. destruct (listing_keys w Hb) as [Hnd Hcv].
  set (steps := sort_by st_position (w_steps w)) in *. set (mission := w_mission w) in *.
  destruct (bool_decide _); [done|]. destruct (_ && _); [done|].
  set (cands := pump_candidates steps (progressOf mission steps)).
  assert (Hrows : idle_rows cands).
  { intros s Hs. destruct (candidates_rows mission steps s Hs Hnd) as [Hin Hd].
    split; [apply (bounded_elem w s Hb); by apply (proj1 (elem_of_listing (w_steps w) s))|].
    by apply (cl_dispatchable steps s Hnd Hin). }
  assert (Hroom : room_left (ps_slots (pump_start mission steps (progressOf mission steps))) w).
  { left. simpl. pose proof (in_flight_count_listed mission steps Hnd Hcv) as Hl.
    assert (Hp : in_flight_count steps = in_flight_count (w_steps w)) by apply in_flight_count_perm, sort_by_perm.
    assert (Hm : ms_max_parallel_steps mission = maxp) by apply (bd_par w Hb). lia. }
  unfold mbind at 1, M_bind at 1.
  destruct (pump_gates_bound now (lfilter (is_confirm mission) cands)
    (pump_start mission steps (progressOf mission steps)) w) as [Hb1 Hroom1]; [|done|done|].
  { intros s [Hs _]%elem_of_lfilter. by apply Hrows. }
  destruct (loop _ _ _ w) as [[ps1|e] w1]; cbn [snd fst] in *; [|done].
  pose proof (pump_regular_bound now (lfilter (λ s, negb (is_confirm mission s)) cands) ps1 w1) as Hreg.
  unfold mbind at 1, M_bind at 1.
  destruct (pump_regular _ _ _ _ w1) as [[ps2|e] w2]; cbn [snd fst] in *;
    (assert (Hb2 : bounded w2); [apply Hreg; [intros s [Hs _]%elem_of_lfilter; by apply Hrows|done|by apply Hroom1]|]); [|done].
  unfold mbind, M_bind. destruct (ps_exhausted ps2); simpl; [|done]. by eapply bounded_same.
Qed.
End bound.
