(* ===== verification/Starting.v ===== *)
(** * When a step starts

    What the pump writes: only the rows of steps whose upstream work is finished,
    and how a loop starts its body again. *)

From S2P Require Import Prelude JsStd Vocabulary Plan Graph GraphFacts GraphRun Roster Entities Logic Samples PostActions.
From S2P Require Import Engine Frame Classify Limits.
#[local] Open Scope Z_scope.

(** A step that has not started and whose upstream work is finished: every
    dependency on record succeeded or was skipped, or, on a graph, the incoming
    edges meet the node's join policy. *)
Definition may_start (mission : Mission) (steps : list Step) (s : Step) : Prop :=
  open_status (st_status s) ∧
  match ms_graph_spec mission with
  | None => ∀ d x, d ∈ default [] (st_depends_on s) → x ∈ steps → st_key x = d →
                   includes DEPENDENCY_SATISFYING_STATUSES (st_status x) = true
  | Some g => ∃ n, n ∈ gs_nodes g ∧ gn_key n = st_key s ∧
                   join_ready (gn_join n) (node_evaluations g (states_by_key (List.map step_state steps)) (st_key s))
  end.

Lemma scan_deps_dispatchable byKey ds : ∀ w,
  scan_deps byKey ds w = cls_dispatchable →
  w = false ∧ ∀ d v, d ∈ ds → JMap.get byKey d = Some v → includes DEPENDENCY_SATISFYING_STATUSES (sv_status v) = true.
Proof.
  induction ds as [|d ds IH]; intros w; simpl.
  - destruct w; [discriminate|]. intros _. split; [done|]. intros d v Hd. inversion Hd.
  - destruct (JMap.get byKey d) as [v|] eqn:Ev.
    + destruct (includes DEPENDENCY_POISONING_STATUSES _); [discriminate|]. intros [Hw Hds]%IH.
      apply orb_false_iff in Hw as [-> Hv]. apply negb_false_iff in Hv. split; [done|].
      intros d' v' [->|Hd]%elem_of_cons Hg; [congruence|by eapply Hds].
    + intros [-> Hds]%IH. split; [done|]. intros d' v' [->|Hd]%elem_of_cons Hg; [congruence|by eapply Hds].
Qed.

Lemma dispatchable_may_start mission steps s :
  NoDup (List.map st_key steps) → s ∈ steps → st_key s ∈ pr_dispatchable (progressOf mission steps) →
  may_start mission steps s.
Proof.
  intros Hnd Hs Hd. split; [by apply (cl_dispatchable (classify := progressOf mission) steps)|].
  unfold progressOf, computeMissionProgress in Hd. destruct (ms_graph_spec mission) as [g|].
  - apply (graph_progress_class g cls_dispatchable) in Hd as (n & Hn & Hk & Hcl).
    apply graph_class_dispatchable in Hcl as [_ Hj]. exists n. split_and!; [done|done|].
    unfold graph_states in Hj. rewrite List.map_map, Hk in Hj. exact Hj.
  - apply (plan_progress_class cls_dispatchable) in Hd; [|done|done].
    unfold plan_class in Hd. simpl in Hd. destruct (isInFlight _); [discriminate|].
    destruct (isAwaitingUser _); [discriminate|]. destruct (_ || _) in Hd; [discriminate|].
    destruct (_ || _) in Hd; [discriminate|]. apply scan_deps_dispatchable in Hd as [_ Hcl].
    intros d x Hd Hx Hk. apply (Hcl d (view_plan (step_view x)) Hd). unfold plan_views, views_by_key.
    apply (JMap.get_index_by sv_step_key); [by rewrite !List.map_map|]. split; [|exact Hk].
    apply elem_of_map. exists (step_view x). split; [done|]. apply elem_of_map. eauto.
Qed.

(** ** The rows a pump writes *)

Section pumped.
Context (env : Env) (rows : list Step) (ids : list string).

(** Every row is one of [rows], or has one of the identities [ids]. *)
Definition only_writes (w : World) : Prop := ∀ s, s ∈ w_steps w → s ∈ rows ∨ st_id s ∈ ids.
Definition keeps_others (w w' : World) : Prop := only_writes w → only_writes w'.

#[export] Instance keeps_others_preorder : PreOrder keeps_others.
Proof. unfold keeps_others. split; [intros w H; exact H|intros u v w H1 H2 H; auto]. Qed.

Lemma others_save s w : st_id s ∈ ids → moves keeps_others (save_step s) w.
Proof. intros Hs Hw x [->|[Hx _]]%elem_of_put_step; [by right|by apply Hw]. Qed.

Lemma others_post room body w : moves keeps_others (postToRoom env room body) w.
Proof. apply moves_post_with; [typeclasses eauto|]. intros v l H. exact H. Qed.

#[local] Hint Extern 1 (moves keeps_others (recordEvent _ _ _) _) => (let H := fresh in intros H; exact H) : moves.
#[local] Hint Extern 1 (moves keeps_others (fresh_uuid _) _) => (let H := fresh in intros H; exact H) : moves.
#[local] Hint Extern 1 (moves keeps_others (update_mission _) _) => (let H := fresh in intros H; exact H) : moves.
#[local] Hint Extern 1 (moves keeps_others (requireRuntime _ _) _) => (unfold requireRuntime; moves_auto) : moves.
#[local] Hint Resolve others_post : moves.

Lemma others_dispatch now s r w : st_id s ∈ ids → moves keeps_others (dispatchStep env now s r) w.
Proof. intros Hs. unfold dispatchStep. moves_auto. by apply others_save. Qed.

Lemma others_regular now : ∀ l ps w,
  (∀ s, s ∈ l → st_id s ∈ ids) → moves keeps_others (pump_regular env now ps l) w.
Proof.
  induction l as [|s l IH]; intros ps w Hl; cbn [pump_regular]; [moves_auto|].
  assert (Hs : st_id s ∈ ids) by (apply Hl, list_elem_of_here).
  assert (IH' : ∀ ps w, moves keeps_others (pump_regular env now ps l) w).
  { intros ps' w'. apply IH. intros x Hx. by apply Hl, list_elem_of_further. }
  unfold mark_ready, pump_dispatch, dispatch_failed. moves_auto.
  all: first [apply IH' | by apply others_save | by apply others_dispatch | apply others_save; simpl; congruence].
Qed.

Lemma others_gate now ps s w : st_id s ∈ ids → moves keeps_others (pump_gate now ps s) w.
Proof. intros Hs. unfold pump_gate, openConfirmGate. moves_auto. by apply others_save. Qed.
End pumped.

(** C15: the pump starts only what may start.  Whatever is delivered or fails to
    be, every row it writes belongs to a step that had not started and whose
    upstream work was finished; all other rows are as they were, and unless the
    mission is running nothing changes at all. *)
Theorem pump_starts_ready_only env now w :
  NoDup (List.map st_key (w_steps w)) →
  let w' := world_of (pump env now) w in
  (status_of w ≠ "running" → w' = w) ∧
  ∀ s', s' ∈ w_steps w' →
    s' ∈ w_steps w ∨ ∃ s, s ∈ w_steps w ∧ st_id s = st_id s' ∧ may_start (w_mission w) (sort_by st_position (w_steps w)) s.
Proof.
  intros Hnd. cbv zeta. split.
  - intros Hst. unfold world_of, pump, get_mission. rewrite run_gets. fold (status_of w).
    apply String.eqb_neq in Hst. by rewrite Hst.
  - set (steps := sort_by st_position (w_steps w)). set (cands := pump_candidates steps (progressOf (w_mission w) steps)).
    assert (Hnd' : NoDup (List.map st_key steps)) by (unfold steps; by rewrite sort_by_perm).
    assert (Hw : moves (keeps_others (w_steps w) (List.map st_id cands)) (pump env now) w).
    { unfold pump, get_mission, listSteps. apply moves_gets_bind. destruct (negb _); [moves_auto|].
      apply moves_gets_bind. cbv zeta. destruct (bool_decide _); [moves_auto|]. fold steps. fold cands.
      destruct (_ && _); [moves_auto|].
      assert (Hids : ∀ p s, s ∈ lfilter p cands → st_id s ∈ List.map st_id cands).
      { intros p s [Hs _]%elem_of_lfilter. apply elem_of_map. eauto. }
      apply moves_bind_all; [typeclasses eauto| |intros ps v; apply moves_bind_all; [typeclasses eauto| |]].
      - apply moves_loop; [typeclasses eauto|]. intros ps s v Hs. by apply others_gate, (Hids _ _ Hs).
      - apply others_regular. intros s Hs. exact (Hids _ _ Hs).
      - intros ps' v'. destruct (ps_exhausted ps'); [|moves_auto].
        apply moves_bind_all; [typeclasses eauto| |intros; moves_auto]. intros H. exact H. }
    intros s' Hs'. destruct (Hw (λ s Hs, or_introl Hs) s' Hs') as [?|Hid]; [by left|right].
    apply elem_of_map in Hid as (s & Hid & Hs). destruct (candidates_rows (w_mission w) steps s Hs Hnd') as [Hin Hd].
    exists s. split_and!; [by apply elem_of_sort_by in Hin|done|by apply dispatchable_may_start].
Qed.

Definition sample_chain : World :=
  sample_world "running" [sample_step "a" "done" [] 0; sample_step "b" "pending" ["a"] 1; sample_step "c" "pending" ["b"] 2].

(** The pump dispatches the second step of the chain, which may start. *)
Lemma pump_starts_ready_only_witness :
  match List.nth_error (w_steps (world_of (pump sample_env 5) sample_chain)) 1 with
  | Some s' => s' ∈ w_steps sample_chain ∨ ∃ s, s ∈ w_steps sample_chain ∧ st_id s = st_id s' ∧
                 may_start (w_mission sample_chain) (sort_by st_position (w_steps sample_chain)) s
  | None => False
  end.
Proof.
  assert (Hnd : NoDup (List.map st_key (w_steps sample_chain))) by (apply (bool_decide_unpack _); vm_compute; exact I).
  destruct (List.nth_error _ 1) as [s'|] eqn:E; [|vm_compute in E; discriminate E].
  apply (proj2 (pump_starts_ready_only sample_env 5 sample_chain Hnd)).
  apply list_elem_of_In. exact (nth_error_In _ _ E).
Defined.

(** ** Re-entering a loop *)

(** The rows after the nodes named by [keys] were reset for another pass. *)
Definition reset_rows (keys : list string) (l : list Step) : list Step :=
  List.map (λ s, if includes keys (st_key s) then reset_for_visit s else s) l.

Lemma reset_rows_keys keys l : List.map st_key (reset_rows keys l) = List.map st_key l.
Proof. unfold reset_rows. rewrite List.map_map. apply List.map_ext. intros s. by destruct (includes _ _). Qed.

Lemma reset_rows_more keys fresh l :
  (∀ k, k ∈ fresh → k ∉ keys) →
  List.map (λ s, if includes fresh (st_key s) then reset_for_visit s else s) (reset_rows keys l) = reset_rows (keys ++ fresh) l.
Proof.
  intros Hf. unfold reset_rows. rewrite List.map_map. apply List.map_ext. intros s. rewrite includes_app.
  destruct (includes keys (st_key s)) eqn:Ek; cbn [orb].
  - change (st_key (reset_for_visit s)) with (st_key s). destruct (includes fresh (st_key s)) eqn:Ef; [|done].
    apply includes_true in Ef, Ek. destruct (Hf _ Ef Ek).
  - done.
Qed.

(** The row a loop goes back to, whatever was reset before. *)
Lemma reset_target keys l k t :
  NoDup (List.map st_key l) → JMap.get (JMap.index_by st_key (reset_rows keys l)) k = Some t →
  ∃ s, s ∈ l ∧ st_key s = k ∧ st_visit s <= st_visit t <= st_visit s + 1.
Proof.
  intros Hnd Hg. apply (JMap.get_index_by st_key) in Hg as [Ht Hk]; [|by rewrite reset_rows_keys].
  apply elem_of_map in Ht as (s & -> & Hs). exists s. destruct (includes keys (st_key s)); simpl in *; split_and!; try done; lia.
Qed.

(** A loop that may fire once more: its target is below its cap. *)
Definition below_cap (g : GraphSpec) (rows : list Step) (slack : Z) (lp : GraphEdge) : Prop :=
  ∃ target node, target ∈ rows ∧ st_key target = ge_to lp ∧
    JMap.get (JMap.index_by gn_key (gs_nodes g)) (ge_to lp) = Some node ∧
    st_visit target + slack <= gn_max_visits node.

Section reentry.
Context (g : GraphSpec) (stepKey : string) (rows : list Step).
Context (Hkeys : NoDup (List.map st_key rows)).

Record reentered_by (fired : list GraphEdge) (acc more : list string) (w w' : World) : Prop := {
  rb_steps : w_steps w' = w_steps w;
  rb_mission : w_mission w' = w_mission w;
  rb_cause : ∀ k, k ∈ more → ∃ lp, lp ∈ fired ∧ k ∈ loopBodyNodes (gs_edges g) lp ∧ below_cap g rows 1 lp;
  rb_all : ∀ lp, lp ∈ fired → below_cap g rows 2 lp →
    ∀ k, k ∈ loopBodyNodes (gs_edges g) lp → k ∈ List.map st_key rows → k ∈ acc ++ more
}.

Lemma reenter_one acc lp w st w' :
  reenter g stepKey (reset_rows acc rows, acc) lp w = (Ok st, w') →
  ∃ more, st = (reset_rows (acc ++ more) rows, acc ++ more) ∧ reentered_by [lp] acc more w w'.
Proof.
  intros H. unfold reenter in H.
  assert (Hnone : ∀ v, v = w → (¬ below_cap g rows 2 lp) → st = (reset_rows acc rows, acc) →
    w_steps w' = w_steps v → w_mission w' = w_mission v →
    ∃ more, st = (reset_rows (acc ++ more) rows, acc ++ more) ∧ reentered_by [lp] acc more w w').
  { intros v -> Hcap -> Hs Hm. exists []. rewrite app_nil_r. split; [done|]. constructor; [done|done| |].
    - intros k Hk. inversion Hk.
    - intros lp' ->%list_elem_of_singleton Hb. done. }
  destruct (JMap.get (JMap.index_by st_key _) (ge_to lp)) as [t|] eqn:Et.
  2:{ injection H as <- <-. apply (Hnone w); try done. intros (s & n & Hs & Hk & _).
      apply (JMap.get_index_by_None st_key) in Et; [|by rewrite reset_rows_keys]. rewrite reset_rows_keys in Et.
      apply Et, elem_of_map. eauto. }
  destruct (JMap.get (JMap.index_by gn_key (gs_nodes g)) (ge_to lp)) as [node|] eqn:En.
  2:{ injection H as <- <-. apply (Hnone w); try done. intros (s & n & _ & _ & Hn & _). congruence. }
  destruct (reset_target acc rows _ _ Hkeys Et) as (s & Hs & Hk & Hv).
  destruct (gn_max_visits node <? st_visit t + 1) eqn:Ecap; breflect; cbv [mbind M_bind recordEvent modify] in H.
  - injection H as <- <-. apply (Hnone w); try done. intros (s' & n & Hs' & Hk' & Hn & Hc).
    assert (n = node) as -> by congruence. assert (s' = s) as -> by (eapply (NoDup_fmap_inj_on st_key); eauto; congruence). lia.
  - rewrite reset_rows_keys in H. set (fresh := lfilter _ _) in H.
    assert (Hf : ∀ k, k ∈ fresh ↔ k ∈ loopBodyNodes (gs_edges g) lp ∧ k ∈ List.map st_key rows ∧ k ∉ acc).
    { intros k. unfold fresh. rewrite elem_of_lfilter, andb_true_iff, negb_true_iff, includes_true, includes_false. done. }
    injection H as <- <-. exists fresh. rewrite reset_rows_more by (intros k Hin; by apply Hf). split; [done|].
    constructor; [done|done| |].
    + intros k Hin. apply Hf in Hin as (Hb & _). exists lp. split_and!; [apply list_elem_of_here|done|].
      exists s, node. split_and!; try done. lia.
    + intros lp' ->%list_elem_of_singleton _ k Hb Hin. apply elem_of_app.
      destruct (includes acc k) eqn:Ea; [left; by apply includes_true|right; apply Hf].
      apply includes_false in Ea. done.
Qed.

Lemma reenter_all fired : ∀ acc w st w',
  loop (reenter g stepKey) (reset_rows acc rows, acc) fired w = (Ok st, w') →
  ∃ more, st = (reset_rows (acc ++ more) rows, acc ++ more) ∧ reentered_by fired acc more w w'.
Proof.
  induction fired as [|lp fired IH]; intros acc w st w' H.
  - injection H as <- <-. exists []. rewrite app_nil_r. split; [done|]. constructor; [done|done| |].
    + intros k Hk. inversion Hk.
    + intros lp Hlp. inversion Hlp.
  - cbn [loop] in H. apply bind_Ok_inv in H as (st1 & w1 & H1 & H2).
    apply reenter_one in H1 as (m1 & -> & [Hs1 Hm1 Hc1 Ha1]). apply IH in H2 as (m2 & -> & [Hs2 Hm2 Hc2 Ha2]).
    exists (m1 ++ m2). rewrite app_assoc. split; [done|]. constructor; [congruence|congruence| |].
    + intros k [Hk|Hk]%elem_of_app.
      * destruct (Hc1 k Hk) as (l & ->%list_elem_of_singleton & ?). exists lp. split; [apply list_elem_of_here|done].
      * destruct (Hc2 k Hk) as (l & Hl & ?). exists l. split; [by apply list_elem_of_further|done].
    + intros l [->|Hl]%elem_of_cons Hb k Hk Hin; rewrite app_assoc.
      * apply elem_of_app. left. by apply (Ha1 lp (list_elem_of_here _ _) Hb k).
      * by apply (Ha2 l Hl Hb k).
Qed.
End reentry.

Lemma reset_filter keys l :
  lfilter (λ s, includes keys (st_key s)) (reset_rows keys l)
  = List.map reset_for_visit (lfilter (λ s, includes keys (st_key s)) l).
Proof.
  induction l as [|s l IH]; [done|]. cbn [reset_rows List.map]. rewrite !lfilter_cons. fold (reset_rows keys l).
  destruct (includes keys (st_key s)) eqn:E; [|rewrite E; exact IH].
  change (st_key (reset_for_visit s)) with (st_key s). rewrite E. cbn [List.map]. by rewrite IH.
Qed.

Lemma reset_rows_nil l : reset_rows [] l = l.
Proof. apply List.map_id. Qed.

Definition fired_loops (g : GraphSpec) (step : Step) : list GraphEdge := firedLoopBacks g (st_key step) (step_state step).

(** C16: loop re-entry.  When a step ends, exactly the reported nodes are reset
    for one more pass — each once, however many loops run through it — and each
    lies on the body of a loop the step fired whose target was below its cap.  A
    fired loop whose target is below its cap with a pass to spare re-enters its
    whole body; one whose target has used its visits re-enters nothing. *)
Theorem loop_reentry step w g keys w' :
  ms_graph_spec (w_mission w) = Some g → NoDup (List.map st_id (w_steps w)) → NoDup (List.map st_key (w_steps w)) →
  applyGraphTransitions step w = (Ok keys, w') →
  w_steps w' = reset_rows keys (w_steps w) ∧ w_mission w' = w_mission w ∧
  (∀ k, k ∈ keys → ∃ lp, lp ∈ fired_loops g step ∧ k ∈ loopBodyNodes (gs_edges g) lp ∧ below_cap g (w_steps w) 1 lp) ∧
  (∀ lp, lp ∈ fired_loops g step → below_cap g (w_steps w) 2 lp →
     ∀ k, k ∈ loopBodyNodes (gs_edges g) lp → k ∈ List.map st_key (w_steps w) → k ∈ keys).
Proof.
  intros Hg Hids Hkeys H. unfold applyGraphTransitions, get_mission in H. rewrite run_gets, Hg in H. cbv zeta in H.
  apply bind_Ok_inv in H as (u & v & Hsel & H).
  assert (Hv : w_steps v = w_steps w ∧ w_mission v = w_mission w)
    by (destruct (bool_decide _) in Hsel; by injection Hsel as _ <-).
  destruct Hv as [Hsv Hmv]. change (firedLoopBacks g (st_key step) (step_state step)) with (fired_loops g step) in H.
  destruct (bool_decide (length (fired_loops g step) = 0%nat)) eqn:E0.
  { injection H as <- <-. rewrite reset_rows_nil. apply bool_decide_eq_true in E0. apply nil_length_inv in E0.
    rewrite E0. split_and!; [done|done|intros k Hk; inversion Hk|intros lp Hlp; inversion Hlp]. }
  unfold listSteps in H. rewrite run_gets in H. apply bind_Ok_inv in H as ([steps' re] & v2 & Hl & H).
  rewrite Hsv in Hl. set (rows := sort_by st_position (w_steps w)) in *.
  rewrite <- (reset_rows_nil rows) in Hl.
  assert (Hperm : rows ≡ₚ w_steps w) by apply sort_by_perm.
  apply (reenter_all g (st_key step) rows) in Hl as (more & Hst & [Hs2 Hm2 Hc Ha]); [|by rewrite Hperm].
  cbn [app] in *. injection Hst as -> ->. unfold mbind, M_bind, save_steps, modify in H. injection H as <- <-. cbn [w_steps w_mission].
  assert (Hcap : ∀ n lp, below_cap g rows n lp ↔ below_cap g (w_steps w) n lp).
  { intros n lp. unfold below_cap. by setoid_rewrite Hperm. }
  split_and!.
  - cbn. rewrite reset_filter, Hs2, Hsv. by apply (save_filtered reset_for_visit).
  - cbn. congruence.
  - intros k Hk. destruct (Hc k Hk) as (lp & Hlp & Hb & Hbc). exists lp. split_and!; [done|done|by apply Hcap].
  - intros lp Hlp Hb k Hk Hin. apply (Ha lp Hlp); [by apply Hcap|done|by rewrite Hperm].
Qed.

(** A build that is checked and sent back. *)
Definition sample_loop : GraphSpec :=
  {| gs_version := 1;
     gs_nodes := [{| gn_key := "build"; gn_kind := nk_task; gn_join := join_all; gn_max_visits := 3 |};
                  {| gn_key := "check"; gn_kind := nk_evaluator; gn_join := join_all; gn_max_visits := 3 |}];
     gs_edges := [{| ge_from := "build"; ge_to := "check"; ge_kind := ek_sequence; ge_when := None; ge_label := None |};
                  {| ge_from := "check"; ge_to := "build"; ge_kind := ek_loop_back;
                     ge_when := Some {| ec_status := None; ec_verdict := Some ["revise"] |}; ge_label := None |}];
     gs_entry := ["build"]; gs_terminal := ["check"]; gs_max_total_visits := 10 |}.

Definition sample_checked : Step := (sample_step "check" "done" [] 1)<|st_visit := 1|><|st_verdict := "revise"|>.
Definition sample_loop_world : World :=
  (sample_world "running" [(sample_step "build" "done" [] 0)<|st_visit := 1|>; sample_checked])
    <|w_mission ::= λ m, m<|ms_graph_enabled := true|><|ms_graph_spec := Some sample_loop|>|>.

Lemma loop_reentry_witness :
  List.map st_visit (w_steps (world_of (applyGraphTransitions sample_checked) sample_loop_world)) = [2; 2].
Proof.
  assert (Hi : NoDup (List.map st_id (w_steps sample_loop_world))) by (apply (bool_decide_unpack _); vm_compute; exact I).
  assert (Hk : NoDup (List.map st_key (w_steps sample_loop_world))) by (apply (bool_decide_unpack _); vm_compute; exact I).
  destruct (loop_reentry sample_checked sample_loop_world sample_loop ["build"; "check"]
    (world_of (applyGraphTransitions sample_checked) sample_loop_world) eq_refl Hi Hk eq_refl) as [H _].
  rewrite H. reflexivity.
Defined.
