(* ===== verification/Lifecycle.v ===== *)
(** * The mission's life cycle

    The methods that move a mission between its statuses: [startMission],
    [pauseMission], [resumeMission], [cancelMission], [reopenMission],
    [completeMission], with [updateCriteria] and [nudgeOrchestrator], and the
    roster resolution ([effectiveSlots], [resolveRoster]) that starting and
    reopening share. *)

From S2P Require Import Prelude JsStd Vocabulary Plan Graph GraphRun Roster Entities PostActions Engine.
#[local] Open Scope Z_scope.

Section lifecycle.
Context (env : Env).

(** ** Pause, resume, cancel *)

Definition pauseMission (accountId : string) : M () :=
  mission ← requireMission (Some accountId);
  throw_if (isTerminalMissionStatus (ms_status mission)) 409 (mission_is (ms_status mission));;
  if String.eqb (ms_status mission) "paused" then mret tt
  else
    update_mission (λ m, m<|ms_status := "paused"|>);;
    recordEvent "mission_paused" None [].

Definition resumeMission (now : Z) (accountId : string) : M () :=
  mission ← requireMission (Some accountId);
  throw_if (negb (String.eqb (ms_status mission) "paused")) 409 (mission_not_paused (ms_status mission));;
  update_mission (λ m, m<|ms_status := if 0 <? ms_plan_version mission then "running" else "planning"|>);;
  recordEvent "mission_resumed" None [];;
  pumped ← pump env now;
  _ ← wakeAfterPump env pumped None;
  mret tt.

Definition cancel_step (now : Z) (s : Step) : Step :=
  s<|st_status := "cancelled"|><|st_finished_at := Some now|>.

Definition or_default (s d : string) : string := if truthy s then s else d.

Definition cancelMission (now : Z) (accountId reason : string) : M () :=
  mission ← requireMission (Some accountId);
  throw_if (isTerminalMissionStatus (ms_status mission)) 409 (mission_is (ms_status mission));;
  steps ← listSteps;
  save_steps (List.map (cancel_step now)
    (lfilter (λ s, negb (isTerminalStepStatus (st_status s))) steps));;
  update_mission (λ m, m<|ms_status := "cancelled"|>
                        <|ms_failure_reason := slice 2000 (or_default reason "cancelled by operator")|>
                        <|ms_finished_at := Some now|>);;
  recordEvent "mission_cancelled" None [].

(** ** Completion *)

Inductive CompletionStatus : Type := complete_completed | complete_failed.
Definition completion_string (c : CompletionStatus) : string :=
  match c with complete_completed => "completed" | complete_failed => "failed" end.
Definition is_completed (c : CompletionStatus) : bool :=
  match c with complete_completed => true | complete_failed => false end.

(** A run of the post-actions that the process survives. *)
Definition run_post_actions (now : Z) : M () := λ w,
  let '(_, w', _) := runPostActions env now w None in (Ok tt, w').

Definition unmet_keys (m : Mission) : list string :=
  List.map cc_key (lfilter (λ c, negb (cc_met c)) (default [] (ms_completion_criteria m))).

Definition finish_mission (now : Z) (status : CompletionStatus) (summary : string) (m : Mission) : Mission :=
  m<|ms_status := completion_string status|>
   <|ms_result_summary := slice SUMMARY_MAX summary|>
   <|ms_finished_at := Some now|>
   <|ms_failure_reason := if is_completed status then ms_failure_reason m
                          else "orchestrator declared the mission failed"|>.

Definition completeMission (now : Z) (caller : Caller) (status : CompletionStatus) (summary : string) : M () :=
  mission ← requireMission None;
  requireOrchestrator mission caller;;
  throw_if (isTerminalMissionStatus (ms_status mission)) 409 (mission_is (ms_status mission));;
  steps ← listSteps;
  let open := lfilter (λ s, isInFlight (st_status s)) steps in
  throw_if (is_completed status && bool_decide (0 < length open)%nat) 409 (open_steps (List.map st_key open));;
  throw_if (is_completed status && negb (allCriteriaMet (ms_completion_criteria mission))) 409
    (criteria_unmet (unmet_keys mission));;
  save_steps (List.map (cancel_step now) open);;
  update_mission (finish_mission now status summary);;
  recordEvent (if is_completed status then "mission_completed" else "mission_failed") None [];;
  run_post_actions now.

(** ** Completion criteria *)

Record CriterionUpdate := { cu_key : string; cu_met : bool; cu_note : option string }.

Definition apply_update (now : Z) (u : CriterionUpdate) (c : MissionCompletionCriterion)
    : MissionCompletionCriterion :=
  {| cc_key := cc_key c; cc_description := cc_description c; cc_met := cu_met u;
     cc_met_at := if cu_met u then JNum (JInt now) else JNull;
     cc_note := match cu_note u with Some n => slice 1000 n | None => cc_note c end |}.

Definition update_criterion (now : Z) (byKey : list (string * MissionCompletionCriterion))
    (u : CriterionUpdate) : M (list (string * MissionCompletionCriterion)) :=
  let key := trim (cu_key u) in
  match JMap.get byKey key with
  | None => throw 400 (unknown_criterion (cu_key u))
  | Some entry => mret (JMap.set byKey key (apply_update now u entry))
  end.

Definition updateCriteria (now : Z) (caller : Caller) (updates : list CriterionUpdate) : M () :=
  mission ← requireMission None;
  requireOrchestrator mission caller;;
  throw_if (isTerminalMissionStatus (ms_status mission)) 409 (mission_is (ms_status mission));;
  let existing := default [] (ms_completion_criteria mission) in
  throw_if (bool_decide (length existing = 0%nat)) 409 no_criteria;;
  byKey ← loop (update_criterion now) (JMap.index_by cc_key existing) updates;
  let next := omap (λ c, JMap.get byKey (cc_key c)) existing in
  criteria ← lift 400 (λ _ : criteria_error, criteria_invalid)
    (normalizeCompletionCriteria (JArr (List.map criterion_json next)));
  update_mission (λ m, m<|ms_completion_criteria := Some criteria|>);;
  recordEvent "criteria_updated" None (List.map (λ u, trim (cu_key u)) updates).

(** ** Nudging *)

Definition nudgeOrchestrator (accountId reasonTag : string) : M () :=
  mission ← requireMission (Some accountId);
  match ms_room_id mission with
  | Some room =>
      if negb (truthy room) then throw 409 not_started
      else
        throw_if (isTerminalMissionStatus (ms_status mission)) 409 (mission_is (ms_status mission));;
        postToRoom env room (wake_prompt "manual");;
        recordEvent "orchestrator_woken" None [reasonTag]
  | None => throw 409 not_started
  end.

(** ** Resolving the roster *)

Definition slotDisplayName (hostName : option string) (roleLabel cli : string) : string :=
  let leaf := or_default (trim roleLabel) cli in
  match hostName with
  | Some h => if truthy h then h +:+ slash +:+ leaf else leaf
  | None => leaf
  end.

Definition member_slot (m : TeamMember) : option RosterSlot :=
  match tm_spec m with
  | None => None
  | Some spec =>
      Some {| rs_slot_id := tm_id m; rs_kind := slot_member;
              rs_name := slotDisplayName (env_host_name env (ss_manager_agent_id spec)) (tm_role_label m) (ss_cli spec);
              rs_role_label := tm_role_label m; rs_capabilities := tm_capabilities m;
              rs_max_concurrent := tm_max_concurrent m; rs_spec := spec |}
  end.

Definition extra_slot (e : ExtraMember) : option RosterSlot :=
  match xm_spec e with
  | None => None
  | Some spec =>
      Some {| rs_slot_id := xm_slot_id e; rs_kind := slot_extra;
              rs_name := slotDisplayName (env_host_name env (ss_manager_agent_id spec)) (xm_role_label e) (ss_cli spec);
              rs_role_label := xm_role_label e; rs_capabilities := xm_capabilities e;
              rs_max_concurrent := match xm_max_concurrent e with Some z => if 1 <=? z then z else 1 | None => 1 end;
              rs_spec := spec |}
  end.

Definition excluded_member (mission : Mission) (m : TeamMember) : bool :=
  let excluded := ms_excluded_member_ids mission in
  includes excluded (tm_id m) ||
  match tm_agent_id m with Some a => truthy a && includes excluded a | None => false end.

Definition effectiveSlots (mission : Mission) (team : Team) : option RosterSlot * list RosterSlot :=
  (match te_orchestrator_spec team with
   | Some spec =>
       Some {| rs_slot_id := ORCHESTRATOR_SLOT_ID; rs_kind := slot_orchestrator;
               rs_name := slotDisplayName (env_host_name env (ss_manager_agent_id spec)) "" (ss_cli spec);
               rs_role_label := ""; rs_capabilities := ""; rs_max_concurrent := 1; rs_spec := spec |}
   | None => None
   end,
   omap member_slot (lfilter (λ m, negb (excluded_member mission m)) (te_members team))
     ++ omap extra_slot (ms_extra_members mission)).

(** [loadMissionProjects]: the projects that resolve, and the ids that do not. *)
Definition loadMissionProjects (mission : Mission) : list MissionProject * list string :=
  (omap (env_project env) (ms_project_ids mission),
   lfilter (λ id, bool_decide (env_project env id = None)) (ms_project_ids mission)).

Definition check_approvals (slot : RosterSlot) : M () :=
  throw_if (missionApprovalProblem (rs_spec slot)) 409 (approval_unavailable (ss_cli (rs_spec slot)));;
  throw_if (approvalHostProblem (rs_spec slot) (env_instances env (slot_host slot))) 409
    (host_cannot_approve (slot_host slot)).

Definition resolveRoster (mission : Mission) (team : Team) : M MissionRuntimeRoster :=
  let '(projects, missing) := loadMissionProjects mission in
  throw_if (bool_decide (0 < length missing)%nat) 409 (projects_missing missing);;
  let '(orchestrator, members) := effectiveSlots mission team in
  match orchestrator with
  | None => throw 400 no_orchestrator_slot
  | Some orchestrator =>
      throw_if (bool_decide (length members = 0%nat)) 400 no_members_available;;
      _ ← loop (λ _, check_approvals) tt (orchestrator :: members);
      lift 409 roster_rejected
        (resolveMissionRoster (env_sha256hex env) orchestrator members projects (ms_folder_scope mission)
           (if String.eqb (ms_status mission) "draft" then ms_orchestrator_agent_id mission else None))
  end.

Definition assertNoSharedFolderConflict (mission : Mission) (roster : MissionRuntimeRoster) : M () :=
  match sharedFolderConflict roster
          (lfilter (λ o, negb (String.eqb (om_id o) (ms_id mission))) (env_others env)) with
  | Some (other, _) => throw 409 (shared_folder_conflict other)
  | None => mret tt
  end.

(** Each distinct runtime once, but the one to preserve. *)
Definition prepareRuntimes (preserve : option string) (specs : list TeamAgentSpec) : M () :=
  let key (s : TeamAgentSpec) := ss_manager_agent_id (ta_slot s) +:+ ":" +:+ runtimeIdentityKey (env_sha256hex env) s in
  let unique := JMap.values (JMap.index_by key specs) in
  match env_prepare env
          (lfilter (λ s, negb (bool_decide (preserve = Some (runtimeIdentityKey (env_sha256hex env) s)))) unique) with
  | Some detail => throw 502 (preparation_failed detail)
  | None => mret tt
  end.

Definition requireTeam : M Team :=
  match env_team env with
  | None => throw 404 team_not_found
  | Some team => throw_if (te_enabled team =? 0) 409 team_disabled;; mret team
  end.

(** Runs [m]; when it throws, applies [undo] to the mission row and rethrows. *)
Definition rolling_back (undo : Mission → Mission) (m : M ()) : M () :=
  try_catch m (λ e, update_mission undo;; throw (oe_code e) (oe_why e)).

(** ** Start *)

Definition brief_mission (now : Z) (room : string) (orchestrator : MissionRuntime) (m : Mission) : Mission :=
  m<|ms_room_id := Some room|>
   <|ms_orchestrator_agent_id := Some (mr_agent_id orchestrator)|>
   <|ms_orchestrator_spec := Some (mr_spec orchestrator)|>
   <|ms_status := "planning"|>
   <|ms_started_at := Some now|>.

Definition unbrief_mission (m : Mission) : Mission :=
  m<|ms_status := "draft"|><|ms_room_id := None|><|ms_started_at := None|><|ms_runtime_roster := None|>.

Definition startMission (now : Z) (accountId : string) : M () :=
  mission ← requireMission (Some accountId);
  throw_if (negb (String.eqb (ms_status mission) "draft")) 409 (mission_is (ms_status mission));;
  team ← requireTeam;
  roster ← resolveRoster mission team;
  assertNoSharedFolderConflict mission roster;;
  match orchestratorRuntime roster with
  | None => throw 500 no_orchestrator_slot
  | Some orchestrator =>
      update_mission (λ m, m<|ms_runtime_roster := Some roster|>);;
      rolling_back (λ m, m<|ms_runtime_roster := None|>)
        (prepareRuntimes None (List.map mr_spec (ro_runtimes roster)));;
      room ← fresh_uuid env;
      update_mission (brief_mission now room orchestrator);;
      try_catch (postToRoom env room mission_brief)
        (λ e, update_mission unbrief_mission;;
              recordEvent "error" None [];;
              throw (oe_code e) (oe_why e));;
      recordEvent "mission_started" None []
  end.

(** ** Reopen *)

Record Actor := { ac_agent : bool; ac_caller : Caller }.

Definition reopened (status : string) (m : Mission) : Mission :=
  m<|ms_status := status|><|ms_finished_at := None|><|ms_failure_reason := ""|>.

Definition legacyRuntimeTargets (mission : Mission) (steps : list Step) : list TeamAgentSpec :=
  option_list (ms_orchestrator_spec mission) ++ omap st_assignee_spec steps.

Definition reopenMission (accountId : option string) (actor : Actor) : M () :=
  mission ← requireMission accountId;
  (if ac_agent actor then requireOrchestrator mission (ac_caller actor) else mret tt);;
  throw_if (negb (isTerminalMissionStatus (ms_status mission))) 409 (mission_is (ms_status mission));;
  if negb (truthy (default "" (ms_room_id mission))) then
    update_mission (reopened "draft");;
    recordEvent "mission_reopened" None []
  else
    team ← requireTeam;
    steps ← listSteps;
    roster ← (if bool_decide (0 < length (ms_project_ids mission))%nat
              then
                resolved ← resolveRoster mission team;
                let roster := keepOrchestratorRuntime (env_sha256hex env) resolved (ms_orchestrator_spec mission) in
                assertNoSharedFolderConflict mission roster;;
                mret (Some roster)
              else mret None : M (option MissionRuntimeRoster));
    let targets := match roster with
                   | Some r => List.map mr_spec (ro_runtimes r)
                   | None => legacyRuntimeTargets mission steps
                   end in
    (match roster with Some r => update_mission (λ m, m<|ms_runtime_roster := Some r|>) | None => mret tt end);;
    rolling_back (λ m, match roster with
                       | Some _ => m<|ms_runtime_roster := ms_runtime_roster mission|>
                       | None => m end)
      (prepareRuntimes (if ac_agent actor then ms_orchestrator_agent_id mission else None) targets);;
    update_mission (reopened "running");;
    recordEvent "mission_reopened" None [];;
    postToRoom env (default "" (ms_room_id mission)) (wake_prompt "reopened").
End lifecycle.
