(* ===== verification/StepEdit.v ===== *)
(** * Step controls

    [assignmentFor] and [missionProjectId], which resolve where a step runs, and
    [updateStep]: the orchestrator's retry, reassign, amend, skip, cancel and
    retry-budget actions on one step. *)

From S2P Require Import Prelude JsStd Vocabulary Plan Graph GraphRun Roster Entities Engine.
#[local] Open Scope Z_scope.

Section step_edit.
Context (env : Env).

(** ** Placing a step *)

(** The fields an assignment writes. *)
Record Assignment := { as_slot : RosterSlot; as_runtime : MissionRuntime }.

Definition assign (a : Assignment) (s : Step) : Step :=
  s<|st_assignee_slot := Some (rs_slot_id (as_slot a))|>
   <|st_project_id := Some (mr_project_id (as_runtime a))|>
   <|st_assignee_agent_id := Some (mr_agent_id (as_runtime a))|>
   <|st_assignee_spec := Some (mr_spec (as_runtime a))|>.

Definition rosterProjects (mission : Mission) : list ProjectName :=
  List.map (λ id, {| pn_id := id; pn_name := default id (env_project_name env id) |}) (ms_project_ids mission).

Definition assignmentFor (roster : option MissionRuntimeRoster) (projects : list ProjectName)
    (assignee : string) (project : option string) : M Assignment :=
  match roster with
  | None => throw 409 no_runtime_roster
  | Some roster =>
      '(slot, runtime) ← lift 400 assignment_rejected (resolveStepAssignment roster projects assignee project);
      mret {| as_slot := slot; as_runtime := runtime |}
  end.

Definition missionProjectId (projects : list ProjectName) (value : string) : M string :=
  let wanted := trim value in
  match project_named projects wanted with
  | Some id => mret id
  | None => throw 400 (not_a_mission_project wanted)
  end.

Definition planAssignee (assignee assignee_agent_id : option string) : string :=
  trim (str_or assignee (default "" assignee_agent_id)).

(** ** The update *)

Inductive StepAction : Type :=
  | act_retry | act_reassign | act_amend | act_skip | act_cancel | act_set_retry_budget
  | act_unknown.

#[export] Instance StepAction_eq_dec : EqDecision StepAction.
Proof. solve_decision. Defined.

Record StepUpdate := {
  su_action : StepAction;
  su_assignee : option string;
  su_assignee_agent_id : option string;
  su_project : option string;
  su_instructions : option string;
  su_acceptance_criteria : option string;
  (** [Math.trunc(Number(max_attempts))]; [Some None] when it is not finite. *)
  su_max_attempts : option (option Z)
}.

(** What the requested assignee and project come to. *)
Inductive Placement : Type :=
  | placement_none
  | placement_assigned (a : Assignment)
  | placement_project (id : string).

Definition requested_placement (mission : Mission) (fresh : Step) (input : StepUpdate) : M Placement :=
  let requestedAssignee := planAssignee (su_assignee input) (su_assignee_agent_id input) in
  let requestedProject := trim (default "" (su_project input)) in
  if truthy requestedAssignee || truthy requestedProject then
    let projects := rosterProjects mission in
    let slot := if truthy requestedAssignee then requestedAssignee else default "" (st_assignee_slot fresh) in
    if truthy slot then
      a ← assignmentFor (ms_runtime_roster mission) projects slot
            (if truthy requestedProject then Some requestedProject
             else match st_project_id fresh with Some p => if truthy p then Some p else None | None => None end);
      mret (placement_assigned a)
    else
      id ← missionProjectId projects requestedProject;
      mret (placement_project id)
  else mret placement_none.

(** The retry budget, adjusted ahead of the action. *)
Definition update_budget (fresh : Step) (input : StepUpdate) : M Step :=
  match su_max_attempts input with
  | Some None => throw 400 bad_max_attempts
  | Some (Some requested) =>
      throw_if (requested <? 1) 400 bad_max_attempts;;
      throw_if (MAX_STEP_ATTEMPTS_CEILING <? requested) 400 max_attempts_over_ceiling;;
      throw_if (requested <? st_attempt fresh) 409 (max_attempts_below_used (st_attempt fresh));;
      if requested =? st_max_attempts fresh then mret fresh
      else
        let fresh := fresh<|st_max_attempts := requested|> in
        save_step fresh;;
        recordEvent "step_retry_budget_changed" (Some (st_key fresh)) [];;
        mret fresh
  | None =>
      throw_if (bool_decide (su_action input = act_set_retry_budget)) 400 retry_budget_required;;
      mret fresh
  end.

Definition amend_text (input : StepUpdate) (s : Step) : Step :=
  s<|st_instructions := match su_instructions input with Some t => trim t | None => st_instructions s end|>
   <|st_acceptance_criteria := match su_acceptance_criteria input with Some t => trim t
                               | None => st_acceptance_criteria s end|>.

(** [if (assignment) ... else if (projectOnly) ...] *)
Definition place (p : Placement) (s : Step) : Step :=
  match p with
  | placement_assigned a => assign a s
  | placement_project id => if truthy id then s<|st_project_id := Some id|> else s
  | placement_none => s
  end.

Definition skip_step (now : Z) (action : StepAction) (s : Step) : Step :=
  s<|st_status := if bool_decide (action = act_skip) then "skipped" else "cancelled"|>
   <|st_finished_at := Some now|>.

Definition reassign_step (a : Assignment) (s : Step) : Step :=
  (assign a s)<|st_status := if isTerminalStepStatus (st_status s) then "pending" else st_status s|>
              <|st_recovery_reason := ""|>.

(** A plain retry re-reads the step's runtime, keeping it when that fails. *)
Definition refresh_runtime (mission : Mission) (s : Step) : M Step :=
  match st_assignee_slot s, ms_runtime_roster mission with
  | Some slot, Some _ =>
      if negb (truthy slot) then mret s
      else try_catch
        (a ← assignmentFor (ms_runtime_roster mission) (rosterProjects mission) slot (st_project_id s);
         mret (assign a s))
        (λ _, mret s)
  | _, _ => mret s
  end.

Definition retry_place (mission : Mission) (p : Placement) (s : Step) : M Step :=
  match p with
  | placement_assigned a => mret (assign a s)
  | placement_project id => if truthy id then mret (s<|st_project_id := Some id|>) else refresh_runtime mission s
  | placement_none => refresh_runtime mission s
  end.

Definition queue_retry (s : Step) : Step :=
  s<|st_status := "pending"|><|st_finished_at := None|><|st_started_at := None|><|st_recovery_reason := ""|>.

Definition apply_action (now : Z) (mission : Mission) (fresh : Step) (p : Placement) (input : StepUpdate) : M () :=
  let in_flight := isInFlight (st_status fresh) in
  let key := st_key fresh in
  match su_action input with
  | act_set_retry_budget => mret tt
  | act_skip | act_cancel =>
      throw_if in_flight 409 (step_in_flight key);;
      save_step (skip_step now (su_action input) fresh);;
      recordEvent "step_skipped" (Some key) []
  | act_amend =>
      throw_if in_flight 409 (step_in_flight key);;
      save_step (place p (amend_text input fresh));;
      recordEvent "note" (Some key) []
  | act_reassign =>
      match p with
      | placement_assigned a =>
          throw_if in_flight 409 (step_in_flight key);;
          save_step (reassign_step a fresh);;
          recordEvent "step_assigned" (Some key) []
      | _ => throw 400 assignee_required
      end
  | act_retry =>
      throw_if in_flight 409 (step_in_flight key);;
      throw_if (st_max_attempts fresh <=? st_attempt fresh) 409 (retries_exhausted key (st_max_attempts fresh));;
      placed ← retry_place mission p (amend_text input fresh);
      save_step (queue_retry placed);;
      recordEvent "step_retried" (Some key) []
  | act_unknown => throw 400 bad_verdict
  end.

Definition updateStep (now : Z) (stepId : string) (caller : Caller) (input : StepUpdate)
    : M (Step * list string) :=
  step ← requireStep stepId;
  mission ← requireMission None;
  requireOrchestrator mission caller;;
  throw_if (isTerminalMissionStatus (ms_status mission)) 409 (mission_is (ms_status mission));;
  fresh ← requireStep stepId;
  placement ← requested_placement mission fresh input;
  fresh ← update_budget fresh input;
  apply_action now mission fresh placement input;;
  _ ← unblockAutoBlockedDependents;
  _ ← propagateBlocking now;
  pumped ← pump env now;
  _ ← wakeAfterPump env pumped None;
  step ← requireStep stepId;
  mret (step, pm_dispatched pumped).
End step_edit.
