(* ===== verification/Controls.v ===== *)
(** * Facts about the step controls

    What the helpers of [updateStep] leave alone: placing a step writes nothing,
    and the budget update and the retry keep the step's identity. *)

From S2P Require Import Prelude JsStd Vocabulary Plan Graph GraphRun Roster Entities Logic Engine Limits StepEdit.
#[local] Open Scope Z_scope.

Section controls.
Context (env : Env).

Lemma no_effect_assignment r p a q w : snd (assignmentFor r p a q w) = w.
Proof. unfold assignmentFor. destruct r as [r|]; [|done]. unfold mbind, M_bind. by destruct (resolveStepAssignment _ _ _ _) as [[? ?]|?]. Qed.

Lemma no_effect_placement m f i w : snd (requested_placement env m f i w) = w.
Proof.
  unfold requested_placement. destruct (_ || _); [|done]. cbv zeta. destruct (truthy _).
  - unfold mbind, M_bind. match goal with |- context [assignmentFor ?r ?p ?a ?q w] =>
      pose proof (no_effect_assignment r p a q w); destruct (assignmentFor r p a q w) as [[?|?] ?] end; done.
  - unfold mbind, M_bind, missionProjectId. by destruct (project_named _ _).
Qed.

(** Where a step stands: all of its life but its retry budget. *)
Definition same_standing (s x : Step) : Prop :=
  step_sig s = step_sig x ∧ st_status s = st_status x ∧ st_attempt s = st_attempt x ∧ st_visit s = st_visit x.

Lemma update_budget_standing f i w f' w' : update_budget f i w = (Ok f', w') → same_standing f' f.
Proof.
  unfold update_budget. destruct (su_max_attempts i) as [[z|]|]; [|discriminate|].
  - rewrite !run_guard. destruct (z <? 1); [discriminate|].
    destruct (_ <? z); [discriminate|]. destruct (z <? _); [discriminate|].
    destruct (z =? _); by intros [= <- _].
  - rewrite run_guard. destruct (bool_decide _); [discriminate|]. by intros [= <- _].
Qed.

(** The row it returns is the one on record. *)
Lemma update_budget_row f i w f' w' :
  f ∈ w_steps w → update_budget f i w = (Ok f', w') → f' ∈ w_steps w'.
Proof.
  intros Hf. unfold update_budget. destruct (su_max_attempts i) as [[z|]|]; [|discriminate|].
  - rewrite !run_guard. destruct (z <? 1); [discriminate|].
    destruct (_ <? z); [discriminate|]. destruct (z <? _); [discriminate|].
    destruct (z =? _); [by intros [= <- <-]|]. set (f1 := f<|st_max_attempts := z|>). intros [= <- <-].
    apply (put_step_present f1), elem_of_map. by exists f.
  - rewrite run_guard. destruct (bool_decide _); [discriminate|]. by intros [= <- <-].
Qed.

Lemma refresh_standing m s w s' w' :
  refresh_runtime env m s w = (Ok s', w') → same_standing s' s ∧ st_max_attempts s' = st_max_attempts s.
Proof.
  unfold refresh_runtime, try_catch. destruct (st_assignee_slot s) as [slot|]; [|by intros [= <- _]].
  destruct (ms_runtime_roster m) as [ro|]; [|by intros [= <- _]]. destruct (negb _); [by intros [= <- _]|].
  unfold mbind, M_bind. destruct (assignmentFor _ _ _ _ _) as [[a|e] v']; by intros [= <- _].
Qed.

Lemma retry_place_standing m p s w s' w' :
  retry_place env m p s w = (Ok s', w') → same_standing s' s ∧ st_max_attempts s' = st_max_attempts s.
Proof.
  unfold retry_place. destruct p as [|a|id]; [apply refresh_standing|by intros [= <- _]|].
  destruct (truthy id); [by intros [= <- _]|apply refresh_standing].
Qed.

Lemma place_standing p s : same_standing (place p s) s ∧ st_max_attempts (place p s) = st_max_attempts s.
Proof. unfold place. destruct p as [|a|id]; [done|done|]. by destruct (truthy id). Qed.

Lemma no_effect_refresh m s w : snd (refresh_runtime env m s w) = w.
Proof.
  unfold refresh_runtime, try_catch. destruct (st_assignee_slot s) as [slot|]; [|done].
  destruct (ms_runtime_roster m) as [ro|] eqn:Er; [|done]. destruct (negb _); [done|]. unfold mbind, M_bind.
  match goal with |- context [assignmentFor ?r ?p ?a ?q w] =>
    pose proof (no_effect_assignment r p a q w) as H; destruct (assignmentFor r p a q w) as [[a'|e] v] end;
    simpl in H; subst v; done.
Qed.

Lemma no_effect_retry_place m p s w : snd (retry_place env m p s w) = w.
Proof.
  unfold retry_place. destruct p as [|a|id]; [apply no_effect_refresh|done|]. destruct (truthy id); [done|apply no_effect_refresh].
Qed.
End controls.
