(* ===== verification/PlanIntake.v ===== *)
(** * Plan intake

    [submitPlan], which validates a plan against the one on record, settles the
    execution graph and merges the steps, and [patchGraph]. *)

From S2P Require Import Prelude JsStd Vocabulary Plan Graph GraphRun Wave Patch Templates Roster Entities Engine StepEdit.
#[local] Open Scope Z_scope.

Section plan_intake.
Context (env : Env).

Record TemplateInput := { ti_name : string; ti_params : jsval }.

Record PlanSubmission := {
  sp_summary : option string;
  sp_steps : list PlanStepInput;
  sp_graph : option GraphSpecInput;
  sp_graph_template : option TemplateInput;
  sp_reset_graph : bool
}.

Definition is_some {A} (o : option A) : bool := match o with Some _ => true | None => false end.

(** ** Merging the plan *)

(** A step on record, as the plan input it would be. *)
Definition step_input (s : Step) : PlanStepInput :=
  {| pi_step_key := st_key s; pi_title := st_title s; pi_instructions := Some (st_instructions s);
     pi_acceptance_criteria := Some (st_acceptance_criteria s);
     pi_depends_on := Some (default [] (st_depends_on s)); pi_assignee := None;
     pi_assignee_agent_id := None; pi_project := None; pi_retry_policy := None |}.

Definition submitted (steps : list PlanStepInput) (key : string) : bool :=
  lsome (λ n, String.eqb (plan_key n) key) steps.

Definition merged_plan (existing : list Step) (steps : list PlanStepInput) : list PlanStepInput :=
  List.map step_input (lfilter (λ s, negb (submitted steps (st_key s))) existing) ++ steps.

(** ** Settling the graph *)

Record SettledGraph := { sg_spec : option GraphSpec; sg_replaced : bool; sg_carried : list string }.

Definition settle_graph (mission : Mission) (validated : list PlanStepInput) (input : PlanSubmission)
    : M SettledGraph :=
  let nodeKeys := List.map plan_key validated in
  let cp := JStr (ConfirmPolicy_string (normalizeConfirmPolicy (JStr (ms_confirm_policy mission)))) in
  if negb (ms_graph_enabled mission)
  then mret {| sg_spec := ms_graph_spec mission; sg_replaced := false; sg_carried := [] |}
  else
    match sp_graph_template input, sp_graph input, ms_graph_spec mission with
    | Some t, _, _ =>
        spec ← lift 400 template_rejected
          (expandGraphTemplate (env_Number env) (ti_name t) (ti_params t) nodeKeys cp);
        mret {| sg_spec := Some spec; sg_replaced := true; sg_carried := [] |}
    | None, Some g, _ =>
        spec ← lift 400 graph_rejected (validateGraphSpec (Some g) nodeKeys cp);
        mret {| sg_spec := Some spec; sg_replaced := true; sg_carried := [] |}
    | None, None, current =>
        match (if sp_reset_graph input then None else current) with
        | Some current =>
            '(spec, added) ← lift 409 graph_cannot_absorb (carryGraphThroughReplan current nodeKeys cp);
            mret {| sg_spec := Some spec; sg_replaced := false; sg_carried := added |}
        | None =>
            spec ← lift 500 graph_rejected
              (graphFromWavePlan (List.map (λ s, {| ws_step_key := plan_key s;
                 ws_depends_on := Some (default [] (pi_depends_on s)) |}) validated));
            mret {| sg_spec := Some spec; sg_replaced := true; sg_carried := [] |}
        end
    end.

(** ** Assignments *)

Record PlannedPlaces := {
  pp_assigned : list (string * Assignment);
  pp_project : list (string * string)
}.

Definition place_input (mission : Mission) (projects : list ProjectName) (existing : list (string * Step))
    (acc : PlannedPlaces) (s : PlanStepInput) : M PlannedPlaces :=
  let key := plan_key s in
  let assignee := planAssignee (pi_assignee s) (pi_assignee_agent_id s) in
  if truthy assignee then
    let project := match JMap.get existing key with Some x => st_project_id x | None => None end in
    let project := match pi_project s with Some p => if truthy p then Some p else project | None => project end in
    a ← assignmentFor (ms_runtime_roster mission) projects assignee project;
    mret {| pp_assigned := JMap.set (pp_assigned acc) key a; pp_project := pp_project acc |}
  else if truthy (trim (default "" (pi_project s))) then
    id ← missionProjectId projects (default "" (pi_project s));
    mret {| pp_assigned := pp_assigned acc; pp_project := JMap.set (pp_project acc) key id |}
  else mret acc.

(** ** Merging the steps *)

(** A new row; its id is the database's. *)
Definition new_step (places : PlannedPlaces) (version index : Z) (id : string) (s : PlanStepInput) : Step :=
  let key := plan_key s in
  let a := JMap.get (pp_assigned places) key in
  {| st_id := id; st_key := key; st_title := trim (pi_title s);
     st_instructions := trim (default "" (pi_instructions s));
     st_acceptance_criteria := trim (default "" (pi_acceptance_criteria s));
     st_depends_on := Some (plan_deps s);
     st_assignee_slot := (λ a, rs_slot_id (as_slot a)) <$> a;
     st_project_id := match a with Some a => Some (mr_project_id (as_runtime a))
                      | None => JMap.get (pp_project places) key end;
     st_assignee_agent_id := (λ a, mr_agent_id (as_runtime a)) <$> a;
     st_assignee_spec := (λ a, mr_spec (as_runtime a)) <$> a;
     st_status := "pending"; st_position := index; st_plan_version := version; st_room_id := None;
     st_result_summary := ""; st_artifacts := None; st_attempt := 0; st_max_attempts := 2;
     st_lease_token := ""; st_last_heartbeat_at := None;
     st_retry_policy := if bool_decide (pi_retry_policy s = Some "manual") then "manual" else "auto";
     st_recovery_reason := ""; st_checkpoint := None; st_checkpoint_at := None;
     st_lease_stale_since := None; st_auto_blocked := false; st_visit := 0; st_verdict := "";
     st_confirm_decision := None; st_dispatched_at := None; st_started_at := None; st_finished_at := None |}.

Definition untouchable (s : Step) : bool := isInFlight (st_status s) || isTerminalStepStatus (st_status s).

(** The revision of a step that has not started. *)
Definition revise_text (version : Z) (s : PlanStepInput) (found : Step) : Step :=
  found<|st_title := trim (pi_title s)|>
       <|st_instructions := trim (default "" (pi_instructions s))|>
       <|st_acceptance_criteria := trim (default "" (pi_acceptance_criteria s))|>
       <|st_depends_on := Some (plan_deps s)|>
       <|st_plan_version := version|>.

Definition revise_place (mission : Mission) (projects : list ProjectName) (places : PlannedPlaces)
    (key : string) (found : Step) : M Step :=
  match JMap.get (pp_assigned places) key with
  | Some a => mret (assign a found)
  | None =>
      match JMap.get (pp_project places) key with
      | None => mret found
      | Some project =>
          match st_assignee_slot found with
          | Some slot =>
              if truthy slot then
                a ← assignmentFor (ms_runtime_roster mission) projects slot (Some project);
                mret (assign a found)
              else mret (found<|st_project_id := Some project|>)
          | None => mret (found<|st_project_id := Some project|>)
          end
      end
  end.

Record MergeState := { mg_save : list Step; mg_created : list string; mg_updated : list string }.

(** One step of the validated plan, at its position. *)
Definition merge_step (mission : Mission) (projects : list ProjectName) (existing : list (string * Step))
    (places : PlannedPlaces) (version : Z) (input : list PlanStepInput) (st : MergeState)
    (entry : Z * PlanStepInput) : M MergeState :=
  let '(index, s) := entry in
  let key := plan_key s in
  match JMap.get existing key with
  | None =>
      id ← fresh_uuid env;
      mret {| mg_save := mg_save st ++ [new_step places version index id s];
              mg_created := mg_created st ++ [key]; mg_updated := mg_updated st |}
  | Some found =>
      let found := found<|st_position := index|> in
      if submitted input key && negb (untouchable found) then
        found ← revise_place mission projects places key (revise_text version s found);
        mret {| mg_save := mg_save st ++ [found]; mg_created := mg_created st; mg_updated := mg_updated st ++ [key] |}
      else mret {| mg_save := mg_save st ++ [found]; mg_created := mg_created st; mg_updated := mg_updated st |}
  end.

(** [stepRepo.save(list)]: rows on record replaced, new rows appended. *)
Definition upsert (rows : list Step) (s : Step) : list Step :=
  if lsome (λ x, String.eqb (st_id x) (st_id s)) rows then put_step s rows else rows ++ [s].
Definition upsert_all (rows saved : list Step) : list Step := foldl upsert rows saved.

Definition indexed {A} (l : list A) : list (Z * A) :=
  List.combine (List.map Z.of_nat (seq 0 (length l))) l.

Definition accept_plan (version : Z) (summary : option string) (g : SettledGraph) (m : Mission) : Mission :=
  m<|ms_plan_version := version|>
   <|ms_plan_summary := slice SUMMARY_MAX (default "" summary)|>
   <|ms_graph_revision := if sg_replaced g then 0 else ms_graph_revision m|>
   <|ms_graph_spec := sg_spec g|>
   <|ms_status := if String.eqb (ms_status m) "planning" then "running" else ms_status m|>.

(** A policy that asks for confirmation, on a graph without a confirm gate. *)
Definition unconfirmed (mission : Mission) (spec : option GraphSpec) : bool :=
  let policy := normalizeConfirmPolicy (JStr (ms_confirm_policy mission)) in
  match spec with
  | None => false
  | Some g =>
      (bool_decide (policy = policy_key_steps) || bool_decide (policy = policy_every_step))
      && levery (λ n, negb (bool_decide (gn_kind n = nk_confirm))) (gs_nodes g)
  end.

Record PlanResult := { pr_created : list string; pr_updated : list string; pr_started : list string }.

Definition planning_or_running (status : string) : bool :=
  String.eqb status "planning" || String.eqb status "running".

Definition submitPlan (now : Z) (caller : Caller) (input : PlanSubmission) : M PlanResult :=
  mission ← requireMission None;
  requireOrchestrator mission caller;;
  throw_if (negb (planning_or_running (ms_status mission))) 409 (mission_is (ms_status mission));;
  throw_if (ms_max_plan_versions mission <=? ms_plan_version mission) 409 (plan_limit (ms_max_plan_versions mission));;
  existing ← listSteps;
  let existingByKey := JMap.index_by st_key existing in
  validated ← lift 400 plan_rejected (validatePlan (merged_plan existing (sp_steps input)) (ms_max_steps mission));
  let graph := is_some (sp_graph input) in
  let template := is_some (sp_graph_template input) in
  throw_if ((graph || template || sp_reset_graph input) && negb (ms_graph_enabled mission)) 400 graph_disabled;;
  throw_if (graph && template) 400 graph_reset_conflict;;
  throw_if (sp_reset_graph input && (graph || template)) 400 graph_reset_conflict;;
  settled ← settle_graph mission validated input;
  let projects := rosterProjects env mission in
  places ← loop (place_input mission projects existingByKey) {| pp_assigned := []; pp_project := [] |} (sp_steps input);
  let version := ms_plan_version mission + 1 in
  merged ← loop (merge_step mission projects existingByKey places version (sp_steps input))
             {| mg_save := []; mg_created := []; mg_updated := [] |} (indexed validated);
  modify (λ w, w<|w_steps ::= λ rows, upsert_all rows (mg_save merged)|>);;
  update_mission (accept_plan version (sp_summary input) settled);;
  recordEvent "plan_submitted" None (mg_created merged);;
  (if unconfirmed mission (sg_spec settled) then recordEvent "note" None [] else mret tt);;
  pumped ← pump env now;
  _ ← wakeAfterPump env pumped None;
  mret {| pr_created := mg_created merged; pr_updated := mg_updated merged; pr_started := pm_dispatched pumped |}.

(** ** Patching the graph *)

Definition runtime_state (mission : Mission) (steps : list Step) : GraphRuntimeState :=
  {| rt_nodes := List.map step_state steps; rt_total_visits := ms_total_visits mission |}.

Definition patchGraph (now : Z) (caller : Caller) (patch : GraphPatchInput)
    : M (list GraphPatchChange * list string) :=
  mission ← requireMission None;
  requireOrchestrator mission caller;;
  throw_if (negb (planning_or_running (ms_status mission))) 409 (mission_is (ms_status mission));;
  match (if ms_graph_enabled mission then ms_graph_spec mission else None) with
  | None => throw 400 no_graph
  | Some spec =>
      throw_if (MAX_GRAPH_PATCHES <=? ms_graph_revision mission) 409 patch_limit;;
      steps ← listSteps;
      '(spec', changes) ← lift 400 patch_rejected
        (applyGraphPatch spec (Some patch) (List.map st_key steps) (runtime_state mission steps)
           (JStr (ConfirmPolicy_string (normalizeConfirmPolicy (JStr (ms_confirm_policy mission))))));
      update_mission (λ m, m<|ms_graph_spec := Some spec'|><|ms_graph_revision ::= λ r, r + 1|>);;
      recordEvent "graph_patched" None [];;
      pumped ← pump env now;
      _ ← wakeAfterPump env pumped None;
      mret (changes, pm_dispatched pumped)
  end.
End plan_intake.
