(* ===== verification/PlanMerge.v ===== *)
(** * Merging a plan into the steps on record

    What [submitPlan] saves: one row per step of the validated plan, either the
    row on record under that key, revised, or a new one under a fresh id.  Saving
    them is an evolution of the rows in the sense of [Rows]. *)

From S2P Require Import Prelude JsStd Vocabulary Plan Graph GraphFacts GraphRun Wave Patch Templates Roster Entities Logic PostActions Engine.
From S2P Require Import Frame Rows Limits StepEdit Controls PlanIntake.
#[local] Open Scope Z_scope.

(** ** Checks that write nothing *)

Lemma loop_no_effect {A S} (body : S → A → M S) l : ∀ s w,
  (∀ s a w, snd (body s a w) = w) → snd (loop body s l w) = w.
Proof.
  induction l as [|a l IH]; intros s w Hb; [done|]. cbn [loop]. unfold mbind, M_bind.
  pose proof (Hb s a w) as H. destruct (body s a w) as [[s'|e] w']; simpl in H; subst w'; [by apply IH|done].
Qed.

Lemma no_effect_project p v w : snd (missionProjectId p v w) = w.
Proof. unfold missionProjectId. by destruct (project_named _ _). Qed.

Lemma no_effect_place m p e acc s w : snd (place_input m p e acc s w) = w.
Proof.
  unfold place_input. destruct (truthy _); [|destruct (truthy _); [|done]].
  - unfold mbind, M_bind. match goal with |- context [assignmentFor ?r ?p ?a ?q w] =>
      pose proof (no_effect_assignment r p a q w) as H; destruct (assignmentFor r p a q w) as [[?|?] ?] end; exact H.
  - unfold mbind, M_bind. match goal with |- context [missionProjectId ?p ?v w] =>
      pose proof (no_effect_project p v w) as H; destruct (missionProjectId p v w) as [[?|?] ?] end; exact H.
Qed.

Lemma no_effect_settle (env : Env) m v i w : snd (settle_graph env m v i w) = w.
Proof.
  unfold settle_graph. cbv zeta. destruct (negb _); [done|].
  destruct (sp_graph_template i) as [t|]; [by destruct (expandGraphTemplate _ _ _ _ _)|].
  destruct (sp_graph i) as [g|]; [by destruct (validateGraphSpec _ _ _)|].
  destruct (if sp_reset_graph i then None else ms_graph_spec m) as [g|].
  - by destruct (carryGraphThroughReplan _ _ _) as [[? ?]|?].
  - by destruct (graphFromWavePlan _).
Qed.

(** ** The rows the merge saves *)

(** A row revised by a plan: the same step at the same point of its life, and but
    for its position the same row where it is running or over. *)
Record revised (x s : Step) : Prop := {
  rv_standing : same_standing s x;
  rv_max : st_max_attempts s = st_max_attempts x;
  rv_kept : untouchable x = true → s = x<|st_position := st_position s|>
}.

Lemma revise_place_revised (env : Env) m p pl k x s w s' w' :
  same_standing s x → st_max_attempts s = st_max_attempts x → untouchable x = false →
  revise_place m p pl k s w = (Ok s', w') → revised x s' ∧ w' = w.
Proof.
  intros Hst Hmax Hu H.
  assert (Hr : ∀ y, same_standing y s → st_max_attempts y = st_max_attempts s → revised x y).
  { intros y (A1 & A2 & A3 & A4) A5. destruct Hst as (B1 & B2 & B3 & B4).
    constructor; [split_and!|..]; try congruence. }
  unfold revise_place in H. destruct (JMap.get _ k) as [a|]; [injection H as <- <-; split; [by apply Hr|done]|].
  destruct (JMap.get _ k) as [pr|]; [|injection H as <- <-; split; [by apply Hr|done]].
  destruct (st_assignee_slot s) as [slot|]; [|injection H as <- <-; split; [by apply Hr|done]].
  destruct (truthy slot); [|injection H as <- <-; split; [by apply Hr|done]].
  apply bind_Ok_inv in H as (a & v & Ha & [= <- <-]). split; [by apply Hr|].
  match type of Ha with assignmentFor ?r ?p ?a ?q w = _ => pose proof (no_effect_assignment r p a q w) as Hn end.
  by rewrite Ha in Hn.
Qed.

(** A row a plan creates. *)
Definition fresh_row (s : Step) : Prop :=
  st_status s = "pending" ∧ st_attempt s = 0 ∧ st_max_attempts s = 2 ∧ st_visit s = 0.

Section merge.
Context (env : Env) (Hdistinct : distinct_uuids env) (w0 : World) (Hid : identified env w0).
Context (mission : Mission) (projects : list ProjectName) (places : PlannedPlaces) (version : Z)
        (input : list PlanStepInput).

#[local] Abbreviation rows := (w_steps w0).
#[local] Abbreviation existing := (JMap.index_by st_key (sort_by st_position (w_steps w0))).

(** A row to save: one of [rows], revised, or a new one under a fresh id. *)
Definition saved_row (n : nat) (s : Step) : Prop :=
  (∃ x, x ∈ rows ∧ revised x s) ∨
  (fresh_row s ∧ st_key s ∉ List.map st_key rows ∧ STEP_KEY_PATTERN (st_key s) = true ∧
   ∃ m, (w_nonce w0 <= m < n)%nat ∧ st_id s = env_uuid env m).

Record merged (done : list PlanStepInput) (saved : list Step) (w : World) : Prop := {
  mg_steps : w_steps w = rows;
  mg_mission : w_mission w = w_mission w0;
  mg_nonce : (w_nonce w0 <= w_nonce w)%nat;
  mg_keys : List.map st_key saved = List.map plan_key done;
  mg_ids : NoDup (List.map st_id saved);
  mg_rows : ∀ s, s ∈ saved → saved_row (w_nonce w) s
}.

Lemma existing_row k :
  match JMap.get existing k with
  | Some x => x ∈ rows ∧ st_key x = k
  | None => k ∉ List.map st_key rows
  end.
Proof using Hid.
  assert (Hnd : NoDup (List.map st_key (sort_by st_position rows))) by (rewrite sort_by_perm; apply Hid).
  destruct (JMap.get existing k) as [x|] eqn:E.
  - apply (JMap.get_index_by st_key) in E as [Hx Hk]; [|done]. by apply elem_of_sort_by in Hx.
  - apply (JMap.get_index_by_None st_key) in E; [|done]. by rewrite sort_by_perm in E.
Qed.

Lemma merged_keep done saved w s key :
  merged done saved w → key ∉ List.map plan_key done → (∃ x, x ∈ rows ∧ st_key x = key ∧ revised x s) →
  st_id s ∉ List.map st_id saved.
Proof using Hid.
  intros [_ _ _ Hk _ Hr] Hn (x & Hx & Hxk & [(Hsig & _) _ _]). injection Hsig as Hi _. rewrite Hi.
  intros (y & He & Hy)%elem_of_map. destruct (Hr y Hy) as [(x' & Hx' & [(Hs' & _) _ _])|(_ & _ & _ & m & [Hm _] & Hm')].
  - injection Hs' as Hi' Hk'. assert (x = x') as <- by (apply (NoDup_fmap_inj_on st_id rows); [apply Hid|done|done|congruence]).
    apply Hn. rewrite <- Hk, <- Hxk, <- Hk'. by apply elem_of_map_2.
  - apply (id_fresh env w0 Hid x m Hx Hm). congruence.
Qed.

Lemma saved_row_later n n' s : (n <= n')%nat → saved_row n s → saved_row n' s.
Proof.
  intros Hle [H|(Hf & Hk & Hne & m & Hm & He)]; [by left|right]. split_and!; [done|done|done|]. exists m. split; [lia|done].
Qed.

Lemma merge_one done st w idx s st' w' :
  merged done (mg_save st) w → plan_key s ∉ List.map plan_key done → STEP_KEY_PATTERN (plan_key s) = true →
  merge_step env mission projects existing places version input st (idx, s) w = (Ok st', w') →
  merged (done ++ [s]) (mg_save st') w'.
Proof using Hid Hdistinct.
  intros Hm Hnk Hne H. pose proof Hm as [Hs Hms Hn Hk Hids Hr]. unfold merge_step in H. cbv zeta in H.
  pose proof (existing_row (plan_key s)) as Hex.
  destruct (JMap.get existing (plan_key s)) as [x|] eqn:Ex.
  - destruct Hex as [Hx Hxk].
    assert (Hkeep : ∀ s', revised x s' → merged (done ++ [s]) (mg_save st ++ [s']) w).
    { intros s' Hrev. constructor; [done|done|done| | |].
      - rewrite !List.map_app, Hk. simpl. destruct Hrev as [(Hsig & _) _ _]. injection Hsig as _ ->. by rewrite Hxk.
      - rewrite List.map_app. apply NoDup_snoc. split; [done|]. eapply (merged_keep done); eauto.
      - intros y [Hy|Hy%list_elem_of_singleton]%elem_of_app; [by apply Hr|subst y; left; eauto]. }
    set (found := x<|st_position := idx|>) in H.
    destruct (submitted input (plan_key s) && negb (untouchable found)) eqn:Eu.
    + apply andb_true_iff in Eu as [_ Hu%negb_true_iff].
      apply bind_Ok_inv in H as (f & v & Hp & [= <- <-]).
      apply (revise_place_revised env _ _ _ _ x) in Hp as [Hrev ->]; [by apply Hkeep|done|done|done].
    + injection H as <- <-. by apply Hkeep.
  - apply bind_Ok_inv in H as (id & v & Hid' & [= <- <-]). unfold fresh_uuid in Hid'. injection Hid' as <- <-.
    cbn [mg_save]. set (new := new_step places version idx _ s). constructor; [done|done|simpl; lia| | |].
    + rewrite !List.map_app, Hk. done.
    + rewrite List.map_app. apply NoDup_snoc. split; [done|]. intros (y & He & Hy)%elem_of_map. simpl in He.
      destruct (Hr y Hy) as [(x & Hx & [(Hsig & _) _ _])|(_ & _ & _ & m & [_ Hm'] & He')].
      * injection Hsig as Hi _. apply (id_fresh env w0 Hid x (w_nonce w) Hx); [lia|congruence].
      * rewrite He' in He. apply Hdistinct in He. lia.
    + intros y [Hy|Hy%list_elem_of_singleton]%elem_of_app; [apply (saved_row_later (w_nonce w)); [simpl; lia|by apply Hr]|].
      subst y. right. split_and!; [done|exact Hex|exact Hne|]. exists (w_nonce w). simpl. split; [lia|done].
Qed.

Lemma merge_all l : ∀ done st w st' w',
  merged done (mg_save st) w → NoDup (List.map plan_key (done ++ List.map snd l)) →
  (∀ s, s ∈ List.map snd l → STEP_KEY_PATTERN (plan_key s) = true) →
  loop (merge_step env mission projects existing places version input) st l w = (Ok st', w') →
  merged (done ++ List.map snd l) (mg_save st') w'.
Proof using Hid Hdistinct.
  induction l as [|[idx s] l IH]; intros done st w st' w' Hm Hnd Hne H.
  - injection H as <- <-. by rewrite app_nil_r.
  - cbn [loop] in H. apply bind_Ok_inv in H as (st1 & w1 & H1 & H2). cbn [List.map snd] in *.
    rewrite cons_middle, (assoc_L app). apply (IH _ st1 w1); [|by rewrite <- (assoc_L app)| |exact H2].
    + apply (merge_one done st w idx s); [done| |apply Hne, list_elem_of_here|exact H1].
      rewrite List.map_app in Hnd. cbn [List.map] in Hnd. apply NoDup_app in Hnd as (_ & Hd & _).
      intros Hin. apply (Hd _ Hin), list_elem_of_here.
    + intros y Hy. by apply Hne, list_elem_of_further.
Qed.
End merge.

(** ** Saving them *)

Lemma upsert_ids s l : (∀ i, i ∈ List.map st_id (upsert l s) → i = st_id s ∨ i ∈ List.map st_id l).
Proof.
  unfold upsert. intros i. destruct (lsome _ l); [rewrite put_step_ids; by right|].
  rewrite List.map_app, elem_of_app. simpl. rewrite list_elem_of_singleton. tauto.
Qed.

Lemma upsert_here s l : s ∈ upsert l s.
Proof.
  unfold upsert. destruct (lsome _ l) eqn:E; [|apply elem_of_app; right; apply list_elem_of_here].
  apply lsome_true in E as (x & Hx & He%String.eqb_eq). apply put_step_present. rewrite <- He. by apply elem_of_map_2.
Qed.

Lemma upsert_kept x s l : x ∈ l → st_id x ≠ st_id s → x ∈ upsert l s.
Proof.
  intros Hx Hne. unfold upsert. destruct (lsome _ l); [by apply put_step_kept|]. apply elem_of_app. by left.
Qed.

Lemma upsert_elem x s l : x ∈ upsert l s → x = s ∨ x ∈ l.
Proof.
  unfold upsert. destruct (lsome _ l); [intros [?|[? _]]%elem_of_put_step; tauto|].
  rewrite elem_of_app, list_elem_of_singleton. tauto.
Qed.

Lemma upsert_all_elem saved : ∀ l x, x ∈ upsert_all l saved → x ∈ saved ∨ x ∈ l.
Proof.
  induction saved as [|s saved IH]; intros l x; [by right|]. intros [H|H]%IH; [left; by apply list_elem_of_further|].
  apply upsert_elem in H as [->|H]; [left; apply list_elem_of_here|by right].
Qed.

Lemma upsert_all_kept saved : ∀ l x,
  x ∈ l → st_id x ∉ List.map st_id saved → x ∈ upsert_all l saved.
Proof.
  induction saved as [|s saved IH]; intros l x Hx Hn; [done|]. cbn [List.map] in Hn. rewrite not_elem_of_cons in Hn.
  destruct Hn as [Hne Hn]. apply (IH (upsert l s)); [by apply upsert_kept|done].
Qed.

Lemma upsert_all_here saved : ∀ l s, NoDup (List.map st_id saved) → s ∈ saved → s ∈ upsert_all l saved.
Proof.
  induction saved as [|a saved IH]; intros l s Hnd Hs; [inversion Hs|]. cbn [List.map] in Hnd.
  inversion Hnd as [|? ? Ha Hnd']; subst. apply elem_of_cons in Hs as [->|Hs]; [|by apply (IH (upsert l a))].
  apply (upsert_all_kept saved (upsert l a)); [apply upsert_here|done].
Qed.

Section saving.
Context (env : Env) (Hdistinct : distinct_uuids env).
Context (R : Step → Step → Prop) `{!RowRelation R} (B : Step → Prop) `{!Births R B}.

(** A row of the world evolved, or a new row that can be told from all of them. *)
Definition savable (w : World) (s : Step) : Prop :=
  (∃ x, x ∈ w_steps w ∧ R x s) ∨
  (B s ∧ st_id s ∉ List.map st_id (w_steps w) ∧ st_key s ∉ List.map st_key (w_steps w) ∧ STEP_KEY_PATTERN (st_key s) = true ∧
   ∃ m, (m < w_nonce w)%nat ∧ st_id s = env_uuid env m).

Lemma evolves_upsert s w : savable w s → evolves env R B w (w<|w_steps ::= λ l, upsert l s|>).
Proof using Hdistinct RowRelation0 Births0.
  intros [(x & Hx & HR)|(HB & Hi & Hk & Hne & m & Hm & He)].
  - apply (evolves_put env R B s x); [done..| |by apply onward_refl]. unfold upsert. simpl.
    replace (lsome _ _) with true; [done|]. symmetry. apply lsome_true. exists x. split; [done|].
    apply row_identity in HR as [-> _]. apply String.eqb_refl.
  - intros [H1 H2 H3 H4 H5]. unfold upsert. simpl.
    replace (lsome _ _) with false.
    2:{ symmetry. apply lsome_false. intros x Hx. apply String.eqb_neq. intros Hx'. apply Hi. rewrite <- Hx'. by apply elem_of_map_2. }
    split_and!; [|exists (w_steps w), [s]; split_and!; [done| |by constructor]|simpl; lia].
    + constructor; simpl; rewrite ?List.map_app; simpl.
      * by apply NoDup_snoc.
      * by apply NoDup_snoc.
      * intros k [Hin| ->%list_elem_of_singleton]%elem_of_app; [by apply H3|done].
      * intros x n [Hx|Hx%list_elem_of_singleton]%elem_of_app Hn; [by apply H4|]. subst x. rewrite He.
        intros Hu%Hdistinct. lia.
      * done.
    + clear -RowRelation0. induction (w_steps w); constructor; [reflexivity|done].
Qed.

Lemma upsert_keys s l : ∀ k, k ∈ List.map st_key (upsert l s) → k = st_key s ∨ k ∈ List.map st_key l.
Proof using Type.
  intros k (x & -> & [->|Hx]%upsert_elem)%elem_of_map; [by left|right; by apply elem_of_map_2].
Qed.

Lemma savable_next w s s' :
  st_id s ≠ st_id s' → st_key s ≠ st_key s' → savable w s' → savable (w<|w_steps ::= λ l, upsert l s|>) s'.
Proof using RowRelation0.
  intros Hi Hk [(x & Hx & HR)|(HB & Hi' & Hk' & Hne & m & Hm & He)].
  - left. exists x. split; [|done]. apply upsert_kept; [done|]. apply row_identity in HR as [-> _]. done.
  - right. split_and!; [done| | |done|by exists m].
    + intros [?|?]%upsert_ids; [congruence|done].
    + intros [?|?]%upsert_keys; [congruence|done].
Qed.

Lemma evolves_upsert_all saved : ∀ w,
  NoDup (List.map st_id saved) → NoDup (List.map st_key saved) → (∀ s, s ∈ saved → savable w s) →
  evolves env R B w (w<|w_steps ::= λ l, upsert_all l saved|>).
Proof using Hdistinct RowRelation0 Births0.
  induction saved as [|s saved IH]; intros w Hi Hk Hs.
  { apply evolves_same; [typeclasses eauto..|done|by apply onward_refl]. }
  cbn [List.map] in *. inversion Hi as [|? ? Hi1 Hi2]; subst. inversion Hk as [|? ? Hk1 Hk2]; subst.
  transitivity (w<|w_steps ::= λ l, upsert l s|>); [apply evolves_upsert, Hs, list_elem_of_here|].
  set (w1 := w<|w_steps ::= λ l, upsert l s|>).
  change (evolves env R B w1 (w1<|w_steps ::= λ l, upsert_all l saved|>)). apply IH; [done|done|]. intros y Hy.
  apply savable_next; [| |by apply Hs, list_elem_of_further].
  - intros He. apply Hi1. rewrite He. by apply elem_of_map_2.
  - intros He. apply Hk1. rewrite He. by apply elem_of_map_2.
Qed.

(** What the merge saves is savable. *)
Lemma merged_savable w0 dn saved w :
  identified env w0 → (∀ x s, revised x s → R x s) → (∀ s, fresh_row s → B s) →
  merged env w0 dn saved w → ∀ s, s ∈ saved → savable w s.
Proof using Type.
  intros Hid HR HB [Hs Hm Hn Hk Hi Hr] s Hin. unfold savable. rewrite Hs.
  destruct (Hr s Hin) as [(x & Hx & Hrev)|(Hf & Hk' & Hne & m & Hm' & He)]; [left; eauto|right].
  split_and!; [by apply HB| |done|done|exists m; split; [lia|done]].
  intros (x & Hx & Hin')%elem_of_map. apply (id_fresh env w0 Hid x m Hin'); [lia|congruence].
Qed.
End saving.

(** ** A submission, seen through the rows *)

Section submission.
Context (env : Env).

(** The world once the plan is saved. *)
Definition accepted (i : PlanSubmission) (m : Mission) (g : SettledGraph) (saved : list Step) (w : World) : World :=
  w<|w_steps ::= λ l, upsert_all l saved|>
   <|w_mission ::= accept_plan (ms_plan_version m + 1) (sp_summary i) g|>.

(** What follows: the timeline, the pump and the wake. *)
Definition plan_tail (now : Z) (m : Mission) (g : SettledGraph) (created updated : list string) : M PlanResult :=
  recordEvent "plan_submitted" None created;;
  (if unconfirmed m (sg_spec g) then recordEvent "note" None [] else mret tt);;
  pumped ← pump env now;
  _ ← wakeAfterPump env pumped None;
  mret {| pr_created := created; pr_updated := updated; pr_started := pm_dispatched pumped |}.

Definition listing (w : World) : list Step := sort_by st_position (w_steps w).

(** A submission is refused, handing out ids at most, or saves a merged plan. *)
Inductive plan_run (now : Z) (i : PlanSubmission) (w : World) : World → Prop :=
  | run_refused w1 :
      w_steps w1 = w_steps w → w_mission w1 = w_mission w → (w_nonce w <= w_nonce w1)%nat → plan_run now i w w1
  | run_accepted validated g saved created updated w1 :
      validatePlan (merged_plan (listing w) (sp_steps i)) (ms_max_steps (w_mission w)) = Ok validated →
      settle_graph env (w_mission w) validated i w = (Ok g, w) →
      merged env w validated saved w1 →
      plan_run now i w (snd (plan_tail now (w_mission w) g created updated (accepted i (w_mission w) g saved w1))).

Lemma merge_step_rows m p e pl v inp st x w :
  w_steps (snd (merge_step env m p e pl v inp st x w)) = w_steps w ∧
  w_mission (snd (merge_step env m p e pl v inp st x w)) = w_mission w ∧
  (w_nonce w <= w_nonce (snd (merge_step env m p e pl v inp st x w)))%nat.
Proof.
  unfold merge_step. destruct x as [idx s]. cbv zeta. destruct (JMap.get e _) as [found|]; [|simpl; auto].
  destruct (_ && _); [|simpl; auto]. unfold mbind, M_bind.
  set (y := revise_text _ _ _).
  assert (Hn : snd (revise_place m p pl (plan_key s) y w) = w).
  { unfold revise_place. destruct (JMap.get _ _); [done|]. destruct (JMap.get _ _); [|done].
    destruct (st_assignee_slot y); [|done]. destruct (truthy _); [|done]. unfold mbind, M_bind.
    match goal with |- context [assignmentFor ?r ?p ?a ?q w] =>
      pose proof (no_effect_assignment r p a q w) as H; destruct (assignmentFor r p a q w) as [[?|?] ?] end; exact H. }
  destruct (revise_place _ _ _ _ _ _) as [[f|er] v']; simpl in Hn; subst v'; simpl; auto.
Qed.

Lemma merge_loop_rows m p e pl v inp l : ∀ st w,
  let w' := snd (loop (merge_step env m p e pl v inp) st l w) in
  w_steps w' = w_steps w ∧ w_mission w' = w_mission w ∧ (w_nonce w <= w_nonce w')%nat.
Proof.
  induction l as [|x l IH]; intros st w; [simpl; auto|]. cbv zeta. cbn [loop]. unfold mbind, M_bind.
  pose proof (merge_step_rows m p e pl v inp st x w) as (H1 & H2 & H3).
  destruct (merge_step _ _ _ _ _ _ _ _ x w) as [[st'|er] w1]; cbn [snd] in *; [|auto].
  destruct (IH st' w1) as (I1 & I2 & I3). cbv zeta in *. split_and!; [congruence|congruence|lia].
Qed.

Lemma validatePlan_facts steps maxSteps out :
  validatePlan steps maxSteps = Ok out →
  out ≡ₚ steps ∧ NoDup (List.map plan_key out) ∧ ∀ s, s ∈ out → step_ok s.
Proof.
  intros ((_ & _ & Hok & Hnd & Hdeps & Hac) & ->)%validatePlan_iff.
  destruct (plan_order_correct _ Hnd Hdeps) as [Hiff Hperm]. destruct (Hperm (proj2 Hiff Hac)) as [Hp _].
  split_and!; [done|by rewrite Hp|]. intros s. rewrite Hp. apply Hok.
Qed.

Lemma merged_start w : merged env w [] [] w.
Proof. constructor; [done|done|lia|done|constructor|]. intros s Hs. inversion Hs. Qed.

Lemma indexed_snd {A} (l : list A) : List.map snd (indexed l) = l.
Proof.
  unfold indexed. generalize 0%nat. induction l as [|x l IH]; intros n; simpl; [done|]. f_equal. apply IH.
Qed.

Lemma submitPlan_run now k i w :
  distinct_uuids env → identified env w → plan_run now i w (snd (submitPlan env now k i w)).
Proof.
  intros Hd Hid. assert (Hsame : plan_run now i w w) by (by apply run_refused).
  unfold submitPlan. rewrite run_requireMission, run_requireOrchestrator.
  destruct (unauthenticated k); [done|]. destruct (callerHoldsId _ _); [|done].
  rewrite run_guard. destruct (negb (planning_or_running _)); [done|]. rewrite run_guard. destruct (_ <=? _); [done|].
  unfold listSteps. rewrite run_gets. cbv zeta. fold (listing w).
  unfold mbind at 1, M_bind at 1. destruct (validatePlan _ _) as [validated|e] eqn:Ev; [|done]. cbn [lift]. unfold mret at 1, M_ret at 1.
  rewrite !run_guard. destruct (_ && _); [done|]. destruct (_ && _); [done|]. destruct (_ && _); [done|].
  unfold mbind at 1, M_bind at 1. pose proof (no_effect_settle env (w_mission w) validated i w) as Hg.
  destruct (settle_graph _ _ _ _ _) as [[g|e] v] eqn:Eg; cbn [snd] in Hg; subst v; [|done].
  unfold mbind at 1, M_bind at 1.
  match goal with |- context [loop (place_input ?m ?p ?e) ?s ?l w] =>
    pose proof (loop_no_effect (place_input m p e) l s w (no_effect_place m p e)) as Hp;
    destruct (loop (place_input m p e) s l w) as [[places|e'] v] end; cbn [snd] in Hp; subst v; [|done].
  unfold mbind at 1, M_bind at 1.
  match goal with |- context [loop (merge_step env ?m ?p ?e ?pl ?v ?inp) ?st ?l w] =>
    pose proof (merge_loop_rows m p e pl v inp l st w) as (M1 & M2 & M3);
    destruct (loop (merge_step env m p e pl v inp) st l w) as [[merged_rows|e'] w1] eqn:Em end; cbn [snd] in M1, M2, M3;
    [|by apply run_refused].
  destruct (validatePlan_facts _ _ _ Ev) as (_ & Hnd & Hok).
  apply (merge_all env Hd w Hid) with (done := []) in Em; [|apply merged_start|by rewrite app_nil_l, indexed_snd|].
  2:{ rewrite indexed_snd. intros s Hs. by apply (Hok s Hs). }
  rewrite app_nil_l, indexed_snd in Em.
  exact (run_accepted now i w validated g (mg_save merged_rows) _ _ w1 Ev Eg Em).
Qed.

(** ** The graph a submission settles on *)

(** The graph's nodes are the steps of the plan, each once. *)
Definition nodes_are (keys : list string) (spec : GraphSpec) : Prop :=
  NoDup (node_keys spec) ∧ ∀ k, k ∈ node_keys spec ↔ k ∈ keys.

Lemma valid_nodes input keys cp spec :
  "" ∉ keys → validateGraphSpec input keys cp = Ok spec → nodes_are keys spec.
Proof. intros Hne Hv. apply validateGraphSpec_valid in Hv; [|done]. split; [apply Hv|apply Hv]. Qed.

Lemma expanded_validates Number name params keys cp spec :
  expandGraphTemplate Number name params keys cp = Ok spec → ∃ built, validateGraphSpec (Some built) keys cp = Ok spec.
Proof.
  unfold expandGraphTemplate. cbv zeta. destruct (JMap.get _ _) as [build|]; [|discriminate].
  intros (built & _ & H)%bind_Ok. apply bind_Ok in H as (u & _ & H). exists built.
  destruct (validateGraphSpec _ _ _); [by injection H as ->|discriminate].
Qed.

Lemma nodes_are_iff keys keys' spec : (∀ k, k ∈ keys ↔ k ∈ keys') → nodes_are keys spec → nodes_are keys' spec.
Proof. intros He [Hn Hk]. split; [done|]. intros k. by rewrite Hk. Qed.

Lemma settled_nodes m validated i w g w' :
  (∀ s, s ∈ validated → step_ok s) → settle_graph env m validated i w = (Ok g, w') →
  if ms_graph_enabled m
  then match sg_spec g with Some spec => nodes_are (List.map plan_key validated) spec | None => False end
  else sg_spec g = ms_graph_spec m.
Proof.
  intros Hok H. set (keys := List.map plan_key validated).
  assert (Hp : ∀ k, k ∈ keys → STEP_KEY_PATTERN k = true) by (intros k (s & -> & Hs)%elem_of_map; by apply Hok).
  assert (Hne : "" ∉ keys) by (intros He%Hp; discriminate).
  assert (Htrim : ∀ l, (∀ k, k ∈ l → k ∈ keys) → lfilter truthy (List.map trim l) = l).
  { induction l as [|k l IH]; intros Hl; [done|]. cbn [List.map]. assert (Hk := Hl k (list_elem_of_here _ _)).
    rewrite lfilter_cons, (trim_pattern k) by (by apply Hp).
    replace (truthy k) with true by (symmetry; apply truthy_true; intros ->; by apply Hne).
    f_equal. apply IH. intros x Hx. by apply Hl, list_elem_of_further. }
  unfold settle_graph in H. cbv zeta in H. fold keys in H. destruct (ms_graph_enabled m); cbn [negb] in H; [|by injection H as <- _].
  destruct (sp_graph_template i) as [t|].
  { destruct (expandGraphTemplate _ _ _ _ _) as [spec|] eqn:Et; [|discriminate]. injection H as <- _.
    apply expanded_validates in Et as (built & Ev). by apply valid_nodes in Ev. }
  destruct (sp_graph i) as [gi|].
  { destruct (validateGraphSpec _ _ _) as [spec|] eqn:Ev; [|discriminate]. injection H as <- _. by apply valid_nodes in Ev. }
  destruct (if sp_reset_graph i then None else ms_graph_spec m) as [current|].
  - unfold carryGraphThroughReplan in H. cbv zeta in H. rewrite Htrim in H by done.
    destruct (validateGraphSpec _ _ _) as [spec|] eqn:Ev; [|discriminate]. injection H as <- _. cbn [sg_spec].
    apply valid_nodes in Ev; [|by rewrite elem_of_new_Set]. revert Ev. apply nodes_are_iff. intros k. apply elem_of_new_Set.
  - destruct (graphFromWavePlan _) as [spec|] eqn:Ev; [|discriminate]. injection H as <- _. cbn [sg_spec].
    unfold graphFromWavePlan in Ev. cbv zeta in Ev. rewrite List.map_map in Ev. cbn [ws_step_key] in Ev.
    rewrite <- (List.map_map plan_key trim) in Ev. fold keys in Ev. rewrite Htrim in Ev by done. by apply valid_nodes in Ev.
Qed.
End submission.

(** ** Patches *)

(** What [patchGraph] writes: a graph over the steps of a mission that runs on
    one, and then what the pump and the wake write. *)
Lemma moves_patch (env : Env) (R : World → World → Prop) `{!PreOrder R} now k p w :
  "" ∉ List.map st_key (w_steps w) →
  (∀ g', ms_graph_enabled (w_mission w) = true → nodes_are (List.map st_key (w_steps w)) g' →
     moves R (update_mission (λ m, m<|ms_graph_spec := Some g'|><|ms_graph_revision ::= λ r, r + 1|>)) w) →
  (∀ t key ks v, moves R (recordEvent t key ks) v) → (∀ v, moves R (pump env now) v) →
  (∀ pumped v, moves R (wakeAfterPump env pumped None) v) → moves R (patchGraph env now k p) w.
Proof.
  intros Hne Hup Hev Hpump Hwake. unfold patchGraph. apply moves_requireMission_bind; [done|].
  apply moves_requireOrchestrator_bind; [done|]. intros _ _. apply moves_guard; [done|]. intros _.
  destruct (ms_graph_enabled (w_mission w)); [|moves_auto]. destruct (ms_graph_spec (w_mission w)) as [g|]; [|moves_auto].
  apply moves_guard; [done|]. intros _. apply moves_gets_bind.
  apply moves_check_bind; [intros x v; destruct (applyGraphPatch _ _ _ _ _); by intros [= _ <-]|moves_auto|].
  intros [g' changes] Hl. destruct (applyGraphPatch _ _ _ _ _) as [r|e] eqn:Ep; [|discriminate]. injection Hl as ->.
  apply moves_bind_all; [done| |intros; moves_auto; eauto]. apply Hup; [done|].
  apply applyGraphPatch_inv in Ep as ((input & Hv) & _). apply valid_nodes in Hv; [|by rewrite sort_by_perm].
  revert Hv. apply nodes_are_iff. intros key. by rewrite sort_by_perm.
Qed.
