(* ===== verification/Reports.v ===== *)
(** * Result intake

    The methods through which members and users change a step:
    [reportProgress], [reportStep] and [submitConfirmDecision], with the lease
    fence [requireFreshLease] in front of the first two. *)

From S2P Require Import Prelude JsStd Vocabulary Plan Graph GraphFacts GraphRun Entities Engine.
#[local] Open Scope Z_scope.

Section reports.
Context (env : Env).

(** ** Lease fencing *)

Definition requireFreshLease (step : Step) (presented : option string) : M () :=
  let held := st_lease_token step in
  if negb (truthy held) then mret tt
  else
    let shown := trim (default "" presented) in
    if String.eqb shown held then mret tt
    else
      recordEvent "step_lease_rejected" (Some (st_key step))
        [if truthy shown then "superseded" else "missing"];;
      if negb (truthy shown) then throw 409 (no_lease_token (st_key step))
      else throw 409 (stale_lease (st_key step) (st_attempt step)).

(** ** Heartbeats *)

Definition beat (now : Z) (checkpoint : jsval) (s : Step) : Step :=
  let s := if String.eqb (st_status s) "dispatched" then s<|st_status := "running"|> else s in
  let s := s<|st_started_at := Some (default now (st_started_at s))|>
            <|st_last_heartbeat_at := Some now|><|st_lease_stale_since := None|> in
  if is_nullish checkpoint then s
  else s<|st_checkpoint := Some checkpoint|><|st_checkpoint_at := Some now|>.

Definition reportProgress (now : Z) (stepId : string) (caller : Caller)
    (leaseToken : option string) (checkpoint : jsval) : M Step :=
  fresh ← requireStep stepId;
  mission ← requireMission None;
  requireStepActor fresh mission caller;;
  throw_if (isTerminalStepStatus (st_status fresh)) 409 (step_already (st_key fresh) (st_status fresh));;
  requireFreshLease fresh leaseToken;;
  let beaten := beat now checkpoint fresh in
  save_step beaten;;
  (match st_lease_stale_since fresh with
   | Some _ => recordEvent "step_lease_recovered" (Some (st_key fresh)) []
   | None => mret tt end);;
  (if is_nullish checkpoint then mret tt
   else recordEvent "step_checkpoint" (Some (st_key fresh)) []);;
  recordEvent "step_progress" (Some (st_key fresh)) [];;
  mret beaten.

(** ** Terminal reports *)

Record ArtifactInput := { ai_kind : option string; ai_ref : option string; ai_label : option string }.

Definition normalizeArtifacts (input : option (list ArtifactInput)) : list Artifact :=
  match input with
  | None => []
  | Some l =>
      lfilter (λ a, truthy (ar_ref a))
        (List.map (λ a, {| ar_kind := slice 40 (default "link" (ai_kind a));
                           ar_ref := slice 500 (default "" (ai_ref a));
                           ar_label := slice 200 (default "" (ai_label a)) |})
           (firstn (Z.to_nat MAX_ARTIFACTS_PER_STEP) l))
  end.

Inductive ReportStatus : Type := report_done | report_failed | report_blocked.

Definition report_string (r : ReportStatus) : string :=
  match r with report_done => "done" | report_failed => "failed" | report_blocked => "blocked" end.

Definition report_event (r : ReportStatus) : string :=
  match r with
  | report_done => "step_completed" | report_failed => "step_failed"
  | report_blocked => "step_blocked"
  end.

Record ReportInput := {
  ri_status : ReportStatus;
  ri_summary : string;
  ri_artifacts : option (list ArtifactInput);
  ri_verdict : option string;
  ri_visit : option number;
  ri_lease_token : option string
}.

Record ReportResult := {
  rr_step : Step;
  rr_dispatched : list string;
  rr_orchestrator_woken : bool;
  rr_loop_reentered : list string
}.

Definition record_report (now : Z) (input : ReportInput) (s : Step) : Step :=
  s<|st_status := report_string (ri_status input)|>
   <|st_result_summary := slice SUMMARY_MAX (ri_summary input)|>
   <|st_artifacts := Some (normalizeArtifacts (ri_artifacts input))|>
   <|st_verdict := slice 48 (toLowerCase (trim (default "" (ri_verdict input))))|>
   <|st_finished_at := Some now|>
   <|st_started_at := Some (default now (st_started_at s))|>.

(** The visit fence: mandatory on graph missions, checked whenever present. *)
Definition requireVisit (mission : Mission) (step : Step) (visit : option number) : M () :=
  match visit with
  | None =>
      throw_if (bool_decide (ms_graph_spec mission ≠ None)) 409 (visit_required (st_key step))
  | Some claimed =>
      throw_if (negb (bool_decide (claimed = JInt (st_visit step)))) 409
        (stale_visit (st_key step) (st_visit step))
  end.

(** What follows every terminal step: transitions, blocking, pump, wake. *)
Definition settle (now : Z) (step : Step) : M ReportResult :=
  reentered ← applyGraphTransitions step;
  _ ← propagateBlocking now;
  pumped ← pump env now;
  woken ← wakeAfterPump env pumped (Some step);
  mret {| rr_step := step; rr_dispatched := pm_dispatched pumped;
          rr_orchestrator_woken := woken; rr_loop_reentered := reentered |}.

Definition reportStep (now : Z) (stepId : string) (caller : Caller) (input : ReportInput)
    : M ReportResult :=
  step ← requireStep stepId;
  mission ← requireMission None;
  requireStepActor step mission caller;;
  throw_if (isTerminalMissionStatus (ms_status mission)) 409 (mission_is (ms_status mission));;
  throw_if (isTerminalStepStatus (st_status step)) 409 (step_already (st_key step) (st_status step));;
  requireFreshLease step (ri_lease_token input);;
  requireVisit mission step (ri_visit input);;
  let reported := record_report now input step in
  save_step reported;;
  recordEvent (report_event (ri_status input)) (Some (st_key step)) [];;
  settle now reported.

(** ** User decisions *)

Record DecisionInput := { di_verdict : string; di_feedback : option string; di_visit : number }.

Record DecisionResult := { dr_step : Step; dr_already_decided : bool; dr_report : option ReportResult }.

(** [claimedVisit], established to be a whole number of at least one. *)
Definition claimed_visit (n : number) : option Z :=
  match n with JInt z => if z <? 1 then None else Some z | JNonInt _ => None end.

Definition record_decision (now : Z) (d : ConfirmDecision) (s : Step) : Step :=
  s<|st_confirm_decision := Some d|>
   <|st_verdict := cd_verdict d|>
   <|st_result_summary :=
       slice SUMMARY_MAX (String.append "User confirmation: " (String.append (cd_verdict d) (cd_feedback d)))|>
   <|st_status := "done"|>
   <|st_started_at := Some (default now (st_started_at s))|>
   <|st_finished_at := Some now|>.

(** A decision not taken yet: the gate must be waiting, at the claimed visit. *)
Definition take_decision (now : Z) (actor_id actor_name verdict feedback : string) (claimedVisit : Z) (step : Step)
    : M DecisionResult :=
  throw_if (negb (isAwaitingUser (st_status step))) 409 (not_awaiting (st_key step) (st_status step));;
  throw_if (negb (claimedVisit =? st_visit step)) 409 (stale_visit (st_key step) (st_visit step));;
  let decision := {| cd_verdict := verdict; cd_feedback := feedback;
                     cd_decided_by_user_id := actor_id; cd_decided_by_name := actor_name;
                     cd_decided_at := now; cd_visit := st_visit step |} in
  let decided := record_decision now decision step in
  save_step decided;;
  recordEvent "confirm_decided" (Some (st_key step)) [];;
  result ← settle now decided;
  mret {| dr_step := decided; dr_already_decided := false; dr_report := Some result |}.

Definition submitConfirmDecision (now : Z) (stepId accountId actor_id actor_name : string)
    (input : DecisionInput) : M DecisionResult :=
  let verdict := toLowerCase (trim (di_verdict input)) in
  throw_if (negb (includes CONFIRM_VERDICTS verdict)) 400 bad_verdict;;
  match claimed_visit (di_visit input) with
  | None => throw 400 bad_visit
  | Some claimedVisit =>
      let feedback := slice CONFIRM_FEEDBACK_MAX (trim (default "" (di_feedback input))) in
      step ← requireStep stepId;
      mission ← requireMission (Some accountId);
      throw_if (isTerminalMissionStatus (ms_status mission)) 409 (mission_is (ms_status mission));;
      throw_if (negb (is_confirm mission step)) 409 (not_confirm_node (st_key step));;
      let decide_now := take_decision now actor_id actor_name verdict feedback claimedVisit step in
      match st_confirm_decision step with
      | Some prior =>
          if claimedVisit =? cd_visit prior then
            if String.eqb (cd_verdict prior) verdict
            then mret {| dr_step := step; dr_already_decided := true; dr_report := None |}
            else throw 409 (already_decided_otherwise (st_key step))
          else decide_now
      | None => decide_now
      end
  end.
End reports.
