(* ===== verification/Recovery.v ===== *)
(** * Recovery

    What happens to a step whose assignee stops answering, or to a mission that
    is given up from outside: [reconcileStaleLease], [finalizeUnrecoverableStep],
    [failStepExternally] and [failMissionExternally]. *)

From S2P Require Import Prelude JsStd Vocabulary Plan Graph GraphRun Entities Engine Reports.
#[local] Open Scope Z_scope.

Section recovery.
Context (env : Env).

Definition is_manual (s : Step) : bool :=
  String.eqb (if truthy (st_retry_policy s) then st_retry_policy s else "auto") "manual".

(** The terminal state of a step the engine will not run again by itself. *)
Definition close_step (now : Z) (manual : bool) (recovery_reason summary : string) (s : Step) : Step :=
  s<|st_status := if manual then "needs_recovery" else "failed"|>
   <|st_recovery_reason := if manual then recovery_reason else ""|>
   <|st_result_summary := slice SUMMARY_MAX summary|>
   <|st_finished_at := Some now|>
   <|st_lease_token := ""|>.

Definition after_failure (now : Z) (step : Step) : M () :=
  _ ← propagateBlocking now;
  pumped ← pump env now;
  _ ← wakeAfterPump env pumped (Some step);
  mret tt.

Definition close_event (manual : bool) : string :=
  if manual then "step_needs_recovery" else "step_failed".

Definition finalizeUnrecoverableStep (now : Z) (step : Step) (reason : string)
    (manual budgetLeft : bool) : M () :=
  let note :=
    if manual then String.append reason (String.append " " (env_manual_note env))
    else if budgetLeft then reason
    else String.append reason (String.append " " (env_budget_note env (st_max_attempts step))) in
  let closed := (close_step now manual note note step)<|st_lease_stale_since := None|> in
  save_step closed;;
  recordEvent (close_event manual) (Some (st_key step)) [];;
  after_failure now closed.

Definition failStepExternally (now : Z) (stepId reason : string) : M () :=
  step ← requireStep stepId;
  if isTerminalStepStatus (st_status step) then mret tt
  else
    mission ← requireMission None;
    if isTerminalMissionStatus (ms_status mission) then mret tt
    else
      let manual := is_manual step in
      let closed := close_step now manual
        (String.append reason (String.append " " (env_manual_note env))) reason step in
      save_step closed;;
      recordEvent (close_event manual) (Some (st_key step)) [];;
      after_failure now closed.

Definition cancel_open (now : Z) (s : Step) : Step :=
  s<|st_status := "cancelled"|><|st_finished_at := Some now|>.

Definition fail_mission (now : Z) (reason : string) (m : Mission) : Mission :=
  m<|ms_status := "failed"|><|ms_failure_reason := slice 2000 reason|><|ms_finished_at := Some now|>.

Definition failMissionExternally (now : Z) (expectedStatus reason : string) : M bool :=
  mission ← requireMission None;
  if isTerminalMissionStatus (ms_status mission) then mret false
  else if negb (String.eqb (ms_status mission) expectedStatus) then mret false
  else
    steps ← listSteps;
    if String.eqb expectedStatus "running" && lsome (λ s, isInFlight (st_status s)) steps
    then mret false
    else
      save_steps (List.map (cancel_open now)
        (lfilter (λ s, negb (isTerminalStepStatus (st_status s))) steps));;
      update_mission (fail_mission now reason);;
      recordEvent "mission_failed" None [];;
      mret true.

(** ** Lease reconciliation *)

Inductive ReconcileOutcome : Type := rec_noticed | rec_redispatched | rec_terminal | rec_skipped.

Definition lease_baseline (s : Step) : option Z :=
  match st_last_heartbeat_at s with
  | Some t => Some t
  | None => match st_started_at s with Some t => Some t | None => st_dispatched_at s end
  end.

Definition lease_expired_reason : string := "[lease expired]".

(** Stage two, once the grace window has passed. *)
Definition reconcile_expired (now : Z) (step : Step) : M ReconcileOutcome :=
  let manual := is_manual step in
  let budgetLeft := st_attempt step <? st_max_attempts step in
  if manual || negb budgetLeft
  then finalizeUnrecoverableStep now step lease_expired_reason manual budgetLeft;; mret rec_terminal
  else
    let revived := step<|st_lease_stale_since := None|> in
    save_step revived;;
    recordEvent "step_auto_redispatched" (Some (st_key step)) [];;
    _ ← unblockAutoBlockedDependents;
    try_catch
      (dispatchStep env now revived true;; mret rec_redispatched)
      (λ _, current ← requireStep (st_id step);
            finalizeUnrecoverableStep now current lease_expired_reason manual budgetLeft;;
            mret rec_terminal).

Definition reconcileStaleLease (now : Z) (stepId : string) (graceMs timeoutMinutes : Z)
    : M ReconcileOutcome :=
  step ← requireStep stepId;
  if negb (isInFlight (st_status step)) then mret rec_skipped
  else
    mission ← requireMission None;
    if negb (String.eqb (ms_status mission) "running") then mret rec_skipped
    else
      match lease_baseline step with
      | None => mret rec_skipped
      | Some baseline =>
          let silentMs := now - baseline in
          if silentMs <? timeoutMinutes * 60000 then
            match st_lease_stale_since step with
            | Some _ =>
                save_step (step<|st_lease_stale_since := None|>);;
                recordEvent "step_lease_recovered" (Some (st_key step)) [];;
                mret rec_skipped
            | None => mret rec_skipped
            end
          else
            match st_lease_stale_since step with
            | None =>
                save_step (step<|st_lease_stale_since := Some now|>);;
                recordEvent "step_lease_stale" (Some (st_key step)) [];;
                (match st_room_id step with
                 | Some room =>
                     if truthy room
                     then try_catch (postToRoom env room (reconnect_request (st_key step)))
                            (λ _, mret tt)
                     else mret tt
                 | None => mret tt
                 end);;
                mret rec_noticed
            | Some since =>
                if now - since <? graceMs then mret rec_noticed
                else reconcile_expired now step
            end
      end.
End recovery.
