(* ===== verification/Calls.v ===== *)
(** * The runner's calls and the mission's status machine

    Every public method of the runner as a value, what running one does to the
    world, and the statuses a mission may move between. *)

From S2P Require Import Prelude JsStd Vocabulary Plan Graph GraphRun Patch Roster Entities Logic Samples PostActions Engine Frame.
From S2P Require Import Lifecycle StepEdit PlanIntake Reports Recovery.
#[local] Open Scope Z_scope.

Inductive call : Type :=
  | c_start (now : Z) (accountId : string)
  | c_pause (accountId : string)
  | c_resume (now : Z) (accountId : string)
  | c_cancel (now : Z) (accountId reason : string)
  | c_reopen (accountId : option string) (actor : Actor)
  | c_complete (now : Z) (caller : Caller) (status : CompletionStatus) (summary : string)
  | c_criteria (now : Z) (caller : Caller) (updates : list CriterionUpdate)
  | c_nudge (accountId reasonTag : string)
  | c_plan (now : Z) (caller : Caller) (input : PlanSubmission)
  | c_patch (now : Z) (caller : Caller) (patch : GraphPatchInput)
  | c_update (now : Z) (stepId : string) (caller : Caller) (input : StepUpdate)
  | c_progress (now : Z) (stepId : string) (caller : Caller) (leaseToken : option string) (checkpoint : jsval)
  | c_report (now : Z) (stepId : string) (caller : Caller) (input : ReportInput)
  | c_decide (now : Z) (stepId accountId actor_id actor_name : string) (input : DecisionInput)
  | c_reconcile (now : Z) (stepId : string) (graceMs timeoutMinutes : Z)
  | c_fail_step (now : Z) (stepId reason : string)
  | c_fail_mission (now : Z) (expectedStatus reason : string).

Definition ignore {A} (m : M A) : M () := _ ← m; mret tt.

Section calls.
Context (env : Env).

(** One call, under the mission's lock. *)
Definition exec (c : call) : M () :=
  match c with
  | c_start now a => startMission env now a
  | c_pause a => pauseMission a
  | c_resume now a => resumeMission env now a
  | c_cancel now a r => cancelMission now a r
  | c_reopen a actor => reopenMission env a actor
  | c_complete now caller s t => completeMission env now caller s t
  | c_criteria now caller us => updateCriteria now caller us
  | c_nudge a t => nudgeOrchestrator env a t
  | c_plan now caller i => ignore (submitPlan env now caller i)
  | c_patch now caller p => ignore (patchGraph env now caller p)
  | c_update now id caller i => ignore (updateStep env now id caller i)
  | c_progress now id caller t cp => ignore (reportProgress now id caller t cp)
  | c_report now id caller i => ignore (reportStep env now id caller i)
  | c_decide now id a u n i => ignore (submitConfirmDecision env now id a u n i)
  | c_reconcile now id g t => ignore (reconcileStaleLease env now id g t)
  | c_fail_step now id r => failStepExternally env now id r
  | c_fail_mission now s r => ignore (failMissionExternally now s r)
  end.

Definition after (c : call) (w : World) : World := snd (exec c w).

(** A history of calls, each seeing the world the one before it left. *)
Definition run_calls (cs : list call) (w : World) : World := foldl (λ w c, after c w) w cs.
End calls.

(** Calls that leave the plan and the graph as they are. *)
Definition keeps_plan (c : call) : bool := match c with c_plan _ _ _ | c_patch _ _ _ => false | _ => true end.

(** ** The status machine *)

Inductive mission_moves : string → call → string → Prop :=
  | mm_stay s c : mission_moves s c s
  | mm_start now a : mission_moves "draft" (c_start now a) "planning"
  | mm_plan now k i : mission_moves "planning" (c_plan now k i) "running"
  | mm_pause s a : isTerminalMissionStatus s = false → mission_moves s (c_pause a) "paused"
  | mm_resume_planning now a : mission_moves "paused" (c_resume now a) "planning"
  | mm_resume_running now a : mission_moves "paused" (c_resume now a) "running"
  | mm_cancel s now a r : isTerminalMissionStatus s = false → mission_moves s (c_cancel now a r) "cancelled"
  | mm_complete s now k st t :
      isTerminalMissionStatus s = false → mission_moves s (c_complete now k st t) (completion_string st)
  | mm_fail s now r : isTerminalMissionStatus s = false → mission_moves s (c_fail_mission now s r) "failed"
  | mm_reopen_draft s a k : isTerminalMissionStatus s = true → mission_moves s (c_reopen a k) "draft"
  | mm_reopen_running s a k : isTerminalMissionStatus s = true → mission_moves s (c_reopen a k) "running".

(** ** What each call does to the status *)

(** The status is one the call may leave, having found [s]. *)
Definition allowed (s : string) (c : call) (w : World) : Prop := mission_moves s c (status_of w).
Definition keeps_allowed (s : string) (c : call) (w w' : World) : Prop := allowed s c w → allowed s c w'.

#[export] Instance keeps_allowed_preorder s c : PreOrder (keeps_allowed s c).
Proof. unfold keeps_allowed. split; [intros w H; exact H|intros u v w H1 H2 H; auto]. Qed.

Lemma moves_same_row {A} s c (m : M A) w : moves same_row m w → moves (keeps_allowed s c) m w.
Proof. unfold moves, keeps_allowed, allowed. intros H. by rewrite (same_row_status _ _ H). Qed.
#[export] Hint Extern 2 (moves (keeps_allowed _ _) _ _) => apply moves_same_row; solve [auto 2 with moves] : moves.

(** A write of the row that keeps the status. *)
Lemma keeps_allowed_update s c f w :
  (∀ m, ms_status (f m) = ms_status m) → moves (keeps_allowed s c) (update_mission f) w.
Proof. intros H. unfold moves, keeps_allowed, allowed, status_of. simpl. by rewrite H. Qed.
#[export] Hint Extern 3 (moves (keeps_allowed _ _) (update_mission _) _) =>
  apply keeps_allowed_update; reflexivity : moves.

(** A write of a status the call may set. *)
Lemma keeps_allowed_set s c f w :
  mission_moves s c (ms_status (f (w_mission w))) → moves (keeps_allowed s c) (update_mission f) w.
Proof. intros H _. exact H. Qed.

Lemma moves_ignore R `{!PreOrder R} {A} (m : M A) w : moves R m w → moves R (ignore m) w.
Proof. intros H. unfold ignore. apply moves_bind_all; [done|exact H|]. intros a w'. by apply moves_ret. Qed.

Section same_row.
Context (env : Env).

Lemma same_row_settle now step w : moves same_row (settle env now step) w.
Proof. unfold settle. moves_auto. Qed.

Lemma same_row_after_failure now step w : moves same_row (after_failure env now step) w.
Proof. unfold after_failure. moves_auto. Qed.

Lemma same_row_lease step shown w : moves same_row (requireFreshLease step shown) w.
Proof. unfold requireFreshLease. moves_auto. Qed.
#[local] Hint Resolve same_row_settle same_row_after_failure same_row_lease : moves.

Lemma same_row_progress now id k t cp w : moves same_row (reportProgress now id k t cp) w.
Proof. unfold reportProgress. moves_auto. Qed.

Lemma same_row_report now id k i w : moves same_row (reportStep env now id k i) w.
Proof. unfold reportStep, requireVisit. moves_auto. Qed.

Lemma same_row_decide now id a u n i w : moves same_row (submitConfirmDecision env now id a u n i) w.
Proof. unfold submitConfirmDecision, take_decision. moves_auto. Qed.

Lemma same_row_finalize now step r m b w : moves same_row (finalizeUnrecoverableStep env now step r m b) w.
Proof. unfold finalizeUnrecoverableStep. moves_auto. Qed.
#[local] Hint Resolve same_row_finalize : moves.

Lemma same_row_reconcile now id g t w : moves same_row (reconcileStaleLease env now id g t) w.
Proof. unfold reconcileStaleLease, reconcile_expired. moves_auto. Qed.

Lemma same_row_fail_step now id r w : moves same_row (failStepExternally env now id r) w.
Proof. unfold failStepExternally. moves_auto. Qed.

Lemma same_row_assignment r p a q w : moves same_row (assignmentFor r p a q) w.
Proof. unfold assignmentFor. moves_auto. Qed.
#[local] Hint Resolve same_row_assignment : moves.

Lemma same_row_projectId p v w : moves same_row (missionProjectId p v) w.
Proof. unfold missionProjectId. moves_auto. Qed.
#[local] Hint Resolve same_row_projectId : moves.

Lemma same_row_update now id k i w : moves same_row (updateStep env now id k i) w.
Proof.
  unfold updateStep, requested_placement, update_budget, apply_action, retry_place, refresh_runtime. moves_auto.
Qed.

Lemma same_row_nudge a t w : moves same_row (nudgeOrchestrator env a t) w.
Proof. unfold nudgeOrchestrator. moves_auto. Qed.

Lemma same_row_team w : moves same_row (requireTeam env) w.
Proof. unfold requireTeam. moves_auto. Qed.

Lemma same_row_roster m t w : moves same_row (resolveRoster env m t) w.
Proof.
  unfold resolveRoster. moves_auto. apply moves_loop; [typeclasses eauto|]. intros u s v _.
  unfold check_approvals. moves_auto.
Qed.

Lemma same_row_folders m r w : moves same_row (assertNoSharedFolderConflict env m r) w.
Proof. unfold assertNoSharedFolderConflict. moves_auto. Qed.

Lemma same_row_prepare p l w : moves same_row (prepareRuntimes env p l) w.
Proof. unfold prepareRuntimes. moves_auto. Qed.
End same_row.
#[export] Hint Resolve same_row_settle same_row_after_failure same_row_lease same_row_progress same_row_report
  same_row_decide same_row_finalize same_row_reconcile same_row_fail_step same_row_assignment same_row_projectId
  same_row_update same_row_nudge same_row_team same_row_roster same_row_folders same_row_prepare : moves.

(** ** The status machine *)

Lemma post_actions_status env now w : status_of (snd (run_post_actions env now w)) = status_of w.
Proof.
  pose proof (runPostActions_core env now w) as H. unfold run_post_actions.
  destruct (runPostActions env now w None) as [[o w'] n]. exact (f_equal (λ c, ms_status (co_mission c)) H).
Qed.

Lemma keeps_allowed_post_actions s c env now w : moves (keeps_allowed s c) (run_post_actions env now) w.
Proof. unfold moves, keeps_allowed, allowed. by rewrite post_actions_status. Qed.
#[export] Hint Resolve keeps_allowed_post_actions : moves.

Section machine.
Context (env : Env).

Lemma allowed_pause a w : moves (keeps_allowed (status_of w) (c_pause a)) (pauseMission a) w.
Proof. unfold pauseMission. moves_auto. apply keeps_allowed_set. by apply mm_pause. Qed.

Lemma allowed_cancel now a r w : moves (keeps_allowed (status_of w) (c_cancel now a r)) (cancelMission now a r) w.
Proof. unfold cancelMission. moves_auto. apply keeps_allowed_set. by apply mm_cancel. Qed.

Lemma allowed_resume now a w : moves (keeps_allowed (status_of w) (c_resume now a)) (resumeMission env now a) w.
Proof.
  unfold resumeMission. moves_auto. apply keeps_allowed_set. unfold status_of. simpl.
  assert (ms_status (w_mission w) = "paused") as ->.
  { apply String.eqb_eq. by apply negb_false_iff. }
  destruct (0 <? ms_plan_version (w_mission w)); constructor.
Qed.

Lemma allowed_complete now k st t w :
  moves (keeps_allowed (status_of w) (c_complete now k st t)) (completeMission env now k st t) w.
Proof. unfold completeMission. moves_auto. apply keeps_allowed_set. by apply mm_complete. Qed.

Lemma allowed_fail_mission now s r w :
  moves (keeps_allowed (status_of w) (c_fail_mission now s r)) (failMissionExternally now s r) w.
Proof.
  unfold failMissionExternally. moves_auto. apply keeps_allowed_set. unfold status_of. simpl.
  assert (ms_status (w_mission w) = s) as He by (apply String.eqb_eq; by apply negb_false_iff).
  rewrite He in *. by apply mm_fail.
Qed.

Lemma allowed_criteria s c now k us w : moves (keeps_allowed s c) (updateCriteria now k us) w.
Proof.
  unfold updateCriteria. moves_auto. apply moves_loop; [typeclasses eauto|]. intros m u v _.
  unfold update_criterion. moves_auto.
Qed.

Lemma allowed_start now a w : moves (keeps_allowed (status_of w) (c_start now a)) (startMission env now a) w.
Proof.
  unfold startMission, rolling_back.
  assert (Hd : negb (String.eqb (ms_status (w_mission w)) "draft") = false → status_of w = "draft").
  { intros H. apply String.eqb_eq. by apply negb_false_iff. }
  moves_auto; apply keeps_allowed_set; rewrite Hd by done; constructor.
Qed.

Lemma allowed_reopen a actor w : moves (keeps_allowed (status_of w) (c_reopen a actor)) (reopenMission env a actor) w.
Proof.
  unfold reopenMission, rolling_back.
  assert (Hd : negb (isTerminalMissionStatus (ms_status (w_mission w))) = false → isTerminalMissionStatus (status_of w) = true)
    by apply negb_false_iff.
  moves_auto.
  all: try (apply keeps_allowed_set; simpl; first [apply mm_reopen_draft | apply mm_reopen_running]; auto).
  all: apply keeps_allowed_update; intros m; by case_match.
Qed.

Lemma allowed_plan now k i w : moves (keeps_allowed (status_of w) (c_plan now k i)) (submitPlan env now k i) w.
Proof.
  unfold submitPlan, settle_graph. moves_auto.
  - apply moves_loop; [typeclasses eauto|]. intros st s v _. unfold place_input. moves_auto.
  - apply moves_loop; [typeclasses eauto|]. intros st [n s] v _. unfold merge_step, revise_place. moves_auto.
  - intros Hs. exact Hs.
  - intros Hs. unfold allowed, status_of in Hs |- *. simpl.
    destruct (String.eqb (ms_status (w_mission _)) "planning") eqn:Ep; [|exact Hs].
    apply String.eqb_eq in Ep. rewrite Ep in Hs. 
    assert (ms_status (w_mission w) = "planning") as -> by (by inversion Hs). apply mm_plan.
Qed.

Lemma allowed_patch now k p w s : moves (keeps_allowed s (c_patch now k p)) (patchGraph env now k p) w.
Proof. unfold patchGraph. moves_auto. Qed.

(** C4: the mission's status machine.  Whatever call is made, on whatever
    mission, with whatever outcome — a return, an error half way, a rolled-back
    start — the status it leaves is the one it found or the one the machine
    moves it to.  In particular a terminal mission is left by reopening only. *)
Theorem mission_status_machine c w : mission_moves (status_of w) c (status_of (after env c w)).
Proof.
  cut (moves (keeps_allowed (status_of w) c) (exec env c) w).
  { intros H. apply H. constructor. }
  destruct c; simpl; try (apply moves_ignore; [typeclasses eauto|]).
  all: solve [ apply moves_same_row; auto with moves
             | auto using allowed_pause, allowed_cancel, allowed_resume, allowed_complete, allowed_fail_mission,
                 allowed_criteria, allowed_start, allowed_reopen, allowed_plan, allowed_patch ].
Qed.
End machine.
