(* ===== verification/StepLife.v ===== *)
(** * The life of a step

    The abstract specification of what happens to one step: a transition system
    over its status, its attempts and its visit, in which every transition names
    the call that may cause it.  The engine refines it: whatever a call does to
    the rows of a mission, each row moves along the transitions the call allows. *)

From S2P Require Import Prelude JsStd Vocabulary Plan Graph GraphFacts GraphRun Patch Roster Entities Logic Samples PostActions Engine.
From S2P Require Import Frame Rows Classify Limits Starting Lifecycle StepEdit PlanIntake Reports Recovery Calls.
#[local] Open Scope Z_scope.

(** ** The abstract state *)

Record Life := life { lf_status : string; lf_attempt : Z; lf_max : Z; lf_visit : Z }.

Definition life_of (s : Step) : Life := life (st_status s) (st_attempt s) (st_max_attempts s) (st_visit s).

(** A new step: no attempt made, two allowed. *)
Definition newborn : Life := life "pending" 0 2 0.

(** The visit number of a step that starts: at least one. *)
Definition entered (visit : Z) : Z := if visit <? 1 then 1 else visit.

(** ** What each call may do *)

(** Calls that end in the pump. *)
Definition pumps (c : call) : bool :=
  match c with
  | c_resume _ _ | c_plan _ _ _ | c_patch _ _ _ | c_update _ _ _ _ | c_report _ _ _ _
  | c_decide _ _ _ _ _ _ | c_reconcile _ _ _ _ | c_fail_step _ _ _ => true
  | _ => false
  end.

(** Calls that propagate blocking. *)
Definition blocks (c : call) : bool :=
  match c with
  | c_update _ _ _ _ | c_report _ _ _ _ | c_decide _ _ _ _ _ _ | c_reconcile _ _ _ _ | c_fail_step _ _ _ => true
  | _ => false
  end.

Definition unblocks (c : call) : bool :=
  match c with c_update _ _ _ _ | c_reconcile _ _ _ _ => true | _ => false end.

(** Calls that close a step, and may so start a loop again. *)
Definition reenters (c : call) : bool :=
  match c with c_report _ _ _ _ | c_decide _ _ _ _ _ _ => true | _ => false end.

(** Calls that cancel the open steps of the mission, or those in flight. *)
Definition cancels (c : call) (status : string) : bool :=
  match c with
  | c_cancel _ _ _ | c_fail_mission _ _ _ => negb (isTerminalStepStatus status)
  | c_complete _ _ _ _ => isInFlight status
  | _ => false
  end.

(** Giving a step up: what [recovery] leaves it as. *)
Definition given_up (status : string) : Prop := status = "failed" ∨ status = "needs_recovery".

(** The transitions of the step [id] under the call [c]. *)
Inductive life_step (c : call) (id : string) : Life → Life → Prop :=
  | ls_ready st a m v :
      pumps c = true → open_status st → life_step c id (life st a m v) (life "ready" a m v)
  | ls_dispatch st a m v :
      pumps c = true → open_status st → life_step c id (life st a m v) (life "dispatched" (a + 1) m (entered v))
  | ls_undelivered st a m v :
      pumps c = true → open_status st ∨ st = "dispatched" → life_step c id (life st a m v) (life "failed" a m v)
  | ls_gate st a m v :
      pumps c = true → open_status st → life_step c id (life st a m v) (life "awaiting_user" a m (entered v))
  | ls_block st a m v :
      blocks c = true → open_status st → life_step c id (life st a m v) (life "blocked" a m v)
  | ls_unblock a m v :
      unblocks c = true → life_step c id (life "blocked" a m v) (life "pending" a m v)
  | ls_reenter st a m v :
      reenters c = true → life_step c id (life st a m v) (life "pending" 0 m (v + 1))
  | ls_cancelled st a m v :
      cancels c st = true → life_step c id (life st a m v) (life "cancelled" a m v)
  | ls_heartbeat now k t cp a m v :
      c = c_progress now id k t cp → life_step c id (life "dispatched" a m v) (life "running" a m v)
  | ls_report now k i st a m v :
      c = c_report now id k i → isTerminalStepStatus st = false →
      life_step c id (life st a m v) (life (report_string (ri_status i)) a m v)
  | ls_decide now acc u n i a m v :
      c = c_decide now id acc u n i → life_step c id (life "awaiting_user" a m v) (life "done" a m v)
  | ls_redispatch now g t st a m v :
      c = c_reconcile now id g t → isInFlight st = true → a < m →
      life_step c id (life st a m v) (life "dispatched" (a + 1) m (entered v))
  | ls_expired now g t st st' a m v :
      c = c_reconcile now id g t → isInFlight st = true → given_up st' →
      life_step c id (life st a m v) (life st' a m v)
  | ls_fail now r st st' a m v :
      c = c_fail_step now id r → isTerminalStepStatus st = false → given_up st' →
      life_step c id (life st a m v) (life st' a m v)
  | ls_budget now k i st a m m' v :
      c = c_update now id k i → 1 <= m' <= MAX_STEP_ATTEMPTS_CEILING → a <= m' →
      life_step c id (life st a m v) (life st a m' v)
  | ls_retry now k i st a m v :
      c = c_update now id k i → su_action i = act_retry → isInFlight st = false → a < m →
      life_step c id (life st a m v) (life "pending" a m v)
  | ls_reassign now k i st a m v :
      c = c_update now id k i → su_action i = act_reassign → isTerminalStepStatus st = true →
      life_step c id (life st a m v) (life "pending" a m v)
  | ls_set_aside now k i st st' a m v :
      c = c_update now id k i → isInFlight st = false →
      su_action i = act_skip ∧ st' = "skipped" ∨ su_action i = act_cancel ∧ st' = "cancelled" →
      life_step c id (life st a m v) (life st' a m v).

(** ** The refinement relation *)

(** A row's later version: the same step, moved along the transitions. *)
Definition lives (c : call) (s s' : Step) : Prop :=
  same_identity s s' ∧ rtc (life_step c (st_id s)) (life_of s) (life_of s').

#[export] Instance lives_row c : RowRelation (lives c).
Proof.
  split; [split|].
  - intros s. split; [done|apply rtc_refl].
  - intros s t u [[I1 K1] L1] [[I2 K2] L2]. rewrite <- I1 in L2. split; [split; congruence|by eapply rtc_trans].
  - by intros s s' [H _].
Qed.

(** A new row: submitting a plan creates it, and it lives on from there. *)
Definition born (c : call) (s : Step) : Prop :=
  (∃ now k i, c = c_plan now k i) ∧ rtc (life_step c (st_id s)) newborn (life_of s).

#[export] Instance lives_births c : Births (lives c) (born c).
Proof. intros s s' [Hc L] [[I _] L']. split; [done|]. rewrite <- I. by eapply rtc_trans. Qed.

Abbreviation lived env c := (evolves env (lives c) (born c)).

Lemma lives_step c s s' :
  same_identity s s' → life_step c (st_id s) (life_of s) (life_of s') → lives c s s'.
Proof. intros Hi Hl. split; [done|by apply rtc_once]. Qed.

Lemma lives_same c s s' : same_identity s s' → life_of s = life_of s' → lives c s s'.
Proof. intros Hi Hl. split; [done|]. rewrite Hl. apply rtc_refl. Qed.

(** ** The engine's internals *)

Section internals.
Context (env : Env) (c : call).

#[local] Hint Extern 1 (moves nonce_grows (requireRuntime _ _) _) => (unfold requireRuntime; moves_auto) : moves.
#[local] Hint Extern 1 (moves (spares _) (requireRuntime _ _) _) => (unfold requireRuntime; moves_auto) : moves.

Lemma dispatch_nonce now s r w : moves nonce_grows (dispatchStep env now s r) w.
Proof. unfold dispatchStep. moves_auto. Qed.

Lemma dispatch_spares now s r w : moves (spares [st_id s]) (dispatchStep env now s r) w.
Proof. unfold dispatchStep. moves_auto. apply spares_save, list_elem_of_here. Qed.

(** The row of the step after a dispatch, whether or not it was delivered. *)
Lemma dispatched_row now s r w x :
  NoDup (List.map st_id (w_steps w)) → s ∈ w_steps w →
  x ∈ w_steps (snd (dispatchStep env now s r w)) → st_id x = st_id s →
  x = s ∨ ∃ token room, x = stamp_attempt now token room s.
Proof.
  intros Hnd Hs Hx Hid. destruct (dispatchStep_rows env now s r w) as [_ [Hr|(token & room & Hr)]]; rewrite Hr in Hx.
  - left. by apply (NoDup_fmap_inj_on st_id (w_steps w)).
  - right. exists token, room. apply elem_of_put_step in Hx as [Hx|[Hx Hne]]; [done|].
    destruct Hne. exact Hid.
Qed.

Lemma lived_dispatch now s r w :
  s ∈ w_steps w → (∀ token room, lives c s (stamp_attempt now token room s)) →
  moves (lived env c) (dispatchStep env now s r) w.
Proof.
  intros Hs HL. assert (Hn : onward w (snd (dispatchStep env now s r w))).
  { split; [apply dispatch_nonce|]. unfold graph_nodes.
    destruct (stamped_limits _ _ _ _ (dispatchStep_rows env now s r w)) as [-> _]. done. }
  destruct (dispatchStep_rows env now s r w) as [_ [Hr|(token & room & Hr)]].
  - by apply evolves_same; [typeclasses eauto..| |].
  - by apply (evolves_put env (lives c) (born c) (stamp_attempt now token room s) s).
Qed.

(** ** The pump *)

Context (Hpumps : pumps c = true).

Definition startable (w : World) (s : Step) : Prop := s ∈ w_steps w ∧ open_status (st_status s).

Lemma lived_ready s w : startable w s → moves (lived env c) (mark_ready s) w.
Proof.
  intros [Hs Ho]. unfold mark_ready. moves_auto. apply (evolves_save env (lives c) (born c) _ s); [done|].
  apply lives_step; [done|]. by apply ls_ready.
Qed.

Lemma ready_spares s w : moves (spares [st_id s]) (mark_ready s) w.
Proof. unfold mark_ready. moves_auto. apply spares_save, list_elem_of_here. Qed.

Lemma lived_pump_dispatch now s slotKey load ps w :
  startable w s → moves (lived env c) (pump_dispatch env now s slotKey load ps) w.
Proof.
  intros [Hs Ho]. apply evolves_assuming. intros Hi. unfold pump_dispatch.
  assert (Hstamp : ∀ token room, lives c s (stamp_attempt now token room s)).
  { intros token room. apply lives_step; [done|]. by apply ls_dispatch. }
  apply moves_try; [typeclasses eauto| |].
  - apply moves_bind_all; [typeclasses eauto|by apply lived_dispatch|intros; moves_auto].
  - intros e w' He. assert (Hw' : w' = snd (dispatchStep env now s false w)).
    { unfold mbind, M_bind in He. destruct (dispatchStep env now s false w) as [[u|e'] v]; [discriminate|].
      by injection He as _ <-. }
    unfold dispatch_failed. apply moves_requireStep_bind; [typeclasses eauto|]. intros x Hx Hid.
    cbv zeta. apply moves_bind_all; [typeclasses eauto| |intros; moves_auto].
    apply (evolves_save env (lives c) (born c) _ x); [done|]. apply lives_step; [done|]. apply ls_undelivered; [done|].
    rewrite Hw' in Hx.
    apply dispatched_row in Hx as [->|(token & room & ->)]; [by left|by right|apply Hi|done|done].
Qed.

Lemma pump_dispatch_spares now s slotKey load ps w :
  moves (spares [st_id s]) (pump_dispatch env now s slotKey load ps) w.
Proof.
  unfold pump_dispatch, dispatch_failed. moves_auto; [apply dispatch_spares|].
  apply spares_save. cbn. by rewrite list_elem_of_singleton.
Qed.

(** Rows waiting for their turn outlive the turns before them. *)
Definition waiting (w : World) (l : list Step) : Prop :=
  NoDup (List.map st_id l) ∧ ∀ s, s ∈ l → startable w s.

Lemma waiting_next s l w w' : waiting w (s :: l) → spares [st_id s] w w' → waiting w' l.
Proof.
  intros [Hnd Hw] Hsp. cbn [List.map] in Hnd. inversion Hnd as [|? ? Hni Hnd']; subst. split; [done|].
  intros x Hx. destruct (Hw x (list_elem_of_further _ _ _ Hx)) as [Hin Ho]. split; [|done].
  apply Hsp; [done|]. rewrite list_elem_of_singleton. intros He. apply Hni. rewrite <- He. by apply elem_of_map_2.
Qed.

Lemma waiting_head s l w : waiting w (s :: l) → startable w s.
Proof. intros [_ H]. apply H, list_elem_of_here. Qed.

Lemma lived_pump_regular now : ∀ l ps w, waiting w l → moves (lived env c) (pump_regular env now ps l) w.
Proof.
  induction l as [|s l IH]; intros ps w Hl; cbn [pump_regular]; [moves_auto|].
  apply moves_gets_bind. destruct (_ <=? 0); [moves_auto|]. destruct (budget_spent _); [moves_auto|].
  assert (Hready : moves (lived env c) (mark_ready s;; pump_regular env now ps l) w).
  { apply moves_bind; [typeclasses eauto|by apply lived_ready, (waiting_head s l)|]. intros u w' Hr.
    apply IH, (waiting_next s l w); [done|]. pose proof (ready_spares s w) as Hsp. unfold moves in Hsp. by rewrite Hr in Hsp. }
  destruct (negb _); [exact Hready|]. cbv zeta. destruct (_ <=? _); [exact Hready|].
  apply moves_bind; [typeclasses eauto|by apply lived_pump_dispatch, (waiting_head s l)|]. intros ps' w' Hd.
  apply IH, (waiting_next s l w); [done|].
  pose proof (pump_dispatch_spares now s (loadKey s) (load_get (ps_load ps) (loadKey s)) ps w) as Hsp.
  unfold moves in Hsp. by rewrite Hd in Hsp.
Qed.

Lemma gate_spares now ps s w : moves (spares [st_id s]) (pump_gate now ps s) w.
Proof. unfold pump_gate, openConfirmGate. moves_auto. apply spares_save, list_elem_of_here. Qed.

Lemma lived_gate now ps s w : startable w s → moves (lived env c) (pump_gate now ps s) w.
Proof.
  intros [Hs Ho]. unfold pump_gate, openConfirmGate. apply moves_gets_bind. destruct (budget_spent _); [moves_auto|].
  apply moves_bind_all; [typeclasses eauto| |intros; moves_auto].
  apply moves_gets_bind, moves_gets_bind. destruct (ms_graph_spec _) as [g|]; [|moves_auto].
  apply moves_bind_all; [typeclasses eauto| |intros; moves_auto].
  apply (evolves_save env (lives c) (born c) _ s); [done|]. apply lives_step; [done|]. by apply ls_gate.
Qed.

Lemma lived_gates now : ∀ l ps w, waiting w l → moves (lived env c) (loop (pump_gate now) ps l) w.
Proof.
  induction l as [|s l IH]; intros ps w Hl; cbn [loop]; [moves_auto|].
  apply moves_bind; [typeclasses eauto|by apply lived_gate, (waiting_head s l)|]. intros ps' w' Hg.
  apply IH, (waiting_next s l w); [done|]. pose proof (gate_spares now ps s w) as Hsp. unfold moves in Hsp. by rewrite Hg in Hsp.
Qed.

Lemma gates_spare now l ps w : moves (spares (List.map st_id l)) (loop (pump_gate now) ps l) w.
Proof.
  apply moves_loop; [typeclasses eauto|]. intros ps' s v Hs. apply (spares_more [st_id s]); [|apply gate_spares].
  intros i ->%list_elem_of_singleton. by apply elem_of_map_2.
Qed.

(** ** The pump's candidates *)

Lemma candidates_waiting w :
  identified env w →
  let steps := sort_by st_position (w_steps w) in
  waiting w (pump_candidates steps (progressOf (w_mission w) steps)).
Proof using Type.
  intros Hi steps. assert (Hk : NoDup (List.map st_key steps)) by (unfold steps; rewrite sort_by_perm; apply Hi).
  assert (Hrow : ∀ s, s ∈ pump_candidates steps (progressOf (w_mission w) steps) → startable w s).
  { intros s Hs. destruct (candidates_rows (w_mission w) steps s Hs Hk) as [Hin Hd].
    split; [by apply elem_of_sort_by in Hin|by apply (cl_dispatchable steps s)]. }
  split; [|exact Hrow]. apply (NoDup_map_via st_key st_id).
  - intros x y Hx%Hrow Hy%Hrow He. f_equal. apply (NoDup_fmap_inj_on st_id (w_steps w)); [apply Hi|apply Hx|apply Hy|done].
  - unfold pump_candidates. rewrite sort_by_perm. apply picked_distinct; [done|]. apply dispatchable_distinct; [done|apply Hi].
Qed.

Lemma waiting_filter p w l : waiting w l → waiting w (lfilter p l).
Proof using Type.
  intros [Hnd H]. split; [by apply NoDup_map_lfilter|]. intros s [Hs _]%elem_of_lfilter. by apply H.
Qed.

Lemma waiting_spared w w' l ids :
  waiting w l → spares ids w w' → (∀ s, s ∈ l → st_id s ∉ ids) → waiting w' l.
Proof using Type.
  intros [Hnd H] Hs Hni. split; [done|]. intros s Hin. destruct (H s Hin) as [Hw Ho]. split; [|done].
  apply Hs; [done|by apply Hni].
Qed.

Lemma regular_spares now : ∀ l ps w, moves (spares (List.map st_id l)) (pump_regular env now ps l) w.
Proof using Type.
  induction l as [|s l IH]; intros ps w; cbn [pump_regular]; [moves_auto|].
  assert (Hs : ∀ A (m : M A) v, moves (spares [st_id s]) m v → moves (spares (List.map st_id (s :: l))) m v).
  { intros A m v. apply spares_more. intros i ->%list_elem_of_singleton. apply list_elem_of_here. }
  assert (Hl : ∀ A (m : M A) v, moves (spares (List.map st_id l)) m v → moves (spares (List.map st_id (s :: l))) m v).
  { intros A m v. apply spares_more. intros i Hi. by apply list_elem_of_further. }
  apply moves_gets_bind. destruct (_ <=? 0); [moves_auto|]. destruct (budget_spent _); [moves_auto|].
  assert (Hready : moves (spares (List.map st_id (s :: l))) (mark_ready s;; pump_regular env now ps l) w).
  { apply moves_bind_all; [typeclasses eauto|apply Hs, ready_spares|]. intros u v. apply Hl, IH. }
  destruct (negb _); [exact Hready|]. cbv zeta. destruct (_ <=? _); [exact Hready|].
  apply moves_bind_all; [typeclasses eauto|apply Hs, pump_dispatch_spares|]. intros ps' v. apply Hl, IH.
Qed.

(** The pump writes its candidates only. *)
Lemma pump_spares now w :
  let steps := sort_by st_position (w_steps w) in
  moves (spares (List.map st_id (pump_candidates steps (progressOf (w_mission w) steps)))) (pump env now) w.
Proof using Type.
  cbv zeta. unfold pump. apply moves_gets_bind. destruct (negb _); [moves_auto|].
  apply moves_gets_bind. cbv zeta. destruct (bool_decide _); [moves_auto|]. destruct (_ && _); [moves_auto|].
  set (cands := pump_candidates _ _).
  assert (Hsub : ∀ p i, i ∈ List.map st_id (lfilter p cands) → i ∈ List.map st_id cands).
  { intros p i (x & -> & [Hx _]%elem_of_lfilter)%elem_of_map. by apply elem_of_map_2. }
  apply moves_bind_all; [typeclasses eauto|eapply spares_more; [apply Hsub|apply gates_spare]|intros ps v].
  apply moves_bind_all; [typeclasses eauto|eapply spares_more; [apply Hsub|apply regular_spares]|intros ps' v'].
  destruct (ps_exhausted ps'); moves_auto.
Qed.

Lemma lived_pump now w : moves (lived env c) (pump env now) w.
Proof.
  apply evolves_assuming. intros Hi. unfold pump. apply moves_gets_bind. destruct (negb _); [moves_auto|].
  apply moves_gets_bind. cbv zeta. destruct (bool_decide _); [moves_auto|]. destruct (_ && _); [moves_auto|].
  pose proof (candidates_waiting w Hi) as Hc. cbv zeta in Hc.
  set (cands := pump_candidates _ _) in *. set (gate := is_confirm (w_mission w)).
  apply moves_bind; [typeclasses eauto|by apply lived_gates, waiting_filter|]. intros ps v Hg.
  apply moves_bind_all; [typeclasses eauto| |].
  - apply lived_pump_regular, (waiting_spared w v _ (List.map st_id (lfilter gate cands))); [by apply waiting_filter| |].
    + match type of Hg with loop (pump_gate now) ?p ?l w = _ => pose proof (gates_spare now l p w) as Hsp end.
      unfold moves in Hsp. by rewrite Hg in Hsp.
    + intros s [Hs Hgs]%elem_of_lfilter (y & Hy & [Hin Hgy]%elem_of_lfilter)%elem_of_map.
      assert (s = y) as ->; [|by rewrite Hgy in Hgs]. destruct Hc as [Hnd _].
      by apply (NoDup_fmap_inj_on st_id cands).
  - intros ps' v'. destruct (ps_exhausted ps'); moves_auto.
Qed.
End internals.

(** ** Blocking, unblocking and waking *)

Section evolving.
Context (env : Env) (R : Step → Step → Prop) `{!RowRelation R} (B : Step → Prop) `{!Births R B}.

(** Blocking changes open rows, and those as [block_step] does. *)
Lemma evolving_propagate now w : (∀ s, open_status (st_status s) → R s (block_step now s)) →
  moves (evolves env R B) (propagateBlocking now) w.
Proof using Type*.
  intros Hb. apply evolves_assuming. intros Hi. unfold propagateBlocking. apply moves_gets_bind, moves_gets_bind.
  cbv zeta. set (steps := sort_by st_position (w_steps w)).
  assert (Hk : NoDup (List.map st_key steps)) by (unfold steps; rewrite sort_by_perm; apply Hi).
  set (q := lfilter _ _). destruct (List.map (block_step now) q) as [|y l] eqn:El; [moves_auto|].
  rewrite <- El. apply moves_bind_all; [typeclasses eauto| |intros; moves_auto].
  assert (Hq : ∀ s, s ∈ q → s ∈ steps ∧ st_key s ∈ pr_newlyBlocked (progressOf (w_mission w) steps)).
  { intros s [Hs _]%elem_of_lfilter. apply list_elem_of_omap in Hs as (k & Hkb & Hg).
    by apply (JMap.get_index_by st_key) in Hg as [Hs <-]. }
  apply evolves_save_map; [typeclasses eauto|typeclasses eauto| |done|].
  - intros s Hs. apply Hq in Hs as [Hs _]. by apply elem_of_sort_by in Hs.
  - intros s Hs. apply Hq in Hs as [Hs Hd]. apply Hb. by apply (cl_newlyBlocked (classify := progressOf (w_mission w)) steps s).
Qed.

(** The rows of a loop that fired are reset. *)
Lemma evolving_transitions s w : (∀ x, R x (reset_for_visit x)) → moves (evolves env R B) (applyGraphTransitions s) w.
Proof using Type*.
  intros Hr. apply evolves_assuming. intros Hi. unfold applyGraphTransitions. apply moves_gets_bind.
  destruct (ms_graph_spec (w_mission w)) as [g|]; [|moves_auto]. cbv zeta.
  apply moves_bind_all; [typeclasses eauto|moves_auto|]. intros u v. destruct (bool_decide _); [moves_auto|].
  apply evolves_assuming. intros Hv. unfold listSteps. apply moves_gets_bind. set (rows := sort_by st_position (w_steps v)).
  apply moves_bind; [typeclasses eauto| |].
  - apply moves_loop; [typeclasses eauto|]. intros [steps keys] lp x _. unfold reenter. moves_auto.
  - intros [steps keys] v' Hl. rewrite <- (reset_rows_nil rows) in Hl.
    apply (reenter_all g (st_key s) rows) in Hl as (more & Hst & [Hs _ _ _]); [|unfold rows; rewrite sort_by_perm; apply Hv].
    injection Hst as -> ->. cbn [app]. rewrite reset_filter. apply moves_bind_all; [typeclasses eauto| |intros; moves_auto].
    apply evolves_save_map; [typeclasses eauto|typeclasses eauto| |done|].
    + intros x [Hx _]%elem_of_lfilter. rewrite Hs. by apply elem_of_sort_by in Hx.
    + intros x _. apply Hr.
Qed.
End evolving.

Section settling.
Context (env : Env) (c : call).

Lemma lived_propagate now w : blocks c = true → moves (lived env c) (propagateBlocking now) w.
Proof.
  intros Hb. apply evolving_propagate; [typeclasses eauto..|]. intros s Hs. apply lives_step; [done|]. by apply ls_block.
Qed.

Lemma lived_unblock w : unblocks c = true → moves (lived env c) unblockAutoBlockedDependents w.
Proof.
  intros Hu. unfold unblockAutoBlockedDependents. apply moves_gets_bind, moves_gets_bind. cbv zeta.
  set (q := lfilter _ (lfilter auto_blocked_candidate _)). destruct (List.map unblock_step q) as [|y l] eqn:El; [moves_auto|].
  rewrite <- El. apply moves_bind_all; [typeclasses eauto| |intros; moves_auto].
  apply evolves_save_map; [typeclasses eauto|typeclasses eauto| |done|]; intros s [Hs _]%elem_of_lfilter;
    apply elem_of_lfilter in Hs as [Hs Hc].
  - by apply elem_of_sort_by in Hs.
  - apply lives_step; [done|]. apply andb_true_iff in Hc as [Hst%String.eqb_eq _]. unfold life_of. rewrite Hst. by apply ls_unblock.
Qed.

Lemma lived_wake pumped fallback w : moves (lived env c) (wakeAfterPump env pumped fallback) w.
Proof. unfold wakeAfterPump, decideWake. moves_auto. Qed.

Lemma lived_transitions s w : reenters c = true → moves (lived env c) (applyGraphTransitions s) w.
Proof.
  intros Hr. apply evolving_transitions; [typeclasses eauto..|]. intros x. apply lives_step; [done|]. by apply ls_reenter.
Qed.
End settling.
