(* ===== verification/Refinement.v ===== *)
(** * Every call refines the life of a step

    For each public method of the runner: whatever it does, and whether it
    returns or throws half way, the rows of the mission have moved along the
    transitions that [StepLife] gives the call. *)

From S2P Require Import Prelude JsStd Vocabulary Plan Graph GraphFacts GraphRun Patch Roster Entities Logic Samples PostActions Engine.
From S2P Require Import Frame Rows Classify Limits Starting Lifecycle StepEdit Controls PlanIntake PlanMerge Reports Recovery Calls StepLife.
#[local] Open Scope Z_scope.

#[export] Hint Extern 1 (moves (lived _ _) (pump _ _) _) => (apply lived_pump; reflexivity) : moves.
#[export] Hint Extern 1 (moves (lived _ _) (propagateBlocking _) _) => (apply lived_propagate; reflexivity) : moves.
#[export] Hint Extern 1 (moves (lived _ _) unblockAutoBlockedDependents _) => (apply lived_unblock; reflexivity) : moves.
#[export] Hint Extern 1 (moves (lived _ _) (applyGraphTransitions _) _) => (apply lived_transitions; reflexivity) : moves.
#[export] Hint Extern 1 (moves (lived _ _) (wakeAfterPump _ _ _) _) => (apply lived_wake) : moves.

Section methods.
Context (env : Env).

(** A row of the world, saved as a version the call may leave. *)
Lemma lived_save c s x w : x ∈ w_steps w → lives c x s → moves (lived env c) (save_step s) w.
Proof. intros Hx HL. by apply (evolves_save env (lives c) (born c) s x). Qed.

(** ** Results *)

Lemma lease_check s shown w u w' : requireFreshLease s shown w = (Ok u, w') → w' = w.
Proof.
  unfold requireFreshLease. destruct (negb _); [by intros [= _ <-]|]. destruct (String.eqb _ _); [by intros [= _ <-]|].
  unfold mbind, M_bind, recordEvent, modify. by destruct (negb _).
Qed.

Lemma visit_check m s v w u w' : requireVisit m s v w = (Ok u, w') → w' = w.
Proof. unfold requireVisit. destruct v as [v|]; intros H; by apply throw_if_Ok in H as [_ ->]. Qed.

Lemma lived_lease c s shown w : moves (lived env c) (requireFreshLease s shown) w.
Proof. unfold requireFreshLease. moves_auto. Qed.
#[local] Hint Resolve lived_lease : moves.

Lemma lived_visit c m s v w : moves (lived env c) (requireVisit m s v) w.
Proof. unfold requireVisit. moves_auto. Qed.
#[local] Hint Resolve lived_visit : moves.

Lemma lived_report now id k i w : moves (lived env (c_report now id k i)) (reportStep env now id k i) w.
Proof.
  unfold reportStep. apply moves_requireStep_bind; [typeclasses eauto|]. intros s Hs Hid.
  apply moves_requireMission_bind; [typeclasses eauto|]. apply moves_requireStepActor_bind; [typeclasses eauto|].
  apply moves_guard; [typeclasses eauto|]. intros _. apply moves_guard; [typeclasses eauto|]. intros Ht.
  apply moves_check_bind; [intros u w'; apply lease_check|moves_auto|]. intros _ _.
  apply moves_check_bind; [intros u w'; apply visit_check|moves_auto|]. intros _ _. cbv zeta.
  apply moves_bind_all; [typeclasses eauto| |intros; unfold settle; moves_auto].
  apply (lived_save _ _ s); [done|]. apply lives_step; [done|]. rewrite Hid. by apply (ls_report _ _ now k i).
Qed.

Lemma lived_decide now id a u n i w :
  moves (lived env (c_decide now id a u n i)) (submitConfirmDecision env now id a u n i) w.
Proof.
  unfold submitConfirmDecision, take_decision, settle. moves_auto.
  all: match goal with H : negb (isAwaitingUser (st_status ?s)) = false |- _ =>
    apply negb_false_iff, String.eqb_eq in H as Hst end.
  all: eapply lived_save; [eassumption|]; apply lives_step; [done|]; unfold life_of; rewrite Hst; subst id; by eapply ls_decide.
Qed.

Lemma lived_progress now id k t cp w : moves (lived env (c_progress now id k t cp)) (reportProgress now id k t cp) w.
Proof.
  unfold reportProgress. apply moves_requireStep_bind; [typeclasses eauto|]. intros s Hs Hid.
  apply moves_requireMission_bind; [typeclasses eauto|]. apply moves_requireStepActor_bind; [typeclasses eauto|].
  apply moves_guard; [typeclasses eauto|]. intros _.
  apply moves_check_bind; [intros u w'; apply lease_check|moves_auto|]. intros _ _. cbv zeta.
  apply moves_bind_all; [typeclasses eauto| |intros; moves_auto]. apply (lived_save _ _ s); [done|]. unfold beat.
  destruct (String.eqb (st_status s) "dispatched") eqn:E.
  - apply String.eqb_eq in E. apply lives_step; [by case_match|]. rewrite Hid. unfold life_of. rewrite E.
    case_match; by apply (ls_heartbeat _ _ now k t cp).
  - by case_match; apply lives_same.
Qed.

(** ** Giving up *)

Lemma close_given_up manual : given_up (if manual : bool then "needs_recovery" else "failed").
Proof. destruct manual; [by right|by left]. Qed.

Lemma lived_fail_step now id r w : moves (lived env (c_fail_step now id r)) (failStepExternally env now id r) w.
Proof.
  unfold failStepExternally, after_failure. moves_auto. eapply lived_save; [eassumption|]. apply lives_step; [done|].
  subst id. eapply ls_fail; [done|done|apply close_given_up].
Qed.

Lemma lived_finalize now id g t s r m b w :
  s ∈ w_steps w → st_id s = id → isInFlight (st_status s) = true →
  moves (lived env (c_reconcile now id g t)) (finalizeUnrecoverableStep env now s r m b) w.
Proof.
  intros Hs Hid Hf. unfold finalizeUnrecoverableStep, after_failure. cbv zeta. moves_auto.
  apply (lived_save _ _ s); [done|]. apply lives_step; [done|]. rewrite Hid. unfold life_of. simpl.
  apply (ls_expired _ _ now g t); [done|done|apply close_given_up].
Qed.

Lemma lived_expired now id g t s w :
  s ∈ w_steps w → st_id s = id → isInFlight (st_status s) = true →
  moves (lived env (c_reconcile now id g t)) (reconcile_expired env now s) w.
Proof.
  intros Hs Hid Hf. unfold reconcile_expired. cbv zeta. destruct (is_manual s || negb _) eqn:Em.
  { apply moves_bind_all; [typeclasses eauto|by apply lived_finalize|intros; moves_auto]. }
  apply orb_false_iff in Em as [_ Hb%negb_false_iff%Z.ltb_lt]. set (revived := s<|st_lease_stale_since := None|>).
  apply moves_bind; [typeclasses eauto|by apply (lived_save _ _ s); [|apply lives_same]|]. intros u w1 [= _ <-].
  apply moves_bind; [typeclasses eauto|moves_auto|]. intros u2 w2 [= _ <-].
  apply evolves_assuming. intros Hi. apply moves_bind; [typeclasses eauto|moves_auto|]. intros ks v Hu.
  assert (Hv : revived ∈ w_steps v).
  { change v with (snd (Ok (E := oerr) ks, v)). rewrite <- Hu. apply unblock_keeps; [apply Hi| |].
    - apply (put_step_present revived). apply elem_of_map. by exists s.
    - unfold auto_blocked_candidate. change (st_status revived) with (st_status s).
      destruct (String.eqb (st_status s) "blocked") eqn:E; [|done]. apply String.eqb_eq in E. by rewrite E in Hf. }
  apply evolves_assuming. intros Hi'. apply moves_try; [typeclasses eauto| |].
  - apply moves_bind_all; [typeclasses eauto| |intros; moves_auto]. apply lived_dispatch; [done|]. intros token room.
    apply lives_step; [done|]. change (st_id revived) with (st_id s). rewrite Hid. by apply (ls_redispatch _ _ now g t).
  - intros e v' He. assert (Hv' : v' = snd (dispatchStep env now revived true v)).
    { unfold mbind, M_bind in He. destruct (dispatchStep env now revived true v) as [[u'|e'] x]; [discriminate|].
      by injection He as _ <-. }
    apply moves_requireStep_bind; [typeclasses eauto|]. intros x Hx Hxid.
    apply moves_bind_all; [typeclasses eauto| |intros; moves_auto]. apply lived_finalize; [done| |].
    + rewrite Hxid. exact Hid.
    + rewrite Hv' in Hx. by apply dispatched_row in Hx as [->|(token & room & ->)]; [| |apply Hi'|exact Hv|exact Hxid].
Qed.

Lemma lived_reconcile now id g t w :
  moves (lived env (c_reconcile now id g t)) (reconcileStaleLease env now id g t) w.
Proof.
  unfold reconcileStaleLease. apply moves_requireStep_bind; [typeclasses eauto|]. intros s Hs Hid.
  destruct (negb (isInFlight (st_status s))) eqn:Er; [moves_auto|]. apply negb_false_iff in Er.
  moves_auto; first [by apply lived_expired | by apply (lived_save _ _ s); [|apply lives_same]].
Qed.

(** ** Closing the mission *)

Lemma lived_close c (close : Step → Step) p w :
  (∀ s, st_id (close s) = st_id s ∧ (p s = true → lives c s (close s))) →
  moves (lived env c) (save_steps (List.map close (lfilter p (sort_by st_position (w_steps w))))) w.
Proof.
  intros Hc. apply evolves_save_map; [typeclasses eauto|typeclasses eauto| |intros s; apply Hc|].
  - intros s [Hs _]%elem_of_lfilter. by apply elem_of_sort_by in Hs.
  - intros s [_ Hp]%elem_of_lfilter. by apply Hc.
Qed.

Lemma lives_cancelled c s s' :
  same_identity s s' → life_of s' = life "cancelled" (st_attempt s) (st_max_attempts s) (st_visit s) →
  cancels c (st_status s) = true → lives c s s'.
Proof. intros Hi Hl Hc. apply lives_step; [done|]. rewrite Hl. by apply ls_cancelled. Qed.

Lemma lived_cancel now a r w : moves (lived env (c_cancel now a r)) (cancelMission now a r) w.
Proof. unfold cancelMission. moves_auto. apply lived_close. intros s. split; [done|]. intros Hp. by apply lives_cancelled. Qed.

Lemma lived_fail_mission now s r w : moves (lived env (c_fail_mission now s r)) (failMissionExternally now s r) w.
Proof. unfold failMissionExternally. moves_auto. apply lived_close. intros x. split; [done|]. intros Hp. by apply lives_cancelled. Qed.

Lemma lived_post_actions c now w : moves (lived env c) (run_post_actions env now) w.
Proof.
  unfold moves, run_post_actions. pose proof (runPostActions_core env now w) as Hc.
  destruct (runPostActions env now w None) as [[o w'] n]. apply evolves_same; [typeclasses eauto..|exact (f_equal co_steps Hc)|].
  apply onward_refl; [exact (f_equal co_nonce Hc)|exact (f_equal (λ c, ms_graph_spec (co_mission c)) Hc)].
Qed.
#[local] Hint Resolve lived_post_actions : moves.

Lemma lived_complete now k st t w : moves (lived env (c_complete now k st t)) (completeMission env now k st t) w.
Proof. unfold completeMission. moves_auto. apply lived_close. intros s. split; [done|]. intros Hp. by apply lives_cancelled. Qed.

(** ** Step controls *)

Lemma lived_budget now id k i f w :
  f ∈ w_steps w → st_id f = id → moves (lived env (c_update now id k i)) (update_budget f i) w.
Proof.
  intros Hf Hid. unfold update_budget. moves_auto. apply (lived_save _ _ f); [done|]. apply lives_step; [done|].
  breflect. rewrite Hid. by apply (ls_budget _ _ now k i).
Qed.

Lemma lives_standing c s x :
  same_standing s x → st_max_attempts s = st_max_attempts x → lives c x s.
Proof.
  intros (Hs & Hst & Ha & Hv) Hm. unfold step_sig in Hs. injection Hs as H1 H2.
  apply lives_same; [by split|]. unfold life_of. congruence.
Qed.

Lemma lived_action now id k m f p i w :
  f ∈ w_steps w → st_id f = id → moves (lived env (c_update now id k i)) (apply_action env now m f p i) w.
Proof.
  intros Hf Hid. unfold apply_action. cbv zeta. destruct (su_action i) eqn:Ea.
  - apply moves_guard; [typeclasses eauto|]. intros Hr. apply moves_guard; [typeclasses eauto|]. intros Hm.
    pose proof (no_effect_retry_place env m p (amend_text i f) w) as Hsame.
    apply moves_check_bind; [intros x v Hx; by rewrite Hx in Hsame|unfold moves; rewrite Hsame; reflexivity|].
    intros placed ((Hs & _ & Ha & Hv) & Hmax)%retry_place_standing. moves_auto.
    apply (lived_save _ _ f); [done|]. unfold step_sig in Hs. injection Hs as H1 H2. breflect.
    apply lives_step; [by split|]. rewrite Hid. unfold life_of. simpl in Ha, Hv, Hmax |- *. rewrite Ha, Hv, Hmax.
    by apply (ls_retry _ _ now k i).
  - destruct p as [|a|pid]; moves_auto. apply (lived_save _ _ f); [done|].
    destruct (isTerminalStepStatus (st_status f)) eqn:Et.
    + apply lives_step; [done|]. rewrite Hid. unfold life_of, reassign_step. simpl. rewrite Et.
      by apply (ls_reassign _ _ now k i).
    + apply lives_same; [done|]. unfold life_of, reassign_step. simpl. by rewrite Et.
  - moves_auto. apply (lived_save _ _ f); [done|]. destruct (place_standing p (amend_text i f)) as [Hst Hmax].
    by apply lives_standing.
  - moves_auto. apply (lived_save _ _ f); [done|]. apply lives_step; [done|]. rewrite Hid.
    apply (ls_set_aside _ _ now k i); [done|done|]. left. done.
  - moves_auto. apply (lived_save _ _ f); [done|]. apply lives_step; [done|]. rewrite Hid.
    apply (ls_set_aside _ _ now k i); [done|done|]. right. done.
  - moves_auto.
  - moves_auto.
Qed.

Lemma lived_update now id k i w : moves (lived env (c_update now id k i)) (updateStep env now id k i) w.
Proof.
  unfold updateStep. apply moves_requireStep_bind; [typeclasses eauto|]. intros s _ _.
  apply moves_requireMission_bind; [typeclasses eauto|]. apply moves_requireOrchestrator_bind; [typeclasses eauto|].
  intros _ _. apply moves_guard; [typeclasses eauto|]. intros _.
  apply moves_requireStep_bind; [typeclasses eauto|]. intros f Hf Hid.
  pose proof (no_effect_placement env (w_mission w) f i w) as Hpl.
  apply moves_check_bind; [intros x v Hx; by rewrite Hx in Hpl|unfold moves; rewrite Hpl; reflexivity|]. intros p _.
  apply moves_bind; [typeclasses eauto|by apply lived_budget|]. intros f' v Hb.
  pose proof (update_budget_row _ _ _ _ _ Hf Hb) as Hf'. apply update_budget_standing in Hb as (Hsig & _).
  apply moves_bind_all; [typeclasses eauto| |intros; moves_auto]. apply lived_action; [done|].
  unfold step_sig in Hsig. congruence.
Qed.

(** ** The mission's row *)

Lemma lived_start c now a w : moves (lived env c) (startMission env now a) w.
Proof.
  unfold startMission, rolling_back, requireTeam, resolveRoster, assertNoSharedFolderConflict, prepareRuntimes.
  moves_auto. apply moves_loop; [typeclasses eauto|]. intros u s v _. unfold check_approvals. moves_auto.
Qed.

Lemma lived_reopen c a actor w : moves (lived env c) (reopenMission env a actor) w.
Proof.
  unfold reopenMission, rolling_back, requireTeam, resolveRoster, assertNoSharedFolderConflict, prepareRuntimes.
  moves_auto.
  all: try (apply moves_loop; [typeclasses eauto|]; intros ? ? ? _; unfold check_approvals; moves_auto).
  all: apply evolves_update; [typeclasses eauto..|]; intros m; by case_match.
Qed.

Lemma lived_criteria c now k us w : moves (lived env c) (updateCriteria now k us) w.
Proof.
  unfold updateCriteria. moves_auto. apply moves_loop; [typeclasses eauto|]. intros m u v _.
  unfold update_criterion. moves_auto.
Qed.

Lemma lived_pause c a w : moves (lived env c) (pauseMission a) w.
Proof. unfold pauseMission. moves_auto. Qed.

Lemma lived_resume now a w : moves (lived env (c_resume now a)) (resumeMission env now a) w.
Proof. unfold resumeMission. moves_auto. Qed.

Lemma lived_nudge c a t w : moves (lived env c) (nudgeOrchestrator env a t) w.
Proof. unfold nudgeOrchestrator. moves_auto. Qed.

(** A patched graph has the steps of the mission for nodes, each once. *)
Lemma lived_patch now k p w : moves (lived env (c_patch now k p)) (patchGraph env now k p) w.
Proof.
  apply evolves_assuming. intros Hi. apply moves_patch; [typeclasses eauto|by apply (identified_nonempty env)|..];
    [|intros; moves_auto..]. intros g' _ [Hn _]. by apply evolves_graph; [typeclasses eauto..|].
Qed.

(** ** Plans *)

Lemma lives_revised c x s : revised x s → lives c x s.
Proof. intros [Hst Hmax _]. by apply lives_standing. Qed.

Lemma born_fresh now k i s : fresh_row s → born (c_plan now k i) s.
Proof.
  intros (H1 & H2 & H3 & H4). split; [by exists now, k, i|]. unfold life_of. rewrite H1, H2, H3, H4. apply rtc_refl.
Qed.

(** The graph a submission settles on has distinct nodes. *)
Lemma settled_distinct validated i w g w' :
  identified env w → (∀ s, s ∈ validated → step_ok s) → settle_graph env (w_mission w) validated i w = (Ok g, w') →
  NoDup (match sg_spec g with Some spec => node_keys spec | None => [] end).
Proof.
  intros Hi Hok Hg. apply settled_nodes in Hg; [|done]. destruct (ms_graph_enabled _).
  - destruct (sg_spec g) as [spec|]; [apply Hg|done].
  - rewrite Hg. apply (id_nodes env w Hi).
Qed.

Lemma lived_tail c now m g cr up w :
  pumps c = true → moves (lived env c) (plan_tail env now m g cr up) w.
Proof.
  intros Hp. unfold plan_tail. apply moves_bind_all; [typeclasses eauto|moves_auto|intros u v].
  apply moves_bind_all; [typeclasses eauto|moves_auto|intros u2 v2].
  apply moves_bind_all; [typeclasses eauto|by apply lived_pump|intros p v3]. moves_auto.
Qed.

(** Saving the merged plan. *)
Lemma lived_accepted now k i w validated g saved w1 :
  distinct_uuids env → identified env w →
  (∀ s, s ∈ validated → step_ok s) → NoDup (List.map plan_key validated) →
  settle_graph env (w_mission w) validated i w = (Ok g, w) → merged env w validated saved w1 →
  lived env (c_plan now k i) w (accepted i (w_mission w) g saved w1).
Proof.
  intros Hd Hi Hok Hnd Hg Hmg. set (c := c_plan now k i). transitivity w1.
  { apply evolves_same; [typeclasses eauto..|apply Hmg|]. split; [apply Hmg|by rewrite (mg_mission _ _ _ _ _ Hmg)]. }
  transitivity (w1<|w_steps ::= λ l, upsert_all l saved|>).
  { apply evolves_upsert_all; [done|typeclasses eauto..|apply Hmg|by rewrite (mg_keys _ _ _ _ _ Hmg)|].
    apply (merged_savable env (lives c) (born c) w validated saved w1); [done|apply lives_revised|apply born_fresh|done]. }
  apply (evolves_graph env (lives c) (born c) (accept_plan (ms_plan_version (w_mission w) + 1) (sp_summary i) g)).
  exact (settled_distinct validated i w g w Hi Hok Hg).
Qed.

Lemma lived_plan now k i w :
  distinct_uuids env → moves (lived env (c_plan now k i)) (submitPlan env now k i) w.
Proof.
  intros Hd. apply evolves_assuming. intros Hi. unfold moves.
  destruct (submitPlan_run env now k i w Hd Hi) as [w1 Hs Hm Hn|validated g saved cr up w1 Hv Hg Hmg].
  { apply evolves_same; [typeclasses eauto..|exact Hs|]. split; [exact Hn|by rewrite Hm]. }
  pose proof (validatePlan_facts _ _ _ Hv) as (_ & Hnd & Hok).
  transitivity (accepted i (w_mission w) g saved w1); [by apply (lived_accepted now k i w validated)|by apply lived_tail].
Qed.
End methods.
#[export] Hint Resolve lived_start lived_pause lived_resume lived_cancel lived_reopen lived_complete lived_criteria
  lived_nudge lived_plan lived_patch lived_update lived_progress lived_report lived_decide lived_reconcile
  lived_fail_step lived_fail_mission : moves.

Lemma lived_exec env c w : distinct_uuids env → moves (lived env c) (exec env c) w.
Proof.
  intros Hd. destruct c; simpl; try (apply moves_ignore; [typeclasses eauto|]); auto with moves.
Qed.
