(* ===== verification/History.v ===== *)
(** * Histories of calls

    What every call, and so every history of calls, preserves: the mission stays
    well formed, its rows live by the transitions of [StepLife], and no step ever
    goes back to an earlier visit or attempt. *)

From S2P Require Import Prelude JsStd Vocabulary Plan Graph GraphFacts GraphRun Patch Templates Roster Entities Logic Samples PostActions Engine.
From S2P Require Import Frame Rows Classify Limits Starting Lifecycle StepEdit Controls PlanIntake PlanMerge Reports Recovery.
From S2P Require Import Calls StepLife Refinement.
#[local] Open Scope Z_scope.

(** ** The graph and the limit of the mission's row *)

Definition same_graph (w w' : World) : Prop :=
  ms_graph_spec (w_mission w') = ms_graph_spec (w_mission w) ∧
  ms_graph_enabled (w_mission w') = ms_graph_enabled (w_mission w) ∧
  ms_max_parallel_steps (w_mission w') = ms_max_parallel_steps (w_mission w).

#[export] Instance same_graph_preorder : PreOrder same_graph.
Proof. split; [done|]. intros u v w (A1 & A2 & A3) (B1 & B2 & B3). split_and!; congruence. Qed.

Lemma same_row_graph {A} (m : M A) w : moves same_row m w → moves same_graph m w.
Proof.
  intros H. split_and!; [exact (f_equal ms_graph_spec H)|exact (f_equal ms_graph_enabled H)|
    exact (f_equal ms_max_parallel_steps H)].
Qed.

Lemma same_graph_update f w :
  (∀ m, ms_graph_spec (f m) = ms_graph_spec m ∧ ms_graph_enabled (f m) = ms_graph_enabled m ∧
        ms_max_parallel_steps (f m) = ms_max_parallel_steps m) → moves same_graph (update_mission f) w.
Proof. intros H. apply H. Qed.

Lemma same_graph_post_actions env now w : moves same_graph (run_post_actions env now) w.
Proof.
  unfold moves, run_post_actions. pose proof (runPostActions_core env now w) as Hc.
  destruct (runPostActions env now w None) as [[o w'] n].
  split_and!; [exact (f_equal (λ c, ms_graph_spec (co_mission c)) Hc)|
    exact (f_equal (λ c, ms_graph_enabled (co_mission c)) Hc)|exact (f_equal (λ c, ms_max_parallel_steps (co_mission c)) Hc)].
Qed.

#[export] Hint Resolve same_graph_post_actions : moves.
#[export] Hint Extern 2 (moves same_graph _ _) => apply same_row_graph; solve [auto 2 with moves] : moves.
#[export] Hint Extern 3 (moves same_graph (update_mission _) _) =>
  apply same_graph_update; intros; split_and!; reflexivity : moves.

Lemma same_graph_exec env c w : keeps_plan c = true → moves same_graph (exec env c) w.
Proof.
  destruct c; intros Hk; try discriminate Hk; simpl; try (apply moves_ignore; [typeclasses eauto|]).
  all: try solve [moves_auto].
  - unfold startMission, rolling_back. moves_auto.
  - unfold pauseMission. moves_auto.
  - unfold resumeMission. moves_auto.
  - unfold cancelMission. moves_auto.
  - unfold reopenMission, rolling_back. moves_auto. all: apply same_graph_update; intros m; by case_match.
  - unfold completeMission. moves_auto.
  - unfold updateCriteria. moves_auto. apply moves_loop; [typeclasses eauto|]. intros m u v _.
    unfold update_criterion. moves_auto.
  - unfold failMissionExternally. moves_auto.
Qed.

(** ** Well-formed missions *)

(** The rows can be told apart, and a mission with a graph runs on it with every
    step as a node. *)
Record well_formed (env : Env) (w : World) : Prop := {
  wf_identified : identified env w;
  wf_covers : covers (ms_graph_spec (w_mission w)) (List.map st_key (w_steps w));
  wf_enabled : ms_graph_spec (w_mission w) ≠ None → ms_graph_enabled (w_mission w) = true
}.

Definition keeps_form (env : Env) (w w' : World) : Prop := well_formed env w → well_formed env w'.

#[export] Instance keeps_form_preorder env : PreOrder (keeps_form env).
Proof. unfold keeps_form. split; [intros w H; exact H|intros u v w H1 H2 H; auto]. Qed.

(** No row is born outside a plan. *)
Lemma no_births c l l' : keeps_plan c = true → grows (lives c) (born c) l l' → Forall2 (lives c) l l'.
Proof.
  intros Hc (old & new & -> & HR & HB). destruct new as [|s new]; [by rewrite app_nil_r|].
  exfalso. inversion HB as [|? ? [(now & k & i & ->) _] _]; subst. discriminate.
Qed.

Lemma form_of_lives env c {A} (m : M A) w :
  keeps_plan c = true → moves (lived env c) m w → moves same_graph m w → moves (keeps_form env) m w.
Proof.
  unfold moves. intros Hk HL (Hg & He & _) [Hi Hc Hen]. destruct (HL Hi) as (Hi' & Hgr & _).
  apply no_births in Hgr; [|done]. destruct (Forall2_identity (lives c) _ _ Hgr) as [_ Hkeys].
  constructor; [done|by rewrite Hg, <- Hkeys|by rewrite Hg, He].
Qed.

(** A call whose pump runs, standing for all of them. *)
Definition pumping : call := c_resume 0 "".

Lemma form_assuming env {A} (m : M A) w :
  (well_formed env w → moves (keeps_form env) m w) → moves (keeps_form env) m w.
Proof. intros H Hwf. by apply H. Qed.

Lemma form_pump env now w : moves (keeps_form env) (pump env now) w.
Proof. apply (form_of_lives env pumping); [done|by apply lived_pump|auto with moves]. Qed.

Lemma form_wake env p f w : moves (keeps_form env) (wakeAfterPump env p f) w.
Proof. apply (form_of_lives env pumping); [done|apply lived_wake|auto with moves]. Qed.

Lemma form_event env t k ks w : moves (keeps_form env) (recordEvent t k ks) w.
Proof. intros [[? ? ? ? ?] ? ?]. by repeat constructor. Qed.

#[export] Hint Resolve form_pump form_wake form_event : moves.

Lemma form_tail env now m g cr up w : moves (keeps_form env) (plan_tail env now m g cr up) w.
Proof. unfold plan_tail. moves_auto. Qed.

(** A new graph over the steps of the mission. *)
Lemma form_graph env f w :
  (∀ g, ms_graph_spec (f (w_mission w)) = Some g →
     ms_graph_enabled (f (w_mission w)) = true ∧ nodes_are (List.map st_key (w_steps w)) g) →
  moves (keeps_form env) (update_mission f) w.
Proof.
  intros Hf [[H1 H2 H3 H4 H5] Hc He]. unfold moves. simpl.
  constructor; simpl; [constructor; simpl; try done| |].
  - unfold graph_nodes. simpl. destruct (ms_graph_spec (f (w_mission w))) as [g|]; [|constructor]. by apply (Hf g).
  - destruct (ms_graph_spec (f (w_mission w))) as [g|]; [|done]. destruct (Hf g eq_refl) as (_ & Hn & Hk).
    split; [done|]. intros k Hin. by apply Hk.
  - destruct (ms_graph_spec (f (w_mission w))) as [g|]; [|done]. intros _. by apply (Hf g).
Qed.

Lemma form_patch env now k p w : moves (keeps_form env) (patchGraph env now k p) w.
Proof.
  apply form_assuming. intros Hwf.
  apply moves_patch; [typeclasses eauto|apply (identified_nonempty env), Hwf|..]; [|intros; moves_auto..].
  intros g' He Hn. apply form_graph. simpl. by intros h [= <-].
Qed.

(** Every key on record is a key of the plan. *)
Lemma plan_covers_rows w i max validated key :
  (∀ k, k ∈ List.map st_key (w_steps w) → STEP_KEY_PATTERN k = true) →
  validatePlan (merged_plan (listing w) (sp_steps i)) max = Ok validated →
  key ∈ List.map st_key (w_steps w) → key ∈ List.map plan_key validated.
Proof.
  intros Hpat (Hp & _)%validatePlan_facts (s & -> & Hs)%elem_of_map. rewrite Hp. unfold merged_plan.
  rewrite List.map_app, elem_of_app. destruct (submitted (sp_steps i) (st_key s)) eqn:E.
  - right. apply lsome_true in E as (n & Hn & He%String.eqb_eq). rewrite <- He. by apply elem_of_map_2.
  - left. apply elem_of_map. exists (step_input s). split.
    + change (st_key s = trim (st_key s)). symmetry. apply trim_pattern, Hpat. by apply elem_of_map_2.
    + apply elem_of_map_2, elem_of_lfilter. split; [by apply elem_of_sort_by|by rewrite E].
Qed.

Lemma accepted_keys env w validated saved w1 i m g key :
  merged env w validated saved w1 → key ∈ List.map st_key (w_steps (accepted i m g saved w1)) →
  key ∈ List.map plan_key validated ∨ key ∈ List.map st_key (w_steps w).
Proof.
  intros Hm (s & -> & Hs)%elem_of_map. change (s ∈ upsert_all (w_steps w1) saved) in Hs.
  apply upsert_all_elem in Hs as [Hs|Hs].
  - left. rewrite <- (mg_keys _ _ _ _ _ Hm). by apply elem_of_map_2.
  - right. rewrite <- (mg_steps _ _ _ _ _ Hm). by apply elem_of_map_2.
Qed.

Lemma form_accepted env i w validated g saved w1 :
  distinct_uuids env → well_formed env w →
  validatePlan (merged_plan (listing w) (sp_steps i)) (ms_max_steps (w_mission w)) = Ok validated →
  settle_graph env (w_mission w) validated i w = (Ok g, w) → merged env w validated saved w1 →
  well_formed env (accepted i (w_mission w) g saved w1).
Proof.
  intros Hd [Hi Hc He] Hv Hg Hmg. pose proof (validatePlan_facts _ _ _ Hv) as (_ & Hnd & Hok).
  assert (Hkeys : ∀ key, key ∈ List.map st_key (w_steps (accepted i (w_mission w) g saved w1)) → key ∈ List.map plan_key validated).
  { intros key [Hk|Hk]%(accepted_keys env w validated); [done| |done].
    eapply plan_covers_rows; [apply (id_named env w Hi)|exact Hv|exact Hk]. }
  destruct (lived_accepted env 0 the_orchestrator i w validated g saved w1 Hd Hi Hok Hnd Hg Hmg Hi) as (Hi' & _ & _).
  pose proof (settled_nodes env _ _ _ _ _ _ Hok Hg) as Hn. constructor; [done| |].
  - change (covers (sg_spec g) (List.map st_key (w_steps (accepted i (w_mission w) g saved w1)))).
    destruct (sg_spec g) as [spec|] eqn:Es; [|done]. destruct (ms_graph_enabled (w_mission w)) eqn:Een.
    + split; [apply Hn|]. intros key Hin. by apply Hn, Hkeys.
    + exfalso. assert (false = true); [|done]. apply He. by rewrite <- Hn.
  - change (sg_spec g ≠ None → ms_graph_enabled (w_mission w1) = true). rewrite (mg_mission _ _ _ _ _ Hmg).
    destruct (ms_graph_enabled (w_mission w)); [done|]. rewrite Hn. exact He.
Qed.

Lemma form_plan env now k i w : distinct_uuids env → moves (keeps_form env) (submitPlan env now k i) w.
Proof.
  intros Hd Hwf. destruct (submitPlan_run env now k i w Hd (wf_identified env w Hwf))
    as [w1 Hs Hm Hn|validated g saved cr up w1 Hv Hg Hmg].
  - destruct Hwf as [[H1 H2 H3 H4 H5] Hc He]. constructor; [constructor; rewrite ?Hs, ?Hm; auto|by rewrite Hs, Hm|by rewrite Hm].
    intros s n Hin Hle. apply H4; [done|lia].
  - apply form_tail. by apply (form_accepted env i w validated).
Qed.

Lemma form_exec env c w : distinct_uuids env → moves (keeps_form env) (exec env c) w.
Proof.
  intros Hd. destruct (keeps_plan c) eqn:Hk.
  - apply (form_of_lives env c); [done|by apply lived_exec|by apply same_graph_exec].
  - destruct c; try discriminate Hk; simpl; apply moves_ignore; [typeclasses eauto|by apply form_plan|typeclasses eauto|apply form_patch].
Qed.

(** ** Steps move forward *)

(** A later visit, or a later attempt of the same visit. *)
Definition not_earlier (a b : Life) : Prop :=
  lf_visit a < lf_visit b ∨ lf_visit a = lf_visit b ∧ lf_attempt a <= lf_attempt b.

#[export] Instance not_earlier_preorder : PreOrder not_earlier.
Proof. unfold not_earlier. split; [intros a; lia|intros a b d; lia]. Qed.

Lemma entered_le v : v <= entered v.
Proof. unfold entered. destruct (v <? 1) eqn:E; breflect; lia. Qed.

Lemma life_step_forward c id a b : life_step c id a b → not_earlier a b.
Proof.
  unfold not_earlier. destruct 1; cbn [lf_visit lf_attempt]; try lia;
    match goal with |- context [entered ?v] => pose proof (entered_le v); lia end.
Qed.

Lemma lives_forward c id a b : rtc (life_step c id) a b → not_earlier a b.
Proof. induction 1 as [a|a b d H _ IH]; [reflexivity|]. transitivity b; [by eapply life_step_forward|done]. Qed.

(** A step's later version, whatever calls came between. *)
Definition forward (s s' : Step) : Prop := same_identity s s' ∧ not_earlier (life_of s) (life_of s').

#[export] Instance forward_row : RowRelation forward.
Proof.
  split; [split|].
  - intros s. split; [done|reflexivity].
  - intros s t u [[I1 K1] L1] [[I2 K2] L2]. split; [split; congruence|by etransitivity].
  - by intros s s' [H _].
Qed.

#[export] Instance forward_births : Births forward (λ _, True).
Proof. done. Qed.

Lemma grows_weaken (R R' : Step → Step → Prop) (B B' : Step → Prop) l l' :
  (∀ s s', R s s' → R' s s') → (∀ s, B s → B' s) → grows R B l l' → grows R' B' l l'.
Proof.
  intros HR HB (old & new & -> & H1 & H2). exists old, new. split_and!; [done|by eapply Forall2_impl|by eapply Forall_impl].
Qed.

Lemma lives_is_forward c s s' : lives c s s' → forward s s'.
Proof. intros [Hi Hl]. split; [done|by eapply lives_forward]. Qed.

Lemma run_calls_forward env cs : ∀ w,
  distinct_uuids env → identified env w →
  identified env (run_calls env cs w) ∧ grows forward (λ _, True) (w_steps w) (w_steps (run_calls env cs w)).
Proof.
  induction cs as [|c cs IH]; intros w Hd Hi; [split; [done|by apply grows_refl; typeclasses eauto]|]. cbn [run_calls foldl].
  destruct (lived_exec env c w Hd Hi) as (Hi' & Hg & _). destruct (IH (after env c w) Hd Hi') as [Hi2 Hg2].
  split; [exact Hi2|]. eapply grows_trans; [typeclasses eauto..| |exact Hg2].
  revert Hg. apply grows_weaken; [apply lives_is_forward|done].
Qed.

(** ** Outcomes *)

(** An orchestrator's action that sets aside the outcome of the step. *)
Definition overrules (c : call) (id : string) : Prop :=
  ∃ now k i, c = c_update now id k i ∧ su_action i ∈ [act_retry; act_reassign; act_skip; act_cancel].

(** What may become of a step that is over. *)
Definition outcome_kept (c : call) (s s' : Step) : Prop :=
  st_status s' = st_status s ∧ st_attempt s' = st_attempt s ∧ st_visit s' = st_visit s ∨
  (reenters c = true ∧ st_visit s < st_visit s') ∨
  overrules c (st_id s) ∨
  (unblocks c = true ∧ st_status s = "blocked").

Lemma open_not_terminal st : open_status st → isTerminalStepStatus st = false.
Proof. by intros (_ & _ & H). Qed.

Lemma inFlight_not_terminal st : isInFlight st = true → isTerminalStepStatus st = false.
Proof. apply terminal_not_inFlight. Qed.

Lemma finished_step c id a b :
  isTerminalStepStatus (lf_status a) = true → life_step c id a b →
  lf_status b = lf_status a ∧ lf_attempt b = lf_attempt a ∧ lf_visit b = lf_visit a ∨
  (reenters c = true ∧ lf_visit a < lf_visit b) ∨ overrules c id ∨ (unblocks c = true ∧ lf_status a = "blocked").
Proof.
  intros Ht H. destruct H; cbn [lf_status lf_attempt lf_visit] in *.
  all: try match goal with H : open_status _ |- _ => apply open_not_terminal in H; congruence end.
  all: try match goal with H : isInFlight _ = true |- _ => apply inFlight_not_terminal in H; congruence end.
  all: try congruence; try discriminate Ht.
  - destruct H0 as [Ho| ->]; [apply open_not_terminal in Ho; congruence|discriminate Ht].
  - right; right; right. done.
  - right; left. split; [done|lia].
  - unfold cancels in H. destruct c; try discriminate H; try (rewrite Ht in H; discriminate H).
    apply inFlight_not_terminal in H. congruence.
  - left. done.
  - right; right; left. exists now, k, i. rewrite H0. split; [done|apply list_elem_of_here].
  - right; right; left. exists now, k, i. rewrite H0. split; [done|]. apply list_elem_of_further, list_elem_of_here.
  - right; right; left. exists now, k, i. split; [done|].
    destruct H1 as [[-> _]|[-> _]]; rewrite !elem_of_cons; auto.
Qed.

Lemma finished_life c id a b :
  isTerminalStepStatus (lf_status a) = true → rtc (life_step c id) a b →
  lf_status b = lf_status a ∧ lf_attempt b = lf_attempt a ∧ lf_visit b = lf_visit a ∨
  (reenters c = true ∧ lf_visit a < lf_visit b) ∨ overrules c id ∨ (unblocks c = true ∧ lf_status a = "blocked").
Proof.
  intros Ht H. induction H as [a|a x b H1 H2 IH]; [by left|].
  destruct (finished_step c id a x Ht H1) as [(E1 & E2 & E3)|[[Hr Hv]|Hrest]]; [|right; left|right; right; exact Hrest].
  - rewrite E1, E2, E3 in IH. by apply IH.
  - split; [done|]. destruct (lives_forward c id x b H2) as [?|[? _]]; lia.
Qed.

(** ** Plans leave started steps alone *)

Lemma untouchable_not_open s : untouchable s = true → ¬ open_status (st_status s).
Proof. unfold untouchable. intros [H|H]%orb_true_iff (H1 & _ & H3); congruence. Qed.

Lemma pump_keeps env now w s :
  identified env w → s ∈ w_steps w → untouchable s = true → s ∈ w_steps (snd (pump env now w)).
Proof.
  intros Hi Hs Hu. apply (pump_spares env now w); [done|]. intros (x & He & Hx)%elem_of_map.
  destruct (candidates_waiting env w Hi) as [_ Hc]. destruct (Hc x Hx) as [Hin Ho].
  assert (s = x) as -> by (apply (NoDup_fmap_inj_on st_id (w_steps w)); [apply Hi|done|done|done]).
  by apply (untouchable_not_open x).
Qed.

Lemma wake_steps env p f w : w_steps (snd (wakeAfterPump env p f w)) = w_steps w.
Proof.
  assert (H : moves (λ v v', w_steps v' = w_steps v) (wakeAfterPump env p f) w); [|exact H].
  assert (PreOrder (λ v v', w_steps v' = w_steps v)) by (split; [done|intros u v x H1 H2; congruence]).
  assert (∀ room body v, moves (λ v v', w_steps v' = w_steps v) (postToRoom env room body) v)
    by (intros; by apply moves_post_with; [typeclasses eauto|]).
  unfold wakeAfterPump, decideWake. moves_auto; try done; auto.
Qed.

Lemma tail_keeps env now m g cr up w s :
  identified env w → s ∈ w_steps w → untouchable s = true → s ∈ w_steps (snd (plan_tail env now m g cr up w)).
Proof.
  intros Hi Hs Hu. unfold plan_tail. set (w1 := snd (recordEvent "plan_submitted" None cr w)).
  assert (Hrun : ∀ v, identified env v → s ∈ w_steps v →
    s ∈ w_steps (snd ((pumped ← pump env now; _ ← wakeAfterPump env pumped None;
      mret {| pr_created := cr; pr_updated := up; pr_started := pm_dispatched pumped |}) v))).
  { intros v Hv Hin. pose proof (pump_keeps env now v s Hv Hin Hu) as Hp. unfold mbind, M_bind.
    destruct (pump env now v) as [[pumped|e] v1]; [|exact Hp]. cbn [snd] in Hp.
    pose proof (wake_steps env pumped None v1) as Hw. destruct (wakeAfterPump env pumped None v1) as [[b|e] v2];
      unfold mret, M_ret; cbn [snd] in *; by rewrite Hw. }
  assert (Hevent : ∀ t k ks v, identified env v → identified env (snd (recordEvent t k ks v)))
    by (intros t k ks v [? ? ? ? ?]; by constructor).
  destruct (unconfirmed m (sg_spec g)); apply Hrun; try done; by repeat apply Hevent.
Qed.
