(* ===== verification/Guarantees.v ===== *)
(** * What a mission's steps can rely on

    The refinement of the step life cycle and what follows from it for whole
    histories: well-formedness, steps that only move forward, outcomes that
    stand, and plans that leave started steps alone. *)

From S2P Require Import Prelude JsStd Vocabulary Plan Graph GraphFacts GraphRun Patch Templates Roster Entities Logic Samples PostActions Engine.
From S2P Require Import Frame Rows Classify Limits Starting Lifecycle StepEdit Controls PlanIntake PlanMerge Reports Recovery.
From S2P Require Import Calls StepLife Refinement History.
#[local] Open Scope Z_scope.

(** C1: the engine refines the life of a step.  Whatever call is made, with
    whatever outcome, every row of the mission keeps its place, its id and its
    key and moves along the transitions the call allows that step, and the rows
    that are added are those a plan creates, as new steps. *)
Theorem call_refines_life env c w :
  distinct_uuids env → identified env w →
  ∃ old new, w_steps (after env c w) = old ++ new ∧ Forall2 (lives c) (w_steps w) old ∧ Forall (born c) new.
Proof. intros Hd Hi. destruct (lived_exec env c w Hd Hi) as (_ & Hg & _). exact Hg. Qed.

(** C9: a mission stays well formed.  Along any history of calls, plans and
    patches included, step ids and keys stay distinct, and when the mission runs
    on a graph every step is one of its nodes. *)
Theorem missions_stay_well_formed env cs w :
  distinct_uuids env → well_formed env w → well_formed env (run_calls env cs w).
Proof.
  intros Hd. revert w. induction cs as [|c cs IH]; intros w Hw; [exact Hw|]. cbn [run_calls foldl].
  apply IH. by apply form_exec.
Qed.

(** C3: no step goes back.  Along any history of calls every step stays on
    record under its id and key, its visit number never decreases, and within a
    visit its attempt number never decreases: a visit or an attempt a worker was
    told to present never becomes current again. *)
Theorem steps_never_go_back env cs w :
  distinct_uuids env → identified env w →
  ∃ old new, w_steps (run_calls env cs w) = old ++ new ∧ Forall2 forward (w_steps w) old.
Proof.
  intros Hd Hi. destruct (run_calls_forward env cs w Hd Hi) as (_ & old & new & -> & HR & _). eauto.
Qed.

(** C5: outcomes stand.  A step that is over stays as it ended — whatever call
    is made — unless a loop starts it on a later visit, its orchestrator retries,
    reassigns, skips or cancels that very step, or it was blocked and is
    unblocked. *)
Theorem outcomes_stand env c w s :
  distinct_uuids env → identified env w → s ∈ w_steps w → isTerminalStepStatus (st_status s) = true →
  ∃ s', s' ∈ w_steps (after env c w) ∧ same_identity s s' ∧ outcome_kept c s s'.
Proof.
  intros Hd Hi Hs Ht. destruct (lived_exec env c w Hd Hi) as (_ & (old & new & Ho & HR & _) & _).
  apply list_elem_of_lookup in Hs as [i Hi']. destruct (Forall2_lookup_l _ _ _ _ _ HR Hi') as (s' & Hs' & [Hid HL]).
  exists s'. split_and!; [|done|].
  - fold (after env c w) in Ho. rewrite Ho. apply elem_of_app. left. by eapply list_elem_of_lookup_2.
  - exact (finished_life c (st_id s) (life_of s) (life_of s') Ht HL).
Qed.

(** A new plan leaves started work alone.  However a plan is submitted and
    whatever becomes of it, the row of a step that is running or over is as it
    was — its instructions, dependencies, assignee and result — but for its
    position in the plan. *)
Theorem replan_keeps_started_steps env now k i w s :
  distinct_uuids env → identified env w → s ∈ w_steps w → untouchable s = true →
  ∃ p, s<|st_position := p|> ∈ w_steps (after env (c_plan now k i) w).
Proof.
  intros Hd Hi Hs Hu. unfold after. cbn [exec].
  replace (snd (ignore (submitPlan env now k i) w)) with (snd (submitPlan env now k i w))
    by (unfold ignore, mbind, M_bind; by destruct (submitPlan env now k i w) as [[r|e] v]).
  destruct (submitPlan_run env now k i w Hd Hi) as [w1 Hs1 _ _|validated g saved cr up w1 Hv Hg Hmg].
  - exists (st_position s). rewrite Hs1. by destruct s.
  - pose proof (validatePlan_facts _ _ _ Hv) as (_ & Hnd & Hok).
    assert (Hk : st_key s ∈ List.map st_key saved).
    { rewrite (mg_keys _ _ _ _ _ Hmg). eapply plan_covers_rows; [apply (id_named env w Hi)|exact Hv|by apply elem_of_map_2]. }
    apply elem_of_map in Hk as (r & Hr & Hin). destruct (mg_rows _ _ _ _ _ Hmg r Hin) as [(x & Hx & Hrev)|(_ & Hn & _)].
    2:{ exfalso. apply Hn. rewrite <- Hr. by apply elem_of_map_2. }
    assert (x = s) as ->.
    { apply (NoDup_fmap_inj_on st_key (w_steps w)); [apply Hi|done|done|].
      destruct (rv_standing _ _ Hrev) as (Hsig & _). unfold step_sig in Hsig. congruence. }
    pose proof (rv_kept _ _ Hrev Hu) as Hkept. exists (st_position r). rewrite <- Hkept.
    destruct (lived_accepted env now k i w validated g saved w1 Hd Hi Hok Hnd Hg Hmg Hi) as (Hi' & _ & _).
    apply tail_keeps; [exact Hi'| |].
    + apply upsert_all_here; [apply Hmg|done].
    + rewrite Hkept. exact Hu.
Qed.

(** ** A mission to evaluate them on *)

(** What makes a world identified, checked by evaluation. *)
Definition checked_rows (w : World) : bool :=
  bool_decide (NoDup (List.map st_id (w_steps w))) && bool_decide (NoDup (List.map st_key (w_steps w)))
  && levery STEP_KEY_PATTERN (List.map st_key (w_steps w))
  && levery (λ s, startsWith "id-" (st_id s)) (w_steps w)
  && bool_decide (NoDup (graph_nodes (w_mission w))).

Lemma checked_rows_identified w : checked_rows w = true → identified fenced_env w.
Proof.
  unfold checked_rows. rewrite !andb_true_iff, !bool_decide_true_iff, !levery_true. intros ((((H1 & H2) & H3) & H4) & H5).
  constructor; [done|done|exact H3| |done]. intros s n Hs _ He. specialize (H4 s Hs). rewrite <- He in H4.
  cbn [fenced_env env_uuid] in H4. by destruct n.
Qed.

Lemma fenced_distinct : distinct_uuids fenced_env.
Proof. exact unary_uuid_inj. Qed.

(** A step done, one running on it, and one still to come. *)
Definition working_world : World :=
  sample_world "running"
    [(sample_step "a" "done" [] 0)<|st_attempt := 1|><|st_visit := 1|>;
     (sample_step "b" "running" ["a"] 1)<|st_attempt := 1|><|st_visit := 1|>; sample_step "c" "pending" ["b"] 2].

Definition done_result : ReportInput :=
  {| ri_status := report_done; ri_summary := "ok"; ri_artifacts := None; ri_verdict := None; ri_visit := None;
     ri_lease_token := None |}.

(** A plan that rewrites the running step, puts a new one before it and drops
    nothing. *)
Definition second_plan : PlanSubmission :=
  {| sp_summary := Some "v2"; sp_steps := [Plan.sample_step "b" ["a"; "d"]; Plan.sample_step "d" []];
     sp_graph := None; sp_graph_template := None; sp_reset_graph := false |}.

Definition working_history : list call :=
  [c_plan 1 the_orchestrator second_plan; c_report 2 "id-b" the_agent done_result].

Example working_history_runs :
  List.map (λ s, (st_key s, st_status s, st_position s)) (w_steps (run_calls fenced_env working_history working_world))
  = [("a", "done", 0); ("b", "done", 2); ("c", "dispatched", 3); ("d", "ready", 1)].
Proof. vm_compute. reflexivity. Qed.

Lemma working_identified : identified fenced_env working_world.
Proof. by apply checked_rows_identified. Qed.

Lemma call_refines_life_witness :
  let c := c_report 2 "id-b" the_agent done_result in
  ∃ old new, w_steps (after fenced_env c working_world) = old ++ new ∧
    Forall2 (lives c) (w_steps working_world) old ∧ Forall (born c) new.
Proof.
  exact (call_refines_life fenced_env (c_report 2 "id-b" the_agent done_result) working_world
           fenced_distinct working_identified).
Defined.

Lemma missions_stay_well_formed_witness : well_formed fenced_env (run_calls fenced_env working_history working_world).
Proof.
  apply (missions_stay_well_formed fenced_env working_history working_world fenced_distinct).
  constructor; [exact working_identified|exact I|by intros []].
Defined.

Lemma steps_never_go_back_witness :
  ∃ old new, w_steps (run_calls fenced_env working_history working_world) = old ++ new ∧
    Forall2 forward (w_steps working_world) old.
Proof.
  exact (steps_never_go_back fenced_env working_history working_world fenced_distinct working_identified).
Defined.

Lemma outcomes_stand_witness :
  let c := c_report 2 "id-b" the_agent done_result in
  let a := (sample_step "a" "done" [] 0)<|st_attempt := 1|><|st_visit := 1|> in
  ∃ s', s' ∈ w_steps (after fenced_env c working_world) ∧ same_identity a s' ∧ outcome_kept c a s'.
Proof.
  exact (outcomes_stand fenced_env (c_report 2 "id-b" the_agent done_result) working_world
           ((sample_step "a" "done" [] 0)<|st_attempt := 1|><|st_visit := 1|>)
           fenced_distinct working_identified (list_elem_of_here _ _) eq_refl).
Defined.

Lemma replan_keeps_started_steps_witness :
  let b := (sample_step "b" "running" ["a"] 1)<|st_attempt := 1|><|st_visit := 1|> in
  ∃ p, b<|st_position := p|> ∈ w_steps (after fenced_env (c_plan 1 the_orchestrator second_plan) working_world).
Proof.
  exact (replan_keeps_started_steps fenced_env 1 the_orchestrator second_plan working_world
           ((sample_step "b" "running" ["a"] 1)<|st_attempt := 1|><|st_visit := 1|>)
           fenced_distinct working_identified
           (list_elem_of_further _ _ _ (list_elem_of_here _ _)) eq_refl).
Defined.
