(* ===== verification/Closing.v ===== *)
(** * Closing a mission

    What completing, cancelling or failing a mission requires of it and leaves
    behind: the completion gate, and that no step of a closed mission is open. *)

From S2P Require Import Prelude JsStd Vocabulary Plan Graph GraphRun Roster Entities Logic Samples PostActions Engine Frame.
From S2P Require Import Lifecycle Recovery.
#[local] Open Scope Z_scope.

Definition terminal_step (s : Step) : bool := isTerminalStepStatus (st_status s).

(** What a method that closes the open steps does to the rows. *)
Definition closed_rows (close : Step → Step) (l : list Step) : list Step :=
  List.map (λ s, if terminal_step s then s else close s) l.

Lemma save_open close l :
  NoDup (List.map st_id l) → (∀ s, st_id (close s) = st_id s) →
  foldl (λ l s, put_step s l) l (List.map close (lfilter (λ s, negb (terminal_step s)) (sort_by st_position l)))
  = closed_rows close l.
Proof.
  intros Hnd Hc. rewrite save_filtered; [|done|apply sort_by_perm|done]. unfold closed_rows.
  apply List.map_ext. intros s. by destruct (terminal_step s).
Qed.

Lemma closed_rows_terminal close l :
  (∀ s, terminal_step (close s) = true) → ∀ s, s ∈ closed_rows close l → terminal_step s = true.
Proof. intros Hc s (x & -> & _)%elem_of_map. destruct (terminal_step x) eqn:E; [done|apply Hc]. Qed.

(** What a run of the post-actions leaves of the rows and the mission. *)
Lemma run_post_actions_core env now w :
  fst (run_post_actions env now w) = Ok tt ∧ core_of (snd (run_post_actions env now w)) = core_of w.
Proof.
  pose proof (runPostActions_core env now w) as H. unfold run_post_actions.
  destruct (runPostActions env now w None) as [[o w'] n]. done.
Qed.

Lemma in_flight_open s : isInFlight (st_status s) = true → terminal_step s = false.
Proof.
  unfold terminal_step, isInFlight. intros H. apply includes_true in H.
  apply elem_of_cons in H as [->|H]; [done|]. by apply list_elem_of_singleton in H as ->.
Qed.

(** What completing a mission as succeeded asks for. *)
Definition completable (caller : Caller) (w : World) : Prop :=
  unauthenticated caller = false ∧
  callerHoldsId caller (ms_orchestrator_agent_id (w_mission w)) = true ∧
  isTerminalMissionStatus (status_of w) = false ∧
  (∀ s, s ∈ w_steps w → isInFlight (st_status s) = false) ∧
  (∀ c, c ∈ default [] (ms_completion_criteria (w_mission w)) → cc_met c = true).

Lemma allCriteriaMet_forall cs : allCriteriaMet cs = true ↔ ∀ c, c ∈ default [] cs → cc_met c = true.
Proof.
  destruct cs as [[|c cs]|]; cbn [allCriteriaMet default]; [split; [intros _ x Hx; inversion Hx|done]| |
    split; [intros _ x Hx; inversion Hx|done]].
  apply levery_true.
Qed.

Definition completed_outcome (env : Env) (now : Z) (caller : Caller) (summary : string) (w : World) : Prop :=
  match completeMission env now caller complete_completed summary w with
  | (Ok _, w') => completable caller w ∧ status_of w' = "completed" ∧ w_steps w' = w_steps w
  | (Err _, w') => w' = w ∧ ¬ completable caller w
  end.

(** The completion gate.  A mission is completed exactly when its
    orchestrator asks, it is not closed already, no step is in flight and every
    completion criterion is met — a mission without criteria needs none.  Then
    it is completed and its steps are as they were; otherwise nothing changes. *)
Theorem completion_gate env now caller summary w : completed_outcome env now caller summary w.
Proof.
  unfold completed_outcome, completeMission, completable. rewrite run_requireMission, run_requireOrchestrator.
  destruct (unauthenticated caller); [split; [done|by intros [? _]]|].
  destruct (callerHoldsId _ _); [|split; [done|by intros (_ & ? & _)]]. rewrite run_guard. fold (status_of w).
  destruct (isTerminalMissionStatus _); [split; [done|by intros (_ & _ & ? & _)]|].
  unfold listSteps. rewrite run_gets, run_guard. cbn [is_completed]. rewrite !andb_true_l.
  set (open := lfilter _ _).
  assert (Hopen : open = [] ↔ ∀ s, s ∈ w_steps w → isInFlight (st_status s) = false).
  { unfold open. rewrite lfilter_nil. split; intros H s Hs; apply H; by apply elem_of_sort_by in Hs || apply elem_of_sort_by. }
  destruct (bool_decide _) eqn:Elen.
  { split; [done|]. intros (_ & _ & _ & H & _). apply Hopen in H. by rewrite H in Elen. }
  assert (open = []) as Ho by (destruct open; [done|]; by apply bool_decide_eq_false in Elen; simpl in Elen; lia).
  rewrite run_guard. destruct (allCriteriaMet _) eqn:Ecrit; simpl negb; cbv iota.
  2:{ split; [done|]. intros (_ & _ & _ & _ & H). apply allCriteriaMet_forall in H. congruence. }
  rewrite Ho. cbn [List.map]. unfold mbind, M_bind, save_steps, update_mission, recordEvent, modify. cbn [foldl].
  match goal with |- context [run_post_actions env now ?v] => pose proof (run_post_actions_core env now v) as [Hr Hc];
    destruct (run_post_actions env now v) as [[u|e] w'] end; simpl in Hr; [|discriminate].
  split; [split_and!; [done|done|done|by apply Hopen|by apply allCriteriaMet_forall]|].
  split; [exact (f_equal (λ c, ms_status (co_mission c)) Hc)|exact (f_equal co_steps Hc)].
Qed.

(** ** Cancelling and failing *)

Definition closed_by (close : Step → Step) (status : string) (w w' : World) : Prop :=
  status_of w' = status ∧ w_steps w' = closed_rows close (w_steps w) ∧
  ∀ s, s ∈ w_steps w' → terminal_step s = true.

Lemma closed_by_rows close status w w' :
  (∀ s, terminal_step (close s) = true) → status_of w' = status → w_steps w' = closed_rows close (w_steps w) →
  closed_by close status w w'.
Proof. intros Hc Hs Hr. split_and!; [done|done|]. rewrite Hr. by apply closed_rows_terminal. Qed.

Lemma run_requireMission_some {B} a (k : Mission → M B) w b w' :
  (requireMission a ≫= k) w = (Ok b, w') → k (w_mission w) w = (Ok b, w').
Proof.
  unfold mbind, M_bind, requireMission, mbind, M_bind, get_mission, gets.
  destruct a as [a|]; [|done]. by destruct (truthy a && _).
Qed.

Lemma cancelMission_closes now a r w w' :
  NoDup (List.map st_id (w_steps w)) → cancelMission now a r w = (Ok tt, w') →
  closed_by (cancel_step now) "cancelled" w w'.
Proof.
  unfold cancelMission. intros Hnd H. apply run_requireMission_some in H. rewrite run_guard in H.
  destruct (isTerminalMissionStatus _); [discriminate|]. unfold listSteps in H. rewrite run_gets in H.
  unfold mbind, M_bind, save_steps, update_mission, recordEvent, modify in H. cbv beta iota in H.
  injection H as <-. apply closed_by_rows; [done|done|]. by apply (save_open (cancel_step now)).
Qed.

Lemma failMissionExternally_closes now s r w w' :
  NoDup (List.map st_id (w_steps w)) → failMissionExternally now s r w = (Ok true, w') →
  closed_by (cancel_open now) "failed" w w'.
Proof.
  unfold failMissionExternally. intros Hnd H. rewrite run_requireMission in H.
  destruct (isTerminalMissionStatus _); [discriminate|]. destruct (negb _); [discriminate|].
  unfold listSteps in H. rewrite run_gets in H. destruct (_ && _); [discriminate|].
  unfold mbind, M_bind, save_steps, update_mission, recordEvent, modify in H. cbv beta iota in H.
  injection H as <-. apply closed_by_rows; [done|done|]. by apply (save_open (cancel_open now)).
Qed.

(** Cancelling a mission, or failing it from outside, closes every step that
    is still open — running, waiting for a user, ready or pending — keeps the
    outcome of the ones that are over, and leaves no step of the mission open. *)
Theorem closing_leaves_nothing_open now w w' :
  NoDup (List.map st_id (w_steps w)) →
  (∀ a r, cancelMission now a r w = (Ok tt, w') → closed_by (cancel_step now) "cancelled" w w') ∧
  (∀ s r, failMissionExternally now s r w = (Ok true, w') → closed_by (cancel_open now) "failed" w w').
Proof. intros Hnd. split; intros a r; [by apply cancelMission_closes|by apply failMissionExternally_closes]. Qed.

Definition sample_open_world : World :=
  sample_world "running" [sample_step "a" "done" [] 0; sample_step "b" "running" ["a"] 1; sample_step "c" "pending" ["b"] 2].

Lemma closing_leaves_nothing_open_witness :
  List.map st_status (w_steps (world_of (cancelMission 5 "acc" "stop") sample_open_world)) = ["done"; "cancelled"; "cancelled"].
Proof.
  assert (Hnd : NoDup (List.map st_id (w_steps sample_open_world))) by (apply (bool_decide_unpack _); vm_compute; exact I).
  destruct (closing_leaves_nothing_open 5 sample_open_world
    (world_of (cancelMission 5 "acc" "stop") sample_open_world) Hnd) as [H _].
  destruct (H "acc" "stop" eq_refl) as (_ & Hr & _). rewrite Hr. reflexivity.
Defined.
