(* ===== verification/Fences.v ===== *)
(** * Fences around results

    Who can still change a step: the lease that fences out the workers of earlier
    attempts, and the gate that accepts one user decision per visit. *)

From S2P Require Import Prelude JsStd Vocabulary Plan Graph GraphRun Roster Entities Logic Samples Engine Frame.
From S2P Require Import Rows Classify Starting PlanIntake Reports Calls StepLife History Guarantees.
From stdpp Require Import pretty.
#[local] Open Scope Z_scope.

(** ** Refusals *)

(** An error after which the mission, its steps and its rooms are as they were;
    the timeline may say that the call was refused. *)
Definition refused {A} (m : M A) (w : World) : Prop :=
  ∃ e w', m w = (Err e, w') ∧ w_mission w' = w_mission w ∧ w_steps w' = w_steps w ∧ w_posts w' = w_posts w.

Lemma refused_err {A} (m : M A) e w : m w = (Err e, w) → refused m w.
Proof. intros H. exists e, w. done. Qed.

Lemma refused_stepActor {B} s m c (k : () → M B) w :
  refused (k tt) w → refused (requireStepActor s m c ≫= k) w.
Proof.
  intros H. unfold refused, requireStepActor, mbind, M_bind.
  destruct (unauthenticated c); [by eexists _, w|]. destruct (_ || _); [exact H|by eexists _, w].
Qed.

Lemma refused_guard {B} b c y (k : () → M B) w : refused (k tt) w → refused (throw_if b c y ≫= k) w.
Proof. intros H. destruct b; [by apply (refused_err _ {| oe_code := c; oe_why := y |})|exact H]. Qed.

Lemma lease_refuses {B} s shown (k : () → M B) w :
  truthy (st_lease_token s) = true → trim (default "" shown) ≠ st_lease_token s →
  refused (requireFreshLease s shown ≫= k) w.
Proof.
  intros Ht Hne. unfold refused, mbind, M_bind, requireFreshLease. rewrite Ht. apply String.eqb_neq in Hne.
  rewrite Hne. simpl. destruct (truthy (trim (default "" shown))); simpl; by eexists _, _.
Qed.

Lemma progress_refused now id caller w s shown cp :
  find_step w id = Some s → truthy (st_lease_token s) = true → trim (default "" shown) ≠ st_lease_token s →
  refused (reportProgress now id caller shown cp) w.
Proof.
  intros Hf Ht Hne. unfold reportProgress, refused. rewrite run_requireStep, Hf, run_requireMission.
  apply refused_stepActor, refused_guard. by apply lease_refuses.
Qed.

Lemma report_refused env now id caller w s input :
  find_step w id = Some s → truthy (st_lease_token s) = true →
  trim (default "" (ri_lease_token input)) ≠ st_lease_token s → refused (reportStep env now id caller input) w.
Proof.
  intros Hf Ht Hne. unfold reportStep, refused. rewrite run_requireStep, Hf, run_requireMission.
  apply refused_stepActor, refused_guard, refused_guard. by apply lease_refuses.
Qed.

(** C6: the lease fence.  While a step holds a lease, progress and results are
    accepted from the holder of that lease's token only: any other token, or
    none, is refused — whoever the caller is, the orchestrator included — and the
    mission, the steps and the rooms are as they were. *)
Theorem lease_fence env now id caller w s :
  find_step w id = Some s → truthy (st_lease_token s) = true →
  (∀ shown cp, trim (default "" shown) ≠ st_lease_token s → refused (reportProgress now id caller shown cp) w) ∧
  (∀ input, trim (default "" (ri_lease_token input)) ≠ st_lease_token s → refused (reportStep env now id caller input) w).
Proof.
  intros Hf Ht. split; [intros shown cp; by apply progress_refused|intros input; by apply report_refused].
Qed.

Definition leased_step (token : string) : Step := (sample_step "a" "running" [] 0)<|st_lease_token := token|>.
Definition leased_world (token : string) : World := sample_world "running" [leased_step token].

Lemma lease_fence_witness :
  refused (reportProgress 5 "id-a" the_agent (Some "old") JNull) (leased_world "new").
Proof.
  refine (proj1 (lease_fence sample_env 5 "id-a" the_agent (leased_world "new") (leased_step "new") _ _) _ _ _);
    [reflexivity|reflexivity|discriminate].
Defined.

(** ** A dispatch fences out the workers before it *)

Lemma find_step_saved s l :
  st_id s ∈ List.map st_id l → List.find (λ x, String.eqb (st_id x) (st_id s)) (put_step s l) = Some s.
Proof.
  unfold put_step. induction l as [|y l IH]; [intros H; inversion H|]. cbn [List.map List.find].
  intros H. destruct (String.eqb (st_id y) (st_id s)) eqn:E; [by rewrite String.eqb_refl|].
  rewrite E. apply IH. apply elem_of_cons in H as [H|H]; [|done]. symmetry in H. by apply String.eqb_neq in E.
Qed.

Lemma requireRuntime_world env step w : snd (requireRuntime env step w) = w.
Proof.
  unfold requireRuntime. destruct (execution_spec env step) as [spec|]; [|done].
  unfold mbind, M_bind. by destruct (missionApprovalProblem _), (approvalHostProblem _ _).
Qed.

Lemma dispatchStep_Ok env now step r w w1 :
  dispatchStep env now step r w = (Ok tt, w1) →
  w_steps w1 = put_step (stamp_attempt now (env_uuid env (S (w_nonce w))) (env_uuid env (w_nonce w)) step) (w_steps w).
Proof.
  unfold dispatchStep, get_mission, listSteps. rewrite !run_gets. intros (u & v & Hr & H)%bind_Ok_inv.
  pose proof (requireRuntime_world env step w) as Hv. rewrite Hr in Hv. simpl in Hv. subst v.
  apply bind_Ok_inv in H as (room & v1 & [= <- <-] & H). apply bind_Ok_inv in H as (token & v2 & [= <- <-] & H).
  apply bind_Ok_inv in H as (u1 & v3 & [= <- <-] & H). apply bind_Ok_inv in H as (u2 & v4 & H4 & H).
  rewrite run_gets in H. apply bind_Ok_inv in H as (u3 & v5 & H5 & H). injection H as <-. cbn [w_steps].
  assert (Hs5 : w_steps v5 = w_steps v4).
  { unfold postToRoom in H5. destruct (env_post _ _ _) in H5; [discriminate|]. by injection H5 as _ <-. }
  destruct (ms_graph_spec (w_mission w)); injection H4 as _ <-; exact Hs5.
Qed.

(** A dispatch supersedes every earlier worker.  Once a step has been
    dispatched again — by the pump or by lease recovery — its lease token is the
    one the new work order carries, its attempt number has gone up, and a result
    or a heartbeat that presents a token minted before it is refused.  [randomUUID]
    is assumed to return distinct non-blank strings. *)
Theorem dispatch_supersedes env now step recovery w w1 :
  (∀ n m, env_uuid env n = env_uuid env m → n = m) →
  (∀ n, truthy (env_uuid env n) = true ∧ trim (env_uuid env n) = env_uuid env n) →
  st_id step ∈ List.map st_id (w_steps w) →
  dispatchStep env now step recovery w = (Ok tt, w1) →
  ∃ s, find_step w1 (st_id step) = Some s ∧ st_attempt s = st_attempt step + 1 ∧
       isInFlight (st_status s) = true ∧ st_lease_token s = env_uuid env (S (w_nonce w)) ∧
  ∀ n later caller, (n < w_nonce w)%nat →
    (∀ cp, refused (reportProgress later (st_id step) caller (Some (env_uuid env n)) cp) w1) ∧
    (∀ input, ri_lease_token input = Some (env_uuid env n) →
       refused (reportStep env later (st_id step) caller input) w1).
Proof.
  intros Hinj Huuid Hin Hd. apply dispatchStep_Ok in Hd.
  set (s := stamp_attempt now (env_uuid env (S (w_nonce w))) (env_uuid env (w_nonce w)) step) in *.
  assert (Hf : find_step w1 (st_id step) = Some s) by (unfold find_step; rewrite Hd; by apply (find_step_saved s)).
  exists s. split_and!; [done|done|done|done|]. intros n later caller Hn.
  assert (Hne : trim (env_uuid env n) ≠ st_lease_token s).
  { rewrite (proj2 (Huuid n)). intros He%Hinj. lia. }
  assert (Ht : truthy (st_lease_token s) = true) by apply Huuid.
  split; [intros cp; by apply (progress_refused _ _ _ _ s)|].
  intros input Hi. apply (report_refused _ _ _ _ _ s); [done|done|by rewrite Hi].
Qed.

Definition redispatched : res oerr () * World :=
  dispatchStep fenced_env 9 (leased_step (unary_uuid 1)) true ((leased_world (unary_uuid 1))<|w_nonce := 2%nat|>).

Lemma dispatch_supersedes_witness :
  fst redispatched = Ok tt ∧
  refused (reportProgress 10 "id-a" the_agent (Some (unary_uuid 1)) JNull) (snd redispatched).
Proof.
  split; [reflexivity|].
  destruct (dispatch_supersedes fenced_env 9 (leased_step (unary_uuid 1)) true
    ((leased_world (unary_uuid 1))<|w_nonce := 2%nat|>) (snd redispatched)) as (s & _ & _ & _ & _ & H).
  - exact unary_uuid_inj.
  - intros n. split; [by destruct n|apply unary_uuid_trim].
  - apply list_elem_of_here.
  - reflexivity.
  - refine (proj1 (H 1%nat 10 the_agent _) JNull). apply (Nat.lt_succ_diag_r 1).
Defined.

(** ** User decisions *)

(** The verdict a decision asks for. *)
Definition asked (input : DecisionInput) : string := toLowerCase (trim (di_verdict input)).

(** What a confirm gate must be for a new decision on it to be taken. *)
Definition decidable (w : World) (s : Step) (input : DecisionInput) : Prop :=
  isTerminalMissionStatus (status_of w) = false ∧ is_confirm (w_mission w) s = true ∧
  isAwaitingUser (st_status s) = true ∧ asked input ∈ CONFIRM_VERDICTS ∧ di_visit input = JInt (st_visit s) ∧
  ∀ d, st_confirm_decision s = Some d → cd_visit d ≠ st_visit s.

(** The pass [s] records stands in the table: its row is there as it is, or the step has
    entered a later visit since. *)
Definition stands (s : Step) (w : World) : Prop :=
  ∃ x, x ∈ w_steps w ∧ st_id x = st_id s ∧ (x = s ∨ st_visit s < st_visit x).

(** The row that records a decision on the current visit of [s]. *)
Definition decided_row (input : DecisionInput) (s s' : Step) : Prop :=
  st_id s' = st_id s ∧ st_visit s' = st_visit s ∧ st_status s' = "done" ∧ st_verdict s' = asked input ∧
  ∃ d, st_confirm_decision s' = Some d ∧ cd_verdict d = asked input ∧ cd_visit d = st_visit s.

(** What a call on the gate [s] may answer, and leave: that the same decision was taken
    before, with everything as it was; the decision it took, which stands in the table; a
    refusal, with everything as it was; or an error of what follows a decision (the pump
    or the wake), and then the decision stands as well. *)
Definition decision_answer (input : DecisionInput) (w : World) (s : Step) (r : res oerr DecisionResult * World) : Prop :=
  match r with
  | (Ok r, w') =>
      if dr_already_decided r
      then w' = w ∧ dr_step r = s ∧
           ∃ d, st_confirm_decision s = Some d ∧ cd_verdict d = asked input ∧ di_visit input = JInt (cd_visit d)
      else decidable w s input ∧ decided_row input s (dr_step r) ∧ stands (dr_step r) w'
  | (Err _, w') => w' = w ∨ decidable w s input ∧ ∃ s', decided_row input s s' ∧ stands s' w'
  end.

(** *** What a settled row is after the rest of a report *)

(** A row of a later visit, or the same one where it was settled. *)
Definition lasting (s s' : Step) : Prop :=
  same_identity s s' ∧ st_visit s ≤ st_visit s' ∧
  (isTerminalStepStatus (st_status s) = true → s' = s ∨ st_visit s < st_visit s').

#[local] Instance lasting_row : RowRelation lasting.
Proof.
  split; [split|].
  - intros s. split_and!; [done|lia|by left].
  - intros s t u ([I1 K1] & V1 & T1) ([I2 K2] & V2 & T2). split_and!; [split; congruence|lia|]. intros Ht.
    destruct (T1 Ht) as [->|?]; [by apply T2|right; lia].
  - by intros s s' [H _].
Qed.

#[local] Instance lasting_births : Births lasting (λ _, True).
Proof. done. Qed.

(** A settled row stands, however the worlds move on. *)
Definition lasts (env : Env) (s : Step) (w w' : World) : Prop :=
  identified env w ∧ stands s w → identified env w' ∧ stands s w'.

#[local] Instance lasts_preorder env s : PreOrder (lasts env s).
Proof. split; [intros w H; exact H|intros u v w H1 H2 H; auto]. Qed.

Lemma lasts_evolves env s {A} (m : M A) w : isTerminalStepStatus (st_status s) = true →
  moves (evolves env lasting (λ _, True)) m w → moves (lasts env s) m w.
Proof.
  intros Ht Hm [Hi (x & Hx & Ex & Hs)]. destruct (Hm Hi) as (Hi' & (old & new & Eg & HR & _) & _). split; [done|].
  apply list_elem_of_lookup_1 in Hx as [i Hx]. destruct (Forall2_lookup_l _ _ _ _ _ HR Hx) as (y & Hy & [Iy _] & Vy & Ty).
  exists y. split_and!; [rewrite Eg; apply elem_of_app; left; by eapply list_elem_of_lookup_2|congruence|].
  destruct Hs as [->|Hs]; [by apply Ty|right; lia].
Qed.

Lemma lasts_pump env s now w : isTerminalStepStatus (st_status s) = true → moves (lasts env s) (pump env now) w.
Proof.
  intros Ht [Hi (x & Hx & Ex & Hs)]. destruct (lived_pump env pumping eq_refl now w Hi) as (Hi' & Hg & _). split; [done|].
  destruct Hs as [->|Hs].
  - exists s. split_and!; [|done|by left]. apply pump_keeps; [done|done|]. unfold untouchable. by rewrite Ht, orb_true_r.
  - destruct Hg as (old & new & Eg & HR & _). apply list_elem_of_lookup_1 in Hx as [i Hx].
    destruct (Forall2_lookup_l _ _ _ _ _ HR Hx) as (y & Hy & [Iy _] & L). apply lives_forward in L.
    exists y. split_and!; [rewrite Eg; apply elem_of_app; left; by eapply list_elem_of_lookup_2|congruence|right].
    destruct L as [L|[L _]]; cbn in L; lia.
Qed.

Lemma lasts_wake env s p f w : moves (lasts env s) (wakeAfterPump env p f) w.
Proof.
  intros [Hi (x & Hx & Hs)]. split; [|exists x; by rewrite wake_steps].
  destruct (lived_wake env pumping p f w Hi) as (Hi' & _). exact Hi'.
Qed.

Lemma lasts_settle env s now w : isTerminalStepStatus (st_status s) = true → moves (lasts env s) (settle env now s) w.
Proof.
  intros Ht. unfold settle. apply moves_bind_all; [typeclasses eauto| |intros r v1].
  { apply lasts_evolves; [done|]. apply evolving_transitions; [typeclasses eauto..|].
    intros x. split_and!; [done|cbn; lia|]. intros _. right. cbn. lia. }
  apply moves_bind_all; [typeclasses eauto| |intros bl v2].
  { apply lasts_evolves; [done|]. apply evolving_propagate; [typeclasses eauto..|].
    intros x (_ & _ & Hx). split_and!; [done|cbn; lia|]. intros E. congruence. }
  apply moves_bind_all; [typeclasses eauto|by apply lasts_pump|intros pm v3].
  apply moves_bind_all; [typeclasses eauto|apply lasts_wake|intros wk v4]. moves_auto.
Qed.

Lemma claimed_visit_Some n z : claimed_visit n = Some z → n = JInt z.
Proof. unfold claimed_visit. destruct n as [v|]; [|discriminate]. destruct (v <? 1); [discriminate|]. by intros [= ->]. Qed.

Lemma take_decision_answer env now actor name feedback v input w s :
  identified env w → s ∈ w_steps w →
  isTerminalMissionStatus (status_of w) = false → is_confirm (w_mission w) s = true →
  asked input ∈ CONFIRM_VERDICTS → di_visit input = JInt v →
  (∀ d, st_confirm_decision s = Some d → cd_visit d ≠ v) →
  decision_answer input w s (take_decision env now actor name (asked input) feedback v s w).
Proof.
  intros Hi Hs Hm Hc Ha Hv Hd. unfold take_decision. rewrite run_guard.
  destruct (isAwaitingUser (st_status s)) eqn:Ew; [|by left]. cbn [negb]. cbv iota. rewrite run_guard.
  destruct (v =? st_visit s) eqn:Evis; [|by left]. cbn [negb]. cbv iota. apply Z.eqb_eq in Evis. subst v.
  assert (Hdec : decidable w s input) by (unfold decidable; split_and!; done).
  cbv zeta. set (d := {| cd_verdict := _ |}). set (s' := record_decision now d s).
  assert (Hrow : decided_row input s s') by (split_and!; [done..|by exists d]).
  set (w1 := snd ((save_step s';; recordEvent "confirm_decided" (Some (st_key s)) []) w)).
  assert (Hw1 : identified env w1 ∧ stands s' w1).
  { assert (Hm1 : moves (evolves env (λ x y, same_identity x y) (λ _, True))
                    (save_step s';; recordEvent "confirm_decided" (Some (st_key s)) []) w).
    { assert (RowRelation same_identity) by (split; [split; [by split|intros a b e [] []; split; congruence]|done]).
      assert (Births same_identity (λ _, True)) by done.
      apply moves_bind_all; [typeclasses eauto| |intros; moves_auto]. by apply (evolves_save _ _ _ s' s). }
    split; [apply (Hm1 Hi)|]. exists s'. split_and!; [|done|by left]. cbn.
    assert (Hp := find_step_saved s' (w_steps w) (elem_of_map_2 st_id _ s Hs)). by apply List.find_some in Hp as [Hp%list_elem_of_In _]. }
  pose proof (lasts_settle env s' now w1 eq_refl Hw1) as [_ Hst]. unfold mbind, M_bind, save_step, recordEvent, modify.
  unfold w1, mbind, M_bind, save_step, recordEvent, modify in Hst. cbn [snd] in Hst.
  destruct (settle _ _ _ _) as [[r|e] w']; [|right]; cbn [snd] in Hst; [done|]. split; [done|by exists s'].
Qed.

(** C17: One decision per visit.  A confirm gate takes a decision only while it is
    waiting for a user, for its current visit, with a known verdict, in a mission
    that is open, and only if none is on record for that visit; then the decision is on
    record, with its verdict and its visit, in the row that the table has of the gate
    when the call returns or fails — unless the gate has entered a later visit by then.
    The same decision again is answered as already taken and changes nothing, and any
    refusal (a different verdict for a visit already decided, a stale visit, a step that
    is no gate) changes nothing either. *)
Theorem one_decision_per_visit env now id account actor name input w s :
  identified env w → find_step w id = Some s →
  decision_answer input w s (submitConfirmDecision env now id account actor name input w).
Proof.
  intros Hi Hf. assert (Hs : s ∈ w_steps w) by (by apply List.find_some in Hf as [Hf%list_elem_of_In _]).
  unfold submitConfirmDecision. cbv zeta. fold (asked input).
  rewrite run_guard. destruct (includes CONFIRM_VERDICTS (asked input)) eqn:Ev; [|by left]. cbn [negb]. cbv iota.
  apply includes_true in Ev. destruct (claimed_visit (di_visit input)) as [v|] eqn:Ecv; [|by left].
  apply claimed_visit_Some in Ecv. rewrite run_requireStep, Hf. unfold mbind at 1, M_bind at 1.
  destruct (requireMission (Some account) w) as [[mission|e] w0] eqn:Em.
  2:{ left. unfold requireMission, mbind, M_bind, get_mission, gets in Em.
      destruct (truthy account && _); [by injection Em as _ <-|discriminate]. }
  apply requireMission_Ok in Em as [-> ->]. rewrite run_guard. fold (status_of w).
  destruct (isTerminalMissionStatus _) eqn:Et; [by left|]. rewrite run_guard.
  destruct (is_confirm _ s) eqn:Ec; [|by left]. cbn [negb]. cbv iota.
  destruct (st_confirm_decision s) as [prior|] eqn:Ep.
  2:{ apply take_decision_answer; try done. intros d. by rewrite Ep. }
  destruct (v =? cd_visit prior) eqn:Evis.
  - destruct (String.eqb (cd_verdict prior) (asked input)) eqn:Everd; [|by left].
    apply String.eqb_eq in Everd. apply Z.eqb_eq in Evis. subst v. simpl. split_and!; [done|done|]. exists prior. done.
  - apply Z.eqb_neq in Evis. apply take_decision_answer; try done. intros d. rewrite Ep. intros [= ->]. congruence.
Qed.

(** The gate of a one-node graph, decided twice. *)
Definition sample_gate : GraphSpec :=
  {| gs_version := 1; gs_nodes := [{| gn_key := "gate"; gn_kind := nk_confirm; gn_join := join_all; gn_max_visits := 1 |}];
     gs_edges := []; gs_entry := ["gate"]; gs_terminal := ["gate"]; gs_max_total_visits := 5 |}.

Definition sample_gate_world : World :=
  (sample_world "running" [(sample_step "gate" "awaiting_user" [] 0)<|st_visit := 1|>])
    <|w_mission ::= λ m, m<|ms_graph_enabled := true|><|ms_graph_spec := Some sample_gate|>|>.

Definition sample_approval : DecisionInput := {| di_verdict := " Pass "; di_feedback := None; di_visit := JInt 1 |}.

Definition sample_decided : World :=
  world_of (submitConfirmDecision fenced_env 7 "id-gate" "acc" "u1" "User" sample_approval) sample_gate_world.

Definition sample_second : res oerr DecisionResult * World :=
  submitConfirmDecision fenced_env 8 "id-gate" "acc" "u2" "Other" sample_approval sample_decided.

Example sample_second_repeats : match fst sample_second with Ok r => dr_already_decided r | Err _ => false end = true.
Proof. vm_compute. reflexivity. Qed.

Lemma one_decision_per_visit_witness :
  decision_answer sample_approval sample_gate_world ((sample_step "gate" "awaiting_user" [] 0)<|st_visit := 1|>)
    (submitConfirmDecision fenced_env 7 "id-gate" "acc" "u1" "User" sample_approval sample_gate_world) ∧
  match find_step sample_decided "id-gate" with
  | Some s => decision_answer sample_approval sample_decided s sample_second
  | None => False
  end.
Proof.
  split.
  - refine (one_decision_per_visit fenced_env 7 "id-gate" "acc" "u1" "User" sample_approval sample_gate_world _ _ eq_refl).
    by apply checked_rows_identified.
  - destruct (find_step sample_decided "id-gate") as [s|] eqn:Hf; [|vm_compute in Hf; discriminate Hf].
    refine (one_decision_per_visit fenced_env 8 "id-gate" "acc" "u2" "Other" sample_approval sample_decided s _ Hf).
    apply checked_rows_identified. by vm_compute.
Defined.
