(* ===== verification/Parallel.v ===== *)
(** * The parallel limit

    No call takes the number of steps in flight over [max_parallel_steps]:
    results, decisions, step controls, lease recovery, the life cycle, new plans
    and patches, in any order, stay under the limit [Limits] proves of the pump. *)

From S2P Require Import Prelude JsStd Vocabulary Plan Graph GraphFacts GraphRun Roster Entities Logic Samples PostActions Engine.
From S2P Require Import Frame Rows Classify Limits Lifecycle StepEdit Controls PlanIntake PlanMerge Reports Recovery Calls.
From S2P Require Import StepLife Refinement History Guarantees.
#[local] Open Scope Z_scope.

(** A fact about the accumulator that every turn of a loop keeps. *)
Lemma loop_keeps {A S} (P : S → Prop) (body : S → A → M S) l : ∀ s w r w',
  (∀ s a w r w', P s → body s a w = (Ok r, w') → P r) →
  P s → loop body s l w = (Ok r, w') → P r.
Proof.
  induction l as [|a l IH]; intros s w r w' Hb Hs H; [by injection H as <- _|].
  cbn [loop] in H. apply bind_Ok_inv in H as (s1 & w1 & H1 & H2). by apply (IH s1 w1 r w'); [|eapply Hb|].
Qed.

Section calls.
Context (env : Env) (sig0 : list (string * string)) (spec0 : option GraphSpec) (maxp B : Z).
Context (Hids : NoDup (List.map fst sig0)) (Hkeys : NoDup (List.map snd sig0)).
Context (Hcovers : covers spec0 (List.map snd sig0)) (HB : maxp <= B).

#[local] Abbreviation KB := (keeps_bound sig0 spec0 maxp B).
#[local] Abbreviation bounded := (bounded sig0 spec0 maxp B).

#[local] Hint Extern 1 (moves KB (recordEvent _ _ _) _) => apply moves_event : moves.
#[local] Hint Extern 1 (moves KB (fresh_uuid _) _) => apply moves_uuid : moves.
#[local] Hint Extern 1 (moves KB (postToRoom _ _ _) _) => apply moves_post : moves.
#[local] Hint Extern 1 (moves KB (update_mission _) _) => apply moves_mission; reflexivity : moves.
#[local] Hint Extern 1 (moves KB (pump _ _) _) => apply pump_bound; assumption : moves.

(** A row of the current world. *)
Lemma row_sig w s : bounded w → s ∈ w_steps w → step_sig s ∈ sig0.
Proof. intros Hb Hs. by apply (bounded_elem sig0 spec0 maxp B w). Qed.

Lemma byKey_row w k s :
  bounded w → JMap.get (JMap.index_by st_key (sort_by st_position (w_steps w))) k = Some s → s ∈ w_steps w.
Proof.
  intros Hb Hg. destruct (listing_keys sig0 spec0 maxp B Hkeys Hcovers w Hb) as [Hnd _].
  apply (JMap.get_index_by st_key) in Hg as [Hs _]; [|done]. by apply elem_of_sort_by in Hs.
Qed.

Lemma propagate_bound now w : moves KB (propagateBlocking now) w.
Proof.
  apply assuming. intros Hb. unfold propagateBlocking. moves_auto.
  match goal with H : List.map _ _ = ?l |- moves _ (save_steps _) _ => rewrite <- H end.
  apply bounded_save_all; [done|]. intros x (y & -> & Hy)%elem_of_map. apply elem_of_lfilter in Hy as [Hy _].
  apply list_elem_of_omap in Hy as (k & _ & Hk). split; [|done]. by apply (row_sig w y Hb), (byKey_row w k y Hb).
Qed.

Lemma unblock_bound w : moves KB unblockAutoBlockedDependents w.
Proof.
  apply assuming. intros Hb. unfold unblockAutoBlockedDependents. moves_auto.
  match goal with H : List.map _ _ = ?l |- moves _ (save_steps _) _ => rewrite <- H end.
  apply bounded_save_all; [done|]. intros x (y & -> & Hy)%elem_of_map. apply elem_of_lfilter in Hy as [Hy _].
  apply elem_of_lfilter in Hy as [Hy _]. split; [|done]. apply (row_sig w y Hb). by apply elem_of_sort_by in Hy.
Qed.

Lemma wake_bound pumped fallback w : moves KB (wakeAfterPump env pumped fallback) w.
Proof. unfold wakeAfterPump, decideWake. moves_auto. Qed.

(** In-memory rows during loop re-entry: the re-entered ones are pending. *)
Definition reentry_rows (st : list Step * list string) : Prop :=
  ∀ s, s ∈ fst st → step_sig s ∈ sig0 ∧ (st_key s ∈ snd st → running_step s = false).

Lemma reenter_rows spec key st lp w st' w' :
  reentry_rows st → reenter spec key st lp w = (Ok st', w') → reentry_rows st'.
Proof.
  destruct st as [steps keys]. intros Hst. unfold reenter.
  destruct (JMap.get _ (ge_to lp)) as [target|]; [|by intros [= <- _]].
  destruct (JMap.get _ (ge_to lp)) as [node|]; [|by intros [= <- _]].
  destruct (_ <? _); [by intros [= <- _]|]. intros [= <- _]. intros x (y & -> & Hy)%elem_of_map.
  cbn [snd fst]. set (fresh := lfilter _ _). destruct (Hst y Hy) as [Hsig Hrun]. cbn [snd fst] in Hrun.
  destruct (includes fresh (st_key y)) eqn:Ef; [done|]. split; [done|].
  intros [Hk|Hk]%elem_of_app; [by apply Hrun|]. apply includes_false in Ef. done.
Qed.

Lemma transitions_bound step w : moves KB (applyGraphTransitions step) w.
Proof.
  unfold applyGraphTransitions. apply moves_gets_bind. destruct (ms_graph_spec (w_mission w)) as [spec|]; [|moves_auto].
  cbv zeta. apply moves_bind_all; [typeclasses eauto|moves_auto|]. intros u v. destruct (bool_decide _); [moves_auto|].
  apply assuming. intros Hb. unfold listSteps. apply moves_gets_bind.
  assert (Hrows : reentry_rows (sort_by st_position (w_steps v), [])).
  { intros s Hs. split; [|intros Hk; inversion Hk]. apply (row_sig v s Hb). by apply elem_of_sort_by in Hs. }
  apply moves_bind; [typeclasses eauto| |].
  - apply moves_loop; [typeclasses eauto|]. intros [steps keys] e v' _. unfold reenter. moves_auto.
  - intros [steps keys] v' Hl. apply loop_keeps with (P := reentry_rows) in Hl; [|intros; by eapply reenter_rows|done].
    apply moves_bind_all; [typeclasses eauto| |intros; moves_auto].
    apply bounded_save_all; [done|]. intros s [Hs Hk]%elem_of_lfilter. apply includes_true in Hk.
    destruct (Hl s Hs) as [? Hr]. split; [done|by apply Hr].
Qed.
#[local] Hint Resolve propagate_bound unblock_bound wake_bound transitions_bound : moves.

Lemma settle_bound now step w : moves KB (settle env now step) w.
Proof. unfold settle. moves_auto. Qed.

Lemma after_failure_bound now step w : moves KB (after_failure env now step) w.
Proof. unfold after_failure. moves_auto. Qed.

Lemma lease_bound step shown w : moves KB (requireFreshLease step shown) w.
Proof. unfold requireFreshLease. moves_auto. Qed.
#[local] Hint Resolve settle_bound after_failure_bound lease_bound : moves.

(** Saving a row that is not in flight, read from a world within the bound. *)
Lemma save_from s x v w :
  bounded v → x ∈ w_steps v → step_sig s = step_sig x → running_step s = false → moves KB (save_step s) w.
Proof. intros Hv Hx Hs Hr. apply bounded_save_idle; [done|rewrite Hs; by apply (row_sig v)|done]. Qed.

Lemma report_bound now id k i w : moves KB (reportStep env now id k i) w.
Proof.
  apply assuming. intros Hb. unfold reportStep, requireVisit. moves_auto.
  eapply save_from; [exact Hb|eassumption|done|unfold running_step, record_report; simpl; by destruct (ri_status i)].
Qed.

Lemma decide_bound now id a u n i w : moves KB (submitConfirmDecision env now id a u n i) w.
Proof.
  apply assuming. intros Hb. unfold submitConfirmDecision, take_decision. moves_auto;
    (eapply save_from; [exact Hb|eassumption|done|done]).
Qed.

Lemma finalize_bound now step r m b w :
  step_sig step ∈ sig0 → moves KB (finalizeUnrecoverableStep env now step r m b) w.
Proof.
  intros Hs. unfold finalizeUnrecoverableStep. moves_auto. apply bounded_save_idle; [done|exact Hs|unfold running_step, close_step; simpl; by destruct m].
Qed.

Lemma fail_step_bound now id r w : moves KB (failStepExternally env now id r) w.
Proof.
  apply assuming. intros Hb. unfold failStepExternally. moves_auto.
  eapply save_from; [exact Hb|eassumption|done|]. unfold close_step, running_step. simpl. by destruct (is_manual _).
Qed.

(** Closing the open rows of the mission. *)
Lemma close_bound (close : Step → Step) p w :
  (∀ s, step_sig (close s) = step_sig s ∧ running_step (close s) = false) → bounded w →
  moves KB (save_steps (List.map close (lfilter p (sort_by st_position (w_steps w))))) w.
Proof.
  intros Hc Hb. apply bounded_save_all; [done|]. intros x (y & -> & Hy)%elem_of_map.
  apply elem_of_lfilter in Hy as [Hy _]. destruct (Hc y) as [-> ?]. split; [|done].
  apply (row_sig w y Hb). by apply elem_of_sort_by in Hy.
Qed.

Lemma fail_mission_bound now s r w : moves KB (failMissionExternally now s r) w.
Proof. apply assuming. intros Hb. unfold failMissionExternally. moves_auto. by apply close_bound. Qed.

Lemma cancel_bound now a r w : moves KB (cancelMission now a r) w.
Proof. apply assuming. intros Hb. unfold cancelMission. moves_auto. by apply close_bound. Qed.

Lemma complete_bound now k st t w : moves KB (completeMission env now k st t) w.
Proof.
  apply assuming. intros Hb. unfold completeMission. moves_auto.
  - by apply close_bound.
  - match goal with |- moves _ (run_post_actions _ _) ?v => pose proof (runPostActions_core env now v) as Hc end.
    unfold moves, run_post_actions. destruct (runPostActions _ _ _ _) as [[o v'] n]. intros Hv. cbn [snd].
    apply (bounded_same _ _ _ _ _ _ Hv); [exact (f_equal co_steps Hc)|exact (f_equal (λ c, ms_graph_spec (co_mission c)) Hc)|
      exact (f_equal (λ c, ms_max_parallel_steps (co_mission c)) Hc)].
Qed.

Lemma progress_bound now id k t cp w : moves KB (reportProgress now id k t cp) w.
Proof.
  apply assuming. intros Hb. unfold reportProgress. apply moves_requireStep_bind; [typeclasses eauto|].
  intros s Hs Hid. apply moves_requireMission_bind; [typeclasses eauto|].
  apply moves_requireStepActor_bind; [typeclasses eauto|]. apply moves_guard; [typeclasses eauto|]. intros Ht.
  apply moves_bind; [typeclasses eauto|apply lease_bound|]. intros u v Hl.
  assert (Hv : w_steps v = w_steps w).
  { revert Hl. unfold requireFreshLease. destruct (negb _); [by intros [= _ <-]|].
    destruct (String.eqb _ _); [by intros [= _ <-]|]. unfold mbind, M_bind, recordEvent, modify.
    by destruct (negb _). }
  cbv zeta. apply moves_bind_all; [typeclasses eauto| |intros; moves_auto].
  assert (Hsig : step_sig (beat now cp s) = step_sig s) by (unfold beat; case_match; case_match; done).
  destruct (running_step s) eqn:Er.
  - apply (bounded_save_running _ _ _ _ Hids _ s); [|by rewrite Hv| |done].
    + rewrite Hsig. by apply (row_sig w).
    + unfold step_sig in Hsig. congruence.
  - apply (save_from _ s w); [done|done|done|]. unfold running_step, beat in *.
    destruct (String.eqb (st_status s) "dispatched") eqn:Ed; [|by case_match].
    apply String.eqb_eq in Ed. rewrite Ed in Er. discriminate.
Qed.

(** ** Step controls *)

Lemma update_budget_bound f i w : f ∈ w_steps w → moves KB (update_budget f i) w.
Proof.
  intros Hf. apply assuming. intros Hb. unfold update_budget. moves_auto.
  set (f' := f<|st_max_attempts := _|>). assert (Hs : step_sig f' ∈ sig0) by (by apply (row_sig w f)).
  destruct (running_step f) eqn:Er; [by apply (bounded_save_running _ _ _ _ Hids _ f)|by apply bounded_save_idle].
Qed.

Lemma no_effect_retry m p s w : moves KB (retry_place env m p s) w.
Proof. unfold retry_place, refresh_runtime, assignmentFor. moves_auto. Qed.
#[local] Hint Resolve no_effect_retry : moves.

Lemma apply_action_bound now m f p i w : step_sig f ∈ sig0 → moves KB (apply_action env now m f p i) w.
Proof.
  intros Hf. unfold apply_action. cbv zeta. destruct (su_action i).
  - apply moves_guard; [typeclasses eauto|]. intros Hr. apply moves_guard; [typeclasses eauto|]. intros _.
    apply moves_bind; [typeclasses eauto|apply no_effect_retry|]. intros placed v [[Hp _] _]%retry_place_standing. moves_auto.
    apply bounded_save_idle; [done| |done]. change (step_sig placed ∈ sig0). by rewrite Hp.
  - destruct p as [|a|id]; moves_auto. apply bounded_save_idle; [done|exact Hf|].
    unfold running_step, reassign_step. simpl. by destruct (isTerminalStepStatus _).
  - moves_auto. destruct (place_standing p (amend_text i f)) as [(Hs & Hst & _) _].
    apply bounded_save_idle; [done|by rewrite Hs|unfold running_step; rewrite Hst; done].
  - moves_auto. by apply bounded_save_idle.
  - moves_auto. by apply bounded_save_idle.
  - moves_auto.
  - moves_auto.
Qed.

Lemma update_bound now id k i w : moves KB (updateStep env now id k i) w.
Proof.
  apply assuming. intros Hb. unfold updateStep. apply moves_requireStep_bind; [typeclasses eauto|]. intros s Hs _.
  apply moves_requireMission_bind; [typeclasses eauto|]. apply moves_requireOrchestrator_bind; [typeclasses eauto|].
  intros _ _. apply moves_guard; [typeclasses eauto|]. intros _.
  apply moves_requireStep_bind; [typeclasses eauto|]. intros f Hf _.
  pose proof (no_effect_placement env (w_mission w) f i w) as Hpl.
  apply moves_bind; [typeclasses eauto|by unfold moves; rewrite Hpl|]. intros p v Hp. rewrite Hp in Hpl. simpl in Hpl.
  subst v. apply moves_bind; [typeclasses eauto|by apply update_budget_bound|].
  intros f' v [Hsig _]%update_budget_standing.
  assert (Hf' : step_sig f' ∈ sig0) by (rewrite Hsig; by apply (row_sig w)).
  apply moves_bind_all; [typeclasses eauto|by apply apply_action_bound|]. intros. moves_auto.
Qed.

(** ** Lease recovery *)

(** Dispatching a row that is in flight already takes no more room. *)
Lemma redispatch_bound now s x r w :
  step_sig s ∈ sig0 → x ∈ w_steps w → st_id x = st_id s → running_step x = true → moves KB (dispatchStep env now s r) w.
Proof.
  intros Hs Hx He Hr Hb. pose proof (dispatchStep_rows env now s r w) as Hd.
  destruct (stamped_limits _ _ _ _ Hd) as [Hg Hp]. destruct Hd as [_ [Hrows|(token & room & Hrows)]].
  - by apply (bounded_same _ _ _ _ w).
  - set (st := stamp_attempt now token room s) in *.
    assert (Hb' := bounded_save_running sig0 spec0 maxp B Hids st x w Hs Hx He Hr Hb).
    by apply (bounded_same _ _ _ _ _ _ Hb').
Qed.

Lemma reconcile_expired_bound now s w :
  s ∈ w_steps w → running_step s = true → moves KB (reconcile_expired env now s) w.
Proof.
  intros Hs Hr. apply assuming. intros Hb. assert (Hsig : step_sig s ∈ sig0) by (by apply (row_sig w)).
  unfold reconcile_expired. cbv zeta. destruct (_ || _).
  { apply moves_bind_all; [typeclasses eauto|by apply finalize_bound|intros; moves_auto]. }
  set (revived := s<|st_lease_stale_since := None|>).
  apply moves_bind; [typeclasses eauto|by apply (bounded_save_running _ _ _ _ Hids revived s)|].
  intros u w1 [= _ <-]. apply moves_bind; [typeclasses eauto|moves_auto|]. intros u2 w2 [= _ <-].
  apply assuming. intros Hb2. apply moves_bind; [typeclasses eauto|apply unblock_bound|]. intros ks v Hu.
  assert (Hv : revived ∈ w_steps v).
  { change v with (snd (Ok (E := oerr) ks, v)). rewrite <- Hu. apply unblock_keeps; [by apply (bounded_ids sig0 spec0 maxp B Hids)| |].
    - apply (put_step_present revived). apply elem_of_map. exists s. done.
    - unfold auto_blocked_candidate. change (st_status revived) with (st_status s). unfold running_step in Hr.
      destruct (String.eqb (st_status s) "blocked") eqn:E; [|done]. apply String.eqb_eq in E. by rewrite E in Hr. }
  apply moves_try; [typeclasses eauto| |].
  - apply moves_bind_all; [typeclasses eauto|by apply (redispatch_bound now revived revived)|intros; moves_auto].
  - intros e v' _. apply assuming. intros Hb'. apply moves_requireStep_bind; [typeclasses eauto|]. intros c Hc _.
    apply moves_bind_all; [typeclasses eauto|apply finalize_bound; by apply (row_sig v')|intros; moves_auto].
Qed.

Lemma reconcile_bound now id g t w : moves KB (reconcileStaleLease env now id g t) w.
Proof.
  apply assuming. intros Hb. unfold reconcileStaleLease. apply moves_requireStep_bind; [typeclasses eauto|].
  intros s Hs _. destruct (negb (isInFlight (st_status s))) eqn:Er; [moves_auto|]. apply negb_false_iff in Er.
  assert (Hsave : ∀ s', step_sig s' = step_sig s → moves KB (save_step s') w).
  { intros s' He. apply (bounded_save_running _ _ _ _ Hids s' s); [rewrite He; by apply (row_sig w)|done| |done].
    unfold step_sig in He. congruence. }
  moves_auto; first [by apply Hsave|by apply reconcile_expired_bound].
Qed.

(** ** The life cycle *)

Lemma start_bound now a w : moves KB (startMission env now a) w.
Proof.
  unfold startMission, rolling_back, requireTeam, resolveRoster, assertNoSharedFolderConflict, prepareRuntimes.
  moves_auto. apply moves_loop; [typeclasses eauto|]. intros u s v _. unfold check_approvals. moves_auto.
Qed.

Lemma reopen_bound a actor w : moves KB (reopenMission env a actor) w.
Proof.
  unfold reopenMission, rolling_back, requireTeam, resolveRoster, assertNoSharedFolderConflict, prepareRuntimes.
  moves_auto.
  all: try (apply moves_loop; [typeclasses eauto|]; intros ? ? ? _; unfold check_approvals; moves_auto).
  all: apply moves_mission; intros m; by case_match.
Qed.

Lemma criteria_bound now k us w : moves KB (updateCriteria now k us) w.
Proof.
  unfold updateCriteria. moves_auto. apply moves_loop; [typeclasses eauto|]. intros m u v _.
  unfold update_criterion. moves_auto.
Qed.

(** Calls that leave the plan and the graph as they are. *)
Lemma exec_bound c w : keeps_plan c = true → moves KB (exec env c) w.
Proof.
  intros Hplan. destruct c; simpl; try (apply moves_ignore; [typeclasses eauto|]).
  - apply start_bound.
  - unfold pauseMission. moves_auto.
  - unfold resumeMission. moves_auto.
  - apply cancel_bound.
  - apply reopen_bound.
  - apply complete_bound.
  - apply criteria_bound.
  - unfold nudgeOrchestrator. moves_auto.
  - discriminate.
  - discriminate.
  - apply update_bound.
  - apply progress_bound.
  - apply report_bound.
  - apply decide_bound.
  - apply reconcile_bound.
  - apply fail_step_bound.
  - apply fail_mission_bound.
Qed.

End calls.

(** ** Every call *)

Section limited.
Context (env : Env) (Hdistinct : distinct_uuids env) (maxp B : Z) (HB : maxp <= B).

(** A well-formed mission with the limit [maxp] and at most [B] steps in flight. *)
Record limited (w : World) : Prop := {
  li_form : well_formed env w;
  li_par : ms_max_parallel_steps (w_mission w) = maxp;
  li_count : in_flight_count (w_steps w) <= B
}.

Definition keeps_limited (w w' : World) : Prop := limited w → limited w'.

#[export] Instance keeps_limited_preorder : PreOrder keeps_limited.
Proof. unfold keeps_limited. split; [intros w H; exact H|intros u v w H1 H2 H; auto]. Qed.

(** The rows of a limited world, as [bounded] fixes them. *)
Lemma limited_from {A} (m : M A) w :
  moves (keeps_form env) m w →
  (∀ sig0 spec0, NoDup (List.map fst sig0) → NoDup (List.map snd sig0) → covers spec0 (List.map snd sig0) →
     moves (keeps_bound sig0 spec0 maxp B) m w) →
  moves keeps_limited m w.
Proof using Type.
  intros Hf Hb [Hw Hp Hc]. pose proof (wf_identified env w Hw) as Hi.
  destruct (Hb (List.map step_sig (w_steps w)) (ms_graph_spec (w_mission w))) as [_ _ Hp' Hc'].
  - rewrite List.map_map. apply (id_ids env w Hi).
  - rewrite List.map_map. apply (id_keys env w Hi).
  - rewrite List.map_map. apply (wf_covers env w Hw).
  - by constructor.
  - constructor; [by apply Hf|done|done].
Qed.

Lemma limited_assuming {A} (m : M A) w : (limited w → moves keeps_limited m w) → moves keeps_limited m w.
Proof using Type. intros H Hl. by apply H. Qed.

Lemma limited_event t k ks w : moves keeps_limited (recordEvent t k ks) w.
Proof using Type. apply limited_from; [apply form_event|intros; apply moves_event]. Qed.

Lemma limited_pump now w : moves keeps_limited (pump env now) w.
Proof using HB. apply limited_from; [apply form_pump|intros; by apply pump_bound]. Qed.

Lemma limited_wake p f w : moves keeps_limited (wakeAfterPump env p f) w.
Proof using Type. apply limited_from; [apply form_wake|intros; by apply wake_bound]. Qed.
#[local] Hint Resolve limited_event limited_pump limited_wake : moves.

(** Saving a plan takes no step in flight: rows on record keep their status and
    new ones are pending. *)
Definition same_status (s s' : Step) : Prop := same_identity s s' ∧ st_status s' = st_status s.

#[local] Instance same_status_row : RowRelation same_status.
Proof.
  split; [split|].
  - done.
  - intros s t u [[I1 K1] L1] [[I2 K2] L2]. split; [split; congruence|congruence].
  - by intros s s' [H _].
Qed.

#[local] Instance same_status_births : Births same_status (λ s, st_status s = "pending").
Proof. intros s s' H [_ ->]. exact H. Qed.

Lemma grows_count l l' : grows same_status (λ s, st_status s = "pending") l l' → in_flight_count l' = in_flight_count l.
Proof using Type.
  intros (old & new & -> & HR & HB'). unfold in_flight_count. f_equal. rewrite lfilter_app, List.length_app.
  assert (Hnew : lfilter running_step new = []).
  { apply lfilter_nil. intros x Hx. unfold running_step. rewrite Forall_forall in HB'. by rewrite (HB' x Hx). }
  rewrite Hnew, Nat.add_0_r. clear -HR. induction HR as [|s s' l l' [_ Hs] _ IH]; [done|].
  assert (Hr : running_step s' = running_step s) by (unfold running_step; by rewrite Hs).
  rewrite !lfilter_cons, Hr. destruct (running_step s); simpl; congruence.
Qed.

Lemma accepted_count i w validated g saved w1 :
  identified env w → NoDup (List.map plan_key validated) → merged env w validated saved w1 →
  in_flight_count (w_steps (accepted i (w_mission w) g saved w1)) = in_flight_count (w_steps w).
Proof using Hdistinct.
  intros Hi Hnd Hmg. rewrite <- (mg_steps _ _ _ _ _ Hmg). apply grows_count.
  assert (Hi1 : identified env w1).
  { destruct Hi as [H1 H2 H3 H4 H5]. destruct Hmg as [M1 M2 M3 _ _ _].
    constructor; rewrite ?M1, ?M2; auto. intros s n Hs Hle. apply H4; [done|lia]. }
  apply (evolves_upsert_all env Hdistinct same_status (λ s, st_status s = "pending") saved w1); [apply Hmg| | |exact Hi1].
  - by rewrite (mg_keys _ _ _ _ _ Hmg).
  - apply (merged_savable env same_status (λ s, st_status s = "pending") w validated saved w1); [done| |by intros s []|done].
    intros x s [(Hsig & Hst & _) _ _]. unfold step_sig in Hsig. injection Hsig as H1 H2. split; [by split|done].
Qed.

Lemma limited_plan now k i w : moves keeps_limited (submitPlan env now k i) w.
Proof using Hdistinct HB.
  intros [Hw Hp Hc]. pose proof (wf_identified env w Hw) as Hi. pose proof (form_plan env now k i w Hdistinct Hw) as Hform.
  revert Hform. unfold moves.
  destruct (submitPlan_run env now k i w Hdistinct Hi) as [w1 Hs Hm Hn|validated g saved cr up w1 Hv Hg Hmg]; intros Hform.
  - constructor; [exact Hform|by rewrite Hm|by rewrite Hs].
  - pose proof (validatePlan_facts _ _ _ Hv) as (_ & Hnd & _).
    assert (Hl : limited (accepted i (w_mission w) g saved w1)).
    { constructor; [by apply (form_accepted env i w validated)| |].
      - change (ms_max_parallel_steps (w_mission w1) = maxp). by rewrite (mg_mission _ _ _ _ _ Hmg).
      - by rewrite (accepted_count i w validated g saved w1). }
    revert Hl. change (moves keeps_limited (plan_tail env now (w_mission w) g cr up) (accepted i (w_mission w) g saved w1)).
    unfold plan_tail. moves_auto.
Qed.

Lemma limited_patch now k p w : moves keeps_limited (patchGraph env now k p) w.
Proof using HB.
  apply limited_assuming. intros Hl.
  apply moves_patch; [typeclasses eauto|apply (identified_nonempty env), Hl|..]; [|intros; moves_auto..].
  intros g' He Hn [Hw Hp Hc]. constructor; [|done|done]. apply form_graph; [|done]. simpl. by intros h [= <-].
Qed.

Lemma limited_exec c w : moves keeps_limited (exec env c) w.
Proof using Hdistinct HB.
  destruct (keeps_plan c) eqn:Hk.
  - apply limited_from; [by apply form_exec|intros; by apply exec_bound].
  - destruct c; try discriminate Hk; simpl; apply moves_ignore;
      [typeclasses eauto|apply limited_plan|typeclasses eauto|apply limited_patch].
Qed.

Lemma limited_calls cs : ∀ w, limited w → limited (run_calls env cs w).
Proof using Hdistinct HB.
  induction cs as [|c cs IH]; intros w Hw; [exact Hw|]. cbn [run_calls foldl]. apply IH. by apply limited_exec.
Qed.
End limited.

(** C2: the parallel limit.  Along any history of calls — any interleaving of
    plans, results, heartbeats, decisions, step controls, retries, lease recovery,
    pauses and resumptions, with messages that fail to be delivered at any point —
    the number of steps in flight never exceeds the mission's limit (or the number
    it started from, if the limit was lowered under it). *)
Theorem parallel_limit env w cs :
  distinct_uuids env → well_formed env w →
  in_flight_count (w_steps (run_calls env cs w))
  <= Z.max (in_flight_count (w_steps w)) (ms_max_parallel_steps (w_mission w)).
Proof.
  intros Hd Hw. apply (li_count env (ms_max_parallel_steps (w_mission w))), limited_calls; [done|apply Z.le_max_r|].
  constructor; [done|done|apply Z.le_max_l].
Qed.

(** Four independent steps on four slots, with room for two: a resumption fills
    the room, a result makes room for the third step. *)
Definition slotted_step (key : string) (position : Z) : Step :=
  (sample_step key "pending" [] position)<|st_assignee_slot := Some key|>.
Definition four_steps : World :=
  sample_world "paused" [slotted_step "a" 0; slotted_step "b" 1; slotted_step "c" 2; slotted_step "d" 3].
Definition sample_result : ReportInput :=
  {| ri_status := report_done; ri_summary := "ok"; ri_artifacts := None; ri_verdict := None; ri_visit := None;
     ri_lease_token := Some (unary_uuid 1) |}.
Definition sample_history : list call := [c_resume 1 "acc"; c_report 2 "id-a" the_agent sample_result].

Example sample_history_statuses :
  List.map st_status (w_steps (run_calls fenced_env sample_history four_steps)) = ["done"; "dispatched"; "dispatched"; "pending"].
Proof. vm_compute. reflexivity. Qed.

Lemma parallel_limit_witness : in_flight_count (w_steps (run_calls fenced_env sample_history four_steps)) <= 2.
Proof.
  apply (parallel_limit fenced_env four_steps sample_history fenced_distinct).
  constructor; [by apply checked_rows_identified|exact I|by intros []].
Defined.
