(* ===== verification/Budget.v ===== *)
(** * The visit budget

    A graph mission may run its nodes [max_total_visits] times in all, and a loop
    target [max_visits] times.  What the engine keeps of the two. *)

From S2P Require Import Prelude JsStd Vocabulary Plan Graph GraphFacts GraphRun Roster Entities Logic Samples PostActions Engine.
From S2P Require Import Frame Limits Lifecycle StepEdit PlanIntake Reports Recovery Calls.
#[local] Open Scope Z_scope.

Definition spent (w : World) : Z := ms_total_visits (w_mission w).

Section budget.
Context (env : Env) (spec0 : option GraphSpec) (V : Z).
Context (HV : ∀ g, spec0 = Some g → gs_max_total_visits g <= V).

Definition in_budget (w : World) : Prop := ms_graph_spec (w_mission w) = spec0 ∧ spent w <= V.
Definition keeps_budget (w w' : World) : Prop := in_budget w → in_budget w'.

#[export] Instance keeps_budget_preorder : PreOrder keeps_budget.
Proof. unfold keeps_budget. split; [intros w H; exact H|intros u v w H1 H2 H; auto]. Qed.

Lemma budget_update f w :
  (∀ m, ms_graph_spec (f m) = ms_graph_spec m) → (∀ m, ms_total_visits (f m) = ms_total_visits m) →
  moves keeps_budget (update_mission f) w.
Proof. intros Hg Ht [Hs Hv]. split; cbn; [by rewrite Hg|unfold spent; cbn; by rewrite Ht]. Qed.

Lemma budget_post room body w : moves keeps_budget (postToRoom env room body) w.
Proof. apply moves_post_with; [typeclasses eauto|]. intros v l H. exact H. Qed.

#[local] Hint Extern 1 (moves keeps_budget (recordEvent _ _ _) _) => (let H := fresh in intros H; exact H) : moves.
#[local] Hint Extern 1 (moves keeps_budget (save_step _) _) => (let H := fresh in intros H; exact H) : moves.
#[local] Hint Extern 1 (moves keeps_budget (save_steps _) _) => (let H := fresh in intros H; exact H) : moves.
#[local] Hint Extern 1 (moves keeps_budget (fresh_uuid _) _) => (let H := fresh in intros H; exact H) : moves.
#[local] Hint Extern 2 (moves keeps_budget (update_mission _) _) => apply budget_update; reflexivity : moves.
#[local] Hint Resolve budget_post : moves.

(** Counting one more visit, when the budget is not spent. *)
Lemma bump_in_budget w :
  in_budget w → budget_spent (w_mission w) = false → ms_graph_spec (w_mission w) ≠ None → spent w + 1 <= V.
Proof.
  intros [Hs Hv] Hb Hn. unfold budget_spent, remainingVisitBudget in Hb.
  destruct (ms_graph_spec (w_mission w)) as [g|] eqn:Eg; [|done]. breflect. specialize (HV g (eq_sym Hs)).
  unfold spent in *. lia.
Qed.

Lemma dispatch_budget now s r w :
  budget_spent (w_mission w) = false → moves keeps_budget (dispatchStep env now s r) w.
Proof.
  intros Hb Hw. destruct (dispatchStep_rows env now s r w) as [[Hm|[Hn Hm]] _]; unfold in_budget, spent; rewrite Hm.
  - exact Hw.
  - split; [exact (proj1 Hw)|]. exact (bump_in_budget w Hw Hb Hn).
Qed.

Lemma gate_budget now s w :
  budget_spent (w_mission w) = false → moves keeps_budget (openConfirmGate now s) w.
Proof.
  intros Hb. unfold openConfirmGate. unfold get_mission, listSteps. do 2 apply moves_gets_bind.
  destruct (ms_graph_spec (w_mission w)) as [g|] eqn:Eg; [|moves_auto]. intros Hw.
  unfold mbind, M_bind, save_step, update_mission, recordEvent, modify. cbn -[open_gate].
  split; [exact (proj1 Hw)|]. apply (bump_in_budget w Hw Hb). by rewrite Eg.
Qed.

Lemma regular_budget now : ∀ l ps w, moves keeps_budget (pump_regular env now ps l) w.
Proof.
  induction l as [|s l IH]; intros ps w; cbn [pump_regular]; [moves_auto|]. apply moves_gets_bind. cbv beta.
  destruct (_ <=? 0); [moves_auto|]. destruct (budget_spent (w_mission w)) eqn:Eb; [moves_auto|].
  destruct (negb _); [unfold mark_ready; moves_auto; apply IH|]. cbv zeta.
  destruct (_ <=? _); [unfold mark_ready; moves_auto; apply IH|].
  apply moves_bind_all; [typeclasses eauto| |intros; apply IH]. unfold pump_dispatch, dispatch_failed.
  apply moves_try; [typeclasses eauto| |intros; moves_auto].
  apply moves_bind_all; [typeclasses eauto|by apply dispatch_budget|intros; moves_auto].
Qed.
#[local] Hint Resolve regular_budget : moves.

Lemma pump_budget now w : moves keeps_budget (pump env now) w.
Proof.
  unfold pump. moves_auto. apply moves_loop; [typeclasses eauto|]. intros ps s v _.
  unfold pump_gate. apply moves_gets_bind. destruct (budget_spent (w_mission v)) eqn:Eb; [moves_auto|].
  apply moves_bind_all; [typeclasses eauto|by apply gate_budget|intros; moves_auto].
Qed.

Lemma propagate_budget now w : moves keeps_budget (propagateBlocking now) w.
Proof. unfold propagateBlocking. moves_auto. Qed.

Lemma unblock_budget w : moves keeps_budget unblockAutoBlockedDependents w.
Proof. unfold unblockAutoBlockedDependents. moves_auto. Qed.

Lemma wake_budget pumped fallback w : moves keeps_budget (wakeAfterPump env pumped fallback) w.
Proof. unfold wakeAfterPump, decideWake. moves_auto. Qed.

Lemma transitions_budget step w : moves keeps_budget (applyGraphTransitions step) w.
Proof.
  unfold applyGraphTransitions. moves_auto. apply moves_loop; [typeclasses eauto|].
  intros [steps keys] e v _. unfold reenter. moves_auto.
Qed.
#[local] Hint Resolve pump_budget propagate_budget unblock_budget wake_budget transitions_budget : moves.

Lemma post_actions_budget now w : moves keeps_budget (run_post_actions env now) w.
Proof.
  pose proof (runPostActions_core env now w) as Hc. unfold moves, run_post_actions.
  destruct (runPostActions env now w None) as [[o v] n]. intros [Hs Hv].
  pose proof (f_equal (λ c, ms_graph_spec (co_mission c)) Hc) as Hg. pose proof (f_equal (λ c, ms_total_visits (co_mission c)) Hc) as Ht.
  unfold core_of in Hg, Ht. cbn in Hg, Ht. cbn [snd]. unfold in_budget, spent in *. by rewrite Hg, Ht.
Qed.
#[local] Hint Resolve post_actions_budget : moves.

Lemma settle_budget now step w : moves keeps_budget (settle env now step) w.
Proof. unfold settle. moves_auto. Qed.

Lemma after_failure_budget now step w : moves keeps_budget (after_failure env now step) w.
Proof. unfold after_failure. moves_auto. Qed.
#[local] Hint Resolve settle_budget after_failure_budget : moves.

(** Calls that neither change the plan nor recover a lease. *)
Definition ordinary (c : call) : bool := keeps_plan c && match c with c_reconcile _ _ _ _ => false | _ => true end.

Lemma lifecycle_budget c w :
  match c with
  | c_start _ _ | c_pause _ | c_resume _ _ | c_cancel _ _ _ | c_reopen _ _ | c_complete _ _ _ _
  | c_criteria _ _ _ | c_nudge _ _ => True
  | _ => False
  end → moves keeps_budget (exec env c) w.
Proof.
  destruct c; try done; intros _; simpl.
  - unfold startMission, rolling_back, requireTeam, resolveRoster, assertNoSharedFolderConflict, prepareRuntimes.
    moves_auto. apply moves_loop; [typeclasses eauto|]. intros u s v _. unfold check_approvals. moves_auto.
  - unfold pauseMission. moves_auto.
  - unfold resumeMission. moves_auto.
  - unfold cancelMission. moves_auto.
  - unfold reopenMission, rolling_back, requireTeam, resolveRoster, assertNoSharedFolderConflict, prepareRuntimes.
    moves_auto.
    all: try (apply moves_loop; [typeclasses eauto|]; intros ? ? ? _; unfold check_approvals; moves_auto).
    all: apply budget_update; intros m; by case_match.
  - unfold completeMission. moves_auto.
  - unfold updateCriteria. moves_auto. apply moves_loop; [typeclasses eauto|]. intros m u v _.
    unfold update_criterion. moves_auto.
  - unfold nudgeOrchestrator. moves_auto.
Qed.

Lemma exec_budget c w : ordinary c = true → moves keeps_budget (exec env c) w.
Proof.
  destruct c; intros Hc; try discriminate Hc; try (by apply lifecycle_budget); simpl;
    try (apply moves_ignore; [typeclasses eauto|]).
  - unfold updateStep, requested_placement, update_budget, apply_action, retry_place, refresh_runtime,
      assignmentFor, missionProjectId. moves_auto.
  - unfold reportProgress, requireFreshLease. moves_auto.
  - unfold reportStep, requireFreshLease, requireVisit. moves_auto.
  - unfold submitConfirmDecision, take_decision. moves_auto.
  - unfold failStepExternally. moves_auto.
  - unfold failMissionExternally. moves_auto.
Qed.

Lemma run_calls_budget cs : ∀ w, levery ordinary cs = true → in_budget w → in_budget (run_calls env cs w).
Proof.
  induction cs as [|c cs IH]; intros w Hcs Hb; [done|]. cbn [run_calls foldl levery forallb] in *.
  apply andb_true_iff in Hcs as [Hc Hcs]. apply IH; [done|]. by apply exec_budget.
Qed.
End budget.

(** C18: the visit budget.  Along any history of ordinary calls — every call but a
    change of plan and lease recovery — a graph mission's visits never exceed its
    [max_total_visits] (or the number it started from), and its graph stays. *)
Theorem visit_budget env w cs g :
  ms_graph_spec (w_mission w) = Some g → levery ordinary cs = true →
  ms_graph_spec (w_mission (run_calls env cs w)) = Some g ∧
  spent (run_calls env cs w) <= Z.max (spent w) (gs_max_total_visits g).
Proof.
  intros Hg Hcs.
  apply (run_calls_budget env (Some g) (Z.max (spent w) (gs_max_total_visits g))); [|exact Hcs|].
  - intros g' [= ->]. apply Z.le_max_r.
  - split; [exact Hg|apply Z.le_max_l].
Qed.

(** ** Lease recovery is outside the budget *)

Definition spent_graph : GraphSpec :=
  {| gs_version := 1; gs_nodes := [{| gn_key := "a"; gn_kind := nk_task; gn_join := join_all; gn_max_visits := 1 |}];
     gs_edges := []; gs_entry := ["a"]; gs_terminal := ["a"]; gs_max_total_visits := 1 |}.

(** A mission on its last visit, whose worker went silent. *)
Definition silent_world : World :=
  (sample_world "running"
    [(sample_step "a" "running" [] 0)<|st_visit := 1|><|st_attempt := 1|><|st_started_at := Some 0|>
       <|st_lease_stale_since := Some 0|>])
    <|w_mission ::= λ m, m<|ms_graph_enabled := true|><|ms_graph_spec := Some spent_graph|><|ms_total_visits := 1|>|>.

(** The budget is spent, and the redispatch of a recovered lease spends more: the
    pump checks [remainingVisitBudget] before it dispatches, lease recovery
    dispatches directly. *)
Lemma lease_recovery_exceeds_budget :
  spent silent_world = gs_max_total_visits spent_graph ∧
  spent (after sample_env (c_reconcile 600000 "id-a" 60000 1) silent_world) = gs_max_total_visits spent_graph + 1.
Proof. split; vm_compute; reflexivity. Qed.

Lemma visit_budget_witness :
  spent (run_calls sample_env [c_resume 1 "acc"; c_report 2 "id-a" the_agent
    {| ri_status := report_done; ri_summary := "ok"; ri_artifacts := None; ri_verdict := None;
       ri_visit := Some (JInt 1); ri_lease_token := None |}]
    (silent_world<|w_mission ::= λ m, m<|ms_status := "paused"|><|ms_plan_version := 1|>|>)) <= 1.
Proof.
  exact (proj2 (visit_budget sample_env (silent_world<|w_mission ::= λ m, m<|ms_status := "paused"|><|ms_plan_version := 1|>|>)
    [c_resume 1 "acc"; c_report 2 "id-a" the_agent
    {| ri_status := report_done; ri_summary := "ok"; ri_artifacts := None; ri_verdict := None;
       ri_visit := Some (JInt 1); ri_lease_token := None |}] spent_graph eq_refl eq_refl)).
Defined.
