(* ===== verification/Concurrent.v ===== *)
(** * Interleaved requests over one database

    A service that awaits its database between statements is a program whose
    every awaited query is one atomic step; other requests, and whatever else
    writes the same tables, run between two steps.  [safe] is a rely-guarantee
    judgement on such programs, and [pool_safe] carries it to any number of
    them running in any order. *)

From S2P Require Import Prelude.

Section programs.
Context {Db Job : Type}.

(** One awaited query: the rows it leaves, and the rest of the program as a
    function of the database the query ran on.  [fork] starts a background job
    the program does not wait for. *)
Inductive prog (A : Type) : Type :=
  | done_ (a : A)
  | query (upd : Db → Db) (k : Db → prog A)
  | fork (j : Job) (k : prog A).
Arguments done_ {A} a.
Arguments query {A} upd k.
Arguments fork {A} j k.

Fixpoint prog_bind {A B} (k : A → prog B) (p : prog A) : prog B :=
  match p with
  | done_ a => k a
  | query upd k' => query upd (λ db, prog_bind k (k' db))
  | fork j p' => fork j (prog_bind k p')
  end.

(** ** Rely and guarantee *)

(** [G] is what every query of every program does to the database, and what
    a program may rely on between two of its own queries. *)
Context (G : Db → Db → Prop) `{!PreOrder G}.

(** From [db], under interference within [G], the program's queries stay within
    [G] and its result satisfies [Q]. *)
Fixpoint safe {A} (Q : A → Db → Prop) (p : prog A) (db : Db) : Prop :=
  match p with
  | done_ a => ∀ db', G db db' → Q a db'
  | query upd k => ∀ db', G db db' → G db' (upd db') ∧ safe Q (k db') (upd db')
  | fork _ p' => safe Q p' db
  end.

Lemma safe_mono {A} (Q : A → Db → Prop) p db db' : G db db' → safe Q p db → safe Q p db'.
Proof using PreOrder0.
  revert db db'. induction p as [a|upd k IH|j p IH]; simpl; intros db db' HG H; [| |by eapply IH].
  - intros d Hd. apply H. by transitivity db'.
  - intros d Hd. apply H. by transitivity db'.
Qed.

Lemma safe_weaken {A} (P Q : A → Db → Prop) p db :
  (∀ a d, P a d → Q a d) → safe P p db → safe Q p db.
Proof.
  intros HPQ. revert db. induction p as [a|upd k IH|j p IH]; simpl; intros db H; [| |by apply IH].
  - intros d Hd. by apply HPQ, H.
  - intros d Hd. destruct (H d Hd) as [? ?]. split; [done|by apply IH].
Qed.

Lemma safe_bind {A B} (P : A → Db → Prop) (Q : B → Db → Prop) p (k : A → prog B) db :
  safe P p db → (∀ a d, G db d → P a d → safe Q (k a) d) → safe Q (prog_bind k p) db.
Proof using PreOrder0.
  revert db. induction p as [a|upd k' IH|j p IH]; simpl; intros db Hp Hk.
  - apply Hk; [reflexivity|]. apply Hp. reflexivity.
  - intros d Hd. destruct (Hp d Hd) as [Hg Hs]. split; [done|]. apply IH; [exact Hs|].
    intros a d' Hd' Ha. apply Hk; [|exact Ha]. transitivity d; [done|]. by transitivity (upd d).
  - by apply IH.
Qed.

(** ** Pools *)

Context {R : Type} (code : Job → prog R) (others : Db → Db → Prop).

(** A pool: the database, and the programs running over it. *)
Definition Pool : Type := Db * list (prog R).

Inductive pool_step : Pool → Pool → Prop :=
  | ps_query db ts i upd k :
      ts !! i = Some (query upd k) → pool_step (db, ts) (upd db, <[i := k db]> ts)
  | ps_fork db ts i j p :
      ts !! i = Some (fork j p) → pool_step (db, ts) (db, <[i := p]> ts ++ [code j])
  | ps_others db db' ts : others db db' → pool_step (db, ts) (db', ts).

(** [Q i] is what the [i]-th program promises of its result. *)
Definition pool_safe (Q : nat → R → Db → Prop) (s : Pool) : Prop :=
  ∀ i p, s.2 !! i = Some p → safe (Q i) p s.1.

(** The database invariant the background jobs may count on. *)
Context (I : Db → Prop).

Lemma pool_safe_step Q s s' :
  (∀ db db', others db db' → G db db') → (∀ i j db, I db → safe (Q i) (code j) db) →
  I s.1 → pool_safe Q s → pool_step s s' → G s.1 s'.1 ∧ pool_safe Q s'.
Proof using PreOrder0.
  intros Ho Hj HI Hs Hstep. destruct Hstep as [db ts i upd k Hi|db ts i j p Hi|db db' ts He]; simpl in *.
  - destruct (Hs i _ Hi db ltac:(reflexivity)) as [Hg Hk]. split; [done|]. intros n p Hn. simpl in *.
    destruct (decide (n = i)) as [->|Hne].
    + rewrite list_lookup_insert_eq in Hn by (by eapply lookup_lt_Some). by injection Hn as <-.
    + rewrite list_lookup_insert_ne in Hn by done. eapply safe_mono; [exact Hg|]. by apply Hs.
  - split; [reflexivity|]. intros n q Hn. simpl in *. apply lookup_app_Some in Hn as [Hn|[_ Hn]].
    + destruct (decide (n = i)) as [->|Hne].
      * rewrite list_lookup_insert_eq in Hn by (by eapply lookup_lt_Some). injection Hn as <-. exact (Hs i _ Hi).
      * rewrite list_lookup_insert_ne in Hn by done. by apply Hs.
    + apply list_lookup_singleton_Some in Hn as [_ <-]. by apply Hj.
  - split; [by apply Ho|]. intros n p Hn. eapply safe_mono; [by apply Ho|]. by apply Hs.
Qed.

(** Whatever the interleaving, the database evolves within [G] and a program
    that has returned holds its promise. *)
Lemma pool_safe_run Q s s' :
  (∀ db db', others db db' → G db db') → (∀ db db', I db → G db db' → I db') →
  (∀ i j db, I db → safe (Q i) (code j) db) →
  I s.1 → pool_safe Q s → rtc pool_step s s' → G s.1 s'.1 ∧ pool_safe Q s'.
Proof using PreOrder0.
  intros Ho HIG Hj HI Hs Hrun. induction Hrun as [s|s t u Hst _ IH]; [split; [reflexivity|done]|].
  destruct (pool_safe_step Q s t Ho Hj HI Hs Hst) as [Hg Ht].
  destruct (IH (HIG _ _ HI Hg) Ht) as [Hg' Hu].
  split; [by transitivity t.1|done].
Qed.

Lemma pool_result Q s i a : pool_safe Q s → s.2 !! i = Some (done_ a) → Q i a s.1.
Proof using PreOrder0. intros Hs Hi. apply (Hs i _ Hi). reflexivity. Qed.
(** The pool after the programs took one step each in the order of a schedule. *)
Fixpoint run_schedule (schedule : list nat) (s : Pool) : Pool :=
  match schedule with
  | [] => s
  | i :: rest =>
      run_schedule rest
        match s.2 !! i with
        | Some (query upd k) => (upd s.1, <[i := k s.1]> s.2)
        | Some (fork j p) => (s.1, <[i := p]> s.2 ++ [code j])
        | _ => s
        end
  end.

Lemma run_schedule_steps schedule s : rtc pool_step s (run_schedule schedule s).
Proof.
  revert s. induction schedule as [|i rest IH]; intros s; simpl; [reflexivity|].
  destruct (s.2 !! i) as [[a|upd k|j p]|] eqn:E; [apply IH| | |apply IH].
  - eapply rtc_l; [|apply IH]. destruct s as [db ts]. by apply ps_query.
  - eapply rtc_l; [|apply IH]. destruct s as [db ts]. by apply ps_fork.
Qed.
End programs.
Arguments prog : clear implicits.
Arguments done_ {Db Job A} a.
Arguments query {Db Job A} upd k.
Arguments fork {Db Job A} j k.

#[export] Instance prog_ret Db Job : MRet (prog Db Job) := λ A a, done_ a.
#[export] Instance prog_bind_inst Db Job : MBind (prog Db Job) := λ A B k p, prog_bind k p.
