(* ===== verification/Approvals.v ===== *)
(** * Tool approvals: the rules

    [orchestration-approval.ts]: who answers a runtime's request to use a tool,
    what an answer does to the row, and what the waiting host reads of it.  The
    vocabularies are stored as strings, as in the table. *)

From S2P Require Import Prelude JsStd Roster Entities.
From Stdlib Require Import QArith Qround.
From stdpp Require Import pretty.
#[local] Open Scope Z_scope.

(** ** Vocabularies *)

Definition APPROVAL_STATUSES : list string := ["pending"; "approved"; "denied"; "cancelled"].
Definition APPROVAL_DECISIONS : list string := ["allow"; "allow_session"; "deny"].
Definition ORCHESTRATOR_APPROVAL_DECISIONS : list string := APPROVAL_DECISIONS ++ ["escalate"].

Definition APPROVAL_WAIT_MAX_MS : Z := 25000.
Definition APPROVAL_REQUESTER_GONE_MS : Z := 180000.
Definition APPROVAL_INPUT_MAX_CHARS : Z := 8000.

Definition isApprovalDecision (v : jsval) : bool :=
  match v with JStr s => includes APPROVAL_DECISIONS s | _ => false end.
Definition isOrchestratorApprovalDecision (v : jsval) : bool :=
  match v with JStr s => includes ORCHESTRATOR_APPROVAL_DECISIONS s | _ => false end.

(** [raw] is [Number(env.ORCHESTRATION_APPROVAL_ESCALATE_MS)] where it is finite. *)
Definition orchestratorAnswerWindowMs (raw : option Q) : Z :=
  match raw with
  | Some q => if (0 <? Qnum q) then Qfloor q else 600000
  | None => 600000
  end.

Inductive ApprovalRequesterRole : Type := requester_member | requester_orchestrator.
Definition role_string (r : ApprovalRequesterRole) : string :=
  match r with requester_member => "member" | requester_orchestrator => "orchestrator" end.

Inductive ApprovalRouteReason : Type :=
  | orchestrator_trusted
  | orchestrator_not_trusted
  | orchestrator_request
  | orchestrator_escalated
  | orchestrator_timeout
  | orchestrator_unreachable.

Definition reason_string (r : ApprovalRouteReason) : string :=
  match r with
  | orchestrator_trusted => "orchestrator_trusted"
  | orchestrator_not_trusted => "orchestrator_not_trusted"
  | orchestrator_request => "orchestrator_request"
  | orchestrator_escalated => "orchestrator_escalated"
  | orchestrator_timeout => "orchestrator_timeout"
  | orchestrator_unreachable => "orchestrator_unreachable"
  end.

(** ** Routing *)

(** [x?.runtime_config?.permission_mode] *)
Definition permission_mode (s : TeamSlotSpec) : string := rc_permission_mode (ss_runtime_config s).

Definition orchestratorTrust (m : Mission) : option string :=
  let from_roster := permission_mode ∘ rs_spec ∘ ro_orchestrator <$> ms_runtime_roster m in
  match ms_orchestrator_spec m with
  | Some spec =>
      let fromSpec := permission_mode (ta_slot spec) in
      if truthy fromSpec then Some fromSpec else from_roster
  | None => from_roster
  end.

Definition orchestratorMayApprove (m : Mission) : bool :=
  match orchestratorTrust m with Some t => String.eqb t "trusted" | None => false end.

Definition approvalRouteFor (role : ApprovalRequesterRole) (orchestratorTrusted : bool)
    : string * ApprovalRouteReason :=
  match role with
  | requester_orchestrator => ("user", orchestrator_request)
  | requester_member =>
      if orchestratorTrusted then ("orchestrator", orchestrator_trusted)
      else ("user", orchestrator_not_trusted)
  end.

Definition statusForDecision (decision : string) : string :=
  if String.eqb decision "deny" then "denied" else "approved".

(** [stringify] is [JSON.stringify(v, null, 2)], or [None] where it throws.  The
    ellipsis of the source is outside the modelled code units: three dots here. *)
Definition summarizeApprovalInput (stringify : jsval → option string) (v : jsval) : string :=
  if is_nullish v then ""
  else
    let text := match v with JStr s => s | _ => default (js_String v) (stringify v) end in
    if slength text <=? APPROVAL_INPUT_MAX_CHARS then text
    else slice APPROVAL_INPUT_MAX_CHARS text +:+ chr 10 +:+ "... ("
           +:+ pretty (slength text - APPROVAL_INPUT_MAX_CHARS) +:+ " more characters)".

(** ** The row *)

Record Approval := {
  ap_id : string;
  ap_account_id : string;
  ap_mission_id : string;
  ap_step_id : option string;
  ap_step_key : option string;
  ap_room_id : string;
  ap_requester_role : string;
  ap_requester_agent_id : string;
  ap_requester_name : string;
  ap_request_key : string;
  ap_tool_name : string;
  ap_title : string;
  ap_description : string;
  ap_input : string;
  ap_can_allow_session : bool;
  ap_status : string;
  ap_route : string;
  ap_route_reason : string;
  ap_routed_at : Z;
  ap_decision : option string;
  ap_decided_by_type : option string;
  ap_decided_by : option string;
  ap_decided_by_name : string;
  ap_decision_note : string;
  ap_decided_at : option Z;
  ap_last_polled_at : Z;
  ap_user_notified_at : option Z
}.

Definition is_pending (a : Approval) : bool := String.eqb (ap_status a) "pending".
Definition routed_to (route : string) (a : Approval) : bool := String.eqb (ap_route a) route.

(** What the waiting Runtime Host reads. *)
Record ApprovalWireView := {
  wv_id : option string;
  wv_status : string;
  wv_route : option string;
  wv_decision : option string;
  wv_message : string
}.

Definition approvalMessage (status : string) (a : Approval) : string :=
  let who :=
    match ap_decided_by_type a with
    | Some t =>
        if String.eqb t "orchestrator" then "the mission orchestrator"
        else if String.eqb t "user" then
          (if truthy (ap_decided_by_name a) then "the user (" +:+ ap_decided_by_name a +:+ ")" else "the user")
        else "AWB"
    | None => "AWB"
    end in
  let note := trim (ap_decision_note a) in
  if String.eqb status "denied" then
    "Denied by " +:+ who +:+ "." +:+ (if truthy note then " Reason: " +:+ note else "")
      +:+ " Do not retry the same action; find another way or report the step as blocked."
  else if String.eqb status "cancelled" then
    "The approval request was withdrawn" +:+ (if truthy note then ": " +:+ note else "")
      +:+ ". Do not retry the same action without a new reason."
  else if String.eqb status "approved" then
    "Approved by " +:+ who +:+ "." +:+ (if truthy note then " Note: " +:+ note else "")
  else "".

Definition approvalWireView (a : Approval) : ApprovalWireView :=
  let status := if includes APPROVAL_STATUSES (ap_status a) then ap_status a else "pending" in
  {| wv_id := Some (ap_id a);
     wv_status := status;
     wv_route := if routed_to "orchestrator" a || routed_to "user" a then Some (ap_route a) else None;
     wv_decision := d ← ap_decision a; if includes APPROVAL_DECISIONS d then Some d else None;
     wv_message := approvalMessage status a |}.

(** A request the service refuses without a row. *)
Definition refusal (reason : string) : ApprovalWireView :=
  {| wv_id := None; wv_status := "cancelled"; wv_route := None; wv_decision := None;
     wv_message := "Not asked: " +:+ reason +:+ ". Do not retry the same action." |}.

(** [str(value, max)] *)
Definition bounded_str (max : Z) (v : jsval) : string :=
  match v with JStr s => slice max (trim s) | _ => "" end.
