(* ===== verification/Tables.v ===== *)
(** * The shared tables and the programs over them

    The services of the orchestration module — approvals, confirm notices, the
    reaper — read and write the same tables.  A service method is a program whose
    every awaited query is one step; it ends in a value or in the error it
    throws, and may leave jobs behind. *)

From S2P Require Import Prelude JsStd Vocabulary Roster Entities Engine Concurrent Approvals.
#[local] Open Scope Z_scope.

(** ** The tables *)

(** The columns of a step row that only the confirm notices read and write,
    kept beside the row. *)
Record Marks := {
  mk_notified_visit : option Z;
  mk_notified_at : option Z;
  mk_reminded_visit : option Z
}.
Definition no_marks : Marks := {| mk_notified_visit := None; mk_notified_at := None; mk_reminded_visit := None |}.

Inductive NoticeKind : Type := gate_notice | reminder_notice.
#[export] Instance NoticeKind_eq_dec : EqDecision NoticeKind.
Proof. solve_decision. Defined.

(** A pass of a gate whose notice someone has claimed: the mission, the step and
    the visit. *)
Record Claim := { cl_kind : NoticeKind; cl_mission : string; cl_step : string; cl_visit : Z }.

Record Adb := {
  ad_approvals : list Approval;
  (** The missions, each with its steps, timeline and rooms. *)
  ad_worlds : list World;
  (** By mission and step. *)
  ad_marks : gmap (string * string) Marks;
  (** The claims that affected a row so far, oldest first. *)
  ad_claimed : list Claim;
  (** What [resolveRecipients] answers for a mission: its owner, or the admins; [None] where
      their lookup throws. *)
  ad_recipients : string → option (list string);
  (** The notices handed to the channels so far, with the users they went to. *)
  ad_sent : list (Claim * list string);
  ad_now : Z;
  ad_nonce : nat
}.

Inductive awhy : Type :=
  | fields_required
  | not_a_mission_room
  | account_scope_denied
  | no_such_mission
  | no_such_step
  | runtime_key_asks_for_itself
  | step_of_another_runtime (key : string)
  | not_the_orchestrator_room
  | runs_on_another_host
  | approval_not_found
  | belongs_to_another_runtime
  | agent_session_required
  | bad_decision
  | not_this_orchestrator
  | slot_not_trusted
  | already_settled (status : string)
  | with_the_user
  | changed_meanwhile
  | storage_failed
  (** An error of the runner, passed on. *)
  | engine_error (y : why).

Record aerr := { ae_code : Z; ae_why : awhy }.

(** ** Programs

    A program of a service ends in a value or in the error it throws; the jobs
    it may leave behind are notices: about an approval request, or about a gate
    of a mission. *)
Inductive Job : Type :=
  | j_approval (id : string)
  | j_confirm (mission : string) (gate : Step).

Definition P (A : Type) : Type := prog Adb Job (res aerr A).

#[export] Instance P_ret : MRet P := λ A a, done_ (Ok a).
#[export] Instance P_bind : MBind P := λ A B k p,
  prog_bind (λ r, match r with Ok a => k a | Err e => done_ (Err e) end) p.

Definition refuse {A} (code : Z) (y : awhy) : P A := done_ (Err {| ae_code := code; ae_why := y |}).
Definition refuse_if (b : bool) (code : Z) (y : awhy) : P () := if b then refuse code y else mret tt.
(** A query that answers [f], computed on the tables it ran on. *)
Definition read {A} (f : Adb → A) : P A := query id (λ db, done_ (Ok (f db))).
Definition write {A} (upd : Adb → Adb) (f : Adb → A) : P A := query upd (λ db, done_ (Ok (f db))).
Definition new_Date : P Z := read ad_now.
Definition background (job : Job) : P () := fork job (done_ (Ok tt)).

Fixpoint each {A S} (body : S → A → P S) (s : S) (l : list A) : P S :=
  match l with
  | [] => mret s
  | a :: l => s' ← body s a; each body s' l
  end.

(** ** Queries *)

Definition find_mission (id : string) (db : Adb) : option Mission :=
  List.find (λ m, String.eqb (ms_id m) id) (List.map w_mission (ad_worlds db)).

(** A step by id, with the id of its mission. *)
Definition find_any_step (id : string) (db : Adb) : option (string * Step) :=
  List.find (λ e, String.eqb (st_id e.2) id)
    (List.flat_map (λ w, List.map (λ s, (ms_id (w_mission w), s)) (w_steps w)) (ad_worlds db)).

Definition on_mission (id : string) (f : World → World) (db : Adb) : Adb :=
  db<|ad_worlds ::= List.map (λ w, if String.eqb (ms_id (w_mission w)) id then f w else w)|>.

(** [missions.recordEvent] *)
Definition record (mission_id type : string) (key : option string) : P () :=
  write (on_mission mission_id (λ w, snd (recordEvent type key [] w))) (λ _, tt).
