(* ===== verification/ConfirmNotify.v ===== *)
(** * Notices about confirm gates

    [orchestration-confirm-notify.service.ts], and the duty of the reaper that
    calls it: a pass of a gate is announced once when it opens and once more when
    nobody has answered for long.  Who announces is decided by one conditional
    UPDATE, so that two servers do not both send.  What the channels deliver is
    outside: a sent notice is one that was handed to them, with the users it is for,
    and leaves a line in the timeline.  Who they are is looked up when it is sent, and
    the look-up may fail: a notice whose pass was claimed is then lost. *)

From S2P Require Import Prelude JsStd Vocabulary Plan Graph GraphRun Roster Entities Engine Concurrent Tables.
#[local] Open Scope Z_scope.

(** ** Claims *)

Definition marks_of (mission step : string) (db : Adb) : Marks := default no_marks (ad_marks db !! (mission, step)).

Definition mark_of (kind : NoticeKind) (m : Marks) : option Z :=
  match kind with gate_notice => mk_notified_visit m | reminder_notice => mk_reminded_visit m end.

(** The row an UPDATE by id reaches. *)
Definition step_rows (mission step : string) (db : Adb) : list Step :=
  List.flat_map (λ w, if String.eqb (ms_id (w_mission w)) mission
                      then lfilter (λ s, String.eqb (st_id s) step) (w_steps w) else []) (ad_worlds db).

(** [column IS NULL OR column <> :visit] *)
Definition unmarked (kind : NoticeKind) (visit : Z) (m : Marks) : bool :=
  match mark_of kind m with Some v => negb (v =? visit) | None => true end.

(** [WHERE id AND visit = :visit AND status = 'awaiting_user' AND (column ...)] *)
Definition claim_matches (kind : NoticeKind) (mission step : string) (visit : Z) (db : Adb) : bool :=
  lsome (λ s, (st_visit s =? visit) && isAwaitingUser (st_status s)) (step_rows mission step db)
  && unmarked kind visit (marks_of mission step db).

(** The columns a claim sets. *)
Definition claim_patch (kind : NoticeKind) (now visit : Z) (m : Marks) : Marks :=
  match kind with
  | gate_notice => m<|mk_notified_visit := Some visit|><|mk_notified_at := Some now|>
  | reminder_notice => m<|mk_reminded_visit := Some visit|>
  end.

Definition claim_row (kind : NoticeKind) (now : Z) (mission step : string) (visit : Z) (db : Adb) : Adb :=
  if claim_matches kind mission step visit db then
    db<|ad_marks ::= <[(mission, step) := claim_patch kind now visit (marks_of mission step db)]>|>
      <|ad_claimed ::= λ l, l ++ [{| cl_kind := kind; cl_mission := mission; cl_step := step; cl_visit := visit |}]|>
  else db.

Definition claim (kind : NoticeKind) (mission step : string) (visit : Z) : P bool :=
  now ← new_Date;
  write (claim_row kind now mission step visit) (claim_matches kind mission step visit).

Definition claimGateNotice : string → string → Z → P bool := claim gate_notice.
Definition claimReminder : string → string → Z → P bool := claim reminder_notice.

(** ** Sending *)

(** The pass of the step that a notice is about. *)
Definition notice_of (kind : NoticeKind) (mission : string) (s : Step) : Claim :=
  {| cl_kind := kind; cl_mission := mission; cl_step := st_id s; cl_visit := st_visit s |}.

(** [dispatchForUser] for every recipient: from here on the notice is with the channels. *)
Definition hand_over (c : Claim) (users : list string) (db : Adb) : Adb := db<|ad_sent ::= λ l, l ++ [(c, users)]|>.

(** [send]: a failing lookup of the recipients is logged, and nothing is sent. *)
Definition send (kind : NoticeKind) (mission : string) (s : Step) : P () :=
  recipients ← read (λ db, ad_recipients db mission);
  match recipients with
  | None => mret tt
  | Some users =>
      write (hand_over (notice_of kind mission s) users) (λ _, tt);;
      record mission "confirm_notified" (Some (st_key s))
  end.

Definition scheduleGateNotice (mission : string) (gate : Step) : P () := background (j_confirm mission gate).

(** The end of [openConfirmGate], once the gate is open. *)
Definition announceGate (mission : string) (s : Step) : P () :=
  won ← claimGateNotice mission (st_id s) (st_visit s);
  if won : bool then scheduleGateNotice mission s else mret tt.

(** ** Reminders *)

Definition CONFIRM_REMINDERS_PER_SWEEP : nat := 25.

(** [COALESCE(step.confirm_notified_at, step.dispatched_at)] *)
Definition anchor (db : Adb) (e : string * Step) : option Z :=
  match mk_notified_at (marks_of e.1 (st_id e.2) db) with
  | Some t => Some t
  | None => st_dispatched_at e.2
  end.

(** The steps joined with their missions. *)
Definition step_table (db : Adb) : list (Mission * Step) :=
  List.flat_map (λ w, List.map (λ s, (w_mission w, s)) (w_steps w)) (ad_worlds db).

(** A gate whose pass nobody has been reminded of, [cutoff] or longer after it
    was announced. *)
Definition reminder_due (cutoff : Z) (db : Adb) (e : Mission * Step) : bool :=
  isAwaitingUser (st_status e.2) && String.eqb (ms_status e.1) "running"
  && unmarked reminder_notice (st_visit e.2) (marks_of (ms_id e.1) (st_id e.2) db)
  && match anchor db (ms_id e.1, e.2) with Some t => t <=? cutoff | None => false end.

(** Oldest first, so that none is passed over for good. *)
Definition due_reminders (cutoff : Z) (db : Adb) : list (string * Step) :=
  sort_by (λ e, default 0 (anchor db e))
    (List.map (λ e, (ms_id e.1, e.2)) (lfilter (reminder_due cutoff db) (step_table db))).

Definition remind (e : string * Step) : P bool :=
  won ← claimReminder e.1 (st_id e.2) (st_visit e.2);
  if negb won then mret false else send reminder_notice e.1 e.2;; mret true.

(** [afterMs] is the configured wait; 0 turns reminders off. *)
Definition remindAwaitingConfirm (afterMs now : Z) : P Z :=
  if afterMs <=? 0 then mret 0
  else
    candidates ← read (λ db, take CONFIRM_REMINDERS_PER_SWEEP (due_reminders (now - afterMs) db));
    match candidates with
    | [] => mret 0
    | _ =>
        missions ← read (λ db, lfilter (includes (List.map fst candidates)) (List.map (ms_id ∘ w_mission) (ad_worlds db)));
        each (λ n e,
            if negb (includes missions e.1) then mret n
            else sent ← remind e; mret (if sent : bool then n + 1 else n))
          0 candidates
    end.
