(* ===== verification/ApprovalService.v ===== *)
(** * Tool approvals: the service

    [orchestration-approval.service.ts] as programs over its tables: every
    awaited query is one step, so requests, polls, answers and sweeps interleave
    between any two of them, on one server or on several. *)

From S2P Require Import Prelude JsStd Vocabulary Roster Entities Engine Concurrent Approvals Tables ConfirmNotify.
From Stdlib Require Import QArith.
#[local] Open Scope Z_scope.

(** ** What callers present *)

Record Room := {
  cr_id : string;
  cr_account_id : string;
  cr_orchestration_mission_id : option string;
  cr_orchestration_step_id : option string
}.

Record ApprovalHostCaller := {
  hc_accountId : option string;
  hc_runtimeKey : option string;
  hc_hostId : option string
}.

Record ApprovalRequestInput := {
  ai_room_id : jsval;
  ai_agent_id : jsval;
  ai_request_key : jsval;
  ai_tool_name : jsval;
  ai_title : jsval;
  ai_description : jsval;
  ai_input : jsval;
  ai_can_allow_session : jsval
}.

(** ** Queries *)

Definition find_approval (id : string) (db : Adb) : option Approval :=
  List.find (λ a, String.eqb (ap_id a) id) (ad_approvals db).

Definition same_request (agent key : string) (a : Approval) : bool :=
  String.eqb (ap_requester_agent_id a) agent && String.eqb (ap_request_key a) key.
Definition find_request (agent key : string) (db : Adb) : option Approval :=
  List.find (same_request agent key) (ad_approvals db).

(** [UPDATE ... SET patch WHERE id AND status = 'pending' (AND route)]: whether a
    row was affected. *)
Definition cas_matches (id : string) (route : option string) (a : Approval) : bool :=
  String.eqb (ap_id a) id && is_pending a
  && match route with Some r => routed_to r a | None => true end.

Definition update_approvals (where_ : Approval → bool) (patch : Approval → Approval) (db : Adb) : Adb :=
  db<|ad_approvals ::= List.map (λ a, if where_ a then patch a else a)|>.

Definition update_where (where_ : Approval → bool) (patch : Approval → Approval) : P bool :=
  write (update_approvals where_ patch) (λ db, lsome where_ (ad_approvals db)).

Definition compareAndSet (id : string) (patch : Approval → Approval) (route : option string) : P bool :=
  update_where (cas_matches id route) patch.

(** [repo.save(repo.create(row))], which the unique index refuses. *)
Definition request_taken (row : string → Approval) (db : Adb) : bool :=
  lsome (same_request (ap_requester_agent_id (row "")) (ap_request_key (row ""))) (ad_approvals db).

Definition insert_row (row : string → Approval) (uuid : nat → string) (db : Adb) : Adb :=
  if request_taken row db then db
  else db<|ad_approvals ::= λ l, l ++ [row (uuid (ad_nonce db))]|><|ad_nonce ::= S|>.

Definition insert_approval (row : string → Approval) (uuid : nat → string) : P (option Approval) :=
  write (insert_row row uuid)
    (λ db, if request_taken row db then None else Some (row (uuid (ad_nonce db)))).

Definition present (s : option string) : bool := match s with Some x => truthy x | None => false end.

(** [held && held !== shown] *)
Definition differs (held : option string) (shown : string) : bool :=
  present held && negb (String.eqb (default "" held) shown).

Section service.
Context (envs : string → Env).
(** The chat rooms, which keep the mission and the step they were made for. *)
Context (rooms : string → option Room).
(** [resolveAgentDisplayName], [JSON.stringify] and the ids the database makes. *)
Context (agent_name : string → option string).
Context (stringify : jsval → option string).
Context (uuid : nat → string).
(** [Number(process.env.ORCHESTRATION_APPROVAL_ESCALATE_MS)]. *)
Context (escalate_ms : option Q).

Definition answer_window : Z := orchestratorAnswerWindowMs escalate_ms.

(** ** Transitions *)

Definition settled_row (id : string) (row : Approval) : P Approval :=
  read (λ db, default row (find_approval id db)).

(** The timeline of the request's mission, where it still exists. *)
Definition tell (row : Approval) (type : string) : P () :=
  mission ← read (find_mission (ap_mission_id row));
  match mission with
  | Some m => record (ms_id m) type (ap_step_key row)
  | None => mret tt
  end.

Definition cancelled_patch (now : Z) (reason : string) (a : Approval) : Approval :=
  a<|ap_status := "cancelled"|><|ap_decided_by_type := Some "system"|><|ap_decided_by := None|>
   <|ap_decided_by_name := "AWB"|><|ap_decision_note := slice 500 reason|><|ap_decided_at := Some now|>.

Definition cancel (row : Approval) (reason : string) : P Approval :=
  now ← new_Date;
  won ← compareAndSet (ap_id row) (cancelled_patch now reason) None;
  fresh ← settled_row (ap_id row) row;
  if negb won then mret fresh
  else
    tell row "approval_cancelled";;
    mret fresh.

Definition escalated_patch (now : Z) (reason : ApprovalRouteReason) (note : string) (a : Approval) : Approval :=
  let moved := a<|ap_route := "user"|><|ap_route_reason := reason_string reason|><|ap_routed_at := now|> in
  if truthy note then moved<|ap_decision_note := note|> else moved.

Definition escalate (row : Approval) (reason : ApprovalRouteReason) (note : string) : P Approval :=
  now ← new_Date;
  won ← compareAndSet (ap_id row) (escalated_patch now reason note) (Some "orchestrator");
  fresh ← settled_row (ap_id row) row;
  if negb won then mret fresh
  else
    tell row "approval_escalated";;
    background (j_approval (ap_id fresh));;
    mret fresh.

Inductive ApprovalDecider : Type := by_orchestrator | by_user.
Definition decider_string (d : ApprovalDecider) : string :=
  match d with by_orchestrator => "orchestrator" | by_user => "user" end.

Definition decided_patch (now : Z) (decision : string) (by_type : ApprovalDecider) (by_id by_name note : string)
    (a : Approval) : Approval :=
  a<|ap_status := statusForDecision decision|><|ap_decision := Some decision|>
   <|ap_decided_by_type := Some (decider_string by_type)|><|ap_decided_by := Some by_id|>
   <|ap_decided_by_name := slice 200 by_name|><|ap_decision_note := note|><|ap_decided_at := Some now|>.

Definition is_decision (a : Approval) (decision : string) : bool :=
  match ap_decision a with Some d => String.eqb d decision | None => false end.

(** The decided row, and whether it had been decided so before. *)
Definition finalize (row : Approval) (decision : string) (by_type : ApprovalDecider) (by_id by_name note : string)
    (mission : Mission) : P (Approval * bool) :=
  decidedAt ← new_Date;
  won ← compareAndSet (ap_id row) (decided_patch decidedAt decision by_type by_id by_name note)
          (match by_type with by_orchestrator => Some "orchestrator" | by_user => None end);
  fresh ← settled_row (ap_id row) row;
  if negb won then
    if negb (is_pending fresh) && is_decision fresh decision then mret (fresh, true)
    else refuse 409 (if is_pending fresh then with_the_user else already_settled (ap_status fresh))
  else
    record (ms_id mission) "approval_decided" (ap_step_key row);;
    mret (fresh, false).

(** Cancel what can no longer be answered usefully; hand overdue requests of the
    orchestrator to the user. *)
Definition settle_route (row : Approval) (mission : Mission) (now : Z) : P Approval :=
  if routed_to "orchestrator" row then
    if negb (orchestratorMayApprove mission) then escalate row orchestrator_not_trusted ""
    else if answer_window <? now - ap_routed_at row then escalate row orchestrator_timeout ""
    else mret row
  else mret row.

Definition settle (row : Approval) (now : Z) : P Approval :=
  found ← read (find_mission (ap_mission_id row));
  match found with
  | None => cancel row "the mission was deleted"
  | Some mission =>
      if isTerminalMissionStatus (ms_status mission)
      then cancel row ("the mission is " +:+ ms_status mission)
      else if present (ap_step_id row) then
        step ← read (find_any_step (default "" (ap_step_id row)));
        match step with
        | Some (_, s) =>
            if negb (bool_decide (st_room_id s = Some (ap_room_id row))) || negb (isInFlight (st_status s))
            then cancel row "this step attempt is no longer running"
            else settle_route row mission now
        | None => cancel row "this step attempt is no longer running"
        end
      else if negb (bool_decide (ms_room_id mission = Some (ap_room_id row)))
      then cancel row "the mission conversation moved to another room"
      else settle_route row mission now
  end.

(** The requester is alive: its row, and the lease of the step it works on. *)
Definition polled (now : Z) (a : Approval) : Approval := a<|ap_last_polled_at := now|>.

Definition beat (now : Z) (id room : string) (s : Step) : Step :=
  if String.eqb (st_id s) id && bool_decide (st_room_id s = Some room) && isInFlight (st_status s)
  then s<|st_last_heartbeat_at := Some now|><|st_lease_stale_since := None|>
  else s.

Definition touch (row : Approval) : P () :=
  now ← new_Date;
  _ ← update_where (cas_matches (ap_id row) None) (polled now);
  if present (ap_step_id row) then
    write (λ db, db<|ad_worlds ::= List.map (λ w,
             w<|w_steps ::= List.map (beat now (default "" (ap_step_id row)) (ap_room_id row))|>)|>)
      (λ _, tt)
  else mret tt.

(** ** Who asks *)

Definition assertRequester (storedAgentId accountId : string) (caller : ApprovalHostCaller) (presented : string)
    : P () :=
  refuse_if (differs (hc_accountId caller) accountId) 403 account_scope_denied;;
  refuse_if (truthy presented && negb (String.eqb presented storedAgentId)) 403 belongs_to_another_runtime;;
  refuse_if (differs (hc_runtimeKey caller) storedAgentId) 403 belongs_to_another_runtime.

Definition assertHost (caller : ApprovalHostCaller) (requesterHost : option string) : P () :=
  if present (hc_runtimeKey caller) || negb (present (hc_hostId caller)) then mret tt
  else refuse_if (present requesterHost && negb (bool_decide (requesterHost = hc_hostId caller)))
         403 runs_on_another_host.

Record Requester := { rq_role : ApprovalRequesterRole; rq_step : option Step; rq_name : string }.

(** A runtime speaking for itself. *)
Definition itself (agentId : string) : Caller := {| ca_agentId := agentId; ca_runtimeKey := Some agentId |}.

Definition spec_host (spec : option TeamAgentSpec) : option string :=
  ss_manager_agent_id ∘ ta_slot <$> spec.

Definition display_name (slot_name : option string) (agentId : string) : string :=
  match slot_name with
  | Some n => if truthy n then n else default agentId (agent_name agentId)
  | None => default agentId (agent_name agentId)
  end.

Definition slot_name (roster : option MissionRuntimeRoster) (slot : option string) : option string :=
  r ← roster; rs_name <$> List.find (λ m, bool_decide (Some (rs_slot_id m) = slot)) (ro_members r).

Definition resolveRequester (room : Room) (mission : Mission) (agentId : string) (caller : ApprovalHostCaller)
    : P Requester :=
  refuse_if (differs (hc_runtimeKey caller) agentId) 403 runtime_key_asks_for_itself;;
  if present (cr_orchestration_step_id room) then
    found ← read (find_any_step (default "" (cr_orchestration_step_id room)));
    match found with
    | None => refuse 404 no_such_step
    | Some (mission_id, step) =>
        refuse_if (negb (String.eqb mission_id (ms_id mission))) 404 no_such_step;;
        refuse_if (negb (callerHoldsId (itself agentId) (st_assignee_agent_id step)))
          403 (step_of_another_runtime (st_key step));;
        assertHost caller (spec_host (st_assignee_spec step));;
        mret {| rq_role := requester_member; rq_step := Some step;
                rq_name := display_name (slot_name (ms_runtime_roster mission) (st_assignee_slot step)) agentId |}
    end
  else
    refuse_if (negb (bool_decide (Some (cr_id room) = ms_room_id mission))
               || negb (callerHoldsId (itself agentId) (ms_orchestrator_agent_id mission)))
      403 not_the_orchestrator_room;;
    assertHost caller (spec_host (ms_orchestrator_spec mission));;
    mret {| rq_role := requester_orchestrator; rq_step := None;
            rq_name := display_name (rs_name ∘ ro_orchestrator <$> ms_runtime_roster mission) agentId |}.

(** ** Asking *)

(** Post the request into the mission room: whether it was delivered. *)
Definition wakeOrchestrator (mission : Mission) (row : Approval) : P bool :=
  match ms_room_id mission with
  | Some room =>
      if truthy room then
        let post := postToRoom (envs (ms_id mission)) room (approval_wake (ap_id row)) in
        write (on_mission (ms_id mission) (λ w, snd (post w)))
          (λ db, match List.find (λ w, String.eqb (ms_id (w_mission w)) (ms_id mission)) (ad_worlds db) with
                 | Some w => match fst (post w) with Ok _ => true | Err _ => false end
                 | None => true
                 end)
      else mret false
  | None => mret false
  end.

Definition approval_row (input : ApprovalRequestInput) (agentId requestKey toolName : string) (room : Room)
    (mission : Mission) (requester : Requester) (now : Z) (id : string) : Approval :=
  let '(route, reason) := approvalRouteFor (rq_role requester) (orchestratorMayApprove mission) in
  {| ap_id := id; ap_account_id := ms_account_id mission; ap_mission_id := ms_id mission;
     ap_step_id := st_id <$> rq_step requester; ap_step_key := st_key <$> rq_step requester;
     ap_room_id := cr_id room; ap_requester_role := role_string (rq_role requester);
     ap_requester_agent_id := agentId; ap_requester_name := rq_name requester;
     ap_request_key := requestKey; ap_tool_name := toolName;
     ap_title := bounded_str 1000 (ai_title input); ap_description := bounded_str 4000 (ai_description input);
     ap_input := summarizeApprovalInput stringify (ai_input input);
     ap_can_allow_session := is_true_val (ai_can_allow_session input);
     ap_status := "pending"; ap_route := route; ap_route_reason := reason_string reason; ap_routed_at := now;
     ap_decision := None; ap_decided_by_type := None; ap_decided_by := None; ap_decided_by_name := "";
     ap_decision_note := ""; ap_decided_at := None; ap_last_polled_at := now; ap_user_notified_at := None |}.

Definition attempt_running (requester : Requester) (room : Room) : bool :=
  match rq_step requester with
  | Some s => isInFlight (st_status s) && bool_decide (st_room_id s = Some (cr_id room))
  | None => true
  end.

(** The row is stored; tell the timeline and whoever is to answer. *)
Definition announce (mission : Mission) (row : Approval) : P ApprovalWireView :=
  record (ms_id mission) "approval_requested" (ap_step_key row);;
  if routed_to "orchestrator" row then
    delivered ← wakeOrchestrator mission row;
    if delivered : bool then mret (approvalWireView row)
    else
      moved ← escalate row orchestrator_unreachable "";
      mret (approvalWireView moved)
  else
    background (j_approval (ap_id row));;
    mret (approvalWireView row).

Definition request (input : ApprovalRequestInput) (caller : ApprovalHostCaller) : P ApprovalWireView :=
  let roomId := bounded_str 100 (ai_room_id input) in
  let agentId := bounded_str 200 (ai_agent_id input) in
  let requestKey := bounded_str 200 (ai_request_key input) in
  let toolName := bounded_str 200 (ai_tool_name input) in
  refuse_if (negb (truthy roomId) || negb (truthy agentId) || negb (truthy requestKey) || negb (truthy toolName))
    400 fields_required;;
  existing ← read (find_request agentId requestKey);
  match existing with
  | Some a =>
      assertRequester (ap_requester_agent_id a) (ap_account_id a) caller agentId;;
      mret (approvalWireView a)
  | None =>
      room ← read (λ _, rooms roomId);
      match room with
      | None => refuse 404 not_a_mission_room
      | Some room =>
          refuse_if (negb (present (cr_orchestration_mission_id room))) 404 not_a_mission_room;;
          refuse_if (differs (hc_accountId caller) (cr_account_id room)) 403 account_scope_denied;;
          found ← read (find_mission (default "" (cr_orchestration_mission_id room)));
          match found with
          | None => refuse 404 no_such_mission
          | Some mission =>
              requester ← resolveRequester room mission agentId caller;
              if isTerminalMissionStatus (ms_status mission)
              then mret (refusal ("the mission is " +:+ ms_status mission))
              else if negb (attempt_running requester room)
              then mret (refusal "this step attempt is no longer running")
              else
                now ← new_Date;
                saved ← insert_approval (approval_row input agentId requestKey toolName room mission requester now) uuid;
                match saved with
                | Some row => announce mission row
                | None =>
                    winner ← read (find_request agentId requestKey);
                    match winner with
                    | Some a => mret (approvalWireView a)
                    | None => refuse 500 storage_failed
                    end
                end
          end
      end
  end.

(** ** Waiting *)

Definition poll_ms (timeoutMs : number) : Z :=
  Z.max 0 (Z.min APPROVAL_WAIT_MAX_MS (match timeoutMs with JInt z => z | JNonInt _ => APPROVAL_WAIT_MAX_MS end)).

(** The signal of [waitForSignal], or its timeout: any time may pass. *)
Definition await_signal : P () := read (λ _, tt).

Definition wait (id agentId : string) (caller : ApprovalHostCaller) (timeoutMs : number) : P ApprovalWireView :=
  found ← read (find_approval id);
  match found with
  | None => refuse 404 approval_not_found
  | Some row =>
      assertRequester (ap_requester_agent_id row) (ap_account_id row) caller agentId;;
      if negb (is_pending row) then mret (approvalWireView row)
      else
        touch row;;
        now ← new_Date;
        row ← settle row now;
        if negb (is_pending row) then mret (approvalWireView row)
        else
          current ← read (find_approval id);
          if negb (match current with Some c => is_pending c | None => false end) || (poll_ms timeoutMs =? 0)
          then mret (approvalWireView (default row current))
          else
            await_signal;;
            last ← read (find_approval id);
            mret (approvalWireView (default row last))
  end.

Definition cancelByRequester (id agentId : string) (caller : ApprovalHostCaller) (reason : string)
    : P ApprovalWireView :=
  found ← read (find_approval id);
  match found with
  | None => refuse 404 approval_not_found
  | Some row =>
      assertRequester (ap_requester_agent_id row) (ap_account_id row) caller agentId;;
      if negb (is_pending row) then mret (approvalWireView row)
      else
        let given := slice 500 (trim reason) in
        after ← cancel row (if truthy given then given else "the requesting session stopped waiting");
        mret (approvalWireView after)
  end.

(** ** Deciding *)

Definition decision_text (v : jsval) : string := match v with JStr s => s | _ => "" end.

Definition caller_id (caller : Caller) : string :=
  match ca_runtimeKey caller with Some k => if truthy k then k else ca_agentId caller | None => ca_agentId caller end.

Definition decideAsOrchestrator (id : string) (caller : Caller) (decision reason : jsval) : P (Approval * bool) :=
  refuse_if (unauthenticated caller) 401 agent_session_required;;
  refuse_if (negb (isOrchestratorApprovalDecision decision)) 400 bad_decision;;
  found ← read (find_approval id);
  match found with
  | None => refuse 404 approval_not_found
  | Some row =>
      found ← read (find_mission (ap_mission_id row));
      match found with
      | None => refuse 404 no_such_mission
      | Some mission =>
          refuse_if (negb (callerHoldsId caller (ms_orchestrator_agent_id mission))) 403 not_this_orchestrator;;
          refuse_if (negb (orchestratorMayApprove mission)) 403 slot_not_trusted;;
          let note := bounded_str 2000 reason in
          let wanted := decision_text decision in
          let escalating := String.eqb wanted "escalate" in
          if negb (is_pending row) then
            if negb escalating && is_decision row wanted then mret (row, true)
            else refuse 409 (already_settled (ap_status row))
          else
            refuse_if (negb (routed_to "orchestrator" row)) 409 with_the_user;;
            name ← read (λ _, agent_name (caller_id caller));
            if escalating then
              moved ← escalate row orchestrator_escalated note;
              refuse_if (negb (routed_to "user" moved) && is_pending moved) 409 changed_meanwhile;;
              mret (moved, false)
            else
              finalize row wanted by_orchestrator (caller_id caller)
                (match name with Some n => if truthy n then n else "Orchestrator" | None => "Orchestrator" end)
                note mission
      end
  end.

Definition decideAsUser (id accountId user_id user_name : string) (decision note : jsval) : P (Approval * bool) :=
  refuse_if (negb (isApprovalDecision decision)) 400 bad_decision;;
  found ← read (find_approval id);
  match found with
  | None => refuse 404 approval_not_found
  | Some row =>
      refuse_if (truthy accountId && negb (String.eqb (ap_account_id row) accountId)) 404 approval_not_found;;
      found ← read (find_mission (ap_mission_id row));
      match found with
      | None => refuse 404 no_such_mission
      | Some mission =>
          refuse_if (truthy (ap_account_id row) && negb (String.eqb (ms_account_id mission) (ap_account_id row)))
            404 no_such_mission;;
          let wanted := decision_text decision in
          if negb (is_pending row) then
            if is_decision row wanted then mret (row, true)
            else refuse 409 (already_settled (ap_status row))
          else finalize row wanted by_user user_id user_name (bounded_str 2000 note) mission
      end
  end.

(** ** Sweeping *)

(** [ORDER BY f ASC LIMIT 100] *)
Definition oldest (f : Approval → Z) (where_ : Approval → bool) (db : Adb) : list Approval :=
  take 100 (sort_by f (lfilter where_ (ad_approvals db))).

Definition requester_gone (now : Z) (a : Approval) : bool :=
  is_pending a && (ap_last_polled_at a <? now - APPROVAL_REQUESTER_GONE_MS).
Definition answer_overdue (now : Z) (a : Approval) : bool :=
  is_pending a && routed_to "orchestrator" a && (ap_routed_at a <? now - answer_window).

Definition sweep (now : Z) : P (Z * Z) :=
  gone ← read (oldest ap_last_polled_at (requester_gone now));
  cancelled ← each (λ n row,
      after ← cancel row "the requesting session is no longer waiting for an answer";
      mret (if String.eqb (ap_status after) "cancelled" then n + 1 else n)) 0 gone;
  overdue ← read (oldest ap_routed_at (answer_overdue now));
  escalated ← each (λ n row,
      after ← escalate row orchestrator_timeout "";
      mret (if routed_to "user" after && is_pending after then n + 1 else n)) 0 overdue;
  mret (cancelled, escalated).

(** [missionsWithPendingRequests] *)
Definition missionsWithPendingRequests (ids : list string) (db : Adb) : list string :=
  new_Set (List.map ap_mission_id
    (lfilter (λ a, includes ids (ap_mission_id a) && is_pending a) (ad_approvals db))).

(** ** The notice about one request, sent in the background *)

Definition unnotified (id : string) (a : Approval) : bool :=
  String.eqb (ap_id a) id && is_pending a && routed_to "user" a && negb (bool_decide (is_Some (ap_user_notified_at a))).

Definition sendUserNotice (id : string) : P bool :=
  now ← new_Date;
  won ← update_where (unnotified id) (λ a, a<|ap_user_notified_at := Some now|>);
  if negb won then mret false
  else
    row ← read (find_approval id);
    mission ← read (λ db, row ← row; find_mission (ap_mission_id row) db);
    match mission with
    | Some m => record (ms_id m) "approval_notified" (row ← row; ap_step_key row);; mret true
    | None => mret false
    end.

(** ** Calls *)

Inductive acall : Type :=
  | ac_request (input : ApprovalRequestInput) (caller : ApprovalHostCaller)
  | ac_wait (id agentId : string) (caller : ApprovalHostCaller) (timeoutMs : number)
  | ac_cancel (id agentId : string) (caller : ApprovalHostCaller) (reason : string)
  | ac_orchestrator (id : string) (caller : Caller) (decision reason : jsval)
  | ac_user (id accountId user_id user_name : string) (decision note : jsval)
  | ac_sweep (now : Z).

Inductive reply : Type :=
  | rp_view (v : ApprovalWireView)
  | rp_decided (a : Approval) (already_decided : bool)
  | rp_swept (cancelled escalated : Z)
  | rp_noticed (sent : bool).

Definition program (c : acall) : P reply :=
  match c with
  | ac_request i k => v ← request i k; mret (rp_view v)
  | ac_wait id a k t => v ← wait id a k t; mret (rp_view v)
  | ac_cancel id a k r => v ← cancelByRequester id a k r; mret (rp_view v)
  | ac_orchestrator id k d r => x ← decideAsOrchestrator id k d r; mret (rp_decided x.1 x.2)
  | ac_user id acc u n d t => x ← decideAsUser id acc u n d t; mret (rp_decided x.1 x.2)
  | ac_sweep now => x ← sweep now; mret (rp_swept x.1 x.2)
  end.

(** A job left behind. *)
Definition notice_program (j : Job) : P reply :=
  match j with
  | j_approval id => b ← sendUserNotice id; mret (rp_noticed b)
  | j_confirm mission gate => send gate_notice mission gate;; mret (rp_noticed true)
  end.
End service.
