(* ===== verification/ProgramLogic.v ===== *)
(** * Reasoning about a service's programs

    [runs db p Q]: started on the tables [db], whatever runs between its queries,
    the program keeps the guarantee with every query and what it returns
    satisfies [Q].  The guarantee is an invariant [I] of the tables and a
    preorder [Mv] on them; both are parameters. *)

From S2P Require Import Prelude Entities Concurrent Approvals Tables ConfirmNotify ApprovalService.
#[local] Open Scope Z_scope.

Section logic.
Context {I : Adb → Prop} {Mv : Adb → Adb → Prop} `{!PreOrder Mv}.

Definition guar (db db' : Adb) : Prop := I db → I db' ∧ Mv db db'.

#[export] Instance guar_preorder : PreOrder guar.
Proof using PreOrder0.
  split; [intros db H; split; [done|reflexivity]|]. intros x y z H1 H2 Hx.
  destruct (H1 Hx) as [Hy Hxy]. destruct (H2 Hy) as [Hz Hyz]. split; [done|by transitivity y].
Qed.

Definition reach (db db' : Adb) : Prop := I db' ∧ Mv db db'.

Lemma reach_trans a b c : reach a b → reach b c → reach a c.
Proof using PreOrder0. intros [_ H1] [H2 H3]. split; [done|by transitivity b]. Qed.

Definition runs {A} (db : Adb) (p : P A) (Q : A → Adb → Prop) : Prop :=
  I db → safe guar (λ r d, ∀ a, r = Ok a → Q a d) p db.

Lemma guar_reach db db' : I db → guar db db' → reach db db'.
Proof using Type. intros H HG. by apply HG. Qed.

Lemma runs_ret {A} db (a : A) (Q : A → Adb → Prop) : (∀ d, reach db d → Q a d) → runs db (mret a) Q.
Proof using Type. intros H Hok d Hd b [= <-]. by apply H, guar_reach. Qed.

Lemma runs_refuse {A} db c y (Q : A → Adb → Prop) : runs db (refuse c y) Q.
Proof using Type. intros Hok d Hd b. discriminate. Qed.

Lemma runs_bind {A B} db (p : P A) (k : A → P B) Mid Q :
  runs db p Mid → (∀ a d, reach db d → Mid a d → runs d (k a) Q) → runs db (p ≫= k) Q.
Proof using PreOrder0.
  intros Hp Hk Hok. eapply safe_bind; [typeclasses eauto|by apply Hp|]. intros [a|e] d Hd Hr.
  - destruct (guar_reach _ _ Hok Hd) as [Hd' Hm]. by apply Hk; [split|apply Hr|].
  - intros d' _ b. discriminate.
Qed.

Lemma runs_refuse_if {B} db b c y (k : () → P B) Q :
  (b = false → runs db (k tt) Q) → runs db (refuse_if b c y ≫= k) Q.
Proof using Type. destruct b; intros H; [apply runs_refuse|by apply H]. Qed.

Lemma runs_refuse_if_last db b c y : runs db (refuse_if b c y) (λ _ _, True).
Proof using Type. destruct b; [apply runs_refuse|by apply runs_ret]. Qed.

Lemma runs_read {B A} db (f : Adb → A) (k : A → P B) Q :
  (∀ d, reach db d → runs d (k (f d)) Q) → runs db (read f ≫= k) Q.
Proof using PreOrder0.
  intros H Hok d Hd. destruct (guar_reach _ _ Hok Hd) as [Hd' Hm]. split; [reflexivity|]. by apply H.
Qed.

Lemma runs_read_last {A} db (f : Adb → A) (Q : A → Adb → Prop) :
  (∀ d d', reach db d → reach d d' → Q (f d) d') → runs db (read f) Q.
Proof using PreOrder0.
  intros H Hok d Hd. destruct (guar_reach _ _ Hok Hd) as [Hd' Hm]. split; [reflexivity|].
  intros d' Hr b [= <-]. apply (H d d'); [done|]. by apply guar_reach.
Qed.

Lemma runs_query {A} db upd (k : Adb → P A) Q :
  (∀ d, reach db d → guar d (upd d)) → (∀ d, reach db d → reach d (upd d) → runs (upd d) (k d) Q) →
  runs db (query upd k) Q.
Proof using Type.
  intros Hg H Hok d Hd. destruct (guar_reach _ _ Hok Hd) as [Hd' Hm].
  assert (Hu : guar d (upd d)) by (by apply Hg). split; [exact Hu|].
  pose proof (guar_reach _ _ Hd' Hu) as Hr. apply H; [done|done|apply Hr].
Qed.

Lemma runs_write {B A} db upd (f : Adb → A) (k : A → P B) Q :
  (∀ d, guar d (upd d)) → (∀ d, reach db d → reach d (upd d) → runs (upd d) (k (f d)) Q) →
  runs db (write upd f ≫= k) Q.
Proof using Type. intros Hg H. by apply runs_query. Qed.

Lemma runs_background {B} db j (k : () → P B) Q : runs db (k tt) Q → runs db (background j ≫= k) Q.
Proof using Type. intros H Hok. exact (H Hok). Qed.

Lemma runs_weaken {A} db (p : P A) (Q Q' : A → Adb → Prop) :
  (∀ a d, Q a d → Q' a d) → runs db p Q → runs db p Q'.
Proof using Type. intros HQ H Hok. eapply safe_weaken; [|by apply H]. intros r d Hr a Ha. by apply HQ, Hr. Qed.

Lemma runs_each {A S} (body : S → A → P S) l : ∀ db s (good : A → Adb → Prop),
  (∀ a d d', good a d → reach d d' → good a d') → (∀ a, a ∈ l → good a db) →
  (∀ s a d, good a d → runs d (body s a) (λ _ _, True)) → runs db (each body s l) (λ _ _, True).
Proof using PreOrder0.
  induction l as [|a l IH]; intros db s good Hst Hl Hb; simpl; [by apply runs_ret|].
  eapply runs_bind; [apply Hb, Hl, list_elem_of_here|]. intros s' d Hd _.
  apply IH with good; [done| |done]. intros b Hin. eapply Hst; [|exact Hd]. by apply Hl, list_elem_of_further.
Qed.
End logic.
Arguments guar I Mv db db' : clear implicits.
Arguments reach I Mv db db' : clear implicits.
Arguments runs I Mv {A} db p Q.
