(* ===== verification/ApprovalRace.v ===== *)
(** * Tool approvals: the race

    Any number of requests, polls, answers and sweeps interleave over one table,
    on one server or on several.  What every query keeps ([amoves]), what a
    program has been told ([runs]), and the two properties of the whole: one
    answer per request, given by someone entitled to it. *)

From S2P Require Import Prelude.
From S2P Require Import JsStd.
From S2P Require Import Vocabulary.
From S2P Require Import Roster.
From S2P Require Import Entities.
From S2P Require Import Samples.
From S2P Require Import PostActions.
From S2P Require Import Engine.
From S2P Require Import Concurrent.
From S2P Require Import Approvals.
From S2P Require Import Tables.
From S2P Require Import ConfirmNotify.
From S2P Require Import ApprovalService.
From S2P Require Import ProgramLogic.
From Stdlib Require Import QArith.
#[local] Open Scope Z_scope.

(** ** Rows *)

(** How a request may end: not yet, withdrawn, or answered by one of the two. *)
Inductive settled_by (a : Approval) : Prop :=
  | not_settled :
      ap_status a = "pending" → ap_decision a = None → ap_decided_by_type a = None → settled_by a
  | withdrawn :
      ap_status a = "cancelled" → ap_decision a = None → ap_decided_by_type a = Some "system" → settled_by a
  | answered_by_user d :
      d ∈ APPROVAL_DECISIONS → ap_status a = statusForDecision d → ap_decision a = Some d →
      ap_decided_by_type a = Some "user" → settled_by a
  | answered_by_orchestrator d :
      d ∈ APPROVAL_DECISIONS → ap_status a = statusForDecision d → ap_decision a = Some d →
      ap_decided_by_type a = Some "orchestrator" →
      ap_route a = "orchestrator" → ap_requester_role a = "member" → settled_by a.

Record row_ok (a : Approval) : Prop := {
  ok_settled : settled_by a;
  ok_route : ap_route a = "user" ∨ (ap_route a = "orchestrator" ∧ ap_requester_role a = "member")
}.

(** What a row keeps for life. *)
Definition identity (a : Approval) :=
  (ap_id a, ap_account_id a, ap_mission_id a, ap_step_id a, ap_step_key a, ap_room_id a,
   ap_requester_role a, ap_requester_agent_id a, ap_request_key a).

Record row_moves (a a' : Approval) : Prop := {
  rm_identity : identity a' = identity a;
  rm_settled : is_pending a = false → a' = a;
  rm_user : ap_route a = "user" → ap_route a' = "user"
}.

#[export] Instance row_moves_preorder : PreOrder row_moves.
Proof.
  split; [intros a; by split|]. intros a b c [Hi Hs Hu] [Hi' Hs' Hu']. split; [congruence| |auto].
  intros Ha. specialize (Hs Ha). subst b. auto.
Qed.

Lemma row_moves_id a a' : row_moves a a' → ap_id a' = ap_id a.
Proof. intros H. exact (f_equal (λ x, x.1.1.1.1.1.1.1.1) (rm_identity _ _ H)). Qed.

(** ** Tables *)

Definition request_of (a : Approval) : string * string := (ap_requester_agent_id a, ap_request_key a).

Section safety.
Context (uuid : nat → string) (agent_name : string → option string) (escalate_ms : option Q).
Context (envs : string → Env) (rooms : string → option Room) (stringify : jsval → option string).

Record adb_ok (db : Adb) : Prop := {
  ao_rows : ∀ a, a ∈ ad_approvals db → row_ok a;
  ao_ids : NoDup (List.map ap_id (ad_approvals db));
  ao_requests : NoDup (List.map request_of (ad_approvals db));
  ao_fresh : ∀ a, a ∈ ad_approvals db → ∃ n, (n < ad_nonce db)%nat ∧ ap_id a = uuid n
}.

Definition amoves (db db' : Adb) : Prop :=
  ∀ a, a ∈ ad_approvals db → ∃ a', a' ∈ ad_approvals db' ∧ row_moves a a'.

#[export] Instance amoves_preorder : PreOrder amoves.
Proof.
  split; [intros db a Ha; by exists a|]. intros x y z H1 H2 a Ha.
  destruct (H1 a Ha) as (b & Hb & Hab). destruct (H2 b Hb) as (c & Hc & Hbc). exists c. split; [done|by transitivity b].
Qed.

(** The guarantee of every query. *)
Abbreviation aguar := (guar adb_ok amoves).
Abbreviation reach := (ProgramLogic.reach adb_ok amoves).
Abbreviation runs := (ProgramLogic.runs adb_ok amoves).

Lemma aguar_same db db' :
  ad_approvals db' = ad_approvals db → ad_nonce db' = ad_nonce db → aguar db db'.
Proof.
  intros Ha Hn [Hr Hi Hq Hf]. split; [split; rewrite ?Ha, ?Hn; assumption|].
  intros a Hin. exists a. rewrite Ha. split; [done|reflexivity].
Qed.

Lemma by_id db a b :
  adb_ok db → a ∈ ad_approvals db → b ∈ ad_approvals db → ap_id a = ap_id b → a = b.
Proof. intros H Ha Hb He. by apply (NoDup_fmap_inj_on ap_id (ad_approvals db)); [apply H|..]. Qed.

(** A conditional update whose patch respects the row's rules. *)
Definition patch_ok (where_ : Approval → bool) (patch : Approval → Approval) : Prop :=
  ∀ a, where_ a = true → row_ok a → row_ok (patch a) ∧ row_moves a (patch a).

Lemma aguar_update db where_ patch :
  patch_ok where_ patch → aguar db (update_approvals where_ patch db).
Proof.
  intros Hp Hok. set (f := λ a, if where_ a then patch a else a).
  assert (Hf : ∀ a, a ∈ ad_approvals db → row_ok (f a) ∧ row_moves a (f a)).
  { intros a Ha. pose proof (ao_rows _ Hok a Ha) as Hr. unfold f.
    destruct (where_ a) eqn:E; [by apply Hp|split; [done|reflexivity]]. }
  assert (Hm : ∀ {B} (g : Approval → B), (∀ a b, row_moves a b → g b = g a) →
    List.map g (List.map f (ad_approvals db)) = List.map g (ad_approvals db)).
  { intros B g Hg. rewrite List.map_map. apply List.map_ext_in. intros a Ha.
    apply Hg, (Hf a). by apply list_elem_of_In. }
  split; [split|]; simpl.
  - intros b Hb. apply elem_of_map in Hb as (a & -> & Ha). by apply Hf.
  - change (NoDup (List.map ap_id (List.map f (ad_approvals db)))). rewrite Hm; [apply Hok|]. apply row_moves_id.
  - change (NoDup (List.map request_of (List.map f (ad_approvals db)))). rewrite Hm; [apply Hok|].
    intros a b H. exact (f_equal (λ x, (x.1.2, x.2)) (rm_identity _ _ H)).
  - intros b Hb. apply elem_of_map in Hb as (a & -> & Ha). destruct (ao_fresh _ Hok a Ha) as (n & Hn & Hid).
    exists n. split; [done|]. rewrite <- Hid. apply row_moves_id, (Hf a Ha).
  - intros a Ha. exists (f a). split; [|by apply Hf]. change (f a ∈ List.map f (ad_approvals db)).
    by apply elem_of_map_2.
Qed.

(** ** What a program knows of a row it has read *)

(** The row was in the table, whatever became of it since. *)
Definition seen (row : Approval) (db : Adb) : Prop :=
  row_ok row ∧ ∃ a, a ∈ ad_approvals db ∧ row_moves row a.

Lemma seen_here row db : adb_ok db → row ∈ ad_approvals db → seen row db.
Proof. intros Hok H. split; [by apply Hok|by exists row]. Qed.

Lemma seen_reach row db db' : seen row db → reach db db' → seen row db'.
Proof.
  intros (Hok & a & Ha & Hm) [_ H]. destruct (H a Ha) as (b & Hb & Hab). split; [done|].
  exists b. split; [done|by transitivity a].
Qed.

Lemma seen_settled row db : seen row db → is_pending row = false → row ∈ ad_approvals db.
Proof. intros (_ & a & Ha & Hm) Hp. by rewrite <- (rm_settled _ _ Hm Hp). Qed.

Lemma find_approval_Some id db a : find_approval id db = Some a → a ∈ ad_approvals db ∧ ap_id a = id.
Proof. intros H. apply find_Some_elem in H as [Ha He]. split; [done|]. by apply String.eqb_eq. Qed.

Lemma find_approval_elem db a : adb_ok db → a ∈ ad_approvals db → find_approval (ap_id a) db = Some a.
Proof.
  intros Hok Ha. destruct (find_approval (ap_id a) db) as [b|] eqn:E.
  - apply find_approval_Some in E as [Hb He]. f_equal. by eapply by_id.
  - unfold find_approval in E. apply find_None_elem with (x := a) in E; [|done]. simpl in E.
    by rewrite String.eqb_refl in E.
Qed.

(** Re-reading a row finds what it became. *)
Lemma current_row row db :
  adb_ok db → seen row db →
  ∃ a, a ∈ ad_approvals db ∧ row_moves row a ∧ default row (find_approval (ap_id row) db) = a.
Proof.
  intros Hok (_ & a & Ha & Hm). exists a. split_and!; [done..|].
  rewrite <- (row_moves_id _ _ Hm). by rewrite (find_approval_elem db a).
Qed.

Definition became (row : Approval) (fresh : Approval) (db : Adb) : Prop := seen fresh db ∧ row_moves row fresh.

Lemma became_reach row fresh db db' : became row fresh db → reach db db' → became row fresh db'.
Proof. intros [H1 H2] Hr. split; [by eapply seen_reach|done]. Qed.

Lemma became_self row db : seen row db → became row row db.
Proof. intros H. split; [done|reflexivity]. Qed.

Lemma became_trans a b c db : became a b db → became b c db → became a c db.
Proof. intros [_ Hab] [Hc Hbc]. split; [done|by transitivity b]. Qed.

Lemma became_current row db :
  adb_ok db → seen row db → became row (default row (find_approval (ap_id row) db)) db.
Proof.
  intros Hok Hs. destruct (current_row row db Hok Hs) as (a & Ha & Hm & ->).
  split; [by apply seen_here|done].
Qed.

(** ** The patches *)

Lemma statusForDecision_not_pending d : statusForDecision d ≠ "pending".
Proof. unfold statusForDecision. by destruct (String.eqb d "deny"). Qed.

Lemma statusForDecision_not_cancelled d : statusForDecision d ≠ "cancelled".
Proof. unfold statusForDecision. by destruct (String.eqb d "deny"). Qed.

Lemma pending_open a :
  row_ok a → is_pending a = true → ap_status a = "pending" ∧ ap_decision a = None ∧ ap_decided_by_type a = None.
Proof.
  unfold is_pending. intros [Hs _] Hp%String.eqb_eq.
  destruct Hs as [| |d _ He _ _|d _ He _ _ _ _]; [done|congruence|..];
    rewrite Hp in He; by destruct (statusForDecision_not_pending d).
Qed.

(** An open row matched by its id and, where asked, its route. *)
Lemma cas_matches_true id route a :
  cas_matches id route a = true →
  ap_id a = id ∧ is_pending a = true ∧ (∀ r, route = Some r → ap_route a = r).
Proof.
  unfold cas_matches. intros H. apply andb_true_iff in H as [H Hr]. apply andb_true_iff in H as [Hi Hp].
  split_and!; [by apply String.eqb_eq|done|]. intros r ->. by apply String.eqb_eq.
Qed.

Lemma row_moves_patch a a' :
  is_pending a = true → identity a' = identity a → (ap_route a = "user" → ap_route a' = "user") → row_moves a a'.
Proof. intros Hp Hi Hu. split; [done|congruence|done]. Qed.

Lemma patch_cancelled now reason id : patch_ok (cas_matches id None) (cancelled_patch now reason).
Proof.
  intros a (_ & Hp & _)%cas_matches_true Hok. destruct (pending_open a Hok Hp) as (_ & Hd & _).
  split; [|by apply row_moves_patch]. split; [by apply withdrawn|apply Hok].
Qed.

Lemma patch_escalated now reason note id :
  patch_ok (cas_matches id (Some "orchestrator")) (escalated_patch now reason note).
Proof.
  intros a (_ & Hp & _)%cas_matches_true Hok. destruct (pending_open a Hok Hp) as (H1 & H2 & H3).
  split; [split|apply row_moves_patch; [done|..]]; unfold escalated_patch; destruct (truthy note); try done;
    first [by apply not_settled|by left].
Qed.

Definition decider_route (by_type : ApprovalDecider) : option string :=
  match by_type with by_orchestrator => Some "orchestrator" | by_user => None end.

Lemma patch_decided now d by_type by_id by_name note id :
  d ∈ APPROVAL_DECISIONS →
  patch_ok (cas_matches id (decider_route by_type)) (decided_patch now d by_type by_id by_name note).
Proof.
  intros Hd a (_ & Hp & Hr)%cas_matches_true Hok. split; [|by apply row_moves_patch].
  split; [|apply Hok]. destruct by_type; [|by apply (answered_by_user _ d)].
  apply (answered_by_orchestrator _ d); try done; [by apply Hr|].
  destruct (ok_route _ Hok) as [Hu|[_ Hm]]; [|exact Hm]. by rewrite (Hr _ eq_refl) in Hu.
Qed.

Lemma patch_polled now id : patch_ok (cas_matches id None) (polled now).
Proof.
  intros a (_ & Hp & _)%cas_matches_true Hok. destruct (pending_open a Hok Hp) as (H1 & H2 & H3).
  split; [split; [by apply not_settled|apply Hok]|by apply row_moves_patch].
Qed.

Lemma patch_notified now id : patch_ok (unnotified id) (λ a, a<|ap_user_notified_at := Some now|>).
Proof.
  unfold unnotified. intros a H Hok. apply andb_true_iff in H as [H _]. apply andb_true_iff in H as [H _].
  apply andb_true_iff in H as [_ Hp]. destruct (pending_open a Hok Hp) as (H1 & H2 & H3).
  split; [split; [by apply not_settled|apply Hok]|by apply row_moves_patch].
Qed.

(** ** The queries *)

Lemma seen_patch where_ patch id db d :
  aguar db (update_approvals where_ patch db) → adb_ok db → d = update_approvals where_ patch db →
  (∀ a, where_ a = true → ap_id a = id) → lsome where_ (ad_approvals db) = true →
  ∃ a, where_ a = true ∧ row_ok a ∧ patch a ∈ ad_approvals d ∧ ap_id a = id.
Proof.
  intros _ Hok -> Hid Hw. apply lsome_true in Hw as (a & Ha & Hw). exists a.
  split_and!; [done|by apply (ao_rows _ Hok)| |by apply Hid].
  replace (patch a) with ((λ a, if where_ a then patch a else a) a) by (by rewrite Hw).
  change (ad_approvals (update_approvals where_ patch db))
    with (List.map (λ a, if where_ a then patch a else a) (ad_approvals db)).
  apply (elem_of_map_2 (λ a, if where_ a then patch a else a)). exact Ha.
Qed.

(** The rest of a program after a compare-and-set: a win leaves the patched row
    in the table. *)
Lemma runs_cas {B} db id patch route (k : bool → P B) Q :
  patch_ok (cas_matches id route) patch →
  (∀ d, reach db d → runs d (k false) Q) →
  (∀ d a, reach db d → cas_matches id route a = true → row_ok a → patch a ∈ ad_approvals d → ap_id a = id →
    runs d (k true) Q) →
  runs db (compareAndSet id patch route ≫= k) Q.
Proof.
  intros Hp Hlost Hwon. unfold compareAndSet, update_where. apply runs_write; [intros d; by apply aguar_update|].
  intros d Hd Hu. assert (Hr : reach db (update_approvals (cas_matches id route) patch d)).
  { destruct Hd as [_ H1], Hu as [H2 H3]. split; [done|by transitivity d]. }
  destruct (lsome _ _) eqn:E; [|by apply Hlost].
  destruct (seen_patch (cas_matches id route) patch id d _ (aguar_update _ _ _ Hp) (proj1 Hd) eq_refl) as
    (a & Ha & Hok & Hin & Hid); [intros b Hb; apply (cas_matches_true _ _ _ Hb)|done|].
  by apply (Hwon _ a).
Qed.

Lemma runs_update {B} db where_ patch (k : bool → P B) Q :
  patch_ok where_ patch → (∀ b d, reach db d → runs d (k b) Q) → runs db (update_where where_ patch ≫= k) Q.
Proof.
  intros Hp Hk. unfold update_where. apply runs_write; [intros d; by apply aguar_update|].
  intros d [_ H1] [H2 H3]. apply Hk. split; [done|by transitivity d].
Qed.

Lemma runs_elsewhere {B A} db upd (f : Adb → A) (k : A → P B) Q :
  (∀ d, ad_approvals (upd d) = ad_approvals d ∧ ad_nonce (upd d) = ad_nonce d) →
  (∀ a d, reach db d → runs d (k a) Q) → runs db (write upd f ≫= k) Q.
Proof.
  intros Hs Hk. apply runs_write; [intros d; by apply aguar_same; apply Hs|].
  intros d [_ H1] [H2 H3]. apply Hk. split; [done|by transitivity d].
Qed.

Lemma runs_record {B} db m t key (k : () → P B) Q :
  (∀ d, reach db d → runs d (k tt) Q) → runs db (record m t key ≫= k) Q.
Proof. intros H. apply runs_elsewhere; [done|]. intros [] d Hd. by apply H. Qed.

(** ** Transitions *)

Lemma runs_settled_row db row : seen row db → runs db (settled_row (ap_id row) row) (became row).
Proof.
  intros Hs. apply runs_read_last. intros d d' Hd Hd'. apply became_reach with d; [|done].
  apply became_current; [apply Hd|by eapply seen_reach].
Qed.

Lemma runs_tell {B} db row type (k : () → P B) Q :
  (∀ d, reach db d → runs d (k tt) Q) → runs db (tell row type ≫= k) Q.
Proof.
  intros H. eapply (runs_bind _ _ _ (λ _ _, True)); [|intros [] d Hd _; by apply H].
  apply runs_read. intros d Hd. destruct (find_mission _ _); [|by apply runs_ret].
  intros Hok d' Hd'. split; [by apply aguar_same|]. by intros ? ? ? ?.
Qed.

(** A compare-and-set, the row re-read, and what a winner does next. *)
Lemma runs_transition db row patch route (rest : Approval → P Approval) :
  patch_ok (cas_matches (ap_id row) route) patch → seen row db →
  (∀ fresh d, became row fresh d → runs d (rest fresh) (became row)) →
  runs db (won ← compareAndSet (ap_id row) patch route;
           fresh ← settled_row (ap_id row) row;
           if negb won then mret fresh else rest fresh) (became row).
Proof.
  intros Hp Hs Hrest.
  assert (Htail : ∀ d won, reach db d → runs d (
    fresh ← settled_row (ap_id row) row; if negb won then mret fresh else rest fresh) (became row)).
  { intros d won Hd. eapply runs_bind; [apply runs_settled_row; by eapply seen_reach|]. intros fresh d2 H2 Hf.
    destruct won; [by apply Hrest|]. apply runs_ret. intros d3 H3. by apply became_reach with d2. }
  apply runs_cas; [done|intros d2 H2; by apply (Htail d2 false)|]. intros d2 a H2 _ _ _ _. by apply (Htail d2 true).
Qed.

Lemma runs_cancel db row reason : seen row db → runs db (cancel row reason) (became row).
Proof.
  intros Hs. unfold cancel. apply runs_read. intros d H.
  apply runs_transition; [apply patch_cancelled|by eapply seen_reach|]. intros fresh d1 Hf.
  apply runs_tell. intros d2 H2. apply runs_ret. intros d3 H3. apply became_reach with d1; [done|by eapply reach_trans].
Qed.

Lemma runs_escalate db row reason note : seen row db → runs db (escalate row reason note) (became row).
Proof.
  intros Hs. unfold escalate. apply runs_read. intros d H.
  apply runs_transition; [apply patch_escalated|by eapply seen_reach|]. intros fresh d1 Hf.
  apply runs_tell. intros d2 H2. apply runs_background, runs_ret. intros d3 H3.
  apply became_reach with d1; [done|by eapply reach_trans].
Qed.

(** ** Answers *)

(** The table holds [a] as the request [id], answered [d]. *)
Definition recorded (id d : string) (a : Approval) (db : Adb) : Prop :=
  a ∈ ad_approvals db ∧ ap_id a = id ∧ ap_decision a = Some d ∧ ap_status a = statusForDecision d.

Lemma decided_not_pending d a : ap_status a = statusForDecision d → is_pending a = false.
Proof.
  intros H. unfold is_pending. rewrite H. apply String.eqb_neq, statusForDecision_not_pending.
Qed.

Lemma recorded_reach id d a db db' : recorded id d a db → reach db db' → recorded id d a db'.
Proof.
  intros (Ha & Hi & Hd & Hst) [_ Hr]. split_and!; [|done..]. destruct (Hr a Ha) as (b & Hb & Hm).
  by rewrite <- (rm_settled _ _ Hm (decided_not_pending _ _ Hst)).
Qed.

(** A decision on the row is the one it was closed with. *)
Lemma decided_status a d : row_ok a → ap_decision a = Some d → ap_status a = statusForDecision d.
Proof. intros [[]] He; congruence. Qed.

Lemma is_decision_true a d : is_decision a d = true → ap_decision a = Some d.
Proof. unfold is_decision. destruct (ap_decision a); [|done]. by intros ->%String.eqb_eq. Qed.

Lemma recorded_found db row d :
  adb_ok db → row ∈ ad_approvals db → is_decision row d = true → recorded (ap_id row) d row db.
Proof.
  intros Hok Ha Hd%is_decision_true. split_and!; [done..|]. apply decided_status; [by apply Hok|done].
Qed.

Definition answered (id d : string) (by_type : ApprovalDecider) (by_id : string) (x : Approval * bool) (db : Adb)
    : Prop :=
  recorded id d x.1 db ∧
  (x.2 = false → ap_decided_by_type x.1 = Some (decider_string by_type) ∧ ap_decided_by x.1 = Some by_id).

Lemma answered_reach id d t b x db db' : answered id d t b x db → reach db db' → answered id d t b x db'.
Proof. intros [H1 H2] Hr. split; [by eapply recorded_reach|done]. Qed.

Lemma runs_finalize db row d by_type by_id by_name note mission :
  seen row db → d ∈ APPROVAL_DECISIONS →
  runs db (finalize row d by_type by_id by_name note mission) (answered (ap_id row) d by_type by_id).
Proof.
  intros Hs Hd. unfold finalize. apply runs_read. intros d0 H0.
  apply runs_cas; [by apply patch_decided|..].
  - intros d1 H1. eapply runs_bind.
    { apply runs_settled_row, (seen_reach _ db); [done|by eapply reach_trans]. }
    intros fresh d2 H2 [Hf Hm]. simpl. destruct (negb (is_pending fresh) && is_decision fresh d) eqn:E;
      [|apply runs_refuse].
    apply andb_true_iff in E as [Hp%negb_true_iff Hdec]. apply runs_ret. intros d3 H3.
    split; [|discriminate]. rewrite <- (row_moves_id _ _ Hm). eapply recorded_reach; [|exact H3].
    apply recorded_found; [apply H2|by apply seen_settled|done].
  - intros d1 a H1 Hw Hok Hin Hid. unfold settled_row. apply runs_read. intros d2 H2. simpl.
    set (p := decided_patch _ d by_type by_id by_name note a) in *.
    assert (Hr : recorded (ap_id row) d p d2).
    { eapply recorded_reach; [|exact H2]. split_and!; [done|exact Hid|done..]. }
    assert (Hc : default row (find_approval (ap_id row) d2) = p).
    { replace (ap_id row) with (ap_id p) by apply Hr. by rewrite (find_approval_elem d2 p) by apply H2 || apply Hr. }
    rewrite Hc. apply runs_record. intros d3 H3. apply runs_ret. intros d4 H4.
    split; [|intros _; split; reflexivity]. eapply recorded_reach; [exact Hr|by eapply reach_trans].
Qed.

Lemma decision_text_elem v : isApprovalDecision v = true → decision_text v ∈ APPROVAL_DECISIONS.
Proof. destruct v; try discriminate. simpl. apply includes_true. Qed.

Lemma decision_text_not_escalate v :
  isOrchestratorApprovalDecision v = true → String.eqb (decision_text v) "escalate" = false →
  decision_text v ∈ APPROVAL_DECISIONS.
Proof.
  destruct v; try discriminate. simpl. intros H%includes_true He.
  unfold ORCHESTRATOR_APPROVAL_DECISIONS in H. apply elem_of_app in H as [H|H]; [done|].
  apply list_elem_of_singleton in H as ->. discriminate.
Qed.

(** ** The deciders *)

Lemma runs_decideAsUser db id account user name decision note :
  runs db (decideAsUser id account user name decision note) (answered id (decision_text decision) by_user user).
Proof.
  unfold decideAsUser. apply runs_refuse_if. intros Hd%negb_false_iff. apply decision_text_elem in Hd.
  apply runs_read. intros d H. destruct (find_approval id d) as [row|] eqn:E; [|apply runs_refuse].
  apply find_approval_Some in E as [Hin <-]. apply runs_refuse_if. intros _. apply runs_read. intros d1 H1.
  destruct (find_mission _ d1) as [m|]; [|apply runs_refuse]. apply runs_refuse_if. intros _.
  apply (seen_here _ _ (proj1 H)) in Hin as Hs. apply (seen_reach _ _ d1) in Hs; [|done].
  destruct (is_pending row) eqn:Ep; simpl; [by apply runs_finalize|].
  destruct (is_decision row _) eqn:E; [|apply runs_refuse]. apply runs_ret. intros d2 H2. split; [|discriminate].
  eapply recorded_reach; [|exact H2]. apply recorded_found; [apply H1|by apply seen_settled|done].
Qed.

Definition escalates (v : jsval) : bool := String.eqb (decision_text v) "escalate".

Lemma runs_decideAsOrchestrator db id caller decision reason :
  runs db (decideAsOrchestrator agent_name id caller decision reason)
    (λ x d, escalates decision = false →
            answered id (decision_text decision) by_orchestrator (caller_id caller) x d).
Proof.
  unfold decideAsOrchestrator. apply runs_refuse_if. intros _. apply runs_refuse_if. intros Hd%negb_false_iff.
  apply runs_read. intros d H. destruct (find_approval id d) as [row|] eqn:E; [|apply runs_refuse].
  apply find_approval_Some in E as [Hin <-]. apply runs_read. intros d1 H1.
  destruct (find_mission _ d1) as [m|]; [|apply runs_refuse]. apply runs_refuse_if. intros _.
  apply runs_refuse_if. intros _. apply (seen_here _ _ (proj1 H)) in Hin as Hs. apply (seen_reach _ _ d1) in Hs; [|done].
  cbv zeta. fold (escalates decision). destruct (is_pending row) eqn:Ep; simpl.
  - apply runs_refuse_if. intros _. apply runs_read. intros d2 H2. destruct (escalates decision) eqn:Ee.
    + eapply runs_bind; [apply runs_escalate; by eapply seen_reach|]. intros moved d3 _ _.
      apply runs_refuse_if. intros _. by apply runs_ret.
    + eapply runs_weaken; [|apply runs_finalize; [by eapply seen_reach|by apply decision_text_not_escalate]].
      intros x dd Hx _. exact Hx.
  - destruct (negb (escalates decision) && is_decision row _) eqn:E; [|apply runs_refuse].
    apply andb_true_iff in E as [_ E]. apply runs_ret. intros d2 H2 _. split; [|discriminate].
    eapply recorded_reach; [|exact H2]. apply recorded_found; [apply H1|by apply seen_settled|done].
Qed.

(** ** The host's side *)

(** A decision the host reads on a request is the one on record. *)
Definition view_true (v : ApprovalWireView) (db : Adb) : Prop :=
  ∀ id d, wv_id v = Some id → wv_decision v = Some d → ∃ a, recorded id d a db.

Lemma view_of_seen row db : seen row db → view_true (approvalWireView row) db.
Proof.
  intros Hs id d [= <-]. simpl. destruct (ap_decision row) as [d'|] eqn:Ed; [|done]. simpl.
  case_match; [|done]. intros [= ->]. exists row. pose proof (decided_status _ _ (proj1 Hs) Ed) as Hst.
  split_and!; [|done..]. apply seen_settled; [done|by eapply decided_not_pending].
Qed.

Lemma runs_view db row : seen row db → runs db (mret (approvalWireView row)) view_true.
Proof. intros Hs. apply runs_ret. intros d Hd. apply view_of_seen. by eapply seen_reach. Qed.

Lemma runs_refusal db reason : runs db (mret (refusal reason)) view_true.
Proof. apply runs_ret. intros d _ id d'. discriminate. Qed.

Lemma runs_touch db row : runs db (touch row) (λ _ _, True).
Proof.
  unfold touch. apply runs_read. intros d1 _. apply runs_update; [apply patch_polled|]. intros _ d2 _.
  destruct (present _); [|by apply runs_ret]. intros Hok d' Hd'. split; [by apply aguar_same|]. by intros ? ? ? ?.
Qed.

Lemma runs_settle_route db row m now : seen row db → runs db (settle_route escalate_ms row m now) (became row).
Proof.
  intros Hs. assert (Hrow : runs db (mret row) (became row)).
  { apply runs_ret. intros d Hd. apply became_self. by eapply seen_reach. }
  unfold settle_route. destruct (routed_to _ _); [|done].
  destruct (negb _); [by apply runs_escalate|]. destruct (_ <? _); [by apply runs_escalate|done].
Qed.

Lemma runs_settle db row now : seen row db → runs db (settle escalate_ms row now) (became row).
Proof.
  intros Hs. unfold settle. apply runs_read. intros d1 H1. apply (seen_reach _ _ d1) in Hs; [|done].
  destruct (find_mission _ d1) as [m|]; [|by apply runs_cancel].
  destruct (isTerminalMissionStatus _); [by apply runs_cancel|]. destruct (present _).
  - apply runs_read. intros d2 H2. apply (seen_reach _ _ d2) in Hs; [|done].
    destruct (find_any_step _ d2) as [[mid s]|]; [|by apply runs_cancel].
    destruct (_ || _); [by apply runs_cancel|by apply runs_settle_route].
  - destruct (negb _); [by apply runs_cancel|by apply runs_settle_route].
Qed.

Lemma runs_assertRequester {B} db stored account caller shown (k : () → P B) Q :
  (∀ d, reach db d → runs d (k tt) Q) → runs db (assertRequester stored account caller shown ≫= k) Q.
Proof.
  intros H. eapply (runs_bind _ _ _ (λ _ _, True)); [|intros [] d Hd _; by apply H].
  unfold assertRequester. apply runs_refuse_if. intros _. apply runs_refuse_if. intros _. apply runs_refuse_if_last.
Qed.

Lemma runs_wait db id agentId caller t : runs db (wait escalate_ms id agentId caller t) view_true.
Proof.
  unfold wait. apply runs_read. intros d H. destruct (find_approval id d) as [row|] eqn:E; [|apply runs_refuse].
  apply find_approval_Some in E as [Hin _]. apply (seen_here _ _ (proj1 H)) in Hin as Hs. clear H.
  apply runs_assertRequester. intros d1 H1. apply (seen_reach _ _ d1) in Hs; [|done].
  destruct (negb _); [by apply runs_view|].
  eapply runs_bind; [apply runs_touch|]. intros _ d2 H2 _. apply runs_read. intros d3 H3.
  apply (seen_reach _ _ d3) in Hs; [|by eapply reach_trans].
  eapply runs_bind; [by apply runs_settle|]. intros row' d4 H4 [Hs' _]. destruct (negb _); [by apply runs_view|].
  assert (Hre : ∀ d d', reach d4 d → reach d d' → seen (default row' (find_approval id d)) d').
  { intros d5 d6 H5 H6. apply (seen_reach _ _ d6) in Hs'; [|by eapply reach_trans].
    destruct (find_approval id d5) as [c|] eqn:E; [|done]. apply find_approval_Some in E as [Hc _].
    eapply seen_reach; [by apply seen_here; [apply H5|]|done]. }
  apply runs_read. intros d5 H5. destruct (_ || _).
  { apply runs_view. apply Hre; [done|]. split; [apply H5|reflexivity]. }
  apply runs_read. intros d6 H6. apply runs_read. intros d7 H7. apply runs_view, Hre.
  - eapply reach_trans; [|exact H7]. by eapply reach_trans.
  - split; [apply H7|reflexivity].
Qed.

Lemma runs_cancelByRequester db id agentId caller reason :
  runs db (cancelByRequester id agentId caller reason) view_true.
Proof.
  unfold cancelByRequester. apply runs_read. intros d H.
  destruct (find_approval id d) as [row|] eqn:E; [|apply runs_refuse].
  apply find_approval_Some in E as [Hin _]. apply (seen_here _ _ (proj1 H)) in Hin as Hs.
  apply runs_assertRequester. intros d1 H1. apply (seen_reach _ _ d1) in Hs; [|done].
  destruct (negb _); [by apply runs_view|]. eapply runs_bind; [by apply runs_cancel|].
  intros after d2 H2 [Ha _]. by apply runs_view.
Qed.

(** ** Asking *)

Section asking.
Context `{!Inj (=) (=) uuid}.

(** A constructor of rows that are pending and keep to the routes. *)
Record row_maker (row : string → Approval) : Prop := {
  mk_ok : ∀ id, row_ok (row id);
  mk_id : ∀ id, ap_id (row id) = id;
  mk_request : ∀ id, request_of (row id) = request_of (row "")
}.

Lemma aguar_insert row d : row_maker row → aguar d (insert_row row uuid d).
Proof using Inj0.
  intros [Hrow Hid Hreq] Hok. unfold insert_row. destruct (request_taken row d) eqn:Et; [split; [done|reflexivity]|].
  set (new := row (uuid (ad_nonce d))).
  assert (Hnid : ap_id new ∉ List.map ap_id (ad_approvals d)).
  { intros (a & He & Ha)%elem_of_map. destruct (ao_fresh _ Hok a Ha) as (n & Hn & Hu).
    unfold new in He. rewrite Hid, Hu in He. apply (inj uuid) in He. lia. }
  assert (Hnreq : request_of new ∉ List.map request_of (ad_approvals d)).
  { intros (a & He & Ha)%elem_of_map. unfold request_taken in Et.
    apply (proj1 (lsome_false _ _) Et) in Ha. unfold new in He. rewrite Hreq in He. unfold request_of in He.
    injection He as He1 He2. unfold same_request in Ha. by rewrite He1, He2, !String.eqb_refl in Ha. }
  split; [split|]; simpl.
  - intros a [Ha| ->%list_elem_of_singleton]%elem_of_app; [by apply Hok|apply Hrow].
  - rewrite List.map_app. apply NoDup_snoc. split; [apply Hok|done].
  - rewrite List.map_app. apply NoDup_snoc. split; [apply Hok|done].
  - intros a [Ha| ->%list_elem_of_singleton]%elem_of_app.
    + destruct (ao_fresh _ Hok a Ha) as (n & Hn & Hu). exists n. split; [lia|done].
    + exists (ad_nonce d). split; [lia|apply Hid].
  - intros a Ha. exists a. split; [apply elem_of_app; by left|reflexivity].
Qed.

Lemma approval_row_maker input agentId key tool room m requester now :
  row_maker (approval_row stringify input agentId key tool room m requester now).
Proof.
  unfold approval_row. destruct requester as [role step name]. simpl.
  destruct role; simpl; [destruct (orchestratorMayApprove m)|]; simpl; (split; [intros id|done..]); split;
    first [by apply not_settled|by left|by right].
Qed.

Lemma runs_insert {B} db row (k : option Approval → P B) Q :
  row_maker row → (∀ d, reach db d → runs d (k None) Q) →
  (∀ d a, reach db d → seen a d → runs d (k (Some a)) Q) →
  runs db (insert_approval row uuid ≫= k) Q.
Proof using Inj0.
  intros Hm Hnone Hsome. unfold insert_approval. apply runs_write; [intros d; by apply aguar_insert|].
  intros d H1 H2. assert (Hr : reach db (insert_row row uuid d)) by by eapply reach_trans.
  cbv beta. destruct (request_taken row d) eqn:E; [by apply Hnone|]. apply Hsome; [done|].
  apply seen_here; [apply H2|]. unfold insert_row. rewrite E. simpl. apply elem_of_app. right.
  by apply list_elem_of_singleton.
Qed.

Lemma runs_assertHost_last db caller host : runs db (assertHost caller host) (λ _ _, True).
Proof using Type. unfold assertHost. destruct (_ || _); [by apply runs_ret|apply runs_refuse_if_last]. Qed.

Lemma runs_resolveRequester {B} db room m agentId caller (k : Requester → P B) Q :
  (∀ r d, reach db d → runs d (k r) Q) → runs db (resolveRequester agent_name room m agentId caller ≫= k) Q.
Proof using Type.
  intros H. eapply (runs_bind _ _ _ (λ _ _, True)); [|intros r d Hd _; by apply H].
  unfold resolveRequester. apply runs_refuse_if. intros _. destruct (present _).
  - apply runs_read. intros d _. destruct (find_any_step _ d) as [[mid s]|]; [|apply runs_refuse].
    apply runs_refuse_if. intros _. apply runs_refuse_if. intros _.
    eapply runs_bind; [apply runs_assertHost_last|]. intros _ d1 _ _. by apply runs_ret.
  - apply runs_refuse_if. intros _. eapply runs_bind; [apply runs_assertHost_last|].
    intros _ d1 _ _. by apply runs_ret.
Qed.

Lemma runs_wakeOrchestrator db m row : runs db (wakeOrchestrator envs m row) (λ _ _, True).
Proof using Type.
  unfold wakeOrchestrator. destruct (ms_room_id m) as [room|]; [|by apply runs_ret].
  destruct (truthy room); [|by apply runs_ret]. intros Hok d Hd. split; [by apply aguar_same|]. by intros ? ? ? ?.
Qed.

Lemma runs_announce db m row : seen row db → runs db (announce envs m row) view_true.
Proof using Type.
  intros Hs. unfold announce. apply runs_record. intros d1 H1. apply (seen_reach _ _ d1) in Hs; [|done].
  destruct (routed_to _ _); [|by apply runs_background, runs_view].
  eapply runs_bind; [apply runs_wakeOrchestrator|]. intros delivered d2 H2 _.
  apply (seen_reach _ _ d2) in Hs; [|done]. destruct delivered; [by apply runs_view|].
  eapply runs_bind; [by apply runs_escalate|]. intros moved d3 _ [Hm _]. by apply runs_view.
Qed.

Lemma runs_find_request_view {B} db agent key (k : option Approval → P B) Q :
  (∀ d, reach db d → runs d (k None) Q) → (∀ d a, reach db d → seen a d → runs d (k (Some a)) Q) →
  runs db (read (find_request agent key) ≫= k) Q.
Proof using Type.
  intros Hnone Hsome. apply runs_read. intros d Hd. destruct (find_request agent key d) as [a|] eqn:E; [|by apply Hnone].
  apply find_Some_elem in E as [Ha _]. apply Hsome; [done|]. apply seen_here; [apply Hd|done].
Qed.

Lemma runs_request db input caller :
  runs db (request envs rooms agent_name stringify uuid input caller) view_true.
Proof using Inj0.
  unfold request. apply runs_refuse_if. intros _. apply runs_find_request_view.
  2:{ intros d a Hd Ha. apply runs_assertRequester. intros d1 H1. apply runs_view. by eapply seen_reach. }
  intros d Hd. apply runs_read. intros d1 H1. destruct (rooms _) as [room|]; [|apply runs_refuse].
  apply runs_refuse_if. intros _. apply runs_refuse_if. intros _. apply runs_read. intros d2 H2.
  destruct (find_mission _ d2) as [m|]; [|apply runs_refuse]. apply runs_resolveRequester. intros r d3 H3.
  destruct (isTerminalMissionStatus _); [apply runs_refusal|]. destruct (negb _); [apply runs_refusal|].
  apply runs_read. intros d4 H4. apply runs_insert; [apply approval_row_maker| |].
  - intros d5 H5. apply runs_find_request_view; [intros d6 H6; apply runs_refuse|].
    intros d6 a H6 Ha. by apply runs_view.
  - intros d5 a H5 Ha. by apply runs_announce.
Qed.

(** ** The sweep and the notices *)

Lemma oldest_seen f w d a : adb_ok d → a ∈ oldest f w d → seen a d.
Proof using Type.
  intros Hok [Ha _]%subseteq_take%elem_of_sort_by%elem_of_lfilter. by apply seen_here.
Qed.

Lemma runs_sweep db now : runs db (sweep escalate_ms now) (λ _ _, True).
Proof using Type.
  unfold sweep. apply runs_read. intros d1 H1. eapply runs_bind.
  { apply runs_each with seen; [by intros; eapply seen_reach|intros a Ha; by eapply oldest_seen; [apply H1|]|].
    intros s a d Ha. eapply runs_bind; [by apply runs_cancel|]. intros after d' _ _. by apply runs_ret. }
  intros n d2 H2 _. apply runs_read. intros d3 H3. eapply runs_bind.
  { apply runs_each with seen; [by intros; eapply seen_reach|intros a Ha; by eapply oldest_seen; [apply H3|]|].
    intros s a d Ha. eapply runs_bind; [by apply runs_escalate|]. intros after d' _ _. by apply runs_ret. }
  intros e d4 _ _. by apply runs_ret.
Qed.

Lemma runs_sendUserNotice db id : runs db (sendUserNotice id) (λ _ _, True).
Proof using Type.
  unfold sendUserNotice. apply runs_read. intros d1 _. apply runs_update; [apply patch_notified|]. intros b d2 _.
  destruct b; simpl; [|by apply runs_ret]. apply runs_read. intros d3 _. apply runs_read. intros d4 _.
  destruct (row ← _; _) as [m|]; [|by apply runs_ret]. apply runs_record. intros d5 _. by apply runs_ret.
Qed.

(** ** Pools of calls *)

(** What a finished call was told: the decision on a request. *)
Definition told (c : acall) (r : res aerr reply) : option (string * string) :=
  match c, r with
  | ac_user id _ _ _ d _, Ok (rp_decided _ _) => Some (id, decision_text d)
  | ac_orchestrator id _ d _, Ok (rp_decided _ _) => if escalates d then None else Some (id, decision_text d)
  | _, Ok (rp_view v) => id ← wv_id v; d ← wv_decision v; Some (id, d)
  | _, _ => None
  end.

(** The row a decider was told carries its own answer. *)
Definition credited (c : acall) (r : res aerr reply) (db : Adb) : Prop :=
  match c, r with
  | ac_user id _ user _ _ _, Ok (rp_decided a false) =>
      a ∈ ad_approvals db ∧ ap_id a = id ∧ ap_decided_by_type a = Some "user" ∧ ap_decided_by a = Some user
  | ac_orchestrator id k d _, Ok (rp_decided a false) =>
      escalates d = true ∨
      (a ∈ ad_approvals db ∧ ap_id a = id ∧
       ap_decided_by_type a = Some "orchestrator" ∧ ap_decided_by a = Some (caller_id k))
  | _, _ => True
  end.

Definition promise (c : acall) (r : res aerr reply) (db : Adb) : Prop :=
  (∀ id d, told c r = Some (id, d) → ∃ a, recorded id d a db) ∧ credited c r db.

Lemma promise_err c e db : promise c (Err e) db.
Proof using Type. split; [intros id d; by destruct c|by destruct c]. Qed.

Lemma told_view v db id d :
  view_true v db → (i ← wv_id v; dd ← wv_decision v; Some (i, dd)) = Some (id, d) → ∃ a, recorded id d a db.
Proof using Type.
  intros Hv. destruct (wv_id v) as [i|] eqn:Ei; [|done]. simpl. destruct (wv_decision v) as [dd|] eqn:Ed; [|done].
  simpl. intros [= <- <-]. by apply (Hv i dd).
Qed.

Lemma runs_reply {A} db (p : P A) (f : A → reply) c Q :
  runs db p Q → (∀ a d, Q a d → promise c (Ok (f a)) d) → (∀ a d d', Q a d → reach d d' → Q a d') →
  adb_ok db → safe aguar (promise c) (a ← p; mret (f a)) db.
Proof using Type.
  intros Hp HQ Hst Hok. eapply safe_weaken; [|apply (runs_bind db p _ Q (λ r d, promise c (Ok r) d)); [done| |done]].
  - intros [r|e] d H; [by apply H|apply promise_err].
  - intros a d Hd Ha. apply runs_ret. intros d' Hd'. apply HQ. by eapply Hst.
Qed.

Lemma view_true_reach v d d' : view_true v d → reach d d' → view_true v d'.
Proof using Type.
  intros Hv Hr id dd Hi Hd. destruct (Hv id dd Hi Hd) as [a Ha]. exists a. by eapply recorded_reach.
Qed.

Definition program_of : acall → P reply := program envs rooms agent_name stringify uuid escalate_ms.

Lemma program_safe db c : adb_ok db → safe aguar (promise c) (program_of c) db.
Proof using Inj0.
  intros Hok. destruct c as [i k|id a k t|id a k r|id k d r|id acc u n d t|now]; unfold program_of, program.
  - apply (runs_reply _ _ rp_view _ view_true); [apply runs_request| |apply view_true_reach|done].
    intros v d Hv. split; [|done]. intros id dd. by apply told_view.
  - apply (runs_reply _ _ rp_view _ view_true); [apply runs_wait| |apply view_true_reach|done].
    intros v d Hv. split; [|done]. intros i dd. by apply told_view.
  - apply (runs_reply _ _ rp_view _ view_true); [apply runs_cancelByRequester| |apply view_true_reach|done].
    intros v d Hv. split; [|done]. intros i dd. by apply told_view.
  - eapply (runs_reply _ _ (λ x, rp_decided x.1 x.2)); [apply runs_decideAsOrchestrator| | |done].
    + intros [a already] db' H. unfold promise, told, credited. simpl. destruct (escalates d).
      * split; [done|]. destruct already; auto.
      * destruct (H eq_refl) as [Hr Hc]. split; [intros ? ? [= <- <-]; eauto|].
        destruct already; [done|]. right. destruct (Hc eq_refl). split_and!; [apply Hr..|done|done].
    + intros a d1 d2 H Hr He. by eapply answered_reach; [apply H|].
  - eapply (runs_reply _ _ (λ x, rp_decided x.1 x.2)); [apply runs_decideAsUser| |intros a d1 d2; apply answered_reach|done].
    intros [a already] db' [Hr Hc]. split; [intros ? ? [= <- <-]; eauto|]. simpl.
    destruct already; [done|]. destruct (Hc eq_refl). split_and!; [apply Hr..|done|done].
  - apply (runs_reply _ _ (λ x, rp_swept x.1 x.2) _ (λ _ _, True)); [apply runs_sweep|done..].
Qed.

(** Everything else that happens to the tables: missions move, time passes. *)
Definition elsewhere (db db' : Adb) : Prop :=
  ad_approvals db' = ad_approvals db ∧ ad_nonce db' = ad_nonce db.

(** Any number of calls, interleaved query by query. *)
Definition arun (db : Adb) (calls : list acall) (s : Adb * list (P reply)) : Prop :=
  rtc (pool_step notice_program elsewhere) (db, List.map program_of calls) s.

Lemma notice_safe i db c : adb_ok db → safe aguar (promise c) (notice_program i) db.
Proof using Type.
  intros Hok. destruct i as [id|mission gate].
  - apply (runs_reply _ _ rp_noticed _ (λ _ _, True)); [apply runs_sendUserNotice| |done|done].
    intros b d _. by destruct c.
  - apply (runs_reply db (send gate_notice mission gate) (λ _, rp_noticed true) c (λ _ _, True)); [|by destruct c|done|done].
    unfold send, record. apply runs_read. intros d _. destruct (ad_recipients d mission) as [users|]; [|by apply runs_ret].
    apply runs_write; [intros d0; by apply aguar_same|]. intros d1 _ _.
    apply runs_query; [intros d2 _; by apply aguar_same|]. intros d2 _ _. by apply runs_ret.
Qed.

Definition finished (s : Adb * list (P reply)) (i : nat) (r : res aerr reply) : Prop := s.2 !! i = Some (done_ r).

Lemma arun_promises db calls s :
  adb_ok db → arun db calls s →
  reach db s.1 ∧ ∀ i c r, calls !! i = Some c → finished s i r → promise c r s.1.
Proof using Inj0.
  intros Hok Hrun. set (Q i r d := ∀ c, calls !! i = Some c → promise c r d).
  assert (Hsafe : ∀ {A} (p : prog Adb Job A) (F : acall → A → Adb → Prop) d,
    (∀ c, safe aguar (F c) p d) → safe aguar (λ a d, ∀ c, F c a d) p d).
  { intros A p F. induction p as [a|upd k IH|j p IH]; simpl; intros d H; [intros d' Hd c; by apply (H c)| |by apply IH].
    intros d' Hd. split; [by apply (H (ac_sweep 0) d')|]. apply IH. intros c. by apply (H c d'). }
  destruct (pool_safe_run aguar notice_program elsewhere adb_ok Q (db, List.map program_of calls) s) as [Hg Hs].
  - intros d d' [Ha Hn]. by apply aguar_same.
  - intros d d' Hd Hg. by apply Hg.
  - intros i j d Hd. eapply safe_weaken; [|apply (Hsafe _ _ promise); intros c; by apply notice_safe].
    intros r d' H c _. apply H.
  - exact Hok.
  - intros i p Hi. simpl in Hi. apply list_lookup_fmap_Some in Hi as (c & -> & Hc).
    eapply safe_weaken; [|by apply program_safe]. intros r d H c' Hc'. congruence.
  - exact Hrun.
  - split; [by apply guar_reach|]. intros i c r Hc Hf. by apply (pool_result _ _ _ _ _ Hs Hf).
Qed.
End asking.
End safety.

(** * Tool approvals: the guarantees

    One answer per request whatever the interleaving, and who may give it. *)

Section race.
Context (envs : string → Env) (rooms : string → option Room) (agent_name : string → option string).
Context (stringify : jsval → option string) (uuid : nat → string) (escalate_ms : option Q).
Context `{!Inj (=) (=) uuid}.

(** C7: one answer per request.  Let any number of requests, polls, answers of
    the user and of the orchestrator, withdrawals and sweeps run over one table,
    interleaved query by query, while missions change under them.  Then
    everyone who is told a decision on a request is told the same one, it is the
    one on record, and whoever is told that its answer was taken is the one the
    record names; a request that was settled before stays as it was. *)
Theorem one_answer_per_request db calls s :
  adb_ok uuid db → arun uuid agent_name escalate_ms envs rooms stringify db calls s →
  (∀ a, a ∈ ad_approvals db → is_pending a = false → a ∈ ad_approvals s.1) ∧
  ∀ i c r, calls !! i = Some c → finished s i r →
    credited c r s.1 ∧
    ∀ id d, told c r = Some (id, d) →
      (∃ a, recorded id d a s.1) ∧
      ∀ j c' r' d', calls !! j = Some c' → finished s j r' → told c' r' = Some (id, d') → d' = d.
Proof using Inj0.
  intros Hok Hrun. destruct (arun_promises _ _ _ _ _ _ db calls s Hok Hrun) as [[Hs Hm] Hp]. split.
  - intros a Ha Hset. destruct (Hm a Ha) as (b & Hb & Hab). by rewrite <- (rm_settled _ _ Hab Hset).
  - intros i c r Hc Hf. destruct (Hp i c r Hc Hf) as [Ht Hcr]. split; [done|]. intros id d Hd. split; [by apply Ht|].
    intros j c' r' d' Hc' Hf' Hd'. destruct (Ht id d Hd) as (a & Ha & Hi & Hda & _).
    destruct (proj1 (Hp j c' r' Hc' Hf') id d' Hd') as (b & Hb & Hi' & Hdb & _).
    assert (a = b) as <- by (apply (by_id uuid s.1); [done..|congruence]). congruence.
Qed.

(** Who may answer.  Along any such run a request is answered by the
    orchestrator only if a member asked it and it was routed to the orchestrator
    when it was answered: nobody approves its own request, and what has moved to
    the user is answered by the user or withdrawn. *)
Theorem approval_authority db calls s :
  adb_ok uuid db → arun uuid agent_name escalate_ms envs rooms stringify db calls s →
  (∀ a, a ∈ ad_approvals s.1 → ap_decided_by_type a = Some "orchestrator" →
    ap_requester_role a = "member" ∧ ap_route a = "orchestrator") ∧
  (∀ a, a ∈ ad_approvals db → ap_route a = "user" →
    ∃ a', a' ∈ ad_approvals s.1 ∧ ap_id a' = ap_id a ∧ ap_route a' = "user" ∧
          (ap_decided_by_type a' ≠ Some "orchestrator")).
Proof using Inj0.
  intros Hok Hrun. destruct (arun_promises _ _ _ _ _ _ db calls s Hok Hrun) as [[Hs Hm] _].
  assert (Hauth : ∀ a, a ∈ ad_approvals s.1 → ap_decided_by_type a = Some "orchestrator" →
    ap_requester_role a = "member" ∧ ap_route a = "orchestrator").
  { intros a Ha Ht. destruct (ao_rows _ _ Hs a Ha) as [[] _]; first [congruence|by split]. }
  split; [exact Hauth|]. intros a Ha Hu. destruct (Hm a Ha) as (b & Hb & Hab). exists b.
  pose proof (rm_user _ _ Hab Hu) as Hbu. split_and!; [done|by apply row_moves_id|done|].
  intros Ht. destruct (Hauth b Hb Ht) as [_ Hr]. congruence.
Qed.
End race.

(** ** A race *)

#[export] Instance unary_uuid_Inj : Inj (=) (=) unary_uuid := unary_uuid_inj.

Definition sample_request : Approval :=
  {| ap_id := "u"; ap_account_id := "acc"; ap_mission_id := "mission"; ap_step_id := Some "id-a";
     ap_step_key := Some "a"; ap_room_id := "step-room"; ap_requester_role := "member";
     ap_requester_agent_id := "agent"; ap_requester_name := "Dev"; ap_request_key := "k1"; ap_tool_name := "Bash";
     ap_title := ""; ap_description := ""; ap_input := ""; ap_can_allow_session := false;
     ap_status := "pending"; ap_route := "orchestrator"; ap_route_reason := "orchestrator_trusted";
     ap_routed_at := 0; ap_decision := None; ap_decided_by_type := None; ap_decided_by := None;
     ap_decided_by_name := ""; ap_decision_note := ""; ap_decided_at := None; ap_last_polled_at := 0;
     ap_user_notified_at := None |}.

Definition sample_adb : Adb :=
  {| ad_approvals := [sample_request];
     ad_worlds := [sample_world "running" [(sample_step "a" "running" [] 0)<|st_room_id := Some "step-room"|>]];
     ad_marks := ∅; ad_claimed := []; ad_recipients := λ _, Some []; ad_sent := []; ad_now := 1000; ad_nonce := 1 |}.

(** The orchestrator allows and the user denies at once, while the host polls. *)
Definition race_calls : list acall :=
  [ac_orchestrator "u" the_orchestrator (JStr "allow") JUndef;
   ac_user "u" "acc" "user-1" "Ann" (JStr "deny") JUndef;
   ac_wait "u" "agent" {| hc_accountId := None; hc_runtimeKey := None; hc_hostId := None |} (JInt 25000)].

Definition race_pool : Adb * list (P reply) :=
  run_schedule notice_program
    ([0; 0; 0; 0; 1; 1; 1; 2; 2; 2; 2; 2; 2; 2; 2; 1; 0; 0; 1; 1; 2; 2; 2]%nat)
    (sample_adb, List.map (program_of unary_uuid (λ _, None) None (λ _, sample_env) (λ _, None) (λ _, None)) race_calls).

Definition reply_of (s : Adb * list (P reply)) (i : nat) : res aerr reply :=
  match s.2 !! i with
  | Some (done_ r) => r
  | _ => Err {| ae_code := 0; ae_why := storage_failed |}
  end.

Definition result_refused (r : res aerr reply) : bool := match r with Ok _ => false | Err _ => true end.

Lemma sample_adb_ok : adb_ok unary_uuid sample_adb.
Proof.
  split; simpl.
  - intros a ->%list_elem_of_singleton. split; [by apply not_settled|by right].
  - apply (bool_decide_unpack _). vm_compute. exact I.
  - apply (bool_decide_unpack _). vm_compute. exact I.
  - intros a ->%list_elem_of_singleton. exists 0%nat. split; [lia|done].
Qed.

Lemma race_run :
  arun unary_uuid (λ _, None) None (λ _, sample_env) (λ _, None) (λ _, None) sample_adb race_calls race_pool.
Proof. apply run_schedule_steps. Qed.

(** The user came first: the orchestrator is refused and the host hears the
    user's answer, the one on record. *)
Lemma one_answer_per_request_witness :
  result_refused (reply_of race_pool 0) = true ∧
  told (ac_wait "u" "agent" {| hc_accountId := None; hc_runtimeKey := None; hc_hostId := None |} (JInt 25000))
    (reply_of race_pool 2) = Some ("u", "deny") ∧
  ∃ a, recorded "u" "deny" a race_pool.1.
Proof.
  split; [vm_compute; reflexivity|]. split; [vm_compute; reflexivity|].
  destruct (one_answer_per_request (λ _, sample_env) (λ _, None) (λ _, None) (λ _, None) unary_uuid None
    sample_adb race_calls race_pool sample_adb_ok race_run) as [_ H].
  destruct (H 2%nat _ (reply_of race_pool 2) eq_refl) as [_ Ht]; [vm_compute; reflexivity|].
  apply (Ht "u" "deny"). vm_compute. reflexivity.
Defined.

Lemma approval_authority_witness :
  ∃ a, a ∈ ad_approvals race_pool.1 ∧ ap_route a = "orchestrator" ∧ ap_decided_by_type a = Some "user" ∧
  ∀ b, b ∈ ad_approvals race_pool.1 → ap_decided_by_type b = Some "orchestrator" →
    ap_requester_role b = "member" ∧ ap_route b = "orchestrator".
Proof.
  destruct (approval_authority (λ _, sample_env) (λ _, None) (λ _, None) (λ _, None) unary_uuid None
    sample_adb race_calls race_pool sample_adb_ok race_run) as [H _].
  eexists. split; [vm_compute; apply list_elem_of_here|]. split; [reflexivity|]. split; [reflexivity|]. exact H.
Defined.
