(* ===== verification/Reaper.v ===== *)
(** * The reaper

    [orchestration-reaper.service.ts]: the periodic sweep that recovers silent
    steps, re-briefs and finally gives up stalled missions, finishes interrupted
    post-actions and settles approvals.  A sweep reads snapshots and then calls
    the runner, which takes the mission's lock: each call is one step of the
    program, and anything may happen between two of them. *)

From S2P Require Import Prelude.
From S2P Require Import JsStd.
From S2P Require Import Vocabulary.
From S2P Require Import Plan.
From S2P Require Import Graph.
From S2P Require Import GraphRun.
From S2P Require Import Patch.
From S2P Require Import Roster.
From S2P Require Import Entities.
From S2P Require Import Logic.
From S2P Require Import Samples.
From S2P Require Import PostActions.
From S2P Require Import Engine.
From S2P Require Import Frame.
From S2P Require Import Rows.
From S2P Require Import Limits.
From S2P Require Import Lifecycle.
From S2P Require Import StepEdit.
From S2P Require Import PlanIntake.
From S2P Require Import Reports.
From S2P Require Import Recovery.
From S2P Require Import Calls.
From S2P Require Import StepLife.
From S2P Require Import Refinement.
From S2P Require Import History.
From S2P Require Import Parallel.
From S2P Require Import Concurrent.
From S2P Require Import Approvals.
From S2P Require Import Tables.
From S2P Require Import ConfirmNotify.
From S2P Require Import ApprovalService.
From S2P Require Import ProgramLogic.
From Stdlib Require Import QArith Qround.
From stdpp Require Import pretty.
From Stdlib Require Import QArith.
#[local] Open Scope Z_scope.

(** ** Configuration *)

(** [raw] is [Number(process.env[name])] where it is finite. *)
Definition envMs (raw : option Q) (fallback min max : Z) : Z :=
  match raw with
  | None => fallback
  | Some q => Z.min max (Z.max min (Qfloor q))
  end.

Definition PLANNING_NUDGE_LIMIT : Z := 2.
Definition RUNNING_STALL_NUDGE_LIMIT : Z := 2.

Record ReaperConfig := {
  rf_sweepMs : Z;
  rf_planningTimeoutMs : Z;
  rf_leaseGraceMs : Z;
  rf_runningStallTimeoutMs : Z;
  rf_confirmReminderAfterMs : Z
}.

(** The numbers of [ORCHESTRATION_REAPER_SWEEP_MS], [..._PLANNING_TIMEOUT_MS],
    [..._LEASE_GRACE_MS], [..._RUNNING_STALL_TIMEOUT_MS] and
    [..._CONFIRM_REMINDER_MS]. *)
Definition reaper_config (sweep planning grace stall reminder : option Q) : ReaperConfig :=
  {| rf_sweepMs := envMs sweep (5 * 60000) 30000 (60 * 60000);
     rf_planningTimeoutMs := envMs planning (20 * 60000) 60000 (24 * 60 * 60000);
     rf_leaseGraceMs := envMs grace (5 * 60000) 10000 (60 * 60000);
     rf_runningStallTimeoutMs := envMs stall (20 * 60000) 60000 (24 * 60 * 60000);
     rf_confirmReminderAfterMs := envMs reminder (24 * 60 * 60000) 0 (30 * 24 * 60 * 60000) |}.

(** ** Decisions *)

(** A step the sweep hands to [reconcileStaleLease]: in flight in a running
    mission with a timeout, and silent for that long or already in its grace. *)
Definition step_due (now : Z) (mission : option Mission) (s : Step) : bool :=
  match mission with
  | Some m =>
      let timeoutMs := ms_step_timeout_minutes m * 60000 in
      String.eqb (ms_status m) "running" && (0 <? timeoutMs)
      && match lease_baseline s with
         | Some baseline => bool_decide (is_Some (st_lease_stale_since s)) || (timeoutMs <=? now - baseline)
         | None => false
         end
  | None => false
  end.

(** Giving up names how often the orchestrator was re-briefed. *)
Inductive StallAction : Type := stall_wait | stall_nudge | stall_give_up (prior : Z).

Definition has_reason (reason : string) (e : Event) : bool := bool_decide (ev_keys e = [reason]).
Definition is_wake (e : Event) : bool := String.eqb (ev_type e) "orchestrator_woken".

(** Wakes of any kind, and the reaper's own attempts that could not be delivered. *)
Definition is_attempt (failed : string) (e : Event) : bool := is_wake e || has_reason failed e.
Definition is_reaper_attempt (tag failed : string) (e : Event) : bool := has_reason tag e || has_reason failed e.

(** [now - created_at < window] of the newest attempt. *)
Definition recent_attempt (window now : Z) (attempts : list Event) : bool :=
  match attempts with
  | [] => false
  | e :: _ => now - ev_created_at e <? window
  end.

(** What a stall calls for, by the mission's newest wake and error events. *)
Definition stall_action (tag failed : string) (limit window now : Z) (wakeEvents : list Event) : StallAction :=
  let attempts := lfilter (is_attempt failed) wakeEvents in
  let prior := Z.of_nat (length (lfilter (is_reaper_attempt tag failed) attempts)) in
  if recent_attempt window now attempts then stall_wait
  else if limit <=? prior then stall_give_up prior
  else stall_nudge.

(** [type IN ('orchestrator_woken', 'error') ORDER BY created_at DESC LIMIT 20]. *)
Definition wake_events (w : World) : list Event :=
  take 20 (sort_by (λ e, - ev_created_at e)
    (lfilter (λ e, is_wake e || String.eqb (ev_type e) "error") (reverse (w_events w)))).

Definition older_than (window now : Z) (baseline : option Z) : bool :=
  match baseline with Some t => window <=? now - t | None => false end.

Definition planning_baseline (m : Mission) : option Z :=
  match ms_started_at m with Some t => Some t | None => ms_created_at m end.

(** [steps.reduce((max, s) => ..., 0)] *)
Definition last_finished (steps : list Step) : Z :=
  foldl (λ max s, let t := default 0 (st_finished_at s) in if max <? t then t else max) 0 steps.

Definition running_baseline (m : Mission) (steps : list Step) : option Z :=
  let ms := if last_finished steps =? 0 then default 0 (ms_started_at m) else last_finished steps in
  if ms =? 0 then None else Some ms.

(** Work in flight, or a gate waiting for its user. *)
Definition is_busy (steps : list Step) : bool :=
  lsome (λ s, isInFlight (st_status s)) steps || lsome (λ s, isAwaitingUser (st_status s)) steps.

(** The reasons given; their dash is outside the modelled code units. *)
Definition never_planned (prior : Z) : string :=
  "orchestrator never submitted a plan - re-briefed " +:+ pretty prior +:+
  " time(s) without a submit_orchestration_plan call".
Definition never_completed (prior : Z) : string :=
  "mission stalled in running with no in-flight work - re-briefed " +:+ pretty prior +:+
  " time(s) without a complete_orchestration_mission call".

(** ** The sweep *)

Section reaper.
Context (envs : string → Env) (escalate_ms : option Q) (cfg : ReaperConfig).
(** Where the backend sorts a missing [dispatched_at]. *)
Context (null_rank : Z).

Definition find_world (id : string) (db : Adb) : option World :=
  List.find (λ w, String.eqb (ms_id (w_mission w)) id) (ad_worlds db).

(** A call of the runner, under the mission's lock. *)
Definition runner {A} (mission_id : string) (m : M A) : P A :=
  query (on_mission mission_id (λ w, snd (m w)))
    (λ db, match find_world mission_id db with
           | Some w =>
               match fst (m w) with
               | Ok a => done_ (Ok a)
               | Err e => done_ (Err {| ae_code := oe_code e; ae_why := engine_error (oe_why e) |})
               end
           | None => done_ (Err {| ae_code := 404; ae_why := no_such_mission |})
           end).

Definition catching {A} (p : P A) (h : P A) : P A :=
  prog_bind (λ r, match r with Ok a => done_ (Ok a) | Err _ => h end) p.

(** [WHERE status = ... LIMIT n], in the table's order. *)
Definition missions_where (p : Mission → bool) (n : nat) (db : Adb) : list Mission :=
  take n (lfilter p (List.map w_mission (ad_worlds db))).

Definition in_flight_rows (db : Adb) : list (string * Step) :=
  take 200 (sort_by (λ e, default null_rank (st_dispatched_at e.2))
    (lfilter (λ e, isInFlight (st_status e.2))
      (List.flat_map (λ w, List.map (λ s, (ms_id (w_mission w), s)) (w_steps w)) (ad_worlds db)))).

Definition is_failure (o : ReconcileOutcome) : bool :=
  match o with rec_terminal | rec_redispatched => true | _ => false end.

Definition reapStuckSteps (now : Z) : P Z :=
  inFlight ← read in_flight_rows;
  match inFlight with
  | [] => mret 0
  | _ =>
      missions ← read (λ db, lfilter (λ m, includes (List.map fst inFlight) (ms_id m))
                               (List.map w_mission (ad_worlds db)));
      each (λ failed e,
          let mission := List.find (λ m, String.eqb (ms_id m) e.1) missions in
          if negb (step_due now mission e.2) then mret failed
          else
            outcome ← runner e.1 (reconcileStaleLease (envs e.1) now (st_id e.2) (rf_leaseGraceMs cfg)
                        (default 0 (ms_step_timeout_minutes <$> mission)));
            mret (if is_failure outcome then failed + 1 else failed))
        0 inFlight
  end.

(** The counters of a stall sweep. *)
Record Tally := { ta_nudged : Z; ta_failed : Z }.
Definition no_tally : Tally := {| ta_nudged := 0; ta_failed := 0 |}.

Definition record_failed_nudge (mission_id reason : string) : P () :=
  write (on_mission mission_id (λ w, snd (recordEvent "error" None [reason] w))) (λ _, tt).

(** Re-brief or give up, as the timeline calls for. *)
Definition act_on_stall (now window limit : Z) (status tag failed_tag : string) (reason : Z → string)
    (m : Mission) (t : Tally) : P Tally :=
  wakeEvents ← read (λ db, from_option wake_events [] (find_world (ms_id m) db));
  match stall_action tag failed_tag limit window now wakeEvents with
  | stall_wait => mret t
  | stall_give_up prior =>
      wasFailed ← runner (ms_id m) (failMissionExternally now status (reason prior));
      mret (if wasFailed : bool then t<|ta_failed ::= Z.succ|> else t)
  | stall_nudge =>
      catching
        (runner (ms_id m) (nudgeOrchestrator (envs (ms_id m)) (ms_account_id m) tag);;
         mret (t<|ta_nudged ::= Z.succ|>))
        (record_failed_nudge (ms_id m) failed_tag;; mret t)
  end.

Definition reapStalledPlanning (now : Z) : P Tally :=
  planning ← read (missions_where (λ m, String.eqb (ms_status m) "planning") 100);
  match planning with
  | [] => mret no_tally
  | _ =>
      waiting ← read (missionsWithPendingRequests (List.map ms_id planning));
      each (λ t m,
          if negb (older_than (rf_planningTimeoutMs cfg) now (planning_baseline m)) then mret t
          else if includes waiting (ms_id m) then mret t
          else act_on_stall now (rf_planningTimeoutMs cfg) PLANNING_NUDGE_LIMIT "planning"
                 "planning_timeout" "planning_timeout_nudge_failed" never_planned m t)
        no_tally planning
  end.

Definition reapStalledRunning (now : Z) : P Tally :=
  running ← read (missions_where (λ m, String.eqb (ms_status m) "running") 100);
  match running with
  | [] => mret no_tally
  | _ =>
      waiting ← read (missionsWithPendingRequests (List.map ms_id running));
      each (λ t m,
          if includes waiting (ms_id m) then mret t
          else
            steps ← read (λ db, from_option w_steps [] (find_world (ms_id m) db));
            if is_busy steps then mret t
            else if negb (older_than (rf_runningStallTimeoutMs cfg) now (running_baseline m steps)) then mret t
            else act_on_stall now (rf_runningStallTimeoutMs cfg) RUNNING_STALL_NUDGE_LIMIT "running"
                   "running_stall" "running_stall_nudge_failed" never_completed m t)
        no_tally running
  end.

Definition recover_actions (env : Env) (now : Z) : M () := λ w,
  let '(_, w', _) := recoverPostActions env now w None in (Ok tt, w').

Definition reapPendingPostActions (now : Z) : P Z :=
  candidates ← read (missions_where
    (λ m, includes ["completed"; "failed"] (ms_status m) && ms_post_actions_pending m) 200);
  each (λ recovered m,
      catching (runner (ms_id m) (recover_actions (envs (ms_id m)) now);; mret (recovered + 1)) (mret recovered))
    0 candidates.

Record SweepResult := {
  sw_steps_failed : Z;
  sw_missions_nudged : Z;
  sw_missions_failed : Z;
  sw_post_actions_recovered : Z;
  sw_confirm_reminders : Z
}.
Definition nothing_swept : SweepResult :=
  {| sw_steps_failed := 0; sw_missions_nudged := 0; sw_missions_failed := 0; sw_post_actions_recovered := 0;
     sw_confirm_reminders := 0 |}.

(** One sweep.  [quiesced] and [sweeping]
    are the instance gate and the flag of a sweep under way. *)
Definition runOnce (quiesced sweeping : bool) (now : Z) : P SweepResult :=
  if quiesced || sweeping then mret nothing_swept
  else
    catching
      (stepsFailed ← reapStuckSteps now;
       planning ← reapStalledPlanning now;
       running ← reapStalledRunning now;
       postActionsRecovered ← reapPendingPostActions now;
       confirmReminders ← catching (remindAwaitingConfirm (rf_confirmReminderAfterMs cfg) now) (mret 0);
       _ ← catching (sweep escalate_ms now) (mret (0, 0));
       mret {| sw_steps_failed := stepsFailed;
               sw_missions_nudged := ta_nudged planning + ta_nudged running;
               sw_missions_failed := ta_failed planning + ta_failed running;
               sw_post_actions_recovered := postActionsRecovered;
               sw_confirm_reminders := confirmReminders |})
      (mret nothing_swept).
End reaper.

(** * The reaper as a client of the engine

    Whatever a sweep does, on however many servers and interleaved with whatever
    calls, it does through the engine's own transitions; and a mission that
    waits for its user is never one of those it gives up. *)

(** ** The mission's id is for life *)

Definition same_id (w w' : World) : Prop := ms_id (w_mission w') = ms_id (w_mission w).

#[export] Instance same_id_preorder : PreOrder same_id.
Proof. split; unfold same_id; [done|congruence]. Qed.

Lemma moves_same_row_id {A} (m : M A) w : moves same_row m w → moves same_id m w.
Proof. unfold moves, same_row, same_id, row_of. intros H. exact (f_equal ms_id H). Qed.
#[export] Hint Extern 2 (moves same_id _ _) => apply moves_same_row_id; solve [auto 2 with moves] : moves.

Lemma same_id_update f w : (∀ m, ms_id (f m) = ms_id m) → moves same_id (update_mission f) w.
Proof. intros H. unfold moves, same_id. simpl. apply H. Qed.
#[export] Hint Extern 3 (moves same_id (update_mission _) _) =>
  apply same_id_update; intros; reflexivity : moves.

Lemma same_id_post_actions env now w : moves same_id (run_post_actions env now) w.
Proof.
  pose proof (runPostActions_core env now w) as H. unfold moves, same_id, run_post_actions.
  destruct (runPostActions env now w None) as [[o w'] n]. exact (f_equal (λ c, ms_id (co_mission c)) H).
Qed.
#[export] Hint Resolve same_id_post_actions : moves.

Lemma same_id_exec env c w : moves same_id (exec env c) w.
Proof.
  destruct c; simpl; try (apply moves_ignore; [typeclasses eauto|]); try solve [moves_auto].
  - unfold startMission, rolling_back. moves_auto.
  - unfold pauseMission. moves_auto.
  - unfold resumeMission. moves_auto.
  - unfold cancelMission. moves_auto.
  - unfold reopenMission, rolling_back. moves_auto. all: apply same_id_update; intros m; by case_match.
  - unfold completeMission. moves_auto.
  - unfold updateCriteria. moves_auto. apply moves_loop; [typeclasses eauto|]. intros m u v _.
    unfold update_criterion. moves_auto.
  - unfold submitPlan, settle_graph. moves_auto; [| |done|apply same_id_update; intros m; by repeat case_match..].
    + apply moves_loop; [typeclasses eauto|]. intros st s v _. unfold place_input. moves_auto.
    + apply moves_loop; [typeclasses eauto|]. intros st [n s] v _. unfold merge_step, revise_place. moves_auto.
  - unfold patchGraph. moves_auto.
  - unfold failMissionExternally. moves_auto.
Qed.

Lemma same_id_recover env now w : same_id w (snd (recover_actions env now w)).
Proof.
  unfold recover_actions, recoverPostActions, same_id, mbind, C_bind, getsC. simpl.
  destruct (negb _); [done|]. pose proof (runPostActions_core env now w) as H.
  destruct (runPostActions env now w None) as [[o w'] n]. exact (f_equal (λ c, ms_id (co_mission c)) H).
Qed.

(** ** Transitions of a mission *)

(** Everything that moves a mission: a call of its runner, a line of its
    timeline, a recovery of its post-actions, a poll that renews a lease, and
    the passing of time. *)
Inductive engine_step (env : Env) (w : World) : World → Prop :=
  | es_call c : engine_step env w (after env c w)
  | es_entry t k ks : engine_step env w (snd (recordEvent t k ks w))
  | es_actions now : engine_step env w (snd (recover_actions env now w))
  | es_poll now id room : engine_step env w (w<|w_steps ::= List.map (beat now id room)|>)
  | es_clock t : engine_step env w (w<|w_clock := t|>).

Lemma engine_step_id env w w' : engine_step env w w' → same_id w w'.
Proof. intros []; first [apply same_id_exec|apply same_id_recover|done]. Qed.

(** ** What the other transitions leave alone *)

Definition row_sig (s : Step) : string * string * string := (st_id s, st_key s, st_status s).

(** The rows' ids, keys and statuses, the graph and the limits stay. *)
Record quiet (w w' : World) : Prop := {
  qu_rows : List.map row_sig (w_steps w') = List.map row_sig (w_steps w);
  qu_graph : ms_graph_spec (w_mission w') = ms_graph_spec (w_mission w);
  qu_enabled : ms_graph_enabled (w_mission w') = ms_graph_enabled (w_mission w);
  qu_limit : ms_max_parallel_steps (w_mission w') = ms_max_parallel_steps (w_mission w);
  qu_status : ms_status (w_mission w') = ms_status (w_mission w);
  qu_nonce : w_nonce w' = w_nonce w
}.

Lemma quiet_recover env now w : quiet w (snd (recover_actions env now w)).
Proof.
  unfold recover_actions, recoverPostActions, mbind, C_bind, getsC. simpl.
  destruct (negb _); [by split|]. pose proof (runPostActions_core env now w) as H.
  destruct (runPostActions env now w None) as [[o w'] n]. unfold core_of in H. simpl in H.
  pose proof (f_equal co_mission H) as Hm. simpl in Hm. split; simpl.
  - by rewrite (f_equal co_steps H : w_steps w' = w_steps w).
  - exact (f_equal ms_graph_spec Hm).
  - exact (f_equal ms_graph_enabled Hm).
  - exact (f_equal ms_max_parallel_steps Hm).
  - exact (f_equal ms_status Hm).
  - exact (f_equal co_nonce H).
Qed.

Lemma quiet_poll now id room w : quiet w (w<|w_steps ::= List.map (beat now id room)|>).
Proof.
  split; try done. simpl. rewrite List.map_map. apply List.map_ext. intros s. unfold beat. by case_match.
Qed.

Lemma map_via {A B C} (f : A → B) (g : B → C) l l' : List.map f l = List.map f l' → List.map (g ∘ f) l = List.map (g ∘ f) l'.
Proof. intros H. unfold compose. rewrite <- (List.map_map f g l), <- (List.map_map f g l'). by rewrite H. Qed.

Lemma count_sig l : in_flight_count l = Z.of_nat (length (lfilter (λ x, isInFlight x.2) (List.map row_sig l))).
Proof.
  unfold in_flight_count. f_equal. induction l as [|s l IH]; [done|]. cbn [List.map]. rewrite !lfilter_cons.
  unfold running_step at 1. cbn [row_sig snd]. destruct (isInFlight (st_status s)); cbn [length]; congruence.
Qed.

Lemma quiet_ids w w' : quiet w w' →
  List.map st_id (w_steps w') = List.map st_id (w_steps w) ∧ List.map st_key (w_steps w') = List.map st_key (w_steps w).
Proof.
  intros [Hr _ _ _ _ _]. split; [exact (map_via row_sig (λ x, x.1.1) _ _ Hr)|exact (map_via row_sig (λ x, x.1.2) _ _ Hr)].
Qed.

Lemma quiet_identified env w w' : quiet w w' → identified env w → identified env w'.
Proof.
  intros Hq [H1 H2 H3 H4 H5]. pose proof (quiet_ids _ _ Hq) as [Hids Hkeys]. destruct Hq as [_ Hg _ _ _ Hn]. split.
  - by rewrite Hids.
  - by rewrite Hkeys.
  - by rewrite Hkeys.
  - intros s n Hs Hle. rewrite Hn in Hle. apply (elem_of_map_2 st_id) in Hs. rewrite Hids in Hs.
    apply elem_of_map in Hs as (x & -> & Hx). by apply H4.
  - unfold graph_nodes. by rewrite Hg.
Qed.

Lemma quiet_form env w w' : quiet w w' → well_formed env w → well_formed env w'.
Proof.
  intros Hq [Hi Hc Hen]. pose proof (quiet_ids _ _ Hq) as [_ Hkeys]. split; [by eapply quiet_identified|..].
  - by rewrite (qu_graph _ _ Hq), Hkeys.
  - by rewrite (qu_graph _ _ Hq), (qu_enabled _ _ Hq).
Qed.

(** Rows go forward, and stay identified. *)
Lemma recover_steps env now w : w_steps (snd (recover_actions env now w)) = w_steps w.
Proof.
  unfold recover_actions, recoverPostActions, mbind, C_bind, getsC. simpl.
  destruct (negb _); [done|]. pose proof (runPostActions_core env now w) as H.
  destruct (runPostActions env now w None) as [[o w'] n]. exact (f_equal co_steps H).
Qed.

Lemma engine_step_forward env w w' :
  distinct_uuids env → engine_step env w w' → identified env w →
  identified env w' ∧ grows forward (λ _, True) (w_steps w) (w_steps w').
Proof.
  intros Hd Hs Hi. assert (Hsame : ∀ l, l = w_steps w → grows forward (λ _, True) (w_steps w) l).
  { intros l ->. apply grows_refl; typeclasses eauto. }
  destruct Hs as [c|t k ks|now|now id room|t].
  - exact (run_calls_forward env [c] w Hd Hi).
  - split; [|by apply Hsame]. eapply quiet_identified; [|exact Hi]. by split.
  - split; [eapply quiet_identified; [apply quiet_recover|exact Hi]|]. apply Hsame, recover_steps.
  - split; [eapply quiet_identified; [apply quiet_poll|exact Hi]|]. apply grows_all. simpl.
    generalize (w_steps w). clear. intros l. induction l as [|s l IH]; [constructor|].
    simpl. constructor; [|exact IH]. unfold beat. by case_match.
  - split; [|by apply Hsame]. eapply quiet_identified; [|exact Hi]. by split.
Qed.

Lemma engine_step_limited env maxp B w w' :
  distinct_uuids env → maxp <= B → engine_step env w w' → limited env maxp B w → limited env maxp B w'.
Proof.
  intros Hd HB Hs Hl.
  assert (Hq : ∀ v, quiet w v → limited env maxp B v).
  { intros v Hq. destruct Hl as [Hf Hp Hc]. split; [by eapply quiet_form|by rewrite (qu_limit _ _ Hq)|].
    rewrite count_sig, (qu_rows _ _ Hq), <- count_sig. exact Hc. }
  destruct Hs as [c|t k ks|now|now id room|t]; [by apply (limited_exec env Hd maxp B HB c)| |..]; apply Hq;
    first [apply quiet_recover|apply quiet_poll|by split].
Qed.

(** ** Sweeps, query by query

    A guarantee that covers what a sweep may do to the tables is kept by the
    whole sweep.  Giving a mission up and recovering its post-actions are judged
    by what the sweep has read of the mission. *)
Section sweeps.
Context (envs : string → Env) (escalate_ms : option Q) (cfg : ReaperConfig) (null_rank : Z).
Context {I : Adb → Prop} {Mv : Adb → Adb → Prop} `{!PreOrder Mv}.

#[local] Abbreviation guar := (guar I Mv).
#[local] Abbreviation runs := (ProgramLogic.runs I Mv).

(** The guarantee covers the method on the mission. *)
Definition covered {A} (id : string) (m : M A) : Prop := ∀ db, guar db (on_mission id (λ w, snd (m w)) db).

Definition may_fail (id : string) : Prop :=
  ∀ now status reason, covered id (failMissionExternally now status reason).

Context (Hrec : ∀ id now step grace t, covered id (reconcileStaleLease (envs id) now step grace t)).
Context (Hnudge : ∀ id account tag, covered id (nudgeOrchestrator (envs id) account tag)).
Context (Hentry : ∀ id t k ks, covered id (recordEvent t k ks)).
Context (Happr : ∀ p f db, guar db (update_approvals p f db)).
Context (Hclaim : ∀ kind now m s v db, guar db (claim_row kind now m s v db)).
Context (Hsent : ∀ c users db, guar db (hand_over c users db)).
Context (Hplan : ∀ d m n, I d → m ∈ missions_where (λ m, String.eqb (ms_status m) "planning") n d → may_fail (ms_id m)).
Context (Hrun : ∀ d id, I d → is_busy (from_option w_steps [] (find_world id d)) = false → may_fail id).
Context (Hpost : ∀ d m n, I d →
  m ∈ missions_where (λ m, includes ["completed"; "failed"] (ms_status m) && ms_post_actions_pending m) n d →
  ∀ now, covered (ms_id m) (recover_actions (envs (ms_id m)) now)).

Lemma runs_runner {A} db id (m : M A) : covered id m → runs db (runner id m) (λ _ _, True).
Proof using Type.
  intros Hc. apply runs_query; [intros d _; apply Hc|]. intros d _ _.
  destruct (find_world id d) as [w|]; [destruct (fst (m w)) as [a|e]|]; first [by apply runs_ret|apply runs_refuse].
Qed.

Lemma runs_catching {A} db (p h : P A) :
  runs db p (λ _ _, True) → (∀ d, reach I Mv db d → runs d h (λ _ _, True)) → runs db (catching p h) (λ _ _, True).
Proof using PreOrder0.
  intros Hp Hh Hok. eapply safe_bind; [typeclasses eauto|by apply Hp|]. intros [a|e] d Hd _.
  - intros d' _. done.
  - destruct (guar_reach _ _ Hok Hd) as [Hd' Hm]. by apply Hh.
Qed.

Lemma runs_entry db id t k ks {B} (f : () → P B) :
  (∀ d, runs d (f tt) (λ _ _, True)) →
  runs db (write (on_mission id (λ w, snd (recordEvent t k ks w))) (λ _, tt) ≫= f) (λ _ _, True).
Proof using Hentry. intros Hf. apply runs_write; [apply Hentry|]. intros d _ _. apply Hf. Qed.

Lemma runs_act db now window limit status tag failed reason m t :
  may_fail (ms_id m) →
  runs db (act_on_stall envs now window limit status tag failed reason m t) (λ _ _, True).
Proof using PreOrder0 Hnudge Hentry.
  intros Hm. unfold act_on_stall. apply runs_read. intros d _. destruct (stall_action _ _ _ _ _ _) as [| |prior].
  - by apply runs_ret.
  - apply runs_catching.
    + eapply runs_bind; [apply runs_runner, Hnudge|]. intros _ d1 _ _. by apply runs_ret.
    + intros d1 _. apply runs_entry. intros d2. by apply runs_ret.
  - eapply runs_bind; [by apply runs_runner, Hm|]. intros b d1 _ _. by apply runs_ret.
Qed.

Lemma runs_planning db now : runs db (reapStalledPlanning envs cfg now) (λ _ _, True).
Proof using PreOrder0 Hnudge Hentry Hplan.
  unfold reapStalledPlanning. apply runs_read. intros d Hd.
  pose proof (λ m, Hplan d m 100%nat (proj1 Hd)) as Hm. destruct (missions_where _ _ d) as [|m0 l]; [by apply runs_ret|].
  apply runs_read. intros d1 _. apply runs_each with (λ m _, may_fail (ms_id m)); [done|by apply Hm|].
  intros t m d2 Hf. destruct (negb _); [by apply runs_ret|]. destruct (includes _ _); [by apply runs_ret|].
  by apply runs_act.
Qed.

Lemma runs_running db now : runs db (reapStalledRunning envs cfg now) (λ _ _, True).
Proof using PreOrder0 Hnudge Hentry Hrun.
  unfold reapStalledRunning. apply runs_read. intros d _. destruct (missions_where _ _ d) as [|m0 l]; [by apply runs_ret|].
  apply runs_read. intros d1 _. apply runs_each with (λ _ _, True); [done..|].
  intros t m d2 _. destruct (includes _ _); [by apply runs_ret|]. apply runs_read. intros d3 Hd3.
  destruct (is_busy _) eqn:Eb; [by apply runs_ret|]. destruct (negb _); [by apply runs_ret|].
  apply runs_act. by apply (Hrun d3); [apply Hd3|].
Qed.

Lemma runs_stuck db now : runs db (reapStuckSteps envs cfg null_rank now) (λ _ _, True).
Proof using PreOrder0 Hrec.
  unfold reapStuckSteps. apply runs_read. intros d _. destruct (in_flight_rows _ d) as [|e l]; [by apply runs_ret|].
  apply runs_read. intros d1 _. apply runs_each with (λ _ _, True); [done..|].
  intros n e' d2 _. destruct (negb _); [by apply runs_ret|].
  eapply runs_bind; [apply runs_runner, Hrec|]. intros o d3 _ _. by apply runs_ret.
Qed.

Lemma runs_post_actions db now : runs db (reapPendingPostActions envs now) (λ _ _, True).
Proof using PreOrder0 Hpost.
  unfold reapPendingPostActions. apply runs_read. intros d Hd.
  apply runs_each with (λ m _, covered (ms_id m) (recover_actions (envs (ms_id m)) now)); [done| |].
  - intros m Hm. exact (Hpost d m 200%nat (proj1 Hd) Hm now).
  - intros n m d2 Hc. apply runs_catching; [|intros d3 _; by apply runs_ret].
    eapply runs_bind; [by apply runs_runner|]. intros _ d3 _ _. by apply runs_ret.
Qed.

Lemma runs_tell_any db row type {B} (f : () → P B) :
  (∀ d, runs d (f tt) (λ _ _, True)) → runs db (tell row type ≫= f) (λ _ _, True).
Proof using PreOrder0 Hentry.
  intros Hf. eapply (runs_bind _ _ _ (λ _ _, True)); [|intros [] d _ _; apply Hf].
  apply runs_read. intros d _. destruct (find_mission _ d); [|by apply runs_ret].
  unfold record. apply runs_query; [intros d1 _; apply Hentry|]. intros d1 _ _. by apply runs_ret.
Qed.

Lemma runs_settled db row : runs db (settled_row (ap_id row) row) (λ _ _, True).
Proof using PreOrder0. by apply runs_read_last. Qed.

Lemma runs_approval_sweep db now : runs db (sweep escalate_ms now) (λ _ _, True).
Proof using PreOrder0 Hentry Happr.
  unfold sweep, cancel, escalate, compareAndSet, update_where. apply runs_read. intros d1 _. eapply runs_bind.
  { apply runs_each with (λ _ _, True); [done..|]. intros n row d2 _.
    eapply (runs_bind _ _ _ (λ _ _, True)); [|intros; by apply runs_ret].
    apply runs_read. intros d3 _. apply runs_write; [apply Happr|]. intros d4 _ _.
    eapply runs_bind; [apply runs_settled|]. intros fresh d5 _ _. destruct (negb _); [by apply runs_ret|].
    apply runs_tell_any. intros d6. by apply runs_ret. }
  intros n d2 _ _. apply runs_read. intros d3 _. eapply runs_bind; [|intros; by apply runs_ret].
  apply runs_each with (λ _ _, True); [done..|]. intros e row d4 _.
  eapply (runs_bind _ _ _ (λ _ _, True)); [|intros; by apply runs_ret].
  apply runs_read. intros d5 _. apply runs_write; [apply Happr|]. intros d6 _ _.
  eapply runs_bind; [apply runs_settled|]. intros fresh d7 _ _. destruct (negb _); [by apply runs_ret|].
  apply runs_tell_any. intros d8. apply runs_background. by apply runs_ret.
Qed.

Lemma runs_claim db kind m s v : runs db (claim kind m s v) (λ _ _, True).
Proof using PreOrder0 Hclaim.
  unfold claim. apply runs_read. intros d _. apply runs_query; [intros d1 _; apply Hclaim|]. intros d1 _ _. by apply runs_ret.
Qed.

Lemma runs_send db kind m s : runs db (send kind m s) (λ _ _, True).
Proof using PreOrder0 Hsent Hentry.
  unfold send, record. apply runs_read. intros d _. destruct (ad_recipients d m) as [users|]; [|by apply runs_ret].
  apply runs_write; [apply Hsent|]. intros d1 _ _. apply runs_query; [intros d2 _; apply Hentry|]. intros d2 _ _. by apply runs_ret.
Qed.

Lemma runs_reminders db afterMs now : runs db (remindAwaitingConfirm afterMs now) (λ _ _, True).
Proof using PreOrder0 Hclaim Hsent Hentry.
  unfold remindAwaitingConfirm. destruct (_ <=? _); [by apply runs_ret|]. apply runs_read. intros d _.
  destruct (take _ _) as [|e l]; [by apply runs_ret|]. apply runs_read. intros d1 _.
  apply runs_each with (λ _ _, True); [done..|]. intros n e' d2 _. destruct (negb _); [by apply runs_ret|].
  eapply (runs_bind _ _ _ (λ _ _, True)); [|intros; by apply runs_ret]. unfold remind, claimReminder.
  eapply runs_bind; [apply runs_claim|]. intros won d3 _ _. destruct (negb _); [by apply runs_ret|].
  eapply runs_bind; [apply runs_send|]. intros [] d4 _ _. by apply runs_ret.
Qed.

Lemma runs_once db q s now : runs db (runOnce envs escalate_ms cfg null_rank q s now) (λ _ _, True).
Proof using All.
  unfold runOnce. destruct (q || s); [by apply runs_ret|]. apply runs_catching; [|intros; by apply runs_ret].
  eapply runs_bind; [apply runs_stuck|]. intros n1 d1 _ _.
  eapply runs_bind; [apply runs_planning|]. intros t1 d2 _ _.
  eapply runs_bind; [apply runs_running|]. intros t2 d3 _ _.
  eapply runs_bind; [apply runs_post_actions|]. intros n2 d4 _ _.
  eapply runs_bind; [apply runs_catching; [apply runs_reminders|intros; by apply runs_ret]|]. intros n3 d6 _ _.
  eapply runs_bind; [apply runs_catching; [apply runs_approval_sweep|intros; by apply runs_ret]|].
  intros x d5 _ _. by apply runs_ret.
Qed.
End sweeps.
