(* ===== verification/ReaperGuarantees.v ===== *)
(** * The reaper: the guarantees

    Sweeps of any number of servers, interleaved with each other and with
    everything else that moves a mission.  A call of the engine is one step: it
    holds the mission's lock, and that lock is one process's ([missionLocks]), so
    this speaks of deployments in which one server at a time runs the engine on a
    mission, however many of them sweep. *)

From S2P Require Import Prelude JsStd Vocabulary Plan Graph GraphRun Patch Roster Entities Logic Samples PostActions Engine Frame.
From S2P Require Import Rows Limits Lifecycle StepEdit PlanIntake Reports Recovery Calls StepLife Refinement History.
From S2P Require Import Guarantees Parallel Concurrent Approvals Tables ConfirmNotify ApprovalService ProgramLogic Reaper.
From Stdlib Require Import QArith.
#[local] Open Scope Z_scope.

(** ** The tables' missions *)

Lemma find_world_elem id db w : find_world id db = Some w → w ∈ ad_worlds db ∧ ms_id (w_mission w) = id.
Proof. intros H. apply find_Some_elem in H as [Hw He]. split; [done|]. by apply String.eqb_eq. Qed.

Section moves.
Context (envs : string → Env).

(** The environment a mission runs in. *)
Definition env_of (w : World) : Env := envs (ms_id (w_mission w)).
Definition moved (w w' : World) : Prop := rtc (engine_step (env_of w)) w w'.
Definition engine_moves (db db' : Adb) : Prop := Forall2 moved (ad_worlds db) (ad_worlds db').

Lemma moved_id w w' : moved w w' → ms_id (w_mission w') = ms_id (w_mission w).
Proof.
  intros H. change (same_id w w'). unfold moved in H. revert H. generalize (env_of w). intros env H.
  induction H as [w|u v w Hs _ IH]; [done|]. transitivity v; [by eapply engine_step_id|done].
Qed.

#[export] Instance moved_preorder : PreOrder moved.
Proof.
  split; [intros w; apply rtc_refl|]. intros u v w H1 H2. unfold moved in *.
  assert (env_of v = env_of u) as He by (unfold env_of; by rewrite (moved_id _ _ H1)). rewrite He in H2.
  by eapply rtc_trans.
Qed.

#[export] Instance engine_moves_preorder : PreOrder engine_moves.
Proof.
  unfold engine_moves. split; [intros db; by induction (ad_worlds db); constructor|].
  intros x y z. generalize (ad_worlds x) (ad_worlds y) (ad_worlds z). intros lx ly lz H. revert lz.
  induction H as [|u v l l' Huv _ IH]; intros lz Hz; inversion Hz; subst; constructor; [by transitivity v|by apply IH].
Qed.

Lemma on_mission_moves id f db :
  (∀ w, ms_id (w_mission w) = id → moved w (f w)) → engine_moves db (on_mission id f db).
Proof.
  intros Hf. unfold engine_moves. simpl. induction (ad_worlds db) as [|w l IH]; constructor; [|exact IH].
  destruct (String.eqb _ _) eqn:E; [|reflexivity]. by apply Hf, String.eqb_eq.
Qed.

Abbreviation clients := (λ db db', guar (λ _, True) engine_moves db db').

Lemma client_call id {A} (m : M A) c :
  (∀ w, snd (m w) = after (envs id) c w) → covered (I := λ _, True) (Mv := engine_moves) id m.
Proof.
  intros Hm db _. split; [done|]. apply on_mission_moves. intros w <-. rewrite Hm. apply rtc_once, es_call.
Qed.

Lemma snd_ignore {A} (m : M A) w : snd (ignore m w) = snd (m w).
Proof. unfold ignore, mbind, M_bind. by destruct (m w) as [[a|e] w']. Qed.
End moves.

(** ** Sweeps are clients *)

Section clients.
Context (envs : string → Env) (escalate_ms : option Q) (cfg : ReaperConfig) (null_rank : Z).

(** The sweeps of one or of several servers, and the notices they leave behind. *)
Definition sweeps_of (l : list (bool * bool * Z)) : list (P SweepResult) :=
  List.map (λ x, runOnce envs escalate_ms cfg null_rank x.1.1 x.1.2 x.2) l.
Definition notice_job (j : Job) : P SweepResult :=
  match j with
  | j_approval id => _ ← sendUserNotice id; mret nothing_swept
  | j_confirm mission gate => send gate_notice mission gate;; mret nothing_swept
  end.

Lemma clients_update p f db : guar (λ _, True) (engine_moves envs) db (update_approvals p f db).
Proof. intros _. split; [done|]. unfold engine_moves. simpl. by induction (ad_worlds db); constructor. Qed.

Lemma claim_row_worlds kind now m s v db : ad_worlds (claim_row kind now m s v db) = ad_worlds db.
Proof. unfold claim_row. by destruct (claim_matches _ _ _ _ _). Qed.

Lemma clients_claim kind now m s v db : guar (λ _, True) (engine_moves envs) db (claim_row kind now m s v db).
Proof. intros _. split; [done|]. unfold engine_moves. rewrite claim_row_worlds. by induction (ad_worlds db); constructor. Qed.

Lemma clients_sent c users db : guar (λ _, True) (engine_moves envs) db (hand_over c users db).
Proof. intros _. split; [done|]. unfold engine_moves. simpl. by induction (ad_worlds db); constructor. Qed.

Lemma clients_entry id t k ks : covered (I := λ _, True) (Mv := engine_moves envs) id (recordEvent t k ks).
Proof.
  intros db _. split; [done|]. apply on_mission_moves. intros w _. apply rtc_once, es_entry.
Qed.

Lemma clients_fail id : may_fail (I := λ _, True) (Mv := engine_moves envs) id.
Proof.
  intros now status reason. apply (client_call envs id _ (c_fail_mission now status reason)). intros w.
  symmetry. apply snd_ignore.
Qed.

Lemma clients_once db q s now :
  runs (λ _, True) (engine_moves envs) db (runOnce envs escalate_ms cfg null_rank q s now) (λ _ _, True).
Proof.
  apply runs_once.
  - typeclasses eauto.
  - intros id n step g t. apply (client_call envs id _ (c_reconcile n step g t)). intros w. symmetry. apply snd_ignore.
  - intros id a t. by apply (client_call envs id _ (c_nudge a t)).
  - apply clients_entry.
  - intros p f d. apply clients_update.
  - intros k n m v x d. apply clients_claim.
  - intros c users d. apply clients_sent.
  - intros d m n _ _. apply clients_fail.
  - intros d id _ _. apply clients_fail.
  - intros d m n _ _ t d'. intros _. split; [done|]. apply on_mission_moves. intros w <-. apply rtc_once, es_actions.
Qed.

Lemma notice_job_runs I Mv `{!PreOrder Mv} db id :
  (∀ id t k ks, covered (I := I) (Mv := Mv) id (recordEvent t k ks)) →
  (∀ p f db, guar I Mv db (update_approvals p f db)) →
  (∀ c users db, guar I Mv db (hand_over c users db)) →
  runs I Mv db (notice_job id) (λ _ _, True).
Proof.
  intros Hentry Happr Hsent. destruct id as [id|mission gate]; unfold notice_job, sendUserNotice, update_where, record.
  2: { eapply (runs_bind _ _ _ (λ _ _, True)); [by apply runs_send|intros; by apply runs_ret]. }
  eapply (runs_bind _ _ _ (λ _ _, True)); [|intros; by apply runs_ret].
  apply runs_read. intros d _. apply runs_write; [apply Happr|]. intros d1 _ _.
  destruct (negb _); [by apply runs_ret|]. apply runs_read. intros d2 _. apply runs_read. intros d3 _.
  destruct (row ← _; _) as [m|]; [|by apply runs_ret]. apply runs_write; [apply Hentry|]. intros d4 _ _. by apply runs_ret.
Qed.

Definition srun (others : Adb → Adb → Prop) (db : Adb) (l : list (bool * bool * Z)) : Adb * list (P SweepResult) → Prop :=
  rtc (pool_step notice_job others) (db, sweeps_of l).

(** A guarantee every sweep and every notice keeps holds of the whole run. *)
Lemma srun_guar I Mv `{!PreOrder Mv} others db l s :
  (∀ d q b now, runs I Mv d (runOnce envs escalate_ms cfg null_rank q b now) (λ _ _, True)) →
  (∀ d id, runs I Mv d (notice_job id) (λ _ _, True)) →
  (∀ d d', others d d' → guar I Mv d d') →
  I db → srun others db l s → guar I Mv db s.1.
Proof.
  intros Honce Hjob Hothers HI Hrun.
  destruct (pool_safe_run (guar I Mv) notice_job others I (λ _ _ _, True) (db, sweeps_of l) s) as [Hg _]; try done.
  - intros d d' Hd Hg. by apply Hg.
  - intros _ j d Hd. eapply safe_weaken; [|by apply Hjob]. done.
  - intros i p Hi. simpl in Hi. apply list_lookup_fmap_Some in Hi as (x & -> & _).
    eapply safe_weaken; [|by apply Honce]. done.
Qed.

(** Sweeps are clients of the engine.  However many servers sweep, in
    whatever interleaving with each other and with calls, timeline entries, lease
    polls and post-action recoveries, every mission moves by engine transitions
    only; so a well-formed mission stays well-formed and within its parallel
    limit under any number of reapers. *)
Theorem reapers_are_clients db l s :
  srun (engine_moves envs) db l s →
  engine_moves envs db s.1 ∧
  Forall2 (λ w w', distinct_uuids (env_of envs w) → well_formed (env_of envs w) w →
      well_formed (env_of envs w) w' ∧
      in_flight_count (w_steps w') <= Z.max (in_flight_count (w_steps w)) (ms_max_parallel_steps (w_mission w)))
    (ad_worlds db) (ad_worlds s.1).
Proof.
  intros Hrun. assert (Hm : engine_moves envs db s.1).
  { apply (srun_guar (λ _, True) (engine_moves envs) (engine_moves envs) db l s); [apply clients_once| |done|done|done|done].
    intros d id. apply notice_job_runs; [typeclasses eauto|apply clients_entry|apply clients_update|apply clients_sent]. }
  split; [exact Hm|]. eapply Forall2_impl; [exact Hm|]. intros w w' Hw Hd Hf.
  set (B := Z.max (in_flight_count (w_steps w)) (ms_max_parallel_steps (w_mission w))).
  cut (limited (env_of envs w) (ms_max_parallel_steps (w_mission w)) B w').
  { intros [H1 _ H2]. by split. }
  assert (Hl : limited (env_of envs w) (ms_max_parallel_steps (w_mission w)) B w) by (split; [done|done|lia]).
  assert (HB : ms_max_parallel_steps (w_mission w) <= B) by lia. clearbody B.
  clear Hf. unfold moved in Hw. revert Hw Hl HB Hd.
  generalize (env_of envs w) (ms_max_parallel_steps (w_mission w)). intros env maxp Hw Hl HB Hd.
  induction Hw as [w|u v w Hs _ IH]; [exact Hl|]. apply IH. by eapply engine_step_limited.
Qed.
End clients.

(** ** Missions that wait for their user *)

Section waiting.
Context (envs : string → Env) (escalate_ms : option Q) (cfg : ReaperConfig) (null_rank : Z) (X : string).

(** A running mission with a gate open. *)
Record waits_for_user (w : World) : Prop := {
  wu_running : ms_status (w_mission w) = "running";
  wu_rows : identified (envs X) w;
  wu_gate : ∃ s, s ∈ w_steps w ∧ st_status s = "awaiting_user"
}.

Record X_waits (db : Adb) : Prop := {
  xw_ids : NoDup (List.map (λ w, ms_id (w_mission w)) (ad_worlds db));
  xw_gate : ∃ w, find_world X db = Some w ∧ waits_for_user w
}.

(** Whatever else happens, the mission goes on waiting. *)
Definition goes_on (db db' : Adb) : Prop := X_waits db → X_waits db'.

Lemma find_world_on_mission id f db :
  (∀ w, ms_id (w_mission w) = id → same_id w (f w)) →
  find_world X (on_mission id f db)
  = (λ w, if String.eqb (ms_id (w_mission w)) id then f w else w) <$> find_world X db.
Proof.
  intros Hf. unfold find_world. simpl. induction (ad_worlds db) as [|w l IH]; [done|]. simpl.
  assert (He : ms_id (w_mission (if String.eqb (ms_id (w_mission w)) id then f w else w)) = ms_id (w_mission w)).
  { destruct (String.eqb _ id) eqn:E; [|done]. by apply Hf, String.eqb_eq. }
  rewrite He. destruct (String.eqb _ X) eqn:E; [done|exact IH].
Qed.

Lemma on_mission_waits id f db :
  (∀ w, ms_id (w_mission w) = id → same_id w (f w)) →
  (id = X → ∀ w, waits_for_user w → waits_for_user (f w)) → goes_on db (on_mission id f db).
Proof.
  intros Hid Hw [Hnd (w & Hf & Hu)]. split.
  - simpl. rewrite List.map_map. erewrite List.map_ext; [exact Hnd|]. intros v. cbv beta.
    destruct (String.eqb _ id) eqn:E; [|done]. by apply Hid, String.eqb_eq.
  - eexists. split; [by rewrite find_world_on_mission, Hf|]. simpl.
    destruct (String.eqb _ id) eqn:E; [|done]. apply String.eqb_eq in E. apply Hw; [|done].
    apply find_world_elem in Hf as [_ Hx]. congruence.
Qed.

Lemma awaiting_stays now id g t step a b :
  rtc (life_step (c_reconcile now id g t) step) a b → lf_status a = "awaiting_user" → lf_status b = "awaiting_user".
Proof.
  induction 1 as [|a b c H _ IH]; [done|]. intros Ha. apply IH. clear IH.
  destruct H; simpl in *; subst; try done.
  all: try match goal with H : open_status _ |- _ => destruct H as (? & ? & ?); done end.
  - match goal with H : _ ∨ _ |- _ => destruct H as [(? & ? & ?)|?]; done end.
Qed.

(** A method under which rows live as lease recovery lets them. *)
Lemma waits_lived {A} (m : M A) now id g t w :
  moves same_row m w → moves (lived (envs X) (c_reconcile now id g t)) m w →
  waits_for_user w → waits_for_user (snd (m w)).
Proof.
  intros Hrow Hl [Hr Hi (s & Hs & Hst)]. destruct (Hl Hi) as (Hi' & (old & new & He & HR & _) & _).
  split; [|exact Hi'|].
  - pose proof (same_row_status _ _ Hrow) as H. unfold status_of in H. congruence.
  - apply list_elem_of_lookup in Hs as [i Hs]. destruct (Forall2_lookup_l _ _ _ _ _ HR Hs) as (s' & Hs' & [_ Hlife]).
    exists s'. split; [rewrite He; apply elem_of_app; left; by eapply list_elem_of_lookup_2|].
    by apply (awaiting_stays _ _ _ _ _ _ _ Hlife).
Qed.

Lemma other_mission m d :
  X_waits d → m ∈ List.map w_mission (ad_worlds d) → ms_status m ≠ "running" → ms_id m ≠ X.
Proof.
  intros [Hnd (w & Hf & [Hr _ _])] (v & -> & Hv)%elem_of_map Hne He. apply find_world_elem in Hf as [Hw Hx].
  assert (v = w) as ->; [|done]. apply (NoDup_fmap_inj_on (λ w, ms_id (w_mission w)) (ad_worlds d)); [done..|].
  cbv beta. congruence.
Qed.

Lemma goes_on_elsewhere {A} (m : M A) id :
  id ≠ X → (∀ w, same_id w (snd (m w))) → covered (I := X_waits) (Mv := λ _ _, True) id m.
Proof. intros Hne Hid db Hdb. split; [|done]. apply on_mission_waits; [intros w _; apply Hid|done|exact Hdb]. Qed.

Lemma goes_on_fail id : id ≠ X → may_fail (I := X_waits) (Mv := λ _ _, True) id.
Proof.
  intros Hne now status reason. apply goes_on_elsewhere; [done|]. intros w.
  pose proof (same_id_exec (envs X) (c_fail_mission now status reason) w) as H. unfold moves in H.
  simpl in H. by rewrite snd_ignore in H.
Qed.

Lemma goes_on_entry id t k ks : covered (I := X_waits) (Mv := λ _ _, True) id (recordEvent t k ks).
Proof.
  intros db Hdb. split; [|done]. apply on_mission_waits; [done| |exact Hdb].
  intros _ w [Hr [H1 H2 H3 H4 H5] Hg]. by split.
Qed.

#[local] Instance True_preorder : PreOrder (λ _ _ : Adb, True).
Proof. by split. Qed.

Lemma goes_on_once db q b now :
  runs X_waits (λ _ _, True) db (runOnce envs escalate_ms cfg null_rank q b now) (λ _ _, True).
Proof.
  apply runs_once.
  - typeclasses eauto.
  - intros id n step g t d Hd. split; [|done]. apply on_mission_waits; [|intros ->|exact Hd].
    + intros w _. apply (moves_same_row_id (reconcileStaleLease (envs id) n step g t)). apply same_row_reconcile.
    + intros w. apply (waits_lived _ n step g t); [apply same_row_reconcile|apply lived_reconcile].
  - intros id a t d Hd. split; [|done]. apply on_mission_waits; [|intros ->|exact Hd].
    + intros w _. apply (moves_same_row_id (nudgeOrchestrator (envs id) a t)). apply same_row_nudge.
    + intros w. apply (waits_lived _ 0 "" 0 0); [apply same_row_nudge|apply lived_nudge].
  - apply goes_on_entry.
  - intros p f d [H1 H2]. split; [by split|done].
  - intros k n m v x d [H1 H2]. split; [|done]. split; unfold find_world in *; by rewrite claim_row_worlds.
  - intros c users d [H1 H2]. split; [by split|done].
  - intros d m n Hd [Hm Hst]%subseteq_take%elem_of_lfilter. apply goes_on_fail, (other_mission m d Hd Hm).
    apply String.eqb_eq in Hst. by rewrite Hst.
  - intros d id [_ (w & Hf & [_ _ (s & Hs & Hst)])] Hb. apply goes_on_fail. intros ->. rewrite Hf in Hb. simpl in Hb.
    apply orb_false_iff in Hb as [_ Hb]. apply (proj1 (lsome_false _ _)) with (x := s) in Hb; [|done]. by rewrite Hst in Hb.
  - intros d m n Hd [Hm Hst]%subseteq_take%elem_of_lfilter now'. apply goes_on_elsewhere; [|intros w; apply same_id_recover].
    apply (other_mission m d Hd Hm). intros Hr. by rewrite Hr in Hst.
Qed.

(** A mission that waits for its user is never given up.  However long a
    gate stays open, however many servers sweep and however often they have
    re-briefed the orchestrator before, no sweep fails the mission or closes its
    gate while it goes on waiting. *)
Theorem waiting_missions_are_spared db l s w :
  NoDup (List.map (λ w, ms_id (w_mission w)) (ad_worlds db)) →
  find_world X db = Some w → waits_for_user w →
  srun envs escalate_ms cfg null_rank goes_on db l s →
  ∃ w', find_world X s.1 = Some w' ∧ ms_status (w_mission w') = "running" ∧
        ∃ gate, gate ∈ w_steps w' ∧ st_status gate = "awaiting_user".
Proof.
  intros Hnd Hf Hw Hrun. assert (HX : X_waits db) by (split; [done|by exists w]).
  destruct (srun_guar envs escalate_ms cfg null_rank X_waits (λ _ _, True) goes_on db l s) as [[_ (w' & Hf' & [Hr _ Hg])] _];
    [apply goes_on_once| |intros d d' H Hd; split; [by apply H|done]|done|done|done|by exists w'].
  intros d id. apply notice_job_runs; [typeclasses eauto|apply goes_on_entry| |].
  - intros p f d' [H1 H2]. split; [by split|done].
  - intros c users d' [H1 H2]. split; [by split|done].
Qed.
End waiting.

(** ** A sweep of two missions *)

Definition sample_config : ReaperConfig := reaper_config None None None None None.

Definition minutes (n : Z) : Z := n * 60000.

Definition reaper_wake (tag : string) (at_minute : Z) : Event :=
  {| ev_type := "orchestrator_woken"; ev_step_key := None; ev_keys := [tag]; ev_created_at := minutes at_minute |}.

(** A running mission with a timeline, as the database holds it. *)
Definition board_world (id : string) (events : list Event) (steps : list Step) : World :=
  (sample_world "running" steps)<|w_mission ::= λ m, m<|ms_id := id|>|><|w_events := events|>.

Definition board (now : Z) (l : list World) : Adb :=
  {| ad_approvals := []; ad_worlds := List.map (λ w, w<|w_clock := now|>) l; ad_marks := ∅; ad_claimed := [];
     ad_recipients := λ _, Some ["owner"]; ad_sent := [];
     ad_now := now; ad_nonce := 0 |}.

(** Re-briefed twice, and silent since. *)
Definition spent_nudges : list Event := [reaper_wake "running_stall" 30; reaper_wake "running_stall" 60].

Definition gate_step : Step := (sample_step "g" "awaiting_user" [] 0)<|st_visit := 1|>.
Definition finished_step : Step := (sample_step "a" "done" [] 0)<|st_finished_at := Some (minutes 5)|>.

Definition waiting_world : World := board_world "waits" spent_nudges [gate_step].
Definition stalled_world : World := board_world "stalls" spent_nudges [finished_step].
Definition sample_board : Adb := board (minutes 100) [waiting_world; stalled_world].

(** Programs run to their end, one after another. *)
Fixpoint run_alone {Job A} (p : prog Adb Job A) (db : Adb) : A * Adb :=
  match p with
  | done_ a => (a, db)
  | query upd k => run_alone (k db) (upd db)
  | fork _ k => run_alone k db
  end.

Definition one_sweep (now : Z) : P SweepResult := runOnce (λ _, fenced_env) None sample_config 0 false false now.

Definition status_at (id : string) (db : Adb) : option string := ms_status ∘ w_mission <$> find_world id db.

Definition swept_board : Adb * list (P SweepResult) :=
  run_schedule notice_job (List.repeat 0%nat 30)
    (sample_board, sweeps_of (λ _, fenced_env) None sample_config 0 [(false, false, minutes 100)]).

Lemma swept_run others : srun (λ _, fenced_env) None sample_config 0 others sample_board [(false, false, minutes 100)] swept_board.
Proof. apply run_schedule_steps. Qed.


Lemma reapers_are_clients_witness :
  status_at "stalls" swept_board.1 = Some "failed" ∧ engine_moves (λ _, fenced_env) sample_board swept_board.1.
Proof.
  split; [vm_compute; reflexivity|].
  exact (proj1 (reapers_are_clients (λ _, fenced_env) None sample_config 0 sample_board [(false, false, minutes 100)]
    swept_board (swept_run _))).
Defined.

(** The same sweep gives up the mission beside it. *)
Lemma waiting_missions_are_spared_witness :
  status_at "stalls" swept_board.1 = Some "failed" ∧
  ∃ w', find_world "waits" swept_board.1 = Some w' ∧ ms_status (w_mission w') = "running" ∧
        ∃ gate, gate ∈ w_steps w' ∧ st_status gate = "awaiting_user".
Proof.
  split; [vm_compute; reflexivity|].
  eapply (waiting_missions_are_spared (λ _, fenced_env) None sample_config 0 "waits" sample_board
    [(false, false, minutes 100)] swept_board (waiting_world<|w_clock := minutes 100|>)).
  - apply (bool_decide_unpack _). vm_compute. exact I.
  - reflexivity.
  - split; [reflexivity|apply checked_rows_identified; vm_compute; reflexivity|].
    exists gate_step. split; [apply list_elem_of_here|reflexivity].
  - apply swept_run.
Defined.
