(* ===== verification/ConfirmFacts.v ===== *)
(** * Notices about gates: one each, and none forgotten

    Gates are announced and reminded of by any number of servers, between
    whatever moves the missions: each pass is announced at most once and
    reminded of at most once.  And the sweep of the reminders, bounded as it is,
    reaches every gate that is due. *)

From S2P Require Import Prelude JsStd Vocabulary Plan Graph GraphRun Patch Roster Entities Logic Samples PostActions Engine Frame.
From S2P Require Import Rows Limits Lifecycle StepEdit PlanIntake Reports Recovery Calls StepLife Refinement History.
From S2P Require Import Parallel Concurrent Approvals Tables ConfirmNotify ApprovalService ProgramLogic Reaper Guarantees ReaperGuarantees.
From Stdlib Require Import QArith.
#[local] Open Scope Z_scope.

(** ** One notice per pass *)

Section claims.
Context (envs : string → Env) (Hfresh : ∀ id, distinct_uuids (envs id)).

(** The pass a claim is for is the marked one of its step, or an earlier one. *)
Definition claim_ok (db : Adb) (c : Claim) : Prop :=
  (∃ w s, w ∈ ad_worlds db ∧ ms_id (w_mission w) = cl_mission c ∧ s ∈ w_steps w ∧ st_id s = cl_step c) ∧
  ∃ v, mark_of (cl_kind c) (marks_of (cl_mission c) (cl_step c) db) = Some v ∧ cl_visit c <= v ∧
       ∀ w s, w ∈ ad_worlds db → ms_id (w_mission w) = cl_mission c → s ∈ w_steps w → st_id s = cl_step c → v <= st_visit s.

Record claims_ok (db : Adb) : Prop := {
  co_missions : NoDup (List.map (λ w, ms_id (w_mission w)) (ad_worlds db));
  co_rows : ∀ w, w ∈ ad_worlds db → identified (env_of envs w) w;
  co_once : NoDup (ad_claimed db);
  co_marked : ∀ c, c ∈ ad_claimed db → claim_ok db c
}.

#[local] Abbreviation cguar := (guar claims_ok (λ _ _, True)).

#[local] Instance everywhere_preorder : PreOrder (λ _ _ : Adb, True).
Proof. by split. Qed.

(** The rows of a mission, further on. *)
Lemma moved_forward w w' :
  moved envs w w' → identified (env_of envs w) w →
  identified (env_of envs w) w' ∧ grows forward (λ _, True) (w_steps w) (w_steps w').
Proof using Hfresh.
  unfold moved, env_of. intros H. revert H. generalize (Hfresh (ms_id (w_mission w))). generalize (envs (ms_id (w_mission w))).
  intros env Hd H Hi. induction H as [w|u v w Hs _ IH]; [split; [done|apply grows_refl; typeclasses eauto]|].
  destruct (engine_step_forward env u v Hd Hs Hi) as [Hi' Hg]. destruct (IH Hi') as [Hi'' Hg'].
  split; [done|]. eapply grows_trans; [typeclasses eauto..|exact Hg|exact Hg'].
Qed.

Lemma forward_visit s s' : forward s s' → st_id s = st_id s' ∧ st_visit s <= st_visit s'.
Proof. intros [[Hid _] Hl]. split; [done|]. unfold not_earlier, life_of in Hl. simpl in Hl. lia. Qed.

(** A row of the later mission that has an earlier row's id is that row, further on. *)
Lemma grown_row env w w' s s' :
  identified env w' → grows forward (λ _, True) (w_steps w) (w_steps w') →
  s ∈ w_steps w → s' ∈ w_steps w' → st_id s' = st_id s → st_visit s <= st_visit s'.
Proof.
  intros Hi (old & new & He & HR & _) Hs Hs' Hid. apply list_elem_of_lookup in Hs as [i Hs].
  destruct (Forall2_lookup_l _ _ _ _ _ HR Hs) as (t & Ht & [Hts Hv]%forward_visit).
  assert (s' = t) as ->; [|done].
  apply (NoDup_fmap_inj_on st_id (w_steps w')); [apply Hi|done| |congruence].
  rewrite He. apply elem_of_app. left. by eapply list_elem_of_lookup_2.
Qed.

Lemma grown_stays w w' s :
  grows forward (λ _, True) (w_steps w) (w_steps w') → s ∈ w_steps w → ∃ s', s' ∈ w_steps w' ∧ st_id s' = st_id s.
Proof.
  intros (old & new & He & HR & _) Hs. apply list_elem_of_lookup in Hs as [i Hs].
  destruct (Forall2_lookup_l _ _ _ _ _ HR Hs) as (t & Ht & [Hts Hv]%forward_visit).
  exists t. split; [|done]. rewrite He. apply elem_of_app. left. by eapply list_elem_of_lookup_2.
Qed.

Lemma worlds_forward l l' :
  Forall2 (moved envs) l l' → ∀ w', w' ∈ l' → ∃ w, w ∈ l ∧ moved envs w w'.
Proof.
  intros H w' [i Hi]%list_elem_of_lookup. destruct (Forall2_lookup_r _ _ _ _ _ H Hi) as (w & Hw & Hm).
  exists w. split; [by eapply list_elem_of_lookup_2|done].
Qed.

Lemma worlds_forward_l l l' :
  Forall2 (moved envs) l l' → ∀ w, w ∈ l → ∃ w', w' ∈ l' ∧ moved envs w w'.
Proof.
  intros H w [i Hi]%list_elem_of_lookup. destruct (Forall2_lookup_l _ _ _ _ _ H Hi) as (w' & Hw & Hm).
  exists w'. split; [by eapply list_elem_of_lookup_2|done].
Qed.

(** Missions that move keep the claims in order. *)
Lemma claims_moved db db' :
  engine_moves envs db db' → ad_marks db' = ad_marks db → ad_claimed db' = ad_claimed db → cguar db db'.
Proof using Hfresh.
  intros Hm Hk Hc [H1 H2 H3 H4]. split; [|done].
  assert (Hids : List.map (λ w, ms_id (w_mission w)) (ad_worlds db') = List.map (λ w, ms_id (w_mission w)) (ad_worlds db)).
  { symmetry. clear -Hm. unfold engine_moves in Hm. induction Hm as [|w w' l l' H _ IH]; [done|].
    cbn [List.map]. by rewrite IH, (moved_id _ _ _ H). }
  assert (Henv : ∀ w w', moved envs w w' → env_of envs w' = env_of envs w).
  { intros w w' H. unfold env_of. by rewrite (moved_id _ _ _ H). }
  split; [by rewrite Hids| |by rewrite Hc|].
  - intros w' Hw'. destruct (worlds_forward _ _ Hm w' Hw') as (w & Hw & Hww). rewrite (Henv _ _ Hww).
    by apply moved_forward, H2.
  - rewrite Hc. intros c Hin. destruct (H4 c Hin) as [(w & s & Hw & Hmi & Hs & Hid) (v & Hv & Hle & Hrows)].
    unfold claim_ok, marks_of. rewrite Hk. split.
    + destruct (worlds_forward_l _ _ Hm w Hw) as (w' & Hw' & Hww).
      destruct (moved_forward _ _ Hww (H2 w Hw)) as [_ Hg]. destruct (grown_stays _ _ _ Hg Hs) as (s' & Hs' & Hid').
      exists w', s'. split_and!; [done|by rewrite (moved_id _ _ _ Hww)|done|congruence].
    + exists v. split_and!; [done..|]. intros w' s' Hw' Hmi' Hs' Hid'.
      destruct (worlds_forward _ _ Hm w' Hw') as (u & Hu & Huw). rewrite (moved_id _ _ _ Huw) in Hmi'.
      assert (u = w) as ->.
      { apply (NoDup_fmap_inj_on (λ w, ms_id (w_mission w)) (ad_worlds db)); [done..|]. cbv beta. congruence. }
      destruct (moved_forward _ _ Huw (H2 w Hw)) as [Hi' Hg].
      transitivity (st_visit s); [by apply (Hrows w)|]. eapply grown_row; [exact Hi'|exact Hg|done..|congruence].
Qed.

Lemma elem_of_step_rows m i db s :
  s ∈ step_rows m i db ↔ ∃ w, w ∈ ad_worlds db ∧ ms_id (w_mission w) = m ∧ s ∈ w_steps w ∧ st_id s = i.
Proof.
  unfold step_rows. rewrite list_elem_of_In, in_flat_map. setoid_rewrite <- list_elem_of_In. split.
  - intros (w & Hw & Hs). destruct (String.eqb _ m) eqn:E; [|by apply elem_of_nil in Hs].
    apply elem_of_lfilter in Hs as [Hs Hi]. exists w. split_and!; [done|by apply String.eqb_eq|done|by apply String.eqb_eq].
  - intros (w & Hw & <- & Hs & <-). exists w. split; [done|]. rewrite String.eqb_refl.
    apply elem_of_lfilter. by rewrite String.eqb_refl.
Qed.

(** A step id names one row of a mission. *)
Lemma row_unique db m i s s' : claims_ok db → s ∈ step_rows m i db → s' ∈ step_rows m i db → s = s'.
Proof.
  intros [H1 H2 _ _] (w & Hw & Hm & Hs & Hi)%elem_of_step_rows (w' & Hw' & Hm' & Hs' & Hi')%elem_of_step_rows.
  assert (w' = w) as ->.
  { apply (NoDup_fmap_inj_on (λ w, ms_id (w_mission w)) (ad_worlds db)); [done..|]. cbv beta. congruence. }
  apply (NoDup_fmap_inj_on st_id (w_steps w)); [apply (H2 w Hw)|done..|congruence].
Qed.

Lemma mark_of_patch kind kind' now v m :
  mark_of kind' (claim_patch kind now v m) = if decide (kind' = kind) then Some v else mark_of kind' m.
Proof. by destruct kind, kind'. Qed.

Lemma unmarked_false kind v m : unmarked kind v m = false ↔ mark_of kind m = Some v.
Proof.
  unfold unmarked. destruct (mark_of kind m) as [u|]; [|split; discriminate].
  rewrite negb_false_iff, Z.eqb_eq. split; congruence.
Qed.

Lemma claim_ok_rows db c : claim_ok db c ↔
  (∃ s, s ∈ step_rows (cl_mission c) (cl_step c) db) ∧
  ∃ v, mark_of (cl_kind c) (marks_of (cl_mission c) (cl_step c) db) = Some v ∧ cl_visit c <= v ∧
       ∀ s, s ∈ step_rows (cl_mission c) (cl_step c) db → v <= st_visit s.
Proof.
  unfold claim_ok. setoid_rewrite elem_of_step_rows. split.
  - intros [(w & s & H) (v & Hv & Hle & Hr)]. split; [exists s, w; tauto|]. exists v. split_and!; [done..|].
    intros s' (w' & ? & ? & ? & ?). by apply (Hr w').
  - intros [(s & w & H) (v & Hv & Hle & Hr)]. split; [exists w, s; tauto|]. exists v. split_and!; [done..|].
    intros w' s' ? ? ? ?. apply Hr. eauto.
Qed.

Lemma claim_row_ok kind now m i v db : cguar db (claim_row kind now m i v db).
Proof.
  intros Hdb. split; [|done]. unfold claim_row. destruct (claim_matches _ _ _ _ _) eqn:E; [|exact Hdb].
  unfold claim_matches in E. apply andb_true_iff in E as [E Hun]. apply lsome_true in E as (s0 & Hs0 & E).
  apply andb_true_iff in E as [Hv0 _]. apply Z.eqb_eq in Hv0. pose proof Hdb as [H1 H2 H3 H4].
  set (db' := db<|ad_marks ::= _|><|ad_claimed ::= _|>).
  assert (Hrows : ∀ m i, step_rows m i db' = step_rows m i db) by done.
  assert (Hmark : ∀ k m' i', mark_of k (marks_of m' i' db') =
    if decide ((m', i') = (m, i) ∧ k = kind) then Some v else mark_of k (marks_of m' i' db)).
  { intros k m' i'. unfold marks_of at 1. change (ad_marks db') with (<[(m, i) := claim_patch kind now v (marks_of m i db)]> (ad_marks db)).
    destruct (decide ((m', i') = (m, i))) as [He|He].
    - rewrite He, lookup_insert_eq. simpl. rewrite mark_of_patch. injection He as -> ->.
      destruct (decide (k = kind)), (decide _); tauto.
    - rewrite lookup_insert_ne by congruence. destruct (decide _); tauto. }
  assert (Hle : ∀ c, c ∈ ad_claimed db → (cl_mission c, cl_step c) = (m, i) → cl_kind c = kind → cl_visit c < v).
  { intros c Hc [= Hm Hi] Hk. destruct (proj1 (claim_ok_rows db c) (H4 c Hc)) as [_ (u & Hu & Hcu & Hr)].
    rewrite Hm, Hi in Hr. rewrite Hm, Hi, Hk in Hu. specialize (Hr s0 Hs0). unfold unmarked in Hun. rewrite Hu in Hun.
    apply negb_true_iff, Z.eqb_neq in Hun. lia. }
  split; [exact H1|exact H2| |].
  - change (ad_claimed db') with (ad_claimed db ++ [{| cl_kind := kind; cl_mission := m; cl_step := i; cl_visit := v |}]).
    apply NoDup_app. split_and!; [exact H3| |apply NoDup_singleton].
    intros c Hc ->%list_elem_of_singleton. specialize (Hle _ Hc eq_refl eq_refl). simpl in Hle. lia.
  - intros c Hc. apply claim_ok_rows. rewrite Hrows, Hmark. apply elem_of_app in Hc as [Hc| ->%list_elem_of_singleton].
    + destruct (proj1 (claim_ok_rows db c) (H4 c Hc)) as [He (u & Hu & Hcu & Hr)]. split; [exact He|].
      destruct (decide _) as [[Hk1 Hk2]|_]; [|by exists u]. exists v. split_and!; [done|specialize (Hle c Hc Hk1 Hk2); lia|].
      injection Hk1 as -> ->. intros s Hs. rewrite (row_unique _ _ _ _ _ Hdb Hs Hs0). lia.
    + cbn [cl_mission cl_step cl_kind cl_visit]. split; [by exists s0|]. exists v. rewrite decide_True by done.
      split_and!; [done|lia|]. intros s Hs. rewrite (row_unique _ _ _ _ _ Hdb Hs Hs0). lia.
Qed.

(** ** Any number of servers *)

Context (escalate_ms : option Q) (cfg : ReaperConfig) (null_rank : Z).

(** Who sends notices: a server that opened a gate, and the sweeps. *)
Inductive notifier : Type :=
  | nf_gate (mission : string) (gate : Step)
  | nf_sweep (quiesced sweeping : bool) (now : Z).

Definition notifier_program (n : notifier) : P SweepResult :=
  match n with
  | nf_gate mission gate => announceGate mission gate;; mret nothing_swept
  | nf_sweep quiesced sweeping now => runOnce envs escalate_ms cfg null_rank quiesced sweeping now
  end.

(** What runs beside them moves missions, and leaves the markers and the channels alone. *)
Definition beside (db db' : Adb) : Prop :=
  engine_moves envs db db' ∧ ad_marks db' = ad_marks db ∧ ad_claimed db' = ad_claimed db ∧ ad_sent db' = ad_sent db.

Definition nrun (db : Adb) (l : list notifier) : Adb * list (P SweepResult) → Prop :=
  rtc (pool_step notice_job beside) (db, List.map notifier_program l).

Lemma covered_claims {A} id (m : M A) :
  covered (I := λ _, True) (Mv := engine_moves envs) id m → covered (I := claims_ok) (Mv := λ _ _, True) id m.
Proof using Hfresh. intros H db. apply claims_moved; [apply (H db I)|done|done]. Qed.

Lemma claims_once db q b now :
  runs claims_ok (λ _ _, True) db (runOnce envs escalate_ms cfg null_rank q b now) (λ _ _, True).
Proof using Hfresh.
  apply runs_once.
  - typeclasses eauto.
  - intros id n step g t. apply covered_claims, (client_call envs id _ (c_reconcile n step g t)). intros w. symmetry. apply snd_ignore.
  - intros id a t. by apply covered_claims, (client_call envs id _ (c_nudge a t)).
  - intros id t k ks. apply covered_claims, clients_entry.
  - intros p f d. apply claims_moved; [apply clients_update, I|done|done].
  - intros k n m v x d. apply claim_row_ok.
  - intros c users d. by apply claims_moved; [apply clients_sent| |].
  - intros d m n _ _ n' st r. apply covered_claims, clients_fail.
  - intros d id _ _ n' st r. apply covered_claims, clients_fail.
  - intros d m n _ _ t. apply covered_claims. intros d' _. split; [done|]. apply on_mission_moves.
    intros w <-. apply rtc_once, es_actions.
Qed.

Lemma claims_job db j : runs claims_ok (λ _ _, True) db (notice_job j) (λ _ _, True).
Proof using Hfresh.
  apply notice_job_runs; [typeclasses eauto| | |].
  - intros id t k ks. apply covered_claims, clients_entry.
  - intros p f d. apply claims_moved; [apply clients_update, I|done|done].
  - intros c users d. by apply claims_moved; [apply clients_sent| |].
Qed.

Lemma claims_gate db m gate : runs claims_ok (λ _ _, True) db (announceGate m gate;; mret nothing_swept) (λ _ _, True).
Proof using Hfresh.
  eapply (runs_bind _ _ _ (λ _ _, True)); [|intros; by apply runs_ret]. unfold announceGate, claimGateNotice.
  eapply runs_bind; [apply runs_claim; intros; apply claim_row_ok|]. intros won d _ _.
  destruct won; [|by apply runs_ret]. unfold scheduleGateNotice, background. intros Hok. simpl. intros d' _ [] _. done.
Qed.

(** The claims, at any moment of a run *)
Lemma nrun_claims db l s : claims_ok db → nrun db l s → claims_ok s.1.
Proof using Hfresh.
  intros Hok Hrun.
  destruct (pool_safe_run cguar notice_job beside claims_ok (λ _ _ _, True) (db, List.map notifier_program l) s) as [Hg _].
  - intros d d' (H1 & H2 & H3 & _). by apply claims_moved.
  - intros d d' Hd Hg. by apply Hg.
  - intros _ j d Hd. eapply safe_weaken; [|by apply claims_job]. done.
  - exact Hok.
  - intros i p Hi. simpl in Hi. apply list_lookup_fmap_Some in Hi as (n & -> & _).
    eapply safe_weaken with (P := λ r d, ∀ a, r = Ok a → True); [done|].
    destruct n as [m gate|q b now]; [by apply claims_gate|by apply claims_once].
  - exact Hrun.
  - by apply Hg.
Qed.

(** *** Nobody sends without a claim *)

Definition sent_claims (db : Adb) : list Claim := List.map fst (ad_sent db).

(** What a job is entitled to send. *)
Definition job_claims (j : Job) : list Claim :=
  match j with j_confirm mission gate => [notice_of gate_notice mission gate] | j_approval _ => [] end.

(** A program that holds the claims [C] sends only what it holds, or claims on the way: a
    query that sends uses the claim up, and a job takes the claims it will use. *)
Fixpoint may_send {A} (C : list Claim) (Q : A → list Claim → Prop) (p : prog Adb Job A) : Prop :=
  match p with
  | done_ a => Q a C
  | query upd k => ∀ db, ∃ claimed sent C',
      ad_claimed (upd db) = ad_claimed db ++ claimed ∧ sent_claims (upd db) = sent_claims db ++ sent ∧
      sent ++ C' ⊆+ C ++ claimed ∧ may_send C' Q (k db)
  | fork j p' => ∃ C', job_claims j ++ C' ⊆+ C ∧ may_send C' Q p'
  end.

Lemma may_send_bind {A B} (Q : A → list Claim → Prop) (Q' : B → list Claim → Prop) p (k : A → prog Adb Job B) C :
  may_send C Q p → (∀ a C', Q a C' → may_send C' Q' (k a)) → may_send C Q' (prog_bind k p).
Proof using Type.
  revert C. induction p as [a|upd k' IH|j p IH]; intros C Hp Hk; cbn in *; [by apply Hk| |].
  - intros db. destruct (Hp db) as (cl & se & C' & H1 & H2 & H3 & H4). exists cl, se, C'. split_and!; [done..|]. by apply IH.
  - destruct Hp as (C' & H1 & H2). exists C'. split; [done|by apply IH].
Qed.

(** A program that gives back what it holds. *)
Definition harmless {A} (p : prog Adb Job A) : Prop := ∀ C, may_send C (λ _ C', C ⊆+ C') p.

Lemma harmless_done {A} (a : A) : harmless (done_ a : prog Adb Job A).
Proof using Type. intros C. cbn. reflexivity. Qed.

Lemma may_send_weaken {A} (Q Q' : A → list Claim → Prop) p C :
  (∀ a C', Q a C' → Q' a C') → may_send C Q p → may_send C Q' p.
Proof using Type.
  intros HQ. revert C. induction p as [a|upd k IH|j p IH]; intros C Hp; cbn in *; [by apply HQ| |].
  - intros db. destruct (Hp db) as (cl & se & C' & H1 & H2 & H3 & H4). exists cl, se, C'. split_and!; [done..|]. by apply IH.
  - destruct Hp as (C' & H1 & H2). exists C'. split; [done|by apply IH].
Qed.

Lemma harmless_prog_bind {A B} (p : prog Adb Job A) (k : A → prog Adb Job B) :
  harmless p → (∀ a, harmless (k a)) → harmless (prog_bind k p).
Proof using Type.
  intros Hp Hk C. eapply may_send_bind; [apply Hp|]. intros a C' Hc. cbn in Hc.
  eapply may_send_weaken; [|apply Hk]. intros b C'' Hb. cbn in *. by etransitivity.
Qed.

Lemma harmless_bind {A B} (p : P A) (k : A → P B) : harmless p → (∀ a, harmless (k a)) → harmless (p ≫= k).
Proof using Type. intros Hp Hk. apply harmless_prog_bind; [done|]. intros [a|e]; [apply Hk|apply harmless_done]. Qed.

Lemma harmless_catching {A} (p h : P A) : harmless p → harmless h → harmless (catching p h).
Proof using Type. intros Hp Hh. apply harmless_prog_bind; [done|]. intros [a|e]; [apply harmless_done|done]. Qed.

(** A query that has nothing to do with notices. *)
Lemma harmless_query {A} upd (k : Adb → prog Adb Job A) :
  (∀ db, ad_claimed (upd db) = ad_claimed db ∧ ad_sent (upd db) = ad_sent db) → (∀ db, harmless (k db)) → harmless (query upd k).
Proof using Type.
  intros Hu Hk C db. exists [], [], C. destruct (Hu db) as [H1 H2]. unfold sent_claims. rewrite !app_nil_r, H1, H2.
  split_and!; [done..|cbn; reflexivity|]. apply Hk.
Qed.

Lemma harmless_read {A} (f : Adb → A) : harmless (read f).
Proof using Type. by apply harmless_query; [|intros; apply harmless_done]. Qed.

Lemma harmless_write {A} upd (f : Adb → A) :
  (∀ db, ad_claimed (upd db) = ad_claimed db ∧ ad_sent (upd db) = ad_sent db) → harmless (write upd f).
Proof using Type. intros Hu. apply harmless_query; [done|]. intros db. apply harmless_done. Qed.

Lemma harmless_approval id : harmless (background (j_approval id)).
Proof using Type. intros C. exists C. split; [done|]. cbn. reflexivity. Qed.

Lemma harmless_each {A S} (body : S → A → P S) l : ∀ s, (∀ s a, harmless (body s a)) → harmless (each body s l).
Proof using Type.
  induction l as [|a l IH]; intros s Hb; cbn [each]; [apply harmless_done|]. apply harmless_bind; [apply Hb|]. intros s'. by apply IH.
Qed.

(** A claim is held once it is won. *)
Lemma claim_entitles kind mission step visit C :
  may_send C (λ r C', r = Ok true ∧ C' = C ++ [{| cl_kind := kind; cl_mission := mission; cl_step := step; cl_visit := visit |}] ∨
                      r = Ok false ∧ C' = C) (claim kind mission step visit).
Proof using Type.
  intros db. exists [], [], C. rewrite !app_nil_r. split_and!; [done..|cbn; reflexivity|]. intros db'. cbn -[claim_row]. unfold claim_row.
  destruct (claim_matches kind mission step visit db') eqn:E; cbn.
  - set (c := {| cl_kind := kind |}). exists [c], [], (C ++ [c]). rewrite app_nil_r. split_and!; [done..| |by left]. cbn. reflexivity.
  - exists [], [], C. rewrite !app_nil_r. split_and!; [done..| |by right]. cbn. reflexivity.
Qed.

(** And used up by sending. *)
Lemma send_uses kind mission s C : may_send (C ++ [notice_of kind mission s]) (λ _ C', C ⊆+ C') (send kind mission s).
Proof using Type.
  intros db. exists [], [], (C ++ [notice_of kind mission s]). rewrite !app_nil_r. split_and!; [done..|cbn; reflexivity|].
  destruct (ad_recipients db mission) as [users|]; [|by apply submseteq_inserts_r].
  intros db1. exists [], [notice_of kind mission s], C. cbn. unfold sent_claims. cbn. rewrite !app_nil_r, List.map_app.
  split_and!; [done..|by rewrite Permutation_app_comm|].
  assert (H : harmless (record mission "confirm_notified" (Some (st_key s)))) by (by apply harmless_write). apply H.
Qed.

Lemma harmless_remind e : harmless (remind e).
Proof using Type.
  intros C. unfold remind, claimReminder. eapply may_send_bind; [apply claim_entitles|].
  intros r C' [[-> ->]|[-> ->]]; cbn [negb]; [|apply harmless_done].
  eapply may_send_bind; [apply send_uses|]. intros [[]|x] C' Hc; apply Hc.
Qed.

Lemma harmless_gate mission gate : harmless (announceGate mission gate).
Proof using Type.
  intros C. unfold announceGate, claimGateNotice. eapply may_send_bind; [apply claim_entitles|].
  intros r C' [[-> ->]|[-> ->]]; [|apply harmless_done]. exists C. split; [|cbn; reflexivity].
  change (notice_of gate_notice mission gate :: C ⊆+ C ++ [notice_of gate_notice mission gate]). by rewrite Permutation_app_comm.
Qed.

Ltac harmless_auto :=
  repeat first
    [ apply harmless_done | apply harmless_read | apply harmless_remind | apply harmless_approval
    | apply harmless_write; intros ?; by split
    | apply harmless_each; intros ? ?
    | apply harmless_bind; [|intros ?]
    | apply harmless_catching
    | match goal with |- harmless (match ?x with _ => _ end) => destruct x end ].

Lemma harmless_runner {A} id (m : M A) : harmless (runner id m).
Proof using Type. apply harmless_query; [by intros db|]. intros db. harmless_auto. Qed.

Lemma harmless_stall now window limit status tag failed reason m t :
  harmless (act_on_stall envs now window limit status tag failed reason m t).
Proof using Type. unfold act_on_stall, record_failed_nudge. repeat (harmless_auto; try apply harmless_runner). Qed.

Lemma harmless_approvals now : harmless (sweep escalate_ms now).
Proof using Type.
  unfold sweep, cancel, escalate, compareAndSet, update_where, settled_row, tell, record. repeat (harmless_auto; cbv zeta).
Qed.

Lemma harmless_once q b now : harmless (runOnce envs escalate_ms cfg null_rank q b now).
Proof using Type.
  unfold runOnce, reapStuckSteps, reapStalledPlanning, reapStalledRunning, reapPendingPostActions, remindAwaitingConfirm.
  repeat (harmless_auto; first [apply harmless_runner|apply harmless_stall|apply harmless_approvals|idtac]).
Qed.

Lemma harmless_job j : may_send (job_claims j) (λ _ _, True) (notice_job j).
Proof using Type.
  destruct j as [id|mission gate]; unfold notice_job.
  - eapply may_send_weaken; [done|]. assert (H : harmless (_ ← sendUserNotice id; mret nothing_swept)); [|apply (H [])].
    unfold sendUserNotice, update_where, tell, record. repeat (harmless_auto; cbv zeta).
  - eapply may_send_bind; [apply (send_uses gate_notice mission gate [])|]. by intros [[]|e] C' _.
Qed.

(** The programs of a pool and the claims each holds: what was sent and what may still be
    sent is among what was claimed. *)
Definition entitled (s : Adb * list (P SweepResult)) : Prop :=
  ∃ held, Forall2 (λ C p, may_send C (λ _ _, True) p) held s.2 ∧ sent_claims s.1 ++ List.concat held ⊆+ ad_claimed s.1.

Lemma concat_insert (held : list (list Claim)) i C C' : held !! i = Some C →
  List.concat (<[i := C']> held) ++ C ≡ₚ List.concat held ++ C'.
Proof using Type.
  revert i. induction held as [|D held IH]; intros [|i] Hi; [done..| |]; cbn in *.
  - injection Hi as ->. solve_Permutation.
  - rewrite <- !app_assoc. by rewrite IH.
Qed.

Lemma entitled_step s s' : pool_step notice_job beside s s' → entitled s → entitled s'.
Proof using Type.
  intros Hs (held & Hf & Hc). destruct Hs as [db ts i upd k Hi|db ts i j p Hi|db db' ts (_ & _ & H3 & H4)]; cbn [fst snd] in *.
  - destruct (Forall2_lookup_r _ _ _ _ _ Hf Hi) as (C & HC & Hm). destruct (Hm db) as (cl & se & C' & H1 & H2 & H3 & H4).
    exists (<[i := C']> held). split; [by apply Forall2_insert|]. cbn [fst]. rewrite H1, H2.
    apply (submseteq_app_inv_r _ _ C). rewrite <- !app_assoc, (concat_insert held i C C' HC).
    transitivity ((sent_claims db ++ List.concat held) ++ (se ++ C')); [apply Permutation_submseteq; solve_Permutation|].
    transitivity (ad_claimed db ++ (C ++ cl)); [by apply submseteq_app|apply Permutation_submseteq; solve_Permutation].
  - destruct (Forall2_lookup_r _ _ _ _ _ Hf Hi) as (C & HC & C' & H1 & H2).
    exists (<[i := C']> held ++ [job_claims j]). split; [apply Forall2_app; [by apply Forall2_insert|by repeat constructor; apply harmless_job]|].
    cbn [fst]. rewrite concat_app. cbn [List.concat]. rewrite app_nil_r. apply (submseteq_app_inv_r _ _ C).
    transitivity (sent_claims db ++ (List.concat (<[i := C']> held) ++ C) ++ job_claims j); [apply Permutation_submseteq; solve_Permutation|].
    rewrite (concat_insert held i C C' HC).
    transitivity ((sent_claims db ++ List.concat held) ++ (job_claims j ++ C')); [apply Permutation_submseteq; solve_Permutation|].
    by apply submseteq_app.
  - exists held. split; [done|]. unfold sent_claims in *. cbn [fst]. by rewrite H3, H4.
Qed.

(** Nothing was sent yet that nobody had claimed. *)
Definition no_stray_notice (db : Adb) : Prop := sent_claims db ⊆+ ad_claimed db.

Lemma nrun_entitled db l s : no_stray_notice db → nrun db l s → entitled s.
Proof using Type.
  intros Hn Hrun. assert (H0 : entitled (db, List.map notifier_program l)).
  { exists (replicate (length l) []). split.
    - clear. induction l as [|n l IH]; cbn; constructor; [|exact IH]. eapply may_send_weaken; [done|].
      destruct n as [m gate|q b now]; [|apply harmless_once]. apply harmless_bind; [apply harmless_gate|].
      intros u. apply harmless_done.
    - assert (E : List.concat (replicate (length l) ([] : list Claim)) = []) by (clear; by induction l). rewrite E, app_nil_r. exact Hn. }
  revert H0. unfold nrun in Hrun. induction Hrun as [s|s t u Hst _ IH]; [done|]. intros H. by apply IH, (entitled_step s t).
Qed.

End claims.

(** ** No gate is forgotten *)

(** One sweep of the reminders, by itself. *)
Definition reminded (afterMs now : Z) (db : Adb) : Adb := snd (run_alone (remindAwaitingConfirm afterMs now) db).

Definition row_key (e : Mission * Step) : string * string := (ms_id e.1, st_id e.2).

(** A pass that has had its reminder. *)
Definition has_reminder (db : Adb) (e : Mission * Step) : Prop :=
  mk_reminded_visit (marks_of (ms_id e.1) (st_id e.2) db) = Some (st_visit e.2).

(** Reminders change no row, move no anchor and take no reminder back. *)
Record only_reminds (db db' : Adb) : Prop := {
  or_rows : step_table db' = step_table db;
  or_anchors m i : mk_notified_at (marks_of m i db') = mk_notified_at (marks_of m i db);
  or_kept e : NoDup (List.map row_key (step_table db)) → e ∈ step_table db → has_reminder db e → has_reminder db' e;
  or_recipients : ad_recipients db' = ad_recipients db;
  or_sent x : x ∈ ad_sent db → x ∈ ad_sent db'
}.

#[export] Instance only_reminds_preorder : PreOrder only_reminds.
Proof.
  split; [by intros db|]. intros x y z [H1 H2 H3 H4 H5] [K1 K2 K3 K4 K5]. split; [congruence|intros; by rewrite K2, H2| |congruence|auto].
  intros e Hn He Hr. apply K3; [by rewrite H1..|by apply H3].
Qed.

(** The notice that reminds of a row's pass, and that it was handed to the channels. *)
Definition reminder_of (e : Mission * Step) : Claim := notice_of reminder_notice (ms_id e.1) e.2.
Definition reminder_sent (c : Claim) (db : Adb) : Prop := ∃ users, (c, users) ∈ ad_sent db.

(** A pass that is marked now was marked before, or its reminder was sent — unless its
    recipients could not be looked up. *)
Definition marks_sent (db db' : Adb) : Prop := only_reminds db db' ∧
  ∀ e, NoDup (List.map row_key (step_table db)) → e ∈ step_table db → has_reminder db' e →
    has_reminder db e ∨ ad_recipients db (ms_id e.1) = None ∨ reminder_sent (reminder_of e) db'.

#[export] Instance marks_sent_preorder : PreOrder marks_sent.
Proof.
  split; [intros db; split; [reflexivity|by left]|]. intros x y z [O1 H1] [O2 H2]. split; [by transitivity y|].
  intros e Hn He Hr. pose proof (or_rows _ _ O1) as Et. destruct (H2 e) as [Hy|[Hy|Hy]]; [by rewrite Et..|done| | |by do 2 right].
  - destruct (H1 e Hn He Hy) as [?|[?|(u & Hu)]]; [by left|by right; left|do 2 right]. exists u. by apply (or_sent _ _ O2).
  - right; left. by rewrite <- (or_recipients _ _ O1).
Qed.

Lemma run_alone_bind {A B} (k : A → prog Adb Job B) p db :
  run_alone (prog_bind k p) db = run_alone (k (run_alone p db).1) (run_alone p db).2.
Proof. revert db. induction p as [a|upd k' IH|j p IH]; intros db; simpl; [done|apply IH|apply IH]. Qed.

Lemma step_table_record m t k ks db :
  step_table (on_mission m (λ w, snd (recordEvent t k ks w)) db) = step_table db.
Proof.
  unfold step_table. simpl. induction (ad_worlds db) as [|w l IH]; [done|]. simpl. rewrite IH.
  f_equal. by destruct (String.eqb _ m).
Qed.

Lemma step_table_claim kind now m i v db : step_table (claim_row kind now m i v db) = step_table db.
Proof. unfold step_table. by rewrite claim_row_worlds. Qed.

Lemma elem_of_step_table db e : e ∈ step_table db ↔ ∃ w, w ∈ ad_worlds db ∧ w_mission w = e.1 ∧ e.2 ∈ w_steps w.
Proof.
  unfold step_table. rewrite list_elem_of_In, in_flat_map. setoid_rewrite <- list_elem_of_In. split.
  - intros (w & Hw & He). apply elem_of_map in He as (s & -> & Hs). by exists w.
  - intros (w & Hw & Hm & Hs). exists w. split; [done|]. apply elem_of_map. exists (e.2). split; [|done].
    rewrite Hm. by destruct e.
Qed.

(** A claim of a reminder for a row of the table. *)
Lemma claim_reminds now db e :
  e ∈ step_table db → isAwaitingUser (st_status e.2) = true →
  let db' := claim_row reminder_notice now (ms_id e.1) (st_id e.2) (st_visit e.2) db in
  only_reminds db db' ∧ has_reminder db' e ∧
  ∀ e', NoDup (List.map row_key (step_table db)) → e' ∈ step_table db → has_reminder db' e' →
    has_reminder db e' ∨ (e' = e ∧ claim_matches reminder_notice (ms_id e.1) (st_id e.2) (st_visit e.2) db = true).
Proof.
  intros He Haw db'. unfold db', claim_row. destruct (claim_matches _ _ _ _ _) eqn:E.
  - set (d := db<|ad_marks ::= _|><|ad_claimed ::= _|>).
    assert (Hmark : ∀ m i, marks_of m i d = if decide ((m, i) = row_key e)
      then (marks_of (ms_id e.1) (st_id e.2) db)<|mk_reminded_visit := Some (st_visit e.2)|> else marks_of m i db).
    { intros m i. unfold marks_of at 1. simpl. unfold row_key. destruct (decide _) as [->|Hne].
      - by rewrite lookup_insert_eq.
      - by rewrite lookup_insert_ne by congruence. }
    assert (Hone : ∀ e', NoDup (List.map row_key (step_table db)) → e' ∈ step_table db → (ms_id e'.1, st_id e'.2) = row_key e → e' = e)
      by (intros e' Hn He' Hk; by apply (NoDup_fmap_inj_on row_key (step_table db))).
    split; [split|split].
    + done.
    + intros m i. rewrite Hmark. destruct (decide _) as [[= -> ->]|_]; done.
    + intros e' Hn He' Hr. unfold has_reminder. rewrite Hmark. destruct (decide _) as [Hk|_]; [|exact Hr].
      by rewrite (Hone e' Hn He' Hk).
    + done.
    + done.
    + unfold has_reminder. rewrite Hmark. by rewrite decide_True by done.
    + intros e' Hn He' Hr. unfold has_reminder in Hr. rewrite Hmark in Hr. destruct (decide _) as [Hk|_]; [right|by left].
      split; [by apply Hone|done].
  - split; [reflexivity|]. split; [|by left]. unfold claim_matches in E. apply andb_false_iff in E as [E|E].
    + apply (proj1 (lsome_false _ _)) with (x := e.2) in E; [by rewrite Z.eqb_refl, Haw in E|].
      apply elem_of_step_table in He as (w & Hw & Hm & Hs). apply elem_of_step_rows. exists w. by rewrite Hm.
    + by apply unmarked_false in E.
Qed.

Lemma record_reminds m t k ks db : only_reminds db (on_mission m (λ w, snd (recordEvent t k ks w)) db).
Proof. split; [apply step_table_record|done..]. Qed.

Lemma hand_over_reminds c users db : only_reminds db (hand_over c users db).
Proof. split; try done. intros x Hx. cbn. apply elem_of_app. by left. Qed.

(** What [remind] leaves. *)
Definition after_reminder (e : Mission * Step) (db : Adb) : Adb :=
  let db1 := claim_row reminder_notice (ad_now db) (ms_id e.1) (st_id e.2) (st_visit e.2) db in
  if claim_matches reminder_notice (ms_id e.1) (st_id e.2) (st_visit e.2) db then
    match ad_recipients db1 (ms_id e.1) with
    | Some users =>
        on_mission (ms_id e.1) (λ w, snd (recordEvent "confirm_notified" (Some (st_key e.2)) [] w)) (hand_over (reminder_of e) users db1)
    | None => db1
    end
  else db1.

Lemma remind_run db e : ∃ b, run_alone (remind (ms_id e.1, e.2)) db = (Ok b, after_reminder e db).
Proof.
  unfold remind, claimReminder, claim, after_reminder. simpl. destruct (claim_matches _ _ _ _ _); simpl; [|by eexists].
  unfold send. simpl. destruct (ad_recipients _ _) as [users|]; by eexists.
Qed.

Lemma remind_spec db e :
  e ∈ step_table db → isAwaitingUser (st_status e.2) = true →
  ∃ b db', run_alone (remind (ms_id e.1, e.2)) db = (Ok b, db') ∧ marks_sent db db' ∧ has_reminder db' e.
Proof.
  intros He Haw. destruct (remind_run db e) as [b Hrun]. exists b, (after_reminder e db). split; [exact Hrun|]. clear Hrun.
  destruct (claim_reminds (ad_now db) db e He Haw) as (Ho & Hr & Hnew). unfold after_reminder. cbv zeta.
  set (db1 := claim_row _ _ _ _ _ _) in *. destruct (claim_matches _ _ _ _ _) eqn:E.
  2:{ split; [|done]. split; [done|]. intros e' Hn He' Hr'. destruct (Hnew e' Hn He' Hr') as [?|[_ ?]]; [by left|done]. }
  destruct (ad_recipients db1 (ms_id e.1)) as [users|] eqn:Er.
  - split; [|exact Hr]. split.
    + transitivity db1; [exact Ho|]. etransitivity; [apply hand_over_reminds|apply record_reminds].
    + intros e' Hn He' Hr'. destruct (Hnew e' Hn He' Hr') as [?|[-> _]]; [by left|do 2 right]. exists users. cbn.
      apply elem_of_app. right. apply list_elem_of_here.
  - split; [|exact Hr]. split; [exact Ho|]. intros e' Hn He' Hr'. destruct (Hnew e' Hn He' Hr') as [?|[-> _]]; [by left|].
    right; left. by rewrite <- (or_recipients _ _ Ho).
Qed.

(** The loop over the candidates. *)
Lemma remind_all missions l : ∀ db n,
  NoDup (List.map row_key (step_table db)) →
  (∀ e, e ∈ l → e ∈ step_table db ∧ isAwaitingUser (st_status e.2) = true ∧ includes missions (ms_id e.1) = true) →
  let db' := snd (run_alone (each (λ n (e : string * Step),
      if negb (includes missions e.1) then mret n
      else sent ← remind e; mret (if sent : bool then n + 1 else n)) n (List.map (λ e, (ms_id e.1, e.2)) l)) db) in
  marks_sent db db' ∧ ∀ e, e ∈ l → has_reminder db' e.
Proof.
  induction l as [|e l IH]; intros db n Hn Hl; [split; [reflexivity|by intros e ?%elem_of_nil]|].
  destruct (Hl e (list_elem_of_here _ _)) as (He & Haw & Hm). cbn [List.map each fst]. rewrite Hm. cbn [negb].
  destruct (remind_spec db e He Haw) as (b & db1 & Hrun & Ho & Hr).
  unfold mbind, P_bind. rewrite !run_alone_bind, Hrun. cbn [fst snd run_alone mret P_ret].
  destruct (IH db1 (if b then n + 1 else n)) as [Ho' Hr'].
  - by rewrite (or_rows _ _ (proj1 Ho)).
  - intros e' He'. rewrite (or_rows _ _ (proj1 Ho)). apply Hl. by apply list_elem_of_further.
  - split; [by transitivity db1|]. intros e' [->|He']%elem_of_cons; [|by apply Hr'].
    apply (or_kept _ _ (proj1 Ho')); [by rewrite (or_rows _ _ (proj1 Ho))..|exact Hr].
Qed.

(** The due rows, oldest first. *)
Definition due_rows (cutoff : Z) (db : Adb) : list (Mission * Step) := lfilter (reminder_due cutoff db) (step_table db).

Lemma insert_by_map {A B} (f : A → Z) (g : B → A) x l :
  insert_by f (g x) (List.map g l) = List.map g (insert_by (f ∘ g) x l).
Proof. induction l as [|y l IH]; [done|]. simpl. unfold compose at 1. destruct (_ <? _); [done|]. simpl. by rewrite IH. Qed.

Lemma sort_by_map {A B} (f : A → Z) (g : B → A) l : sort_by f (List.map g l) = List.map g (sort_by (f ∘ g) l).
Proof.
  unfold sort_by. change (@nil A) with (List.map g []). generalize (@nil B).
  induction l as [|x l IH]; intros acc; [done|]. simpl. by rewrite insert_by_map, IH.
Qed.

Lemma insert_by_sorted {A} (f : A → Z) x l :
  StronglySorted (λ a b, f a <= f b) l → StronglySorted (λ a b, f a <= f b) (insert_by f x l).
Proof.
  induction 1 as [|y l Hs IH Hy]; simpl; [by repeat constructor|].
  destruct (f x <? f y) eqn:E.
  - apply Z.ltb_lt in E. constructor; [by constructor|]. constructor; [lia|]. eapply Forall_impl; [exact Hy|]. intros a Ha; simpl in Ha; lia.
  - apply Z.ltb_ge in E. constructor; [exact IH|]. rewrite insert_by_perm. by constructor.
Qed.

Lemma sort_by_sorted {A} (f : A → Z) l : StronglySorted (λ a b, f a <= f b) (sort_by f l).
Proof.
  unfold sort_by. cut (∀ acc, StronglySorted (λ a b, f a <= f b) acc → StronglySorted (λ a b, f a <= f b) (foldl (λ acc x, insert_by f x acc) acc l)).
  { intros H. apply H. constructor. }
  induction l as [|x l IH]; intros acc Hacc; [done|]. simpl. by apply IH, insert_by_sorted.
Qed.

(** The rows below a bound come first in the sorted list. *)
Lemma take_of_sorted {A} (f : A → Z) (bound : Z) n (l : list A) :
  StronglySorted (λ a b, f a <= f b) l →
  (min n (length (lfilter (λ a, (f a <=? bound)%Z) l)) ≤ length (lfilter (λ a, (f a <=? bound)%Z) (take n l)))%nat.
Proof.
  intros Hl. revert n. induction Hl as [|x l Hs IH Hx]; intros n; [destruct n; cbn; lia|].
  destruct n as [|n]; [lia|]. rewrite firstn_cons, !lfilter_cons. destruct (f x <=? bound) eqn:E; cbn [length].
  - specialize (IH n). lia.
  - assert (lfilter (λ a, (f a <=? bound)%Z) l = []) as ->; [|cbn; lia].
    apply lfilter_nil. intros y Hy. apply Z.leb_gt in E. apply Z.leb_gt. rewrite Forall_forall in Hx. specialize (Hx y Hy). simpl in Hx. lia.
Qed.

(** ** The sweeps *)

Lemma reminder_due_iff cutoff db e :
  reminder_due cutoff db e = true ↔
  (isAwaitingUser (st_status e.2) = true ∧ ms_status e.1 = "running" ∧ ¬ has_reminder db e) ∧
  ∃ t, anchor db (ms_id e.1, e.2) = Some t ∧ t <= cutoff.
Proof.
  unfold reminder_due, has_reminder. rewrite !andb_true_iff, String.eqb_eq.
  assert (unmarked reminder_notice (st_visit e.2) (marks_of (ms_id e.1) (st_id e.2) db) = true
    ↔ mk_reminded_visit (marks_of (ms_id e.1) (st_id e.2) db) ≠ Some (st_visit e.2)) as ->.
  { rewrite <- not_false_iff_true, unmarked_false. done. }
  destruct (anchor _ _) as [t|].
  - rewrite Z.leb_le. split; [intros [[[H1 H2] H3] H4]; split; [done|by exists t]|].
    intros [(H1 & H2 & H3) (u & [= <-] & H4)]. done.
  - split; [intros [_ H]; discriminate|intros [_ (t & H & _)]; discriminate].
Qed.

Lemma anchor_reminds db db' e : only_reminds db db' → anchor db' e = anchor db e.
Proof. intros H. unfold anchor. by rewrite (or_anchors _ _ H). Qed.

(** A sweep at [now] handles the oldest rows that are due. *)
Lemma reminded_spec afterMs now db :
  0 < afterMs → NoDup (List.map row_key (step_table db)) →
  let due := sort_by (λ e, default 0 (anchor db (ms_id e.1, e.2))) (due_rows (now - afterMs) db) in
  marks_sent db (reminded afterMs now db) ∧
  ∀ e, e ∈ take CONFIRM_REMINDERS_PER_SWEEP due → has_reminder (reminded afterMs now db) e.
Proof.
  intros Hpos Hn due. unfold reminded, remindAwaitingConfirm. rewrite (proj2 (Z.leb_gt _ _) Hpos).
  assert (Hcands : take CONFIRM_REMINDERS_PER_SWEEP (due_reminders (now - afterMs) db)
    = List.map (λ e, (ms_id e.1, e.2)) (take CONFIRM_REMINDERS_PER_SWEEP due)).
  { unfold due_reminders. rewrite sort_by_map. by rewrite <- fmap_take. }
  assert (Hin : ∀ e, e ∈ take CONFIRM_REMINDERS_PER_SWEEP due → e ∈ step_table db ∧ isAwaitingUser (st_status e.2) = true).
  { intros e He%subseteq_take. unfold due in He. rewrite elem_of_sort_by in He. apply elem_of_lfilter in He as [He Hd].
    split; [done|]. by apply reminder_due_iff in Hd as [(? & _) _]. }
  unfold mbind, P_bind. rewrite run_alone_bind. cbn [run_alone read fst snd]. rewrite Hcands.
  revert Hin. generalize (take CONFIRM_REMINDERS_PER_SWEEP due). intros l Hin.
  destruct l as [|e l]; [split; [reflexivity|by intros e ?%elem_of_nil]|]. cbn [List.map].
  rewrite run_alone_bind. cbn [run_alone read fst snd id].
  apply (remind_all _ (e :: l) db 0 Hn). intros e' He'. destruct (Hin e' He') as [Ht Haw]. split_and!; [done..|].
  apply includes_true, elem_of_lfilter. split.
  - apply elem_of_step_table in Ht as (w & Hw & Hm & _). apply elem_of_map. exists w. split; [|done]. unfold compose. by rewrite Hm.
  - apply includes_true. change (ms_id e'.1 ∈ List.map fst (List.map (λ e, (ms_id e.1, e.2)) (e :: l))).
    rewrite List.map_map. apply elem_of_map. by exists e'.
Qed.

(** What was due and has not been reached shrinks by a sweep's share, however
    much has become due since. *)
Lemma reminded_progress afterMs cutoff now db :
  0 < afterMs → cutoff <= now - afterMs → NoDup (List.map row_key (step_table db)) →
  let db' := reminded afterMs now db in
  marks_sent db db' ∧
  (length (due_rows cutoff db') ≤ length (due_rows cutoff db) - CONFIRM_REMINDERS_PER_SWEEP)%nat.
Proof.
  intros Hpos Hcut Hn db'. destruct (reminded_spec afterMs now db Hpos Hn) as [Ho Hr]. fold db' in Ho, Hr.
  split; [exact Ho|]. destruct Ho as [Ho _]. set (f e := default 0 (anchor db (ms_id e.1, e.2))) in Hr.
  set (all := sort_by f (due_rows (now - afterMs) db)) in Hr.
  set (old (e : Mission * Step) := reminder_due cutoff db e).
  assert (Hold : ∀ e, e ∈ all → old e = (f e <=? cutoff)).
  { intros e He. unfold all in He. rewrite elem_of_sort_by in He. apply elem_of_lfilter in He as [_ Hd].
    apply reminder_due_iff in Hd as [Hd (t & Ht & Hle)]. apply eq_true_iff_eq. unfold old, f. rewrite reminder_due_iff, Ht, Z.leb_le. simpl.
    split; [by intros [_ (u & [= <-] & Hu)]|intros Hu; split; [done|by exists t]]. }
  assert (Hall : all ≡ₚ due_rows (now - afterMs) db) by apply sort_by_perm.
  assert (Hold' : ∀ e, e ∈ step_table db → reminder_due cutoff db' e = true → old e = true).
  { intros e He [(H1 & H2 & H3) (t & Ht & Hle)]%reminder_due_iff. rewrite (anchor_reminds _ _ _ Ho) in Ht.
    apply reminder_due_iff. split_and!; [done|done| |by exists t]. intros H. by apply H3, (or_kept _ _ Ho). }
  assert (Hdue : ∀ e, old e = true → reminder_due (now - afterMs) db e = true).
  { intros e [E (t & Ht & Hle)]%reminder_due_iff. apply reminder_due_iff. split; [done|]. exists t. split; [done|lia]. }
  assert (Hsplit : length (due_rows cutoff db) = length (lfilter old all)).
  { rewrite (lfilter_perm old _ _ Hall). unfold due_rows. rewrite lfilter_within; [done|]. auto. }
  assert (Hleft : (length (due_rows cutoff db') ≤ length (lfilter old (drop CONFIRM_REMINDERS_PER_SWEEP all)))%nat).
  { unfold due_rows. rewrite (or_rows _ _ Ho). rewrite <- (lfilter_within _ (reminder_due (now - afterMs) db)) by auto.
    rewrite <- (lfilter_perm _ _ _ Hall), <- (take_drop CONFIRM_REMINDERS_PER_SWEEP all), lfilter_app, take_drop.
    rewrite (proj2 (lfilter_nil _ (take _ _))).
    - apply lfilter_weaker. intros e He%subseteq_drop. apply Hold'. unfold all in He. rewrite elem_of_sort_by in He.
      by apply elem_of_lfilter in He as [He _].
    - intros e He. apply not_true_iff_false. intros [(_ & _ & H3) _]%reminder_due_iff. by apply H3, Hr. }
  pose proof (take_of_sorted f cutoff CONFIRM_REMINDERS_PER_SWEEP all (sort_by_sorted _ _)) as Htake.
  assert (He : ∀ l, (∀ e, e ∈ l → e ∈ all) → lfilter old l = lfilter (λ a, (f a <=? cutoff)%Z) l).
  { intros l Hl. unfold lfilter. apply List.filter_ext_in. intros e Hin%list_elem_of_In. by apply Hold, Hl. }
  rewrite <- !He in Htake by (try done; intros e; apply subseteq_take).
  assert (Htd : (length (lfilter old all) = length (lfilter old (take CONFIRM_REMINDERS_PER_SWEEP all))
    + length (lfilter old (drop CONFIRM_REMINDERS_PER_SWEEP all)))%nat).
  { by rewrite <- length_app, <- lfilter_app, take_drop. }
  rewrite Hsplit. lia.
Qed.

(** *** Sweeps, and what happens between them *)

(** The pass still waits for its reminder, announced at the cutoff or before. *)
Definition waits_since (cutoff : Z) (c : Claim) (db : Adb) : Prop := ∃ e, e ∈ due_rows cutoff db ∧ reminder_of e = c.

(** Between two sweeps anything may happen, of which this much matters: rows stay told
    apart, a gate that is announced now is due later than those that were due by the
    cutoff, and the pass goes on waiting or somebody else sent its reminder. *)
Record between_sweeps (cutoff : Z) (c : Claim) (db db' : Adb) : Prop := {
  bs_rows : NoDup (List.map row_key (step_table db'));
  bs_due : (length (due_rows cutoff db') ≤ length (due_rows cutoff db))%nat;
  bs_waits : waits_since cutoff c db → waits_since cutoff c db' ∨ reminder_sent c db';
  bs_sent : reminder_sent c db → reminder_sent c db';
  bs_recipients : ad_recipients db' (cl_mission c) ≠ None
}.

(** Sweeps of any servers at these times, one after the other. *)
Inductive reminder_sweeps (afterMs cutoff : Z) (c : Claim) : list Z → Adb → Adb → Prop :=
  | rs_done db : reminder_sweeps afterMs cutoff c [] db db
  | rs_sweep now nows db db1 db' :
      between_sweeps cutoff c db db1 → reminder_sweeps afterMs cutoff c nows (reminded afterMs now db1) db' →
      reminder_sweeps afterMs cutoff c (now :: nows) db db'.

(** A sweep sends the reminder, or leaves the pass waiting. *)
Lemma reminded_waits afterMs cutoff now c db :
  0 < afterMs → cutoff <= now - afterMs → NoDup (List.map row_key (step_table db)) → ad_recipients db (cl_mission c) ≠ None →
  waits_since cutoff c db → waits_since cutoff c (reminded afterMs now db) ∨ reminder_sent c (reminded afterMs now db).
Proof.
  intros Hpos Hcut Hn Hrec (e & [He Hd]%elem_of_lfilter & <-).
  destruct (reminded_progress afterMs cutoff now db Hpos Hcut Hn) as [[Ho Hnew] _].
  apply reminder_due_iff in Hd as [(H1 & H2 & Hno) Ha].
  destruct (decide (mk_reminded_visit (marks_of (ms_id e.1) (st_id e.2) (reminded afterMs now db)) = Some (st_visit e.2))) as [Hy|Hy].
  - right. destruct (Hnew e Hn He Hy) as [?|[?|?]]; [done|done|done].
  - left. exists e. split; [|done]. apply elem_of_lfilter. split; [by rewrite (or_rows _ _ Ho)|].
    apply reminder_due_iff. by rewrite (anchor_reminds _ _ _ Ho).
Qed.

Lemma sweeps_remind afterMs cutoff c nows db db' :
  0 < afterMs → Forall (λ now, cutoff <= now - afterMs) nows → reminder_sweeps afterMs cutoff c nows db db' →
  waits_since cutoff c db ∨ reminder_sent c db →
  (length (due_rows cutoff db) ≤ CONFIRM_REMINDERS_PER_SWEEP * length nows)%nat → reminder_sent c db'.
Proof.
  intros Hpos Hnows Hs. induction Hs as [db|now nows db db1 db' [B1 B2 B3 B4 B5] _ IH]; intros Hw Hlen.
  - destruct Hw as [(e & He & _)|Hw]; [|exact Hw].
    destruct (due_rows cutoff db); [by apply elem_of_nil in He|cbn [length] in Hlen; lia].
  - apply Forall_cons in Hnows as [Hnow Hnows]. destruct (reminded_progress afterMs cutoff now db1 Hpos Hnow B1) as [[Ho _] Hp].
    apply IH; [done| |cbn [length] in Hlen; lia]. clear IH.
    assert (Hw1 : waits_since cutoff c db1 ∨ reminder_sent c db1) by (destruct Hw as [Hw|Hw]; [by apply B3|right; by apply B4]).
    destruct Hw1 as [Hw1|(users & Hu)]; [by apply reminded_waits|right]. exists users. by apply (or_sent _ _ Ho).
Qed.


(** ** Gates of two missions, and two servers *)

Definition day : Z := 24 * 60 * 60000.

Definition open_gate_at (id : string) (t : Z) : Step := (sample_step id "awaiting_user" [] 0)<|st_visit := 1|><|st_dispatched_at := Some t|>.

Definition gates_board : Adb :=
  board (2 * day) (List.map (λ i, board_world ("m" +:+ pretty.pretty (Z.of_nat i)) [] [open_gate_at "g" (minutes (Z.of_nat i))]) (seq 0 30)).

(** The clock between two sweeps *)
Definition later (now : Z) (db : Adb) : Adb := db<|ad_now := now|>.

Lemma later_between cutoff c now db : NoDup (List.map row_key (step_table db)) → ad_recipients db (cl_mission c) ≠ None →
  between_sweeps cutoff c db (later now db).
Proof. intros H1 H2. split; try done. by left. Qed.

Lemma two_sweeps afterMs cutoff c n1 n2 db :
  between_sweeps cutoff c db (later n1 db) →
  between_sweeps cutoff c (reminded afterMs n1 (later n1 db)) (later n2 (reminded afterMs n1 (later n1 db))) →
  reminder_sweeps afterMs cutoff c [n1; n2] db (reminded afterMs n2 (later n2 (reminded afterMs n1 (later n1 db)))).
Proof. intros H1 H2. eapply rs_sweep; [exact H1|]. eapply rs_sweep; [exact H2|]. apply rs_done. Qed.

Definition twice_reminded : Adb := reminded day (2 * day + 300000) (later (2 * day + 300000) (reminded day (2 * day) (later (2 * day) gates_board))).


(** The server that opened a gate announces it while two others sweep. *)
Definition announced_board : Adb * list (P SweepResult) :=
  run_schedule notice_job (List.concat (List.repeat [0; 1; 2; 3]%nat 16))
    (board (2 * day) [board_world "m" [] [open_gate_at "g" 0]],
     List.map (notifier_program (λ _, fenced_env) None sample_config 0)
       [nf_gate "m" (open_gate_at "g" 0); nf_sweep false false (4 * day); nf_sweep false false (4 * day)]).

Lemma announced_board_ok : claims_ok (λ _, fenced_env) (board (2 * day) [board_world "m" [] [open_gate_at "g" 0]]).
Proof.
  split.
  - apply NoDup_singleton.
  - intros w ->%list_elem_of_singleton. by apply checked_rows_identified; vm_compute.
  - constructor.
  - intros c Hc. by apply elem_of_nil in Hc.
Qed.

