(* ===== verification/Silence.v ===== *)
(** * Silent steps

    What two passes of the reaper do to a step whose worker has stopped
    answering: the first opens a grace window, the second ends the attempt. *)

From S2P Require Import Prelude JsStd Vocabulary Plan Graph GraphRun Patch Roster Entities Logic Samples PostActions Engine Frame.
From S2P Require Import Rows Limits Lifecycle StepEdit PlanIntake Reports Recovery Calls StepLife Refinement History Guarantees Fences.
#[local] Open Scope Z_scope.

Section silence.
Context (env : Env).

(** The step has been given up. *)
Definition closed_step (id : string) (w : World) : Prop :=
  ∃ x, x ∈ w_steps w ∧ st_id x = id ∧ given_up (st_status x).

(** Its next attempt is under way. *)
Definition redispatched_step (s : Step) (w : World) : Prop :=
  is_manual s = false ∧ st_attempt s < st_max_attempts s ∧
  ∃ x, x ∈ w_steps w ∧ st_id x = st_id s ∧ isInFlight (st_status x) = true ∧ st_attempt x = st_attempt s + 1 ∧
       st_lease_stale_since x = None.

(** Nothing in lease recovery reopens a step that was given up. *)
Lemma given_up_stays now id g t step a b :
  rtc (life_step (c_reconcile now id g t) step) a b → given_up (lf_status a) → given_up (lf_status b).
Proof.
  induction 1 as [|a b c H _ IH]; [done|]. intros Ha. apply IH. clear IH.
  destruct H; simpl in *; try discriminate; try done; try solve [by left | by right].
  all: destruct Ha as [Ha|Ha]; try discriminate Ha; subst; try done.
  all: try match goal with H : open_status _ |- _ => destruct H as (? & ? & ?); done end.
  all: try match goal with H : _ ∨ _ |- _ => destruct H as [(? & ? & ?)|?]; done end.
Qed.

Lemma lives_on c w w' s :
  identified env w → lived env c w w' → s ∈ w_steps w → ∃ s', s' ∈ w_steps w' ∧ lives c s s'.
Proof.
  intros Hi Hl Hs. destruct (Hl Hi) as (_ & (old & new & -> & HR & _) & _).
  apply list_elem_of_lookup in Hs as [i Hs]. destruct (Forall2_lookup_l _ _ _ _ _ HR Hs) as (s' & Hs' & Hlife).
  exists s'. split; [apply elem_of_app; left; by eapply list_elem_of_lookup_2|done].
Qed.

Lemma closed_stays now id g t step w w' :
  identified env w → lived env (c_reconcile now id g t) w w' → closed_step step w → closed_step step w'.
Proof.
  intros Hi Hl (x & Hx & Hid & Hg). destruct (lives_on _ _ _ _ Hi Hl Hx) as (y & Hy & [[He _] Hlife]).
  exists y. split_and!; [done|congruence|]. by apply (given_up_stays _ _ _ _ _ _ _ Hlife).
Qed.

Lemma finalize_closes now s r m b w :
  identified env w → s ∈ w_steps w → isInFlight (st_status s) = true →
  closed_step (st_id s) (snd (finalizeUnrecoverableStep env now s r m b w)).
Proof.
  intros Hi Hs Hf. unfold finalizeUnrecoverableStep. cbv zeta.
  set (note := if m then _ else _). set (closed := (close_step now m note note s)<|st_lease_stale_since := None|>).
  set (c := c_reconcile now (st_id s) 0 0).
  assert (Hsave : moves (lived env c) (save_step closed) w).
  { apply (lived_save env _ _ s); [done|]. apply lives_step; [done|]. apply (ls_expired _ _ now 0 0); [done|done|apply close_given_up]. }
  set (w1 := snd (recordEvent (close_event m) (Some (st_key s)) [] (snd (save_step closed w)))).
  assert (Hi1 : identified env w1) by (destruct (proj1 (Hsave Hi)) as [H1 H2 H3 H4 H5]; by constructor).
  change (closed_step (st_id s) (snd (after_failure env now closed w1))).
  apply (closed_stays now (st_id s) 0 0 _ w1); [done| |].
  - assert (Hl : moves (lived env c) (after_failure env now closed) w1) by (subst c; unfold after_failure; moves_auto). exact Hl.
  - exists closed. split_and!; [|done|apply close_given_up]. apply (put_step_present closed).
    apply elem_of_map. by exists s.
Qed.

Lemma unblock_Ok w : ∃ ks v, unblockAutoBlockedDependents w = (Ok ks, v).
Proof.
  unfold unblockAutoBlockedDependents, get_mission, listSteps. rewrite !run_gets. cbv zeta.
  destruct (List.map unblock_step _); eauto.
Qed.

(** A dispatch in the place of a silent attempt either starts the next one or
    ends in the step's closing. *)
Lemma dispatch_or_close now s revived m b v :
  identified env v → revived ∈ w_steps v → revived = s<|st_lease_stale_since := None|> →
  isInFlight (st_status s) = true → is_manual s = false → st_attempt s < st_max_attempts s →
  let w' := snd (try_catch (dispatchStep env now revived true;; mret rec_redispatched)
    (λ _, current ← requireStep (st_id s);
          finalizeUnrecoverableStep env now current lease_expired_reason m b;; mret rec_terminal) v) in
  redispatched_step s w' ∨ closed_step (st_id s) w'.
Proof.
  intros Hi Hr -> Hf Hm Hb. set (revived := s<|st_lease_stale_since := None|>) in *. cbv zeta.
  unfold try_catch, mbind, M_bind. destruct (dispatchStep env now revived true v) as [[u|e] x] eqn:Ed.
  - left. split_and!; [done|done|]. destruct u. apply dispatchStep_Ok in Ed.
    exists (stamp_attempt now (env_uuid env (S (w_nonce v))) (env_uuid env (w_nonce v)) revived).
    split; [|by split_and!]. simpl. rewrite Ed. apply put_step_present, elem_of_map. by exists revived.
  - right. assert (Hl : moves (lived env (c_reconcile now (st_id s) 0 0)) (dispatchStep env now revived true) v).
    { apply lived_dispatch; [done|]. intros token room. apply lives_step; [done|]. by apply (ls_redispatch _ _ now 0 0). }
    unfold moves in Hl. rewrite Ed in Hl. simpl in Hl. pose proof (proj1 (Hl Hi)) as Hx.
    destruct (lives_on _ _ _ _ Hi Hl Hr) as (y & Hy & [[Hid _] _]).
    unfold requireStep. destruct (find_step x (st_id s)) as [current|] eqn:Efind.
    + apply find_Some_elem in Efind as [Hc Hcid%String.eqb_eq].
      assert (Hcf : isInFlight (st_status current) = true).
      { assert (Hc' : current ∈ w_steps (snd (dispatchStep env now revived true v))) by by rewrite Ed.
        by apply dispatched_row in Hc' as [->|(token & room & ->)]; [..|apply Hi|exact Hr|exact Hcid]. }
      pose proof (finalize_closes now current lease_expired_reason m b x Hx Hc Hcf) as H. rewrite Hcid in H.
      by destruct (finalizeUnrecoverableStep env now current _ _ _ x) as [[a|e'] z].
    + exfalso. unfold find_step in Efind. apply find_None_elem with (x := y) in Efind; [|done]. simpl in Efind.
      change (st_id revived) with (st_id s) in Hid. by rewrite <- Hid, String.eqb_refl in Efind.
Qed.

(** Past its grace a silent step is dispatched again where its policy and its
    budget allow it, and given up otherwise — also where the dispatch fails. *)
Lemma expired_ends now s w :
  identified env w → s ∈ w_steps w → isInFlight (st_status s) = true →
  redispatched_step s (snd (reconcile_expired env now s w)) ∨
  closed_step (st_id s) (snd (reconcile_expired env now s w)).
Proof.
  intros Hi Hs Hf. unfold reconcile_expired. cbv zeta. destruct (is_manual s || negb _) eqn:Em.
  { right. pose proof (finalize_closes now s lease_expired_reason (is_manual s) (st_attempt s <? st_max_attempts s) w Hi Hs Hf) as H.
    unfold mbind, M_bind. by destruct (finalizeUnrecoverableStep env now s _ _ _ w) as [[a|e] v]. }
  apply orb_false_iff in Em as [Hm Hb%negb_false_iff%Z.ltb_lt]. set (revived := s<|st_lease_stale_since := None|>).
  set (c := c_reconcile now (st_id s) 0 0).
  set (w1 := snd (recordEvent "step_auto_redispatched" (Some (st_key s)) [] (snd (save_step revived w)))).
  assert (Hsave : moves (lived env c) (save_step revived) w) by (by apply (lived_save env _ _ s); [|apply lives_same]).
  assert (Hi1 : identified env w1) by (destruct (proj1 (Hsave Hi)) as [H1 H2 H3 H4 H5]; by constructor).
  change (redispatched_step s (snd ((_ ← unblockAutoBlockedDependents;
      try_catch (dispatchStep env now revived true;; mret rec_redispatched)
        (λ _, current ← requireStep (st_id s);
              finalizeUnrecoverableStep env now current lease_expired_reason (is_manual s) (st_attempt s <? st_max_attempts s);;
              mret rec_terminal)) w1)) ∨
    closed_step (st_id s) (snd ((_ ← unblockAutoBlockedDependents;
      try_catch (dispatchStep env now revived true;; mret rec_redispatched)
        (λ _, current ← requireStep (st_id s);
              finalizeUnrecoverableStep env now current lease_expired_reason (is_manual s) (st_attempt s <? st_max_attempts s);;
              mret rec_terminal)) w1))).
  destruct (unblock_Ok w1) as (ks & v & Hu). rewrite !(bind_run _ _ _ _ _ Hu).
  assert (Hv : snd (unblockAutoBlockedDependents w1) = v) by by rewrite Hu.
  assert (Hiv : identified env v).
  { rewrite <- Hv. by apply (lived_unblock env c w1 eq_refl). }
  assert (Hrv : revived ∈ w_steps v).
  { rewrite <- Hv. apply unblock_keeps; [apply Hi1|apply (put_step_present revived), elem_of_map; by exists s|].
    unfold auto_blocked_candidate. change (st_status revived) with (st_status s).
    destruct (String.eqb (st_status s) "blocked") eqn:E; [|done]. apply String.eqb_eq in E. by rewrite E in Hf. }
  by apply dispatch_or_close.
Qed.

(** ** Two passes *)

Definition stale_at (now : Z) (s : Step) : Step := s<|st_lease_stale_since := Some now|>.

(** The first pass only marks the step, and asks its room for a sign of life. *)
Lemma first_pass now grace t s b w :
  find_step w (st_id s) = Some s → isInFlight (st_status s) = true → ms_status (w_mission w) = "running" →
  lease_baseline s = Some b → t * 60000 <= now - b → st_lease_stale_since s = None →
  let w1 := snd (reconcileStaleLease env now (st_id s) grace t w) in
  w_steps w1 = put_step (stale_at now s) (w_steps w) ∧ w_mission w1 = w_mission w ∧ w_nonce w1 = w_nonce w.
Proof.
  intros Hf Hfl Hrun Hb Hsil Hst. cbv zeta. unfold reconcileStaleLease. rewrite run_requireStep, Hf, Hfl. cbn [negb].
  rewrite run_requireMission, Hrun, Hb. cbn [negb String.eqb]. apply Z.ltb_ge in Hsil. rewrite Hsil, Hst.
  destruct (st_room_id s) as [room|]; [|done]. destruct (truthy room); [|done].
  unfold mbind, M_bind, try_catch, postToRoom. simpl. by destruct (env_post _ _ _).
Qed.

(** C8: a silent step does not stay silent.  When a worker has said nothing for
    the mission's timeout, the first pass of the reaper leaves the attempt as it
    is but for the mark and a request for a sign of life; a second pass, after
    the grace and without one, ends the attempt: the step is dispatched on its
    next attempt, or closed as failed or as needing recovery.  It is dispatched
    again only under its retry policy and within its budget, and a dispatch that
    fails closes it. *)
Theorem silent_steps_recover now1 now2 grace t s b w :
  identified env w → find_step w (st_id s) = Some s → isInFlight (st_status s) = true →
  ms_status (w_mission w) = "running" → lease_baseline s = Some b → st_lease_stale_since s = None →
  t * 60000 <= now1 - b → 0 <= grace → now1 + grace <= now2 →
  let w1 := after env (c_reconcile now1 (st_id s) grace t) w in
  let w2 := after env (c_reconcile now2 (st_id s) grace t) w1 in
  find_step w1 (st_id s) = Some (stale_at now1 s) ∧ (redispatched_step s w2 ∨ closed_step (st_id s) w2).
Proof.
  intros Hi Hf Hfl Hrun Hb Hst Hsil Hg Hn. cbv zeta.
  assert (Hsnd : ∀ n v, after env (c_reconcile n (st_id s) grace t) v = snd (reconcileStaleLease env n (st_id s) grace t v)).
  { intros n v. unfold after. simpl. unfold ignore, mbind, M_bind. by destruct (reconcileStaleLease _ _ _ _ _ v) as [[a|e] v']. }
  rewrite !Hsnd. destruct (first_pass now1 grace t s b w Hf Hfl Hrun Hb Hsil Hst) as (H1 & H2 & H3).
  pose proof (lived_reconcile env now1 (st_id s) grace t w Hi) as [Hi1 _]. unfold moves in *.
  set (w1 := snd (reconcileStaleLease env now1 (st_id s) grace t w)) in *.
  assert (Hin : s ∈ w_steps w) by (by apply find_Some_elem in Hf as [? _]).
  assert (Hf1 : find_step w1 (st_id s) = Some (stale_at now1 s)).
  { unfold find_step. rewrite H1. apply (find_step_saved (stale_at now1 s)), elem_of_map. by exists s. }
  split; [exact Hf1|].
  assert (He : snd (reconcileStaleLease env now2 (st_id s) grace t w1) = snd (reconcile_expired env now2 (stale_at now1 s) w1)).
  { unfold reconcileStaleLease. rewrite run_requireStep, Hf1. change (st_status (stale_at now1 s)) with (st_status s).
    rewrite Hfl. cbn [negb]. rewrite run_requireMission, H2, Hrun. cbn [negb String.eqb].
    change (lease_baseline (stale_at now1 s)) with (lease_baseline s). rewrite Hb.
    assert (Hs2 : (now2 - b <? t * 60000) = false) by (apply Z.ltb_ge; lia). rewrite Hs2. simpl.
    assert (Hs3 : (now2 - now1 <? grace) = false) by (apply Z.ltb_ge; lia). by rewrite Hs3. }
  rewrite He. apply (expired_ends now2 (stale_at now1 s) w1); [exact Hi1| |exact Hfl].
  by apply find_Some_elem in Hf1 as [? _].
Qed.
End silence.

(** ** A worker that dies *)

Definition silent_world : World :=
  sample_world "running"
    [(sample_step "a" "running" [] 0)<|st_attempt := 1|><|st_last_heartbeat_at := Some 0|><|st_lease_token := "old"|>].

Lemma silent_steps_recover_witness :
  let w1 := after fenced_env (c_reconcile 1800000 "id-a" 300000 30) silent_world in
  let w2 := after fenced_env (c_reconcile 2100000 "id-a" 300000 30) w1 in
  (st_attempt <$> find_step w1 "id-a" = Some 1) ∧ (st_attempt <$> find_step w2 "id-a" = Some 2) ∧
  ∃ s, find_step silent_world "id-a" = Some s ∧ (redispatched_step s w2 ∨ closed_step "id-a" w2).
Proof.
  cbv zeta. split; [vm_compute; reflexivity|]. split; [vm_compute; reflexivity|].
  set (s := (sample_step "a" "running" [] 0)<|st_attempt := 1|><|st_last_heartbeat_at := Some 0|><|st_lease_token := "old"|>).
  exists s. split; [reflexivity|].
  refine (proj2 (silent_steps_recover fenced_env 1800000 2100000 300000 30 s 0 silent_world _ _ _ _ _ _ _ _ _));
    [apply checked_rows_identified; vm_compute; reflexivity|reflexivity..| |lia|lia]. lia.
Defined.
