(* ===== verification/Json.v ===== *)
(** * Values through a JSON file

    What [JSON.stringify] writes and [JSON.parse] reads back, and how the loaders
    of the agent manager read the fields of what they find. *)

From stdpp Require Import pretty.
From S2P Require Import Prelude JsStd.
#[local] Open Scope Z_scope.

(** What a value becomes on its way through [JSON.stringify] and [JSON.parse]:
    absent fields go, and what JSON has no number for becomes null. *)
Definition json_number (n : number) : jsval :=
  match n with
  | JNonInt r => if includes ["NaN"; "Infinity"; "-Infinity"] r then JNull else JNum n
  | JInt _ => JNum n
  end.

Definition is_undefined (v : jsval) : bool := match v with JUndef => true | _ => false end.

Fixpoint json (v : jsval) : jsval :=
  match v with
  | JUndef => JNull
  | JNum n => json_number n
  | JArr l => JArr (List.map json l)
  | JObj fields =>
      JObj (List.flat_map (λ '(k, x), if is_undefined x then [] else [(k, json x)]) fields)
  | JNull | JBool _ | JStr _ => v
  end.

Definition is_object (v : jsval) : bool := match v with JArr _ | JObj _ => true | _ => false end.

(** [Object.entries(v)] *)
Definition object_entries (v : jsval) : list (string * jsval) :=
  match v with
  | JObj fields => fields
  | JArr l => imap (λ i x, (pretty (Z.of_nat i), x)) l
  | _ => []
  end.

(** ** [JSON.stringify] *)

Definition esc (c : ascii) : string := String (ascii_of_N 92) (String c EmptyString).

Definition hex_digit (n : Z) : ascii := ascii_of_N (Z.to_N (if n <? 10 then 48 + n else 87 + n)).

(** One character of a string literal. *)
Definition json_char (c : ascii) : string :=
  let n := code c in
  if (n =? 34) || (n =? 92) then esc c
  else if n =? 8 then esc "b" else if n =? 9 then esc "t" else if n =? 10 then esc "n"
  else if n =? 12 then esc "f" else if n =? 13 then esc "r"
  else if n <? 32 then
    esc "u" +:+ "00" +:+ String (hex_digit (n / 16)) (String (hex_digit (n mod 16)) EmptyString)
  else String c EmptyString.

Fixpoint json_chars (s : string) : string :=
  match s with
  | EmptyString => EmptyString
  | String c s => json_char c +:+ json_chars s
  end.

Definition quote : string := String (ascii_of_N 34) EmptyString.
Definition json_literal (s : string) : string := quote +:+ json_chars s +:+ quote.

(** The text of a value; where JSON has no value, [undefined] in an array, it says
    null, and a property that is [undefined] is left out. *)
Fixpoint stringify (v : jsval) : string :=
  match v with
  | JUndef | JNull => "null"
  | JBool b => if b then "true" else "false"
  | JNum (JInt z) => pretty z
  | JNum (JNonInt r) => if includes ["NaN"; "Infinity"; "-Infinity"] r then "null" else r
  | JStr s => json_literal s
  | JArr l => "[" +:+ String.concat "," (List.map stringify l) +:+ "]"
  | JObj fields =>
      "{" +:+ String.concat "," (List.flat_map (λ '(k, x),
        if is_undefined x then [] else [json_literal k +:+ ":" +:+ stringify x]) fields) +:+ "}"
  end.

Section number.
(** [Number(v)] of a value that is not an integer, where it is a whole number. *)
Context (other_number : jsval → Z).

(** [Number(v) || d] *)
Definition number_or (v : jsval) (d : Z) : Z :=
  let n := match v with JNum (JInt z) => z | _ => other_number v end in
  if n =? 0 then d else n.

(** [typeof v === 'number' ? v : none] *)
Definition typeof_number (v : jsval) : option Z :=
  match v with
  | JNum (JInt z) => Some z
  | JNum _ => Some (other_number v)
  | _ => None
  end.
End number.

(** ** Values through JSON *)

(** Induction over a value and all it contains. *)
Section jsval_nested_induction.
Context (P : jsval → Prop).
Context (Hundef : P JUndef) (Hnull : P JNull) (Hbool : ∀ b, P (JBool b)) (Hnum : ∀ n, P (JNum n)) (Hstr : ∀ s, P (JStr s)).
Context (Harr : ∀ l, Forall P l → P (JArr l)) (Hobj : ∀ fields, Forall (λ f, P (f.2)) fields → P (JObj fields)).

Fixpoint jsval_nested_ind (v : jsval) : P v :=
  match v with
  | JUndef => Hundef
  | JNull => Hnull
  | JBool b => Hbool b
  | JNum n => Hnum n
  | JStr s => Hstr s
  | JArr l =>
      Harr l ((fix go (l : list jsval) : Forall P l :=
                 match l with
                 | [] => Forall_nil_2 P
                 | x :: l => Forall_cons_2 P x l (jsval_nested_ind x) (go l)
                 end) l)
  | JObj fields =>
      Hobj fields ((fix go (l : list (string * jsval)) : Forall (λ f, P (f.2)) l :=
                      match l with
                      | [] => Forall_nil_2 _
                      | x :: l => Forall_cons_2 _ x l (jsval_nested_ind (x.2)) (go l)
                      end) fields)
  end.
End jsval_nested_induction.

Lemma json_defined v : is_undefined (json v) = false.
Proof. destruct v as [| | |[z|r]| | |]; try reflexivity. cbn. by destruct (includes _ _). Qed.

Lemma json_number_idem n : json (json_number n) = json_number n.
Proof. destruct n as [z|r]; [reflexivity|]. unfold json_number. destruct (includes _ _) eqn:E; [reflexivity|]. simpl. by rewrite E. Qed.

(** A value read from a file is written back as it is. *)
Lemma json_idem v : json (json v) = json v.
Proof.
  induction v as [| | | | |l IH|fields IH] using jsval_nested_ind; try reflexivity.
  - apply json_number_idem.
  - simpl. f_equal. rewrite List.map_map. apply List.map_ext_Forall. exact IH.
  - simpl. f_equal. induction IH as [|[k x] fields Hx _ IH]; [reflexivity|]. simpl in Hx.
    simpl. destruct (is_undefined x); simpl; [exact IH|]. by rewrite json_defined, Hx, IH.
Qed.

Lemma number_or_int f z d : (z = 0 → d = 0) → number_or f (JNum (JInt z)) d = z.
Proof. intros Hd. unfold number_or. destruct (z =? 0) eqn:E; [|reflexivity]. apply Z.eqb_eq in E. rewrite E. by apply Hd. Qed.

(** The fields of a value that went through JSON went through JSON. *)
Lemma json_stable_fields fields :
  json (JObj fields) = JObj fields → ∀ k x, (k, x) ∈ fields → json x = x.
Proof.
  intros [= H]. revert H.
  set (f := λ '(k, x), if is_undefined x then [] else [(k : string, json x)]).
  assert (Hle : ∀ l, (length (List.flat_map f l) ≤ length l)%nat).
  { induction l as [|[k x] l IH]; simpl; [lia|]. destruct (is_undefined x); simpl; lia. }
  induction fields as [|[k x] fields IH]; intros H k' x' Hin; [inversion Hin|]. simpl in H.
  destruct (is_undefined x) eqn:E; simpl in H.
  - specialize (Hle fields). rewrite H in Hle. simpl in Hle. lia.
  - injection H as Hx H. apply elem_of_cons in Hin as [[= -> ->]|Hin]; [exact Hx|by eapply IH].
Qed.

Lemma prop_json v key : json v = v → is_undefined (prop v key) = true ∨ json (prop v key) = prop v key.
Proof.
  intros Hv. destruct v as [| | | | | |fields]; try by left. simpl.
  destruct (List.find _ fields) as [[k x]|] eqn:E; [right|by left].
  apply find_some in E as [E _]. eapply json_stable_fields; [exact Hv|]. by apply list_elem_of_In.
Qed.
