(* ===== verification/Outbox.v ===== *)
(** * The manager's send outbox

    [outbox.ts] of the agent manager: messages whose send failed for a passing
    reason wait in a queue that is mirrored to a file, and are replayed in order.
    A flush awaits its sender, so messages arrive, other flushes are asked for and
    the process may die while an entry is on its way: the outbox is a machine
    whose steps are the stretches of code between two awaits. *)

From S2P Require Import Prelude.
From S2P Require Import JsStd.
From S2P Require Import Json.
#[local] Open Scope Z_scope.

(** ** Entries *)

Inductive OutboxKind : Type :=
  | chat_message | silent_exit_comment | dispatch_ack | command_ack | cli_login_progress.

#[export] Instance OutboxKind_eq_dec : EqDecision OutboxKind.
Proof. solve_decision. Defined.

Definition kind_string (k : OutboxKind) : string :=
  match k with
  | chat_message => "chat_message"
  | silent_exit_comment => "silent_exit_comment"
  | dispatch_ack => "dispatch_ack"
  | command_ack => "command_ack"
  | cli_login_progress => "cli_login_progress"
  end.

Definition all_kinds : list OutboxKind :=
  [chat_message; silent_exit_comment; dispatch_ack; command_ack; cli_login_progress].

(** [KNOWN_KINDS.has(s)], as the kind it names. *)
Definition known_kind (s : string) : option OutboxKind :=
  List.find (λ k, String.eqb (kind_string k) s) all_kinds.

Inductive OutboxSendOutcome : Type := send_ok | send_retryable | send_permanent.

Definition OUTBOX_MAX_AGE_MS (k : OutboxKind) : Z :=
  match k with
  | chat_message | silent_exit_comment => 24 * 60 * 60000
  | dispatch_ack => 15 * 60000
  | command_ack => 60 * 60000
  | cli_login_progress => 20 * 60000
  end.
Definition OUTBOX_MAX_ENTRIES : nat := 500.
Definition OUTBOX_MAX_ATTEMPTS : Z := 50.
Definition PERSIST_VERSION : Z := 1.

Record OutboxEntry := {
  oe_id : string;
  oe_kind : OutboxKind;
  oe_enqueued_at_ms : Z;
  oe_attempts : Z;
  oe_payload : jsval
}.

(** ** The file *)

Definition entry_json (e : OutboxEntry) : jsval :=
  JObj [("id", JStr (oe_id e)); ("kind", JStr (kind_string (oe_kind e)));
        ("enqueued_at_ms", JNum (JInt (oe_enqueued_at_ms e))); ("attempts", JNum (JInt (oe_attempts e)));
        ("payload", oe_payload e)].

(** The value [#persist] writes. *)
Definition outbox_json (l : list OutboxEntry) : jsval :=
  JObj [("version", JNum (JInt PERSIST_VERSION)); ("entries", JArr (List.map entry_json l))].

Section load.
(** [Number(v)] of a value that is not an integer, where it is a whole number. *)
Context (other_number : jsval → Z).

(** One element of the file; [uuid] is the id a nameless entry is given. *)
Definition load_entry (now : Z) (uuid : string) (v : jsval) : option OutboxEntry :=
  if negb (is_object v) then None
  else
    match prop v "kind" with
    | JStr k =>
        kind ← known_kind k;
        Some {| oe_id := match prop v "id" with JStr s => if truthy s then s else uuid | _ => uuid end;
                oe_kind := kind;
                oe_enqueued_at_ms := number_or other_number (prop v "enqueued_at_ms") now;
                oe_attempts := number_or other_number (prop v "attempts") 0;
                oe_payload := prop v "payload" |}
    | _ => None
    end.

(** [Array.isArray(raw?.entries) ? raw.entries : []], read one by one. *)
Definition load_entries (now : Z) (uuid : nat → string) (raw : jsval) : list OutboxEntry :=
  match prop raw "entries" with
  | JArr l => omap id (imap (λ i, load_entry now (uuid i)) l)
  | _ => []
  end.
End load.

(** ** The machine *)

Record Outbox := {
  ob_entries : list OutboxEntry;
  (** The entry whose sender is awaited; [#flushing] is whether there is one. *)
  ob_sending : option OutboxEntry;
  ob_flushAgain : bool;
  (** The kinds a sender is wired for. *)
  ob_senders : list OutboxKind;
  (** The file, as the value it parses to. *)
  ob_file : option jsval
}.

Definition ob_flushing (s : Outbox) : bool := match ob_sending s with Some _ => true | None => false end.

(** What becomes of a message that leaves the queue. *)
Inductive Fate : Type :=
  | fate_sent (e : OutboxEntry)
  | fate_refused (e : OutboxEntry)
  | fate_expired (e : OutboxEntry)
  | fate_unwired (e : OutboxEntry)
  | fate_overflowed (e : OutboxEntry)
  (** Shifted off the queue although another entry was the one just sent. *)
  | fate_shifted (e : OutboxEntry).

(** [#persist], whose write replaces the file. *)
Definition persist (s : Outbox) : Outbox := s<|ob_file := Some (json (outbox_json (ob_entries s)))|>.

(** [while (length > cap) shift()] *)
Definition overflow (l : list OutboxEntry) : list OutboxEntry := drop (length l - OUTBOX_MAX_ENTRIES) l.
Definition overflowed (l : list OutboxEntry) : list OutboxEntry := take (length l - OUTBOX_MAX_ENTRIES) l.

Definition enqueue (now : Z) (uuid : string) (kind : OutboxKind) (payload : jsval) (s : Outbox)
    : Outbox * list Fate :=
  let e := {| oe_id := uuid; oe_kind := kind; oe_enqueued_at_ms := now; oe_attempts := 0; oe_payload := payload |} in
  let l := ob_entries s ++ [e] in
  (persist (s<|ob_entries := overflow l|>), List.map fate_overflowed (overflowed l)).

Definition is_expired (now : Z) (e : OutboxEntry) : bool :=
  (OUTBOX_MAX_AGE_MS (oe_kind e) <? now - oe_enqueued_at_ms e) || (OUTBOX_MAX_ATTEMPTS <=? oe_attempts e).

Definition wired (senders : list OutboxKind) (e : OutboxEntry) : bool := bool_decide (oe_kind e ∈ senders).

(** The head of the loop: entries that expired or have no sender are dropped
    until one is to be sent. *)
Fixpoint skip_unsendable (now : Z) (senders : list OutboxKind) (l : list OutboxEntry)
    : list OutboxEntry * list Fate :=
  match l with
  | [] => ([], [])
  | e :: rest =>
      if is_expired now e then
        let '(l', fs) := skip_unsendable now senders rest in (l', fate_expired e :: fs)
      else if negb (wired senders e) then
        let '(l', fs) := skip_unsendable now senders rest in (l', fate_unwired e :: fs)
      else (l, [])
  end.

(** The loop up to its next await, or to its end.  Every drop is persisted. *)
Definition advance (now : Z) (s : Outbox) : Outbox * list Fate :=
  let '(l, fs) := skip_unsendable now (ob_senders s) (ob_entries s) in
  let s' := s<|ob_entries := l|><|ob_sending := head l|> in
  (match fs with [] => s' | _ => persist s' end, fs).

(** [flush(reason)], up to its first await. *)
Definition flush (now : Z) (s : Outbox) : Outbox * list Fate :=
  if ob_flushing s then (s<|ob_flushAgain := true|>, [])
  else match ob_entries s with [] => (s, []) | _ => advance now s end.

(** The [finally] block. *)
Definition finish (now : Z) (s : Outbox) : Outbox * list Fate :=
  let idle := s<|ob_sending := None|> in
  if ob_flushAgain idle then flush now (idle<|ob_flushAgain := false|>) else (idle, []).

Definition bump (e : OutboxEntry) : OutboxEntry := e<|oe_attempts ::= Z.succ|>.

(** [entry.attempts++] on the object the queue may still hold. *)
Definition bump_in (e : OutboxEntry) (l : list OutboxEntry) : list OutboxEntry :=
  List.map (λ x, if String.eqb (oe_id x) (oe_id e) then bump x else x) l.

(** The shift after a send, whatever the head has become. *)
Definition shifted (outcome : OutboxSendOutcome) (e : OutboxEntry) (l : list OutboxEntry) : list Fate :=
  match l with
  | [] => []
  | x :: _ =>
      if String.eqb (oe_id x) (oe_id e) then
        [match outcome with send_ok => fate_sent x | _ => fate_refused x end]
      else [fate_shifted x]
  end.

(** The sender answered. *)
Definition resume (now : Z) (outcome : OutboxSendOutcome) (s : Outbox) : Outbox * list Fate :=
  match ob_sending s with
  | None => (s, [])
  | Some e =>
      match outcome with
      | send_retryable => finish now (persist (s<|ob_entries ::= bump_in e|>))
      | _ =>
          let fs := shifted outcome e (ob_entries s) in
          let s' := persist (s<|ob_entries ::= tail|>) in
          let '(s2, fs2) := advance now s' in
          match ob_sending s2 with
          | Some _ => (s2, fs ++ fs2)
          | None => let '(s3, fs3) := finish now s2 in (s3, fs ++ fs2 ++ fs3)
          end
      end
  end.

(** The process dies; the next one reads the file. *)
Definition restart (other_number : jsval → Z) (now : Z) (uuid : nat → string) (senders : list OutboxKind) (s : Outbox)
    : Outbox :=
  {| ob_entries := match ob_file s with Some raw => load_entries other_number now uuid raw | None => [] end;
     ob_sending := None; ob_flushAgain := false; ob_senders := senders; ob_file := ob_file s |}.

(** ** Histories *)

Section histories.
Context (other_number : jsval → Z).

Inductive command : Type :=
  | k_enqueue (now : Z) (uuid : string) (kind : OutboxKind) (payload : jsval)
  | k_flush (now : Z)
  | k_resume (now : Z) (outcome : OutboxSendOutcome)
  | k_senders (senders : list OutboxKind)
  | k_restart (now : Z) (uuid : nat → string) (senders : list OutboxKind).

Definition step_outbox (c : command) (s : Outbox) : Outbox * list Fate :=
  match c with
  | k_enqueue now uuid kind payload => enqueue now uuid kind payload s
  | k_flush now => flush now s
  | k_resume now outcome => resume now outcome s
  | k_senders l => (s<|ob_senders ::= λ old, old ++ l|>, [])
  | k_restart now uuid senders => (restart other_number now uuid senders s, [])
  end.

Fixpoint run_outbox (cs : list command) (s : Outbox) : Outbox * list Fate :=
  match cs with
  | [] => (s, [])
  | c :: cs =>
      let '(s1, fs1) := step_outbox c s in
      let '(s2, fs2) := run_outbox cs s1 in (s2, fs1 ++ fs2)
  end.

Definition empty_outbox : Outbox :=
  {| ob_entries := []; ob_sending := None; ob_flushAgain := false; ob_senders := []; ob_file := None |}.

(** The messages a history hands over, in order. *)
Definition enqueued (cs : list command) : list string :=
  omap (λ c, match c with k_enqueue _ uuid _ _ => Some uuid | _ => None end) cs.

Definition fate_entry (f : Fate) : OutboxEntry :=
  match f with
  | fate_sent e | fate_refused e | fate_expired e | fate_unwired e | fate_overflowed e | fate_shifted e => e
  end.
Definition fate_ids (fs : list Fate) : list string := List.map (λ f, oe_id (fate_entry f)) fs.
Definition queue_ids (s : Outbox) : list string := List.map oe_id (ob_entries s).

(** Times and ids as [Date.now] and [randomUUID] give them. *)
Definition proper (c : command) : Prop :=
  match c with k_enqueue now uuid _ _ => now ≠ 0 ∧ truthy uuid = true | _ => True end.

(** No message is handed to a full queue while an entry is on its way. *)
Fixpoint calm (cs : list command) (s : Outbox) : Prop :=
  match cs with
  | [] => True
  | c :: cs =>
      match c with
      | k_enqueue _ _ _ _ => ob_sending s = None ∨ (length (ob_entries s) < OUTBOX_MAX_ENTRIES)%nat
      | _ => True
      end ∧ calm cs (fst (step_outbox c s))
  end.
End histories.

(** * What the outbox keeps, loses and delivers

    The file mirrors the queue and reads back as the queue; every message leaves
    the queue once and in order; while no message arrives at a full queue in
    the middle of a send, what leaves as sent is what the sender accepted; and
    the queue drains whatever the sender answers. *)

(** ** Entries through JSON *)

(** What a payload is after a stay in the file. *)
Definition stored_payload (v : jsval) : jsval := if is_undefined v then JUndef else json v.
Definition stored (e : OutboxEntry) : OutboxEntry := e<|oe_payload ::= stored_payload|>.

Definition proper_entry (e : OutboxEntry) : Prop := truthy (oe_id e) = true ∧ oe_enqueued_at_ms e ≠ 0.

Lemma known_kind_string k : known_kind (kind_string k) = Some k.
Proof. by destruct k. Qed.

Lemma stored_proper e : proper_entry (stored e) ↔ proper_entry e.
Proof. reflexivity. Qed.

Lemma stored_idem e : stored (stored e) = stored e.
Proof.
  destruct e as [i k t a p]. unfold stored, stored_payload. simpl. f_equal.
  destruct (is_undefined p) eqn:E; [reflexivity|]. by rewrite json_defined, json_idem.
Qed.

Lemma entry_json_stored e : json (entry_json (stored e)) = json (entry_json e).
Proof.
  destruct e as [i k t a p]. unfold entry_json, stored, stored_payload. simpl.
  destruct (is_undefined p) eqn:E; [reflexivity|]. simpl. by rewrite json_defined, json_idem.
Qed.

Lemma outbox_json_stored l : json (outbox_json (List.map stored l)) = json (outbox_json l).
Proof.
  unfold outbox_json. simpl. do 3 f_equal. f_equal. f_equal. rewrite !List.map_map.
  apply List.map_ext. exact entry_json_stored.
Qed.

Lemma load_entry_stored f now uuid e :
  proper_entry e → load_entry f now uuid (json (entry_json e)) = Some (stored e).
Proof.
  intros [Hid Ht]. destruct e as [i k t a p]. unfold load_entry, entry_json. simpl.
  rewrite known_kind_string. simpl. simpl in Hid, Ht. rewrite Hid, !number_or_int by (congruence || done).
  unfold stored, stored_payload. simpl. by destruct (is_undefined p).
Qed.

Lemma load_entries_stored f now uuid l :
  Forall proper_entry l → load_entries f now uuid (json (outbox_json l)) = List.map stored l.
Proof.
  unfold load_entries. simpl. intros Hl. revert uuid.
  induction Hl as [|e l He _ IH]; intros uuid; [reflexivity|].
  simpl. rewrite (load_entry_stored f now _ e He). simpl. f_equal.
  rewrite <- (IH (λ n, uuid (S n))). reflexivity.
Qed.

(** ** The queue and its file *)

Definition mirrored (s : Outbox) : Prop :=
  ob_file s = Some (json (outbox_json (ob_entries s))) ∨ (ob_file s = None ∧ ob_entries s = []).

Record kept (s : Outbox) : Prop := {
  kept_file : mirrored s;
  kept_entries : Forall proper_entry (ob_entries s);
  kept_bound : (length (ob_entries s) ≤ OUTBOX_MAX_ENTRIES)%nat
}.

(** A stretch of the flush: messages only leave, from the front. *)
Record drops (s : Outbox) (r : Outbox * list Fate) : Prop := {
  drops_ids : queue_ids s = fate_ids (r.2) ++ queue_ids (r.1);
  drops_kept : kept s → kept (r.1)
}.

Lemma fate_ids_app fs fs' : fate_ids (fs ++ fs') = fate_ids fs ++ fate_ids fs'.
Proof. apply List.map_app. Qed.

Lemma drops_refl s s' : ob_entries s' = ob_entries s → ob_file s' = ob_file s → drops s (s', []).
Proof.
  intros He Hf. split; simpl; [unfold queue_ids; by rewrite He|].
  intros [Hm Hp Hb]. split; unfold mirrored in *; by rewrite ?He, ?Hf.
Qed.

Lemma drops_trans s s1 fs r : drops s (s1, fs) → drops s1 r → drops s (r.1, fs ++ r.2).
Proof.
  intros [Hi Hk] [Hi' Hk']. split; simpl in *; [|auto].
  by rewrite fate_ids_app, Hi, Hi', app_assoc.
Qed.

Lemma drops_ext s s0 r : ob_entries s = ob_entries s0 → ob_file s = ob_file s0 → drops s0 r → drops s r.
Proof.
  intros He Hf [Hi Hk]. split; [unfold queue_ids; by rewrite He|].
  intros [Hm Hp Hb]. apply Hk. split; unfold mirrored in *; by rewrite <- ?He, <- ?Hf.
Qed.

(** Dropping a prefix of the queue and persisting the rest. *)
Lemma drops_prefix s s' fs l :
  ob_entries s = List.map fate_entry fs ++ l → ob_entries s' = l →
  drops s (persist s', fs).
Proof.
  intros He Hl. split; simpl.
  - unfold queue_ids, fate_ids. simpl. by rewrite He, Hl, List.map_app, List.map_map.
  - intros [Hm Hp Hb]. rewrite He in Hp, Hb. split; simpl; rewrite ?Hl.
    + left. simpl. by rewrite Hl.
    + by apply Forall_app in Hp as [_ Hp].
    + rewrite length_app in Hb. lia.
Qed.

Lemma skip_unsendable_spec now senders l :
  l = List.map fate_entry (skip_unsendable now senders l).2 ++ (skip_unsendable now senders l).1.
Proof.
  induction l as [|e l IH]; [reflexivity|]. simpl. destruct (skip_unsendable now senders l) as [l' fs].
  destruct (is_expired now e); [simpl; by f_equal|]. by destruct (wired senders e); [|simpl; f_equal].
Qed.

Lemma advance_drops now s : drops s (advance now s).
Proof.
  unfold advance. pose proof (skip_unsendable_spec now (ob_senders s) (ob_entries s)) as H.
  destruct (skip_unsendable _ _ _) as [l fs]. simpl in H. destruct fs as [|f fs].
  - apply drops_refl; simpl; [symmetry; exact H|reflexivity].
  - eapply drops_prefix; [exact H|reflexivity].
Qed.

Lemma flush_drops now s : drops s (flush now s).
Proof.
  unfold flush. destruct (ob_flushing s); [by apply drops_refl|].
  destruct (ob_entries s) eqn:E; [by apply drops_refl|]. apply advance_drops.
Qed.

Lemma finish_drops now s : drops s (finish now s).
Proof.
  unfold finish. destruct (ob_flushAgain _); [|by apply drops_refl].
  eapply drops_ext; [| |apply flush_drops]; reflexivity.
Qed.

Lemma bump_in_ids e l : List.map oe_id (bump_in e l) = List.map oe_id l.
Proof. unfold bump_in. rewrite List.map_map. apply List.map_ext. intros x. by destruct (String.eqb _ _). Qed.

Lemma bump_in_proper e l : Forall proper_entry l → Forall proper_entry (bump_in e l).
Proof. unfold bump_in. intros H. apply Forall_map. eapply Forall_impl; [exact H|]. intros x Hx. simpl. by destruct (String.eqb _ _). Qed.

Lemma retry_drops e s : drops s (persist (s<|ob_entries ::= bump_in e|>), []).
Proof.
  split; simpl.
  - unfold queue_ids. simpl. by rewrite bump_in_ids.
  - intros [Hm Hp Hb]. split; simpl; [by left|by apply bump_in_proper|]. unfold bump_in. by rewrite List.length_map.
Qed.

Lemma shift_drops outcome e s :
  drops s (persist (s<|ob_entries ::= tail|>), shifted outcome e (ob_entries s)).
Proof.
  apply drops_prefix with (l := tail (ob_entries s)); [|reflexivity].
  destruct (ob_entries s) as [|x l]; [reflexivity|]. simpl. destruct (String.eqb _ _); [by destruct outcome|reflexivity].
Qed.

Lemma resume_drops now outcome s : drops s (resume now outcome s).
Proof.
  unfold resume. destruct (ob_sending s) as [e|]; [|by apply drops_refl].
  assert (Hsent : drops s (let fs := shifted outcome e (ob_entries s) in
                           let s' := persist (s<|ob_entries ::= tail|>) in
                           let '(s2, fs2) := advance now s' in
                           match ob_sending s2 with
                           | Some _ => (s2, fs ++ fs2)
                           | None => let '(s3, fs3) := finish now s2 in (s3, fs ++ fs2 ++ fs3)
                           end)).
  { cbn zeta. pose proof (drops_trans _ _ _ _ (shift_drops outcome e s) (advance_drops now _)) as H.
    destruct (advance _ _) as [s2 fs2]. cbn [fst snd] in H. destruct (ob_sending s2); [exact H|].
    pose proof (drops_trans _ _ _ _ H (finish_drops now s2)) as H'. destruct (finish now s2) as [s3 fs3].
    cbn [fst snd] in H'. by rewrite <- app_assoc in H'. }
  destruct outcome; [exact Hsent| |exact Hsent].
  pose proof (drops_trans _ _ _ _ (retry_drops e s) (finish_drops now _)) as H. by destruct (finish _ _).
Qed.

(** ** Histories *)

Lemma enqueue_kept now uuid kind payload s s' fs :
  kept s → now ≠ 0 → truthy uuid = true → enqueue now uuid kind payload s = (s', fs) →
  kept s' ∧ queue_ids s ++ [uuid] = fate_ids fs ++ queue_ids s'.
Proof.
  intros [Hm Hp Hb] Hn Hu. unfold enqueue, overflow, overflowed.
  set (e := {| oe_id := uuid; oe_kind := kind; oe_enqueued_at_ms := now; oe_attempts := 0; oe_payload := payload |}).
  set (n := (length (ob_entries s ++ [e]) - OUTBOX_MAX_ENTRIES)%nat). intros [= <- <-]. split.
  - split; simpl; [by left| |rewrite length_drop; lia].
    apply Forall_drop, Forall_app. split; [exact Hp|]. by repeat constructor.
  - unfold queue_ids, fate_ids. simpl. rewrite List.map_map, <- List.map_app, take_drop, List.map_app. reflexivity.
Qed.

Lemma restart_kept f now uuid senders s :
  kept s → kept (restart f now uuid senders s) ∧ ob_entries (restart f now uuid senders s) = List.map stored (ob_entries s).
Proof.
  intros [Hm Hp Hb].
  assert (Hl : ob_entries (restart f now uuid senders s) = List.map stored (ob_entries s)).
  { simpl. destruct Hm as [->|[-> ->]]; [|reflexivity]. by apply load_entries_stored. }
  split; [|exact Hl]. split; unfold mirrored; rewrite Hl.
  - rewrite outbox_json_stored. cbn [restart ob_file]. destruct Hm as [->|[-> ->]]; [by left|by right].
  - by apply Forall_map.
  - by rewrite List.length_map.
Qed.

Lemma step_kept f c s s' fs :
  kept s → proper c → step_outbox f c s = (s', fs) →
  kept s' ∧ queue_ids s ++ enqueued [c] = fate_ids fs ++ queue_ids s'.
Proof.
  intros Hk Hc Hs.
  assert (Hdrop : ∀ r, drops s r → r = (s', fs) → kept s' ∧ queue_ids s ++ [] = fate_ids fs ++ queue_ids s').
  { intros r [Hi Hk'] ->. rewrite app_nil_r. auto. }
  destruct c as [now uuid kind payload|now|now outcome|l|now uuid senders]; simpl in Hs; simpl.
  - destruct Hc. by eapply enqueue_kept.
  - eapply Hdrop, Hs. apply flush_drops.
  - eapply Hdrop, Hs. apply resume_drops.
  - eapply Hdrop, Hs. by apply drops_refl.
  - injection Hs as <- <-. destruct (restart_kept f now uuid senders s Hk) as [Hk' Hl]. split; [exact Hk'|].
    unfold queue_ids. by rewrite app_nil_r, Hl, List.map_map.
Qed.

Lemma run_kept f cs : ∀ s s' fs,
  kept s → Forall proper cs → run_outbox f cs s = (s', fs) →
  kept s' ∧ queue_ids s ++ enqueued cs = fate_ids fs ++ queue_ids s'.
Proof.
  induction cs as [|c cs IH]; intros s s' fs Hk Hcs Hr; simpl in Hr.
  - injection Hr as <- <-. split; [exact Hk|]. apply app_nil_r.
  - destruct (step_outbox f c s) as [s1 fs1] eqn:E1. destruct (run_outbox f cs s1) as [s2 fs2] eqn:E2.
    injection Hr as <- <-. apply Forall_cons in Hcs as [Hc Hcs].
    destruct (step_kept f c s s1 fs1 Hk Hc E1) as [Hk1 Ha1]. destruct (IH s1 s2 fs2 Hk1 Hcs E2) as [Hk2 Ha2].
    split; [exact Hk2|]. rewrite fate_ids_app, <- app_assoc, <- Ha2, app_assoc, <- Ha1, <- app_assoc.
    f_equal. change (c :: cs) with ([c] ++ cs). unfold enqueued. by rewrite omap_app.
Qed.

Lemma empty_kept : kept empty_outbox.
Proof. split; [by right|constructor|simpl; lia]. Qed.

(** ** Sends *)

(** The entry on its way is the head of the queue. *)
Definition in_step (s : Outbox) : Prop :=
  match ob_sending s with
  | Some e => ∃ x l, ob_entries s = x :: l ∧ oe_id x = oe_id e
  | None => True
  end.

(** What a fate says a sender answered; a shifted entry has no answer. *)
Definition answered (f : Fate) : list (string * option OutboxSendOutcome) :=
  match f with
  | fate_sent e => [(oe_id e, Some send_ok)]
  | fate_refused e => [(oe_id e, Some send_permanent)]
  | fate_shifted e => [(oe_id e, None)]
  | _ => []
  end.

(** The final answers the senders give in a history, with the entry each is for. *)
Definition answer (c : command) (s : Outbox) : list (string * option OutboxSendOutcome) :=
  match c, ob_sending s with
  | k_resume _ send_retryable, _ => []
  | k_resume _ outcome, Some e => [(oe_id e, Some outcome)]
  | _, _ => []
  end.

Fixpoint answers (f : jsval → Z) (cs : list command) (s : Outbox) : list (string * option OutboxSendOutcome) :=
  match cs with
  | [] => []
  | c :: cs => answer c s ++ answers f cs (fst (step_outbox f c s))
  end.

(** A result that answers nothing and leaves the queue in step. *)
Definition quiet_step (r : Outbox * list Fate) : Prop := in_step (r.1) ∧ flat_map answered (r.2) = [].

Lemma skip_unanswered now senders l : flat_map answered (skip_unsendable now senders l).2 = [].
Proof.
  induction l as [|e l IH]; [reflexivity|]. simpl. destruct (skip_unsendable now senders l) as [l' fs].
  by destruct (is_expired now e), (wired senders e).
Qed.

Lemma advance_quiet now s : quiet_step (advance now s).
Proof.
  unfold advance. pose proof (skip_unanswered now (ob_senders s) (ob_entries s)) as H.
  destruct (skip_unsendable _ _ _) as [l fs]. split; [|exact H].
  destruct fs as [|f fs], l as [|e l]; unfold in_step; simpl; eauto.
Qed.

Lemma flush_quiet now s : in_step s → quiet_step (flush now s).
Proof.
  intros Hs. unfold flush. destruct (ob_flushing s); [by split|].
  destruct (ob_entries s); [by split|]. apply advance_quiet.
Qed.

Lemma finish_quiet now s : quiet_step (finish now s).
Proof. unfold finish. destruct (ob_flushAgain _); [by apply flush_quiet|by split]. Qed.

Lemma retry_in_step e s : in_step s → in_step (persist (s<|ob_entries ::= bump_in e|>)).
Proof.
  unfold in_step. simpl. destruct (ob_sending s) as [x|]; [|done]. intros (y & l & -> & Hy).
  eexists _, _. split; [reflexivity|]. by destruct (String.eqb _ _).
Qed.

Lemma resume_answers now outcome s :
  in_step s →
  in_step (resume now outcome s).1 ∧ flat_map answered (resume now outcome s).2 = answer (k_resume now outcome) s.
Proof.
  intros Hs. unfold resume, answer, in_step in Hs |- *. destruct (ob_sending s) as [e|] eqn:E; [|by cbn [fst snd]; rewrite E; destruct outcome].
  destruct Hs as (x & l & Hl & Hx). cbn zeta. rewrite Hl. cbn [shifted]. rewrite Hx, String.eqb_refl.
  pose proof (advance_quiet now (persist (s<|ob_entries ::= tail|>))) as [Ha Hf].
  destruct (advance now (persist (s<|ob_entries ::= tail|>))) as [s2 fs2]. cbn [fst snd] in Ha, Hf.
  pose proof (finish_quiet now s2) as [Hb Hg]. destruct (finish now s2) as [s3 fs3]. cbn [fst snd] in Hb, Hg.
  destruct outcome; [|exact (finish_quiet now _)|].
  all: destruct (ob_sending s2) eqn:E2; cbn [fst snd]; rewrite ?flat_map_app, ?Hf, ?Hg; simpl; rewrite ?Hf, ?Hx.
  all: split; try reflexivity; unfold in_step in *; by rewrite ?E2 in Ha |- *.
Qed.

Lemma enqueue_in_step now uuid kind payload s :
  in_step s → ob_sending s = None ∨ (length (ob_entries s) < OUTBOX_MAX_ENTRIES)%nat →
  quiet_step (enqueue now uuid kind payload s).
Proof.
  intros Hs Hroom. unfold enqueue, quiet_step. split; simpl.
  - unfold in_step in *. simpl. destruct (ob_sending s) as [e|]; [|done].
    destruct Hroom as [Hn|Hroom]; [discriminate Hn|]. destruct Hs as (x & l & Hl & Hx).
    exists x, (l ++ [{| oe_id := uuid; oe_kind := kind; oe_enqueued_at_ms := now; oe_attempts := 0; oe_payload := payload |}]).
    split; [|exact Hx]. unfold overflow. rewrite (proj2 (Nat.sub_0_le _ _)), Hl; [reflexivity|].
    rewrite length_app. cbn [length]. lia.
  - induction (overflowed _) as [|y l IH]; [reflexivity|exact IH].
Qed.

Lemma step_answers f c s :
  in_step s → calm f [c] s →
  in_step (step_outbox f c s).1 ∧ flat_map answered (step_outbox f c s).2 = answer c s.
Proof.
  intros Hs [Hc _]. destruct c as [now uuid kind payload|now|now outcome|l|now uuid senders].
  - by apply enqueue_in_step.
  - by apply flush_quiet.
  - by apply resume_answers.
  - by split.
  - by split.
Qed.

Lemma run_answers f cs : ∀ s s' fs,
  in_step s → calm f cs s → run_outbox f cs s = (s', fs) →
  in_step s' ∧ flat_map answered fs = answers f cs s.
Proof.
  induction cs as [|c cs IH]; intros s s' fs Hs Hc Hr; simpl in Hr.
  - by injection Hr as <- <-.
  - destruct Hc as [Hc Hcs]. pose proof (step_answers f c s Hs (conj Hc I)) as [Hs1 Hf1].
    destruct (step_outbox f c s) as [s1 fs1] eqn:E1. destruct (run_outbox f cs s1) as [s2 fs2] eqn:E2.
    injection Hr as <- <-. simpl in Hcs, Hs1, Hf1. destruct (IH s1 s2 fs2 Hs1 Hcs E2) as [Hs2 Hf2].
    split; [exact Hs2|]. rewrite flat_map_app, Hf1, Hf2. simpl. by rewrite E1.
Qed.

Lemma answers_are_answers f cs s i : (i, None) ∉ answers f cs s.
Proof.
  revert s. induction cs as [|c cs IH]; intros s; simpl; [by intros ?%elem_of_nil|].
  rewrite elem_of_app. intros [Hin|Hin]; [|by eapply IH]. unfold answer in Hin.
  destruct c as [? ? ? ?|?|now outcome|?|? ? ?]; try (by apply elem_of_nil in Hin).
  destruct outcome, (ob_sending s); try (by apply elem_of_nil in Hin).
  all: apply list_elem_of_singleton in Hin; discriminate Hin.
Qed.

(** ** The queue drains *)

(** Sends left to an entry before it is given up, and one for leaving. *)
Definition entry_work (e : OutboxEntry) : nat := S (Z.to_nat (OUTBOX_MAX_ATTEMPTS - oe_attempts e)).
Definition work (l : list OutboxEntry) : nat := list_sum (List.map entry_work l).

(** What happens next to an outbox that is given no message: a flush is asked
    for, or the awaited sender answers. *)
Definition round (now : Z) (outcome : OutboxSendOutcome) (s : Outbox) : Outbox :=
  fst (if ob_flushing s then resume now outcome s else flush now s).

Fixpoint drive (rounds : list (Z * OutboxSendOutcome)) (s : Outbox) : Outbox :=
  match rounds with
  | [] => s
  | (now, outcome) :: rounds => drive rounds (round now outcome s)
  end.

(** The entry on its way is the head of the queue and has an attempt left. *)
Definition sending_head (s : Outbox) : Prop :=
  match ob_sending s with
  | Some e => ∃ x l, ob_entries s = x :: l ∧ oe_id x = oe_id e ∧ oe_attempts x < OUTBOX_MAX_ATTEMPTS
  | None => True
  end.

Definition rounds_left (s : Outbox) : nat :=
  match ob_entries s with
  | [] => 0
  | _ => 2 * work (ob_entries s) + (if ob_flushing s then 0 else 1)
  end%nat.

(** A result that has at most [n] rounds left. *)
Definition within (n : nat) (s : Outbox) : Prop := sending_head s ∧ (rounds_left s ≤ n)%nat.

Lemma skip_unsendable_work now senders l :
  (work (skip_unsendable now senders l).1 ≤ work l)%nat ∧
  match (skip_unsendable now senders l).1 with
  | [] => True
  | x :: _ => oe_attempts x < OUTBOX_MAX_ATTEMPTS
  end.
Proof.
  induction l as [|e l [IH Hh]]; [done|]. simpl. destruct (skip_unsendable now senders l) as [l' fs].
  assert (work (e :: l) = entry_work e + work l)%nat as He by reflexivity. unfold entry_work in He.
  cbn [fst] in IH, Hh. destruct (is_expired now e) eqn:Ex; [cbn [fst]; split; [lia|exact Hh]|].
  destruct (wired senders e); cbn [negb fst]; [|split; [lia|exact Hh]].
  apply orb_false_iff in Ex as [_ Ex]. split; [done|lia].
Qed.

Lemma within_mono n m s : (n ≤ m)%nat → within n s → within m s.
Proof. intros Hnm [Hs Hn]. split; [done|lia]. Qed.

Lemma advance_shape now s :
  let l := (skip_unsendable now (ob_senders s) (ob_entries s)).1 in
  ob_entries (advance now s).1 = l ∧ ob_sending (advance now s).1 = head l.
Proof. cbn zeta. unfold advance. destruct (skip_unsendable _ _ _) as [l fs]. by destruct fs. Qed.

Lemma advance_within now s : within (2 * work (ob_entries s)) (advance now s).1.
Proof.
  pose proof (skip_unsendable_work now (ob_senders s) (ob_entries s)) as [Hw Hh].
  pose proof (advance_shape now s) as [He Hs]. unfold within, sending_head, rounds_left, ob_flushing.
  rewrite He, Hs. destruct (skip_unsendable _ _ _).1 as [|x l]; cbn [head]; [split; [done|lia]|].
  split; [by eauto|lia].
Qed.

Lemma flush_within now s :
  ob_sending s = None → within (2 * work (ob_entries s)) (flush now s).1.
Proof.
  intros Hn. unfold flush, ob_flushing. rewrite Hn. destruct (ob_entries s) eqn:E.
  - split; unfold sending_head, rounds_left; cbn [fst]; by rewrite ?Hn, ?E.
  - rewrite <- E. apply advance_within.
Qed.

Lemma finish_within now s : within (S (2 * work (ob_entries s))) (finish now s).1.
Proof.
  unfold finish. destruct (ob_flushAgain _).
  - eapply within_mono; [|by apply flush_within]. simpl. lia.
  - split; [exact I|]. unfold rounds_left, ob_flushing. cbn -[work Nat.mul]. destruct (ob_entries s); lia.
Qed.

Lemma work_cons x l : work (x :: l) = (entry_work x + work l)%nat.
Proof. reflexivity. Qed.

Lemma bump_work x : (entry_work (bump x) ≤ entry_work x)%nat.
Proof. unfold entry_work. change (oe_attempts (bump x)) with (Z.succ (oe_attempts x)). lia. Qed.

Lemma bump_in_work e l : (work (bump_in e l) ≤ work l)%nat.
Proof.
  induction l as [|x l IH]; [reflexivity|]. change (bump_in e (x :: l)) with ((if String.eqb (oe_id x) (oe_id e) then bump x else x) :: bump_in e l).
  rewrite !work_cons. pose proof (bump_work x). destruct (String.eqb _ _); lia.
Qed.

(** A retry spends an attempt of the head. *)
Lemma retry_work e x l :
  oe_id x = oe_id e → oe_attempts x < OUTBOX_MAX_ATTEMPTS → (work (bump_in e (x :: l)) < work (x :: l))%nat.
Proof.
  intros Hx Ha. change (bump_in e (x :: l)) with ((if String.eqb (oe_id x) (oe_id e) then bump x else x) :: bump_in e l).
  rewrite Hx, String.eqb_refl, !work_cons. pose proof (bump_in_work e l) as Hb. unfold entry_work.
  change (oe_attempts (bump x)) with (Z.succ (oe_attempts x)). lia.
Qed.

(** After an entry left, the pass goes on and ends with what is left. *)
Lemma pass_within now fs s' :
  within (2 * work (ob_entries s'))
    (let '(s2, fs2) := advance now s' in
     match ob_sending s2 with
     | Some _ => (s2, fs ++ fs2)
     | None => let '(s3, fs3) := finish now s2 in (s3, fs ++ fs2 ++ fs3)
     end).1.
Proof.
  pose proof (advance_within now s') as [Hd Hw]. pose proof (advance_shape now s') as [He Hh].
  destruct (advance now s') as [s2 fs2]. cbn [fst] in *. rewrite Hh. destruct (skip_unsendable _ _ _).1 as [|x l]; cbn [head].
  - destruct s2 as [entries sending again senders file]. simpl in He, Hh. subst. destruct again.
    all: split; [exact I|]; unfold rounds_left; simpl; lia.
  - by split.
Qed.

Lemma round_within now outcome s :
  sending_head s → within (rounds_left s - 1) (round now outcome s).
Proof.
  intros Hs. unfold round. destruct (ob_sending s) as [e|] eqn:E.
  - unfold sending_head in Hs. rewrite E in Hs. destruct Hs as (x & l & Hl & Hx & Ha).
    assert (Hr : rounds_left s = (2 * work (x :: l))%nat).
    { unfold rounds_left, ob_flushing. rewrite Hl, E. lia. }
    assert (Hpos : (0 < entry_work x)%nat) by (unfold entry_work; lia).
    unfold resume, ob_flushing. rewrite Hr, E. destruct outcome; cbn zeta.
    2: { eapply within_mono; [|apply finish_within]. pose proof (retry_work e x l Hx Ha).
         change (ob_entries (persist (s<|ob_entries ::= bump_in e|>))) with (bump_in e (ob_entries s)). rewrite Hl. lia. }
    all: eapply within_mono; [|apply pass_within].
    all: change (ob_entries (persist (s<|ob_entries ::= tail|>))) with (tail (ob_entries s)).
    all: rewrite Hl, work_cons; cbn [tail]; lia.
  - unfold ob_flushing. rewrite E. destruct (ob_entries s) as [|x l] eqn:El.
    + unfold flush, ob_flushing. rewrite E, El. split; [exact Hs|]. unfold rounds_left. cbn [fst]. rewrite El. lia.
    + eapply within_mono; [|by apply flush_within]. unfold rounds_left, ob_flushing. rewrite E, El. lia.
Qed.

Lemma drive_drains rounds : ∀ s,
  sending_head s → (rounds_left s ≤ length rounds)%nat → ob_entries (drive rounds s) = [].
Proof.
  induction rounds as [|[now outcome] rounds IH]; intros s Hs Hr; simpl in *.
  - unfold rounds_left in Hr. destruct (ob_entries s) as [|x l]; [done|]. unfold work, entry_work in Hr. simpl in Hr. lia.
  - destruct (round_within now outcome s Hs) as [Hs' Hr']. apply IH; [exact Hs'|lia].
Qed.

(** ** The promises *)

(** A crash loses no message.  Whatever history the outbox has been through, restarts included, the process that starts next reads from the file exactly the messages that were queued, in order, with their ids, kinds, times and attempt counts, their payloads as JSON keeps them; and a second crash at once changes nothing more. *)
Theorem restart_reads_the_queue (f : jsval → Z) (cs : list command) (s : Outbox) (fs : list Fate) (now now' : Z)
    (uuid uuid' : nat → string) (senders senders' : list OutboxKind) :
  Forall proper cs → run_outbox f cs empty_outbox = (s, fs) →
  let s' := restart f now uuid senders s in
  ob_entries s' = List.map stored (ob_entries s) ∧ ob_entries (restart f now' uuid' senders' s') = ob_entries s'.
Proof.
  intros Hcs Hr s'. destruct (run_kept f cs _ _ _ empty_kept Hcs Hr) as [Hk _].
  destruct (restart_kept f now uuid senders s Hk) as [Hk' Hl]. split; [exact Hl|].
  destruct (restart_kept f now' uuid' senders' s' Hk') as [_ Hl']. rewrite Hl'. unfold s'. rewrite Hl, List.map_map.
  apply List.map_ext. exact stored_idem.
Qed.

(** Every message is accounted for, in order.  After any history the messages handed over are, in the order they came, those that left the queue (each with one outcome) followed by those still queued, and the queue holds at most 500. *)
Theorem messages_leave_once_in_order (f : jsval → Z) (cs : list command) (s : Outbox) (fs : list Fate) :
  Forall proper cs → run_outbox f cs empty_outbox = (s, fs) →
  enqueued cs = fate_ids fs ++ queue_ids s ∧ (length (ob_entries s) ≤ OUTBOX_MAX_ENTRIES)%nat.
Proof.
  intros Hcs Hr. destruct (run_kept f cs _ _ _ empty_kept Hcs Hr) as [[_ _ Hb] Ha]. split; [exact Ha|exact Hb].
Qed.

(** A message leaves as sent when its sender accepted it.  As long as no message is handed to a full queue in the middle of a send, the messages that leave the queue as sent or as refused are exactly those the senders accepted or refused for good, in order, and no unsent message is dropped in place of a sent one. *)
Theorem sent_is_accepted (f : jsval → Z) (cs : list command) (s : Outbox) (fs : list Fate) :
  calm f cs empty_outbox → run_outbox f cs empty_outbox = (s, fs) →
  flat_map answered fs = answers f cs empty_outbox ∧ ∀ e, fate_shifted e ∉ fs.
Proof.
  intros Hc Hr. destruct (run_answers f cs empty_outbox s fs I Hc Hr) as [_ Hf]. split; [exact Hf|].
  intros e He. apply (answers_are_answers f cs empty_outbox (oe_id e)).
  rewrite <- Hf, list_elem_of_In, in_flat_map. exists (fate_shifted e). split; [by apply list_elem_of_In|by left].
Qed.

(** The outbox never wedges.  An idle outbox that is handed nothing new empties within two rounds for every attempt its entries have left and two for each of them, whatever the senders answer and whenever: each entry is accepted, refused, expired, dropped for want of a sender, or given up after fifty attempts. *)
Theorem outbox_drains (rounds : list (Z * OutboxSendOutcome)) (s : Outbox) :
  ob_sending s = None → (S (2 * work (ob_entries s)) ≤ length rounds)%nat → ob_entries (drive rounds s) = [].
Proof.
  intros Hn Hr. apply drive_drains; [unfold sending_head; by rewrite Hn|].
  unfold rounds_left, ob_flushing. rewrite Hn. destruct (ob_entries s); lia.
Qed.

(** ** A history *)

Definition payload_ex (text : string) : jsval := JObj [("content", JStr text); ("trace", JUndef); ("n", JNum (JNonInt "NaN"))].
Definition zero_number (_ : jsval) : Z := 0.
Definition uuid_ex (n : nat) : string := "fresh".

(** Two replies fail, the process restarts, the first is accepted, the second
    is retried while a third message arrives. *)
Definition history_ex : list command :=
  [k_enqueue 1000 "a" chat_message (payload_ex "one"); k_enqueue 1001 "b" dispatch_ack (payload_ex "two");
   k_restart 2000 uuid_ex all_kinds; k_flush 2001; k_resume 2002 send_ok;
   k_enqueue 2003 "c" chat_message JUndef; k_flush 2004; k_resume 2005 send_retryable].
Definition state_ex : Outbox := fst (run_outbox zero_number history_ex empty_outbox).

Lemma history_ex_proper : Forall proper history_ex.
Proof. repeat constructor; (discriminate || exact I). Qed.

Lemma restart_reads_the_queue_witness :
  let s' := restart zero_number 3000 uuid_ex all_kinds state_ex in
  queue_ids s' = ["b"; "c"] ∧ ob_entries s' = List.map stored (ob_entries state_ex) ∧
  ob_entries (restart zero_number 3001 uuid_ex [] s') = ob_entries s'.
Proof.
  split; [vm_compute; reflexivity|].
  apply (restart_reads_the_queue zero_number history_ex state_ex (snd (run_outbox zero_number history_ex empty_outbox))).
  - exact history_ex_proper.
  - vm_compute; reflexivity.
Defined.

Lemma messages_leave_once_in_order_witness :
  enqueued history_ex = fate_ids (snd (run_outbox zero_number history_ex empty_outbox)) ++ queue_ids state_ex ∧
  (length (ob_entries state_ex) ≤ OUTBOX_MAX_ENTRIES)%nat.
Proof. apply (messages_leave_once_in_order zero_number); [exact history_ex_proper|vm_compute; reflexivity]. Defined.

Lemma sent_is_accepted_witness :
  flat_map answered (snd (run_outbox zero_number history_ex empty_outbox)) = [("a", Some send_ok)] ∧
  flat_map answered (snd (run_outbox zero_number history_ex empty_outbox)) = answers zero_number history_ex empty_outbox.
Proof.
  split; [vm_compute; reflexivity|].
  refine (proj1 (sent_is_accepted zero_number history_ex state_ex _ _ _)).
  - repeat split; (by left) || (right; apply (bool_decide_unpack _); vm_compute; exact I).
  - vm_compute; reflexivity.
Defined.

Definition idle_ex : Outbox := restart zero_number 3000 uuid_ex all_kinds state_ex.

Lemma outbox_drains_witness :
  work (ob_entries idle_ex) = 101%nat ∧ ob_entries (drive (replicate 203 (4000, send_retryable)) idle_ex) = [].
Proof.
  split; [vm_compute; reflexivity|]. apply outbox_drains; [reflexivity|].
  apply (bool_decide_unpack _); vm_compute; exact I.
Defined.
