(* ===== verification/CircuitBreaker.v ===== *)
(** * The manager's circuit breaker

    [circuit-breaker.ts] of the agent manager: consecutive failures of an agent
    on a ticket and role open a breaker, which then lets one probe through per
    cooldown until an operator resets the agent.  The state is a [Map] that is
    kept from growing by dropping what looks abandoned. *)

From S2P Require Import Prelude.
From S2P Require Import JsStd.
#[local] Open Scope Z_scope.

Definition TRANSIENT_EXIT_CODES : list Z := [143; 137; 130].
Definition DEFAULT_THRESHOLD : Z := 5.
Definition BREAKER_COOLDOWN_MS : Z := 60 * 60000.
Definition DEFAULT_MAX_KEYS : Z := 2000.

Record CircuitBreakerEntry := {
  cb_consecutiveFailures : Z;
  cb_lastFailureAt : Z;
  cb_lastExitCode : option Z;
  cb_lastExitTail : string;
  cb_open : bool;
  cb_openedAt : Z;
  cb_lastProbeAt : Z
}.

Definition Breaker : Type := list (string * CircuitBreakerEntry).

Record BreakerOptions := {
  bo_threshold : Z;
  bo_cooldownMs : Z;
  bo_maxKeys : Z;
  bo_staleMs : Z
}.

(** The constructor, with each option or its default. *)
Definition breaker_options (threshold cooldownMs maxKeys staleMs : option Z) : BreakerOptions :=
  let cooldown := default BREAKER_COOLDOWN_MS cooldownMs in
  {| bo_threshold := default DEFAULT_THRESHOLD threshold; bo_cooldownMs := cooldown;
     bo_maxKeys := default DEFAULT_MAX_KEYS maxKeys; bo_staleMs := default cooldown staleMs |}.

Definition key (agentId ticketId role : string) : string :=
  agentId +:+ ":" +:+ ticketId +:+ ":" +:+ (if truthy role then role else "_").

Definition isTransientExit (code : option Z) : bool :=
  match code with
  | None => true
  | Some c => if c =? 0 then false else bool_decide (c ∈ TRANSIENT_EXIT_CODES)
  end.

Section breaker.
Context (o : BreakerOptions).

(** ** Keeping the map small *)

Definition is_stale (now : Z) (e : CircuitBreakerEntry) : bool := bo_staleMs o <? now - cb_lastFailureAt e.

Definition sweepStale (now : Z) (s : Breaker) : Breaker := lfilter (λ x, negb (is_stale now x.2)) s.

(** [sweep(now)], with the number of entries it removed. *)
Definition sweep (now : Z) (s : Breaker) : Breaker * Z :=
  (sweepStale now s, Z.of_nat (length s) - Z.of_nat (length (sweepStale now s))).

(** The entry with the least [lastFailureAt] among those [p] admits; the first
    of several. *)
Definition older (p : CircuitBreakerEntry → bool) (best : option (string * Z)) (x : string * CircuitBreakerEntry)
    : option (string * Z) :=
  if p x.2 && match best with Some b => cb_lastFailureAt x.2 <? b.2 | None => true end
  then Some (x.1, cb_lastFailureAt x.2) else best.
Definition oldest_key (p : CircuitBreakerEntry → bool) (s : Breaker) : option string := fst <$> foldl (older p) None s.

Definition delete (k : string) (s : Breaker) : Breaker := lfilter (λ x, negb (String.eqb x.1 k)) s.

Definition victim (s : Breaker) : option string :=
  match oldest_key (λ e, negb (cb_open e)) s with
  | Some k => Some k
  | None => oldest_key (λ _, true) s
  end.

Definition enforceCap (s : Breaker) : Breaker :=
  if Z.of_nat (length s) <? bo_maxKeys o then s
  else match victim s with Some k => delete k s | None => s end.

(** ** Failures, checks and successes *)

Definition fresh_entry : CircuitBreakerEntry :=
  {| cb_consecutiveFailures := 0; cb_lastFailureAt := 0; cb_lastExitCode := None; cb_lastExitTail := "";
     cb_open := false; cb_openedAt := 0; cb_lastProbeAt := 0 |}.

Definition failed (now : Z) (exitCode : option Z) (tail : string) (e : CircuitBreakerEntry) : CircuitBreakerEntry :=
  e<|cb_consecutiveFailures ::= Z.succ|><|cb_lastFailureAt := now|><|cb_lastExitCode := exitCode|>
   <|cb_lastExitTail := slice 200 tail|>.

Definition trips (force : bool) (e : CircuitBreakerEntry) : bool :=
  (bo_threshold o <=? cb_consecutiveFailures e) || force.

(** [record], with whether the breaker just opened. *)
Definition record (now : Z) (k : string) (exitCode : option Z) (tail : string) (force : bool) (s : Breaker)
    : Breaker * bool :=
  let '(entry, s1) :=
    match JMap.get s k with
    | Some e => (e, s)
    | None => (fresh_entry, enforceCap (sweepStale now s))
    end in
  let e := failed now exitCode tail entry in
  if trips force e
  then (JMap.set s1 k (e<|cb_open := true|><|cb_openedAt := now|>), negb (cb_open e))
  else (JMap.set s1 k e, false).

(** [shouldBlock], with whether dispatch is blocked. *)
Definition shouldBlock (now : Z) (k : string) (s : Breaker) : Breaker * bool :=
  match JMap.get s k with
  | None => (s, false)
  | Some e =>
      if negb (cb_open e) then (s, false)
      else
        let anchor := Z.max (cb_openedAt e) (cb_lastProbeAt e) in
        if bo_cooldownMs o <=? now - anchor
        then (JMap.set s k (e<|cb_lastProbeAt := now|>), false)
        else (s, true)
  end.

Definition reset (k : string) (s : Breaker) : Breaker := delete k s.

Definition recordSuccess (k : string) (s : Breaker) : Breaker :=
  match JMap.get s k with
  | Some e => if cb_open e then s else reset k s
  | None => reset k s
  end.

Definition of_agent (agentId k : string) : bool := startsWith (agentId +:+ ":") k.

Definition resetAgent (agentId : string) (s : Breaker) : Breaker := lfilter (λ x, negb (of_agent agentId x.1)) s.

Definition getOpenBreakers (s : Breaker) : Breaker := lfilter (λ x, cb_open x.2) s.

(** ** Histories *)

Inductive operation : Type :=
  | op_record (now : Z) (k : string) (exitCode : option Z) (tail : string) (force : bool)
  | op_check (now : Z) (k : string)
  | op_success (k : string)
  | op_reset (k : string)
  | op_reset_agent (agentId : string)
  | op_sweep (now : Z).

Definition operate (op : operation) (s : Breaker) : Breaker :=
  match op with
  | op_record now k code tail force => fst (record now k code tail force s)
  | op_check now k => fst (shouldBlock now k s)
  | op_success k => recordSuccess k s
  | op_reset k => reset k s
  | op_reset_agent a => resetAgent a s
  | op_sweep now => fst (sweep now s)
  end.

Definition operate_all (ops : list operation) (s : Breaker) : Breaker := foldl (λ s op, operate op s) s ops.

Definition is_open (k : string) (s : Breaker) : bool :=
  match JMap.get s k with Some e => cb_open e | None => false end.

(** The probes of [k] an operation lets through, by their times. *)
Definition probe (k : string) (op : operation) (s : Breaker) : list Z :=
  match op with
  | op_check now k' => if String.eqb k' k && is_open k s && negb (snd (shouldBlock now k s)) then [now] else []
  | _ => []
  end.

Fixpoint probes (k : string) (ops : list operation) (s : Breaker) : list Z :=
  match ops with
  | [] => []
  | op :: ops => probe k op s ++ probes k ops (operate op s)
  end.

(** [k] is never forgotten on the way. *)
Fixpoint remembered (k : string) (ops : list operation) (s : Breaker) : Prop :=
  match ops with
  | [] => True
  | op :: ops => k ∈ JMap.keys (operate op s) ∧ remembered k ops (operate op s)
  end.
End breaker.

(** * What the circuit breaker promises

    The map stays within its cap; a breaker opens when the failures reach the
    threshold; an open breaker lets one probe through per cooldown and is closed
    by the operator, or forgotten for one of two reasons. *)

Section facts.
Context (o : BreakerOptions).

(** ** Entries *)

Lemma breaker_get_delete s k k' :
  NoDup (JMap.keys s) → JMap.get (delete k' s) k = if String.eqb k k' then None else JMap.get s k.
Proof.
  intros Hn. unfold delete. rewrite JMap.get_lfilter by done. simpl. destruct (JMap.get s k); [by destruct (String.eqb k k')|by case_match].
Qed.

(** The oldest entry of a kind. *)
Lemma oldest_fold p s : ∀ best,
  match foldl (older p) best s with
  | Some b => (best = Some b ∨ ∃ e, (b.1, e) ∈ s ∧ p e = true ∧ cb_lastFailureAt e = b.2) ∧
              (∀ x, x ∈ s → p x.2 = true → b.2 <= cb_lastFailureAt x.2) ∧
              match best with Some b' => b.2 <= b'.2 | None => True end
  | None => best = None ∧ ∀ x, x ∈ s → p x.2 = false
  end.
Proof.
  induction s as [|x s IH]; intros best; simpl.
  - destruct best as [b|]; [|by split; [|intros x ?%elem_of_nil]].
    split_and!; [by left|by intros x ?%elem_of_nil|lia].
  - specialize (IH (older p best x)). destruct (foldl (older p) (older p best x) s) as [b|] eqn:E; unfold older in IH.
    + destruct IH as (H1 & H2 & H3). destruct (p x.2) eqn:Ep; simpl in H1, H3.
      * assert (Hx : b.2 <= cb_lastFailureAt x.2).
        { destruct best as [b'|]; simpl in H3; [destruct (cb_lastFailureAt x.2 <? b'.2) eqn:El; simpl in H3; lia|exact H3]. }
        split_and!.
        -- destruct H1 as [H1|(e & He & Hp & Hl)]; [|right; exists e; split_and!; [by apply list_elem_of_further|done..]].
           destruct best as [b'|]; [destruct (cb_lastFailureAt x.2 <? b'.2); [|by left]|];
             (right; injection H1 as <-; exists x.2; destruct x; split_and!; [apply list_elem_of_here|done..]).
        -- intros y [->|Hy]%elem_of_cons Hpy; [done|by apply H2].
        -- destruct best as [b'|]; [|done]. destruct (cb_lastFailureAt x.2 <? b'.2) eqn:El; simpl in H3; lia.
      * split_and!; [|intros y [->|Hy]%elem_of_cons Hpy; [congruence|by apply H2]|exact H3].
        destruct H1 as [H1|(e & He & Hp & Hl)]; [by left|right; exists e; split_and!; [by apply list_elem_of_further|done..]].
    + destruct IH as [H1 H2]. destruct (p x.2) eqn:Ep; simpl in H1.
      * destruct best as [b'|]; [destruct (_ <? _)|]; discriminate.
      * split; [done|]. intros y [->|Hy]%elem_of_cons; [done|by apply H2].
Qed.

Lemma oldest_key_Some p s k :
  oldest_key p s = Some k →
  ∃ e, (k, e) ∈ s ∧ p e = true ∧ ∀ x, x ∈ s → p x.2 = true → cb_lastFailureAt e <= cb_lastFailureAt x.2.
Proof.
  unfold oldest_key. pose proof (oldest_fold p s None) as H. destruct (foldl _ _ _) as [b|]; [|done].
  intros [= <-]. destruct H as ([H|(e & He & Hp & Hl)] & H2 & _); [done|]. exists e. split_and!; [done..|]. by rewrite Hl.
Qed.

Lemma oldest_key_None p s : oldest_key p s = None → ∀ x, x ∈ s → p x.2 = false.
Proof.
  unfold oldest_key. pose proof (oldest_fold p s None) as H. destruct (foldl _ _ _) as [b|]; [done|]. by destruct H.
Qed.

(** The entry that makes room: the oldest closed one, or the oldest if all are open. *)
Lemma victim_Some s k :
  victim s = Some k →
  ∃ e, (k, e) ∈ s ∧ (cb_open e = true → ∀ x, x ∈ s → cb_open x.2 = true ∧ cb_lastFailureAt e <= cb_lastFailureAt x.2).
Proof.
  unfold victim. destruct (oldest_key _ s) as [k'|] eqn:E.
  - intros [= <-]. apply oldest_key_Some in E as (e & He & Hp & _). exists e. split; [done|]. intros Ho. by rewrite Ho in Hp.
  - intros (e & He & _ & Hl)%oldest_key_Some. exists e. split; [done|]. intros _ x Hx.
    split; [|by apply Hl]. pose proof (oldest_key_None _ _ E x Hx) as H. by apply negb_false_iff in H.
Qed.

Lemma victim_None s : victim s = None → s = [].
Proof.
  unfold victim. destruct (oldest_key _ s); [done|]. intros H. destruct s as [|x s]; [done|].
  by specialize (oldest_key_None _ _ H x (list_elem_of_here _ _)).
Qed.

(** ** The map stays small *)

Definition within_cap (s : Breaker) : Prop :=
  NoDup (JMap.keys s) ∧ Z.of_nat (length s) <= Z.max 1 (bo_maxKeys o).

Lemma lfilter_cap p s : within_cap s → within_cap (lfilter p s).
Proof. intros [Hn Hl]. split; [by apply JMap.keys_lfilter|]. pose proof (lfilter_length_le p s). lia. Qed.

Lemma set_cap_present s k e : within_cap s → k ∈ JMap.keys s → within_cap (JMap.set s k e).
Proof.
  intros [Hn Hl] Hk. split; [by apply JMap.NoDup_keys_set|]. rewrite <- JMap.keys_length, JMap.keys_set.
  by rewrite (proj2 (JMap.has_keys s k) Hk), JMap.keys_length.
Qed.

Lemma delete_shorter s k : k ∈ JMap.keys s → (length (delete k s) < length s)%nat.
Proof.
  unfold delete, JMap.keys. induction s as [|[k' e] s IH]; [by intros ?%elem_of_nil|].
  rewrite lfilter_cons. cbn [List.map fst length]. rewrite elem_of_cons. pose proof (lfilter_length_le (λ x, negb (String.eqb x.1 k)) s).
  intros [->|Hk]; [rewrite String.eqb_refl; cbn [negb]; lia|]. specialize (IH Hk).
  destruct (String.eqb k' k); cbn [negb length]; lia.
Qed.

Lemma enforceCap_room s k e :
  within_cap s → k ∉ JMap.keys s → within_cap (JMap.set (enforceCap o s) k e).
Proof.
  intros Hs Hk. assert (Hsub : ∀ p, k ∉ JMap.keys (lfilter p s)).
  { intros p (x & -> & Hx)%elem_of_map. apply elem_of_lfilter in Hx as [Hx _]. by apply Hk, elem_of_map_2. }
  assert (Hset : ∀ s', within_cap s' → k ∉ JMap.keys s' → Z.of_nat (length s') < Z.max 1 (bo_maxKeys o) → within_cap (JMap.set s' k e)).
  { intros s' [Hn Hl] Hk' Hlt. split; [by apply JMap.NoDup_keys_set|].
    rewrite <- JMap.keys_length, JMap.keys_set, (proj2 (JMap.has_false s' k) Hk'), length_app, JMap.keys_length. simpl. lia. }
  unfold enforceCap. destruct (_ <? _) eqn:E; [apply Z.ltb_lt in E; apply Hset; [done|done|lia]|].
  destruct (victim s) as [v|] eqn:Ev.
  - apply victim_Some in Ev as (e' & He' & _). apply Hset; [by apply lfilter_cap|apply Hsub|].
    apply (elem_of_map_2 fst) in He'. apply (delete_shorter s v) in He'. destruct Hs as [_ Hl]. lia.
  - apply victim_None in Ev as ->. apply Hset; [done|done|simpl; lia].
Qed.

Lemma record_cap now k code tail force s : within_cap s → within_cap (record o now k code tail force s).1.
Proof.
  intros Hs. unfold record. destruct (JMap.get s k) as [e|] eqn:E.
  - assert (Hk : k ∈ JMap.keys s) by (apply JMap.get_is_Some_keys; eauto).
    destruct (trips _ _ _); by apply set_cap_present.
  - apply JMap.get_None_keys in E. assert (Hk : k ∉ JMap.keys (sweepStale o now s)).
    { intros (x & -> & Hx)%elem_of_map. apply elem_of_lfilter in Hx as [Hx _]. by apply E, elem_of_map_2. }
    destruct (trips _ _ _); (apply enforceCap_room; [by apply lfilter_cap|done]).
Qed.

Lemma operate_cap op s : within_cap s → within_cap (operate o op s).
Proof.
  intros Hs. destruct op as [now k code tail force|now k|k|k|a|now]; simpl.
  - by apply record_cap.
  - unfold shouldBlock. destruct (JMap.get s k) as [e|] eqn:E; [|done].
    destruct (negb _); [done|]. destruct (_ <=? _); [|done]. apply set_cap_present; [done|]. apply JMap.get_is_Some_keys; eauto.
  - unfold recordSuccess. destruct (JMap.get s k) as [e|]; [destruct (cb_open e); [done|]|]; by apply lfilter_cap.
  - by apply lfilter_cap.
  - by apply lfilter_cap.
  - by apply lfilter_cap.
Qed.

Lemma operate_all_cap ops s : within_cap s → within_cap (operate_all o ops s).
Proof. revert s. induction ops as [|op ops IH]; intros s Hs; [done|]. by apply IH, operate_cap. Qed.

(** ** One entry through an operation *)

Lemma get_forgets (p : string * CircuitBreakerEntry → bool) s k e : NoDup (JMap.keys s) → JMap.get s k = Some e →
  JMap.get (lfilter p s) k = if p (k, e) then Some e else None.
Proof. intros Hn He. by rewrite JMap.get_lfilter, He. Qed.

(** Making room for a new key keeps an entry unless it is stale, or the oldest of
    a full map of open ones. *)
Lemma get_room now (s : Breaker) k e :
  NoDup (JMap.keys s) → JMap.get s k = Some e →
  JMap.get (enforceCap o (sweepStale o now s)) k = Some e ∨
  (JMap.get (enforceCap o (sweepStale o now s)) k = None ∧
   (is_stale o now e = true ∨
    victim (sweepStale o now s) = Some k ∧ bo_maxKeys o <= Z.of_nat (length (sweepStale o now s)))).
Proof.
  intros Hn He. assert (Hn' : NoDup (JMap.keys (sweepStale o now s))) by by apply JMap.keys_lfilter.
  pose proof (get_forgets (λ x, negb (is_stale o now x.2)) s k e Hn He) as Hg. fold (sweepStale o now s) in Hg. simpl in Hg.
  unfold enforceCap. destruct (is_stale o now e) eqn:Es; simpl in Hg.
  - right. split; [|by left]. destruct (_ <? _); [done|]. destruct (victim _) as [v|]; [|done]. rewrite breaker_get_delete, Hg by done. by case_match.
  - destruct (_ <? _) eqn:El; [by left|]. destruct (victim _) as [v|] eqn:Ev; [|by left].
    rewrite breaker_get_delete, Hg by done. destruct (String.eqb k v) eqn:Ek; [|by left]. apply String.eqb_eq in Ek as ->.
    right. split; [done|]. right. split; [done|]. by apply Z.ltb_ge.
Qed.

(** The entry after a failure of its key. *)
Definition recorded_entry (now : Z) (code : option Z) (tail : string) (force : bool) (e : CircuitBreakerEntry) : CircuitBreakerEntry :=
  let e' := failed now code tail e in
  if trips o force e' then e'<|cb_open := true|><|cb_openedAt := now|> else e'.

Lemma get_record now k code tail force s e :
  JMap.get s k = Some e → JMap.get (record o now k code tail force s).1 k = Some (recorded_entry now code tail force e).
Proof. intros He. unfold record, recorded_entry. rewrite He. destruct (trips _ _ _); apply JMap.get_set_eq. Qed.

Lemma get_record_other now k' code tail force s k :
  k' ≠ k →
  JMap.get (record o now k' code tail force s).1 k
  = JMap.get (match JMap.get s k' with Some _ => s | None => enforceCap o (sweepStale o now s) end) k.
Proof.
  intros Hne. unfold record. destruct (JMap.get s k') as [e|]; destruct (trips _ _ _); by apply JMap.get_set_ne.
Qed.

(** What an operation makes of an entry it does not forget. *)
Lemma operate_entry op s k e :
  NoDup (JMap.keys s) → JMap.get s k = Some e → k ∈ JMap.keys (operate o op s) →
  match op with
  | op_record now k' code tail force =>
      JMap.get (operate o op s) k = Some (if String.eqb k' k then recorded_entry now code tail force e else e)
  | op_check now k' =>
      JMap.get (operate o op s) k
      = Some (if String.eqb k' k && cb_open e && negb (snd (shouldBlock o now k s)) then e<|cb_lastProbeAt := now|> else e)
  | _ => JMap.get (operate o op s) k = Some e
  end.
Proof.
  intros Hn He Hk. assert (Hkeep : ∀ p, k ∈ JMap.keys (lfilter p s) → JMap.get (lfilter p s) k = Some e).
  { intros p Hp. apply JMap.get_is_Some_keys in Hp as [e' He']. rewrite (get_forgets p s k e Hn He) in He' |- *. by case_match. }
  destruct op as [now k' code tail force|now k'|k'|k'|a|now]; simpl in *.
  - destruct (String.eqb k' k) eqn:Ek; [apply String.eqb_eq in Ek as ->; by apply get_record|]. apply String.eqb_neq in Ek.
    rewrite get_record_other by done. apply JMap.get_is_Some_keys in Hk as [e' He']. rewrite get_record_other in He' by done.
    destruct (JMap.get s k'); [done|]. destruct (get_room now s k e Hn He) as [H|[H _]]; [exact H|congruence].
  - unfold shouldBlock. destruct (String.eqb k' k) eqn:Ek; simpl.
    + apply String.eqb_eq in Ek as ->. rewrite He. destruct (cb_open e) eqn:Eo; simpl; [|done].
      destruct (_ <=? _); simpl; [apply JMap.get_set_eq|done].
    + apply String.eqb_neq in Ek. destruct (JMap.get s k') as [e'|]; [|done].
      destruct (negb _); [done|]. destruct (_ <=? _); [|done]. cbn [fst]; by rewrite JMap.get_set_ne.
  - unfold recordSuccess in *. destruct (JMap.get s k') as [e'|]; [destruct (cb_open e'); [done|]|]; by apply Hkeep.
  - by apply Hkeep.
  - by apply Hkeep.
  - by apply Hkeep.
Qed.

Lemma recorded_open now code tail force e : cb_open e = true → cb_open (recorded_entry now code tail force e) = true.
Proof. intros Ho. unfold recorded_entry. by destruct (trips _ _ _). Qed.

Lemma recorded_probe now code tail force e : cb_lastProbeAt (recorded_entry now code tail force e) = cb_lastProbeAt e.
Proof. unfold recorded_entry. by destruct (trips _ _ _). Qed.

(** Times that are at least a cooldown apart, the first from [t]. *)
Fixpoint spaced (t : Z) (l : list Z) : Prop :=
  match l with
  | [] => True
  | u :: l => bo_cooldownMs o <= u - t ∧ spaced u l
  end.

Lemma gate_step op s k e :
  NoDup (JMap.keys s) → JMap.get s k = Some e → cb_open e = true → k ∈ JMap.keys (operate o op s) →
  ∃ e', JMap.get (operate o op s) k = Some e' ∧ cb_open e' = true ∧
    (probe o k op s = [] ∧ cb_lastProbeAt e' = cb_lastProbeAt e ∨
     ∃ t, probe o k op s = [t] ∧ cb_lastProbeAt e' = t ∧ bo_cooldownMs o <= t - cb_lastProbeAt e).
Proof.
  intros Hn He Ho Hk. pose proof (operate_entry op s k e Hn He Hk) as H.
  destruct op as [now k' code tail force|now k'|k'|k'|a|now]; try (exists e; split_and!; [done|done|by left]).
  - eexists. split; [exact H|]. destruct (String.eqb k' k); [rewrite recorded_probe; split; [by apply recorded_open|by left]|].
    split; [done|by left].
  - eexists. split; [exact H|]. unfold probe, is_open. rewrite He, Ho. destruct (String.eqb k' k) eqn:Ek; simpl; [|split; [done|by left]].
    unfold shouldBlock. rewrite He, Ho. apply String.eqb_eq in Ek as ->. simpl. destruct (bo_cooldownMs o <=? _) eqn:Ec; simpl; [|split; [done|by left]].
    apply Z.leb_le in Ec. split; [done|]. right. exists now. split_and!; [done|done|lia].
Qed.

Lemma gate_history ops : ∀ s k e,
  within_cap s → JMap.get s k = Some e → cb_open e = true → remembered o k ops s →
  is_open k (operate_all o ops s) = true ∧ spaced (cb_lastProbeAt e) (probes o k ops s).
Proof.
  induction ops as [|op ops IH]; intros s k e Hs He Ho Hr; simpl in *.
  - split; [|done]. unfold is_open. by rewrite He.
  - destruct Hr as [Hk Hr]. destruct (gate_step op s k e (proj1 Hs) He Ho Hk) as (e' & He' & Ho' & Hp).
    destruct (IH _ k e' (operate_cap op s Hs) He' Ho' Hr) as [H1 H2]. split; [exact H1|].
    destruct Hp as [[-> Hp]|(t & -> & Hp & Hc)]; rewrite Hp in H2; [exact H2|]. by split.
Qed.

(** ** Failures add up *)

(** The failures of [k] in a history, and that none of them forces the breaker. *)
Definition failure_of (k : string) (op : operation) : bool :=
  match op with op_record _ k' _ _ _ => String.eqb k' k | _ => false end.
Definition failures (k : string) (ops : list operation) : Z := Z.of_nat (length (lfilter (failure_of k) ops)).
Definition unforced (k : string) (op : operation) : Prop :=
  match op with op_record _ k' _ _ force => k' = k → force = false | _ => True end.

(** An entry whose failures and whose state agree. *)
Definition counted (n : Z) (e : CircuitBreakerEntry) : Prop :=
  cb_consecutiveFailures e = n ∧ cb_open e = (bo_threshold o <=? n).

Lemma counted_step op s k e n :
  NoDup (JMap.keys s) → JMap.get s k = Some e → k ∈ JMap.keys (operate o op s) → unforced k op → counted n e →
  ∃ e', JMap.get (operate o op s) k = Some e' ∧ counted (n + (if failure_of k op then 1 else 0)) e'.
Proof.
  intros Hn He Hk Hf Hc. pose proof (operate_entry op s k e Hn He Hk) as H.
  assert (Hsame : counted (n + 0) e) by by rewrite Z.add_0_r.
  destruct op as [now k' code tail force|now k'|k'|k'|a|now]; try (exists e; by split).
  - eexists. split; [exact H|]. simpl. destruct (String.eqb k' k) eqn:Ek; [|exact Hsame].
    apply String.eqb_eq in Ek. rewrite (Hf Ek). destruct Hc as [<- Ho]. unfold recorded_entry, trips, counted. simpl.
    rewrite orb_false_r, <- Z.add_1_r. destruct (bo_threshold o <=? cb_consecutiveFailures e + 1) eqn:E; simpl; [done|].
    split; [done|]. rewrite Ho. apply Z.leb_gt in E. apply Z.leb_gt. lia.
  - eexists. split; [exact H|]. simpl. by destruct (_ && _).
Qed.

Lemma counted_history ops : ∀ s k e n,
  within_cap s → JMap.get s k = Some e → remembered o k ops s → Forall (unforced k) ops → counted n e →
  ∃ e', JMap.get (operate_all o ops s) k = Some e' ∧ counted (n + failures k ops) e'.
Proof.
  induction ops as [|op ops IH]; intros s k e n Hs He Hr Hf Hc.
  - exists e. split; [exact He|]. unfold failures. simpl. by rewrite Z.add_0_r.
  - destruct Hr as [Hk Hr]. apply Forall_cons in Hf as [Hop Hf].
    destruct (counted_step op s k e n (proj1 Hs) He Hk Hop Hc) as (e1 & He1 & Hc1).
    destruct (IH _ k e1 _ (operate_cap op s Hs) He1 Hr Hf Hc1) as (e' & He' & Hc'). exists e'. split; [exact He'|].
    unfold failures in *. rewrite lfilter_cons. destruct (failure_of k op); cbn [length]; [|by rewrite Z.add_0_r in Hc'].
    by replace (n + Z.of_nat (S _)) with (n + 1 + Z.of_nat (length (lfilter (failure_of k) ops))) by lia.
Qed.

Lemma spaced_pairs l : ∀ t i u v, spaced t l → l !! i = Some u → l !! S i = Some v → bo_cooldownMs o <= v - u.
Proof.
  induction l as [|x l IH]; intros t i u v Hs Hu Hv; [done|]. destruct Hs as [_ Hs]. destruct i as [|i].
  - injection Hu as ->. destruct l as [|y l]; [done|]. injection Hv as ->. by destruct Hs.
  - by eapply IH.
Qed.

Lemma reached_cap hist : within_cap (operate_all o hist []).
Proof. apply operate_all_cap. split; [constructor|simpl; lia]. Qed.

(** ** The promises *)

(** The map stays small.  Whatever an agent manager goes through, the breaker tracks at most the configured number of keys (one, where none is configured), each once. *)
Theorem breaker_is_bounded hist :
  NoDup (JMap.keys (operate_all o hist [])) ∧ Z.of_nat (length (operate_all o hist [])) <= Z.max 1 (bo_maxKeys o).
Proof. apply reached_cap. Qed.

(** A breaker opens at the threshold.  From the first failure of a key on, as long as its entry is kept and no failure is a forced one, the breaker is open exactly when the failures have reached the threshold. *)
Theorem breaker_opens_at_threshold hist now k code tail ops :
  let s := operate_all o hist [] in
  let s1 := operate o (op_record now k code tail false) s in
  JMap.get s k = None → remembered o k ops s1 → Forall (unforced k) ops →
  is_open k (operate_all o ops s1) = (bo_threshold o <=? 1 + failures k ops).
Proof.
  intros s s1 Habs Hr Hf. assert (Hs1 : within_cap s1) by apply operate_cap, reached_cap.
  assert (∃ e, JMap.get s1 k = Some e ∧ counted 1 e) as (e & He & Hc).
  { unfold s1. simpl. unfold record. rewrite Habs. unfold counted, trips. simpl. rewrite orb_false_r.
    change (Z.succ 0) with 1. destruct (bo_threshold o <=? 1) eqn:E; simpl; (eexists; split; [apply JMap.get_set_eq|done]). }
  destruct (counted_history ops s1 k e 1 Hs1 He Hr Hf Hc) as (e' & He' & _ & Ho).
  unfold is_open. by rewrite He'.
Qed.

(** An open breaker gates.  As long as its entry is kept, an open breaker stays open whatever happens, successes included, and the dispatches it lets through are at least a cooldown apart. *)
Theorem open_breaker_gates hist ops k :
  let s := operate_all o hist [] in
  is_open k s = true → remembered o k ops s →
  is_open k (operate_all o ops s) = true ∧
  ∀ i t u, probes o k ops s !! i = Some t → probes o k ops s !! S i = Some u → bo_cooldownMs o <= u - t.
Proof.
  intros s Ho Hr. unfold is_open in Ho. destruct (JMap.get s k) as [e|] eqn:He; [|done].
  destruct (gate_history ops s k e (reached_cap hist) He Ho Hr) as [H1 H2]. split; [exact H1|].
  intros i t u. by apply spaced_pairs with (cb_lastProbeAt e).
Qed.

(** Who closes an open breaker.  Only a reset by the operator, or the map's housekeeping: a sweep, on its own or before a new key is added, that finds its last failure too long ago, or a new key when the map is full of open breakers and this is the one that failed longest ago. *)
Theorem breaker_closes_only hist op k e :
  let s := operate_all o hist [] in
  JMap.get s k = Some e → cb_open e = true → is_open k (operate o op s) = false →
  match op with
  | op_reset k' => k' = k
  | op_reset_agent a => of_agent a k = true
  | op_sweep now => is_stale o now e = true
  | op_record now k' _ _ _ =>
      JMap.get s k' = None ∧
      (is_stale o now e = true ∨
       bo_maxKeys o <= Z.of_nat (length (sweepStale o now s)) ∧
       ∀ x, x ∈ sweepStale o now s → cb_open x.2 = true ∧ cb_lastFailureAt e <= cb_lastFailureAt x.2)
  | op_check _ _ | op_success _ => False
  end.
Proof.
  intros s He Ho Hc. pose proof (reached_cap hist) as [Hn _]. fold s in Hn.
  destruct (decide (k ∈ JMap.keys (operate o op s))) as [Hk|Hk].
  { destruct (gate_step op s k e Hn He Ho Hk) as (e' & He' & Ho' & _). unfold is_open in Hc. rewrite He' in Hc. congruence. }
  apply JMap.get_None_keys in Hk.
  assert (Hgone : ∀ p, JMap.get (lfilter p s) k = None → p (k, e) = false).
  { intros p Hp. rewrite (get_forgets p s k e Hn He) in Hp. by case_match. }
  destruct op as [now k' code tail force|now k'|k'|k'|a|now]; simpl in Hk.
  - destruct (decide (k' = k)) as [->|Hne]; [by rewrite (get_record now k code tail force s e He) in Hk|].
    rewrite get_record_other in Hk by done. destruct (JMap.get s k') as [e'|]; [congruence|]. split; [done|].
    destruct (get_room now s k e Hn He) as [H|[_ [H|[Hv Hl]]]]; [congruence|by left|right]. split; [exact Hl|].
    destruct (victim_Some _ _ Hv) as (e' & He' & Hx). assert (e' = e) as ->; [|by apply Hx].
    apply elem_of_lfilter in He' as [He' _]. rewrite (JMap.elem_get s k e' Hn He') in He. congruence.
  - unfold shouldBlock in Hk. destruct (JMap.get s k') as [e'|] eqn:E; [|simpl in Hk; congruence]. destruct (negb _); [simpl in Hk; congruence|].
    destruct (_ <=? _); simpl in Hk; [|congruence]. destruct (decide (k' = k)) as [->|Hne]; [by rewrite JMap.get_set_eq in Hk|].
    rewrite JMap.get_set_ne in Hk by done. congruence.
  - unfold recordSuccess in Hk. destruct (decide (k' = k)) as [->|Hne]; [rewrite He, Ho in Hk; simpl in Hk; congruence|].
    assert (Hd : JMap.get (delete k' s) k = Some e).
    { rewrite breaker_get_delete by done. destruct (String.eqb k k') eqn:E; [apply String.eqb_eq in E; congruence|done]. }
    destruct (JMap.get s k') as [e'|]; [destruct (cb_open e')|]; unfold reset in Hk; congruence.
  - apply Hgone in Hk. simpl in Hk. apply negb_false_iff, String.eqb_eq in Hk. done.
  - apply Hgone in Hk. simpl in Hk. by apply negb_false_iff in Hk.
  - apply Hgone in Hk. simpl in Hk. by apply negb_false_iff in Hk.
Qed.
End facts.

(** ** A history *)

Definition options_ex : BreakerOptions := breaker_options (Some 3) (Some 1000) (Some 2) (Some 5000).
Definition key_ex : string := key "agent" "ticket" "dev".
Definition fails (now : Z) : operation := op_record now key_ex (Some 41) "no api key" false.

Lemma breaker_opens_at_threshold_witness :
  is_open key_ex (operate_all options_ex [fails 20; op_check 25 key_ex; fails 30] (operate options_ex (fails 10) [])) = true ∧
  is_open key_ex (operate_all options_ex [fails 20; op_check 25 key_ex] (operate options_ex (fails 10) [])) = false.
Proof.
  split.
  - refine (eq_trans (breaker_opens_at_threshold options_ex [] 10 key_ex (Some 41) "no api key" [fails 20; op_check 25 key_ex; fails 30] _ _ _) _);
      [reflexivity| |repeat constructor; reflexivity|reflexivity].
    repeat split; apply (bool_decide_unpack _); vm_compute; exact I.
  - refine (eq_trans (breaker_opens_at_threshold options_ex [] 10 key_ex (Some 41) "no api key" [fails 20; op_check 25 key_ex] _ _ _) _);
      [reflexivity| |repeat constructor; reflexivity|reflexivity].
    repeat split; apply (bool_decide_unpack _); vm_compute; exact I.
Defined.

Definition opened_ex : list operation := [fails 10; fails 20; fails 30].
Definition gated_ex : list operation :=
  [op_check 900 key_ex; op_check 1030 key_ex; op_success key_ex; op_check 1500 key_ex; op_check 2030 key_ex].

Lemma open_breaker_gates_witness :
  probes options_ex key_ex gated_ex (operate_all options_ex opened_ex []) = [1030; 2030] ∧
  is_open key_ex (operate_all options_ex gated_ex (operate_all options_ex opened_ex [])) = true.
Proof.
  split; [vm_compute; reflexivity|]. refine (proj1 (open_breaker_gates options_ex opened_ex gated_ex key_ex _ _)).
  - vm_compute. reflexivity.
  - repeat split; apply (bool_decide_unpack _); vm_compute; exact I.
Defined.

Lemma breaker_closes_only_witness :
  let e := recorded_entry options_ex 30 (Some 41) "no api key" false
             (recorded_entry options_ex 20 (Some 41) "no api key" false
               (recorded_entry options_ex 10 (Some 41) "no api key" false fresh_entry)) in
  is_stale options_ex 6000 e = true.
Proof.
  refine (breaker_closes_only options_ex opened_ex (op_sweep 6000) key_ex _ _ _ _); vm_compute; reflexivity.
Defined.
