(* ===== verification/ProvisionLock.v ===== *)
(** * The provisioning lock

    [provision-lock.ts] of the agent manager: one directory under the worktrees
    root is the lock of all managers of a machine.  An attempt makes it, publishes
    an owner file named after its process and a token of its own, and holds the
    lock if a scan then finds no other file; what a crash left behind is
    recovered by whoever waits.  A system is the directory, the processes that
    have died, and the attempts under way; a step is one file-system call. *)

From S2P Require Import Prelude.
#[local] Open Scope nat_scope.

Inductive Entry : Type :=
  (** [owner-<pid>-<token>.json] *)
  | owned (pid token : nat)
  (** Any other name: recovery never touches it. *)
  | foreign (name : string).

#[export] Instance Entry_eq_dec : EqDecision Entry.
Proof. solve_decision. Defined.

Record LockFs := {
  (** The files of the lock directory, where it exists. *)
  lk_dir : option (list Entry);
  (** The next token [randomUUID] hands out. *)
  lk_nonce : nat;
  lk_dead : list nat
}.

(** What follows [removeOwner]. *)
Inductive Then : Type := then_recover | then_return | then_throw.

(** Where an attempt is. *)
Inductive Pc : Type :=
  | at_mkdir
  | at_write (token : nat)
  | at_scan (token : nat)
  (** [acquired]: the function runs. *)
  | at_held (token : nat)
  | at_unlink (token : nat) (k : Then)
  | at_rmdir (k : Then)
  (** [recoverStaleOwners]: the listing, the empty directory, the names left. *)
  | at_recover
  | at_empty
  | at_check (names : list Entry)
  | at_reap (pid token : nat) (names : list Entry)
  | at_reap_rmdir (names : list Entry)
  | at_deadline
  | at_returned
  | at_threw.

(** What a call meets: an error of its own, which may come after a file was
    made; a file older than [staleMs]; a deadline that has passed. *)
Record Choice := { ch_fails : bool; ch_partial : bool; ch_stale : bool; ch_late : bool }.

Definition follow (k : Then) : Pc :=
  match k with then_recover => at_recover | then_return => at_returned | then_throw => at_threw end.

Definition remove_entry (e : Entry) (l : list Entry) : list Entry := filter (λ x, x ≠ e) l.

Definition unlink (e : Entry) (fs : LockFs) : LockFs :=
  match lk_dir fs with Some l => fs<|lk_dir := Some (remove_entry e l)|> | None => fs end.

(** Fails on a directory with files in it. *)
Definition rmdir (fs : LockFs) : LockFs :=
  match lk_dir fs with Some [] => fs<|lk_dir := None|> | _ => fs end.

(** The next call of an attempt of process [pid], and where it leaves it. *)
Definition call (pid : nat) (c : Choice) (pc : Pc) (fs : LockFs) : option (Pc * LockFs) :=
  match pc with
  | at_mkdir =>
      if ch_fails c then Some (if ch_late c then at_threw else at_mkdir, fs)
      else
        match lk_dir fs with
        | None => Some (at_write (lk_nonce fs), fs<|lk_dir := Some []|><|lk_nonce ::= S|>)
        | Some _ => Some (at_recover, fs)
        end
  | at_write token =>
      match lk_dir fs with
      | None => Some (at_unlink token (if ch_fails c then then_throw else then_recover), fs)
      | Some l =>
          let fs' := fs<|lk_dir := Some (l ++ [owned pid token])|> in
          if ch_fails c then Some (at_unlink token then_throw, if ch_partial c then fs' else fs)
          else if decide (owned pid token ∈ l) then Some (at_unlink token then_recover, fs)
          else Some (at_scan token, fs')
      end
  | at_scan token =>
      if ch_fails c then Some (at_unlink token then_throw, fs)
      else
        match lk_dir fs with
        | None => Some (at_unlink token then_recover, fs)
        | Some names =>
            if decide (names = [owned pid token]) then Some (at_held token, fs)
            else Some (at_unlink token then_recover, fs)
        end
  | at_held token => Some (at_unlink token (if ch_fails c then then_throw else then_return), fs)
  | at_unlink token k => Some (at_rmdir k, if ch_fails c then fs else unlink (owned pid token) fs)
  | at_rmdir k => Some (follow k, if ch_fails c then fs else rmdir fs)
  | at_recover =>
      match lk_dir fs with
      | None => Some (at_deadline, fs)
      | Some [] => Some (if ch_stale c then at_empty else at_deadline, fs)
      | Some names => Some (if ch_fails c then at_deadline else at_check names, fs)
      end
  | at_empty => Some (at_deadline, if ch_fails c then fs else rmdir fs)
  | at_check [] => Some (at_deadline, fs)
  | at_check (foreign _ :: names) => Some (at_check names, fs)
  | at_check (owned p t :: names) =>
      if ch_fails c || negb (bool_decide (owned p t ∈ default [] (lk_dir fs))) then Some (at_deadline, fs)
      else if ch_stale c && bool_decide (p ∈ lk_dead fs) then Some (at_reap p t names, fs)
      else Some (at_check names, fs)
  | at_reap p t names => Some (at_reap_rmdir names, if ch_fails c then fs else unlink (owned p t) fs)
  | at_reap_rmdir names => Some (at_check names, if ch_fails c then fs else rmdir fs)
  | at_deadline => Some (if ch_late c then at_threw else at_mkdir, fs)
  | at_returned | at_threw => None
  end.

(** ** Systems *)

Record Sys := {
  sy_fs : LockFs;
  (** The attempts, each with its process. *)
  sy_attempts : list (nat * Pc)
}.

Definition alive (pid : nat) (s : Sys) : Prop := pid ∉ lk_dead (sy_fs s).

(** One call of the [i]-th attempt. *)
Definition advance (i : nat) (c : Choice) (s : Sys) : option Sys :=
  '(pid, pc) ← sy_attempts s !! i;
  if decide (pid ∈ lk_dead (sy_fs s)) then None
  else
    '(pc', fs') ← call pid c pc (sy_fs s);
    Some {| sy_fs := fs'; sy_attempts := <[i := (pid, pc')]> (sy_attempts s) |}.

Inductive lock_step : Sys → Sys → Prop :=
  | ls_call i c s s' : advance i c s = Some s' → lock_step s s'
  | ls_crash pid s : lock_step s (s<|sy_fs ::= λ fs, fs<|lk_dead ::= λ l, pid :: l|>|>)
  (** Another call of the function, from a process that lives. *)
  | ls_enter pid s : alive pid s → lock_step s (s<|sy_attempts ::= λ l, l ++ [(pid, at_mkdir)]|>).

(** What earlier managers left on the disk; no token of theirs comes again. *)
Definition leftover (fs : LockFs) : Prop := ∀ p t, owned p t ∈ default [] (lk_dir fs) → (t < lk_nonce fs)%nat.

Definition fresh_system (fs : LockFs) : Sys := {| sy_fs := fs; sy_attempts := [] |}.

(** * Mutual exclusion, and recovery after a crash

    However the calls of any number of managers interleave and whoever dies, two
    living attempts never hold the lock at once; and what dead owners leave
    behind does not keep the lock from the living. *)

(** ** The invariant *)

(** The token an attempt has published or may publish under. *)
Definition token_of (pc : Pc) : option nat :=
  match pc with
  | at_write t | at_scan t | at_held t | at_unlink t _ => Some t
  | _ => None
  end.

(** Attempts whose file is in the directory while they live. *)
Definition published (pc : Pc) : option nat :=
  match pc with at_scan t | at_held t => Some t | _ => None end.

Definition files (fs : LockFs) : list Entry := default [] (lk_dir fs).

Record lock_ok (s : Sys) : Prop := {
  lo_files p t : owned p t ∈ files (sy_fs s) → t < lk_nonce (sy_fs s);
  lo_tokens i p pc t : sy_attempts s !! i = Some (p, pc) → token_of pc = Some t → t < lk_nonce (sy_fs s);
  lo_distinct i j p q pc qc t :
    sy_attempts s !! i = Some (p, pc) → sy_attempts s !! j = Some (q, qc) →
    token_of pc = Some t → token_of qc = Some t → i = j;
  lo_published i p pc t :
    sy_attempts s !! i = Some (p, pc) → p ∉ lk_dead (sy_fs s) → published pc = Some t → owned p t ∈ files (sy_fs s);
  lo_reaps i p q t names : sy_attempts s !! i = Some (p, at_reap q t names) → q ∈ lk_dead (sy_fs s);
  lo_exclusive i j p q t u :
    sy_attempts s !! i = Some (p, at_held t) → sy_attempts s !! j = Some (q, at_held u) →
    p ∉ lk_dead (sy_fs s) → q ∉ lk_dead (sy_fs s) → i = j
}.

Lemma published_token pc t : published pc = Some t → token_of pc = Some t.
Proof. by destruct pc. Qed.

(** ** What a call does to the directory *)

Lemma elem_of_remove x e l : x ∈ remove_entry e l ↔ x ∈ l ∧ x ≠ e.
Proof. unfold remove_entry. rewrite list_elem_of_filter. tauto. Qed.

Lemma remove_absent e l : e ∉ l → remove_entry e l = l.
Proof.
  unfold remove_entry. induction l as [|x l IH]; [done|]. intros [Hne He]%not_elem_of_cons.
  by rewrite filter_cons_True, IH by done.
Qed.

Lemma files_rmdir fs : files (rmdir fs) = files fs.
Proof. unfold files, rmdir. destruct (lk_dir fs) as [[|e l]|] eqn:E; simpl; by rewrite ?E. Qed.

Lemma files_unlink e fs x : x ∈ files (unlink e fs) ↔ x ∈ files fs ∧ x ≠ e.
Proof.
  unfold files, unlink. destruct (lk_dir fs) as [l|] eqn:E; simpl; rewrite ?E; simpl; [apply elem_of_remove|].
  split; [by intros ?%elem_of_nil|by intros [?%elem_of_nil _]].
Qed.

Lemma rmdir_nonce fs : lk_nonce (rmdir fs) = lk_nonce fs ∧ lk_dead (rmdir fs) = lk_dead fs.
Proof. unfold rmdir. destruct (lk_dir fs) as [[|e l]|]; done. Qed.

Lemma unlink_nonce e fs : lk_nonce (unlink e fs) = lk_nonce fs ∧ lk_dead (unlink e fs) = lk_dead fs.
Proof. unfold unlink. by destruct (lk_dir fs). Qed.

(** The frame of a call of process [pid] at [pc]: no one else's file leaves the
    directory unless its owner is dead, a file that comes is the caller's, and
    tokens are new. *)
Record call_ok (pid : nat) (pc : Pc) (fs : LockFs) (pc' : Pc) (fs' : LockFs) : Prop := {
  ca_dead : lk_dead fs' = lk_dead fs;
  ca_nonce : lk_nonce fs <= lk_nonce fs';
  ca_new p t : owned p t ∈ files fs' → owned p t ∈ files fs ∨ p = pid ∧ token_of pc = Some t;
  ca_kept p t : owned p t ∈ files fs → owned p t ∈ files fs' ∨ (p = pid ∧ token_of pc = Some t) ∨ (∃ names, pc = at_reap p t names);
  ca_token t : token_of pc' = Some t → token_of pc = Some t ∨ lk_nonce fs <= t < lk_nonce fs';
  ca_published t : published pc' = Some t → owned pid t ∈ files fs';
  ca_held t : pc' = at_held t → files fs' = [owned pid t] ∧ files fs = files fs';
  ca_reap q t names : pc' = at_reap q t names → q ∈ lk_dead fs
}.

Lemma call_ok_quiet pid pc fs pc' :
  token_of pc' = None ∨ token_of pc' = token_of pc → published pc' = None →
  (∀ q t names, pc' = at_reap q t names → q ∈ lk_dead fs) →
  call_ok pid pc fs pc' fs.
Proof.
  intros Ht Hp Hr. split; try done; try tauto.
  - intros t Hpc. destruct Ht as [Ht|Ht]; [congruence|left; congruence].
  - intros t Hpc. congruence.
  - intros t Hpc. rewrite Hpc in Hp. discriminate Hp.
Qed.

Lemma call_ok_rmdir pid pc fs pc' fs' :
  call_ok pid pc fs pc' fs → fs' = fs ∨ fs' = rmdir fs → call_ok pid pc fs pc' fs'.
Proof.
  intros H [->| ->]; [exact H|]. destruct H as [H1 H2 H3 H4 H5 H6 H7 H8]. destruct (rmdir_nonce fs) as [Hn Hd].
  split; rewrite ?files_rmdir, ?Hn, ?Hd; auto.
Qed.

Lemma call_ok_unlink pid pc fs pc' p t fs' :
  token_of pc' = None → published pc' = None → (∀ q u names, pc' ≠ at_reap q u names) →
  (p = pid ∧ token_of pc = Some t) ∨ (∃ names, pc = at_reap p t names) →
  fs' = fs ∨ fs' = unlink (owned p t) fs → call_ok pid pc fs pc' fs'.
Proof.
  intros Ht Hp Hr Hown [->| ->]; [apply call_ok_quiet; [by left|done|]; intros q u n He; by destruct (Hr q u n)|].
  destruct (unlink_nonce (owned p t) fs) as [Hn Hd]. split; rewrite ?Hn, ?Hd; try done.
  - intros q u [Hin _]%files_unlink. by left.
  - intros q u Hin. destruct (decide (owned q u = owned p t)) as [[= -> ->]|Hne]; [by right|].
    left. by apply files_unlink.
  - intros u Hu. congruence.
  - intros u Hu. congruence.
  - intros u Hu. rewrite Hu in Hp. discriminate Hp.
  - intros q u n He. by destruct (Hr q u n).
Qed.

(** The caller makes a file of its own. *)
Lemma call_ok_publish pid t fs l pc' :
  lk_dir fs = Some l → pc' = at_scan t ∨ pc' = at_unlink t then_throw →
  call_ok pid (at_write t) fs pc' (fs<|lk_dir := Some (l ++ [owned pid t])|>).
Proof.
  intros El Hpc. assert (Hf : ∀ e, e ∈ files (fs<|lk_dir := Some (l ++ [owned pid t])|>) ↔ e ∈ files fs ∨ e = owned pid t).
  { intros e. unfold files. rewrite El. simpl. by rewrite elem_of_app, list_elem_of_singleton. }
  split; try done.
  - intros p u [Hin|[= -> ->]]%Hf; [by left|by right].
  - intros p u Hin. left. apply Hf. by left.
  - intros u Hu. left. by destruct Hpc as [-> | ->].
  - intros u Hu. destruct Hpc as [-> | ->]; [|done]. injection Hu as <-. apply Hf. by right.
  - intros u Hu. by destruct Hpc as [-> | ->].
  - intros q u n Hu. by destruct Hpc as [-> | ->].
Qed.

Ltac quiet := apply call_ok_quiet; [by (left + right)|done|done].

Lemma call_frame pid c pc fs pc' fs' : call pid c pc fs = Some (pc', fs') → call_ok pid pc fs pc' fs'.
Proof.
  intros H. destruct pc as [|t|t|t|t k|k| | |[|[p t|x] names]|p t names|names| | |]; simpl in H; simplify_eq.
  - destruct (ch_fails c); [destruct (ch_late c); simplify_eq; quiet|].
    destruct (lk_dir fs) as [l|] eqn:El; simplify_eq; [quiet|]. split; try done; simpl; [lia| | |].
    + by intros p t ?%elem_of_nil.
    + intros p t Hin. unfold files in Hin. rewrite El in Hin. by apply elem_of_nil in Hin.
    + intros t [= <-]. right. lia.
  - destruct (lk_dir fs) as [l|] eqn:El; simplify_eq; [|quiet].
    destruct (ch_fails c); [|case_decide; simplify_eq; [quiet|apply call_ok_publish; auto]].
    destruct (ch_partial c); simplify_eq; [apply call_ok_publish; auto|quiet].
  - destruct (ch_fails c); [simplify_eq; quiet|]. destruct (lk_dir fs) as [l|] eqn:El; simplify_eq; [|quiet].
    case_decide; simplify_eq; [|quiet]. assert (Hf : files fs' = [owned pid t]) by (unfold files; by rewrite El).
    split; try done; try tauto; simpl; intros u [= ->]; [rewrite Hf; by left|done].
  - quiet.
  - apply (call_ok_unlink pid _ _ _ pid t); try done; [by left|]. destruct (ch_fails c); auto.
  - apply call_ok_rmdir; [destruct k; quiet|]. destruct (ch_fails c); auto.
  - destruct (lk_dir fs) as [[|e l]|]; [destruct (ch_stale c)|destruct (ch_fails c)|]; simplify_eq; quiet.
  - apply call_ok_rmdir; [quiet|]. destruct (ch_fails c); auto.
  - quiet.
  - case_match; simplify_eq; [quiet|]. case_match eqn:Hd; simplify_eq; [|quiet].
    apply andb_true_iff in Hd as [_ Hd%bool_decide_eq_true]. apply call_ok_quiet; [by left|done|].
    by intros q u n [= <- <- <-].
  - quiet.
  - apply (call_ok_unlink pid _ _ _ p t); try done; [eauto|]. destruct (ch_fails c); auto.
  - apply call_ok_rmdir; [quiet|]. destruct (ch_fails c); auto.
  - destruct (ch_late c); quiet.
Qed.

Section preservation.
Context (s : Sys) (Hs : lock_ok s).

(** A call of the [i]-th attempt. *)
Lemma advance_inv i c s' :
  advance i c s = Some s' →
  ∃ pid pc pc' fs', sy_attempts s !! i = Some (pid, pc) ∧ (pid ∉ lk_dead (sy_fs s)) ∧
    call_ok pid pc (sy_fs s) pc' fs' ∧ s' = {| sy_fs := fs'; sy_attempts := <[i := (pid, pc')]> (sy_attempts s) |}.
Proof.
  unfold advance. destruct (sy_attempts s !! i) as [[pid pc]|] eqn:Hi; [|done]. simpl. case_decide; [done|].
  destruct (call pid c pc (sy_fs s)) as [[pc' fs']|] eqn:Hc; [|done]. intros [= <-].
  exists pid, pc, pc', fs'. split_and!; try done. by eapply call_frame.
Qed.

(** The attempts after a call: the caller, or one that did not move. *)
Lemma moved_inv i j pid pc x :
  sy_attempts s !! i = Some pid → <[i := pc]> (sy_attempts s) !! j = Some x →
  (j = i ∧ x = pc) ∨ (j ≠ i ∧ sy_attempts s !! j = Some x).
Proof.
  intros Hi Hj. destruct (decide (j = i)) as [->|Hne].
  - left. rewrite list_lookup_insert_eq in Hj by (by eapply lookup_lt_Some). by simplify_eq.
  - right. by rewrite list_lookup_insert_ne in Hj.
Qed.

(** The token a caller ends up with is no other attempt's. *)
Lemma own_token i pid pc pc' fs' k q qc t :
  sy_attempts s !! i = Some (pid, pc) → call_ok pid pc (sy_fs s) pc' fs' → token_of pc' = Some t →
  sy_attempts s !! k = Some (q, qc) → token_of qc = Some t → k = i.
Proof using Hs.
  intros Hi Hc Ht Hk Hq. destruct (ca_token _ _ _ _ _ Hc t Ht) as [Hold|Hnew].
  - by apply (lo_distinct s Hs k i q pid qc pc t).
  - pose proof (lo_tokens s Hs k q qc t Hk Hq). lia.
Qed.

(** A published file stays while its owner lives and does not call. *)
Lemma published_stays i pid pc pc' fs' k q qc t :
  sy_attempts s !! i = Some (pid, pc) → call_ok pid pc (sy_fs s) pc' fs' → k ≠ i →
  sy_attempts s !! k = Some (q, qc) → q ∉ lk_dead (sy_fs s) → published qc = Some t → owned q t ∈ files fs'.
Proof using Hs.
  intros Hi Hc Hne Hk Hq Ht. pose proof (lo_published s Hs k q qc t Hk Hq Ht) as Hin.
  destruct (ca_kept _ _ _ _ _ Hc q t Hin) as [Hkept|[[-> Hown]|[names ->]]]; [done| |].
  - destruct Hne. apply (lo_distinct s Hs k i pid pid qc pc t); try done. by apply published_token.
  - by apply (lo_reaps s Hs) in Hi.
Qed.

(** Whoever acquires has seen its own file alone. *)
Lemma acquires_alone i pid pc fs' t k q u :
  sy_attempts s !! i = Some (pid, pc) → call_ok pid pc (sy_fs s) (at_held t) fs' →
  sy_attempts s !! k = Some (q, at_held u) → q ∉ lk_dead (sy_fs s) → k = i.
Proof using Hs.
  intros Hi Hc Hk Hq. destruct (ca_held _ _ _ _ _ Hc t eq_refl) as [Hf Hsame].
  pose proof (lo_published s Hs k q (at_held u) u Hk Hq eq_refl) as Hin.
  rewrite Hsame, Hf in Hin. apply list_elem_of_singleton in Hin as [= -> ->].
  by apply (own_token i pid pc (at_held t) fs' k pid (at_held t) t).
Qed.

Lemma call_preserves i c s' : advance i c s = Some s' → lock_ok s'.
Proof using Hs.
  intros (pid & pc & pc' & fs' & Hi & Hlive & Hc & ->)%advance_inv. split; simpl; rewrite ?(ca_dead _ _ _ _ _ Hc).
  - intros p t [Hin|[-> Ht]]%(ca_new _ _ _ _ _ Hc); (eapply Nat.lt_le_trans; [|apply (ca_nonce _ _ _ _ _ Hc)]).
    + by apply (lo_files s Hs p).
    + by apply (lo_tokens s Hs i pid pc).
  - intros j p qc t [[-> [= -> ->]]|[Hne Hj]]%(moved_inv i j _ _ _ Hi) Ht.
    + destruct (ca_token _ _ _ _ _ Hc t Ht) as [Hold|[_ Hnew]]; [|done].
      eapply Nat.lt_le_trans; [by apply (lo_tokens s Hs i pid pc)|apply (ca_nonce _ _ _ _ _ Hc)].
    + eapply Nat.lt_le_trans; [by apply (lo_tokens s Hs j p qc)|apply (ca_nonce _ _ _ _ _ Hc)].
  - intros j k p q qc rc t [[-> [= -> ->]]|[Hnj Hj]]%(moved_inv i j _ _ _ Hi) [[-> [= -> ->]]|[Hnk Hk]]%(moved_inv i k _ _ _ Hi) Ht Hu.
    + done.
    + symmetry. by apply (own_token i pid pc pc' fs' k q rc t).
    + by apply (own_token i pid pc pc' fs' j p qc t).
    + by apply (lo_distinct s Hs j k p q qc rc t).
  - intros j p qc t [[-> [= -> ->]]|[Hne Hj]]%(moved_inv i j _ _ _ Hi) Hp Ht.
    + by apply (ca_published _ _ _ _ _ Hc).
    + by apply (published_stays i pid pc pc' fs' j p qc t).
  - intros j p q t names [[-> [= -> <-]]|[Hne Hj]]%(moved_inv i j _ _ _ Hi).
    + by eapply (ca_reap _ _ _ _ _ Hc).
    + by apply (lo_reaps s Hs) in Hj.
  - intros j k p q t u [[-> [= -> <-]]|[Hnj Hj]]%(moved_inv i j _ _ _ Hi) [[-> [= -> Hpc]]|[Hnk Hk]]%(moved_inv i k _ _ _ Hi) Hp Hq.
    + done.
    + symmetry. by apply (acquires_alone i pid pc fs' t k q u).
    + rewrite <- Hpc in Hc. by apply (acquires_alone i pid pc fs' u j p t).
    + by apply (lo_exclusive s Hs j k p q t u).
Qed.

Lemma crash_preserves pid : lock_ok (s<|sy_fs ::= λ fs, fs<|lk_dead ::= λ l, pid :: l|>|>).
Proof using Hs.
  assert (Hd : ∀ q, q ∉ pid :: lk_dead (sy_fs s) → q ∉ lk_dead (sy_fs s)) by (intros q Hq ?; apply Hq; by right).
  destruct Hs as [H1 H2 H3 H4 H5 H6]. split; simpl; try done.
  - intros i p pc t Hi Hp. apply (H4 i); auto.
  - intros i p q t names Hi. right. by apply H5 in Hi.
  - intros i j p q t u Hi Hj Hp Hq. by apply (H6 i j p q t u); auto.
Qed.

Lemma enter_preserves pid : lock_ok (s<|sy_attempts ::= λ l, l ++ [(pid, at_mkdir)]|>).
Proof using Hs.
  assert (Hl : ∀ i p pc, (sy_attempts s ++ [(pid, at_mkdir)]) !! i = Some (p, pc) → sy_attempts s !! i = Some (p, pc) ∨ pc = at_mkdir).
  { intros i p pc [Hi|[_ Hi]]%lookup_app_Some; [by left|right]. apply list_lookup_singleton_Some in Hi as [_ [= _ <-]]. done. }
  destruct Hs as [H1 H2 H3 H4 H5 H6]. split; simpl; try done.
  - intros i p pc t [Hi| ->]%Hl Ht; [by apply (H2 i p pc)|done].
  - intros i j p q pc qc t [Hi| ->]%Hl [Hj| ->]%Hl Ht Hu; try done. by apply (H3 i j p q pc qc t).
  - intros i p pc t [Hi| ->]%Hl Hp Ht; [by apply (H4 i p pc)|done].
  - intros i p q t names [Hi|?]%Hl; [by apply H5 in Hi|done].
  - intros i j p q t u [Hi|?]%Hl [Hj|?]%Hl Hp Hq; try done. by apply (H6 i j p q t u).
Qed.
End preservation.

Lemma lock_step_preserves s s' : lock_step s s' → lock_ok s → lock_ok s'.
Proof.
  intros [i c s1 s2 Ha|pid s1|pid s1 _] Hs; [by eapply call_preserves|by apply crash_preserves|by apply enter_preserves].
Qed.

Lemma fresh_system_ok fs : leftover fs → lock_ok (fresh_system fs).
Proof. intros Hl. by split. Qed.

Lemma reachable_lock_ok fs s : leftover fs → rtc lock_step (fresh_system fs) s → lock_ok s.
Proof.
  intros Hl Hr. remember (fresh_system fs) as s0 eqn:E. assert (H0 : lock_ok s0) by (rewrite E; by apply fresh_system_ok).
  clear E. induction Hr as [s0|s0 s1 s2 Hstep _ IH]; [done|]. apply IH. by apply (lock_step_preserves s0).
Qed.

(** C38: whatever an earlier manager left in the lock directory, and however the
    file-system calls of the attempts interleave, fail, or stop with a process
    that dies, two attempts of living processes never hold the provisioning
    lock at once. *)
Theorem mutual_exclusion fs s i j p q t u :
  leftover fs → rtc lock_step (fresh_system fs) s →
  sy_attempts s !! i = Some (p, at_held t) → sy_attempts s !! j = Some (q, at_held u) →
  alive p s → alive q s → i = j.
Proof.
  intros Hl Hr Hi Hj Hp Hq. by apply (lo_exclusive s (reachable_lock_ok fs s Hl Hr) i j p q t u).
Qed.

(** Calls in a given order. *)
Fixpoint plays (l : list (nat * Choice)) (s : Sys) : option Sys :=
  match l with
  | [] => Some s
  | (i, c) :: l => s' ← advance i c s; plays l s'
  end.

Lemma plays_steps l s s' : plays l s = Some s' → rtc lock_step s s'.
Proof.
  revert s. induction l as [|[i c] l IH]; intros s; simpl; [intros [= ->]; apply rtc_refl|].
  destruct (advance i c s) as [s1|] eqn:Ha; simpl; [|done]. intros Hp.
  eapply rtc_l; [by apply (ls_call i c)|by apply IH].
Qed.

(** No call fails, what lies there is old, and the deadline is not reached. *)
Definition waits : Choice := {| ch_fails := false; ch_partial := false; ch_stale := true; ch_late := false |}.

(** Process 1 died holding the lock; 2 recovers it and dies too; 3 has it now. *)
Definition lock_left : LockFs := {| lk_dir := Some [owned 1 0]; lk_nonce := 1; lk_dead := [1] |}.

Definition two_attempts : Sys := {| sy_fs := lock_left; sy_attempts := [(2, at_mkdir); (3, at_mkdir)] |}.

Definition first_holds : Sys := default two_attempts (plays (repeat (0, waits) 10) two_attempts).

Definition second_holds : Sys :=
  let crashed := first_holds<|sy_fs ::= λ fs, fs<|lk_dead ::= λ l, 2 :: l|>|> in
  default crashed (plays (repeat (1, waits) 10) crashed).

Lemma second_holds_reachable : rtc lock_step (fresh_system lock_left) second_holds.
Proof.
  eapply rtc_l; [apply (ls_enter 2); apply (bool_decide_unpack _); vm_compute; exact I|].
  eapply rtc_l; [apply (ls_enter 3); apply (bool_decide_unpack _); vm_compute; exact I|].
  transitivity first_holds; [by apply (plays_steps (repeat (0, waits) 10))|].
  eapply rtc_l; [apply (ls_crash 2)|]. by apply (plays_steps (repeat (1, waits) 10)).
Qed.

Lemma lock_left_leftover : leftover lock_left.
Proof. intros p t H. apply list_elem_of_singleton in H as [= -> ->]. simpl. lia. Qed.

Lemma mutual_exclusion_witness :
  sy_attempts second_holds = [(2, at_held 1); (3, at_held 2)] ∧ ¬ alive 2 second_holds.
Proof.
  split; [reflexivity|]. intros H2. discriminate (mutual_exclusion lock_left second_holds 0 1 2 3 1 2
    lock_left_leftover second_holds_reachable eq_refl eq_refl H2 ltac:(apply (bool_decide_unpack _); vm_compute; exact I)).
Defined.

(** ** A crash does not keep the lock *)

(** One attempt running alone, for [n] calls that all see the same. *)
Fixpoint run_alone (n : nat) (pid : nat) (c : Choice) (pc : Pc) (fs : LockFs) : option (Pc * LockFs) :=
  match n with
  | O => Some (pc, fs)
  | S n => '(pc', fs') ← call pid c pc fs; run_alone n pid c pc' fs'
  end.

Lemma run_alone_plus n m pid c pc fs pc' fs' :
  run_alone n pid c pc fs = Some (pc', fs') → run_alone (n + m) pid c pc fs = run_alone m pid c pc' fs'.
Proof.
  revert pc fs. induction n as [|n IH]; intros pc fs; simpl; [by intros [= -> ->]|].
  destruct (call pid c pc fs) as [[pc1 fs1]|]; simpl; [apply IH|done].
Qed.

Definition dead_owner (fs : LockFs) (e : Entry) : Prop := match e with owned p _ => p ∈ lk_dead fs | foreign _ => False end.

Lemma acquires_free pid fs :
  lk_dir fs = None →
  run_alone 3 pid waits at_mkdir fs =
    Some (at_held (lk_nonce fs), fs<|lk_dir := Some [owned pid (lk_nonce fs)]|><|lk_nonce ::= S|>).
Proof. intros El. simpl. rewrite El. simpl. by rewrite decide_True by done. Qed.

(** The pass of [recoverStaleOwners] over a directory of dead owners. *)
Lemma reaps_dead pid fs l :
  lk_dir fs = Some l → NoDup l → Forall (dead_owner fs) l → l ≠ [] →
  run_alone (3 * length l) pid waits (at_check l) fs = Some (at_check [], fs<|lk_dir := None|>).
Proof.
  revert fs. induction l as [|e l IH]; intros fs El Hnd Hl Hne; [done|].
  apply NoDup_cons in Hnd as [He Hnd]. apply Forall_cons in Hl as [Hd Hl].
  destruct e as [p t|x]; [|done]. replace (3 * length (owned p t :: l)) with (3 + 3 * length l) by (simpl; lia).
  assert (Hrm : remove_entry (owned p t) (owned p t :: l) = l).
  { unfold remove_entry. rewrite filter_cons_False by tauto. by apply remove_absent. }
  set (fs1 := fs<|lk_dir := Some l|>). set (fs2 := rmdir fs1).
  rewrite (run_alone_plus 3 _ pid waits _ fs (at_check l) fs2).
  - destruct l as [|e' l]; [done|]. assert (fs2 = fs1) as -> by done. by rewrite (IH fs1).
  - simpl. rewrite El. simpl. rewrite bool_decide_eq_true_2 by (by left). simpl. rewrite bool_decide_eq_true_2 by done.
    simpl. unfold unlink. rewrite El, Hrm. done.
Qed.

(** Getting rid of what dead owners left, up to the next [mkdir]. *)
Lemma clears_dead pid fs l :
  lk_dir fs = Some l → NoDup l → Forall (dead_owner fs) l →
  run_alone (3 * length l + 4) pid waits at_mkdir fs = Some (at_mkdir, fs<|lk_dir := None|>).
Proof.
  intros El Hnd Hl. destruct l as [|e l].
  - simpl. rewrite El. simpl. rewrite El. simpl. unfold rmdir. by rewrite El.
  - replace (3 * length (e :: l) + 4) with (2 + (3 * length (e :: l) + 2)) by lia.
    rewrite (run_alone_plus 2 _ pid waits at_mkdir fs (at_check (e :: l)) fs); [|simpl; rewrite El; simpl; by rewrite El].
    rewrite (run_alone_plus _ 2 pid waits _ fs _ _ (reaps_dead pid fs (e :: l) El Hnd Hl ltac:(done))). done.
Qed.

(** Where every file of the lock directory belongs to a process that has
    died, an attempt running alone removes them, makes the directory anew and
    holds the lock, within three calls a file and seven more; its own file is
    then the only one. *)
Theorem crashed_lock_is_recovered pid fs :
  NoDup (files fs) → Forall (dead_owner fs) (files fs) →
  ∃ n fs', n <= 3 * length (files fs) + 7 ∧
    run_alone n pid waits at_mkdir fs = Some (at_held (lk_nonce fs), fs') ∧
    lk_dir fs' = Some [owned pid (lk_nonce fs)].
Proof.
  unfold files. intros Hnd Hl. destruct (lk_dir fs) as [l|] eqn:El; simpl in *.
  - exists (3 * length l + 4 + 3). eexists. split_and!; [lia| |].
    + rewrite (run_alone_plus _ 3 pid waits at_mkdir fs _ _ (clears_dead pid fs l El Hnd Hl)).
      by rewrite (acquires_free pid (fs<|lk_dir := None|>)).
    + done.
  - exists 3. eexists. split_and!; [lia|by apply acquires_free|done].
Qed.

Lemma crashed_lock_is_recovered_witness :
  ∃ n fs', n <= 10 ∧ run_alone n 2 waits at_mkdir lock_left = Some (at_held 1, fs') ∧ lk_dir fs' = Some [owned 2 1].
Proof.
  exact (crashed_lock_is_recovered 2 lock_left ltac:(apply (bool_decide_unpack _); vm_compute; exact I)
    ltac:(vm_compute; repeat constructor)).
Defined.
