(* ===== verification/DeferStore.v ===== *)
(** * Deferral at a session limit

    [session-limit-defer.ts] of the agent manager: when an agent's CLI account has
    hit its session limit, dispatches to the agent are not started but kept, one
    intent for each ticket and role, and replayed when the limit resets.  The
    store is mirrored to a file.  A replay awaits its handler, so between two
    stretches of code dispatches arrive, tickets move, harnesses end and the
    manager may die.

    Every write of the file succeeds here.  The source catches a write or a rename
    that fails, logs it and goes on with what it has in memory; a manager that died
    after that would leave an older file, and what is proved of a restart does not
    speak of it. *)

From S2P Require Import Prelude JsStd Json.
#[local] Open Scope Z_scope.

Definition SESSION_LIMIT_REASON : string := "session_limit".
Definition DEFAULT_SESSION_DEFER_MS : Z := 30 * 60000.
Definition MAX_SESSION_DEFER_MS : Z := 6 * 60 * 60000.

Definition resolveDeferUntil (nowMs : Z) (parsedResetAtMs : option Z) : Z :=
  let floor := nowMs + 60000 in
  let ceil := nowMs + MAX_SESSION_DEFER_MS in
  let target :=
    match parsedResetAtMs with
    | Some r => if nowMs <? r then r else nowMs + DEFAULT_SESSION_DEFER_MS
    | None => nowMs + DEFAULT_SESSION_DEFER_MS
    end in
  Z.max floor (Z.min target ceil).

(** ** Intents and windows *)

Inductive SessionDeferIntentKind : Type := trigger | mention.
Inductive SessionDeferIntentStatus : Type := pending | dispatching.

#[export] Instance SessionDeferIntentKind_eq_dec : EqDecision SessionDeferIntentKind.
Proof. solve_decision. Defined.
#[export] Instance SessionDeferIntentStatus_eq_dec : EqDecision SessionDeferIntentStatus.
Proof. solve_decision. Defined.

(** Its [key] is the one it is kept under. *)
Record SessionDeferIntent := {
  si_raw : string;
  si_ticketId : string;
  si_role : string;
  si_agentId : string;
  si_firstAtMs : Z;
  si_kind : SessionDeferIntentKind;
  si_status : SessionDeferIntentStatus;
  si_spawnedPid : option Z
}.

(** Its [agentId] is the one it is kept under. *)
Record AgentDeferRecord := {
  ar_deferUntilMs : Z;
  ar_reason : string;
  ar_resetLabel : string;
  ar_sinceMs : Z;
  ar_intents : list (string * SessionDeferIntent)
}.

Definition Agents : Type := list (string * AgentDeferRecord).

Record InflightDispatchMeta := { im_ticketId : string; im_role : string; im_agentId : string }.

(** [InflightDispatchTracker.key] *)
Definition dispatch_key (ticketId role agentId : string) : string :=
  ticketId +:+ ":" +:+ (if truthy role then role else "_") +:+ ":" +:+ (if truthy agentId then agentId else "_").

(** ** The file *)

Definition kind_json (k : SessionDeferIntentKind) : jsval :=
  JStr (match k with trigger => "trigger" | mention => "mention" end).
Definition status_json (s : SessionDeferIntentStatus) : jsval :=
  JStr (match s with pending => "pending" | dispatching => "dispatching" end).
Definition pid_json (p : option Z) : jsval := match p with Some z => JNum (JInt z) | None => JNull end.

Definition intent_json (it : SessionDeferIntent) : jsval :=
  JObj [("raw", JStr (si_raw it)); ("ticketId", JStr (si_ticketId it)); ("role", JStr (si_role it));
        ("agentId", JStr (si_agentId it)); ("firstAtMs", JNum (JInt (si_firstAtMs it)));
        ("kind", kind_json (si_kind it)); ("status", status_json (si_status it));
        ("spawnedPid", pid_json (si_spawnedPid it))].

Definition record_json (rec : AgentDeferRecord) : jsval :=
  JObj [("deferUntilMs", JNum (JInt (ar_deferUntilMs rec))); ("reason", JStr (ar_reason rec));
        ("resetLabel", JStr (ar_resetLabel rec)); ("sinceMs", JNum (JInt (ar_sinceMs rec)));
        ("intents", JObj (List.map (prod_map id intent_json) (ar_intents rec)))].

(** The value [#persist] writes.  An agent's id and an intent's key are no array
    indices, so the properties keep their order. *)
Definition agents_json (l : Agents) : jsval :=
  JObj [("version", JNum (JInt 2)); ("agents", JObj (List.map (prod_map id record_json) l))].

Section load.
(** [Number(v)] of a value that is not an integer, where it is a whole number. *)
Context (other_number : jsval → Z).

Definition live_pid (p : option Z) : option Z := p ≫= λ z, if 1 <? z then Some z else None.

Definition is_str (v : jsval) (s : string) : bool := match v with JStr t => String.eqb t s | _ => false end.

Definition load_intent (now : Z) (agentId : string) (v : jsval) : option SessionDeferIntent :=
  match prop v "raw" with
  | JStr raw =>
      Some {| si_raw := raw;
              si_ticketId := js_String (nullish_or (prop v "ticketId") (JStr ""));
              si_role := js_String (nullish_or (prop v "role") (JStr ""));
              si_agentId := js_String (nullish_or (prop v "agentId") (JStr agentId));
              si_firstAtMs := number_or other_number (prop v "firstAtMs") now;
              si_kind := if is_str (prop v "kind") "mention" then mention else trigger;
              si_status := if is_str (prop v "status") "dispatching" then dispatching else pending;
              si_spawnedPid := live_pid (typeof_number other_number (prop v "spawnedPid")) |}
  | _ => None
  end.

Definition entries_of (v : jsval) : list (string * jsval) := if is_object v then object_entries v else [].

(** The loop over the file's entries, one [Map] of those that can be read. *)
Definition load_map {A} (read : string → jsval → option A) (v : jsval) : list (string * A) :=
  foldl (λ m e, match read e.1 e.2 with Some x => JMap.set m e.1 x | None => m end) [] (entries_of v).

Definition load_record (now : Z) (agentId : string) (v : jsval) : option AgentDeferRecord :=
  if negb (truthy agentId) then None
  else
    deferUntilMs ← typeof_number other_number (prop v "deferUntilMs");
    Some {| ar_deferUntilMs := deferUntilMs;
            ar_reason := js_String (nullish_or (prop v "reason") (JStr SESSION_LIMIT_REASON));
            ar_resetLabel := js_String (nullish_or (prop v "resetLabel") (JStr ""));
            ar_sinceMs := number_or other_number (prop v "sinceMs") now;
            ar_intents := load_map (λ _, load_intent now agentId) (prop v "intents") |}.

Definition load_agents (now : Z) (raw : jsval) : Agents := load_map (load_record now) (prop raw "agents").
End load.

(** ** The store *)

(** A replay that awaits its handler.  The handler was wired when the store was
    made; the intent is the one under its key, as callers add an intent under its
    own agent. *)
Record Replay := { rp_agent : string; rp_key : string }.

Record Store := {
  ds_byAgent : Agents;
  ds_inFlightReplay : list string;
  ds_bootDispatching : list string;
  (** [#timerAtMs], where a timer is armed. *)
  ds_timer : option Z;
  (** The file, as the value it parses to. *)
  ds_file : option jsval;
  ds_replays : list Replay;
  (** The harnesses that replays have reported for intents still in the store and
      that have neither ended nor been told to: the intent's key, the pid, and
      whether it was this manager that spawned it. *)
  ds_harnesses : list (string * Z * bool)
}.

(** [#persist], where neither the write nor the rename fails. *)
Definition persist (s : Store) : Store := s<|ds_file := Some (json (agents_json (ds_byAgent s)))|>.

Definition remove (k : string) (l : list string) : list string := lfilter (λ x, negb (String.eqb x k)) l.

Definition is_due (now : Z) (rec : AgentDeferRecord) : bool := ar_deferUntilMs rec <=? now.

(** An intent of an expired window that no replay has been started for. *)
Definition undrained (inFlight : list string) (rec : AgentDeferRecord) : bool :=
  lsome (λ k, negb (includes inFlight k)) (JMap.keys (ar_intents rec)).

Definition earlier (now : Z) (best : option Z) (x : string * AgentDeferRecord) : option Z :=
  if is_due now x.2 then best
  else
    match best with
    | Some b => if ar_deferUntilMs x.2 <? b then Some (ar_deferUntilMs x.2) else best
    | None => Some (ar_deferUntilMs x.2)
    end.
Definition min_future (now : Z) (l : Agents) : option Z := foldl (earlier now) None l.

(** [#arm()]: nothing when the timer is already the one wanted. *)
Definition arm (now : Z) (s : Store) : Store :=
  let immediate := lsome (λ x, is_due now x.2 && undrained (ds_inFlightReplay s) x.2) (ds_byAgent s) in
  s<|ds_timer := if immediate then Some 0 else min_future now (ds_byAgent s)|>.

(** ** Operations *)

Definition recordSessionLimit (agentId : string) (deferUntilMs : Z) (reason resetLabel : option string) (now : Z) (s : Store)
    : Store * bool :=
  if negb (truthy agentId) then (s, false)
  else if deferUntilMs <=? now then (s, false)
  else
    match JMap.get (ds_byAgent s) agentId with
    | Some existing =>
        if ar_deferUntilMs existing <? deferUntilMs then
          let rec := existing<|ar_deferUntilMs := deferUntilMs|><|ar_reason := default (ar_reason existing) reason|>
                     <|ar_resetLabel := default (ar_resetLabel existing) resetLabel|> in
          (arm now (persist (s<|ds_byAgent ::= λ m, JMap.set m agentId rec|>)), false)
        else (s, false)
    | None =>
        let rec := {| ar_deferUntilMs := deferUntilMs; ar_reason := default SESSION_LIMIT_REASON reason;
                      ar_resetLabel := default "" resetLabel; ar_sinceMs := now; ar_intents := [] |} in
        (arm now (persist (s<|ds_byAgent ::= λ m, JMap.set m agentId rec|>)), true)
    end.

(** [isDeferred] *)
Definition isDeferred (agentId : string) (now : Z) (s : Store) : bool :=
  match JMap.get (ds_byAgent s) agentId with
  | Some rec => truthy agentId && negb (is_due now rec)
  | None => false
  end.

(** A repeat refreshes the intent; a trigger is never taken back to a mention. *)
Definition coalesce (kind : SessionDeferIntentKind) (raw : string) (existing : SessionDeferIntent) : SessionDeferIntent :=
  match kind, si_kind existing with
  | trigger, _ => existing<|si_kind := trigger|><|si_raw := raw|>
  | mention, mention => existing<|si_raw := raw|>
  | mention, trigger => existing
  end.

Definition put_intent (agentId key : string) (it : SessionDeferIntent) (l : Agents) : Agents :=
  JMap.update l agentId (λ rec, rec<|ar_intents ::= λ m, JMap.set m key it|>).

Definition addPendingIntent (agentId : string) (meta : InflightDispatchMeta) (raw : string) (kind : SessionDeferIntentKind)
    (now : Z) (s : Store) : Store * bool :=
  match JMap.get (ds_byAgent s) agentId with
  | None => (s, false)
  | Some rec =>
      if negb (truthy agentId) || is_due now rec then (s, false)
      else
        let key := dispatch_key (im_ticketId meta) (im_role meta) (im_agentId meta) in
        match JMap.get (ar_intents rec) key with
        | Some existing => (persist (s<|ds_byAgent ::= put_intent agentId key (coalesce kind raw existing)|>), false)
        | None =>
            let it := {| si_raw := raw; si_ticketId := im_ticketId meta; si_role := im_role meta;
                         si_agentId := im_agentId meta; si_firstAtMs := now; si_kind := kind;
                         si_status := pending; si_spawnedPid := None |} in
            (persist (s<|ds_byAgent ::= put_intent agentId key it|>), true)
        end
  end.

Definition of_ticket (ticketId : string) (x : string * SessionDeferIntent) : bool := String.eqb (si_ticketId x.2) ticketId.

(** The keys [cancelByTicket] removes. *)
Definition cancelled (ticketId : string) (l : Agents) : list string :=
  List.flat_map (λ x, JMap.keys (lfilter (of_ticket ticketId) (ar_intents x.2))) l.

Definition without_ticket (ticketId : string) (l : Agents) : Agents :=
  List.map (λ x, (x.1, x.2<|ar_intents ::= lfilter (λ e, negb (of_ticket ticketId e))|>)) l.

(** Keys forgotten by the bookkeeping of replays, and what they spawned. *)
Definition forget (ks : list string) (s : Store) : Store :=
  s<|ds_inFlightReplay ::= lfilter (λ k, negb (includes ks k))|>
   <|ds_bootDispatching ::= lfilter (λ k, negb (includes ks k))|>
   <|ds_harnesses ::= lfilter (λ h, negb (includes ks h.1.1))|>.

Definition cancelByTicket (ticketId : string) (s : Store) : Store :=
  if negb (truthy ticketId) then s
  else
    match cancelled ticketId (ds_byAgent s) with
    | [] => s
    | ks => persist (forget ks (s<|ds_byAgent ::= without_ticket ticketId|>))
    end.

Definition clear (agentId : string) (now : Z) (s : Store) : Store :=
  if negb (truthy agentId) then s
  else
    match JMap.get (ds_byAgent s) agentId with
    | None => s
    | Some rec =>
        arm now (persist (forget (JMap.keys (ar_intents rec))
          (s<|ds_byAgent ::= lfilter (λ x, negb (String.eqb x.1 agentId))|>)))
    end.

(** ** Replays *)

(** The loops of [#fire]: what they make of one window's intents, and of all. *)
Fixpoint drain_intents (agentId : string) (inFlight : list string) (l : list (string * SessionDeferIntent))
    : list (string * SessionDeferIntent) * list string * list Replay :=
  match l with
  | [] => ([], inFlight, [])
  | (k, it) :: l =>
      if includes inFlight k then
        let '(l', inFlight', rs) := drain_intents agentId inFlight l in ((k, it) :: l', inFlight', rs)
      else
        let '(l', inFlight', rs) := drain_intents agentId (inFlight ++ [k]) l in
        ((k, it<|si_status := dispatching|>) :: l', inFlight', {| rp_agent := si_agentId it; rp_key := k |} :: rs)
  end.

Fixpoint drain (now : Z) (inFlight : list string) (l : Agents) : Agents * list string * list Replay :=
  match l with
  | [] => ([], inFlight, [])
  | (a, rec) :: l =>
      if is_due now rec then
        let '(its, inFlight1, rs) := drain_intents a inFlight (ar_intents rec) in
        let '(l', inFlight2, rs') := drain now inFlight1 l in
        ((a, rec<|ar_intents := its|>) :: l', inFlight2, rs ++ rs')
      else let '(l', inFlight', rs) := drain now inFlight l in ((a, rec) :: l', inFlight', rs)
  end.

Definition intent_at (agentId key : string) (l : Agents) : option SessionDeferIntent :=
  rec ← JMap.get l agentId; JMap.get (ar_intents rec) key.

Definition set_pid (agentId key : string) (pid : option Z) (l : Agents) : Agents :=
  JMap.update l agentId (λ rec, rec<|ar_intents ::= λ m, JMap.update m key (λ it, it<|si_spawnedPid := pid|>)|>).

(** [#replayOne] up to its await: a harness that outlived the last manager is
    ended before the handler is called. *)
Definition replayOne (r : Replay) (s : Store) : Store :=
  let s1 := s<|ds_bootDispatching ::= remove (rp_key r)|><|ds_replays ::= λ l, l ++ [r]|> in
  match intent_at (rp_agent r) (rp_key r) (ds_byAgent s) ≫= si_spawnedPid with
  | Some pid =>
      if includes (ds_bootDispatching s) (rp_key r) then
        s1<|ds_byAgent ::= set_pid (rp_agent r) (rp_key r) None|>
          <|ds_harnesses ::= lfilter (λ h, negb (h.1.2 =? pid))|>
      else s1
  | None => s1
  end.

(** [#fire()], with the replays it starts. *)
Definition fire (now : Z) (s : Store) : Store * list Replay :=
  let '(l, inFlight, rs) := drain now (ds_inFlightReplay s) (ds_byAgent s) in
  let s1 := s<|ds_timer := None|><|ds_byAgent := l|><|ds_inFlightReplay := inFlight|> in
  let s2 := match rs with [] => s1 | _ => persist s1 end in
  (foldl (λ s r, replayOne r s) (arm now s2) rs, rs).

(** [onSpawned(pid)] *)
Definition onSpawned (r : Replay) (pid : option Z) (s : Store) : Store :=
  match intent_at (rp_agent r) (rp_key r) (ds_byAgent s) with
  | Some it =>
      match si_status it with
      | dispatching => persist (s<|ds_byAgent ::= set_pid (rp_agent r) (rp_key r) (live_pid pid)|>)
      | pending => s
      end
  | None => s
  end.

Definition drop_intent (key : string) (rec : AgentDeferRecord) : AgentDeferRecord :=
  rec<|ar_intents ::= lfilter (λ e, negb (String.eqb e.1 key))|>.

Definition ackIntent (r : Replay) (now : Z) (s : Store) : Store :=
  let s1 := forget [rp_key r] s in
  let emptied (x : string * AgentDeferRecord) :=
    String.eqb x.1 (rp_agent r) && bool_decide (ar_intents x.2 = []) && is_due now x.2 in
  persist (s1<|ds_byAgent ::= λ l, lfilter (λ x, negb (emptied x)) (JMap.update l (rp_agent r) (drop_intent (rp_key r)))|>).

(** The handler of the [i]-th replay resolves, with a pid of its own or without,
    or throws. *)
Definition replay_ended (i : nat) (s : Store) : Store := s<|ds_replays ::= λ l, take i l ++ drop (S i) l|>.

Definition replay_resolved (i : nat) (result : option (option Z)) (now : Z) (s : Store) : Store :=
  match ds_replays s !! i with
  | Some r => ackIntent r now (match result with Some pid => onSpawned r pid (replay_ended i s) | None => replay_ended i s end)
  | None => s
  end.

(** The handler spawns a harness and reports it. *)
Definition replay_spawns (i : nat) (pid : Z) (s : Store) : Store :=
  match ds_replays s !! i with
  | Some r => onSpawned r (Some pid) (s<|ds_harnesses ::= λ l, (rp_key r, pid, true) :: l|>)
  | None => s
  end.

(** ** A manager's life *)

(** What [load()] finds in the file of a manager that died. *)
Definition survivors (l : Agents) : list string :=
  List.flat_map (λ x, omap (λ e, match si_status e.2, si_spawnedPid e.2 with
                                 | dispatching, Some _ => Some e.1
                                 | _, _ => None
                                 end) (ar_intents x.2)) l.

Definition load (other_number : jsval → Z) (now : Z) (s : Store) : Store :=
  let l := match ds_file s with Some raw => load_agents other_number now raw | None => [] end in
  arm now {| ds_byAgent := l; ds_inFlightReplay := []; ds_bootDispatching := new_Set (survivors l); ds_timer := None;
             ds_file := ds_file s; ds_replays := [];
             ds_harnesses := List.map (λ h, (h.1, false)) (ds_harnesses s) |}.

Definition empty_store : Store :=
  {| ds_byAgent := []; ds_inFlightReplay := []; ds_bootDispatching := []; ds_timer := None; ds_file := None;
     ds_replays := []; ds_harnesses := [] |}.

(** ** Histories *)

Inductive command : Type :=
  | d_limit (agentId : string) (deferUntilMs : Z) (reason resetLabel : option string) (now : Z)
  | d_add (agentId : string) (meta : InflightDispatchMeta) (raw : string) (kind : SessionDeferIntentKind) (now : Z)
  | d_cancel (ticketId : string)
  | d_clear (agentId : string) (now : Z)
  (** The timer, where it is armed for then. *)
  | d_tick (now : Z)
  | d_spawn (i : nat) (pid : Z)
  | d_resolve (i : nat) (result : option (option Z)) (now : Z)
  | d_throw (i : nat)
  (** A harness ends by itself. *)
  | d_exit (pid : Z)
  (** The manager dies and the next one loads the file. *)
  | d_restart (now : Z).

(** What a history shows: a new intent, and the start of a replay. *)
Inductive Happening : Type := created (key : string) | started (key : string).

#[export] Instance Happening_eq_dec : EqDecision Happening.
Proof. solve_decision. Defined.

Definition ticks (now : Z) (s : Store) : bool := match ds_timer s with Some t => t <=? now | None => false end.

Section histories.
Context (other_number : jsval → Z).

Definition step_store (c : command) (s : Store) : Store * list Happening :=
  match c with
  | d_limit a until reason label now => (fst (recordSessionLimit a until reason label now s), [])
  | d_add a meta raw kind now =>
      let '(s', fresh) := addPendingIntent a meta raw kind now s in
      (s', if fresh then [created (dispatch_key (im_ticketId meta) (im_role meta) (im_agentId meta))] else [])
  | d_cancel t => (cancelByTicket t s, [])
  | d_clear a now => (clear a now s, [])
  | d_tick now =>
      if ticks now s then let '(s', rs) := fire now s in (s', List.map (λ r, started (rp_key r)) rs) else (s, [])
  | d_spawn i pid => (replay_spawns i pid s, [])
  | d_resolve i result now => (replay_resolved i result now s, [])
  | d_throw i => (replay_ended i s, [])
  | d_exit pid => (s<|ds_harnesses ::= lfilter (λ h, negb (h.1.2 =? pid))|>, [])
  | d_restart now => (load other_number now s, [])
  end.

Fixpoint run_store (cs : list command) (s : Store) : Store * list Happening :=
  match cs with
  | [] => (s, [])
  | c :: cs =>
      let '(s1, es1) := step_store c s in
      let '(s2, es2) := run_store cs s1 in (s2, es1 ++ es2)
  end.

(** The clock after a command. *)
Definition clock (t : Z) (c : command) : Z :=
  match c with
  | d_limit _ _ _ _ now | d_add _ _ _ _ now | d_clear _ now | d_tick now | d_resolve _ _ now | d_restart now => now
  | d_cancel _ | d_spawn _ _ | d_throw _ | d_exit _ => t
  end.

Definition no_colon (s : string) : bool := all_chars (λ c, negb (Ascii.eqb c ":")) s.

(** What the store's callers see to: agents are named by UUIDs, an intent is
    added under its own agent, nothing is withdrawn while its replay runs, and a
    handler spawns nothing where this manager already runs a harness. *)
Definition orderly_call (c : command) (s : Store) : Prop :=
  match c with
  | d_limit a _ _ _ _ => no_colon a = true
  | d_add a meta _ _ _ => im_agentId meta = a
  | d_cancel t =>
      ∀ r it, r ∈ ds_replays s → intent_at (rp_agent r) (rp_key r) (ds_byAgent s) = Some it → si_ticketId it ≠ t
  | d_clear a _ => ∀ r, r ∈ ds_replays s → rp_agent r ≠ a
  | d_spawn i pid => 1 < pid ∧ ∀ r p, ds_replays s !! i = Some r → (rp_key r, p, true) ∉ ds_harnesses s
  | _ => True
  end.

Fixpoint orderly (t : Z) (cs : list command) (s : Store) : Prop :=
  match cs with
  | [] => True
  | c :: cs => (t <= clock t c ∧ orderly_call c s) ∧ orderly (clock t c) cs (fst (step_store c s))
  end.

Fixpoint clocks (t : Z) (cs : list command) : Z :=
  match cs with [] => t | c :: cs => clocks (clock t c) cs end.
End histories.
