(* ===== verification/DeferFacts.v ===== *)
(** * What the deferral store promises

    The file reads back as the windows and intents in memory; an intent is
    replayed at most once by a manager, and its timer is armed until it is; and
    of the harnesses spawned for an intent at most one is left running,
    whenever the manager dies. *)

From S2P Require Import Prelude JsStd Json DeferStore.
#[local] Open Scope Z_scope.

(** ** Keys name their agents *)

Lemma colon_in_suffix p a : no_colon (p +:+ String ":" a) = false.
Proof. unfold no_colon. induction p as [|c p IH]; [done|]. simpl. rewrite IH. apply andb_false_r. Qed.

Lemma last_colon p q a b :
  no_colon a = true → no_colon b = true → p +:+ String ":" a = q +:+ String ":" b → a = b.
Proof.
  intros Ha Hb. revert q. induction p as [|c p IH]; intros [|d q].
  - by intros [= ->].
  - intros [= <- ->]. by rewrite colon_in_suffix in Ha.
  - intros [= -> <-]. by rewrite colon_in_suffix in Hb.
  - intros [= _ H]. by apply (IH q).
Qed.

Lemma string_app_assoc (a b c : string) : (a +:+ b) +:+ c = a +:+ (b +:+ c).
Proof. induction a as [|x a IH]; [done|]. exact (f_equal (String x) IH). Qed.

(** A key of an agent: its last part is the agent's id. *)
Definition key_of (a k : string) : Prop := ∃ p, k = p +:+ String ":" a.

Lemma dispatch_key_of t r a : truthy a = true → key_of a (dispatch_key t r a).
Proof.
  intros Ha. unfold dispatch_key. rewrite Ha. exists (t +:+ ":" +:+ (if truthy r then r else "_")).
  by rewrite !string_app_assoc.
Qed.

Lemma key_agent a b k : no_colon a = true → no_colon b = true → key_of a k → key_of b k → a = b.
Proof. intros Ha Hb [p ->] [q H]. by apply (last_colon p q). Qed.

(** ** The file *)

Lemma load_map_json {A} (read : string → jsval → option A) (write : A → jsval) l :
  NoDup (JMap.keys l) → (∀ k x, (k, x) ∈ l → read k (json (write x)) = Some x ∧ is_undefined (write x) = false) →
  load_map read (json (JObj (List.map (prod_map id write) l))) = l.
Proof.
  intros Hnd Hl. unfold load_map, entries_of. simpl.
  assert (Hj : List.flat_map (λ '(k, x), if is_undefined x then [] else [(k, json x)]) (List.map (prod_map id write) l)
               = List.map (λ e, (e.1, json (write e.2))) l).
  { clear Hnd. induction l as [|[k x] l IH]; [done|]. simpl.
    rewrite (proj2 (Hl k x (list_elem_of_here _ _))). simpl. f_equal. apply IH. intros k' x' H. apply Hl. by right. }
  rewrite Hj. clear Hj. assert (Hgo : ∀ acc, NoDup (JMap.keys acc ++ JMap.keys l) →
    foldl (λ m e, match read e.1 e.2 with Some x => JMap.set m e.1 x | None => m end) acc
      (List.map (λ e, (e.1, json (write e.2))) l) = acc ++ l).
  { induction l as [|[k x] l IH]; intros acc Hacc; simpl; [by rewrite app_nil_r|].
    rewrite (proj1 (Hl k x (list_elem_of_here _ _))). rewrite JMap.set_absent.
    - rewrite IH; [by rewrite <- app_assoc|by apply NoDup_cons in Hnd as [_ ?]|intros k' x' H; apply Hl; by right|].
      unfold JMap.keys in *. rewrite List.map_app, <- app_assoc. exact Hacc.
    - apply JMap.get_None_keys. simpl in Hacc. apply NoDup_app in Hacc as (_ & Hd & _). intros Hin.
      apply (Hd _ Hin). by left. }
  by rewrite (Hgo []).
Qed.

Record intent_ok (a k : string) (it : SessionDeferIntent) : Prop := {
  io_agent : si_agentId it = a;
  io_key : key_of a k;
  io_first : 0 < si_firstAtMs it;
  io_pid p : si_spawnedPid it = Some p → 1 < p
}.

Record record_ok (a : string) (rec : AgentDeferRecord) : Prop := {
  ro_truthy : truthy a = true;
  ro_colon : no_colon a = true;
  ro_until : 0 < ar_deferUntilMs rec;
  ro_since : 0 < ar_sinceMs rec;
  ro_keys : NoDup (JMap.keys (ar_intents rec));
  ro_intents k it : (k, it) ∈ ar_intents rec → intent_ok a k it
}.

Record agents_ok (l : Agents) : Prop := {
  ao_keys : NoDup (JMap.keys l);
  ao_records a rec : (a, rec) ∈ l → record_ok a rec
}.

Lemma live_pid_ok it : (∀ p, si_spawnedPid it = Some p → 1 < p) → live_pid (si_spawnedPid it) = si_spawnedPid it.
Proof.
  intros H. destruct (si_spawnedPid it) as [p|]; [|done]. unfold live_pid. simpl.
  by rewrite (proj2 (Z.ltb_lt 1 p) (H p eq_refl)).
Qed.

Section roundtrip.
Context (f : jsval → Z).

Lemma load_intent_json now a k it : intent_ok a k it → load_intent f now a (json (intent_json it)) = Some it.
Proof.
  intros [Ha _ Ht Hp]. pose proof (live_pid_ok it Hp) as Hl. destruct it as [raw t r ag at_ kd st pid]. simpl in *.
  unfold load_intent, intent_json. simpl. rewrite number_or_int by lia.
  destruct kd, st, pid as [p|]; simpl in *; by rewrite ?Hl.
Qed.

Lemma load_record_json now a rec : record_ok a rec → load_record f now a (json (record_json rec)) = Some rec.
Proof.
  intros [Ha _ _ Hs Hnd Hi]. destruct rec as [until reason label since its]. simpl in *.
  assert (Hm : load_map (λ _, load_intent f now a) (json (JObj (List.map (prod_map id intent_json) its))) = its).
  { apply load_map_json; [done|]. intros k it Hk. split; [by apply (load_intent_json now a k), Hi|done]. }
  unfold load_record. rewrite Ha. simpl in *. by rewrite Hm, number_or_int by lia.
Qed.

Lemma load_agents_json now l : agents_ok l → load_agents f now (json (agents_json l)) = l.
Proof.
  intros [Hnd Hr]. apply (load_map_json (load_record f now) record_json l Hnd). intros a rec Hin. split; [by apply load_record_json, Hr|done].
Qed.
End roundtrip.

(** ** Looking intents up *)

Lemma intent_at_Some a k l it : intent_at a k l = Some it ↔ ∃ rec, JMap.get l a = Some rec ∧ JMap.get (ar_intents rec) k = Some it.
Proof. unfold intent_at. rewrite bind_Some. done. Qed.

Lemma get_record_ok l a rec : agents_ok l → JMap.get l a = Some rec → record_ok a rec.
Proof. intros Hl Hg. by apply (ao_records l Hl), JMap.get_Some_elem. Qed.

Lemma intent_at_ok l a k it : agents_ok l → intent_at a k l = Some it → intent_ok a k it.
Proof.
  intros Hl (rec & Hr & Hk)%intent_at_Some. apply (ro_intents a rec); [by apply (get_record_ok l)|by apply JMap.get_Some_elem].
Qed.

(** A key is that of one agent's intent. *)
Lemma intent_at_agent l a b k it it' :
  agents_ok l → intent_at a k l = Some it → intent_at b k l = Some it' → a = b.
Proof.
  intros Hl Ha Hb. pose proof (intent_at_ok _ _ _ _ Hl Ha) as [_ Hka _ _]. pose proof (intent_at_ok _ _ _ _ Hl Hb) as [_ Hkb _ _].
  apply intent_at_Some in Ha as (ra & Ha & _), Hb as (rb & Hb & _).
  by apply (key_agent a b k); [apply (ro_colon a ra), (get_record_ok l)|apply (ro_colon b rb), (get_record_ok l)|..].
Qed.

(** Changing one record. *)
Lemma agents_ok_update l a g :
  agents_ok l → (∀ rec, JMap.get l a = Some rec → record_ok a rec → record_ok a (g rec)) → agents_ok (JMap.update l a g).
Proof.
  intros [Hnd Hr] Hg. split; [by rewrite JMap.keys_update|]. intros b rec Hin.
  apply JMap.elem_get in Hin; [|by rewrite JMap.keys_update]. rewrite JMap.get_update in Hin.
  destruct (String.eqb a b) eqn:E.
  - apply String.eqb_eq in E as <-. destruct (JMap.get l a) as [r|] eqn:Hb; [|done]. injection Hin as <-.
    apply Hg; [done|]. by apply Hr, JMap.get_Some_elem.
  - by apply Hr, JMap.get_Some_elem.
Qed.

Lemma agents_ok_set l a rec : agents_ok l → record_ok a rec → agents_ok (JMap.set l a rec).
Proof.
  intros [Hnd Hr] Hrec. split; [by apply JMap.NoDup_keys_set|]. intros b r Hin.
  apply JMap.elem_get in Hin; [|by apply JMap.NoDup_keys_set]. destruct (decide (a = b)) as [<-|Hne].
  - rewrite JMap.get_set_eq in Hin. by injection Hin as <-.
  - rewrite JMap.get_set_ne in Hin by done. by apply Hr, JMap.get_Some_elem.
Qed.

Lemma agents_ok_lfilter l p : agents_ok l → agents_ok (lfilter p l).
Proof.
  intros [Hnd Hr]. split; [by apply JMap.keys_lfilter|]. intros a rec [Hin _]%elem_of_lfilter. by apply Hr.
Qed.

Lemma intent_at_update l a g b k :
  intent_at b k (JMap.update l a g) =
    if String.eqb a b then JMap.get l a ≫= λ rec, JMap.get (ar_intents (g rec)) k else intent_at b k l.
Proof.
  unfold intent_at. rewrite JMap.get_update. destruct (String.eqb a b) eqn:E; [|done].
  apply String.eqb_eq in E as ->. by destruct (JMap.get l b).
Qed.

Lemma intent_at_set l a rec b k :
  intent_at b k (JMap.set l a rec) = if String.eqb a b then JMap.get (ar_intents rec) k else intent_at b k l.
Proof.
  unfold intent_at. destruct (String.eqb a b) eqn:E.
  - apply String.eqb_eq in E as ->. by rewrite JMap.get_set_eq.
  - apply String.eqb_neq in E. by rewrite JMap.get_set_ne.
Qed.

(** ** The drain, declaratively *)

Definition dispatched (inFlight : list string) (e : string * SessionDeferIntent) : string * SessionDeferIntent :=
  if includes inFlight e.1 then e else (e.1, e.2<|si_status := dispatching|>).

Definition replays_of (inFlight : list string) (l : list (string * SessionDeferIntent)) : list Replay :=
  List.map (λ e, {| rp_agent := si_agentId e.2; rp_key := e.1 |}) (lfilter (λ e, negb (includes inFlight e.1)) l).

Definition marked (now : Z) (inFlight : list string) (x : string * AgentDeferRecord) : string * AgentDeferRecord :=
  if is_due now x.2 then (x.1, x.2<|ar_intents ::= List.map (dispatched inFlight)|>) else x.

Definition due_replays (now : Z) (inFlight : list string) (l : Agents) : list Replay :=
  List.flat_map (λ x, if is_due now x.2 then replays_of inFlight (ar_intents x.2) else []) l.

Lemma drain_intents_eq a inF l : ∀ extra,
  NoDup (extra ++ JMap.keys l) →
  drain_intents a (inF ++ extra) l =
    (List.map (dispatched inF) l, inF ++ extra ++ List.map rp_key (replays_of inF l), replays_of inF l).
Proof.
  induction l as [|[k it] l IH]; intros extra Hnd; simpl; [by rewrite app_nil_r|].
  assert (Hk : includes extra k = false).
  { apply includes_false. intros Hin. apply NoDup_app in Hnd as (_ & Hd & _). apply (Hd k Hin). by left. }
  rewrite includes_app, Hk, orb_false_r. unfold replays_of, dispatched. rewrite lfilter_cons. simpl.
  destruct (includes inF k) eqn:Ek; simpl.
  - rewrite IH; [done|]. simpl in Hnd. rewrite <- Permutation_middle in Hnd. by apply NoDup_cons in Hnd as [_ ?].
  - rewrite <- app_assoc, IH; [|by rewrite <- app_assoc]. by rewrite <- !app_assoc.
Qed.

Lemma agents_ok_tail x l : agents_ok (x :: l) → agents_ok l.
Proof. intros [Hnd Hr]. apply NoDup_cons in Hnd as [_ Hnd]. split; [done|]. intros b r Hb. apply Hr. by right. Qed.

(** Different agents' intents have different keys. *)
Lemma keys_apart a rec l b rec' k :
  agents_ok ((a, rec) :: l) → (b, rec') ∈ l → k ∈ JMap.keys (ar_intents rec) → k ∈ JMap.keys (ar_intents rec') → False.
Proof.
  intros [Hnd Hr] Hb (e & -> & He)%elem_of_map (e' & Hk & He')%elem_of_map.
  pose proof (Hr a rec (list_elem_of_here _ _)) as Ha. pose proof (Hr b rec' (list_elem_of_further _ _ _ Hb)) as Hb'.
  destruct e as [k it], e' as [k' it']. simpl in Hk. subst k'.
  assert (a = b) as ->.
  { apply (key_agent a b k); [apply Ha|apply Hb'|by apply (ro_intents a rec Ha) in He as []|by apply (ro_intents b rec' Hb') in He' as []]. }
  apply NoDup_cons in Hnd as [Hn _]. apply Hn, elem_of_map. by exists (b, rec').
Qed.

Lemma replays_of_keys inF l k : k ∈ List.map rp_key (replays_of inF l) ↔ k ∈ JMap.keys l ∧ k ∉ inF.
Proof.
  unfold replays_of, JMap.keys. rewrite List.map_map. rewrite !elem_of_map. split.
  - intros (e & -> & [He Hi]%elem_of_lfilter). apply negb_true_iff, includes_false in Hi. split; [by exists e|done].
  - intros [(e & -> & He) Hi]. exists e. split; [done|]. apply elem_of_lfilter. split; [done|]. by apply negb_true_iff, includes_false.
Qed.

Lemma replays_of_distinct inF l : NoDup (JMap.keys l) → NoDup (List.map rp_key (replays_of inF l)).
Proof. unfold replays_of. rewrite List.map_map. apply NoDup_map_lfilter. Qed.

Lemma drain_eq now inF l : ∀ extra,
  agents_ok l → NoDup extra → (∀ a rec k, (a, rec) ∈ l → k ∈ JMap.keys (ar_intents rec) → k ∉ extra) →
  drain now (inF ++ extra) l =
    (List.map (marked now inF) l, inF ++ extra ++ List.map rp_key (due_replays now inF l), due_replays now inF l).
Proof.
  induction l as [|[a rec] l IH]; intros extra Hl Hnd Hex; simpl; [by rewrite app_nil_r|].
  assert (Hl' := agents_ok_tail _ _ Hl). assert (Hks : NoDup (JMap.keys (ar_intents rec))).
  { apply (ro_keys a rec), (ao_records _ Hl). by left. }
  assert (Hout : ∀ k, k ∈ extra → k ∉ JMap.keys (ar_intents rec)).
  { intros k Hk Hka. by apply (Hex a rec k); [left|..]. }
  unfold marked at 1. simpl.
  destruct (is_due now rec).
  - rewrite drain_intents_eq.
    + rewrite IH; [by rewrite List.map_app, !app_assoc|done| |].
      * apply NoDup_app. split_and!; [done| |by apply replays_of_distinct].
        intros k Hk [Hka _]%replays_of_keys. by apply (Hout k).
      * intros b r k Hb Hk. rewrite elem_of_app, replays_of_keys.
        intros [Hin|[Hka _]]; [by apply (Hex b r k); [right|..]|by apply (keys_apart a rec l b r k)].
    + by apply NoDup_app.
  - rewrite IH; [done|done|done|]. intros b r k Hb. apply (Hex b r k). by right.
Qed.

Lemma due_replays_distinct now inF l : agents_ok l → NoDup (List.map rp_key (due_replays now inF l)).
Proof.
  induction l as [|[a rec] l IH]; intros Hl; simpl; [constructor|]. assert (Hl' := agents_ok_tail _ _ Hl).
  destruct (is_due now rec); [|by apply IH]. rewrite List.map_app. apply NoDup_app. split_and!; [|intros k|by apply IH].
  - apply replays_of_distinct, (ro_keys a rec), (ao_records _ Hl). by left.
  - intros [Hk _]%replays_of_keys (r & -> & Hr)%elem_of_map. apply list_elem_of_In, in_flat_map in Hr as ([b rec'] & Hb & Hr).
    apply list_elem_of_In in Hb. simpl in Hr. destruct (is_due now rec'); [|done]. apply list_elem_of_In, (elem_of_map_2 rp_key) in Hr.
    apply replays_of_keys in Hr as [Hr _]. by apply (keys_apart a rec l b rec' (rp_key r)).
Qed.

(** Which replays a tick starts. *)
Lemma elem_of_due_replays now inF l r :
  agents_ok l →
  r ∈ due_replays now inF l ↔
    ∃ rec, JMap.get l (rp_agent r) = Some rec ∧ is_due now rec = true ∧
           is_Some (JMap.get (ar_intents rec) (rp_key r)) ∧ (rp_key r ∉ inF).
Proof.
  intros Hl. unfold due_replays. rewrite list_elem_of_In, in_flat_map. split.
  - intros ([a rec] & Ha%list_elem_of_In & Hr). simpl in Hr. destruct (is_due now rec) eqn:Hd; [|done].
    apply list_elem_of_In, elem_of_map in Hr as ([k it] & -> & [He Hi]%elem_of_lfilter). simpl in *.
    pose proof (ao_records _ Hl a rec Ha) as Hrec. assert (Hit := ro_intents a rec Hrec k it He). rewrite (io_agent a k it Hit).
    apply negb_true_iff, includes_false in Hi. exists rec.
    split_and!; [by apply JMap.elem_get; [apply Hl|]|done|exists it; by apply JMap.elem_get; [apply Hrec|]|done].
  - intros (rec & Hg & Hd & [it Hit] & Hi). pose proof (get_record_ok l _ rec Hl Hg) as Hrec.
    apply JMap.get_Some_elem in Hg as Hin, Hit as Hk. exists (rp_agent r, rec). split; [by apply list_elem_of_In|]. simpl. rewrite Hd.
    apply list_elem_of_In, elem_of_map. exists (rp_key r, it). simpl. split.
    + destruct r as [ra rk]. simpl in *. f_equal. symmetry. by apply (io_agent _ _ _ (ro_intents _ _ Hrec _ _ Hk)).
    + apply elem_of_lfilter. split; [done|]. by apply negb_true_iff, includes_false.
Qed.

(** ** The books: intents, replays and harnesses *)

Definition look (l : Agents) (a k : string) : option (SessionDeferIntentStatus * option Z) :=
  (λ it, (si_status it, si_spawnedPid it)) <$> intent_at a k l.

Lemma get_map_entries {A} (h : string * A → string * A) (m : list (string * A)) k :
  (∀ x, (h x).1 = x.1) → JMap.get (List.map h m) k = (λ v, (h (k, v)).2) <$> JMap.get m k.
Proof.
  intros Hh. induction m as [|[k' v] m IH]; [done|]. simpl. pose proof (Hh (k', v)) as Hk.
  destruct (h (k', v)) as [k2 v2] eqn:E. simpl in Hk. subst k2. rewrite !JMap.get_cons, IH.
  destruct (String.eqb k' k) eqn:Ek; [|done]. apply String.eqb_eq in Ek as ->. simpl. by rewrite E.
Qed.

Lemma look_marked now inF l a k :
  look (List.map (marked now inF) l) a k =
    match JMap.get l a with
    | Some rec =>
        (λ v, if is_due now rec && negb (includes inF k) then (dispatching, v.2) else v) <$> look l a k
    | None => None
    end.
Proof.
  unfold look, intent_at. rewrite get_map_entries; [|intros x; unfold marked; by destruct (is_due now x.2)].
  destruct (JMap.get l a) as [rec|]; [|done]. simpl. unfold marked. simpl. destruct (is_due now rec); simpl.
  - rewrite get_map_entries; [|intros e; unfold dispatched; by destruct (includes inF e.1)].
    destruct (JMap.get (ar_intents rec) k) as [it|]; [|done]. simpl. unfold dispatched. simpl. by destruct (includes inF k).
  - by destruct (JMap.get (ar_intents rec) k).
Qed.

(** What ties the store's bookkeeping to its intents; [todo] are the replays a
    tick is about to start. *)
Record books (todo : list string) (V : string → string → option (SessionDeferIntentStatus * option Z))
    (inFlight boot : list string) (rs : list Replay) (H : list (string * Z * bool)) : Prop := {
  bk_agent a b k : is_Some (V a k) → is_Some (V b k) → a = b;
  bk_inflight k : k ∈ inFlight → ∃ a p, V a k = Some (dispatching, p);
  bk_running r : r ∈ rs → is_Some (V (rp_agent r) (rp_key r)) ∧ rp_key r ∈ inFlight ∧ (rp_key r ∉ todo);
  bk_distinct : NoDup (List.map rp_key rs);
  bk_own k p : (k, p, true) ∈ H → k ∈ inFlight ∧ (k ∉ todo) ∧ ∃ a, V a k = Some (dispatching, Some p);
  bk_left k p : (k, p, false) ∈ H → k ∈ boot ∧ (k ∈ inFlight → k ∈ todo) ∧ ∃ a, V a k = Some (dispatching, Some p);
  bk_one : NoDup (List.map (fst ∘ fst) H)
}.

(** Refreshed and new intents. *)
Lemma books_extend todo V V' inF boot rs H :
  books todo V inF boot rs H → (∀ a k v, V a k = Some v → V' a k = Some v) →
  (∀ a b k, is_Some (V' a k) → is_Some (V' b k) → a = b) → books todo V' inF boot rs H.
Proof.
  intros [H1 H2 H3 H4 H5 H6 H7] He Ha. split; try done.
  - intros k (a & p & Hk)%H2. eauto.
  - intros r Hr. destruct (H3 r Hr) as ([v Hv] & Hi & Ht). eauto.
  - intros k p Hk. destruct (H5 k p Hk) as (Hi & Ht & a & Hv). eauto.
  - intros k p Hk. destruct (H6 k p Hk) as (Hb & Ht & a & Hv). eauto.
Qed.

Definition keep (ks l : list string) : list string := lfilter (λ k, negb (includes ks k)) l.

Lemma elem_of_keep ks l k : k ∈ keep ks l ↔ k ∈ l ∧ (k ∉ ks).
Proof. unfold keep. by rewrite elem_of_lfilter, negb_true_iff, includes_false. Qed.

(** Intents that leave. *)
Lemma books_forget V V' inF boot rs rs' H ks :
  books [] V inF boot rs H → (∀ a k v, V a k = Some v → k ∉ ks → V' a k = Some v) →
  (∀ a k, is_Some (V' a k) → is_Some (V a k)) →
  NoDup (List.map rp_key rs') → (∀ r, r ∈ rs' → r ∈ rs ∧ (rp_key r ∉ ks)) →
  books [] V' (keep ks inF) (keep ks boot) rs' (lfilter (λ h, negb (includes ks h.1.1)) H).
Proof.
  intros [H1 H2 H3 H4 H5 H6 H7] Hv Hv' Hnd Hrs. split.
  - intros a b k Ha Hb. apply (H1 a b k); by apply Hv'.
  - intros k [(a & p & Hk)%H2 Hn]%elem_of_keep. eauto.
  - intros r Hr. destruct (Hrs r Hr) as [Hr0 Hk]. destruct (H3 r Hr0) as ([v Hl] & Hi & Ht). split_and!; [eauto|by apply elem_of_keep|done].
  - exact Hnd.
  - intros k p [Hk Hn%negb_true_iff%includes_false]%elem_of_lfilter. destruct (H5 k p Hk) as (Hi & Ht & a & Hl).
    split_and!; [by apply elem_of_keep|done|eauto].
  - intros k p [Hk Hn%negb_true_iff%includes_false]%elem_of_lfilter. destruct (H6 k p Hk) as (Hb & Ht & a & Hl).
    split_and!; [by apply elem_of_keep|intros [? _]%elem_of_keep; auto|eauto].
  - by apply NoDup_map_lfilter.
Qed.

(** A tick marks what is due. *)
Lemma books_drain V V' inF boot rs H ks :
  books [] V inF boot rs H →
  (∀ a k, V' a k = (λ v, if includes ks k then (dispatching, v.2) else v) <$> V a k) →
  (∀ k, k ∈ ks → (k ∉ inF) ∧ ∃ a, is_Some (V a k)) →
  books ks V' (inF ++ ks) boot rs H.
Proof.
  intros [H1 H2 H3 H4 H5 H6 H7] Hv Hks.
  assert (Hd : ∀ a k p, V a k = Some (dispatching, p) → V' a k = Some (dispatching, p)).
  { intros a k p Hk. rewrite Hv, Hk. simpl. by destruct (includes ks k). }
  split; try done.
  - intros a b k. rewrite !Hv, !fmap_is_Some. apply H1.
  - intros k [(a & p & Hk)%H2|Hk]%elem_of_app; [eauto|]. destruct (Hks k Hk) as (_ & a & [[st p] Hs]).
    exists a, p. rewrite Hv, Hs. simpl. by rewrite (proj2 (includes_true _ _) Hk).
  - intros r Hr. destruct (H3 r Hr) as (Hs & Hi & _). split_and!.
    + rewrite Hv. by apply fmap_is_Some.
    + apply elem_of_app. by left.
    + intros Hk. by apply (Hks _ Hk).
  - intros k p Hk. destruct (H5 k p Hk) as (Hi & _ & a & Hl). split_and!; [apply elem_of_app; by left| |eauto].
    intros Hin. by apply (Hks _ Hin).
  - intros k p Hk. destruct (H6 k p Hk) as (Hb & Ht & a & Hl). split_and!; [done| |eauto].
    intros [Hi|Hi]%elem_of_app; [by apply Ht, elem_of_nil in Hi|done].
Qed.

(** A replay starts where nothing is left to end. *)
Lemma books_begin V inF boot rs H r todo p :
  books (rp_key r :: todo) V inF boot rs H → V (rp_agent r) (rp_key r) = Some (dispatching, p) →
  rp_key r ∈ inF → (rp_key r ∉ todo) → p = None ∨ (rp_key r ∉ boot) →
  books todo V inF (remove (rp_key r) boot) (rs ++ [r]) H.
Proof.
  intros [H1 H2 H3 H4 H5 H6 H7] Hv Hi Ht Hp. split; try done.
  - intros r' [Hr|Hr]%elem_of_app.
    + destruct (H3 r' Hr) as (? & ? & Hn%not_elem_of_cons). by destruct Hn.
    + apply list_elem_of_singleton in Hr as ->. split_and!; [by rewrite Hv|done|done].
  - rewrite List.map_app. apply NoDup_app. split_and!; [done| |apply NoDup_singleton].
    intros k Hk Hin. apply list_elem_of_singleton in Hin as ->. apply elem_of_map in Hk as (r' & He & Hr).
    destruct (H3 r' Hr) as (_ & _ & Hn%not_elem_of_cons). by destruct Hn.
  - intros k q Hk. destruct (H5 k q Hk) as (? & Hn%not_elem_of_cons & ?). by destruct Hn.
  - intros k q Hk. destruct (H6 k q Hk) as (Hb & Hin & a & Hl).
    assert (Hne : k ≠ rp_key r).
    { intros ->. rewrite <- (H1 a (rp_agent r) (rp_key r)) in Hv by eauto. destruct Hp as [->|Hp]; [congruence|done]. }
    split_and!; [|intros Hk'; by destruct (proj1 (elem_of_cons _ _ _) (Hin Hk'))|eauto].
    apply elem_of_lfilter. split; [done|]. by apply negb_true_iff, String.eqb_neq.
Qed.

(** A harness that outlived the last manager is ended first. *)
Lemma books_reap V V' inF boot rs H r todo p :
  books todo V inF boot rs H → V (rp_agent r) (rp_key r) = Some (dispatching, Some p) →
  (∀ a k, V' a k = if decide (a = rp_agent r ∧ k = rp_key r) then Some (dispatching, None) else V a k) →
  books todo V' inF boot rs (lfilter (λ h, negb (h.1.2 =? p)) H).
Proof.
  intros [H1 H2 H3 H4 H5 H6 H7] Hv Hv'.
  assert (Hs : ∀ a k, is_Some (V' a k) ↔ is_Some (V a k)).
  { intros a k. rewrite Hv'. case_decide as Hd; [|done]. destruct Hd as [-> ->]. rewrite Hv. split; eauto. }
  assert (Hk : ∀ a k q, V a k = Some (dispatching, Some q) → q ≠ p → V' a k = Some (dispatching, Some q)).
  { intros a k q Hq Hne. rewrite Hv'. case_decide as Hd; [|done]. destruct Hd as [-> ->]. congruence. }
  split; try done.
  - intros a b k. rewrite !Hs. apply H1.
  - intros k (a & q & Ha)%H2. destruct (decide (a = rp_agent r ∧ k = rp_key r)) as [Hd|Hd].
    + exists a, None. rewrite Hv'. by rewrite decide_True.
    + exists a, q. rewrite Hv'. by rewrite decide_False.
  - intros r' Hr. rewrite Hs. by apply H3.
  - intros k q [Hin Hq%negb_true_iff%Z.eqb_neq]%elem_of_lfilter. destruct (H5 k q Hin) as (? & ? & a & Ha).
    split_and!; [done..|]. exists a. by apply Hk.
  - intros k q [Hin Hq%negb_true_iff%Z.eqb_neq]%elem_of_lfilter. destruct (H6 k q Hin) as (? & ? & a & Ha).
    split_and!; [done..|]. exists a. by apply Hk.
  - by apply NoDup_map_lfilter.
Qed.

(** A running replay spawns a harness and reports it. *)
Lemma books_spawn V V' inF boot rs H r p :
  books [] V inF boot rs H → r ∈ rs → (∀ q, (rp_key r, q, true) ∉ H) →
  (∀ a k, V' a k = if decide (a = rp_agent r ∧ k = rp_key r) then Some (dispatching, Some p) else V a k) →
  books [] V' inF boot rs ((rp_key r, p, true) :: H).
Proof.
  intros [H1 H2 H3 H4 H5 H6 H7] Hr Hown Hv'. destruct (H3 r Hr) as (Hsome & Hi & _).
  assert (Hs : ∀ a k, is_Some (V' a k) ↔ is_Some (V a k)).
  { intros a k. rewrite Hv'. case_decide as Hd; [|done]. destruct Hd as [-> ->]. split; eauto. }
  assert (Hk : ∀ a k v, V a k = Some v → k ≠ rp_key r → V' a k = Some v).
  { intros a k v Hv Hne. rewrite Hv'. rewrite decide_False; [done|]. by intros [_ ?]. }
  assert (Hleft : ∀ q, (rp_key r, q, false) ∉ H).
  { intros q Hin. destruct (H6 _ _ Hin) as (_ & Hn & _). by apply Hn, elem_of_nil in Hi. }
  split; try done.
  - intros a b k. rewrite !Hs. apply H1.
  - intros k (a & q & Ha)%H2. destruct (decide (a = rp_agent r ∧ k = rp_key r)) as [Hd|Hd].
    + exists a, (Some p). rewrite Hv'. by rewrite decide_True.
    + exists a, q. rewrite Hv'. by rewrite decide_False.
  - intros r' Hr'. rewrite Hs. by apply H3.
  - intros k q [[= -> ->]|Hin]%elem_of_cons.
    + split_and!; [done|by intros ?%elem_of_nil|]. exists (rp_agent r). rewrite Hv'. by rewrite decide_True.
    + destruct (H5 k q Hin) as (? & ? & a & Ha). split_and!; [done..|]. exists a. apply Hk; [done|]. intros ->. by apply (Hown q).
  - intros k q [[=]|Hin]%elem_of_cons. destruct (H6 k q Hin) as (? & ? & a & Ha). split_and!; [done..|].
    exists a. apply Hk; [done|]. intros ->. by apply (Hleft q).
  - simpl. apply NoDup_cons. split; [|done]. intros ([[k q] b] & He & Hin)%elem_of_map. simpl in He. subst k.
    destruct b; [by apply (Hown q)|by apply (Hleft q)].
Qed.

(** ** The invariant *)

Definition stripped (rec : AgentDeferRecord) : AgentDeferRecord :=
  rec<|ar_intents ::= List.map (λ e, (e.1, e.2<|si_spawnedPid := None|>))|>.
Definition strip (x : string * AgentDeferRecord) : string * AgentDeferRecord := (x.1, stripped x.2).

(** What the file holds: the intents in memory, up to harnesses that were ended
    since. *)
Definition behind (b l : Agents) : Prop :=
  List.map strip b = List.map strip l ∧ ∀ a k st p, look l a k = Some (st, Some p) → look b a k = Some (st, Some p).

Definition mirrored (s : Store) : Prop :=
  match ds_file s with
  | Some raw => ∃ b, raw = json (agents_json b) ∧ agents_ok b ∧ behind b (ds_byAgent s)
  | None => ds_byAgent s = []
  end.

(** The timer is early enough for every window that is open or holds an intent
    no replay was started for. *)
Definition armed (now : Z) (s : Store) : Prop :=
  ∀ a rec, JMap.get (ds_byAgent s) a = Some rec →
    now < ar_deferUntilMs rec ∨ undrained (ds_inFlightReplay s) rec = true →
    ∃ t, ds_timer s = Some t ∧ t <= ar_deferUntilMs rec.

Record store_ok (todo : list string) (now : Z) (s : Store) : Prop := {
  so_agents : agents_ok (ds_byAgent s);
  so_file : mirrored s;
  so_armed : armed now s;
  so_books : books todo (look (ds_byAgent s)) (ds_inFlightReplay s) (ds_bootDispatching s) (ds_replays s) (ds_harnesses s)
}.

Lemma persist_mirrored s : agents_ok (ds_byAgent s) → mirrored (persist s).
Proof. intros H. exists (ds_byAgent s). by split_and!. Qed.

Lemma earlier_spec now best x :
  (∀ b, best = Some b → ∃ t, earlier now best x = Some t ∧ t <= b) ∧
  (is_due now x.2 = false → ∃ t, earlier now best x = Some t ∧ t <= ar_deferUntilMs x.2).
Proof.
  unfold earlier. split.
  - intros b ->. destruct (is_due now x.2); [by exists b|]. destruct (ar_deferUntilMs x.2 <? b) eqn:E; [|by exists b].
    apply Z.ltb_lt in E. eexists. split; [done|lia].
  - intros ->. destruct best as [b|]; [|by eexists]. destruct (ar_deferUntilMs x.2 <? b) eqn:E; [by eexists|].
    apply Z.ltb_ge in E. by exists b.
Qed.

Lemma min_future_spec now l : ∀ best,
  (∀ b, best = Some b → ∃ t, foldl (earlier now) best l = Some t ∧ t <= b) ∧
  (∀ a rec, (a, rec) ∈ l → is_due now rec = false → ∃ t, foldl (earlier now) best l = Some t ∧ t <= ar_deferUntilMs rec).
Proof.
  induction l as [|x l IH]; intros best; [split; [intros b ->; by exists b|by intros ? ? ?%elem_of_nil]|].
  destruct (IH (earlier now best x)) as [H1 H2], (earlier_spec now best x) as [E1 E2]. simpl.
  assert (Hstep : ∀ b, (∃ t, earlier now best x = Some t ∧ t <= b) → ∃ t, foldl (earlier now) (earlier now best x) l = Some t ∧ t <= b).
  { intros b (t & Ht & Hle). destruct (H1 t Ht) as (u & Hu & Hle'). exists u. split; [done|lia]. }
  split.
  - intros b Hb. by apply Hstep, E1.
  - intros a rec [<-|Hin]%elem_of_cons Hd; [by apply Hstep, E2|by apply (H2 a)].
Qed.

Lemma arm_armed now s : agents_ok (ds_byAgent s) → armed now (arm now s).
Proof.
  intros Hl a rec Hg Hd. unfold arm. simpl in *. pose proof (get_record_ok _ _ _ Hl Hg) as Hrec.
  apply JMap.get_Some_elem in Hg. destruct (lsome _ _) eqn:E; [exists 0; split; [done|pose proof (ro_until _ _ Hrec); lia]|].
  assert (Hdue : is_due now rec = false).
  { destruct Hd as [Hd|Hd]; [by apply Z.leb_gt|]. pose proof (proj1 (lsome_false _ _) E _ Hg) as H. simpl in H.
    apply andb_false_iff in H as [H|H]; [done|congruence]. }
  by apply (proj2 (min_future_spec now (ds_byAgent s) None) a rec).
Qed.

Lemma armed_later now now' s : now <= now' → armed now s → armed now' s.
Proof. intros Hle H a rec Hg [Hd|Hd]; apply (H a rec Hg); [left; lia|by right]. Qed.

(** Windows that change no more than their intents. *)
Lemma armed_sub now s s' :
  (∀ a rec', JMap.get (ds_byAgent s') a = Some rec' →
     ∃ rec, JMap.get (ds_byAgent s) a = Some rec ∧ ar_deferUntilMs rec' = ar_deferUntilMs rec ∧
            (undrained (ds_inFlightReplay s') rec' = true → now < ar_deferUntilMs rec ∨ undrained (ds_inFlightReplay s) rec = true)) →
  ds_timer s' = ds_timer s → armed now s → armed now s'.
Proof.
  intros Hsub Ht H a rec' Hg Hd. destruct (Hsub a rec' Hg) as (rec & Hr & Hu & Hi). rewrite Ht, Hu.
  apply (H a rec Hr). rewrite Hu in Hd. destruct Hd as [Hd|Hd]; [by left|by apply Hi].
Qed.

Lemma undrained_true inF rec : undrained inF rec = true ↔ ∃ k, is_Some (JMap.get (ar_intents rec) k) ∧ (k ∉ inF).
Proof.
  unfold undrained. rewrite lsome_true. split; intros (k & Hk & Hi); exists k.
  - split; [by apply JMap.get_is_Some_keys|]. by apply negb_true_iff, includes_false in Hi.
  - split; [by apply JMap.get_is_Some_keys|]. by apply negb_true_iff, includes_false.
Qed.

(** ** Every command keeps it *)

Lemma look_agent l a b k : agents_ok l → is_Some (look l a k) → is_Some (look l b k) → a = b.
Proof.
  unfold look. rewrite !fmap_is_Some. intros Hl [it Ha] [it' Hb]. by apply (intent_at_agent l a b k it it').
Qed.

Lemma store_ok_later todo now now' s : now <= now' → store_ok todo now s → store_ok todo now' s.
Proof. intros Hle [H1 H2 H3 H4]. split; try done. by apply (armed_later now). Qed.

(** Intents kept, refreshed or added. *)
Lemma store_ok_extend now s l :
  store_ok [] now s → agents_ok l → (∀ a k v, look (ds_byAgent s) a k = Some v → look l a k = Some v) →
  armed now (s<|ds_byAgent := l|>) → store_ok [] now (persist (s<|ds_byAgent := l|>)).
Proof.
  intros [H1 H2 H3 H4] Hl Hv Ha. split; [done|by apply persist_mirrored|done|].
  eapply books_extend; [exact H4|exact Hv|]. intros a b k. by apply look_agent.
Qed.

Lemma store_ok_arm todo now now' s : store_ok todo now s → store_ok todo now' (arm now' s).
Proof. intros [H1 H2 H3 H4]. split; [done|done|by apply arm_armed|done]. Qed.

Lemma look_set l a rec b k :
  look (JMap.set l a rec) b k =
    if String.eqb a b then (λ it, (si_status it, si_spawnedPid it)) <$> JMap.get (ar_intents rec) k else look l b k.
Proof. unfold look. rewrite intent_at_set. by destruct (String.eqb a b). Qed.

Lemma store_ok_limit now now' s a until reason label :
  store_ok [] now s → 0 < now' → no_colon a = true →
  store_ok [] now' (fst (recordSessionLimit a until reason label now' s)) ∨
  fst (recordSessionLimit a until reason label now' s) = s.
Proof.
  intros Hs Hpos Hc. unfold recordSessionLimit. destruct (truthy a) eqn:Ht; [|by right]. cbn [negb].
  destruct (until <=? now') eqn:Hu; [by right|]. apply Z.leb_gt in Hu. destruct Hs as [H1 H2 H3 H4].
  assert (Hgo : ∀ rec, record_ok a rec → (∀ k v, look (ds_byAgent s) a k = Some v → look (JMap.set (ds_byAgent s) a rec) a k = Some v) →
    store_ok [] now' (arm now' (persist (s<|ds_byAgent ::= λ m, JMap.set m a rec|>)))).
  { intros rec Hrec Hk. assert (Hl := agents_ok_set _ _ _ H1 Hrec). split; [done|by apply persist_mirrored|by apply arm_armed|].
    eapply books_extend; [exact H4| |intros b c k; by apply look_agent].
    intros b k v Hv. simpl. destruct (decide (a = b)) as [<-|Hne]; [by apply Hk|].
    rewrite look_set. apply String.eqb_neq in Hne. by rewrite Hne. }
  destruct (JMap.get (ds_byAgent s) a) as [old|] eqn:Hg.
  - destruct (ar_deferUntilMs old <? until); [left|by right]. apply Hgo.
    + destruct (get_record_ok _ _ _ H1 Hg) as [? ? ? ? ? ?]. split; simpl; try done. lia.
    + intros k v Hv. rewrite look_set, String.eqb_refl. unfold look, intent_at in Hv. rewrite Hg in Hv. exact Hv.
  - left. apply Hgo; [|intros k v Hv; unfold look, intent_at in Hv; by rewrite Hg in Hv].
    split; simpl; try done; [lia|constructor|by intros k it ?%elem_of_nil].
Qed.

Lemma record_ok_put a rec k it :
  record_ok a rec → intent_ok a k it → record_ok a (rec<|ar_intents ::= λ m, JMap.set m k it|>).
Proof.
  intros [H1 H2 H3 H4 H5 H6] Hit. split; simpl; try done; [by apply JMap.NoDup_keys_set|].
  intros k' it' Hin. apply JMap.elem_get in Hin; [|by apply JMap.NoDup_keys_set]. destruct (decide (k = k')) as [<-|Hne].
  - rewrite JMap.get_set_eq in Hin. by injection Hin as <-.
  - rewrite JMap.get_set_ne in Hin by done. by apply H6, JMap.get_Some_elem.
Qed.

Lemma look_put l a key it b k rec :
  JMap.get l a = Some rec →
  look (put_intent a key it l) b k =
    if decide (b = a ∧ k = key) then Some (si_status it, si_spawnedPid it) else look l b k.
Proof.
  intros Hg. unfold look, put_intent. rewrite intent_at_update. destruct (String.eqb a b) eqn:E.
  - apply String.eqb_eq in E as <-. rewrite Hg. simpl. destruct (decide (key = k)) as [<-|Hne].
    + by rewrite JMap.get_set_eq, decide_True.
    + rewrite JMap.get_set_ne, decide_False by (done || by intros [_ ?]). unfold intent_at. by rewrite Hg.
  - apply String.eqb_neq in E. rewrite decide_False; [done|]. intros [? _]. congruence.
Qed.

Lemma store_ok_put now s a key it rec :
  store_ok [] now s → JMap.get (ds_byAgent s) a = Some rec → now < ar_deferUntilMs rec → intent_ok a key it →
  (∀ v, look (ds_byAgent s) a key = Some v → v = (si_status it, si_spawnedPid it)) →
  store_ok [] now (persist (s<|ds_byAgent ::= put_intent a key it|>)).
Proof.
  intros Hs Hg Hlive Hit Hv. apply (store_ok_extend now s (put_intent a key it (ds_byAgent s))); [done| | |].
  - apply agents_ok_update; [apply Hs|]. intros r _ Hr. by apply record_ok_put.
  - intros b k v Hb. rewrite (look_put _ _ _ _ _ _ rec) by done. case_decide as Hd; [|done]. destruct Hd as [-> ->].
    by rewrite (Hv v Hb).
  - apply (armed_sub now s); [|done|apply (so_armed _ _ _ Hs)]. intros b rec' Hb. simpl in Hb. unfold put_intent in Hb. rewrite JMap.get_update in Hb.
    destruct (String.eqb a b) eqn:E; [|exists rec'; split_and!; [done|done|by right]].
    apply String.eqb_eq in E as <-. rewrite Hg in Hb. injection Hb as <-. exists rec. split_and!; [done|done|by left].
Qed.

Lemma coalesce_same kind raw it :
  si_status (coalesce kind raw it) = si_status it ∧ si_spawnedPid (coalesce kind raw it) = si_spawnedPid it ∧
  si_agentId (coalesce kind raw it) = si_agentId it ∧ si_firstAtMs (coalesce kind raw it) = si_firstAtMs it.
Proof. unfold coalesce. by destruct kind, (si_kind it). Qed.

Lemma store_ok_add now s a meta raw kind :
  store_ok [] now s → 0 < now → im_agentId meta = a →
  store_ok [] now (fst (addPendingIntent a meta raw kind now s)).
Proof.
  intros Hs Hpos Ha. unfold addPendingIntent. destruct (JMap.get (ds_byAgent s) a) as [rec|] eqn:Hg; [|done].
  destruct (negb (truthy a) || is_due now rec) eqn:Hl; [done|]. apply orb_false_iff in Hl as [Ht%negb_false_iff Hdue%Z.leb_gt].
  rewrite Ha. set (key := dispatch_key _ _ _). destruct (JMap.get (ar_intents rec) key) as [it|] eqn:Hk; simpl.
  - destruct (coalesce_same kind raw it) as (Hst & Hp & Hag & Hf). apply (store_ok_put now s a key _ rec); try done.
    + assert (Hit : intent_ok a key it). { apply (ro_intents a rec); [by apply (get_record_ok _ _ _ (so_agents _ _ _ Hs))|by apply JMap.get_Some_elem]. }
      destruct Hit as [H1 H2 H3 H4]. split; [congruence|done|lia|]. rewrite Hp. exact H4.
    + intros v. unfold look, intent_at. rewrite Hg. simpl. rewrite Hk. simpl. intros [= <-]. by rewrite Hst, Hp.
  - apply (store_ok_put now s a key _ rec); try done.
    + split; simpl; [done|by apply dispatch_key_of|done|done].
    + intros v. unfold look, intent_at. rewrite Hg. simpl. by rewrite Hk.
Qed.

Lemma store_ok_forget now s l ks rs :
  store_ok [] now s → agents_ok l →
  (∀ a k it, intent_at a k l = Some it ↔ intent_at a k (ds_byAgent s) = Some it ∧ (k ∉ ks)) →
  (∀ a rec, JMap.get l a = Some rec → ∃ rec0, JMap.get (ds_byAgent s) a = Some rec0 ∧ ar_deferUntilMs rec = ar_deferUntilMs rec0) →
  NoDup (List.map rp_key rs) → (∀ r, r ∈ rs → r ∈ ds_replays s ∧ (rp_key r ∉ ks)) →
  store_ok [] now (persist ((forget ks s)<|ds_byAgent := l|><|ds_replays := rs|>)).
Proof.
  intros [H1 H2 H3 H4] Hl Hi Hrec Hnd Hrs. split; [done|by apply persist_mirrored| |].
  - apply (armed_sub now s); [|done|done]. intros a rec Hg. destruct (Hrec a rec Hg) as (rec0 & Hg0 & Hu). exists rec0.
    split_and!; [done|done|]. intros (k & [it Hk] & Hn)%undrained_true. right. apply undrained_true. exists k.
    assert (Hat : intent_at a k l = Some it) by (apply intent_at_Some; eauto). apply Hi in Hat as [Hat Hks].
    apply intent_at_Some in Hat as (r & Hr & Hrk). rewrite Hg0 in Hr. injection Hr as <-. split; [eauto|].
    intros Hin. apply Hn. by apply elem_of_keep.
  - eapply books_forget; [exact H4| | |done|done].
    + intros a k v Hv Hk. unfold look in *. apply fmap_Some in Hv as (it & Hit & ->). simpl. by rewrite (proj2 (Hi a k it) (conj Hit Hk)).
    + intros a k. unfold look. rewrite !fmap_is_Some. intros [it Hit]. apply Hi in Hit as [Hit _]. eauto.
Qed.

Lemma get_without_ticket t l a :
  JMap.get (without_ticket t l) a = (λ rec, rec<|ar_intents ::= lfilter (λ e, negb (of_ticket t e))|>) <$> JMap.get l a.
Proof. unfold without_ticket. by rewrite get_map_entries. Qed.

Lemma agents_ok_map l (h : string * AgentDeferRecord → string * AgentDeferRecord) :
  agents_ok l → (∀ x, (h x).1 = x.1) → (∀ a rec, (a, rec) ∈ l → record_ok a (h (a, rec)).2) → agents_ok (List.map h l).
Proof.
  intros [Hnd Hr] Hh Hok. split.
  - unfold JMap.keys in *. rewrite List.map_map. by rewrite (List.map_ext _ fst) by done.
  - intros a rec (x & He & Hx)%elem_of_map. destruct x as [b r]. pose proof (Hh (b, r)) as Hb. simpl in Hb.
    specialize (Hok b r Hx). rewrite <- He in Hok, Hb. simpl in *. by subst.
Qed.

Lemma record_ok_lfilter a rec p : record_ok a rec → record_ok a (rec<|ar_intents ::= lfilter p|>).
Proof.
  intros [H1 H2 H3 H4 H5 H6]. split; simpl; try done; [by apply JMap.keys_lfilter|].
  intros k it [Hin _]%elem_of_lfilter. by apply H6.
Qed.

Lemma elem_of_cancelled t l k :
  agents_ok l → k ∈ cancelled t l ↔ ∃ a it, intent_at a k l = Some it ∧ si_ticketId it = t.
Proof.
  intros Hl. unfold cancelled. rewrite list_elem_of_In, in_flat_map. split.
  - intros ([a rec] & Ha%list_elem_of_In & Hk). apply list_elem_of_In, elem_of_map in Hk as ([k' it] & -> & [He Ht]%elem_of_lfilter).
    exists a, it. split; [|by apply String.eqb_eq in Ht]. apply intent_at_Some. exists rec.
    split; [by apply JMap.elem_get; [apply Hl|]|]. apply JMap.elem_get; [by apply (ro_keys a rec), (ao_records l Hl)|done].
  - intros (a & it & (rec & Hr & Hk)%intent_at_Some & Ht). apply JMap.get_Some_elem in Hr, Hk. exists (a, rec).
    split; [by apply list_elem_of_In|]. apply list_elem_of_In, elem_of_map. exists (k, it). split; [done|].
    apply elem_of_lfilter. split; [done|]. by apply String.eqb_eq.
Qed.

Lemma intent_at_without_ticket t l a k it :
  agents_ok l → intent_at a k (without_ticket t l) = Some it ↔ intent_at a k l = Some it ∧ (k ∉ cancelled t l).
Proof.
  intros Hl. rewrite !intent_at_Some. split.
  - intros (rec' & Hg & Hk). rewrite get_without_ticket in Hg. apply fmap_Some in Hg as (rec & Hg & ->). simpl in Hk.
    rewrite JMap.get_lfilter in Hk by apply (get_record_ok _ _ _ Hl Hg). destruct (JMap.get (ar_intents rec) k) as [it'|] eqn:Hk'; [|done].
    destruct (of_ticket t (k, it')) eqn:Ht; [done|]. injection Hk as ->. split; [eauto|].
    intros (b & it2 & Hb & Ht2)%elem_of_cancelled; [|done]. assert (Ha : intent_at a k l = Some it) by (apply intent_at_Some; eauto).
    assert (a = b) as <- by (by apply (intent_at_agent l a b k it it2)). apply String.eqb_neq in Ht. simpl in Ht. congruence.
  - intros [(rec & Hg & Hk) Hn]. eexists. rewrite get_without_ticket, Hg. split; [done|]. simpl.
    rewrite JMap.get_lfilter by apply (get_record_ok _ _ _ Hl Hg). rewrite Hk. destruct (of_ticket t (k, it)) eqn:Ht; [|done].
    destruct Hn. apply elem_of_cancelled; [done|]. exists a, it. split; [apply intent_at_Some; eauto|by apply String.eqb_eq in Ht].
Qed.

Lemma store_ok_cancel now s t :
  store_ok [] now s →
  (∀ r it, r ∈ ds_replays s → intent_at (rp_agent r) (rp_key r) (ds_byAgent s) = Some it → si_ticketId it ≠ t) →
  store_ok [] now (cancelByTicket t s).
Proof.
  intros Hs Hr. unfold cancelByTicket. destruct (truthy t); [|done]. cbn [negb]. destruct (cancelled t (ds_byAgent s)) as [|k ks] eqn:E; [done|].
  rewrite <- E. pose proof (so_agents _ _ _ Hs) as Hl.
  apply (store_ok_forget now s (without_ticket t (ds_byAgent s)) (cancelled t (ds_byAgent s)) (ds_replays s)); [done| | | | |].
  - apply agents_ok_map; [done|done|]. intros a rec Ha. apply record_ok_lfilter. by apply (ao_records _ Hl).
  - intros a k' it. by apply intent_at_without_ticket.
  - intros a rec Hg. rewrite get_without_ticket in Hg. apply fmap_Some in Hg as (rec0 & Hg & ->). by exists rec0.
  - apply Hs.
  - intros r Hin. split; [done|]. intros (a & it & Hat & Ht)%elem_of_cancelled; [|done].
    destruct (bk_running _ _ _ _ _ _ (so_books _ _ _ Hs) r Hin) as ([v Hv] & _ & _). unfold look in Hv.
    apply fmap_Some in Hv as (it' & Hit' & _). assert (a = rp_agent r) as -> by (by apply (intent_at_agent (ds_byAgent s) a (rp_agent r) (rp_key r) it it')).
    by apply (Hr r it Hin Hat).
Qed.

Definition without_agent (a : string) (l : Agents) : Agents := lfilter (λ x, negb (String.eqb x.1 a)) l.

Lemma get_without_agent a l b :
  agents_ok l → JMap.get (without_agent a l) b = if String.eqb b a then None else JMap.get l b.
Proof.
  intros Hl. unfold without_agent. rewrite JMap.get_lfilter by apply Hl. simpl. by destruct (JMap.get l b), (String.eqb b a).
Qed.

Lemma intent_at_without_agent a l rec b k it :
  agents_ok l → JMap.get l a = Some rec →
  intent_at b k (without_agent a l) = Some it ↔ intent_at b k l = Some it ∧ (k ∉ JMap.keys (ar_intents rec)).
Proof.
  intros Hl Hg. rewrite !intent_at_Some. split.
  - intros (r & Hb & Hk). rewrite get_without_agent in Hb by done. destruct (String.eqb b a) eqn:E; [done|]. split; [eauto|].
    intros [it' Hk']%JMap.get_is_Some_keys. apply String.eqb_neq in E. apply E.
    apply (intent_at_agent l b a k it it'); [done|apply intent_at_Some; eauto..].
  - intros [(r & Hb & Hk) Hn]. exists r. split; [|done]. rewrite get_without_agent by done. destruct (String.eqb b a) eqn:E; [|done].
    apply String.eqb_eq in E as ->. rewrite Hg in Hb. injection Hb as <-. destruct Hn. apply JMap.get_is_Some_keys. eauto.
Qed.

Lemma store_ok_clear now now' s a :
  store_ok [] now s → now <= now' → (∀ r, r ∈ ds_replays s → rp_agent r ≠ a) → store_ok [] now' (clear a now' s).
Proof.
  intros Hs Hle Hr. unfold clear. apply (store_ok_later [] now now' s Hle) in Hs. destruct (truthy a); [|done]. cbn [negb].
  destruct (JMap.get (ds_byAgent s) a) as [rec|] eqn:Hg; [|done]. apply (store_ok_arm _ now').
  pose proof (so_agents _ _ _ Hs) as Hl.
  apply (store_ok_forget now' s (without_agent a (ds_byAgent s)) (JMap.keys (ar_intents rec)) (ds_replays s));
    [done|by apply agents_ok_lfilter| | | |].
  - intros b k it. by apply intent_at_without_agent.
  - intros b r Hb. rewrite get_without_agent in Hb by done. destruct (String.eqb b a); [done|]. by exists r.
  - apply Hs.
  - intros r Hin. split; [done|]. intros [it' Hk']%JMap.get_is_Some_keys. apply (Hr r Hin).
    destruct (bk_running _ _ _ _ _ _ (so_books _ _ _ Hs) r Hin) as ([v Hv] & _ & _). unfold look in Hv.
    apply fmap_Some in Hv as (it & Hit & _). apply (intent_at_agent (ds_byAgent s) _ a (rp_key r) it it'); [done|done|]. apply intent_at_Some. eauto.
Qed.

(** ** Replays *)

Lemma in_without {A} i (l : list A) x : x ∈ take i l ++ drop (S i) l → x ∈ l.
Proof.
  intros [H|H]%elem_of_app; rewrite <- (take_drop i l); apply elem_of_app; [by left|right].
  rewrite <- (take_drop 1 (drop i l)), drop_drop, elem_of_app. right. by rewrite Nat.add_1_r.
Qed.

Lemma NoDup_without {A} i (l : list A) x :
  NoDup l → l !! i = Some x → NoDup (take i l ++ drop (S i) l) ∧ x ∉ take i l ++ drop (S i) l.
Proof.
  intros Hnd Hi. apply take_drop_middle in Hi. rewrite <- Hi in Hnd at 1. rewrite <- Permutation_middle in Hnd.
  apply NoDup_cons in Hnd as [Hn Hnd]. done.
Qed.

Lemma replays_without i rs r :
  NoDup (List.map rp_key rs) → rs !! i = Some r →
  NoDup (List.map rp_key (take i rs ++ drop (S i) rs)) ∧
  ∀ r', r' ∈ take i rs ++ drop (S i) rs → r' ∈ rs ∧ rp_key r' ≠ rp_key r.
Proof.
  intros Hnd Hi. assert (Hm : List.map rp_key rs !! i = Some (rp_key r)) by (by rewrite list_lookup_fmap, Hi).
  destruct (NoDup_without i _ _ Hnd Hm) as [H1 H2].
  assert (He : take i (List.map rp_key rs) ++ drop (S i) (List.map rp_key rs) = List.map rp_key (take i rs ++ drop (S i) rs)).
  { rewrite List.map_app. f_equal; [apply List.firstn_map|apply List.skipn_map]. }
  rewrite He in H1, H2. split; [done|]. intros r' Hr'. split; [by eapply in_without|].
  intros Heq. apply H2. rewrite <- Heq. by apply elem_of_map_2.
Qed.

Lemma store_ok_throw now s i : store_ok [] now s → store_ok [] now (replay_ended i s).
Proof.
  intros [H1 H2 H3 H4]. split; [done|done|done|]. simpl. destruct H4 as [B1 B2 B3 B4 B5 B6 B7]. split; try done.
  - intros r Hr. apply B3. by eapply in_without.
  - destruct (ds_replays s !! i) as [r|] eqn:Hi; [by apply (replays_without i _ r)|].
    apply lookup_ge_None in Hi. rewrite take_ge, drop_ge by lia. by rewrite app_nil_r.
Qed.

Lemma intent_at_set_pid a k pid l b k' :
  intent_at b k' (set_pid a k pid l) =
    if decide (b = a ∧ k' = k) then (λ it, it<|si_spawnedPid := pid|>) <$> intent_at a k l else intent_at b k' l.
Proof.
  unfold set_pid. rewrite intent_at_update. destruct (String.eqb a b) eqn:E.
  - apply String.eqb_eq in E as <-. unfold intent_at. destruct (JMap.get l a) as [rec|]; simpl; [|by case_decide].
    rewrite JMap.get_update. destruct (String.eqb k k') eqn:Ek.
    + apply String.eqb_eq in Ek as <-. by rewrite decide_True.
    + apply String.eqb_neq in Ek. rewrite decide_False; [done|]. intros [_ ?]. congruence.
  - apply String.eqb_neq in E. rewrite decide_False; [done|]. intros [? _]. congruence.
Qed.

Lemma get_set_pid a k pid l b :
  ∃ g, JMap.get (set_pid a k pid l) b = g <$> JMap.get l b ∧
       ∀ rec, ar_deferUntilMs (g rec) = ar_deferUntilMs rec ∧
              ∀ k', is_Some (JMap.get (ar_intents (g rec)) k') ↔ is_Some (JMap.get (ar_intents rec) k').
Proof.
  unfold set_pid. rewrite JMap.get_update. destruct (String.eqb a b).
  - eexists. split; [done|]. intros rec. simpl. split; [done|]. intros k'. rewrite JMap.get_update.
    destruct (String.eqb k k'); [by rewrite fmap_is_Some|done].
  - exists id. split; [by destruct (JMap.get l b)|done].
Qed.

Lemma agents_ok_set_pid a k pid l : agents_ok l → (∀ p, pid = Some p → 1 < p) → agents_ok (set_pid a k pid l).
Proof.
  intros Hl Hp. apply agents_ok_update; [done|]. intros rec _ [H1 H2 H3 H4 H5 H6]. split; simpl; try done.
  - by rewrite JMap.keys_update.
  - intros k' it (e & He & Hin)%elem_of_map. destruct e as [k0 it0]. simpl in He. specialize (H6 _ _ Hin).
    destruct (String.eqb k0 k); simplify_eq; [|done]. destruct H6 as [? ? ? ?]. by split.
Qed.

Lemma strip_update (k : string) pid (its : list (string * SessionDeferIntent)) :
  List.map (λ e, (e.1, e.2<|si_spawnedPid := None|>)) (JMap.update its k (λ it, it<|si_spawnedPid := pid|>)) =
  List.map (λ e, (e.1, e.2<|si_spawnedPid := None|>)) its.
Proof.
  unfold JMap.update. rewrite List.map_map. apply List.map_ext. intros [k' it]. simpl. by destruct (String.eqb k' k).
Qed.

Lemma strip_set_pid a k pid l : List.map strip (set_pid a k pid l) = List.map strip l.
Proof.
  unfold set_pid, JMap.update at 1. rewrite List.map_map. apply List.map_ext. intros [b rec]. simpl.
  destruct (String.eqb b a); [|done]. apply (f_equal (pair b)). destruct rec as [until reason label since its].
  exact (f_equal (Build_AgentDeferRecord until reason label since) (strip_update k pid its)).
Qed.

Lemma armed_set_pid now s a k pid : armed now s → armed now (s<|ds_byAgent ::= set_pid a k pid|>).
Proof.
  apply armed_sub; [|done]. intros b rec' Hb. simpl in Hb. destruct (get_set_pid a k pid (ds_byAgent s) b) as (g & Hg & Hsame).
  rewrite Hg in Hb. apply fmap_Some in Hb as (rec & Hrec & ->). exists rec. destruct (Hsame rec) as [Hu Hk]. split_and!; [done|done|].
  intros (k' & Hk' & Hn)%undrained_true. right. apply undrained_true. exists k'. split; [by apply Hk|done].
Qed.

Lemma look_set_pid l a k pid st p b k' :
  look l a k = Some (st, p) →
  look (set_pid a k pid l) b k' = if decide (b = a ∧ k' = k) then Some (st, pid) else look l b k'.
Proof.
  intros Hl. unfold look in *. rewrite intent_at_set_pid. case_decide as Hd; [|done]. destruct Hd as [-> ->].
  destruct (intent_at a k l) as [it|]; [|done]. simpl in *. by injection Hl as -> _.
Qed.

(** The intent of a running replay. *)
Lemma running_intent todo now s r :
  store_ok todo now s → r ∈ ds_replays s → ∃ p, look (ds_byAgent s) (rp_agent r) (rp_key r) = Some (dispatching, p).
Proof.
  intros Hs Hr. destruct (bk_running _ _ _ _ _ _ (so_books _ _ _ Hs) r Hr) as (Hsome & Hi & _).
  destruct (bk_inflight _ _ _ _ _ _ (so_books _ _ _ Hs) _ Hi) as (a & p & Hv). exists p.
  by rewrite <- (look_agent _ a (rp_agent r) (rp_key r) (so_agents _ _ _ Hs)) by eauto.
Qed.

Lemma store_ok_spawn now s i pid :
  store_ok [] now s → 1 < pid → (∀ r p, ds_replays s !! i = Some r → (rp_key r, p, true) ∉ ds_harnesses s) →
  store_ok [] now (replay_spawns i pid s).
Proof.
  intros Hs Hp Hown. unfold replay_spawns. destruct (ds_replays s !! i) as [r|] eqn:Hi; [|done].
  assert (Hr : r ∈ ds_replays s) by (by eapply list_elem_of_lookup_2). destruct (running_intent _ _ _ _ Hs Hr) as [p0 Hl].
  unfold onSpawned. simpl. assert (Hit := Hl). unfold look in Hit. apply fmap_Some in Hit as (it & Hit & He). rewrite Hit.
  injection He as <- _. simpl. rewrite (proj2 (Z.ltb_lt 1 pid) Hp). destruct Hs as [H1 H2 H3 H4].
  assert (Hok : agents_ok (set_pid (rp_agent r) (rp_key r) (Some pid) (ds_byAgent s))) by (apply agents_ok_set_pid; [done|by intros p [= <-]]).
  split; [done|by apply persist_mirrored|by apply (armed_set_pid now s)|].
  eapply books_spawn; [exact H4|exact Hr|intros q; by apply Hown|]. intros a k. by apply look_set_pid with p0.
Qed.

(** What [#ackIntent] makes of the windows. *)
Definition acked (r : Replay) (now : Z) (l : Agents) : Agents :=
  lfilter (λ x, negb (String.eqb x.1 (rp_agent r) && bool_decide (ar_intents x.2 = []) && is_due now x.2))
    (JMap.update l (rp_agent r) (drop_intent (rp_key r))).

Lemma get_acked r now l a :
  agents_ok l →
  JMap.get (acked r now l) a =
    if String.eqb (rp_agent r) a then
      JMap.get l a ≫= λ rec, let rec' := drop_intent (rp_key r) rec in
        if bool_decide (ar_intents rec' = []) && is_due now rec' then None else Some rec'
    else JMap.get l a.
Proof.
  intros Hl. unfold acked. rewrite JMap.get_lfilter by (rewrite JMap.keys_update; apply Hl).
  rewrite JMap.get_update, (String.eqb_sym (rp_agent r) a). simpl. destruct (String.eqb a (rp_agent r)); simpl.
  - destruct (JMap.get l a) as [rec|]; [|done]. simpl. by destruct (_ && _).
  - by destruct (JMap.get l a).
Qed.

Lemma record_ok_drop a k rec : record_ok a rec → record_ok a (drop_intent k rec).
Proof. apply record_ok_lfilter. Qed.

Lemma agents_ok_acked r now l : agents_ok l → agents_ok (acked r now l).
Proof. intros Hl. apply agents_ok_lfilter, agents_ok_update; [done|]. intros rec _. apply record_ok_drop. Qed.

Lemma intent_at_acked r now l a k it :
  agents_ok l → (∀ b, is_Some (intent_at b (rp_key r) l) → b = rp_agent r) →
  intent_at a k (acked r now l) = Some it ↔ intent_at a k l = Some it ∧ k ≠ rp_key r.
Proof.
  intros Hl Hown. rewrite !intent_at_Some.
  assert (Hdrop : ∀ rec, JMap.get l a = Some rec →
    JMap.get (ar_intents (drop_intent (rp_key r) rec)) k = if String.eqb k (rp_key r) then None else JMap.get (ar_intents rec) k).
  { intros rec Hg. unfold drop_intent. simpl. rewrite JMap.get_lfilter by apply (get_record_ok _ _ _ Hl Hg). simpl.
    by destruct (JMap.get (ar_intents rec) k), (String.eqb k (rp_key r)). }
  rewrite get_acked by done. destruct (String.eqb (rp_agent r) a) eqn:E.
  - apply String.eqb_eq in E as <-. destruct (JMap.get l (rp_agent r)) as [rec|] eqn:Hg; simpl; [|split; [by intros (? & ? & _)|by intros [(? & ? & _) _]]].
    specialize (Hdrop rec eq_refl). split.
    + intros (rec' & Hr & Hk). destruct (bool_decide _ && _); [done|]. injection Hr as <-. rewrite Hdrop in Hk.
      destruct (String.eqb k (rp_key r)) eqn:Ek; [done|]. apply String.eqb_neq in Ek. eauto.
    + intros [(rec0 & [= <-] & Hk) Hne]. apply String.eqb_neq in Hne. rewrite Hne, Hk in Hdrop. eexists. split; [|exact Hdrop].
      rewrite bool_decide_eq_false_2; [done|]. intros Hnil. simpl in Hnil, Hdrop. by rewrite Hnil in Hdrop.
  - apply String.eqb_neq in E. split; [|by intros [? _]]. intros (rec & Hg & Hk). split; [eauto|]. intros ->. apply E. symmetry.
    apply Hown. exists it. apply intent_at_Some. eauto.
Qed.

(** The windows a resolved replay is taken out of: those in memory, with the pid
    it may have reported. *)
Record acking (r : Replay) (s : Store) (l : Agents) : Prop := {
  ak_agents : agents_ok l;
  ak_same a k : k ≠ rp_key r → intent_at a k l = intent_at a k (ds_byAgent s);
  ak_own a : is_Some (intent_at a (rp_key r) l) → a = rp_agent r;
  ak_windows a rec : JMap.get l a = Some rec →
    ∃ rec0, JMap.get (ds_byAgent s) a = Some rec0 ∧ ar_deferUntilMs rec = ar_deferUntilMs rec0
}.

Definition taken_out (i : nat) (r : Replay) (now : Z) (l : Agents) (s : Store) : Store :=
  persist ((forget [rp_key r] s)<|ds_byAgent := acked r now l|><|ds_replays := take i (ds_replays s) ++ drop (S i) (ds_replays s)|>).

Lemma intent_at_taken_out i r t l s a k it :
  acking r s l → intent_at a k (ds_byAgent (taken_out i r t l s)) = Some it ↔ intent_at a k (ds_byAgent s) = Some it ∧ k ≠ rp_key r.
Proof.
  intros [Hl Hsame Hown _]. simpl. rewrite intent_at_acked by done. split; intros [Hat Hne].
  - by rewrite <- Hsame.
  - by rewrite Hsame.
Qed.

Lemma store_ok_taken_out now s i r t l :
  store_ok [] now s → ds_replays s !! i = Some r → acking r s l → store_ok [] now (taken_out i r t l s).
Proof.
  intros Hs Hi Hak. destruct (replays_without i _ r (bk_distinct _ _ _ _ _ _ (so_books _ _ _ Hs)) Hi) as [Hnd Hrs].
  apply store_ok_forget; [done|apply agents_ok_acked, Hak| | |done|].
  - intros a k it. rewrite list_elem_of_singleton. by apply (intent_at_taken_out i r t l s).
  - intros a rec Hg. rewrite get_acked in Hg by apply Hak. destruct (String.eqb (rp_agent r) a); [|by apply (ak_windows r s l Hak)].
    destruct (JMap.get l a) as [rec1|] eqn:Hg1; [|done]. simpl in Hg. destruct (_ && _); [done|]. injection Hg as <-.
    by apply (ak_windows r s l Hak a rec1).
  - intros r' Hr'. rewrite list_elem_of_singleton. by apply Hrs.
Qed.

Lemma resolved_form now s i result t r :
  store_ok [] now s → ds_replays s !! i = Some r →
  ∃ l, acking r s l ∧ replay_resolved i result t s = taken_out i r t l s.
Proof.
  intros Hs Hi. unfold replay_resolved. rewrite Hi.
  assert (Hr : r ∈ ds_replays s) by (by eapply list_elem_of_lookup_2). destruct (running_intent _ _ _ _ Hs Hr) as [p0 Hv].
  assert (Hat := Hv). unfold look in Hat. apply fmap_Some in Hat as (it & Hat & Hst). pose proof (so_agents _ _ _ Hs) as Hl.
  assert (Hown : ∀ a, is_Some (intent_at a (rp_key r) (ds_byAgent s)) → a = rp_agent r).
  { intros a [it' Ha]. by apply (intent_at_agent (ds_byAgent s) a (rp_agent r) (rp_key r) it' it). }
  destruct result as [pid|].
  - unfold onSpawned. simpl. rewrite Hat. injection Hst as <- _.
    exists (set_pid (rp_agent r) (rp_key r) (live_pid pid) (ds_byAgent s)). split; [split|reflexivity].
    + apply agents_ok_set_pid; [done|]. intros p Hp. unfold live_pid in Hp. apply bind_Some in Hp as (z & -> & Hz).
      destruct (1 <? z) eqn:E; [|done]. injection Hz as <-. by apply Z.ltb_lt.
    + intros a k Hk. rewrite intent_at_set_pid, decide_False; [done|]. by intros [_ ?].
    + intros a Ha. rewrite intent_at_set_pid in Ha. case_decide as Hd; [by destruct Hd|by apply Hown].
    + intros a rec Hg. destruct (get_set_pid (rp_agent r) (rp_key r) (live_pid pid) (ds_byAgent s) a) as (g & Hgg & Hsame).
      rewrite Hgg in Hg. apply fmap_Some in Hg as (rec0 & Hg & ->). exists rec0. split; [done|apply Hsame].
  - exists (ds_byAgent s). split; [split; [done|done|done|]|reflexivity]. intros a rec Hg. by exists rec.
Qed.

Lemma store_ok_resolve now s i result t : store_ok [] now s → store_ok [] now (replay_resolved i result t s).
Proof.
  intros Hs. destruct (ds_replays s !! i) as [r|] eqn:Hi; [|unfold replay_resolved; by rewrite Hi].
  destruct (resolved_form now s i result t r Hs Hi) as (l & Hak & ->). by apply store_ok_taken_out.
Qed.

(** ** The tick *)

Lemma behind_set_pid b l a k st p :
  look l a k = Some (st, p) → behind b l → behind b (set_pid a k None l).
Proof.
  intros Hk [H1 H2]. split; [by rewrite strip_set_pid|]. intros a' k' st' q. rewrite (look_set_pid l a k None st p) by done.
  case_decide; [done|apply H2].
Qed.

Lemma mirrored_set_pid s a k st p :
  look (ds_byAgent s) a k = Some (st, p) → mirrored s → mirrored (s<|ds_byAgent ::= set_pid a k None|>).
Proof.
  unfold mirrored. simpl. intros Hk. destruct (ds_file s) as [raw|]; [|by intros ->].
  intros (b & Hr & Hb & Hbl). exists b. split_and!; [done|done|]. by apply (behind_set_pid b _ a k st p).
Qed.

Lemma store_ok_begin now s r todo :
  store_ok (rp_key r :: todo) now s → (rp_key r ∉ todo) → rp_key r ∈ ds_inFlightReplay s →
  (∃ p, look (ds_byAgent s) (rp_agent r) (rp_key r) = Some (dispatching, p)) → store_ok todo now (replayOne r s).
Proof.
  intros [H1 H2 H3 H4] Ht Hi [p Hp]. assert (Hat := Hp). unfold look in Hat. apply fmap_Some in Hat as (it & Hat & [= _ ->]).
  unfold replayOne. rewrite Hat. simpl. destruct (si_spawnedPid it) as [pid|].
  - destruct (includes (ds_bootDispatching s) (rp_key r)) eqn:Eb; [|apply includes_false in Eb].
    + assert (Hpid : ∀ q, None = Some q → 1 < q) by done. split; simpl.
      * by apply agents_ok_set_pid.
      * by apply (mirrored_set_pid s _ _ dispatching (Some pid)).
      * by apply (armed_set_pid now s).
      * apply (books_begin _ _ _ _ _ r todo None); try done; [|rewrite (look_set_pid _ _ _ _ dispatching (Some pid)) by done; by rewrite decide_True|by left].
        eapply books_reap; [exact H4|exact Hp|]. intros a k. by apply (look_set_pid _ _ _ None dispatching (Some pid)).
    + split; try done. simpl. apply (books_begin _ _ _ _ _ r todo (Some pid)); try done. by right.
  - split; try done. simpl. apply (books_begin _ _ _ _ _ r todo None); try done. by left.
Qed.

Lemma look_replayOne s r a k p :
  look (ds_byAgent s) a k = Some (dispatching, p) → ∃ q, look (ds_byAgent (replayOne r s)) a k = Some (dispatching, q).
Proof.
  intros Hk. unfold replayOne. destruct (intent_at (rp_agent r) (rp_key r) (ds_byAgent s)) as [it|] eqn:Hat; [|simpl; eauto].
  simpl. destruct (si_spawnedPid it) as [pid|]; [|simpl; eauto]. destruct (includes _ _); [|simpl; eauto]. simpl.
  assert (Hl : look (ds_byAgent s) (rp_agent r) (rp_key r) = Some (si_status it, si_spawnedPid it)) by (unfold look; by rewrite Hat).
  rewrite (look_set_pid _ _ _ _ _ _ _ _ Hl). case_decide as Hd; [|eauto]. destruct Hd as [-> ->]. rewrite Hl in Hk. injection Hk as -> _. eauto.
Qed.

Lemma inflight_replayOne s r : ds_inFlightReplay (replayOne r s) = ds_inFlightReplay s.
Proof. unfold replayOne. destruct (_ ≫= _); [by destruct (includes _ _)|done]. Qed.

Lemma store_ok_begin_all now rs : ∀ s,
  store_ok (List.map rp_key rs) now s → NoDup (List.map rp_key rs) →
  (∀ r, r ∈ rs → rp_key r ∈ ds_inFlightReplay s ∧ ∃ p, look (ds_byAgent s) (rp_agent r) (rp_key r) = Some (dispatching, p)) →
  store_ok [] now (foldl (λ s r, replayOne r s) s rs).
Proof.
  induction rs as [|r rs IH]; intros s Hs Hnd Hrs; [done|]. simpl in *. apply NoDup_cons in Hnd as [Hn Hnd].
  destruct (Hrs r (list_elem_of_here _ _)) as [Hi Hp]. apply IH; [by apply store_ok_begin|done|].
  intros r' Hr'. destruct (Hrs r' (list_elem_of_further _ _ _ Hr')) as [Hi' [p' Hp']]. rewrite inflight_replayOne.
  split; [done|]. by apply look_replayOne with p'.
Qed.

Lemma marked_same now inF l : due_replays now inF l = [] → List.map (marked now inF) l = l.
Proof.
  induction l as [|[a rec] l IH]; [done|]. simpl. unfold marked at 1. simpl. destruct (is_due now rec).
  - intros [Hr Hd]%app_eq_nil. rewrite IH by done. f_equal. f_equal. destruct rec as [u re la si its]. simpl in *. f_equal.
    unfold replays_of in Hr. apply List.map_eq_nil in Hr. rewrite <- (List.map_id its) at 2. apply List.map_ext_in.
    intros e He. unfold dispatched. apply list_elem_of_In in He. pose proof (proj1 (lfilter_nil _ _) Hr e He) as Hi. simpl in Hi.
    by apply negb_false_iff in Hi as ->.
  - intros Hd. by rewrite IH.
Qed.

Lemma record_ok_dispatched a inF rec : record_ok a rec → record_ok a (rec<|ar_intents ::= List.map (dispatched inF)|>).
Proof.
  intros [H1 H2 H3 H4 H5 H6]. assert (Hf : ∀ e, (dispatched inF e).1 = e.1) by (intros e; unfold dispatched; by destruct (includes _ _)).
  split; simpl; try done.
  - unfold JMap.keys in *. rewrite List.map_map. by rewrite (List.map_ext _ fst) by done.
  - intros k it (e & He & Hin)%elem_of_map. destruct e as [k0 it0]. specialize (H6 _ _ Hin). unfold dispatched in He. simpl in He.
    destruct (includes inF k0); simplify_eq; [done|]. destruct H6 as [? ? ? ?]. by split.
Qed.

Lemma fire_eq now s :
  agents_ok (ds_byAgent s) →
  fire now s =
    let rs := due_replays now (ds_inFlightReplay s) (ds_byAgent s) in
    let s1 := s<|ds_timer := None|><|ds_byAgent := List.map (marked now (ds_inFlightReplay s)) (ds_byAgent s)|>
               <|ds_inFlightReplay := ds_inFlightReplay s ++ List.map rp_key rs|> in
    (foldl (λ s r, replayOne r s) (arm now (match rs with [] => s1 | _ => persist s1 end)) rs, rs).
Proof.
  intros Hl. unfold fire. pose proof (drain_eq now (ds_inFlightReplay s) (ds_byAgent s) [] Hl (NoDup_nil_2)) as Hd.
  rewrite app_nil_r in Hd. rewrite Hd; [done|]. by intros a rec k _ _ ?%elem_of_nil.
Qed.

Lemma agents_ok_marked now inF l : agents_ok l → agents_ok (List.map (marked now inF) l).
Proof.
  intros Hl. apply agents_ok_map; [done|intros x; unfold marked; by destruct (is_due now x.2)|].
  intros a rec Ha. unfold marked. simpl. apply (ao_records _ Hl) in Ha. destruct (is_due now rec); [by apply record_ok_dispatched|done].
Qed.

(** The keys a tick drains, as the views of the intents see them. *)
Lemma look_drained now s a k :
  agents_ok (ds_byAgent s) →
  look (List.map (marked now (ds_inFlightReplay s)) (ds_byAgent s)) a k =
    (λ v, if includes (List.map rp_key (due_replays now (ds_inFlightReplay s) (ds_byAgent s))) k then (dispatching, v.2) else v)
      <$> look (ds_byAgent s) a k.
Proof.
  intros Hl. rewrite look_marked. destruct (JMap.get (ds_byAgent s) a) as [rec|] eqn:Hg; [|unfold look, intent_at; by rewrite Hg].
  destruct (look (ds_byAgent s) a k) as [v|] eqn:Hv; [|done]. simpl.
  assert (Hk : is_Some (JMap.get (ar_intents rec) k)).
  { unfold look, intent_at in Hv. rewrite Hg in Hv. simpl in Hv. by apply fmap_Some in Hv as (it & -> & _). }
  replace (is_due now rec && negb (includes (ds_inFlightReplay s) k)) with
    (includes (List.map rp_key (due_replays now (ds_inFlightReplay s) (ds_byAgent s))) k); [done|].
  apply eq_true_iff_eq. rewrite includes_true, andb_true_iff, negb_true_iff, includes_false, elem_of_map. split.
  - intros (r & -> & (rec' & Hg' & Hd & Hs & Hn)%elem_of_due_replays); [|done].
    assert (a = rp_agent r) as ->.
    { apply (look_agent (ds_byAgent s) a (rp_agent r) (rp_key r)); [done|eauto|]. destruct Hs as [it Hit].
      unfold look. apply fmap_is_Some. exists it. apply intent_at_Some. eauto. }
    rewrite Hg in Hg'. by injection Hg' as <-.
  - intros [Hd Hn]. exists {| rp_agent := a; rp_key := k |}. split; [done|]. apply elem_of_due_replays; [done|]. by exists rec.
Qed.

Lemma store_ok_drain now s :
  store_ok [] now s →
  let rs := due_replays now (ds_inFlightReplay s) (ds_byAgent s) in
  let s1 := s<|ds_timer := None|><|ds_byAgent := List.map (marked now (ds_inFlightReplay s)) (ds_byAgent s)|>
             <|ds_inFlightReplay := ds_inFlightReplay s ++ List.map rp_key rs|> in
  store_ok (List.map rp_key rs) now (arm now (match rs with [] => s1 | _ => persist s1 end)).
Proof.
  intros [H1 H2 H3 H4] rs s1. assert (Hl := agents_ok_marked now (ds_inFlightReplay s) _ H1).
  assert (Hm : mirrored (match rs with [] => s1 | _ => persist s1 end)).
  { destruct rs as [|r rs'] eqn:E; [|by apply persist_mirrored]. unfold mirrored, s1 in *. simpl. by rewrite marked_same. }
  assert (Hb : books (List.map rp_key rs) (look (ds_byAgent s1)) (ds_inFlightReplay s1) (ds_bootDispatching s) (ds_replays s) (ds_harnesses s)).
  { eapply books_drain; [exact H4|intros a k; by apply look_drained|]. intros k (r & -> & Hr)%elem_of_map.
    apply elem_of_due_replays in Hr as (rec & Hg & _ & [it Hit] & Hn); [|done]. split; [done|]. exists (rp_agent r).
    unfold look. apply fmap_is_Some. exists it. apply intent_at_Some. eauto. }
  destruct rs as [|r rs'] eqn:E; (split; [done|exact Hm|by apply arm_armed|exact Hb]).
Qed.

Lemma fire_ready now s r :
  agents_ok (ds_byAgent s) →
  r ∈ due_replays now (ds_inFlightReplay s) (ds_byAgent s) →
  ∃ p, look (List.map (marked now (ds_inFlightReplay s)) (ds_byAgent s)) (rp_agent r) (rp_key r) = Some (dispatching, p).
Proof.
  intros Hl Hr. assert (Hk := elem_of_map_2 rp_key _ _ Hr). apply elem_of_due_replays in Hr as (rec & Hg & _ & [it Hit] & Hn); [|done].
  rewrite look_drained by done. apply includes_true in Hk. unfold look. rewrite (proj2 (intent_at_Some _ _ _ it)) by eauto.
  simpl. rewrite Hk. by eexists.
Qed.

Lemma store_ok_fire now s : store_ok [] now s → store_ok [] now (fst (fire now s)).
Proof.
  intros Hs. rewrite fire_eq by apply Hs. cbn zeta. pose proof (store_ok_drain now s Hs) as Hd. cbn zeta in Hd.
  set (rs := due_replays _ _ _) in *. apply store_ok_begin_all; [exact Hd|by apply due_replays_distinct; apply Hs|].
  intros r Hr. assert (Hi : rp_key r ∈ ds_inFlightReplay s ++ List.map rp_key rs) by (apply elem_of_app; right; by apply elem_of_map_2).
  pose proof (fire_ready now s r (so_agents _ _ _ Hs) Hr) as Hv. fold rs in Hv. destruct rs; (split; [exact Hi|exact Hv]).
Qed.

(** ** A restart *)

Lemma in_survivors l a k p : look l a k = Some (dispatching, Some p) → k ∈ survivors l.
Proof.
  unfold look. intros (it & (rec & Hg & Hk)%intent_at_Some & [= Hs Hp])%fmap_Some. apply JMap.get_Some_elem in Hg, Hk.
  unfold survivors. apply list_elem_of_In, in_flat_map. exists (a, rec). split; [by apply list_elem_of_In|].
  apply list_elem_of_In, list_elem_of_omap. exists (k, it). split; [done|]. simpl. by rewrite <- Hs, <- Hp.
Qed.

Lemma harness_intent todo V inF boot rs H h :
  books todo V inF boot rs H → h ∈ H → ∃ a, V a h.1.1 = Some (dispatching, Some h.1.2).
Proof. intros Hb Hin. destruct h as [[k p] []]; [by apply (bk_own _ _ _ _ _ _ Hb) in Hin as (_ & _ & ?)|by apply (bk_left _ _ _ _ _ _ Hb) in Hin as (_ & _ & ?)]. Qed.

(** What the file reads back as. *)
Lemma load_reads f now s :
  agents_ok (ds_byAgent s) → mirrored s →
  ∃ b, (match ds_file s with Some raw => load_agents f now raw | None => [] end) = b ∧ agents_ok b ∧ behind b (ds_byAgent s).
Proof.
  intros Hl. unfold mirrored. destruct (ds_file s) as [raw|].
  - intros (b & -> & Hb & Hbl). exists b. split_and!; [by apply load_agents_json|done|done].
  - intros Hnil. exists []. rewrite Hnil in *. done.
Qed.

Lemma store_ok_load f now now' s : store_ok [] now s → store_ok [] now' (load f now' s).
Proof.
  intros [H1 H2 H3 H4]. destruct (load_reads f now' s H1 H2) as (b & Hb & Hok & Hbl). unfold load. rewrite Hb.
  split; [done| |by apply arm_armed|].
  - unfold mirrored in *. simpl. destruct (ds_file s) as [raw|]; [|congruence]. destruct H2 as (b' & -> & Hb' & _).
    exists b'. rewrite load_agents_json in Hb by done. by subst.
  - simpl. assert (Hh : ∀ h, h ∈ ds_harnesses s → ∃ a, look b a h.1.1 = Some (dispatching, Some h.1.2)).
    { intros h Hin. destruct (harness_intent _ _ _ _ _ _ h H4 Hin) as [a Ha]. exists a. by apply (proj2 Hbl). }
    split.
    + intros a c k. by apply look_agent.
    + by intros k ?%elem_of_nil.
    + by intros r ?%elem_of_nil.
    + constructor.
    + intros k p (h & He & _)%elem_of_map. by simplify_eq.
    + intros k p (h & He & Hin)%elem_of_map. destruct h as [[k' p'] c]. simpl in He. injection He as -> ->. destruct (Hh _ Hin) as [a Ha]. simpl in Ha.
      split_and!; [apply elem_of_new_Set; by apply (in_survivors b a k' p')|by intros ?%elem_of_nil|by exists a].
    + rewrite List.map_map. exact (bk_one _ _ _ _ _ _ H4).
Qed.

(** ** Histories *)

Lemma store_ok_exit now s pid : store_ok [] now s → store_ok [] now (s<|ds_harnesses ::= lfilter (λ h, negb (h.1.2 =? pid))|>).
Proof.
  intros [H1 H2 H3 [B1 B2 B3 B4 B5 B6 B7]]. split; [done|done|done|]. simpl. split; try done.
  - intros k p [Hin _]%elem_of_lfilter. by apply B5.
  - intros k p [Hin _]%elem_of_lfilter. by apply B6.
  - by apply NoDup_map_lfilter.
Qed.

Lemma store_ok_step f t c s :
  0 < t → t <= clock t c → orderly_call c s → store_ok [] t s → store_ok [] (clock t c) (fst (step_store f c s)).
Proof.
  intros Hpos Hle Hord Hs. apply (store_ok_later [] t (clock t c) s Hle) in Hs as Hs'. destruct c; simpl in *.
  - destruct (store_ok_limit now now s agentId deferUntilMs reason resetLabel Hs') as [H| ->]; [lia|done|exact H|exact Hs'].
  - pose proof (store_ok_add now s agentId meta raw kind Hs' ltac:(lia) Hord) as H. by destruct (addPendingIntent _ _ _ _ _ _).
  - by apply store_ok_cancel.
  - by apply (store_ok_clear t).
  - destruct (ticks now s); [|done]. pose proof (store_ok_fire now s Hs') as H. by destruct (fire now s).
  - destruct Hord as [Hp Hown]. apply store_ok_spawn; [done|done|]. intros r p Hr. by apply Hown.
  - by apply store_ok_resolve.
  - by apply store_ok_throw.
  - by apply store_ok_exit.
  - by apply (store_ok_load f t).
Qed.

Lemma empty_store_ok now : store_ok [] now empty_store.
Proof.
  split; [split; [constructor|by intros a rec ?%elem_of_nil]|done|by intros a rec Hg|]. split; simpl.
  - by intros a b k [v Hv].
  - by intros k ?%elem_of_nil.
  - by intros r ?%elem_of_nil.
  - constructor.
  - by intros k p ?%elem_of_nil.
  - by intros k p ?%elem_of_nil.
  - constructor.
Qed.

Lemma run_store_ok f t cs : ∀ s,
  0 < t → store_ok [] t s → orderly f t cs s → store_ok [] (clocks t cs) (fst (run_store f cs s)) ∧ t <= clocks t cs.
Proof.
  revert t. induction cs as [|c cs IH]; intros t s Hpos Hs Hord; simpl; [split; [done|lia]|].
  destruct Hord as [[Hle Hc] Hord]. assert (Hstep := store_ok_step f t c s Hpos Hle Hc Hs).
  destruct (step_store f c s) as [s1 es1]. simpl in *. destruct (IH (clock t c) s1 ltac:(lia) Hstep Hord) as [H1 H2].
  destruct (run_store f cs s1) as [s2 es2]. simpl in *. split; [done|lia].
Qed.
