(* ===== verification/DeferGuarantees.v ===== *)
(** * The deferral store: the guarantees

    What holds after any history of limits, dispatches, replays, withdrawals and
    deaths of the manager. *)

From S2P Require Import Prelude JsStd Json DeferStore DeferFacts.
#[local] Open Scope Z_scope.

(** ** Intents that wait *)

(** No replay of it was started by this manager. *)
Definition waiting (k : string) (s : Store) : Prop :=
  (∃ a, is_Some (intent_at a k (ds_byAgent s))) ∧ (k ∉ ds_inFlightReplay s).

Definition starts (k : string) (es : list Happening) : nat := length (filter (λ e, e = started k) es).
Definition creations (k : string) (es : list Happening) : nat := length (filter (λ e, e = created k) es).

Definition is_restart (c : command) : nat := match c with d_restart _ => 1 | _ => 0 end.
Definition restarts (cs : list command) : nat := sum_list_with is_restart cs.

(** Whatever waits afterwards waited before. *)
Definition shrinks (s s' : Store) : Prop := ∀ k, waiting k s' → waiting k s.

Lemma shrinks_refl s : shrinks s s.
Proof. by intros k. Qed.
#[local] Hint Resolve shrinks_refl : core.

Lemma shrinks_same s s' :
  (∀ a k, is_Some (intent_at a k (ds_byAgent s')) → is_Some (intent_at a k (ds_byAgent s))) →
  ds_inFlightReplay s' = ds_inFlightReplay s → shrinks s s'.
Proof. intros Hat Hi k [[a Ha] Hn]. rewrite Hi in Hn. split; [eauto|done]. Qed.

Lemma shrinks_forget s l ks :
  (∀ a k it, intent_at a k l = Some it → intent_at a k (ds_byAgent s) = Some it ∧ (k ∉ ks)) →
  shrinks s (persist ((forget ks s)<|ds_byAgent := l|>)).
Proof.
  intros Hat k [[a [it Ha]] Hn]. apply Hat in Ha as [Ha Hk]. split; [eauto|]. intros Hin. apply Hn. by apply elem_of_keep.
Qed.

Lemma shrinks_limit s a until reason label now : shrinks s (fst (recordSessionLimit a until reason label now s)).
Proof.
  unfold recordSessionLimit. destruct (negb (truthy a)); [done|]. destruct (until <=? now); [done|].
  assert (Hgo : ∀ rec, (∀ k, is_Some (JMap.get (ar_intents rec) k) → is_Some (intent_at a k (ds_byAgent s))) →
    shrinks s (arm now (persist (s<|ds_byAgent ::= λ m, JMap.set m a rec|>)))).
  { intros rec Hk. apply shrinks_same; [|done]. intros b k. simpl. rewrite intent_at_set.
    destruct (String.eqb a b) eqn:E; [|done]. apply String.eqb_eq in E as <-. apply Hk. }
  destruct (JMap.get (ds_byAgent s) a) as [old|] eqn:Hg.
  - destruct (_ <? _); [|done]. apply Hgo. intros k. unfold intent_at. by rewrite Hg.
  - apply Hgo. by intros k [it Hit].
Qed.

Lemma shrinks_cancel now s t : store_ok [] now s → shrinks s (cancelByTicket t s).
Proof.
  intros Hs. unfold cancelByTicket. destruct (truthy t); [|done]. cbn [negb]. destruct (cancelled t (ds_byAgent s)) as [|k ks] eqn:E; [done|].
  rewrite <- E. apply (shrinks_forget s (without_ticket t (ds_byAgent s)) (cancelled t (ds_byAgent s))).
  intros a k' it. by rewrite (intent_at_without_ticket t (ds_byAgent s) a k' it (so_agents _ _ _ Hs)).
Qed.

Lemma shrinks_clear now s a t : store_ok [] now s → shrinks s (clear a t s).
Proof.
  intros Hs. unfold clear. destruct (truthy a); [|done]. cbn [negb]. destruct (JMap.get (ds_byAgent s) a) as [rec|] eqn:Hg; [|done].
  apply (shrinks_forget s (without_agent a (ds_byAgent s)) (JMap.keys (ar_intents rec))). intros b k it.
  by rewrite (intent_at_without_agent a (ds_byAgent s) rec b k it (so_agents _ _ _ Hs) Hg).
Qed.

Lemma shrinks_resolve now s i result t : store_ok [] now s → shrinks s (replay_resolved i result t s).
Proof.
  intros Hs. destruct (ds_replays s !! i) as [r|] eqn:Hi; [|unfold replay_resolved; by rewrite Hi].
  destruct (resolved_form now s i result t r Hs Hi) as (l & Hak & ->). intros k [[a [it Ha]] Hn].
  apply (intent_at_taken_out i r t l s) in Ha as [Ha Hk]; [|done]. split; [eauto|]. intros Hin. apply Hn. apply elem_of_keep.
  by rewrite list_elem_of_singleton.
Qed.

Lemma shrinks_spawn s i pid : shrinks s (replay_spawns i pid s).
Proof.
  unfold replay_spawns. destruct (ds_replays s !! i) as [r|]; [|done]. unfold onSpawned.
  destruct (intent_at _ _ _) as [it|]; [|by apply shrinks_same]. destruct (si_status it); [by apply shrinks_same|].
  apply shrinks_same; [|done]. intros a k. simpl. rewrite intent_at_set_pid. case_decide as Hd; [|done].
  destruct Hd as [-> ->]. by rewrite fmap_is_Some.
Qed.

Lemma waiting_add now s a meta raw kind k :
  waiting k (fst (addPendingIntent a meta raw kind now s)) →
  waiting k s ∨ snd (addPendingIntent a meta raw kind now s) = true ∧ k = dispatch_key (im_ticketId meta) (im_role meta) (im_agentId meta).
Proof.
  unfold addPendingIntent. destruct (JMap.get (ds_byAgent s) a) as [rec|] eqn:Hg; [|by left]. destruct (_ || _); [by left|].
  set (key := dispatch_key _ _ _). assert (Hput : ∀ it b k', is_Some (intent_at b k' (put_intent a key it (ds_byAgent s))) →
    is_Some (intent_at b k' (ds_byAgent s)) ∨ b = a ∧ k' = key).
  { intros it b k' H. assert (Hl : is_Some (look (put_intent a key it (ds_byAgent s)) b k')) by (unfold look; by apply fmap_is_Some).
    rewrite (look_put _ _ _ _ _ _ rec Hg) in Hl. case_decide; [by right|left]. unfold look in Hl. by apply fmap_is_Some in Hl. }
  destruct (JMap.get (ar_intents rec) key) as [it|] eqn:Hk; simpl; intros [[b Hb] Hn]; simpl in Hb.
  - left. apply Hput in Hb as [Hb|[-> ->]]; (split; [|done]); [eauto|]. exists a, it. apply intent_at_Some. eauto.
  - apply Hput in Hb as [Hb|[-> ->]]; [left; split; [eauto|done]|by right].
Qed.

(** ** A tick *)

Lemma fire_inflight now s :
  agents_ok (ds_byAgent s) →
  ds_inFlightReplay (fst (fire now s)) =
    ds_inFlightReplay s ++ List.map rp_key (due_replays now (ds_inFlightReplay s) (ds_byAgent s)) ∧
  snd (fire now s) = due_replays now (ds_inFlightReplay s) (ds_byAgent s).
Proof.
  intros Hl. rewrite fire_eq by done. simpl. split; [|done]. set (rs := due_replays _ _ _).
  assert (Hgo : ∀ rs0 s0, ds_inFlightReplay (foldl (λ s r, replayOne r s) s0 rs0) = ds_inFlightReplay s0).
  { induction rs0 as [|r rs0 IH]; intros s0; [done|]. simpl. rewrite IH. apply inflight_replayOne. }
  rewrite Hgo. by destruct rs.
Qed.

Lemma fire_intents now s a k :
  agents_ok (ds_byAgent s) → is_Some (intent_at a k (ds_byAgent (fst (fire now s)))) → is_Some (intent_at a k (ds_byAgent s)).
Proof.
  intros Hl. rewrite fire_eq by done. simpl. set (rs := due_replays _ _ _).
  assert (Hgo : ∀ rs0 s0, is_Some (intent_at a k (ds_byAgent (foldl (λ s r, replayOne r s) s0 rs0))) → is_Some (intent_at a k (ds_byAgent s0))).
  { induction rs0 as [|r rs0 IH]; intros s0; [done|]. simpl. intros H%IH. revert H. unfold replayOne.
    destruct (_ ≫= _) as [pid|]; [|done]. destruct (includes _ _); [|done]. simpl. rewrite intent_at_set_pid.
    case_decide as Hd; [|done]. destruct Hd as [-> ->]. by rewrite fmap_is_Some. }
  intros H%Hgo. assert (Hm : is_Some (look (List.map (marked now (ds_inFlightReplay s)) (ds_byAgent s)) a k)).
  { unfold look. apply fmap_is_Some. by destruct rs. }
  rewrite look_drained in Hm by done. apply fmap_is_Some in Hm. unfold look in Hm. by apply fmap_is_Some in Hm.
Qed.

(** A replay that a tick starts was waiting, and waits no more. *)
Lemma fire_waiting now s k :
  agents_ok (ds_byAgent s) →
  (waiting k (fst (fire now s)) → waiting k s) ∧
  (k ∈ List.map rp_key (snd (fire now s)) → waiting k s ∧ ¬ waiting k (fst (fire now s))).
Proof.
  intros Hl. destruct (fire_inflight now s Hl) as [Hi Hr]. split.
  - intros [[a Ha] Hn]. split; [exists a; by apply (fire_intents now)|]. rewrite Hi in Hn. by apply not_elem_of_app in Hn as [Hn _].
  - rewrite Hr. intros Hk. split.
    + apply elem_of_map in Hk as (r & -> & (rec & Hg & _ & [it Hit] & Hn)%elem_of_due_replays); [|done].
      split; [|done]. exists (rp_agent r), it. apply intent_at_Some. eauto.
    + intros [_ Hn]. apply Hn. rewrite Hi. apply elem_of_app. by right.
Qed.

(** ** Counting replays *)

Definition waitingb (k : string) (s : Store) : bool :=
  lsome (λ x, JMap.has (ar_intents x.2) k) (ds_byAgent s) && negb (includes (ds_inFlightReplay s) k).

Lemma waitingb_true k s : agents_ok (ds_byAgent s) → waitingb k s = true ↔ waiting k s.
Proof.
  intros Hl. unfold waitingb, waiting. rewrite andb_true_iff, negb_true_iff, includes_false, lsome_true. split; intros [H Hn]; (split; [|done]).
  - destruct H as ([a rec] & Ha & [it Hk]%JMap.has_keys%JMap.get_is_Some_keys). exists a, it. apply intent_at_Some. exists rec.
    split; [by apply JMap.elem_get; [apply Hl|]|done].
  - destruct H as (a & it & (rec & Hg & Hk)%intent_at_Some). exists (a, rec). split; [by apply JMap.get_Some_elem|].
    apply JMap.has_keys, JMap.get_is_Some_keys. by exists it.
Qed.

Lemma shrinks_count k s s' :
  agents_ok (ds_byAgent s) → agents_ok (ds_byAgent s') → (waiting k s' → waiting k s) → (Nat.b2n (waitingb k s') <= Nat.b2n (waitingb k s))%nat.
Proof.
  intros Hl Hl' Hsh. destruct (waitingb k s') eqn:E; [|simpl; lia]. apply waitingb_true, Hsh, waitingb_true in E; [|done|done]. by rewrite E.
Qed.

Lemma starts_replays k rs :
  NoDup (List.map rp_key rs) → starts k (List.map (λ r, started (rp_key r)) rs) = Nat.b2n (includes (List.map rp_key rs) k).
Proof.
  unfold starts. induction rs as [|r rs IH]; [done|]. simpl. intros [Hn Hnd]%NoDup_cons. rewrite includes_cons.
  destruct (decide (k = rp_key r)) as [->|Hne].
  - rewrite String.eqb_refl, filter_cons_True by done. simpl. rewrite IH by done. by rewrite (proj2 (includes_false _ _) Hn).
  - rewrite filter_cons_False by congruence. rewrite IH by done. apply not_eq_sym, String.eqb_neq in Hne. by rewrite Hne.
Qed.

Lemma creations_replays k rs : creations k (List.map (λ r, started (rp_key r)) rs) = 0%nat.
Proof. unfold creations. induction rs as [|r rs IH]; [done|]. simpl. by rewrite filter_cons_False. Qed.

Lemma created_counts k x :
  starts k [created x] = 0%nat ∧ creations k [created x] = if decide (x = k) then 1%nat else 0%nat.
Proof.
  unfold starts, creations. rewrite filter_cons_False by done. split; [done|]. case_decide as Hd.
  - rewrite filter_cons_True by congruence. done.
  - rewrite filter_cons_False by congruence. done.
Qed.

Section counting.
Context (f : jsval → Z) (k : string).

Lemma count_step t c s :
  0 < t → t <= clock t c → orderly_call c s → store_ok [] t s →
  let r := step_store f c s in
  (starts k (snd r) + Nat.b2n (waitingb k (fst r)) <= creations k (snd r) + is_restart c + Nat.b2n (waitingb k s))%nat.
Proof.
  intros Hpos Hle Hord Hs. pose proof (so_agents _ _ _ (store_ok_step f t c s Hpos Hle Hord Hs)) as Hl'.
  pose proof (so_agents _ _ _ Hs) as Hl. cbv zeta.
  assert (Hsh : ∀ s', agents_ok (ds_byAgent s') → shrinks s s' → (0 + Nat.b2n (waitingb k s') <= 0 + 0 + Nat.b2n (waitingb k s))%nat).
  { intros s' H1 H2. apply shrinks_count; [done|done|apply H2]. }
  destruct c; simpl in *.
  - apply Hsh; [done|apply shrinks_limit].
  - pose proof (waiting_add now s agentId meta raw kind k) as Hw. destruct (addPendingIntent agentId meta raw kind now s) as [s' fresh].
    simpl in *. destruct (created_counts k (dispatch_key (im_ticketId meta) (im_role meta) (im_agentId meta))) as [H0 H1].
    assert (Hnew : (starts k (if fresh then [created (dispatch_key (im_ticketId meta) (im_role meta) (im_agentId meta))] else []) = 0)%nat)
      by (by destruct fresh).
    rewrite Hnew. destruct (waitingb k s') eqn:E; [|simpl; lia]. apply waitingb_true in E; [|done]. destruct (Hw E) as [Hold|[-> Hk]].
    + apply waitingb_true in Hold; [|done]. rewrite Hold. simpl. lia.
    + rewrite H1, decide_True by done. simpl. lia.
  - apply Hsh; [done|by apply (shrinks_cancel t)].
  - apply Hsh; [done|by apply (shrinks_clear t)].
  - destruct (ticks now s); [|by apply Hsh]. pose proof (fire_waiting now s k Hl) as [Hw Hk].
    pose proof (proj2 (fire_inflight now s Hl)) as Hrs. destruct (fire now s) as [s' rs]. simpl in *. subst rs.
    rewrite starts_replays, creations_replays by by apply due_replays_distinct. destruct (includes _ k) eqn:Ek.
    + apply includes_true in Ek. destruct (Hk Ek) as [H1 H2]. apply waitingb_true in H1; [|done]. rewrite H1.
      destruct (waitingb k s') eqn:E; [|simpl; lia]. by apply waitingb_true in E.
    + by apply shrinks_count.
  - apply Hsh; [done|apply shrinks_spawn].
  - apply Hsh; [done|by apply (shrinks_resolve t)].
  - apply Hsh; [done|by apply shrinks_same].
  - apply Hsh; [done|by apply shrinks_same].
  - destruct (waitingb k (load f now s)); unfold starts, creations; simpl; lia.
Qed.

Lemma count_history cs : ∀ t s,
  0 < t → store_ok [] t s → orderly f t cs s →
  (starts k (snd (run_store f cs s)) <= creations k (snd (run_store f cs s)) + restarts cs + Nat.b2n (waitingb k s))%nat.
Proof.
  induction cs as [|c cs IH]; intros t s Hpos Hs Hord; simpl; [unfold starts, creations; simpl; lia|].
  destruct Hord as [[Hle Hc] Hord]. assert (Hstep := store_ok_step f t c s Hpos Hle Hc Hs).
  pose proof (count_step t c s Hpos Hle Hc Hs) as Hcount. destruct (step_store f c s) as [s1 es1]. simpl in *.
  specialize (IH (clock t c) s1 ltac:(lia) Hstep Hord). destruct (run_store f cs s1) as [s2 es2]. simpl in *.
  unfold starts, creations, restarts in *. rewrite !filter_app, !length_app. simpl. lia.
Qed.
End counting.

(** ** The promises *)

(** A session limit at 10 resets at 100; a trigger arrives meanwhile; its replay
    spawns harness 42 and the manager dies; the next one ends 42 and spawns 43. *)
Definition deferred_meta : InflightDispatchMeta := {| im_ticketId := "t"; im_role := "r"; im_agentId := "a" |}.
Definition first_manager : list command :=
  [d_limit "a" 100 None None 10; d_add "a" deferred_meta "raw" trigger 20; d_tick 100; d_spawn 0 42].
Definition two_managers : list command := first_manager ++ [d_restart 110; d_tick 110; d_spawn 0 43].

Lemma two_managers_orderly : orderly (λ _, 0%Z) 1 two_managers empty_store.
Proof.
  vm_compute. split_and!; try done; intros r p [= <-]; simpl; by intros ?%elem_of_nil.
Qed.

Lemma first_manager_orderly : orderly (λ _, 0%Z) 1 first_manager empty_store.
Proof.
  vm_compute. split_and!; try done; intros r p [= <-]; simpl; by intros ?%elem_of_nil.
Qed.

(** C39: no twins.  Whenever the manager dies, restarts, defers again or is told of
    replays that end or fail, of the harnesses reported for one deferred intent at
    most one is left that nobody has told to end: a new manager ends the one it
    finds on record before it replays the intent. *)
Theorem one_harness_per_intent f t cs h h' :
  0 < t → orderly f t cs empty_store →
  h ∈ ds_harnesses (fst (run_store f cs empty_store)) → h' ∈ ds_harnesses (fst (run_store f cs empty_store)) →
  h.1.1 = h'.1.1 → h = h'.
Proof.
  intros Hpos Hord Hh Hh' He. destruct (run_store_ok f t cs empty_store Hpos (empty_store_ok t) Hord) as [Hs _].
  by apply (NoDup_fmap_inj_on (fst ∘ fst) (ds_harnesses (fst (run_store f cs empty_store)))); [apply (bk_one _ _ _ _ _ _ (so_books _ _ _ Hs))|..].
Qed.

Lemma one_harness_per_intent_witness :
  ds_harnesses (fst (run_store (λ _, 0%Z) two_managers empty_store)) = [("t:r:a", 43, true)] ∧
  ("t:r:a", 42, true) ∉ ds_harnesses (fst (run_store (λ _, 0%Z) two_managers empty_store)).
Proof.
  split; [reflexivity|]. intros Hin.
  enough (("t:r:a", 42, true) = ("t:r:a", 43, true)) by discriminate.
  apply (one_harness_per_intent (λ _, 0%Z) 1 two_managers); [done|exact two_managers_orderly|exact Hin| |done].
  apply (bool_decide_unpack _). vm_compute. exact I.
Defined.

(** A restart keeps what was deferred.  Whatever the history, a manager that
    dies leaves a file from which the next one reads exactly the windows and
    intents in memory, but for the pids of harnesses ended since; every harness
    that outlives its manager is on record, marked to be ended before its intent
    is replayed; nothing is taken for being replayed; and reading the file again
    gives the same. *)
Theorem restart_keeps_deferred f t cs now :
  0 < t → orderly f t cs empty_store →
  let s := fst (run_store f cs empty_store) in
  let s' := load f now s in
  List.map strip (ds_byAgent s') = List.map strip (ds_byAgent s) ∧
  (∀ h, h ∈ ds_harnesses s → h.1.1 ∈ ds_bootDispatching s' ∧
     ∃ a it, intent_at a h.1.1 (ds_byAgent s') = Some it ∧ si_spawnedPid it = Some h.1.2) ∧
  ds_inFlightReplay s' = [] ∧ ds_byAgent (load f now s') = ds_byAgent s'.
Proof.
  intros Hpos Hord s s'. destruct (run_store_ok f t cs empty_store Hpos (empty_store_ok t) Hord) as [Hs _]. fold s in Hs.
  pose proof (store_ok_load f _ now s Hs) as Hs'. fold s' in Hs'.
  destruct (load_reads f now s (so_agents _ _ _ Hs) (so_file _ _ _ Hs)) as (b & Hb & Hok & Hst & Hpid).
  assert (Hby : ds_byAgent s' = b) by exact Hb. split_and!; [by rewrite Hby| |done|exact eq_refl].
  intros h Hin. assert (Hin' : (h.1, false) ∈ ds_harnesses s') by (apply elem_of_map; by exists h).
  destruct h as [[k p] c]. destruct (bk_left _ _ _ _ _ _ (so_books _ _ _ Hs') k p Hin') as (Hboot & _ & a & Ha). split; [done|].
  unfold look in Ha. apply fmap_Some in Ha as (it & Hit & [= _ Hp]). by exists a, it.
Qed.

Lemma restart_keeps_deferred_witness :
  let s' := load (λ _, 0%Z) 110 (fst (run_store (λ _, 0%Z) first_manager empty_store)) in
  "t:r:a" ∈ ds_bootDispatching s' ∧ ∃ a it, intent_at a "t:r:a" (ds_byAgent s') = Some it ∧ si_spawnedPid it = Some 42.
Proof.
  refine (proj1 (proj2 (restart_keeps_deferred (λ _, 0%Z) 1 first_manager 110 eq_refl first_manager_orderly)) ("t:r:a", 42, true) _).
  apply (bool_decide_unpack _). vm_compute. exact I.
Defined.

(** At most once.  In any history the replays of an intent are no more than
    the intents created under its key and the restarts of the manager, each of
    which may have interrupted one. *)
Theorem replayed_at_most_once f t cs k :
  0 < t → orderly f t cs empty_store →
  (starts k (snd (run_store f cs empty_store)) <= creations k (snd (run_store f cs empty_store)) + restarts cs)%nat.
Proof.
  intros Hpos Hord. pose proof (count_history f k cs t empty_store Hpos (empty_store_ok t) Hord) as H. simpl in H. lia.
Qed.

Lemma replayed_at_most_once_witness :
  snd (run_store (λ _, 0%Z) two_managers empty_store) = [created "t:r:a"; started "t:r:a"; started "t:r:a"] ∧
  (starts "t:r:a" (snd (run_store (λ _, 0%Z) two_managers empty_store)) <= 2)%nat.
Proof.
  split; [reflexivity|]. exact (replayed_at_most_once (λ _, 0%Z) 1 two_managers "t:r:a" eq_refl two_managers_orderly).
Defined.

(** A new intent waits: nothing is left in flight under its key. *)
Lemma new_intents_wait now s a meta raw kind :
  store_ok [] now s → 0 < now → im_agentId meta = a → snd (addPendingIntent a meta raw kind now s) = true →
  waiting (dispatch_key (im_ticketId meta) (im_role meta) a) (fst (addPendingIntent a meta raw kind now s)).
Proof.
  intros Hs Hpos Ha Hnew. pose proof (store_ok_add now s a meta raw kind Hs Hpos Ha) as Hs'. revert Hnew Hs'.
  unfold addPendingIntent. destruct (JMap.get (ds_byAgent s) a) as [rec|] eqn:Hg; [|done]. destruct (_ || _); [done|].
  rewrite Ha. set (key := dispatch_key _ _ _). destruct (JMap.get (ar_intents rec) key) as [it|] eqn:Hk; [done|]. simpl. intros _ Hs'.
  set (it := {| si_raw := raw |}) in *. assert (Hput : ∀ b k, look (put_intent a key it (ds_byAgent s)) b k =
    if decide (b = a ∧ k = key) then Some (pending, None) else look (ds_byAgent s) b k) by (intros b k; exact (look_put _ _ _ it b k rec Hg)).
  assert (Hnone : look (ds_byAgent s) a key = None) by (unfold look, intent_at; rewrite Hg; simpl; by rewrite Hk).
  split.
  - exists a. assert (Hl : is_Some (look (put_intent a key it (ds_byAgent s)) a key)) by (rewrite Hput, decide_True by done; by eexists).
    unfold look in Hl. by apply fmap_is_Some in Hl.
  - intros (b & p & Hb)%(bk_inflight _ _ _ _ _ _ (so_books _ _ _ Hs)). assert (Hab : b ≠ a) by (intros ->; congruence).
    apply Hab, (look_agent _ b a key (so_agents _ _ _ Hs')); simpl; rewrite Hput.
    + rewrite decide_False by (by intros [? _]). by eexists.
    + rewrite decide_True by done. by eexists.
Qed.

(** C40: at least once.  After any history, a deferred intent no replay of which was
    started by this manager is replayed by the first tick after its agent's
    window, and the timer is armed for then or earlier. *)
Theorem deferred_intents_fire f t cs a k it now :
  0 < t → orderly f t cs empty_store →
  let s := fst (run_store f cs empty_store) in
  intent_at a k (ds_byAgent s) = Some it → (k ∉ ds_inFlightReplay s) →
  ∃ rec at_, JMap.get (ds_byAgent s) a = Some rec ∧ ds_timer s = Some at_ ∧ at_ <= ar_deferUntilMs rec ∧
    (ar_deferUntilMs rec <= now → started k ∈ snd (step_store f (d_tick now) s)).
Proof.
  intros Hpos Hord s Hat Hn. destruct (run_store_ok f t cs empty_store Hpos (empty_store_ok t) Hord) as [Hs _]. fold s in Hs.
  pose proof (so_agents _ _ _ Hs) as Hl. assert (Hat' := Hat). apply intent_at_Some in Hat' as (rec & Hg & Hk).
  destruct (so_armed _ _ _ Hs a rec Hg) as (at_ & Ht & Hle); [right; apply undrained_true; eauto|].
  exists rec, at_. split_and!; [done..|]. intros Hdue. simpl. unfold ticks. rewrite Ht, (proj2 (Z.leb_le at_ now)) by lia.
  pose proof (proj2 (fire_inflight now s Hl)) as Hrs. destruct (fire now s) as [s' rs]. simpl in *. subst rs.
  apply elem_of_map. exists {| rp_agent := a; rp_key := k |}. split; [done|]. apply elem_of_due_replays; [done|]. exists rec.
  split_and!; [done|by apply Z.leb_le|by exists it|done].
Qed.

Lemma deferred_intents_fire_witness :
  let s := fst (run_store (λ _, 0%Z) [d_limit "a" 100 None None 10; d_add "a" deferred_meta "raw" trigger 20] empty_store) in
  ∃ rec at_, JMap.get (ds_byAgent s) "a" = Some rec ∧ ds_timer s = Some at_ ∧ at_ <= ar_deferUntilMs rec ∧
    (ar_deferUntilMs rec <= 130 → started "t:r:a" ∈ snd (step_store (λ _, 0%Z) (d_tick 130) s)).
Proof.
  eapply (deferred_intents_fire (λ _, 0%Z) 1 [d_limit "a" 100 None None 10; d_add "a" deferred_meta "raw" trigger 20] "a" "t:r:a").
  - reflexivity.
  - vm_compute. by split_and!.
  - vm_compute. reflexivity.
  - apply (bool_decide_unpack _). vm_compute. exact I.
Defined.

(** ** The window *)

(** The defer window of an exit is never shorter than a minute, never longer than
    six hours, and is the parsed reset where that lies between. *)
Lemma resolveDeferUntil_window now parsed :
  now + 60000 <= resolveDeferUntil now parsed <= now + MAX_SESSION_DEFER_MS ∧
  (∀ r, parsed = Some r → now + 60000 <= r <= now + MAX_SESSION_DEFER_MS → resolveDeferUntil now parsed = r).
Proof.
  unfold resolveDeferUntil, MAX_SESSION_DEFER_MS, DEFAULT_SESSION_DEFER_MS. split.
  - destruct parsed as [r|]; [destruct (now <? r)|]; lia.
  - intros r -> Hr. destruct (now <? r) eqn:E; [lia|]. apply Z.ltb_ge in E. lia.
Qed.

(** ** Behaviours worth knowing *)

Definition deferred_until_100 : list command := [d_limit "a" 100 None None 10; d_add "a" deferred_meta "first" trigger 20; d_tick 100].
Definition deferred_again : list command := [d_limit "a" 500 None None 120; d_add "a" deferred_meta "second" trigger 130].

(** A dispatch deferred while the replay of an earlier one under the same key is
    still running is merged into it, and goes when the replay is acknowledged:
    nothing is left for the new window. *)
Lemma refresh_during_replay_is_lost :
  let '(s, es) := run_store (λ _, 0) (deferred_until_100 ++ deferred_again ++ [d_resolve 0 None 140; d_tick 500]) empty_store in
  es = [created "t:r:a"; started "t:r:a"] ∧ isDeferred "a" 140 s = true ∧ intent_at "a" "t:r:a" (ds_byAgent s) = None.
Proof. vm_compute. split_and!; reflexivity. Qed.

(** After a replay that failed, a dispatch deferred under the same key is kept but
    not replayed when the new window ends, unless the manager restarts. *)
Lemma refresh_after_failed_replay_waits :
  let '(s, es) := run_store (λ _, 0) (deferred_until_100 ++ [d_throw 0] ++ deferred_again ++ [d_tick 500]) empty_store in
  es = [created "t:r:a"; started "t:r:a"] ∧ si_raw <$> intent_at "a" "t:r:a" (ds_byAgent s) = Some "second" ∧ ds_timer s = None.
Proof. vm_compute. split_and!; reflexivity. Qed.

(** A window that ended without intents is still on record: the next one is
    reported as an extension. *)
Lemma second_window_is_not_opened :
  let s := fst (run_store (λ _, 0) [d_limit "a" 100 None None 10] empty_store) in
  isDeferred "a" 200 s = false ∧ snd (recordSessionLimit "a" 500 None None 200 s) = false.
Proof. vm_compute. split; reflexivity. Qed.
