(* ===== verification/SlotSpec.v ===== *)
(** * Slot specs: reading, storing and merging them

    [orchestration-member-spec.ts] and [runtime-config.ts]: how loose input becomes
    the [TeamSlotSpec] a team or a mission stores, how a stored one is read back,
    and how a partial edit is merged over it.  Errors are the reasons; the label
    that prefixes them names the caller's field. *)

From S2P Require Import Prelude JsStd Cli Roster Json.
#[local] Open Scope Z_scope.

(** ** Runtime configuration *)

Inductive config_error : Type :=
  | runtime_unknown (runtime : string)
  | config_not_an_object
  | unknown_config_fields (fields : list string)
  | strategy_not_configured
  | strategy_unsupported (runtime strategy : string)
  | permission_not_configured
  | profile_empty
  | limit_out_of_range (field : string)
  | extra_not_an_object
  | effort_invalid
  | effort_unsupported.

Definition CONFIG_FIELDS : list string :=
  ["strategy"; "permission_mode"; "profile"; "max_children"; "max_iterations"; "extra"].
Definition STRATEGIES : list string := ["single"; "delegated"; "swarm"].
Definition PERMISSION_MODES : list string := ["strict"; "approve"; "trusted"].

(** [v === 'a' || v === 'b' || ...] *)
Definition read_choice (choices : list string) (v : jsval) : option string :=
  match v with
  | JStr s => if includes choices s then Some s else None
  | _ => None
  end.

Definition allowed_strategies (runtime : string) : list string :=
  match find_cli runtime with Some d => cl_collaboration d | None => ["single"] end.

Definition read_profile (v : jsval) : res config_error (option string) :=
  match v with
  | JUndef => Ok None
  | JStr s => if truthy (trim s) then Ok (Some (trim s)) else Err profile_empty
  | _ => Err profile_empty
  end.

Definition read_limit (raw : jsval) (field : string) : res config_error (option Z) :=
  match prop raw field with
  | JUndef => Ok None
  | JNum (JInt z) => if (z <? 1) || (1000 <? z) then Err (limit_out_of_range field) else Ok (Some z)
  | _ => Err (limit_out_of_range field)
  end.

Definition supports_effort (runtime : string) : bool :=
  match find_cli runtime with
  | Some d => match cl_effort d with Some keys => includes keys "effort" | None => false end
  | None => false
  end.

Definition check_effort (runtime : string) (effort : jsval) : res config_error () :=
  if is_nullish effort then Ok tt
  else match effort with
  | JStr s =>
      _ ← fail_if (negb (truthy (trim s)) || (250 <? slength s)) effort_invalid;
      fail_if (negb (supports_effort runtime)) effort_unsupported
  | _ => Err effort_invalid
  end.

Definition read_extra (runtime : string) (v : jsval) : res config_error (option (list (string * jsval))) :=
  match v with
  | JUndef => Ok None
  | JObj fields => _ ← check_effort runtime (prop v "effort"); Ok (Some fields)
  | _ => Err extra_not_an_object
  end.

Definition validateAgentRuntimeConfig (runtimeId : string) (input : jsval) : res config_error AgentRuntimeConfig :=
  let runtime := toLowerCase (trim runtimeId) in
  _ ← fail_if (negb (executable_runtime runtime)) (runtime_unknown runtime);
  match input with
  | JObj fields =>
      let unknown := lfilter (λ f, negb (includes CONFIG_FIELDS f)) (JMap.keys fields) in
      _ ← fail_if (negb (bool_decide (unknown = []))) (unknown_config_fields (merge_sort String.le unknown));
      match read_choice STRATEGIES (prop input "strategy") with
      | None => Err strategy_not_configured
      | Some strategy =>
          _ ← fail_if (negb (includes (allowed_strategies runtime) strategy))
                (strategy_unsupported runtime strategy);
          match read_choice PERMISSION_MODES (prop input "permission_mode") with
          | None => Err permission_not_configured
          | Some permission =>
              profile ← read_profile (prop input "profile");
              children ← read_limit input "max_children";
              iterations ← read_limit input "max_iterations";
              extra ← read_extra runtime (prop input "extra");
              Ok {| rc_strategy := strategy; rc_permission_mode := permission; rc_profile := profile;
                    rc_max_children := children; rc_max_iterations := iterations; rc_extra := extra |}
          end
      end
  | _ => Err config_not_an_object
  end.

(** ** Slots *)

Inductive spec_error : Type :=
  | spec_not_an_object
  | host_required
  | cli_required
  | cli_unknown (cli : string)
  | config_rejected (e : config_error)
  | approve_unavailable (cli : string)
  | working_dir_required
  | working_dir_relative (dir : string)
  | folder_scope_unknown.

Definition str (v : jsval) : string := if is_nullish v then "" else trim (js_String v).

(** [s || null] *)
Definition or_null (s : string) : option string := if truthy s then Some s else None.

Definition normalizeSlotCore (raw : jsval) : res spec_error TeamSlotSpec :=
  let host := str (prop raw "manager_agent_id") in
  _ ← fail_if (negb (truthy host)) host_required;
  let cli := toLowerCase (str (prop raw "cli")) in
  _ ← fail_if (negb (truthy cli)) cli_required;
  _ ← fail_if (negb (includes TEAM_SLOT_CLIS cli)) (cli_unknown cli);
  match validateAgentRuntimeConfig cli (prop raw "runtime_config") with
  | Err e => Err (config_rejected e)
  | Ok config =>
      let profile := str (prop raw "cli_runtime_profile") in
      Ok {| ss_manager_agent_id := host; ss_cli := cli; ss_model := or_null (str (prop raw "model"));
            ss_credential_id := or_null (str (prop raw "credential_id"));
            ss_cli_runtime_profile := if String.eqb profile "default" then None else or_null profile;
            ss_runtime_config := config |}
  end.

Definition requireObject (input : jsval) : res spec_error jsval :=
  match input with JObj _ => Ok input | _ => Err spec_not_an_object end.

Definition normalizeTeamSlotSpec (input : jsval) : res spec_error TeamSlotSpec :=
  raw ← requireObject input;
  spec ← normalizeSlotCore raw;
  _ ← fail_if (missionApprovalProblem spec) (approve_unavailable (ss_cli spec));
  Ok spec.

(** What a spec is stored as: a field that is absent is not written. *)
Definition opt_field {A} (key : string) (f : A → jsval) (o : option A) : list (string * jsval) :=
  match o with Some a => [(key, f a)] | None => [] end.

Definition config_json (rc : AgentRuntimeConfig) : jsval :=
  JObj ([("strategy", JStr (rc_strategy rc)); ("permission_mode", JStr (rc_permission_mode rc))]
        ++ opt_field "profile" JStr (rc_profile rc)
        ++ opt_field "max_children" (λ z, JNum (JInt z)) (rc_max_children rc)
        ++ opt_field "max_iterations" (λ z, JNum (JInt z)) (rc_max_iterations rc)
        ++ opt_field "extra" JObj (rc_extra rc)).

Definition null_or (o : option string) : jsval := match o with Some s => JStr s | None => JNull end.

(** [slotFields], as the object it is *)
Definition slot_fields (s : TeamSlotSpec) (config : jsval) : list (string * jsval) :=
  [("manager_agent_id", JStr (ss_manager_agent_id s)); ("cli", JStr (ss_cli s));
   ("model", null_or (ss_model s)); ("credential_id", null_or (ss_credential_id s));
   ("cli_runtime_profile", null_or (ss_cli_runtime_profile s)); ("runtime_config", config)].

Definition slot_json (s : TeamSlotSpec) : jsval := JObj (slot_fields s (config_json (ss_runtime_config s))).

(** ** Stored specs *)

Section stored.
(** [JSON.parse] of a stored string; [None] when it throws. *)
Context (JSON_parse : string → option jsval).

Definition decodeStored (value : jsval) : option jsval :=
  match value with
  | JObj _ => Some value
  | JStr text =>
      if truthy text then
        match JSON_parse text with Some (JObj fields) => Some (JObj fields) | _ => None end
      else None
  | _ => None
  end.

Definition parseTeamSlotSpec (value : jsval) : option TeamSlotSpec :=
  match decodeStored value with
  | None => None
  | Some candidate =>
      match requireObject candidate ≫= normalizeSlotCore with Ok s => Some s | Err _ => None end
  end.
End stored.

(** ** Partial edits *)

(** [carryRuntimeConfigAcrossCliChange]: the old configuration as far as the next
    CLI supports it. *)
Definition carried_config (rc : AgentRuntimeConfig) (next : option CliDescriptor) : AgentRuntimeConfig :=
  let supported := match next with Some d => includes (cl_collaboration d) (rc_strategy rc) | None => false end in
  let profiles := match next with Some d => cl_profiles d | None => false end in
  let limits := match next with Some d => cl_child_limits d | None => false end in
  {| rc_strategy := if supported then rc_strategy rc else "single";
     rc_permission_mode := rc_permission_mode rc;
     rc_profile := if profiles then rc_profile rc else None;
     rc_max_children := if limits then rc_max_children rc else None;
     rc_max_iterations := if limits then rc_max_iterations rc else None;
     rc_extra := rc_extra rc |}.

(** [for (const key of Object.keys(merged)) if (raw[key] !== undefined) merged[key] = raw[key]] *)
Definition override (raw : jsval) (fields : list (string * jsval)) : list (string * jsval) :=
  List.map (λ e, (fst e, if is_undefined (prop raw (fst e)) then snd e else prop raw (fst e))) fields.

Definition cli_changes (current : TeamSlotSpec) (raw : jsval) : bool :=
  negb (is_undefined (prop raw "cli"))
  && negb (String.eqb (toLowerCase (str (prop raw "cli"))) (ss_cli current))
  && is_undefined (prop raw "runtime_config").

(** The configuration the edited fields start from. *)
Definition base_config (current : TeamSlotSpec) (raw : jsval) : AgentRuntimeConfig :=
  if cli_changes current raw
  then carried_config (ss_runtime_config current) (cliDescriptor (str (prop raw "cli")))
  else ss_runtime_config current.

Definition mergeTeamSlotSpec (current : option TeamSlotSpec) (patch : jsval) : res spec_error TeamSlotSpec :=
  match current with
  | None => normalizeTeamSlotSpec patch
  | Some current =>
      match patch with
      | JObj _ =>
          normalizeTeamSlotSpec (JObj (override patch (slot_fields current (config_json (base_config current patch)))))
      | _ => Ok current
      end
  end.
