(* ===== verification/SlotSpecFacts.v ===== *)
(** * Facts about slot specs

    What a spec that was accepted satisfies, that storing and reading give it back,
    and what a partial edit leaves alone. *)

From S2P Require Import Prelude JsStd Cli Roster Json SlotSpec.
#[local] Open Scope Z_scope.

(** ** What an accepted spec is *)

Definition trimmed (o : option string) : Prop := ∀ s, o = Some s → s ≠ "" ∧ trim s = s.
Definition limit_ok (o : option Z) : Prop := ∀ z, o = Some z → 1 <= z <= 1000.

Record config_ok (cli : string) (rc : AgentRuntimeConfig) : Prop := {
  cfg_strategy : includes STRATEGIES (rc_strategy rc) = true;
  cfg_supported : includes (allowed_strategies cli) (rc_strategy rc) = true;
  cfg_permission : includes PERMISSION_MODES (rc_permission_mode rc) = true;
  cfg_profile : trimmed (rc_profile rc);
  cfg_children : limit_ok (rc_max_children rc);
  cfg_iterations : limit_ok (rc_max_iterations rc)
}.

(** What the CLI says of the effort override. *)
Definition effort_of (cli : string) (rc : AgentRuntimeConfig) : res config_error () :=
  match rc_extra rc with
  | Some fields => check_effort cli (prop (JObj fields) "effort")
  | None => Ok tt
  end.

(** A slot whose fields are in order; what its CLI supports is a second question. *)
Record slot_shaped (s : TeamSlotSpec) : Prop := {
  slot_host_ok : trimmed (Some (ss_manager_agent_id s));
  slot_cli_ok : includes TEAM_SLOT_CLIS (ss_cli s) = true;
  slot_model_ok : trimmed (ss_model s);
  slot_credential_ok : trimmed (ss_credential_id s);
  slot_profile_ok : trimmed (ss_cli_runtime_profile s) ∧ ss_cli_runtime_profile s ≠ Some "default";
  slot_config_ok : config_ok (ss_cli s) (ss_runtime_config s)
}.

(** A slot that reads back; a row stored before the approval check may be one that
    would not be accepted today. *)
Definition slot_readable (s : TeamSlotSpec) : Prop :=
  slot_shaped s ∧ effort_of (ss_cli s) (ss_runtime_config s) = Ok tt.

Definition slot_ok (s : TeamSlotSpec) : Prop := slot_readable s ∧ missionApprovalProblem s = false.

Lemma str_trim v : trim (str v) = str v.
Proof. unfold str. destruct (is_nullish v); [done|]. apply trim_idem. Qed.

Lemma trimmed_or_null s : trim s = s → trimmed (or_null s).
Proof.
  intros H x. unfold or_null. destruct (truthy s) eqn:E; [|done]. intros [= <-].
  by apply truthy_true in E.
Qed.

Lemma profile_or_null p : trim p = p →
  trimmed (if String.eqb p "default" then None else or_null p) ∧
  (if String.eqb p "default" then None else or_null p) ≠ Some "default".
Proof.
  intros Hp. destruct (String.eqb_spec p "default") as [->|N]; [by split; [intros x|]|].
  split; [by apply trimmed_or_null|]. unfold or_null. destruct (truthy p); congruence.
Qed.

Lemma read_choice_Some choices v s : read_choice choices v = Some s ↔ v = JStr s ∧ includes choices s = true.
Proof.
  destruct v; simpl; try (split; [done|by intros [? _]]).
  destruct (includes choices s0) eqn:E; split; try done.
  - by intros [= ->].
  - by intros [[= ->] _].
  - intros [[= ->] E']. congruence.
Qed.

Lemma read_profile_ok v o : read_profile v = Ok o → trimmed o.
Proof.
  destruct v; simpl; try discriminate; [by intros [= <-]|]. destruct (truthy (trim s)) eqn:E; [|discriminate].
  intros [= <-] x [= <-]. apply truthy_true in E. by rewrite trim_idem.
Qed.

Lemma read_limit_ok raw field o : read_limit raw field = Ok o → limit_ok o.
Proof.
  unfold read_limit. destruct (prop raw field) as [| | |[z|]| | |]; try discriminate; [by intros [= <-]|].
  destruct ((z <? 1) || (1000 <? z)) eqn:E; [discriminate|]. breflect. intros [= <-] x [= <-]. lia.
Qed.

Lemma read_extra_ok cli v o :
  read_extra cli v = Ok o → (o = None ∧ v = JUndef) ∨
    ∃ fields, o = Some fields ∧ v = JObj fields ∧ check_effort cli (prop (JObj fields) "effort") = Ok tt.
Proof.
  destruct v; try discriminate; cbn [read_extra]; [intros [= <-]; by left|]. intros H.
  apply bind_Ok in H as ([] & He & [= <-]). right. eauto.
Qed.

Lemma config_validated cli input rc :
  toLowerCase (trim cli) = cli → validateAgentRuntimeConfig cli input = Ok rc →
  config_ok cli rc ∧ effort_of cli rc = Ok tt ∧
  ∀ fields, rc_extra rc = Some fields → prop input "extra" = JObj fields.
Proof.
  intros Hcli. unfold validateAgentRuntimeConfig. rewrite Hcli. intros H. obind H.
  destruct input as [| | | | | |fields]; try discriminate. obind H.
  destruct (read_choice STRATEGIES _) as [strategy|] eqn:Es; [|discriminate]. obind H.
  destruct (read_choice PERMISSION_MODES _) as [permission|] eqn:Ep; [|discriminate].
  apply bind_Ok in H as (profile & Hprofile & H). apply bind_Ok in H as (children & Hchildren & H).
  apply bind_Ok in H as (iterations & Hiterations & H). apply bind_Ok in H as (extra & Hextra & H).
  injection H as <-. apply read_choice_Some in Es as [_ Es], Ep as [_ Ep].
  apply read_extra_ok in Hextra as Hex. split_and!.
  - constructor; simpl; [done| |done|by eapply read_profile_ok|by eapply read_limit_ok|by eapply read_limit_ok].
    match goal with H : negb _ = false |- _ => by apply negb_false_iff in H end.
  - unfold effort_of; simpl. by destruct Hex as [[-> _]|(f' & -> & _ & ?)].
  - simpl. intros f ->. by destruct Hex as [[[=] _]|(f' & [= <-] & ? & _)].
Qed.

Lemma normalizeSlotCore_ok raw s :
  normalizeSlotCore raw = Ok s →
  slot_readable s ∧ ∀ fields, rc_extra (ss_runtime_config s) = Some fields →
    prop (prop raw "runtime_config") "extra" = JObj fields.
Proof.
  unfold normalizeSlotCore. intros H.
  apply bind_Ok in H as ([] & H1%fail_if_Ok%negb_false_iff & H).
  apply bind_Ok in H as ([] & H2%fail_if_Ok%negb_false_iff & H).
  apply bind_Ok in H as ([] & H3%fail_if_Ok%negb_false_iff & H).
  destruct (validateAgentRuntimeConfig _ _) as [rc|] eqn:Ec; [|discriminate]. injection H as <-.
  destruct (slot_cli_normal _ H3) as (Hn & _ & _).
  apply (config_validated _ _ _ Hn) in Ec as (Hrc & Hef & Hex). split; [|exact Hex].
  split; [|done].
  constructor; cbn [ss_manager_agent_id ss_cli ss_model ss_credential_id ss_cli_runtime_profile ss_runtime_config]; try done.
  - intros x [= <-]. split; [by apply truthy_true|apply str_trim].
  - apply trimmed_or_null, str_trim.
  - apply trimmed_or_null, str_trim.
  - apply profile_or_null, str_trim.
Qed.

(** The binds of [normalizeTeamSlotSpec] on an object. *)
Lemma normalizeTeamSlotSpec_core raw :
  normalizeTeamSlotSpec raw =
    match raw with
    | JObj _ => spec ← normalizeSlotCore raw;
                if missionApprovalProblem spec then Err (approve_unavailable (ss_cli spec)) else Ok spec
    | _ => Err spec_not_an_object
    end.
Proof.
  destruct raw as [| | | | | |fields]; try done. unfold normalizeTeamSlotSpec. cbn [requireObject].
  change (requireObject (JObj fields)) with (Ok (E := spec_error) (JObj fields)).
  set (raw := JObj fields). change (normalizeSlotCore raw ≫= (λ spec, fail_if (missionApprovalProblem spec)
    (approve_unavailable (ss_cli spec)) ≫= λ _, Ok spec) =
    normalizeSlotCore raw ≫= (λ spec, if missionApprovalProblem spec then Err (approve_unavailable (ss_cli spec)) else Ok spec)).
  destruct (normalizeSlotCore raw) as [s|e]; [|done]. cbn. by destruct (missionApprovalProblem s).
Qed.

Lemma normalizeTeamSlotSpec_ok input s :
  normalizeTeamSlotSpec input = Ok s →
  slot_ok s ∧ ∀ fields, rc_extra (ss_runtime_config s) = Some fields →
    prop (prop input "runtime_config") "extra" = JObj fields.
Proof.
  rewrite normalizeTeamSlotSpec_core. destruct input as [| | | | | |fields]; try discriminate. intros H.
  apply bind_Ok in H as (s' & H & H'). destruct (missionApprovalProblem s') eqn:Ea; [discriminate|].
  injection H' as <-. apply normalizeSlotCore_ok in H as [Hs Hex]. by split.
Qed.

(** ** Reading back what was stored *)

Lemma str_JStr s : trim s = s → str (JStr s) = s.
Proof. done. Qed.

Lemma or_null_null_or o : trimmed o → or_null (str (null_or o)) = o.
Proof.
  destruct o as [s|]; [|done]. intros H. destruct (H s eq_refl) as [Hn Ht]. simpl.
  unfold str; simpl. rewrite Ht. unfold or_null. by rewrite (proj2 (truthy_true s) Hn).
Qed.

Lemma read_profile_back o : trimmed o → read_profile (match o with Some s => JStr s | None => JUndef end) = Ok o.
Proof.
  destruct o as [s|]; [|done]. intros H. destruct (H s eq_refl) as [Hn Ht]. simpl.
  by rewrite Ht, (proj2 (truthy_true s) Hn).
Qed.

Lemma read_limit_back raw field o : limit_ok o →
  prop raw field = match o with Some z => JNum (JInt z) | None => JUndef end → read_limit raw field = Ok o.
Proof.
  intros H E. unfold read_limit. rewrite E. destruct o as [z|]; [|done]. specialize (H z eq_refl).
  by rewrite (proj2 (Z.ltb_ge z 1)), (proj2 (Z.ltb_ge 1000 z)) by lia.
Qed.

Lemma config_json_fields rc key :
  prop (config_json rc) key =
    if String.eqb "strategy" key then JStr (rc_strategy rc)
    else if String.eqb "permission_mode" key then JStr (rc_permission_mode rc)
    else if String.eqb "profile" key then match rc_profile rc with Some s => JStr s | None => JUndef end
    else if String.eqb "max_children" key then match rc_max_children rc with Some z => JNum (JInt z) | None => JUndef end
    else if String.eqb "max_iterations" key then match rc_max_iterations rc with Some z => JNum (JInt z) | None => JUndef end
    else if String.eqb "extra" key then match rc_extra rc with Some f => JObj f | None => JUndef end
    else JUndef.
Proof.
  unfold config_json, prop. destruct rc as [s p pr c i e].
  destruct pr, c, i, e; cbn [opt_field app List.find fst rc_strategy rc_permission_mode rc_profile rc_max_children rc_max_iterations rc_extra];
    repeat match goal with |- context [String.eqb ?a key] => destruct (String.eqb_spec a key) as [<-|]; cbn [snd]; try done end.
Qed.

Lemma config_json_known rc : lfilter (λ f, negb (includes CONFIG_FIELDS f)) (JMap.keys (match config_json rc with JObj f => f | _ => [] end)) = [].
Proof. by destruct rc as [s p [] [] [] []]. Qed.

Lemma config_read_back cli rc :
  toLowerCase (trim cli) = cli → executable_runtime cli = true → config_ok cli rc →
  validateAgentRuntimeConfig cli (config_json rc) = effort_of cli rc ≫= λ _, Ok rc.
Proof.
  intros Hc He [H1 H2 H3 H4 H5 H6]. unfold validateAgentRuntimeConfig. rewrite Hc, He.
  pose proof (config_json_known rc) as Hk. pose proof (config_json_fields rc) as Hf.
  destruct (config_json rc) as [| | | | | |fields] eqn:Ej; try done. rewrite Hk.
  cbn [fail_if mbind res_bind negb]. rewrite bool_decide_true by done. cbn [fail_if negb].
  rewrite !Hf. cbn -[includes]. rewrite H1, H2. cbn -[includes]. rewrite H3.
  rewrite (read_profile_back _ H4). cbn -[includes].
  rewrite (read_limit_back _ "max_children" _ H5), (read_limit_back _ "max_iterations" _ H6) by (by rewrite Hf).
  cbn -[includes]. destruct rc as [s p pr c i [extra|]]; [|done]. unfold effort_of; simpl.
  by destruct (check_effort cli _) as [[]|].
Qed.

Lemma slot_core_back s :
  slot_shaped s →
  normalizeSlotCore (slot_json s) =
    match effort_of (ss_cli s) (ss_runtime_config s) with Ok _ => Ok s | Err e => Err (config_rejected e) end.
Proof.
  intros [Hh Hcli Hm Hcr [Hp Hpd] Hcfg]. destruct (slot_cli_normal _ Hcli) as (Hn & Hne & Hex).
  destruct (Hh _ eq_refl) as [Hh1 Hh2].
  assert (Ht : trim (ss_cli s) = ss_cli s).
  { rewrite TEAM_SLOT_CLIS_eq in Hcli. apply includes_true in Hcli.
    repeat (apply elem_of_cons in Hcli as [->|Hcli]; [done|]). inversion Hcli. }
  rewrite Ht in Hn. destruct s as [h cli m cr p rc].
  cbn [ss_manager_agent_id ss_cli ss_model ss_credential_id ss_cli_runtime_profile ss_runtime_config] in *.
  unfold normalizeSlotCore, slot_json, slot_fields.
  cbn -[str includes TEAM_SLOT_CLIS validateAgentRuntimeConfig config_json].
  rewrite (str_JStr h Hh2), (str_JStr cli Ht), Hn, (proj2 (truthy_true h) Hh1), (proj2 (truthy_true cli) Hne), Hcli.
  cbn -[str validateAgentRuntimeConfig config_json].
  rewrite (config_read_back cli rc) by (done || by rewrite Ht).
  destruct (effort_of cli rc) as [[]|e]; [|done].
  cbn -[str].
  rewrite (or_null_null_or m Hm), (or_null_null_or cr Hcr), (or_null_null_or p Hp).
  destruct (String.eqb_spec (str (null_or p)) "default") as [E|_]; [|done].
  destruct p as [p|]; [|done]. simpl in E. destruct (Hp p eq_refl) as [_ Hpt].
  rewrite (str_JStr p Hpt) in E. by subst p.
Qed.

Lemma slot_normalizes s :
  slot_shaped s →
  normalizeTeamSlotSpec (slot_json s) =
    match effort_of (ss_cli s) (ss_runtime_config s) with
    | Ok _ => if missionApprovalProblem s then Err (approve_unavailable (ss_cli s)) else Ok s
    | Err e => Err (config_rejected e)
    end.
Proof.
  intros H. rewrite normalizeTeamSlotSpec_core. unfold slot_json at 1.
  change (JObj (slot_fields s (config_json (ss_runtime_config s)))) with (slot_json s).
  rewrite (slot_core_back s H). by destruct (effort_of _ _).
Qed.

Lemma parse_stored JSON_parse s : slot_readable s → parseTeamSlotSpec JSON_parse (slot_json s) = Some s.
Proof.
  intros [Hs He]. unfold parseTeamSlotSpec, decodeStored.
  change (match normalizeSlotCore (slot_json s) with Ok s => Some s | Err _ => None end = Some s).
  by rewrite (slot_core_back s Hs), He.
Qed.

Lemma parse_readable JSON_parse v s : parseTeamSlotSpec JSON_parse v = Some s → slot_readable s.
Proof.
  unfold parseTeamSlotSpec. destruct (decodeStored JSON_parse v) as [raw|]; [|done].
  destruct (requireObject raw ≫= normalizeSlotCore) as [s'|] eqn:E; [|done]. intros [= ->].
  apply bind_Ok in E as (raw' & _ & E). by apply (normalizeSlotCore_ok raw').
Qed.

(** A spec read from JSON is written to JSON unchanged. *)
Lemma slot_json_stable s :
  (∀ fields, rc_extra (ss_runtime_config s) = Some fields → json (JObj fields) = JObj fields) →
  json (slot_json s) = slot_json s.
Proof.
  destruct s as [h cli [m|] [cr|] [p|] [st pm pr c i e]]; intros H; unfold slot_json, slot_fields, config_json;
    destruct pr, c, i, e as [f|]; simpl in *; try reflexivity; by rewrite (H f eq_refl).
Qed.

(** ** Merging *)

Lemma validated_is_config cli rc rc' :
  toLowerCase (trim cli) = cli → trimmed (rc_profile rc) →
  validateAgentRuntimeConfig cli (config_json rc) = Ok rc' → rc' = rc.
Proof.
  intros Hcli Hp. unfold validateAgentRuntimeConfig. rewrite Hcli. intros H. obind H.
  pose proof (config_json_fields rc) as Hf. destruct (config_json rc) eqn:Ej; try discriminate.
  rewrite !Hf in H. cbn -[includes] in H. obind H.
  destruct (includes STRATEGIES (rc_strategy rc)); [|discriminate]. obind H.
  destruct (includes PERMISSION_MODES (rc_permission_mode rc)); [|discriminate].
  rewrite (read_profile_back _ Hp) in H. cbn -[includes read_limit] in H.
  apply bind_Ok in H as (ch & Hch & H). apply bind_Ok in H as (it & Hit & H).
  apply bind_Ok in H as (ex & Hex & [= <-]).
  unfold read_limit in Hch, Hit. rewrite Hf in Hch, Hit. cbn in Hch, Hit.
  destruct rc as [s p pr c i e]; simpl in *. f_equal.
  - destruct c as [z|]; [|congruence]. by destruct (_ || _); [|injection Hch as <-].
  - destruct i as [z|]; [|congruence]. by destruct (_ || _); [|injection Hit as <-].
  - destruct e as [f|]; [|by apply read_extra_ok in Hex as [[-> _]|(? & _ & [=] & _)]].
    by apply read_extra_ok in Hex as [[_ [=]]|(f' & -> & [= ->] & _)].
Qed.

(** Where the fields of an accepted spec come from. *)
Lemma normalized_fields input s :
  normalizeTeamSlotSpec input = Ok s →
  ss_manager_agent_id s = str (prop input "manager_agent_id") ∧
  ss_cli s = toLowerCase (str (prop input "cli")) ∧
  ss_model s = or_null (str (prop input "model")) ∧
  ss_credential_id s = or_null (str (prop input "credential_id")) ∧
  ss_cli_runtime_profile s =
    (let p := str (prop input "cli_runtime_profile") in if String.eqb p "default" then None else or_null p) ∧
  validateAgentRuntimeConfig (ss_cli s) (prop input "runtime_config") = Ok (ss_runtime_config s).
Proof.
  rewrite normalizeTeamSlotSpec_core. intros H.
  assert (normalizeSlotCore input = Ok s) as H'.
  { destruct input; try discriminate. apply bind_Ok in H as (s' & H & H').
    destruct (missionApprovalProblem s'); [discriminate|]. by injection H' as <-. }
  clear H. rename H' into H.
  unfold normalizeSlotCore in H. apply bind_Ok in H as ([] & _ & H).
  apply bind_Ok in H as ([] & _ & H). apply bind_Ok in H as ([] & _ & H).
  destruct (validateAgentRuntimeConfig _ _) as [rc|] eqn:Ec; [|discriminate]. injection H as <-.
  by split_and!.
Qed.

Lemma prop_override raw key x fields :
  prop (JObj fields) key = x → is_undefined x = false →
  prop (JObj (override raw fields)) key = if is_undefined (prop raw key) then x else prop raw key.
Proof.
  unfold override. simpl. intros <-. induction fields as [|[k v] fields IH]; [done|]. simpl.
  destruct (String.eqb_spec k key) as [->|N]; [done|exact IH].
Qed.

Lemma is_undefined_true v : is_undefined v = true ↔ v = JUndef.
Proof. by destruct v. Qed.

Lemma or_null_str_back o : trimmed o → o ≠ Some "default" →
  (let p := str (null_or o) in if String.eqb p "default" then None else or_null p) = o.
Proof.
  intros H N. cbv zeta. rewrite (or_null_null_or o H).
  destruct (String.eqb_spec (str (null_or o)) "default") as [E|_]; [|done]. destruct o as [s|]; [|done].
  destruct (H s eq_refl) as [_ Ht]. assert (trim s = "default") by exact E. congruence.
Qed.

Lemma null_or_defined o : is_undefined (null_or o) = false.
Proof. by destruct o. Qed.

Lemma carried_profile rc next : trimmed (rc_profile rc) → trimmed (rc_profile (carried_config rc next)).
Proof. unfold carried_config; simpl. by destruct next as [d|]; [destruct (cl_profiles d)|]. Qed.

Lemma trim_listed cli : includes TEAM_SLOT_CLIS cli = true → trim cli = cli.
Proof.
  rewrite TEAM_SLOT_CLIS_eq. intros H%includes_true.
  repeat (apply elem_of_cons in H as [->|H]; [done|]). inversion H.
Qed.

(** [slot_fields] read as the object it is. *)
Lemma slot_fields_prop s config :
  let v := JObj (slot_fields s config) in
  prop v "manager_agent_id" = JStr (ss_manager_agent_id s) ∧ prop v "cli" = JStr (ss_cli s) ∧
  prop v "model" = null_or (ss_model s) ∧ prop v "credential_id" = null_or (ss_credential_id s) ∧
  prop v "cli_runtime_profile" = null_or (ss_cli_runtime_profile s) ∧ prop v "runtime_config" = config.
Proof. by split_and!. Qed.

(** What [patch] says nothing of is what it was. *)
Definition untouched (current s : TeamSlotSpec) (patch : jsval) : Prop :=
  (prop patch "manager_agent_id" = JUndef → ss_manager_agent_id s = ss_manager_agent_id current) ∧
  (prop patch "cli" = JUndef → ss_cli s = ss_cli current) ∧
  (prop patch "model" = JUndef → ss_model s = ss_model current) ∧
  (prop patch "credential_id" = JUndef → ss_credential_id s = ss_credential_id current) ∧
  (prop patch "cli_runtime_profile" = JUndef → ss_cli_runtime_profile s = ss_cli_runtime_profile current) ∧
  (prop patch "runtime_config" = JUndef →
     ss_runtime_config s =
       if String.eqb (ss_cli s) (ss_cli current) then ss_runtime_config current
       else carried_config (ss_runtime_config current) (find_cli (ss_cli s))).

Lemma base_config_cli current patch s :
  includes TEAM_SLOT_CLIS (ss_cli s) = true →
  prop patch "runtime_config" = JUndef →
  ss_cli s = (if is_undefined (prop patch "cli") then ss_cli current else toLowerCase (str (prop patch "cli"))) →
  base_config current patch =
    if String.eqb (ss_cli s) (ss_cli current) then ss_runtime_config current
    else carried_config (ss_runtime_config current) (find_cli (ss_cli s)).
Proof.
  intros Hs Hrc Hcli. unfold base_config, cli_changes. rewrite Hrc, andb_true_r.
  destruct (is_undefined (prop patch "cli")); simpl.
  - by rewrite Hcli, String.eqb_refl.
  - rewrite Hcli in Hs |- *. unfold cliDescriptor. rewrite str_trim.
    destruct (String.eqb _ (ss_cli current)); [done|]. simpl.
    destruct (slot_cli_normal _ Hs) as (_ & Hne & _). by rewrite (proj2 (truthy_true _) Hne).
Qed.

Lemma merge_untouched current patch s :
  slot_ok current → mergeTeamSlotSpec (Some current) (JObj patch) = Ok s → untouched current s (JObj patch).
Proof.
  intros Hc H. cbn [mergeTeamSlotSpec] in H. set (p := JObj patch) in *.
  destruct Hc as [[Hsh _] _]. destruct Hsh as [Hh Hcli Hm Hcr [Hp Hpd] Hcfg].
  pose proof (normalizeTeamSlotSpec_ok _ _ H) as [[[Hs _] _] _].
  apply normalized_fields in H as (E1 & E2 & E3 & E4 & E5 & E6).
  destruct (slot_fields_prop current (config_json (base_config current p))) as (F1 & F2 & F3 & F4 & F5 & F6).
  rewrite (prop_override p _ _ _ F1) in E1 by done. rewrite (prop_override p _ _ _ F2) in E2 by done.
  rewrite (prop_override p _ _ _ F3) in E3 by apply null_or_defined.
  rewrite (prop_override p _ _ _ F4) in E4 by apply null_or_defined.
  rewrite (prop_override p _ _ _ F5) in E5 by apply null_or_defined.
  rewrite (prop_override p _ _ _ F6) in E6 by done.
  destruct (slot_cli_normal _ Hcli) as (Hn & _ & _). rewrite (trim_listed _ Hcli) in Hn.
  assert (Hcli' : ss_cli s = if is_undefined (prop p "cli") then ss_cli current else toLowerCase (str (prop p "cli"))).
  { rewrite E2. destruct (is_undefined (prop p "cli")); [|done]. by rewrite (str_JStr _ (trim_listed _ Hcli)). }
  split_and!; intros Hu; rewrite Hu in *; cbn [is_undefined] in *.
  - rewrite E1. apply str_JStr, Hh. done.
  - exact Hcli'.
  - rewrite E3. by apply or_null_null_or.
  - rewrite E4. by apply or_null_null_or.
  - rewrite E5. by apply or_null_str_back.
  - destruct (slot_cli_normal _ (slot_cli_ok s Hs)) as (Hns & _ & _).
    rewrite <- (base_config_cli current p s (slot_cli_ok s Hs) Hu Hcli').
    eapply validated_is_config; [exact Hns| |exact E6].
    unfold base_config. destruct (cli_changes current p); [apply carried_profile|]; apply (cfg_profile _ _ Hcfg).
Qed.

Lemma override_cli current cli config :
  override (JObj [("cli", JStr cli)]) (slot_fields current config)
  = slot_fields (current<|ss_cli := cli|>) config.
Proof. by destruct current. Qed.

Lemma executable_single cli : includes TEAM_SLOT_CLIS cli = true → includes (allowed_strategies cli) "single" = true.
Proof.
  rewrite TEAM_SLOT_CLIS_eq. intros H%includes_true.
  repeat (apply elem_of_cons in H as [->|H]; [done|]). inversion H.
Qed.

Lemma carried_shaped current cli :
  slot_shaped current → includes TEAM_SLOT_CLIS cli = true →
  slot_shaped (current<|ss_cli := cli|>
                      <|ss_runtime_config := carried_config (ss_runtime_config current) (find_cli cli)|>).
Proof.
  intros [Hh Hcli Hm Hcr Hp [H1 H2 H3 H4 H5 H6]] Hc. constructor; simpl; try done.
  unfold carried_config. destruct (find_cli cli) as [d|] eqn:Ed; constructor; simpl; try done.
  - by destruct (includes (cl_collaboration d) _).
  - unfold allowed_strategies. rewrite Ed.
    destruct (includes (cl_collaboration d) (rc_strategy _)) eqn:E; [done|].
    pose proof (executable_single cli Hc) as H. unfold allowed_strategies in H. rewrite Ed in H. exact H.
  - by destruct (cl_profiles d).
  - by destruct (cl_child_limits d).
  - by destruct (cl_child_limits d).
  - by apply executable_single.
Qed.

(** Storing a slot loses nothing: whatever request body is accepted, the spec it
    becomes names a host, an executable CLI and a configuration that CLI supports;
    written to its JSON column and read back it is the same spec, and submitting it
    again changes nothing. *)
Theorem slot_specs_read_back JSON_parse input s :
  json input = input → normalizeTeamSlotSpec input = Ok s →
  slot_ok s ∧ normalizeTeamSlotSpec (slot_json s) = Ok s ∧
  parseTeamSlotSpec JSON_parse (json (slot_json s)) = Some s.
Proof.
  intros Hj H. apply normalizeTeamSlotSpec_ok in H as [Hs Hex]. split; [done|]. split.
  - rewrite slot_normalizes by apply Hs. by destruct Hs as ([_ ->] & ->).
  - rewrite slot_json_stable; [apply parse_stored; apply Hs|]. intros fields Hf. specialize (Hex fields Hf).
    destruct (prop_json input "runtime_config" Hj) as [E|Hc].
    { apply is_undefined_true in E. by rewrite E in Hex. }
    destruct (prop_json _ "extra" Hc) as [E|E]; rewrite Hex in E; done.
Qed.

Definition sample_slot_input : jsval :=
  JObj [("manager_agent_id", JStr " h1 "); ("cli", JStr "Claude"); ("working_dir", JStr "/old");
        ("runtime_config", JObj [("strategy", JStr "single"); ("permission_mode", JStr "approve");
                                 ("extra", JObj [("effort", JStr "high")])])].

(** The spec [sample_slot_input] becomes. *)
Definition sample_claude : TeamSlotSpec :=
  {| ss_manager_agent_id := "h1"; ss_cli := "claude"; ss_model := None; ss_credential_id := None;
     ss_cli_runtime_profile := None;
     ss_runtime_config := {| rc_strategy := "single"; rc_permission_mode := "approve"; rc_profile := None;
                             rc_max_children := None; rc_max_iterations := None;
                             rc_extra := Some [("effort", JStr "high")] |} |}.

Lemma slot_specs_read_back_witness :
  normalizeTeamSlotSpec sample_slot_input = Ok sample_claude ∧
  slot_ok sample_claude ∧ normalizeTeamSlotSpec (slot_json sample_claude) = Ok sample_claude ∧
  parseTeamSlotSpec (λ _, None) (json (slot_json sample_claude)) = Some sample_claude.
Proof.
  split; [vm_compute; reflexivity|].
  apply (slot_specs_read_back (λ _, None) sample_slot_input); vm_compute; reflexivity.
Defined.

Lemma sample_claude_ok : slot_ok sample_claude.
Proof. by apply (normalizeTeamSlotSpec_ok sample_slot_input). Qed.

(** A partial edit of a slot changes only what it names: every field the patch is
    silent about is what it was; where the patch moves the slot to another CLI and
    is silent about the configuration, the permission tier and the extras stay, and
    the rest stays as far as the new CLI supports it. *)
Theorem merge_changes_what_is_named current patch s :
  slot_ok current → mergeTeamSlotSpec (Some current) patch = Ok s →
  slot_ok s ∧ untouched current s patch ∧
  (prop patch "runtime_config" = JUndef →
     rc_permission_mode (ss_runtime_config s) = rc_permission_mode (ss_runtime_config current) ∧
     rc_extra (ss_runtime_config s) = rc_extra (ss_runtime_config current)).
Proof.
  intros Hc H. destruct patch as [| | | | | |patch].
  7: { pose proof (merge_untouched current patch s Hc H) as Hu.
       split_and!; [by apply normalizeTeamSlotSpec_ok in H as [? _]|exact Hu|].
       intros Hr. destruct Hu as (_ & _ & _ & _ & _ & Hu). rewrite (Hu Hr). by destruct (String.eqb _ _). }
  all: injection H as <-; split_and!; [exact Hc| |intros _; by split].
  all: unfold untouched; rewrite String.eqb_refl; split_and!; done.
Qed.

Lemma merge_changes_what_is_named_witness :
  let s := sample_claude<|ss_cli := "deepseek"|><|ss_model := Some "v3"|> in
  let patch := JObj [("cli", JStr "DeepSeek"); ("model", JStr "v3")] in
  mergeTeamSlotSpec (Some sample_claude) patch = Ok s ∧
  slot_ok s ∧ untouched sample_claude s patch ∧
  (prop patch "runtime_config" = JUndef →
     rc_permission_mode (ss_runtime_config s) = rc_permission_mode (ss_runtime_config sample_claude) ∧
     rc_extra (ss_runtime_config s) = rc_extra (ss_runtime_config sample_claude)).
Proof.
  split; [vm_compute; reflexivity|].
  apply (merge_changes_what_is_named sample_claude); [apply sample_claude_ok|vm_compute; reflexivity].
Defined.

(** What comes of moving a slot to another CLI: it is refused for an effort
    override that CLI does not take, then for an approval tier it does not offer, and
    for nothing else; if accepted the configuration is the old one as far as the CLI
    supports it. *)
Theorem cli_change_outcome current cli :
  slot_ok current → includes TEAM_SLOT_CLIS cli = true → cli ≠ ss_cli current →
  let s := current<|ss_cli := cli|>
                  <|ss_runtime_config := carried_config (ss_runtime_config current) (find_cli cli)|> in
  mergeTeamSlotSpec (Some current) (JObj [("cli", JStr cli)]) =
    match effort_of cli (ss_runtime_config current) with
    | Err e => Err (config_rejected e)
    | Ok _ => if missionApprovalProblem s then Err (approve_unavailable cli) else Ok s
    end.
Proof.
  intros Hc Hcli Hne s. cbn [mergeTeamSlotSpec]. destruct (slot_cli_normal _ Hcli) as (Hn & Hne' & _).
  rewrite (trim_listed _ Hcli) in Hn.
  assert (base_config current (JObj [("cli", JStr cli)]) = ss_runtime_config s) as ->.
  { unfold base_config, cli_changes.
    assert (prop (JObj [("cli", JStr cli)]) "cli" = JStr cli) as -> by done.
    assert (prop (JObj [("cli", JStr cli)]) "runtime_config" = JUndef) as -> by done.
    rewrite (str_JStr _ (trim_listed _ Hcli)), Hn. apply String.eqb_neq in Hne. rewrite Hne. simpl.
    unfold cliDescriptor. by rewrite (trim_listed _ Hcli), Hn, (proj2 (truthy_true _) Hne'). }
  rewrite override_cli. change (slot_fields (current<|ss_cli := cli|>) (config_json (ss_runtime_config s)))
    with (slot_fields s (config_json (ss_runtime_config s))).
  change (JObj (slot_fields s (config_json (ss_runtime_config s)))) with (slot_json s).
  rewrite slot_normalizes by (apply carried_shaped; [apply Hc|done]). done.
Qed.

Lemma cli_change_outcome_witness :
  (match effort_of "codex" (ss_runtime_config sample_claude) with Ok _ => True | Err _ => False end) ∧
  mergeTeamSlotSpec (Some sample_claude) (JObj [("cli", JStr "codex")]) = Err (approve_unavailable "codex").
Proof.
  split; [vm_compute; exact I|].
  rewrite (cli_change_outcome sample_claude "codex" sample_claude_ok eq_refl ltac:(discriminate)).
  vm_compute. reflexivity.
Defined.

(** The effort override is the one setting a change of CLI neither drops nor keeps:
    it has the edit refused, although nobody asked for the combination. *)
Lemma effort_blocks_cli_change :
  mergeTeamSlotSpec (Some (sample_claude<|ss_runtime_config ::= λ rc, rc<|rc_permission_mode := "trusted"|>|>))
    (JObj [("cli", JStr "pi")]) = Err (config_rejected effort_unsupported).
Proof. vm_compute. reflexivity. Qed.
