(* ===== verification/Teams.v ===== *)
(** * Teams and their rosters

    [orchestration-team.service.ts] and [orchestration-slot-identities.ts]: the
    rows a team is made of, every operation that changes them, and which teams a
    runtime identity sits on.

    One call is one transition of the tables; a write made before an error stays.
    Stored spec columns are JSON values, read through [parseTeamSlotSpec]. *)

From S2P Require Import Prelude JsStd Vocabulary Cli Roster Json SlotSpec.
#[local] Open Scope Z_scope.

(** ** Tables *)

Record TeamRow := {
  tr_id : string;
  tr_account_id : option string;
  tr_owner_account_id : option string;
  tr_allowed_account_ids : option (list string);
  tr_name : string;
  tr_description : string;
  tr_orchestrator_agent_id : option string;
  tr_orchestrator_spec : jsval;
  tr_orchestrator_prompt : string;
  tr_max_parallel_steps : Z;
  tr_max_open_missions : Z;
  tr_enabled : Z;
  tr_created_by : string
}.

Record MemberRow := {
  mb_id : string;
  mb_team_id : string;
  mb_account_id : option string;
  mb_agent_id : option string;
  mb_spec : jsval;
  mb_role_label : string;
  mb_capabilities : string;
  mb_max_concurrent : Z;
  mb_position : Z
}.

Record HostRow := { ho_id : string; ho_account_id : string; ho_is_active : bool }.
Record CredentialRow := { cr_id : string; cr_account_id : option string }.
Record HostFolderRow := { hf_host_id : string; hf_path : string }.

(** Rows the team service reads and never writes. *)
Record Directory := {
  dir_hosts : list HostRow;
  dir_credentials : list CredentialRow;
  dir_accounts : list string;
  (** ids of [globalRuntimeProfiles] *)
  dir_profiles : list string;
  dir_host_folders : list HostFolderRow;
  (** missions: their team and status *)
  dir_missions : list (string * string)
}.

Record TeamDb := { td_teams : list TeamRow; td_members : list MemberRow }.

(** ** Errors *)

Inductive team_error : Type :=
  | account_required
  | name_required
  | name_empty
  | team_missing
  | not_team_owner
  | member_missing
  | spec_rejected (e : spec_error)
  | accounts_missing (ids : list string)
  | host_unavailable
  | credential_unavailable (id : string)
  | profile_missing (id : string)
  | team_has_live_missions (n : Z)
  | no_orchestrator_to_seat
  | member_is_orchestrator.

Definition terr : Type := Z * team_error.

(** ** Readers *)

Definition MAX_OPEN_MISSIONS_CEILING : Z := 20.
Definition CLI_RUNTIME_NONE : string := "none".

(** [!!v], and the condition [v ? a : b] tests *)
Definition js_truthy (v : jsval) : bool :=
  match v with
  | JUndef | JNull => false
  | JBool b => b
  | JNum (JInt z) => negb (z =? 0)
  | JNum (JNonInt r) => negb (String.eqb r "NaN")
  | JStr s => truthy s
  | JArr _ | JObj _ => true
  end.

Section numbers.
(** [Math.floor(Number(v))] where that is finite, for a value that is not an
    integer. *)
Context (floor_other : jsval → option Z).

Definition floor_Number (v : jsval) : option Z :=
  match v with
  | JNum (JInt z) => Some z
  | JUndef => None
  | JNull => Some 0
  | _ => floor_other v
  end.

(** [clampInt] of the mission service, and the shape of the team's clamps. *)
Definition clampInt (v : jsval) (fallback lo hi : Z) : Z :=
  match floor_Number v with Some n => Z.min hi (Z.max lo n) | None => fallback end.

Definition clampParallel (v : jsval) : Z := clampInt v 3 1 MAX_PARALLEL_CEILING.
Definition clampConcurrent (v : jsval) : Z := clampInt v 1 1 MAX_PARALLEL_CEILING.
Definition clampOpenMissions (v : jsval) : Z := clampInt v 1 0 MAX_OPEN_MISSIONS_CEILING.
End numbers.

(** [Array.from(new Set(value.map((v) => String(v ?? '').trim()).filter(Boolean)))] *)
Definition distinct_ids (l : list jsval) : list string :=
  new_Set (lfilter truthy (List.map (λ v, trim (js_String (nullish_or v (JStr "")))) l)).

Definition normalizeAccountIds (v : jsval) : option (list string) :=
  match v with
  | JArr l => match distinct_ids l with [] => None | ids => Some ids end
  | _ => None
  end.

(** ** Comparing slots *)

Definition slotSignature (s : TeamSlotSpec) : string :=
  String.concat nul
    [ss_manager_agent_id s; ss_cli s; default "" (ss_model s); default "" (ss_credential_id s);
     default "" (ss_cli_runtime_profile s); stringify (config_json (ss_runtime_config s))].

Definition sameTeamSlotSpec (a b : option TeamSlotSpec) : bool :=
  match a, b with
  | Some a, Some b => String.eqb (slotSignature a) (slotSignature b)
  | _, _ => false
  end.

(** ** The service *)

Section service.
Context (JSON_parse : string → option jsval) (floor_other : jsval → option Z) (dir : Directory).

#[local] Abbreviation parse := (parseTeamSlotSpec JSON_parse).

Definition lift_spec {A} (r : res spec_error A) : res terr A :=
  match r with Ok a => Ok a | Err e => Err (400, spec_rejected e) end.

Definition assertAccountsExist (ids : option (list string)) : res terr () :=
  match ids with
  | None => Ok tt
  | Some ids =>
      let missing := lfilter (λ id, negb (includes (dir_accounts dir) id)) ids in
      fail_if (negb (bool_decide (missing = []))) (400, accounts_missing missing)
  end.

(** A credential every account may use has none. *)
Definition credential_usable (id : string) (accountId : option string) : bool :=
  match List.find (λ c, String.eqb (cr_id c) id) (dir_credentials dir) with
  | Some c => match cr_account_id c with None => true | Some a => bool_decide (Some a = accountId) end
  | None => false
  end.

Definition host_usable (id : string) (accountId : option string) : bool :=
  match List.find (λ h, String.eqb (ho_id h) id) (dir_hosts dir), accountId with
  | Some h, Some a => ho_is_active h && truthy a && String.eqb (ho_account_id h) a
  | _, _ => false
  end.

Definition assertSlotReferences (spec : TeamSlotSpec) (teamAccountId : option string) : res terr () :=
  _ ← fail_if (negb (host_usable (ss_manager_agent_id spec) teamAccountId)) (400, host_unavailable);
  _ ← match ss_credential_id spec with
      | Some id => fail_if (negb (credential_usable id teamAccountId)) (400, credential_unavailable id)
      | None => Ok tt
      end;
  match ss_cli_runtime_profile spec with
  | Some id =>
      fail_if (negb (String.eqb id CLI_RUNTIME_NONE) && negb (includes (dir_profiles dir) id))
        (400, profile_missing id)
  | None => Ok tt
  end.

(** [visibleScopeWhere]: a global team, or one of the account. *)
Definition visible (accountId : string) (owner : option string) : bool :=
  match owner with None => true | Some a => String.eqb a accountId end.

Definition requireTeam (db : TeamDb) (teamId accountId : string) : res terr TeamRow :=
  _ ← fail_if (negb (truthy accountId)) (400, account_required);
  match List.find (λ t, String.eqb (tr_id t) teamId && visible accountId (tr_account_id t)) (td_teams db) with
  | Some t => Ok t
  | None => Err (404, team_missing)
  end.

Definition assertTeamWritable (team : TeamRow) (accountId : string) : res terr () :=
  fail_if (bool_decide (tr_account_id team = None)
           && negb (bool_decide (tr_owner_account_id team = Some accountId))) (403, not_team_owner).

Definition writable_team (db : TeamDb) (teamId accountId : string) : res terr TeamRow :=
  team ← requireTeam db teamId accountId;
  _ ← assertTeamWritable team accountId;
  Ok team.

Definition save_team (team : TeamRow) (db : TeamDb) : TeamDb :=
  {| td_teams := List.map (λ t, if String.eqb (tr_id t) (tr_id team) then team else t) (td_teams db);
     td_members := td_members db |}.

Definition save_member (row : MemberRow) (db : TeamDb) : TeamDb :=
  {| td_teams := td_teams db;
     td_members := List.map (λ m, if String.eqb (mb_id m) (mb_id row) then row else m) (td_members db) |}.

Definition find_member (db : TeamDb) (memberId teamId : string) : res terr MemberRow :=
  match List.find (λ m, String.eqb (mb_id m) memberId && String.eqb (mb_team_id m) teamId) (td_members db) with
  | Some m => Ok m
  | None => Err (404, member_missing)
  end.

(** A result, and what the call left in the tables. *)
Definition refused {A} (e : terr) (db : TeamDb) : res terr A * TeamDb := (Err e, db).

Record TeamInput := {
  ti_account_id : string;
  ti_name : string;
  ti_description : string;
  ti_orchestrator : jsval;
  ti_orchestrator_prompt : string;
  ti_max_parallel_steps : jsval;
  ti_max_open_missions : jsval;
  ti_created_by : string;
  ti_is_global : jsval;
  ti_allowed_account_ids : jsval
}.

(** The row [createTeam] inserts, or what stops it; [id] is its new key. *)
Definition new_team (id : string) (input : TeamInput) : res terr TeamRow :=
  let callerAccountId := trim (ti_account_id input) in
  let name := trim (ti_name input) in
  _ ← fail_if (negb (truthy callerAccountId)) (400, account_required);
  _ ← fail_if (negb (truthy name)) (400, name_required);
  let isGlobal := js_truthy (ti_is_global input) in
  let teamAccountId := if isGlobal then None else Some callerAccountId in
  spec ← lift_spec (normalizeTeamSlotSpec (ti_orchestrator input));
  let allowed := if isGlobal then normalizeAccountIds (ti_allowed_account_ids input) else None in
  _ ← assertAccountsExist allowed;
  _ ← assertSlotReferences spec teamAccountId;
  Ok {| tr_id := id; tr_account_id := teamAccountId; tr_owner_account_id := Some callerAccountId;
        tr_allowed_account_ids := allowed; tr_name := name;
        tr_description := trim (ti_description input); tr_orchestrator_agent_id := None;
        tr_orchestrator_spec := slot_json spec; tr_orchestrator_prompt := trim (ti_orchestrator_prompt input);
        tr_max_parallel_steps := clampParallel floor_other (ti_max_parallel_steps input);
        tr_max_open_missions := clampOpenMissions floor_other (ti_max_open_missions input);
        tr_enabled := 1; tr_created_by := ti_created_by input |}.

Definition createTeam (id : string) (input : TeamInput) (db : TeamDb) : res terr () * TeamDb :=
  match new_team id input with
  | Err e => refused e db
  | Ok team => (Ok tt, {| td_teams := td_teams db ++ [team]; td_members := td_members db |})
  end.

Record TeamPatch := {
  tp_name : jsval;
  tp_description : jsval;
  tp_orchestrator : jsval;
  tp_orchestrator_prompt : jsval;
  tp_max_parallel_steps : jsval;
  tp_max_open_missions : jsval;
  tp_enabled : jsval;
  tp_allowed_account_ids : jsval
}.

(** [if (v !== undefined) field = f(v)] *)
Definition patched {A} (v : jsval) (f : jsval → A) (current : A) : A :=
  if is_undefined v then current else f v.

Definition trimmed_text (v : jsval) : string := trim (js_String v).

(** The assignments of [updateTeam] before its first query. *)
Definition edit_settings (team : TeamRow) (patch : TeamPatch) : res terr TeamRow :=
  _ ← fail_if (negb (is_undefined (tp_name patch)) && negb (truthy (trimmed_text (tp_name patch)))) (400, name_empty);
  Ok (team<|tr_name := patched (tp_name patch) trimmed_text (tr_name team)|>
          <|tr_description := patched (tp_description patch) trimmed_text (tr_description team)|>
          <|tr_orchestrator_prompt := patched (tp_orchestrator_prompt patch) trimmed_text (tr_orchestrator_prompt team)|>
          <|tr_max_parallel_steps :=
              patched (tp_max_parallel_steps patch) (clampParallel floor_other) (tr_max_parallel_steps team)|>
          <|tr_max_open_missions :=
              patched (tp_max_open_missions patch) (clampOpenMissions floor_other) (tr_max_open_missions team)|>).

(** The roster rows that are copies of the orchestrator, moved with it. *)
Definition move_mirrors (teamId : string) (before : option TeamSlotSpec) (merged : TeamSlotSpec) (db : TeamDb) : TeamDb :=
  {| td_teams := td_teams db;
     td_members := List.map (λ m,
       if String.eqb (mb_team_id m) teamId && sameTeamSlotSpec (parse (mb_spec m)) before
       then m<|mb_spec := slot_json merged|> else m) (td_members db) |}.

Definition edit_orchestrator (team : TeamRow) (patch : jsval) (db : TeamDb) : res terr (TeamRow * TeamDb) :=
  if is_undefined patch then Ok (team, db)
  else
    let before := parse (tr_orchestrator_spec team) in
    merged ← lift_spec (mergeTeamSlotSpec before patch);
    _ ← assertSlotReferences merged (tr_account_id team);
    Ok (team<|tr_orchestrator_spec := slot_json merged|>, move_mirrors (tr_id team) before merged db).

Definition edit_allowed (team : TeamRow) (patch : jsval) : res terr TeamRow :=
  if negb (is_undefined patch) && bool_decide (tr_account_id team = None) then
    let normalized := normalizeAccountIds patch in
    _ ← assertAccountsExist normalized;
    Ok (team<|tr_allowed_account_ids := normalized|>)
  else Ok team.

Definition updateTeam (teamId accountId : string) (patch : TeamPatch) (db : TeamDb) : res terr () * TeamDb :=
  match writable_team db teamId accountId ≫= λ team, edit_settings team patch with
  | Err e => refused e db
  | Ok team =>
      match edit_orchestrator team (tp_orchestrator patch) db with
      | Err e => refused e db
      | Ok (team, db) =>
          let team := team<|tr_enabled :=
            patched (tp_enabled patch) (λ v, if js_truthy v then 1 else 0) (tr_enabled team)|> in
          match edit_allowed team (tp_allowed_account_ids patch) with
          | Err e => refused e db
          | Ok team => (Ok tt, save_team team db)
          end
      end
  end.

Definition live_missions (teamId : string) : Z :=
  Z.of_nat (length (lfilter (λ '(team, status), String.eqb team teamId && negb (isTerminalMissionStatus status))
    (dir_missions dir))).

Definition deleteTeam (teamId accountId : string) (db : TeamDb) : res terr () * TeamDb :=
  match writable_team db teamId accountId with
  | Err e => refused e db
  | Ok team =>
      let live := live_missions (tr_id team) in
      if 0 <? live then refused (409, team_has_live_missions live) db
      else (Ok tt, {| td_teams := lfilter (λ t, negb (String.eqb (tr_id t) (tr_id team))) (td_teams db);
                      td_members := lfilter (λ m, negb (String.eqb (mb_team_id m) (tr_id team))) (td_members db) |})
  end.

Record MemberInput := {
  mi_runtime : jsval;
  mi_as_orchestrator : jsval;
  mi_role_label : string;
  mi_capabilities : string;
  mi_max_concurrent : jsval
}.

(** The column [addMember] stores. *)
Definition new_member_spec (team : TeamRow) (input : MemberInput) : res terr jsval :=
  if js_truthy (mi_as_orchestrator input) then
    match parse (tr_orchestrator_spec team) with
    | Some spec => Ok (slot_json spec)
    | None => Err (400, no_orchestrator_to_seat)
    end
  else
    spec ← lift_spec (normalizeTeamSlotSpec (mi_runtime input));
    _ ← assertSlotReferences spec (tr_account_id team);
    Ok (slot_json spec).

Definition addMember (id teamId accountId : string) (input : MemberInput) (db : TeamDb) : res terr () * TeamDb :=
  match team ← writable_team db teamId accountId; spec ← new_member_spec team input; Ok (team, spec) with
  | Err e => refused e db
  | Ok (team, spec) =>
      let count := Z.of_nat (length (lfilter (λ m, String.eqb (mb_team_id m) (tr_id team)) (td_members db))) in
      (Ok tt, {| td_teams := td_teams db;
                 td_members := td_members db ++
                   [{| mb_id := id; mb_team_id := tr_id team; mb_account_id := tr_account_id team;
                       mb_agent_id := None; mb_spec := spec; mb_role_label := trim (mi_role_label input);
                       mb_capabilities := trim (mi_capabilities input);
                       mb_max_concurrent := clampConcurrent floor_other (mi_max_concurrent input);
                       mb_position := count |}] |})
  end.

Record MemberPatch := {
  mp_runtime : jsval;
  mp_role_label : jsval;
  mp_capabilities : jsval;
  mp_max_concurrent : jsval;
  mp_position : jsval
}.

Definition edit_member_runtime (team : TeamRow) (member : MemberRow) (patch : jsval) : res terr MemberRow :=
  if is_undefined patch then Ok member
  else
    let before := parse (mb_spec member) in
    _ ← fail_if (sameTeamSlotSpec before (parse (tr_orchestrator_spec team))) (409, member_is_orchestrator);
    merged ← lift_spec (mergeTeamSlotSpec before patch);
    _ ← assertSlotReferences merged (tr_account_id team);
    Ok (member<|mb_spec := slot_json merged|>).

(** [Number.isFinite(v)] holds of numbers only. *)
Definition read_position (v : jsval) (current : Z) : Z :=
  match v with
  | JNum _ => match floor_Number floor_other v with Some n => Z.max 0 n | None => current end
  | _ => current
  end.

Definition edit_member (team : TeamRow) (member : MemberRow) (patch : MemberPatch) : res terr MemberRow :=
  let member :=
    member<|mb_role_label := patched (mp_role_label patch) trimmed_text (mb_role_label member)|>
          <|mb_capabilities := patched (mp_capabilities patch) trimmed_text (mb_capabilities member)|>
          <|mb_max_concurrent :=
              patched (mp_max_concurrent patch) (clampConcurrent floor_other) (mb_max_concurrent member)|>
          <|mb_position := read_position (mp_position patch) (mb_position member)|> in
  edit_member_runtime team member (mp_runtime patch).

Definition updateMember (teamId accountId memberId : string) (patch : MemberPatch) (db : TeamDb)
    : res terr () * TeamDb :=
  match team ← writable_team db teamId accountId;
        member ← find_member db memberId (tr_id team);
        edit_member team member patch with
  | Err e => refused e db
  | Ok member => (Ok tt, save_member member db)
  end.

Definition removeMember (teamId accountId memberId : string) (db : TeamDb) : res terr () * TeamDb :=
  match team ← writable_team db teamId accountId; find_member db memberId (tr_id team) with
  | Err e => refused e db
  | Ok member =>
      (Ok tt, {| td_teams := td_teams db;
                 td_members := lfilter (λ m, negb (String.eqb (mb_id m) (mb_id member))) (td_members db) |})
  end.
End service.

(** ** Which teams an identity sits on *)

Record TeamMembership := { sits_orchestrator : bool; sits_member : bool }.

Inductive TeamRole : Type := role_orchestrator | role_member.
#[export] Instance TeamRole_eq_dec : EqDecision TeamRole.
Proof. solve_decision. Defined.

Definition mark (out : list (string * TeamMembership)) (teamId : string) (role : TeamRole)
    : list (string * TeamMembership) :=
  let entry := default {| sits_orchestrator := false; sits_member := false |} (JMap.get out teamId) in
  JMap.set out teamId
    (match role with
     | role_orchestrator => entry<|sits_orchestrator := true|>
     | role_member => entry<|sits_member := true|>
     end).

Section identities.
Context (sha256hex : string → string) (JSON_parse : string → option jsval) (dir : Directory).

(** [foldersByHost.get(host)] *)
Definition folders_of (host : string) : list string :=
  new_Set (List.map hf_path (lfilter (λ f, String.eqb (hf_host_id f) host) (dir_host_folders dir))).

Definition runsAs (wanted : list string) (spec : option TeamSlotSpec) : bool :=
  match spec with
  | None => false
  | Some spec =>
      lsome (λ folder, includes wanted (runtimeIdentityKey sha256hex
               {| ta_slot := spec; ta_working_dir := folder; ta_folder_scope := shared |}))
        (folders_of (ss_manager_agent_id spec))
  end.

Definition holds (wanted : list string) (agentId : option string) : bool :=
  match agentId with Some id => truthy id && includes wanted id | None => false end.

Definition mark_team (wanted : list string) (out : list (string * TeamMembership)) (t : TeamRow) :=
  if holds wanted (tr_orchestrator_agent_id t)
     || runsAs wanted (parseTeamSlotSpec JSON_parse (tr_orchestrator_spec t))
  then mark out (tr_id t) role_orchestrator else out.

Definition mark_member (wanted : list string) (out : list (string * TeamMembership)) (m : MemberRow) :=
  if holds wanted (mb_agent_id m) || runsAs wanted (parseTeamSlotSpec JSON_parse (mb_spec m))
  then mark out (mb_team_id m) role_member else out.

Definition teamsForIdentities (ids : list string) (db : TeamDb) : list (string * TeamMembership) :=
  let wanted := new_Set (lfilter truthy (List.map trim ids)) in
  match wanted with
  | [] => []
  | _ => foldl (mark_member wanted) (foldl (mark_team wanted) [] (td_teams db)) (td_members db)
  end.
End identities.
