(* ===== verification/TeamFacts.v ===== *)
(** * Facts about teams

    Every call of the team service as a value, what each leaves in the tables, and
    the guarantees over histories of calls. *)

From S2P Require Import Prelude JsStd Vocabulary Cli Roster Json SlotSpec SlotSpecFacts Teams.
#[local] Open Scope Z_scope.

Inductive TeamCall : Type :=
  | call_create (id : string) (input : TeamInput)
  | call_update (teamId accountId : string) (patch : TeamPatch)
  | call_delete (teamId accountId : string)
  | call_add (id teamId accountId : string) (input : MemberInput)
  | call_edit (teamId accountId memberId : string) (patch : MemberPatch)
  | call_remove (teamId accountId memberId : string).

Section facts.
Context (JSON_parse : string → option jsval) (floor_other : jsval → option Z) (dir : Directory).

#[local] Abbreviation parse := (parseTeamSlotSpec JSON_parse).

Definition run_call (c : TeamCall) (db : TeamDb) : res terr () * TeamDb :=
  match c with
  | call_create id input => createTeam floor_other dir id input db
  | call_update teamId accountId patch => updateTeam JSON_parse floor_other dir teamId accountId patch db
  | call_delete teamId accountId => deleteTeam dir teamId accountId db
  | call_add id teamId accountId input => addMember JSON_parse floor_other dir id teamId accountId input db
  | call_edit teamId accountId memberId patch =>
      updateMember JSON_parse floor_other dir teamId accountId memberId patch db
  | call_remove teamId accountId memberId => removeMember teamId accountId memberId db
  end.

Definition run_calls : TeamDb → list TeamCall → TeamDb := foldl (λ db c, snd (run_call c db)).

(** The account a call is made for. *)
Definition caller_of (c : TeamCall) : string :=
  match c with
  | call_create _ input => trim (ti_account_id input)
  | call_update _ a _ | call_delete _ a | call_add _ _ a _ | call_edit _ a _ _ | call_remove _ a _ => a
  end.

(** ** What the guards establish *)

(** The team is one [accountId] may edit. *)
Definition may_edit (accountId : string) (t : TeamRow) : Prop :=
  accountId ≠ "" ∧ (tr_account_id t = Some accountId ∨
                    (tr_account_id t = None ∧ tr_owner_account_id t = Some accountId)).

Lemma writable_team_Ok db teamId accountId t :
  writable_team db teamId accountId = Ok t →
  t ∈ td_teams db ∧ tr_id t = teamId ∧ may_edit accountId t.
Proof.
  unfold writable_team, requireTeam, assertTeamWritable, may_edit. intros H.
  apply bind_Ok in H as (t' & H & H'). apply bind_Ok in H as ([] & Ha%fail_if_Ok%negb_false_iff & H).
  apply bind_Ok in H' as ([] & Hw%fail_if_Ok & [= ->]).
  destruct (List.find _ _) as [t''|] eqn:E; [|discriminate]. injection H as ->.
  apply find_some in E as [Hin Hp]. breflect. apply list_elem_of_In in Hin.
  split_and!; [done|done|by apply truthy_true|].
  unfold visible in *. destruct (tr_account_id t) as [a|]; [left|right].
  - match goal with H : String.eqb a _ = true |- _ => apply String.eqb_eq in H; by subst end.
  - split; [done|]. rewrite bool_decide_true in Hw by done. simpl in Hw.
    apply negb_false_iff in Hw. by apply bool_decide_true_iff in Hw.
Qed.

Lemma find_member_Ok db memberId teamId m :
  find_member db memberId teamId = Ok m → m ∈ td_members db ∧ mb_id m = memberId ∧ mb_team_id m = teamId.
Proof.
  unfold find_member. destruct (List.find _ _) as [m'|] eqn:E; [|done]. intros [= ->].
  apply find_some in E as [Hin Hp]. breflect. by apply list_elem_of_In in Hin.
Qed.

(** A team of no account has no host to use. *)
Lemma references_need_account spec u : assertSlotReferences dir spec None = Ok u → False.
Proof.
  unfold assertSlotReferences. intros H. apply bind_Ok in H as ([] & H%fail_if_Ok%negb_false_iff & _).
  unfold host_usable in H. by destruct (List.find _ _).
Qed.

Lemma merge_readable v patch s : mergeTeamSlotSpec (parse v) patch = Ok s → slot_readable s.
Proof.
  destruct (parse v) as [cur|] eqn:E; simpl.
  - destruct patch; intros H; try (injection H as <-; by eapply parse_readable).
    by apply normalizeTeamSlotSpec_ok in H as [[? _] _].
  - intros H. by apply normalizeTeamSlotSpec_ok in H as [[? _] _].
Qed.

Lemma lift_spec_Ok {A} (r : res spec_error A) a : lift_spec r = Ok a ↔ r = Ok a.
Proof. destruct r; simpl; split; congruence. Qed.

(** ** What a call that is not refused does *)

(** The orchestrator's column of [t] becomes that of [t'], its copies with it. *)
Inductive orchestrator_edit (t t' : TeamRow) (db db1 : TeamDb) : Prop :=
  | orchestrator_kept : tr_orchestrator_spec t' = tr_orchestrator_spec t → db1 = db → orchestrator_edit t t' db db1
  | orchestrator_moved merged :
      tr_orchestrator_spec t' = slot_json merged → slot_readable merged →
      assertSlotReferences dir merged (tr_account_id t) = Ok tt →
      db1 = move_mirrors JSON_parse (tr_id t) (parse (tr_orchestrator_spec t)) merged db →
      orchestrator_edit t t' db db1.

(** The settings a team row may hold. *)
Record settings_ok (t : TeamRow) : Prop := {
  ok_name : trimmed (Some (tr_name t));
  ok_parallel : 1 <= tr_max_parallel_steps t <= MAX_PARALLEL_CEILING;
  ok_open : 0 <= tr_max_open_missions t <= MAX_OPEN_MISSIONS_CEILING;
  ok_enabled : tr_enabled t = 0 ∨ tr_enabled t = 1
}.

Lemma clampInt_bounds v fallback lo hi :
  lo <= fallback <= hi → lo <= clampInt floor_other v fallback lo hi <= hi.
Proof. unfold clampInt. intros H. destruct (floor_Number floor_other v); lia. Qed.

Lemma edit_settings_Ok t patch t' : edit_settings floor_other t patch = Ok t' →
  tr_id t' = tr_id t ∧ tr_account_id t' = tr_account_id t ∧ tr_owner_account_id t' = tr_owner_account_id t ∧
  tr_orchestrator_spec t' = tr_orchestrator_spec t ∧ (settings_ok t → settings_ok t').
Proof.
  unfold edit_settings. intros H. apply bind_Ok in H as ([] & Hn%fail_if_Ok & [= <-]).
  split_and!; try done. intros [H1 H2 H3 H4]. unfold patched.
  constructor; simpl; unfold clampParallel, clampOpenMissions.
  - destruct (is_undefined (tp_name patch)); [done|]. intros x [= <-]. simpl in Hn.
    apply negb_false_iff, truthy_true in Hn. unfold trimmed_text. by rewrite trim_idem.
  - destruct (is_undefined (tp_max_parallel_steps patch)); [exact H2|by apply clampInt_bounds].
  - destruct (is_undefined (tp_max_open_missions patch)); [exact H3|by apply clampInt_bounds].
  - exact H4.
Qed.

Lemma edit_orchestrator_Ok t patch db t' db1 :
  edit_orchestrator JSON_parse dir t patch db = Ok (t', db1) →
  tr_id t' = tr_id t ∧ tr_account_id t' = tr_account_id t ∧ tr_owner_account_id t' = tr_owner_account_id t ∧
  td_teams db1 = td_teams db ∧ orchestrator_edit t t' db db1 ∧ (tr_account_id t = None → db1 = db) ∧
  (settings_ok t → settings_ok t').
Proof.
  unfold edit_orchestrator. destruct (is_undefined patch).
  { intros [= <- <-]. split_and!; try done. by apply orchestrator_kept. }
  intros H. apply bind_Ok in H as (merged & Hm%lift_spec_Ok & H).
  apply bind_Ok in H as ([] & Hr & [= <- <-]). split_and!; try done.
  - eapply orchestrator_moved; try done. by eapply merge_readable.
  - intros E. rewrite E in Hr. by apply references_need_account in Hr.
  - intros [H1 H2 H3 H4]. by constructor.
Qed.

Lemma set_enabled_ok t b : settings_ok t → settings_ok (t<|tr_enabled := if b : bool then 1 else 0|>).
Proof. intros [H1 H2 H3 H4]. constructor; simpl; try done. destruct b; auto. Qed.

Lemma set_allowed_ok t ids : settings_ok t → settings_ok (t<|tr_allowed_account_ids := ids|>).
Proof. intros [H1 H2 H3 H4]. by constructor. Qed.

Lemma updateTeam_cases teamId accountId patch db :
  let '(r, db') := updateTeam JSON_parse floor_other dir teamId accountId patch db in
  (∃ e, r = Err e ∧ db' = db) ∨
  (r = Ok tt ∧ ∃ t t' db1,
     writable_team db teamId accountId = Ok t ∧ db' = save_team t' db1 ∧ td_teams db1 = td_teams db ∧
     tr_id t' = tr_id t ∧ tr_account_id t' = tr_account_id t ∧ tr_owner_account_id t' = tr_owner_account_id t ∧
     orchestrator_edit t t' db db1 ∧ (settings_ok t → settings_ok t')).
Proof.
  unfold updateTeam, refused.
  destruct (writable_team db teamId accountId ≫= _) as [t1|e] eqn:E; [|left; eauto].
  apply bind_Ok in E as (t & Ht & (I1 & A1 & O1 & S1 & K1)%edit_settings_Ok).
  destruct (edit_orchestrator _ _ _ _ _) as [[t2 db1]|e] eqn:E2; [|left; eauto].
  apply edit_orchestrator_Ok in E2 as (I2 & A2 & O2 & T2 & Hed & Hnone & K2).
  assert (Hed' : ∀ t', tr_orchestrator_spec t' = tr_orchestrator_spec t2 → orchestrator_edit t t' db db1).
  { intros t' E'. destruct Hed as [Hs ->|merged Hs Hr Href ->].
    - apply orchestrator_kept; [congruence|done].
    - rewrite S1, I1, A1 in *. eapply orchestrator_moved; try done. congruence. }
  unfold edit_allowed. set (t3 := t2<|tr_enabled := _|>).
  assert (K3 : settings_ok t → settings_ok t3).
  { intros K. apply K1, K2 in K. unfold t3, patched.
    destruct (is_undefined (tp_enabled patch)); [by destruct K; constructor|by apply set_enabled_ok]. }
  destruct (negb _ && bool_decide (tr_account_id t3 = None)) eqn:Eg.
  - breflect. destruct (assertAccountsExist dir _) as [[]|e]; cbn.
    + right. split; [done|]. eexists t, _, db1. split_and!; try reflexivity; try done; simpl; try congruence.
      * by apply Hed'.
      * intros K. exact (set_allowed_ok t3 _ (K3 K)).
    + left. exists e. split; [done|]. apply Hnone. simpl in *. congruence.
  - right. split; [done|]. eexists t, t3, db1. split_and!; try reflexivity; try done; simpl; try congruence.
    by apply Hed'.
Qed.

Lemma edit_member_Ok t m patch m' :
  edit_member JSON_parse floor_other dir t m patch = Ok m' →
  mb_id m' = mb_id m ∧ mb_team_id m' = mb_team_id m ∧ mb_account_id m' = mb_account_id m ∧
  (1 <= mb_max_concurrent m <= MAX_PARALLEL_CEILING → 1 <= mb_max_concurrent m' <= MAX_PARALLEL_CEILING) ∧
  (0 <= mb_position m → 0 <= mb_position m') ∧
  (mb_spec m' = mb_spec m ∨
   sameTeamSlotSpec (parse (mb_spec m)) (parse (tr_orchestrator_spec t)) = false ∧
   ∃ merged, mb_spec m' = slot_json merged ∧ slot_readable merged ∧
             assertSlotReferences dir merged (tr_account_id t) = Ok tt).
Proof.
  unfold edit_member. set (m1 := m<|mb_role_label := _|><|mb_capabilities := _|><|mb_max_concurrent := _|><|mb_position := _|>).
  assert (Hb : (1 <= mb_max_concurrent m <= MAX_PARALLEL_CEILING → 1 <= mb_max_concurrent m1 <= MAX_PARALLEL_CEILING) ∧
               (0 <= mb_position m → 0 <= mb_position m1)).
  { unfold m1, patched, clampConcurrent, clampInt, read_position, MAX_PARALLEL_CEILING; simpl. split.
    - destruct (is_undefined _); [done|]. destruct (floor_Number _ _); lia.
    - destruct (mp_position patch) as [| | |n| | |]; try done. destruct (floor_Number _ _); lia. }
  unfold edit_member_runtime. destruct (is_undefined (mp_runtime patch)).
  { intros [= <-]. split_and!; [done..|apply Hb|apply Hb|by left]. }
  intros H. apply bind_Ok in H as ([] & Hsame%fail_if_Ok & H).
  apply bind_Ok in H as (merged & Hm%lift_spec_Ok & H). apply bind_Ok in H as ([] & Hr & [= <-]).
  split_and!; [done..|apply Hb|apply Hb|]. right. split; [exact Hsame|]. exists merged. split_and!; try done.
  by eapply merge_readable.
Qed.

(** The tables a successful call leaves. *)
Inductive effect (db : TeamDb) : TeamCall → TeamDb → Prop :=
  | created id input t :
      new_team floor_other dir id input = Ok t →
      effect db (call_create id input) {| td_teams := td_teams db ++ [t]; td_members := td_members db |}
  | updated teamId a patch t t' db1 :
      writable_team db teamId a = Ok t → td_teams db1 = td_teams db →
      tr_id t' = tr_id t → tr_account_id t' = tr_account_id t → tr_owner_account_id t' = tr_owner_account_id t →
      orchestrator_edit t t' db db1 → (settings_ok t → settings_ok t') →
      effect db (call_update teamId a patch) (save_team t' db1)
  | deleted teamId a t :
      writable_team db teamId a = Ok t → live_missions dir (tr_id t) <= 0 →
      effect db (call_delete teamId a)
        {| td_teams := lfilter (λ t', negb (String.eqb (tr_id t') (tr_id t))) (td_teams db);
           td_members := lfilter (λ m, negb (String.eqb (mb_team_id m) (tr_id t))) (td_members db) |}
  | added id teamId a input t spec row :
      writable_team db teamId a = Ok t → new_member_spec JSON_parse dir t input = Ok spec →
      mb_id row = id → mb_team_id row = tr_id t → mb_account_id row = tr_account_id t → mb_spec row = spec →
      1 <= mb_max_concurrent row <= MAX_PARALLEL_CEILING → 0 <= mb_position row →
      effect db (call_add id teamId a input) {| td_teams := td_teams db; td_members := td_members db ++ [row] |}
  | edited teamId a memberId patch t m m' :
      writable_team db teamId a = Ok t → find_member db memberId (tr_id t) = Ok m →
      edit_member JSON_parse floor_other dir t m patch = Ok m' →
      effect db (call_edit teamId a memberId patch) (save_member m' db)
  | removed teamId a memberId t m :
      writable_team db teamId a = Ok t → find_member db memberId (tr_id t) = Ok m →
      effect db (call_remove teamId a memberId)
        {| td_teams := td_teams db;
           td_members := lfilter (λ x, negb (String.eqb (mb_id x) (mb_id m))) (td_members db) |}.

Lemma run_call_effect c db :
  (∃ e, fst (run_call c db) = Err e ∧ snd (run_call c db) = db) ∨
  (fst (run_call c db) = Ok tt ∧ effect db c (snd (run_call c db))).
Proof.
  destruct c as [id input|teamId a patch|teamId a|id teamId a input|teamId a memberId patch|teamId a memberId];
    cbn [run_call].
  - unfold createTeam, refused. destruct (new_team _ _ _ _) as [t|e] eqn:E; [right|left; by eauto].
    split; [done|]. by apply created.
  - pose proof (updateTeam_cases teamId a patch db) as H. destruct (updateTeam _ _ _ _ _ _ _) as [r db'].
    destruct H as [(e & -> & ->)|(-> & t & t' & db1 & H1 & -> & H2)]; [left; by eauto|right]. split; [done|].
    destruct H2 as (H2 & H3 & H4 & H5 & H6 & H7). by eapply updated.
  - unfold deleteTeam, refused. destruct (writable_team db teamId a) as [t|e] eqn:E; [|left; by eauto].
    destruct (0 <? live_missions dir (tr_id t)) eqn:El; [left; by eauto|right]. breflect.
    split; [done|]. by eapply deleted.
  - unfold addMember, refused.
    destruct (_ ≫= _) as [[t spec]|e] eqn:E; [right|left; by eauto].
    apply bind_Ok in E as (t' & Ht & E). apply bind_Ok in E as (spec' & Hs & [= -> ->]). split; [done|].
    eapply added; try done; simpl; [|lia]. unfold clampConcurrent, clampInt, MAX_PARALLEL_CEILING.
    destruct (floor_Number _ _); lia.
  - unfold updateMember, refused. destruct (_ ≫= _) as [m'|e] eqn:E; [right|left; by eauto].
    apply bind_Ok in E as (t & Ht & E). apply bind_Ok in E as (m & Hm & E). split; [done|]. by eapply edited.
  - unfold removeMember, refused. destruct (_ ≫= _) as [m|e] eqn:E; [right|left; by eauto].
    apply bind_Ok in E as (t & Ht & E). split; [done|]. by eapply removed.
Qed.

(** ** Identities *)

Definition new_team_ids (c : TeamCall) : list string := match c with call_create id _ => [id] | _ => [] end.
Definition new_member_ids (c : TeamCall) : list string := match c with call_add id _ _ _ => [id] | _ => [] end.

Definition team_ids (db : TeamDb) : list string := List.map tr_id (td_teams db).
Definition member_ids (db : TeamDb) : list string := List.map mb_id (td_members db).

(** The database never gives a key twice. *)
Definition keys_fresh (db : TeamDb) (calls : list TeamCall) : Prop :=
  NoDup (team_ids db ++ List.flat_map new_team_ids calls) ∧
  NoDup (member_ids db ++ List.flat_map new_member_ids calls).

Lemma new_team_id id input t : new_team floor_other dir id input = Ok t → tr_id t = id.
Proof.
  unfold new_team. intros H. apply bind_Ok in H as (? & _ & H). apply bind_Ok in H as (? & _ & H).
  apply bind_Ok in H as (? & _ & H). apply bind_Ok in H as (? & _ & H). apply bind_Ok in H as (? & _ & [= <-]). done.
Qed.

Lemma map_replace {A} (key : A → string) (x : A) l :
  List.map key (List.map (λ y, if String.eqb (key y) (key x) then x else y) l) = List.map key l.
Proof.
  rewrite List.map_map. apply List.map_ext. intros y. by destruct (String.eqb_spec (key y) (key x)).
Qed.

Lemma sublist_map_lfilter {A} (key : A → string) (p : A → bool) l :
  List.map key (lfilter p l) `sublist_of` List.map key l.
Proof.
  induction l as [|x l IH]; [done|]. rewrite lfilter_cons. simpl.
  destruct (p x); simpl; [by constructor|]. by apply sublist_cons.
Qed.

Lemma effect_ids db c db' :
  effect db c db' →
  team_ids db' `sublist_of` team_ids db ++ new_team_ids c ∧
  member_ids db' `sublist_of` member_ids db ++ new_member_ids c.
Proof.
  unfold team_ids, member_ids.
  destruct 1 as [id input t H|teamId a patch t t' db1 H E1 E2 E3 E4 He Hk|teamId a t H|
                 id teamId a input t spec row H H' E1 E2 E3 E4 E5 E6|teamId a memberId patch t m m' H Hf He|teamId a memberId t m H Hf];
    simpl; rewrite ?app_nil_r, ?List.map_app; simpl; split; try done.
  - by apply new_team_id in H as ->.
  - rewrite (map_replace tr_id t'). by rewrite E1.
  - destruct He as [_ ->|merged _ _ _ ->]; [done|]. simpl. rewrite List.map_map.
    rewrite (List.map_ext _ mb_id); [done|]. intros m. by destruct (_ && _).
  - apply sublist_map_lfilter.
  - apply sublist_map_lfilter.
  - by rewrite E1.
  - by rewrite (map_replace mb_id m').
  - apply sublist_map_lfilter.
Qed.

Lemma keys_fresh_step db c calls :
  keys_fresh db (c :: calls) → keys_fresh (snd (run_call c db)) calls.
Proof.
  unfold keys_fresh; simpl. intros [Ht Hm].
  destruct (run_call_effect c db) as [(e & _ & ->)|(_ & H)].
  - split; eapply sublist_NoDup; [exact Ht| |exact Hm|]; apply sublist_app; try done; by apply sublist_inserts_l.
  - apply effect_ids in H as [H1 H2]. rewrite app_assoc in Ht, Hm.
    split; eapply sublist_NoDup; [exact Ht| |exact Hm|]; by apply sublist_app.
Qed.

Lemma keys_fresh_now db calls : keys_fresh db calls → NoDup (team_ids db) ∧ NoDup (member_ids db).
Proof. intros [Ht Hm]. apply NoDup_app in Ht as [? _], Hm as [? _]. done. Qed.

Lemma keys_stay_distinct calls : ∀ db, keys_fresh db calls → NoDup (team_ids (run_calls db calls)).
Proof.
  induction calls as [|c calls IH]; intros db Hf; [by destruct (keys_fresh_now _ _ Hf)|].
  by apply IH, keys_fresh_step.
Qed.

Lemma same_id_team db t t' :
  NoDup (team_ids db) → t ∈ td_teams db → t' ∈ td_teams db → tr_id t = tr_id t' → t = t'.
Proof. intros H. by apply NoDup_fmap_inj_on. Qed.

Lemma same_id_member db m m' :
  NoDup (member_ids db) → m ∈ td_members db → m' ∈ td_members db → mb_id m = mb_id m' → m = m'.
Proof. intros H. by apply NoDup_fmap_inj_on. Qed.

Lemma elem_of_replace {A} (key : A → string) (x y : A) l :
  y ∈ List.map (λ z, if String.eqb (key z) (key x) then x else z) l ↔
  (y = x ∧ ∃ z, z ∈ l ∧ key z = key x) ∨ (y ∈ l ∧ key y ≠ key x).
Proof.
  rewrite list_elem_of_In, in_map_iff. split.
  - intros (z & E & Hz%list_elem_of_In). destruct (String.eqb_spec (key z) (key x)); subst; eauto.
  - intros [(-> & z & Hz & E)|[Hy N]].
    + exists z. apply String.eqb_eq in E as ->. by rewrite <- list_elem_of_In.
    + exists y. apply String.eqb_neq in N as ->. by rewrite <- list_elem_of_In.
Qed.

Lemma save_team_keeps t' db t0 :
  t0 ∈ td_teams db → ∃ t1, t1 ∈ td_teams (save_team t' db) ∧ tr_id t1 = tr_id t0 ∧
    ((t1 = t0 ∧ tr_id t0 ≠ tr_id t') ∨ (t1 = t' ∧ tr_id t0 = tr_id t')).
Proof.
  intros H. destruct (String.eqb_spec (tr_id t0) (tr_id t')) as [E|N].
  - exists t'. split_and!; [|done|by right]. apply (elem_of_replace tr_id). left. eauto.
  - exists t0. split_and!; [|done|by left]. apply (elem_of_replace tr_id). by right.
Qed.

Lemma sameTeamSlotSpec_refl s : sameTeamSlotSpec (Some s) (Some s) = true.
Proof. apply String.eqb_refl. Qed.

(** ** The orchestrator's own seat *)

(** A row that runs what its team's orchestrator runs. *)
Definition mirrors (db : TeamDb) (row : MemberRow) : Prop :=
  ∃ t, t ∈ td_teams db ∧ tr_id t = mb_team_id row ∧
    parse (mb_spec row) = parse (tr_orchestrator_spec t) ∧ is_Some (parse (tr_orchestrator_spec t)).

Definition seated (m : string) (db : TeamDb) : Prop :=
  ∀ row, row ∈ td_members db → mb_id row = m → mirrors db row.

Lemma mirrors_edit db t t' db1 row :
  NoDup (team_ids db) → t ∈ td_teams db → tr_id t' = tr_id t → td_teams db1 = td_teams db →
  orchestrator_edit t t' db db1 → row ∈ td_members db → mirrors db row →
  ∀ row', row' ∈ td_members db1 → mb_id row' = mb_id row → NoDup (member_ids db) →
  mirrors (save_team t' db1) row'.
Proof.
  intros Hn Ht Hid HT He Hrow (t0 & Ht0 & Ei & Ep & Hs) row' Hrow' Eid Hnm. unfold mirrors.
  destruct (save_team_keeps t' db1 t0) as (t1 & Ht1 & Ei1 & Hcase); [by rewrite HT|].
  destruct He as [Hspec ->|merged Hspec Hread _ ->].
  - assert (row' = row) as -> by (by apply (same_id_member db)). exists t1. split_and!; [done|congruence|..].
    all: destruct Hcase as [[-> _]|[-> E]]; [done|]; rewrite Hspec.
    all: assert (t0 = t) as -> by (apply (same_id_team db); congruence); done.
  - simpl in Hrow'. apply list_elem_of_In, in_map_iff in Hrow' as (row0 & Er & H0%list_elem_of_In).
    assert (row0 = row) as ->.
    { apply (same_id_member db); try done. rewrite <- Eid, <- Er. by destruct (_ && _). }
    exists t1. destruct (String.eqb_spec (mb_team_id row) (tr_id t)) as [Et|Nt].
    + assert (t0 = t) as -> by (apply (same_id_team db); congruence).
      destruct Hs as [s Hs]. rewrite Ep, Hs, sameTeamSlotSpec_refl in Er. subst row'.
      destruct Hcase as [[_ N]|[-> _]]; [congruence|].
      simpl. rewrite Hspec, parse_stored by done. split_and!; [done|congruence|done|by eexists].
    + subst row'. simpl. destruct Hcase as [[-> _]|[-> E]]; [by split_and!|congruence].
Qed.

Lemma seated_step m c db db' :
  NoDup (team_ids db) → NoDup (member_ids db) → m ∉ new_member_ids c →
  effect db c db' → seated m db → seated m db'.
Proof.
  intros Hnt Hnm Hm He Hs row Hrow Eid.
  destruct He as [id input t H|teamId a patch t t' db1 H E1 E2 E3 E4 He Hk|teamId a t H|
                  id teamId a input t spec row0 H H' E1 E2 E3 E4 E5 E6|teamId a memberId patch t x x' H Hf He|teamId a memberId t x H Hf].
  - destruct (Hs row Hrow Eid) as (t0 & Ht0 & ?). exists t0. split; [|done]. apply elem_of_app. by left.
  - apply writable_team_Ok in H as (Ht & _ & _).
    assert (∃ row0, row0 ∈ td_members db ∧ mb_id row0 = mb_id row) as (row0 & Hrow0 & E0).
    { destruct He as [_ ->|merged _ _ _ ->]; [by exists row|]. simpl in Hrow.
      apply list_elem_of_In, in_map_iff in Hrow as (row0 & <- & H0%list_elem_of_In).
      exists row0. by destruct (_ && _). }
    eapply (mirrors_edit db t t' db1 row0); try done. by apply Hs; [|congruence].
  - simpl in *. apply elem_of_lfilter in Hrow as [Hrow Hp].
    destruct (Hs row Hrow Eid) as (t0 & Ht0 & Ei & ?). exists t0. split; [|done]. simpl.
    apply elem_of_lfilter. by rewrite Ei.
  - simpl in *. apply elem_of_app in Hrow as [Hrow|Hrow%list_elem_of_singleton].
    + by apply Hs.
    + subst row id. exfalso. apply Hm, list_elem_of_singleton. done.
  - apply writable_team_Ok in H as (Ht & _ & _). apply find_member_Ok in Hf as (Hx & Ex & Etx).
    apply edit_member_Ok in He as (I1 & I2 & _ & _ & _ & Hspec).
    apply (elem_of_replace mb_id) in Hrow as [[-> _]|[Hrow _]]; [|by apply Hs].
    destruct (Hs x Hx) as (t0 & Ht0 & Ei & Ep & Hsome); [congruence|].
    assert (t0 = t) as -> by (apply (same_id_team db); congruence).
    exists t. split_and!; [done|congruence| |done]. destruct Hspec as [->|[Hsame _]]; [done|].
    rewrite Ep in Hsame. destruct Hsome as [s Es]. by rewrite Es, sameTeamSlotSpec_refl in Hsame.
  - simpl in *. apply elem_of_lfilter in Hrow as [Hrow _]. by apply Hs.
Qed.

Lemma seated_calls m calls : ∀ db,
  keys_fresh db calls → m ∉ List.flat_map new_member_ids calls → seated m db →
  seated m (run_calls db calls).
Proof.
  induction calls as [|c calls IH]; intros db Hf Hm Hs; [done|]. simpl in Hm |- *.
  rewrite elem_of_app in Hm. apply IH; [by apply keys_fresh_step|naive_solver|].
  destruct (keys_fresh_now db _ Hf) as [H1 H2].
  destruct (run_call_effect c db) as [(e & _ & ->)|(_ & He)]; [done|].
  eapply seated_step; try done. naive_solver.
Qed.

Lemma seat_taken db m teamId a input db' :
  m ∉ member_ids db → js_truthy (mi_as_orchestrator input) = true →
  effect db (call_add m teamId a input) db' → seated m db'.
Proof.
  intros Hm Hseat He. inversion He as [| | |id teamId' a' input' t spec row H H' E1 E2 E3 E4 E5 E6| |]; subst.
  intros row' Hrow' Eid. simpl in Hrow'. apply elem_of_app in Hrow' as [Hrow'|Hrow']; [|apply list_elem_of_singleton in Hrow' as ->].
  { exfalso. apply Hm. rewrite <- Eid. apply list_elem_of_In, in_map, list_elem_of_In, Hrow'. }
  apply writable_team_Ok in H as (Ht & _ & _). exists t. unfold new_member_spec in H'. rewrite Hseat in H'.
  destruct (parse (tr_orchestrator_spec t)) as [s|] eqn:Ep; [|done]. injection H' as E'.
  split_and!; [done|done| |by eexists]. rewrite <- E'. apply parse_stored. by eapply parse_readable.
Qed.

(** ** Whose teams change *)

Definition roster_rows (teamId : string) (db : TeamDb) : list MemberRow :=
  lfilter (λ m, String.eqb (mb_team_id m) teamId) (td_members db).

Lemma lfilter_map_same {A} (p : A → bool) (f : A → A) l :
  (∀ x, x ∈ l → p (f x) = p x) → (∀ x, x ∈ l → p x = true → f x = x) →
  lfilter p (List.map f l) = lfilter p l.
Proof.
  induction l as [|x l IH]; intros H1 H2; [done|]. cbn [List.map]. rewrite !lfilter_cons.
  rewrite (H1 x (list_elem_of_here _ _)), IH.
  2: { intros y Hy. apply H1, list_elem_of_further, Hy. }
  2: { intros y Hy. apply H2, list_elem_of_further, Hy. }
  destruct (p x) eqn:E; [|done]. by rewrite (H2 x (list_elem_of_here _ _) E).
Qed.

Lemma roster_of_other db c db' t :
  NoDup (member_ids db) → effect db c db' → t ∈ td_teams db → NoDup (team_ids db) →
  ¬ may_edit (caller_of c) t → roster_rows (tr_id t) db' = roster_rows (tr_id t) db.
Proof.
  intros Hnm He Ht Hnt Hno. unfold roster_rows.
  assert (Hother : ∀ teamId a t0, writable_team db teamId a = Ok t0 → caller_of c = a → tr_id t0 ≠ tr_id t).
  { intros teamId a t0 (H0 & _ & Hw)%writable_team_Ok <- E. by rewrite (same_id_team db t0 t) in Hw. }
  destruct He as [id input x H|teamId a patch x x' db1 H E1 E2 E3 E4 He Hk|teamId a x H|
                  id teamId a input x spec row H H' E1 E2 E3 E4 E5 E6|teamId a memberId patch x m m' H Hf He|teamId a memberId x m H Hf];
    simpl; try (specialize (Hother _ _ _ H eq_refl)).
  - done.
  - destruct He as [_ ->|merged _ _ _ ->]; [done|]. simpl. apply lfilter_map_same.
    + intros y _. by destruct (_ && _).
    + intros y _ Ey. apply String.eqb_eq in Ey. destruct (String.eqb_spec (mb_team_id y) (tr_id x)); [congruence|done].
  - apply lfilter_within. intros y _ Ey. apply String.eqb_eq in Ey. apply negb_true_iff, String.eqb_neq. congruence.
  - rewrite lfilter_app, lfilter_cons, E2. apply String.eqb_neq in Hother. rewrite Hother. apply app_nil_r.
  - apply find_member_Ok in Hf as (Hx & Ex & Etx). apply edit_member_Ok in He as (I1 & I2 & _).
    apply lfilter_map_same; intros y Hy; destruct (String.eqb_spec (mb_id y) (mb_id m')) as [Ey|]; try done.
    + assert (y = m) as -> by (apply (same_id_member db); congruence). by rewrite I2.
    + intros Ep%String.eqb_eq. assert (y = m) as -> by (apply (same_id_member db); congruence). congruence.
  - apply find_member_Ok in Hf as (Hx & Ex & Etx). apply lfilter_within. intros y Hy Ey.
    apply String.eqb_eq in Ey. apply negb_true_iff, String.eqb_neq. intros E.
    assert (y = m) as -> by (by apply (same_id_member db)). congruence.
Qed.

Lemma team_of_other db c db' t :
  effect db c db' → t ∈ td_teams db → NoDup (team_ids db) → ¬ may_edit (caller_of c) t → t ∈ td_teams db'.
Proof.
  intros He Ht Hnt Hno.
  assert (Hother : ∀ teamId a t0, writable_team db teamId a = Ok t0 → caller_of c = a → tr_id t0 ≠ tr_id t).
  { intros teamId a t0 (H0 & _ & Hw)%writable_team_Ok <- E. by rewrite (same_id_team db t0 t) in Hw. }
  destruct He as [id input x H|teamId a patch x x' db1 H E1 E2 E3 E4 He Hk|teamId a x H|
                  id teamId a input x spec row H H' E1 E2 E3 E4 E5 E6|teamId a memberId patch x m m' H Hf He|teamId a memberId x m H Hf];
    simpl; try (specialize (Hother _ _ _ H eq_refl)); try done.
  - apply elem_of_app. by left.
  - apply (elem_of_replace tr_id). right. rewrite E1. split; [done|congruence].
  - apply elem_of_lfilter. split; [done|]. apply negb_true_iff, String.eqb_neq. congruence.
Qed.

(** ** Well-formed tables *)

Definition spec_usable (v : jsval) (accountId : option string) : Prop :=
  ∃ s, parse v = Some s ∧ assertSlotReferences dir s accountId = Ok tt.

Definition team_ok (t : TeamRow) : Prop :=
  settings_ok t ∧ spec_usable (tr_orchestrator_spec t) (tr_account_id t) ∧
  ∃ a, a ≠ "" ∧ tr_account_id t = Some a ∧ tr_owner_account_id t = Some a.

Definition member_ok (t : TeamRow) (m : MemberRow) : Prop :=
  tr_id t = mb_team_id m ∧ mb_account_id m = tr_account_id t ∧ spec_usable (mb_spec m) (tr_account_id t) ∧
  1 <= mb_max_concurrent m <= MAX_PARALLEL_CEILING ∧ 0 <= mb_position m.

Record tables_ok (db : TeamDb) : Prop := {
  teams_ok : ∀ t, t ∈ td_teams db → team_ok t;
  members_ok : ∀ m, m ∈ td_members db → ∃ t, t ∈ td_teams db ∧ member_ok t m
}.

Lemma stored_usable s accountId :
  slot_readable s → assertSlotReferences dir s accountId = Ok tt → spec_usable (slot_json s) accountId.
Proof. intros H Hr. exists s. by rewrite parse_stored. Qed.

Lemma new_team_ok id input t : new_team floor_other dir id input = Ok t → team_ok t.
Proof.
  unfold new_team. intros H. apply bind_Ok in H as ([] & Ha%fail_if_Ok%negb_false_iff & H).
  apply bind_Ok in H as ([] & Hn%fail_if_Ok%negb_false_iff & H).
  apply bind_Ok in H as (s & Hs%lift_spec_Ok & H). apply bind_Ok in H as ([] & _ & H).
  apply bind_Ok in H as ([] & Hr & [= <-]). apply normalizeTeamSlotSpec_ok in Hs as [[Hs _] _].
  destruct (js_truthy (ti_is_global input)); [by apply references_need_account in Hr|].
  split_and!; [|by apply stored_usable|].
  - constructor; simpl.
    + intros x [= <-]. split; [by apply truthy_true|by rewrite trim_idem].
    + by apply clampInt_bounds.
    + by apply clampInt_bounds.
    + by right.
  - simpl. exists (trim (ti_account_id input)). split_and!; [by apply truthy_true|done|done].
Qed.

Lemma team_ok_edit t t' db db1 :
  tr_account_id t' = tr_account_id t → tr_owner_account_id t' = tr_owner_account_id t →
  orchestrator_edit t t' db db1 → (settings_ok t → settings_ok t') → team_ok t → team_ok t'.
Proof.
  intros Ea Eo He Hk (H1 & H2 & a & Hn & H3 & H4). split_and!; [by apply Hk| |exists a; split_and!; congruence].
  rewrite Ea. destruct He as [-> _|merged -> Hr Href _]; [done|]. by apply stored_usable.
Qed.

Lemma members_ok_edit t t' db db1 :
  tr_id t' = tr_id t → tr_account_id t' = tr_account_id t → td_teams db1 = td_teams db →
  orchestrator_edit t t' db db1 → t ∈ td_teams db → NoDup (team_ids db) →
  (∀ m, m ∈ td_members db → ∃ t, t ∈ td_teams db ∧ member_ok t m) →
  ∀ m, m ∈ td_members db1 → ∃ t0, t0 ∈ td_teams (save_team t' db1) ∧ member_ok t0 m.
Proof.
  intros Ei Ea ET He Ht Hnt Hms m Hm.
  assert (∃ m0, m0 ∈ td_members db ∧ mb_team_id m = mb_team_id m0 ∧ mb_account_id m = mb_account_id m0 ∧
            mb_max_concurrent m = mb_max_concurrent m0 ∧ mb_position m = mb_position m0 ∧
            (mb_spec m = mb_spec m0 ∨ mb_team_id m0 = tr_id t ∧ spec_usable (mb_spec m) (tr_account_id t)))
    as (m0 & Hm0 & E1 & E2 & E3 & E4 & E5).
  { destruct He as [_ ->|merged _ Hr Href ->]; [exists m; split_and!; auto|]. simpl in Hm.
    apply list_elem_of_In, in_map_iff in Hm as (m0 & <- & H0%list_elem_of_In). exists m0.
    destruct (String.eqb_spec (mb_team_id m0) (tr_id t)) as [Et|]; [|by split_and!; auto].
    destruct (sameTeamSlotSpec _ _); simpl; split_and!; auto. right. split; [done|]. by apply stored_usable. }
  destruct (Hms m0 Hm0) as (t0 & Ht0 & I1 & I2 & I3 & I4 & I5).
  destruct (save_team_keeps t' db1 t0) as (t1 & Ht1 & Ei1 & Hc); [by rewrite ET|].
  assert (tr_account_id t1 = tr_account_id t0) as Ea1.
  { destruct Hc as [[-> _]|[-> Ec]]; [done|]. rewrite Ea. f_equal. apply (same_id_team db); congruence. }
  exists t1. split; [done|]. unfold member_ok. rewrite E1, E2, E3, E4, Ea1. split_and!; try done; try congruence; try lia.
  destruct E5 as [->|[Et H]]; [done|]. by rewrite (same_id_team db t0 t) by congruence.
Qed.

Lemma added_spec_usable t input spec :
  team_ok t → new_member_spec JSON_parse dir t input = Ok spec →
  spec_usable spec (tr_account_id t).
Proof.
  intros (_ & (s & Es & Hr) & _). unfold new_member_spec. destruct (js_truthy _).
  - rewrite Es. intros [= <-]. apply stored_usable; [by eapply parse_readable|done].
  - intros H. apply bind_Ok in H as (s' & Hs%lift_spec_Ok & H). apply bind_Ok in H as ([] & Hr' & [= <-]).
    apply normalizeTeamSlotSpec_ok in Hs as [[Hs _] _]. by apply stored_usable.
Qed.

Lemma tables_ok_step c db db' :
  NoDup (team_ids db) → NoDup (member_ids db) → effect db c db' → tables_ok db → tables_ok db'.
Proof.
  intros Hnt Hnm He [Hts Hms].
  destruct He as [id input t H|teamId a patch t t' db1 H E1 E2 E3 E4 He Hk|teamId a t H|
                  id teamId a input t spec row H H' E1 E2 E3 E4 E5 E6|teamId a memberId patch t x x' H Hf He|teamId a memberId t x H Hf].
  - constructor; simpl.
    + intros x [Hx|Hx]%elem_of_app; [by apply Hts|]. apply list_elem_of_singleton in Hx as ->. by eapply new_team_ok.
    + intros m Hm. destruct (Hms m Hm) as (t0 & ? & ?). exists t0. rewrite elem_of_app. auto.
  - apply writable_team_Ok in H as (Ht & _ & _). constructor.
    + intros x [[-> _]|[Hx _]]%(elem_of_replace tr_id); [eapply team_ok_edit; eauto|by rewrite E1 in Hx; auto].
    + simpl. by eapply members_ok_edit.
  - constructor; simpl.
    + intros x [Hx _]%elem_of_lfilter. by apply Hts.
    + intros m [Hm Hp]%elem_of_lfilter. destruct (Hms m Hm) as (t0 & Ht0 & Ei & Hr). exists t0.
      split; [|by split]. apply elem_of_lfilter. by rewrite Ei.
  - apply writable_team_Ok in H as (Ht & _ & _). constructor; simpl; [exact Hts|].
    intros m [Hm|Hm]%elem_of_app; [by apply Hms|]. apply list_elem_of_singleton in Hm as ->.
    exists t. split; [done|]. unfold member_ok. split_and!; try done; try lia. rewrite E4.
    apply (added_spec_usable t input); [by apply Hts|done].
  - apply writable_team_Ok in H as (Ht & _ & _). apply find_member_Ok in Hf as (Hx & Ex & Etx).
    apply edit_member_Ok in He as (I1 & I2 & I3 & I4 & I5 & Hspec). constructor; [exact Hts|].
    intros m [[-> _]|[Hm _]]%(elem_of_replace mb_id); [|by apply Hms].
    destruct (Hms x Hx) as (t0 & Ht0 & J1 & J2 & J3 & J4 & J5).
    assert (t0 = t) as -> by (apply (same_id_team db); congruence).
    exists t. split; [done|]. unfold member_ok. rewrite I2, I3. split_and!; auto; try lia.
    destruct Hspec as [->|(_ & merged & -> & Hr & Href)]; [done|]. by apply stored_usable.
  - constructor; simpl; [exact Hts|]. intros m [Hm _]%elem_of_lfilter. by apply Hms.
Qed.

Lemma tables_ok_calls calls : ∀ db, keys_fresh db calls → tables_ok db → tables_ok (run_calls db calls).
Proof.
  induction calls as [|c calls IH]; intros db Hf Hs; [done|]. apply IH; [by apply keys_fresh_step|].
  destruct (keys_fresh_now db _ Hf) as [H1 H2].
  destruct (run_call_effect c db) as [(e & _ & ->)|(_ & He)]; [done|]. by eapply tables_ok_step.
Qed.
End facts.

(** ** Membership by identity *)

Section membership.
Context (sha256hex : string → string) (JSON_parse : string → option jsval) (dir : Directory).

Lemma get_mark out k role k' :
  JMap.get (mark out k role) k' =
    if String.eqb k k' then
      let entry := default {| sits_orchestrator := false; sits_member := false |} (JMap.get out k) in
      Some (match role with
            | role_orchestrator => entry<|sits_orchestrator := true|>
            | role_member => entry<|sits_member := true|>
            end)
    else JMap.get out k'.
Proof.
  unfold mark. destruct (String.eqb_spec k k') as [<-|N]; [apply JMap.get_set_eq|by apply JMap.get_set_ne].
Qed.

(** What has been marked of a team. *)
Definition seat_of (out : list (string * TeamMembership)) (teamId : string) (role : TeamRole) : bool :=
  match JMap.get out teamId with
  | Some s => match role with role_orchestrator => sits_orchestrator s | role_member => sits_member s end
  | None => false
  end.

Lemma seat_mark out k role k' role' :
  seat_of (mark out k role) k' role' =
    seat_of out k' role' || (String.eqb k k' && bool_decide (role = role' :> TeamRole)).
Proof.
  unfold seat_of. rewrite get_mark. destruct (String.eqb_spec k k') as [<-|]; simpl; [|by rewrite orb_false_r].
  destruct (JMap.get out k) as [[o m]|], role, role'; simpl; by rewrite ?orb_true_r, ?orb_false_r.
Qed.

Lemma seat_mark_team wanted ts : ∀ out k role,
  seat_of (foldl (mark_team sha256hex JSON_parse dir wanted) out ts) k role = true ↔
  seat_of out k role = true ∨
  role = role_orchestrator ∧ ∃ t, t ∈ ts ∧ tr_id t = k ∧
    (holds wanted (tr_orchestrator_agent_id t)
     || runsAs sha256hex dir wanted (parseTeamSlotSpec JSON_parse (tr_orchestrator_spec t))) = true.
Proof.
  induction ts as [|t ts IH]; intros out k role; simpl.
  { split; [by left|]. intros [?|(_ & t & Ht & _)]; [done|inversion Ht]. }
  rewrite IH. unfold mark_team at 1. setoid_rewrite elem_of_cons.
  destruct (holds _ _ || runsAs _ _ _ _) eqn:E.
  - rewrite seat_mark, orb_true_iff, andb_true_iff, String.eqb_eq, bool_decide_eq_true.
    split; [intros [[?|[? <-]]|(? & x & ? & ?)]; eauto 7|].
    intros [?|(-> & x & [->|?] & <- & ?)]; eauto 7.
  - split; [intros [?|(? & x & ? & ?)]; eauto 7|].
    intros [?|(-> & x & [->|?] & <- & ?)]; [by auto|congruence|eauto 7].
Qed.

Lemma seat_mark_member wanted ms : ∀ out k role,
  seat_of (foldl (mark_member sha256hex JSON_parse dir wanted) out ms) k role = true ↔
  seat_of out k role = true ∨
  role = role_member ∧ ∃ m, m ∈ ms ∧ mb_team_id m = k ∧
    (holds wanted (mb_agent_id m)
     || runsAs sha256hex dir wanted (parseTeamSlotSpec JSON_parse (mb_spec m))) = true.
Proof.
  induction ms as [|m ms IH]; intros out k role; simpl.
  { split; [by left|]. intros [?|(_ & m & Hm & _)]; [done|inversion Hm]. }
  rewrite IH. unfold mark_member at 1. setoid_rewrite elem_of_cons.
  destruct (holds _ _ || runsAs _ _ _ _) eqn:E.
  - rewrite seat_mark, orb_true_iff, andb_true_iff, String.eqb_eq, bool_decide_eq_true.
    split; [intros [[?|[? <-]]|(? & x & ? & ?)]; eauto 7|].
    intros [?|(-> & x & [->|?] & <- & ?)]; eauto 7.
  - split; [intros [?|(? & x & ? & ?)]; eauto 7|].
    intros [?|(-> & x & [->|?] & <- & ?)]; [by auto|congruence|eauto 7].
Qed.

(** The seats found for one identity, and when a slot runs as it. *)
Lemma found_seat id db k role :
  trim id = id → id ≠ "" →
  seat_of (teamsForIdentities sha256hex JSON_parse dir [id] db) k role = true ↔
  role = role_orchestrator ∧ (∃ t, t ∈ td_teams db ∧ tr_id t = k ∧
    (holds [id] (tr_orchestrator_agent_id t)
     || runsAs sha256hex dir [id] (parseTeamSlotSpec JSON_parse (tr_orchestrator_spec t))) = true) ∨
  role = role_member ∧ (∃ m, m ∈ td_members db ∧ mb_team_id m = k ∧
    (holds [id] (mb_agent_id m)
     || runsAs sha256hex dir [id] (parseTeamSlotSpec JSON_parse (mb_spec m))) = true).
Proof.
  intros Ht Hn. unfold teamsForIdentities. simpl. rewrite Ht, (proj2 (truthy_true id) Hn).
  change (new_Set [id]) with [id]. rewrite seat_mark_member, seat_mark_team.
  split; [intros [[[=]|?]|?]; auto|intros [?|?]; auto].
Qed.

Lemma runs_as_placed slot project scope r host_folder :
  placed sha256hex scope slot project r →
  (∀ f, projectFolderForHost project (slot_host slot) = Some f →
     {| hf_host_id := slot_host slot; hf_path := f |} ∈ dir_host_folders dir) →
  host_folder = Some (rs_spec slot) → runsAs sha256hex dir [mr_agent_id r] host_folder = true.
Proof.
  intros [_ _ Hs (f & Hf & _ & Hd) _ _ Hid] Hdir ->. simpl. apply lsome_true. exists f. split.
  - unfold folders_of. rewrite elem_of_new_Set. apply list_elem_of_In, in_map_iff.
    exists {| hf_host_id := slot_host slot; hf_path := f |}. split; [done|].
    rewrite <- list_elem_of_In. apply elem_of_lfilter. split; [by apply Hdir|apply String.eqb_refl].
  - apply includes_true, list_elem_of_singleton. rewrite Hid. unfold runtimeIdentityKey.
    by rewrite Hs, Hd, trim_idem.
Qed.
End membership.

(** ** Properties *)

(** The orchestrator's seat follows the orchestrator: a roster row that was added
    as the orchestrator runs, after any further calls by anyone, exactly what its
    team's orchestrator runs, and an edit of its runtime is refused, so the
    orchestrator's runtime has one place where it can be edited. *)
Theorem orchestrator_seat_follows JSON_parse floor_other dir db m teamId a input calls :
  keys_fresh db (call_add m teamId a input :: calls) →
  js_truthy (mi_as_orchestrator input) = true →
  fst (run_call JSON_parse floor_other dir (call_add m teamId a input) db) = Ok tt →
  let db' := run_calls JSON_parse floor_other dir db (call_add m teamId a input :: calls) in
  ∀ row, row ∈ td_members db' → mb_id row = m →
    mirrors JSON_parse db' row ∧
    ∀ t patch, t ∈ td_teams db' → tr_id t = mb_team_id row → is_undefined patch = false →
      edit_member_runtime JSON_parse dir t row patch = Err (409, member_is_orchestrator).
Proof.
  intros Hf Hseat Hok db' row Hrow Eid.
  pose proof Hf as [Ht Hm]. simpl in Hm. apply NoDup_app in Hm as (_ & Hd & Hm'). apply NoDup_cons in Hm' as [Hm' _].
  assert (Hnew : m ∉ member_ids db) by (intros H; apply (Hd m H), list_elem_of_here).
  assert (Hmir : seated JSON_parse m db').
  { apply (seated_calls JSON_parse floor_other dir m calls
             (snd (run_call JSON_parse floor_other dir (call_add m teamId a input) db)));
      [by apply keys_fresh_step|exact Hm'|].
    destruct (run_call_effect JSON_parse floor_other dir (call_add m teamId a input) db) as [(e & He & _)|(_ & He)].
    - rewrite He in Hok. discriminate.
    - by eapply seat_taken. }
  destruct (Hmir row Hrow Eid) as (t0 & Ht0 & Ei & Ep & [s Es]). split; [by exists t0|].
  intros t patch Hin Et Hp. unfold edit_member_runtime. rewrite Hp.
  assert (Hn : NoDup (team_ids db')) by (by apply keys_stay_distinct).
  assert (t = t0) as -> by (apply (same_id_team db'); congruence).
  by rewrite Ep, Es, sameTeamSlotSpec_refl.
Qed.

(** An agent of a started mission finds its team: whatever runtime a roster
    resolves for a team's slots, in whichever of the mission's projects, its identity
    sits on that team, the orchestrator's as the orchestrator and a member's as a
    member, as long as the slot's host still has the project's folder registered. *)
Theorem roster_agents_find_their_team sha256hex JSON_parse dir db t orchestrator members projects scope prefer roster r :
  t ∈ td_teams db →
  parseTeamSlotSpec JSON_parse (tr_orchestrator_spec t) = Some (rs_spec orchestrator) →
  (∀ slot, slot ∈ members → ∃ m, m ∈ td_members db ∧ mb_team_id m = tr_id t ∧
     parseTeamSlotSpec JSON_parse (mb_spec m) = Some (rs_spec slot)) →
  (∀ project host f, project ∈ projects → projectFolderForHost project host = Some f →
     {| hf_host_id := host; hf_path := f |} ∈ dir_host_folders dir) →
  (∀ s, all_chars is_key_start (sha256hex s) = true) →
  resolveMissionRoster sha256hex orchestrator members projects scope prefer = Ok roster →
  r ∈ ro_runtimes roster →
  let seats := teamsForIdentities sha256hex JSON_parse dir [mr_agent_id r] db in
  (head (ro_runtimes roster) = Some r ∧ seat_of seats (tr_id t) role_orchestrator = true) ∨
  seat_of seats (tr_id t) role_member = true.
Proof.
  intros Ht Ho Hms Hdir Hhex Hroster Hr seats.
  destruct (resolved_runtimes _ _ _ _ _ _ _ _ Hroster Hr) as (slot & p & scope' & Hp & Hpl & Hslot).
  assert (Hid : trim (mr_agent_id r) = mr_agent_id r ∧ mr_agent_id r ≠ "").
  { rewrite (placed_identity _ _ _ _ _ Hpl). unfold runtimeIdentityKey. split; [|done].
    apply trim_prefixed; [done|done|]. apply (all_chars_not is_key_start); [by apply all_chars_slice|].
    intros c Hc. apply is_key_char_not_space. unfold is_key_char. by rewrite Hc. }
  assert (Hruns := λ v, runs_as_placed sha256hex dir slot p scope' r v Hpl (λ f, Hdir p _ f Hp)).
  destruct Hslot as [[-> Hhead]|Hslot]; [left; split; [done|]|right]; apply found_seat; try apply Hid.
  - left. split; [done|]. exists t. split_and!; [done|done|]. by rewrite (Hruns _ Ho), orb_true_r.
  - right. split; [done|]. destruct (Hms slot Hslot) as (m & Hm & Et & Es).
    exists m. split_and!; [done|done|]. by rewrite (Hruns _ Es), orb_true_r.
Qed.

(** A call that is refused leaves the tables as they were: the one write that is made
    before a check, that of the orchestrator's copies, is made only in teams for which
    the check cannot fail. *)
Lemma refused_calls_change_nothing JSON_parse floor_other dir c db e :
  fst (run_call JSON_parse floor_other dir c db) = Err e → snd (run_call JSON_parse floor_other dir c db) = db.
Proof.
  intros H. destruct (run_call_effect JSON_parse floor_other dir c db) as [(e' & _ & ?)|(Hok & _)]; [done|].
  rewrite Hok in H. discriminate.
Qed.

(** Nobody edits another account's team: whatever call is made for an account,
    every team that account may not edit keeps its row and its whole roster. *)
Theorem teams_belong_to_their_accounts JSON_parse floor_other dir db c t :
  keys_fresh db [c] → t ∈ td_teams db → ¬ may_edit (caller_of c) t →
  let db' := snd (run_call JSON_parse floor_other dir c db) in
  t ∈ td_teams db' ∧ roster_rows (tr_id t) db' = roster_rows (tr_id t) db.
Proof.
  intros Hf Ht Hno db'. destruct (keys_fresh_now db _ Hf) as [Hnt Hnm]. unfold db'.
  destruct (run_call_effect JSON_parse floor_other dir c db) as [(e & _ & ->)|(_ & He)]; [done|].
  split; [by eapply team_of_other|by eapply roster_of_other].
Qed.

(** Whatever is done to teams, they stay usable: starting from nothing, every team
    has an account that owns it, settings within their limits and an orchestrator
    whose stored spec reads back and names a host, a credential and a profile its
    account has; and every roster row belongs to a team and is as sound. *)
Theorem teams_stay_well_formed JSON_parse floor_other dir calls :
  NoDup (List.flat_map new_team_ids calls) → NoDup (List.flat_map new_member_ids calls) →
  tables_ok JSON_parse dir
    (run_calls JSON_parse floor_other dir {| td_teams := []; td_members := [] |} calls).
Proof.
  intros Ht Hm. apply tables_ok_calls; [by split|]. split; intros x Hx; inversion Hx.
Qed.

(** No call makes a global team, and none gives one another orchestrator or another
    member of its own: a global team has no account, and the check of a slot's host
    wants the team's account to own it. *)
Lemma global_team_is_refused floor_other dir id input :
  js_truthy (ti_is_global input) = true → ∃ e, new_team floor_other dir id input = Err e.
Proof.
  intros Hg. unfold new_team. rewrite Hg.
  destruct (fail_if (negb (truthy (trim (ti_account_id input)))) _) as [[]|e]; cbn; [|eauto].
  destruct (fail_if (negb (truthy (trim (ti_name input)))) _) as [[]|e]; cbn; [|eauto].
  destruct (lift_spec (normalizeTeamSlotSpec (ti_orchestrator input))) as [s|e]; cbn; [|eauto].
  destruct (assertAccountsExist dir _) as [[]|e]; cbn; [|eauto].
  destruct (assertSlotReferences dir s None) as [u|e] eqn:E; cbn; [|eauto].
  by apply references_need_account in E.
Qed.

(** ** A sample team *)

Definition sample_directory : Directory :=
  {| dir_hosts := [{| ho_id := "h1"; ho_account_id := "acc"; ho_is_active := true |}];
     dir_credentials := []; dir_accounts := ["acc"]; dir_profiles := [];
     dir_host_folders := [{| hf_host_id := "h1"; hf_path := "/srv/p" |}]; dir_missions := [] |}.

Definition sample_team_input (is_global : bool) : TeamInput :=
  {| ti_account_id := "acc"; ti_name := "team"; ti_description := ""; ti_orchestrator := sample_slot_input;
     ti_orchestrator_prompt := ""; ti_max_parallel_steps := JNum (JInt 50); ti_max_open_missions := JUndef;
     ti_created_by := "u"; ti_is_global := JBool is_global; ti_allowed_account_ids := JUndef |}.

Definition sample_seat : MemberInput :=
  {| mi_runtime := JUndef; mi_as_orchestrator := JBool true; mi_role_label := "lead";
     mi_capabilities := ""; mi_max_concurrent := JUndef |}.

Definition sample_member : MemberInput :=
  {| mi_runtime := slot_json (sample_claude<|ss_model := Some "opus"|>); mi_as_orchestrator := JUndef;
     mi_role_label := "dev"; mi_capabilities := ""; mi_max_concurrent := JNum (JInt 2) |}.

Definition sample_orchestrator_patch (v : jsval) : TeamPatch :=
  {| tp_name := JUndef; tp_description := JUndef; tp_orchestrator := v; tp_orchestrator_prompt := JUndef;
     tp_max_parallel_steps := JUndef; tp_max_open_missions := JUndef; tp_enabled := JUndef;
     tp_allowed_account_ids := JUndef |}.

Definition no_number (v : jsval) : option Z := None.
Definition no_json (s : string) : option jsval := None.

Definition sample_team_db : TeamDb :=
  run_calls no_json no_number sample_directory {| td_teams := []; td_members := [] |}
    [call_create "t1" (sample_team_input false)].

Definition sample_later_calls : list TeamCall :=
  [call_add "m2" "t1" "acc" sample_member;
   call_update "t1" "acc" (sample_orchestrator_patch (JObj [("model", JStr "haiku")]));
   call_remove "t1" "acc" "m2"].

Lemma orchestrator_seat_follows_witness :
  let calls := call_add "m1" "t1" "acc" sample_seat :: sample_later_calls in
  let db' := run_calls no_json no_number sample_directory sample_team_db calls in
  List.map mb_spec (td_members db') = [slot_json (sample_claude<|ss_model := Some "haiku"|>)] ∧
  ∀ row, row ∈ td_members db' → mb_id row = "m1" →
    mirrors no_json db' row ∧
    ∀ t patch, t ∈ td_teams db' → tr_id t = mb_team_id row → is_undefined patch = false →
      edit_member_runtime no_json sample_directory t row patch = Err (409, member_is_orchestrator).
Proof.
  split; [vm_compute; reflexivity|].
  apply (orchestrator_seat_follows no_json no_number sample_directory sample_team_db "m1" "t1" "acc" sample_seat).
  - split; apply (bool_decide_unpack _); vm_compute; exact I.
  - reflexivity.
  - vm_compute. reflexivity.
Defined.

Lemma teams_belong_to_their_accounts_witness :
  ∃ t, head (td_teams sample_team_db) = Some t ∧
  let db' := snd (run_call no_json no_number sample_directory (call_remove "t1" "other" "m1") sample_team_db) in
  t ∈ td_teams db' ∧ roster_rows (tr_id t) db' = roster_rows (tr_id t) sample_team_db.
Proof.
  eexists. split; [vm_compute; reflexivity|].
  apply (teams_belong_to_their_accounts no_json no_number sample_directory).
  - split; apply (bool_decide_unpack _); vm_compute; exact I.
  - vm_compute. left.
  - intros [_ [[=]|[[=] _]]].
Defined.

Lemma teams_stay_well_formed_witness :
  let calls := [call_create "t1" (sample_team_input false); call_create "t2" (sample_team_input true);
                call_add "m1" "t1" "acc" sample_member] in
  let db := run_calls no_json no_number sample_directory {| td_teams := []; td_members := [] |} calls in
  List.map tr_max_parallel_steps (td_teams db) = [12] ∧ List.map mb_max_concurrent (td_members db) = [2] ∧
  tables_ok no_json sample_directory db.
Proof.
  split; [vm_compute; reflexivity|]. split; [vm_compute; reflexivity|].
  apply (teams_stay_well_formed no_json no_number sample_directory);
    apply (bool_decide_unpack _); vm_compute; exact I.
Defined.

Definition sample_digest (s : string) : string := "0123456789abcdef".

Definition claude_slot : RosterSlot :=
  {| rs_slot_id := "orchestrator"; rs_kind := slot_orchestrator; rs_name := "lead"; rs_role_label := "";
     rs_capabilities := ""; rs_max_concurrent := 1; rs_spec := sample_claude |}.

Definition claude_project : MissionProject :=
  {| mp_id := "p"; mp_name := "p"; mp_host_folders := [("h1", "/srv/p")] |}.

(** Its orchestrator, placed. *)
Definition claude_runtime : MissionRuntime :=
  {| mr_slot_id := "orchestrator"; mr_project_id := "p"; mr_agent_id := "rt-0123456789abcdef";
     mr_spec := {| ta_slot := sample_claude; ta_working_dir := "/srv/p"; ta_folder_scope := shared |} |}.

Lemma roster_agents_find_their_team_witness :
  ∃ t, head (td_teams sample_team_db) = Some t ∧
  let seats := teamsForIdentities sample_digest no_json sample_directory ["rt-0123456789abcdef"] sample_team_db in
  (Some claude_runtime = Some claude_runtime ∧ seat_of seats (tr_id t) role_orchestrator = true) ∨
  seat_of seats (tr_id t) role_member = true.
Proof.
  eexists. split; [vm_compute; reflexivity|].
  apply (roster_agents_find_their_team sample_digest no_json sample_directory sample_team_db _ claude_slot []
           [claude_project] shared None
           {| ro_folder_scope := shared; ro_orchestrator := claude_slot; ro_members := [];
              ro_runtimes := [claude_runtime] |} claude_runtime).
  - vm_compute. left.
  - vm_compute. reflexivity.
  - intros slot H. inversion H.
  - intros project host f H Hf. apply list_elem_of_singleton in H as ->. revert Hf.
    unfold projectFolderForHost. destruct (truthy host); [|done]. cbn [claude_project mp_host_folders].
    rewrite JMap.get_cons. destruct (String.eqb_spec "h1" host) as [<-|]; [|done]. intros [= <-].
    apply list_elem_of_singleton. reflexivity.
  - reflexivity.
  - vm_compute. reflexivity.
  - left.
Defined.
