(* ===== verification/Timeline.v ===== *)
(** * The mission timeline

    [recordEvent], [nextEventOrderingKey] and [listMissionEvents] of
    [orchestration-mission.service.ts], with [created-at-since-param.ts] and
    [orchestration-event-write-lock.ts]: how timeline rows get their place, and
    how a reader pages back through them.

    Times are microseconds; a cursor's are milliseconds, the precision of a
    JavaScript [Date].  Databases differ in what they store, which is the whole
    difficulty: see [Driver].  Properties of paging are stated over a reader,
    [read_back], whose every page may be served from a table that has grown since. *)

From S2P Require Import Prelude JsStd.
#[local] Open Scope Z_scope.

(** ** Databases *)

Inductive DbType : Type := sqljs | mysql | postgres.
#[export] Instance DbType_eq_dec : EqDecision DbType.
Proof. solve_decision. Defined.

(** The database behind TypeORM, and the precision (in microseconds) its
    [created_at] columns keep. *)
Record Driver := { db_type : DbType; db_precision : Z }.

Definition US_PER_MS : Z := 1000.
Definition US_PER_S : Z := 1000000.

(** What the comments of [created-at-since-param.ts] say of each database: sql.js
    stores whole seconds, Postgres microseconds, and MySQL nothing below the
    millisecond. *)
Definition documented (d : Driver) : bool :=
  (0 <? db_precision d)
  && match db_type d with
     | sqljs => db_precision d =? US_PER_S
     | mysql => db_precision d mod US_PER_MS =? 0
     | postgres => true
     end.

(** The column default, [CURRENT_TIMESTAMP] or [datetime('now')]. *)
Definition default_created_at (d : Driver) (now : Z) : Z := now - now mod db_precision d.

(** A [created_at] column read as a JavaScript [Date]. *)
Definition to_ms (t : Z) : Z := t / US_PER_MS.

Definition sinceBoundaryParam (d : Driver) (since : Z) : Z :=
  match db_type d with
  | sqljs => since / 1000 * US_PER_S
  | mysql | postgres => since * US_PER_MS
  end.

Definition tiedCreatedAtWhere (d : Driver) (created_at at_ : Z) : bool :=
  match db_type d with
  | sqljs => created_at =? sinceBoundaryParam d at_
  | mysql | postgres => (at_ * US_PER_MS <=? created_at) && (created_at <? (at_ + 1) * US_PER_MS)
  end.

Definition tiedCreatedAtOrderExpr (d : Driver) (created_at : Z) : Z :=
  match db_type d with
  | postgres => to_ms created_at
  | sqljs | mysql => created_at
  end.

(** ** Rows *)

Record EventRow := {
  er_id : string;
  er_mission_id : string;
  er_account_id : string;
  er_step_id : option string;
  er_type : string;
  er_actor_type : string;
  er_actor_id : string;
  er_actor_name : string;
  er_message : string;
  er_data : jsval;
  er_created_at : Z;
  er_write_seq : Z
}.

Definition mission_events (missionId : string) (rows : list EventRow) : list EventRow :=
  lfilter (λ r, String.eqb (er_mission_id r) missionId) rows.

(** ** Writing *)

(** The argument of [recordEvent]; the empty string stands for an absent name. *)
Record EventInput := {
  in_type : string;
  in_message : string;
  in_step_id : option string;
  in_actor_type : string;
  in_actor_id : string;
  in_actor_name : string;
  in_data : jsval
}.

(** Which of its queries fail: the derivation of the key, the transaction around
    it, the insert it falls back to. *)
Record EventFaults := { derive_fails : bool; transaction_fails : bool; fallback_fails : bool }.
Definition no_faults : EventFaults :=
  {| derive_fails := false; transaction_fails := false; fallback_fails := false |}.

Definition or_else (s d : string) : string := if truthy s then s else d.

(** [MAX(column)] over the mission's rows, 0 for none. *)
Definition max_of (f : EventRow → Z) (rows : list EventRow) : Z :=
  match rows with
  | [] => 0
  | r :: rest => foldl (λ m x, Z.max m (f x)) (f r) rest
  end.

(** The sequence number, and the time to stamp in milliseconds ([None] leaves it
    to the column's default).  [Date.now()] is the server's clock. *)
Definition nextEventOrderingKey (d : Driver) (missionId : string) (rows : list EventRow)
    (date_now : Z) (fails : bool) : Z * option Z :=
  if fails then (0, None)
  else
    let mine := mission_events missionId rows in
    (max_of er_write_seq mine + 1,
     if bool_decide (db_type d = postgres)
     then Some (Z.max date_now (to_ms (max_of er_created_at mine))) else None).

Section record.
(** [resolveAgentDisplayName], as far as it finds one. *)
Context (displayName : string → option string).

Definition event_row (id missionId accountId : string) (input : EventInput) (created_at seq : Z)
    : EventRow :=
  {| er_id := id; er_mission_id := missionId; er_account_id := accountId;
     er_step_id := in_step_id input; er_type := in_type input;
     er_actor_type := or_else (in_actor_type input) "system";
     er_actor_id := in_actor_id input;
     er_actor_name :=
       if String.eqb (in_actor_type input) "agent" && truthy (in_actor_id input)
       then or_else (default "" (displayName (in_actor_id input))) (in_actor_name input)
       else in_actor_name input;
     er_message := slice 4000 (in_message input);
     er_data := nullish_or (in_data input) JNull;
     er_created_at := created_at; er_write_seq := seq |}.

(** [recordEvent]: [id] is the key the database gives the row, [now] the
    database's clock (microseconds), [date_now] the server's (milliseconds). *)
Definition recordEvent (d : Driver) (id : string) (now date_now : Z) (faults : EventFaults)
    (missionId accountId : string) (input : EventInput) (rows : list EventRow) : list EventRow :=
  let row := event_row id missionId accountId input in
  if transaction_fails faults then
    if fallback_fails faults then rows else rows ++ [row (default_created_at d now) 0]
  else
    let '(seq, at_) := nextEventOrderingKey d missionId rows date_now (derive_fails faults) in
    let created_at :=
      match at_ with Some ms => ms * US_PER_MS | None => default_created_at d now end in
    rows ++ [row created_at seq].
End record.

(** ** Reading *)

Record EventCursor := { cu_at : Z; cu_seq : Z; cu_id : string }.

Definition cursor_of (r : EventRow) : EventCursor :=
  {| cu_at := to_ms (er_created_at r); cu_seq := er_write_seq r; cu_id := er_id r |}.

(** The keyset predicate of a cursor; a caller without [before_id] leaves it empty. *)
Definition before_cursor (d : Driver) (c : EventCursor) (r : EventRow) : bool :=
  (er_created_at r <? sinceBoundaryParam d (cu_at c))
  || (tiedCreatedAtWhere d (er_created_at r) (cu_at c)
      && ((er_write_seq r <? cu_seq c)
          || (truthy (cu_id c) && (er_write_seq r =? cu_seq c) && String.ltb (er_id r) (cu_id c)))).

(** The keys of ORDER BY, most significant first. *)
Definition order_key (d : Driver) (r : EventRow) : Z * Z * string :=
  (tiedCreatedAtOrderExpr d (er_created_at r), er_write_seq r, er_id r).

Definition key_le (a b : Z * Z * string) : Prop :=
  a.1.1 < b.1.1
  ∨ (a.1.1 = b.1.1 ∧ (a.1.2 < b.1.2 ∨ (a.1.2 = b.1.2 ∧ String.le a.2 b.2))).

#[export] Instance key_le_dec : RelDecision key_le.
Proof. intros a b. unfold key_le. apply _. Defined.

(** DESC on all three keys. *)
Definition newer_first (d : Driver) (a b : EventRow) : Prop := key_le (order_key d b) (order_key d a).

#[export] Instance newer_first_dec d : RelDecision (newer_first d).
Proof. intros a b. unfold newer_first. apply _. Defined.

(** A mission's whole timeline, newest first. *)
Definition timeline (d : Driver) (missionId : string) (rows : list EventRow) : list EventRow :=
  merge_sort (newer_first d) (mission_events missionId rows).

Record EventsQuery := { q_limit : option Z; q_before : option EventCursor }.
Record EventsPage := {
  pg_events : list EventRow; pg_has_more : bool; pg_next_cursor : option EventCursor
}.

(** The rows [listMissionEvents] answers with, once it found the mission. *)
Definition event_page (d : Driver) (missionId : string) (rows : list EventRow) (limit : Z)
    (before : option EventCursor) : EventsPage :=
  let matching :=
    match before with
    | Some c => lfilter (before_cursor d c) (mission_events missionId rows)
    | None => mission_events missionId rows
    end in
  let found := take (Z.to_nat (limit + 1)) (merge_sort (newer_first d) matching) in
  let hasMore := bool_decide (Z.to_nat limit < length found)%nat in
  let page := if hasMore then take (Z.to_nat limit) found else found in
  {| pg_events := page; pg_has_more := hasMore; pg_next_cursor := cursor_of <$> last page |}.

Definition page_limit (q : EventsQuery) : Z := Z.min (Z.max (default 100 (q_limit q)) 1) 500.

(** [listMissionEvents]: [account] is the account of the mission row, if there is
    one.  The error is the status code. *)
Definition listMissionEvents (d : Driver) (account : option string) (missionId accountId : string)
    (q : EventsQuery) (rows : list EventRow) : res Z EventsPage :=
  match account with
  | None => Err 404
  | Some owner =>
      _ ← fail_if (truthy accountId && negb (String.eqb owner accountId)) 404;
      Ok (event_page d missionId rows (page_limit q) (q_before q))
  end.

(** The window of [getMissionDetail]: the newest by [created_at] alone.  Rows of one
    time come in the order the database happens to return them, [rows]' order. *)
Definition detail_events (missionId : string) (eventLimit : Z) (rows : list EventRow) : list EventRow :=
  take (Z.to_nat (Z.min (Z.max eventLimit 1) 1000))
    (sort_by (λ r, - er_created_at r) (mission_events missionId rows)).

(** A reader of the account [accountId] that follows [next_cursor] until
    [has_more] says no; the n-th page is served from the n-th table.  [None] when
    it is refused, or still not done after [fuel] pages. *)
Fixpoint read_back (d : Driver) (account : option string) (missionId accountId : string)
    (limit : option Z) (tables : nat → list EventRow) (fuel n : nat) (before : option EventCursor)
    : option (list EventRow) :=
  match fuel with
  | O => None
  | S fuel =>
      match listMissionEvents d account missionId accountId
              {| q_limit := limit; q_before := before |} (tables n) with
      | Err _ => None
      | Ok page =>
          if pg_has_more page
          then app (pg_events page) <$>
                 read_back d account missionId accountId limit tables fuel (S n) (pg_next_cursor page)
          else Some (pg_events page)
      end
  end.

(** One call of [recordEvent], with the clocks it reads. *)
Record EventCall := {
  ec_mission : string; ec_account : string; ec_input : EventInput;
  ec_id : string; ec_now : Z; ec_date_now : Z
}.

Definition record_call (displayName : string → option string) (d : Driver)
    (rows : list EventRow) (c : EventCall) : list EventRow :=
  recordEvent displayName d (ec_id c) (ec_now c) (ec_date_now c) no_faults
    (ec_mission c) (ec_account c) (ec_input c) rows.

(** ** Order *)

#[export] Instance key_le_po : PartialOrder key_le.
Proof.
  split; [split|]; unfold key_le.
  - intros a. right. split; [done|]. right. split; reflexivity.
  - intros a b c Hab Hbc. destruct Hab as [?|(E1 & [?|(E2 & H1)])], Hbc as [?|(E3 & [?|(E4 & H2)])];
      try lia; try (right; split; [lia|]; lia).
    right. split; [lia|]. right. split; [lia|]. by trans b.2.
  - intros [[a1 a2] a3] [[b1 b2] b3] Hab Hba; simpl in *.
    destruct Hab as [?|(-> & [?|(-> & H1)])], Hba as [?|(E3 & [?|(E4 & H2)])]; try lia.
    by rewrite (anti_symm String.le a3 b3 H1 H2).
Qed.

#[export] Instance key_le_total : Total key_le.
Proof.
  intros a b. unfold key_le.
  destruct (Z.lt_trichotomy a.1.1 b.1.1) as [?|[E|?]]; [by auto| |by auto].
  destruct (Z.lt_trichotomy a.1.2 b.1.2) as [?|[E'|?]]; [by auto| |by auto].
  destruct (total String.le a.2 b.2); [left|right]; auto 6.
Qed.

#[export] Instance newer_first_trans d : Transitive (newer_first d).
Proof. intros a b c Hab Hbc. unfold newer_first in *. by trans (order_key d b). Qed.

#[export] Instance newer_first_total d : Total (newer_first d).
Proof. intros a b. unfold newer_first. destruct (total key_le (order_key d a) (order_key d b)); auto. Qed.

(** Strictly newer. *)
Definition newer (d : Driver) (a b : EventRow) : Prop :=
  newer_first d a b ∧ order_key d a ≠ order_key d b.

#[export] Instance newer_trans d : Transitive (newer d).
Proof.
  intros a b c [Hab Nab] [Hbc Nbc]. split; [by trans b|]. intros E. apply Nab.
  apply (anti_symm key_le); [|exact Hab]. unfold newer_first in *. by rewrite E.
Qed.

Lemma newer_irrefl d a : ¬ newer d a a.
Proof. by intros [_ H]. Qed.

Lemma ltb_le x y : String.ltb x y = true ↔ String.le x y ∧ x ≠ y.
Proof.
  unfold String.le, String.leb, String.ltb. split.
  - destruct (String.compare x y) eqn:E; try done. intros _. split; [done|]. intros ->.
    pose proof (String.compare_antisym y y) as H. by rewrite E in H.
  - intros [H N]. destruct (String.compare x y) eqn:E; try done.
    by apply String.compare_eq_iff in E.
Qed.

(** [a < b], read off the keys. *)
Lemma key_lt_iff (a b : Z * Z * string) :
  key_le a b ∧ a ≠ b ↔
  a.1.1 < b.1.1 ∨ (a.1.1 = b.1.1 ∧ (a.1.2 < b.1.2 ∨ (a.1.2 = b.1.2 ∧ String.ltb a.2 b.2 = true))).
Proof.
  destruct a as [[a1 a2] a3], b as [[b1 b2] b3]. unfold key_le; simpl. split.
  - intros [[?|(-> & [?|(-> & H)])] N]; [by auto|by auto|].
    right. split; [done|]. right. split; [done|]. apply ltb_le. split; [done|]. congruence.
  - intros [?|(-> & [?|(-> & H)])].
    + split; [by auto|]. intros [= ]; lia.
    + split; [by auto|]. intros [= ]; lia.
    + apply ltb_le in H as [H N]. split; [auto 6|]. congruence.
Qed.

(** ** A cursor's predicate is the order *)

(** What [d] can have stored. *)
Definition kept (d : Driver) (r : EventRow) : Prop :=
  er_created_at r mod db_precision d = 0 ∧ er_id r ≠ "".

Lemma mod_of_multiple a p q : 0 < q → p mod q = 0 → a mod p = 0 → p ≠ 0 → a mod q = 0.
Proof.
  intros Hq Hp Ha Hp0. apply Z.mod_divide; [lia|].
  apply Z.mod_divide in Ha; [|done]. apply Z.mod_divide in Hp; [|lia]. by trans p.
Qed.

(** Of the times: older than the cursor's, and of the cursor's own tie. *)
Lemma boundary_spec d r c :
  documented d = true → kept d r → kept d c →
  ((er_created_at r <? sinceBoundaryParam d (to_ms (er_created_at c))) = true ↔
    tiedCreatedAtOrderExpr d (er_created_at r) < tiedCreatedAtOrderExpr d (er_created_at c)) ∧
  (tiedCreatedAtWhere d (er_created_at r) (to_ms (er_created_at c)) = true ↔
    tiedCreatedAtOrderExpr d (er_created_at r) = tiedCreatedAtOrderExpr d (er_created_at c)).
Proof.
  unfold documented, kept, tiedCreatedAtWhere, sinceBoundaryParam, tiedCreatedAtOrderExpr, to_ms,
    US_PER_MS, US_PER_S.
  intros Hd [Hr _] [Hc _]. apply andb_true_iff in Hd as [Hp Hd]. apply Z.ltb_lt in Hp.
  rewrite Z.ltb_lt. destruct (db_type d).
  - apply Z.eqb_eq in Hd. rewrite Hd in Hr, Hc. rewrite Z.eqb_eq.
    split; split; intros H; Z.div_mod_to_equations; lia.
  - apply Z.eqb_eq in Hd. rewrite andb_true_iff, Z.leb_le, Z.ltb_lt.
    apply (mod_of_multiple _ _ 1000) in Hr; [|lia|done|lia].
    apply (mod_of_multiple _ _ 1000) in Hc; [|lia|done|lia].
    split; split; intros H; Z.div_mod_to_equations; lia.
  - rewrite andb_true_iff, Z.leb_le, Z.ltb_lt.
    split; split; intros H; Z.div_mod_to_equations; lia.
Qed.

Lemma before_cursor_spec d r c :
  documented d = true → kept d r → kept d c →
  before_cursor d (cursor_of c) r = true ↔ newer d c r.
Proof.
  intros Hd Hr Hc. destruct (boundary_spec d r c Hd Hr Hc) as [H1 H2].
  unfold newer, newer_first. rewrite (symmetry_iff (≠) (order_key d c)), key_lt_iff.
  unfold before_cursor, order_key; simpl. rewrite orb_true_iff, H1, andb_true_iff, H2, orb_true_iff.
  rewrite !andb_true_iff, Z.ltb_lt, Z.eqb_eq, truthy_true. destruct Hc as [_ Hc]. tauto.
Qed.
