(* ===== verification/RunBudget.v ===== *)
(** * How many runs an account may start

    [run-budget-guard.ts] and [hard-budget-config.ts]: the ceiling on the missions
    (and other runs) an account creates within a rolling window, and where its
    numbers come from — the account's own configuration over the server's
    environment.  Chat alerts about a breach are not modelled. *)

From S2P Require Import Prelude JsStd Timeline.
#[local] Open Scope Z_scope.

(** ** Configuration *)

(** A stored configuration; every key is optional. *)
Record HardBudgetConfig := {
  hb_enabled : option bool;
  hb_max_auto_responses : option Z;
  hb_window_minutes : option Z;
  hb_max_dispatches_per_window : option Z;
  hb_max_tokens_per_window : option Z;
  hb_max_runs_per_window : option Z;
  hb_auto_pend : option bool;
  hb_notify : option bool
}.

Record ResolvedHardBudget := {
  hr_enabled : bool;
  hr_maxAutoResponses : Z;
  hr_windowMs : Z;
  hr_maxDispatchesPerWindow : Z;
  hr_maxTokensPerWindow : Z;
  hr_maxRunsPerWindow : Z;
  hr_autoPend : bool;
  hr_notify : bool
}.

Definition DEFAULT_HARD_BUDGET : ResolvedHardBudget :=
  {| hr_enabled := true; hr_maxAutoResponses := 100; hr_windowMs := 60 * 60000; hr_maxDispatchesPerWindow := 30;
     hr_maxTokensPerWindow := 2000000; hr_maxRunsPerWindow := 50; hr_autoPend := true; hr_notify := true |}.

Definition HARD_BUDGET_CONFIG_KEYS : list string :=
  ["enabled"; "max_auto_responses"; "window_minutes"; "max_dispatches_per_window"; "max_tokens_per_window";
   "max_runs_per_window"; "auto_pend"; "notify"].

(** [z.boolean().optional()] and [z.number().int().positive().max(n).optional()];
    [None] when the value is refused. *)
Definition schema_bool (v : jsval) : option (option bool) :=
  match v with JUndef => Some None | JBool b => Some (Some b) | _ => None end.
Definition schema_int (max : Z) (v : jsval) : option (option Z) :=
  match v with
  | JUndef => Some None
  | JNum (JInt z) => if (0 <? z) && (z <=? max) then Some (Some z) else None
  | _ => None
  end.

(** [HardBudgetConfigSchema.safeParse], a strict object. *)
Definition HardBudgetConfigSchema (v : jsval) : option HardBudgetConfig :=
  match v with
  | JObj fields =>
      if negb (levery (λ k, includes HARD_BUDGET_CONFIG_KEYS k) (List.map fst fields)) then None
      else
        enabled ← schema_bool (prop v "enabled");
        responses ← schema_int 10000 (prop v "max_auto_responses");
        window ← schema_int 1440 (prop v "window_minutes");
        dispatches ← schema_int 1000 (prop v "max_dispatches_per_window");
        tokens ← schema_int 100000000 (prop v "max_tokens_per_window");
        runs ← schema_int 1000 (prop v "max_runs_per_window");
        pend ← schema_bool (prop v "auto_pend");
        notify ← schema_bool (prop v "notify");
        Some {| hb_enabled := enabled; hb_max_auto_responses := responses; hb_window_minutes := window;
                hb_max_dispatches_per_window := dispatches; hb_max_tokens_per_window := tokens;
                hb_max_runs_per_window := runs; hb_auto_pend := pend; hb_notify := notify |}
  | _ => None
  end.

Definition isEmptyHardBudget (c : HardBudgetConfig) : bool :=
  match c with
  | {| hb_enabled := None; hb_max_auto_responses := None; hb_window_minutes := None;
       hb_max_dispatches_per_window := None; hb_max_tokens_per_window := None; hb_max_runs_per_window := None;
       hb_auto_pend := None; hb_notify := None |} => true
  | _ => false
  end.

Section config.
(** [JSON.parse] of a stored string, [None] when it throws; [Math.floor(Number(raw))]
    of a variable's text when that number is finite and positive. *)
Context (JSON_parse : string → option jsval) (positive_floor : string → option Z).

Definition parseHardBudgetConfig (raw : option string) : option HardBudgetConfig :=
  match raw with
  | Some text =>
      if negb (truthy text) then None
      else
        v ← JSON_parse text;
        c ← HardBudgetConfigSchema v;
        if isEmptyHardBudget c then None else Some c
  | None => None
  end.

Definition resolveHardBudgetConfig (raw : option string) (base : ResolvedHardBudget) : ResolvedHardBudget :=
  match parseHardBudgetConfig raw with
  | None => base
  | Some cfg =>
      {| hr_enabled := default (hr_enabled base) (hb_enabled cfg);
         hr_maxAutoResponses := default (hr_maxAutoResponses base) (hb_max_auto_responses cfg);
         hr_windowMs := match hb_window_minutes cfg with Some m => m * 60000 | None => hr_windowMs base end;
         hr_maxDispatchesPerWindow := default (hr_maxDispatchesPerWindow base) (hb_max_dispatches_per_window cfg);
         hr_maxTokensPerWindow := default (hr_maxTokensPerWindow base) (hb_max_tokens_per_window cfg);
         hr_maxRunsPerWindow := default (hr_maxRunsPerWindow base) (hb_max_runs_per_window cfg);
         hr_autoPend := default (hr_autoPend base) (hb_auto_pend cfg);
         hr_notify := default (hr_notify base) (hb_notify cfg) |}
  end.

(** The environment's variables, by name. *)
Definition env_num (env : string → option string) (key : string) (fallback : Z) : Z :=
  match env key with
  | Some raw => if truthy raw then default fallback (positive_floor raw) else fallback
  | None => fallback
  end.

Definition env_bool (env : string → option string) (key : string) (fallback : bool) : bool :=
  match env key with
  | None => fallback
  | Some raw =>
      let v := toLowerCase (trim raw) in
      if negb (truthy v) then fallback else negb (includes ["false"; "0"; "no"; "off"] v)
  end.

Definition hardBudgetDefaultsFromEnv (env : string → option string) : ResolvedHardBudget :=
  {| hr_enabled := env_bool env "HARD_BUDGET_ENABLED" (hr_enabled DEFAULT_HARD_BUDGET);
     hr_maxAutoResponses := env_num env "HARD_BUDGET_MAX_AUTO_RESPONSES" (hr_maxAutoResponses DEFAULT_HARD_BUDGET);
     hr_windowMs := env_num env "HARD_BUDGET_WINDOW_MINUTES" (hr_windowMs DEFAULT_HARD_BUDGET / 60000) * 60000;
     hr_maxDispatchesPerWindow :=
       env_num env "HARD_BUDGET_MAX_DISPATCHES_PER_WINDOW" (hr_maxDispatchesPerWindow DEFAULT_HARD_BUDGET);
     hr_maxTokensPerWindow := env_num env "HARD_BUDGET_MAX_TOKENS_PER_WINDOW" (hr_maxTokensPerWindow DEFAULT_HARD_BUDGET);
     hr_maxRunsPerWindow := env_num env "HARD_BUDGET_MAX_RUNS_PER_WINDOW" (hr_maxRunsPerWindow DEFAULT_HARD_BUDGET);
     hr_autoPend := env_bool env "HARD_BUDGET_AUTO_PEND" (hr_autoPend DEFAULT_HARD_BUDGET);
     hr_notify := env_bool env "HARD_BUDGET_NOTIFY" (hr_notify DEFAULT_HARD_BUDGET) |}.

(** [resolveHardBudgetForAccount]: the account's own configuration, where it has one. *)
Definition resolveHardBudgetForAccount (env : string → option string) (hard_budget_config : string → option string)
    (accountId : string) : ResolvedHardBudget :=
  resolveHardBudgetConfig (if truthy accountId then hard_budget_config accountId else None)
    (hardBudgetDefaultsFromEnv env).
End config.

(** ** The guard *)

(** The rows of one kind of run, as the guard sees them: account and time of
    creation (microseconds, as the database keeps it). *)
Record RunRow := { rw_account_id : string; rw_created_at : Z }.

Definition countRunsInWindow (d : Driver) (rows : list RunRow) (accountId : string) (since : Z) : Z :=
  Z.of_nat (length (lfilter (λ r, String.eqb (rw_account_id r) accountId
                                   && (sinceBoundaryParam d since <=? rw_created_at r)) rows)).

(** [None] lets the run through; [Some (count, limit)] refuses it.  A failing query
    lets it through. *)
Definition enforceRunBudget (d : Driver) (cfg : ResolvedHardBudget) (rows : list RunRow) (accountId : string)
    (now : Z) (evaluation_fails : bool) : option (Z * Z) :=
  if evaluation_fails || negb (hr_enabled cfg) then None
  else
    let since := now - hr_windowMs cfg in
    let count := countRunsInWindow d rows accountId since in
    if count <? hr_maxRunsPerWindow cfg then None else Some (count, hr_maxRunsPerWindow cfg).
