(* ===== verification/TimelineFacts.v ===== *)
(** * Facts about the mission timeline

    A page is the next stretch of the timeline after its cursor, so a reader that
    follows the cursors sees every event there was when it began, once, however
    the timeline grows under it; and events sort in the order they were written. *)

From S2P Require Import Prelude JsStd Timeline.
#[local] Open Scope Z_scope.

(** ** Sorted lists *)

Lemma newer_sorted_inj d l a b :
  StronglySorted (newer d) l → a ∈ l → b ∈ l → order_key d a = order_key d b → a = b.
Proof.
  induction 1 as [|x l Hl IH Hx]; intros Ha Hb E; [inversion Ha|]. rewrite Forall_forall in Hx.
  apply elem_of_cons in Ha as [->|Ha], Hb as [->|Hb]; try done; [| |by apply IH].
  - by destruct (Hx _ Hb) as [_ N].
  - by destruct (Hx _ Ha) as [_ []].
Qed.

Lemma newer_sorted_NoDup d l : StronglySorted (newer d) l → NoDup l.
Proof.
  induction 1 as [|x l Hl IH Hx]; constructor; [|done]. rewrite Forall_forall in Hx.
  intros H. by apply (newer_irrefl d x), Hx.
Qed.

(** What is sorted strictly is what the database's sort gives. *)
Lemma merge_sort_unique d l k :
  StronglySorted (newer d) k → k ≡ₚ l → merge_sort (newer_first d) l = k.
Proof.
  intros Hk P. apply (StronglySorted_unique_strong (newer_first d)).
  - intros a b Ha Hb Hab Hba. rewrite merge_sort_Permutation, <- P in Ha.
    apply (newer_sorted_inj d k); try done. by apply (anti_symm key_le).
  - apply (StronglySorted_merge_sort (newer_first d)).
  - clear P. induction Hk as [|x k Hk IH Hx]; constructor; [done|].
    eapply Forall_impl; [exact Hx|]. by intros y [].
  - by rewrite merge_sort_Permutation.
Qed.

Lemma merge_sort_newer d l :
  NoDup (List.map er_id l) → StronglySorted (newer d) (merge_sort (newer_first d) l).
Proof.
  intros Hn.
  assert (Hn' : NoDup (List.map er_id (merge_sort (newer_first d) l))).
  { assert (List.map er_id (merge_sort (newer_first d) l) ≡ₚ List.map er_id l) as ->; [|done].
    apply Permutation_map, merge_sort_Permutation. }
  pose proof (StronglySorted_merge_sort (newer_first d) l) as Hs. revert Hn'.
  induction Hs as [|x k Hk IH Hx]; [constructor|]. simpl. intros Hn'.
  apply NoDup_cons in Hn' as [Hx' Hn']. constructor; [by apply IH|].
  rewrite Forall_forall in Hx |- *. intros y Hy. split; [by apply Hx|].
  intros E. apply Hx'. replace (er_id x) with (er_id y) by exact (eq_sym (f_equal snd E)).
  apply list_elem_of_In, in_map, list_elem_of_In, Hy.
Qed.

Lemma last_elem {A} (l : list A) x : last l = Some x → x ∈ l.
Proof. intros H. apply last_Some in H as [k ->]. apply elem_of_app. right. apply list_elem_of_here. Qed.

(** The last of a sorted list is the oldest. *)
Lemma newer_than_last d l c : StronglySorted (newer d) l → last l = Some c →
  ∀ r, r ∈ l → r = c ∨ newer d r c.
Proof.
  intros Hs Hl r Hr. apply last_Some in Hl as [k ->].
  apply elem_of_app in Hr as [Hr|Hr]; [right|left; by apply list_elem_of_singleton].
  eapply StronglySorted_app_1_elem_of; [exact Hs|done|apply list_elem_of_here].
Qed.

(** ** Pages *)

(** The rows a query matches, in its order. *)
Definition matching (d : Driver) (missionId : string) (rows : list EventRow)
    (before : option EventCursor) : list EventRow :=
  merge_sort (newer_first d)
    (match before with
     | Some c => lfilter (before_cursor d c) (mission_events missionId rows)
     | None => mission_events missionId rows
     end).

Lemma event_page_eq d m rows limit before :
  0 <= limit →
  let s := matching d m rows before in
  event_page d m rows limit before =
    if bool_decide (Z.to_nat limit < length s)%nat
    then {| pg_events := take (Z.to_nat limit) s; pg_has_more := true;
            pg_next_cursor := cursor_of <$> last (take (Z.to_nat limit) s) |}
    else {| pg_events := s; pg_has_more := false; pg_next_cursor := cursor_of <$> last s |}.
Proof.
  intros Hl s. unfold event_page. fold (matching d m rows before). fold s.
  replace (Z.to_nat (limit + 1)) with (S (Z.to_nat limit)) by lia.
  case_bool_decide as H1; rewrite length_take in H1.
  - rewrite bool_decide_true by lia. by rewrite take_take, Nat.min_l by lia.
  - rewrite bool_decide_false by lia. by rewrite take_ge by lia.
Qed.

Section tables.
Context (d : Driver) (m : string) (documented_d : documented d = true).

(** A table the server may answer from. *)
Definition stored (rows : list EventRow) : Prop :=
  NoDup (List.map er_id (mission_events m rows)) ∧ ∀ r, r ∈ mission_events m rows → kept d r.

Definition remaining (before : option EventRow) (r : EventRow) : Prop :=
  match before with Some c => newer d c r | None => True end.

Lemma matching_spec rows before :
  stored rows → (∀ c, before = Some c → kept d c) →
  StronglySorted (newer d) (matching d m rows (cursor_of <$> before)) ∧
  ∀ r, r ∈ matching d m rows (cursor_of <$> before) ↔ r ∈ mission_events m rows ∧ remaining before r.
Proof using documented_d.
  intros [Hn Hk] Hc. unfold matching. destruct before as [c|]; simpl; split.
  - apply merge_sort_newer. by apply NoDup_map_lfilter.
  - intros r. rewrite merge_sort_Permutation, elem_of_lfilter. split; intros [Hr H]; split; try done.
    + by apply before_cursor_spec in H; [| |apply Hk|apply Hc].
    + apply before_cursor_spec; auto.
  - by apply merge_sort_newer.
  - intros r. rewrite merge_sort_Permutation. tauto.
Qed.

(** What a reader has seen stays ahead of what the next page can hold. *)
Lemma seen_then_matching rows seen :
  stored rows → StronglySorted (newer d) seen → (∀ r, r ∈ seen → r ∈ mission_events m rows) →
  StronglySorted (newer d) (seen ++ matching d m rows (cursor_of <$> last seen)) ∧
  ∀ r, r ∈ matching d m rows (cursor_of <$> last seen) ↔
       r ∈ mission_events m rows ∧ remaining (last seen) r.
Proof using documented_d.
  intros Hst Hs Hin. destruct (matching_spec rows (last seen) Hst) as [Hms Hmm].
  { intros c Hc. by apply Hst, Hin, last_elem. }
  split; [|exact Hmm]. apply StronglySorted_app_2; [|done|done].
  intros x y Hx Hy. apply Hmm in Hy as [_ Hy].
  destruct (last seen) as [c|] eqn:El; [|by apply last_None in El as ->; inversion Hx].
  destruct (newer_than_last d seen c Hs El x Hx) as [->|H]; [exact Hy|by trans c].
Qed.

(** A full page leaves for later what is older than its last row. *)
Lemma full_page_leaves s seen k r :
  (0 < k)%nat → (k < length s)%nat → StronglySorted (newer d) s → r ∈ s →
  r ∈ take k s ∨ remaining (last (seen ++ take k s)) r.
Proof using Type.
  intros Hk Hlen Hs Hr. rewrite <- (take_drop k s) in Hs, Hr.
  apply elem_of_app in Hr as [Hr|Hr]; [by left|right]. rewrite last_app.
  destruct (last (take k s)) as [c|] eqn:El; simpl.
  - eapply StronglySorted_app_1_elem_of; [exact Hs|by apply last_elem|exact Hr].
  - apply last_None, (f_equal length) in El. rewrite length_take in El. simpl in El. lia.
Qed.

Section reader.
Context (owner accountId : string) (allowed : accountId = owner ∨ accountId = "") (limit : option Z).
Context (tables : nat → list EventRow) (N : nat).
Context (tables_stored : ∀ n, stored (tables n)).
Context (tables_grow : ∀ n r, r ∈ mission_events m (tables n) → r ∈ mission_events m (tables (S n))).
Context (tables_bounded : ∀ n, (length (mission_events m (tables n)) ≤ N)%nat).

Lemma tables_keep n r : r ∈ mission_events m (tables O) → r ∈ mission_events m (tables n).
Proof using tables_grow. intros H. induction n; auto. Qed.

Lemma seen_bounded n seen :
  StronglySorted (newer d) seen → (∀ r, r ∈ seen → r ∈ mission_events m (tables n)) →
  (length seen ≤ N)%nat.
Proof using tables_bounded.
  intros Hs Hin. etrans; [|apply (tables_bounded n)].
  apply submseteq_length, NoDup_submseteq; [by apply (newer_sorted_NoDup d)|exact Hin].
Qed.

Lemma listMissionEvents_page n before :
  listMissionEvents d (Some owner) m accountId {| q_limit := limit; q_before := before |} (tables n)
  = Ok (event_page d m (tables n) (Z.min (Z.max (default 100 limit) 1) 500) before).
Proof using allowed.
  unfold listMissionEvents, page_limit. destruct allowed as [->| ->]; simpl; [|done].
  by rewrite String.eqb_refl, andb_false_r.
Qed.

Lemma reader_sees_all fuel : ∀ n seen,
  StronglySorted (newer d) seen →
  (∀ r, r ∈ seen → r ∈ mission_events m (tables n)) →
  (∀ r, r ∈ mission_events m (tables O) → r ∈ seen ∨ remaining (last seen) r) →
  (N < fuel + length seen)%nat →
  ∃ shown,
    read_back d (Some owner) m accountId limit tables fuel n (cursor_of <$> last seen) = Some shown ∧
    StronglySorted (newer d) (seen ++ shown) ∧
    (∀ r, r ∈ mission_events m (tables O) → r ∈ seen ++ shown) ∧
    (∀ r, r ∈ shown → ∃ k, r ∈ mission_events m (tables k)).
Proof using documented_d allowed tables_stored tables_grow tables_bounded.
  induction fuel as [|fuel IH]; intros n seen Hs Hin H0 Hf.
  { pose proof (seen_bounded n seen Hs Hin). lia. }
  destruct (seen_then_matching (tables n) seen (tables_stored n) Hs Hin) as [Hss Hmm].
  cbn [read_back]. rewrite listMissionEvents_page.
  set (k := Z.min (Z.max (default 100 limit) 1) 500). rewrite event_page_eq by lia.
  set (s := matching d m (tables n) (cursor_of <$> last seen)) in *.
  assert (Hcover : ∀ r, r ∈ mission_events m (tables O) → r ∈ seen ∨ r ∈ s).
  { intros r Hr. destruct (H0 r Hr) as [?|?]; [by left|right]. apply Hmm. auto using tables_keep. }
  case_bool_decide as Hlen; cbn [pg_has_more pg_events pg_next_cursor].
  2: { exists s. split_and!; [done|done| |].
       - intros r Hr. apply elem_of_app. auto.
       - intros r Hr. exists n. by apply Hmm. }
  set (p := take (Z.to_nat k) s).
  assert (Hp : length p = Z.to_nat k) by (unfold p; rewrite length_take; lia).
  assert (Hps : ∀ r, r ∈ p → r ∈ mission_events m (tables n)).
  { intros r Hr. apply Hmm. by apply elem_of_take in Hr as (? & Hr & _); apply list_elem_of_lookup_2 in Hr. }
  destruct (IH (S n) (seen ++ p)) as (shown & Ef & H1 & H2 & H3).
  - rewrite <- (take_drop (Z.to_nat k) s), app_assoc in Hss. by apply StronglySorted_app_1_l in Hss.
  - intros r Hr. apply tables_grow. apply elem_of_app in Hr as [Hr|Hr]; [by apply Hin|by apply Hps].
  - intros r Hr. rewrite elem_of_app. destruct (Hcover r Hr) as [?|Hrs]; [by auto|].
    destruct (full_page_leaves s seen (Z.to_nat k) r) as [?|?]; try done; try lia; auto.
    by apply StronglySorted_app_1_r in Hss.
  - rewrite length_app, Hp. lia.
  - rewrite last_app in Ef. destruct (last p) as [c|] eqn:El.
    + rewrite Ef. exists (p ++ shown). rewrite !app_assoc. split_and!; [done..|].
      intros r Hr. apply elem_of_app in Hr as [Hr|Hr]; [eauto|by apply H3].
    + apply last_None, (f_equal length) in El. simpl in El. lia.
Qed.
End reader.
End tables.

Lemma same_rows_timeline d m rows l :
  stored d m rows → StronglySorted (newer d) l →
  (∀ r, r ∈ l ↔ r ∈ mission_events m rows) → l = timeline d m rows.
Proof.
  intros [Hn _] Hs Hl. symmetry. apply merge_sort_unique; [done|].
  apply NoDup_Permutation; [by apply (newer_sorted_NoDup d)|by apply (NoDup_fmap_1 er_id)|exact Hl].
Qed.

(** C33: Paging through the timeline finds every event: a reader who follows the
    server's cursors from the newest page, on a database that keeps times as the
    comments say it does, is done after a bounded number of pages; it has then
    seen every event that existed when it began, each once, newest first, even
    though events of any kind were written between its requests (and whatever
    they are numbered); if none were, it has seen the timeline exactly. *)
Theorem paging_sees_every_event d owner m accountId limit tables N :
  documented d = true →
  (accountId = owner ∨ accountId = "") →
  (∀ n, stored d m (tables n)) →
  (∀ n r, r ∈ mission_events m (tables n) → r ∈ mission_events m (tables (S n))) →
  (∀ n, (length (mission_events m (tables n)) ≤ N)%nat) →
  ∃ shown,
    read_back d (Some owner) m accountId limit tables (S N) O None = Some shown ∧
    StronglySorted (newer d) shown ∧
    (∀ r, r ∈ mission_events m (tables O) → r ∈ shown) ∧
    ((∀ n, tables n = tables O) → shown = timeline d m (tables O)).
Proof.
  intros Hd Ha Hst Hgrow HN.
  destruct (reader_sees_all d m Hd owner accountId Ha limit tables N Hst Hgrow HN (S N) O [])
    as (shown & Hf & Hs & H0 & Hin); [constructor|by intros r Hr; inversion Hr|by right|simpl; lia|].
  exists shown. split_and!; [done..|]. intros Hsame. apply same_rows_timeline; [done..|].
  intros r. split; [|apply H0]. intros Hr. destruct (Hin r Hr) as [k Hk]. by rewrite Hsame in Hk.
Qed.

(** ** Sample timelines *)

Definition sample_postgres : Driver := {| db_type := postgres; db_precision := 1 |}.

Definition sample_event (id : string) (at_ seq : Z) : EventRow :=
  {| er_id := id; er_mission_id := "m"; er_account_id := "acc"; er_step_id := None;
     er_type := "step_started"; er_actor_type := "system"; er_actor_id := ""; er_actor_name := "";
     er_message := ""; er_data := JNull; er_created_at := at_; er_write_seq := seq |}.

(** Three events of one millisecond, two of them unnumbered; another comes while
    they are being read. *)
Definition sample_tables (n : nat) : list EventRow :=
  [sample_event "e1" 5000100 0; sample_event "e2" 5000700 0; sample_event "e3" 5000400 7]
  ++ match n with O => [] | S _ => [sample_event "e4" 5000900 8] end.

Lemma paging_sees_every_event_witness :
  read_back sample_postgres (Some "acc") "m" "acc" (Some 1) sample_tables 5 O None
    = Some [sample_event "e3" 5000400 7; sample_event "e2" 5000700 0; sample_event "e1" 5000100 0] ∧
  ∃ shown,
    read_back sample_postgres (Some "acc") "m" "acc" (Some 1) sample_tables 5 O None = Some shown ∧
    StronglySorted (newer sample_postgres) shown ∧
    (∀ r, r ∈ mission_events "m" (sample_tables O) → r ∈ shown) ∧
    ((∀ n, sample_tables n = sample_tables O) → shown = timeline sample_postgres "m" (sample_tables O)).
Proof.
  split; [vm_compute; reflexivity|].
  apply (paging_sees_every_event sample_postgres "acc" "m" "acc" (Some 1) sample_tables 4).
  - reflexivity.
  - by left.
  - intros n. split.
    + destruct n; apply (bool_decide_unpack _); vm_compute; exact I.
    + intros r Hr. split; [apply Z.mod_1_r|].
      destruct n; repeat (apply elem_of_cons in Hr as [->|Hr]; [discriminate|]); inversion Hr.
  - intros [|n] r Hr; [|exact Hr]. apply (elem_of_app [_; _; _] [_]). by left.
  - intros [|n]; simpl; lia.
Defined.

(** ** Writing *)

Lemma max_of_fold f l : ∀ a,
  a <= foldl (λ m x, Z.max m (f x)) a l ∧
  (∀ r : EventRow, r ∈ l → f r <= foldl (λ m x, Z.max m (f x)) a l) ∧
  ∀ b, a <= b → (∀ r, r ∈ l → f r <= b) → foldl (λ m x, Z.max m (f x)) a l <= b.
Proof.
  induction l as [|x l IH]; intros a; simpl.
  - split_and!; [lia|by intros r Hr; inversion Hr|auto].
  - destruct (IH (Z.max a (f x))) as (H1 & H2 & H3). split_and!; [lia| |].
    + intros r Hr. apply elem_of_cons in Hr as [->|Hr]; [lia|by apply H2].
    + intros b Hb Hl. apply H3.
      * specialize (Hl x (list_elem_of_here _ _)). lia.
      * intros r Hr. apply Hl, list_elem_of_further, Hr.
Qed.

Lemma max_of_ge f l r : r ∈ l → f r <= max_of f l.
Proof.
  destruct l as [|x l]; simpl; intros Hr; [inversion Hr|].
  destruct (max_of_fold f l (f x)) as (H1 & H2 & _).
  apply elem_of_cons in Hr as [->|Hr]; [done|by apply H2].
Qed.

Lemma max_of_le f l b : 0 <= b → (∀ r, r ∈ l → f r <= b) → max_of f l <= b.
Proof.
  destruct l as [|x l]; simpl; intros Hb H; [done|]. apply max_of_fold.
  - apply H, list_elem_of_here.
  - intros r Hr. apply H, list_elem_of_further, Hr.
Qed.

(** Numbered from one, the largest number is the count. *)
Lemma max_of_numbered f l :
  List.map f l = seqZ 1 (Z.of_nat (length l)) → max_of f l = Z.of_nat (length l).
Proof.
  intros H. apply Z.le_antisymm.
  - apply max_of_le; [lia|]. intros r Hr.
    assert (f r ∈ seqZ 1 (Z.of_nat (length l))) as E%elem_of_seqZ; [|lia].
    rewrite <- H. apply list_elem_of_In, in_map, list_elem_of_In, Hr.
  - destruct (decide (length l = O)) as [E|E].
    { apply nil_length_inv in E as ->. simpl. lia. }
    assert (Z.of_nat (length l) ∈ List.map f l) as Hin by (rewrite H; apply elem_of_seqZ; lia).
    apply list_elem_of_In, in_map_iff in Hin as (r & <- & Hr). by apply max_of_ge, list_elem_of_In.
Qed.

Section writing.
Context (displayName : string → option string) (d : Driver) (m : string).
Context (documented_d : documented d = true).

Lemma default_created_at_mono a b : a <= b → default_created_at d a <= default_created_at d b.
Proof using documented_d.
  unfold documented in documented_d. apply andb_true_iff in documented_d as [Hp%Z.ltb_lt _].
  intros H. unfold default_created_at.
  pose proof (Z.div_le_mono a b (db_precision d) Hp H).
  rewrite (Z.div_mod a (db_precision d)) at 1 by lia. rewrite (Z.div_mod b (db_precision d)) at 1 by lia.
  nia.
Qed.

(** The key [recordEvent] derives is above every key of the mission. *)
Lemma recorded_is_newer rows c :
  List.map er_write_seq (mission_events m rows) = seqZ 1 (Z.of_nat (length (mission_events m rows))) →
  ec_mission c = m →
  (db_type d = postgres ∨
   ∀ r, r ∈ mission_events m rows → er_created_at r <= default_created_at d (ec_now c)) →
  ∃ row, record_call displayName d rows c = rows ++ [row] ∧
    er_id row = ec_id c ∧ er_mission_id row = m ∧
    er_write_seq row = Z.of_nat (length (mission_events m rows)) + 1 ∧
    (db_type d = postgres ∨ er_created_at row = default_created_at d (ec_now c)) ∧
    ∀ r, r ∈ mission_events m rows → newer d row r.
Proof using Type.
  intros Hnum Hm Hclock. unfold record_call, recordEvent; simpl.
  eexists. split; [reflexivity|]. simpl. rewrite Hm, (max_of_numbered _ _ Hnum). split_and!; try done.
  { case_bool_decide; auto. }
  intros r Hr. unfold newer, newer_first. rewrite (symmetry_iff (≠) _ (order_key d r)), key_lt_iff.
  unfold order_key; simpl. pose proof (max_of_ge er_write_seq _ _ Hr) as Hseq.
  rewrite (max_of_numbered _ _ Hnum) in Hseq.
  assert (tiedCreatedAtOrderExpr d (er_created_at r) <= tiedCreatedAtOrderExpr d
    (match (if bool_decide (db_type d = postgres) then
              Some (ec_date_now c `max` to_ms (max_of er_created_at (mission_events m rows))) else None) with
     | Some ms => ms * US_PER_MS | None => default_created_at d (ec_now c) end)) as Hle; [|lia].
  unfold tiedCreatedAtOrderExpr. case_bool_decide as E.
  - rewrite E. unfold to_ms, US_PER_MS. rewrite Z.div_mul by done.
    pose proof (Z.div_le_mono _ _ 1000 eq_refl (max_of_ge er_created_at _ _ Hr)). lia.
  - destruct Hclock as [?|H]; [done|]. specialize (H r Hr). by destruct (db_type d).
Qed.

Lemma mission_events_snoc rows row :
  mission_events m (rows ++ [row]) =
    if String.eqb (er_mission_id row) m then mission_events m rows ++ [row] else mission_events m rows.
Proof using Type.
  unfold mission_events. rewrite lfilter_app, lfilter_cons. simpl.
  destruct (String.eqb (er_mission_id row) m); [done|]. by rewrite app_nil_r.
Qed.

(** What a history of writes leaves of one mission. *)
Definition in_order (calls : list EventCall) (rows : list EventRow) : Prop :=
  let mine := mission_events m rows in
  List.map er_id mine = List.map ec_id (lfilter (λ c, String.eqb (ec_mission c) m) calls) ∧
  List.map er_write_seq mine = seqZ 1 (Z.of_nat (length mine)) ∧
  StronglySorted (newer d) (reverse mine) ∧
  (db_type d = postgres ∨
   ∀ r, r ∈ mine → ∃ c, c ∈ calls ∧ er_created_at r = default_created_at d (ec_now c)).

Lemma in_order_other calls rows c row :
  ec_mission c ≠ m → er_mission_id row = ec_mission c →
  in_order calls rows → in_order (calls ++ [c]) (rows ++ [row]).
Proof using Type.
  intros N E (H1 & H2 & H3 & H4). unfold in_order. rewrite mission_events_snoc, E.
  apply String.eqb_neq in N. rewrite lfilter_app, lfilter_cons, N. cbn [lfilter].
  rewrite app_nil_r. split_and!; try done.
  destruct H4 as [?|H4]; [by left|right]. intros r Hr. destruct (H4 r Hr) as (c' & Hc & ?).
  exists c'. rewrite elem_of_app. auto.
Qed.

Lemma in_order_record calls rows c :
  (db_type d = postgres ∨ ∀ c', c' ∈ calls → ec_now c' <= ec_now c) →
  in_order calls rows → in_order (calls ++ [c]) (record_call displayName d rows c).
Proof using documented_d.
  intros Hclock Ho. destruct (decide (ec_mission c = m)) as [E|N].
  2: { by apply in_order_other. }
  destruct Ho as (H1 & H2 & H3 & H4).
  destruct (recorded_is_newer rows c H2 E) as (row & -> & Hid & Hm & Hseq & Hat & Hnew).
  { destruct Hclock as [?|Hclock]; [by left|]. destruct H4 as [?|H4]; [by left|right].
    intros r Hr. destruct (H4 r Hr) as (c' & Hc & ->). by apply default_created_at_mono, Hclock. }
  unfold in_order. rewrite mission_events_snoc, Hm, String.eqb_refl, lfilter_app, lfilter_cons.
  apply String.eqb_eq in E as ->. rewrite !List.map_app, H1, H2, length_app. split_and!.
  - simpl. by rewrite Hid.
  - simpl. rewrite Hseq, Nat.add_1_r, seqZ_S, Z.add_comm. done.
  - rewrite reverse_snoc. constructor; [done|]. apply Forall_forall. intros r Hr.
    by apply Hnew, elem_of_reverse.
  - destruct Hat as [?|Hat]; [by left|]. destruct H4 as [?|H4]; [by left|right].
    intros r Hr. apply elem_of_app in Hr as [Hr|Hr%list_elem_of_singleton].
    + destruct (H4 r Hr) as (c' & Hc & ?). exists c'. rewrite elem_of_app. auto.
    + subst r. exists c. split; [apply elem_of_app; right; apply list_elem_of_here|done].
Qed.

Lemma in_order_history calls :
  (db_type d = postgres ∨ StronglySorted (λ a b, ec_now a <= ec_now b) calls) →
  in_order calls (foldl (record_call displayName d) [] calls).
Proof using documented_d.
  induction calls as [|c calls IH] using rev_ind; intros Hclock.
  { split_and!; [done|done|constructor|]. right. intros r Hr. inversion Hr. }
  rewrite foldl_app. apply in_order_record.
  - destruct Hclock as [?|Hs]; [by left|right]. intros c' Hc.
    eapply (StronglySorted_app_1_elem_of _ _ _ _ _ Hs Hc), list_elem_of_here.
  - apply IH. destruct Hclock as [?|Hs]; [by left|right]. by apply StronglySorted_app_1_l in Hs.
Qed.
End writing.

(** The timeline is the order of writing: events recorded for any missions, in
    any order, number each mission's events from one without a gap, and a
    mission's timeline shows its events in the reverse of the order in which they
    were recorded.  On Postgres that holds whatever the clocks of the servers that
    recorded them say; elsewhere, if the database's clock does not run backwards. *)
Theorem timeline_is_order_of_writing displayName d m calls :
  documented d = true →
  (db_type d = postgres ∨ StronglySorted (λ a b, ec_now a <= ec_now b) calls) →
  let rows := foldl (record_call displayName d) [] calls in
  List.map er_id (mission_events m rows)
    = List.map ec_id (lfilter (λ c, String.eqb (ec_mission c) m) calls) ∧
  List.map er_write_seq (mission_events m rows) = seqZ 1 (Z.of_nat (length (mission_events m rows))) ∧
  timeline d m rows = reverse (mission_events m rows).
Proof.
  intros Hd Hclock rows. destruct (in_order_history displayName d m Hd calls Hclock) as (H1 & H2 & H3 & _).
  split_and!; [exact H1|exact H2|]. apply merge_sort_unique; [exact H3|apply reverse_Permutation].
Qed.

Definition sample_call (mission id : string) (now date_now : Z) : EventCall :=
  {| ec_mission := mission; ec_account := "acc";
     ec_input := {| in_type := "step_started"; in_message := "go"; in_step_id := None;
                    in_actor_type := ""; in_actor_id := ""; in_actor_name := ""; in_data := JUndef |};
     ec_id := id; ec_now := now; ec_date_now := date_now |}.

(** Two servers whose clocks disagree by four seconds. *)
Definition sample_calls : list EventCall :=
  [sample_call "m" "e1" 9000000 9000; sample_call "other" "x1" 5000000 5000;
   sample_call "m" "e2" 5000000 5000; sample_call "m" "e3" 9000000 9001].

Lemma timeline_is_order_of_writing_witness :
  let rows := foldl (record_call (λ _, None) sample_postgres) [] sample_calls in
  List.map er_id (timeline sample_postgres "m" rows) = ["e3"; "e2"; "e1"] ∧
  List.map er_id (mission_events "m" rows)
    = List.map ec_id (lfilter (λ c, String.eqb (ec_mission c) "m") sample_calls) ∧
  List.map er_write_seq (mission_events "m" rows) = seqZ 1 (Z.of_nat (length (mission_events "m" rows))) ∧
  timeline sample_postgres "m" rows = reverse (mission_events "m" rows).
Proof.
  split; [vm_compute; reflexivity|].
  apply (timeline_is_order_of_writing (λ _, None) sample_postgres "m" sample_calls).
  - reflexivity.
  - by left.
Defined.
