(* ===== verification/WorkFolder.v ===== *)
(** * Working folders

    [workspace-folder-options.ts] and the path functions of Node it leads to: the
    server's normalisation of a mission's folder, the folder of a step, and the
    absolute folder the agent manager resolves it to ([run-provisioner.ts]).

    Paths are strings.  [resolve] and [join] are Node's, on POSIX: the segments
    between slashes, without the empty ones and dots, where a double dot leaves
    the segment before it. *)

From S2P Require Import Prelude JsStd Vocabulary Roster.
#[local] Open Scope Z_scope.

(** ** Splitting and joining *)

(** [s.split(c)] for every character [p] holds of.  A run of separators gives
    empty pieces, which every caller below drops, so that it splits as the
    regular expression of the source does. *)
Fixpoint split_on (p : ascii → bool) (s : string) : list string :=
  match s with
  | EmptyString => [""]
  | String c s =>
      if p c then "" :: split_on p s
      else match split_on p s with
           | [] => [String c ""]
           | w :: ws => String c w :: ws
           end
  end.

Fixpoint join_with (sep : string) (ws : list string) : string :=
  match ws with
  | [] => ""
  | [w] => w
  | w :: ws => w +:+ sep +:+ join_with sep ws
  end.

(** ** The server: a folder below the root of its kind *)

(** [raw.replace(/^[/\\]+/, '')] *)
Fixpoint strip_leading (s : string) : string :=
  match s with
  | String c s' => if is_separator c then strip_leading s' else s
  | EmptyString => s
  end.

(** A segment that names a folder. *)
Definition plain_segment (seg : string) : bool :=
  truthy seg && negb (String.eqb seg ".") && negb (String.eqb seg "..").

Definition normalizeWorkspaceFolder (input : jsval) : string :=
  if is_nullish input then ""
  else
    let raw := strip_leading (trim (js_String input)) in
    if negb (truthy raw) then ""
    else join_with "/" (lfilter plain_segment (split_on is_separator raw)).

Inductive CheckoutMode : Type := checkout_reuse | checkout_fresh.
#[export] Instance CheckoutMode_eq_dec : EqDecision CheckoutMode.
Proof. solve_decision. Defined.

Definition normalizeCheckoutMode (input : jsval) : CheckoutMode :=
  match input with
  | JStr s => if String.eqb s "fresh" then checkout_fresh else checkout_reuse
  | _ => checkout_reuse
  end.

Inductive RunWorkspaceKind : Type := kind_qa | kind_security | kind_action | kind_chat | kind_orchestration.

Definition kind_string (k : RunWorkspaceKind) : string :=
  match k with
  | kind_qa => "qa" | kind_security => "security" | kind_action => "action"
  | kind_chat => "chat" | kind_orchestration => "orchestration"
  end.

(** The last segment of [runWorkspaceRootForKind], below [.awb]. *)
Definition kind_root (k : RunWorkspaceKind) : string :=
  match k with
  | kind_action => "act" | kind_chat => "chat" | kind_orchestration => "orch"
  | kind_qa | kind_security => "qa"
  end.

Definition runWorkspaceRootForKind (k : RunWorkspaceKind) : string := join_with "/" [".awb"; kind_root k].

Definition resolveWorkspaceFolder (folder : jsval) (kind : RunWorkspaceKind) (id : string) : string :=
  let explicit := normalizeWorkspaceFolder folder in
  let leaf := if truthy explicit then explicit
              else if truthy (slice 8 id) then slice 8 id else kind_string kind in
  join_with "/" [runWorkspaceRootForKind kind; leaf].

(** What a repository reference names. *)
Record WorkspaceFolderRepoRef := {
  rr_project_id : option string; rr_url : option string; rr_branch : option string
}.

(** [if (v != null && String(v).trim()) out.x = String(v).trim()] *)
Definition trimmed_field (v : jsval) : option string :=
  if is_nullish v then None
  else let s := trim (js_String v) in if truthy s then Some s else None.

(** Arrays are objects here: they have none of the fields. *)
Definition normalizeRepoRef (input : jsval) : option WorkspaceFolderRepoRef :=
  match input with
  | JObj _ =>
      let ref := {| rr_project_id := trimmed_field (nullish_or (prop input "project_id") (prop input "resource_id"));
                    rr_url := trimmed_field (prop input "url");
                    rr_branch := trimmed_field (prop input "branch") |} in
      match rr_project_id ref, rr_url ref, rr_branch ref with
      | None, None, None => None
      | _, _, _ => Some ref
      end
  | _ => None
  end.

(** The folder the server asks for when it dispatches an isolated step
    ([dispatchStep], [buildRunProvision]), and the one it shows for the step
    ([getMissionDetail]). *)
Definition step_workspace_folder (workspace_folder mission_id step_id step_key : string) : string :=
  let missionLeaf := if truthy workspace_folder then workspace_folder else slice 8 mission_id in
  resolveWorkspaceFolder (JStr (join_with "/" [missionLeaf; step_key])) kind_orchestration step_id.

Definition shown_step_folder (workspace_folder mission_id step_key : string) : string :=
  join_with "/" [resolveWorkspaceFolder (JStr workspace_folder) kind_orchestration mission_id; step_key].

(** ** Node's paths *)

Definition is_slash (c : ascii) : bool := code c =? 47.

(** The segments of a path that [resolve] looks at. *)
Definition path_segments (s : string) : list string :=
  lfilter (λ w, truthy w && negb (String.eqb w ".")) (split_on is_slash s).

(** One segment further; above the root there is only the root. *)
Definition climb_one (acc : list string) (seg : string) : list string :=
  if String.eqb seg ".." then removelast acc else acc ++ [seg].
Definition climb (acc segs : list string) : list string := foldl climb_one acc segs.

(** [path[0] === '/'] *)
Definition isAbsolute (s : string) : bool := match s with String c _ => is_slash c | EmptyString => false end.

(** An absolute path as [resolve] writes it. *)
Definition path_of (segs : list string) : string := "/" +:+ join_with "/" segs.

Section node.
(** [process.cwd()], an absolute path. *)
Context (cwd : string).

(** The segments of [path.resolve(s)]. *)
Definition resolved (s : string) : list string :=
  climb (if isAbsolute s then [] else climb [] (path_segments cwd)) (path_segments s).

Definition resolve (s : string) : string := path_of (resolved s).
End node.

(** [normalizeString]: like [climb_one], but a relative path keeps the double dots
    that lead out of it. *)
Definition normal_step (absolute : bool) (acc : list string) (seg : string) : list string :=
  if String.eqb seg ".." then
    match acc with
    | [] => if absolute then [] else [seg]
    | _ => if String.eqb (List.last acc "") ".." then acc ++ [seg] else removelast acc
    end
  else acc ++ [seg].

Fixpoint endsWith_slash (s : string) : bool :=
  match s with
  | EmptyString => false
  | String c EmptyString => is_slash c
  | String _ s => endsWith_slash s
  end.

(** [path.posix.normalize] *)
Definition normalize (s : string) : string :=
  if negb (truthy s) then "."
  else
    let absolute := isAbsolute s in
    let trailing := endsWith_slash s in
    let body := join_with "/" (foldl (normal_step absolute) [] (path_segments s)) in
    let body := if negb (truthy body) && negb absolute then (if trailing then "./" else ".")
                else if truthy body && trailing then body +:+ "/" else body in
    if absolute then "/" +:+ body else body.

(** [path.posix.join(a, b)]; an empty argument counts as absent. *)
Definition join (a b : string) : string :=
  if negb (truthy a) then (if negb (truthy b) then "." else normalize b)
  else if negb (truthy b) then normalize a else normalize (a +:+ "/" +:+ b).

(** ** Splitting *)

Lemma split_on_cons p s : ∃ w ws, split_on p s = w :: ws.
Proof.
  induction s as [|c s (w & ws & IH)]; simpl; [by eauto|]. rewrite IH. destruct (p c); eauto.
Qed.

Lemma split_on_app p s c t : p c = true → split_on p (s +:+ String c t) = split_on p s ++ split_on p t.
Proof.
  intros Hc. induction s as [|d s IH].
  { change ("" +:+ String c t) with (String c t). cbn [split_on]. by rewrite Hc. }
  change (String d s +:+ String c t) with (String d (s +:+ String c t)). cbn [split_on]. rewrite IH.
  destruct (p d); [done|]. destruct (split_on_cons p s) as (w & ws & ->). done.
Qed.

Lemma split_on_word p w : all_chars (λ c, negb (p c)) w = true → split_on p w = [w].
Proof.
  induction w as [|c w IH]; [done|]. intros [Hc%negb_true_iff Hw]%andb_true_iff. cbn [split_on].
  by rewrite Hc, IH.
Qed.

Lemma split_on_pieces p s : ∀ w, w ∈ split_on p s → all_chars (λ c, negb (p c)) w = true.
Proof.
  induction s as [|c s IH]; intros w Hw.
  - by apply list_elem_of_singleton in Hw as ->.
  - cbn [split_on] in Hw. destruct (p c) eqn:Ec.
    + apply elem_of_cons in Hw as [->|Hw]; [done|by apply IH].
    + destruct (split_on p s) as [|v vs] eqn:Es; [by destruct (split_on_cons p s) as (? & ? & ?); congruence|].
      apply elem_of_cons in Hw as [->|Hw]; [|apply IH; by apply list_elem_of_further].
      cbn [all_chars]. rewrite Ec. apply IH, list_elem_of_here.
Qed.

(** Words without separators come back from a join. *)
Lemma split_join p c ws :
  p c = true → ws ≠ [] → (∀ w, w ∈ ws → all_chars (λ d, negb (p d)) w = true) →
  split_on p (join_with (String c "") ws) = ws.
Proof.
  intros Hc. induction ws as [|w [|v ws] IH]; [done| |]; intros _ Hw.
  - apply split_on_word, Hw, list_elem_of_here.
  - change (join_with (String c "") (w :: v :: ws)) with (w +:+ String c (join_with (String c "") (v :: ws))).
    rewrite split_on_app, IH by (try done; intros u Hu; apply Hw; by apply list_elem_of_further).
    by rewrite split_on_word by apply Hw, list_elem_of_here.
Qed.

Lemma lfilter_all {A} (p : A → bool) l : (∀ x, x ∈ l → p x = true) → lfilter p l = l.
Proof.
  induction l as [|x l IH]; [done|]. intros H. cbn. rewrite H by apply list_elem_of_here.
  unfold lfilter in IH. f_equal. apply IH. intros y Hy. apply H. by apply list_elem_of_further.
Qed.

(** ** Paths *)

(** What a segment looks like. *)
Definition fine_segment (w : string) : Prop :=
  w ≠ "" ∧ w ≠ "." ∧ all_chars (λ c, negb (is_slash c)) w = true.

Lemma path_segments_fine s w : w ∈ path_segments s → fine_segment w.
Proof.
  intros [H [Ht Hd]%andb_true_iff]%elem_of_lfilter. split_and!; [by apply truthy_true| |by eapply split_on_pieces].
  by apply negb_true_iff, String.eqb_neq in Hd.
Qed.

Lemma path_segments_app a b : path_segments (a +:+ "/" +:+ b) = path_segments a ++ path_segments b.
Proof.
  unfold path_segments. change ("/" +:+ b) with (String (ascii_of_N 47) b).
  rewrite split_on_app by done. apply lfilter_app.
Qed.

Lemma path_segments_of ws : (∀ w, w ∈ ws → fine_segment w) → path_segments (join_with "/" ws) = ws.
Proof.
  intros H. unfold path_segments. destruct (decide (ws = [])) as [->|N]; [done|].
  rewrite (split_join is_slash (ascii_of_N 47)); [|done|done|by intros w Hw; apply H].
  apply lfilter_all. intros w (H1 & H2 & _)%H. apply andb_true_iff. split; [by apply truthy_true|].
  by apply negb_true_iff, String.eqb_neq.
Qed.

Lemma path_of_segments ws : (∀ w, w ∈ ws → fine_segment w) → path_segments (path_of ws) = ws.
Proof.
  intros H. unfold path_of. change ("/" +:+ join_with "/" ws) with ("" +:+ "/" +:+ join_with "/" ws).
  by rewrite path_segments_app, path_segments_of.
Qed.

Lemma climb_app acc l l' : climb acc (l ++ l') = climb (climb acc l) l'.
Proof. apply foldl_app. Qed.

Lemma climb_down acc l : ".." ∉ l → climb acc l = acc ++ l.
Proof.
  revert acc. induction l as [|w l IH]; intros acc H; [by rewrite app_nil_r|].
  apply not_elem_of_cons in H as [Hw Hl]. cbn [climb foldl]. fold (climb (climb_one acc w) l).
  rewrite IH by done. unfold climb_one. destruct (String.eqb_spec w "..") as [->|]; [done|].
  by rewrite <- app_assoc.
Qed.

Lemma climb_forall (P : string → Prop) acc l :
  (∀ w, w ∈ acc → P w) → (∀ w, w ∈ l → P w) → ∀ w, w ∈ climb acc l → P w.
Proof.
  revert acc. induction l as [|v l IH]; intros acc Ha Hl; [done|]. cbn [climb foldl]. apply IH.
  - unfold climb_one. destruct (String.eqb v ".."); intros w Hw.
    + apply Ha. destruct (decide (acc = [])) as [->|N]; [by inversion Hw|].
      rewrite (app_removelast_last "" N). apply elem_of_app. by left.
    + apply elem_of_app in Hw as [Hw| ->%list_elem_of_singleton]; [by apply Ha|apply Hl, list_elem_of_here].
  - intros w Hw. apply Hl. by apply list_elem_of_further.
Qed.

(** ** [normalize] changes nothing [resolve] sees *)

Lemma normal_step_forall (P : string → Prop) absolute acc l :
  (∀ w, w ∈ acc → P w) → (∀ w, w ∈ l → P w) → ∀ w, w ∈ foldl (normal_step absolute) acc l → P w.
Proof.
  revert acc. induction l as [|v l IH]; intros acc Ha Hl; [done|]. cbn [foldl].
  assert (Hv : P v) by apply Hl, list_elem_of_here. apply IH; [|intros w Hw; apply Hl; by apply list_elem_of_further].
  assert (Happ : ∀ w, w ∈ acc ++ [v] → P w).
  { intros w [Hw| ->%list_elem_of_singleton]%elem_of_app; auto. }
  unfold normal_step. destruct (String.eqb v ".."); [|exact Happ].
  destruct acc as [|a acc'] eqn:Ea.
  - destruct absolute; [intros w Hw; inversion Hw|]. by intros w ->%list_elem_of_singleton.
  - rewrite <- Ea in *. destruct (String.eqb _ ".."); [exact Happ|]. intros w Hw. apply Ha.
    rewrite (app_removelast_last "" (l := acc)) by congruence. apply elem_of_app. by left.
Qed.

Lemma climb_normal_step absolute acc norm seg :
  (absolute = true → acc = []) →
  climb acc (normal_step absolute norm seg) = climb_one (climb acc norm) seg.
Proof.
  intros Habs. assert (Happ : climb acc (norm ++ [seg]) = climb_one (climb acc norm) seg) by apply climb_app.
  unfold normal_step. destruct (String.eqb_spec seg "..") as [->|]; [|done].
  destruct norm as [|a norm'] eqn:En.
  - destruct absolute; [rewrite Habs by done|]; done.
  - rewrite <- En in *. destruct (String.eqb_spec (List.last norm "") "..") as [|N]; [done|].
    destruct (exists_last (l := norm) ltac:(congruence)) as (n & x & ->).
    rewrite last_last in N. rewrite removelast_last, climb_app. unfold climb at 2. cbn [foldl].
    unfold climb_one at 2. destruct (String.eqb_spec x ".."); [done|].
    unfold climb_one. by rewrite removelast_last.
Qed.

Lemma climb_normal absolute acc segs : (absolute = true → acc = []) → ∀ norm,
  climb acc (foldl (normal_step absolute) norm segs) = climb (climb acc norm) segs.
Proof.
  intros Habs. induction segs as [|v segs IH]; intros norm; [done|]. cbn [foldl].
  rewrite IH, climb_normal_step by done. done.
Qed.

Lemma path_segments_normalize s :
  path_segments (normalize s) = foldl (normal_step (isAbsolute s)) [] (path_segments s).
Proof.
  unfold normalize. destruct (truthy s) eqn:Es; cbn [negb]; [|apply negb_false_iff, String.eqb_eq in Es as ->; done].
  set (norm := foldl _ _ _).
  assert (Hf : ∀ w, w ∈ norm → fine_segment w).
  { apply normal_step_forall; [intros w Hw; inversion Hw|apply path_segments_fine]. }
  pose proof (path_segments_of norm Hf) as Hn. set (body := join_with "/" norm) in *.
  assert (Hslash : ∀ b, path_segments ("/" +:+ b) = path_segments b) by (intros b; apply (path_segments_app "" b)).
  assert (Htrail : path_segments (body +:+ "/") = path_segments body).
  { pose proof (path_segments_app body "") as H. change ("/" +:+ "") with "/" in H. rewrite H. apply app_nil_r. }
  destruct (truthy body) eqn:Eb; cbn [negb andb].
  - destruct (endsWith_slash s), (isAbsolute s); rewrite ?Hslash, ?Htrail; done.
  - apply negb_false_iff, String.eqb_eq in Eb. rewrite Eb in *. rewrite <- Hn.
    destruct (endsWith_slash s), (isAbsolute s); done.
Qed.

Lemma isAbsolute_relative w ws : fine_segment w → isAbsolute (join_with "/" (w :: ws)) = false.
Proof.
  intros (H & _ & Hc). destruct w as [|c w]; [done|].
  apply andb_true_iff in Hc as [Hc%negb_true_iff _]. by destruct ws.
Qed.

Lemma isAbsolute_normalize s : isAbsolute (normalize s) = isAbsolute s.
Proof.
  unfold normalize. destruct (truthy s) eqn:Es; cbn [negb]; [|apply negb_false_iff, String.eqb_eq in Es as ->; done].
  set (norm := foldl _ _ _).
  assert (Hf : ∀ w, w ∈ norm → fine_segment w).
  { apply normal_step_forall; [intros w Hw; inversion Hw|apply path_segments_fine]. }
  destruct (isAbsolute s) eqn:Ea; [done|]. cbn [negb].
  destruct norm as [|w ws]; [by destruct (endsWith_slash s)|].
  assert (Hb : isAbsolute (join_with "/" (w :: ws)) = false) by apply isAbsolute_relative, Hf, list_elem_of_here.
  destruct (join_with "/" (w :: ws)) as [|c b]; [by destruct (endsWith_slash s)|].
  by destruct (endsWith_slash s).
Qed.

Lemma append_assoc (x y z : string) : (x +:+ y) +:+ z = x +:+ (y +:+ z).
Proof.
  induction x as [|c x IH]; [done|].
  change (String c ((x +:+ y) +:+ z) = String c (x +:+ (y +:+ z))). by rewrite IH.
Qed.

Lemma append_longer (x y : string) : y ≠ "" → x ≠ x +:+ y.
Proof.
  intros Hy. induction x as [|c x IH]; [exact (λ E, Hy (eq_sym E))|].
  change (String c x +:+ y) with (String c (x +:+ y)). congruence.
Qed.

Section node_facts.
Context (cwd : string).

Lemma resolved_fine s w : w ∈ resolved cwd s → fine_segment w.
Proof.
  unfold resolved. apply climb_forall; [|apply path_segments_fine].
  destruct (isAbsolute s); [intros v Hv; inversion Hv|].
  apply climb_forall; [intros v Hv; inversion Hv|apply path_segments_fine].
Qed.

Lemma resolved_normalize s : resolved cwd (normalize s) = resolved cwd s.
Proof.
  unfold resolved. rewrite isAbsolute_normalize, path_segments_normalize.
  by rewrite climb_normal by (intros ->; done).
Qed.

(** [resolve(join(a, b))] walks from [a] along [b]. *)
Lemma resolved_join a b :
  truthy a = true → resolved cwd (join a b) = climb (resolved cwd a) (path_segments b).
Proof.
  intros Ha. unfold join. rewrite Ha. cbn [negb]. destruct (truthy b) eqn:Eb; cbn [negb].
  - rewrite resolved_normalize. unfold resolved at 1. rewrite path_segments_app, climb_app. f_equal.
    unfold resolved. by destruct a as [|c a].
  - rewrite resolved_normalize. apply negb_false_iff, String.eqb_eq in Eb as ->. done.
Qed.

(** The guard of the provisioner, [resolve(dir).startsWith(resolve(root) + sep)]. *)
Definition below (root dir : string) : Prop :=
  ∃ rest, rest ≠ [] ∧ resolved cwd dir = resolved cwd root ++ rest.

Lemma startsWith_app p s : startsWith p s = true → ∃ t, s = p +:+ t.
Proof.
  unfold startsWith. revert s. induction p as [|c p IH]; intros s H; [by exists s|].
  destruct s as [|d s]; [done|]. cbn [String.prefix] in H. destruct (ascii_dec c d) as [<-|]; [|done].
  apply IH in H as [t ->]. by exists t.
Qed.

Lemma startsWith_below root dir :
  startsWith (resolve cwd root +:+ "/") (resolve cwd dir) = true → below root dir.
Proof.
  intros [t Ht]%startsWith_app. unfold below. unfold resolve in Ht.
  pose proof (path_of_segments (resolved cwd dir) (λ w, resolved_fine dir w)) as Hd.
  pose proof (path_of_segments (resolved cwd root) (λ w, resolved_fine root w)) as Hr.
  rewrite append_assoc in Ht.
  rewrite Ht in Hd at 1. rewrite path_segments_app, Hr in Hd. exists (path_segments t). split; [|done].
  intros E. rewrite E, app_nil_r in Hd. rewrite <- Hd in Ht.
  by apply append_longer in Ht.
Qed.
End node_facts.

(** ** The server's folders *)

Definition folder_segments (s : string) : list string := lfilter plain_segment (split_on is_separator s).

Definition good_segment (w : string) : Prop :=
  plain_segment w = true ∧ all_chars (λ c, negb (is_separator c)) w = true.

Lemma all_chars_imp (p q : ascii → bool) s :
  (∀ c, p c = true → q c = true) → all_chars p s = true → all_chars q s = true.
Proof.
  intros H. induction s as [|c s IH]; [done|]. intros [Hc Hs]%andb_true_iff. cbn [all_chars].
  by rewrite H, IH.
Qed.

Lemma good_fine w : good_segment w → fine_segment w ∧ w ≠ "..".
Proof.
  intros [[[Ht%truthy_true Hd%negb_true_iff]%andb_true_iff Hdd%negb_true_iff]%andb_true_iff Hc].
  apply String.eqb_neq in Hd, Hdd. split; [|done]. split; [done|]. split; [done|].
  revert Hc. apply all_chars_imp. intros c H%negb_true_iff. apply negb_true_iff.
  unfold is_separator in H. by apply orb_false_iff in H as [H _].
Qed.

Lemma folder_segments_good s w : w ∈ folder_segments s → good_segment w.
Proof. intros [Hw Hp]%elem_of_lfilter. split; [done|by eapply split_on_pieces]. Qed.

Lemma folder_segments_app a b : folder_segments (a +:+ "/" +:+ b) = folder_segments a ++ folder_segments b.
Proof.
  unfold folder_segments. change ("/" +:+ b) with (String (ascii_of_N 47) b).
  rewrite split_on_app by done. apply lfilter_app.
Qed.

Lemma folder_segments_of ws : (∀ w, w ∈ ws → good_segment w) → folder_segments (join_with "/" ws) = ws.
Proof.
  intros H. unfold folder_segments. destruct (decide (ws = [])) as [->|N]; [done|].
  rewrite (split_join is_separator (ascii_of_N 47)); [|done|done|by intros w Hw; apply H].
  apply lfilter_all. by intros w [Hw _]%H.
Qed.

Lemma folder_segments_word w : good_segment w → folder_segments w = [w].
Proof. intros H. apply (folder_segments_of [w]). by intros v ->%list_elem_of_singleton. Qed.

Lemma folder_segments_strip s : folder_segments (strip_leading s) = folder_segments s.
Proof.
  induction s as [|c s IH]; [done|]. cbn [strip_leading]. destruct (is_separator c) eqn:E; [|done].
  rewrite IH. unfold folder_segments. cbn [split_on]. by rewrite E, lfilter_cons.
Qed.

Lemma normalizeWorkspaceFolder_segments s :
  normalizeWorkspaceFolder (JStr s) = join_with "/" (folder_segments (trim s)).
Proof.
  unfold normalizeWorkspaceFolder. cbn [is_nullish js_String]. rewrite <- (folder_segments_strip (trim s)).
  by destruct (strip_leading (trim s)).
Qed.

Lemma join_with_app ws vs : ws ≠ [] → vs ≠ [] →
  join_with "/" (ws ++ vs) = join_with "/" ws +:+ "/" +:+ join_with "/" vs.
Proof.
  intros Hw Hv. induction ws as [|w [|w' ws] IH]; [done|by destruct vs|].
  change ((w :: w' :: ws) ++ vs) with (w :: (w' :: ws) ++ vs).
  assert (IH' := IH ltac:(done)). cbn [join_with app] in *. rewrite IH'. by rewrite !append_assoc.
Qed.

Lemma rtrim_suffix x k : k ≠ "" → rtrim k = k → rtrim (x +:+ k) = x +:+ k.
Proof.
  intros Hk Hr. induction x as [|c x IH]; [exact Hr|]. change (String c x +:+ k) with (String c (x +:+ k)).
  cbn [rtrim]. rewrite IH. destruct x; [by destruct k|done].
Qed.

Lemma ltrim_app x s : ltrim s = s → ltrim (x +:+ s) = ltrim x +:+ s.
Proof.
  intros Hs. induction x as [|c x IH]; [exact Hs|]. change (String c x +:+ s) with (String c (x +:+ s)).
  cbn [ltrim]. by destruct (is_space c).
Qed.

Lemma rtrim_word k : all_chars (λ c, negb (is_space c)) k = true → rtrim k = k.
Proof.
  induction k as [|c k IH]; [done|]. intros [Hc%negb_true_iff Hk]%andb_true_iff. cbn [rtrim].
  rewrite IH, Hc by done. by destruct k.
Qed.

(** ** The folder of a step *)

Lemma step_key_good key : STEP_KEY_PATTERN key = true →
  good_segment key ∧ key ≠ "" ∧ all_chars (λ c, negb (is_space c)) key = true.
Proof.
  destruct key as [|c key]; [done|]. cbn [STEP_KEY_PATTERN].
  intros [[Hc Hk]%andb_true_iff _]%andb_true_iff.
  assert (Hkc : is_key_char c = true) by (unfold is_key_char, is_key_start in *; cbn; by rewrite Hc).
  assert (Ha : all_chars is_key_char (String c key) = true) by (cbn [all_chars]; by rewrite Hkc, Hk).
  split_and!; [|done|].
  - split.
    + unfold plain_segment. apply andb_true_iff. split; [apply andb_true_iff; split; [done|]|].
      all: apply negb_true_iff, String.eqb_neq; intros [= -> _]; by vm_compute in Hc.
    + revert Ha. apply all_chars_imp. intros d. unfold is_key_char, is_key_start, is_separator. lia.
  - revert Ha. apply all_chars_imp. intros d. unfold is_key_char, is_key_start, is_space. lia.
Qed.

(** The mission's own part of the folder. *)
Definition mission_leaf (workspace_folder mission_id : string) : string :=
  if truthy workspace_folder then workspace_folder else slice 8 mission_id.
Definition leaf_segments (workspace_folder mission_id : string) : list string :=
  folder_segments (ltrim (mission_leaf workspace_folder mission_id)).

Lemma resolve_folder_of folder kind id ws :
  normalizeWorkspaceFolder folder = join_with "/" ws → ws ≠ [] → (∀ w, w ∈ ws → good_segment w) →
  resolveWorkspaceFolder folder kind id = join_with "/" ([".awb"; kind_root kind] ++ ws).
Proof.
  intros Hf N Hg. unfold resolveWorkspaceFolder. rewrite Hf, join_with_app by done.
  assert (Ht : truthy (join_with "/" ws) = true).
  { apply truthy_true. intros E. destruct ws as [|w ws]; [done|]. destruct (good_fine w) as [(Hw & _) _].
    { apply Hg, list_elem_of_here. }
    destruct w, ws; done. }
  by rewrite Ht.
Qed.

Lemma step_folder_form ws mid sid key : STEP_KEY_PATTERN key = true →
  step_workspace_folder ws mid sid key = join_with "/" ([".awb"; "orch"] ++ leaf_segments ws mid ++ [key]).
Proof.
  intros (Hg & Hne & Hsp)%step_key_good. unfold step_workspace_folder. fold (mission_leaf ws mid).
  apply resolve_folder_of; [|by destruct (leaf_segments ws mid)|].
  - rewrite normalizeWorkspaceFolder_segments. f_equal. unfold leaf_segments. cbn [join_with].
    rewrite <- (folder_segments_word key) by done. rewrite <- folder_segments_app. f_equal.
    unfold trim. rewrite ltrim_app by done.
    rewrite <- append_assoc. apply rtrim_suffix; [done|by apply rtrim_word].
  - intros w [Hw|Hw]%elem_of_app; [by eapply folder_segments_good|]. by apply list_elem_of_singleton in Hw as ->.
Qed.

Lemma leaf_segments_good ws mid w : w ∈ leaf_segments ws mid → good_segment w.
Proof. apply folder_segments_good. Qed.

(** A stored folder without blanks at its ends, or none and an id that names a folder. *)
Definition leaf_ok (ws mid : string) : Prop :=
  if truthy ws then normalizeWorkspaceFolder (JStr ws) = ws ∧ trim ws = ws
  else good_segment (slice 8 mid) ∧ trim (slice 8 mid) = slice 8 mid.

Lemma leaf_ok_segments ws mid : leaf_ok ws mid →
  leaf_segments ws mid ≠ [] ∧ join_with "/" (leaf_segments ws mid) = mission_leaf ws mid.
Proof.
  unfold leaf_ok, leaf_segments, mission_leaf. destruct (truthy ws) eqn:E; intros [H Ht].
  - assert (El : ltrim ws = ws).
    { rewrite <- Ht at 1. unfold trim. by rewrite ltrim_rtrim_ltrim. }
    rewrite normalizeWorkspaceFolder_segments, Ht in H. rewrite El. split; [|done].
    intros E0. rewrite E0 in H. by subst.
  - assert (El : ltrim (slice 8 mid) = slice 8 mid).
    { rewrite <- Ht at 1. unfold trim. by rewrite ltrim_rtrim_ltrim. }
    rewrite El, folder_segments_word by done. by split.
Qed.

(** What the mission view shows for a step is where the step runs. *)
Lemma shown_folder_form ws mid key : leaf_ok ws mid →
  shown_step_folder ws mid key = join_with "/" ([".awb"; "orch"] ++ leaf_segments ws mid ++ [key]).
Proof.
  intros Hl. pose proof (leaf_ok_segments ws mid Hl) as [Hn Hj]. unfold shown_step_folder.
  rewrite app_assoc, join_with_app by (try done; by destruct (leaf_segments ws mid)). cbn [join_with]. f_equal.
  rewrite join_with_app, Hj by done. unfold resolveWorkspaceFolder, mission_leaf, leaf_ok in *.
  destruct (truthy ws) eqn:E; destruct Hl as [Hl Ht].
  - by rewrite Hl, E.
  - apply negb_false_iff, String.eqb_eq in E as ->. cbn.
    destruct Hl as [[[Hp _]%andb_true_iff _]%andb_true_iff _]. by rewrite Hp.
Qed.
