(* ===== verification/RunProvisioner.v ===== *)
(** * Preparing a step's folder

    The run provision a dispatched step carries ([run-workspace-resolver.ts],
    [dispatchStep]), how the agent manager reads it from the wire, and what it does
    to the host's disk before the worker is started ([run-provisioner.ts]).

    The provisioner is a program over the file system: every call it makes is
    recorded in a trace, and the host answers it from what has been done so far in
    whatever way it likes.  The texts of its report are not modelled, and cloning
    with credentials ([repo-credential.ts]) is one call.  So is installing a
    credential in a clone ([op_credential]): the source asks git for the clone's git
    directory and writes there, which is below the folder unless the folder's
    [.git] names another place. *)

From S2P Require Import Prelude JsStd Vocabulary Roster WorkFolder.
#[local] Open Scope Z_scope.

(** ** The provision *)

Record RepoCredential := { rc_username : option string; rc_token : string }.

Record RunRepoSpec := {
  rs_url : string;
  rs_branch : option string;
  rs_credential : option RepoCredential;
  (** The resolved clone policy, as the object it is. *)
  rs_clone_policy : option jsval
}.

Record RunProvision := {
  pv_kind : RunWorkspaceKind;
  pv_run_id : string;
  pv_account_id : string;
  pv_workspace_folder : string;
  pv_checkout_mode : CheckoutMode;
  pv_repo : option RunRepoSpec
}.

Record ProjectRow := {
  pj_id : string;
  pj_account_id : string;
  pj_repo_url : string;
  pj_default_branch : string;
  pj_credential_id : option string;
  pj_clone_policy : option string
}.

Section server.
(** The tables the server looks things up in: projects, the decrypted git
    credentials an account may use, and the clone policy it resolves for a project. *)
Context (projects : list ProjectRow) (git_credential : string → string → option RepoCredential)
        (clone_policy : option string → string → option jsval).

Definition getInAccount (id accountId : string) : option ProjectRow :=
  if negb (truthy id) || negb (truthy accountId) then None
  else match List.find (λ p, String.eqb (pj_id p) id) projects with
       | Some p => if String.eqb (pj_account_id p) accountId then Some p else None
       | None => None
       end.

(** [a || b || undefined] *)
Definition first_text (a : option string) (b : string) : option string :=
  match a with
  | Some s => if truthy s then Some s else if truthy b then Some b else None
  | None => if truthy b then Some b else None
  end.

Definition resolveRunRepo (repoRef : jsval) (accountId : string) : option RunRepoSpec :=
  match normalizeRepoRef repoRef with
  | None => None
  | Some ref =>
      match rr_url ref with
      | Some url => Some {| rs_url := url; rs_branch := rr_branch ref; rs_credential := None; rs_clone_policy := None |}
      | None =>
          match rr_project_id ref with
          | None => None
          | Some id =>
              match getInAccount id accountId with
              | None => None
              | Some project =>
                  let url := trim (pj_repo_url project) in
                  if negb (truthy url) then None
                  else Some {| rs_url := url;
                               rs_branch := first_text (rr_branch ref) (trim (pj_default_branch project));
                               rs_credential := match pj_credential_id project with
                                                | Some c => if truthy c then git_credential c accountId else None
                                                | None => None
                                                end;
                               rs_clone_policy := clone_policy (pj_clone_policy project) accountId |}
              end
          end
      end
  end.

Definition buildRunProvision (kind : RunWorkspaceKind) (id runId accountId workspaceFolder : string)
    (repoRef checkoutMode : jsval) : RunProvision :=
  {| pv_kind := kind; pv_run_id := runId; pv_account_id := accountId;
     pv_workspace_folder := resolveWorkspaceFolder (JStr workspaceFolder) kind id;
     pv_checkout_mode := normalizeCheckoutMode checkoutMode;
     pv_repo := resolveRunRepo repoRef accountId |}.

(** What [dispatchStep] sends with a step; nothing when the mission's folder scope
    is shared. *)
Definition step_provision (folderScope : MemberFolderScope) (accountId workspace_folder mission_id step_id step_key : string)
    (repoRef checkoutMode : jsval) : option RunProvision :=
  match folderScope with
  | shared => None
  | isolated =>
      let missionLeaf := if truthy workspace_folder then workspace_folder else slice 8 mission_id in
      Some (buildRunProvision kind_orchestration step_id step_id accountId
              (join_with "/" [missionLeaf; step_key]) repoRef checkoutMode)
  end.
End server.

(** ** On the wire *)

Definition text_field (key : string) (o : option string) : list (string * jsval) :=
  match o with Some s => [(key, JStr s)] | None => [] end.

Definition credential_json (c : RepoCredential) : jsval :=
  JObj (text_field "username" (rc_username c) ++ [("token", JStr (rc_token c))]).

Definition repo_json (r : RunRepoSpec) : jsval :=
  JObj ([("url", JStr (rs_url r))] ++ text_field "branch" (rs_branch r)
        ++ match rs_credential r with Some c => [("credential", credential_json c)] | None => [] end
        ++ match rs_clone_policy r with Some p => [("clone_policy", p)] | None => [] end).

Definition checkout_string (m : CheckoutMode) : string :=
  match m with checkout_fresh => "fresh" | checkout_reuse => "reuse" end.

(** The provision as [JSON.stringify] writes it; absent fields are left out. *)
Definition provision_json (p : RunProvision) : jsval :=
  JObj [("kind", JStr (kind_string (pv_kind p))); ("run_id", JStr (pv_run_id p));
        ("account_id", JStr (pv_account_id p)); ("workspace_folder", JStr (pv_workspace_folder p));
        ("checkout_mode", JStr (checkout_string (pv_checkout_mode p)));
        ("repo", match pv_repo p with Some r => repo_json r | None => JNull end)].

Definition RUN_PROVISION_KINDS : list RunWorkspaceKind :=
  [kind_qa; kind_security; kind_action; kind_chat; kind_orchestration].

(** [typeof v === 'string' ? v : ''] *)
Definition string_or_empty (v : jsval) : string := match v with JStr s => s | _ => "" end.

Definition parse_kind (v : jsval) : option RunWorkspaceKind :=
  match v with
  | JStr s => List.find (λ k, String.eqb (kind_string k) s) RUN_PROVISION_KINDS
  | _ => None
  end.

(** [typeof v === 'string' && v.trim()] *)
Definition text_of (v : jsval) : option string :=
  match v with JStr s => if truthy (trim s) then Some s else None | _ => None end.

Definition parseRepoCredential (raw : jsval) : option RepoCredential :=
  match raw with
  | JObj _ | JArr _ =>
      match text_of (prop raw "token") with
      | Some token => Some {| rc_username := text_of (prop raw "username"); rc_token := token |}
      | None => None
      end
  | _ => None
  end.

Definition parse_repo (r : jsval) : option RunRepoSpec :=
  match r with
  | JObj _ | JArr _ =>
      match text_of (prop r "url") with
      | Some url => Some {| rs_url := trim url; rs_branch := trim <$> text_of (prop r "branch");
                            rs_credential := parseRepoCredential (prop r "credential"); rs_clone_policy := None |}
      | None => None
      end
  | _ => None
  end.

Definition parseRunProvision (raw : jsval) : option RunProvision :=
  match raw with
  | JObj _ | JArr _ =>
      let run_id := string_or_empty (prop raw "run_id") in
      let account_id := string_or_empty (prop raw "account_id") in
      let folder := string_or_empty (prop raw "workspace_folder") in
      match parse_kind (prop raw "kind") with
      | None => None
      | Some kind =>
          if truthy run_id && truthy account_id && truthy folder then
            Some {| pv_kind := kind; pv_run_id := run_id; pv_account_id := account_id;
                    pv_workspace_folder := folder;
                    pv_checkout_mode := normalizeCheckoutMode (prop raw "checkout_mode");
                    pv_repo := parse_repo (prop raw "repo") |}
          else None
      end
  | _ => None
  end.

(** ** Programs over the host's disk *)

(** The calls of the provisioner; a path is the string it passes. *)
Inductive FsOp : Type :=
  | op_exists (path : string)
  | op_wipe (dir : string)
  | op_mkdir (dir : string)
  | op_touch (dir : string)
  | op_manifest (kindRoot : string)
  | op_lock_stat (gitDir : string)
  | op_lock_remove (gitDir : string)
  | op_credential (dir : string)
  | op_git (dir : string) (args : list string)
  | op_clone (dir url : string) (branch : option string).

(** The host answers a call from everything that was called before it. *)
Record Host := {
  (** the call succeeded; for [op_exists], something is there *)
  h_ok : list FsOp → FsOp → bool;
  (** the message of a git call that failed names [index.lock] *)
  h_names_lock : list FsOp → bool;
  (** the age in milliseconds of [index.lock], where there is one *)
  h_lock_age : list FsOp → option Z
}.

Inductive note : Type := waited_for_folder | recovered_lock.

Inductive prov_error : Type :=
  | path_traversal
  | call_failed (op : FsOp)
  | fetch_failed
  | checkout_failed
  | clone_failed.

Record Work := { wk_trace : list FsOp; wk_notes : list note }.

Definition Prov (A : Type) : Type := Host → Work → res prov_error A * Work.

#[export] Instance Prov_ret : MRet Prov := λ A a h w, (Ok a, w).
#[export] Instance Prov_bind : MBind Prov := λ A B k m h w,
  match m h w with
  | (Ok a, w') => k a h w'
  | (Err e, w') => (Err e, w')
  end.

Definition throw_prov {A} (e : prov_error) : Prov A := λ h w, (Err e, w).
Definition call_op (op : FsOp) : Prov bool := λ h w,
  (Ok (h_ok h (wk_trace w) op), w<|wk_trace ::= λ t, t ++ [op]|>).
(** A call whose failure is an exception. *)
Definition must (op : FsOp) : Prov () :=
  ok ← call_op op; if (ok : bool) then mret tt else throw_prov (call_failed op).
(** A call whose failure is ignored. *)
Definition attempt (op : FsOp) : Prov () := _ ← call_op op; mret tt.
Definition ask {A} (f : Host → list FsOp → A) : Prov A := λ h w, (Ok (f h (wk_trace w)), w).
Definition add_note (n : note) : Prov () := λ h w, (Ok tt, w<|wk_notes ::= λ l, l ++ [n]|>).

Definition STALE_INDEX_LOCK_MS : Z := 10000.

Definition recoverStaleIndexLock (gitDir : string) (blocking : bool) : Prov bool :=
  attempt (op_lock_stat gitDir);;
  age ← ask h_lock_age;
  match age with
  | None => mret false
  | Some age =>
      if blocking || (STALE_INDEX_LOCK_MS <=? age) then
        ok ← call_op (op_lock_remove gitDir);
        if (ok : bool) then add_note recovered_lock;; mret true else mret false
      else mret false
  end.

Definition gitWithLockRecovery (dir : string) (args : list string) (gitDir : string) : Prov bool :=
  ok ← call_op (op_git dir args);
  if (ok : bool) then mret true
  else
    blamed ← ask h_names_lock;
    if (blamed : bool) then
      recovered ← recoverStaleIndexLock gitDir true;
      if (recovered : bool) then call_op (op_git dir args) else mret false
    else mret false.

(** ** The provisioner *)

Record RunProvisionResult := {
  rr_ok : bool; rr_dir : string; rr_notes : list note; rr_error : option prov_error
}.

Section manager.
(** The manager's home directory, and the directory it runs in. *)
Context (AGENT_MANAGER_HOME cwd : string).

Definition runFolderRoot (baseWorkingDir : string) : string :=
  if truthy (trim baseWorkingDir) then baseWorkingDir else AGENT_MANAGER_HOME.

Definition resolveRunFolder (p : RunProvision) (baseWorkingDir : string) : string :=
  resolve cwd (join (runFolderRoot baseWorkingDir) (strip_leading (pv_workspace_folder p))).

(** [dirname] of an absolute path as [join] writes it. *)
Definition dirname (path : string) : string := path_of (removelast (path_segments path)).

Definition recordManifestLeaf (kind : RunWorkspaceKind) (root : string) : Prov () :=
  match kind with
  | kind_action | kind_chat | kind_orchestration =>
      attempt (op_manifest (join (join root ".awb") (kind_root kind)))
  | kind_qa | kind_security => mret tt
  end.

(** An existing clone is brought up to date. *)
Definition update_clone (dir gitDir : string) (repo : RunRepoSpec) : Prov () :=
  attempt (op_touch dir);;
  _ ← recoverStaleIndexLock gitDir false;
  must (op_credential dir);;
  fetched ← gitWithLockRecovery dir ["fetch"; "--all"; "--prune"] gitDir;
  (if (fetched : bool) then mret tt else throw_prov fetch_failed);;
  match rs_branch repo with
  | Some branch =>
      if truthy branch then
        co ← gitWithLockRecovery dir ["checkout"; branch] gitDir;
        if (co : bool) then mret tt else throw_prov checkout_failed
      else mret tt
  | None => mret tt
  end;;
  _ ← gitWithLockRecovery dir ["pull"; "--ff-only"] gitDir;
  mret tt.

(** A clone is made where there is none. *)
Definition make_clone (dir : string) (mode : CheckoutMode) (repo : RunRepoSpec) : Prov () :=
  match mode with
  | checkout_reuse =>
      there ← call_op (op_exists dir);
      if (there : bool) then must (op_wipe dir) else mret tt
  | checkout_fresh => mret tt
  end;;
  must (op_mkdir (dirname dir));;
  cloned ← call_op (op_clone dir (rs_url repo) (rs_branch repo));
  if (cloned : bool) then mret tt else throw_prov clone_failed.

(** What runs under the folder's lock. *)
Definition prepare_folder (p : RunProvision) (root dir : string) : Prov () :=
  match pv_checkout_mode p with checkout_fresh => must (op_wipe dir) | checkout_reuse => mret tt end;;
  match pv_repo p with
  | None => must (op_mkdir dir)
  | Some repo =>
      let gitDir := join dir ".git" in
      haveClone ← match pv_checkout_mode p with
                  | checkout_reuse => call_op (op_exists gitDir)
                  | checkout_fresh => mret false
                  end;
      if (haveClone : bool) then update_clone dir gitDir repo
      else make_clone dir (pv_checkout_mode p) repo
  end;;
  attempt (op_touch dir);;
  recordManifestLeaf (pv_kind p) root.

Definition provisionRunWorkspace (p : RunProvision) (baseWorkingDir : string) (wasBusy : bool) (h : Host)
    : RunProvisionResult * list FsOp :=
  let root := runFolderRoot baseWorkingDir in
  let dir := join root (strip_leading (pv_workspace_folder p)) in
  if negb (startsWith (resolve cwd root +:+ "/") (resolve cwd dir)) then
    ({| rr_ok := false; rr_dir := resolve cwd dir; rr_notes := []; rr_error := Some path_traversal |}, [])
  else
    let '(r, w) := prepare_folder p root dir h
                     {| wk_trace := []; wk_notes := if wasBusy then [waited_for_folder] else [] |} in
    ({| rr_ok := is_Ok r; rr_dir := dir; rr_notes := wk_notes w;
        rr_error := match r with Ok _ => None | Err e => Some e end |}, wk_trace w).
End manager.
