(* ===== verification/ProvisionFacts.v ===== *)
(** * What preparing a step's folder guarantees

    The provisioner of [RunProvisioner] touches nothing outside its root, wipes no
    clone it was to reuse, reports a folder as ready only when the repository is
    checked out there; and the folders of isolated steps, from the mission's row to
    the host's disk, are where the mission shows them and apart from each other. *)

From S2P Require Import Prelude JsStd Vocabulary Roster WorkFolder RunProvisioner.
#[local] Open Scope Z_scope.

(** ** Traces *)

Section traces.
(** From here on, [m] makes only calls [P] holds of. *)
Definition leaves (P : FsOp → Prop) {A} (m : Prov A) (h : Host) (w : Work) : Prop :=
  ∃ ops, wk_trace (m h w).2 = wk_trace w ++ ops ∧ ∀ op, op ∈ ops → P op.

(** Whatever the host answers, [m] makes only calls [P] holds of. *)
Definition touches (P : FsOp → Prop) {A} (m : Prov A) : Prop := ∀ h w, leaves P m h w.

Context (P : FsOp → Prop).

Lemma touches_nothing {A} (m : Prov A) : (∀ h w, wk_trace (m h w).2 = wk_trace w) → touches P m.
Proof. intros H h w. exists []. rewrite H, app_nil_r. split; [done|]. intros op Hop. inversion Hop. Qed.

Lemma touches_ret {A} (a : A) : touches P (mret a).
Proof. by apply touches_nothing. Qed.

Lemma touches_throw {A} e : touches P (throw_prov (A := A) e).
Proof. by apply touches_nothing. Qed.

Lemma touches_ask {A} (f : Host → list FsOp → A) : touches P (ask f).
Proof. by apply touches_nothing. Qed.

Lemma touches_note n : touches P (add_note n).
Proof. by apply touches_nothing. Qed.

Lemma touches_call op : P op → touches P (call_op op).
Proof.
  intros H h w. exists [op]. split; [done|]. by intros o ->%list_elem_of_singleton.
Qed.

Lemma leaves_bind {A B} (m : Prov A) (k : A → Prov B) h w :
  leaves P m h w → (∀ a w', m h w = (Ok a, w') → leaves P (k a) h w') → leaves P (m ≫= k) h w.
Proof.
  intros (ops & E & Ho) Hk. unfold leaves, mbind, Prov_bind.
  destruct (m h w) as [[a|e] w']; simpl in E; [|by exists ops].
  destruct (Hk a w' eq_refl) as (ops' & E' & Ho'). exists (ops ++ ops'). rewrite E', E, app_assoc. split; [done|].
  intros op [?|?]%elem_of_app; auto.
Qed.

Lemma touches_bind {A B} (m : Prov A) (k : A → Prov B) :
  touches P m → (∀ a, touches P (k a)) → touches P (m ≫= k).
Proof. intros Hm Hk h w. apply leaves_bind; [apply Hm|]. intros a w' _. apply Hk. Qed.

Lemma touches_must op : P op → touches P (must op).
Proof.
  intros H. apply touches_bind; [by apply touches_call|]. intros []; [apply touches_ret|apply touches_throw].
Qed.

Lemma touches_attempt op : P op → touches P (attempt op).
Proof. intros H. apply touches_bind; [by apply touches_call|]. intros a. apply touches_ret. Qed.
End traces.

Create HintDb touches_db.
#[export] Hint Resolve touches_ret touches_throw touches_ask touches_note touches_call touches_must
  touches_attempt : touches_db.

(** Walks through a program, leaving what its calls touch. *)
Ltac touching :=
  repeat first
    [ apply touches_ret | apply touches_throw | apply touches_ask | apply touches_note
    | apply touches_call | apply touches_must | apply touches_attempt
    | apply touches_bind; [|intros ?]
    | match goal with |- touches _ (match ?x with _ => _ end) => destruct x end ].

(** ** What lies inside a root *)

Section facts.
Context (HOME cwd : string).

(** A call stays inside: whatever it reads, writes or removes lies strictly below
    the root; only the directory a clone is put into may be the root itself. *)
Definition inside (root : string) (op : FsOp) : Prop :=
  match op with
  | op_mkdir dir => below cwd root dir ∨ resolved cwd dir = resolved cwd root
  | op_exists path | op_wipe path | op_touch path | op_manifest path | op_lock_stat path
  | op_lock_remove path | op_credential path | op_git path _ | op_clone path _ _ => below cwd root path
  end.

Lemma fine_truthy b : fine_segment b → path_segments b = [b].
Proof. intros H. apply (path_segments_of [b]). by intros w ->%list_elem_of_singleton. Qed.

Lemma resolved_child a b : truthy a = true → good_segment b → resolved cwd (join a b) = resolved cwd a ++ [b].
Proof.
  intros Ha Hb. destruct (good_fine b Hb) as [Hf Hd]. rewrite resolved_join by done.
  rewrite fine_truthy by done. apply climb_down. intros H%list_elem_of_singleton. congruence.
Qed.

Lemma below_child root dir b : truthy dir = true → good_segment b → below cwd root dir → below cwd root (join dir b).
Proof.
  intros Hd Hb (rest & N & E). exists (rest ++ [b]). split; [by destruct rest|].
  by rewrite resolved_child, E, app_assoc.
Qed.

Lemma normalize_truthy s : truthy (normalize s) = true.
Proof.
  unfold normalize. destruct (truthy s) eqn:Es; cbn [negb]; [|done]. destruct (isAbsolute s); [done|].
  destruct (join_with _ _) as [|c b]; cbn [truthy negb andb String.eqb]; by destruct (endsWith_slash s).
Qed.

Lemma join_truthy a b : truthy (join a b) = true.
Proof. unfold join. destruct (truthy a), (truthy b); cbn [negb]; try apply normalize_truthy. done. Qed.

Lemma normal_no_dots segs acc : ".." ∉ acc → ".." ∉ foldl (normal_step true) acc segs.
Proof.
  revert acc. induction segs as [|v segs IH]; intros acc Ha; [done|]. cbn [foldl]. apply IH.
  unfold normal_step. destruct (String.eqb_spec v "..") as [->|N].
  - destruct acc as [|a acc'] eqn:Ea; [done|]. rewrite <- Ea in *.
    destruct (exists_last (l := acc) ltac:(congruence)) as (l & x & E). rewrite E in *. rewrite last_last.
    destruct (String.eqb_spec x "..") as [->|].
    + exfalso. apply Ha. apply elem_of_app. right. apply list_elem_of_here.
    + rewrite removelast_last. intros H. apply Ha. apply elem_of_app. by left.
  - intros [?|H]%elem_of_app; [done|]. apply list_elem_of_singleton in H. congruence.
Qed.

Lemma join_absolute a b : isAbsolute a = true →
  isAbsolute (join a b) = true ∧ ".." ∉ path_segments (join a b).
Proof.
  intros Ha. assert (Ht : truthy a = true) by (by destruct a).
  assert (Hn : ∀ s, isAbsolute s = true → isAbsolute (normalize s) = true ∧ ".." ∉ path_segments (normalize s)).
  { intros s Hs. rewrite isAbsolute_normalize, path_segments_normalize, Hs. split; [done|].
    apply normal_no_dots. intros H. inversion H. }
  unfold join. rewrite Ht. cbn [negb]. destruct (truthy b); cbn [negb]; apply Hn; [|done].
  by destruct a.
Qed.

Lemma resolved_plain s : isAbsolute s = true → ".." ∉ path_segments s → resolved cwd s = path_segments s.
Proof. intros Ha H. unfold resolved. rewrite Ha. by apply climb_down. Qed.

Lemma resolved_dirname a b : isAbsolute a = true →
  resolved cwd (dirname (join a b)) = removelast (resolved cwd (join a b)).
Proof.
  intros Ha. destruct (join_absolute a b Ha) as [Hj Hd]. rewrite (resolved_plain (join a b)) by done.
  set (segs := path_segments (join a b)) in *.
  assert (Hsub : ∀ w, w ∈ removelast segs → w ∈ segs).
  { intros w Hw. destruct (decide (segs = [])) as [E|N]; [by rewrite E in Hw; inversion Hw|].
    rewrite (app_removelast_last "" N). apply elem_of_app. by left. }
  unfold dirname. fold segs. rewrite resolved_plain; [| by destruct (removelast segs) as [|w ws]|];
    rewrite path_of_segments; try done; try (intros w Hw; apply (path_segments_fine (join a b)); by apply Hsub).
  intros H. by apply Hd, Hsub.
Qed.

Lemma inside_dirname root b : isAbsolute root = true → below cwd root (join root b) →
  inside root (op_mkdir (dirname (join root b))).
Proof.
  intros Ha (rest & N & E). unfold inside, below. rewrite resolved_dirname, E by done.
  destruct (exists_last N) as (l & x & ->). rewrite app_assoc, removelast_last.
  destruct l as [|y l]; [right; by rewrite app_nil_r|]. left. by exists (y :: l).
Qed.

Lemma good_name w : plain_segment w && all_chars (λ c, negb (is_separator c)) w = true → good_segment w.
Proof. by intros [? ?]%andb_true_iff. Qed.

Lemma manifest_inside kind root : truthy root = true → touches (inside root) (recordManifestLeaf kind root).
Proof.
  intros Hr. unfold recordManifestLeaf. touching.
  all: unfold inside, below; rewrite !resolved_child by (done || apply join_truthy || by apply good_name); rewrite <- app_assoc; eexists; (split; [|reflexivity]; done).
Qed.

Lemma prepare_inside p root b : isAbsolute root = true → below cwd root (join root b) →
  touches (inside root) (prepare_folder p root (join root b)).
Proof.
  intros Ha Hb. assert (Hd : truthy (join root b) = true) by apply join_truthy.
  assert (Hr : truthy root = true) by (by destruct root).
  assert (Hg : below cwd root (join (join root b) ".git")) by (apply below_child; [done|by apply good_name|done]).
  unfold prepare_folder. touching; try done;
    first [exact Hg | by left | by apply inside_dirname | by apply manifest_inside].
Qed.
End facts.

(** C36: The provisioner stays inside its root: whatever folder the wire names — dots,
    backslashes and absolute paths included — and however the host answers, every
    file-system and git call of a provisioning concerns a path strictly below the
    agent's working directory (the manager's home where there is none); only the
    directory a clone is put into may be that directory itself.  In particular it
    never wipes the working directory or anything outside it.  Where the folder
    leads out, nothing is called at all. *)
Theorem provisioning_stays_inside HOME cwd p base busy h :
  isAbsolute (runFolderRoot HOME base) = true →
  let '(r, trace) := provisionRunWorkspace HOME cwd p base busy h in
  (∀ op, op ∈ trace → inside cwd (runFolderRoot HOME base) op) ∧
  (¬ below cwd (runFolderRoot HOME base) (join (runFolderRoot HOME base) (strip_leading (pv_workspace_folder p))) →
   rr_ok r = false ∧ trace = []).
Proof.
  intros Ha. unfold provisionRunWorkspace. set (root := runFolderRoot HOME base) in *.
  destruct (startsWith _ _) eqn:Es; cbn [negb]; [|split; [intros op H; inversion H|done]].
  apply startsWith_below in Es.
  destruct (prepare_inside cwd p root _ Ha Es h {| wk_trace := []; wk_notes := if busy then [waited_for_folder] else [] |})
    as (ops & E & Ho).
  destruct (prepare_folder _ _ _ _ _) as [r w]. simpl in E. split; [by rewrite E|done].
Qed.

Definition sample_repo : RunRepoSpec :=
  {| rs_url := "https://git/r"; rs_branch := Some "main"; rs_credential := None; rs_clone_policy := None |}.
Definition sample_provision (folder : string) (mode : CheckoutMode) : RunProvision :=
  {| pv_kind := kind_orchestration; pv_run_id := "s1"; pv_account_id := "acc"; pv_workspace_folder := folder;
     pv_checkout_mode := mode; pv_repo := Some sample_repo |}.
(** Every call succeeds; there is no lock. *)
Definition willing_host : Host :=
  {| h_ok := λ _ _, true; h_names_lock := λ _, false; h_lock_age := λ _, None |}.

Lemma provisioning_stays_inside_witness :
  let '(r, trace) := provisionRunWorkspace "/home/awb" "/" (sample_provision ".awb/orch/m/../build" checkout_fresh)
                       "/srv/p" false willing_host in
  (trace = [op_wipe "/srv/p/.awb/orch/build"; op_mkdir "/srv/p/.awb/orch";
            op_clone "/srv/p/.awb/orch/build" "https://git/r" (Some "main");
            op_touch "/srv/p/.awb/orch/build"; op_manifest "/srv/p/.awb/orch"]) ∧
  (∀ op, op ∈ trace → inside "/" "/srv/p" op).
Proof.
  pose proof (provisioning_stays_inside "/home/awb" "/" (sample_provision ".awb/orch/m/../build" checkout_fresh)
                "/srv/p" false willing_host eq_refl) as H.
  destruct (provisionRunWorkspace _ _ _ _ _ _) as [r trace] eqn:E. vm_compute in E. injection E as <- <-.
  split; [reflexivity|]. apply H.
Defined.

(** ** Ready means checked out *)

(** The call was made, and the host answered that it went well. *)
Definition done_ok (h : Host) (trace : list FsOp) (op : FsOp) : Prop :=
  ∃ before after, trace = before ++ op :: after ∧ h_ok h before op = true.

Lemma done_ok_grows h t ops op : done_ok h t op → done_ok h (t ++ ops) op.
Proof. intros (b & a & -> & H). exists b, (a ++ ops). by rewrite <- app_assoc. Qed.

Lemma Prov_bind_Ok {A B} (m : Prov A) (k : A → Prov B) h w b w' :
  (m ≫= k) h w = (Ok b, w') → ∃ a w1, m h w = (Ok a, w1) ∧ k a h w1 = (Ok b, w').
Proof.
  unfold mbind, Prov_bind. destruct (m h w) as [[a|e] w1]; [|done]. intros H. by exists a, w1.
Qed.

Lemma grows_by {A} (m : Prov A) h w r w' :
  m h w = (r, w') → touches (λ _, True) m → ∃ ops, wk_trace w' = wk_trace w ++ ops.
Proof. intros E Hm. destruct (Hm h w) as (ops & Et & _). rewrite E in Et. by exists ops. Qed.

Lemma done_ok_after {A} (m : Prov A) h w r w' op :
  touches (λ _, True) m → m h w = (r, w') → done_ok h (wk_trace w) op → done_ok h (wk_trace w') op.
Proof.
  intros Hm [ops ->]%grows_by H; [by apply done_ok_grows|done].
Qed.

Lemma call_ok op h w w' : call_op op h w = (Ok true, w') → done_ok h (wk_trace w') op.
Proof.
  unfold call_op. intros E. assert (h_ok h (wk_trace w) op = true) as H by congruence.
  injection E as _ <-. exists (wk_trace w), []. by split.
Qed.

Lemma must_ok op h w w' u : must op h w = (Ok u, w') → done_ok h (wk_trace w') op.
Proof.
  unfold must. intros (ok & w1 & E & H)%Prov_bind_Ok. destruct ok; [|done]. injection H as _ <-. by eapply call_ok.
Qed.

Lemma git_ok dir args gitDir h w w' :
  gitWithLockRecovery dir args gitDir h w = (Ok true, w') → done_ok h (wk_trace w') (op_git dir args).
Proof.
  unfold gitWithLockRecovery. intros (ok & w1 & E & H)%Prov_bind_Ok. destruct ok.
  { injection H as <-. by eapply call_ok. }
  apply Prov_bind_Ok in H as (blamed & w2 & _ & H). destruct blamed; [|done].
  apply Prov_bind_Ok in H as (recovered & w3 & _ & H). destruct recovered; [|done]. by eapply call_ok.
Qed.

Lemma update_ok dir gitDir repo h w w' u : update_clone dir gitDir repo h w = (Ok u, w') →
  done_ok h (wk_trace w') (op_git dir ["fetch"; "--all"; "--prune"]) ∧
  ∀ branch, rs_branch repo = Some branch → branch ≠ "" → done_ok h (wk_trace w') (op_git dir ["checkout"; branch]).
Proof.
  unfold update_clone. intros H. do 3 (apply Prov_bind_Ok in H as (? & ? & _ & H)).
  apply Prov_bind_Ok in H as (fetched & w1 & Ef & H). apply Prov_bind_Ok in H as (u1 & w2 & Hf & H).
  destruct fetched; [|done]. injection Hf as _ <-. apply git_ok in Ef.
  apply Prov_bind_Ok in H as (u2 & w3 & Ec & H). split.
  - eapply done_ok_after; [|exact H|]; [by touching|]. eapply done_ok_after; [|exact Ec|exact Ef]. by touching.
  - intros branch Hb Hne. rewrite Hb in Ec. apply truthy_true in Hne. rewrite Hne in Ec.
    apply Prov_bind_Ok in Ec as (co & w4 & Eco & Hco). destruct co; [|done]. injection Hco as _ <-.
    eapply done_ok_after; [|exact H|by apply git_ok in Eco]. by touching.
Qed.

Lemma make_ok dir mode repo h w w' u : make_clone dir mode repo h w = (Ok u, w') →
  done_ok h (wk_trace w') (op_clone dir (rs_url repo) (rs_branch repo)).
Proof.
  unfold make_clone. intros H. do 2 (apply Prov_bind_Ok in H as (? & ? & _ & H)).
  apply Prov_bind_Ok in H as (cloned & w1 & E & H). destruct cloned; [|done]. injection H as _ <-. by eapply call_ok.
Qed.

(** Ready means checked out: a folder with a repository is reported as ready
    only when, on a host that answers in any way, the repository was cloned into it
    — after the folder was wiped, where a fresh checkout was asked for — or an
    existing clone was fetched and its branch checked out. *)
Theorem ready_is_checked_out HOME cwd p base busy h repo :
  pv_repo p = Some repo → (provisionRunWorkspace HOME cwd p base busy h).1.(rr_ok) = true →
  let '(r, trace) := provisionRunWorkspace HOME cwd p base busy h in
  let dir := rr_dir r in
  (done_ok h trace (op_clone dir (rs_url repo) (rs_branch repo)) ∧
   (pv_checkout_mode p = checkout_fresh → ∃ rest, trace = op_wipe dir :: rest ∧ h_ok h [] (op_wipe dir) = true)) ∨
  (pv_checkout_mode p = checkout_reuse ∧ done_ok h trace (op_git dir ["fetch"; "--all"; "--prune"]) ∧
   ∀ branch, rs_branch repo = Some branch → branch ≠ "" → done_ok h trace (op_git dir ["checkout"; branch])).
Proof.
  intros Hr. unfold provisionRunWorkspace. destruct (startsWith _ _); cbn [negb]; [|by intros [=]].
  set (dir := join _ _). set (w0 := {| wk_trace := []; wk_notes := _ |}).
  destruct (prepare_folder p _ dir h w0) as [[u|e] w] eqn:E; [|done]. intros _. simpl.
  unfold prepare_folder in E. rewrite Hr in E. apply Prov_bind_Ok in E as (u1 & w1 & E1 & E).
  apply Prov_bind_Ok in E as (u2 & w2 & E2 & E).
  apply Prov_bind_Ok in E2 as (haveClone & w3 & E3 & E2).
  assert (Hlast : ∀ op, done_ok h (wk_trace w2) op → done_ok h (wk_trace w) op).
  { intros op. eapply done_ok_after; [|exact E]. unfold recordManifestLeaf. by touching. }
  destruct haveClone.
  - right. destruct (pv_checkout_mode p); [|done]. apply update_ok in E2 as [Hf Hc]. split_and!; auto.
  - left. pose proof (make_ok _ _ _ _ _ _ _ E2) as Hc. split; [by apply Hlast|]. intros Hm. rewrite Hm in *.
    unfold must in E1. apply Prov_bind_Ok in E1 as (ok & w4 & E4 & E1). destruct ok; [|done].
    injection E1 as _ <-. injection E3 as <-. unfold call_op in E4. assert (Hok : h_ok h [] (op_wipe dir) = true) by (subst w0; simpl in E4; congruence).
    injection E4 as _ <-. simpl in E2.
    apply grows_by in E2 as [ops1 Ht1]; [|by touching]. apply grows_by in E as [ops2 Ht2]; [|unfold recordManifestLeaf; by touching].
    exists (ops1 ++ ops2). split; [|done]. by rewrite Ht2, Ht1.
Qed.

(** A host whose clone is there but whose branch is gone. *)
Definition branchless_host : Host :=
  {| h_ok := λ _ op, match op with op_git _ ("checkout" :: _) => false | _ => true end;
     h_names_lock := λ _, false; h_lock_age := λ _, None |}.

Lemma ready_is_checked_out_witness :
  let p := sample_provision ".awb/orch/m/build" checkout_reuse in
  let '(r, trace) := provisionRunWorkspace "/home/awb" "/" p "/srv/p" false willing_host in
  rr_error (provisionRunWorkspace "/home/awb" "/" p "/srv/p" false branchless_host).1 = Some checkout_failed ∧
  (done_ok willing_host trace (op_clone (rr_dir r) "https://git/r" (Some "main")) ∧
   (checkout_reuse = checkout_fresh → ∃ rest, trace = op_wipe (rr_dir r) :: rest ∧ h_ok willing_host [] (op_wipe (rr_dir r)) = true) ∨
   checkout_reuse = checkout_reuse ∧ done_ok willing_host trace (op_git (rr_dir r) ["fetch"; "--all"; "--prune"]) ∧
   ∀ branch, Some "main" = Some branch → branch ≠ "" → done_ok willing_host trace (op_git (rr_dir r) ["checkout"; branch])).
Proof.
  cbv zeta.
  pose proof (ready_is_checked_out "/home/awb" "/" (sample_provision ".awb/orch/m/build" checkout_reuse) "/srv/p" false
                willing_host sample_repo eq_refl ltac:(vm_compute; reflexivity)) as H.
  destruct (provisionRunWorkspace _ _ _ _ _ willing_host) as [r trace]. split; [vm_compute; reflexivity|]. exact H.
Defined.

(** A reused clone survives: where the folder already holds a clone and the run
    reuses it, the provisioner neither wipes the folder nor clones over it, however
    the git calls on it end. *)
Theorem reused_clones_survive HOME cwd p base busy h repo dir :
  pv_repo p = Some repo → pv_checkout_mode p = checkout_reuse →
  dir = join (runFolderRoot HOME base) (strip_leading (pv_workspace_folder p)) →
  h_ok h [] (op_exists (join dir ".git")) = true →
  ∀ op, op ∈ (provisionRunWorkspace HOME cwd p base busy h).2 →
  match op with op_wipe _ | op_clone _ _ _ => False | _ => True end.
Proof.
  intros Hr Hm -> Hg op. unfold provisionRunWorkspace. destruct (startsWith _ _); cbn [negb]; [|intros H; inversion H].
  set (dir := join (runFolderRoot HOME base) _) in *. set (w0 := {| wk_trace := []; wk_notes := _ |}).
  set (P := λ op, match op with op_wipe _ | op_clone _ _ _ => False | _ => True end).
  enough (leaves P (prepare_folder p (runFolderRoot HOME base) dir) h w0) as (ops & E & H).
  { destruct (prepare_folder _ _ _ h w0) as [r w]. simpl in E |- *. rewrite E. apply H. }
  unfold prepare_folder. rewrite Hr, Hm. apply leaves_bind; [by apply touches_ret|]. intros u w1 [= _ <-].
  apply leaves_bind; [apply leaves_bind; [by apply touches_call|]|].
  - intros haveClone w2 E. unfold call_op in E. injection E as <- <-. rewrite Hg.
    assert (touches P (update_clone dir (join dir ".git") repo)) as H by (unfold update_clone; by touching). apply H.
  - intros u2 w2 _.
    assert (touches P (attempt (op_touch dir);; recordManifestLeaf (pv_kind p) (runFolderRoot HOME base))) as H
      by (unfold recordManifestLeaf; by touching). apply H.
Qed.

Lemma reused_clones_survive_witness :
  let p := sample_provision ".awb/orch/m/build" checkout_reuse in
  ∃ trace, (provisionRunWorkspace "/home/awb" "/" p "/srv/p" false branchless_host).2 = trace ∧ trace ≠ [] ∧
  op_wipe "/srv/p/.awb/orch/m/build" ∉ trace.
Proof.
  cbv zeta. eexists. split; [reflexivity|]. split; [vm_compute; discriminate|]. intros H.
  exact (reused_clones_survive "/home/awb" "/" (sample_provision ".awb/orch/m/build" checkout_reuse) "/srv/p" false
           branchless_host sample_repo "/srv/p/.awb/orch/m/build" eq_refl eq_refl eq_refl eq_refl _ H).
Defined.

(** ** From the server to the host *)

(** What a provision loses on the wire. *)
Definition without_policy (p : RunProvision) : RunProvision :=
  p<|pv_repo ::= fmap (λ r, r<|rs_clone_policy := None|>)|>.

Section wire.
Context (projects : list ProjectRow) (git_credential : string → string → option RepoCredential)
        (clone_policy : option string → string → option jsval).
(** Credentials hold a token, and no blank names. *)
Context (Hcredentials : ∀ id account c, git_credential id account = Some c →
  truthy (trim (rc_token c)) = true ∧ ∀ u, rc_username c = Some u → truthy (trim u) = true).

Lemma trimmed_field_Some v s : trimmed_field v = Some s → trim s = s ∧ truthy s = true.
Proof.
  unfold trimmed_field. destruct (is_nullish v); [done|]. destruct (truthy _) eqn:E; [|done].
  intros [= <-]. by rewrite trim_idem.
Qed.

(** What a repository reference is resolved to is clean. *)
Definition repo_clean (r : RunRepoSpec) : Prop :=
  trim (rs_url r) = rs_url r ∧ truthy (rs_url r) = true ∧
  (∀ b, rs_branch r = Some b → trim b = b ∧ truthy b = true) ∧
  ∀ c, rs_credential r = Some c → truthy (trim (rc_token c)) = true ∧ ∀ u, rc_username c = Some u → truthy (trim u) = true.

Lemma normalizeRepoRef_clean v ref : normalizeRepoRef v = Some ref →
  (∀ s, rr_url ref = Some s → trim s = s ∧ truthy s = true) ∧
  (∀ s, rr_branch ref = Some s → trim s = s ∧ truthy s = true).
Proof.
  destruct v as [| | | | | |fields]; try done. cbn [normalizeRepoRef rr_project_id rr_url rr_branch].
  set (pid := trimmed_field _). set (url := trimmed_field _). set (branch := trimmed_field _).
  assert (∀ s, url = Some s → trim s = s ∧ truthy s = true) by (intros s; apply trimmed_field_Some).
  assert (∀ s, branch = Some s → trim s = s ∧ truthy s = true) by (intros s; apply trimmed_field_Some).
  destruct pid, url, branch; intros [= <-]; done.
Qed.

Lemma first_text_clean a b s : (∀ s, a = Some s → trim s = s ∧ truthy s = true) →
  first_text a (trim b) = Some s → trim s = s ∧ truthy s = true.
Proof using.
  intros Ha. unfold first_text. destruct a as [t|].
  - destruct (Ha t eq_refl) as [Ht ->]. intros [= <-]. by apply Ha.
  - destruct (truthy (trim b)) eqn:E; [|done]. intros [= <-]. by rewrite trim_idem.
Qed.

Lemma resolveRunRepo_clean v account r :
  resolveRunRepo projects git_credential clone_policy v account = Some r → repo_clean r.
Proof using Hcredentials.
  unfold resolveRunRepo. destruct (normalizeRepoRef v) as [ref|] eqn:Er; [|done].
  apply normalizeRepoRef_clean in Er as [Hu Hb]. destruct (rr_url ref) as [url|].
  { intros [= <-]. destruct (Hu url eq_refl). by split_and!. }
  destruct (rr_project_id ref) as [id|]; [|done]. destruct (getInAccount _ _ _) as [pj|]; [|done].
  destruct (truthy (trim (pj_repo_url pj))) eqn:Et; cbn [negb]; [|done]. intros [= <-]. split_and!; simpl.
  - by rewrite trim_idem.
  - done.
  - intros b. by apply first_text_clean.
  - intros c. destruct (pj_credential_id pj) as [cid|]; [|done]. destruct (truthy cid); [|done]. apply Hcredentials.
Qed.

Lemma text_of_clean s : truthy (trim s) = true → text_of (JStr s) = Some s.
Proof using. unfold text_of. by intros ->. Qed.

Lemma parse_repo_json r : repo_clean r → parse_repo (repo_json r) = Some (r<|rs_clone_policy := None|>).
Proof using.
  destruct r as [url branch cred policy]. intros (Hu & Ht & Hb & Hc). simpl in Hu, Ht, Hb, Hc.
  unfold repo_json. cbn [rs_url rs_branch rs_credential rs_clone_policy].
  set (fields := _ ++ _). assert (Eu : prop (JObj fields) "url" = JStr url) by done.
  assert (Eb : trim <$> text_of (prop (JObj fields) "branch") = branch).
  { destruct branch as [b|]; [|by destruct cred, policy]. destruct (Hb b eq_refl) as [Ebt Ebb].
    change (prop (JObj fields) "branch") with (JStr b). rewrite text_of_clean by (by rewrite Ebt).
    change (Some (trim b) = Some b). by rewrite Ebt. }
  assert (Ec : parseRepoCredential (prop (JObj fields) "credential") = cred).
  { destruct cred as [[u t]|]; [|by destruct branch, policy]. destruct (Hc _ eq_refl) as [Htok Hun].
    replace (prop (JObj fields) "credential") with (credential_json {| rc_username := u; rc_token := t |})
      by (by destruct branch). cbn [rc_token rc_username] in Htok, Hun.
    unfold credential_json, parseRepoCredential. cbn [rc_username rc_token].
    replace (prop _ "token") with (JStr t) by (by destruct u). rewrite text_of_clean by done. do 2 f_equal.
    destruct u as [u|]; [|done]. change (prop _ "username") with (JStr u). apply text_of_clean. by apply Hun. }
  unfold parse_repo. by rewrite Eu, Eb, Ec, text_of_clean, Hu by (by rewrite Hu).
Qed.

Lemma join_with_truthy w ws : truthy w = true → truthy (join_with "/" (w :: ws)) = true.
Proof using. destruct ws; [done|]. by destruct w. Qed.

(** A provision crosses the wire: the agent manager reads from the JSON the
    server sends exactly the provision the server built — kind, ids, folder, mode,
    the repository with its branch and credential — but for the clone policy, which
    it drops. *)
Theorem provision_crosses_the_wire kind id runId account folder repoRef mode :
  truthy runId = true → truthy account = true →
  let p := buildRunProvision projects git_credential clone_policy kind id runId account folder repoRef mode in
  parseRunProvision (provision_json p) = Some (without_policy p).
Proof using Hcredentials.
  intros Hr Ha. cbv zeta. set (p := buildRunProvision _ _ _ _ _ _ _ _ _ _).
  assert (Hk : parse_kind (JStr (kind_string kind)) = Some kind) by (by destruct kind).
  assert (Hf : truthy (pv_workspace_folder p) = true) by (by apply join_with_truthy; destruct kind).
  assert (Hm : normalizeCheckoutMode (JStr (checkout_string (pv_checkout_mode p))) = pv_checkout_mode p)
    by (by destruct (pv_checkout_mode p)).
  assert (Hrepo : parse_repo (match pv_repo p with Some r => repo_json r | None => JNull end)
                  = (λ r, r<|rs_clone_policy := None|>) <$> pv_repo p).
  { destruct (pv_repo p) as [r|] eqn:E; [|done]. by apply parse_repo_json, (resolveRunRepo_clean repoRef account). }
  unfold parseRunProvision, provision_json.
  change (prop (JObj _) "kind") with (JStr (kind_string kind)). rewrite Hk.
  change (prop (JObj _) "run_id") with (JStr runId). change (prop (JObj _) "account_id") with (JStr account).
  change (prop (JObj _) "workspace_folder") with (JStr (pv_workspace_folder p)).
  change (prop (JObj _) "checkout_mode") with (JStr (checkout_string (pv_checkout_mode p))).
  change (prop (JObj _) "repo") with (match pv_repo p with Some r => repo_json r | None => JNull end).
  cbn [string_or_empty]. by rewrite Hr, Ha, Hf, Hm, Hrepo.
Qed.
End wire.

Definition sample_projects : list ProjectRow :=
  [{| pj_id := "p1"; pj_account_id := "acc"; pj_repo_url := " https://git/r "; pj_default_branch := "main";
      pj_credential_id := Some "c1"; pj_clone_policy := None |}].
Definition sample_credential (_ _ : string) : option RepoCredential :=
  Some {| rc_username := None; rc_token := "t0k" |}.
Definition sample_policy (_ : option string) (_ : string) : option jsval :=
  Some (JObj [("clone_timeout_seconds", JNum (JInt 60))]).

Lemma provision_crosses_the_wire_witness :
  let p := buildRunProvision sample_projects sample_credential sample_policy kind_orchestration "s1" "s1" "acc" "m/build"
             (JObj [("project_id", JStr "p1")]) (JStr "fresh") in
  (rs_clone_policy <$> pv_repo p) = Some (sample_policy None "acc") ∧
  parseRunProvision (provision_json p) =
    Some {| pv_kind := kind_orchestration; pv_run_id := "s1"; pv_account_id := "acc";
            pv_workspace_folder := ".awb/orch/m/build"; pv_checkout_mode := checkout_fresh;
            pv_repo := Some {| rs_url := "https://git/r"; rs_branch := Some "main";
                               rs_credential := Some {| rc_username := None; rc_token := "t0k" |};
                               rs_clone_policy := None |} |}.
Proof.
  cbv zeta. split; [reflexivity|].
  rewrite (provision_crosses_the_wire sample_projects sample_credential sample_policy); [reflexivity| |reflexivity|reflexivity].
  intros id account c [= <-]. split; [reflexivity|]. by intros u.
Defined.

(** ** Folders of steps *)

Section folders.
Context (HOME cwd : string).

Lemma startsWith_prefix p t : startsWith p (p +:+ t) = true.
Proof.
  unfold startsWith. induction p as [|c p IH]; [by destruct t|].
  change (String c p +:+ t) with (String c (p +:+ t)). cbn [String.prefix].
  by destruct (ascii_dec c c).
Qed.

Lemma below_startsWith root dir :
  resolved cwd root ≠ [] → below cwd root dir → startsWith (resolve cwd root +:+ "/") (resolve cwd dir) = true.
Proof.
  intros Hr (rest & N & E). unfold resolve, path_of. rewrite E, join_with_app by done.
  replace ("/" +:+ join_with "/" (resolved cwd root) +:+ "/" +:+ join_with "/" rest)
    with ((("/" +:+ join_with "/" (resolved cwd root)) +:+ "/") +:+ join_with "/" rest)
    by (by rewrite !append_assoc).
  apply startsWith_prefix.
Qed.

(** A provisioning that is let through makes a call. *)
Lemma prepare_calls p root dir h w : wk_trace (prepare_folder p root dir h w).2 ≠ [].
Proof.
  assert (Hgrow : ∀ {A} (m : Prov A) op w1, touches (λ _, True) m → wk_trace (m h (w1<|wk_trace ::= λ t, t ++ [op]|>)).2 ≠ []).
  { intros A m op w1 Hm. destruct (Hm h (w1<|wk_trace ::= λ t, t ++ [op]|>)) as (ops & -> & _). simpl. by destruct (wk_trace w1). }
  assert (Hfirst : ∀ {A B} op (k : bool → Prov A) (k' : A → Prov B) w1, (∀ b, touches (λ _, True) (k b)) →
            (∀ a, touches (λ _, True) (k' a)) → wk_trace (((call_op op ≫= k) ≫= k') h w1).2 ≠ []).
  { intros A B op k k' w1 Hk Hk'. unfold mbind at 1, Prov_bind at 1. unfold mbind at 1, Prov_bind at 1. cbn [call_op].
    pose proof (Hgrow _ (k (h_ok h (wk_trace w1) op)) op w1 (Hk _)) as H1. destruct (k _ h _) as [[a|e] w2]; [|exact H1].
    destruct (Hk' a h w2) as (ops & -> & _). simpl in H1. by destruct (wk_trace w2). }
  unfold prepare_folder. destruct (pv_checkout_mode p).
  - unfold mbind at 1, Prov_bind at 1. cbn [mret Prov_ret]. destruct (pv_repo p) as [repo|].
    + apply Hfirst; [intros []; touching; done|]. intros a. unfold recordManifestLeaf. by touching.
    + apply Hfirst; [intros []; by touching|]. intros a. unfold recordManifestLeaf. by touching.
  - apply Hfirst; [intros []; by touching|]. intros a. unfold recordManifestLeaf. by touching.
Qed.

Definition step_segments (ws mid key : string) : list string := [".awb"; "orch"] ++ leaf_segments ws mid ++ [key].

Lemma step_segments_good ws mid key w : STEP_KEY_PATTERN key = true → w ∈ step_segments ws mid key → good_segment w.
Proof.
  intros [Hk _]%step_key_good [Hw|[Hw|Hw]%elem_of_app]%elem_of_app.
  - apply elem_of_cons in Hw as [->|Hw]; [by apply good_name|]. apply list_elem_of_singleton in Hw as ->. by apply good_name.
  - by eapply leaf_segments_good.
  - by apply list_elem_of_singleton in Hw as ->.
Qed.

Lemma step_folder_resolved root ws mid sid key : truthy root = true → STEP_KEY_PATTERN key = true →
  resolved cwd (join root (strip_leading (step_workspace_folder ws mid sid key)))
  = resolved cwd root ++ step_segments ws mid key.
Proof.
  intros Hr Hk. rewrite step_folder_form by done. fold (step_segments ws mid key).
  assert (Hs : strip_leading (join_with "/" (step_segments ws mid key)) = join_with "/" (step_segments ws mid key))
    by (unfold step_segments; by destruct (leaf_segments ws mid)). rewrite Hs.
  rewrite resolved_join, path_segments_of, climb_down; try done.
  - intros H. by destruct (good_fine _ (step_segments_good _ _ _ _ Hk H)).
  - intros w Hw. by destruct (good_fine _ (step_segments_good _ _ _ _ Hk Hw)).
Qed.

Lemma shown_is_resolved root ws mid key : truthy root = true → resolved cwd root ≠ [] → leaf_ok ws mid →
  path_of (resolved cwd root ++ step_segments ws mid key) = resolve cwd root +:+ "/" +:+ shown_step_folder ws mid key.
Proof.
  intros Hr N Hl. rewrite shown_folder_form by done. unfold path_of, resolve, path_of.
  rewrite join_with_app by done. by rewrite append_assoc.
Qed.
End folders.

(** An isolated step works where its mission says: the provision the server
    dispatches with the step arrives at the host, is let through, and is carried out
    in [<working directory>/.awb/orch/<mission's folder>/<step key>] — which is the
    folder the mission view shows for the step when the mission's stored folder is
    clean. *)
Theorem isolated_step_has_its_folder HOME cwd projects git_credential clone_policy base busy h
    account ws mid sid key repoRef mode root :
  (∀ id a c, git_credential id a = Some c →
     truthy (trim (rc_token c)) = true ∧ ∀ u, rc_username c = Some u → truthy (trim u) = true) →
  truthy sid = true → truthy account = true → STEP_KEY_PATTERN key = true →
  root = runFolderRoot HOME base → truthy root = true → resolved cwd root ≠ [] →
  ∃ p, step_provision projects git_credential clone_policy isolated account ws mid sid key repoRef mode
         ≫= (λ p, parseRunProvision (provision_json p)) = Some p ∧
  let '(r, trace) := provisionRunWorkspace HOME cwd p base busy h in
  resolve cwd (rr_dir r) = path_of (resolved cwd root ++ step_segments ws mid key) ∧
  trace ≠ [] ∧
  (leaf_ok ws mid → resolve cwd (rr_dir r) = resolve cwd root +:+ "/" +:+ shown_step_folder ws mid key).
Proof.
  intros Hc Hs Ha Hk -> Hroot Hn. unfold step_provision. cbn [mbind option_bind].
  match goal with |- ∃ p, parseRunProvision (provision_json ?q) = _ ∧ _ => set (p0 := q) end. exists (without_policy p0).
  split; [by apply (provision_crosses_the_wire projects git_credential clone_policy)|].
  unfold provisionRunWorkspace. set (root := runFolderRoot HOME base) in *.
  change (pv_workspace_folder (without_policy p0)) with (step_workspace_folder ws mid sid key).
  pose proof (step_folder_resolved cwd root ws mid sid key Hroot Hk) as Hf. set (dir := join root _) in *.
  assert (Hb : below cwd root dir) by (by exists (step_segments ws mid key)).
  rewrite below_startsWith by done. cbn [negb].
  pose proof (prepare_calls (without_policy p0) root dir h
                {| wk_trace := []; wk_notes := if busy then [waited_for_folder] else [] |}) as Hp.
  destruct (prepare_folder _ _ _ _ _) as [r w]. simpl in Hp |- *.
  assert (Hd : resolve cwd dir = path_of (resolved cwd root ++ step_segments ws mid key)) by (unfold resolve; by rewrite Hf).
  rewrite Hd.
  split_and!; [done|done|]. intros Hl. by apply shown_is_resolved.
Qed.

Lemma isolated_step_has_its_folder_witness :
  ∃ p, step_provision sample_projects sample_credential sample_policy isolated "acc" "release/../builds" "0123456789" "s1"
         "compile" (JObj [("project_id", JStr "p1")]) (JStr "fresh")
         ≫= (λ p, parseRunProvision (provision_json p)) = Some p ∧
  let '(r, trace) := provisionRunWorkspace "/home/awb" "/" p "/srv/p" false willing_host in
  resolve "/" (rr_dir r) = "/srv/p/.awb/orch/release/builds/compile" ∧ trace ≠ [].
Proof.
  destruct (isolated_step_has_its_folder "/home/awb" "/" sample_projects sample_credential sample_policy "/srv/p" false
    willing_host "acc" "release/../builds" "0123456789" "s1" "compile" (JObj [("project_id", JStr "p1")]) (JStr "fresh")
    "/srv/p") as (p & E & H); try reflexivity; [|by vm_compute|].
  - intros id account c [= <-]. split; [reflexivity|]. by intros u.
  - exists p. split; [exact E|]. destruct (provisionRunWorkspace _ _ _ _ _ _) as [r trace].
    destruct H as (H1 & H2 & _). split; [|exact H2]. rewrite H1. reflexivity.
Defined.

(** Isolated steps do not share a tree: the folders of two steps of a mission, or
    of steps of two missions told apart by their ids, are different and neither lies
    inside the other — on one host, under one working directory. *)
Theorem isolated_steps_are_apart cwd root ws mid key sid ws' mid' key' sid' :
  truthy root = true → STEP_KEY_PATTERN key = true → STEP_KEY_PATTERN key' = true →
  (mission_leaf ws mid = mission_leaf ws' mid' ∧ key ≠ key') ∨
  (ws = "" ∧ ws' = "" ∧ leaf_ok ws mid ∧ leaf_ok ws' mid' ∧ slice 8 mid ≠ slice 8 mid') →
  let dir := join root (strip_leading (step_workspace_folder ws mid sid key)) in
  let dir' := join root (strip_leading (step_workspace_folder ws' mid' sid' key')) in
  resolved cwd dir ≠ resolved cwd dir' ∧ (¬ below cwd dir dir') ∧ ¬ below cwd dir' dir.
Proof.
  intros Hr Hk Hk' Hcase. cbv zeta.
  assert (Hlen : length (leaf_segments ws mid) = length (leaf_segments ws' mid') ∧
                 step_segments ws mid key ≠ step_segments ws' mid' key').
  { unfold step_segments. destruct Hcase as [[E N]|(-> & -> & Hl & Hl' & N)].
    - unfold leaf_segments. rewrite E. split; [done|]. intros H. by simplify_list_eq.
    - unfold leaf_ok in Hl, Hl'. simpl in Hl, Hl'. unfold leaf_segments, mission_leaf. simpl.
      assert (El : ∀ s, trim s = s → ltrim s = s).
      { intros s Hs. rewrite <- Hs at 1. unfold trim. by rewrite ltrim_rtrim_ltrim. }
      destruct Hl as [Hg Ht], Hl' as [Hg' Ht']. rewrite !El, !folder_segments_word by done.
      split; [done|]. intros H. by simplify_list_eq. }
  destruct Hlen as [Hlen N]. unfold below. rewrite !step_folder_resolved by done.
  assert (Hl : length (step_segments ws mid key) = length (step_segments ws' mid' key'))
    by (unfold step_segments; rewrite !length_app, Hlen; done).
  split_and!.
  - by intros ?%(inj (app (resolved cwd root))).
  - intros (rest & Nr & E). rewrite <- app_assoc in E. apply (inj (app _)) in E.
    apply (f_equal length) in E. rewrite length_app, Hl in E. destruct rest; [done|]. simpl in E. lia.
  - intros (rest & Nr & E). rewrite <- app_assoc in E. apply (inj (app _)) in E.
    apply (f_equal length) in E. rewrite length_app, Hl in E. destruct rest; [done|]. simpl in E. lia.
Qed.

Lemma isolated_steps_are_apart_witness :
  let dir key := join "/srv/p" (strip_leading (step_workspace_folder "release" "m1" "s" key)) in
  dir "test" = "/srv/p/.awb/orch/release/test" ∧ ¬ below "/" (dir "test") (dir "test-2").
Proof.
  cbv zeta. split; [reflexivity|].
  refine (proj1 (proj2 (isolated_steps_are_apart "/" "/srv/p" "release" "m1" "test" "s" "release" "m1" "test-2" "s"
            eq_refl eq_refl eq_refl (or_introl (conj eq_refl _))))). discriminate.
Defined.

(** ** What goes wrong *)

(** A stored folder that ends in a blank: the step runs in another folder than the
    mission view shows. *)
Lemma blank_folder_is_shown_elsewhere :
  let stored := normalizeWorkspaceFolder (JStr "build /") in
  stored = "build " ∧
  shown_step_folder stored "m1" "test" = ".awb/orch/build/test" ∧
  step_workspace_folder stored "m1" "s1" "test" = ".awb/orch/build /test".
Proof. by vm_compute. Qed.

(** With the file system's root as working directory every provisioning is refused. *)
Lemma root_directory_is_refused h :
  (provisionRunWorkspace "/home/awb" "/" (sample_provision ".awb/orch/m/build" checkout_reuse) "/" false h).1.(rr_error)
  = Some path_traversal.
Proof. by vm_compute. Qed.
