(* ===== verification/FolderMutex.v ===== *)
(** * One run per folder

    [FolderMutex] of the agent manager ([run-execution-lock.ts]), which serialises
    the runs of a working folder; the provisioner's [withFolderLock] is the same
    algorithm.  A key's holders form a chain of promises: an acquisition waits for
    the promise of the one before it, and its own settles when that one has
    settled and it was released.

    Promises settle in jobs of their own, so settling and the continuation of a
    waiting [acquire] are steps; any other step may come in between. *)

From S2P Require Import Prelude JsStd.
#[local] Open Scope nat_scope.

(** ** The state *)

(** One call of [acquire]; its number is its place in the list of all calls. *)
Record Acquisition := {
  aq_key : string;
  (** the promise it waits for, by the number of the call that made it *)
  aq_prev : option nat;
  (** it has its handle *)
  aq_granted : bool;
  (** its handle was released: [mine] is resolved *)
  aq_released : bool;
  (** [composed] is resolved *)
  aq_settled : bool
}.

Record Mutex := {
  (** [#chain]: the promise of the latest acquisition of every key in use *)
  mx_chain : list (string * nat);
  mx_calls : list Acquisition
}.

Definition new_mutex : Mutex := {| mx_chain := []; mx_calls := [] |}.

(** ** The steps *)

(** The synchronous part of [acquire]; with nobody before it the handle is
    returned at once.  The second part is [wasBusy]. *)
Definition acquire (key : string) (s : Mutex) : Mutex * bool :=
  let prev := JMap.get (mx_chain s) key in
  let me := length (mx_calls s) in
  let busy := bool_decide (is_Some prev) in
  ({| mx_chain := JMap.set (mx_chain s) key me;
      mx_calls := mx_calls s ++ [{| aq_key := key; aq_prev := prev; aq_granted := negb busy;
                                    aq_released := false; aq_settled := false |}] |}, busy).

Definition is_settled (s : Mutex) (i : nat) : bool :=
  match mx_calls s !! i with Some a => aq_settled a | None => false end.

(** The promise [i] waits for is settled. *)
Definition prev_settled (s : Mutex) (a : Acquisition) : bool :=
  match aq_prev a with Some j => is_settled s j | None => true end.

Definition put_call (i : nat) (a : Acquisition) (s : Mutex) : Mutex :=
  {| mx_chain := mx_chain s; mx_calls := <[i := a]> (mx_calls s) |}.

(** [await prev] returns. *)
Definition grant (i : nat) (s : Mutex) : option Mutex :=
  match mx_calls s !! i with
  | Some a => if negb (aq_granted a) && prev_settled s a then Some (put_call i (a<|aq_granted := true|>) s) else None
  | None => None
  end.

(** [prev.then(() => mine)] resolves. *)
Definition settle (i : nat) (s : Mutex) : option Mutex :=
  match mx_calls s !! i with
  | Some a => if aq_released a && negb (aq_settled a) && prev_settled s a
              then Some (put_call i (a<|aq_settled := true|>) s) else None
  | None => None
  end.

(** [handle.release()]; only the holder of a handle can call it. *)
Definition release (i : nat) (s : Mutex) : option Mutex :=
  match mx_calls s !! i with
  | Some a =>
      if negb (aq_granted a) then None
      else if aq_released a then Some s
      else
        let s' := put_call i (a<|aq_released := true|>) s in
        Some (if bool_decide (JMap.get (mx_chain s) (aq_key a) = Some i)
              then {| mx_chain := JMap.delete (mx_chain s') (aq_key a); mx_calls := mx_calls s' |} else s')
  | None => None
  end.

Definition activeKeyCount (s : Mutex) : nat := length (mx_chain s).

Inductive mutex_step : Mutex → Mutex → Prop :=
  | step_acquire key s : mutex_step s (acquire key s).1
  | step_grant i s s' : grant i s = Some s' → mutex_step s s'
  | step_settle i s s' : settle i s = Some s' → mutex_step s s'
  | step_release i s s' : release i s = Some s' → mutex_step s s'.

(** The jobs of the run time; nobody calls them. *)
Inductive mutex_job : Mutex → Mutex → Prop :=
  | job_grant i s s' : grant i s = Some s' → mutex_job s s'
  | job_settle i s s' : settle i s = Some s' → mutex_job s s'.

Definition mutex_reachable : Mutex → Prop := rtc mutex_step new_mutex.

(** ** The invariant *)

(** All acquisitions of [key] before [i] were released. *)
Definition released_before (s : Mutex) (key : string) (i : nat) : Prop :=
  ∀ j a, j < i → mx_calls s !! j = Some a → aq_key a = key → aq_released a = true.

Record call_ok (s : Mutex) (i : nat) (a : Acquisition) : Prop := {
  co_prev : ∀ j, aq_prev a = Some j →
    j < i ∧ (∃ b, mx_calls s !! j = Some b ∧ aq_key b = aq_key a) ∧
    ∀ k b, j < k < i → mx_calls s !! k = Some b → aq_key b ≠ aq_key a;
  co_first : aq_prev a = None → released_before s (aq_key a) i;
  co_granted : aq_granted a = true → released_before s (aq_key a) i;
  co_start : aq_granted a = false → is_Some (aq_prev a);
  co_released : aq_released a = true → aq_granted a = true;
  co_settled : aq_settled a = true → aq_released a = true
}.

Record mutex_ok (s : Mutex) : Prop := {
  mo_calls : ∀ i a, mx_calls s !! i = Some a → call_ok s i a;
  (** an entry of the chain is the latest acquisition of its key, and not released *)
  mo_chain : ∀ key i, JMap.get (mx_chain s) key = Some i →
    (∃ a, mx_calls s !! i = Some a ∧ aq_key a = key ∧ aq_released a = false) ∧
    ∀ k b, i < k → mx_calls s !! k = Some b → aq_key b ≠ key;
  (** a key without an entry is free *)
  mo_free : ∀ key, JMap.get (mx_chain s) key = None →
    ∀ i a, mx_calls s !! i = Some a → aq_key a = key → aq_released a = true;
  mo_keys : NoDup (JMap.keys (mx_chain s))
}.

(** ** It is kept *)

Lemma released_before_mono s s' key i :
  (∀ j a', j < i → mx_calls s' !! j = Some a' → ∃ a, mx_calls s !! j = Some a ∧ aq_key a = aq_key a' ∧
     (aq_released a = true → aq_released a' = true)) →
  released_before s key i → released_before s' key i.
Proof. intros H Hr j a' Hj Ha Hk. destruct (H j a' Hj Ha) as (a & Hs & Ek & Hm). apply Hm, (Hr j a); congruence. Qed.

(** The calls of [s'] are those of [s], but for the state of call [k]. *)
Definition same_but (k : nat) (a' : Acquisition) (s s' : Mutex) : Prop :=
  (∃ a, mx_calls s !! k = Some a ∧ aq_key a' = aq_key a ∧ aq_prev a' = aq_prev a ∧
        (aq_released a = true → aq_released a' = true)) ∧
  mx_calls s' = <[k := a']> (mx_calls s).

Lemma same_but_lookup k a' s s' j b : same_but k a' s s' → mx_calls s' !! j = Some b →
  ∃ a, mx_calls s !! j = Some a ∧ aq_key a = aq_key b ∧ (aq_released a = true → aq_released b = true).
Proof.
  intros ((a & Ha & Ek & _ & Hm) & E) Hb. rewrite E in Hb. destruct (decide (j = k)) as [->|N].
  - rewrite list_lookup_insert_eq in Hb by (by eapply lookup_lt_Some). injection Hb as <-. by exists a.
  - rewrite list_lookup_insert_ne in Hb by done. by exists b.
Qed.

Lemma same_but_back k a' s s' j a : same_but k a' s s' → mx_calls s !! j = Some a →
  ∃ b, mx_calls s' !! j = Some b ∧ aq_key b = aq_key a.
Proof.
  intros ((a0 & Ha & Ek & _) & E) Hj. rewrite E. destruct (decide (j = k)) as [->|N].
  - exists a'. rewrite list_lookup_insert_eq by (by eapply lookup_lt_Some). split; [done|]. congruence.
  - exists a. by rewrite list_lookup_insert_ne.
Qed.

Lemma call_ok_other k a' s s' i b : same_but k a' s s' → call_ok s i b → call_ok s' i b.
Proof.
  intros Hs [H1 H2 H3 H4 H5 H6].
  assert (Hr : ∀ key, released_before s key i → released_before s' key i).
  { intros key. apply released_before_mono. intros j c _. by apply (same_but_lookup k a'). }
  constructor; auto. intros j Hj. destruct (H1 j Hj) as (Hlt & (c & Hc & Ek) & Hno). split_and!; [done| |].
  - destruct (same_but_back k a' s s' j c) as (c' & ? & ?); [done|done|]. exists c'. split; congruence.
  - intros n c' Hn Hc'. destruct (same_but_lookup k a' s s' n c') as (c0 & Hc0 & <- & _); [done|done|]. by eapply Hno.
Qed.

Lemma calls_ok_put k a' s s' : same_but k a' s s' → mutex_ok s → call_ok s k a' →
  ∀ i b, mx_calls s' !! i = Some b → call_ok s' i b.
Proof.
  intros Hs Ho Hk i b Hb. apply (call_ok_other k a' s); [done|]. destruct (decide (i = k)) as [->|N].
  - destruct Hs as ((a & Ha & _) & E). rewrite E, list_lookup_insert_eq in Hb by (by eapply lookup_lt_Some).
    by injection Hb as <-.
  - destruct Hs as (_ & E). rewrite E, list_lookup_insert_ne in Hb by done. by apply (mo_calls s Ho).
Qed.

(** Grants and settlements leave the chain and what was released. *)
Lemma mutex_ok_put k a a' s :
  mx_calls s !! k = Some a → aq_key a' = aq_key a → aq_prev a' = aq_prev a → aq_released a' = aq_released a →
  call_ok s k a' → mutex_ok s → mutex_ok (put_call k a' s).
Proof.
  intros Ha Ek Ep Er Hok Ho. assert (Hs : same_but k a' s (put_call k a' s)).
  { split; [exists a|done]. by rewrite Er. }
  assert (Hl : ∀ i b, mx_calls (put_call k a' s) !! i = Some b →
            ∃ c, mx_calls s !! i = Some c ∧ aq_key c = aq_key b ∧ aq_released c = aq_released b).
  { intros i b Hb. simpl in Hb. destruct (decide (i = k)) as [->|N].
    - rewrite list_lookup_insert_eq in Hb by (by eapply lookup_lt_Some). injection Hb as <-. by exists a.
    - rewrite list_lookup_insert_ne in Hb by done. by exists b. }
  pose proof (calls_ok_put k a' s _ Hs Ho Hok) as Hcalls. destruct Ho as [H1 H2 H3 H4]. constructor.
  - done.
  - intros key i Hc. destruct (H2 key i Hc) as ((c & Hi & Ekc & Erc) & Hno). split.
    + simpl. destruct (decide (i = k)) as [->|N].
      * exists a'. rewrite list_lookup_insert_eq by (by eapply lookup_lt_Some). split_and!; congruence.
      * exists c. by rewrite list_lookup_insert_ne.
    + intros n b Hn Hb. destruct (Hl n b Hb) as (c' & Hc' & <- & _). by eapply Hno.
  - intros key Hc i b Hb Hk. destruct (Hl i b Hb) as (c' & Hc' & Ek' & <-). eapply H3; [done|done|congruence].
  - done.
Qed.

(** The promise before [i] is settled: everybody before [i] has left. *)
Lemma prev_settled_released s i a :
  mutex_ok s → mx_calls s !! i = Some a → prev_settled s a = true → released_before s (aq_key a) i.
Proof.
  intros Ho Ha. unfold prev_settled. pose proof (mo_calls s Ho i a Ha) as Hi.
  destruct (aq_prev a) as [j|] eqn:Ep; [|intros _; by apply (co_first s i a)].
  unfold is_settled. destruct (co_prev s i a Hi j Ep) as (Hlt & (b & Hb & Ekb) & Hno). rewrite Hb. intros Hs.
  pose proof (mo_calls s Ho j b Hb) as Hj. pose proof (co_settled s j b Hj Hs) as Hr.
  pose proof (co_granted s j b Hj (co_released s j b Hj Hr)) as Hbefore. rewrite Ekb in Hbefore.
  intros k c Hk Hc Ekc. destruct (lt_eq_lt_dec k j) as [[?| ->]|?].
  - by apply (Hbefore k c).
  - congruence.
  - exfalso. apply (Hno k c); [lia|done|done].
Qed.

Lemma mutex_ok_grant i s s' : mutex_ok s → grant i s = Some s' → mutex_ok s'.
Proof.
  unfold grant. intros Ho. destruct (mx_calls s !! i) as [a|] eqn:Ha; [|done].
  destruct (negb (aq_granted a) && prev_settled s a) eqn:E; [|done]. intros [= <-].
  apply andb_true_iff in E as [Hg%negb_true_iff Hp]. pose proof (mo_calls s Ho i a Ha) as Hok.
  apply (mutex_ok_put i a); try done. destruct Hok as [H1 H2 H3 H4 H5 H6]. constructor; try done.
  intros _. by apply (prev_settled_released s i a).
Qed.

Lemma mutex_ok_settle i s s' : mutex_ok s → settle i s = Some s' → mutex_ok s'.
Proof.
  unfold settle. intros Ho. destruct (mx_calls s !! i) as [a|] eqn:Ha; [|done].
  destruct (aq_released a && _ && _) eqn:E; [|done]. intros [= <-].
  apply andb_true_iff in E as [[Hr _]%andb_true_iff Hp]. pose proof (mo_calls s Ho i a Ha) as Hok.
  apply (mutex_ok_put i a); try done. destruct Hok as [H1 H2 H3 H4 H5 H6]. by constructor.
Qed.

Lemma mutex_ok_release i s s' : mutex_ok s → release i s = Some s' → mutex_ok s'.
Proof.
  unfold release. intros Ho. destruct (mx_calls s !! i) as [a|] eqn:Ha; [|done].
  destruct (aq_granted a) eqn:Hg; cbn [negb]; [|done]. destruct (aq_released a) eqn:Hr; [by intros [= <-]|].
  set (a' := a<|aq_released := true|>). set (s1 := put_call i a' s). intros [= <-].
  assert (Hs : same_but i a' s s1) by (split; [exists a; by split_and!|done]).
  assert (Hok : call_ok s i a') by (destruct (mo_calls s Ho i a Ha) as [H1 H2 H3 H4 H5 H6]; by constructor).
  pose proof (calls_ok_put i a' s s1 Hs Ho Hok) as Hcalls.
  assert (Hown : ∀ j c, JMap.get (mx_chain s) (aq_key a) = Some j → mx_calls s !! j = Some c → aq_released c = false).
  { intros j c Hj Hc. destruct (mo_chain s Ho _ _ Hj) as ((c' & ? & _ & ?) & _). congruence. }
  assert (Hlook : mx_calls s1 !! i = Some a') by (apply list_lookup_insert_eq; by eapply lookup_lt_Some).
  assert (Hmain : ∀ chain, (∀ key, JMap.get chain key = if bool_decide (JMap.get (mx_chain s) (aq_key a) = Some i) && String.eqb (aq_key a) key
                     then None else JMap.get (mx_chain s) key) → NoDup (JMap.keys chain) →
            mutex_ok {| mx_chain := chain; mx_calls := mx_calls s1 |}).
  { intros chain Hchain Hnd. constructor; simpl; [|intros key k Hk|intros key Hk|done].
    - intros k b Hb. destruct (Hcalls k b Hb). by constructor.
    - rewrite Hchain in Hk. destruct (bool_decide _ && _) eqn:E; [done|].
      destruct (mo_chain s Ho key k Hk) as ((c & Hc & Ekc & Erc) & Hno). split.
      + exists c. split_and!; try done. destruct (decide (k = i)) as [->|N]; [|by rewrite list_lookup_insert_ne].
        exfalso. assert (c = a) as -> by congruence. rewrite Ekc in E. rewrite Hk, String.eqb_refl in E.
        by rewrite bool_decide_true in E.
      + intros n b Hn Hb. destruct (same_but_lookup i a' s s1 n b Hs Hb) as (c' & Hc' & <- & _). by eapply Hno.
    - intros k b Hb Ekb. rewrite Hchain in Hk. destruct (same_but_lookup i a' s s1 k b Hs Hb) as (c & Hc & Ekc & Hm).
      destruct (bool_decide _ && _) eqn:E; [|apply Hm, (mo_free s Ho key Hk k c); congruence].
      apply andb_true_iff in E as [E1%bool_decide_eq_true Ek%String.eqb_eq]. destruct (lt_eq_lt_dec k i) as [[Hlt|Ei]|Hgt].
      + apply Hm. apply (co_granted s i a (mo_calls s Ho i a Ha) Hg k c Hlt Hc). congruence.
      + assert (b = a') as -> by (rewrite Ei in Hb; simpl in Hb, Hlook; congruence). done.
      + destruct (mo_chain s Ho _ _ E1) as (_ & Hno). exfalso. apply (Hno k c Hgt Hc). congruence. }
  destruct (bool_decide _) eqn:Eb; apply Hmain.
  - intros key. rewrite JMap.get_delete. by destruct (String.eqb _ _).
  - apply JMap.NoDup_keys_delete, (mo_keys s Ho).
  - done.
  - apply (mo_keys s Ho).
Qed.

Lemma mutex_ok_acquire key s : mutex_ok s → mutex_ok (acquire key s).1.
Proof.
  intros Ho. unfold acquire. set (prev := JMap.get (mx_chain s) key). set (me := length (mx_calls s)).
  set (a := {| aq_key := key; aq_prev := prev; aq_granted := _; aq_released := false; aq_settled := false |}).
  assert (Hold : ∀ j b, mx_calls s !! j = Some b → (mx_calls s ++ [a]) !! j = Some b ∧ j < me).
  { intros j b Hb. split; [by apply lookup_app_l_Some|by eapply lookup_lt_Some]. }
  assert (Hnew : ∀ j b, (mx_calls s ++ [a]) !! j = Some b → mx_calls s !! j = Some b ∨ j = me ∧ b = a).
  { intros j b [Hb|[Hge Hb]]%lookup_app_Some; [by left|]. right. apply list_lookup_singleton_Some in Hb as [E0 <-]. split; [unfold me; lia|done]. }
  assert (Hrel : ∀ k i, i ≤ me → released_before s k i → released_before {| mx_chain := JMap.set (mx_chain s) key me; mx_calls := mx_calls s ++ [a] |} k i).
  { intros k i Hi. apply released_before_mono. intros j b Hj Hb. exists b.
    destruct (Hnew j b Hb) as [?|[-> _]]; [by split_and!|lia]. }
  assert (Hnone : prev = None → released_before s key me) by (intros E j b _ Hb; by apply (mo_free s Ho key E j b)).
  constructor; simpl.
  - intros i b Hb. destruct (Hnew i b Hb) as [Hi|[-> ->]].
    + pose proof (Hold i b Hi) as [_ Hlt]. destruct (mo_calls s Ho i b Hi) as [H1 H2 H3 H4 H5 H6].
      constructor; try done; try (intros ?; apply Hrel; [lia|auto]).
      intros j Hj. destruct (H1 j Hj) as (? & (c & Hc & ?) & Hno). split_and!; [done|exists c; split; [by apply Hold|done]|].
      intros k d Hk Hd. destruct (Hnew k d Hd) as [?|[-> _]]; [by eapply Hno|lia].
    + constructor; simpl; try done.
      * intros j Hj. destruct (mo_chain s Ho key j Hj) as ((c & Hc & Ek & _) & Hno). destruct (Hold j c Hc) as [Hc' Hlt].
        split_and!; [done|by exists c|]. intros k d Hk Hd. destruct (Hnew k d Hd) as [?|[-> _]]; [apply (Hno k d); [lia|done]|lia].
      * intros E. by apply Hrel, Hnone.
      * intros E%negb_true_iff%bool_decide_eq_false. apply Hrel; [done|]. apply Hnone. by apply eq_None_not_Some.
      * intros E%negb_false_iff%bool_decide_eq_true. done.
  - intros k i. destruct (String.eqb_spec key k) as [<-|N].
    + rewrite JMap.get_set_eq. intros [= <-]. split.
      * exists a. split_and!; try done. by apply list_lookup_middle.
      * intros n b Hn Hb. apply lookup_lt_Some in Hb. rewrite length_app in Hb. simpl in Hb. lia.
    + rewrite JMap.get_set_ne by done. intros Hi. destruct (mo_chain s Ho k i Hi) as ((c & Hc & ? & ?) & Hno).
      split; [exists c; split_and!; [by apply Hold|done|done]|].
      intros n b Hn Hb. destruct (Hnew n b Hb) as [?|[_ ->]]; [by eapply Hno|done].
  - intros k Hk i b Hb Ek. destruct (String.eqb_spec key k) as [<-|N]; [by rewrite JMap.get_set_eq in Hk|].
    rewrite JMap.get_set_ne in Hk by done. destruct (Hnew i b Hb) as [?|[_ ->]]; [by apply (mo_free s Ho k Hk i)|done].
  - apply JMap.NoDup_keys_set, (mo_keys s Ho).
Qed.

Lemma mutex_ok_step s s' : mutex_step s s' → mutex_ok s → mutex_ok s'.
Proof.
  intros [key|i s1 s1' H|i s1 s1' H|i s1 s1' H] Ho.
  - by apply mutex_ok_acquire.
  - by eapply mutex_ok_grant.
  - by eapply mutex_ok_settle.
  - by eapply mutex_ok_release.
Qed.

Lemma mutex_ok_reachable s : mutex_reachable s → mutex_ok s.
Proof.
  apply (rtc_ind_r mutex_ok); [|by intros s1 s2 _ H; apply mutex_ok_step].
  constructor; simpl; try done; try (intros; by rewrite lookup_nil in *). constructor.
Qed.

(** ** What it promises *)

(** C19: One run at a time, in order: in every state the mutex can reach, whoever has
    the handle of a folder has it after everybody who asked for that folder earlier
    gave theirs back; so two runs never hold one folder, however acquisitions,
    releases — repeated ones included — and the promises' jobs interleave. *)
Theorem one_run_per_folder s i j a b :
  mutex_reachable s → mx_calls s !! i = Some a → mx_calls s !! j = Some b → aq_key a = aq_key b →
  i < j → aq_granted b = true → aq_released a = true.
Proof.
  intros Hr Hi Hj Ek Hlt Hg. apply (co_granted s j b (mo_calls s (mutex_ok_reachable s Hr) j b Hj) Hg i a); done.
Qed.

Definition sample_mutex : Mutex :=
  let s2 := (acquire "/b" (acquire "/a" (acquire "/a" new_mutex).1).1).1 in
  default s2 (s ← release 0 s2; s ← settle 0 s; grant 1 s).

Lemma sample_mutex_reachable : mutex_reachable sample_mutex.
Proof.
  unfold sample_mutex, mutex_reachable.
  eapply rtc_l; [apply (step_acquire "/a")|]. eapply rtc_l; [apply (step_acquire "/a")|].
  eapply rtc_l; [apply (step_acquire "/b")|]. eapply rtc_l; [apply (step_release 0); reflexivity|].
  eapply rtc_l; [apply (step_settle 0); reflexivity|]. eapply rtc_l; [apply (step_grant 1); reflexivity|]. apply rtc_refl.
Qed.

Lemma one_run_per_folder_witness :
  List.map aq_granted (mx_calls sample_mutex) = [true; true; true] ∧
  ∃ a, mx_calls sample_mutex !! 0 = Some a ∧ aq_released a = true.
Proof.
  split; [reflexivity|]. eexists. split; [reflexivity|].
  eapply (one_run_per_folder sample_mutex 0 1 _ _ sample_mutex_reachable); try reflexivity. auto with arith.
Defined.

(** The promise of a call whose folder everybody up to it has left settles. *)
Lemma settles s j a : mutex_ok s → mx_calls s !! j = Some a →
  released_before s (aq_key a) (S j) →
  ∃ s', rtc mutex_job s s' ∧ is_settled s' j = true ∧ mutex_ok s' ∧
    ∀ i b, mx_calls s !! i = Some b → ∃ c, mx_calls s' !! i = Some c ∧ aq_key c = aq_key b ∧
      aq_prev c = aq_prev b ∧ aq_granted c = aq_granted b ∧ aq_released c = aq_released b.
Proof.
  revert s a. induction j as [j IH] using lt_wf_ind. intros s a Ho Ha Hr.
  assert (Hra : aq_released a = true) by (apply (Hr j a); auto).
  destruct (aq_settled a) eqn:Es.
  { exists s. split_and!; [apply rtc_refl|unfold is_settled; by rewrite Ha|done|]. intros i b Hb. by exists b. }
  assert (Hprev : ∃ s1, rtc mutex_job s s1 ∧ mutex_ok s1 ∧
            (∀ i b, mx_calls s !! i = Some b → ∃ c, mx_calls s1 !! i = Some c ∧ aq_key c = aq_key b ∧
               aq_prev c = aq_prev b ∧ aq_granted c = aq_granted b ∧ aq_released c = aq_released b) ∧
            ∀ c, mx_calls s1 !! j = Some c → prev_settled s1 c = true).
  { destruct (aq_prev a) as [k|] eqn:Ep.
    - destruct (co_prev s j a (mo_calls s Ho j a Ha) k Ep) as (Hlt & (b & Hb & Ekb) & _).
      destruct (IH k Hlt s b Ho Hb) as (s1 & Hj1 & Hs1 & Ho1 & Hk1).
      { intros n c Hn Hc Ekc. apply (Hr n c); [lia|done|congruence]. }
      exists s1. split_and!; [done|done|done|]. intros c Hc. destruct (Hk1 j a Ha) as (c' & Hc' & _ & Epc & _).
      unfold prev_settled. replace (aq_prev c) with (Some k) by congruence. done.
    - exists s. split_and!; [apply rtc_refl|done|by intros i b Hb; exists b|]. intros c Hc.
      unfold prev_settled. by replace (aq_prev c) with (@None nat) by congruence. }
  destruct Hprev as (s1 & Hj1 & Ho1 & Hk1 & Hp1). destruct (Hk1 j a Ha) as (c & Hc & Ekc & Epc & Egc & Erc).
  destruct (aq_settled c) eqn:Esc.
  { exists s1. split_and!; [done|unfold is_settled; by rewrite Hc|done|done]. }
  assert (Hstep : settle j s1 = Some (put_call j (c<|aq_settled := true|>) s1)).
  { unfold settle. rewrite Hc, Erc, Hra, Esc, (Hp1 c Hc). done. }
  exists (put_call j (c<|aq_settled := true|>) s1). split_and!.
  - eapply rtc_r; [exact Hj1|]. by apply (job_settle j).
  - unfold is_settled, put_call. simpl. by rewrite list_lookup_insert_eq by (by eapply lookup_lt_Some).
  - by eapply mutex_ok_settle.
  - intros i b Hb. destruct (Hk1 i b Hb) as (d & Hd & E1 & E2 & E3 & E4). simpl. destruct (decide (i = j)) as [->|N].
    + exists (c<|aq_settled := true|>). rewrite list_lookup_insert_eq by (by eapply lookup_lt_Some).
      assert (d = c) as -> by congruence. done.
    + exists d. by rewrite list_lookup_insert_ne.
Qed.

(** A waiting run is served: once everybody who asked for its folder earlier gave
    their handles back, the promises' jobs alone — nobody has to call anything, and
    no other folder matters — bring the waiting [acquire] to return. *)
Theorem waiting_runs_are_served s i a :
  mutex_reachable s → mx_calls s !! i = Some a →
  (∀ j b, j < i → mx_calls s !! j = Some b → aq_key b = aq_key a → aq_released b = true) →
  ∃ s', rtc mutex_job s s' ∧ ∃ c, mx_calls s' !! i = Some c ∧ aq_granted c = true ∧ aq_released c = aq_released a.
Proof.
  intros Hr Ha Hb. pose proof (mutex_ok_reachable s Hr) as Ho. destruct (aq_granted a) eqn:Hg.
  { exists s. split; [apply rtc_refl|]. by exists a. }
  destruct (co_start s i a (mo_calls s Ho i a Ha) Hg) as [j Ep].
  destruct (co_prev s i a (mo_calls s Ho i a Ha) j Ep) as (Hlt & (b & Hj & Ekb) & _).
  destruct (settles s j b Ho Hj) as (s1 & Hj1 & Hs1 & Ho1 & Hk1).
  { intros n c Hn Hc Ekc. apply (Hb n c); [lia|done|congruence]. }
  destruct (Hk1 i a Ha) as (c & Hc & _ & Epc & Egc & Erc).
  exists (put_call i (c<|aq_granted := true|>) s1). split.
  - eapply rtc_r; [exact Hj1|]. apply (job_grant i). unfold grant. rewrite Hc, Egc, Hg.
    unfold prev_settled. by rewrite Epc, Ep, Hs1.
  - exists (c<|aq_granted := true|>). simpl. by rewrite list_lookup_insert_eq by (by eapply lookup_lt_Some).
Qed.

Definition sample_waiting : Mutex := default new_mutex (release 0 (acquire "/a" (acquire "/a" new_mutex).1).1).

Lemma waiting_runs_are_served_witness :
  ∃ a, mx_calls sample_waiting !! 1 = Some a ∧ aq_granted a = false ∧
  ∃ s', rtc mutex_job sample_waiting s' ∧
    ∃ c, mx_calls s' !! 1 = Some c ∧ aq_granted c = true ∧ aq_released c = aq_released a.
Proof.
  eexists. split; [reflexivity|]. split; [reflexivity|]. apply waiting_runs_are_served; [|reflexivity|].
  - eapply rtc_l; [apply (step_acquire "/a")|]. eapply rtc_l; [apply (step_acquire "/a")|].
    eapply rtc_l; [apply (step_release 0); reflexivity|]. apply rtc_refl.
  - intros [|j] b Hlt Hj _; [by injection Hj as <-|lia].
Defined.

(** A run is told that it waited exactly when another one has not given the
    folder back; and the mutex remembers a folder only as long. *)
Theorem was_busy_tells_the_truth s key :
  mutex_reachable s →
  ((acquire key s).2 = true ↔ ∃ i a, mx_calls s !! i = Some a ∧ aq_key a = key ∧ aq_released a = false) ∧
  (JMap.has (mx_chain s) key = true ↔ (acquire key s).2 = true).
Proof.
  intros Hr. pose proof (mutex_ok_reachable s Hr) as Ho. unfold acquire, JMap.has. cbn [snd].
  rewrite bool_decide_eq_true. split; [split|].
  - intros [i Hi]. destruct (mo_chain s Ho key i Hi) as ((a & ? & ? & ?) & _). by exists i, a.
  - intros (i & a & Hi & Ek & Er). destruct (JMap.get _ _) as [j|] eqn:E; [by exists j|].
    pose proof (mo_free s Ho key E i a Hi Ek). congruence.
  - destruct (JMap.get _ _) as [j|]; split; try done.
Qed.

Lemma was_busy_tells_the_truth_witness :
  (acquire "/a" sample_mutex).2 = true ∧
  ∃ i a, mx_calls sample_mutex !! i = Some a ∧ aq_key a = "/a" ∧ aq_released a = false.
Proof.
  split; [reflexivity|].
  apply (proj1 (proj1 (was_busy_tells_the_truth sample_mutex "/a" sample_mutex_reachable))). reflexivity.
Defined.
