(* ===== verification/MissionInputs.v ===== *)
(** * What a mission is asked to be

    The inputs of [createMission] and [updateMission]
    ([orchestration-mission.service.ts], [orchestration-project.ts]): the projects a
    mission works on, the members it leaves out of its team's roster and the ones it
    adds — how they are checked, what they are stored as, and how the stored columns
    are read back. *)

From S2P Require Import Prelude JsStd Vocabulary Roster Json SlotSpec Teams WorkFolder RunProvisioner.
#[local] Open Scope Z_scope.

(** ** Errors *)

Inductive mission_error : Type :=
  | account_id_required
  | title_required
  | run_budget_exceeded (count limit : Z)
  | team_not_in_account
  | team_without_orchestrator
  | no_allowed_accounts
  | account_not_allowed
  | objective_required
  | criteria_rejected (e : criteria_error)
  | post_actions_rejected
  | excluded_not_an_array
  | excluded_too_many
  | excluded_unknown (ids : list string)
  | extras_not_an_array
  | extras_too_many
  | extra_not_an_object (i : nat)
  | extra_spec_rejected (i : nat) (e : spec_error)
  | extra_host_missing (i : nat)
  | extra_credential_unavailable (i : nat)
  | extra_profile_missing (i : nat)
  | projects_not_an_array
  | projects_too_many
  | project_not_an_object (i : nat)
  | project_without_id (i : nat)
  | project_listed_twice (i : nat) (id : string)
  | bare_repository_url
  | projects_not_in_account (ids : list string)
  | folder_scope_unknown (raw : string)
  | mission_missing
  | mission_finished (status : string)
  | brief_is_locked
  | title_empty
  | objective_empty
  | team_missing_for_mission
  | mission_still_open (status : string)
  | save_failed.

(** An error with its HTTP status. *)
Definition merr : Type := Z * mission_error.

(** ** Projects *)

Record MissionProjectRef := { mpr_project_id : string; mpr_branch : string }.

Definition MAX_MISSION_PROJECTS : Z := 10.

(** One entry of [normalizeMissionProjects]; [i] is its place. *)
Definition read_project (st : list string * list MissionProjectRef) (entry : nat * jsval)
    : res merr (list string * list MissionProjectRef) :=
  let '(seen, out) := st in
  let '(i, entry) := entry in
  let raw := match entry with JStr s => JObj [("project_id", JStr s)] | _ => entry end in
  match raw with
  | JObj _ =>
      let projectId := str (nullish_or (prop raw "project_id") (prop raw "id")) in
      _ ← fail_if (negb (truthy projectId)) (400, project_without_id i);
      _ ← fail_if (includes seen projectId) (400, project_listed_twice i projectId);
      Ok (set_add seen projectId,
          out ++ [{| mpr_project_id := projectId; mpr_branch := str (prop raw "branch") |}])
  | _ => Err (400, project_not_an_object i)
  end.

Definition with_index {A} (l : list A) : list (nat * A) := imap pair l.

Definition normalizeMissionProjects (input : jsval) : res merr (list MissionProjectRef) :=
  if is_nullish input then Ok []
  else match input with
  | JArr entries =>
      _ ← fail_if (MAX_MISSION_PROJECTS <? Z.of_nat (length entries)) (400, projects_too_many);
      '(_, out) ← foldM read_project ([], []) (with_index entries);
      Ok out
  | _ => Err (400, projects_not_an_array)
  end.

(** The column [projects] holds. *)
Definition project_json (p : MissionProjectRef) : jsval :=
  JObj [("project_id", JStr (mpr_project_id p)); ("branch", JStr (mpr_branch p))].

(** [l.length ? l : null], as JSON *)
Definition list_json {A} (f : A → jsval) (l : list A) : jsval :=
  match l with [] => JNull | _ => JArr (List.map f l) end.

Section parsed.
(** [JSON.parse] of a stored string; [None] when it throws. *)
Context (JSON_parse : string → option jsval).

(** A column that may hold the encoded form. *)
Definition decoded (v : jsval) : option jsval :=
  match v with JStr s => JSON_parse s | _ => Some v end.

Definition readMissionProjects (projects repo_ref : jsval) : list MissionProjectRef :=
  match default JNull (decoded projects) with
  | JArr (p :: l) =>
      lfilter (λ r, truthy (mpr_project_id r))
        (List.map (λ p, {| mpr_project_id := str (prop p "project_id"); mpr_branch := str (prop p "branch") |}) (p :: l))
  | _ =>
      match normalizeRepoRef repo_ref with
      | Some ref =>
          match rr_project_id ref with
          | Some id => [{| mpr_project_id := id; mpr_branch := default "" (rr_branch ref) |}]
          | None => []
          end
      | None => []
      end
  end.

(** ** Members left out *)

Definition readExcludedMemberIds (v : jsval) : list string :=
  let ids l := lfilter truthy (List.map (λ x, trim (js_String (nullish_or x (JStr "")))) l) in
  match v with
  | JArr l => ids l
  | JStr s => if truthy s then match JSON_parse s with Some (JArr l) => ids l | _ => [] end else []
  | _ => []
  end.

(** ** Members added *)

(** One stored entry, read: its address and its spec. *)
Record StoredExtra := {
  sx_slot_id : string; sx_role_label : jsval; sx_capabilities : jsval; sx_max_concurrent : jsval; sx_spec : jsval
}.

Definition read_extra_member (e : jsval) : option StoredExtra :=
  if negb (is_object e) || negb (is_object (prop e "spec")) then None
  else
    let slotId := match prop e "slot_id" with
                  | JStr s => if truthy s then s else ""
                  | _ => ""
                  end in
    let slotId := if truthy slotId then slotId
                  else match prop e "agent_id" with
                       | JStr a => if truthy a then "extra:" +:+ a else ""
                       | _ => ""
                       end in
    if negb (truthy slotId) then None
    else Some {| sx_slot_id := slotId; sx_role_label := prop e "role_label"; sx_capabilities := prop e "capabilities";
                 sx_max_concurrent := prop e "max_concurrent"; sx_spec := prop e "spec" |}.

Definition readExtraMembers (v : jsval) : list StoredExtra :=
  match v with
  | JStr EmptyString => []
  | _ =>
      match decoded v with
      | Some (JArr l) => omap read_extra_member l
      | _ => []
      end
  end.
End parsed.

(** [normalizeExcludedMemberIds] *)
Definition normalizeExcludedMemberIds (input : jsval) : res merr (list string) :=
  if is_nullish input then Ok []
  else match input with
  | JArr l =>
      let ids := distinct_ids l in
      _ ← fail_if (100 <? Z.of_nat (length ids)) (400, excluded_too_many);
      Ok ids
  | _ => Err (400, excluded_not_an_array)
  end.

(** A member the mission adds to its team's roster. *)
Record MissionExtraMember := {
  me_slot_id : string;
  me_role_label : string;
  me_capabilities : string;
  me_max_concurrent : Z;
  me_spec : TeamSlotSpec
}.

Definition extra_json (e : MissionExtraMember) : jsval :=
  JObj [("slot_id", JStr (me_slot_id e)); ("role_label", JStr (me_role_label e));
        ("capabilities", JStr (me_capabilities e)); ("max_concurrent", JNum (JInt (me_max_concurrent e)));
        ("spec", slot_json (me_spec e))].

(** [String(v || '').trim()] *)
Definition text_or_empty (v : jsval) : string := if js_truthy v then trim (js_String v) else "".

Section checked.
(** [Math.floor(Number(v))] of a value that is not an integer; the tables the
    services look things up in; the fresh ids of [randomUUID]. *)
Context (floor_other : jsval → option Z) (dir : Directory) (projects : list ProjectRow) (uuid : nat → string).

Definition host_exists (id : string) : bool := lsome (λ h, String.eqb (ho_id h) id) (dir_hosts dir).

Definition read_extra_input (missionAccountId : string) (i : nat) (raw : jsval) : res merr MissionExtraMember :=
  match raw with
  | JObj _ =>
      spec ← match normalizeTeamSlotSpec (prop raw "runtime") with
             | Ok spec => Ok spec
             | Err e => Err (400, extra_spec_rejected i e)
             end;
      _ ← fail_if (negb (host_exists (ss_manager_agent_id spec))) (400, extra_host_missing i);
      _ ← match ss_credential_id spec with
          | Some id => fail_if (truthy id && negb (credential_usable dir id (Some missionAccountId)))
                         (400, extra_credential_unavailable i)
          | None => Ok tt
          end;
      _ ← match ss_cli_runtime_profile spec with
          | Some id => fail_if (truthy id && negb (String.eqb id CLI_RUNTIME_NONE) && negb (includes (dir_profiles dir) id))
                         (400, extra_profile_missing i)
          | None => Ok tt
          end;
      Ok {| me_slot_id := uuid i; me_role_label := text_or_empty (prop raw "role_label");
            me_capabilities := text_or_empty (prop raw "capabilities");
            me_max_concurrent := clampConcurrent floor_other (prop raw "max_concurrent");
            me_spec := spec |}
  | _ => Err (400, extra_not_an_object i)
  end.

Definition normalizeExtraMembers (input : jsval) (missionAccountId : string) : res merr (list MissionExtraMember) :=
  if is_nullish input then Ok []
  else match input with
  | JArr l =>
      _ ← fail_if (20 <? Z.of_nat (length l)) (400, extras_too_many);
      foldM (λ out '(i, raw), e ← read_extra_input missionAccountId i raw; Ok (out ++ [e])) [] (with_index l)
  | _ => Err (400, extras_not_an_array)
  end.

(** [assertExcludedOnTeam] *)
Definition assertExcludedOnTeam (members : list MemberRow) (teamId : string) (excludedIds : list string) : res merr () :=
  match excludedIds with
  | [] => Ok tt
  | _ =>
      let known := flat_map (λ m, mb_id m :: match mb_agent_id m with
                                              | Some a => if truthy a then [a] else []
                                              | None => []
                                              end)
                     (lfilter (λ m, String.eqb (mb_team_id m) teamId) members) in
      let unknown := lfilter (λ id, negb (includes known id)) excludedIds in
      fail_if (negb (bool_decide (unknown = []))) (400, excluded_unknown unknown)
  end.

Definition in_account (accountId : string) : list string :=
  List.map pj_id (lfilter (λ p, String.eqb (pj_account_id p) accountId) projects).

Definition normalizeProjectsInput (projectsInput repoRefInput : jsval) (accountId : string)
    : res merr (list MissionProjectRef) :=
  refs ← (if negb (is_nullish projectsInput) then normalizeMissionProjects projectsInput
          else
            match normalizeRepoRef repoRefInput with
            | Some legacy =>
                _ ← fail_if (bool_decide (is_Some (rr_url legacy)) && bool_decide (rr_project_id legacy = None))
                      (400, bare_repository_url);
                match rr_project_id legacy with
                | Some id => Ok [{| mpr_project_id := id; mpr_branch := default "" (rr_branch legacy) |}]
                | None => Ok []
                end
            | None => Ok []
            end);
  let missing := List.map mpr_project_id
                   (lfilter (λ r, negb (includes (in_account accountId) (mpr_project_id r))) refs) in
  _ ← fail_if (negb (bool_decide (missing = []))) (400, projects_not_in_account missing);
  Ok refs.

Definition normalizeFolderScopeInput (value : jsval) : res merr string :=
  match value with
  | JUndef | JNull | JStr EmptyString => Ok "shared"
  | _ =>
      let raw := trim (js_String value) in
      if String.eqb raw "shared" || String.eqb raw "isolated" then Ok raw else Err (400, folder_scope_unknown raw)
  end.
End checked.
