(* ===== verification/MissionService.v ===== *)
(** * Missions: creation, edits, deletion

    [orchestration-mission.service.ts]: [createMission], [updateMission] and
    [deleteMission], with everything they check and in the order they check it.

    None of these calls takes a lock: each reads, checks and awaits, and only then
    writes.  A call is therefore given in its two parts — what it reads and checks
    ([new_mission], [read_for_edit], [read_for_deletion]) and what it writes
    ([insert_mission], [commit_edit], [delete_mission]) — which make up the call
    where nothing comes between them, and are separate steps of [run_mission_event],
    where calls overlap.  What a part needs of its moment — new keys, the clocks,
    which queries fail — is a [Moment].  The edit and the room's flag are written in
    one transaction; the event of a creation and the three deletes are taken
    together with the write they follow.  A mission's row has the columns the
    service writes; columns of JSON the service reads back are JSON. *)

From S2P Require Import Prelude JsStd Vocabulary Cli Roster Json SlotSpec Teams WorkFolder RunProvisioner Timeline.
From S2P Require Import RunBudget MissionInputs.
#[local] Open Scope Z_scope.

(** ** Tables *)

Record MissionRow := {
  mr_id : string;
  mr_account_id : string;
  mr_team_id : string;
  mr_title : string;
  mr_objective : string;
  mr_context : string;
  mr_acceptance_criteria : string;
  mr_method : string;
  mr_completion_criteria : option (list MissionCompletionCriterion);
  mr_post_actions : option (list MissionPostAction);
  mr_post_actions_pending : bool;
  mr_projects : jsval;
  mr_folder_scope : string;
  mr_workspace_folder : string;
  mr_repo_ref : jsval;
  mr_checkout_mode : CheckoutMode;
  mr_status : string;
  mr_room_id : option string;
  mr_orchestrator_agent_id : option string;
  mr_excluded_member_ids : jsval;
  mr_extra_member_specs : jsval;
  mr_max_parallel_steps : Z;
  mr_max_steps : Z;
  mr_max_plan_versions : Z;
  mr_step_timeout_minutes : Z;
  mr_graph_enabled : bool;
  mr_confirm_policy : ConfirmPolicy;
  mr_user_chat_mode : UserChatMode;
  mr_created_by_type : string;
  mr_created_by : string;
  mr_created_at : Z
}.

Record StepKey := { sk_id : string; sk_mission_id : string }.
Record RoomRow := { ro_id : string; ro_open_join : bool }.

Record MissionDb := {
  md_missions : list MissionRow;
  md_steps : list StepKey;
  md_events : list EventRow;
  md_rooms : list RoomRow
}.

(** What the service reads and never writes. *)
Record Board := { bd_dir : Directory; bd_projects : list ProjectRow; bd_teams : TeamDb }.

(** The moment of a call: the keys its inserts get, the database's clock
    (microseconds) and the server's (milliseconds), the queries that fail. *)
Record Moment := {
  mo_id : string;
  mo_event_id : string;
  mo_uuid : nat → string;
  mo_now : Z;
  mo_date_now : Z;
  mo_budget_fails : bool;
  mo_event_faults : EventFaults;
  mo_commit_fails : bool
}.

(** ** Inputs *)

Record MissionInput := {
  ni_account_id : string;
  ni_team_id : string;
  ni_title : string;
  ni_objective : string;
  ni_context : string;
  ni_acceptance_criteria : string;
  ni_method : string;
  ni_completion_criteria : jsval;
  ni_post_actions : jsval;
  ni_projects : jsval;
  ni_repo_ref : jsval;
  ni_folder_scope : jsval;
  ni_workspace_folder : jsval;
  ni_checkout_mode : jsval;
  ni_max_parallel_steps : jsval;
  ni_max_steps : jsval;
  ni_max_plan_versions : jsval;
  ni_step_timeout_minutes : jsval;
  ni_graph_enabled : jsval;
  ni_confirm_policy : jsval;
  ni_user_chat_mode : jsval;
  ni_created_by_type : string;
  ni_created_by : string;
  ni_excluded_member_ids : jsval;
  ni_extra_members : jsval;
  ni_orchestrator_agent_id : string
}.

(** A patch is the object the caller sent, whatever its keys. *)
Definition MissionPatch : Type := list (string * jsval).
Definition field (patch : MissionPatch) (key : string) : jsval := prop (JObj patch) key.
Definition names (patch : MissionPatch) (key : string) : bool := negb (is_undefined (field patch key)).

(** The fields whose edit is an edit of the brief. *)
Definition BRIEF_KEYS : list string :=
  ["title"; "objective"; "context"; "acceptance_criteria"; "method"; "completion_criteria"; "post_actions"; "projects";
   "repo_ref"; "folder_scope"; "workspace_folder"; "checkout_mode"; "graph_enabled"; "confirm_policy";
   "excluded_member_ids"; "extra_members"].

Definition touchesBrief (patch : MissionPatch) : bool := lsome (names patch) BRIEF_KEYS.

Definition onlyChatOption (patch : MissionPatch) : bool :=
  let keys := lfilter (names patch) (JMap.keys patch) in
  negb (bool_decide (keys = [])) && levery (λ k, String.eqb k "user_chat_mode") keys.

(** ** The service *)

Section service.
(** As in [Teams] and [Timeline]; the ceiling on an account's runs. *)
Context (floor_other : jsval → option Z) (displayName : string → option string) (d : Driver)
  (budget : string → ResolvedHardBudget).

Definition run_rows (db : MissionDb) : list RunRow :=
  List.map (λ m, {| rw_account_id := mr_account_id m; rw_created_at := mr_created_at m |}) (md_missions db).

Definition lift_criteria {A} (r : res criteria_error A) : res merr A :=
  match r with Ok a => Ok a | Err e => Err (400, criteria_rejected e) end.
Definition lift_actions {A} (r : res () A) : res merr A :=
  match r with Ok a => Ok a | Err _ => Err (400, post_actions_rejected) end.

(** [l.length ? l : null] *)
Definition or_none {A} (l : list A) : option (list A) := match l with [] => None | _ => Some l end.

(** The gate of a global team's allow-list. *)
Definition assertTeamAllows (team : TeamRow) (accountId : string) : res merr () :=
  if bool_decide (tr_account_id team = None) then
    let allowed := default [] (tr_allowed_account_ids team) in
    _ ← fail_if (bool_decide (allowed = [])) (409, no_allowed_accounts);
    fail_if (negb (includes allowed accountId)) (400, account_not_allowed)
  else Ok tt.

Definition assertRunBudget (mo : Moment) (db : MissionDb) (accountId : string) : res merr () :=
  match enforceRunBudget d (budget accountId) (run_rows db) accountId (mo_date_now mo) (mo_budget_fails mo) with
  | None => Ok tt
  | Some (count, limit) => Err (429, run_budget_exceeded count limit)
  end.

Definition mission_team (bd : Board) (accountId teamId : string) : res merr TeamRow :=
  match List.find (λ t, String.eqb (tr_id t) teamId && visible accountId (tr_account_id t)) (td_teams (bd_teams bd)) with
  | None => Err (404, team_not_in_account)
  | Some team =>
      _ ← fail_if (negb (js_truthy (tr_orchestrator_spec team))) (400, team_without_orchestrator);
      _ ← assertTeamAllows team accountId;
      Ok team
  end.

(** What [createMission] checks, and the row it will insert, with the team it is for;
    the insert gives the row its key and its time. *)
Definition new_mission (mo : Moment) (bd : Board) (input : MissionInput) (db : MissionDb)
    : res merr (TeamRow * MissionRow) :=
  let accountId := trim (ni_account_id input) in
  let title := trim (ni_title input) in
  _ ← fail_if (negb (truthy accountId)) (400, account_id_required);
  _ ← fail_if (negb (truthy title)) (400, title_required);
  _ ← assertRunBudget mo db accountId;
  team ← mission_team bd accountId (ni_team_id input);
  let objective := trim (ni_objective input) in
  _ ← fail_if (negb (truthy objective)) (400, objective_required);
  criteria ← lift_criteria (normalizeCompletionCriteria (ni_completion_criteria input));
  postActions ← lift_actions (normalizePostActions (ni_post_actions input));
  excludedIds ← normalizeExcludedMemberIds (ni_excluded_member_ids input);
  _ ← assertExcludedOnTeam (td_members (bd_teams bd)) (tr_id team) excludedIds;
  extraMembers ← normalizeExtraMembers floor_other (bd_dir bd) (mo_uuid mo) (ni_extra_members input) accountId;
  projects ← normalizeProjectsInput (bd_projects bd) (ni_projects input) (ni_repo_ref input) accountId;
  folder_scope ← normalizeFolderScopeInput (ni_folder_scope input);
  Ok (team,
    {| mr_id := ""; mr_account_id := accountId; mr_team_id := tr_id team; mr_title := title;
       mr_objective := objective; mr_context := trim (ni_context input);
       mr_acceptance_criteria := trim (ni_acceptance_criteria input); mr_method := trim (ni_method input);
       mr_completion_criteria := or_none criteria; mr_post_actions := or_none postActions;
       mr_post_actions_pending := negb (bool_decide (postActions = []));
       mr_projects := list_json project_json projects; mr_folder_scope := folder_scope;
       mr_workspace_folder := normalizeWorkspaceFolder (ni_workspace_folder input); mr_repo_ref := JNull;
       mr_checkout_mode := normalizeCheckoutMode (ni_checkout_mode input); mr_status := "draft"; mr_room_id := None;
       mr_orchestrator_agent_id := or_null (ni_orchestrator_agent_id input);
       mr_excluded_member_ids := list_json JStr excludedIds;
       mr_extra_member_specs := list_json extra_json extraMembers;
       mr_max_parallel_steps :=
         clampInt floor_other (ni_max_parallel_steps input) (tr_max_parallel_steps team) 1 MAX_PARALLEL_CEILING;
       mr_max_steps := clampInt floor_other (ni_max_steps input) 60 1 MAX_STEPS_CEILING;
       mr_max_plan_versions := clampInt floor_other (ni_max_plan_versions input) 6 1 50;
       mr_step_timeout_minutes := clampInt floor_other (ni_step_timeout_minutes input) 90 0 (60 * 24 * 7);
       mr_graph_enabled := is_true_val (ni_graph_enabled input);
       mr_confirm_policy := normalizeConfirmPolicy (ni_confirm_policy input);
       mr_user_chat_mode := normalizeUserChatMode (ni_user_chat_mode input);
       mr_created_by_type := or_else (ni_created_by_type input) "user"; mr_created_by := ni_created_by input;
       mr_created_at := 0 |}).

Definition created_event (team : TeamRow) (row : MissionRow) : EventInput :=
  {| in_type := "mission_created"; in_message := "Mission " +:+ quote +:+ mr_title row +:+ quote +:+ " created for team " +:+ tr_name team;
     in_step_id := None; in_actor_type := mr_created_by_type row; in_actor_id := mr_created_by row;
     in_actor_name := ""; in_data := JUndef |}.

Definition inserted (mo : Moment) (row : MissionRow) : MissionRow :=
  row<|mr_id := mo_id mo|><|mr_created_at := default_created_at d (mo_now mo)|>.

(** The insert, and the event that follows it. *)
Definition insert_mission (mo : Moment) (team : TeamRow) (row0 : MissionRow) (db : MissionDb) : MissionDb :=
  let row := inserted mo row0 in
  db<|md_missions := md_missions db ++ [row]|>
    <|md_events := recordEvent displayName d (mo_event_id mo) (mo_now mo) (mo_date_now mo) (mo_event_faults mo)
                     (mr_id row) (mr_account_id row) (created_event team row) (md_events db)|>.

Definition createMission (mo : Moment) (bd : Board) (input : MissionInput) (db : MissionDb)
    : res merr MissionRow * MissionDb :=
  match new_mission mo bd input db with
  | Err e => (Err e, db)
  | Ok (team, row) => (Ok (inserted mo row), insert_mission mo team row db)
  end.

(** An empty [accountId] looks in every account. *)
Definition requireMission (db : MissionDb) (missionId accountId : string) : res merr MissionRow :=
  match List.find (λ m, String.eqb (mr_id m) missionId
                         && (negb (truthy accountId) || String.eqb (mr_account_id m) accountId)) (md_missions db) with
  | Some m => Ok m
  | None => Err (404, mission_missing)
  end.

(** *** Edits *)

Definition assertEditable (row : MissionRow) (patch : MissionPatch) : res merr () :=
  _ ← fail_if (isTerminalMissionStatus (mr_status row) && negb (onlyChatOption patch))
        (409, mission_finished (mr_status row));
  fail_if (negb (String.eqb (mr_status row) "draft") && touchesBrief patch) (409, brief_is_locked).

(** [if (patch.key !== undefined) ...] *)
Definition on_field (patch : MissionPatch) (key : string) (f : jsval → MissionRow → res merr MissionRow)
    (row : MissionRow) : res merr MissionRow :=
  if names patch key then f (field patch key) row else Ok row.

Definition set_title (v : jsval) (row : MissionRow) : res merr MissionRow :=
  _ ← fail_if (negb (truthy (trimmed_text v))) (400, title_empty);
  Ok (row<|mr_title := trimmed_text v|>).
Definition set_objective (v : jsval) (row : MissionRow) : res merr MissionRow :=
  _ ← fail_if (negb (truthy (trimmed_text v))) (400, objective_empty);
  Ok (row<|mr_objective := trimmed_text v|>).
Definition set_criteria (v : jsval) (row : MissionRow) : res merr MissionRow :=
  criteria ← lift_criteria (normalizeCompletionCriteria v);
  Ok (row<|mr_completion_criteria := or_none criteria|>).
Definition set_post_actions (v : jsval) (row : MissionRow) : res merr MissionRow :=
  postActions ← lift_actions (normalizePostActions v);
  Ok (row<|mr_post_actions := or_none postActions|>
         <|mr_post_actions_pending := negb (bool_decide (postActions = []))|>).

Definition edit_texts (patch : MissionPatch) (row : MissionRow) : res merr MissionRow :=
  row ← on_field patch "title" set_title row;
  row ← on_field patch "objective" set_objective row;
  let row := row<|mr_context := patched (field patch "context") trimmed_text (mr_context row)|>
                <|mr_acceptance_criteria :=
                    patched (field patch "acceptance_criteria") trimmed_text (mr_acceptance_criteria row)|>
                <|mr_method := patched (field patch "method") trimmed_text (mr_method row)|> in
  row ← on_field patch "completion_criteria" set_criteria row;
  on_field patch "post_actions" set_post_actions row.

Definition edit_places (bd : Board) (patch : MissionPatch) (row : MissionRow) : res merr MissionRow :=
  row ← (if names patch "projects" || names patch "repo_ref" then
           projects ← normalizeProjectsInput (bd_projects bd) (field patch "projects") (field patch "repo_ref")
                        (mr_account_id row);
           Ok (row<|mr_projects := list_json project_json projects|><|mr_repo_ref := JNull|>)
         else Ok row);
  row ← on_field patch "folder_scope" (λ v row,
          scope ← normalizeFolderScopeInput v; Ok (row<|mr_folder_scope := scope|>)) row;
  Ok (row<|mr_workspace_folder := patched (field patch "workspace_folder") normalizeWorkspaceFolder (mr_workspace_folder row)|>
         <|mr_checkout_mode := patched (field patch "checkout_mode") normalizeCheckoutMode (mr_checkout_mode row)|>).

Definition edit_numbers (patch : MissionPatch) (row : MissionRow) : MissionRow :=
  let clamped key old lo hi := patched (field patch key) (λ v, clampInt floor_other v old lo hi) old in
  row<|mr_max_parallel_steps := clamped "max_parallel_steps" (mr_max_parallel_steps row) 1 MAX_PARALLEL_CEILING|>
     <|mr_max_steps := clamped "max_steps" (mr_max_steps row) 1 MAX_STEPS_CEILING|>
     <|mr_max_plan_versions := clamped "max_plan_versions" (mr_max_plan_versions row) 1 50|>
     <|mr_graph_enabled := patched (field patch "graph_enabled") is_true_val (mr_graph_enabled row)|>
     <|mr_confirm_policy := patched (field patch "confirm_policy") normalizeConfirmPolicy (mr_confirm_policy row)|>
     <|mr_user_chat_mode := patched (field patch "user_chat_mode") normalizeUserChatMode (mr_user_chat_mode row)|>
     <|mr_step_timeout_minutes := clamped "step_timeout_minutes" (mr_step_timeout_minutes row) 0 (60 * 24 * 7)|>.

Definition edit_roster (mo : Moment) (bd : Board) (patch : MissionPatch) (row : MissionRow) : res merr MissionRow :=
  if names patch "excluded_member_ids" || names patch "extra_members" then
    match List.find (λ t, String.eqb (tr_id t) (mr_team_id row)) (td_teams (bd_teams bd)) with
    | None => Err (404, team_missing_for_mission)
    | Some team =>
        row ← on_field patch "excluded_member_ids" (λ v row,
                excludedIds ← normalizeExcludedMemberIds v;
                _ ← assertExcludedOnTeam (td_members (bd_teams bd)) (tr_id team) excludedIds;
                Ok (row<|mr_excluded_member_ids := list_json JStr excludedIds|>)) row;
        on_field patch "extra_members" (λ v row,
          extraMembers ← normalizeExtraMembers floor_other (bd_dir bd) (mo_uuid mo) v (mr_account_id row);
          Ok (row<|mr_extra_member_specs := list_json extra_json extraMembers|>)) row
    end
  else Ok row.

Definition edit_mission (mo : Moment) (bd : Board) (patch : MissionPatch) (row : MissionRow) : res merr MissionRow :=
  row ← edit_texts patch row;
  row ← edit_places bd patch row;
  edit_roster mo bd patch (edit_numbers patch row).

(** [em.save]: the whole row; it is inserted where it is not there any more. *)
Definition save_mission (row : MissionRow) (db : MissionDb) : MissionDb :=
  if includes (List.map mr_id (md_missions db)) (mr_id row)
  then db<|md_missions ::= List.map (λ m, if String.eqb (mr_id m) (mr_id row) then row else m)|>
  else db<|md_missions := md_missions db ++ [row]|>.

Definition syncMissionRoomOpenJoin (row : MissionRow) (db : MissionDb) : MissionDb :=
  match mr_room_id row with
  | Some id =>
      let desired := openJoinForUserChatMode (mr_user_chat_mode row) in
      if truthy id then
        db<|md_rooms ::= List.map (λ r, if String.eqb (ro_id r) id then r<|ro_open_join := desired|> else r)|>
      else db
  | None => db
  end.

(** What [updateMission] reads, and the row it will save. *)
Definition read_for_edit (mo : Moment) (bd : Board) (missionId accountId : string) (patch : MissionPatch) (db : MissionDb)
    : res merr (MissionRow * MissionRow) :=
  mission ← requireMission db missionId accountId;
  _ ← assertEditable mission patch;
  edited ← edit_mission mo bd patch mission;
  Ok (mission, edited).

(** Its transaction. *)
Definition commit_edit (row : MissionRow) (db : MissionDb) : MissionDb :=
  syncMissionRoomOpenJoin row (save_mission row db).

Definition updateMission (mo : Moment) (bd : Board) (missionId accountId : string) (patch : MissionPatch)
    (db : MissionDb) : res merr MissionRow * MissionDb :=
  match '(_, mission) ← read_for_edit mo bd missionId accountId patch db;
        _ ← fail_if (mo_commit_fails mo) (500, save_failed);
        Ok mission with
  | Err e => (Err e, db)
  | Ok mission => (Ok mission, commit_edit mission db)
  end.

Definition read_for_deletion (missionId accountId : string) (db : MissionDb) : res merr MissionRow :=
  mission ← requireMission db missionId accountId;
  _ ← fail_if (negb (isTerminalMissionStatus (mr_status mission)) && negb (String.eqb (mr_status mission) "draft"))
        (409, mission_still_open (mr_status mission));
  Ok mission.

Definition delete_mission (id : string) (db : MissionDb) : MissionDb :=
  db<|md_steps ::= lfilter (λ s, negb (String.eqb (sk_mission_id s) id))|>
    <|md_events ::= lfilter (λ e, negb (String.eqb (er_mission_id e) id))|>
    <|md_missions ::= lfilter (λ m, negb (String.eqb (mr_id m) id))|>.

Definition deleteMission (missionId accountId : string) (db : MissionDb) : res merr () * MissionDb :=
  match read_for_deletion missionId accountId db with
  | Err e => (Err e, db)
  | Ok mission => (Ok tt, delete_mission (mr_id mission) db)
  end.
End service.

(** ** Counting steps *)

Record MissionCounts := {
  mc_total : Z; mc_done : Z; mc_failed : Z; mc_inFlight : Z; mc_pending : Z; mc_awaitingUser : Z; mc_awaitingApproval : Z
}.

Definition count_step (c : MissionCounts) (s : string) : MissionCounts :=
  if includes ["done"; "skipped"] s then c<|mc_done ::= Z.succ|>
  else if includes ["failed"; "blocked"; "cancelled"] s then c<|mc_failed ::= Z.succ|>
  else if isInFlight s then c<|mc_inFlight ::= Z.succ|>
  else if isAwaitingUser s then c<|mc_awaitingUser ::= Z.succ|>
  else if negb (isTerminalStepStatus s) then c<|mc_pending ::= Z.succ|>
  else c.

Definition countSteps (statuses : list string) (awaitingApproval : Z) : MissionCounts :=
  foldl count_step
    {| mc_total := Z.of_nat (length statuses); mc_done := 0; mc_failed := 0; mc_inFlight := 0; mc_pending := 0;
       mc_awaitingUser := 0; mc_awaitingApproval := awaitingApproval |} statuses.

(** ** Histories

    Calls of the service, and what the runner writes to a mission's row in one of
    its methods: its status, its criteria and post-actions, and on starting it the
    room it works in. *)

Record EngineWrite := {
  ew_mission : string;
  ew_status : string;
  ew_new_room : option string;
  ew_orchestrator_agent_id : option string;
  ew_completion_criteria : option (list MissionCompletionCriterion);
  ew_post_actions : option (list MissionPostAction);
  ew_post_actions_pending : bool
}.

Definition engine_row (w : EngineWrite) (m : MissionRow) : MissionRow :=
  m<|mr_status := ew_status w|>
   <|mr_room_id := match ew_new_room w with Some r => Some r | None => mr_room_id m end|>
   <|mr_orchestrator_agent_id := ew_orchestrator_agent_id w|>
   <|mr_completion_criteria := ew_completion_criteria w|>
   <|mr_post_actions := ew_post_actions w|>
   <|mr_post_actions_pending := ew_post_actions_pending w|>.

(** [startMission] gives the new room the flag of the mission's option. *)
Definition engine_rooms (w : EngineWrite) (db : MissionDb) : list RoomRow :=
  match ew_new_room w, List.find (λ m, String.eqb (mr_id m) (ew_mission w)) (md_missions db) with
  | Some r, Some m => [{| ro_id := r; ro_open_join := openJoinForUserChatMode (mr_user_chat_mode m) |}]
  | _, _ => []
  end.

Definition engine_write (w : EngineWrite) (db : MissionDb) : MissionDb :=
  db<|md_rooms := md_rooms db ++ engine_rooms w db|>
    <|md_missions := List.map (λ m, if String.eqb (mr_id m) (ew_mission w) then engine_row w m else m) (md_missions db)|>.

Inductive MissionCall : Type :=
  | mission_creates (mo : Moment) (bd : Board) (input : MissionInput)
  | mission_updates (mo : Moment) (bd : Board) (missionId accountId : string) (patch : MissionPatch)
  | mission_deletes (missionId accountId : string)
  | engine_writes (w : EngineWrite).

Section histories.
Context (floor_other : jsval → option Z) (displayName : string → option string) (d : Driver)
  (budget : string → ResolvedHardBudget).

Definition run_mission_call (c : MissionCall) (db : MissionDb) : MissionDb :=
  match c with
  | mission_creates mo bd input => snd (createMission floor_other displayName d budget mo bd input db)
  | mission_updates mo bd missionId accountId patch =>
      snd (updateMission floor_other mo bd missionId accountId patch db)
  | mission_deletes missionId accountId => snd (deleteMission missionId accountId db)
  | engine_writes w => engine_write w db
  end.

Definition run_mission_calls (calls : list MissionCall) (db : MissionDb) : MissionDb :=
  foldl (λ db c, run_mission_call c db) db calls.

(** *** Overlapping calls *)

(** A call that has made its checks and has yet to write, with what it was called
    with. *)
Inductive PendingCall : Type :=
  | inserting (mo : Moment) (bd : Board) (input : MissionInput) (team : TeamRow) (row : MissionRow)
  | saving (mo : Moment) (bd : Board) (patch : MissionPatch) (old row : MissionRow)
  | deleting (id : string).

Record MissionWorld := { mw_db : MissionDb; mw_calls : list PendingCall }.

(** A call begins, and makes its checks; one under way writes, or comes to nothing —
    its write fails, or its server stops; the engine writes. *)
Inductive MissionEvent : Type :=
  | create_checks (mo : Moment) (bd : Board) (input : MissionInput)
  | update_reads (mo : Moment) (bd : Board) (missionId accountId : string) (patch : MissionPatch)
  | delete_checks (missionId accountId : string)
  | call_writes (i : nat) (mo : Moment)
  | call_dies (i : nat)
  | engine_acts (w : EngineWrite).

Definition begun {A} (r : res merr A) (call : A → PendingCall) (w : MissionWorld) : MissionWorld :=
  match r with Ok a => {| mw_db := mw_db w; mw_calls := mw_calls w ++ [call a] |} | Err _ => w end.

Definition call_write (mo : Moment) (c : PendingCall) (db : MissionDb) : MissionDb :=
  match c with
  | inserting _ _ _ team row => insert_mission displayName d mo team row db
  | saving _ _ _ _ row => commit_edit row db
  | deleting id => delete_mission id db
  end.

Definition run_mission_event (e : MissionEvent) (w : MissionWorld) : MissionWorld :=
  match e with
  | create_checks mo bd input =>
      begun (new_mission floor_other d budget mo bd input (mw_db w)) (λ '(team, row), inserting mo bd input team row) w
  | update_reads mo bd missionId accountId patch =>
      begun (read_for_edit floor_other mo bd missionId accountId patch (mw_db w)) (λ '(old, row), saving mo bd patch old row) w
  | delete_checks missionId accountId => begun (read_for_deletion missionId accountId (mw_db w)) (λ m, deleting (mr_id m)) w
  | call_writes i mo =>
      match mw_calls w !! i with
      | Some c => {| mw_db := call_write mo c (mw_db w); mw_calls := delete i (mw_calls w) |}
      | None => w
      end
  | call_dies i => {| mw_db := mw_db w; mw_calls := delete i (mw_calls w) |}
  | engine_acts ew => {| mw_db := engine_write ew (mw_db w); mw_calls := mw_calls w |}
  end.

Definition run_mission_events (events : list MissionEvent) (w : MissionWorld) : MissionWorld :=
  foldl (λ w e, run_mission_event e w) w events.

(** No call is under way. *)
Definition idle (db : MissionDb) : MissionWorld := {| mw_db := db; mw_calls := [] |}.
End histories.
