(* ===== verification/MissionFacts.v ===== *)
(** * Facts about missions

    What a stored mission holds and how it reads back — where calls overlap — who may
    create one and how often, what an edit may change — where calls are made one
    after another — and that a room follows its mission's chat option. *)

From S2P Require Import Prelude JsStd Vocabulary Cli Roster Json SlotSpec SlotSpecFacts Teams TeamFacts WorkFolder RunProvisioner.
From S2P Require Import Timeline TimelineFacts RunBudget MissionInputs MissionService.
#[local] Open Scope Z_scope.

(** ** Inputs *)

Record projects_ok (refs : list MissionProjectRef) : Prop := {
  po_distinct : NoDup (List.map mpr_project_id refs);
  po_few : Z.of_nat (length refs) <= MAX_MISSION_PROJECTS;
  po_ids : ∀ r, r ∈ refs → trimmed (Some (mpr_project_id r)) ∧ trim (mpr_branch r) = mpr_branch r
}.

Record excluded_ok (ids : list string) : Prop := {
  eo_distinct : NoDup ids;
  eo_few : Z.of_nat (length ids) <= 100;
  eo_ids : ∀ id, id ∈ ids → trimmed (Some id)
}.

Record extra_ok (e : MissionExtraMember) : Prop := {
  xo_slot : me_slot_id e ≠ "";
  xo_role : trim (me_role_label e) = me_role_label e;
  xo_capabilities : trim (me_capabilities e) = me_capabilities e;
  xo_concurrent : 1 <= me_max_concurrent e <= MAX_PARALLEL_CEILING;
  xo_spec : slot_ok (me_spec e)
}.

Record extras_ok (es : list MissionExtraMember) : Prop := {
  xs_few : Z.of_nat (length es) <= 20;
  xs_each : ∀ e, e ∈ es → extra_ok e
}.

Lemma projects_ok_nil : projects_ok [].
Proof. constructor; [constructor|done|]. by intros r Hr%not_elem_of_nil. Qed.

Lemma projects_ok_one id branch : trimmed (Some id) → trim branch = branch →
  projects_ok [{| mpr_project_id := id; mpr_branch := branch |}].
Proof.
  intros Hi Hb. constructor; [by apply NoDup_singleton|unfold MAX_MISSION_PROJECTS; simpl; lia|].
  intros r ->%list_elem_of_singleton. by split.
Qed.

Lemma trimmed_field_trimmed v : trimmed (trimmed_field v).
Proof.
  intros s. unfold trimmed_field. destruct (is_nullish v); [done|].
  destruct (truthy _) eqn:E; [|done]. intros [= <-]. apply truthy_true in E. by rewrite trim_idem.
Qed.

(** Every entry adds one project, distinct from those before it. *)
Definition entries_read (st : list string * list MissionProjectRef) : Prop :=
  st.1 = List.map mpr_project_id st.2 ∧ NoDup st.1 ∧
  ∀ r, r ∈ st.2 → trimmed (Some (mpr_project_id r)) ∧ trim (mpr_branch r) = mpr_branch r.

Lemma read_project_Ok st i entry st' : read_project st (i, entry) = Ok st' →
  length st'.2 = S (length st.2) ∧ (entries_read st → entries_read st').
Proof.
  destruct st as [seen out]. unfold read_project.
  destruct (match entry with JStr s => _ | _ => _ end) as [| | | | | |fields]; try discriminate.
  set (raw := JObj fields). intros H. apply bind_Ok in H as ([] & Ht%fail_if_Ok%negb_false_iff & H).
  apply bind_Ok in H as ([] & Hs%fail_if_Ok & [= <-]). simpl. split; [rewrite length_app; simpl; lia|].
  intros (E & Hn & Hall). unfold entries_read; simpl in *. unfold set_add. rewrite Hs. apply includes_false in Hs.
  split_and!; [by rewrite List.map_app, E|by apply NoDup_snoc|].
  intros r [Hr| ->%list_elem_of_singleton]%elem_of_app; [by apply Hall|]. simpl.
  apply truthy_true in Ht. split; [intros x [= <-]; split; [done|]|]; apply str_trim.
Qed.

Lemma read_projects_Ok l : ∀ st st', foldM read_project st l = Ok st' →
  length st'.2 = (length st.2 + length l)%nat ∧ (entries_read st → entries_read st').
Proof.
  induction l as [|[i e] l IH]; intros st st' H; cbn [foldM] in H; [injection H as <-; simpl; split; [lia|done]|].
  apply bind_Ok in H as (st1 & H1 & H). apply read_project_Ok in H1 as [Hl H1]. apply IH in H as [Hl' H].
  split; [simpl; lia|auto].
Qed.

Lemma normalizeMissionProjects_ok v refs : normalizeMissionProjects v = Ok refs → projects_ok refs.
Proof.
  unfold normalizeMissionProjects. destruct (is_nullish v); [intros [= <-]; apply projects_ok_nil|].
  destruct v as [| | | | |l|]; try discriminate. intros H.
  apply bind_Ok in H as ([] & Hf%fail_if_Ok & H). apply bind_Ok in H as ([seen out] & H & [= <-]).
  apply read_projects_Ok in H as [Hl H]. simpl in *. breflect.
  destruct H as (E & Hn & Hall); [split_and!; [done|constructor|by intros r Hr%not_elem_of_nil]|]. simpl in *.
  constructor; [by rewrite <- E| |done]. unfold with_index in Hl. rewrite Hl, length_imap. lia.
Qed.

Lemma normalizeProjectsInput_ok projects v ref accountId refs :
  normalizeProjectsInput projects v ref accountId = Ok refs →
  projects_ok refs ∧ ∀ r, r ∈ refs → mpr_project_id r ∈ in_account projects accountId.
Proof.
  unfold normalizeProjectsInput. intros H. apply bind_Ok in H as (refs' & Hr & H).
  apply bind_Ok in H as ([] & Hm%fail_if_Ok%negb_false_iff%bool_decide_eq_true & [= ->]). split.
  - destruct (negb (is_nullish v)); [by eapply normalizeMissionProjects_ok|].
    unfold normalizeRepoRef in Hr. destruct ref as [| | | | | |fields]; try (injection Hr as <-; apply projects_ok_nil).
    set (raw := JObj fields) in *. cbn [rr_project_id rr_url rr_branch] in Hr.
    pose proof (trimmed_field_trimmed (nullish_or (prop raw "project_id") (prop raw "resource_id"))) as Hid.
    pose proof (trimmed_field_trimmed (prop raw "branch")) as Hb.
    destruct (trimmed_field (nullish_or _ _)) as [id|], (trimmed_field (prop raw "url")), (trimmed_field (prop raw "branch")) as [b|];
      cbn in Hr; first [discriminate|injection Hr as <-]; first [apply projects_ok_nil|apply projects_ok_one; try done].
    all: by apply (Hb b).
  - intros r Hr'. apply List.map_eq_nil in Hm. pose proof (proj1 (lfilter_nil _ _) Hm r Hr') as E.
    by apply negb_false_iff, includes_true in E.
Qed.

Lemma normalizeExcludedMemberIds_ok v ids : normalizeExcludedMemberIds v = Ok ids → excluded_ok ids.
Proof.
  unfold normalizeExcludedMemberIds. destruct (is_nullish v).
  { intros [= <-]. constructor; [constructor|simpl; lia|by intros r Hr%not_elem_of_nil]. }
  destruct v as [| | | | |l|]; try discriminate. intros H. apply bind_Ok in H as ([] & Hf%fail_if_Ok & [= <-]). breflect.
  constructor; [apply NoDup_new_Set|done|]. intros id Hid x [= <-]. unfold distinct_ids in Hid.
  apply elem_of_new_Set, elem_of_lfilter in Hid as [(v & -> & _)%elem_of_map Ht]. apply truthy_true in Ht. by rewrite trim_idem.
Qed.

Lemma text_or_empty_trim v : trim (text_or_empty v) = text_or_empty v.
Proof. unfold text_or_empty. destruct (js_truthy v); [apply trim_idem|done]. Qed.

Section extras.
Context (floor_other : jsval → option Z) (dir : Directory) (uuid : nat → string).

(** What was looked up for an extra member of a mission of [accountId]. *)
Definition extra_found (accountId : string) (e : MissionExtraMember) : Prop :=
  host_exists dir (ss_manager_agent_id (me_spec e)) = true ∧
  (∀ id, ss_credential_id (me_spec e) = Some id → credential_usable dir id (Some accountId) = true) ∧
  ∀ id, ss_cli_runtime_profile (me_spec e) = Some id → id = CLI_RUNTIME_NONE ∨ id ∈ dir_profiles dir.

Lemma read_extra_input_ok accountId i raw e :
  uuid i ≠ "" → read_extra_input floor_other dir uuid accountId i raw = Ok e →
  extra_ok e ∧ extra_found accountId e ∧ me_slot_id e = uuid i.
Proof.
  unfold read_extra_input. intros Hu H. destruct raw as [| | | | | |fields]; try discriminate.
  destruct (normalizeTeamSlotSpec _) as [spec|x] eqn:Es; [|discriminate]. cbn [mbind res_bind] in H.
  apply normalizeTeamSlotSpec_ok in Es as [Hs _].
  apply bind_Ok in H as ([] & Hh%fail_if_Ok%negb_false_iff & H). apply bind_Ok in H as ([] & Hc & H).
  apply bind_Ok in H as ([] & Hp & [= <-]). split_and!; [|split_and!; [done|..]|done].
  - constructor; simpl; try done; try apply text_or_empty_trim. by apply clampInt_bounds.
  - simpl. intros id E. rewrite E in Hc. apply fail_if_Ok in Hc.
    assert (Ht : truthy id = true).
    { apply truthy_true. by destruct (slot_credential_ok _ (proj1 (proj1 Hs)) id E). }
    rewrite Ht in Hc. by apply negb_false_iff in Hc.
  - simpl. intros id E. rewrite E in Hp. apply fail_if_Ok in Hp.
    assert (Ht : truthy id = true).
    { apply truthy_true. by destruct (proj1 (slot_profile_ok _ (proj1 (proj1 Hs))) id E). }
    rewrite Ht in Hp. simpl in Hp. destruct (String.eqb_spec id CLI_RUNTIME_NONE); [by left|right].
    by apply negb_false_iff, includes_true in Hp.
Qed.

Lemma normalizeExtraMembers_ok v accountId es :
  (∀ i, uuid i ≠ "") → normalizeExtraMembers floor_other dir uuid v accountId = Ok es →
  extras_ok es ∧ ∀ e, e ∈ es → extra_found accountId e.
Proof.
  intros Hu. unfold normalizeExtraMembers. destruct (is_nullish v).
  { intros [= <-]. split; [constructor; [simpl; lia|]|]; by intros r Hr%not_elem_of_nil. }
  destruct v as [| | | | |l|]; try discriminate. intros H. apply bind_Ok in H as ([] & Hf%fail_if_Ok & H). breflect.
  set (step := λ (out : list MissionExtraMember) '(i, raw), _) in H.
  assert (Hn : ∀ k out out', foldM step out k = Ok out' → length out' = (length out + length k)%nat ∧
            ((∀ e, e ∈ out → extra_ok e ∧ extra_found accountId e) → ∀ e, e ∈ out' → extra_ok e ∧ extra_found accountId e)).
  { induction k as [|[i raw] k IH]; intros out out' Hk; cbn [foldM] in Hk; [injection Hk as <-; simpl; split; [lia|done]|].
    apply bind_Ok in Hk as (out1 & H1 & Hk). apply bind_Ok in H1 as (e1 & He & [= <-]).
    apply read_extra_input_ok in He as (He & Hfd & _); [|done]. apply IH in Hk as [Hl Hk].
    rewrite length_app in Hl. split; [simpl in *; lia|]. intros Ho. apply Hk.
    by intros e [?| ->%list_elem_of_singleton]%elem_of_app; [apply Ho|]. }
  destruct (Hn _ _ _ H) as [Hl Hall]. specialize (Hall (λ e He, False_rect _ (not_elem_of_nil _ He))).
  split; [|by intros e He; apply Hall]. constructor; [|by intros e He; apply Hall].
  unfold with_index in Hl. rewrite length_imap in Hl. simpl in Hl. rewrite Hl. lia.
Qed.
End extras.

Lemma normalizeFolderScopeInput_ok v s : normalizeFolderScopeInput v = Ok s → s = "shared" ∨ s = "isolated".
Proof.
  assert (Ht : ∀ raw, (if String.eqb raw "shared" || String.eqb raw "isolated" then Ok raw
                       else Err (400, folder_scope_unknown raw) : res merr string) = Ok s → s = "shared" ∨ s = "isolated").
  { intros raw. destruct (String.eqb_spec raw "shared"), (String.eqb_spec raw "isolated"); intros [= <-]; auto. }
  unfold normalizeFolderScopeInput. destruct v as [| | | |s0| |]; try apply Ht; try (intros [= <-]; by left).
  destruct s0; [intros [= <-]; by left|apply Ht].
Qed.

(** ** Reading back *)

Section read_back.
Context (JSON_parse : string → option jsval).

Lemma projects_read_back refs : projects_ok refs →
  readMissionProjects JSON_parse (list_json project_json refs) JNull = refs.
Proof.
  intros [_ _ H]. destruct refs as [|r refs]; [done|]. unfold list_json, readMissionProjects, decoded. cbn [default List.map].
  assert (E : ∀ l, (∀ r, r ∈ l → trimmed (Some (mpr_project_id r)) ∧ trim (mpr_branch r) = mpr_branch r) →
    lfilter (λ r, truthy (mpr_project_id r))
      (List.map (λ p, {| mpr_project_id := str (prop p "project_id"); mpr_branch := str (prop p "branch") |})
         (List.map project_json l)) = l).
  { induction l as [|x l IH]; intros Hl; [done|]. destruct (Hl x (list_elem_of_here _ _)) as [Hx Hb].
    destruct (Hx _ eq_refl) as [Hne Ht]. cbn [List.map].
    change (str (prop (project_json x) "project_id")) with (str (JStr (mpr_project_id x))).
    change (str (prop (project_json x) "branch")) with (str (JStr (mpr_branch x))).
    rewrite !str_JStr by done. cbn. rewrite (proj2 (truthy_true _) Hne).
    assert (Hi : ∀ y, y ∈ l → trimmed (Some (mpr_project_id y)) ∧ trim (mpr_branch y) = mpr_branch y)
      by (intros y Hy; apply Hl; by apply list_elem_of_further).
    specialize (IH Hi). unfold lfilter in IH. rewrite IH. by destruct x. }
  exact (E (r :: refs) H).
Qed.

Lemma excluded_read_back ids : excluded_ok ids → readExcludedMemberIds JSON_parse (list_json JStr ids) = ids.
Proof.
  intros [_ _ H]. destruct ids as [|id ids]; [done|]. unfold list_json, readExcludedMemberIds.
  rewrite List.map_map, (List.map_ext_in _ (λ x, x)), List.map_id.
  - apply lfilter_all. intros x Hx. apply truthy_true. by destruct (H x Hx x eq_refl).
  - intros x Hx%list_elem_of_In. simpl. by destruct (H x Hx x eq_refl).
Qed.

(** What a stored extra member is read as. *)
Definition stored_extra (e : MissionExtraMember) : StoredExtra :=
  {| sx_slot_id := me_slot_id e; sx_role_label := JStr (me_role_label e); sx_capabilities := JStr (me_capabilities e);
     sx_max_concurrent := JNum (JInt (me_max_concurrent e)); sx_spec := slot_json (me_spec e) |}.

Lemma extras_read_back es : extras_ok es →
  readExtraMembers JSON_parse (list_json extra_json es) = List.map stored_extra es ∧
  ∀ e, e ∈ es → parseTeamSlotSpec JSON_parse (sx_spec (stored_extra e)) = Some (me_spec e).
Proof.
  intros [_ H]. split; [|intros e He; apply parse_stored, (xo_spec _ (H e He))].
  assert (E : ∀ l, (∀ e, e ∈ l → extra_ok e) → omap read_extra_member (List.map extra_json l) = List.map stored_extra l).
  { induction l as [|e l IH]; intros Hl; [done|]. cbn [List.map]. simpl.
    assert (Es : read_extra_member (extra_json e) = Some (stored_extra e)).
    { pose proof (proj2 (truthy_true _) (xo_slot _ (Hl e (list_elem_of_here _ _)))) as Ht.
      unfold read_extra_member, extra_json, stored_extra. cbn -[truthy slot_json]. by rewrite !Ht. }
    rewrite Es. f_equal. apply IH. intros y Hy. apply Hl. by apply list_elem_of_further. }
  destruct es as [|e es]; [done|]. exact (E (e :: es) H).
Qed.
End read_back.

(** ** Rows *)

Record mission_row_ok (m : MissionRow) : Prop := {
  mk_title : trimmed (Some (mr_title m));
  mk_objective : trimmed (Some (mr_objective m));
  mk_projects : ∃ refs, projects_ok refs ∧ mr_projects m = list_json project_json refs;
  mk_repo_ref : mr_repo_ref m = JNull;
  mk_excluded : ∃ ids, excluded_ok ids ∧ mr_excluded_member_ids m = list_json JStr ids;
  mk_extras : ∃ es, extras_ok es ∧ mr_extra_member_specs m = list_json extra_json es;
  mk_scope : mr_folder_scope m = "shared" ∨ mr_folder_scope m = "isolated";
  mk_parallel : 1 <= mr_max_parallel_steps m <= MAX_PARALLEL_CEILING;
  mk_steps : 1 <= mr_max_steps m <= MAX_STEPS_CEILING;
  mk_versions : 1 <= mr_max_plan_versions m <= 50;
  mk_timeout : 0 <= mr_step_timeout_minutes m <= 60 * 24 * 7
}.

(** What no edit changes. *)
Definition identity_of (m : MissionRow) : string * string * string * string * option string * Z :=
  (mr_id m, mr_account_id m, mr_team_id m, mr_status m, mr_room_id m, mr_created_at m).

(** Everything the orchestrator is briefed with. *)
Definition brief_of (m : MissionRow) :=
  (mr_title m, mr_objective m, mr_context m, mr_acceptance_criteria m, mr_method m,
   (mr_projects m, mr_repo_ref m, mr_folder_scope m, mr_workspace_folder m, mr_checkout_mode m),
   (mr_graph_enabled m, mr_confirm_policy m, mr_excluded_member_ids m, mr_extra_member_specs m)).

Definition edit_ok (m m' : MissionRow) : Prop :=
  identity_of m' = identity_of m ∧ (mission_row_ok m → mission_row_ok m').

Lemma edit_ok_refl m : edit_ok m m.
Proof. by split. Qed.

Lemma edit_ok_trans m m1 m2 : edit_ok m m1 → edit_ok m1 m2 → edit_ok m m2.
Proof. intros [E1 H1] [E2 H2]. split; [congruence|auto]. Qed.

Lemma on_field_ok patch key f m m' :
  (∀ v m m', f v m = Ok m' → edit_ok m m') → on_field patch key f m = Ok m' → edit_ok m m'.
Proof. unfold on_field. intros Hf. destruct (names patch key); [apply Hf|intros [= ->]; apply edit_ok_refl]. Qed.

(** Splits [edit_ok m m'] where [m'] is [m] with fields set: the fields that were not are as they were. *)
Ltac edit_fields :=
  split; [done|]; intros [Htitle Hobjective Hprojects Href Hexcluded Hextras Hscope Hparallel Hsteps Hversions Htimeout];
  constructor; simpl; try done.

Lemma set_title_ok v m m' : set_title v m = Ok m' → edit_ok m m'.
Proof.
  unfold set_title. intros H. apply bind_Ok in H as ([] & Ht%fail_if_Ok%negb_false_iff & [= <-]). edit_fields.
  intros x [= <-]. apply truthy_true in Ht. unfold trimmed_text in *. by rewrite trim_idem.
Qed.

Lemma set_objective_ok v m m' : set_objective v m = Ok m' → edit_ok m m'.
Proof.
  unfold set_objective. intros H. apply bind_Ok in H as ([] & Ht%fail_if_Ok%negb_false_iff & [= <-]). edit_fields.
  intros x [= <-]. apply truthy_true in Ht. unfold trimmed_text in *. by rewrite trim_idem.
Qed.

Lemma edit_texts_ok patch m m' : edit_texts patch m = Ok m' → edit_ok m m'.
Proof.
  unfold edit_texts. intros H.
  apply bind_Ok in H as (m1 & H1%(on_field_ok _ _ _ _ _ set_title_ok) & H).
  apply bind_Ok in H as (m2 & H2%(on_field_ok _ _ _ _ _ set_objective_ok) & H).
  apply bind_Ok in H as (m3 & H3%on_field_ok & H4%on_field_ok).
  - eapply edit_ok_trans; [exact H1|]. eapply edit_ok_trans; [exact H2|].
    eapply edit_ok_trans; [|exact H4]. eapply edit_ok_trans; [|exact H3]. edit_fields.
  - unfold set_post_actions. intros v a a' Ha. apply bind_Ok in Ha as (l & _ & [= <-]). edit_fields.
  - unfold set_criteria. intros v a a' Ha. apply bind_Ok in Ha as (l & _ & [= <-]). edit_fields.
Qed.

Lemma edit_places_ok bd patch m m' : edit_places bd patch m = Ok m' → edit_ok m m'.
Proof.
  unfold edit_places. intros H. apply bind_Ok in H as (m1 & H1 & H). apply bind_Ok in H as (m2 & H2 & [= <-]).
  eapply edit_ok_trans; [|eapply edit_ok_trans; [eapply on_field_ok; [|exact H2]|edit_fields]].
  - destruct (_ || _); [|injection H1 as <-; apply edit_ok_refl].
    apply bind_Ok in H1 as (refs & [Hr _]%normalizeProjectsInput_ok & [= <-]). edit_fields. by exists refs.
  - intros v a a' Ha. apply bind_Ok in Ha as (s & Hs%normalizeFolderScopeInput_ok & [= <-]). by edit_fields.
Qed.

Section edits.
Context (floor_other : jsval → option Z).

Lemma edit_numbers_ok patch m : edit_ok m (edit_numbers floor_other patch m).
Proof.
  unfold edit_numbers. edit_fields; unfold patched;
    match goal with |- context [is_undefined ?v] => destruct (is_undefined v) end; try done; by apply clampInt_bounds.
Qed.

Lemma edit_roster_ok mo bd patch m m' :
  (∀ i, mo_uuid mo i ≠ "") → edit_roster floor_other mo bd patch m = Ok m' → edit_ok m m'.
Proof.
  unfold edit_roster. intros Hu H. destruct (_ || _); [|injection H as <-; apply edit_ok_refl].
  destruct (List.find _ _) as [t|]; [|discriminate]. apply bind_Ok in H as (m1 & H1%on_field_ok & H2%on_field_ok).
  - by eapply edit_ok_trans.
  - intros v a a' Ha. apply bind_Ok in Ha as (es & He & [= <-]).
    apply normalizeExtraMembers_ok in He as [He _]; [|done]. edit_fields. by exists es.
  - intros v a a' Ha. apply bind_Ok in Ha as (ids & Hi%normalizeExcludedMemberIds_ok & Ha).
    apply bind_Ok in Ha as ([] & _ & [= <-]). edit_fields. by exists ids.
Qed.

Lemma edit_mission_ok mo bd patch m m' :
  (∀ i, mo_uuid mo i ≠ "") → edit_mission floor_other mo bd patch m = Ok m' → edit_ok m m'.
Proof.
  unfold edit_mission. intros Hu H. apply bind_Ok in H as (m1 & H1%edit_texts_ok & H).
  apply bind_Ok in H as (m2 & H2%edit_places_ok & H3%edit_roster_ok); [|done].
  eapply edit_ok_trans; [exact H1|]. eapply edit_ok_trans; [exact H2|].
  eapply edit_ok_trans; [apply edit_numbers_ok|exact H3].
Qed.

(** *** An edit that is silent about the brief *)

Lemma field_silent patch key : names patch key = false → is_undefined (field patch key) = true.
Proof. unfold names. by intros H%negb_false_iff. Qed.

Lemma brief_silent patch key : touchesBrief patch = false → key ∈ BRIEF_KEYS → names patch key = false.
Proof. unfold touchesBrief. intros H Hk. by apply (proj1 (lsome_false _ _) H). Qed.

Lemma edit_without_brief mo bd patch m :
  touchesBrief patch = false → edit_mission floor_other mo bd patch m = Ok (edit_numbers floor_other patch m).
Proof.
  intros H. assert (Hn : ∀ key, includes BRIEF_KEYS key = true → names patch key = false).
  { intros key Hk%includes_true. by apply brief_silent. }
  assert (Hp : ∀ {A} key (f : jsval → A) x, includes BRIEF_KEYS key = true → patched (field patch key) f x = x).
  { intros A key f x Hk. unfold patched. by rewrite (field_silent _ _ (Hn key Hk)). }
  unfold edit_mission, edit_texts, edit_places, edit_roster, on_field.
  rewrite !Hn by reflexivity. cbn [mbind res_bind orb]. rewrite !Hp by reflexivity.
  by destruct m.
Qed.

Lemma edit_numbers_brief patch m : touchesBrief patch = false → brief_of (edit_numbers floor_other patch m) = brief_of m.
Proof.
  intros H. unfold brief_of, edit_numbers; simpl. unfold patched.
  by rewrite !(field_silent patch) by (apply brief_silent; [done|apply includes_true; reflexivity]).
Qed.

Lemma names_key patch key : names patch key = true → key ∈ lfilter (names patch) (JMap.keys patch).
Proof.
  intros H. apply elem_of_lfilter. split; [|done]. unfold names, field, prop in H.
  destruct (List.find _ _) as [e|] eqn:E; [|discriminate]. apply find_Some_elem in E as [He <-%String.eqb_eq].
  by apply elem_of_map_2.
Qed.

Lemma only_chat_silent patch key : onlyChatOption patch = true → key ≠ "user_chat_mode" → names patch key = false.
Proof.
  unfold onlyChatOption. intros [_ H]%andb_true_iff Hk. destruct (names patch key) eqn:E; [|done].
  apply names_key in E. apply (proj1 (levery_true _ _) H) in E. by apply String.eqb_eq in E.
Qed.

Lemma only_chat_edit mo bd patch m : onlyChatOption patch = true →
  edit_mission floor_other mo bd patch m = Ok (m<|mr_user_chat_mode := normalizeUserChatMode (field patch "user_chat_mode")|>).
Proof.
  intros H. assert (Hb : touchesBrief patch = false).
  { apply lsome_false. intros key Hk. apply only_chat_silent; [done|]. intros ->. by apply includes_true in Hk. }
  assert (Hc : is_undefined (field patch "user_chat_mode") = false).
  { unfold onlyChatOption in H. apply andb_true_iff in H as [Hne H].
    destruct (lfilter _ _) as [|k l] eqn:E; [discriminate|]. simpl in H. apply andb_true_iff in H as [->%String.eqb_eq _].
    assert (Hk : "user_chat_mode" ∈ lfilter (names patch) (JMap.keys patch)) by (rewrite E; apply list_elem_of_here).
    apply elem_of_lfilter in Hk as [_ Hk]. unfold names in Hk. by apply negb_true_iff in Hk. }
  rewrite edit_without_brief by done. f_equal. unfold edit_numbers, patched. rewrite Hc.
  rewrite !(field_silent patch) by (apply only_chat_silent; [done|discriminate]). by destruct m.
Qed.
End edits.

(** ** What a row says of its input *)

Section said.
Context (JSON_parse : string → option jsval) (floor_other : jsval → option Z).

Definition says_projects (bd : Board) (projects ref : jsval) (m : MissionRow) : Prop :=
  normalizeProjectsInput (bd_projects bd) projects ref (mr_account_id m)
  = Ok (readMissionProjects JSON_parse (mr_projects m) (mr_repo_ref m)).

Definition says_excluded (v : jsval) (m : MissionRow) : Prop :=
  normalizeExcludedMemberIds v = Ok (readExcludedMemberIds JSON_parse (mr_excluded_member_ids m)).

(** With every spec. *)
Definition reads_extras (es : list MissionExtraMember) (m : MissionRow) : Prop :=
  readExtraMembers JSON_parse (mr_extra_member_specs m) = List.map stored_extra es ∧
  ∀ e, e ∈ es → parseTeamSlotSpec JSON_parse (sx_spec (stored_extra e)) = Some (me_spec e).

Definition says_extras (mo : Moment) (bd : Board) (v : jsval) (m : MissionRow) : Prop :=
  ∃ es, normalizeExtraMembers floor_other (bd_dir bd) (mo_uuid mo) v (mr_account_id m) = Ok es ∧ reads_extras es m.

Definition says_criteria (v : jsval) (m : MissionRow) : Prop :=
  normalizeCompletionCriteria v = Ok (default [] (mr_completion_criteria m)).
Definition says_post_actions (v : jsval) (m : MissionRow) : Prop :=
  normalizePostActions v = Ok (default [] (mr_post_actions m)).

(** The row of a new mission says what its creation was given. *)
Record created_from (mo : Moment) (bd : Board) (input : MissionInput) (m : MissionRow) : Prop := {
  cf_whose : mr_account_id m = trim (ni_account_id input) ∧ mr_team_id m = ni_team_id input;
  cf_texts : mr_title m = trim (ni_title input) ∧ mr_objective m = trim (ni_objective input) ∧
    mr_context m = trim (ni_context input) ∧ mr_acceptance_criteria m = trim (ni_acceptance_criteria input) ∧
    mr_method m = trim (ni_method input);
  cf_criteria : says_criteria (ni_completion_criteria input) m;
  cf_post_actions : says_post_actions (ni_post_actions input) m;
  cf_projects : says_projects bd (ni_projects input) (ni_repo_ref input) m;
  cf_excluded : says_excluded (ni_excluded_member_ids input) m;
  cf_extras : says_extras mo bd (ni_extra_members input) m;
  cf_scope : normalizeFolderScopeInput (ni_folder_scope input) = Ok (mr_folder_scope m)
}.

(** The row of an edit says what the patch names, and what it said before of the
    rest. *)
Definition said_or_kept {A} (named : bool) (says : MissionRow → Prop) (column : MissionRow → A) (old m : MissionRow) : Prop :=
  if named then says m else column m = column old.

Record edited_from (mo : Moment) (bd : Board) (patch : MissionPatch) (old m : MissionRow) : Prop := {
  ef_title : said_or_kept (names patch "title") (λ m, mr_title m = trimmed_text (field patch "title")) mr_title old m;
  ef_objective :
    said_or_kept (names patch "objective") (λ m, mr_objective m = trimmed_text (field patch "objective")) mr_objective old m;
  ef_criteria : said_or_kept (names patch "completion_criteria") (says_criteria (field patch "completion_criteria"))
    mr_completion_criteria old m;
  ef_post_actions : said_or_kept (names patch "post_actions") (says_post_actions (field patch "post_actions")) mr_post_actions old m;
  ef_projects : said_or_kept (names patch "projects" || names patch "repo_ref")
    (says_projects bd (field patch "projects") (field patch "repo_ref")) (λ m, (mr_projects m, mr_repo_ref m)) old m;
  ef_excluded : said_or_kept (names patch "excluded_member_ids") (says_excluded (field patch "excluded_member_ids"))
    mr_excluded_member_ids old m;
  ef_extras : said_or_kept (names patch "extra_members") (says_extras mo bd (field patch "extra_members")) mr_extra_member_specs old m
}.

Lemma reads_stored es m : extras_ok es → mr_extra_member_specs m = list_json extra_json es → reads_extras es m.
Proof. intros H E. unfold reads_extras. rewrite E. by apply extras_read_back. Qed.

Lemma or_none_default {A} (l : list A) : default [] (or_none l) = l.
Proof. by destruct l. Qed.

Lemma lift_criteria_Ok {A} (r : res criteria_error A) a : lift_criteria r = Ok a → r = Ok a.
Proof. by destruct r; [intros [= ->]|]. Qed.
Lemma lift_actions_Ok {A} (r : res () A) a : lift_actions r = Ok a → r = Ok a.
Proof. by destruct r; [intros [= ->]|]. Qed.

Lemma new_mission_says d budget mo bd input db t m : (∀ i, mo_uuid mo i ≠ "") →
  new_mission floor_other d budget mo bd input db = Ok (t, m) → created_from mo bd input m.
Proof.
  intros Hu H. unfold new_mission in H. do 3 apply bind_Ok in H as ([] & _ & H). apply bind_Ok in H as (team & Ht & H).
  apply bind_Ok in H as ([] & _ & H). apply bind_Ok in H as (criteria & Hc%lift_criteria_Ok & H).
  apply bind_Ok in H as (actions & Ha%lift_actions_Ok & H). apply bind_Ok in H as (ids & Hi & H). apply bind_Ok in H as ([] & _ & H).
  apply bind_Ok in H as (es & He & H). apply bind_Ok in H as (refs & Hr & H). apply bind_Ok in H as (scope & Hs & [= <- <-]).
  pose proof (proj1 (normalizeProjectsInput_ok _ _ _ _ _ Hr)) as Hrefs.
  constructor; unfold says_criteria, says_post_actions, says_projects, says_excluded, says_extras; cbn; try done.
  - split; [done|]. unfold mission_team in Ht. destruct (List.find _ _) as [t0|] eqn:E; [|discriminate].
    apply bind_Ok in Ht as ([] & _ & Ht). apply bind_Ok in Ht as ([] & _ & [= ->]).
    by apply find_Some_elem in E as [_ [E%String.eqb_eq _]%andb_true_iff].
  - by rewrite or_none_default.
  - by rewrite or_none_default.
  - by rewrite projects_read_back.
  - rewrite excluded_read_back; [done|]. by eapply normalizeExcludedMemberIds_ok.
  - exists es. split; [done|]. apply reads_stored; [|done]. by eapply normalizeExtraMembers_ok.
Qed.

(** *** Edits, stage by stage *)

Definition texts_of (m : MissionRow) := (mr_title m, mr_objective m, mr_completion_criteria m, mr_post_actions m).
Definition places_of (m : MissionRow) := (mr_projects m, mr_repo_ref m).
Definition roster_of (m : MissionRow) := (mr_excluded_member_ids m, mr_extra_member_specs m).

Lemma on_field_keeps {A} (P : MissionRow → A) patch key f m m' :
  (∀ v m m', f v m = Ok m' → P m' = P m) → on_field patch key f m = Ok m' → P m' = P m.
Proof. unfold on_field. intros Hf. destruct (names patch key); [apply Hf|by intros [= ->]]. Qed.

Lemma on_field_says {A} (column : MissionRow → A) (says : jsval → MissionRow → Prop) patch key f m m' :
  (∀ v m m', f v m = Ok m' → says v m') → on_field patch key f m = Ok m' →
  said_or_kept (names patch key) (says (field patch key)) column m m'.
Proof. unfold on_field, said_or_kept. intros Hf. destruct (names patch key); [apply Hf|by intros [= ->]]. Qed.

(** A later stage that keeps what the statement is about. *)
Lemma said_later {A} (column : MissionRow → A) named (says : MissionRow → Prop) old m m' :
  (says m → says m') → column m' = column m → said_or_kept named says column old m → said_or_kept named says column old m'.
Proof. unfold said_or_kept. destruct named; [auto|congruence]. Qed.

Lemma said_earlier {A} (column : MissionRow → A) named (says : MissionRow → Prop) old old' m :
  column old' = column old → said_or_kept named says column old' m → said_or_kept named says column old m.
Proof. unfold said_or_kept. destruct named; [auto|congruence]. Qed.

Ltac set_inv := let H := fresh in
  intros ? ? ? H; repeat (apply bind_Ok in H as (? & ? & H)); injection H as <-.

Lemma edit_texts_says patch m m' : edit_texts patch m = Ok m' →
  places_of m' = places_of m ∧ roster_of m' = roster_of m ∧
  said_or_kept (names patch "title") (λ m, mr_title m = trimmed_text (field patch "title")) mr_title m m' ∧
  said_or_kept (names patch "objective") (λ m, mr_objective m = trimmed_text (field patch "objective")) mr_objective m m' ∧
  said_or_kept (names patch "completion_criteria") (says_criteria (field patch "completion_criteria")) mr_completion_criteria m m' ∧
  said_or_kept (names patch "post_actions") (says_post_actions (field patch "post_actions")) mr_post_actions m m'.
Proof.
  unfold edit_texts. intros H. apply bind_Ok in H as (m1 & H1 & H). apply bind_Ok in H as (m2 & H2 & H).
  apply bind_Ok in H as (m4 & H3 & H4).
  assert (K : ∀ {A} (P : MissionRow → A), (∀ v m m', set_title v m = Ok m' → P m' = P m) → P m1 = P m) by (intros; by eapply on_field_keeps).
  assert (K2 : ∀ {A} (P : MissionRow → A), (∀ v m m', set_objective v m = Ok m' → P m' = P m) → P m2 = P m1) by (intros; by eapply on_field_keeps).
  assert (K3 : ∀ {A} (P : MissionRow → A), (∀ v m m', set_criteria v m = Ok m' → P m' = P m) → P m4 = P _) by (intros; by eapply on_field_keeps).
  assert (K4 : ∀ {A} (P : MissionRow → A), (∀ v m m', set_post_actions v m = Ok m' → P m' = P m) → P m' = P m4) by (intros; by eapply on_field_keeps).
  split_and!.
  - rewrite (K4 _ places_of), (K3 _ places_of); [|set_inv; done..]. etrans; [apply (K2 _ places_of); set_inv; done|apply K; set_inv; done].
  - rewrite (K4 _ roster_of), (K3 _ roster_of); [|set_inv; done..]. etrans; [apply (K2 _ roster_of); set_inv; done|apply K; set_inv; done].
  - assert (E : mr_title m' = mr_title m1).
    { rewrite (K4 _ mr_title), (K3 _ mr_title); [|set_inv; done..]. apply (K2 _ mr_title). set_inv. done. }
    eapply (said_later _ _ _ _ m1); [congruence|done|].
    eapply (on_field_says mr_title (λ v m, mr_title m = trimmed_text v)); [|exact H1]. set_inv. done.
  - assert (E : mr_objective m' = mr_objective m2).
    { rewrite (K4 _ mr_objective), (K3 _ mr_objective); [done|set_inv; done..]. }
    eapply (said_later _ _ _ _ m2); [congruence|done|]. apply (said_earlier _ _ _ _ m1); [apply (K _ mr_objective); set_inv; done|].
    eapply (on_field_says mr_objective (λ v m, mr_objective m = trimmed_text v)); [|exact H2]. set_inv. done.
  - assert (E : mr_completion_criteria m' = mr_completion_criteria m4) by (apply (K4 _ mr_completion_criteria); set_inv; done).
    eapply (said_later _ _ _ _ m4); [unfold says_criteria; congruence|done|].
    eapply (said_earlier _ _ _ _ _ _); [|eapply (on_field_says mr_completion_criteria says_criteria); [|exact H3]].
    + cbn. etrans; [apply (K2 _ mr_completion_criteria); set_inv; done|apply (K _ mr_completion_criteria); set_inv; done].
    + intros v a a' Ha. apply bind_Ok in Ha as (l & Hl%lift_criteria_Ok & [= <-]). unfold says_criteria. cbn. by rewrite or_none_default.
  - eapply (said_earlier _ _ _ _ m4); [|eapply (on_field_says mr_post_actions says_post_actions); [|exact H4]].
    + rewrite (K3 _ mr_post_actions) by (set_inv; done). cbn.
      etrans; [apply (K2 _ mr_post_actions); set_inv; done|apply (K _ mr_post_actions); set_inv; done].
    + intros v a a' Ha. apply bind_Ok in Ha as (l & Hl%lift_actions_Ok & [= <-]). unfold says_post_actions. cbn. by rewrite or_none_default.
Qed.

Lemma edit_places_says bd patch m m' : edit_places bd patch m = Ok m' →
  texts_of m' = texts_of m ∧ roster_of m' = roster_of m ∧
  said_or_kept (names patch "projects" || names patch "repo_ref")
    (says_projects bd (field patch "projects") (field patch "repo_ref")) places_of m m'.
Proof.
  unfold edit_places. intros H. apply bind_Ok in H as (m1 & H1 & H). apply bind_Ok in H as (m2 & H2 & [= <-]).
  assert (K : ∀ {A} (P : MissionRow → A), (∀ s m, P (m<|mr_folder_scope := s|>) = P m) → P m2 = P m1).
  { intros A P HP. eapply on_field_keeps; [|exact H2]. set_inv. apply HP. }
  assert (E : texts_of m2 = texts_of m1 ∧ roster_of m2 = roster_of m1 ∧ places_of m2 = places_of m1 ∧ mr_account_id m2 = mr_account_id m1)
    by (split_and!; by apply K). clear K H2. destruct E as (Et & Er & Ep & Ea).
  assert (G : texts_of m1 = texts_of m ∧ roster_of m1 = roster_of m ∧
            said_or_kept (names patch "projects" || names patch "repo_ref")
              (says_projects bd (field patch "projects") (field patch "repo_ref")) places_of m m1).
  { unfold said_or_kept. destruct (_ || _); [|by injection H1 as <-].
    apply bind_Ok in H1 as (refs & Hr & [= <-]). split_and!; [done..|]. unfold says_projects. cbn.
    rewrite projects_read_back; [done|]. by apply normalizeProjectsInput_ok in Hr as [Hr _]. }
  destruct G as (G1 & G2 & G3). split_and!.
  - by rewrite <- G1, <- Et.
  - by rewrite <- G2, <- Er.
  - eapply (said_later _ _ _ _ m1); [|exact Ep|exact G3]. unfold says_projects. cbn. unfold places_of in Ep. by injection Ep as -> ->; rewrite Ea.
Qed.

Lemma edit_roster_says mo bd patch m m' : (∀ i, mo_uuid mo i ≠ "") → edit_roster floor_other mo bd patch m = Ok m' →
  texts_of m' = texts_of m ∧ places_of m' = places_of m ∧ mr_account_id m' = mr_account_id m ∧
  said_or_kept (names patch "excluded_member_ids") (says_excluded (field patch "excluded_member_ids")) mr_excluded_member_ids m m' ∧
  said_or_kept (names patch "extra_members") (says_extras mo bd (field patch "extra_members")) mr_extra_member_specs m m'.
Proof.
  unfold edit_roster. intros Hu H. destruct (names patch "excluded_member_ids" || names patch "extra_members") eqn:En.
  2: { injection H as <-. apply orb_false_iff in En as [-> ->]. by unfold said_or_kept. }
  destruct (List.find _ _) as [t|]; [|discriminate]. apply bind_Ok in H as (m1 & H1 & H2).
  assert (K1 : ∀ {A} (P : MissionRow → A), (∀ v m, P (m<|mr_excluded_member_ids := v|>) = P m) → P m1 = P m).
  { intros A P HP. eapply on_field_keeps; [|exact H1]. set_inv. apply HP. }
  assert (K2 : ∀ {A} (P : MissionRow → A), (∀ v m, P (m<|mr_extra_member_specs := v|>) = P m) → P m' = P m1).
  { intros A P HP. eapply on_field_keeps; [|exact H2]. set_inv. apply HP. }
  split_and!.
  - rewrite (K2 _ texts_of), (K1 _ texts_of); done.
  - rewrite (K2 _ places_of), (K1 _ places_of); done.
  - rewrite (K2 _ mr_account_id), (K1 _ mr_account_id); done.
  - assert (E : mr_excluded_member_ids m' = mr_excluded_member_ids m1) by (by apply (K2 _ mr_excluded_member_ids)).
    eapply (said_later _ _ _ _ m1); [unfold says_excluded; by rewrite E|done|].
    eapply (on_field_says mr_excluded_member_ids says_excluded); [|exact H1].
    intros v a a' Ha. apply bind_Ok in Ha as (ids & Hi & Ha). apply bind_Ok in Ha as ([] & _ & [= <-]). unfold says_excluded. cbn.
    rewrite excluded_read_back; [done|]. by eapply normalizeExcludedMemberIds_ok.
  - apply (said_earlier _ _ _ _ m1); [by apply (K1 _ mr_extra_member_specs)|].
    eapply (on_field_says mr_extra_member_specs (says_extras mo bd)); [|exact H2].
    intros v a a' Ha. apply bind_Ok in Ha as (es & He & [= <-]). exists es. split; [done|].
    apply reads_stored; [|done]. by eapply normalizeExtraMembers_ok.
Qed.

Lemma edit_mission_says mo bd patch m m' : (∀ i, mo_uuid mo i ≠ "") → edit_mission floor_other mo bd patch m = Ok m' →
  edited_from mo bd patch m m'.
Proof.
  unfold edit_mission. intros Hu H. apply bind_Ok in H as (m1 & H1%edit_texts_says & H). apply bind_Ok in H as (m2 & H2 & H3).
  pose proof H2 as (Et2 & Er2 & S2)%edit_places_says. apply edit_roster_says in H3 as (Et3 & Ep3 & Ea3 & S3 & S4); [|done].
  destruct H1 as (Ep1 & Er1 & T1 & T2 & T3 & T4).
  assert (Et : texts_of m' = texts_of m1) by (by rewrite Et3, <- Et2). injection Et as E1 E2 E3 E4.
  constructor.
  - by eapply (said_later _ _ _ _ m1); [congruence|..].
  - by eapply (said_later _ _ _ _ m1); [congruence|..].
  - by eapply (said_later _ _ _ _ m1); [unfold says_criteria; rewrite E3|..].
  - by eapply (said_later _ _ _ _ m1); [unfold says_post_actions; rewrite E4|..].
  - apply (said_earlier _ _ _ _ m1); [exact Ep1|].
    eapply (said_later _ _ _ _ m2); [|exact Ep3|exact S2]. unfold says_projects. unfold places_of in Ep3. cbn in Ep3. injection Ep3 as -> ->.
    by rewrite Ea3.
  - apply (said_earlier _ _ _ _ (edit_numbers floor_other patch m2)); [|done].
    change (roster_of m2 = roster_of m1) in Er2. rewrite Er1 in Er2. unfold roster_of in Er2. by injection Er2.
  - apply (said_earlier _ _ _ _ (edit_numbers floor_other patch m2)); [|done].
    change (roster_of m2 = roster_of m1) in Er2. rewrite Er1 in Er2. unfold roster_of in Er2. by injection Er2.
Qed.
End said.

(** ** Calls *)

Section calls.
Context (floor_other : jsval → option Z) (displayName : string → option string) (d : Driver)
  (budget : string → ResolvedHardBudget).

#[local] Abbreviation run := (run_mission_call floor_other displayName d budget).
#[local] Abbreviation run_all := (run_mission_calls floor_other displayName d budget).
#[local] Abbreviation create := (createMission floor_other displayName d budget).
#[local] Abbreviation update := (updateMission floor_other).

Lemma mission_required db id a m : requireMission db id a = Ok m → m ∈ md_missions db ∧ mr_id m = id.
Proof.
  unfold requireMission. destruct (List.find _ _) as [m0|] eqn:E; [|discriminate]. intros [= ->].
  apply find_Some_elem in E as [Hm [H%String.eqb_eq _]%andb_true_iff]. done.
Qed.

Lemma read_for_edit_inv mo bd id a patch db m m' : read_for_edit floor_other mo bd id a patch db = Ok (m, m') →
  m ∈ md_missions db ∧ mr_id m = id ∧ assertEditable m patch = Ok tt ∧ edit_mission floor_other mo bd patch m = Ok m'.
Proof.
  unfold read_for_edit. intros H. apply bind_Ok in H as (m0 & [Hm Hid]%mission_required & H).
  apply bind_Ok in H as ([] & Ha & H). by apply bind_Ok in H as (m1 & He & [= <- <-]).
Qed.

Lemma update_cases mo bd id a patch db :
  (∃ e, update mo bd id a patch db = (Err e, db)) ∨
  ∃ m m', m ∈ md_missions db ∧ mr_id m = id ∧ assertEditable m patch = Ok tt ∧
    edit_mission floor_other mo bd patch m = Ok m' ∧ update mo bd id a patch db = (Ok m', commit_edit m' db).
Proof.
  unfold updateMission. destruct (_ ≫= _) as [m'|e] eqn:E; [right|left; by eauto].
  apply bind_Ok in E as ([m m1] & (? & ? & ? & ?)%read_for_edit_inv & E). apply bind_Ok in E as ([] & _ & [= ->]).
  exists m, m'. by split_and!.
Qed.

Lemma sync_missions m db : md_missions (syncMissionRoomOpenJoin m db) = md_missions db.
Proof. unfold syncMissionRoomOpenJoin. destruct (mr_room_id m) as [id|]; [|done]. by destruct (truthy id). Qed.

(** *** Calls one after another *)

Definition mission_ids (db : MissionDb) : list string := List.map mr_id (md_missions db).
Definition new_mission_ids (c : MissionCall) : list string := match c with mission_creates mo _ _ => [mo_id mo] | _ => [] end.

(** A key is given once. *)
Definition mission_keys_fresh (db : MissionDb) (calls : list MissionCall) : Prop :=
  NoDup (mission_ids db ++ flat_map new_mission_ids calls).

Lemma new_mission_inv mo bd input db t m : new_mission floor_other d budget mo bd input db = Ok (t, m) →
  mr_account_id m = trim (ni_account_id input) ∧ mr_room_id m = None ∧ mr_status m = "draft" ∧
  assertRunBudget d budget mo db (mr_account_id m) = Ok tt.
Proof.
  unfold new_mission. intros H. do 2 apply bind_Ok in H as ([] & _ & H). apply bind_Ok in H as ([] & Hb & H).
  do 9 apply bind_Ok in H as (? & _ & H). injection H as <- <-. by split_and!.
Qed.

Lemma edit_id mo bd patch m m' : edit_mission floor_other mo bd patch m = Ok m' → (∀ i, mo_uuid mo i ≠ "") →
  mr_id m' = mr_id m.
Proof. intros H Hu. apply edit_mission_ok in H as [E _]; [|done]. by injection E. Qed.

Lemma save_present m db : mr_id m ∈ mission_ids db →
  md_missions (save_mission m db) = List.map (λ x, if String.eqb (mr_id x) (mr_id m) then m else x) (md_missions db).
Proof. unfold mission_ids. intros H%includes_true. unfold save_mission. by rewrite H. Qed.

(** What a call needs of its moment: ids are never empty, and the engine takes no
    mission back to a draft. *)
Definition call_fits (db : MissionDb) (c : MissionCall) : Prop :=
  match c with
  | mission_creates mo _ _ | mission_updates mo _ _ _ _ => ∀ i, mo_uuid mo i ≠ ""
  | mission_deletes _ _ => True
  | engine_writes w => ew_status w = "draft" → ∀ m, m ∈ md_missions db → mr_id m = ew_mission w → mr_status m = "draft"
  end.

Fixpoint calls_fit (db : MissionDb) (calls : list MissionCall) : Prop :=
  match calls with
  | [] => True
  | c :: calls => call_fits db c ∧ calls_fit (run c db) calls
  end.

(** What a call leaves of the missions. *)
Inductive missions_after (db : MissionDb) : MissionCall → list MissionRow → Prop :=
  | after_refusal c : missions_after db c (md_missions db)
  | after_creation mo bd input t m :
      new_mission floor_other d budget mo bd input db = Ok (t, m) →
      missions_after db (mission_creates mo bd input) (md_missions db ++ [inserted d mo m])
  | after_update mo bd id a patch m m' :
      m ∈ md_missions db → mr_id m = id → assertEditable m patch = Ok tt →
      edit_mission floor_other mo bd patch m = Ok m' →
      missions_after db (mission_updates mo bd id a patch)
        (List.map (λ x, if String.eqb (mr_id x) (mr_id m') then m' else x) (md_missions db))
  | after_deletion id a m :
      missions_after db (mission_deletes id a) (lfilter (λ x, negb (String.eqb (mr_id x) (mr_id m))) (md_missions db))
  | after_engine w :
      missions_after db (engine_writes w)
        (List.map (λ m, if String.eqb (mr_id m) (ew_mission w) then engine_row w m else m) (md_missions db)).

Lemma run_missions c db : call_fits db c → missions_after db c (md_missions (run c db)).
Proof.
  destruct c as [mo bd input|mo bd id a patch|id a|w]; cbn [run_mission_call]; intros Hf.
  - unfold createMission. destruct (new_mission _ _ _ _ _ _ _) as [[t m]|e] eqn:E; [|apply after_refusal].
    by eapply after_creation.
  - destruct (update_cases mo bd id a patch db) as [[e ->]|(m & m' & Hm & Hid & Ha & He & ->)]; [apply after_refusal|].
    cbn [snd]. unfold commit_edit. rewrite sync_missions, save_present; [by eapply after_update|].
    rewrite (edit_id _ _ _ _ _ He Hf). by apply elem_of_map_2.
  - unfold deleteMission. destruct (read_for_deletion _ _ _) as [m|e]; [exact (after_deletion db id a m)|apply after_refusal].
  - exact (after_engine db w).
Qed.

Lemma mission_ids_step db c : call_fits db c → mission_ids (run c db) `sublist_of` mission_ids db ++ new_mission_ids c.
Proof.
  intros Hf. unfold mission_ids. destruct (run_missions c db Hf) as [c|mo bd input t m H|mo bd id a patch m m' Hm Hid Ha He|id a m|w];
    simpl.
  - by apply sublist_inserts_r.
  - by rewrite List.map_app.
  - rewrite (map_replace mr_id m'). by rewrite app_nil_r.
  - rewrite app_nil_r. apply sublist_map_lfilter.
  - rewrite List.map_map, app_nil_r, (List.map_ext _ mr_id); [done|]. intros m. by destruct (String.eqb _ _).
Qed.

Lemma mission_keys_step db c calls :
  call_fits db c → mission_keys_fresh db (c :: calls) → mission_keys_fresh (run c db) calls.
Proof.
  unfold mission_keys_fresh. intros Hf%mission_ids_step H. cbn [flat_map] in H. rewrite app_assoc in H.
  eapply sublist_NoDup; [exact H|]. by apply sublist_app.
Qed.

Lemma mission_keys_now db calls : mission_keys_fresh db calls → NoDup (mission_ids db).
Proof. by intros [H _]%NoDup_app. Qed.

Lemma same_mission db m m' :
  NoDup (mission_ids db) → m ∈ md_missions db → m' ∈ md_missions db → mr_id m = mr_id m' → m = m'.
Proof. intros H. by apply NoDup_fmap_inj_on. Qed.

(** *** The brief *)

Lemma mission_after c db m : NoDup (mission_ids db) → call_fits db c → m ∈ md_missions db → mr_status m ≠ "draft" →
  ∀ m', m' ∈ md_missions (run c db) → mr_id m' = mr_id m → (mr_id m ∉ new_mission_ids c) →
  brief_of m' = brief_of m ∧ mr_status m' ≠ "draft".
Proof.
  intros Hn Hf Hm Hs m' Hm' Hid Hnew.
  assert (Hsame : ∀ x, x ∈ md_missions db → mr_id x = mr_id m → x = m) by (intros x Hx E; by apply (same_mission db)).
  destruct (run_missions c db Hf) as [c|mo bd input t m1 H|mo bd id a patch m1 m2 H1 Hid1 Ha He|id a m1|w].
  - by rewrite (Hsame m' Hm' Hid).
  - apply elem_of_app in Hm' as [Hm'| ->%list_elem_of_singleton]; [by rewrite (Hsame m' Hm' Hid)|].
    exfalso. apply Hnew. rewrite <- Hid. apply list_elem_of_here.
  - apply (elem_of_replace mr_id) in Hm' as [[-> (z & Hz & Ez)]|[Hm' _]]; [|by rewrite (Hsame m' Hm' Hid)].
    pose proof (edit_id _ _ _ _ _ He Hf) as E. assert (m1 = m) as -> by (apply Hsame; congruence).
    unfold assertEditable in Ha. apply bind_Ok in Ha as ([] & _ & Ha%fail_if_Ok).
    apply String.eqb_neq in Hs as Hs'. rewrite Hs' in Ha. simpl in Ha.
    rewrite edit_without_brief in He by done. injection He as <-. split; [by apply edit_numbers_brief|done].
  - apply elem_of_lfilter in Hm' as [Hm' _]. by rewrite (Hsame m' Hm' Hid).
  - apply elem_of_map in Hm' as (x & -> & Hx). destruct (String.eqb_spec (mr_id x) (ew_mission w)) as [e|e].
    + simpl in Hid. rewrite (Hsame x Hx Hid) in *. split; [done|]. simpl. intros Hd.
      apply Hs. by apply (Hf Hd m Hm).
    + by rewrite (Hsame x Hx Hid).
Qed.

Lemma still_there calls : ∀ db m', mission_keys_fresh db calls → calls_fit db calls →
  m' ∈ md_missions (run_all calls db) → (mr_id m' ∉ flat_map new_mission_ids calls) → mr_id m' ∈ mission_ids db.
Proof.
  induction calls as [|c calls IH]; intros db m' Hk Hf Hm' Hnew; [by apply elem_of_map_2|]. destruct Hf as [Hf Hfs].
  cbn [flat_map] in Hnew. apply not_elem_of_app in Hnew as [N1 N2].
  assert (H : mr_id m' ∈ mission_ids (run c db)) by (apply IH; [by apply mission_keys_step|done..]).
  eapply elem_of_submseteq in H; [|by apply sublist_submseteq, mission_ids_step]. by apply elem_of_app in H as [H|H].
Qed.

Lemma brief_stays calls : ∀ db m, mission_keys_fresh db calls → calls_fit db calls →
  m ∈ md_missions db → mr_status m ≠ "draft" →
  ∀ m', m' ∈ md_missions (run_all calls db) → mr_id m' = mr_id m → brief_of m' = brief_of m ∧ mr_status m' ≠ "draft".
Proof.
  induction calls as [|c calls IH]; intros db m Hk Hf Hm Hs m' Hm' Hid.
  { by rewrite (same_mission db m' m (mission_keys_now _ _ Hk) Hm' Hm Hid). }
  destruct Hf as [Hf Hfs]. pose proof (mission_keys_step _ _ _ Hf Hk) as Hk'.
  assert (Hnew : mr_id m ∉ flat_map new_mission_ids (c :: calls)).
  { intros H. apply NoDup_app in Hk as (_ & Hd & _). by apply (Hd (mr_id m)); [apply elem_of_map_2|]. }
  cbn [flat_map] in Hnew. apply not_elem_of_app in Hnew as [N1 N2].
  assert (Hin : mr_id m' ∈ mission_ids (run c db)) by (apply (still_there calls); [done..|congruence]).
  apply elem_of_map in Hin as (m1 & E1 & Hm1).
  destruct (mission_after c db m (mission_keys_now _ _ Hk) Hf Hm Hs m1 Hm1) as [Hb Hs1]; [congruence|done|].
  destruct (IH (run c db) m1 Hk' Hfs Hm1 Hs1 m' Hm' E1) as [Hb' Hs']. split; [congruence|done].
Qed.

(** *** Overlapping calls *)

#[local] Abbreviation run_event := (run_mission_event floor_other displayName d budget).

Definition is_saving (row : MissionRow) (c : PendingCall) : Prop := ∃ mo bd patch old, c = saving mo bd patch old row.

(** The rows on record, and those about to be saved. *)
Definition row_of (w : MissionWorld) (m : MissionRow) : Prop :=
  m ∈ md_missions (mw_db w) ∨ ∃ c, c ∈ mw_calls w ∧ is_saving m c.

(** What a step needs of its moment: ids are never empty, a new key and a new room are
    new. *)
Definition event_fits (w : MissionWorld) (e : MissionEvent) : Prop :=
  match e with
  | create_checks mo bd _ =>
      (∀ i, mo_uuid mo i ≠ "") ∧
      ∀ t, t ∈ td_teams (bd_teams bd) → 1 <= tr_max_parallel_steps t <= MAX_PARALLEL_CEILING
  | update_reads mo _ _ _ _ => ∀ i, mo_uuid mo i ≠ ""
  | call_writes i mo => ∀ m, row_of w m → mr_id m ≠ mo_id mo
  | delete_checks _ _ | call_dies _ => True
  | engine_acts ew => ∀ r, ew_new_room ew = Some r →
      r ≠ "" ∧ (r ∉ List.map ro_id (md_rooms (mw_db w))) ∧ ∀ m, row_of w m → mr_room_id m ≠ Some r
  end.

(** [P] holds at every step of a run. *)
Fixpoint all_along (P : MissionWorld → MissionEvent → Prop) (w : MissionWorld) (events : list MissionEvent) : Prop :=
  match events with
  | [] => True
  | e :: events => P w e ∧ all_along P (run_event e w) events
  end.

(** An invariant of the steps holds after every run. *)
Lemma all_along_inv (P : MissionWorld → MissionEvent → Prop) (I : MissionWorld → Prop) events : ∀ w,
  (∀ w e, P w e → I w → I (run_event e w)) → all_along P w events → I w →
  I (run_mission_events floor_other displayName d budget events w).
Proof. induction events as [|e events IH]; intros w Hs Ha Hw; [done|]. destruct Ha as [He Ha]. apply IH; [done..|]. by apply Hs. Qed.

Section worlds.
Context (JSON_parse : string → option jsval).

Definition pending_ok (c : PendingCall) : Prop :=
  match c with
  | inserting mo bd input _ row => mission_row_ok row ∧ mr_room_id row = None ∧ created_from JSON_parse floor_other mo bd input row
  | saving mo bd patch old row => mr_id row = mr_id old ∧ edited_from JSON_parse floor_other mo bd patch old row
  | deleting _ => True
  end.

Record world_ok (w : MissionWorld) : Prop := {
  wo_rows : ∀ m, row_of w m → mission_row_ok m;
  wo_keys : NoDup (mission_ids (mw_db w));
  wo_flag : ∀ m r, m ∈ md_missions (mw_db w) → r ∈ md_rooms (mw_db w) → mr_room_id m = Some (ro_id r) →
    ro_open_join r = openJoinForUserChatMode (mr_user_chat_mode m);
  wo_own : ∀ m m' id, row_of w m → row_of w m' → mr_room_id m = Some id → mr_room_id m' = Some id → mr_id m = mr_id m';
  wo_real : ∀ m, row_of w m → mr_room_id m ≠ Some "";
  wo_pending : ∀ c, c ∈ mw_calls w → pending_ok c
}.

(** Fewer rows, fewer calls. *)
Lemma world_ok_fewer w w' : (∀ m, row_of w' m → row_of w m) → NoDup (mission_ids (mw_db w')) →
  (∀ m, m ∈ md_missions (mw_db w') → m ∈ md_missions (mw_db w)) → md_rooms (mw_db w') = md_rooms (mw_db w) →
  (∀ c, c ∈ mw_calls w' → c ∈ mw_calls w) → world_ok w → world_ok w'.
Proof.
  intros Hr Hn Hm Eo Hc [H1 H2 H3 H4 H5 H6]. constructor; try done; auto.
  - intros m r Hm' Hr'. rewrite Eo in Hr'. auto.
  - intros m m' id Hm1 Hm2. apply H4; auto.
Qed.

Lemma elem_of_dropped {A} (l : list A) i x : x ∈ delete i l → x ∈ l.
Proof. intros H. eapply elem_of_sublist; [exact H|]. apply sublist_delete. Qed.

Lemma row_of_dropped db db' calls i m : (∀ m, m ∈ md_missions db → m ∈ md_missions db') →
  row_of {| mw_db := db; mw_calls := delete i calls |} m → row_of {| mw_db := db'; mw_calls := calls |} m.
Proof. intros Hd [Hm|(c & Hc & Hs)]; [left; by apply Hd|right]. exists c. split; [by eapply elem_of_dropped|done]. Qed.

(** A call that begins. *)
Lemma begun_row_of c w m : row_of {| mw_db := mw_db w; mw_calls := mw_calls w ++ [c] |} m → row_of w m ∨ is_saving m c.
Proof.
  intros [Hm|(x & [Hx| ->%list_elem_of_singleton]%elem_of_app & Hs)]; [by left; left|left; right; by exists x|by right].
Qed.

Lemma world_ok_begun c w : pending_ok c →
  (∀ m, is_saving m c → ∃ old, old ∈ md_missions (mw_db w) ∧ edit_ok old m) →
  world_ok w → world_ok {| mw_db := mw_db w; mw_calls := mw_calls w ++ [c] |}.
Proof.
  intros Hc Hs [H1 H2 H3 H4 H5 H6].
  assert (Ho : ∀ m, row_of {| mw_db := mw_db w; mw_calls := mw_calls w ++ [c] |} m →
            ∃ old, row_of w old ∧ mr_id m = mr_id old ∧ mr_room_id m = mr_room_id old ∧ (mission_row_ok old → mission_row_ok m)).
  { intros m [Hm|(old & Ho & [Hid Hok])%Hs]%begun_row_of; [by exists m|]. unfold identity_of in Hid. injection Hid as E1 _ _ _ E5 _.
    exists old. split_and!; [by left|done..]. }
  constructor; try done.
  - intros m (old & Hm & _ & _ & Hok)%Ho. auto.
  - intros m m' id (o & Ho1 & E1 & R1 & _)%Ho (o' & Ho2 & E2 & R2 & _)%Ho Hi Hi'. rewrite E1, E2. apply (H4 o o' id); congruence.
  - intros m (o & Ho1 & _ & R1 & _)%Ho. rewrite R1. auto.
  - intros x [Hx| ->%list_elem_of_singleton]%elem_of_app; auto.
Qed.

Lemma new_mission_row_ok mo bd input db t m :
  (∀ i, mo_uuid mo i ≠ "") → (∀ t, t ∈ td_teams (bd_teams bd) → 1 <= tr_max_parallel_steps t <= MAX_PARALLEL_CEILING) →
  new_mission floor_other d budget mo bd input db = Ok (t, m) → mission_row_ok m.
Proof.
  intros Hu Ht. unfold new_mission. intros H. apply bind_Ok in H as ([] & _ & H).
  apply bind_Ok in H as ([] & Htitle%fail_if_Ok%negb_false_iff & H). apply bind_Ok in H as ([] & _ & H).
  apply bind_Ok in H as (team & Hteam & H). apply bind_Ok in H as ([] & Hobj%fail_if_Ok%negb_false_iff & H).
  apply bind_Ok in H as (criteria & _ & H). apply bind_Ok in H as (actions & _ & H).
  apply bind_Ok in H as (ids & Hids%normalizeExcludedMemberIds_ok & H). apply bind_Ok in H as ([] & _ & H).
  apply bind_Ok in H as (es & [Hes _]%normalizeExtraMembers_ok & H); [|done].
  apply bind_Ok in H as (refs & [Hrefs _]%normalizeProjectsInput_ok & H).
  apply bind_Ok in H as (scope & Hscope%normalizeFolderScopeInput_ok & [= <- <-]).
  apply truthy_true in Htitle, Hobj.
  constructor; simpl; try (by eexists); try done; try (apply clampInt_bounds); unfold MAX_STEPS_CEILING; try lia.
  - intros x [= <-]. by rewrite trim_idem.
  - intros x [= <-]. by rewrite trim_idem.
  - unfold mission_team in Hteam. destruct (List.find _ _) as [t0|] eqn:E; [|discriminate].
    apply bind_Ok in Hteam as ([] & _ & Hteam). apply bind_Ok in Hteam as ([] & _ & [= ->]).
    apply Ht. by apply find_Some_elem in E as [? _].
Qed.


Lemma inserted_ok mo row : mission_row_ok row → mission_row_ok (inserted d mo row).
Proof. intros []. by constructor. Qed.

Lemma insertion_ok i mo mo0 bd input team row w :
  event_fits w (call_writes i mo) → mw_calls w !! i = Some (inserting mo0 bd input team row) → world_ok w →
  world_ok {| mw_db := insert_mission displayName d mo team row (mw_db w); mw_calls := delete i (mw_calls w) |}.
Proof.
  intros Hnew Hi [H1 H2 H3 H4 H5 H6]. destruct (H6 _ (list_elem_of_lookup_2 _ _ _ Hi)) as (Hok & Er & _).
  assert (Hro : ∀ m, row_of {| mw_db := insert_mission displayName d mo team row (mw_db w); mw_calls := delete i (mw_calls w) |} m →
            row_of w m ∨ m = inserted d mo row).
  { intros m [[Hm| ->%list_elem_of_singleton]%elem_of_app|(c & Hc & Hs)]; [by left; left|by right|].
    left. right. exists c. split; [by eapply elem_of_dropped|done]. }
  constructor.
  - intros m [Hm| ->]%Hro; [auto|by apply inserted_ok].
  - unfold mission_ids. cbn. rewrite List.map_app. apply NoDup_snoc. split; [done|]. intros (m & E & Hm)%elem_of_map.
    by apply (Hnew m); [left|].
  - intros m r [Hm| ->%list_elem_of_singleton]%elem_of_app Hr E; [by apply (H3 m)|]. cbn in E. congruence.
  - intros m m' id [Hm| ->]%Hro [Hm'| ->]%Hro E E'; try (cbn in E, E'; congruence). by apply (H4 m m' id).
  - intros m [Hm| ->]%Hro; [auto|]. cbn. congruence.
  - intros c Hc. by eapply H6, elem_of_dropped.
Qed.

Lemma saved_missions m db x : x ∈ md_missions (save_mission m db) → x = m ∨ (x ∈ md_missions db ∧ mr_id x ≠ mr_id m).
Proof.
  unfold save_mission. destruct (includes _ _) eqn:E; cbn.
  - intros [[-> _]|H]%(elem_of_replace mr_id); [by left|by right].
  - intros [H| ->%list_elem_of_singleton]%elem_of_app; [right|by left]. split; [done|]. intros e.
    apply includes_false in E. apply E. rewrite <- e. by apply elem_of_map_2.
Qed.

Lemma saved_mission m db : m ∈ md_missions (save_mission m db).
Proof.
  unfold save_mission. destruct (includes _ _) eqn:E; cbn; [|apply elem_of_app; right; apply list_elem_of_here].
  apply includes_true, elem_of_map in E as (x & E & Hx). apply elem_of_map. exists x. by rewrite <- E, String.eqb_refl.
Qed.

Lemma saved_keys m db : NoDup (mission_ids db) → NoDup (mission_ids (save_mission m db)).
Proof.
  unfold mission_ids, save_mission. intros Hn. destruct (includes _ _) eqn:E; cbn; [by rewrite (map_replace mr_id m)|].
  rewrite List.map_app. apply NoDup_snoc. split; [done|]. by apply includes_false.
Qed.

Lemma commit_missions m db : md_missions (commit_edit m db) = md_missions (save_mission m db).
Proof. apply sync_missions. Qed.

Lemma edit_commits_ok i mo bd patch old row w :
  mw_calls w !! i = Some (saving mo bd patch old row) → world_ok w →
  world_ok {| mw_db := commit_edit row (mw_db w); mw_calls := delete i (mw_calls w) |}.
Proof.
  intros Hi [H1 H2 H3 H4 H5 H6]. pose proof (list_elem_of_lookup_2 _ _ _ Hi) as Hc.
  assert (Hrow : row_of w row) by (right; eexists; split; [exact Hc|]; by exists mo, bd, patch, old).
  assert (Hro : ∀ m, row_of {| mw_db := commit_edit row (mw_db w); mw_calls := delete i (mw_calls w) |} m → row_of w m).
  { intros m [Hm|(c & Hc' & Hs)].
    - cbn in Hm. rewrite commit_missions in Hm. apply saved_missions in Hm as [->|[Hm _]]; [done|by left].
    - right. exists c. split; [by eapply elem_of_dropped|done]. }
  constructor.
  - intros m Hm%Hro. auto.
  - unfold mission_ids. cbn. rewrite commit_missions. by apply saved_keys.
  - cbn. intros m r Hm Hr E. rewrite commit_missions in Hm. apply saved_missions in Hm as [->|[Hm N]];
      unfold commit_edit, syncMissionRoomOpenJoin in Hr.
    + rewrite E in Hr. assert (Ht : truthy (ro_id r) = true) by (apply truthy_true; intros e; apply (H5 row Hrow); congruence).
      rewrite Ht in Hr. cbn in Hr. apply elem_of_map in Hr as (r0 & Er0 & _).
      destruct (String.eqb_spec (ro_id r0) (ro_id r)) as [e|e]; [by rewrite Er0|]. by rewrite Er0 in e.
    + assert (Hs : md_rooms (save_mission row (mw_db w)) = md_rooms (mw_db w)) by (unfold save_mission; by destruct (includes _ _)).
      destruct (mr_room_id row) as [id|] eqn:Em; [|rewrite Hs in Hr; by apply (H3 m)].
      destruct (truthy id); [|rewrite Hs in Hr; by apply (H3 m)].
      cbn in Hr. rewrite Hs in Hr. apply elem_of_map in Hr as (r0 & -> & Hr0). destruct (String.eqb_spec (ro_id r0) id) as [e|e].
      * exfalso. apply N. apply (H4 m row id); [by left|done| |done]. simpl in E. congruence.
      * by apply (H3 m r0).
  - intros m m' id Hm%Hro Hm'%Hro. by apply H4.
  - intros m Hm%Hro. auto.
  - intros c Hc'. by eapply H6, elem_of_dropped.
Qed.

Lemma engine_row_ok w m : mission_row_ok m → mission_row_ok (engine_row w m).
Proof. intros []. by constructor. Qed.

(** A row after the runner's write: where it was, with the room it had or the new one. *)
Lemma engine_missions w db x : x ∈ md_missions (engine_write w db) →
  ∃ m, m ∈ md_missions db ∧ mr_id x = mr_id m ∧ mr_user_chat_mode x = mr_user_chat_mode m ∧
    (mission_row_ok m → mission_row_ok x) ∧
    (mr_room_id x = mr_room_id m ∨ mr_id m = ew_mission w ∧ mr_room_id x = ew_new_room w ∧ is_Some (ew_new_room w)).
Proof.
  intros (m & -> & Hm)%elem_of_map. exists m. split; [done|].
  destruct (String.eqb_spec (mr_id m) (ew_mission w)) as [e|e]; simpl; [|by split_and!; try done; left].
  split_and!; [done|done|apply engine_row_ok|]. destruct (ew_new_room w) as [r|] eqn:E; [right; eauto|by left].
Qed.

Lemma engine_ids ew db : mission_ids (engine_write ew db) = mission_ids db.
Proof. unfold mission_ids. cbn. rewrite List.map_map. apply List.map_ext. intros x. by destruct (String.eqb _ _). Qed.

Lemma engine_acts_ok ew w : event_fits w (engine_acts ew) → world_ok w → world_ok (run_event (engine_acts ew) w).
Proof.
  intros Hnew [H1 H2 H3 H4 H5 H6]. cbn in Hnew. pose proof (engine_missions ew (mw_db w)) as Hin.
  assert (Hro : ∀ x, row_of (run_event (engine_acts ew) w) x → ∃ m, row_of w m ∧ mr_id x = mr_id m ∧ (mission_row_ok m → mission_row_ok x) ∧
            (mr_room_id x = mr_room_id m ∨ mr_id m = ew_mission ew ∧ mr_room_id x = ew_new_room ew ∧ is_Some (ew_new_room ew))).
  { intros x [(m & Hm & Ei & _ & Hok & Hr)%Hin|Hs]; [exists m; by split_and!; [left|..]|].
    exists x. split_and!; [by right|done|done|by left]. }
  constructor; [..|exact H6].
  - intros x (m & Hm & _ & Hok & _)%Hro. auto.
  - change (NoDup (mission_ids (engine_write ew (mw_db w)))). by rewrite engine_ids.
  - intros x r (m & Hm & Eid & Emode & _ & Hroom)%Hin Hr E. rewrite Emode. cbn in Hr.
    apply elem_of_app in Hr as [Hr|Hr].
    + destruct Hroom as [Er|(_ & Er & _)]; [apply (H3 m); congruence|].
      rewrite E in Er. destruct (Hnew _ (eq_sym Er)) as (_ & Hf & _). exfalso. by apply Hf, elem_of_map_2.
    + unfold engine_rooms in Hr. destruct (ew_new_room ew) as [rid|] eqn:Ew; [|by apply not_elem_of_nil in Hr].
      destruct (List.find _ _) as [m0|] eqn:Ef; [|by apply not_elem_of_nil in Hr].
      apply list_elem_of_singleton in Hr as ->. simpl in *. apply find_Some_elem in Ef as [H0 E0%String.eqb_eq].
      destruct (Hnew rid eq_refl) as (_ & _ & Hfree).
      destruct Hroom as [Er|(Em & _)]; [exfalso; apply (Hfree m); [by left|congruence]|].
      by assert (m0 = m) as -> by (apply (same_mission (mw_db w)); congruence).
  - intros x y id (m & Hm & -> & _ & Hroom)%Hro (m' & Hm' & -> & _ & Hroom')%Hro E E'.
    destruct Hroom as [Er|(Em & Er & _)], Hroom' as [Er'|(Em' & Er' & _)]; [apply (H4 m m' id); congruence| | |congruence].
    + exfalso. rewrite E' in Er'. destruct (Hnew id (eq_sym Er')) as (_ & _ & Hfree). apply (Hfree m Hm). congruence.
    + exfalso. rewrite E in Er. destruct (Hnew id (eq_sym Er)) as (_ & _ & Hfree). apply (Hfree m' Hm'). congruence.
  - intros x (m & Hm & _ & _ & Hroom)%Hro E. destruct Hroom as [Er|(_ & Er & _)].
    + apply (H5 m Hm). congruence.
    + rewrite E in Er. by destruct (Hnew "" (eq_sym Er)).
Qed.

Lemma world_ok_step w e : event_fits w e → world_ok w → world_ok (run_event e w).
Proof.
  intros Hf Hw. destruct e as [mo bd input|mo bd id a patch|id a|i mo|i|ew]; cbn [run_mission_event].
  - destruct (new_mission _ _ _ _ _ _ _) as [[t m]|e] eqn:E; [|done]. destruct Hf as [Hu Ht]. cbn [begun].
    apply world_ok_begun; [|by intros x (? & ? & ? & ? & ?)|done]. split_and!.
    + by eapply new_mission_row_ok.
    + by apply new_mission_inv in E as (_ & ? & _).
    + by eapply new_mission_says.
  - destruct (read_for_edit _ _ _ _ _ _ _) as [[old row]|e] eqn:E; [|done]. apply read_for_edit_inv in E as (Ho & _ & _ & He). cbn [begun].
    apply world_ok_begun; [|intros x (? & ? & ? & ? & [= <- <- <- <- <-])|done].
    + split; [by eapply edit_id|by eapply edit_mission_says].
    + exists old. split; [done|]. by eapply edit_mission_ok.
  - destruct (read_for_deletion _ _ _) as [m|e]; [|done]. apply world_ok_begun; [done|by intros x (? & ? & ? & ? & ?)|done].
  - destruct (mw_calls w !! i) as [[mo0 bd input team row|mo0 bd patch old row|id]|] eqn:E; [by eapply insertion_ok|by eapply edit_commits_ok| |done].
    apply (world_ok_fewer w); [| | |reflexivity| |exact Hw].
    + intros m Hm. cbn [call_write] in Hm. destruct w as [db calls]. eapply row_of_dropped; [|exact Hm].
      by intros x [Hx _]%elem_of_lfilter.
    + eapply sublist_NoDup; [apply (wo_keys w Hw)|]. apply sublist_map_lfilter.
    + by intros x [Hx _]%elem_of_lfilter.
    + intros c. apply elem_of_dropped.
  - apply (world_ok_fewer w); [|apply Hw|done|reflexivity|intros c; apply elem_of_dropped|exact Hw].
    intros m Hm. destruct w as [db calls]. by eapply row_of_dropped.
  - by apply engine_acts_ok.
Qed.

Lemma world_ok_run events w : all_along event_fits w events → world_ok w →
  world_ok (run_mission_events floor_other displayName d budget events w).
Proof. intros Ha Hw. eapply all_along_inv; [|exact Ha|exact Hw]. apply world_ok_step. Qed.
End worlds.

(** *** How often *)

(** The missions of [accountId] created from [t] on, for less than [w]. *)
Definition created_within (accountId : string) (t w : Z) (db : MissionDb) : Z :=
  Z.of_nat (length (lfilter (λ r, String.eqb (rw_account_id r) accountId
                                  && ((t <=? rw_created_at r) && (rw_created_at r <? t + w))) (run_rows db))).

Lemma lfilter_sublist {A} (p : A → bool) (l k : list A) : l `sublist_of` k → (length (lfilter p l) ≤ length (lfilter p k))%nat.
Proof.
  induction 1 as [|x l k _ IH|x l k _ IH]; [done| |]; rewrite ?lfilter_cons; destruct (p x); simpl; lia.
Qed.

Lemma map_lfilter_sublist {A B} (f : A → B) (p : A → bool) l : List.map f (lfilter p l) `sublist_of` List.map f l.
Proof.
  induction l as [|x l IH]; [done|]. rewrite lfilter_cons. destruct (p x); simpl; [by constructor|by apply sublist_cons].
Qed.

Lemma boundary_le since : sinceBoundaryParam d since <= since * US_PER_MS.
Proof. unfold sinceBoundaryParam, US_PER_MS, US_PER_S. destruct (db_type d); Z.div_mod_to_equations; lia. Qed.

(** A window that ends with a row created now, seen by the guard before it is. *)
Lemma guard_sees_window mo db accountId t w :
  0 < db_precision d → w = hr_windowMs (budget accountId) * US_PER_MS → w mod db_precision d = 0 →
  (∀ r, r ∈ run_rows db → rw_created_at r mod db_precision d = 0) →
  hr_enabled (budget accountId) = true → mo_date_now mo = to_ms (mo_now mo) → mo_budget_fails mo = false →
  assertRunBudget d budget mo db accountId = Ok tt →
  default_created_at d (mo_now mo) < t + w →
  created_within accountId t w db < hr_maxRunsPerWindow (budget accountId).
Proof.
  intros Hp Hw Hwp Hrows He Hclock Hb H Ht. unfold assertRunBudget, enforceRunBudget in H. rewrite Hb, He in H. simpl in H.
  destruct (_ <? _) eqn:E; [|discriminate]. breflect. eapply Z.le_lt_trans; [|exact E].
  unfold created_within, countRunsInWindow. apply Nat2Z.inj_le, lfilter_weaker. intros r Hr.
  rewrite !andb_true_iff, !Z.leb_le, Z.ltb_lt. intros (Ha & Ht1 & Ht2). split; [done|].
  eapply Z.le_trans; [apply boundary_le|]. specialize (Hrows r Hr). rewrite Hclock. unfold default_created_at, to_ms, US_PER_MS in *.
  assert (Hlo : mo_now mo - w <= rw_created_at r).
  { apply Z.mod_divide in Hrows as [k Hk], Hwp as [j Hj]; [|lia..].
    pose proof (Z.div_mod (mo_now mo) (db_precision d)) as Hdm. pose proof (Z.mod_pos_bound (mo_now mo) (db_precision d) Hp).
    set (q := mo_now mo / db_precision d) in *. assert (q - j < k) by nia. nia. }
  pose proof (Z.mul_div_le (mo_now mo) 1000). lia.
Qed.

(** The creations of an account that have made their checks. *)
Definition creation_of (accountId : string) (c : PendingCall) : bool :=
  match c with inserting _ _ _ _ row => String.eqb (mr_account_id row) accountId | _ => false end.
Definition under_way (accountId : string) (w : MissionWorld) : Z := Z.of_nat (length (lfilter (creation_of accountId) (mw_calls w))).

(** Those that may have a place before [hi]. *)
Definition coming (accountId : string) (hi : Z) (c : PendingCall) : bool :=
  creation_of accountId c &&
  match c with inserting mo _ _ _ _ => default_created_at d (mo_now mo) <? hi | _ => false end.

(** One clock: the server's and its database's agree when the ceiling is checked, and
    a mission is not inserted before its own check.  The count can be made; no
    mission is deleted while an edit of it is under way; and never more than [k]
    creations of the account are under way at once. *)
Definition on_the_clock (accountId : string) (k : Z) (w : MissionWorld) (e : MissionEvent) : Prop :=
  under_way accountId (run_event e w) <= k ∧
  match e with
  | create_checks mo _ _ => mo_date_now mo = to_ms (mo_now mo) ∧ mo_budget_fails mo = false
  | call_writes i mo =>
      match mw_calls w !! i with
      | Some (inserting mo0 _ _ _ _) => mo_now mo0 <= mo_now mo
      | Some (deleting id) => ∀ m c, c ∈ mw_calls w → is_saving m c → mr_id m ≠ id
      | _ => True
      end
  | _ => True
  end.

Definition run_row (m : MissionRow) : RunRow := {| rw_account_id := mr_account_id m; rw_created_at := mr_created_at m |}.

Record rate_ok (accountId : string) (window k max : Z) (w : MissionWorld) : Prop := {
  rk_keys : NoDup (mission_ids (mw_db w));
  rk_grid : ∀ r, r ∈ run_rows (mw_db w) → rw_created_at r mod db_precision d = 0;
  rk_saving : ∀ m c, c ∈ mw_calls w → is_saving m c → ∃ x, x ∈ md_missions (mw_db w) ∧ mr_id x = mr_id m ∧ run_row x = run_row m;
  rk_count : ∀ t, created_within accountId t window (mw_db w)
    + Z.of_nat (length (lfilter (coming accountId (t + window)) (mw_calls w))) <= max - 1 + k
}.

(** The tables and the calls under way change, the count does not grow. *)
Lemma rate_ok_same accountId window k max w w' : NoDup (mission_ids (mw_db w')) →
  run_rows (mw_db w') `sublist_of` run_rows (mw_db w) →
  (∀ m c, c ∈ mw_calls w' → is_saving m c → ∃ x, x ∈ md_missions (mw_db w') ∧ mr_id x = mr_id m ∧ run_row x = run_row m) →
  (∀ hi, (length (lfilter (coming accountId hi) (mw_calls w')) ≤ length (lfilter (coming accountId hi) (mw_calls w)))%nat) →
  rate_ok accountId window k max w → rate_ok accountId window k max w'.
Proof.
  intros Hn Hs Hsv Hc [_ Hg _ Hcount]. constructor; [done| |done|].
  - intros r Hr. apply Hg. by eapply elem_of_sublist.
  - intros t. specialize (Hcount t). specialize (Hc (t + window)).
    unfold created_within in *. pose proof (lfilter_sublist (λ r, String.eqb (rw_account_id r) accountId
      && ((t <=? rw_created_at r) && (rw_created_at r <? t + window))) _ _ Hs). lia.
Qed.

Lemma coming_dropped accountId hi (calls : list PendingCall) i c : calls !! i = Some c →
  length (lfilter (coming accountId hi) calls)
  = ((if coming accountId hi c then 1 else 0) + length (lfilter (coming accountId hi) (delete i calls)))%nat.
Proof.
  intros Hi. rewrite (Permutation_length (lfilter_perm _ _ _ (delete_Permutation _ _ _ Hi))), lfilter_cons.
  by destruct (coming accountId hi c).
Qed.

Lemma coming_delete accountId hi (calls : list PendingCall) i :
  (length (lfilter (coming accountId hi) (delete i calls)) ≤ length (lfilter (coming accountId hi) calls))%nat.
Proof. apply lfilter_sublist, sublist_delete. Qed.

Lemma created_row accountId t window db m :
  created_within accountId t window (db<|md_missions := md_missions db ++ [m]|>)
  = created_within accountId t window db
    + (if String.eqb (mr_account_id m) accountId && ((t <=? mr_created_at m) && (mr_created_at m <? t + window)) then 1 else 0).
Proof.
  assert (E : run_rows (db<|md_missions := md_missions db ++ [m]|>) = run_rows db ++ [run_row m]).
  { unfold run_rows. cbn. by rewrite List.map_app. }
  unfold created_within. rewrite E, lfilter_app, length_app, lfilter_cons. unfold run_row. cbn [rw_account_id rw_created_at]. destruct (_ && _); cbn; lia.
Qed.

Lemma saved_rows m db x : NoDup (mission_ids db) → x ∈ md_missions db → mr_id x = mr_id m → run_row x = run_row m →
  run_rows (save_mission m db) = run_rows db.
Proof.
  intros Hn Hx Hid Er. unfold run_rows. rewrite save_present by (rewrite <- Hid; by apply elem_of_map_2). rewrite List.map_map.
  apply List.map_ext_in. intros y Hy%list_elem_of_In. destruct (String.eqb_spec (mr_id y) (mr_id m)) as [e|]; [|done].
  assert (y = x) as -> by (apply (same_mission db); congruence). exact (eq_sym Er).
Qed.

Section rates.
Context (accountId : string) (k : Z).
#[local] Abbreviation cfg := (budget accountId).
#[local] Abbreviation window := (hr_windowMs cfg * US_PER_MS).
#[local] Abbreviation rated := (rate_ok accountId window k (hr_maxRunsPerWindow cfg)).
Context (Hp : 0 < db_precision d) (Hw : window mod db_precision d = 0) (He : hr_enabled cfg = true).

Lemma grid_mono a b : a <= b → default_created_at d a <= default_created_at d b.
Proof.
  intros H. unfold default_created_at. pose proof (Z.div_le_mono a b (db_precision d) Hp H).
  pose proof (Z.div_mod a (db_precision d)). pose proof (Z.div_mod b (db_precision d)). nia.
Qed.

Lemma rated_check mo bd input t m w :
  new_mission floor_other d budget mo bd input (mw_db w) = Ok (t, m) →
  let w' := {| mw_db := mw_db w; mw_calls := mw_calls w ++ [inserting mo bd input t m] |} in
  under_way accountId w' <= k → mo_date_now mo = to_ms (mo_now mo) → mo_budget_fails mo = false → rated w → rated w'.
Proof.
  intros (_ & _ & _ & Hb)%new_mission_inv w' Hk Hclock Hfail [Hn Hg Hs Hc]. constructor; [done..| |].
  - intros x c [Hx| ->%list_elem_of_singleton]%elem_of_app Hsv; [by eapply Hs|by destruct Hsv as (? & ? & ? & ? & ?)].
  - intros t0. subst w'. cbn [mw_db mw_calls] in *. rewrite lfilter_app, length_app, lfilter_cons.
    destruct (coming accountId (t0 + window) (inserting mo bd input t m)) eqn:Ec; [|cbn; specialize (Hc t0); lia].
    unfold coming in Ec. apply andb_true_iff in Ec as [Ea%String.eqb_eq Et%Z.ltb_lt]. rewrite Ea in Hb.
    pose proof (guard_sees_window mo (mw_db w) accountId t0 window Hp eq_refl Hw Hg He Hclock Hfail Hb Et).
    assert (Hle : (length (lfilter (coming accountId (t0 + window)) (mw_calls w ++ [inserting mo bd input t m]))
              ≤ length (lfilter (creation_of accountId) (mw_calls w ++ [inserting mo bd input t m])))%nat).
    { apply lfilter_weaker. intros x _. unfold coming. by intros [? _]%andb_true_iff. }
    rewrite lfilter_app, length_app, lfilter_cons in Hle. unfold coming at 2 in Hle. cbn [creation_of] in Hle.
    rewrite Ea, String.eqb_refl in Hle. apply Z.ltb_lt in Et. rewrite Et in Hle. unfold under_way in Hk. cbn [mw_calls] in Hk.
    cbn in *. lia.
Qed.

Lemma rated_insert i mo mo0 bd input t m w :
  mw_calls w !! i = Some (inserting mo0 bd input t m) → mo_now mo0 <= mo_now mo → (∀ x, row_of w x → mr_id x ≠ mo_id mo) →
  rated w → rated {| mw_db := insert_mission displayName d mo t m (mw_db w); mw_calls := delete i (mw_calls w) |}.
Proof.
  intros Hi Ht Hnew [Hn Hg Hs Hc]. set (row := inserted d mo m).
  assert (Er : run_rows (insert_mission displayName d mo t m (mw_db w)) = run_rows (mw_db w) ++ [run_row row]).
  { unfold run_rows. cbn. by rewrite List.map_app. }
  constructor; cbn [mw_db mw_calls].
  - unfold mission_ids. cbn. rewrite List.map_app. apply NoDup_snoc. split; [done|]. intros (x & E & Hx)%elem_of_map.
    by apply (Hnew x); [left|].
  - rewrite Er. intros r [Hr| ->%list_elem_of_singleton]%elem_of_app; [by apply Hg|]. cbn.
    unfold default_created_at. rewrite Zminus_mod_idemp_r, Z.sub_diag. apply Z.mod_0_l. lia.
  - intros x c Hx%elem_of_dropped Hsv. destruct (Hs x c Hx Hsv) as (y & Hy & E). exists y. split; [|done].
    cbn. apply elem_of_app. by left.
  - intros t0. specialize (Hc t0).
    change (created_within accountId t0 window (insert_mission displayName d mo t m (mw_db w)))
      with (created_within accountId t0 window ((mw_db w)<|md_missions := md_missions (mw_db w) ++ [row]|>)).
    rewrite created_row. rewrite (coming_dropped _ _ _ _ _ Hi) in Hc.
    assert (Hd : default_created_at d (mo_now mo0) <= default_created_at d (mo_now mo)) by (by apply grid_mono).
    destruct (_ && _) eqn:Ein; [|lia]. apply andb_true_iff in Ein as [Ea [_ Eh%Z.ltb_lt]%andb_true_iff].
    change (mr_created_at row) with (default_created_at d (mo_now mo)) in Eh. change (mr_account_id row) with (mr_account_id m) in Ea.
    assert (Ec : coming accountId (t0 + window) (inserting mo0 bd input t m) = true).
    { unfold coming, creation_of. rewrite Ea. apply Z.ltb_lt. lia. }
    rewrite Ec in Hc. lia.
Qed.

Lemma rated_step w e : event_fits w e → on_the_clock accountId k w e → rated w → rated (run_event e w).
Proof.
  intros Hf [Hk Hcl] Hr. pose proof Hr as [Hn Hg Hs Hc].
  destruct e as [mo bd input|mo bd id a patch|id a|i mo|i|ew]; cbn [run_mission_event] in *.
  - destruct (new_mission _ _ _ _ _ _ _) as [[t m]|e] eqn:E; [|done]. destruct Hcl as [Hc1 Hc2].
    exact (rated_check mo bd input t m w E Hk Hc1 Hc2 Hr).
  - destruct (read_for_edit _ _ _ _ _ _ _) as [[old row]|e] eqn:E; [|done]. cbn [begun] in *.
    apply read_for_edit_inv in E as (Ho & _ & _ & [Eid _]%edit_mission_ok); [|exact Hf]. injection Eid as E1 E2 _ _ _ E6.
    apply (rate_ok_same _ _ _ _ w); [done|done| | |done]; cbn [mw_calls mw_db].
    + intros x c [Hx| ->%list_elem_of_singleton]%elem_of_app Hsv; [by eapply Hs|].
      destruct Hsv as (? & ? & ? & ? & [= <- <- <- <- <-]). exists old. unfold run_row. split_and!; congruence.
    + intros hi. rewrite lfilter_app, length_app. cbn. lia.
  - destruct (read_for_deletion _ _ _) as [m|e]; [|done]. cbn [begun] in *.
    apply (rate_ok_same _ _ _ _ w); [done|done| | |done]; cbn [mw_calls mw_db].
    + intros x c [Hx| ->%list_elem_of_singleton]%elem_of_app Hsv; [by eapply Hs|by destruct Hsv as (? & ? & ? & ? & ?)].
    + intros hi. rewrite lfilter_app, length_app. cbn. lia.
  - destruct (mw_calls w !! i) as [[mo0 bd input t m|mo0 bd patch old row|id]|] eqn:E; [by eapply rated_insert| | |done]; cbn [call_write] in *.
    + destruct (Hs row _ (list_elem_of_lookup_2 _ _ _ E)) as (x & Hx & Eid & Er); [by exists mo0, bd, patch, old|].
      assert (Err : run_rows (commit_edit row (mw_db w)) = run_rows (mw_db w)).
      { rewrite <- (saved_rows row (mw_db w) x) by done. unfold run_rows. by rewrite commit_missions. }
      apply (rate_ok_same _ _ _ _ w); cbn [mw_db mw_calls]; [|by rewrite Err| |intros; apply coming_delete|done].
      * unfold mission_ids. rewrite commit_missions. by apply saved_keys.
      * intros y c Hy%elem_of_dropped Hsv. destruct (Hs y c Hy Hsv) as (z & Hz & Ez & Ezr).
        rewrite commit_missions. destruct (decide (mr_id z = mr_id row)) as [e|N].
        -- exists row. split; [apply saved_mission|]. assert (z = x) as -> by (apply (same_mission (mw_db w)); congruence). split; congruence.
        -- exists z. split; [|done]. rewrite save_present by (rewrite <- Eid; by apply elem_of_map_2).
           apply elem_of_map. exists z. apply String.eqb_neq in N. by rewrite N.
    + apply (rate_ok_same _ _ _ _ w); cbn [mw_db mw_calls]; [| | |intros; apply coming_delete|done].
      * eapply sublist_NoDup; [exact Hn|]. apply sublist_map_lfilter.
      * apply map_lfilter_sublist.
      * intros y c Hy%elem_of_dropped Hsv. destruct (Hs y c Hy Hsv) as (z & Hz & Ez & Ezr). exists z. split; [|done].
        apply elem_of_lfilter. split; [done|]. apply negb_true_iff, String.eqb_neq. rewrite Ez. by eapply Hcl.
  - apply (rate_ok_same _ _ _ _ w); cbn [mw_db mw_calls]; [done|done| |intros; apply coming_delete|done].
    intros y c Hy%elem_of_dropped. by apply Hs.
  - assert (Err : run_rows (engine_write ew (mw_db w)) = run_rows (mw_db w)).
    { unfold run_rows. cbn. rewrite List.map_map. apply List.map_ext. intros x. by destruct (String.eqb _ _). }
    apply (rate_ok_same _ _ _ _ w); cbn [mw_db mw_calls]; [by rewrite engine_ids|by rewrite Err| |done|done].
    intros y c Hy Hsv. destruct (Hs y c Hy Hsv) as (z & Hz & Ez & Ezr). eexists. split.
    + cbn. apply elem_of_map. exists z. split; [reflexivity|done].
    + by destruct (String.eqb _ _).
Qed.
End rates.
End calls.

(** ** The theorems *)

Definition empty_missions : MissionDb := {| md_missions := []; md_steps := []; md_events := []; md_rooms := [] |}.

Lemma empty_world_ok floor_other JSON_parse : world_ok floor_other JSON_parse (idle empty_missions).
Proof.
  assert (H : ∀ m, ¬ row_of (idle empty_missions) m) by (intros m [Hm|(c & Hc & _)]; [by apply not_elem_of_nil in Hm|by apply not_elem_of_nil in Hc]).
  constructor; [intros m Hm; by destruct (H m)|constructor|intros m r Hm|intros m m' id Hm; by destruct (H m)|
                intros m Hm; by destruct (H m)|intros c Hc].
  - by apply not_elem_of_nil in Hm.
  - by apply not_elem_of_nil in Hc.
Qed.

Lemma inserted_says JSON_parse floor_other d mo0 bd input mo row :
  created_from JSON_parse floor_other mo0 bd input row → created_from JSON_parse floor_other mo0 bd input (inserted d mo row).
Proof. intros []. by constructor. Qed.


(** The brief is locked once the mission has started: whatever calls are made one
    after another ([edit_overtakes_start] shows what overlapping ones do), a mission that is not a draft keeps the title, the objective, the criteria it is
    judged by in words, the projects and folders it works in, its rules and its
    roster, as long as it is on record; and of a finished mission an edit changes the
    chat option and nothing else. *)
Theorem started_missions_keep_their_brief floor_other displayName d budget calls db m :
  mission_keys_fresh db calls → calls_fit floor_other displayName d budget db calls →
  m ∈ md_missions db → mr_status m ≠ "draft" →
  (∀ m', m' ∈ md_missions (run_mission_calls floor_other displayName d budget calls db) → mr_id m' = mr_id m →
     brief_of m' = brief_of m) ∧
  (isTerminalMissionStatus (mr_status m) = true →
   ∀ mo bd a patch m' db', updateMission floor_other mo bd (mr_id m) a patch db = (Ok m', db') →
     m' = m<|mr_user_chat_mode := mr_user_chat_mode m'|> ∧
     md_missions db' = List.map (λ x, if String.eqb (mr_id x) (mr_id m) then m' else x) (md_missions db)).
Proof.
  intros Hk Hf Hm Hs. split.
  { intros m' Hm' E. by destruct (brief_stays _ _ _ _ calls db m Hk Hf Hm Hs m' Hm' E). }
  intros Ht mo bd a patch m' db' H.
  destruct (update_cases floor_other mo bd (mr_id m) a patch db) as [[e He]|(m0 & m1 & H0 & E0 & Ha & He & Hu)]; [congruence|].
  rewrite Hu in H. injection H as <- <-.
  assert (m0 = m) as -> by (apply (same_mission db); [by eapply mission_keys_now|done..]).
  unfold assertEditable in Ha. rewrite Ht in Ha. apply bind_Ok in Ha as ([] & Hc%fail_if_Ok%negb_false_iff & _).
  rewrite only_chat_edit in He by done. injection He as <-. rewrite commit_missions, save_present by (change (mr_id m ∈ mission_ids db); by apply elem_of_map_2). by split.
Qed.


(** What [createMission] lets through. *)
Record authorised (bd : Board) (accountId : string) (t : TeamRow) (m : MissionRow) : Prop := {
  au_team : t ∈ td_teams (bd_teams bd) ∧ mr_team_id m = tr_id t ∧ js_truthy (tr_orchestrator_spec t) = true;
  au_account : tr_account_id t = Some accountId ∨
    (tr_account_id t = None ∧ ∃ allowed, tr_allowed_account_ids t = Some allowed ∧ accountId ∈ allowed);
  au_projects : ∃ refs, mr_projects m = list_json project_json refs ∧
    ∀ r, r ∈ refs → mpr_project_id r ∈ in_account (bd_projects bd) accountId;
  au_excluded : ∃ ids, mr_excluded_member_ids m = list_json JStr ids ∧
    ∀ id, id ∈ ids → ∃ mb, mb ∈ td_members (bd_teams bd) ∧ mb_team_id mb = tr_id t ∧ (mb_id mb = id ∨ mb_agent_id mb = Some id);
  au_extras : ∃ es, mr_extra_member_specs m = list_json extra_json es ∧
    ∀ e, e ∈ es → extra_found (bd_dir bd) accountId e
}.

Lemma assertExcludedOnTeam_ok members teamId ids u : assertExcludedOnTeam members teamId ids = Ok u →
  ∀ id, id ∈ ids → ∃ mb, mb ∈ members ∧ mb_team_id mb = teamId ∧ (mb_id mb = id ∨ mb_agent_id mb = Some id).
Proof.
  unfold assertExcludedOnTeam. destruct ids as [|id0 ids]; [by intros _ id H%not_elem_of_nil|].
  intros H%fail_if_Ok%negb_false_iff%bool_decide_eq_true id Hid.
  apply (proj1 (lfilter_nil _ _) H), negb_false_iff, includes_true, list_elem_of_In, in_flat_map in Hid as (mb & Hmb & Hid).
  apply list_elem_of_In, elem_of_lfilter in Hmb as [Hmb Ht%String.eqb_eq]. exists mb. split_and!; [done|done|].
  destruct Hid as [->|Hid]; [by left|right]. destruct (mb_agent_id mb) as [a|]; [|done].
  destruct (truthy a); [|done]. by destruct Hid as [->|[]].
Qed.

Lemma mission_team_ok bd accountId teamId t : mission_team bd accountId teamId = Ok t →
  t ∈ td_teams (bd_teams bd) ∧ tr_id t = teamId ∧ js_truthy (tr_orchestrator_spec t) = true ∧
  (tr_account_id t = Some accountId ∨
   (tr_account_id t = None ∧ ∃ allowed, tr_allowed_account_ids t = Some allowed ∧ accountId ∈ allowed)).
Proof.
  unfold mission_team. destruct (List.find _ _) as [t0|] eqn:E; [|discriminate]. intros H.
  apply bind_Ok in H as ([] & Ho%fail_if_Ok%negb_false_iff & H). apply bind_Ok in H as ([] & Ha & [= ->]).
  apply find_Some_elem in E as [Ht [Hid%String.eqb_eq Hv]%andb_true_iff]. split_and!; [done..|].
  unfold visible in Hv. unfold assertTeamAllows in Ha. destruct (tr_account_id t) as [a|].
  - apply String.eqb_eq in Hv as ->. by left.
  - right. split; [done|]. apply bind_Ok in Ha as ([] & Hne%fail_if_Ok & Ha%fail_if_Ok%negb_false_iff%includes_true).
    destruct (tr_allowed_account_ids t) as [l|]; [by exists l|by apply not_elem_of_nil in Ha].
Qed.

(** A mission is created only for whom it may be: the team is the account's own, or
    a global team whose operator put the account on its list; it has an orchestrator;
    every project is the account's, every excluded member is on the team, every
    extra member's host exists and its credential may be used by the account.  The
    mission begins as a draft, recorded; a refused creation leaves nothing. *)
Theorem missions_are_authorised floor_other displayName d budget mo bd input db result db' :
  (∀ i, mo_uuid mo i ≠ "") → createMission floor_other displayName d budget mo bd input db = (result, db') →
  match result with
  | Ok m => mr_account_id m = trim (ni_account_id input) ∧ mr_status m = "draft" ∧
      md_missions db' = md_missions db ++ [m] ∧
      ∃ t, tr_id t = ni_team_id input ∧ authorised bd (trim (ni_account_id input)) t m
  | Err _ => db' = db
  end.
Proof.
  intros Hu. unfold createMission. destruct (new_mission _ _ _ _ _ _ _) as [[t m]|e] eqn:E; intros [= <- <-]; [|done].
  unfold new_mission in E. do 2 apply bind_Ok in E as ([] & _ & E). apply bind_Ok in E as ([] & _ & E).
  apply bind_Ok in E as (team & (Ht & Hid & Ho & Ha)%mission_team_ok & E). do 3 apply bind_Ok in E as (? & _ & E).
  apply bind_Ok in E as (ids & _ & E). apply bind_Ok in E as ([] & Hx & E).
  apply bind_Ok in E as (es & [_ Hes]%normalizeExtraMembers_ok & E); [|done].
  apply bind_Ok in E as (refs & [_ Hr]%normalizeProjectsInput_ok & E). apply bind_Ok in E as (scope & _ & [= <- <-]).
  split_and!; [done..|]. exists team. split; [done|]. constructor; simpl; [done|done|by exists refs| |by exists es].
  exists ids. split; [done|]. by apply (assertExcludedOnTeam_ok _ _ _ tt).
Qed.

(** ** Runs *)

Definition sample_board : Board :=
  {| bd_dir := sample_directory;
     bd_projects := [{| pj_id := "p"; pj_account_id := "acc"; pj_repo_url := ""; pj_default_branch := "main"; pj_credential_id := None;
                       pj_clone_policy := None |}];
     bd_teams := run_calls no_json no_number sample_directory sample_team_db [call_add "m2" "t1" "acc" sample_member] |}.

Definition sample_moment (id : string) (now : Z) : Moment :=
  {| mo_id := id; mo_event_id := "e" +:+ id; mo_uuid := λ _, "extra-" +:+ id; mo_now := now; mo_date_now := to_ms now;
     mo_budget_fails := false; mo_event_faults := no_faults; mo_commit_fails := false |}.

Definition sample_mission_input : MissionInput :=
  {| ni_account_id := " acc "; ni_team_id := "t1"; ni_title := "Ship it "; ni_objective := "Ship the release";
     ni_context := ""; ni_acceptance_criteria := ""; ni_method := ""; ni_completion_criteria := JUndef;
     ni_post_actions := JUndef; ni_projects := JArr [JObj [("project_id", JStr "p"); ("branch", JStr " dev ")]];
     ni_repo_ref := JUndef; ni_folder_scope := JStr "isolated"; ni_workspace_folder := JUndef; ni_checkout_mode := JUndef;
     ni_max_parallel_steps := JNum (JInt 99); ni_max_steps := JUndef; ni_max_plan_versions := JUndef;
     ni_step_timeout_minutes := JUndef; ni_graph_enabled := JBool true; ni_confirm_policy := JUndef;
     ni_user_chat_mode := JUndef; ni_created_by_type := ""; ni_created_by := "u";
     ni_excluded_member_ids := JArr [JStr "m2"; JStr " m2 "];
     ni_extra_members := JArr [JObj [("runtime", sample_slot_input); ("role_label", JStr " helper ")]];
     ni_orchestrator_agent_id := "" |}.

Definition sample_budget (n : Z) (accountId : string) : ResolvedHardBudget := DEFAULT_HARD_BUDGET<|hr_maxRunsPerWindow := n|>.

(** The runner starts the mission and gives it a room, or closes it. *)
Definition sample_engine (status : string) (room : option string) : EngineWrite :=
  {| ew_mission := "m1"; ew_status := status; ew_new_room := room; ew_orchestrator_agent_id := Some "rt-1";
     ew_completion_criteria := None; ew_post_actions := None; ew_post_actions_pending := false |}.

Definition sample_edit (patch : MissionPatch) : MissionCall :=
  mission_updates (sample_moment "x" 5000000) sample_board "m1" "acc" patch.

(** Created, its chat narrowed while it runs, an edit of its brief refused. *)
Definition sample_mission_calls : list MissionCall :=
  [mission_creates (sample_moment "m1" 1000000) sample_board sample_mission_input;
   engine_writes (sample_engine "planning" (Some "room"));
   sample_edit [("user_chat_mode", JStr "off"); ("max_steps", JNum (JInt 500))];
   sample_edit [("title", JStr "Something else")]].

#[local] Abbreviation sample_run := (run_mission_calls no_number (λ _, None) sample_postgres (sample_budget 2)).

(** *** Checking a run of overlapping calls *)

Definition rows_of (w : MissionWorld) : list MissionRow :=
  md_missions (mw_db w) ++ omap (λ c, match c with saving _ _ _ _ row => Some row | _ => None end) (mw_calls w).

Lemma row_of_rows w m : row_of w m → m ∈ rows_of w.
Proof.
  intros [H|(c & Hc & mo & bd & patch & old & ->)]; apply elem_of_app; [by left|right].
  apply list_elem_of_omap. by eexists.
Qed.

(** The ids of the moments are all of [sample_moment]. *)
Definition fits_check (w : MissionWorld) (e : MissionEvent) : bool :=
  match e with
  | create_checks mo bd _ =>
      levery (λ t, (1 <=? tr_max_parallel_steps t) && (tr_max_parallel_steps t <=? MAX_PARALLEL_CEILING)) (td_teams (bd_teams bd))
  | call_writes i mo => levery (λ m, negb (String.eqb (mr_id m) (mo_id mo))) (rows_of w)
  | engine_acts ew =>
      match ew_new_room ew with
      | Some r => negb (String.eqb r "") && negb (includes (List.map ro_id (md_rooms (mw_db w))) r)
                  && levery (λ m, negb (bool_decide (mr_room_id m = Some r))) (rows_of w)
      | None => true
      end
  | _ => true
  end.

Definition ids_real (e : MissionEvent) : Prop :=
  match e with create_checks mo _ _ | update_reads mo _ _ _ _ => ∀ i, mo_uuid mo i ≠ "" | _ => True end.

Lemma fits_check_ok w e : ids_real e → fits_check w e = true → event_fits w e.
Proof.
  destruct e as [mo bd input|mo bd id a patch|id a|i mo|i|ew]; cbn [ids_real fits_check event_fits]; try done.
  - intros Hu H. split; [done|]. intros t Ht. apply (proj1 (levery_true _ _) H) in Ht. breflect. lia.
  - intros _ H m Hm%row_of_rows. apply (proj1 (levery_true _ _) H) in Hm. by apply negb_true_iff, String.eqb_neq in Hm.
  - intros _ H r Er. rewrite Er in H. apply andb_true_iff in H as [[H1%negb_true_iff H2%negb_true_iff]%andb_true_iff H3].
    split_and!; [by apply String.eqb_neq|by apply includes_false|].
    intros m Hm%row_of_rows. apply (proj1 (levery_true _ _) H3), negb_true_iff, bool_decide_eq_false in Hm. done.
Qed.

Definition clock_check floor_other displayName d budget (accountId : string) (k : Z) (w : MissionWorld) (e : MissionEvent) : bool :=
  (under_way accountId (run_mission_event floor_other displayName d budget e w) <=? k) &&
  match e with
  | create_checks mo _ _ => (mo_date_now mo =? to_ms (mo_now mo)) && negb (mo_budget_fails mo)
  | call_writes i mo => match mw_calls w !! i with Some (inserting mo0 _ _ _ _) => mo_now mo0 <=? mo_now mo | Some (deleting _) => false | _ => true end
  | _ => true
  end.

Lemma clock_check_ok floor_other displayName d budget accountId k w e :
  clock_check floor_other displayName d budget accountId k w e = true → on_the_clock floor_other displayName d budget accountId k w e.
Proof.
  unfold clock_check, on_the_clock. intros [Hk%Z.leb_le H]%andb_true_iff. split; [done|].
  destruct e as [mo bd input|mo bd id a patch|id a|i mo|i|ew]; try done.
  - by apply andb_true_iff in H as [H1%Z.eqb_eq H2%negb_true_iff].
  - destruct (mw_calls w !! i) as [[]|]; try done. by apply Z.leb_le.
Qed.

Fixpoint along_check floor_other displayName d budget (P : MissionWorld → MissionEvent → bool) (w : MissionWorld) (events : list MissionEvent) : bool :=
  match events with
  | [] => true
  | e :: events => P w e && along_check floor_other displayName d budget P (run_mission_event floor_other displayName d budget e w) events
  end.

Lemma along_check_ok floor_other displayName d budget (P : MissionWorld → MissionEvent → bool) (Q : MissionWorld → MissionEvent → Prop) events :
  (∀ e, e ∈ events → ids_real e) → (∀ w e, ids_real e → P w e = true → Q w e) → ∀ w,
  along_check floor_other displayName d budget P w events = true → all_along floor_other displayName d budget Q w events.
Proof.
  intros Hr HP. induction events as [|e events IH]; intros w H; [done|]. apply andb_true_iff in H as [H1 H2].
  split; [apply HP; [apply Hr, list_elem_of_here|done]|]. apply IH; [|done]. intros x Hx. by apply Hr, list_elem_of_further.
Qed.

(** Its ids are given by [sample_moment]. *)
Ltac ids_are_real := intros ? He; repeat (apply elem_of_cons in He as [->|He]; [done|]); by apply not_elem_of_nil in He.

(** Created and started; its chat narrowed while it runs; an edit of its brief refused;
    another creation under way. *)
Definition sample_events : list MissionEvent :=
  [create_checks (sample_moment "m1" 1000000) sample_board sample_mission_input; call_writes 0 (sample_moment "m1" 1000000);
   engine_acts (sample_engine "planning" (Some "room"));
   update_reads (sample_moment "x" 5000000) sample_board "m1" "acc" [("user_chat_mode", JStr "off"); ("max_steps", JNum (JInt 500))];
   update_reads (sample_moment "x" 5000000) sample_board "m1" "acc" [("title", JStr "Something else")];
   call_writes 0 (sample_moment "x" 6000000);
   create_checks (sample_moment "m2" 7000000) sample_board sample_mission_input].

#[local] Abbreviation sample_world events := (run_mission_events no_number (λ _, None) sample_postgres (sample_budget 2) events (idle empty_missions)).


Lemma started_missions_keep_their_brief_witness :
  let db := sample_run (take 2 sample_mission_calls) empty_missions in
  ∃ m m', head (md_missions db) = Some m ∧ head (md_missions (sample_run (drop 2 sample_mission_calls) db)) = Some m' ∧
    mr_user_chat_mode m' = chat_off ∧ brief_of m' = brief_of m.
Proof.
  eexists. eexists. split; [vm_compute; reflexivity|]. split; [vm_compute; reflexivity|]. split; [reflexivity|].
  eapply (started_missions_keep_their_brief no_number (λ _, None) sample_postgres (sample_budget 2) (drop 2 sample_mission_calls)
            (sample_run (take 2 sample_mission_calls) empty_missions)).
  - apply (bool_decide_unpack _); vm_compute; exact I.
  - split_and!; done.
  - vm_compute. left.
  - discriminate.
  - vm_compute. left.
  - reflexivity.
Defined.

(** The ceiling is one mission an hour.  Two creations overlap and both get through;
    the third is refused, and the fourth comes an hour later. *)
Definition sample_check (id : string) (now : Z) : MissionEvent := create_checks (sample_moment id now) sample_board sample_mission_input.
Definition sample_hourly : list MissionEvent :=
  [sample_check "m1" 0; sample_check "m2" 1000; call_writes 0 (sample_moment "m1" 2000); call_writes 0 (sample_moment "m2" 3000);
   sample_check "m3" 600000000; sample_check "m4" 3600004000; call_writes 0 (sample_moment "m4" 3600004000)].

#[local] Abbreviation hourly events := (run_mission_events no_number (λ _, None) sample_postgres (sample_budget 1) events (idle empty_missions)).


(** Finding: the ceiling is checked before a mission is inserted, and nothing holds the
    two together: creations that overlap all pass the same check. *)
Lemma overlapping_creations_exceed_the_ceiling :
  hr_maxRunsPerWindow (sample_budget 1 "acc") = 1 ∧
  created_within "acc" 0 (3600000 * US_PER_MS) (mw_db (hourly (take 4 sample_hourly))) = 2.
Proof. by vm_compute. Qed.

(** Finding: an edit saves the row that it read, and a save inserts what is not there:
    a mission that was deleted in between is back. *)
Lemma late_edit_brings_a_deleted_mission_back :
  let deleted := hourly [sample_check "m1" 0; call_writes 0 (sample_moment "m1" 0);
                   update_reads (sample_moment "x" 1000) sample_board "m1" "acc" [("title", JStr "Something else")];
                   delete_checks "m1" "acc"; call_writes 1 (sample_moment "x" 2000)] in
  md_missions (mw_db deleted) = [] ∧
  List.map (λ m, (mr_id m, mr_title m))
    (md_missions (mw_db (run_mission_event no_number (λ _, None) sample_postgres (sample_budget 1) (call_writes 0 (sample_moment "x" 3000)) deleted)))
    = [("m1", "Something else")].
Proof. by vm_compute. Qed.

Lemma missions_are_authorised_witness :
  let '(result, db') := createMission no_number (λ _, None) sample_postgres (sample_budget 1) (sample_moment "m1" 0) sample_board
                          sample_mission_input empty_missions in
  match result with
  | Ok m => mr_account_id m = "acc" ∧ mr_status m = "draft" ∧ md_missions db' = [] ++ [m] ∧
      ∃ t, tr_id t = "t1" ∧ authorised sample_board "acc" t m
  | Err _ => False
  end.
Proof.
  destruct (createMission _ _ _ _ _ _ _ _) as [result db'] eqn:E. pose proof E as H.
  apply missions_are_authorised in H; [|discriminate]. destruct result as [m|e]; [exact H|].
  vm_compute in E. discriminate E.
Defined.

(** *** Where the code does not do what it says *)

(** The comment of [updateMission] lets the chat option of a finished mission be
    changed; the controller hands the whole body over as the patch, the client's body
    names the account too, and the edit is refused. *)
Lemma chat_option_over_rest_is_refused :
  let db := sample_run (take 2 sample_mission_calls ++ [engine_writes (sample_engine "completed" None)]) empty_missions in
  let edit patch := fst (updateMission no_number (sample_moment "x" 5000000) sample_board "m1" "acc" patch db) in
  edit [("account_id", JStr "acc"); ("user_chat_mode", JStr "off")] = Err (409, mission_finished "completed") ∧
  is_Ok (edit [("user_chat_mode", JStr "off")]) = true.
Proof. vm_compute. by split. Qed.

(** [updateMission] takes no lock: a mission started between its reading and its saving
    of the row is a draft again when it is saved, its brief not the one the orchestrator
    was given, and its room forgotten. *)
Lemma edit_overtakes_start :
  let read := sample_run (take 1 sample_mission_calls) empty_missions in
  let started := engine_write (sample_engine "planning" (Some "room")) read in
  ∃ m m', requireMission read "m1" "acc" = Ok m ∧
    edit_mission no_number (sample_moment "x" 5000000) sample_board [("title", JStr "Something else")] m = Ok m' ∧
    List.map (λ m, (mr_title m, mr_status m, mr_room_id m)) (md_missions started) = [("Ship it", "planning", Some "room")] ∧
    List.map (λ m, (mr_title m, mr_status m, mr_room_id m)) (md_missions (save_mission m' started))
      = [("Something else", "draft", None)].
Proof. eexists. eexists. split; [vm_compute; reflexivity|]. split; [vm_compute; reflexivity|]. by split. Qed.

(** A step that needs recovery is in none of the counts a mission is listed with. *)
Lemma unrecovered_steps_are_not_counted :
  countSteps ["done"; "needs_recovery"] 0
  = {| mc_total := 2; mc_done := 1; mc_failed := 0; mc_inFlight := 0; mc_pending := 0; mc_awaitingUser := 0; mc_awaitingApproval := 0 |}.
Proof. reflexivity. Qed.

(** Its environment variable may ask for a window that rounds to nothing. *)
Lemma half_a_minute_is_no_window floor_half env :
  env "HARD_BUDGET_WINDOW_MINUTES" = Some "0.5" → floor_half "0.5" = Some 0 →
  hr_windowMs (hardBudgetDefaultsFromEnv floor_half env) = 0.
Proof. intros He Hf. unfold hardBudgetDefaultsFromEnv; simpl. unfold env_num. by rewrite He, Hf. Qed.
