(* ===== verification/DispatchSeats.v ===== *)
(** * Dispatch seats

    At most one dispatch works a (ticket, role, agent) at a time: both ways to
    start one — a trigger and a role mention — claim the seat before they provision
    and hold it until their process is gone.  Two registries keep seats: the
    session manager's [_inflight] ([ticket-session-manager.ts]), which also sees
    live sessions, and, where persistent sessions are off, the dispatcher's
    fallback slots ([InflightDispatchTracker], [dispatch-preflight.ts]).  The
    dispatcher ([event-dispatcher.ts]) is written against what the two have in
    common, the class [SeatRegistry]. *)

From S2P Require Import Prelude.
From S2P Require Import JsStd.
#[local] Open Scope Z_scope.

(** ** Seats and reservations *)

Definition INFLIGHT_RESERVATION_STALE_MS : Z := 10 * 60000.
Definition INFLIGHT_SUPPRESS_SAFETY_VALVE : Z := 3.
Definition INFLIGHT_SUPPRESS_SAFETY_VALVE_MIN_AGE_MS : Z := 5 * 60000.

(** What a dispatch asks a seat for. *)
Record SeatMeta := { sm_ticketId : string; sm_role : string; sm_agentId : string }.

#[export] Instance SeatMeta_eq_dec : EqDecision SeatMeta.
Proof. solve_decision. Defined.

(** [s || '_'] *)
Definition or_underscore (s : string) : string := if truthy s then s else "_".

(** [InflightDispatchTracker.key], and the session manager's [#makeKey]. *)
Definition dispatch_key (ticketId role agentId : string) : string :=
  ticketId ++ ":" ++ or_underscore role ++ ":" ++ or_underscore agentId.

Definition meta_key (m : SeatMeta) : string := dispatch_key (sm_ticketId m) (sm_role m) (sm_agentId m).

(** A reservation, of either registry (the session manager keeps only the ticket
    and the agent of [rv_meta]). *)
Record Reservation := {
  rv_meta : SeatMeta;
  rv_reservedAt : Z;
  (** a session spawn's own reservation has none *)
  rv_nonce : option string;
  rv_pid : option Z
}.

(** What a call sees of the world: the clock, the processes that a signal 0
    reaches, and the next random id. *)
Record SeatMoment := { mt_now : Z; mt_alive : Z → bool; mt_uuid : string }.

(** [isPidAlive] *)
Definition isPidAlive (w : SeatMoment) (pid : Z) : bool := (0 <? pid) && mt_alive w pid.

Inductive SeatEviction : Type := ev_stale | ev_safety_valve | ev_dead_pid.

#[export] Instance SeatEviction_eq_dec : EqDecision SeatEviction.
Proof. solve_decision. Defined.

(** [DispatchReservation] *)
Record DispatchReservation := {
  dr_acquired : bool;
  dr_live : bool;
  dr_holderAlive : bool;
  dr_evicted : option SeatEviction;
  dr_nonce : option string
}.

Definition refused (holderAlive : bool) : DispatchReservation :=
  {| dr_acquired := false; dr_live := false; dr_holderAlive := holderAlive; dr_evicted := None; dr_nonce := None |}.
Definition granted (w : SeatMoment) (evicted : option SeatEviction) : DispatchReservation :=
  {| dr_acquired := true; dr_live := false; dr_holderAlive := false; dr_evicted := evicted;
     dr_nonce := Some (mt_uuid w) |}.
Definition reuses_live : DispatchReservation :=
  {| dr_acquired := true; dr_live := true; dr_holderAlive := false; dr_evicted := None; dr_nonce := None |}.

Definition reserve_for (w : SeatMoment) (m : SeatMeta) : Reservation :=
  {| rv_meta := m; rv_reservedAt := mt_now w; rv_nonce := Some (mt_uuid w); rv_pid := None |}.

Abbreviation Slots := (list (string * Reservation)).

(** [if (existing && nonce !== undefined && existing.nonce !== nonce) return] *)
Definition of_older_generation (slots : Slots) (key : string) (nonce : option string) : bool :=
  match JMap.get slots key, nonce with
  | Some r, Some n => negb (bool_decide (rv_nonce r = Some n))
  | _, _ => false
  end.

(** [existing.pid = pid] behind its guards: the same text in both registries. *)
Definition attach_pid (slots : Slots) (key : string) (nonce : option string) (pid : Z) : Slots :=
  if pid <=? 0 then slots
  else if of_older_generation slots key nonce then slots
  else JMap.update slots key (λ r, r<|rv_pid := Some pid|>).

(** ** The fallback slots *)

(** [tryAcquireFallback] *)
Definition tryAcquireFallback (w : SeatMoment) (m : SeatMeta) (slots : Slots) : Slots * DispatchReservation :=
  let key := meta_key m in
  let take := JMap.set slots key (reserve_for w m) in
  match JMap.get slots key with
  | Some existing =>
      match rv_pid existing with
      | Some pid => if isPidAlive w pid then (slots, refused true) else (take, granted w (Some ev_dead_pid))
      | None =>
          if mt_now w - rv_reservedAt existing <? INFLIGHT_RESERVATION_STALE_MS then (slots, refused false)
          else (take, granted w (Some ev_stale))
      end
  | None => (take, granted w None)
  end.

(** [releaseFallback] *)
Definition releaseFallback (m : SeatMeta) (nonce : option string) (slots : Slots) : Slots :=
  if of_older_generation slots (meta_key m) nonce then slots else JMap.delete slots (meta_key m).

(** ** The session manager *)

(** A session as the registry sees it. *)
Record LiveSession := { ls_pid : Z; ls_unhealthyKilled : bool }.

Record SessionManager := {
  (** [_sessions] *)
  sn_sessions : list (string * LiveSession);
  (** [_inflight] *)
  sn_inflight : Slots;
  (** [#reserveSuppress] *)
  sn_suppress : list (string * Z)
}.

(** [_getLiveSession]: a session that is torn down or whose process is gone is
    forgotten. *)
Definition getLiveSession (w : SeatMoment) (key : string) (s : SessionManager) : SessionManager * option LiveSession :=
  match JMap.get (sn_sessions s) key with
  | None => (s, None)
  | Some sess =>
      if ls_unhealthyKilled sess || negb (isPidAlive w (ls_pid sess))
      then (s<|sn_sessions := JMap.delete (sn_sessions s) key|>, None)
      else (s, Some sess)
  end.

Definition forget_suppressions (key : string) (s : SessionManager) : SessionManager :=
  s<|sn_suppress := JMap.delete (sn_suppress s) key|>.

(** The reservation is placed and the count of suppressions starts over. *)
Definition take_inflight (w : SeatMoment) (m : SeatMeta) (s : SessionManager) : SessionManager :=
  forget_suppressions (meta_key m) (s<|sn_inflight := JMap.set (sn_inflight s) (meta_key m) (reserve_for w m)|>).

(** [tryReserveDispatch] *)
Definition tryReserveDispatch (w : SeatMoment) (m : SeatMeta) (s0 : SessionManager)
    : SessionManager * DispatchReservation :=
  let key := meta_key m in
  let (s, live) := getLiveSession w key s0 in
  match live with
  | Some _ => (forget_suppressions key s, reuses_live)
  | None =>
      match JMap.get (sn_inflight s) key with
      | None => (take_inflight w m s, granted w None)
      | Some existing =>
          match rv_pid existing with
          | Some pid =>
              if isPidAlive w pid then (s, refused true) else (take_inflight w m s, granted w (Some ev_dead_pid))
          | None =>
              let age := mt_now w - rv_reservedAt existing in
              let count := default 0 (JMap.get (sn_suppress s) key) + 1 in
              if INFLIGHT_RESERVATION_STALE_MS <=? age then (take_inflight w m s, granted w (Some ev_stale))
              else if (INFLIGHT_SUPPRESS_SAFETY_VALVE <=? count) &&
                      (INFLIGHT_SUPPRESS_SAFETY_VALVE_MIN_AGE_MS <=? age)
              then (take_inflight w m s, granted w (Some ev_safety_valve))
              else (s<|sn_suppress := JMap.set (sn_suppress s) key count|>, refused false)
          end
      end
  end.

(** [releaseDispatch] *)
Definition releaseDispatch (m : SeatMeta) (nonce : option string) (s : SessionManager) : SessionManager :=
  let key := meta_key m in
  if of_older_generation (sn_inflight s) key nonce then s
  else forget_suppressions key (s<|sn_inflight := JMap.delete (sn_inflight s) key|>).

(** [attachDispatchPid] *)
Definition attachDispatchPid (m : SeatMeta) (nonce : option string) (pid : Z) (s : SessionManager) : SessionManager :=
  s<|sn_inflight := attach_pid (sn_inflight s) (meta_key m) nonce pid|>.

(** [hasInflightOrLiveDispatch] *)
Definition hasInflightOrLiveDispatch (w : SeatMoment) (m : SeatMeta) (s : SessionManager) : SessionManager * bool :=
  let (s', live) := getLiveSession w (meta_key m) s in
  (s', bool_decide (is_Some live) || JMap.has (sn_inflight s') (meta_key m)).

(** Without a seat of the dispatcher's, [dispatchTrigger] places a reservation of its
    own before it spawns, which has no nonce, and takes it away afterwards.  The
    check in front of it is not made when a live session was replaced. *)
Definition spawn_reserve (w : SeatMoment) (m : SeatMeta) (s : SessionManager) : SessionManager :=
  s<|sn_inflight := JMap.set (sn_inflight s) (meta_key m)
       {| rv_meta := m; rv_reservedAt := mt_now w; rv_nonce := None; rv_pid := None |}|>.
Definition spawn_settled (m : SeatMeta) (s : SessionManager) : SessionManager :=
  s<|sn_inflight := JMap.delete (sn_inflight s) (meta_key m)|>.

(** ** The registry of the dispatcher *)

(** The dispatcher picks one by its configuration. *)
Record SeatConfig := {
  sc_enabled : bool;
  sc_persistentTicketSessions : bool;
  (** there is a session manager that can reserve *)
  sc_reserves : bool
}.

(** [canAuthoritative] of a trigger *)
Definition canAuthoritative (c : SeatConfig) : bool :=
  sc_enabled c && sc_persistentTicketSessions c && sc_reserves c.

Inductive SeatRoute : Type := route_authoritative | route_peek | route_fallback.

Definition trigger_route (c : SeatConfig) : SeatRoute :=
  if canAuthoritative c then route_authoritative else route_fallback.

(** The branches of [handleCommentMention]; [route_peek] claims nothing. *)
Definition mention_route (c : SeatConfig) : SeatRoute :=
  if sc_enabled c && sc_persistentTicketSessions c && sc_reserves c then route_authoritative
  else if sc_persistentTicketSessions c then route_peek
  else route_fallback.

(** What the dispatcher needs of a registry of type [S]. *)
Class SeatRegistry (S : Type) := {
  reserve : SeatMoment → SeatMeta → S → S * DispatchReservation;
  release_seat : SeatMeta → option string → S → S;
  attach_seat : SeatMeta → option string → Z → S → S;
  (** the reservation under a key *)
  holder : S → string → option Reservation;
  (** what else happens to the registry *)
  own_step : S → S → Prop
}.

#[export] Instance fallback_registry : SeatRegistry Slots := {|
  reserve := tryAcquireFallback;
  release_seat := releaseFallback;
  attach_seat m nonce pid slots := attach_pid slots (meta_key m) nonce pid;
  holder := JMap.get;
  own_step _ _ := False
|}.

(** Sessions come and go, and spawns without a seat reserve for themselves. *)
Inductive session_step : SessionManager → SessionManager → Prop :=
  | sessions_change sessions s : session_step s (s<|sn_sessions := sessions|>)
  | spawn_begins w m s : session_step s (spawn_reserve w m s)
  | spawn_ends m s : session_step s (spawn_settled m s).

#[export] Instance session_registry : SeatRegistry SessionManager := {|
  reserve := tryReserveDispatch;
  release_seat := releaseDispatch;
  attach_seat := attachDispatchPid;
  holder s := JMap.get (sn_inflight s);
  own_step := session_step
|}.

(** The reservation may be taken from its holder. *)
Definition evictable (w : SeatMoment) (why : SeatEviction) (r : Reservation) : Prop :=
  match why with
  | ev_dead_pid => ∃ pid, rv_pid r = Some pid ∧ isPidAlive w pid = false
  | ev_stale => rv_pid r = None ∧ INFLIGHT_RESERVATION_STALE_MS ≤ mt_now w - rv_reservedAt r
  | ev_safety_valve => rv_pid r = None ∧ INFLIGHT_SUPPRESS_SAFETY_VALVE_MIN_AGE_MS ≤ mt_now w - rv_reservedAt r
  end.

(** What the registries promise. *)
Class SeatLaws (S : Type) {registry : SeatRegistry S} : Prop := {
  reserve_granted : ∀ w m s s' dr, reserve w m s = (s', dr) → dr_acquired dr = true → dr_live dr = false →
    dr_nonce dr = Some (mt_uuid w) ∧ holder s' (meta_key m) = Some (reserve_for w m) ∧
    (∀ k, k ≠ meta_key m → holder s' k = holder s k) ∧
    match holder s (meta_key m) with
    | Some r => ∃ why, dr_evicted dr = Some why ∧ evictable w why r
    | None => dr_evicted dr = None
    end;
  reserve_other : ∀ w m s s' dr, reserve w m s = (s', dr) → dr_acquired dr = false ∨ dr_live dr = true →
    ∀ k, holder s' k = holder s k;
  reserve_refused : ∀ w m s s' dr, reserve w m s = (s', dr) → dr_acquired dr = false →
    ∃ r, holder s (meta_key m) = Some r ∧
      (dr_holderAlive dr = true ↔ ∃ pid, rv_pid r = Some pid ∧ isPidAlive w pid = true);
  release_holder : ∀ m n s k, holder (release_seat m (Some n) s) k =
    match holder s (meta_key m) with
    | Some r => if bool_decide (rv_nonce r = Some n) && String.eqb (meta_key m) k then None else holder s k
    | None => holder s k
    end;
  attach_holder : ∀ m n pid s k, 0 < pid → holder (attach_seat m (Some n) pid s) k =
    match holder s k with
    | Some r => if bool_decide (rv_nonce r = Some n) && String.eqb (meta_key m) k
                then Some (r<|rv_pid := Some pid|>) else Some r
    | None => None
    end;
  attach_no_pid : ∀ m nonce pid s k, pid ≤ 0 → holder (attach_seat m nonce pid s) k = holder s k;
  own_places_no_seat : ∀ s s' k r n, own_step s s' → holder s' k = Some r → rv_nonce r = Some n →
    holder s k = Some r
}.

(** * The dispatcher's side of a seat

    What [event-dispatcher.ts] does with seats: the gates of [handleTrigger] and
    [handleCommentMention], the seat handle ([createDispatchSeat]), and the
    replay of what was suppressed while a seat was held ([recordSuppression],
    [onRelease] of [InflightDispatchTracker], [#replaySuppressedDispatch]).

    Dispatches are asynchronous: between the gate of one, its spawn, the end of its
    body and the exit of its process anything may happen, so the dispatcher is a
    machine with these as its steps. *)

(** ** The tracker *)

Inductive DispatchHolderKind : Type := by_trigger | by_mention.

#[export] Instance DispatchHolderKind_eq_dec : EqDecision DispatchHolderKind.
Proof. solve_decision. Defined.

(** [InflightDispatchTracker], but for its fallback slots. *)
Record InflightTracker := {
  it_suppressCounts : list (string * Z);
  it_surfaced : list string;
  it_pendingForce : list (string * string);
  it_holders : list (string * DispatchHolderKind);
  it_pendingColumnWorkflow : list (string * string)
}.

Definition new_tracker : InflightTracker :=
  {| it_suppressCounts := []; it_surfaced := []; it_pendingForce := []; it_holders := [];
     it_pendingColumnWorkflow := [] |}.

Definition noteHolder (key : string) (kind : DispatchHolderKind) (t : InflightTracker) : InflightTracker :=
  t<|it_holders := JMap.set (it_holders t) key kind|>.

Definition holderKind (key : string) (t : InflightTracker) : option DispatchHolderKind := JMap.get (it_holders t) key.

(** [if (wanted && raw !== undefined && !pending.has(key)) pending.set(key, raw)] *)
Definition capture_first (wanted : bool) (raw : option string) (key : string) (pending : list (string * string))
    : list (string * string) :=
  match raw with
  | Some r => if wanted && negb (JMap.has pending key) then JMap.set pending key r else pending
  | None => pending
  end.

(** The second part is [surface]. *)
Definition recordSuppression (reason key : string) (force : bool) (raw : option string) (columnWorkflow : bool)
    (t : InflightTracker) : InflightTracker * bool :=
  ({| it_suppressCounts := JMap.set (it_suppressCounts t) reason (default 0 (JMap.get (it_suppressCounts t) reason) + 1);
      it_surfaced := set_add (it_surfaced t) key;
      it_pendingForce := capture_first force raw key (it_pendingForce t);
      it_holders := it_holders t;
      it_pendingColumnWorkflow :=
        capture_first (columnWorkflow && bool_decide (holderKind key t = Some by_mention)) raw key
          (it_pendingColumnWorkflow t) |},
   negb (includes (it_surfaced t) key)).

(** The raw payloads handed back: the force, and the column workflow. *)
Definition onRelease (key : string) (t : InflightTracker) : InflightTracker * option string * option string :=
  ({| it_suppressCounts := it_suppressCounts t;
      it_surfaced := lfilter (λ k, negb (String.eqb k key)) (it_surfaced t);
      it_pendingForce := JMap.delete (it_pendingForce t) key;
      it_holders := JMap.delete (it_holders t) key;
      it_pendingColumnWorkflow := JMap.delete (it_pendingColumnWorkflow t) key |},
   JMap.get (it_pendingForce t) key, JMap.get (it_pendingColumnWorkflow t) key).

(** [suppressedCount()] *)
Definition suppressedCount (t : InflightTracker) : Z := foldr Z.add 0 (JMap.values (it_suppressCounts t)).

(** ** Events *)

(** What the gate reads of a trigger; an absent string is empty. *)
Record TriggerEvent := {
  te_ticket_id : string;
  te_action : string;
  te_actor_name : string;
  te_force_respawn : bool;
  te_trigger_source : string;
  te_raw : string
}.

(** The mention's target; [mn_role] is its [role_shortcut], where its source is
    a role. *)
Record MentionEvent := { mn_ticketId : string; mn_role : option string; mn_agent_id : string }.

Definition MENTION_HOLDER_SERVES_TRIGGER_SOURCES : list string := ["comment"; "supervisor"].

Definition trigger_meta (ev : TriggerEvent) : SeatMeta :=
  {| sm_ticketId := te_ticket_id ev; sm_role := te_action ev; sm_agentId := te_actor_name ev |}.

Definition owes_column_workflow (ev : TriggerEvent) : bool :=
  negb (includes MENTION_HOLDER_SERVES_TRIGGER_SOURCES (te_trigger_source ev)).

(** ** The dispatcher *)

(** A [DispatchSeat], with what its closures keep: what it was claimed for, its
    generation, and the handler that claimed it. *)
Record Seat := {
  st_meta : SeatMeta;
  st_nonce : option string;
  st_kind : DispatchHolderKind;
  st_transferred : bool
}.

Definition seat_key (st : Seat) : string := meta_key (st_meta st).

Inductive Replay : Type := replay_force (raw : string) | replay_column (raw : string).

Record Dispatcher (S : Type) := {
  sd_registry : S;
  sd_tracker : InflightTracker;
  (** every seat that was ever made *)
  sd_seats : list Seat;
  (** the triggers under way in a live session: they made no seat *)
  sd_reuses : list string;
  (** the replays that were started *)
  sd_replays : list Replay
}.
Arguments sd_registry {S}. Arguments sd_tracker {S}. Arguments sd_seats {S}. Arguments sd_reuses {S}.
Arguments sd_replays {S}. Arguments Build_Dispatcher {S}.

(** What the gate made of an event. *)
Inductive GateOutcome : Type :=
  | gate_unkeyed
  | gate_suppressed (reason : string) (surface : bool)
  | gate_reuses
  | gate_seated (evicted : option SeatEviction).

Section dispatcher.
Context {S : Type} {registry : SeatRegistry S}.

Abbreviation D := (Dispatcher S).

Definition with_registry (reg : S) (d : D) : D :=
  {| sd_registry := reg; sd_tracker := sd_tracker d; sd_seats := sd_seats d; sd_reuses := sd_reuses d;
     sd_replays := sd_replays d |}.
Definition with_tracker (t : InflightTracker) (d : D) : D :=
  {| sd_registry := sd_registry d; sd_tracker := t; sd_seats := sd_seats d; sd_reuses := sd_reuses d;
     sd_replays := sd_replays d |}.
Definition with_seats (l : list Seat) (d : D) : D :=
  {| sd_registry := sd_registry d; sd_tracker := sd_tracker d; sd_seats := l; sd_reuses := sd_reuses d;
     sd_replays := sd_replays d |}.
Definition with_reuses (l : list string) (d : D) : D :=
  {| sd_registry := sd_registry d; sd_tracker := sd_tracker d; sd_seats := sd_seats d; sd_reuses := l;
     sd_replays := sd_replays d |}.
Definition with_replay (r : Replay) (d : D) : D :=
  {| sd_registry := sd_registry d; sd_tracker := sd_tracker d; sd_seats := sd_seats d; sd_reuses := sd_reuses d;
     sd_replays := sd_replays d ++ [r] |}.

(** A fresh reservation becomes a seat, and its holder is noted. *)
Definition take_seat (m : SeatMeta) (kind : DispatchHolderKind) (dr : DispatchReservation) (d : D) : D :=
  with_seats (sd_seats d ++ [{| st_meta := m; st_nonce := dr_nonce dr; st_kind := kind; st_transferred := false |}])
    (with_tracker (noteHolder (meta_key m) kind (sd_tracker d)) d).

(** The single-flight gate of [handleTrigger]. *)
Definition trigger_gate (w : SeatMoment) (ev : TriggerEvent) (d0 : D) : D * GateOutcome :=
  if negb (truthy (te_ticket_id ev)) then (d0, gate_unkeyed)
  else
    let m := trigger_meta ev in
    let (reg, dr) := reserve w m (sd_registry d0) in
    let d := with_registry reg d0 in
    if negb (dr_acquired dr) then
      let (t, surface) := recordSuppression "inflight_dispatch" (meta_key m) (te_force_respawn ev) (Some (te_raw ev))
                            (owes_column_workflow ev) (sd_tracker d) in
      (with_tracker t d,
       gate_suppressed (if dr_holderAlive dr then "inflight_live_process" else "inflight_dispatch") surface)
    else if dr_live dr then (with_reuses (sd_reuses d ++ [meta_key m]) d, gate_reuses)
    else (take_seat m by_trigger dr d, gate_seated (dr_evicted dr)).

Definition mention_meta (role : string) (ev : MentionEvent) : SeatMeta :=
  {| sm_ticketId := mn_ticketId ev; sm_role := role; sm_agentId := mn_agent_id ev |}.

(** The claim of [handleCommentMention], where its route is a registry. *)
Definition mention_gate (w : SeatMoment) (ev : MentionEvent) (d0 : D) : D * GateOutcome :=
  match mn_role ev with
  | Some role =>
      if negb (truthy role) then (d0, gate_unkeyed)
      else
        let m := mention_meta role ev in
        let (reg, dr) := reserve w m (sd_registry d0) in
        let d := with_registry reg d0 in
        if negb (dr_acquired dr) || dr_live dr then (d, gate_suppressed "mention_seat" true)
        else (take_seat m by_mention dr d, gate_seated (dr_evicted dr))
  | None => (d0, gate_unkeyed)
  end.

(** [#replaySuppressedDispatch]: at most one of the two. *)
Definition replay_suppressed (key : string) (d : D) : D :=
  let '(t, force, column) := onRelease key (sd_tracker d) in
  let d' := with_tracker t d in
  match force, column with
  | Some raw, _ => if truthy raw then with_replay (replay_force raw) d'
                   else match column with
                        | Some raw' => if truthy raw' then with_replay (replay_column raw') d' else d'
                        | None => d'
                        end
  | None, Some raw => if truthy raw then with_replay (replay_column raw) d' else d'
  | None, None => d'
  end.

(** [seat.release()]: [onReleased] follows the release in the registry. *)
Definition release_handle (st : Seat) (d : D) : D :=
  replay_suppressed (seat_key st) (with_registry (release_seat (st_meta st) (st_nonce st) (sd_registry d)) d).

(** The spawn succeeded: [seat.transferred = true; seat.promote(pid)]. *)
Definition spawn_succeeds (i : nat) (st : Seat) (pid : option Z) (d : D) : D :=
  let d' := with_seats (<[i := st<|st_transferred := true|>]> (sd_seats d)) d in
  match pid with
  | Some p => if p =? 0 then d' else with_registry (attach_seat (st_meta st) (st_nonce st) p (sd_registry d)) d'
  | None => d'
  end.

(** The [finally] of the dispatch that made the seat. *)
Definition body_ends (st : Seat) (d : D) : D := if st_transferred st then d else release_handle st d.

(** ** Its steps *)

Inductive SeatEvent : Type :=
  | on_trigger (w : SeatMoment) (ev : TriggerEvent)
  | on_mention (w : SeatMoment) (ev : MentionEvent)
  | on_spawned (i : nat) (pid : option Z)
  | on_body_end (i : nat)
  | on_exit (i : nat)
  | on_reuse_end (key : string)
  | on_registry.

(** [randomUUID()] does not repeat. *)
Definition fresh_uuid (w : SeatMoment) (d : D) : Prop :=
  ∀ i st, sd_seats d !! i = Some st → st_nonce st ≠ Some (mt_uuid w).

Inductive seat_step : SeatEvent → D → D → Prop :=
  (** its raw payload was parsed, so it is not empty *)
  | step_trigger w ev d : fresh_uuid w d → truthy (te_raw ev) = true → seat_step (on_trigger w ev) d (trigger_gate w ev d).1
  | step_mention w ev d : fresh_uuid w d → seat_step (on_mention w ev) d (mention_gate w ev d).1
  | step_spawned i st pid d : sd_seats d !! i = Some st → seat_step (on_spawned i pid) d (spawn_succeeds i st pid d)
  | step_body_end i st d : sd_seats d !! i = Some st → seat_step (on_body_end i) d (body_ends st d)
  | step_exit i st d : sd_seats d !! i = Some st → seat_step (on_exit i) d (release_handle st d)
  | step_reuse_end key d l1 l2 : sd_reuses d = l1 ++ key :: l2 →
      seat_step (on_reuse_end key) d (replay_suppressed key (with_reuses (l1 ++ l2) d))
  | step_registry reg d : own_step (sd_registry d) reg → seat_step on_registry d (with_registry reg d).

(** A run, and the events of it in order. *)
Inductive seat_run : list SeatEvent → D → D → Prop :=
  | run_nil d : seat_run [] d d
  | run_snoc l e d1 d2 d3 : seat_run l d1 d2 → seat_step e d2 d3 → seat_run (l ++ [e]) d1 d3.

Definition new_dispatcher (reg : S) : D :=
  {| sd_registry := reg; sd_tracker := new_tracker; sd_seats := []; sd_reuses := []; sd_replays := [] |}.

(** Seat [i] is the one its key is reserved for. *)
Definition holds (d : D) (i : nat) : Prop :=
  ∃ st r, sd_seats d !! i = Some st ∧ holder (sd_registry d) (seat_key st) = Some r ∧ rv_nonce r = st_nonce st.

(** The event ends a hold of [key]: what was suppressed under it is handed back. *)
Definition ends_hold (e : SeatEvent) (d : D) (key : string) : Prop :=
  match e with
  | on_exit i => ∃ st, sd_seats d !! i = Some st ∧ seat_key st = key
  | on_body_end i => ∃ st, sd_seats d !! i = Some st ∧ seat_key st = key ∧ st_transferred st = false
  | on_reuse_end k => k = key
  | _ => False
  end.

(** Seat [i] may lose its reservation to the event: its own release, an eviction
    that its reservation gives cause for, or a spawn of the session manager's. *)
Definition takes_from (e : SeatEvent) (d : D) (i : nat) : Prop :=
  match e with
  | on_body_end j | on_exit j => j = i
  | on_trigger w _ | on_mention w _ =>
      ∃ st r why, sd_seats d !! i = Some st ∧ holder (sd_registry d) (seat_key st) = Some r ∧ evictable w why r
  | on_registry => True
  | on_spawned _ _ | on_reuse_end _ => False
  end.

(** Nobody ends another one's hold. *)
Definition orderly (e : SeatEvent) (d : D) : Prop :=
  ∀ k i st, ends_hold e d k → holds d i → sd_seats d !! i = Some st → seat_key st = k →
    e = on_exit i ∨ e = on_body_end i.

Inductive orderly_run : list SeatEvent → D → D → Prop :=
  | orderly_nil d : orderly_run [] d d
  | orderly_snoc l e d1 d2 d3 : orderly_run l d1 d2 → seat_step e d2 d3 → orderly e d2 →
      orderly_run (l ++ [e]) d1 d3.

End dispatcher.

(** ** The replay of a column workflow *)

(** [#replayColumnWorkflowTrigger] skips a trigger whose ticket has moved on;
    statuses that do not parse are [None], a failed look-up is an empty column. *)
Definition column_replay_stale (emittedStatus currentStatus : option string) (emittedColumn currentColumn : string)
    : bool :=
  match emittedStatus with
  | Some e => match currentStatus with Some c => negb (String.eqb c e) | None => false end
  | None => truthy emittedColumn && truthy currentColumn && negb (String.eqb currentColumn emittedColumn)
  end.
