(* ===== verification/SeatFacts.v ===== *)
(** * What seats promise

    Both registries keep the laws of [SeatLaws]; over any registry that does, the
    dispatcher works a seat once at a time, and replays what it suppressed. *)

From S2P Require Import Prelude JsStd.
From S2P Require Import DispatchSeats.
#[local] Open Scope Z_scope.

(** ** The registries keep the laws *)

Lemma attach_pid_get slots key n pid k : 0 < pid →
  JMap.get (attach_pid slots key (Some n) pid) k =
  match JMap.get slots k with
  | Some r => if bool_decide (rv_nonce r = Some n) && String.eqb key k then Some (r<|rv_pid := Some pid|>) else Some r
  | None => None
  end.
Proof.
  intros Hp. unfold attach_pid, of_older_generation. destruct (Z.leb_spec pid 0) as [|_]; [lia|].
  destruct (String.eqb_spec key k) as [->|N].
  - destruct (JMap.get slots k) as [r|] eqn:E; cbn [andb].
    + destruct (bool_decide (rv_nonce r = Some n)); cbn [negb andb]; [|by rewrite E].
      by rewrite JMap.get_update, String.eqb_refl, E.
    + by rewrite JMap.get_update, String.eqb_refl, E.
  - assert (Hu : JMap.get (JMap.update slots key (λ r, r<|rv_pid := Some pid|>)) k = JMap.get slots k).
    { rewrite JMap.get_update. by destruct (String.eqb_spec key k). }
    assert (Hr : (if match JMap.get slots key with Some r => negb (bool_decide (rv_nonce r = Some n)) | None => false end
                  then JMap.get slots k else JMap.get slots k) = JMap.get slots k)
      by (by destruct (match JMap.get slots key with Some r => _ | None => false end)).
    destruct (match JMap.get slots key with Some r => _ | None => false end); rewrite ?Hu;
      destruct (JMap.get slots k) as [r|]; try done; by rewrite andb_false_r.
Qed.

Lemma attach_pid_nonpos slots key nonce pid : pid ≤ 0 → attach_pid slots key nonce pid = slots.
Proof. intros H. unfold attach_pid. by destruct (Z.leb_spec pid 0); [|lia]. Qed.

(** A release by generation: what both registries do to their slots. *)
Lemma release_get slots key n k :
  JMap.get (if of_older_generation slots key (Some n) then slots else JMap.delete slots key) k =
  match JMap.get slots key with
  | Some r => if bool_decide (rv_nonce r = Some n) && String.eqb key k then None else JMap.get slots k
  | None => JMap.get slots k
  end.
Proof.
  unfold of_older_generation. destruct (JMap.get slots key) as [r|] eqn:E.
  - destruct (bool_decide (rv_nonce r = Some n)); cbn [negb andb]; [|done]. by rewrite JMap.get_delete.
  - rewrite JMap.get_delete. destruct (String.eqb_spec key k) as [<-|]; [by rewrite E|done].
Qed.

Lemma take_slot_laws w m (slots : Slots) :
  JMap.get (JMap.set slots (meta_key m) (reserve_for w m)) (meta_key m) = Some (reserve_for w m) ∧
  ∀ k, k ≠ meta_key m → JMap.get (JMap.set slots (meta_key m) (reserve_for w m)) k = JMap.get slots k.
Proof. split; [by rewrite JMap.get_set_eq|]. intros k Hk. by rewrite JMap.get_set_ne. Qed.

#[export] Instance fallback_laws : SeatLaws Slots.
Proof.
  constructor.
  - intros w m s s' dr H Ha Hl. cbn in *. unfold tryAcquireFallback in H.
    destruct (take_slot_laws w m s) as [T1 T2]. destruct (JMap.get s (meta_key m)) as [r|] eqn:E.
    + destruct (rv_pid r) as [pid|] eqn:Ep.
      * destruct (isPidAlive w pid) eqn:Ea; injection H as <- <-; [done|]. split_and!; try done.
        exists ev_dead_pid. split; [done|]. by exists pid.
      * destruct (Z.ltb_spec (mt_now w - rv_reservedAt r) INFLIGHT_RESERVATION_STALE_MS); injection H as <- <-; [done|].
        split_and!; try done. exists ev_stale. by split.
    + injection H as <- <-. by split_and!.
  - intros w m s s' dr H Hd k. cbn in *. unfold tryAcquireFallback in H.
    destruct (JMap.get s (meta_key m)) as [r|]; [destruct (rv_pid r) as [pid|]|].
    + destruct (isPidAlive w pid); injection H as <- <-; [done|by destruct Hd].
    + destruct (_ <? _); injection H as <- <-; [done|by destruct Hd].
    + injection H as <- <-. by destruct Hd.
  - intros w m s s' dr H Ha. cbn in *. unfold tryAcquireFallback in H.
    destruct (JMap.get s (meta_key m)) as [r|]; [|by injection H as <- <-].
    exists r. split; [done|]. destruct (rv_pid r) as [pid|].
    + destruct (isPidAlive w pid) eqn:Ea; injection H as <- <-; [|done]. split; [|done]. intros _. by exists pid.
    + destruct (_ <? _); injection H as <- <-; [|done]. split; [done|]. by intros (? & ? & _).
  - intros m n s k. apply release_get.
  - intros m n pid s k Hp. by apply attach_pid_get.
  - intros m nonce pid s k Hp. cbn. by rewrite attach_pid_nonpos.
  - done.
Qed.

Lemma getLiveSession_inflight w key s s' live :
  getLiveSession w key s = (s', live) → sn_inflight s' = sn_inflight s ∧ sn_suppress s' = sn_suppress s.
Proof.
  unfold getLiveSession. destruct (JMap.get _ _) as [x|]; [destruct (_ || _)|]; by intros [= <- _].
Qed.

(** The session manager, once no live session answered. *)
Lemma tryReserveDispatch_cases w m s0 s' dr : tryReserveDispatch w m s0 = (s', dr) →
  let slots := sn_inflight s0 in
  (sn_inflight s' = slots ∧ dr = reuses_live) ∨
  (∃ r, JMap.get slots (meta_key m) = Some r ∧ sn_inflight s' = slots ∧
    ((∃ pid, rv_pid r = Some pid ∧ isPidAlive w pid = true ∧ dr = refused true) ∨
     (rv_pid r = None ∧ dr = refused false))) ∨
  (sn_inflight s' = JMap.set slots (meta_key m) (reserve_for w m) ∧
    ∃ ev, dr = granted w ev ∧
      match JMap.get slots (meta_key m) with
      | Some r => ∃ why, ev = Some why ∧ evictable w why r
      | None => ev = None
      end).
Proof.
  unfold tryReserveDispatch. destruct (getLiveSession w (meta_key m) s0) as [s live] eqn:El.
  destruct (getLiveSession_inflight _ _ _ _ _ El) as [Ei Es]. destruct live as [x|].
  { intros [= <- <-]. left. by split. }
  cbn zeta. rewrite Ei. destruct (JMap.get (sn_inflight s0) (meta_key m)) as [r|] eqn:E.
  - destruct (rv_pid r) as [pid|] eqn:Ep.
    + destruct (isPidAlive w pid) eqn:Ea; intros [= <- <-].
      * right; left. exists r. split_and!; [done|done|]. left. by exists pid.
      * right; right. split; [by cbn; rewrite Ei|]. eexists. split; [done|]. exists ev_dead_pid. split; [done|]. by exists pid.
    + destruct (Z.leb_spec INFLIGHT_RESERVATION_STALE_MS (mt_now w - rv_reservedAt r)).
      { intros [= <- <-]. right; right. split; [by cbn; rewrite Ei|]. eexists. split; [done|]. exists ev_stale. by split. }
      destruct (_ && _) eqn:Ev; intros [= <- <-].
      * apply andb_true_iff in Ev as [_ Hage%Z.leb_le].
        right; right. split; [by cbn; rewrite Ei|]. eexists. split; [done|]. exists ev_safety_valve. by split.
      * right; left. exists r. split_and!; [done|by cbn|]. by right.
  - intros [= <- <-]. right; right. split; [by cbn; rewrite Ei|]. by eexists.
Qed.

#[export] Instance session_laws : SeatLaws SessionManager.
Proof.
  constructor.
  - intros w m s s' dr H Ha Hl. cbn in *.
    destruct (tryReserveDispatch_cases w m s s' dr H) as [[_ ->]|[(r & _ & _ & [(p & _ & _ & ->)|[_ ->]])|(E & ev & -> & He)]];
      [done|done|done|]. destruct (take_slot_laws w m (sn_inflight s)) as [T1 T2]. rewrite E. split_and!; try done.
  - intros w m s s' dr H Hd k. cbn in *.
    destruct (tryReserveDispatch_cases w m s s' dr H) as [[E _]|[(r & _ & E & _)|(_ & ev & -> & _)]];
      [by rewrite E|by rewrite E|by destruct Hd].
  - intros w m s s' dr H Ha. cbn in *.
    destruct (tryReserveDispatch_cases w m s s' dr H) as [[_ ->]|[(r & Hr & _ & Hc)|(_ & ev & -> & _)]]; [done| |done].
    exists r. split; [done|]. destruct Hc as [(pid & Ep & Ea & ->)|[Ep ->]].
    + split; [|done]. intros _. by exists pid.
    + split; [done|]. intros (pid & Hp & _). congruence.
  - intros m n s k. cbn. unfold releaseDispatch. rewrite <- release_get.
    by destruct (of_older_generation (sn_inflight s) (meta_key m) (Some n)).
  - intros m n pid s k Hp. by apply attach_pid_get.
  - intros m nonce pid s k Hp. cbn. by rewrite attach_pid_nonpos.
  - intros s s' k r n Hs Hr Hn. destruct Hs as [l s|w m s|m s]; cbn in *; [done| |].
    + destruct (String.eqb_spec (meta_key m) k) as [<-|N]; [|by rewrite JMap.get_set_ne in Hr].
      rewrite JMap.get_set_eq in Hr. injection Hr as <-. done.
    + rewrite JMap.get_delete in Hr. by destruct (String.eqb (meta_key m) k).
Qed.

(** ** The dispatcher's steps *)

Section dispatcher.
Context {S : Type} {registry : SeatRegistry S} {laws : SeatLaws S}.

Abbreviation D := (Dispatcher S).
Implicit Types d : D.

(** What does not change of the seats. *)
Definition seat_ids d : list (SeatMeta * option string * DispatchHolderKind) :=
  (λ st, (st_meta st, st_nonce st, st_kind st)) <$> sd_seats d.

Lemma seat_ids_lookup d i m n κ :
  seat_ids d !! i = Some (m, n, κ) ↔ ∃ st, sd_seats d !! i = Some st ∧ st_meta st = m ∧ st_nonce st = n ∧ st_kind st = κ.
Proof.
  unfold seat_ids. rewrite list_lookup_fmap. destruct (sd_seats d !! i) as [st|]; cbn; split.
  - intros [= <- <- <-]. by exists st.
  - by intros (x & [= <-] & <- & <- & <-).
  - done.
  - by intros (x & ? & _).
Qed.

Lemma holds_ids d i : holds d i ↔
  ∃ m n κ r, seat_ids d !! i = Some (m, n, κ) ∧ holder (sd_registry d) (meta_key m) = Some r ∧ rv_nonce r = n.
Proof.
  split.
  - intros (st & r & Hi & Hr & En). exists (st_meta st), (st_nonce st), (st_kind st), r.
    split_and!; [by apply seat_ids_lookup; exists st|done|done].
  - intros (m & n & κ & r & Hi & Hr & En). apply seat_ids_lookup in Hi as (st & Hi & <- & <- & <-). by exists st, r.
Qed.

Lemma replay_suppressed_frame key d :
  sd_seats (replay_suppressed key d) = sd_seats d ∧ sd_registry (replay_suppressed key d) = sd_registry d.
Proof.
  unfold replay_suppressed. destruct (onRelease key (sd_tracker d)) as [[t force] column].
  destruct force as [raw|]; [destruct (truthy raw); [done|]|]; (destruct column as [raw'|]; [by destruct (truthy raw')|done]).
Qed.

(** The event makes a seat for [m]. *)
Record claims (w : SeatMoment) (m : SeatMeta) (kind : DispatchHolderKind) d d' : Prop := {
  cl_seats : sd_seats d' = sd_seats d ++
    [{| st_meta := m; st_nonce := Some (mt_uuid w); st_kind := kind; st_transferred := false |}];
  cl_holder : holder (sd_registry d') (meta_key m) = Some (reserve_for w m);
  cl_others : ∀ k, k ≠ meta_key m → holder (sd_registry d') k = holder (sd_registry d) k;
  cl_evicted : ∀ r, holder (sd_registry d) (meta_key m) = Some r → ∃ why, evictable w why r;
  cl_tracker : sd_tracker d' = noteHolder (meta_key m) kind (sd_tracker d)
}.

(** The event leaves seats and reservations. *)
Definition quiet d d' : Prop :=
  sd_seats d' = sd_seats d ∧ ∀ k, holder (sd_registry d') k = holder (sd_registry d) k.

Lemma take_seat_claims w m kind d reg dr :
  reserve w m (sd_registry d) = (reg, dr) → dr_acquired dr = true → dr_live dr = false →
  claims w m kind d (take_seat m kind dr (with_registry reg d)).
Proof.
  intros Hr Ha Hl. destruct (reserve_granted w m (sd_registry d) reg dr Hr Ha Hl) as (En & Hh & Ho & He).
  constructor; cbn; [by rewrite En|done|done| |done].
  intros r Hk. rewrite Hk in He. destruct He as (why & _ & He). by exists why.
Qed.

(** What the tracker makes of a suppressed trigger. *)
Definition recorded (ev : TriggerEvent) (t : InflightTracker) : InflightTracker :=
  (recordSuppression "inflight_dispatch" (meta_key (trigger_meta ev)) (te_force_respawn ev) (Some (te_raw ev))
     (owes_column_workflow ev) t).1.

Lemma trigger_gate_cases w ev d : let d' := (trigger_gate w ev d).1 in
  sd_replays d' = sd_replays d ∧
  (quiet d d' ∧ (sd_tracker d' = sd_tracker d ∨ sd_tracker d' = recorded ev (sd_tracker d)) ∨
   claims w (trigger_meta ev) by_trigger d d').
Proof.
  unfold trigger_gate. destruct (truthy (te_ticket_id ev)); cbn [negb]; [|by split; [|left; split; [|left]]].
  destruct (reserve w (trigger_meta ev) (sd_registry d)) as [reg dr] eqn:E.
  destruct (dr_acquired dr) eqn:Ea; cbn [negb]; [destruct (dr_live dr) eqn:El|]; (split; [done|]).
  - left. split; [|by left]. split; [done|]. intros k. cbn. eapply reserve_other; eauto.
  - right. by apply take_seat_claims.
  - left. split; [|by right]. split; [done|]. intros k. cbn. eapply reserve_other; eauto.
Qed.

Lemma mention_gate_cases w ev d : let d' := (mention_gate w ev d).1 in
  (quiet d d' ∧ sd_tracker d' = sd_tracker d ∨ ∃ role, mn_role ev = Some role ∧ claims w (mention_meta role ev) by_mention d d') ∧
  sd_replays d' = sd_replays d.
Proof.
  unfold mention_gate. destruct (mn_role ev) as [role|]; [|by split; [left|]]. destruct (truthy role); cbn [negb]; [|by split; [left|]].
  destruct (reserve w (mention_meta role ev) (sd_registry d)) as [reg dr] eqn:E.
  destruct (negb (dr_acquired dr) || dr_live dr) eqn:Er; (split; [|done]).
  - left. split; [|done]. split; [done|]. intros k. cbn. apply (reserve_other w _ _ _ _ E).
    destruct (dr_acquired dr), (dr_live dr); auto.
  - apply orb_false_iff in Er as [Ea%negb_false_iff El]. right. exists role. split; [done|]. by apply take_seat_claims.
Qed.

(** ** Seats and their reservations *)

(** The generation a key is reserved for. *)
Definition nonce_at d k : option string := r ← holder (sd_registry d) k; rv_nonce r.

Record seats_ok d : Prop := {
  so_nonce : ∀ i m n κ, seat_ids d !! i = Some (m, n, κ) → is_Some n;
  so_unique : ∀ i j m m' n κ κ', seat_ids d !! i = Some (m, n, κ) → seat_ids d !! j = Some (m', n, κ') → i = j;
  so_holder : ∀ k n, nonce_at d k = Some n → ∃ i m κ, seat_ids d !! i = Some (m, Some n, κ) ∧ meta_key m = k
}.

Lemma holds_nonce d i : seats_ok d → holds d i ↔
  ∃ m n κ, seat_ids d !! i = Some (m, Some n, κ) ∧ nonce_at d (meta_key m) = Some n.
Proof.
  intros Ho. rewrite holds_ids. unfold nonce_at. split.
  - intros (m & n & κ & r & Hi & Hr & En). destruct (so_nonce d Ho i m n κ Hi) as [x ->].
    exists m, x, κ. rewrite Hr. by split.
  - intros (m & n & κ & Hi & Hn). destruct (holder _ _) as [r|] eqn:E; [|done]. by exists m, (Some n), κ, r.
Qed.

Lemma holds_unique d i j sti stj : seats_ok d → holds d i → holds d j →
  sd_seats d !! i = Some sti → sd_seats d !! j = Some stj → seat_key sti = seat_key stj → i = j.
Proof.
  intros Ho (si & ri & Hi & Hri & Ei) (sj & rj & Hj & Hrj & Ej) Hi' Hj' Ek.
  assert (si = sti) as -> by congruence. assert (sj = stj) as -> by congruence.
  assert (ri = rj) as -> by (rewrite Ek in Hri; congruence).
  apply (so_unique d Ho i j (st_meta sti) (st_meta stj) (st_nonce sti) (st_kind sti) (st_kind stj));
    apply seat_ids_lookup; [by exists sti|exists stj; split_and!; try done; congruence].
Qed.

Lemma claims_ids w m κ d d' : claims w m κ d d' → seat_ids d' = seat_ids d ++ [(m, Some (mt_uuid w), κ)].
Proof. intros C. unfold seat_ids. by rewrite (cl_seats w m κ d d' C), fmap_app. Qed.

Lemma claims_nonce w m κ d d' k : claims w m κ d d' →
  nonce_at d' k = if String.eqb (meta_key m) k then Some (mt_uuid w) else nonce_at d k.
Proof.
  intros C. unfold nonce_at. destruct (String.eqb_spec (meta_key m) k) as [<-|N].
  - by rewrite (cl_holder w m κ d d' C).
  - rewrite (cl_others w m κ d d' C) by congruence. done.
Qed.

Lemma fresh_ids w d i m κ : fresh_uuid w d → seat_ids d !! i ≠ Some (m, Some (mt_uuid w), κ).
Proof. intros Hf Hi. apply seat_ids_lookup in Hi as (st & Hi & _ & En & _). by apply (Hf i st). Qed.

Lemma seats_ok_claims w m κ d d' : seats_ok d → fresh_uuid w d → claims w m κ d d' → seats_ok d'.
Proof.
  intros [H1 H2 H3] Hf C. pose proof (claims_ids w m κ d d' C) as Ei.
  assert (Hl : ∀ i x, seat_ids d' !! i = Some x →
            seat_ids d !! i = Some x ∨ i = length (seat_ids d) ∧ x = (m, Some (mt_uuid w), κ)).
  { intros i x. rewrite Ei, lookup_app_Some, list_lookup_singleton_Some. intros [?|(? & ? & <-)]; [by left|right]. split; [lia|done]. }
  constructor.
  - intros i m' n κ' Hi. destruct (Hl i _ Hi) as [?|[_ [= -> -> ->]]]; [by eapply H1|done].
  - intros i j mi mj n κi κj Hi Hj. destruct (Hl i _ Hi) as [Hi'|[-> [= -> -> ->]]], (Hl j _ Hj) as [Hj'|[-> Ej]].
    + by eapply H2.
    + injection Ej as -> -> ->. by destruct (fresh_ids w d i mi κi Hf).
    + by destruct (fresh_ids w d j mj κj Hf).
    + done.
  - intros k n. rewrite (claims_nonce w m κ d d' k C). destruct (String.eqb_spec (meta_key m) k) as [<-|N].
    + intros [= <-]. exists (length (seat_ids d)), m, κ. split; [|done]. rewrite Ei. by apply list_lookup_middle.
    + intros Hn. destruct (H3 k n Hn) as (i & m' & κ' & Hi & Ek). exists i, m', κ'. split; [|done]. rewrite Ei. by apply lookup_app_l_Some.
Qed.

(** An event that makes no seat. *)
Definition keeps_seats d d' : Prop :=
  seat_ids d' = seat_ids d ∧ ∀ k n, nonce_at d' k = Some n → nonce_at d k = Some n.

Lemma seats_ok_keeps d d' : seats_ok d → keeps_seats d d' → seats_ok d'.
Proof.
  intros [H1 H2 H3] [Ei En]. constructor; rewrite ?Ei; [done|done|]. intros k n Hn. by apply H3, En.
Qed.

Lemma quiet_keeps d d' : quiet d d' → keeps_seats d d'.
Proof. intros [Es Eh]. split; [unfold seat_ids; by rewrite Es|]. intros k n. unfold nonce_at. by rewrite Eh. Qed.

Lemma quiet_holds d d' i : quiet d d' → holds d i → holds d' i.
Proof. intros [Es Eh] (st & r & Hi & Hr & En). exists st, r. by rewrite Es, Eh. Qed.

(** The registry's part of a release. *)
Lemma release_nonce d st n k : st_nonce st = Some n →
  nonce_at (with_registry (release_seat (st_meta st) (st_nonce st) (sd_registry d)) d) k =
  if bool_decide (nonce_at d (seat_key st) = Some n) && String.eqb (seat_key st) k then None else nonce_at d k.
Proof.
  intros En. unfold nonce_at, seat_key. cbn. rewrite En, release_holder.
  destruct (holder (sd_registry d) (meta_key (st_meta st))) as [r|] eqn:E; cbn; [|done].
  by destruct (bool_decide (rv_nonce r = Some n) && _).
Qed.

Lemma release_handle_nonce d st n k : st_nonce st = Some n →
  nonce_at (release_handle st d) k =
  if bool_decide (nonce_at d (seat_key st) = Some n) && String.eqb (seat_key st) k then None else nonce_at d k.
Proof.
  intros En. rewrite <- (release_nonce d st n k En). unfold release_handle, nonce_at.
  by rewrite (proj2 (replay_suppressed_frame _ _)).
Qed.

Lemma release_handle_keeps d st n : st_nonce st = Some n → keeps_seats d (release_handle st d).
Proof.
  intros En. split.
  - unfold seat_ids, release_handle. by rewrite (proj1 (replay_suppressed_frame _ _)).
  - intros k x. rewrite (release_handle_nonce d st n k En). by destruct (_ && _).
Qed.

Lemma release_handle_holds d j st i : seats_ok d → sd_seats d !! j = Some st → holds d i → holds (release_handle st d) i ∨ j = i.
Proof.
  intros Ho Hj Hi. destruct (decide (j = i)) as [->|N]; [by right|left].
  assert (Hidj : seat_ids d !! j = Some (st_meta st, st_nonce st, st_kind st)) by (apply seat_ids_lookup; by exists st).
  destruct (so_nonce d Ho j _ _ _ Hidj) as [n En].
  apply (holds_nonce d i Ho) in Hi as (m & x & κ & Hid & Hn).
  apply holds_nonce; [by eapply seats_ok_keeps, release_handle_keeps|]. exists m, x, κ.
  rewrite (proj1 (release_handle_keeps d st n En)), (release_handle_nonce d st n _ En). split; [done|].
  destruct (bool_decide (nonce_at d (seat_key st) = Some n) && String.eqb (seat_key st) (meta_key m)) eqn:E; [|done].
  apply andb_true_iff in E as [E1%bool_decide_eq_true E2%String.eqb_eq]. rewrite E2, Hn in E1. injection E1 as ->.
  rewrite En in Hidj. destruct N. by eapply (so_unique d Ho).
Qed.

Lemma spawn_succeeds_keeps d i st pid n : sd_seats d !! i = Some st → st_nonce st = Some n →
  seat_ids (spawn_succeeds i st pid d) = seat_ids d ∧ ∀ k, nonce_at (spawn_succeeds i st pid d) k = nonce_at d k.
Proof.
  intros Hi En. assert (Eids : seat_ids (with_seats (<[i := st<|st_transferred := true|>]> (sd_seats d)) d) = seat_ids d).
  { unfold seat_ids. cbn. rewrite list_fmap_insert. apply list_insert_id. by rewrite list_lookup_fmap, Hi. }
  unfold spawn_succeeds. destruct pid as [p|]; [|done]. destruct (Z.eqb_spec p 0); [done|]. split; [done|].
  intros k. unfold nonce_at. cbn. rewrite En. destruct (Z.ltb_spec 0 p).
  - rewrite attach_holder by done. destruct (holder (sd_registry d) k) as [r|]; [|done]. by destruct (_ && _).
  - by rewrite attach_no_pid.
Qed.

Lemma keeps_holds d d' i : seats_ok d → seat_ids d' = seat_ids d → (∀ k, nonce_at d' k = nonce_at d k) → holds d i → holds d' i.
Proof.
  intros Ho Ei En Hh. assert (Ho' : seats_ok d') by (apply (seats_ok_keeps d); [done|split; [done|intros k n; by rewrite En]]).
  apply (holds_nonce d i Ho) in Hh as (m & x & κ & Hid & Hn). apply (holds_nonce d' i Ho'). exists m, x, κ. by rewrite Ei, En.
Qed.

Lemma own_step_keeps d reg : own_step (sd_registry d) reg → keeps_seats d (with_registry reg d).
Proof.
  intros Hs. split; [done|]. intros k n. unfold nonce_at. cbn. destruct (holder reg k) as [r|] eqn:E; [|done]. cbn.
  intros En. by rewrite (own_places_no_seat _ _ k r n Hs E En).
Qed.

(** A claim takes the seat of the same key, and needs cause for it. *)
Lemma claims_holds w m κ d d' i : seats_ok d → fresh_uuid w d → claims w m κ d d' → holds d i →
  holds d' i ∨ ∃ st r why, sd_seats d !! i = Some st ∧ holder (sd_registry d) (seat_key st) = Some r ∧ evictable w why r.
Proof.
  intros Ho Hf C (st & r & Hi & Hr & En). destruct (String.eqb_spec (meta_key m) (seat_key st)) as [E|N].
  - right. rewrite <- E in Hr. destruct (cl_evicted w m κ d d' C r Hr) as [why Hw]. exists st, r, why.
    rewrite <- E. by split_and!.
  - left. exists st, r. split_and!; [|rewrite (cl_others w m κ d d' C) by congruence; done|done].
    rewrite (cl_seats w m κ d d' C). by apply lookup_app_l_Some.
Qed.

(** What a step may do to seats. *)
Lemma seat_step_effect e d d' : seats_ok d → seat_step e d d' →
  keeps_seats d d' ∧ (∀ i, holds d i → holds d' i ∨ takes_from e d i) ∨
  ∃ w m κ, claims w m κ d d' ∧ fresh_uuid w d ∧ (∀ i, holds d i → holds d' i ∨ takes_from e d i).
Proof.
  intros Ho Hs. assert (Hnonce : ∀ i st, sd_seats d !! i = Some st → ∃ n, st_nonce st = Some n).
  { intros i st Hi. destruct (so_nonce d Ho i (st_meta st) (st_nonce st) (st_kind st)) as [n ->]; [|by exists n].
    apply seat_ids_lookup. by exists st. }
  destruct Hs as [w ev d Hf _|w ev d Hf|i st pid d Hi|i st d Hi|i st d Hi|key d l1 l2 _|reg d Hr].
  - destruct (trigger_gate_cases w ev d) as [_ [[Hq _]|C]].
    + left. split; [by apply quiet_keeps|]. intros i Hi. left. by apply (quiet_holds d).
    + right. exists w, (trigger_meta ev), by_trigger. split_and!; [done|done|]. intros i. by eapply claims_holds.
  - destruct (mention_gate_cases w ev d) as [[[Hq _]|(role & _ & C)] _].
    + left. split; [by apply quiet_keeps|]. intros i Hi. left. by apply (quiet_holds d).
    + right. exists w, (mention_meta role ev), by_mention. split_and!; [done|done|]. intros i. by eapply claims_holds.
  - left. destruct (Hnonce i st Hi) as [n En]. destruct (spawn_succeeds_keeps d i st pid n Hi En) as [E1 E2].
    split; [split; [done|intros k x; by rewrite E2]|]. intros j Hj. left. by apply (keeps_holds d).
  - left. unfold body_ends. destruct (st_transferred st); [split; [by split|by left]|].
    destruct (Hnonce i st Hi) as [n En]. split; [by eapply release_handle_keeps|]. intros j. by apply release_handle_holds.
  - left. destruct (Hnonce i st Hi) as [n En]. split; [by eapply release_handle_keeps|]. intros j. by apply release_handle_holds.
  - left. destruct (replay_suppressed_frame key (with_reuses (l1 ++ l2) d)) as [E1 E2].
    assert (Hq : quiet d (replay_suppressed key (with_reuses (l1 ++ l2) d))) by (split; [by rewrite E1|intros k; by rewrite E2]).
    split; [by apply quiet_keeps|]. intros j Hj. left. by apply (quiet_holds d).
  - left. split; [by apply own_step_keeps|]. by right.
Qed.

Lemma seats_ok_step e d d' : seats_ok d → seat_step e d d' → seats_ok d'.
Proof.
  intros Ho Hs. destruct (seat_step_effect e d d' Ho Hs) as [[Hk _]|(w & m & κ & C & Hf & _)].
  - by apply (seats_ok_keeps d).
  - by eapply seats_ok_claims.
Qed.

Lemma holds_step e d d' i : seats_ok d → seat_step e d d' → holds d i → holds d' i ∨ takes_from e d i.
Proof. intros Ho Hs. destruct (seat_step_effect e d d' Ho Hs) as [[_ H]|(w & m & κ & _ & _ & H)]; apply H. Qed.

(** Seats are made one at a time, and a new one is held. *)
Lemma new_seat_holds e d d' j : seats_ok d → seat_step e d d' → is_Some (sd_seats d' !! j) → sd_seats d !! j = None → holds d' j.
Proof.
  intros Ho Hs Hj Hn. assert (Hlen : ∀ x, length (sd_seats x) = length (seat_ids x)) by (intros x; unfold seat_ids; by rewrite length_fmap).
  assert (Hbound : (length (sd_seats d) ≤ j < length (sd_seats d'))%nat).
  { split; [by apply lookup_ge_None|by apply lookup_lt_is_Some]. }
  destruct (seat_step_effect e d d' Ho Hs) as [[[Ei _] _]|(w & m & κ & C & _)].
  - rewrite !Hlen, Ei in Hbound. lia.
  - rewrite (cl_seats w m κ d d' C), length_app in Hbound. cbn in Hbound. assert (j = length (sd_seats d)) as -> by lia.
    eexists _, _. rewrite (cl_seats w m κ d d' C). split_and!; [by apply list_lookup_middle|exact (cl_holder w m κ d d' C)|done].
Qed.

Lemma seats_grow e d d' : seats_ok d → seat_step e d d' → (length (sd_seats d) ≤ length (sd_seats d') ≤ length (sd_seats d) + 1)%nat ∧
  ∀ i st', sd_seats d' !! i = Some st' → ∀ st, sd_seats d !! i = Some st → st_meta st' = st_meta st ∧ st_kind st' = st_kind st.
Proof.
  intros Ho Hs. assert (Hpre : ∃ l, seat_ids d' = seat_ids d ++ l ∧ (length l ≤ 1)%nat).
  { destruct (seat_step_effect e d d' Ho Hs) as [[[Ei _] _]|(w & m & κ & C & _)].
    - exists []. rewrite app_nil_r. split; [done|cbn; lia].
    - rewrite (claims_ids w m κ d d' C). by eexists. }
  destruct Hpre as (l & El & Hl1). split.
  - pose proof (f_equal length El) as Hl. unfold seat_ids in Hl. rewrite length_app, !length_fmap in Hl. lia.
  - intros i st' Hi' st Hi. assert (H1 : seat_ids d !! i = Some (st_meta st, st_nonce st, st_kind st)) by (apply seat_ids_lookup; by exists st).
    assert (H2 : seat_ids d' !! i = Some (st_meta st', st_nonce st', st_kind st')) by (apply seat_ids_lookup; by exists st').
    rewrite El in H2. rewrite (lookup_app_l_Some _ _ _ _ H1) in H2. by injection H2.
Qed.

(** ** One dispatch per seat *)

(** The registry was left by no dispatcher. *)
Definition unseated (reg : S) : Prop := ∀ k r, holder reg k = Some r → rv_nonce r = None.

Lemma seats_ok_run l reg d : unseated reg → seat_run l (new_dispatcher reg) d → seats_ok d.
Proof.
  intros Hu Hr. remember (new_dispatcher reg) as d0 eqn:E. induction Hr as [d|l e d1 d2 d3 Hr IH Hs].
  - subst d. constructor; unfold seat_ids; cbn; try (intros; by rewrite lookup_nil in *). intros k n. unfold nonce_at. cbn.
    destruct (holder reg k) as [r|] eqn:Er; [|done]. cbn. by rewrite (Hu k r Er).
  - eapply seats_ok_step; [|done]. by apply IH.
Qed.

(** In the run, seat [i] lost its reservation before there were more than [n] seats. *)
Definition lost_in (l : list SeatEvent) d0 (i n : nat) : Prop :=
  ∃ l1 e l2 d1, l = l1 ++ e :: l2 ∧ seat_run l1 d0 d1 ∧ holds d1 i ∧ takes_from e d1 i ∧ (length (sd_seats d1) ≤ n)%nat.

Lemma lost_in_snoc l e d0 i n n' : (n ≤ n')%nat → lost_in l d0 i n → lost_in (l ++ [e]) d0 i n'.
Proof.
  intros Hn (l1 & x & l2 & d1 & -> & Hr & Hh & Ht & Hl). exists l1, x, (l2 ++ [e]), d1. split_and!; try done; [|lia].
  by rewrite <- app_assoc.
Qed.

Lemma holds_or_lost l reg d i : unseated reg → seat_run l (new_dispatcher reg) d → is_Some (sd_seats d !! i) →
  holds d i ∨ lost_in l (new_dispatcher reg) i (length (sd_seats d)).
Proof.
  intros Hu Hr. remember (new_dispatcher reg) as d0 eqn:E. induction Hr as [d|l e d1 d2 d3 Hr IH Hs]; intros Hi.
  { subst d. by destruct Hi. }
  subst d1. pose proof (seats_ok_run l reg d2 Hu Hr) as Ho. pose proof (proj1 (proj1 (seats_grow e d2 d3 Ho Hs))) as Hg.
  destruct (sd_seats d2 !! i) as [st|] eqn:Ei; [|left; by eapply new_seat_holds].
  destruct (IH eq_refl) as [Hh|Hl]; [done| |right; by eapply lost_in_snoc].
  destruct (holds_step e d2 d3 i Ho Hs Hh) as [?|Ht]; [by left|right]. by exists l, e, [], d2.
Qed.

(** C10: One dispatch per seat: whenever two dispatches — triggers or mentions, in any
    interleaving with spawns, exits and late releases — were given the seat of one
    (ticket, role, agent), the earlier one had lost its reservation before the later
    one got its own: it had released it, or was evicted with cause (its process was
    dead, or it had none for the length of the stale window or the safety valve's),
    or a spawn of the session manager's had replaced it.  This holds over every
    registry with the laws, so of both. *)
Theorem one_dispatch_per_seat reg l d i j sti stj :
  unseated reg → seat_run l (new_dispatcher reg) d →
  sd_seats d !! i = Some sti → sd_seats d !! j = Some stj → seat_key sti = seat_key stj → (i < j)%nat →
  ∃ l1 e l2 d1, l = l1 ++ e :: l2 ∧ seat_run l1 (new_dispatcher reg) d1 ∧
    holds d1 i ∧ takes_from e d1 i ∧ sd_seats d1 !! j = None.
Proof.
  intros Hu Hr. remember (new_dispatcher reg) as d0 eqn:E. revert i j sti stj.
  induction Hr as [d|l e d1 d2 d3 Hr IH Hs]; intros i j sti stj Hi Hj Ek Hlt; [by subst d|].
  subst d1. pose proof (seats_ok_run l reg d2 Hu Hr) as Ho. destruct (seats_grow e d2 d3 Ho Hs) as [Hone Hsame].
  destruct (sd_seats d2 !! j) as [sj|] eqn:Ej.
  - destruct (lookup_lt_is_Some_2 (sd_seats d2) i) as [si Ei]; [apply lookup_lt_Some in Ej; lia|].
    destruct (IH eq_refl i j si sj) as (l1 & x & l2 & d1 & -> & ?); [done|done| |done|].
    + unfold seat_key in *. destruct (Hsame i sti Hi si Ei) as [<- _], (Hsame j stj Hj sj Ej) as [<- _]. done.
    + exists l1, x, (l2 ++ [e]), d1. by rewrite <- app_assoc.
  - assert (Hhj : holds d3 j) by (eapply new_seat_holds; eauto).
    assert (Ho3 : seats_ok d3) by (by eapply seats_ok_step).
    assert (Hni : ¬ holds d3 i) by (intros Hhi; assert (i = j) by (by apply (holds_unique d3 i j sti stj)); lia).
    assert (Hi2 : is_Some (sd_seats d2 !! i)).
    { apply lookup_lt_is_Some. apply lookup_lt_Some in Hj. pose proof (proj1 (lookup_ge_None _ _) Ej) as Hge.
      lia. }
    destruct (holds_or_lost l reg d2 i Hu Hr Hi2) as [Hh|(l1 & x & l2 & d1 & -> & H1 & H2 & H3 & H4)].
    + destruct (holds_step e d2 d3 i Ho Hs Hh) as [?|Ht]; [done|]. by exists l, e, [], d2.
    + exists l1, x, (l2 ++ [e]), d1. split_and!; try done; [by rewrite <- app_assoc|].
      apply lookup_ge_None. pose proof (proj1 (lookup_ge_None _ _) Ej). lia.
Qed.

(** ** What was suppressed is replayed *)

(** What waits for the end of the hold of [k]. *)
Definition pends d k (f c : option string) : Prop :=
  JMap.get (it_pendingForce (sd_tracker d)) k = f ∧ JMap.get (it_pendingColumnWorkflow (sd_tracker d)) k = c.

(** The first to wait stays. *)
Definition more_pends (f c f' c' : option string) : Prop := (is_Some f → f' = f) ∧ (is_Some c → c' = c).

(** The replay that the end of a hold starts. *)
Definition handed (f c : option string) : list Replay :=
  match f, c with
  | Some raw, _ => [replay_force raw]
  | None, Some raw => [replay_column raw]
  | None, None => []
  end.

Definition raws_ok d : Prop := ∀ k f c, pends d k f c →
  (∀ raw, f = Some raw → truthy raw = true) ∧ (∀ raw, c = Some raw → truthy raw = true).

Lemma capture_first_get wanted raw key pending k :
  JMap.get (capture_first wanted (Some raw) key pending) k =
  match JMap.get pending k with
  | Some r => Some r
  | None => if wanted && String.eqb key k then Some raw else None
  end.
Proof.
  unfold capture_first, JMap.has. destruct wanted; cbn [andb]; [|by destruct (JMap.get pending k)].
  destruct (String.eqb_spec key k) as [<-|N].
  - destruct (JMap.get pending key) eqn:E; cbn [negb]; [by rewrite E|by rewrite JMap.get_set_eq].
  - destruct (JMap.get pending key); cbn [negb]; rewrite ?JMap.get_set_ne by done; by destruct (JMap.get pending k).
Qed.

Lemma replay_suppressed_eq key d f c : raws_ok d → pends d key f c →
  replay_suppressed key d =
    {| sd_registry := sd_registry d; sd_tracker := (onRelease key (sd_tracker d)).1.1; sd_seats := sd_seats d;
       sd_reuses := sd_reuses d; sd_replays := sd_replays d ++ handed f c |}.
Proof.
  intros Hok Hp. destruct (Hok key f c Hp) as [Hf Hc]. destruct Hp as [Ef Ec].
  unfold replay_suppressed, onRelease. cbn. rewrite Ef, Ec.
  destruct f as [r|], c as [r'|]; rewrite ?(Hf _ eq_refl), ?(Hc _ eq_refl); try done.
  unfold with_tracker. cbn. by rewrite app_nil_r.
Qed.

(** A step of the tracker, as [k] sees it: its hold ends and what waited is
    replayed, or what waits stays. *)
Definition hold_ends k d d' : Prop :=
  (∃ f c, pends d k f c ∧ sd_replays d' = sd_replays d ++ handed f c) ∧ pends d' k None None ∧
  holderKind k (sd_tracker d') = None.

Definition hold_goes_on k d d' : Prop :=
  (∀ f c, pends d k f c → ∃ f' c', pends d' k f' c' ∧ more_pends f c f' c') ∧
  (holderKind k (sd_tracker d') = holderKind k (sd_tracker d) ∨ ∃ w m κ, claims w m κ d d' ∧ meta_key m = k).

Lemma same_tracker_goes_on k d d' : sd_tracker d' = sd_tracker d → hold_goes_on k d d'.
Proof. intros E. split; [|left; by rewrite E]. intros f c Hp. exists f, c. unfold pends in *. by rewrite E. Qed.

Lemma replay_suppressed_step key k d : raws_ok d →
  (k = key ∧ hold_ends k d (replay_suppressed key d)) ∨ (k ≠ key ∧ hold_goes_on k d (replay_suppressed key d)).
Proof.
  intros Hok. rewrite (replay_suppressed_eq key d _ _ Hok (conj eq_refl eq_refl)). unfold hold_ends, hold_goes_on, pends, holderKind. cbn.
  destruct (decide (k = key)) as [->|N]; [left|right]; (split; [done|]).
  - rewrite !JMap.get_delete_eq. split; [|done]. by eexists _, _.
  - rewrite !JMap.get_delete_ne by congruence. split; [|by left]. intros f c Hp. exists f, c. by split.
Qed.

Lemma raws_ok_same d d' : sd_tracker d' = sd_tracker d → raws_ok d → raws_ok d'.
Proof. intros E H k f c. unfold pends. rewrite E. apply H. Qed.

Lemma raws_ok_replay key d : raws_ok d → raws_ok (replay_suppressed key d).
Proof.
  intros Hok k f c. rewrite (replay_suppressed_eq key d _ _ Hok (conj eq_refl eq_refl)). unfold pends. cbn.
  rewrite !JMap.get_delete. destruct (String.eqb key k); [intros [<- <-]; by split|]. apply Hok.
Qed.

(** A suppressed trigger leaves its payload, or finds one. *)
Lemma record_pends reason key force raw column t k :
  let t' := (recordSuppression reason key force (Some raw) column t).1 in
  JMap.get (it_pendingForce t') k =
    match JMap.get (it_pendingForce t) k with
    | Some r => Some r | None => if force && String.eqb key k then Some raw else None end ∧
  JMap.get (it_pendingColumnWorkflow t') k =
    match JMap.get (it_pendingColumnWorkflow t) k with
    | Some r => Some r
    | None => if column && bool_decide (holderKind key t = Some by_mention) && String.eqb key k then Some raw else None
    end ∧
  holderKind k t' = holderKind k t.
Proof. unfold recordSuppression. cbn [fst it_pendingForce it_pendingColumnWorkflow]. by rewrite !capture_first_get. Qed.

Lemma raws_ok_record reason key force raw column d : truthy raw = true → raws_ok d →
  raws_ok (with_tracker (recordSuppression reason key force (Some raw) column (sd_tracker d)).1 d).
Proof.
  intros Hr Hok k f c [Hf Hc]. destruct (record_pends reason key force raw column (sd_tracker d) k) as (E1 & E2 & _).
  cbn [with_tracker sd_tracker] in Hf, Hc. rewrite E1 in Hf. rewrite E2 in Hc.
  destruct (Hok k (JMap.get (it_pendingForce (sd_tracker d)) k) (JMap.get (it_pendingColumnWorkflow (sd_tracker d)) k))
    as [H1 H2]; [done|]. split; intros r ->.
  - destruct (JMap.get (it_pendingForce (sd_tracker d)) k) as [x|]; [by apply H1|].
    destruct (_ && _) in Hf; [by injection Hf as <-|done].
  - destruct (JMap.get (it_pendingColumnWorkflow (sd_tracker d)) k) as [x|]; [by apply H2|].
    destruct (_ && _) in Hc; [by injection Hc as <-|done].
Qed.

Lemma raws_ok_step e d d' : raws_ok d → seat_step e d d' → raws_ok d'.
Proof.
  intros Hok Hs. destruct Hs as [w ev d _ Hraw|w ev d _|i st pid d _|i st d _|i st d _|key d l1 l2 _|reg d _].
  - destruct (trigger_gate_cases w ev d) as [_ [[_ [E|E]]|C]].
    + by apply (raws_ok_same d).
    + eapply raws_ok_same; [|by eapply raws_ok_record]. exact E.
    + intros k f c Hp. apply (Hok k f c). unfold pends in *. by rewrite (cl_tracker _ _ _ _ _ C) in Hp.
  - destruct (mention_gate_cases w ev d) as [[[_ E]|(role & _ & C)] _]; [by apply (raws_ok_same d)|].
    intros k f c Hp. apply (Hok k f c). unfold pends in *. by rewrite (cl_tracker _ _ _ _ _ C) in Hp.
  - apply (raws_ok_same d); [|done]. unfold spawn_succeeds. destruct pid as [p|]; [by destruct (p =? 0)|done].
  - unfold body_ends. destruct (st_transferred st); [done|]. by apply raws_ok_replay, (raws_ok_same d).
  - by apply raws_ok_replay, (raws_ok_same d).
  - by apply raws_ok_replay, (raws_ok_same d).
  - by apply (raws_ok_same d).
Qed.

Lemma claims_go_on w m κ d d' k : claims w m κ d d' → hold_goes_on k d d'.
Proof.
  intros C. split.
  - intros f c Hp. exists f, c. unfold pends in *. by rewrite (cl_tracker w m κ d d' C).
  - destruct (decide (meta_key m = k)) as [E|N]; [right; by exists w, m, κ|left].
    rewrite (cl_tracker w m κ d d' C). unfold holderKind. cbn. by rewrite JMap.get_set_ne.
Qed.

Lemma trigger_goes_on w ev d k : hold_goes_on k d (trigger_gate w ev d).1.
Proof.
  destruct (trigger_gate_cases w ev d) as [_ [[_ [E|E]]|C]]; [by apply same_tracker_goes_on| |by eapply claims_go_on].
  unfold hold_goes_on, pends. rewrite E. unfold recorded.
  destruct (record_pends "inflight_dispatch" (meta_key (trigger_meta ev)) (te_force_respawn ev) (te_raw ev)
              (owes_column_workflow ev) (sd_tracker d) k) as (E1 & E2 & E3).
  rewrite E1, E2, E3. split; [|by left]. intros f c [-> ->]. eexists _, _. split; [done|]. by split; intros [r ->].
Qed.

(** The end of a hold, in a dispatcher whose registry or reuses have changed already. *)
Lemma replay_other_step key k d dm : raws_ok d → sd_tracker dm = sd_tracker d → sd_replays dm = sd_replays d →
  (k = key ∧ hold_ends k d (replay_suppressed key dm)) ∨ (k ≠ key ∧ hold_goes_on k d (replay_suppressed key dm)).
Proof.
  intros Hok Et Er. assert (Hokm : raws_ok dm) by (by apply (raws_ok_same d)).
  destruct (replay_suppressed_step key k dm Hokm) as [[E H]|[N [H1 H2]]]; [left|right]; (split; [done|]).
  - unfold hold_ends, pends in *. by rewrite Et, Er in H.
  - split.
    + intros f c Hp. apply H1. unfold pends in *. by rewrite Et.
    + left. rewrite <- Et. rewrite (replay_suppressed_eq key dm _ _ Hokm (conj eq_refl eq_refl)). unfold holderKind. cbn.
      by rewrite JMap.get_delete_ne.
Qed.

Lemma release_hold_step st k d : raws_ok d →
  (k = seat_key st ∧ hold_ends k d (release_handle st d)) ∨ (k ≠ seat_key st ∧ hold_goes_on k d (release_handle st d)).
Proof. intros Hok. by apply replay_other_step. Qed.

(** Every step ends the hold of [k] or lets it go on, and says which. *)
Lemma hold_step e d d' k : raws_ok d → seat_step e d d' →
  (ends_hold e d k ∧ hold_ends k d d') ∨ (¬ ends_hold e d k ∧ hold_goes_on k d d').
Proof.
  intros Hok Hs. destruct Hs as [w ev d _ _|w ev d _|i st pid d Hi|i st d Hi|i st d Hi|key d l1 l2 _|reg d _].
  - right. split; [by intros []|]. apply trigger_goes_on.
  - right. split; [by intros []|].
    destruct (mention_gate_cases w ev d) as [[[_ E]|(role & _ & C)] _]; [by apply same_tracker_goes_on|by eapply claims_go_on].
  - right. split; [by intros []|]. apply same_tracker_goes_on. unfold spawn_succeeds. destruct pid as [p|]; [by destruct (p =? 0)|done].
  - unfold body_ends. destruct (st_transferred st) eqn:Et.
    { right. split; [|by apply same_tracker_goes_on]. intros (x & Hx & _ & ?). congruence. }
    destruct (release_hold_step st k d Hok) as [[-> H]|[N H]]; [left|right]; (split; [|exact H]); [by exists st|].
    intros (x & Hx & E & _). congruence.
  - destruct (release_hold_step st k d Hok) as [[-> H]|[N H]]; [left|right]; (split; [|exact H]); [by exists st|].
    intros (x & Hx & E). congruence.
  - destruct (replay_other_step key k d (with_reuses (l1 ++ l2) d) Hok) as [[-> H]|[N H]]; [done|done|left|right];
      (split; [|exact H]); cbn; congruence.
  - right. split; [by intros []|]. by apply same_tracker_goes_on.
Qed.

Lemma raws_ok_run l reg d : seat_run l (new_dispatcher reg) d → raws_ok d.
Proof.
  intros Hr. remember (new_dispatcher reg) as d0 eqn:E. induction Hr as [d|l e d1 d2 d3 Hr IH Hs].
  - subst d. by intros k f c [<- <-].
  - eapply raws_ok_step; [|done]. by apply IH.
Qed.

(** A run in which no step ends a hold of [k]. *)
Inductive held_on k : list SeatEvent → Dispatcher S → Dispatcher S → Prop :=
  | held_nil d : held_on k [] d d
  | held_snoc l e d1 d2 d3 : held_on k l d1 d2 → seat_step e d2 d3 → ¬ ends_hold e d2 k → held_on k (l ++ [e]) d1 d3.

(** What waited for the end of [k]'s hold waits as long as no step of the run ends
    one; the first step that does starts the replay and leaves nothing waiting. *)
Definition kept_or_replayed (l : list SeatEvent) d d' k (f c : option string) : Prop :=
  (held_on k l d d' ∧ ∃ f' c', pends d' k f' c' ∧ more_pends f c f' c') ∨
  ∃ l1 e l2 d1 d2 f' c', l = l1 ++ e :: l2 ∧ held_on k l1 d d1 ∧ ends_hold e d1 k ∧ seat_step e d1 d2 ∧ seat_run l2 d2 d' ∧
    pends d1 k f' c' ∧ more_pends f c f' c' ∧ sd_replays d2 = sd_replays d1 ++ handed f' c' ∧ pends d2 k None None.

Lemma more_pends_trans f c f1 c1 f2 c2 : more_pends f c f1 c1 → more_pends f1 c1 f2 c2 → more_pends f c f2 c2.
Proof. intros [H1 H2] [H3 H4]. split; intros H; [rewrite H3; [by apply H1|by rewrite H1]|rewrite H4; [by apply H2|by rewrite H2]]. Qed.

Lemma kept_or_replayed_run l d d' k f c : raws_ok d → seat_run l d d' → pends d k f c → kept_or_replayed l d d' k f c ∧ raws_ok d'.
Proof.
  intros Hok Hr Hp. induction Hr as [d|l e d1 d2 d3 Hr IH Hs].
  { split; [|done]. left. split; [constructor|]. exists f, c. split; [done|]. by split. }
  destruct (IH Hok Hp) as [IH' Hok2]. split; [|by eapply raws_ok_step].
  destruct IH' as [(Hh & f1 & c1 & Hp1 & Hm1)|(l1 & x & l2 & da & db & f1 & c1 & -> & ? & ? & ? & Hr2 & H)].
  - destruct (hold_step e d2 d3 k Hok2 Hs) as [(He & (f2 & c2 & Hp2 & Er) & Hn & _)|(Hne & Hgo & _)].
    + right. exists l, e, [], d2, d3, f1, c1. assert (f2 = f1 ∧ c2 = c1) as [-> ->] by (destruct Hp1, Hp2; split; congruence).
      split_and!; try done. constructor.
    + left. split; [by econstructor|].
      destruct (Hgo f1 c1 Hp1) as (f2 & c2 & Hp2 & Hm2). exists f2, c2. split; [done|]. by eapply more_pends_trans.
  - right. exists l1, x, (l2 ++ [e]), da, db, f1, c1. rewrite <- app_assoc. split_and!; try done; [|apply H..]. by econstructor.
Qed.

(** ** Who holds a seat is known *)

Lemma orderly_seat_run l d d' : orderly_run l d d' → seat_run l d d'.
Proof. induction 1 as [|l e d1 d2 d3 _ IH Hs _]; [constructor|by econstructor]. Qed.

Lemma own_release_drops d i st : seats_ok d → sd_seats d !! i = Some st → ¬ holds (release_handle st d) i.
Proof.
  intros Ho Hi Hh. assert (Hid : seat_ids d !! i = Some (st_meta st, st_nonce st, st_kind st)) by (apply seat_ids_lookup; by exists st).
  destruct (so_nonce d Ho i _ _ _ Hid) as [n En]. pose proof (release_handle_keeps d st n En) as Hk.
  apply (holds_nonce _ i (seats_ok_keeps _ _ Ho Hk)) in Hh as (m & x & κ & Hx & Hn).
  rewrite (proj1 Hk) in Hx. rewrite Hid in Hx. injection Hx as <- Ex <-.
  assert (x = n) as -> by congruence. fold (seat_key st) in Hn.
  pose proof (proj2 Hk _ _ Hn) as Hold. rewrite (release_handle_nonce d st n _ En) in Hn.
  rewrite bool_decide_true, String.eqb_refl in Hn by done. done.
Qed.

Lemma keeps_holds_back d d' i : seats_ok d → keeps_seats d d' → holds d' i → holds d i.
Proof.
  intros Ho Hk Hh. apply (holds_nonce d' i (seats_ok_keeps _ _ Ho Hk)) in Hh as (m & n & κ & Hi & Hn).
  apply (holds_nonce d i Ho). exists m, n, κ. rewrite <- (proj1 Hk). split; [done|]. by apply (proj2 Hk).
Qed.

(** The tracker knows what kind of dispatch holds a seat. *)
Definition kinds_noted d : Prop := ∀ i st, holds d i → sd_seats d !! i = Some st →
  holderKind (seat_key st) (sd_tracker d) = Some (st_kind st).

Lemma kinds_noted_keeps e d d' : seats_ok d → raws_ok d → kinds_noted d → seat_step e d d' → orderly e d →
  keeps_seats d d' → kinds_noted d'.
Proof.
  intros Ho Hr Hn Hs Hord Hk i st' Hh' Hi'. pose proof (keeps_holds_back d d' i Ho Hk Hh') as Hh.
  assert (Hid : seat_ids d !! i = Some (st_meta st', st_nonce st', st_kind st')).
  { rewrite <- (proj1 Hk). apply seat_ids_lookup. by exists st'. }
  apply seat_ids_lookup in Hid as (st & Hi & Em & _ & Ek).
  assert (Ekey : seat_key st = seat_key st') by (unfold seat_key; by rewrite Em).
  destruct (hold_step e d d' (seat_key st') Hr Hs) as [[He _]|[_ [_ [E|(w & m & κ & C & _)]]]].
  - exfalso. destruct (Hord _ i st He Hh Hi Ekey) as [->| ->].
    + inversion Hs as [| | | |j sx dx Hj| |]; subst. by eapply own_release_drops.
    + destruct He as (sx & Hx & _ & Ht). inversion Hs as [| | |j sy dy Hj| | |]; subst.
      assert (sx = sy) as -> by congruence. unfold body_ends in Hh'. rewrite Ht in Hh'. by eapply own_release_drops.
  - rewrite E, <- Ekey, <- Ek. by apply (Hn i).
  - exfalso. pose proof (f_equal length (claims_ids w m κ d d' C)) as Hl. rewrite (proj1 Hk), length_app in Hl. cbn in Hl. lia.
Qed.

Lemma kinds_noted_claims w m κ d d' : seats_ok d → fresh_uuid w d → kinds_noted d → claims w m κ d d' → kinds_noted d'.
Proof.
  intros Ho Hf Hn C i st Hh Hi. pose proof (seats_ok_claims w m κ d d' Ho Hf C) as Ho'.
  rewrite (cl_tracker w m κ d d' C). unfold holderKind. cbn.
  pose proof Hi as Hi2. rewrite (cl_seats w m κ d d' C) in Hi2.
  assert (Hnew : holds d' (length (sd_seats d))).
  { eexists _, _. rewrite (cl_seats w m κ d d' C). split_and!; [by apply list_lookup_middle|exact (cl_holder w m κ d d' C)|done]. }
  apply lookup_app_Some in Hi2 as [Hold|[Hge Hx]].
  - assert (Hne : meta_key m ≠ seat_key st).
    { intros E. assert (i = length (sd_seats d)) as ->; [|by apply lookup_lt_Some in Hold; lia].
      eapply (holds_unique d' i (length (sd_seats d)) st); [done|done|exact Hnew|exact Hi| |].
      - rewrite (cl_seats w m κ d d' C). by apply list_lookup_middle.
      - unfold seat_key in *. by rewrite <- E. }
    rewrite JMap.get_set_ne by done. apply (Hn i st); [|done]. destruct Hh as (s0 & r & H1 & H2 & H3).
    assert (s0 = st) as -> by congruence. exists st, r. rewrite <- (cl_others w m κ d d' C) by congruence. by split_and!.
  - apply list_lookup_singleton_Some in Hx as [_ <-]. cbn. by rewrite JMap.get_set_eq.
Qed.

Lemma orderly_run_ok l reg d : unseated reg → orderly_run l (new_dispatcher reg) d → seats_ok d ∧ raws_ok d ∧ kinds_noted d.
Proof.
  intros Hu Hr. pose proof (orderly_seat_run _ _ _ Hr) as Hrun.
  split_and!; [by eapply seats_ok_run|by eapply raws_ok_run|]. remember (new_dispatcher reg) as d0 eqn:E.
  induction Hr as [d|l e d1 d2 d3 Hr IH Hs Ho]; [subst d; intros i st (x & ? & Hx & _); done|]. subst d1.
  pose proof (orderly_seat_run _ _ _ Hr) as Hr2. pose proof (seats_ok_run l reg d2 Hu Hr2) as Hok.
  specialize (IH eq_refl Hr2). destruct (seat_step_effect e d2 d3 Hok Hs) as [[Hk _]|(w & m & κ & C & Hf & _)].
  - eapply kinds_noted_keeps; eauto. by eapply raws_ok_run.
  - by eapply kinds_noted_claims.
Qed.

Lemma suppressed_records w ev d d1 reason surface : trigger_gate w ev d = (d1, gate_suppressed reason surface) →
  sd_tracker d1 = recorded ev (sd_tracker d) ∧ surface = negb (includes (it_surfaced (sd_tracker d)) (meta_key (trigger_meta ev))) ∧
  ∃ r, holder (sd_registry d) (meta_key (trigger_meta ev)) = Some r ∧
    (reason = "inflight_live_process" ↔ ∃ pid, rv_pid r = Some pid ∧ isPidAlive w pid = true).
Proof.
  unfold trigger_gate. destruct (truthy (te_ticket_id ev)); cbn [negb]; [|done].
  destruct (reserve w (trigger_meta ev) (sd_registry d)) as [reg dr] eqn:E.
  destruct (dr_acquired dr) eqn:Ea; cbn [negb]; [by destruct (dr_live dr)|]. cbn. intros [= <- <- <-].
  split_and!; [done|done|]. destruct (reserve_refused w _ _ _ _ E Ea) as (r & Hr & Hl). exists r. split; [done|].
  rewrite <- Hl. by destruct (dr_holderAlive dr).
Qed.

Lemma raws_ok_recorded ev d d1 : truthy (te_raw ev) = true → sd_tracker d1 = recorded ev (sd_tracker d) → raws_ok d → raws_ok d1.
Proof. intros Hr E Hok. eapply raws_ok_same; [|by eapply raws_ok_record]. exact E. Qed.

(** C26: A suppressed force is replayed: when a force respawn is turned away at the
    gate, its payload — or that of the force that waited there before it — waits for
    as long as nobody's hold of the key ends, and the first step that ends one — the
    body or the process of a seat, or a reuse — starts its replay, that one only,
    and leaves nothing waiting. *)
Theorem suppressed_force_is_replayed reg l0 d w ev d1 reason surface l d2 :
  seat_run l0 (new_dispatcher reg) d → truthy (te_raw ev) = true → te_force_respawn ev = true →
  trigger_gate w ev d = (d1, gate_suppressed reason surface) → seat_run l d1 d2 →
  let k := meta_key (trigger_meta ev) in
  let raw := default (te_raw ev) (JMap.get (it_pendingForce (sd_tracker d)) k) in
  (held_on k l d1 d2 ∧ JMap.get (it_pendingForce (sd_tracker d2)) k = Some raw) ∨
  ∃ l1 e l2 da db, l = l1 ++ e :: l2 ∧ held_on k l1 d1 da ∧ ends_hold e da k ∧ seat_step e da db ∧ seat_run l2 db d2 ∧
    sd_replays db = sd_replays da ++ [replay_force raw] ∧ pends db k None None.
Proof.
  intros H0 Hraw Hf Hg Hr k raw. pose proof (raws_ok_run _ _ _ H0) as Hok. destruct (suppressed_records w ev d d1 _ _ Hg) as (Et & _).
  assert (Hw : JMap.get (it_pendingForce (sd_tracker d1)) k = Some raw).
  { rewrite Et. unfold recorded. rewrite (proj1 (record_pends _ _ _ _ _ _ k)), Hf. unfold raw, k. rewrite String.eqb_refl.
    by destruct (JMap.get _ _). }
  destruct (kept_or_replayed_run l d1 d2 k _ _ (raws_ok_recorded ev d d1 Hraw Et Hok) Hr (conj Hw eq_refl))
    as [[(Hh & f & c & [Hf' _] & [Hm _])|(l1 & e & l2 & da & db & f & c & ? & ? & ? & ? & ? & _ & [Hm _] & Ep & ?)] _].
  - left. split; [done|]. rewrite Hf'. by apply Hm.
  - right. exists l1, e, l2, da, db. split_and!; try done. rewrite Ep. by rewrite Hm.
Qed.

(** C27: A mention returns what it blocks: where nobody ends another one's hold, a trigger
    that a mention's seat turned away and whose column workflow the mention does not
    serve is not lost: its payload, or that of the first such trigger, waits for as
    long as no hold of the key ends, and the first step that ends one starts one
    replay — its own, or that of a force respawn that waited with it — and leaves
    nothing waiting. *)
Theorem mention_returns_what_it_blocks reg l0 d i st w ev d1 reason surface l d2 :
  unseated reg → orderly_run l0 (new_dispatcher reg) d → truthy (te_raw ev) = true →
  holds d i → sd_seats d !! i = Some st → st_kind st = by_mention → seat_key st = meta_key (trigger_meta ev) →
  owes_column_workflow ev = true → trigger_gate w ev d = (d1, gate_suppressed reason surface) → seat_run l d1 d2 →
  let k := seat_key st in
  let raw := default (te_raw ev) (JMap.get (it_pendingColumnWorkflow (sd_tracker d)) k) in
  (held_on k l d1 d2 ∧ JMap.get (it_pendingColumnWorkflow (sd_tracker d2)) k = Some raw) ∨
  ∃ l1 e l2 da db, l = l1 ++ e :: l2 ∧ held_on k l1 d1 da ∧ ends_hold e da k ∧ seat_step e da db ∧ seat_run l2 db d2 ∧
    sd_replays db = sd_replays da ++ handed (JMap.get (it_pendingForce (sd_tracker da)) k) (Some raw) ∧ pends db k None None.
Proof.
  intros Hu H0 Hraw Hh Hi Hk Ekey Howes Hg Hr k raw. destruct (orderly_run_ok l0 reg d Hu H0) as (_ & Hok & Hn).
  destruct (suppressed_records w ev d d1 _ _ Hg) as (Et & _). pose proof (Hn i st Hh Hi) as Hkind. rewrite Hk in Hkind.
  assert (Hw : JMap.get (it_pendingColumnWorkflow (sd_tracker d1)) k = Some raw).
  { rewrite Et. unfold recorded, raw, k. rewrite (proj1 (proj2 (record_pends _ _ _ _ _ _ (seat_key st)))), Howes, <- Ekey, Hkind.
    rewrite bool_decide_true, String.eqb_refl by done. by destruct (JMap.get _ _). }
  destruct (kept_or_replayed_run l d1 d2 k _ _ (raws_ok_recorded ev d d1 Hraw Et Hok) Hr (conj eq_refl Hw))
    as [[(Hl & f & c & [_ Hc] & [_ Hm])|(l1 & e & l2 & da & db & f & c & ? & ? & ? & ? & ? & [Hfa _] & [_ Hm] & Ep & ?)] _].
  - left. split; [done|]. rewrite Hc. by apply Hm.
  - right. exists l1, e, l2, da, db. split_and!; try done. rewrite Ep, Hfa. by rewrite Hm.
Qed.

(** The activity of a suppression is posted once per hold. *)
Lemma suppressions_surface_once reason key force raw column t :
  (recordSuppression reason key force raw column t).2 = false ↔ key ∈ it_surfaced t.
Proof. unfold recordSuppression. cbn. rewrite negb_false_iff. apply includes_true. Qed.

End dispatcher.

(** ** The registries agree *)

(** The two registries agree: on a key that has no session, and unless the safety valve
    is due, the session manager's reservation is the fallback's, answer and slots. *)
Theorem registries_agree w m s :
  JMap.get (sn_sessions s) (meta_key m) = None →
  (∀ r, JMap.get (sn_inflight s) (meta_key m) = Some r → rv_pid r = None →
     mt_now w - rv_reservedAt r < INFLIGHT_SUPPRESS_SAFETY_VALVE_MIN_AGE_MS ∨
     INFLIGHT_RESERVATION_STALE_MS ≤ mt_now w - rv_reservedAt r ∨
     default 0 (JMap.get (sn_suppress s) (meta_key m)) + 1 < INFLIGHT_SUPPRESS_SAFETY_VALVE) →
  let '(s', dr) := tryReserveDispatch w m s in tryAcquireFallback w m (sn_inflight s) = (sn_inflight s', dr).
Proof.
  intros Hs Hv. unfold tryReserveDispatch, getLiveSession, tryAcquireFallback. rewrite Hs.
  destruct (JMap.get (sn_inflight s) (meta_key m)) as [r|] eqn:E; [|done]. destruct (rv_pid r) as [pid|] eqn:Ep.
  - by destruct (isPidAlive w pid).
  - destruct (Z.leb_spec INFLIGHT_RESERVATION_STALE_MS (mt_now w - rv_reservedAt r)) as [Hge|Hlt];
      destruct (Z.ltb_spec (mt_now w - rv_reservedAt r) INFLIGHT_RESERVATION_STALE_MS); try lia; [done|].
    destruct (_ && _) eqn:Ev; [|done]. apply andb_true_iff in Ev as [E1%Z.leb_le E2%Z.leb_le].
    destruct (Hv r eq_refl Ep) as [?|[?|?]]; lia.
Qed.

(** ** Concrete runs *)

Lemma fresh_by_computation {S} {registry : SeatRegistry S} w (d : Dispatcher S) :
  bool_decide (Forall (λ st, st_nonce st ≠ Some (mt_uuid w)) (sd_seats d)) = true → fresh_uuid w d.
Proof. intros H%bool_decide_eq_true i st. apply (proj1 (Forall_lookup _ _) H). Qed.

(** No process is alive. *)
Definition seat_moment (now : Z) (uuid : string) : SeatMoment := {| mt_now := now; mt_alive _ := false; mt_uuid := uuid |}.

Definition sample_trigger (raw source : string) (force : bool) : TriggerEvent :=
  {| te_ticket_id := "t"; te_action := "reviewer"; te_actor_name := "a"; te_force_respawn := force;
     te_trigger_source := source; te_raw := raw |}.
Definition sample_mention : MentionEvent := {| mn_ticketId := "t"; mn_role := Some "reviewer"; mn_agent_id := "a" |}.

Definition seat0_claimed : Dispatcher Slots :=
  (trigger_gate (seat_moment 0 "u0") (sample_trigger "p0" "column_move" false) (new_dispatcher [])).1.
(** Ten minutes later a mention evicts the trigger, which hangs. *)
Definition seat1_claimed : Dispatcher Slots := (mention_gate (seat_moment 600000 "u1") sample_mention seat0_claimed).1.

Definition claim_events : list SeatEvent :=
  [on_trigger (seat_moment 0 "u0") (sample_trigger "p0" "column_move" false); on_mention (seat_moment 600000 "u1") sample_mention].

Lemma seat0_run : seat_run [on_trigger (seat_moment 0 "u0") (sample_trigger "p0" "column_move" false)] (new_dispatcher []) seat0_claimed.
Proof. apply (run_snoc [] _ _ (new_dispatcher [])); [constructor|]. by apply step_trigger; [apply fresh_by_computation|]. Qed.

Lemma seat1_run : seat_run claim_events (new_dispatcher []) seat1_claimed.
Proof. eapply (run_snoc [_]); [apply seat0_run|]. by apply step_mention, fresh_by_computation. Qed.

Lemma empty_slots_unseated : unseated (S := Slots) [].
Proof. done. Qed.

Lemma one_dispatch_per_seat_witness :
  ∃ l1 e l2 d1, claim_events = l1 ++ e :: l2 ∧ seat_run l1 (new_dispatcher []) d1 ∧
    holds d1 0 ∧ takes_from e d1 0 ∧ sd_seats d1 !! 1%nat = None.
Proof.
  eapply (one_dispatch_per_seat [] claim_events seat1_claimed 0 1 _ _ empty_slots_unseated seat1_run); try reflexivity.
  auto with arith.
Defined.

(** A force is turned away while the mention holds the seat. *)
Definition force_suppressed : Dispatcher Slots :=
  (trigger_gate (seat_moment 600001 "u2") (sample_trigger "f" "manual" true) seat1_claimed).1.

Definition mention_seat : Seat :=
  {| st_meta := mention_meta "reviewer" sample_mention; st_nonce := Some "u1"; st_kind := by_mention; st_transferred := false |}.

(** The mention spawns, and its process exits. *)
Definition mention_runs {S} {registry : SeatRegistry S} (i : nat) (d : Dispatcher S) : Dispatcher S * Dispatcher S :=
  let d1 := spawn_succeeds i mention_seat (Some 7) d in (d1, release_handle (mention_seat<|st_transferred := true|>) d1).
Definition mention_events (i : nat) : list SeatEvent := [on_spawned i (Some 7); on_exit i].

Lemma mention_runs_run {S} {registry : SeatRegistry S} i (d : Dispatcher S) : sd_seats d !! i = Some mention_seat →
  seat_run (mention_events i) d (mention_runs i d).2.
Proof.
  intros Hi. apply (run_snoc [on_spawned i (Some 7)] _ _ (mention_runs i d).1).
  - apply (run_snoc [] _ _ d); [constructor|]. by apply step_spawned.
  - apply step_exit. cbn [mention_runs fst spawn_succeeds]. cbn. by apply list_lookup_insert_eq, (lookup_lt_Some _ _ _ Hi).
Qed.

(** The mention's process exits, and the force is replayed. *)
Lemma suppressed_force_is_replayed_witness :
  sd_replays (mention_runs 1 force_suppressed).2 = [replay_force "f"] ∧
  ((held_on "t:reviewer:a" (mention_events 1) force_suppressed (mention_runs 1 force_suppressed).2 ∧
    JMap.get (it_pendingForce (sd_tracker (mention_runs 1 force_suppressed).2)) "t:reviewer:a" = Some "f") ∨
   ∃ l1 e l2 da db, mention_events 1 = l1 ++ e :: l2 ∧ held_on "t:reviewer:a" l1 force_suppressed da ∧
     ends_hold e da "t:reviewer:a" ∧ seat_step e da db ∧ seat_run l2 db (mention_runs 1 force_suppressed).2 ∧
     sd_replays db = sd_replays da ++ [replay_force "f"] ∧ pends db "t:reviewer:a" None None).
Proof.
  split; [reflexivity|].
  apply (suppressed_force_is_replayed [] claim_events seat1_claimed (seat_moment 600001 "u2") (sample_trigger "f" "manual" true)
           force_suppressed "inflight_dispatch" true (mention_events 1) (mention_runs 1 force_suppressed).2 seat1_run);
    try reflexivity. apply mention_runs_run. reflexivity.
Defined.

(** The mention alone: the run in which nobody else ever had the seat. *)
Definition mention_seated : Dispatcher Slots := (mention_gate (seat_moment 0 "u1") sample_mention (new_dispatcher [])).1.

Lemma mention_seated_run : orderly_run [on_mention (seat_moment 0 "u1") sample_mention] (new_dispatcher []) mention_seated.
Proof.
  apply (orderly_snoc [] _ _ (new_dispatcher [])); [constructor| |by intros k i st []].
  by apply step_mention, fresh_by_computation.
Qed.

Definition column_suppressed : Dispatcher Slots :=
  (trigger_gate (seat_moment 4600 "u2") (sample_trigger "c" "column_move" false) mention_seated).1.

(** The mention's process exits, and the column's workflow is replayed. *)
Lemma mention_returns_what_it_blocks_witness :
  sd_replays (mention_runs 0 column_suppressed).2 = [replay_column "c"] ∧
  ((held_on "t:reviewer:a" (mention_events 0) column_suppressed (mention_runs 0 column_suppressed).2 ∧
    JMap.get (it_pendingColumnWorkflow (sd_tracker (mention_runs 0 column_suppressed).2)) "t:reviewer:a" = Some "c") ∨
   ∃ l1 e l2 da db, mention_events 0 = l1 ++ e :: l2 ∧ held_on "t:reviewer:a" l1 column_suppressed da ∧
     ends_hold e da "t:reviewer:a" ∧ seat_step e da db ∧ seat_run l2 db (mention_runs 0 column_suppressed).2 ∧
     sd_replays db = sd_replays da ++ handed (JMap.get (it_pendingForce (sd_tracker da)) "t:reviewer:a") (Some "c") ∧
     pends db "t:reviewer:a" None None).
Proof.
  split; [reflexivity|].
  apply (mention_returns_what_it_blocks [] _ mention_seated 0 mention_seat (seat_moment 4600 "u2") (sample_trigger "c" "column_move" false)
            column_suppressed "inflight_dispatch" true (mention_events 0) (mention_runs 0 column_suppressed).2
            empty_slots_unseated mention_seated_run);
    try reflexivity; [|apply mention_runs_run; reflexivity].
  eexists _, _. split; [reflexivity|]. split; reflexivity.
Defined.

Definition busy_manager : SessionManager :=
  {| sn_sessions := [];
     sn_inflight := [("t:reviewer:a", reserve_for (seat_moment 0 "u0") (trigger_meta (sample_trigger "p0" "" false)))];
     sn_suppress := [] |}.

Lemma registries_agree_witness :
  tryAcquireFallback (seat_moment 600000 "u1") (trigger_meta (sample_trigger "p" "" false)) (sn_inflight busy_manager) =
  (sn_inflight (tryReserveDispatch (seat_moment 600000 "u1") (trigger_meta (sample_trigger "p" "" false)) busy_manager).1,
   granted (seat_moment 600000 "u1") (Some ev_stale)).
Proof.
  apply (registries_agree (seat_moment 600000 "u1") (trigger_meta (sample_trigger "p" "" false)) busy_manager); [reflexivity|].
  intros r Hr _. vm_compute in Hr. injection Hr as <-. right; left. vm_compute. discriminate.
Defined.

(** Finding: the registries ignore the release of an evicted seat, but [release] goes
    on to [onReleased], which ends the hold of whoever has the seat now.  Here a
    trigger that hung for ten minutes is evicted by a mention, and a column trigger
    is turned away and waits for the mention.  Then the first trigger's body ends:
    the waiting one is replayed — and turned away again, for the mention still holds
    the seat — but this time it does not wait, as the holder was forgotten.  When the
    mention exits, nothing is replayed: the column's workflow is never run. *)
Lemma late_release_strands_a_column_trigger :
  let c := sample_trigger "c" "column_move" false in
  let d3 := (trigger_gate (seat_moment 600001 "u2") c seat1_claimed).1 in
  ∃ st0 st1, sd_seats d3 = [st0; st1] ∧
  let d4 := body_ends st0 d3 in
  let d5 := trigger_gate (seat_moment 600002 "u3") c d4 in
  let d6 := release_handle st1 d5.1 in
  JMap.get (it_pendingColumnWorkflow (sd_tracker d3)) "t:reviewer:a" = Some "c" ∧
  sd_replays d4 = [replay_column "c"] ∧ d5.2 = gate_suppressed "inflight_dispatch" true ∧
  holds d5.1 1 ∧ sd_replays d6 = [replay_column "c"] ∧ sd_registry d6 = [] ∧
  it_pendingColumnWorkflow (sd_tracker d6) = [].
Proof. eexists _, _. split; [reflexivity|]. split_and!; try reflexivity. by eexists _, _. Qed.

(** Finding: a spawn without a seat removes its reservation without looking whose it
    is.  It has no nonce, so it is evicted when it hangs; the reservation that it
    removes in the end is its successor's. *)
Lemma hung_spawn_removes_anothers_reservation :
  let m := trigger_meta (sample_trigger "p" "" false) in
  let s1 := spawn_reserve (seat_moment 0 "") m {| sn_sessions := []; sn_inflight := []; sn_suppress := [] |} in
  let (s2, dr) := tryReserveDispatch (seat_moment 600000 "u1") m s1 in
  dr = granted (seat_moment 600000 "u1") (Some ev_stale) ∧
  dr_evicted (tryReserveDispatch (seat_moment 600001 "u2") m (spawn_settled m s2)).2 = None ∧
  dr_acquired (tryReserveDispatch (seat_moment 600001 "u2") m (spawn_settled m s2)).2 = true.
Proof. by vm_compute. Qed.
