(* ===== verification/PoolRetry.v ===== *)
(** * The retry queue of exhausted pools

    [PendingDispatchRetry] of the agent manager ([dispatch-preflight.ts]): a trigger
    that found no free slot of a shared pool waits here and is replayed after a
    growing delay, or at once when a slot is known to have freed, until it gets
    through, its ticket leaves the flow, or its attempts are used up.

    Entries are objects: a timer and a suspended attempt keep the entry they were
    started for, while the map by key may hold another one by then.  The queue is a
    machine; its jobs are timers and the returns of what an attempt awaits.  Its
    callbacks ([verify], [onRetry], [onGiveUp]) are asynchronous: they come back to
    the queue only in later steps. *)

From S2P Require Import Prelude JsStd.
From S2P Require Import DispatchSeats.
#[local] Open Scope Z_scope.

(** ** Entries *)

Record PendingRetryEntry := {
  pr_meta : SeatMeta;
  pr_raw : string;
  pr_attempts : Z;
  pr_delayMs : Z;
  (** a handle of the scheduler's *)
  pr_timer : option nat;
  pr_attempting : bool
}.

Definition pr_key (e : PendingRetryEntry) : string := meta_key (pr_meta e).

Record RetryOptions := {
  (** [verify] is given *)
  ro_verify : bool;
  ro_baseDelayMs : Z;
  ro_maxDelayMs : Z;
  ro_maxAttempts : Z
}.

Definition default_retry_options : RetryOptions :=
  {| ro_verify := true; ro_baseDelayMs := 30000; ro_maxDelayMs := 5 * 60000; ro_maxAttempts := 8 |}.

(** Where an attempt is suspended. *)
Inductive AttemptAt : Type := at_verify | at_replay | at_give_up.

#[export] Instance AttemptAt_eq_dec : EqDecision AttemptAt.
Proof. solve_decision. Defined.

(** What the queue asks of its owner, for the entry of that number. *)
Inductive RetryCall : Type :=
  | call_verify (o : nat)
  | call_retry (o : nat) (raw : string)
  | call_give_up (o : nat).

Record RetryQueue := {
  (** [#entries], by the number of the object *)
  rq_entries : list (string * nat);
  (** every entry that was ever made *)
  rq_objects : list PendingRetryEntry;
  (** the scheduler's timers by handle, with the entry a live one is for *)
  rq_timers : list (option nat);
  (** the attempts that are suspended *)
  rq_running : list (nat * AttemptAt);
  rq_calls : list RetryCall
}.

Definition new_retry_queue : RetryQueue :=
  {| rq_entries := []; rq_objects := []; rq_timers := []; rq_running := []; rq_calls := [] |}.

Definition put_object (o : nat) (e : PendingRetryEntry) (q : RetryQueue) : RetryQueue :=
  q<|rq_objects := <[o := e]> (rq_objects q)|>.

(** [scheduler.clear(handle)], where there is one *)
Definition clear_timer (timer : option nat) (q : RetryQueue) : RetryQueue :=
  match timer with
  | Some t => q<|rq_timers := <[t := None]> (rq_timers q)|>
  | None => q
  end.

(** [scheduler.set(() => this.#attempt(entry), entry.delayMs)]; its handle is the
    number of timers so far. *)
Definition set_timer (o : nat) (q : RetryQueue) : RetryQueue := q<|rq_timers := rq_timers q ++ [Some o]|>.

Section queue.
Context (opts : RetryOptions).

(** [#arm] *)
Definition arm (o : nat) (e : PendingRetryEntry) (q : RetryQueue) : RetryQueue :=
  let q' := clear_timer (pr_timer e) q in
  put_object o (e<|pr_timer := Some (length (rq_timers q'))|>) (set_timer o q').

(** The second part is [created]. *)
Definition register (meta : SeatMeta) (raw : string) (q : RetryQueue) : RetryQueue * bool :=
  let key := meta_key meta in
  match JMap.get (rq_entries q) key with
  | Some o =>
      match rq_objects q !! o with
      | Some existing => (put_object o (existing<|pr_raw := raw|>) q, false)
      | None => (q, false)
      end
  | None =>
      let o := length (rq_objects q) in
      let e := {| pr_meta := meta; pr_raw := raw; pr_attempts := 0; pr_delayMs := ro_baseDelayMs opts;
                  pr_timer := None; pr_attempting := false |} in
      (arm o e (q<|rq_entries := JMap.set (rq_entries q) key o|><|rq_objects := rq_objects q ++ [e]|>), true)
  end.

(** [#drop]: the object keeps the handle of its cleared timer. *)
Definition drop_key (key : string) (q : RetryQueue) : RetryQueue :=
  match JMap.get (rq_entries q) key with
  | Some o =>
      let q' := match rq_objects q !! o with Some e => clear_timer (pr_timer e) q | None => q end in
      q'<|rq_entries := JMap.delete (rq_entries q') key|>
  | None => q
  end.

(** [resolve]; and [cancel], which only logs besides. *)
Definition resolve (meta : SeatMeta) (q : RetryQueue) : RetryQueue := drop_key (meta_key meta) q.
Definition cancel (key : string) (q : RetryQueue) : RetryQueue := drop_key key q.

(** [e.ticketId === ticketId] of a snapshot's entry *)
Definition of_ticket (q : RetryQueue) (ticketId : string) (entry : string * nat) : bool :=
  match rq_objects q !! entry.2 with Some e => String.eqb (sm_ticketId (pr_meta e)) ticketId | None => false end.

Definition cancelByTicket (ticketId : string) (q : RetryQueue) : RetryQueue :=
  foldl (λ q' entry, if of_ticket q' ticketId entry then cancel entry.1 q' else q') q (rq_entries q).

(** The [finally] of [#attempt]. *)
Definition attempt_over (o : nat) (q : RetryQueue) : RetryQueue :=
  match rq_objects q !! o with Some e => put_object o (e<|pr_attempting := false|>) q | None => q end.

Definition suspend (o : nat) (at_ : AttemptAt) (call : RetryCall) (q : RetryQueue) : RetryQueue :=
  q<|rq_running := rq_running q ++ [(o, at_)]|><|rq_calls := rq_calls q ++ [call]|>.

(** [entry.attempts += 1; await this.#onRetry(entry.raw)] *)
Definition begin_replay (o : nat) (e : PendingRetryEntry) (q : RetryQueue) : RetryQueue :=
  suspend o at_replay (call_retry o (pr_raw e)) (put_object o (e<|pr_attempts := pr_attempts e + 1|>) q).

(** [#attempt] up to what it awaits first *)
Definition attempt (o : nat) (q : RetryQueue) : RetryQueue :=
  match rq_objects q !! o with
  | Some e =>
      if negb (JMap.has (rq_entries q) (pr_key e)) || pr_attempting e then q
      else
        let e' := e<|pr_attempting := true|><|pr_timer := None|> in
        let q' := put_object o e' q in
        if ro_verify opts then suspend o at_verify (call_verify o) q' else begin_replay o e' q'
  | None => q
  end.

(** [verify] returned; a failure of it counts as eligible. *)
Definition verified (o : nat) (eligible : bool) (q : RetryQueue) : RetryQueue :=
  match rq_objects q !! o with
  | Some e =>
      if negb (JMap.has (rq_entries q) (pr_key e)) then attempt_over o q
      else if negb eligible then attempt_over o (cancel (pr_key e) q)
      else begin_replay o e q
  | None => q
  end.

(** [onRetry] returned or threw. *)
Definition replayed (o : nat) (q : RetryQueue) : RetryQueue :=
  match rq_objects q !! o with
  | Some e =>
      if negb (JMap.has (rq_entries q) (pr_key e)) then attempt_over o q
      else if ro_maxAttempts opts <=? pr_attempts e
      then suspend o at_give_up (call_give_up o) (q<|rq_entries := JMap.delete (rq_entries q) (pr_key e)|>)
      else attempt_over o (arm o (e<|pr_delayMs := Z.min (pr_delayMs e * 2) (ro_maxDelayMs opts)|>) q)
  | None => q
  end.

(** [wake], for one entry of its snapshot *)
Definition wake_one (o : nat) (q : RetryQueue) : RetryQueue :=
  match rq_objects q !! o with
  | Some e =>
      if pr_attempting e then q
      else attempt o (put_object o (e<|pr_timer := None|>) (clear_timer (pr_timer e) q))
  | None => q
  end.

Definition wake (q : RetryQueue) : RetryQueue := foldl (λ q' o, wake_one o q') q (JMap.values (rq_entries q)).

(** ** The steps *)

(** The jobs of the run time; nobody calls them. *)
Inductive retry_job : RetryQueue → RetryQueue → Prop :=
  | job_timer t o q : rq_timers q !! t = Some (Some o) →
      retry_job q (attempt o (q<|rq_timers := <[t := None]> (rq_timers q)|>))
  | job_verified o eligible l1 l2 q : rq_running q = l1 ++ (o, at_verify) :: l2 →
      retry_job q (verified o eligible (q<|rq_running := l1 ++ l2|>))
  | job_replayed o l1 l2 q : rq_running q = l1 ++ (o, at_replay) :: l2 →
      retry_job q (replayed o (q<|rq_running := l1 ++ l2|>))
  | job_gave_up o l1 l2 q : rq_running q = l1 ++ (o, at_give_up) :: l2 →
      retry_job q (attempt_over o (q<|rq_running := l1 ++ l2|>)).

(** What the dispatcher calls. *)
Inductive retry_use : RetryQueue → RetryQueue → Prop :=
  | use_register meta raw q : retry_use q (register meta raw q).1
  | use_resolve meta q : retry_use q (resolve meta q)
  | use_cancel key q : retry_use q (cancel key q)
  | use_cancelByTicket ticketId q : retry_use q (cancelByTicket ticketId q)
  | use_wake q : retry_use q (wake q).

Definition retry_step (q q' : RetryQueue) : Prop := retry_use q q' ∨ retry_job q q'.
Definition retry_reachable : RetryQueue → Prop := rtc retry_step new_retry_queue.
End queue.
