(* ===== verification/PoolRetryFacts.v ===== *)
(** * What the retry queue promises

    Every queued trigger is either armed or under way; an entry is replayed a bounded
    number of times, after the delays of the back-off; left alone, the queue empties. *)

From S2P Require Import Prelude JsStd.
From S2P Require Import DispatchSeats.
From S2P Require Import PoolRetry.
#[local] Open Scope Z_scope.

Section facts.
Context (opts : RetryOptions).
Context (base_pos : 0 ≤ ro_baseDelayMs opts) (max_pos : 0 ≤ ro_maxDelayMs opts).

Implicit Types (q : RetryQueue) (o : nat).

(** ** The invariant *)

(** The delay before attempt number [n + 1]. *)
Definition delay_after (n : Z) : Z :=
  if n <=? 0 then ro_baseDelayMs opts else Z.min (ro_baseDelayMs opts * 2 ^ n) (ro_maxDelayMs opts).

Lemma delay_doubles n : 0 ≤ n → Z.min (delay_after n * 2) (ro_maxDelayMs opts) = delay_after (n + 1).
Proof.
  intros Hn. unfold delay_after. destruct (Z.leb_spec (n + 1) 0); [lia|]. rewrite Z.pow_add_r, Z.pow_1_r, Z.mul_assoc by lia.
  destruct (Z.leb_spec n 0); [|lia]. assert (n = 0) as -> by lia. rewrite Z.pow_0_r. lia.
Qed.

(** The counters of an entry that waits or is verified. *)
Definition count_waiting (e : PendingRetryEntry) : Prop :=
  0 ≤ pr_attempts e ∧ (pr_attempts e = 0 ∨ pr_attempts e < ro_maxAttempts opts) ∧ pr_delayMs e = delay_after (pr_attempts e).

(** And those of one whose replay was started. *)
Definition count_replayed (e : PendingRetryEntry) : Prop :=
  1 ≤ pr_attempts e ∧ (pr_attempts e = 1 ∨ pr_attempts e ≤ ro_maxAttempts opts) ∧
  pr_delayMs e = delay_after (pr_attempts e - 1).

Definition count_ok (at_ : AttemptAt) (e : PendingRetryEntry) : Prop :=
  match at_ with
  | at_verify => count_waiting e
  | at_replay => count_replayed e
  | at_give_up => count_replayed e ∧ ro_maxAttempts opts ≤ pr_attempts e
  end.

(** An entry that does nothing waits, or its give-up is over. *)
Definition count_idle (e : PendingRetryEntry) : Prop :=
  count_waiting e ∨ count_replayed e.

(** [hand] is the entry whose attempt is being continued: its code runs. *)
Record queue_inv (hand : option nat) q : Prop := {
  qi_keys : NoDup (JMap.keys (rq_entries q));
  qi_entry : ∀ k o, JMap.get (rq_entries q) k = Some o → ∃ e, rq_objects q !! o = Some e ∧ pr_key e = k;
  qi_timer : ∀ t o, rq_timers q !! t = Some (Some o) →
    ∃ e, rq_objects q !! o = Some e ∧ pr_timer e = Some t ∧ pr_attempting e = false ∧ count_waiting e;
  qi_handle : ∀ o e t, rq_objects q !! o = Some e → pr_timer e = Some t →
    rq_timers q !! t = Some None ∨ rq_timers q !! t = Some (Some o);
  qi_once : NoDup ((rq_running q).*1);
  qi_running : ∀ o at_, (o, at_) ∈ rq_running q → hand ≠ Some o ∧
    ∃ e, rq_objects q !! o = Some e ∧ pr_attempting e = true ∧ pr_timer e = None ∧ count_ok at_ e;
  qi_attempting : ∀ o e, rq_objects q !! o = Some e → pr_attempting e = true →
    hand = Some o ∨ ∃ at_, (o, at_) ∈ rq_running q;
  qi_hand : ∀ o, hand = Some o → ∃ e, rq_objects q !! o = Some e ∧ pr_attempting e = true ∧ pr_timer e = None;
  qi_count : ∀ o e, rq_objects q !! o = Some e → count_idle e
}.

(** The entry of a key is armed or under way. *)
Definition served q o : Prop := ∀ k, JMap.get (rq_entries q) k = Some o →
  (∃ t, rq_timers q !! t = Some (Some o)) ∨ ∃ at_, (o, at_) ∈ rq_running q ∧ at_ ≠ at_give_up.

Lemma lookup_insert_cases {A} (l : list A) i j x y : <[i := x]> l !! j = Some y →
  (j = i ∧ y = x) ∨ (j ≠ i ∧ l !! j = Some y).
Proof.
  intros H. destruct (decide (j = i)) as [->|N].
  - left. split; [done|]. pose proof (lookup_lt_Some _ _ _ H) as Hl. rewrite length_insert in Hl.
    rewrite list_lookup_insert_eq in H by done. by injection H.
  - right. by rewrite list_lookup_insert_ne in H.
Qed.

Lemma lookup_insert_is {A} (l : list A) i x y : l !! i = Some y → <[i := x]> l !! i = Some x.
Proof. intros H. apply list_lookup_insert_eq. by eapply lookup_lt_Some. Qed.

(** ** The small steps *)

(** The object in hand may be changed, but for its key and its flags. *)
Lemma inv_put_hand o e e' q : queue_inv (Some o) q → rq_objects q !! o = Some e →
  pr_key e' = pr_key e → pr_attempting e' = true → pr_timer e' = None → count_idle e' →
  queue_inv (Some o) (put_object o e' q).
Proof.
  intros [H1 H2 H3 H4 H5 H6 H7 H8 H9] He Ek Ea Et Hc.
  assert (Hh : pr_attempting e = true ∧ pr_timer e = None).
  { destruct (H8 o eq_refl) as (x & Hx & ? & ?). assert (x = e) as -> by congruence. done. }
  constructor; cbn; try done.
  - intros k i Hk. destruct (H2 k i Hk) as (x & Hx & E). destruct (decide (i = o)) as [->|N].
    + exists e'. split; [by eapply lookup_insert_is|]. congruence.
    + exists x. by rewrite list_lookup_insert_ne.
  - intros t i Ht. destruct (H3 t i Ht) as (x & Hx & E & Ex & Hcx). assert (i ≠ o) by (intros ->; destruct Hh; congruence).
    exists x. by rewrite list_lookup_insert_ne.
  - intros i x t Hi Ex. apply lookup_insert_cases in Hi as [[-> ->]|[N Hi]]; [congruence|by eapply H4].
  - intros i at_ Hi. destruct (H6 i at_ Hi) as (N & x & Hx & Hr). split; [done|]. exists x.
    rewrite list_lookup_insert_ne by congruence. done.
  - intros i x Hi Ex. apply lookup_insert_cases in Hi as [[-> ->]|[N Hi]]; [by left|by eapply H7].
  - intros i [= <-]. exists e'. split; [by eapply lookup_insert_is|done].
  - intros i x Hi. apply lookup_insert_cases in Hi as [[-> ->]|[N Hi]]; [done|by eapply H9].
Qed.

(** A suspended attempt goes on. *)
Lemma inv_take o at_ l1 l2 q : queue_inv None q → rq_running q = l1 ++ (o, at_) :: l2 →
  queue_inv (Some o) (q<|rq_running := l1 ++ l2|>) ∧
  ∃ e, rq_objects q !! o = Some e ∧ pr_attempting e = true ∧ pr_timer e = None ∧ count_ok at_ e.
Proof.
  intros [H1 H2 H3 H4 H5 H6 H7 H8 H9] E. destruct (H6 o at_) as (_ & e & He & Ha & Ht & Hc).
  { rewrite E. apply elem_of_app. right. apply list_elem_of_here. }
  split; [|by exists e]. rewrite E, fmap_app, fmap_cons in H5.
  assert (Hin : ∀ x, x ∈ l1 ++ l2 → x ∈ rq_running q).
  { intros x Hx. rewrite E. apply elem_of_app in Hx as [?|?]; apply elem_of_app; [by left|right; by apply list_elem_of_further]. }
  apply NoDup_app in H5 as (N1 & N2 & N3). apply NoDup_cons in N3 as [N3 N4].
  constructor; cbn; try done.
  - rewrite fmap_app. apply NoDup_app. split_and!; [done| |done]. intros x Hx Hx2. apply (N2 x Hx). by apply list_elem_of_further.
  - intros i ph Hi. destruct (H6 i ph (Hin _ Hi)) as (_ & x & Hx). split; [|by exists x]. intros [= ->].
    apply elem_of_app in Hi as [Hi|Hi]; apply (list_elem_of_fmap_2 fst) in Hi; cbn in Hi; [|done].
    apply (N2 i Hi), list_elem_of_here.
  - intros i x Hi Ex. destruct (H7 i x Hi Ex) as [?|(ph & Hph)]; [done|]. rewrite E in Hph.
    apply elem_of_app in Hph as [Hph|Hph]; [right; exists ph; apply elem_of_app; by left|].
    apply elem_of_cons in Hph as [[= -> ->]|Hph]; [by left|right; exists ph; apply elem_of_app; by right].
  - intros i [= <-]. by exists e.
Qed.

(** It is suspended again. *)
Lemma inv_suspend o e at_ call q : queue_inv (Some o) q → rq_objects q !! o = Some e → count_ok at_ e →
  queue_inv None (suspend o at_ call q).
Proof.
  intros [H1 H2 H3 H4 H5 H6 H7 H8 H9] He Hc. destruct (H8 o eq_refl) as (x & Hx & Ea & Et). assert (x = e) as -> by congruence.
  constructor; cbn; try done.
  - rewrite fmap_app. apply NoDup_app. split_and!; [done| |apply NoDup_singleton]. intros i Hi Hi2.
    apply list_elem_of_fmap in Hi as ([j ph] & -> & Hi). apply list_elem_of_singleton in Hi2. cbn in Hi2. subst j.
    by destruct (H6 o ph Hi) as [[] _].
  - intros i ph Hi. split; [done|]. apply elem_of_app in Hi as [Hi|Hi]; [by destruct (H6 i ph Hi)|].
    apply list_elem_of_singleton in Hi as [= -> ->]. by exists e.
  - intros i y Hi Ey. right. destruct (H7 i y Hi Ey) as [[= ->]|(ph & Hph)].
    + exists at_. apply elem_of_app. right. apply list_elem_of_here.
    + exists ph. apply elem_of_app. by left.
Qed.

(** It is over. *)
Lemma inv_attempt_over o q : queue_inv (Some o) q → queue_inv None (attempt_over o q).
Proof.
  intros [H1 H2 H3 H4 H5 H6 H7 H8 H9]. destruct (H8 o eq_refl) as (e & He & Ea & Et). unfold attempt_over. rewrite He.
  constructor; cbn; try done.
  - intros k i Hk. destruct (H2 k i Hk) as (x & Hx & E). destruct (decide (i = o)) as [->|N].
    + eexists. split; [by eapply lookup_insert_is|]. assert (x = e) as -> by congruence. done.
    + exists x. by rewrite list_lookup_insert_ne.
  - intros t i Ht. destruct (H3 t i Ht) as (x & Hx & E & Ex & Hcx). assert (i ≠ o) by congruence.
    exists x. by rewrite list_lookup_insert_ne.
  - intros i x t Hi Ex. apply lookup_insert_cases in Hi as [[-> ->]|[N Hi]]; [cbn in Ex; congruence|by eapply H4].
  - intros i ph Hi. destruct (H6 i ph Hi) as (N & x & Hx). split; [done|]. exists x. by rewrite list_lookup_insert_ne by congruence.
  - intros i x Hi Ex. apply lookup_insert_cases in Hi as [[-> ->]|[N Hi]]; [done|].
    destruct (H7 i x Hi Ex) as [?|?]; [congruence|by right].
  - intros i x Hi. apply lookup_insert_cases in Hi as [[-> ->]|[N Hi]]; [exact (H9 o e He)|by eapply H9].
Qed.

Lemma inv_clear h o e q : queue_inv h q → rq_objects q !! o = Some e → queue_inv h (clear_timer (pr_timer e) q).
Proof.
  intros Hq He. destruct (pr_timer e) as [t0|] eqn:Et; [|done]. destruct Hq as [H1 H2 H3 H4 H5 H6 H7 H8 H9]. constructor; cbn; try done.
  - intros t i Ht. apply lookup_insert_cases in Ht as [[_ ?]|[_ Ht]]; [done|by apply H3].
  - intros i x t Hi Ex. destruct (decide (t = t0)) as [->|N].
    + left. destruct (H4 i x t0 Hi Ex) as [E|E]; by eapply lookup_insert_is.
    + rewrite list_lookup_insert_ne by done. by eapply H4.
Qed.

Lemma inv_unmap h key q : queue_inv h q → queue_inv h (q<|rq_entries := JMap.delete (rq_entries q) key|>).
Proof.
  intros [H1 H2 H3 H4 H5 H6 H7 H8 H9]. constructor; cbn; try done.
  - by apply JMap.NoDup_keys_delete.
  - intros k o. rewrite JMap.get_delete. destruct (String.eqb key k); [done|]. apply H2.
Qed.

Lemma inv_drop h key q : queue_inv h q → queue_inv h (drop_key key q).
Proof.
  intros Hq. unfold drop_key. destruct (JMap.get (rq_entries q) key) as [o|] eqn:E; [|done].
  destruct (qi_entry h q Hq key o E) as (e & He & _). rewrite He.
  assert (Ee : rq_entries (clear_timer (pr_timer e) q) = rq_entries q) by (by destruct (pr_timer e)).
  apply inv_unmap. by apply (inv_clear h o).
Qed.

Lemma drop_key_objects key q : rq_objects (drop_key key q) = rq_objects q ∧ rq_running (drop_key key q) = rq_running q ∧
  rq_calls (drop_key key q) = rq_calls q.
Proof.
  unfold drop_key. destruct (JMap.get (rq_entries q) key) as [o|]; [|done].
  destruct (rq_objects q !! o) as [e|]; [|done]. by destruct (pr_timer e).
Qed.

Lemma drop_key_entries key q : rq_entries (drop_key key q) = JMap.delete (rq_entries q) key ∨
  (rq_entries (drop_key key q) = rq_entries q ∧ JMap.get (rq_entries q) key = None).
Proof.
  unfold drop_key. destruct (JMap.get (rq_entries q) key) as [o|]; [left|by right].
  destruct (rq_objects q !! o) as [e|]; [|done]. by destruct (pr_timer e).
Qed.

Lemma drop_key_free key q : JMap.get (rq_entries (drop_key key q)) key = None.
Proof. destruct (drop_key_entries key q) as [E|[E ?]]; rewrite E; [apply JMap.get_delete_eq|done]. Qed.

(** An attempt begins: its entry is not armed any more. *)
Lemma inv_grab o e q : queue_inv None q → rq_objects q !! o = Some e → pr_attempting e = false →
  (∀ t, rq_timers q !! t ≠ Some (Some o)) →
  queue_inv (Some o) (put_object o (e<|pr_attempting := true|><|pr_timer := None|>) q).
Proof.
  intros [H1 H2 H3 H4 H5 H6 H7 H8 H9] He Ea Hno. constructor; cbn; try done.
  - intros k i Hk. destruct (H2 k i Hk) as (x & Hx & E). destruct (decide (i = o)) as [->|N].
    + eexists. split; [by eapply lookup_insert_is|]. assert (x = e) as -> by congruence. done.
    + exists x. by rewrite list_lookup_insert_ne.
  - intros t i Ht. assert (i ≠ o) by (intros ->; by apply (Hno t)). rewrite list_lookup_insert_ne by done. by apply H3.
  - intros i x t Hi Ex. apply lookup_insert_cases in Hi as [[-> ->]|[N Hi]]; [done|by eapply H4].
  - intros i at_ Hi. destruct (H6 i at_ Hi) as (_ & x & Hx & E & ?). assert (i ≠ o) by congruence.
    split; [congruence|]. exists x. by rewrite list_lookup_insert_ne.
  - intros i x Hi Ex. apply lookup_insert_cases in Hi as [[-> ->]|[N Hi]]; [by left|].
    destruct (H7 i x Hi Ex) as [?|?]; [done|by right].
  - intros i [= <-]. eexists. split; [by eapply lookup_insert_is|done].
  - intros i x Hi. apply lookup_insert_cases in Hi as [[-> ->]|[N Hi]]; [exact (H9 o e He)|by eapply H9].
Qed.

Lemma count_begin e : count_waiting e → count_replayed (e<|pr_attempts := pr_attempts e + 1|>).
Proof.
  intros (H1 & H2 & H3). split_and!; cbn; [lia|lia|]. rewrite H3. f_equal. lia.
Qed.

Lemma inv_begin_replay o e q : queue_inv (Some o) q → rq_objects q !! o = Some e → count_waiting e →
  queue_inv None (begin_replay o e q).
Proof.
  intros Hq He Hc. destruct (qi_hand _ q Hq o eq_refl) as (x & Hx & Ea & Et). assert (x = e) as -> by congruence.
  unfold begin_replay. eapply inv_suspend; [|cbn; by eapply lookup_insert_is|exact (count_begin e Hc)].
  apply (inv_put_hand o e); try done. right. by apply count_begin.
Qed.

Lemma inv_attempt o e q : queue_inv None q → rq_objects q !! o = Some e → count_waiting e →
  (∀ t, rq_timers q !! t ≠ Some (Some o)) → queue_inv None (attempt opts o q).
Proof.
  intros Hq He Hc Hno. unfold attempt. rewrite He. destruct (negb _ || pr_attempting e) eqn:E; [done|].
  apply orb_false_iff in E as [_ Ea]. set (e' := e<|pr_attempting := true|><|pr_timer := None|>).
  assert (Hg : queue_inv (Some o) (put_object o e' q)) by (by apply inv_grab).
  assert (He' : rq_objects (put_object o e' q) !! o = Some e') by (cbn; by eapply lookup_insert_is).
  destruct (ro_verify opts); [by apply (inv_suspend o e')|by apply inv_begin_replay].
Qed.

(** The attempt is over and the entry armed. *)
Lemma arm_over_eq o e e0 q : rq_objects q !! o = Some e0 → pr_timer e = None →
  attempt_over o (arm o e q) =
  put_object o (e<|pr_timer := Some (length (rq_timers q))|><|pr_attempting := false|>) (set_timer o q).
Proof.
  intros He Et. unfold arm, attempt_over, put_object. rewrite Et. cbn. rewrite (lookup_insert_is _ _ _ e0) by done.
  cbn. f_equal. apply list_insert_insert_eq.
Qed.

Lemma lookup_snoc_cases {A} (l : list A) x i y : (l ++ [x]) !! i = Some y → l !! i = Some y ∨ i = length l ∧ y = x.
Proof.
  intros [H|[Hi H]]%lookup_app_Some; [by left|right]. apply list_lookup_singleton_Some in H as [? <-]. split; [lia|done].
Qed.

Lemma inv_arm_over o e e0 q : queue_inv (Some o) q → rq_objects q !! o = Some e0 → pr_key e = pr_key e0 →
  pr_timer e = None → count_waiting e → queue_inv None (attempt_over o (arm o e q)).
Proof.
  intros Hq He Ek Et Hc. rewrite (arm_over_eq o e e0) by done. set (e' := e<|pr_timer := _|><|pr_attempting := false|>).
  destruct Hq as [H1 H2 H3 H4 H5 H6 H7 H8 H9]. destruct (H8 o eq_refl) as (x & Hx & Ea0 & Et0). assert (x = e0) as -> by congruence.
  assert (Hnew : <[o := e']> (rq_objects q) !! o = Some e') by (by eapply lookup_insert_is).
  constructor; cbn; try done.
  - intros k i Hk. destruct (H2 k i Hk) as (x & Hx' & E). destruct (decide (i = o)) as [->|N].
    + exists e'. split; [done|]. assert (x = e0) as -> by congruence. by rewrite <- E.
    + exists x. by rewrite list_lookup_insert_ne.
  - intros t i Ht. apply lookup_snoc_cases in Ht as [Ht|[-> [= ->]]]; [|by exists e'].
    destruct (H3 t i Ht) as (x & Hx' & E & Ex & Hcx). assert (i ≠ o) by (intros ->; congruence).
    exists x. by rewrite list_lookup_insert_ne.
  - intros i x t Hi Ex. apply lookup_insert_cases in Hi as [[-> ->]|[N Hi]].
    + injection Ex as <-. right. by apply list_lookup_middle.
    + destruct (H4 i x t Hi Ex) as [E|E]; [left|right]; by apply lookup_app_l_Some.
  - intros i ph Hi. destruct (H6 i ph Hi) as (N & x & Hx'). split; [done|]. exists x. by rewrite list_lookup_insert_ne by congruence.
  - intros i x Hi Ex. apply lookup_insert_cases in Hi as [[-> ->]|[N Hi]]; [done|].
    destruct (H7 i x Hi Ex) as [?|?]; [congruence|by right].
  - intros i x Hi. apply lookup_insert_cases in Hi as [[-> ->]|[N Hi]]; [by left|by eapply H9].
Qed.

(** ** Every entry is served *)

Definition queue_ok q : Prop := queue_inv None q ∧ ∀ o, served q o.

(** All but [o] are served. *)
Definition served_but o q : Prop := ∀ i, i ≠ o → served q i.

Lemma served_same q q' i : rq_entries q' = rq_entries q → rq_timers q' = rq_timers q → rq_running q' = rq_running q →
  served q i → served q' i.
Proof. intros E1 E2 E3 H k. rewrite E1, E2, E3. apply H. Qed.

Lemma served_unmap key q i : served q i → served (q<|rq_entries := JMap.delete (rq_entries q) key|>) i.
Proof. intros H k. cbn. rewrite JMap.get_delete. destruct (String.eqb key k); [done|]. apply H. Qed.

Lemma served_clear h o e q i : queue_inv h q → rq_objects q !! o = Some e → i ≠ o → served q i → served (clear_timer (pr_timer e) q) i.
Proof.
  intros Hq He N Hs k Hk. destruct (pr_timer e) as [t0|] eqn:Et; [|exact (Hs k Hk)]. cbn in *.
  destruct (Hs k Hk) as [[t Ht]|?]; [left; exists t|by right]. rewrite list_lookup_insert_ne; [done|].
  intros <-. destruct (qi_handle h q Hq o e _ He Et); congruence.
Qed.

(** Who is dropped is not in the map. *)
Lemma served_drop h key q i : queue_inv h q → served q i → served (drop_key key q) i.
Proof.
  intros Hq Hs. unfold drop_key. destruct (JMap.get (rq_entries q) key) as [o|] eqn:E; [|done].
  destruct (qi_entry h q Hq key o E) as (e & He & Ek). rewrite He.
  assert (Ee : rq_entries (clear_timer (pr_timer e) q) = rq_entries q) by (by destruct (pr_timer e)).
  destruct (decide (i = o)) as [->|N].
  - intros k. cbn. rewrite Ee, JMap.get_delete. destruct (String.eqb_spec key k) as [|Nk]; [done|]. intros Hk.
    destruct (qi_entry h q Hq k o Hk) as (x & Hx & Exk). congruence.
  - apply served_unmap. by apply (served_clear h o e q).
Qed.

Lemma served_suspend o at_ call q i : served q i → served (suspend o at_ call q) i.
Proof.
  intros H k Hk. destruct (H k Hk) as [?|(ph & ? & ?)]; [by left|right]. exists ph. split; [|done]. cbn. apply elem_of_app. by left.
Qed.

Lemma served_suspended o at_ call q : at_ ≠ at_give_up → served (suspend o at_ call q) o.
Proof. intros N k _. right. exists at_. split; [|done]. cbn. apply elem_of_app. right. apply list_elem_of_here. Qed.

Lemma served_taken o at_ l1 l2 q : rq_running q = l1 ++ (o, at_) :: l2 → (∀ i, served q i) → served_but o (q<|rq_running := l1 ++ l2|>).
Proof.
  intros E Hs i N k Hk. destruct (Hs i k Hk) as [?|(ph & Hph & ?)]; [by left|right]. exists ph. split; [|done]. cbn.
  rewrite E in Hph. apply elem_of_app in Hph as [Hph|Hph]; [apply elem_of_app; by left|].
  apply elem_of_cons in Hph as [[= -> _]|Hph]; [done|apply elem_of_app; by right].
Qed.

Lemma served_all o q : served_but o q → served q o → ∀ i, served q i.
Proof. intros H1 H2 i. destruct (decide (i = o)) as [->|N]; [done|by apply H1]. Qed.

(** An entry whose key is free is not in the map. *)
Lemma unmapped_served h o e q : queue_inv h q → rq_objects q !! o = Some e → JMap.get (rq_entries q) (pr_key e) = None → served q o.
Proof.
  intros Hq He Hn k Hk. destruct (qi_entry h q Hq k o Hk) as (x & Hx & Ek). assert (x = e) as -> by congruence. congruence.
Qed.

Lemma has_true {V} (m : list (string * V)) k : JMap.has m k = true ↔ is_Some (JMap.get m k).
Proof. unfold JMap.has. destruct (JMap.get m k); split; [by eexists|done|done|by intros []]. Qed.

Lemma has_none {V} (m : list (string * V)) k : JMap.has m k = false ↔ JMap.get m k = None.
Proof. unfold JMap.has. by destruct (JMap.get m k). Qed.

(** ** The steps keep it *)

Lemma attempt_over_same o q : rq_entries (attempt_over o q) = rq_entries q ∧ rq_timers (attempt_over o q) = rq_timers q ∧
  rq_running (attempt_over o q) = rq_running q.
Proof. unfold attempt_over. by destruct (rq_objects q !! o). Qed.

Lemma served_attempt_over o q i : served q i → served (attempt_over o q) i.
Proof. destruct (attempt_over_same o q) as (E1 & E2 & E3). by apply served_same. Qed.

Lemma ok_attempt o e q : queue_inv None q → rq_objects q !! o = Some e → count_waiting e →
  (∀ t, rq_timers q !! t ≠ Some (Some o)) → pr_attempting e = false → served_but o q → queue_ok (attempt opts o q).
Proof.
  intros Hq He Hc Hno Ea Hs. split; [by eapply inv_attempt|]. unfold attempt. rewrite He, Ea, orb_false_r.
  destruct (JMap.has _ _) eqn:Eh; cbn [negb].
  - apply (served_all o).
    + intros i N. assert (Hi : served (put_object o (e<|pr_attempting := true|><|pr_timer := None|>) q) i) by (by apply (served_same q), Hs).
      destruct (ro_verify opts); [by apply served_suspend|]. apply served_suspend. by apply (served_same q), Hs.
    + by destruct (ro_verify opts); apply served_suspended.
  - apply (served_all o); [done|]. apply has_none in Eh. by apply (unmapped_served None o e).
Qed.

Lemma ok_verified o e eligible q : queue_inv (Some o) q → rq_objects q !! o = Some e → count_waiting e → served_but o q →
  queue_ok (verified o eligible q).
Proof.
  intros Hq He Hc Hs. unfold verified. rewrite He. destruct (JMap.has _ _) eqn:Eh; cbn [negb]; [destruct eligible; cbn [negb]|].
  - split; [by apply inv_begin_replay|]. apply (served_all o); [|by apply served_suspended].
    intros i N. apply served_suspend. by apply (served_same q), Hs.
  - split; [by apply inv_attempt_over, inv_drop|]. intros i. apply served_attempt_over.
    apply (served_all o); [intros j N; by apply (served_drop (Some o)); [|apply Hs]|].
    apply (unmapped_served (Some o) o e); [by apply inv_drop|by rewrite (proj1 (drop_key_objects _ _))|].
    apply drop_key_free.
  - split; [by apply inv_attempt_over|]. intros i. apply served_attempt_over. apply (served_all o); [done|].
    apply has_none in Eh. by apply (unmapped_served (Some o) o e).
Qed.

Lemma ok_replayed o e q : queue_inv (Some o) q → rq_objects q !! o = Some e → count_replayed e → served_but o q →
  queue_ok (replayed opts o q).
Proof.
  intros Hq He Hc Hs. destruct (qi_hand _ q Hq o eq_refl) as (x & Hx & Ea & Et). assert (x = e) as -> by congruence.
  unfold replayed. rewrite He. destruct (JMap.has _ _) eqn:Eh; cbn [negb].
  - destruct (Z.leb_spec (ro_maxAttempts opts) (pr_attempts e)) as [Hm|Hm].
    + assert (Hu : queue_inv (Some o) (q<|rq_entries := JMap.delete (rq_entries q) (pr_key e)|>)) by (by apply inv_unmap).
      split; [by apply (inv_suspend o e)|]. intros i. apply served_suspend. apply (served_all o).
      * intros j N. by apply served_unmap, Hs.
      * apply (unmapped_served _ o e _ Hu He). apply JMap.get_delete_eq.
    + set (e' := e<|pr_delayMs := _|>).
      assert (Hw : count_waiting e').
      { destruct Hc as (H1 & H2 & H3). split_and!; cbn; [lia|lia|]. rewrite H3, delay_doubles by lia. f_equal. lia. }
      split; [by apply (inv_arm_over o e' e)|]. rewrite (arm_over_eq o e' e) by done. apply (served_all o).
      * intros i N k Hk. destruct (Hs i N k Hk) as [[t Ht]|?]; [left; exists t|by right]. by apply lookup_app_l_Some.
      * intros k _. left. exists (length (rq_timers q)). by apply list_lookup_middle.
  - split; [by apply inv_attempt_over|]. intros i. apply served_attempt_over. apply (served_all o); [done|].
    apply has_none in Eh. by apply (unmapped_served (Some o) o e).
Qed.

Lemma ok_job q q' : queue_ok q → retry_job opts q q' → queue_ok q'.
Proof.
  intros [Hq Hs] Hj. destruct Hj as [t o q Ht|o eligible l1 l2 q E|o l1 l2 q E|o l1 l2 q E].
  - destruct (qi_timer _ q Hq t o Ht) as (e & He & Et & Ea & Hc).
    pose proof (inv_clear None o e q Hq He) as Hq1. rewrite Et in Hq1. cbn in Hq1. apply (ok_attempt o e); try done.
    + intros t' Ht'. cbn in Ht'. apply lookup_insert_cases in Ht' as [[_ ?]|[N Ht']]; [done|].
      destruct (qi_timer _ q Hq t' o Ht') as (x & Hx & Ex & _). congruence.
    + intros i N. pose proof (served_clear None o e q i Hq He N (Hs i)) as H. by rewrite Et in H.
  - destruct (inv_take o _ l1 l2 q Hq E) as (Hq1 & e & He & _ & _ & Hc).
    apply (ok_verified o e); try done. by apply (served_taken o at_verify).
  - destruct (inv_take o _ l1 l2 q Hq E) as (Hq1 & e & He & _ & _ & Hc).
    apply (ok_replayed o e); try done. by apply (served_taken o at_replay).
  - destruct (inv_take o _ l1 l2 q Hq E) as (Hq1 & e & He & _ & _ & Hc). split; [by apply inv_attempt_over|].
    intros i. apply served_attempt_over. intros k Hk. destruct (Hs i k Hk) as [?|(ph & Hph & Nph)]; [by left|right].
    exists ph. split; [|done]. cbn. rewrite E in Hph. apply elem_of_app in Hph as [Hph|Hph]; [apply elem_of_app; by left|].
    apply elem_of_cons in Hph as [[= -> ->]|Hph]; [done|apply elem_of_app; by right].
Qed.

(** ** The dispatcher's calls keep it *)

Lemma inv_put_same h o e e' q : queue_inv h q → rq_objects q !! o = Some e → pr_key e' = pr_key e →
  pr_timer e' = pr_timer e → pr_attempting e' = pr_attempting e → pr_attempts e' = pr_attempts e → pr_delayMs e' = pr_delayMs e →
  queue_inv h (put_object o e' q).
Proof.
  intros [H1 H2 H3 H4 H5 H6 H7 H8 H9] He Ek Et Ea En Ed.
  assert (Hcw : count_waiting e → count_waiting e') by (unfold count_waiting; by rewrite En, Ed).
  assert (Hcr : count_replayed e → count_replayed e') by (unfold count_replayed; by rewrite En, Ed).
  assert (Hc : ∀ at_, count_ok at_ e → count_ok at_ e').
  { intros [| |]; cbn; [done|done|]. rewrite En. intros [? ?]. split; [by apply Hcr|done]. }
  assert (Hl : ∀ i x, rq_objects q !! i = Some x → ∃ y, <[o := e']> (rq_objects q) !! i = Some y ∧ pr_key y = pr_key x ∧
            pr_timer y = pr_timer x ∧ pr_attempting y = pr_attempting x ∧ (count_waiting x → count_waiting y) ∧
            (∀ at_, count_ok at_ x → count_ok at_ y)).
  { intros i x Hx. destruct (decide (i = o)) as [->|N].
    - assert (x = e) as -> by congruence. exists e'. by split_and!; [by eapply lookup_insert_is| | | | |].
    - exists x. by rewrite list_lookup_insert_ne. }
  constructor; cbn; try done.
  - intros k i Hk. destruct (H2 k i Hk) as (x & Hx & E). destruct (Hl i x Hx) as (y & ? & ? & _). exists y. split; congruence.
  - intros t i Ht. destruct (H3 t i Ht) as (x & Hx & E1 & E2 & E3). destruct (Hl i x Hx) as (y & ? & _ & ? & ? & Hy & _).
    exists y. split_and!; [done|congruence|congruence|auto].
  - intros i x t Hi Ex. apply lookup_insert_cases in Hi as [[-> ->]|[N Hi]]; [apply (H4 o e); congruence|by eapply H4].
  - intros i at_ Hi. destruct (H6 i at_ Hi) as (N & x & Hx & E1 & E2 & E3). split; [done|].
    destruct (Hl i x Hx) as (y & ? & _ & ? & ? & _ & Hy). exists y. split_and!; [done|congruence|congruence|auto].
  - intros i x Hi Ex. apply lookup_insert_cases in Hi as [[-> ->]|[N Hi]]; [apply (H7 o e); congruence|by eapply H7].
  - intros i Ei. destruct (H8 i Ei) as (x & Hx & E1 & E2). destruct (Hl i x Hx) as (y & ? & _ & ? & ? & _).
    exists y. split_and!; congruence.
  - intros i x Hi. apply lookup_insert_cases in Hi as [[-> ->]|[N Hi]]; [|by eapply H9].
    destruct (H9 o e He); [left; auto|right; auto].
Qed.

Lemma register_new_eq meta raw q : JMap.get (rq_entries q) (meta_key meta) = None →
  (register opts meta raw q).1 =
    {| rq_entries := JMap.set (rq_entries q) (meta_key meta) (length (rq_objects q));
       rq_objects := rq_objects q ++ [{| pr_meta := meta; pr_raw := raw; pr_attempts := 0; pr_delayMs := ro_baseDelayMs opts;
                                         pr_timer := Some (length (rq_timers q)); pr_attempting := false |}];
       rq_timers := rq_timers q ++ [Some (length (rq_objects q))]; rq_running := rq_running q; rq_calls := rq_calls q |}.
Proof.
  intros E. unfold register. rewrite E. cbn. unfold arm, put_object. cbn. f_equal. by rewrite insert_app_r_alt, Nat.sub_diag by done.
Qed.

Lemma ok_register meta raw q : queue_ok q → queue_ok (register opts meta raw q).1.
Proof.
  intros [Hq Hs]. destruct (JMap.get (rq_entries q) (meta_key meta)) as [o|] eqn:E.
  { unfold register. rewrite E. destruct (rq_objects q !! o) as [e|] eqn:He; [|by split].
    split; [by apply (inv_put_same None o e)|]. intros i. by apply (served_same q). }
  rewrite register_new_eq by done. set (e := {| pr_meta := meta; pr_raw := raw; pr_attempts := 0; pr_delayMs := _;
    pr_timer := _; pr_attempting := false |}). set (n := length (rq_objects q)).
  assert (Hw : count_waiting e) by (split_and!; cbn; [lia|by left|done]).
  destruct Hq as [H1 H2 H3 H4 H5 H6 H7 H8 H9].
  assert (Hold : ∀ i x, rq_objects q !! i = Some x → (rq_objects q ++ [e]) !! i = Some x) by (intros i x; apply lookup_app_l_Some).
  assert (Hnew : (rq_objects q ++ [e]) !! n = Some e) by (by apply list_lookup_middle).
  split.
  - constructor; cbn; try done.
    + by apply JMap.NoDup_keys_set.
    + intros k i. destruct (String.eqb_spec (meta_key meta) k) as [<-|N].
      * rewrite JMap.get_set_eq. intros [= <-]. by exists e.
      * rewrite JMap.get_set_ne by done. intros Hk. destruct (H2 k i Hk) as (x & Hx & Ek). exists x. auto.
    + intros t i Ht. apply lookup_snoc_cases in Ht as [Ht|[-> [= ->]]]; [|by exists e].
      destruct (H3 t i Ht) as (x & Hx & Hr). exists x. auto.
    + intros i x t Hi Ex. apply lookup_snoc_cases in Hi as [Hi|[-> ->]].
      * destruct (H4 i x t Hi Ex) as [Et|Et]; [left|right]; by apply lookup_app_l_Some.
      * injection Ex as <-. right. by apply list_lookup_middle.
    + intros i at_ Hi. destruct (H6 i at_ Hi) as (N & x & Hx & Hr). split; [done|]. exists x. auto.
    + intros i x Hi Ex. apply lookup_snoc_cases in Hi as [Hi|[-> ->]]; [by eapply H7|done].
    + intros i x Hi. apply lookup_snoc_cases in Hi as [Hi|[-> ->]]; [by eapply H9|by left].
  - intros i k. cbn. destruct (String.eqb_spec (meta_key meta) k) as [<-|N].
    + rewrite JMap.get_set_eq. intros [= <-]. left. exists (length (rq_timers q)). by apply list_lookup_middle.
    + rewrite JMap.get_set_ne by done. intros Hk. destruct (Hs i k Hk) as [[t Ht]|?]; [left; exists t|by right].
      by apply lookup_app_l_Some.
Qed.

Lemma ok_drop key q : queue_ok q → queue_ok (drop_key key q).
Proof. intros [Hq Hs]. split; [by apply inv_drop|]. intros i. by apply (served_drop None). Qed.

Lemma attempt_entries o q : rq_entries (attempt opts o q) = rq_entries q.
Proof.
  unfold attempt. destruct (rq_objects q !! o) as [e|]; [|done]. destruct (_ || _); [done|]. by destruct (ro_verify opts).
Qed.

(** The stale handle of an entry that is not armed is forgotten. *)
Lemma inv_untime o e q : queue_inv None q → rq_objects q !! o = Some e → pr_attempting e = false →
  (∀ t, rq_timers q !! t ≠ Some (Some o)) → queue_inv None (put_object o (e<|pr_timer := None|>) q).
Proof.
  intros Hq1 He Ea Hno. set (e' := e<|pr_timer := None|>).
  destruct Hq1 as [H1 H2 H3 H4 H5 H6 H7 H8 H9]. constructor; cbn; try done.
  - intros j i Hj. destruct (H2 j i Hj) as (x & Hx & E). destruct (decide (i = o)) as [->|N].
    + exists e'. split; [by eapply lookup_insert_is|]. assert (x = e) as -> by (congruence). done.
    + exists x. by rewrite list_lookup_insert_ne.
  - intros t' i Ht. assert (i ≠ o) by (intros ->; by apply (Hno t')). rewrite list_lookup_insert_ne by done. by apply H3.
  - intros i x t' Hi Ex. apply lookup_insert_cases in Hi as [[-> ->]|[N Hi]]; [done|by eapply H4].
  - intros i at_ Hi. destruct (H6 i at_ Hi) as (N & x & Hx & E & ?). assert (i ≠ o) by congruence.
    split; [done|]. exists x. by rewrite list_lookup_insert_ne.
  - intros i x Hi Ex. apply lookup_insert_cases in Hi as [[-> ->]|[N Hi]]; [cbn in Ex; congruence|by eapply H7].
  - intros i x Hi. apply lookup_insert_cases in Hi as [[-> ->]|[N Hi]]; [exact (H9 o e He)|by eapply H9].
Qed.

Lemma ok_wake_one o k q : queue_ok q → JMap.get (rq_entries q) k = Some o →
  queue_ok (wake_one opts o q) ∧ rq_entries (wake_one opts o q) = rq_entries q.
Proof.
  intros [Hq Hs] Hk. unfold wake_one. destruct (qi_entry _ q Hq k o Hk) as (e & He & Ek). rewrite He.
  destruct (pr_attempting e) eqn:Ea; [by split|].
  destruct (Hs o k Hk) as [[t Ht]|(ph & Hph & _)].
  2:{ destruct (qi_running _ q Hq o ph Hph) as (_ & x & Hx & Ex & _). congruence. }
  destruct (qi_timer _ q Hq t o Ht) as (x & Hx & Et & _ & Hc). assert (x = e) as -> by congruence.
  pose proof (inv_clear None o e q Hq He) as Hq1. rewrite Et in *. cbn in Hq1 |- *.
  set (q1 := q<|rq_timers := <[t := None]> (rq_timers q)|>) in *.
  assert (Hno : ∀ t', rq_timers q1 !! t' ≠ Some (Some o)).
  { intros t' Ht'. cbn in Ht'. apply lookup_insert_cases in Ht' as [[_ ?]|[N Ht']]; [done|].
    destruct (qi_timer _ q Hq t' o Ht') as (y & Hy & Ey & _). congruence. }
  assert (Hs1 : served_but o q1).
  { intros i N. pose proof (served_clear None o e q i Hq He N (Hs i)) as H. by rewrite Et in H. }
  set (e' := e<|pr_timer := None|>). assert (He' : rq_objects (put_object o e' q1) !! o = Some e') by (cbn; by eapply lookup_insert_is).
  split; [|by rewrite attempt_entries].
  apply (ok_attempt o e'); try done.
  by apply inv_untime.
Qed.

Lemma values_get q o : queue_inv None q → o ∈ JMap.values (rq_entries q) → ∃ k, JMap.get (rq_entries q) k = Some o.
Proof.
  intros Hq Ho. unfold JMap.values in Ho. apply elem_of_map in Ho as ([k x] & -> & Hin). exists k.
  apply JMap.elem_get; [apply (qi_keys _ q Hq)|done].
Qed.

Lemma ok_wake_fold l q0 q : queue_ok q → rq_entries q = rq_entries q0 → (∀ o, o ∈ l → ∃ k, JMap.get (rq_entries q0) k = Some o) →
  queue_ok (foldl (λ q' o, wake_one opts o q') q l) ∧ rq_entries (foldl (λ q' o, wake_one opts o q') q l) = rq_entries q0.
Proof.
  revert q. induction l as [|o l IH]; intros q Hq E Hl; [by split|]. cbn. destruct (Hl o) as [k Hk]; [apply list_elem_of_here|].
  rewrite <- E in Hk. destruct (ok_wake_one o k q Hq Hk) as [H1 H2]. apply IH; [done|congruence|].
  intros i Hi. apply Hl. by apply list_elem_of_further.
Qed.

Lemma ok_use q q' : queue_ok q → retry_use opts q q' → queue_ok q'.
Proof.
  intros Hq Hu. destruct Hu as [meta raw q|meta q|key q|ticketId q|q].
  - by apply ok_register.
  - by apply ok_drop.
  - by apply ok_drop.
  - unfold cancelByTicket. generalize (rq_entries q) as l. intros l. revert q Hq.
    induction l as [|x l IH]; intros q Hq; [done|]. cbn. apply IH. destruct (of_ticket q ticketId x); [by apply ok_drop|done].
  - refine (proj1 (ok_wake_fold _ q q Hq eq_refl _)). intros o. apply values_get, Hq.
Qed.

Lemma ok_new : queue_ok new_retry_queue.
Proof.
  split; [|done]. constructor; cbn; try done; try (intros; by rewrite lookup_nil in *); try by constructor.
  intros o at_ H. by apply elem_of_nil in H.
Qed.

Lemma ok_reachable q : retry_reachable opts q → queue_ok q.
Proof.
  apply (rtc_ind_r queue_ok); [apply ok_new|]. intros q1 q2 _ [Hu|Hj] Hq; [by eapply ok_use|by eapply ok_job].
Qed.

(** ** Replays are counted *)

Definition is_retry o (c : RetryCall) : bool := match c with call_retry i _ => Nat.eqb i o | _ => false end.
Definition replays_of o (l : list RetryCall) : Z := Z.of_nat (length (lfilter (is_retry o) l)).

(** An entry's counter is the number of its replays. *)
Definition ledger q : Prop := ∀ o, replays_of o (rq_calls q) =
  match rq_objects q !! o with Some e => pr_attempts e | None => 0 end.

Lemma replays_of_snoc o l c : replays_of o (l ++ [c]) = replays_of o l + (if is_retry o c then 1 else 0).
Proof. unfold replays_of. rewrite lfilter_app, length_app, lfilter_cons. destruct (is_retry o c); cbn; lia. Qed.

Lemma ledger_same q q' : rq_calls q' = rq_calls q → rq_objects q' = rq_objects q → ledger q → ledger q'.
Proof. intros E1 E2 H o. by rewrite E1, E2. Qed.

Lemma ledger_put o e e' q : rq_objects q !! o = Some e → pr_attempts e' = pr_attempts e → ledger q → ledger (put_object o e' q).
Proof.
  intros He Ea H i. refine (eq_trans (H i) _). cbn. destruct (decide (i = o)) as [->|N].
  - by rewrite (lookup_insert_is _ _ _ e), He.
  - by rewrite list_lookup_insert_ne.
Qed.

Lemma ledger_suspend o at_ c q : (∀ i, is_retry i c = false) → ledger q → ledger (suspend o at_ c q).
Proof. intros Hc H i. cbn. by rewrite replays_of_snoc, Hc, Z.add_0_r. Qed.

Lemma ledger_begin_replay o e e0 q : rq_objects q !! o = Some e0 → pr_attempts e = pr_attempts e0 → ledger q → ledger (begin_replay o e q).
Proof.
  intros He Ea H i. cbn. rewrite replays_of_snoc, (H i). cbn. destruct (Nat.eqb_spec o i) as [<-|N].
  - rewrite (lookup_insert_is _ _ _ e0), He by done. cbn. by rewrite Ea.
  - rewrite list_lookup_insert_ne by done. lia.
Qed.

Lemma ledger_attempt o q : ledger q → ledger (attempt opts o q).
Proof.
  intros H. unfold attempt. destruct (rq_objects q !! o) as [e|] eqn:He; [|done]. destruct (_ || _); [done|].
  set (e' := e<|pr_attempting := true|><|pr_timer := None|>).
  assert (Hp : ledger (put_object o e' q)) by (by apply (ledger_put o e)).
  destruct (ro_verify opts); [by apply ledger_suspend|]. apply (ledger_begin_replay o e' e'); [|done|done].
  cbn. by eapply lookup_insert_is.
Qed.

Lemma ledger_over o q : ledger q → ledger (attempt_over o q).
Proof. intros H. unfold attempt_over. destruct (rq_objects q !! o) as [e|] eqn:He; [|done]. by apply (ledger_put o e). Qed.

Lemma ledger_drop key q : ledger q → ledger (drop_key key q).
Proof. destruct (drop_key_objects key q) as (E1 & _ & E2). by apply ledger_same. Qed.

Lemma ledger_verified o eligible q : ledger q → ledger (verified o eligible q).
Proof.
  intros H. unfold verified. destruct (rq_objects q !! o) as [e|] eqn:He; [|done].
  destruct (negb _); [by apply ledger_over|]. destruct (negb eligible); [by apply ledger_over, ledger_drop|].
  by apply (ledger_begin_replay o e e).
Qed.

Lemma ledger_replayed o q : ledger q → ledger (replayed opts o q).
Proof.
  intros H. unfold replayed. destruct (rq_objects q !! o) as [e|] eqn:He; [|done].
  destruct (negb _); [by apply ledger_over|]. destruct (_ <=? _); [by apply ledger_suspend|].
  apply ledger_over. unfold arm. apply (ledger_put o e); cbn; [by destruct (pr_timer e)|done|].
  apply (ledger_same q); [by destruct (pr_timer e)|by destruct (pr_timer e)|done].
Qed.

Lemma ledger_job q q' : ledger q → retry_job opts q q' → ledger q'.
Proof.
  intros H Hj. destruct Hj as [t o q _|o eligible l1 l2 q _|o l1 l2 q _|o l1 l2 q _].
  - by apply ledger_attempt.
  - by apply ledger_verified.
  - by apply ledger_replayed.
  - by apply ledger_over.
Qed.

Lemma ledger_use q q' : queue_ok q → ledger q → retry_use opts q q' → ledger q'.
Proof.
  intros _ H Hu. destruct Hu as [meta raw q|meta q|key q|ticketId q|q].
  - destruct (JMap.get (rq_entries q) (meta_key meta)) as [o|] eqn:E.
    + unfold register. rewrite E. destruct (rq_objects q !! o) as [e|] eqn:He; [|done]. by apply (ledger_put o e).
    + rewrite register_new_eq by done. intros o. cbn. rewrite (H o). destruct (rq_objects q !! o) as [e|] eqn:He.
      * by rewrite (lookup_app_l_Some _ _ _ _ He).
      * destruct ((rq_objects q ++ _) !! o) as [e|] eqn:Hn; [|done].
        apply lookup_snoc_cases in Hn as [?|[_ ->]]; [congruence|done].
  - by apply ledger_drop.
  - by apply ledger_drop.
  - unfold cancelByTicket. generalize (rq_entries q) as l. intros l. revert q H.
    induction l as [|x l IH]; intros q H; [done|]. cbn. apply IH. destruct (of_ticket q ticketId x); [by apply ledger_drop|done].
  - unfold wake. generalize (JMap.values (rq_entries q)) as l. intros l. revert q H.
    induction l as [|o l IH]; intros q H; [done|]. cbn. apply IH. unfold wake_one.
    destruct (rq_objects q !! o) as [e|] eqn:He; [|done]. destruct (pr_attempting e); [done|]. apply ledger_attempt.
    apply (ledger_put o e); [by destruct (pr_timer e)|done|]. apply (ledger_same q); [by destruct (pr_timer e)|by destruct (pr_timer e)|done].
Qed.

Lemma ledger_reachable q : retry_reachable opts q → ledger q.
Proof.
  intros Hr. enough (queue_ok q ∧ ledger q) as [_ ?] by done. revert q Hr.
  apply (rtc_ind_r (λ q, queue_ok q ∧ ledger q)); [split; [apply ok_new|by intros o]|].
  intros q1 q2 _ [Hu|Hj] [Hq Hl]; split.
  - by eapply ok_use.
  - by eapply ledger_use.
  - by eapply ok_job.
  - by eapply ledger_job.
Qed.

(** ** Left alone, the queue empties *)

Definition tries_left q o : nat :=
  match rq_objects q !! o with Some e => Z.to_nat (ro_maxAttempts opts - pr_attempts e) | None => 0%nat end.

(** What a live timer, and a suspended attempt, may still cause. *)
Definition timer_work q (x : option nat) : nat :=
  match x with Some o => (4 * tries_left q o + 4)%nat | None => 0%nat end.
Definition attempt_work q (x : nat * AttemptAt) : nat :=
  match x.2 with
  | at_verify => (4 * tries_left q x.1 + 3)%nat
  | at_replay => match tries_left q x.1 with O => 2%nat | n => (4 * n + 5)%nat end
  | at_give_up => 1%nat
  end.
Definition work q : nat := (sum_list_with (timer_work q) (rq_timers q) + sum_list_with (attempt_work q) (rq_running q))%nat.

Lemma sum_ext {A} (f g : A → nat) l : (∀ x, x ∈ l → f x = g x) → sum_list_with f l = sum_list_with g l.
Proof.
  induction l as [|x l IH]; intros H; [done|]. cbn. rewrite (H x (list_elem_of_here _ _)), IH; [done|].
  intros y Hy. apply H. by apply list_elem_of_further.
Qed.

Lemma sum_insert {A} (f : A → nat) l i x y : l !! i = Some x → (sum_list_with f (<[i := y]> l) + f x = sum_list_with f l + f y)%nat.
Proof.
  revert i. induction l as [|z l IH]; intros [|i] H; [done|done| |].
  - injection H as ->. change (<[0%nat := y]> (x :: l)) with (y :: l). cbn [sum_list_with]. lia.
  - change (<[Datatypes.S i := y]> (z :: l)) with (z :: <[i := y]> l). cbn [sum_list_with]. specialize (IH i H). lia.
Qed.

Lemma sum_without {A} (f : A → nat) l1 x l2 : sum_list_with f (l1 ++ x :: l2) = (f x + sum_list_with f (l1 ++ l2))%nat.
Proof. rewrite !sum_list_with_app. cbn. lia. Qed.

(** Only [o]'s counter changed, and it is neither armed nor suspended. *)
Lemma work_others o q q' :
  (∀ i, i ≠ o → tries_left q' i = tries_left q i) → (∀ t, rq_timers q' !! t ≠ Some (Some o)) → o ∉ (rq_running q').*1 →
  work q' = (sum_list_with (timer_work q) (rq_timers q') + sum_list_with (attempt_work q) (rq_running q'))%nat.
Proof.
  intros Ht Hno Hnr. unfold work. f_equal; apply sum_ext.
  - intros [i|] Hi; [|done]. cbn. rewrite Ht; [done|]. intros ->. apply list_elem_of_lookup in Hi as [t Hi]. by apply (Hno t).
  - intros [i at_] Hi. unfold attempt_work. cbn. rewrite Ht; [done|]. intros ->. apply Hnr. by apply (list_elem_of_fmap_2 fst) in Hi.
Qed.

Lemma work_same_objects q q' : rq_objects q' = rq_objects q →
  work q' = (sum_list_with (timer_work q) (rq_timers q') + sum_list_with (attempt_work q) (rq_running q'))%nat.
Proof. intros E. unfold work, timer_work, attempt_work, tries_left. by rewrite E. Qed.

(** A live timer leaves the sum with its work. *)
Lemma work_timer_off q t o : rq_timers q !! t = Some (Some o) →
  work q = (work (q<|rq_timers := <[t := None]> (rq_timers q)|>) + (4 * tries_left q o + 4))%nat.
Proof.
  intros H. rewrite (work_same_objects q (q<|rq_timers := _|>)) by done. unfold work.
  pose proof (sum_insert (timer_work q) (rq_timers q) t (Some o) None H) as E. cbn in E |- *. lia.
Qed.

(** And so does an attempt that goes on. *)
Lemma work_running_off q o at_ l1 l2 : rq_running q = l1 ++ (o, at_) :: l2 →
  work q = (work (q<|rq_running := l1 ++ l2|>) + attempt_work q (o, at_))%nat.
Proof.
  intros H. rewrite (work_same_objects q (q<|rq_running := _|>)) by done. unfold work. rewrite H, sum_without. cbn. lia.
Qed.

Lemma tries_put o e e' q i : rq_objects q !! o = Some e → pr_attempts e' = pr_attempts e →
  tries_left (put_object o e' q) i = tries_left q i.
Proof.
  intros He Ea. unfold tries_left. cbn. destruct (decide (i = o)) as [->|N].
  - by rewrite (lookup_insert_is _ _ _ e), He, Ea.
  - by rewrite list_lookup_insert_ne.
Qed.

Lemma work_ext q q' : rq_timers q' = rq_timers q → rq_running q' = rq_running q → (∀ i, tries_left q' i = tries_left q i) → work q' = work q.
Proof.
  intros E1 E2 Ht. unfold work. rewrite E1, E2. f_equal; apply sum_ext; intros x _.
  - destruct x as [i|]; [|done]. cbn. by rewrite Ht.
  - unfold attempt_work. by rewrite Ht.
Qed.

Lemma work_put o e e' q : rq_objects q !! o = Some e → pr_attempts e' = pr_attempts e → work (put_object o e' q) = work q.
Proof. intros He Ea. apply work_ext; [done|done|]. intros i. by apply (tries_put o e). Qed.

Lemma work_over o q : work (attempt_over o q) = work q.
Proof. unfold attempt_over. destruct (rq_objects q !! o) as [e|] eqn:He; [|done]. by apply (work_put o e). Qed.

Lemma work_suspend o at_ c q : work (suspend o at_ c q) = (work q + attempt_work q (o, at_))%nat.
Proof.
  rewrite (work_same_objects q (suspend o at_ c q)) by done. unfold work. cbn. rewrite sum_list_with_app. cbn. lia.
Qed.

Lemma work_drop key q : queue_inv None q ∨ (∃ o, queue_inv (Some o) q) → (work (drop_key key q) ≤ work q)%nat.
Proof.
  intros Hq. assert (Hi : ∃ h, queue_inv h q) by (by destruct Hq as [?|[o ?]]; eexists). destruct Hi as [h Hi].
  unfold drop_key. destruct (JMap.get (rq_entries q) key) as [o|]; [|done].
  destruct (rq_objects q !! o) as [e|] eqn:He; [|done].
  rewrite (work_ext (clear_timer (pr_timer e) q)) by done.
  destruct (pr_timer e) as [t|] eqn:Et; [|done].
  change (clear_timer (Some t) q) with (q<|rq_timers := <[t := None]> (rq_timers q)|>).
  destruct (qi_handle h q Hi o e t He Et) as [Ht|Ht].
  - rewrite (work_same_objects q) by done. cbn. by rewrite list_insert_id.
  - rewrite (work_timer_off q t o Ht). lia.
Qed.

(** The replay of a waiting entry. *)
Lemma work_begin_replay o e q : queue_inv (Some o) q → rq_objects q !! o = Some e → 0 ≤ pr_attempts e →
  (work (begin_replay o e q) < work q + (4 * tries_left q o + 3))%nat.
Proof.
  intros Hq He Ha. unfold begin_replay. rewrite work_suspend.
  set (q1 := put_object o (e<|pr_attempts := pr_attempts e + 1|>) q).
  assert (Hn : tries_left q1 o = (tries_left q o - 1)%nat).
  { unfold tries_left, q1. cbn. rewrite (lookup_insert_is _ _ _ e), He by done. cbn. lia. }
  assert (Ew : work q1 = work q).
  { rewrite (work_others o q q1); [done| | |].
    - intros i N. unfold tries_left, q1. cbn. by rewrite list_lookup_insert_ne.
    - intros t Ht. destruct (qi_timer _ q Hq t o Ht) as (x & Hx & _ & Ex & _). destruct (qi_hand _ q Hq o eq_refl) as (y & Hy & Ey & _). congruence.
    - intros Hin. apply list_elem_of_fmap in Hin as ([i at_] & -> & Hi). by destruct (qi_running _ q Hq i at_ Hi) as [[] _]. }
  rewrite Ew. unfold attempt_work. cbn. rewrite Hn. destruct (tries_left q o) as [|n]; cbn; [lia|]. rewrite Nat.sub_0_r.
  destruct n; lia.
Qed.

Lemma work_verified o e eligible q : queue_inv (Some o) q → rq_objects q !! o = Some e → 0 ≤ pr_attempts e →
  (work (verified o eligible q) < work q + (4 * tries_left q o + 3))%nat.
Proof.
  intros Hq He Ha. unfold verified. rewrite He. destruct (negb _); [rewrite work_over; lia|].
  destruct (negb eligible); [|by apply work_begin_replay]. rewrite work_over.
  pose proof (work_drop (pr_key e) q) as Hd. unfold cancel. specialize (Hd (or_intror (ex_intro _ o Hq))). lia.
Qed.

Lemma work_replayed o e q : queue_inv (Some o) q → rq_objects q !! o = Some e →
  (work (replayed opts o q) < work q + attempt_work q (o, at_replay))%nat.
Proof.
  intros Hq He. destruct (qi_hand _ q Hq o eq_refl) as (x & Hx & _ & Et). assert (x = e) as -> by congruence.
  assert (H2 : (2 ≤ attempt_work q (o, at_replay))%nat) by (unfold attempt_work; cbn; destruct (tries_left q o); lia).
  unfold replayed. rewrite He. destruct (negb _); [rewrite work_over; lia|]. destruct (Z.leb_spec (ro_maxAttempts opts) (pr_attempts e)).
  - rewrite work_suspend, (work_ext q (q<|rq_entries := _|>)) by done. change (attempt_work _ (o, at_give_up)) with 1%nat. lia.
  - rewrite (arm_over_eq o _ e) by done. rewrite (work_put o e) by done.
    assert (Hn : (1 ≤ tries_left q o)%nat) by (unfold tries_left; rewrite He; lia).
    assert (Hr : attempt_work q (o, at_replay) = (4 * tries_left q o + 5)%nat) by (unfold attempt_work; cbn; destruct (tries_left q o); lia).
    rewrite Hr, (work_same_objects q (set_timer o q)) by done. cbn. rewrite sum_list_with_app. unfold work. cbn. lia.
Qed.

Lemma work_attempt o e q : queue_inv None q → rq_objects q !! o = Some e → 0 ≤ pr_attempts e →
  (∀ t, rq_timers q !! t ≠ Some (Some o)) → (work (attempt opts o q) < work q + (4 * tries_left q o + 4))%nat.
Proof.
  intros Hq He Ha Hno. unfold attempt. rewrite He. destruct (_ || _) eqn:E; [lia|]. apply orb_false_iff in E as [_ Ea].
  set (e' := e<|pr_attempting := true|><|pr_timer := None|>).
  assert (Hw : work (put_object o e' q) = work q) by (by apply (work_put o e)).
  assert (Ht : tries_left (put_object o e' q) o = tries_left q o) by (by apply (tries_put o e)).
  destruct (ro_verify opts).
  - rewrite work_suspend, Hw. unfold attempt_work. cbn [fst snd]. rewrite Ht. lia.
  - pose proof (work_begin_replay o e' (put_object o e' q)) as H. rewrite Hw, Ht in H.
    assert (Hg : queue_inv (Some o) (put_object o e' q)) by (by apply inv_grab).
    specialize (H Hg). cbn in H. rewrite (lookup_insert_is _ _ _ e) in H by done. specialize (H eq_refl Ha). cbn in H |- *. lia.
Qed.

Lemma tries_same q q' o : rq_objects q' = rq_objects q → tries_left q o = tries_left q' o.
Proof. intros E. unfold tries_left. by rewrite E. Qed.

Lemma attempt_work_same q q' x : rq_objects q' = rq_objects q → attempt_work q x = attempt_work q' x.
Proof. intros E. unfold attempt_work. by rewrite (tries_same q q'). Qed.

Lemma work_job q q' : queue_ok q → retry_job opts q q' → (work q' < work q)%nat.
Proof.
  intros [Hq _] Hj. destruct Hj as [t o q Ht|o eligible l1 l2 q E|o l1 l2 q E|o l1 l2 q E].
  - destruct (qi_timer _ q Hq t o Ht) as (e & He & Et & Ea & Hc).
    pose proof (inv_clear None o e q Hq He) as Hq1. rewrite Et in Hq1. cbn in Hq1. rewrite (work_timer_off q t o Ht).
    rewrite (tries_same q (q<|rq_timers := <[t := None]> (rq_timers q)|>)) by done.
    apply (work_attempt o e); [exact Hq1|done|apply Hc|]. intros t' Ht'. cbn in Ht'.
    apply lookup_insert_cases in Ht' as [[_ ?]|[N Ht']]; [done|]. destruct (qi_timer _ q Hq t' o Ht') as (x & Hx & Ex & _). congruence.
  - destruct (inv_take o _ l1 l2 q Hq E) as (Hq1 & e & He & _ & _ & Hc). rewrite (work_running_off q o _ l1 l2 E).
    rewrite (attempt_work_same q (q<|rq_running := l1 ++ l2|>)) by done. exact (work_verified o e eligible _ Hq1 He (proj1 Hc)).
  - destruct (inv_take o _ l1 l2 q Hq E) as (Hq1 & e & He & _ & _ & Hc). rewrite (work_running_off q o _ l1 l2 E).
    rewrite (attempt_work_same q (q<|rq_running := l1 ++ l2|>)) by done. exact (work_replayed o e _ Hq1 He).
  - rewrite work_over, (work_running_off q o _ l1 l2 E). cbn. lia.
Qed.

(** ** What it promises *)

(** C23: Retries are bounded and spaced: an entry is replayed exactly as often as it counts,
    never more than [maxAttempts] times (once where that is less); while it waits for
    its next attempt the delay is the base delay doubled per attempt made, up to the
    maximum; and when its owner is told to give up, every attempt was used. *)
Theorem retries_are_bounded q o e : retry_reachable opts q → rq_objects q !! o = Some e →
  replays_of o (rq_calls q) = pr_attempts e ∧ pr_attempts e ≤ Z.max 1 (ro_maxAttempts opts) ∧
  (∀ t, rq_timers q !! t = Some (Some o) → pr_timer e = Some t ∧ pr_delayMs e = delay_after (pr_attempts e)) ∧
  ((o, at_give_up) ∈ rq_running q → pr_attempts e = Z.max 1 (ro_maxAttempts opts)).
Proof.
  intros Hr He. destruct (ok_reachable q Hr) as [Hq _]. split_and!.
  - by rewrite (ledger_reachable q Hr o), He.
  - destruct (qi_count _ q Hq o e He) as [(? & ? & _)|(? & ? & _)]; lia.
  - intros t Ht. destruct (qi_timer _ q Hq t o Ht) as (x & Hx & Et & _ & _ & _ & Ed). assert (x = e) as -> by congruence. done.
  - intros Hg. destruct (qi_running _ q Hq o _ Hg) as (_ & x & Hx & _ & _ & (? & ? & _) & ?). assert (x = e) as -> by congruence. lia.
Qed.

(** ** Left alone *)

(** How an entry leaves the map while nobody calls the queue: its replay returned, its
    attempts are used up, and the owner is told to give up on it; or [verify] found
    that its ticket has left the flow. *)
Inductive leaves (k : string) o q q' : Prop :=
  | leaves_given_up e : rq_objects q !! o = Some e → pr_key e = k → pr_attempts e = Z.max 1 (ro_maxAttempts opts) →
      (o, at_replay) ∈ rq_running q → rq_calls q' = rq_calls q ++ [call_give_up o] → leaves k o q q'
  | leaves_ineligible e l1 l2 : rq_objects q !! o = Some e → pr_key e = k → rq_running q = l1 ++ (o, at_verify) :: l2 →
      q' = verified o false (q<|rq_running := l1 ++ l2|>) → leaves k o q q'.

(** What a job leaves of the mapping of a key. *)
Definition kept_or_left (k : string) i q q' : Prop :=
  JMap.get (rq_entries q') k = Some i ∨ (JMap.get (rq_entries q') k = None ∧ ∃ o, leaves k o q q').

Lemma entries_over o q : rq_entries (attempt_over o q) = rq_entries q.
Proof. apply attempt_over_same. Qed.

Lemma verified_at o e eligible q : rq_objects q !! o = Some e → verified o eligible q =
  if negb (JMap.has (rq_entries q) (pr_key e)) then attempt_over o q
  else if negb eligible then attempt_over o (cancel (pr_key e) q) else begin_replay o e q.
Proof. intros He. unfold verified. by rewrite He. Qed.

Lemma replayed_at o e q : rq_objects q !! o = Some e → replayed opts o q =
  if negb (JMap.has (rq_entries q) (pr_key e)) then attempt_over o q
  else if ro_maxAttempts opts <=? pr_attempts e
  then suspend o at_give_up (call_give_up o) (q<|rq_entries := JMap.delete (rq_entries q) (pr_key e)|>)
  else attempt_over o (arm o (e<|pr_delayMs := Z.min (pr_delayMs e * 2) (ro_maxDelayMs opts)|>) q).
Proof. intros He. unfold replayed. by rewrite He. Qed.

Lemma verified_leaves k i o e eligible l1 l2 q : rq_running q = l1 ++ (o, at_verify) :: l2 → rq_objects q !! o = Some e →
  JMap.get (rq_entries q) k = Some i → kept_or_left k i q (verified o eligible (q<|rq_running := l1 ++ l2|>)).
Proof.
  intros E He Hk. destruct eligible.
  { left. rewrite (verified_at o e) by done. destruct (negb _); [by rewrite entries_over|exact Hk]. }
  destruct (decide (pr_key e = k)) as [Ek|N].
  - right. split; [|exists o; by eapply leaves_ineligible]. rewrite (verified_at o e) by done.
    assert (Eh : JMap.has (rq_entries (q<|rq_running := l1 ++ l2|>)) (pr_key e) = true) by (apply has_true; rewrite Ek; by exists i).
    rewrite Eh. cbn [negb]. rewrite entries_over, <- Ek. apply drop_key_free.
  - left. rewrite (verified_at o e) by done. destruct (negb _); [by rewrite entries_over|]. cbn [negb].
    rewrite entries_over. unfold cancel. destruct (drop_key_entries (pr_key e) (q<|rq_running := l1 ++ l2|>)) as [Hd|[Hd _]];
      rewrite Hd; [by rewrite JMap.get_delete_ne|done].
Qed.

Lemma replayed_leaves k i o e l1 l2 q : queue_ok q → rq_running q = l1 ++ (o, at_replay) :: l2 → rq_objects q !! o = Some e →
  count_replayed e → JMap.get (rq_entries q) k = Some i → kept_or_left k i q (replayed opts o (q<|rq_running := l1 ++ l2|>)).
Proof.
  intros Hok E He (Hc1 & Hc2 & _) Hk. unfold kept_or_left. rewrite (replayed_at o e) by done.
  destruct (negb _); [left; by rewrite entries_over|]. destruct (Z.leb_spec (ro_maxAttempts opts) (pr_attempts e)) as [Hm|Hm].
  - set (q' := suspend _ _ _ _). assert (Ee : rq_entries q' = JMap.delete (rq_entries q) (pr_key e)) by done. rewrite Ee.
    destruct (decide (pr_key e = k)) as [Ek|N]; [|left; by rewrite JMap.get_delete_ne].
    right. rewrite Ek, JMap.get_delete_eq. split; [done|]. exists o. apply (leaves_given_up _ _ _ _ e); try done; [lia|].
    rewrite E. apply elem_of_app. right. apply list_elem_of_here.
  - left. rewrite entries_over. unfold arm. cbn. by destruct (pr_timer e).
Qed.

Lemma job_leaves k i q q' : queue_ok q → retry_job opts q q' → JMap.get (rq_entries q) k = Some i → kept_or_left k i q q'.
Proof.
  intros Hok Hj Hk. destruct Hj as [t o q Ht|o eligible l1 l2 q E|o l1 l2 q E|o l1 l2 q E].
  - left. by rewrite attempt_entries.
  - destruct (inv_take o _ l1 l2 q (proj1 Hok) E) as (_ & e & He & _). by apply (verified_leaves k i o e).
  - destruct (inv_take o _ l1 l2 q (proj1 Hok) E) as (_ & e & He & _ & _ & Hc). by apply (replayed_leaves k i o e).
  - left. by rewrite entries_over.
Qed.

Lemma jobs_ok q q' : queue_ok q → rtc (retry_job opts) q q' → queue_ok q'.
Proof. intros Hok H. induction H as [x|x y z Hj _ IH]; [done|]. apply IH. by eapply ok_job. Qed.

(** A trigger that is not queued any more left by one of the jobs. *)
Lemma jobs_leave k i q q' : queue_ok q → rtc (retry_job opts) q q' → JMap.get (rq_entries q) k = Some i →
  JMap.get (rq_entries q') k = None → ∃ q1 q2 o, rtc (retry_job opts) q q1 ∧ JMap.get (rq_entries q1) k = Some i ∧
    retry_job opts q1 q2 ∧ leaves k o q1 q2 ∧ rtc (retry_job opts) q2 q'.
Proof.
  intros Hok H. revert Hok. induction H as [x|x y z Hj Hr IH]; intros Hok Hk Hn; [congruence|].
  destruct (job_leaves k i x y Hok Hj Hk) as [Hy|(Hy & o & Hl)].
  - destruct (IH (ok_job _ _ Hok Hj) Hy Hn) as (q1 & q2 & o & H1 & H2 & H3). exists q1, q2, o. split; [|done]. by eapply rtc_l.
  - exists x, y, o. split; [apply rtc_refl|done].
Qed.

Lemma job_next q : queue_ok q → rq_entries q ≠ [] → ∃ q', retry_job opts q q'.
Proof.
  intros [Hq Hs] Hne. destruct (rq_entries q) as [|[k o] l] eqn:E; [done|].
  assert (Hk : JMap.get (rq_entries q) k = Some o) by (rewrite E, JMap.get_cons, String.eqb_refl; done).
  destruct (Hs o k Hk) as [[t Ht]|([| |] & Hph & N)]; [eexists; by eapply job_timer| | |done];
    apply list_elem_of_split in Hph as (l1 & l2 & El); eexists; [by eapply (job_verified _ o true)|by eapply job_replayed].
Qed.

Lemma jobs_bounded n q q' : queue_ok q → nsteps (retry_job opts) n q q' → (n ≤ work q)%nat.
Proof.
  revert q. induction n as [|n IH]; intros q Hok H; [lia|]. inversion H as [|m x y z Hj Hn]; subst.
  pose proof (IH y (ok_job _ _ Hok Hj) Hn). pose proof (work_job q y Hok Hj). lia.
Qed.

Lemma jobs_empty q : queue_ok q → ∃ q', rtc (retry_job opts) q q' ∧ rq_entries q' = [].
Proof.
  remember (work q) as n eqn:En. revert q En. induction n as [n IH] using lt_wf_ind. intros q -> Hok.
  destruct (decide (rq_entries q = [])) as [E|N]; [by exists q|]. destruct (job_next q Hok N) as [q1 Hj].
  destruct (IH _ (work_job q q1 Hok Hj) q1 eq_refl (ok_job _ _ Hok Hj)) as (q' & H & E). exists q'. split; [|done].
  by eapply rtc_l.
Qed.

(** ** One retry per key *)

(** [o] is replayed or about to be. *)
Definition under_way q o : Prop := ∃ at_, (o, at_) ∈ rq_running q ∧ at_ ≠ at_give_up.

(** A new entry is made for a key only when no attempt of an entry that was dropped
    under that key is still under way. *)
Definition tidy_use q q' : Prop := retry_use opts q q' ∧
  ∀ k o, JMap.get (rq_entries q) k = None → JMap.get (rq_entries q') k = Some o →
    ∀ i e, under_way q i → rq_objects q !! i = Some e → pr_key e ≠ k.

Definition tidy_reachable : RetryQueue → Prop := rtc (λ q q', tidy_use q q' ∨ retry_job opts q q') new_retry_queue.

Record tidy q : Prop := {
  td_armed : ∀ t o e, rq_timers q !! t = Some (Some o) → rq_objects q !! o = Some e → JMap.get (rq_entries q) (pr_key e) = Some o;
  td_mapped : ∀ o o' e, under_way q o → rq_objects q !! o = Some e → JMap.get (rq_entries q) (pr_key e) = Some o' → o' = o;
  td_one : ∀ o o' e e', under_way q o → under_way q o' → rq_objects q !! o = Some e → rq_objects q !! o' = Some e' →
    pr_key e = pr_key e' → o = o'
}.

(** Nothing is added, and the keys of the objects stay. *)
Lemma tidy_less q q' : tidy q → rq_entries q' = rq_entries q →
  (∀ t o, rq_timers q' !! t = Some (Some o) → rq_timers q !! t = Some (Some o)) →
  (∀ o, under_way q' o → under_way q o) →
  (∀ o e', rq_objects q' !! o = Some e' → ∃ e, rq_objects q !! o = Some e ∧ pr_key e = pr_key e') → tidy q'.
Proof.
  intros [H1 H2 H3] Ee Ht Hu Ho. constructor.
  - intros t o e' Hl He. destruct (Ho o e' He) as (e & Hx & <-). rewrite Ee. by apply (H1 t o e); [apply Ht|].
  - intros o o' e' Hw He Hg. destruct (Ho o e' He) as (e & Hx & Ek). rewrite Ee, <- Ek in Hg. by apply (H2 o o' e); [apply Hu| |].
  - intros o o' e' f' Hw Hw' He Hf Ek. destruct (Ho o e' He) as (e & Hx & Ex), (Ho o' f' Hf) as (f & Hy & Ey).
    apply (H3 o o' e f); try done; [by apply Hu|by apply Hu|congruence].
Qed.

Lemma put_keys o e e' q : rq_objects q !! o = Some e → pr_key e' = pr_key e →
  ∀ i x', rq_objects (put_object o e' q) !! i = Some x' → ∃ x, rq_objects q !! i = Some x ∧ pr_key x = pr_key x'.
Proof.
  intros He Ek i x' Hi. apply lookup_insert_cases in Hi as [[-> ->]|[N Hi]]; [by exists e|by exists x'].
Qed.

Lemma tidy_put o e e' q : tidy q → rq_objects q !! o = Some e → pr_key e' = pr_key e → tidy (put_object o e' q).
Proof. intros H He Ek. apply (tidy_less q); try done. by apply (put_keys o e). Qed.

Lemma tidy_over o q : tidy q → tidy (attempt_over o q).
Proof. intros H. unfold attempt_over. destruct (rq_objects q !! o) as [e|] eqn:He; [|done]. by apply (tidy_put o e). Qed.

(** An entry that is in the map gets under way. *)
Lemma tidy_suspend o e at_ c q : tidy q → rq_objects q !! o = Some e → JMap.get (rq_entries q) (pr_key e) = Some o → tidy (suspend o at_ c q).
Proof.
  intros [H1 H2 H3] He Hg.
  assert (Hw : ∀ i, under_way (suspend o at_ c q) i → under_way q i ∨ i = o).
  { intros i (ph & Hph & N). cbn in Hph. apply elem_of_app in Hph as [?|Hph]; [left; by exists ph|right].
    apply list_elem_of_singleton in Hph. by injection Hph. }
  constructor; [done| |].
  - intros i j x Hi Hx Hj. destruct (Hw i Hi) as [?| ->]; [by eapply H2|]. cbn in Hx, Hj. congruence.
  - intros i j x y Hi Hj Hx Hy Ek. destruct (Hw i Hi) as [Hi'| ->], (Hw j Hj) as [Hj'| ->]; [by eapply H3| | |done].
    + cbn in Hy. assert (y = e) as -> by congruence. symmetry. apply (H2 i o x); [done|done|]. by rewrite Ek.
    + cbn in Hx. assert (x = e) as -> by congruence. apply (H2 j o y); [done|done|]. by rewrite <- Ek.
Qed.

(** The end of an attempt that only gives up is nothing new. *)
Lemma tidy_suspend_give_up o c q : tidy q → tidy (suspend o at_give_up c q).
Proof.
  intros H. apply (tidy_less q); try done; [|by intros i e' Hi; exists e'].
  intros i (ph & Hph & N). cbn in Hph. apply elem_of_app in Hph as [?|Hph]; [by exists ph|].
  apply list_elem_of_singleton in Hph. injection Hph as -> ->. done.
Qed.

Lemma tidy_arm_over o e e0 q : tidy q → rq_objects q !! o = Some e0 → pr_key e = pr_key e0 → pr_timer e = None →
  JMap.get (rq_entries q) (pr_key e0) = Some o → tidy (attempt_over o (arm o e q)).
Proof.
  intros H He Ek Et Hg. rewrite (arm_over_eq o e e0) by done. apply (tidy_put o e0); [|done|done].
  destruct H as [H1 H2 H3]. constructor; [|done|done]. intros t i x Ht Hx. cbn in Ht.
  apply lookup_snoc_cases in Ht as [Ht|[_ [= ->]]]; [by eapply H1|]. cbn in *. congruence.
Qed.

Lemma tidy_unmap o e q : tidy q → rq_objects q !! o = Some e → (∀ t, rq_timers q !! t ≠ Some (Some o)) →
  (∀ o', JMap.get (rq_entries q) (pr_key e) = Some o' → o' = o) →
  tidy (q<|rq_entries := JMap.delete (rq_entries q) (pr_key e)|>).
Proof.
  intros [H1 H2 H3] He Hno Hg. constructor; [| |done]; cbn.
  - intros t i x Ht Hx. rewrite JMap.get_delete. pose proof (H1 t i x Ht Hx) as Hm.
    destruct (String.eqb_spec (pr_key e) (pr_key x)) as [E|]; [|done]. rewrite <- E in Hm. rewrite (Hg i Hm) in Ht. by destruct (Hno t).
  - intros i j x Hi Hx. rewrite JMap.get_delete. destruct (String.eqb _ _); [done|]. by apply H2.
Qed.

Lemma tidy_drop h key q : queue_inv h q → tidy q → tidy (drop_key key q).
Proof.
  intros Hq H. unfold drop_key. destruct (JMap.get (rq_entries q) key) as [o|] eqn:E; [|done].
  destruct (qi_entry h q Hq key o E) as (e & He & <-). rewrite He.
  assert (Ht : tidy (clear_timer (pr_timer e) q)).
  { destruct (pr_timer e) as [t0|]; [|done]. apply (tidy_less q); try done; [|by intros i x Hi; exists x].
    intros t i Hti. cbn in Hti. by apply lookup_insert_cases in Hti as [[_ ?]|[_ ?]]. }
  assert (Ee : rq_entries (clear_timer (pr_timer e) q) = rq_entries q ∧ rq_objects (clear_timer (pr_timer e) q) = rq_objects q)
    by (by destruct (pr_timer e)).
  destruct Ee as [E1 E2]. apply (tidy_unmap o e); [done|by rewrite E2| |rewrite E1; congruence].
  intros t Hti. destruct (pr_timer e) as [t0|] eqn:Et; cbn in Hti.
  - apply lookup_insert_cases in Hti as [[_ ?]|[N Hti]]; [done|]. destruct (qi_timer h q Hq t o Hti) as (x & Hx & Ex & _). congruence.
  - destruct (qi_timer h q Hq t o Hti) as (x & Hx & Ex & _). congruence.
Qed.

Lemma tidy_attempt o e q : tidy q → rq_objects q !! o = Some e → JMap.get (rq_entries q) (pr_key e) = Some o → tidy (attempt opts o q).
Proof.
  intros H He Hg. unfold attempt. rewrite He. destruct (_ || _); [done|].
  set (e' := e<|pr_attempting := true|><|pr_timer := None|>). assert (Hp : tidy (put_object o e' q)) by (by apply (tidy_put o e)).
  assert (He' : rq_objects (put_object o e' q) !! o = Some e') by (cbn; by eapply lookup_insert_is).
  destruct (ro_verify opts); [by apply (tidy_suspend o e')|]. unfold begin_replay.
  apply (tidy_suspend o (e'<|pr_attempts := pr_attempts e' + 1|>)); [by apply (tidy_put o e')| |done].
  cbn. by apply (lookup_insert_is _ _ _ e').
Qed.

Lemma tidy_taken o at_ l1 l2 q : tidy q → rq_running q = l1 ++ (o, at_) :: l2 → tidy (q<|rq_running := l1 ++ l2|>).
Proof.
  intros H E. apply (tidy_less q); try done; [|by intros i x Hi; exists x]. intros i (ph & Hph & N). exists ph. split; [|done].
  rewrite E. cbn in Hph. apply elem_of_app in Hph as [?|?]; apply elem_of_app; [by left|right; by apply list_elem_of_further].
Qed.

(** An attempt in hand whose key is taken is the one the key stands for. *)
Lemma in_hand_mapped o at_ l1 l2 q e : tidy q → rq_running q = l1 ++ (o, at_) :: l2 → at_ ≠ at_give_up → rq_objects q !! o = Some e →
  ∀ o', JMap.get (rq_entries q) (pr_key e) = Some o' → o' = o.
Proof.
  intros H E N He o' Hg. apply (td_mapped q H o o' e); [|done|done]. exists at_. split; [|done]. rewrite E. apply elem_of_app. right.
  apply list_elem_of_here.
Qed.

Lemma tidy_verified o e eligible q : queue_inv (Some o) q → tidy q → rq_objects q !! o = Some e →
  (∀ o', JMap.get (rq_entries q) (pr_key e) = Some o' → o' = o) → tidy (verified o eligible q).
Proof.
  intros Hq H He Hg. unfold verified. rewrite He. destruct (JMap.has _ _) eqn:Eh; cbn [negb]; [|by apply tidy_over].
  apply has_true in Eh as [o' Ho']. rewrite (Hg o' Ho') in Ho'. destruct (negb eligible).
  - apply tidy_over. by apply (tidy_drop (Some o)).
  - unfold begin_replay. apply (tidy_suspend o (e<|pr_attempts := pr_attempts e + 1|>)); [by apply (tidy_put o e)| |done].
    cbn. by apply (lookup_insert_is _ _ _ e).
Qed.

Lemma tidy_replayed o e q : queue_inv (Some o) q → tidy q → rq_objects q !! o = Some e →
  (∀ o', JMap.get (rq_entries q) (pr_key e) = Some o' → o' = o) → tidy (replayed opts o q).
Proof.
  intros Hq H He Hg. destruct (qi_hand _ q Hq o eq_refl) as (x & Hx & Ea & Et). assert (x = e) as -> by congruence.
  unfold replayed. rewrite He. destruct (JMap.has _ _) eqn:Eh; cbn [negb]; [|by apply tidy_over].
  apply has_true in Eh as [o' Ho']. rewrite (Hg o' Ho') in Ho'. destruct (_ <=? _).
  - apply tidy_suspend_give_up. apply (tidy_unmap o e); [done|done| |done].
    intros t Ht. destruct (qi_timer _ q Hq t o Ht) as (y & Hy & _ & Ey & _). congruence.
  - by apply (tidy_arm_over o _ e).
Qed.

Lemma tidy_job q q' : queue_ok q → tidy q → retry_job opts q q' → tidy q'.
Proof.
  intros [Hq _] H Hj. destruct Hj as [t o q Ht|o eligible l1 l2 q E|o l1 l2 q E|o l1 l2 q E].
  - destruct (qi_timer _ q Hq t o Ht) as (e & He & _). pose proof (td_armed q H t o e Ht He) as Hg.
    apply (tidy_attempt o e); [|done|done]. apply (tidy_less q); try done; [|by intros i x Hi; exists x].
    intros t' i Hti. cbn in Hti. by apply lookup_insert_cases in Hti as [[_ ?]|[_ ?]].
  - destruct (inv_take o _ l1 l2 q Hq E) as (Hq1 & e & He & _). apply (tidy_verified o e); [done|by eapply tidy_taken|done|].
    refine (in_hand_mapped o at_verify l1 l2 q e H E _ He). done.
  - destruct (inv_take o _ l1 l2 q Hq E) as (Hq1 & e & He & _). apply (tidy_replayed o e); [done|by eapply tidy_taken|done|].
    refine (in_hand_mapped o at_replay l1 l2 q e H E _ He). done.
  - apply tidy_over. by eapply tidy_taken.
Qed.

Lemma tidy_wake_one o k q : queue_ok q → tidy q → JMap.get (rq_entries q) k = Some o → tidy (wake_one opts o q).
Proof.
  intros [Hq _] H Hk. unfold wake_one. destruct (qi_entry _ q Hq k o Hk) as (e & He & <-). rewrite He.
  destruct (pr_attempting e); [done|]. set (e' := e<|pr_timer := None|>).
  assert (Ho : rq_objects (clear_timer (pr_timer e) q) = rq_objects q) by (by destruct (pr_timer e)).
  apply (tidy_attempt o e').
  - apply (tidy_put o e); [|by rewrite Ho|done]. apply (tidy_less q); try done.
    + by destruct (pr_timer e).
    + intros t i Hti. destruct (pr_timer e) as [t0|]; [|done]. cbn in Hti. by apply lookup_insert_cases in Hti as [[_ ?]|[_ ?]].
    + by destruct (pr_timer e).
    + rewrite Ho. by intros i x Hi; exists x.
  - cbn. rewrite Ho. by apply (lookup_insert_is _ _ _ e).
  - cbn. by destruct (pr_timer e).
Qed.

Lemma tidy_register meta raw q : queue_ok q → tidy q →
  (JMap.get (rq_entries q) (meta_key meta) = None → ∀ i e, under_way q i → rq_objects q !! i = Some e → pr_key e ≠ meta_key meta) →
  tidy (register opts meta raw q).1.
Proof.
  intros [Hq _] H Hfree. destruct (JMap.get (rq_entries q) (meta_key meta)) as [o|] eqn:E.
  { unfold register. rewrite E. destruct (rq_objects q !! o) as [e|] eqn:He; [|done]. by apply (tidy_put o e). }
  specialize (Hfree eq_refl). rewrite register_new_eq by done. destruct H as [H1 H2 H3].
  assert (Hold : ∀ i x, i ≠ length (rq_objects q) → (rq_objects q ++ [x]) !! i = rq_objects q !! i).
  { intros i x N. destruct (rq_objects q !! i) as [y|] eqn:Ei; [by apply lookup_app_l_Some|].
    apply lookup_ge_None in Ei. apply lookup_ge_None. rewrite length_app. cbn. lia. }
  assert (Hrun : ∀ i, under_way q i → i ≠ length (rq_objects q)).
  { intros i (ph & Hph & _) ->. destruct (qi_running _ q Hq _ ph Hph) as (_ & x & Hx & _). apply lookup_lt_Some in Hx. lia. }
  constructor; cbn.
  - intros t i x Ht Hx. apply lookup_snoc_cases in Ht as [Ht|[_ [= ->]]].
    + destruct (qi_timer _ q Hq t i Ht) as (y & Hy & _). rewrite (lookup_app_l_Some _ _ _ _ Hy) in Hx. injection Hx as ->.
      pose proof (H1 t i x Ht Hy) as Hm. rewrite JMap.get_set_ne; [done|congruence].
    + rewrite list_lookup_middle in Hx by done. injection Hx as <-. apply JMap.get_set_eq.
  - intros i j x Hw Hx. rewrite Hold in Hx by (by apply Hrun). rewrite JMap.get_set_ne by (apply not_eq_sym; by eapply Hfree).
    by apply H2.
  - intros i j x y Hi Hj. rewrite !Hold by (by apply Hrun). by apply H3.
Qed.

Lemma tidy_wake q : queue_ok q → tidy q → tidy (wake opts q).
Proof.
  intros Hq H. unfold wake. assert (Hl : ∀ o, o ∈ JMap.values (rq_entries q) → ∃ k, JMap.get (rq_entries q) k = Some o)
    by (intros o; by apply values_get, Hq).
  revert Hl. generalize (JMap.values (rq_entries q)) as l. intros l Hl.
  assert (Hgen : ∀ q1, queue_ok q1 → tidy q1 → rq_entries q1 = rq_entries q → tidy (foldl (λ q' o, wake_one opts o q') q1 l)); [|by apply Hgen].
  induction l as [|o l IH]; intros q1 Hq1 Ht E; [done|]. cbn. destruct (Hl o) as [k Hk]; [apply list_elem_of_here|].
  rewrite <- E in Hk. destruct (ok_wake_one o k q1 Hq1 Hk) as [Hok Ee]. apply IH; [|done|by eapply tidy_wake_one|congruence].
  intros i Hi. apply Hl. by apply list_elem_of_further.
Qed.

Lemma tidy_step q q' : queue_ok q → tidy q → tidy_use q q' → tidy q'.
Proof.
  intros Hq H [Hu Hfree]. destruct Hu as [meta raw q|meta q|key q|ticketId q|q].
  - apply tidy_register; [done|done|]. intros E. apply (Hfree _ (length (rq_objects q)) E).
    rewrite register_new_eq by done. apply JMap.get_set_eq.
  - apply (tidy_drop None); [apply Hq|done].
  - apply (tidy_drop None); [apply Hq|done].
  - clear Hfree. unfold cancelByTicket. generalize (rq_entries q) as l. intros l. revert q Hq H.
    induction l as [|x l IH]; intros q Hq H; [done|]. cbn. destruct (of_ticket q ticketId x); [|by apply IH].
    apply IH; [by apply ok_drop|]. apply (tidy_drop None); [apply Hq|done].
  - by apply tidy_wake.
Qed.

Lemma tidy_reachable_ok q : tidy_reachable q → queue_ok q ∧ tidy q.
Proof.
  apply (rtc_ind_r (λ q, queue_ok q ∧ tidy q)); [split; [apply ok_new|]|].
  - constructor; cbn; [intros t o e; by rewrite lookup_nil|by intros o o' e (ph & Hph & _); apply elem_of_nil in Hph|
      by intros o o' e e' (ph & Hph & _); apply elem_of_nil in Hph].
  - intros q1 q2 _ [Hu|Hj] [Hq Ht]; split; [by eapply ok_use, Hu|by eapply tidy_step|by eapply ok_job|by eapply tidy_job].
Qed.

(** The entry is armed, or its attempt is under way. *)
Definition active q o : Prop := (∃ t, rq_timers q !! t = Some (Some o)) ∨ under_way q o.

(** One retry per key: as long as no trigger is queued afresh under a key while the
    attempt of a dropped entry of that key is still under way, there is never a
    second retry for a (ticket, role, agent): two entries of one key are never both
    armed or under way. *)
Theorem one_retry_per_key q o o' e e' : tidy_reachable q → active q o → active q o' →
  rq_objects q !! o = Some e → rq_objects q !! o' = Some e' → pr_key e = pr_key e' → o = o'.
Proof.
  intros Hr Ho Ho' He He' Ek. destruct (tidy_reachable_ok q Hr) as [_ [H1 H2 H3]].
  destruct Ho as [[t Ht]|Hw], Ho' as [[t' Ht']|Hw'].
  - pose proof (H1 t o e Ht He). pose proof (H1 t' o' e' Ht' He'). congruence.
  - apply (H2 o' o e'); [done|done|]. rewrite <- Ek. by apply (H1 t o e).
  - symmetry. apply (H2 o o' e); [done|done|]. rewrite Ek. by apply (H1 t' o' e').
  - by eapply H3.
Qed.
(** Where keys are never taken again under a running attempt, the object that leaves is
    the one the key stands for. *)
Lemma leaves_mapped k i o q q' : tidy q → JMap.get (rq_entries q) k = Some i → leaves k o q q' → o = i.
Proof.
  intros H Hk [e He Ek _ Hr _|e l1 l2 He Ek Hr _]; symmetry; apply (td_mapped q H o i e); try done; try congruence.
  - by exists at_replay.
  - exists at_verify. split; [|done]. rewrite Hr. apply elem_of_app. right. apply list_elem_of_here.
Qed.

Lemma jobs_tidy q q' : tidy_reachable q → rtc (retry_job opts) q q' → tidy_reachable q'.
Proof. intros Hr H. induction H as [x|x y z Hj _ IH]; [done|]. apply IH. eapply rtc_r; [done|by right]. Qed.

(** C11: Left alone, the queue empties, and nothing is forgotten: whatever the dispatcher did
    to it, once nobody calls it any more its timers and the returns of its callbacks
    come to an end after a number of steps that the attempts left bound, however they
    interleave; as long as a trigger is queued there is a next one; and a key that is
    queued leaves in no other way than that its owner is told to give up on an entry of
    that key that used all its attempts, or that [verify] found it ineligible.  That
    entry is the very one that was queued, unless the key was taken again while an
    attempt of a dropped entry was still running. *)
Theorem retries_come_to_an_end q : retry_reachable opts q →
  (∀ n q', nsteps (retry_job opts) n q q' → (n ≤ work q)%nat) ∧
  (∀ q', rtc (retry_job opts) q q' → rq_entries q' ≠ [] → ∃ q'', retry_job opts q' q'') ∧
  (∃ q', rtc (retry_job opts) q q' ∧ rq_entries q' = []) ∧
  (∀ q' k i, rtc (retry_job opts) q q' → JMap.get (rq_entries q) k = Some i → JMap.get (rq_entries q') k = None →
     ∃ q1 q2 o, rtc (retry_job opts) q q1 ∧ retry_job opts q1 q2 ∧ leaves k o q1 q2 ∧ (tidy_reachable q → o = i) ∧
       rtc (retry_job opts) q2 q').
Proof.
  intros Hr. pose proof (ok_reachable q Hr) as Hok. split_and!.
  - intros n q' H. by eapply jobs_bounded.
  - intros q' H. apply job_next. by eapply jobs_ok.
  - by apply jobs_empty.
  - intros q' k i H Hk Hn. destruct (jobs_leave k i q q' Hok H Hk Hn) as (q1 & q2 & o & H1 & Hk1 & Hj & Hl & H2).
    exists q1, q2, o. split_and!; [done|done|done| |done]. intros Ht.
    refine (leaves_mapped k i o q1 q2 _ Hk1 Hl). by apply tidy_reachable_ok, (jobs_tidy q).
Qed.
End facts.

(** ** Concrete runs *)

Definition sample_seat : SeatMeta := {| sm_ticketId := "t"; sm_role := "dev"; sm_agentId := "a" |}.

(** Queued; its timer fired; it was eligible; the replay found the pool exhausted again. *)
Definition queued : RetryQueue := (register default_retry_options sample_seat "raw" new_retry_queue).1.
Definition fired : RetryQueue := attempt default_retry_options 0 (queued<|rq_timers := [None]|>).
Definition replaying : RetryQueue := verified 0 true (fired<|rq_running := []|>).
Definition rearmed : RetryQueue := replayed default_retry_options 0 (replaying<|rq_running := []|>).

Definition either_step (opts : RetryOptions) (q q' : RetryQueue) : Prop := tidy_use opts q q' ∨ retry_job opts q q'.

Lemma queued_use : tidy_use default_retry_options new_retry_queue queued.
Proof. split; [apply use_register|]. intros k o _ _ i e (ph & Hph & _). by apply elem_of_nil in Hph. Qed.

Lemma replaying_jobs : rtc (retry_job default_retry_options) queued replaying.
Proof.
  eapply rtc_l; [apply (job_timer _ 0 0); reflexivity|]. eapply rtc_l; [|apply rtc_refl].
  apply (job_verified _ 0 true [] [] fired). reflexivity.
Qed.

Lemma rearmed_jobs : rtc (retry_job default_retry_options) queued rearmed.
Proof. eapply rtc_r; [apply replaying_jobs|]. apply (job_replayed _ 0 [] [] replaying). reflexivity. Qed.

Lemma jobs_reachable q : rtc (retry_job default_retry_options) queued q → retry_reachable default_retry_options q.
Proof.
  intros H. eapply rtc_l; [left; apply (proj1 queued_use)|]. induction H as [|x y z Hj _ IH]; [apply rtc_refl|].
  eapply rtc_l; [by right|done].
Qed.

Lemma jobs_tidy_reachable q : rtc (retry_job default_retry_options) queued q → tidy_reachable default_retry_options q.
Proof.
  intros H. eapply rtc_l; [left; apply queued_use|]. induction H as [|x y z Hj _ IH]; [apply rtc_refl|].
  eapply rtc_l; [by right|done].
Qed.

Lemma retries_are_bounded_witness :
  ∃ e, rq_objects rearmed !! 0%nat = Some e ∧ replays_of 0 (rq_calls rearmed) = 1 ∧ pr_attempts e ≤ 8 ∧ pr_delayMs e = 60000.
Proof.
  eexists. split; [reflexivity|].
  destruct (retries_are_bounded default_retry_options ltac:(done) ltac:(done) rearmed 0 _ (jobs_reachable _ rearmed_jobs) eq_refl)
    as (H1 & H2 & H3 & _). split; [exact H1|]. split; [exact H2|]. exact (proj2 (H3 1%nat eq_refl)).
Defined.

(** A queue that tries once: the replay finds the pool exhausted, and the owner is told. *)
Definition one_try : RetryOptions :=
  {| ro_verify := false; ro_baseDelayMs := 30000; ro_maxDelayMs := 300000; ro_maxAttempts := 1 |}.

Definition queued_once : RetryQueue := (register one_try sample_seat "raw" new_retry_queue).1.

Definition given_up_once : RetryQueue :=
  replayed one_try 0 ((attempt one_try 0 (queued_once<|rq_timers := [None]|>))<|rq_running := []|>).

Lemma queued_once_tidy : tidy_reachable one_try queued_once.
Proof.
  eapply rtc_l; [left|apply rtc_refl]. split; [apply use_register|].
  intros k o _ _ i e (ph & Hph & _). by apply elem_of_nil in Hph.
Qed.

Lemma given_up_once_jobs : rtc (retry_job one_try) queued_once given_up_once.
Proof.
  eapply rtc_l; [apply (job_timer _ 0 0); reflexivity|]. eapply rtc_l; [|apply rtc_refl].
  apply (job_replayed _ 0 [] [] (attempt one_try 0 (queued_once<|rq_timers := [None]|>))). reflexivity.
Qed.

Lemma retries_come_to_an_end_witness :
  JMap.get (rq_entries queued_once) "t:dev:a" = Some 0%nat ∧ rq_entries given_up_once = [] ∧
  rq_calls given_up_once = [call_retry 0 "raw"; call_give_up 0] ∧
  ∃ q1 q2, retry_job one_try q1 q2 ∧ leaves one_try "t:dev:a" 0 q1 q2 ∧ rtc (retry_job one_try) q2 given_up_once.
Proof.
  split_and!; [reflexivity..|].
  destruct (proj2 (proj2 (proj2 (retries_come_to_an_end one_try ltac:(done) ltac:(done) queued_once
              ltac:(eapply rtc_l; [left; apply use_register|apply rtc_refl]))))
              given_up_once "t:dev:a" 0%nat given_up_once_jobs eq_refl eq_refl) as (q1 & q2 & o & _ & Hj & Hl & Ho & H2).
  exists q1, q2. rewrite <- (Ho queued_once_tidy). done.
Defined.

Lemma one_retry_per_key_witness :
  (∃ e, rq_objects rearmed !! 0%nat = Some e ∧ pr_key e = "t:dev:a") ∧ 0%nat = 0%nat.
Proof.
  split; [by eexists|].
  refine (one_retry_per_key default_retry_options _ _ rearmed 0 0 _ _ (jobs_tidy_reachable _ rearmed_jobs) _ _ eq_refl eq_refl eq_refl);
    [done|done|left; exists 1%nat; reflexivity|left; exists 1%nat; reflexivity].
Defined.

(** The default back-off waits twenty-seven and a half minutes before the last attempt,
    past the twenty after which a leaked lease can be reclaimed. *)
Lemma default_backoff_span :
  foldr Z.add 0 (List.map (delay_after default_retry_options) [0; 1; 2; 3; 4; 5; 6; 7]) = 27 * 60000 + 30000.
Proof. reflexivity. Qed.

(** Finding: an attempt looks up its key, not its entry.  A retry is being replayed
    when another dispatch of its key goes through and removes the entry, and then a
    third one finds the pool exhausted and is queued under the same key.  When the
    replay returns, the key is there, so the removed entry is armed again: now two
    timers run for the key. *)
Lemma requeued_key_is_armed_twice :
  let q1 := resolve sample_seat replaying in
  let (q2, created) := register default_retry_options sample_seat "newer" q1 in
  let q3 := replayed default_retry_options 0 (q2<|rq_running := []|>) in
  created = true ∧ rq_running q2 = [(0%nat, at_replay)] ∧ rq_entries q3 = [("t:dev:a", 1%nat)] ∧
  rq_timers q3 = [None; Some 1%nat; Some 0%nat].
Proof. by vm_compute. Qed.

(** And where the removed entry had used its attempts, the queue gives up on it and
    takes the new one out of the map, which was never replayed: its timer finds the
    key gone. *)
Lemma old_give_up_removes_the_new_entry :
  let opts := {| ro_verify := false; ro_baseDelayMs := 30000; ro_maxDelayMs := 300000; ro_maxAttempts := 1 |} in
  let q0 := (register opts sample_seat "raw" new_retry_queue).1 in
  let q1 := attempt opts 0 (q0<|rq_timers := [None]|>) in
  let q2 := (register opts sample_seat "newer" (resolve sample_seat q1)).1 in
  let q3 := replayed opts 0 (q2<|rq_running := []|>) in
  let q4 := attempt opts 1 (q3<|rq_timers := [None; None]|>) in
  rq_entries q2 = [("t:dev:a", 1%nat)] ∧ rq_entries q3 = [] ∧ rq_timers q3 = [None; Some 1%nat] ∧
  rq_calls q4 = [call_retry 0 "raw"; call_give_up 0] ∧ rq_running q4 = [(0%nat, at_give_up)].
Proof. by vm_compute. Qed.
