(* ===== verification/Preflight.v ===== *)
(** * Preflight decisions

    The pure part of the agent manager's dispatch preflight
    ([dispatch-preflight.ts]): what a probe of the remote, of the CLI's trust and
    credential, and of the checkout decides, and how remote addresses are compared
    and shown. *)

From S2P Require Import Prelude.
From S2P Require Import JsStd.
From S2P Require Import WorkFolder.
From stdpp Require Import pretty.
#[local] Open Scope Z_scope.

(** ** Strings *)

(** The longest prefix of characters with [p], and the rest: a greedy class. *)
Fixpoint span (p : ascii → bool) (s : string) : string * string :=
  match s with
  | EmptyString => ("", "")
  | String c s' => if p c then let (a, b) := span p s' in (String c a, b) else ("", s)
  end.

Definition is_newline (c : ascii) : bool := (code c =? 10) || (code c =? 13).
Definition char_is (d c : ascii) : bool := Ascii.eqb c d.

(** [firstLine] *)
Definition firstLine (text : string) : string :=
  default "" (List.find truthy (List.map trim (split_on (λ c, code c =? 10) text))).

(** [new Date(ms).toISOString()]; [None] is its RangeError. *)
Definition pad (width : nat) (n : Z) : string :=
  let s := pretty n in String.concat "" (replicate (width - String.length s) "0") +:+ s.

Definition iso_date (days : Z) : string :=
  let z := days + 719468 in
  let era := z / 146097 in
  let doe := z mod 146097 in
  let yoe := (doe - doe / 1460 + doe / 36524 - doe / 146096) / 365 in
  let doy := doe - (365 * yoe + yoe / 4 - yoe / 100) in
  let mp := (5 * doy + 2) / 153 in
  let d := doy - (153 * mp + 2) / 5 + 1 in
  let m := if mp <? 10 then mp + 3 else mp - 9 in
  let y := yoe + era * 400 + (if m <=? 2 then 1 else 0) in
  let year := if (0 <=? y) && (y <=? 9999) then pad 4 y else (if y <? 0 then "-" else "+") +:+ pad 6 (Z.abs y) in
  year +:+ "-" +:+ pad 2 m +:+ "-" +:+ pad 2 d.

Definition toISOString (ms : Z) : option string :=
  if 8640000000000000 <? Z.abs ms then None
  else
    let t := ms mod 86400000 in
    Some (iso_date (ms / 86400000) +:+ "T" +:+ pad 2 (t / 3600000) +:+ ":" +:+ pad 2 (t / 60000 mod 60) +:+ ":" +:+
          pad 2 (t / 1000 mod 60) +:+ "." +:+ pad 3 (t mod 1000) +:+ "Z").

Example iso_epoch : toISOString 0 = Some "1970-01-01T00:00:00.000Z".
Proof. reflexivity. Qed.
Example iso_leap : toISOString 1709210096789 = Some "2024-02-29T12:34:56.789Z".
Proof. reflexivity. Qed.
Example iso_before : toISOString (-62198755200000) = Some "-000001-01-01T00:00:00.000Z".
Proof. reflexivity. Qed.

(** ** What git said *)

Definition GIT_AUTH_FAILURE_SIGNATURES : list string :=
  ["could not read username"; "could not read password"; "authentication failed"; "terminal prompts disabled";
   "invalid username or password"; "incorrect username or password"; "support for password authentication was removed";
   "access denied"; "403 forbidden"; "fatal: unauthorized"; "remote: permission to"; "repository not found"].

(** An absent [stderr] is empty. *)
Definition isGitAuthFailure (stderr : string) : bool :=
  if negb (truthy stderr) then false
  else lsome (λ sig, str_includes sig (toLowerCase stderr)) GIT_AUTH_FAILURE_SIGNATURES.

Definition GIT_REF_LOCK_RACE_SIGNATURES : list string := ["cannot lock ref"; "but expected"].

Definition isGitRefLockRace (stderr : string) : bool :=
  if negb (truthy stderr) then false
  else levery (λ sig, str_includes sig (toLowerCase stderr)) GIT_REF_LOCK_RACE_SIGNATURES.

(** ** Decisions *)

Record Decision_ := { dc_ok : bool; dc_reason : option string; dc_detail : option string }.
Definition ready : Decision_ := {| dc_ok := true; dc_reason := None; dc_detail := None |}.
Definition blocked_by (reason detail : string) : Decision_ :=
  {| dc_ok := false; dc_reason := Some reason; dc_detail := Some detail |}.

(** [a || b] of strings *)
Definition str_or (a b : string) : string := if truthy a then a else b.

Record PushReadinessProbe := { pp_ran : bool; pp_ok : bool; pp_stderr : string }.

Definition decidePushReadiness (isHttps : bool) (probe : option PushReadinessProbe) : Decision_ :=
  if negb isHttps then ready
  else
    match probe with
    | None => ready
    | Some p =>
        if negb (pp_ran p) then ready
        else if pp_ok p then ready
        else if isGitAuthFailure (pp_stderr p)
        then blocked_by "push_credential_unavailable" (str_or (firstLine (pp_stderr p)) "push credential unavailable")
        else ready
    end.

(** The probe is [trusted]. *)
Definition decideCliTrustReadiness (required : bool) (probe : option bool) : Decision_ :=
  if negb required then ready
  else
    match probe with
    | Some false =>
        blocked_by "cli_trust_required"
          "account trust not accepted for this checkout — the configured permission_mode requires an interactive trust dialog this dispatch cannot satisfy"
    | _ => ready
    end.

Inductive CredentialKind : Type := cred_subscription | cred_api_key | cred_unknown.

Record CliCredentialProbe := {
  cp_kind : CredentialKind;
  cp_expires_at_ms : option Z;
  cp_refresh_token_present : bool
}.

(** [None]: the exception of [toISOString]. *)
Definition decideCliAuthReadiness (probe : option CliCredentialProbe) (now : Z) : option Decision_ :=
  match probe with
  | Some {| cp_kind := cred_subscription; cp_expires_at_ms := Some expires; cp_refresh_token_present := refresh |} =>
      if now <? expires then Some ready
      else if refresh then Some ready
      else
        iso ← toISOString expires;
        Some (blocked_by "cli_credential_expired"
                ("OAuth credential expired at " +:+ iso +:+ " with no refresh token to self-renew"))
  | _ => Some ready
  end.

Record DispatchGateDecision := { gd_blocked : bool; gd_kind : option string; gd_reason : option string }.

(** The result of a provision: [isWorktree], and its reason, empty where absent. *)
Definition classifyWorktreeOutcome (res : option (bool * string)) : DispatchGateDecision :=
  match res with
  | Some (true, _) => {| gd_blocked := false; gd_kind := None; gd_reason := None |}
  | _ =>
      let reason := match res with Some (_, r) => r | None => "" end in
      if negb (truthy reason)
      then {| gd_blocked := true; gd_kind := Some "worktree:unavailable"; gd_reason := Some "unavailable" |}
      else {| gd_blocked := true; gd_kind := Some ("worktree:" +:+ reason); gd_reason := Some reason |}
  end.

Definition isSafeTicketProvisioningFallback (reason : string) : bool :=
  includes ["repository_fetch_failed"; "repository_clone_failed"; "path_conflict"; "add_failed"; "worktree_unavailable";
            "branch_prepare_failed"] reason.

(** ** Addresses of remotes *)

(** [/\/+$/] removed *)
Fixpoint strip_trailing_slashes (s : string) : string :=
  match s with
  | EmptyString => ""
  | String c s' =>
      match strip_trailing_slashes s' with
      | EmptyString => if char_is "/" c then "" else String c ""
      | r => String c r
      end
  end.

(** [/\.git$/i] removed: the string ends there. *)
Fixpoint strip_dot_git (s : string) : string :=
  match s with
  | EmptyString => ""
  | String c s' => if String.eqb (toLowerCase s) ".git" then "" else String c (strip_dot_git s')
  end.

Definition is_letter (c : ascii) : bool := let n := code (lower_char c) in (97 <=? n) && (n <=? 122).
Definition is_digit (c : ascii) : bool := let n := code c in (48 <=? n) && (n <=? 57).
Definition is_scheme_char (c : ascii) : bool :=
  is_letter c || is_digit c || char_is "+" c || char_is "." c || char_is "-" c.
Definition not_slash_at (c : ascii) : bool := negb (char_is "/" c || char_is "@" c).
Definition not_colon_slash (c : ascii) : bool := negb (char_is ":" c || char_is "/" c).

(** [/^[a-z][a-z0-9+.-]*:\/\//i]: the match and what follows it.  The class has no
    colon, so the match is where the first other character is. *)
Definition split_scheme (s : string) : option (string * string) :=
  match s with
  | String c s' =>
      if negb (is_letter c) then None
      else
        let (name, rest) := span is_scheme_char s' in
        if String.prefix "://" rest then Some (String c name +:+ "://", String.substring 3 (String.length rest - 3) rest) else None
  | EmptyString => None
  end.

(** [/^[^/@]+@/]: what follows the match *)
Definition after_userinfo (s : string) : option string :=
  match span not_slash_at s with
  | (String _ _, String c rest) => if char_is "@" c then Some rest else None
  | _ => None
  end.

(** [/^[^/@]+@([^:/]+):(.+)$/]: the groups *)
Definition scp_parts (s : string) : option (string * string) :=
  rest ← after_userinfo s;
  match span not_colon_slash rest with
  | (String c host, String colon path) =>
      if char_is ":" colon && truthy path && all_chars (λ c, negb (is_newline c)) path then Some (String c host, path) else None
  | _ => None
  end.

(** An absent address is empty. *)
Definition normalizeRemoteUrl (raw : string) : string :=
  let u := trim raw in
  if negb (truthy u) then ""
  else
    let u :=
      match scp_parts u with
      | Some (host, path) => host +:+ "/" +:+ path
      | None =>
          let u := match split_scheme u with Some (_, rest) => rest | None => u end in
          default u (after_userinfo u)
      end in
    toLowerCase (strip_trailing_slashes (strip_dot_git (strip_trailing_slashes u))).

(** [u.replace(/<mark>.*$/, '')]: from the first mark that no newline follows *)
Fixpoint cut_from (mark : ascii) (s : string) : string :=
  match s with
  | EmptyString => ""
  | String c s' =>
      if char_is mark c && all_chars (λ c, negb (is_newline c)) s' then "" else String c (cut_from mark s')
  end.

Definition redactRemoteUrl (raw : string) : string :=
  let u := trim raw in
  if negb (truthy u) then ""
  else
    let u := cut_from "?" (cut_from "#" u) in
    match split_scheme u with
    | Some (scheme, rest) => scheme +:+ default rest (after_userinfo rest)
    | None => u
    end.

Record WorktreeCheckoutProbe := { wc_insideWorkTree : bool; wc_headResolved : option bool; wc_originUrl : string }.

Definition classifyWorktreeCheckout (probe : WorktreeCheckoutProbe) (expectedUrl : string) : Decision_ :=
  if negb (wc_insideWorkTree probe) then blocked_by "not_a_git_repo" "worktree path is not a git work tree"
  else if bool_decide (wc_headResolved probe = Some false)
  then blocked_by "incomplete_checkout" "git HEAD does not resolve — checkout is incomplete"
  else
    let want := normalizeRemoteUrl expectedUrl in
    let have := normalizeRemoteUrl (wc_originUrl probe) in
    if truthy want && truthy have && negb (String.eqb want have)
    then blocked_by "wrong_repository"
           ("origin " +:+ str_or (redactRemoteUrl (wc_originUrl probe)) "(unset)" +:+ " does not match the expected repository")
    else ready.

Definition managedWorktreePath (baseWorkingDir cwd : string) : string :=
  let abs := trim cwd in
  if negb (truthy abs) then ""
  else
    let base := strip_trailing_slashes (trim baseWorkingDir) in
    if truthy base && startsWith (base +:+ "/") abs
    then String.substring (String.length base + 1) (String.length abs - (String.length base + 1)) abs
    else abs.

(** ** Exceptions of a spawn *)

(** What the classification reads of an exception: its [name], its [message] as a
    string, and its [serverKey] where that is one. *)
Record SpawnException := { sx_name : string; sx_message : string; sx_serverKey : option string }.

Record SpawnExceptionClassification := { sc_reason : string; sc_detail : option string; sc_serverKey : option string }.

Definition classifySpawnException (err : SpawnException) : SpawnExceptionClassification :=
  if String.eqb (sx_name err) "InvalidMcpTransportError"
  then {| sc_reason := "invalid_mcp_transport"; sc_detail := Some (slice 500 (sx_message err));
          sc_serverKey := match sx_serverKey err with Some k => if truthy k then Some k else None | None => None end |}
  else {| sc_reason := "exception"; sc_detail := None; sc_serverKey := None |}.

(** * Secrets in addresses

    What a shown address keeps, and what the comparison of two ignores. *)

Definition single_line (s : string) : bool := all_chars (λ c, negb (is_newline c)) s.
Definition free_of (mark : ascii) (s : string) : bool := all_chars (λ c, negb (char_is mark c)) s.

Lemma append_empty (s : string) : s +:+ "" = s.
Proof. induction s as [|c s IH]; [done|]. change (String c s +:+ "") with (String c (s +:+ "")). by rewrite IH. Qed.

Lemma all_chars_cons p c s : all_chars p (String c s) = p c && all_chars p s.
Proof. reflexivity. Qed.

Lemma all_chars_append p s t : all_chars p (s +:+ t) = all_chars p s && all_chars p t.
Proof.
  induction s as [|c s IH]; [done|]. change (String c s +:+ t) with (String c (s +:+ t)). by rewrite !all_chars_cons, IH, andb_assoc.
Qed.

Lemma cut_from_free mark s : free_of mark s = true → cut_from mark s = s.
Proof.
  induction s as [|c s IH]; [done|]. unfold free_of. rewrite all_chars_cons. intros [Hc Hs]%andb_true_iff.
  apply negb_true_iff in Hc. cbn. rewrite Hc. cbn. by rewrite IH.
Qed.

Lemma cut_from_app mark s t : free_of mark s = true → cut_from mark (s +:+ t) = s +:+ cut_from mark t.
Proof.
  induction s as [|c s IH]; [done|]. unfold free_of. rewrite all_chars_cons. intros [Hc Hs]%andb_true_iff.
  apply negb_true_iff in Hc. change (String c s +:+ t) with (String c (s +:+ t)). cbn [cut_from]. rewrite Hc. cbn [andb].
  by rewrite IH.
Qed.

Lemma cut_from_mark mark t : single_line t = true → cut_from mark (String mark t) = "".
Proof. intros H. cbn [cut_from]. unfold char_is. rewrite Ascii.eqb_refl. unfold single_line in H. by rewrite H. Qed.

Lemma cut_from_line mark t : single_line t = true → single_line (cut_from mark t) = true.
Proof.
  unfold single_line. induction t as [|c t IH]; [done|]. rewrite all_chars_cons. intros [Hc Ht]%andb_true_iff.
  cbn [cut_from]. destruct (char_is mark c && _); [done|]. rewrite all_chars_cons, Hc. by apply IH.
Qed.

(** The tail is dropped, whichever mark it begins with and whatever is in it. *)
Lemma tail_is_cut u mark secret : free_of "#" u = true → free_of "?" u = true → (mark = "#"%char ∨ mark = "?"%char) →
  single_line secret = true → cut_from "?" (cut_from "#" (u +:+ String mark secret)) = u.
Proof.
  intros H1 H2 Hm Hs. rewrite cut_from_app by done. destruct Hm as [->| ->].
  - rewrite cut_from_mark by done. rewrite append_empty. by apply cut_from_free.
  - change (cut_from "#" (String "?" secret)) with (String "?" (cut_from "#" secret)).
    rewrite cut_from_app by done. rewrite cut_from_mark by (by apply cut_from_line). apply append_empty.
Qed.

Lemma span_stop p s c t : all_chars p s = true → p c = false → span p (s +:+ String c t) = (s, String c t).
Proof.
  intros Hs Hc. induction s as [|d s IH]; [change ("" +:+ String c t) with (String c t); cbn [span]; by rewrite Hc|]. rewrite all_chars_cons in Hs. apply andb_true_iff in Hs as [Hd Hs].
  change (String d s +:+ String c t) with (String d (s +:+ String c t)). cbn [span]. by rewrite Hd, (IH Hs).
Qed.

Lemma span_all p s : all_chars p s = true → span p s = (s, "").
Proof.
  induction s as [|d s IH]; [done|]. rewrite all_chars_cons. intros [Hd Hs]%andb_true_iff. cbn [span]. by rewrite Hd, (IH Hs).
Qed.

Lemma prefix_app s t : String.prefix s (s +:+ t) = true.
Proof. induction s as [|c s IH]; [by destruct t|]. change (String c s +:+ t) with (String c (s +:+ t)). cbn. by destruct (ascii_dec c c). Qed.

Lemma substring_all s : String.substring 0 (String.length s) s = s.
Proof. induction s as [|c s IH]; [done|]. cbn. by rewrite IH. Qed.

(** A scheme, as the pattern takes it. *)
Definition is_scheme (s : string) : bool :=
  match s with String c name => is_letter c && all_chars is_scheme_char name | EmptyString => false end.

Lemma split_scheme_app scheme rest : is_scheme scheme = true →
  split_scheme (scheme +:+ "://" +:+ rest) = Some (scheme +:+ "://", rest).
Proof.
  destruct scheme as [|c name]; [done|]. intros [Hc Hn]%andb_true_iff.
  change (String c name +:+ "://" +:+ rest) with (String c (name +:+ String ":" ("//" +:+ rest))).
  cbn [split_scheme]. rewrite Hc. cbn [negb]. rewrite span_stop by done.
  change (String ":" ("//" +:+ rest)) with ("://" +:+ rest). rewrite prefix_app.
  change ("://" +:+ rest) with (String ":" (String "/" (String "/" rest))).
  cbn [String.length String.substring Nat.sub]. rewrite ?Nat.sub_0_r, substring_all. done.
Qed.

Lemma after_userinfo_app u rest : truthy u = true → all_chars not_slash_at u = true → after_userinfo (u +:+ String "@" rest) = Some rest.
Proof. intros Hu Ha. unfold after_userinfo. rewrite span_stop by done. by destruct u. Qed.

Lemma scheme_no_userinfo scheme rest : is_scheme scheme = true → after_userinfo (scheme +:+ "://" +:+ rest) = None.
Proof.
  destruct scheme as [|c name]; [done|]. intros [Hc Hn]%andb_true_iff. unfold after_userinfo.
  assert (Hs : ∀ s, all_chars is_scheme_char s = true → all_chars not_slash_at s = true).
  { induction s as [|d s IH]; [done|]. rewrite !all_chars_cons. intros [Hd Hs]%andb_true_iff. rewrite (IH Hs), andb_true_r.
    unfold not_slash_at, char_is. destruct (Ascii.eqb_spec d "/") as [->|]; [discriminate|]. by destruct (Ascii.eqb_spec d "@") as [->|]. }
  assert (Hall : all_chars not_slash_at (String c name +:+ ":") = true).
  { rewrite all_chars_append, Hs; [done|]. rewrite all_chars_cons, Hn, andb_true_r. unfold is_scheme_char. by rewrite Hc. }
  change (String c name +:+ "://" +:+ rest) with ((String c name) +:+ ":" +:+ String "/" ("/" +:+ rest)).
  rewrite <- append_assoc, span_stop by done. done.
Qed.

Section secrets.
Context (scheme host_path user secret : string) (mark : ascii).
(** An address with a user part and a query or fragment, as a remote has it: one
    line, without blanks around it. *)
Context (Hscheme : is_scheme scheme = true) (Huser : truthy user = true) (Huser_chars : all_chars not_slash_at user = true).
Context (Hmark : mark = "#"%char ∨ mark = "?"%char) (Hline : single_line secret = true).
Context (Huser_tail : free_of "#" user = true ∧ free_of "?" user = true).
Context (Hpath_tail : free_of "#" host_path = true ∧ free_of "?" host_path = true).

Definition secret_url : string := scheme +:+ "://" +:+ user +:+ "@" +:+ host_path +:+ String mark secret.

Lemma scheme_free m : is_scheme_char m = false → free_of m scheme = true.
Proof.
  intros Hm. destruct scheme as [|c name]; [done|]. revert Hscheme. intros [Hc Hn]%andb_true_iff. unfold free_of. rewrite all_chars_cons.
  assert (Hne : ∀ d, is_scheme_char d = true → negb (char_is m d) = true).
  { intros d Hd. unfold char_is. destruct (Ascii.eqb_spec d m) as [->|]; [congruence|done]. }
  rewrite Hne by (unfold is_scheme_char; by rewrite Hc). cbn [andb]. clear - Hn Hne.
  induction name as [|d name IH]; [done|]. rewrite all_chars_cons in *. apply andb_true_iff in Hn as [Hd Hn]. rewrite (Hne d Hd). by apply IH.
Qed.

(** Shown addresses hold no secret: of an address with a user part — a token, or a name
    and a password without a slash — and a query or fragment, what is shown is its
    scheme, host and path: neither the user part nor what follows the mark is in it. *)
Theorem shown_addresses_hold_no_secret : trim secret_url = secret_url →
  redactRemoteUrl secret_url = scheme +:+ "://" +:+ host_path.
Proof.
  intros Htrim. unfold redactRemoteUrl. rewrite Htrim. assert (Ht : truthy secret_url = true).
  { unfold secret_url. destruct scheme; [done|]. done. }
  rewrite Ht. cbn [negb]. unfold secret_url.
  assert (Eu : scheme +:+ "://" +:+ user +:+ "@" +:+ host_path +:+ String mark secret =
          (scheme +:+ "://" +:+ user +:+ "@" +:+ host_path) +:+ String mark secret) by (by rewrite !append_assoc).
  assert (Hfree : ∀ m, is_scheme_char m = false → free_of m "://@" = true → free_of m user = true → free_of m host_path = true →
            free_of m (scheme +:+ "://" +:+ user +:+ "@" +:+ host_path) = true).
  { intros m Hm Hp H1 H2. unfold free_of in *. rewrite !all_chars_append. pose proof (scheme_free m Hm) as Hs. unfold free_of in Hs.
    change "://@" with ("://" +:+ "@") in Hp. rewrite all_chars_append in Hp. apply andb_true_iff in Hp as [Hp1 Hp2].
    by rewrite Hs, Hp1, H1, Hp2, H2. }
  rewrite Eu, tail_is_cut; [|apply Hfree; try done; apply Huser_tail || apply Hpath_tail|
    apply Hfree; try done; apply Huser_tail || apply Hpath_tail|done|done].
  rewrite split_scheme_app by done. change (user +:+ "@" +:+ host_path) with (user +:+ String "@" host_path).
  rewrite after_userinfo_app by done. cbn. by rewrite <- append_assoc.
Qed.
End secrets.

Lemma shown_addresses_hold_no_secret_witness :
  redactRemoteUrl "https://u:p@h/r?t=x" = "https://h/r".
Proof.
  change "https://u:p@h/r?t=x" with (secret_url "https" "h/r" "u:p" "t=x" "?").
  apply (shown_addresses_hold_no_secret "https" "h/r" "u:p" "t=x" "?");
    try (vm_compute; reflexivity); [by right| |]; split; vm_compute; reflexivity.
Defined.

(** The user part is only looked for behind a scheme: a token before a host that is
    written without one is shown as it is. *)
Lemma token_without_scheme_is_shown : redactRemoteUrl "token@host:org/repo" = "token@host:org/repo".
Proof. vm_compute. reflexivity. Qed.

(** A slash in the password hides the user part from the pattern, and of two marks only the
    first ends it. *)
Lemma password_with_slash_is_shown :
  redactRemoteUrl "https://u:p/w@h/x" = "https://u:p/w@h/x" ∧ redactRemoteUrl "https://a@b@c/x" = "https://b@c/x".
Proof. split; vm_compute; reflexivity. Qed.
