(* ===== verification/SpawnSuppress.v ===== *)
(** * Blocked dispatches

    What the agent manager remembers of dispatches that its preflight stopped
    ([dispatch-preflight.ts]): which blocker of a ticket was commented
    ([DispatchBlockerTracker]), which ticket-roles a supervisor may not retry yet and
    when a ticket is pended ([RoleSpawnSuppressor]), and how often each kind of
    blocker occurred ([DispatchBlockTracker]). *)

From S2P Require Import Prelude.
From S2P Require Import JsStd.
#[local] Open Scope Z_scope.

(** ** Comments *)

(** [shouldComment] of [DispatchBlockerTracker]; its state is [#byTicket]. *)
Definition shouldComment (ticketId kind : string) (byTicket : list (string * string)) : list (string * string) * bool :=
  if negb (truthy ticketId) then (byTicket, true)
  else (JMap.set byTicket ticketId kind, negb (bool_decide (JMap.get byTicket ticketId = Some kind))).

Definition clear_blocker (ticketId : string) (byTicket : list (string * string)) : list (string * string) :=
  if truthy ticketId then JMap.delete byTicket ticketId else byTicket.

Definition activeKind (ticketId : string) (byTicket : list (string * string)) : option string :=
  if truthy ticketId then JMap.get byTicket ticketId else None.

(** ** Durable blockers *)

Definition DURABLE_BLOCKER_REASONS : list string :=
  ["not_a_git_repo"; "incomplete_checkout"; "wrong_repository"; "main_clone_not_git_repo"; "main_clone_wrong_repository";
   "push_credential_unavailable"; "cli_trust_required"; "cli_credential_expired"; "invalid_mcp_transport";
   "approve_requires_approval_bridge"].

Definition isDurableProvisioningBlocker (kind : string) : bool :=
  if negb (truthy kind) then false
  else
    let reason := if startsWith "worktree:" kind then String.substring 9 (String.length kind - 9) kind else kind in
    includes DURABLE_BLOCKER_REASONS reason.

(** ** The suppressor *)

Definition DEFAULT_SPAWN_SUPPRESS_COOLDOWN_MS : Z := 10 * 60000.
Definition DEFAULT_PEND_AFTER_ABORTS : Z := 3.

Record Episode := {
  ep_kind : string;
  ep_firstAt : Z;
  ep_lastAt : Z;
  ep_count : Z;
  ep_lastProbeAt : Z
}.

Record Suppressor := {
  su_byKey : list (string * Episode);
  su_cooldownMs : Z;
  su_pendAfterAborts : Z
}.

(** The constructor, with its defaults for values that are not positive. *)
Definition new_suppressor (cooldownMs pendAfterAborts : Z) : Suppressor :=
  {| su_byKey := [];
     su_cooldownMs := if 0 <? cooldownMs then cooldownMs else DEFAULT_SPAWN_SUPPRESS_COOLDOWN_MS;
     su_pendAfterAborts := if 0 <? pendAfterAborts then pendAfterAborts else DEFAULT_PEND_AFTER_ABORTS |}.

Definition role_key (ticketId role : string) : string := ticketId +:+ ":" +:+ role.

Definition pend_threshold (s : Suppressor) (kind : string) : Z :=
  if isDurableProvisioningBlocker kind then 1 else su_pendAfterAborts s.

(** [note]: the running count, and whether the ticket is to be pended. *)
Definition note (ticketId role kind : string) (now : Z) (s : Suppressor) : Suppressor * (Z * bool) :=
  if negb (truthy ticketId) || negb (truthy role) then (s, (0, false))
  else
    let key := role_key ticketId role in
    let fresh := {| ep_kind := kind; ep_firstAt := now; ep_lastAt := now; ep_count := 1; ep_lastProbeAt := now |} in
    let e := match JMap.get (su_byKey s) key with
             | Some prev => if negb (String.eqb (ep_kind prev) kind) then fresh
                            else prev<|ep_lastAt := now|><|ep_count := ep_count prev + 1|>
             | None => fresh
             end in
    (s<|su_byKey := JMap.set (su_byKey s) key e|>, (ep_count e, ep_count e =? pend_threshold s kind)).

Record SpawnSuppressDecision := {
  sd_suppress : bool;
  sd_kind : option string;
  sd_count : option Z;
  sd_sinceMs : option Z
}.
Definition let_through : SpawnSuppressDecision :=
  {| sd_suppress := false; sd_kind := None; sd_count := None; sd_sinceMs := None |}.

Definition shouldSuppress (ticketId role : string) (now : Z) (fromSupervisor : bool) (s : Suppressor)
    : Suppressor * SpawnSuppressDecision :=
  if negb (truthy ticketId) || negb (truthy role) then (s, let_through)
  else
    let key := role_key ticketId role in
    match JMap.get (su_byKey s) key with
    | None => (s, let_through)
    | Some rec =>
        if negb fromSupervisor then (s, let_through)
        else if su_cooldownMs s <=? now - ep_lastProbeAt rec
        then (s<|su_byKey := JMap.set (su_byKey s) key (rec<|ep_lastProbeAt := now|>)|>, let_through)
        else (s, {| sd_suppress := true; sd_kind := Some (ep_kind rec); sd_count := Some (ep_count rec);
                    sd_sinceMs := Some (Z.max 0 (now - ep_firstAt rec)) |})
    end.

Definition clear_episode (ticketId role : string) (s : Suppressor) : Suppressor :=
  if truthy ticketId && truthy role then s<|su_byKey := JMap.delete (su_byKey s) (role_key ticketId role)|> else s.

(** ** Counts *)

(** [record] of [DispatchBlockTracker] *)
Definition record_block (kind : string) (counts : list (string * Z)) : list (string * Z) :=
  let k := trim kind in
  if negb (truthy k) then counts else JMap.set counts k (default 0 (JMap.get counts k) + 1).

(** [counts()]; and [suppressionCounts()] of the seats' tracker *)
Definition block_counts (counts : list (string * Z)) : list (string * Z) := lfilter (λ e, 0 <? e.2) counts.

(** [total()] *)
Definition block_total (counts : list (string * Z)) : Z := foldr Z.add 0 (JMap.values counts).

(** ** Runs *)

(** A call of the dispatcher's, for a ticket and a role. *)
Inductive SuppressCall : Type :=
  | do_note (kind : string) (now : Z)
  | do_query (now : Z) (fromSupervisor : bool)
  | do_clear.

(** What a call answers: the pend, or whether a supervisor's trigger went through
    while a blocker was active. *)
Inductive SuppressAnswer : Type := pends | probes (now : Z) | nothing.

Definition has_episode (key : string) (s : Suppressor) : bool := JMap.has (su_byKey s) key.

Definition suppress_call (s : Suppressor) (call : string * string * SuppressCall) : Suppressor * SuppressAnswer :=
  let '(t, r, c) := call in
  match c with
  | do_note kind now => let (s', o) := note t r kind now s in (s', if o.2 then pends else nothing)
  | do_query now sup =>
      let (s', d) := shouldSuppress t r now sup s in
      (s', if sup && has_episode (role_key t r) s && negb (sd_suppress d) then probes now else nothing)
  | do_clear => (clear_episode t r s, nothing)
  end.

(** The answers for one ticket and role, in order. *)
Fixpoint suppress_run (key : string) (s : Suppressor) (calls : list (string * string * SuppressCall))
    : Suppressor * list SuppressAnswer :=
  match calls with
  | [] => (s, [])
  | c :: rest =>
      let (s1, a) := suppress_call s c in
      let (s2, l) := suppress_run key s1 rest in
      (s2, if String.eqb (role_key c.1.1 c.1.2) key then a :: l else l)
  end.

(** The call keeps the episode of [key]: nobody clears it, and its aborts are of the
    same kind.  A call without a ticket or a role does nothing. *)
Definition same_episode (key kind : string) (call : string * string * SuppressCall) : bool :=
  let '(t, r, c) := call in
  negb (String.eqb (role_key t r) key) ||
  (truthy t && truthy r && match c with do_note k _ => String.eqb k kind | do_query _ _ => true | do_clear => false end).

Definition is_note_of (key : string) (call : string * string * SuppressCall) : bool :=
  String.eqb (role_key call.1.1 call.1.2) key && match call.2 with do_note _ _ => true | _ => false end.

Definition is_pend (a : SuppressAnswer) : bool := match a with pends => true | _ => false end.
Definition probe_time (a : SuppressAnswer) : option Z := match a with probes now => Some now | _ => None end.

(** Every time is at least [gap] after the one before it. *)
Fixpoint spaced (gap : Z) (from : Z) (l : list Z) : Prop :=
  match l with
  | [] => True
  | t :: rest => gap <= t - from ∧ spaced gap t rest
  end.

(** * What the suppressor promises

    An episode — the aborts of one ticket and role for one kind of blocker, until it is
    cleared — pends its ticket once, and lets a supervisor through once per window. *)

Implicit Types (s : Suppressor) (key kind : string).

(** The episode that is under way. *)
Definition in_episode key kind s (e : Episode) : Prop := JMap.get (su_byKey s) key = Some e ∧ ep_kind e = kind.

Definition same_limits s s' : Prop := su_cooldownMs s' = su_cooldownMs s ∧ su_pendAfterAborts s' = su_pendAfterAborts s.

Lemma same_limits_threshold s s' kind : same_limits s s' → pend_threshold s' kind = pend_threshold s kind.
Proof. intros [_ E]. unfold pend_threshold. by rewrite E. Qed.

(** Calls for others do not touch it. *)
Lemma other_call key kind s e call : in_episode key kind s e → role_key call.1.1 call.1.2 ≠ key →
  in_episode key kind (suppress_call s call).1 e ∧ same_limits s (suppress_call s call).1.
Proof.
  destruct call as [[t r] c]. cbn [fst snd]. intros [Hg Hk] N. unfold suppress_call, in_episode. destruct c as [k now|now sup|].
  - unfold note. destruct (_ || _); [done|]. cbn. by rewrite JMap.get_set_ne.
  - unfold shouldSuppress. destruct (_ || _); [done|]. destruct (JMap.get _ (role_key t r)); [|done].
    destruct (negb sup); [done|]. destruct (_ <=? _); [|done]. cbn. by rewrite JMap.get_set_ne.
  - unfold clear_episode. destruct (_ && _); [|done]. cbn. by rewrite JMap.get_delete_ne.
Qed.

(** An abort is counted; a query may be let through as a probe, a window after the last. *)
Lemma own_call key kind s e t r c : in_episode key kind s e → role_key t r = key → same_episode key kind (t, r, c) = true →
  ∃ e', in_episode key kind (suppress_call s (t, r, c)).1 e' ∧ same_limits s (suppress_call s (t, r, c)).1 ∧
  match c with
  | do_note _ _ => ep_count e' = ep_count e + 1 ∧ ep_lastProbeAt e' = ep_lastProbeAt e ∧
      (suppress_call s (t, r, c)).2 = if ep_count e + 1 =? pend_threshold s kind then pends else nothing
  | _ => ep_count e' = ep_count e ∧
      (((suppress_call s (t, r, c)).2 = nothing ∧ ep_lastProbeAt e' = ep_lastProbeAt e) ∨
       ((suppress_call s (t, r, c)).2 = probes (ep_lastProbeAt e') ∧ su_cooldownMs s <= ep_lastProbeAt e' - ep_lastProbeAt e))
  end.
Proof.
  intros [Hg Hk] <-. unfold same_episode. rewrite String.eqb_refl. cbn [negb orb]. rewrite !andb_true_iff. intros [[Ht Hr] Hc].
  unfold suppress_call, in_episode. destruct c as [k now|now sup|]; [| |done].
  - apply String.eqb_eq in Hc as ->. unfold note. rewrite Ht, Hr. cbn [negb orb]. rewrite Hg, Hk, String.eqb_refl. cbn.
    eexists. rewrite JMap.get_set_eq. by split_and!.
  - unfold shouldSuppress, has_episode, JMap.has. rewrite Ht, Hr. cbn [negb orb]. rewrite Hg. destruct sup; cbn [negb andb].
    + destruct (Z.leb_spec (su_cooldownMs s) (now - ep_lastProbeAt e)); cbn.
      * eexists. rewrite JMap.get_set_eq. split_and!; try done. by right.
      * exists e. split_and!; try done. by left.
    + exists e. split_and!; try done. by left.
Qed.

Lemma run_cons key s call calls :
  (suppress_run key s (call :: calls)).2 =
  if String.eqb (role_key call.1.1 call.1.2) key
  then (suppress_call s call).2 :: (suppress_run key (suppress_call s call).1 calls).2
  else (suppress_run key (suppress_call s call).1 calls).2.
Proof.
  cbn. destruct (suppress_call s call) as [s1 a]. cbn. destruct (suppress_run key s1 calls) as [s2 l]. by destruct (String.eqb _ _).
Qed.

Definition pends_of (l : list SuppressAnswer) : Z := Z.of_nat (length (lfilter is_pend l)).
Definition notes_of key (calls : list (string * string * SuppressCall)) : Z := Z.of_nat (length (lfilter (is_note_of key) calls)).

Lemma pends_of_cons a l : pends_of (a :: l) = (if is_pend a then 1 else 0) + pends_of l.
Proof. unfold pends_of. rewrite lfilter_cons. destruct (is_pend a); cbn [length]; lia. Qed.

Lemma notes_of_cons key c l : notes_of key (c :: l) = (if is_note_of key c then 1 else 0) + notes_of key l.
Proof. unfold notes_of. rewrite lfilter_cons. destruct (is_note_of key c); cbn [length]; lia. Qed.

(** From a count on, the ticket is pended when the count passes the threshold. *)
Lemma pends_from key kind calls : ∀ s e, in_episode key kind s e → levery (same_episode key kind) calls = true →
  pends_of (suppress_run key s calls).2 =
  if (ep_count e <? pend_threshold s kind) && (pend_threshold s kind <=? ep_count e + notes_of key calls) then 1 else 0.
Proof.
  induction calls as [|[[t r] c] calls IH]; intros s e He Hall.
  { unfold notes_of, pends_of. cbn [suppress_run snd lfilter List.filter length Z.of_nat]. rewrite Z.add_0_r.
    destruct (Z.ltb_spec (ep_count e) (pend_threshold s kind)), (Z.leb_spec (pend_threshold s kind) (ep_count e)); cbn [andb]; lia. }
  apply andb_true_iff in Hall as [Hc Hall]. rewrite run_cons, notes_of_cons. cbn [fst snd]. unfold is_note_of at 1. cbn [fst snd].
  destruct (String.eqb_spec (role_key t r) key) as [Ek|N]; cbn [andb].
  - destruct (own_call key kind s e t r c He Ek Hc) as (e' & He' & Hl & Hr).
    rewrite pends_of_cons, (IH _ e' He' Hall), (same_limits_threshold _ _ kind Hl). destruct c as [k now|now sup|].
    + destruct Hr as (En & _ & ->). rewrite En. assert (0 <= notes_of key calls) by (unfold notes_of; lia). destruct (Z.eqb_spec (ep_count e + 1) (pend_threshold s kind)); cbn [is_pend];
        repeat match goal with |- context [?a <? ?b] => destruct (Z.ltb_spec a b) | |- context [?a <=? ?b] => destruct (Z.leb_spec a b) end;
        cbn [andb]; lia.
    + destruct Hr as [-> [[-> _]|[-> _]]]; cbn [is_pend]; by rewrite !Z.add_0_l.
    + destruct Hr as [-> [[-> _]|[-> _]]]; cbn [is_pend]; by rewrite !Z.add_0_l.
  - destruct (other_call key kind s e (t, r, c) He N) as [He' Hl]. rewrite (IH _ e He' Hall), (same_limits_threshold _ _ kind Hl).
    by rewrite Z.add_0_l.
Qed.

(** And the probes keep their distance. *)
Lemma probes_from key kind calls : ∀ s e, in_episode key kind s e → levery (same_episode key kind) calls = true →
  spaced (su_cooldownMs s) (ep_lastProbeAt e) (omap probe_time (suppress_run key s calls).2).
Proof.
  induction calls as [|[[t r] c] calls IH]; intros s e He Hall; [done|].
  apply andb_true_iff in Hall as [Hc Hall]. rewrite run_cons. cbn [fst snd].
  destruct (String.eqb_spec (role_key t r) key) as [Ek|N].
  - destruct (own_call key kind s e t r c He Ek Hc) as (e' & He' & [Hl _] & Hr). pose proof (IH _ e' He' Hall) as IH'. rewrite Hl in IH'.
    destruct c as [k now|now sup|].
    + destruct Hr as (_ & Ep & ->). rewrite Ep in IH'. by destruct (_ =? _).
    + destruct Hr as [_ [[-> Ep]|[-> Hgap]]]; cbn; [by rewrite <- Ep|done].
    + destruct Hr as [_ [[-> Ep]|[-> Hgap]]]; cbn; [by rewrite <- Ep|done].
  - destruct (other_call key kind s e (t, r, c) He N) as [He' [Hl _]]. rewrite <- Hl. by apply IH.
Qed.

(** The abort that opens an episode. *)
Lemma opening_note s t r kind now : truthy t = true → truthy r = true →
  (∀ e, JMap.get (su_byKey s) (role_key t r) = Some e → ep_kind e ≠ kind) →
  ∃ e, in_episode (role_key t r) kind (suppress_call s (t, r, do_note kind now)).1 e ∧ ep_count e = 1 ∧ ep_lastProbeAt e = now ∧
    same_limits s (suppress_call s (t, r, do_note kind now)).1 ∧
    (suppress_call s (t, r, do_note kind now)).2 = if 1 =? pend_threshold s kind then pends else nothing.
Proof.
  intros Ht Hr Hnew. unfold suppress_call, note, in_episode. rewrite Ht, Hr. cbn [negb orb].
  destruct (JMap.get (su_byKey s) (role_key t r)) as [prev|] eqn:E.
  - destruct (String.eqb_spec (ep_kind prev) kind) as [Ek|_]; [by destruct (Hnew prev eq_refl)|]. cbn.
    eexists. rewrite JMap.get_set_eq. by split_and!.
  - cbn. eexists. rewrite JMap.get_set_eq. by split_and!.
Qed.

Section episode.
Context (s : Suppressor) (t r kind : string) (now : Z) (calls : list (string * string * SuppressCall)).
Context (Ht : truthy t = true) (Hr : truthy r = true).
(** The abort opens an episode, and the calls after it belong to it. *)
Context (Hnew : ∀ e, JMap.get (su_byKey s) (role_key t r) = Some e → ep_kind e ≠ kind).
Context (Hcalls : levery (same_episode (role_key t r) kind) calls = true).

(** An episode pends its ticket once: among all aborts of an episode — between them
    triggers of humans and supervisors, and anything that happens to other tickets —
    exactly one tells its caller to pend, the one that reaches the threshold: the
    first for a durable blocker, the configured one otherwise; and none if it is not
    reached. *)
Theorem an_episode_pends_once : 1 <= su_pendAfterAborts s →
  pends_of (suppress_run (role_key t r) s ((t, r, do_note kind now) :: calls)).2 =
  if pend_threshold s kind <=? 1 + notes_of (role_key t r) calls then 1 else 0.
Proof.
  intros Hp. destruct (opening_note s t r kind now Ht Hr Hnew) as (e & He & En & _ & Hl & Ea).
  rewrite run_cons. cbn [fst snd]. rewrite String.eqb_refl, pends_of_cons, (pends_from _ _ _ _ e He Hcalls), Ea, En,
    (same_limits_threshold _ _ kind Hl).
  assert (1 <= pend_threshold s kind) by (unfold pend_threshold; destruct (isDurableProvisioningBlocker kind); lia).
  assert (0 <= notes_of (role_key t r) calls) by (unfold notes_of; lia).
  destruct (Z.eqb_spec 1 (pend_threshold s kind)); cbn [is_pend];
    repeat match goal with |- context [?a <? ?b] => destruct (Z.ltb_spec a b) | |- context [?a <=? ?b] => destruct (Z.leb_spec a b) end;
    cbn [andb]; lia.
Qed.

(** Supervisors probe once per window: within an episode, however often a supervisor
    sends its trigger and whatever comes in between, the triggers that are let through
    are at least a cooldown apart, the first at least a cooldown after the abort that
    opened the episode. *)
Theorem probes_are_spaced :
  spaced (su_cooldownMs s) now (omap probe_time (suppress_run (role_key t r) s ((t, r, do_note kind now) :: calls)).2).
Proof.
  destruct (opening_note s t r kind now Ht Hr Hnew) as (e & He & _ & Ep & [Hl _] & Ea).
  rewrite run_cons. cbn [fst snd]. rewrite String.eqb_refl.
  assert (E : omap probe_time ((suppress_call s (t, r, do_note kind now)).2 ::
    (suppress_run (role_key t r) (suppress_call s (t, r, do_note kind now)).1 calls).2) =
    omap probe_time (suppress_run (role_key t r) (suppress_call s (t, r, do_note kind now)).1 calls).2)
    by (rewrite Ea; by destruct (1 =? _)).
  rewrite E. pose proof (probes_from _ kind calls _ e He Hcalls) as H. by rewrite Ep, Hl in H.
Qed.
End episode.

(** Humans and state changes always pass, and leave no trace. *)
Lemma humans_always_pass ticketId role now s : shouldSuppress ticketId role now false s = (s, let_through).
Proof. unfold shouldSuppress. destruct (_ || _); [done|]. by destruct (JMap.get _ _). Qed.

(** ** Concrete runs *)

Definition sample_suppressor : Suppressor := new_suppressor 0 0.

(** Four aborts of a transient kind; a supervisor asks every five minutes. *)
Definition sample_calls : list (string * string * SuppressCall) :=
  [("t", "dev", do_query 300000 true); ("t", "dev", do_query 600000 true); ("t", "dev", do_note "worktree:path_conflict" 600500);
   ("u", "dev", do_clear); ("t", "dev", do_query 900000 true); ("t", "dev", do_query 1200000 true);
   ("t", "dev", do_note "worktree:path_conflict" 1200500); ("t", "dev", do_query 1201000 false);
   ("t", "dev", do_note "worktree:path_conflict" 1201500)].

Lemma an_episode_pends_once_witness :
  pends_of (suppress_run "t:dev" sample_suppressor (("t", "dev", do_note "worktree:path_conflict" 0) :: sample_calls)).2 = 1.
Proof.
  refine (an_episode_pends_once sample_suppressor "t" "dev" "worktree:path_conflict" 0 sample_calls eq_refl eq_refl _ eq_refl _).
  - intros e H. discriminate H.
  - vm_compute. discriminate.
Defined.

Lemma probes_are_spaced_witness :
  omap probe_time (suppress_run "t:dev" sample_suppressor (("t", "dev", do_note "worktree:path_conflict" 0) :: sample_calls)).2 =
    [600000; 1200000] ∧ spaced 600000 0 [600000; 1200000].
Proof.
  split; [reflexivity|].
  refine (probes_are_spaced sample_suppressor "t" "dev" "worktree:path_conflict" 0 sample_calls eq_refl eq_refl _ eq_refl).
  intros e H. discriminate H.
Defined.
