(* ===== verification/TicketDispatch.v ===== *)
(** * Ticket dispatch

    The board's tickets outside missions: [TicketDispatchService]
    ([modules/agents/ticket-dispatch.service.ts], with [common/ticket-status.ts],
    [modules/agents/priority.ts] and the flips of
    [modules/tickets/ticket-prerequisites.service.ts]) decides when a ticket's assignee
    is sent a trigger.  It starts queued tickets while their agent has capacity, sends
    again what someone unblocked, and supervises what is in progress: an agent that
    fell silent is sent for again a few times and then the ticket is parked for a
    human.

    Methods are programs whose every awaited query is one step; any number of them
    run on any number of servers, beside everything else that writes tickets.  The
    notes a server keeps in memory ([nackRetryAt], [offlineNoticeAt]) are kept under
    its name. *)

From S2P Require Import Prelude JsStd.
From S2P Require Import Concurrent.
#[local] Open Scope Z_scope.

(** ** Rows *)

(** What the dispatcher reads of a [RuntimeSpec]: its host and its identity. *)
Record Assignee := { as_host : string; as_key : string }.

#[export] Instance Assignee_eq_dec : EqDecision Assignee.
Proof. solve_decision. Defined.

(** [tickets]: an absent id is empty; [tk_assignee] is what [parseRuntimeSpec] makes of
    the column. *)
Record TicketRow := {
  tk_id : string;
  tk_account_id : string;
  tk_parent_id : string;
  tk_canonical : string;
  tk_next : string;
  tk_archived : bool;
  tk_status : string;
  tk_priority : string;
  tk_position : Z;
  tk_created_at : Z;
  tk_assignee : option Assignee;
  tk_assignee_key : string;
  tk_pending_user_action : bool;
  tk_pending_on_tickets : bool;
  tk_pending_ci_wait : bool;
  tk_pending_set_by : string;
  tk_last_dispatched_at : option Z;
  tk_redispatches : Z;
  tk_live_since : option Z;
  tk_live_at : option Z
}.

(** [accounts], [runtime_hosts], [comments], [activity_logs] *)
Record AccountRow := {
  ac_id : string;
  ac_paused : bool;
  ac_max_concurrent : Z;
  ac_stale_ms : Z;
  ac_resend_ms : Z
}.
Record HostRow := { ho_id : string; ho_account_id : string; ho_is_active : bool }.
Record CommentRow := { co_id : string; co_ticket_id : string; co_author_type : string; co_content : string; co_created_at : Z }.
Record ActivityRow := {
  al_entity_type : string;
  al_entity_id : string;
  al_ticket_id : string;
  al_account_id : string;
  al_action : string;
  al_field : string;
  al_value : string;
  al_actor_id : string;
  al_created_at : Z
}.

(** An emitted [agent_trigger]. *)
Record TicketTrigger := { tg_id : string; tg_ticket : TicketRow; tg_source : string; tg_force : bool }.

(** What the dispatcher's conditional UPDATEs did, for the statements about histories:
    the claim of a queued ticket, a supervisor's claim of a re-send with the count it
    found, the evidence of a live process it had and the time of its sweep, a reset of
    the count, a park with the row it met, and a ticket put in the queue.  Besides: the
    supervisor's look at the output of a process before it parks its ticket; a ticket
    that another service saved whole, as it had read it before, with the count it had
    then ([repo.save(ticket)] of [modules/tickets/ticket.service.ts]); and an output that
    became known. *)
Inductive TicketEvent : Type :=
  | h_start (id : string)
  | h_resend (id : string) (count : Z) (live_at : option Z) (now : Z)
  | h_reset (id : string)
  | h_park (row : TicketRow) (liveQuiet : bool) (now : Z)
  | h_queued (id : string)
  | h_look (id : string) (output now : Z)
  | h_saved (id : string) (count : Z)
  | h_output (id : string) (at_ : Z).

Record TicketDb := {
  td_tickets : list TicketRow;
  td_accounts : list AccountRow;
  td_hosts : list HostRow;
  td_comments : list CommentRow;
  td_activity : list ActivityRow;
  (** (ticket, prerequisite) *)
  td_prerequisites : list (string * string);
  td_users : list string;
  td_now : Z;
  td_nonce : nat;
  td_quiesced : bool;
  (** the hosts of [connectivity] and [instanceRegistry] *)
  td_reachable : list string;
  (** [getLatestOutputLivenessForTicket] *)
  td_outputs : list (string * Z);
  (** the (agent, ticket) with a live strand *)
  td_strands : list (string * string);
  (** the answer of a host that refuses to prepare the ticket's runtime *)
  td_refuses : TicketRow → option string;
  (** the exception of building the ticket's trigger *)
  td_build_fails : TicketRow → option string;
  (** by server and ticket: the time of the retry, and the attempts *)
  td_nacks : gmap (string * string) (Z * Z);
  td_offline : gmap (string * string) Z;
  td_emitted : list TicketTrigger;
  td_history : list TicketEvent
}.

(** What an activity leaves behind: the listener of the server that logged it. *)
Inductive TicketJob : Type := on_activity_of (server : string) (activity : ActivityRow).

Abbreviation T := (prog TicketDb TicketJob).

Definition tread {A} (f : TicketDb → A) : T A := query id (λ db, done_ (f db)).
Definition twrite {A} (upd : TicketDb → TicketDb) (f : TicketDb → A) : T A := query upd (λ db, done_ (f db)).

Fixpoint teach {A} (body : A → T unit) (l : list A) : T unit :=
  match l with
  | [] => mret tt
  | a :: l => _ ← body a; teach body l
  end.

(** ** Queries *)

Definition find_ticket (id : string) (db : TicketDb) : option TicketRow :=
  List.find (λ t, String.eqb (tk_id t) id) (td_tickets db).
Definition find_account (id : string) (l : list AccountRow) : option AccountRow :=
  List.find (λ a, String.eqb (ac_id a) id) l.
Definition find_host (id : string) (db : TicketDb) : option HostRow :=
  List.find (λ h, String.eqb (ho_id h) id) (td_hosts db).

(** [repo.update(where, set)]: [affected], and what the history keeps of each row. *)
Definition update_rows (where_ : TicketRow → bool) (set_ : TicketRow → TicketRow) (note_ : TicketRow → list TicketEvent)
    (db : TicketDb) : TicketDb :=
  db<|td_tickets ::= List.map (λ t, if where_ t then set_ t else t)|>
    <|td_history ::= λ h, h ++ List.flat_map note_ (lfilter where_ (td_tickets db))|>.

Definition update_tickets (where_ : TicketRow → bool) (set_ : TicketRow → TicketRow) (note_ : TicketRow → list TicketEvent)
    : T bool := twrite (update_rows where_ set_ note_) (λ db, lsome where_ (td_tickets db)).

Definition save_activity (a : ActivityRow) (db : TicketDb) : TicketDb :=
  db<|td_activity ::= λ l, l ++ [a<|al_created_at := td_now db|>]|>.

(** [activityLog.save(...)] tells nobody; [activityService.logActivity] does. *)
Definition saveActivity (a : ActivityRow) : T unit := twrite (save_activity a) (λ _, tt).
Definition logActivity (server : string) (a : ActivityRow) : T unit :=
  query (save_activity a) (λ db, fork (on_activity_of server (a<|al_created_at := td_now db|>)) (done_ tt)).

(** A row of the dispatcher's. *)
Definition ticket_activity (t : TicketRow) (action field value actor : string) : ActivityRow :=
  {| al_entity_type := "ticket"; al_entity_id := tk_id t; al_ticket_id := tk_id t; al_account_id := tk_account_id t;
     al_action := action; al_field := field; al_value := value; al_actor_id := actor; al_created_at := 0 |}.

(** ** Tickets *)

Definition isTicketPending (t : TicketRow) : bool :=
  tk_pending_user_action t || tk_pending_on_tickets t || tk_pending_ci_wait t.

Definition PRIORITY_ORDER : list string := ["critical"; "high"; "medium"; "low"].
Definition priorityIndex (p : string) : Z :=
  let s := toLowerCase (if truthy p then p else "medium") in
  match list_find (λ x, x = s) PRIORITY_ORDER with Some (i, _) => Z.of_nat i | None => Z.of_nat (length PRIORITY_ORDER) end.

Definition MAX_SUPERVISOR_REDISPATCHES : Z := 3.
Definition SUPERVISOR_LIVE_QUIET_LIMIT_MS : Z := 2 * 60 * 60000.
Definition SUPERVISOR_LIVE_ACK_TTL_MS : Z := 15 * 60000.
Definition NACK_RETRY_BASE_MS : Z := 60000.
Definition OFFLINE_NOTICE_COOLDOWN_MS : Z := 60 * 60000.
Definition NACK_RETRY_STALE_MS : Z := 24 * 60 * 60000.

(** [value || d] *)
Definition or_default (value d : Z) : Z := if value =? 0 then d else value.

Definition cap_of (a : AccountRow) : Z := Z.max 1 (or_default (ac_max_concurrent a) 1).

Definition with_progress (t : TicketRow) : TicketRow :=
  t<|tk_redispatches := 0|><|tk_live_since := None|><|tk_live_at := None|>.

Definition isHostReachable (spec : Assignee) (db : TicketDb) : bool :=
  truthy (as_host spec) && includes (td_reachable db) (as_host spec).

Definition latest_output (id : string) (db : TicketDb) : Z := default 0 (JMap.get (td_outputs db) id).
Definition latestCommentAt (id : string) (db : TicketDb) : Z :=
  foldr Z.max 0 (List.map co_created_at (lfilter (λ c, String.eqb (co_ticket_id c) id) (td_comments db))).
Definition hasLiveRoleStrand (key id : string) (db : TicketDb) : bool := bool_decide ((key, id) ∈ td_strands db).

(** The newest row of an action; of rows of one time the one saved last. *)
Definition newest_of (l : list ActivityRow) : option ActivityRow :=
  foldl (λ best a, match best with
                   | Some b => if al_created_at b <=? al_created_at a then Some a else best
                   | None => Some a
                   end) None l.
Definition latest_emitted (id : string) (db : TicketDb) : option ActivityRow :=
  newest_of (lfilter (λ a, String.eqb (al_ticket_id a) id && String.eqb (al_action a) "trigger_emitted") (td_activity db)).

Inductive DispatchResult : Type := sent (trigger_id : option string) | held (reason : string).
Definition was_sent (r : DispatchResult) : bool := match r with sent _ => true | held _ => false end.

Section service.
(** [randomUUID()] *)
Context (uuid : nat → string).

(** ** Sending *)

(** [noteOffline]; of its text the row keeps the host. *)
Definition noteOffline (server : string) (t : TicketRow) (spec : Assignee) : T unit :=
  due ← query (λ db,
          let now := td_now db in
          if now - default 0 (td_offline db !! (server, tk_id t)) <? OFFLINE_NOTICE_COOLDOWN_MS then db
          else db<|td_offline ::= <[(server, tk_id t) := now]>|>)
        (λ db, done_ (negb (td_now db - default 0 (td_offline db !! (server, tk_id t)) <? OFFLINE_NOTICE_COOLDOWN_MS)));
  if due : bool then logActivity server (ticket_activity t "dispatch_deferred" "host_offline" (as_host spec) "") else mret tt.

(** The end of [dispatch]: the correlation row, then the emit. *)
Definition emitTrigger (t : TicketRow) (spec : Assignee) (source : string) (force : bool) : T DispatchResult :=
  id ← twrite (λ db, db<|td_nonce ::= S|>) (λ db, uuid (td_nonce db));
  _ ← saveActivity (ticket_activity t "trigger_emitted" id (as_key spec) "");
  _ ← query (λ db, update_rows (λ r, String.eqb (tk_id r) (tk_id t))
               (λ r, let r' := r<|tk_last_dispatched_at := Some (td_now db)|> in
                     if String.eqb source "supervisor" then r' else r'<|tk_live_since := None|><|tk_live_at := None|>)
               (λ _, []) db) (λ _, done_ tt);
  twrite (λ db, db<|td_emitted ::= λ l, l ++ [{| tg_id := id; tg_ticket := t; tg_source := source; tg_force := force |}]|>)
    (λ _, sent (Some id)).

(** [dispatch], on a row that was read before *)
Definition dispatchTicket (server : string) (t : TicketRow) (source : string) (force : bool) : T DispatchResult :=
  if tk_archived t then mret (held "archived")
  else if isTicketPending t then mret (held "pending")
  else if truthy (tk_canonical t) then mret (held "duplicate")
  else if negb (String.eqb (tk_status t) "in_progress") && negb (String.eqb (tk_status t) "todo")
  then mret (held ("status_" +:+ tk_status t))
  else
    match tk_assignee t with
    | None => mret (held "unassigned")
    | Some spec =>
        host ← tread (find_host (as_host spec));
        if negb (match host with Some h => ho_is_active h && String.eqb (ho_account_id h) (tk_account_id t) | None => false end)
        then mret (held "host_account_mismatch")
        else
          account ← tread (λ db, find_account (tk_account_id t) (td_accounts db));
          match account with
          | None => mret (held "account_missing")
          | Some a =>
              if ac_paused a then mret (held "account_paused")
              else
                quiesced ← tread td_quiesced;
                if quiesced : bool then mret (held "instance_quiesced")
                else
                  reachable ← tread (isHostReachable spec);
                  if negb reachable
                  then _ ← noteOffline server t spec; mret (held "host_offline")
                  else
                    refused ← tread (λ db, td_refuses db t);
                    match refused with
                    | Some reason =>
                        _ ← saveActivity (ticket_activity t "dispatch_failed" source (slice 500 reason) "");
                        mret (held "runtime_refused")
                    | None =>
                        failed ← tread (λ db, td_build_fails db t);
                        match failed with
                        | Some err =>
                            _ ← saveActivity (ticket_activity t "dispatch_failed" source (slice 500 err) "");
                            mret (held "build_failed")
                        | None => emitTrigger t spec source force
                        end
                    end
          end
    end.

(** ** The queue *)

Record QueueFilter := { qf_accountId : string; qf_assigneeKey : string }.
Definition no_filter : QueueFilter := {| qf_accountId := ""; qf_assigneeKey := "" |}.

Definition unpended (t : TicketRow) : bool :=
  negb (tk_pending_user_action t) && negb (tk_pending_on_tickets t) && negb (tk_pending_ci_wait t).

Definition is_queued (filter_ : QueueFilter) (t : TicketRow) : bool :=
  String.eqb (tk_status t) "todo" && negb (tk_archived t) && negb (truthy (tk_parent_id t)) && negb (truthy (tk_canonical t))
  && unpended t
  && (if truthy (qf_assigneeKey filter_) then String.eqb (tk_assignee_key t) (qf_assigneeKey filter_)
      else truthy (tk_assignee_key t))
  && (if truthy (qf_accountId filter_) then String.eqb (tk_account_id t) (qf_accountId filter_) else true).

(** A ticket in progress that takes one of its agent's slots. *)
Definition is_running (t : TicketRow) : bool :=
  String.eqb (tk_status t) "in_progress" && negb (tk_archived t) && negb (truthy (tk_parent_id t)) && unpended t.

(** By priority, then position, then age: a stable sort by each key, the last one first. *)
Definition queue_order (l : list TicketRow) : list TicketRow :=
  sort_by (λ t, priorityIndex (tk_priority t)) (sort_by tk_position (sort_by tk_created_at l)).

Definition running_of (key : string) (l : list TicketRow) : Z :=
  Z.of_nat (length (lfilter (λ t, is_running t && String.eqb (tk_assignee_key t) key) l)).

(** [runningCounts], for the keys of the queued tickets *)
Definition runningCounts (keys : list string) (db : TicketDb) : list (string * Z) :=
  lfilter (λ e, negb (e.2 =? 0)) (List.map (λ k, (k, running_of k (td_tickets db))) (new_Set keys)).

Definition take_rows : nat := 500.

(** The claim of a queued ticket: only one pump wins it. *)
Definition claimQueued (t : TicketRow) : T bool :=
  update_tickets (λ r, String.eqb (tk_id r) (tk_id t) && String.eqb (tk_status r) "todo")
    (λ r, r<|tk_status := "in_progress"|>) (λ r, [h_start (tk_id r)]).

(** The loop of [pump]; [running] is its map, [started] its count. *)
Fixpoint pump_loop (server : string) (accounts : list AccountRow) (running : list (string * Z)) (started : Z)
    (queued : list TicketRow) : T Z :=
  match queued with
  | [] => mret started
  | ticket :: rest =>
      let next := pump_loop server accounts running started rest in
      match find_account (tk_account_id ticket) accounts with
      | None => next
      | Some account =>
          if ac_paused account then next
          else
            let inFlight := default 0 (JMap.get running (tk_assignee_key ticket)) in
            if cap_of account <=? inFlight then next
            else
              match tk_assignee ticket with
              | None => next
              | Some spec =>
                  reachable ← tread (isHostReachable spec);
                  if negb reachable then _ ← noteOffline server ticket spec; next
                  else
                    claimed ← claimQueued ticket;
                    if negb claimed then next
                    else
                      let running' := JMap.set running (tk_assignee_key ticket) (inFlight + 1) in
                      let ticket' := ticket<|tk_status := "in_progress"|> in
                      _ ← logActivity server (ticket_activity ticket' "moved" "status" "in_progress" "");
                      result ← dispatchTicket server ticket' "start" false;
                      pump_loop server accounts running' (if was_sent result then started + 1 else started) rest
              end
      end
  end.

(** [pump]; its server runs one at a time ([pumpChain]) *)
Definition pumpQueue (server : string) (filter_ : QueueFilter) : T Z :=
  quiesced ← tread td_quiesced;
  if quiesced : bool then mret 0
  else
    queued ← tread (λ db, take take_rows (lfilter (is_queued filter_) (td_tickets db)));
    match queued with
    | [] => mret 0
    | _ =>
        let ordered := queue_order queued in
        accounts ← tread (λ db, lfilter (λ a, includes (List.map tk_account_id ordered) (ac_id a)) (td_accounts db));
        running ← tread (runningCounts (List.map tk_assignee_key ordered));
        pump_loop server accounts running 0 ordered
    end.

(** [startQueued] *)
Definition startQueued (server : string) (filter_ : QueueFilter) : T Z := pumpQueue server filter_.

(** ** Resuming *)

Definition resumeTicket (server ticketId source : string) : T DispatchResult :=
  ticket ← tread (find_ticket ticketId);
  match ticket with
  | None => mret (held "not_found")
  | Some t =>
      if String.eqb (tk_status t) "todo" then
        _ ← startQueued server {| qf_accountId := ""; qf_assigneeKey := tk_assignee_key t |};
        fresh ← tread (find_ticket ticketId);
        mret (if match fresh with Some f => String.eqb (tk_status f) "in_progress" | None => false end
              then sent None else held "queued")
      else if negb (String.eqb (tk_status t) "in_progress") then mret (held ("status_" +:+ tk_status t))
      else dispatchTicket server t source false
  end.

(** [blockReason] *)
Definition blockReason (t : TicketRow) : T string :=
  if isTicketPending t then mret "pending"
  else if tk_archived t then mret "archived"
  else if truthy (tk_canonical t) then mret "duplicate"
  else
    account ← tread (λ db, find_account (tk_account_id t) (td_accounts db));
    if match account with Some a => ac_paused a | None => false end then mret "account_paused"
    else
      match tk_assignee t with
      | None => mret "unassigned"
      | Some spec =>
          reachable ← tread (isHostReachable spec);
          if negb reachable then mret "host_offline"
          else
            let cap := match account with Some a => cap_of a | None => 1 end in
            inFlight ← tread (λ db, running_of (tk_assignee_key t) (td_tickets db));
            mret (if cap <=? inFlight then "agent_busy" else "queued")
      end.

Definition manualTrigger (server ticketId : string) : T DispatchResult :=
  ticket ← tread (find_ticket ticketId);
  match ticket with
  | None => mret (held "not_found")
  | Some t =>
      if negb (truthy (tk_assignee_key t)) then mret (held "unassigned")
      else if String.eqb (tk_status t) "todo" then
        started ← startQueued server {| qf_accountId := ""; qf_assigneeKey := tk_assignee_key t |};
        fresh ← tread (find_ticket ticketId);
        if match fresh with Some f => String.eqb (tk_status f) "in_progress" | None => false end then mret (sent None)
        else if started =? 0 then reason ← blockReason t; mret (held reason)
        else mret (held "queued")
      else if negb (String.eqb (tk_status t) "in_progress") then mret (held ("status_" +:+ tk_status t))
      else dispatchTicket server t "manual" false
  end.

(** [resumeAfterHostRestart]: the tickets resumed, and those skipped with the reason. *)
Fixpoint resume_each (server : string) (hosts : list string) (assigneeKey : string) (resumed : list string)
    (skipped : list (string * string)) (ids : list string) : T (list string * list (string * string)) :=
  match ids with
  | [] => mret (resumed, skipped)
  | id :: rest =>
      ticket ← tread (find_ticket id);
      match ticket with
      | None => resume_each server hosts assigneeKey resumed (skipped ++ [(id, "not_found")]) rest
      | Some t =>
          let here := match tk_assignee t with Some a => truthy (as_host a) && includes hosts (as_host a) | None => false end in
          if negb here || (truthy assigneeKey && negb (String.eqb (tk_assignee_key t) assigneeKey))
          then resume_each server hosts assigneeKey resumed (skipped ++ [(id, "not_this_host")]) rest
          else
            result ← resumeTicket server id "manager_restart";
            match result with
            | sent _ => resume_each server hosts assigneeKey (resumed ++ [id]) skipped rest
            | held reason =>
                resume_each server hosts assigneeKey resumed
                  (skipped ++ [(id, if truthy reason then reason else "not_dispatched")]) rest
            end
      end
  end.
Definition resumeAfterHostRestart (server : string) (ticketIds hostIds : list string) (assigneeKey : string)
    : T (list string * list (string * string)) :=
  resume_each server (lfilter truthy hostIds) assigneeKey [] [] (new_Set (lfilter truthy ticketIds)).

(** ** Acknowledgements of the managers *)

Inductive AckOutcome : Type := processed | nack | suppressed.

#[export] Instance AckOutcome_eq_dec : EqDecision AckOutcome.
Proof. solve_decision. Defined.

Definition outcome_name (o : AckOutcome) : string :=
  match o with processed => "processed" | nack => "nack" | suppressed => "suppressed" end.

Record ManagerAck := {
  ak_ticketId : string;
  ak_triggerId : string;
  ak_outcome : AckOutcome;
  ak_reason : string;
  ak_managerAgentId : string
}.

(** [args.managerAgentId === ticket.assignee?.manager_agent_id]; an ack names its manager,
    and a ticket whose identity was emitted has an assignee. *)
Definition from_its_host (ack : ManagerAck) (t : TicketRow) : bool :=
  match tk_assignee t with Some a => String.eqb (ak_managerAgentId ack) (as_host a) | None => false end.

Definition answers_latest (ack : ManagerAck) (t : TicketRow) (emitted : option ActivityRow) : bool :=
  match emitted with
  | Some e => String.eqb (al_field e) (ak_triggerId ack) && String.eqb (al_value e) (tk_assignee_key t)
  | None => false
  end.

(** An ack may vouch for a live process. *)
Definition vouches (ack : ManagerAck) (t : TicketRow) (emitted : option ActivityRow) (now : Z) : bool :=
  String.eqb (tk_status t) "in_progress" && negb (isTicketPending t) && negb (tk_archived t)
  && negb (truthy (tk_parent_id t)) && negb (truthy (tk_canonical t)) && from_its_host ack t && answers_latest ack t emitted
  && match emitted with
     | Some e => String.eqb (al_account_id e) (tk_account_id t) && (now - al_created_at e <? SUPERVISOR_LIVE_ACK_TTL_MS)
     | None => false
     end.

(** The row is as it was read, in what an ack of a live process depends on. *)
Definition same_evidence (t r : TicketRow) : bool :=
  String.eqb (tk_id r) (tk_id t) && String.eqb (tk_assignee_key r) (tk_assignee_key t)
  && bool_decide (tk_last_dispatched_at r = tk_last_dispatched_at t)
  && bool_decide (tk_live_since r = tk_live_since t) && bool_decide (tk_live_at r = tk_live_at t).

(** The renewal of the evidence; [false]: not applied. *)
Definition renewEvidence (ack : ManagerAck) (t : TicketRow) : T bool :=
  emitted ← tread (latest_emitted (tk_id t));
  now ← tread td_now;
  if negb (vouches ack t emitted now) then mret false
  else
    duplicate ← tread (λ db, lsome (λ a, String.eqb (al_ticket_id a) (tk_id t)
                                         && String.eqb (al_action a) "dispatch_ack_suppressed"
                                         && String.eqb (al_field a) (ak_triggerId ack)
                                         && String.eqb (al_value a) "inflight_live_process") (td_activity db));
    if duplicate : bool then mret false
    else
      update_tickets (λ r, same_evidence t r && String.eqb (tk_status r) "in_progress" && unpended r
                           && (tk_redispatches r =? tk_redispatches t))
        (λ r, r<|tk_live_since := Some (default now (tk_live_since t))|><|tk_live_at := Some now|>) (λ _, []).

(** A replacement was spawned: the quiet process is not the holder any more. *)
Definition forgetEvidence (ack : ManagerAck) (t : TicketRow) : T unit :=
  if bool_decide (ak_outcome ack = processed) && bool_decide (is_Some (tk_live_since t)) then
    emitted ← tread (latest_emitted (tk_id t));
    if answers_latest ack t emitted && from_its_host ack t
    then _ ← update_tickets (same_evidence t) (λ r, r<|tk_live_since := None|><|tk_live_at := None|>) (λ _, []); mret tt
    else mret tt
  else mret tt.

Definition applyManagerAck (server : string) (ack : ManagerAck) : T bool :=
  ticket ← tread (find_ticket (ak_ticketId ack));
  match ticket with
  | None => mret false
  | Some t =>
      go ← (if bool_decide (ak_outcome ack = suppressed) && String.eqb (ak_reason ack) "inflight_live_process"
            then renewEvidence ack t else mret true);
      if negb go then mret false
      else
        _ ← forgetEvidence ack t;
        _ ← saveActivity (ticket_activity t ("dispatch_ack_" +:+ outcome_name (ak_outcome ack)) (ak_triggerId ack)
                            (slice 500 (ak_reason ack)) (ak_managerAgentId ack));
        twrite (λ db,
          let key := (server, ak_ticketId ack) in
          match ak_outcome ack with
          | nack =>
              let attempts := match td_nacks db !! key with Some (_, n) => n | None => 0 end + 1 in
              db<|td_nacks ::= <[key := (td_now db + NACK_RETRY_BASE_MS * Z.min (2 ^ (attempts - 1)) 30, attempts)]>|>
          | _ => db<|td_nacks ::= delete key|>
          end) (λ _, true)
  end.

(** ** Activities *)

Definition isUser (id : string) (db : TicketDb) : bool := includes (td_users db) id.

(** The agent made progress: the supervisor starts over. *)
Definition noteProgress (id : string) : T unit :=
  _ ← update_tickets (λ r, String.eqb (tk_id r) id) with_progress (λ r, [h_reset (tk_id r)]); mret tt.

Definition supervised (t : TicketRow) : bool := (0 <? tk_redispatches t) || bool_decide (is_Some (tk_live_since t)).

Definition onComment (server commentId ticketId actorId : string) : T unit :=
  comment ← tread (λ db, List.find (λ c, String.eqb (co_id c) commentId) (td_comments db));
  match comment with
  | None => mret tt
  | Some c =>
      ticket ← tread (find_ticket ticketId);
      match ticket with
      | None => mret tt
      | Some t =>
          if truthy (tk_parent_id t) then mret tt
          else if negb (String.eqb (co_author_type c) "user") then
            if String.eqb (co_author_type c) "agent" && negb (String.eqb actorId "system") && supervised t
            then noteProgress (tk_id t) else mret tt
          else if negb (String.eqb (tk_status t) "in_progress") || negb (truthy (tk_assignee_key t)) || isTicketPending t
          then mret tt
          else if str_includes (tk_assignee_key t) (co_content c) then mret tt
          else _ ← dispatchTicket server t "comment" false; mret tt
      end
  end.

(** [anyPrereqOpen] *)
Fixpoint anyPrereqOpen (prerequisites : list string) : T bool :=
  match prerequisites with
  | [] => mret false
  | p :: rest =>
      prereq ← tread (find_ticket p);
      match prereq with
      | None => anyPrereqOpen rest
      | Some t => if tk_archived t then anyPrereqOpen rest
                  else if negb (String.eqb (tk_status t) "done") then mret true else anyPrereqOpen rest
      end
  end.

(** [evaluatePendingForDependentScoped]: what [pending_on_tickets] is now *)
Definition evaluatePendingForDependent (id : string) : T bool :=
  ticket ← tread (find_ticket id);
  match ticket with
  | None => mret false
  | Some t =>
      links ← tread (λ db, List.map snd (lfilter (λ l, String.eqb (fst l) id) (td_prerequisites db)));
      next ← anyPrereqOpen links;
      if Bool.eqb next (tk_pending_on_tickets t) then mret next
      else _ ← update_tickets (λ r, String.eqb (tk_id r) id) (λ r, r<|tk_pending_on_tickets := next|>) (λ _, []); mret next
  end.

(** [_reevaluateAndCollectFlips] *)
Fixpoint collectFlips (unblocked ids : list string) : T (list string) :=
  match ids with
  | [] => mret unblocked
  | id :: rest =>
      before ← tread (find_ticket id);
      match before with
      | None => collectFlips unblocked rest
      | Some b =>
          now_pending ← evaluatePendingForDependent id;
          collectFlips (if tk_pending_on_tickets b && negb now_pending then unblocked ++ [id] else unblocked) rest
      end
  end.
Definition onPrerequisiteReached (id : string) : T (list string) :=
  dependents ← tread (λ db, new_Set (List.map fst (lfilter (λ l, String.eqb (snd l) id) (td_prerequisites db))));
  collectFlips [] dependents.

(** [resolveDuplicates] *)
Definition resolveDuplicates (server : string) (canonical : TicketRow) : T unit :=
  duplicates ← tread (λ db, lfilter (λ r, String.eqb (tk_canonical r) (tk_id canonical) && negb (String.eqb (tk_status r) "done"))
                              (td_tickets db));
  teach (λ duplicate,
    claimed ← update_tickets (λ r, String.eqb (tk_id r) (tk_id duplicate) && String.eqb (tk_status r) (tk_status duplicate))
      (λ r, r<|tk_status := "done"|><|tk_pending_user_action := false|><|tk_pending_on_tickets := false|>
             <|tk_pending_ci_wait := false|><|tk_redispatches := 0|>) (λ r, [h_reset (tk_id r)]);
    if negb claimed then mret tt
    else logActivity server (ticket_activity duplicate "moved" "resolved_from_canonical" "done" "system")) duplicates.

(** The next ticket of a finished one joins the queue. *)
Definition promoteNext (server : string) (t : TicketRow) : T unit :=
  if negb (truthy (tk_next t)) then mret tt
  else
    next ← tread (find_ticket (tk_next t));
    match next with
    | None => mret tt
    | Some n =>
        if negb (String.eqb (tk_account_id n) (tk_account_id t) && String.eqb (tk_status n) "backlog" && negb (tk_archived n))
        then mret tt
        else
          moved ← update_tickets (λ r, String.eqb (tk_id r) (tk_id n) && String.eqb (tk_status r) "backlog")
            (λ r, r<|tk_status := "todo"|>) (λ r, [h_queued (tk_id r)]);
          if negb moved then mret tt else logActivity server (ticket_activity n "moved" "status" "todo" "")
    end.

Definition onDone (server : string) (t : TicketRow) : T unit :=
  if truthy (tk_canonical t) then mret tt
  else
    _ ← resolveDuplicates server t;
    _ ← promoteNext server t;
    flipped ← onPrerequisiteReached (tk_id t);
    teach (λ id, _ ← resumeTicket server id "prerequisite_resolved"; mret tt) flipped.

(** [onActivity] *)
Definition onActivity (server : string) (activity : ActivityRow) : T unit :=
  let requeue account := _ ← startQueued server {| qf_accountId := account; qf_assigneeKey := "" |}; mret tt in
  if String.eqb (al_entity_type activity) "account" && String.eqb (al_action activity) "config_changed"
     && includes ["dispatch_paused_at"; "max_concurrent_tickets_per_agent"] (al_field activity)
  then requeue (al_entity_id activity)
  else if negb (truthy (al_ticket_id activity)) then mret tt
  else if String.eqb (al_entity_type activity) "comment" && String.eqb (al_action activity) "created"
  then onComment server (al_entity_id activity) (al_ticket_id activity) (al_actor_id activity)
  else if negb (String.eqb (al_entity_type activity) "ticket") then mret tt
  else
    ticket ← tread (find_ticket (al_ticket_id activity));
    match ticket with
    | None => if String.eqb (al_action activity) "deleted" then requeue (al_account_id activity) else mret tt
    | Some t =>
        if truthy (tk_parent_id t) then mret tt
        else
          byAgent ← (if truthy (al_actor_id activity)
                     then tread (λ db, negb (isUser (al_actor_id activity) db)) else mret false);
          _ ← (if byAgent && negb (String.eqb (al_action activity) "created") && supervised t
               then noteProgress (tk_id t) else mret tt);
          _ ← (if String.eqb (al_action activity) "moved" && String.eqb (tk_status t) "done" then onDone server t else mret tt);
          requeue (tk_account_id t)
    end.

(** ** Supervision *)

(** A ticket that the supervisor looks after. *)
Definition is_working (t : TicketRow) : bool :=
  String.eqb (tk_status t) "in_progress" && negb (tk_archived t) && negb (truthy (tk_parent_id t))
  && negb (truthy (tk_canonical t)) && truthy (tk_assignee_key t) && unpended t.

(** The read of the output in [parkStalled], which the history notes. *)
Definition look_at_output (now : Z) (t : TicketRow) (db : TicketDb) : TicketDb :=
  db<|td_history ::= λ h, h ++ [h_look (tk_id t) (latest_output (tk_id t) db) now]|>.

(** The WHERE of its UPDATE: the row is as it was read. *)
Definition parks_row (t r : TicketRow) : bool :=
  String.eqb (tk_id r) (tk_id t) && (tk_redispatches r =? tk_redispatches t) && String.eqb (tk_status r) "in_progress"
  && String.eqb (tk_assignee_key r) (tk_assignee_key t) && negb (tk_archived r) && unpended r
  && bool_decide (tk_live_since r = tk_live_since t) && bool_decide (tk_live_at r = tk_live_at t).
Definition park_row (r : TicketRow) : TicketRow :=
  r<|tk_pending_user_action := true|><|tk_pending_set_by := "AWB"|><|tk_redispatches := 0|>.

(** [parkStalled]; [now] is for the history only. *)
Definition parkStalled (server : string) (now : Z) (t : TicketRow) (liveQuiet : bool) : T unit :=
  spoke ← (if liveQuiet
           then twrite (look_at_output now t) (λ db, default 0 (tk_live_since t) <? latest_output (tk_id t) db)
           else mret false);
  if spoke : bool then mret tt
  else
    parked ← update_tickets (parks_row t) park_row (λ r, [h_park r liveQuiet now]);
    if negb parked then mret tt
    else logActivity server (ticket_activity t "updated" "pending_user_action" "true" "").

(** Output after the evidence of a live process is progress; [None]: the row had
    changed. *)
Definition noteOutput (t : TicketRow) : T (option TicketRow) :=
  latest ← tread (latest_output (tk_id t));
  match tk_live_since t with
  | Some since =>
      if since <? latest then
        progressed ← update_tickets
          (λ r, String.eqb (tk_id r) (tk_id t) && (tk_redispatches r =? tk_redispatches t)
                && bool_decide (tk_live_since r = Some since) && bool_decide (tk_live_at r = tk_live_at t))
          (λ r, r<|tk_live_since := Some latest|><|tk_redispatches := 0|>) (λ r, [h_reset (tk_id r)]);
        mret (if progressed : bool then Some (t<|tk_live_since := Some latest|><|tk_redispatches := 0|>) else None)
      else mret (Some t)
  | None => mret (Some t)
  end.

Definition liveConfirmed (t : TicketRow) (now : Z) : bool :=
  match tk_live_at t with Some at_ => now - at_ <? SUPERVISOR_LIVE_ACK_TTL_MS | None => false end.
Definition quietExpired (t : TicketRow) (now : Z) : bool :=
  match tk_live_since t with Some since => SUPERVISOR_LIVE_QUIET_LIMIT_MS <=? now - since | None => false end.

(** How long the ticket may be silent before it is sent for. *)
Definition cadenceMs (t : TicketRow) (a : AccountRow) : Z :=
  if 0 <? tk_redispatches t then Z.max 60000 (or_default (ac_resend_ms a) 300000)
  else Z.max 60000 (or_default (ac_stale_ms a) 1800000).
Definition waitMs (t : TicketRow) (a : AccountRow) (now : Z) : Z :=
  if liveConfirmed t now then Z.min (cadenceMs t a) (5 * 60000) else cadenceMs t a.

(** The claim of a re-send, by the count that was read. *)
Definition claimResend (t : TicketRow) (now : Z) : T bool :=
  update_tickets (λ r, String.eqb (tk_id r) (tk_id t) && (tk_redispatches r =? tk_redispatches t))
    (λ r, r<|tk_redispatches := tk_redispatches t + 1|>)
    (λ r, [h_resend (tk_id r) (tk_redispatches r) (tk_live_at t) now]).

(** The signals and what follows from them. *)
Definition superviseSilent (server : string) (now : Z) (a : AccountRow) (t : TicketRow) : T unit :=
  latestComment ← tread (latestCommentAt (tk_id t));
  strand ← tread (hasLiveRoleStrand (tk_assignee_key t) (tk_id t));
  if strand : bool then mret tt
  else
    output ← tread (latest_output (tk_id t));
    let lastSignal := Z.max (default 0 (tk_last_dispatched_at t)) (Z.max latestComment output) in
    if now - lastSignal <? waitMs t a now then mret tt
    else if (MAX_SUPERVISOR_REDISPATCHES <=? tk_redispatches t) && negb (liveConfirmed t now)
    then parkStalled server now t false
    else
      claimed ← claimResend t now;
      if negb claimed then mret tt
      else _ ← dispatchTicket server t "supervisor" true; mret tt.

(** The body of [supervise]'s loop, for a ticket of the snapshot. *)
Definition superviseOne (server : string) (now : Z) (accounts : list AccountRow) (snapshot : TicketRow) : T unit :=
  ticket ← tread (λ db, List.find (λ t, String.eqb (tk_id t) (tk_id snapshot) && is_working t) (td_tickets db));
  match ticket with
  | None => mret tt
  | Some t0 =>
      match find_account (tk_account_id t0) accounts with
      | None => mret tt
      | Some a =>
          if ac_paused a then mret tt
          else
            nack_ ← tread (λ db, td_nacks db !! (server, tk_id t0));
            match nack_ with
            | Some (at_, _) =>
                if at_ <=? now then
                  _ ← twrite (λ db, db<|td_nacks ::= delete (server, tk_id t0)|>) (λ _, tt);
                  _ ← dispatchTicket server t0 "nack_retry" false; mret tt
                else mret tt
            | None =>
                read_ ← noteOutput t0;
                match read_ with
                | None => mret tt
                | Some t =>
                    if liveConfirmed t now && quietExpired t now then parkStalled server now t true
                    else superviseSilent server now a t
                end
            end
      end
  end.

Definition supervise (server : string) : T unit :=
  now ← tread td_now;
  quiesced ← tread td_quiesced;
  if quiesced : bool then mret tt
  else
    working ← tread (λ db, take take_rows (lfilter is_working (td_tickets db)));
    match working with
    | [] => mret tt
    | _ =>
        accounts ← tread (λ db, lfilter (λ a, includes (List.map tk_account_id working) (ac_id a)) (td_accounts db));
        teach (superviseOne server now accounts) working
    end.

(** [pruneNotes] *)
Definition pruneNotes (server : string) (db : TicketDb) : TicketDb :=
  let now := td_now db in
  db<|td_offline ::= filter (λ e, e.1.1 = server → now - e.2 < OFFLINE_NOTICE_COOLDOWN_MS)|>
    <|td_nacks ::= filter (λ e, e.1.1 = server → now - e.2.1 < NACK_RETRY_STALE_MS)|>.

Definition sweep (server : string) : T unit :=
  _ ← twrite (pruneNotes server) (λ _, tt);
  _ ← startQueued server no_filter;
  supervise server.

(** [prepareSuppressedReplay]: the reason it is refused, or the order to build *)
Definition prepareSuppressedReplay (ticketId accountId hostId agentId : string) : T (string + TicketRow) :=
  ticket ← tread (λ db, List.find (λ t, String.eqb (tk_id t) ticketId && String.eqb (tk_account_id t) accountId) (td_tickets db));
  match ticket with
  | None => mret (inl "ticket_not_found")
  | Some t =>
      if negb (String.eqb (tk_status t) "in_progress") || tk_archived t || truthy (tk_parent_id t) then mret (inl "ticket_inactive")
      else if isTicketPending t then mret (inl "ticket_pending")
      else if truthy (tk_canonical t) then mret (inl "duplicate")
      else
        match tk_assignee t with
        | None => mret (inl "assignee_changed")
        | Some spec =>
            if negb (String.eqb (tk_assignee_key t) agentId) || negb (String.eqb (as_key spec) agentId)
            then mret (inl "assignee_changed")
            else if negb (truthy hostId) || negb (String.eqb (as_host spec) hostId) then mret (inl "host_changed")
            else
              account ← tread (λ db, find_account accountId (td_accounts db));
              match account with
              | None => mret (inl "account_not_found")
              | Some a =>
                  if ac_paused a then mret (inl "account_paused")
                  else
                    host ← tread (λ db, lsome (λ h, String.eqb (ho_id h) hostId && String.eqb (ho_account_id h) accountId
                                                    && ho_is_active h) (td_hosts db));
                    mret (if host : bool then inr t else inl "host_inactive")
              end
        end
  end.

(** ** Requests *)

(** What starts the dispatcher on a server. *)
Inductive TicketRequest : Type :=
  | rq_activity (activity : ActivityRow)
  | rq_start (filter_ : QueueFilter)
  | rq_resume (ticketId source : string)
  | rq_restart (ticketIds hostIds : list string) (assigneeKey : string)
  | rq_manual (ticketId : string)
  | rq_ack (ack : ManagerAck)
  | rq_sweep
  | rq_replay (ticketId accountId hostId agentId : string).

Definition ignoring {A} (p : T A) : T unit := _ ← p; mret tt.

Definition serve (server : string) (r : TicketRequest) : T unit :=
  match r with
  | rq_activity a => onActivity server a
  | rq_start f => ignoring (startQueued server f)
  | rq_resume id source => ignoring (resumeTicket server id source)
  | rq_restart ids hosts key => ignoring (resumeAfterHostRestart server ids hosts key)
  | rq_manual id => ignoring (manualTrigger server id)
  | rq_ack ack => ignoring (applyManagerAck server ack)
  | rq_sweep => sweep server
  | rq_replay t a h g => ignoring (prepareSuppressedReplay t a h g)
  end.

Definition ticket_job (job : TicketJob) : T unit :=
  match job with on_activity_of server activity => onActivity server activity end.
End service.

(** ** Running alone *)

(** A program that nobody interrupts: what it leaves, answers, and the jobs it leaves
    behind. *)
Fixpoint alone {A} (p : T A) (db : TicketDb) : TicketDb * A * list TicketJob :=
  match p with
  | done_ a => (db, a, [])
  | query upd k => alone (k db) (upd db)
  | fork j p' => let '(db', a, jobs) := alone p' db in (db', a, j :: jobs)
  end.
