(* ===== verification/TicketFacts.v ===== *)
(** * What ticket dispatch promises

    A history of the conditional UPDATEs of any number of servers says when a ticket
    was started, sent for again and parked ([TicketDispatch]).  Whatever runs between two
    queries, it is [history_ok]: every event has its cause.  At the end: a server that
    sweeps alone hands the ticket of a silent agent over to a human. *)

From S2P Require Import Prelude JsStd.
From S2P Require Import Concurrent.
From S2P Require Import TicketDispatch.
From stdpp Require Import pretty.
#[local] Open Scope Z_scope.

(** ** What holds of every query of a program *)

Fixpoint steps (R : TicketDb → TicketDb → Prop) {A} (p : prog TicketDb TicketJob A) : Prop :=
  match p with
  | done_ _ => True
  | query upd k => ∀ db, R db (upd db) ∧ steps R (k db)
  | fork _ p' => steps R p'
  end.

Section steps.
Context (R : TicketDb → TicketDb → Prop) `{!PreOrder R}.

Lemma steps_bind {A B} (p : T A) (k : A → T B) : steps R p → (∀ a, steps R (k a)) → steps R (p ≫= k).
Proof using Type.
  intros Hp Hk. change (p ≫= k) with (prog_bind k p). induction p as [a|upd k' IH|j p IH]; cbn in *; [apply Hk| |by apply IH].
  intros db. destruct (Hp db) as [Hr Hs]. split; [done|by apply IH].
Qed.

Lemma steps_ret {A} (a : A) : steps R (mret a : T A).
Proof using Type. done. Qed.

Lemma steps_read {A} (f : TicketDb → A) : steps R (tread f).
Proof using PreOrder0. intros db. split; [reflexivity|done]. Qed.

Lemma steps_write {A} upd (f : TicketDb → A) : (∀ db, R db (upd db)) → steps R (twrite upd f).
Proof using Type. intros H db. by split. Qed.

Lemma steps_each {A} (body : A → T unit) l : (∀ a, a ∈ l → steps R (body a)) → steps R (teach body l).
Proof using Type.
  induction l as [|a l IH]; intros H; cbn [teach]; [done|]. apply steps_bind; [apply H, list_elem_of_here|].
  intros _. apply IH. intros b Hb. by apply H, list_elem_of_further.
Qed.

Lemma steps_alone {A} (p : T A) db : steps R p → R db (alone p db).1.1.
Proof using PreOrder0.
  revert db. induction p as [a|upd k IH|j p IH]; intros db H; cbn in *; [reflexivity| |].
  - destruct (H db) as [Hr Hs]. transitivity (upd db); [done|by apply IH].
  - specialize (IH db H). by destruct (alone p db) as [[db' a] jobs].
Qed.
End steps.

Lemma alone_bind {A B} (p : T A) (k : A → T B) db :
  (alone (p ≫= k) db).1 = (alone (k (alone p db).1.2) (alone p db).1.1).1.
Proof.
  change (p ≫= k) with (prog_bind k p). revert db. induction p as [a|upd k' IH|j p IH]; intros db; cbn; [done|apply IH|].
  specialize (IH db). destruct (alone (prog_bind k p) db) as [[d1 a1] j1], (alone p db) as [[d2 a2] j2]. exact IH.
Qed.

(** [steps] looks at each query by itself; a program that counts on what an earlier query
    of its own found abides by [G] as long as everybody else does. *)
Definition abides (G : TicketDb → TicketDb → Prop) {A} (p : T A) : Prop := ∀ db, safe G (λ _ _, True) p db.

Section abides.
Context (G : TicketDb → TicketDb → Prop) `{!PreOrder G}.

Lemma steps_abides {A} (p : T A) : steps G p → abides G p.
Proof using Type.
  induction p as [a|upd k IH|j p IH]; intros H db; cbn in *; [done| |by apply IH].
  intros db' _. destruct (H db') as [Hk Hs]. split; [done|by apply IH].
Qed.

Lemma abides_ret {A} (a : A) : abides G (mret a : T A).
Proof using Type. done. Qed.

Lemma abides_read {A} (f : TicketDb → A) : abides G (tread f).
Proof using PreOrder0. apply steps_abides, steps_read. tc_solve. Qed.

Lemma abides_bind {A B} (p : T A) (k : A → T B) : abides G p → (∀ a, abides G (k a)) → abides G (p ≫= k).
Proof using PreOrder0.
  intros Hp Hk db. apply (safe_bind G (λ _ _, True)); [apply Hp|]. intros a d _ _. apply Hk.
Qed.

Lemma abides_each {A} (body : A → T unit) l : (∀ a, a ∈ l → abides G (body a)) → abides G (teach body l).
Proof using PreOrder0.
  induction l as [|a l IH]; intros H; cbn [teach]; [done|]. apply abides_bind; [apply H, list_elem_of_here|].
  intros _. apply IH. intros b Hb. by apply H, list_elem_of_further.
Qed.
End abides.

(** Splits a program into its queries; [known] closes those of named programs. *)
Ltac psteps known :=
  repeat first
    [ solve [known]
    | apply steps_ret | apply steps_read; typeclasses eauto
    | match goal with |- steps _ (teach _ _) => apply steps_each; intros end
    | apply steps_bind; [|intros ?]
    | match goal with |- steps _ (match ?x with _ => _ end) => destruct x eqn:? end
    | progress intros ].

(** The same for programs that abide. *)
Ltac pabides known :=
  repeat first
    [ solve [known]
    | apply abides_ret | apply abides_read; typeclasses eauto
    | match goal with |- abides _ (teach _ _) => apply abides_each; [typeclasses eauto|intros] end
    | apply abides_bind; [typeclasses eauto| |intros ?]
    | match goal with |- abides _ (match ?x with _ => _ end) => destruct x eqn:? end
    | progress intros ].

(** ** Histories *)

Definition recount (id : string) (n : Z) (e : TicketEvent) : Z :=
  match e with
  | h_resend i _ _ _ => if String.eqb i id then n + 1 else n
  | h_reset i => if String.eqb i id then 0 else n
  | h_park r _ _ => if String.eqb (tk_id r) id then 0 else n
  | h_saved i m => if String.eqb i id then m else n
  | h_start _ | h_queued _ | h_look _ _ _ | h_output _ _ => n
  end.

(** The re-sends of a ticket since it last made progress or was parked, on top of what a
    save of the whole row put there. *)
Definition resends (id : string) (h : list TicketEvent) : Z := foldl (recount id) 0 h.

Definition hear (id : string) (o : Z) (e : TicketEvent) : Z :=
  match e with h_output i at_ => if String.eqb i id then at_ else o | _ => o end.

(** The last output of a ticket's process that became known *)
Definition known_output (id : string) (h : list TicketEvent) : Z := foldl (hear id) 0 h.
#[local] Arguments known_output : simpl never.
#[local] Arguments latest_output : simpl never.

Definition requeue (id : string) (b : bool) (e : TicketEvent) : bool :=
  match e with
  | h_start i => if String.eqb i id then false else b
  | h_queued i => if String.eqb i id then true else b
  | _ => b
  end.

(** The ticket was put in the queue since it was last started. *)
Definition startable (id : string) (h : list TicketEvent) : bool := foldl (requeue id) true h.

(** A manager vouched for a live process at [at_], not long before [now]. *)
Definition vouched (live_at : option Z) (now : Z) : Prop :=
  ∃ at_, live_at = Some at_ ∧ now - at_ < SUPERVISOR_LIVE_ACK_TTL_MS.

(** The cause of an event, in the history before it. *)
Definition justified (h : list TicketEvent) (e : TicketEvent) : Prop :=
  match e with
  | h_start id => startable id h = true
  | h_resend id n live now => n = resends id h ∧ (n < MAX_SUPERVISOR_REDISPATCHES ∨ vouched live now)
  | h_park r live now =>
      tk_status r = "in_progress" ∧ tk_archived r = false ∧ unpended r = true ∧
      if live : bool
      then vouched (tk_live_at r) now ∧ ∃ since output, tk_live_since r = Some since ∧
             SUPERVISOR_LIVE_QUIET_LIMIT_MS ≤ now - since ∧ h_look (tk_id r) output now ∈ h ∧ output ≤ since
      else MAX_SUPERVISOR_REDISPATCHES ≤ resends (tk_id r) h
  | h_look id output _ => output = known_output id h
  | h_saved _ n => 0 ≤ n
  | h_reset _ | h_queued _ | h_output _ _ => True
  end.

Definition history_ok (h : list TicketEvent) : Prop := ∀ h1 e h2, h = h1 ++ e :: h2 → justified h1 e.

Lemma history_ok_snoc h e : history_ok h → justified h e → history_ok (h ++ [e]).
Proof.
  intros Hh He h1 x h2 E. destruct h2 as [|y h2 _] using rev_ind.
  - apply app_inj_tail in E as [-> ->]. done.
  - rewrite app_comm_cons, app_assoc in E. apply app_inj_tail in E as [E _]. by eapply Hh.
Qed.

Lemma resends_snoc id h e : resends id (h ++ [e]) = recount id (resends id h) e.
Proof. unfold resends. by rewrite foldl_app. Qed.
Lemma startable_snoc id h e : startable id (h ++ [e]) = requeue id (startable id h) e.
Proof. unfold startable. by rewrite foldl_app. Qed.
Lemma known_snoc id h e : known_output id (h ++ [e]) = hear id (known_output id h) e.
Proof. unfold known_output. by rewrite foldl_app. Qed.

Definition event_id (e : TicketEvent) : string :=
  match e with
  | h_start i | h_resend i _ _ _ | h_reset i | h_queued i | h_look i _ _ | h_saved i _ | h_output i _ => i
  | h_park r _ _ => tk_id r
  end.

(** An event of the dispatcher's own about a ticket *)
Definition own_event (id : string) (e : TicketEvent) : Prop :=
  event_id e = id ∧ ∀ i o, hear i o e = o.

Lemma recount_other id n e : event_id e ≠ id → recount id n e = n.
Proof. intros H. destruct e; cbn in *; try done; by rewrite (proj2 (String.eqb_neq _ _) H). Qed.
Lemma requeue_other id b e : event_id e ≠ id → requeue id b e = b.
Proof. intros H. destruct e; cbn in *; try done; by rewrite (proj2 (String.eqb_neq _ _) H). Qed.

(** ** The invariant of the tables *)

Definition row_ok (h : list TicketEvent) (t : TicketRow) : Prop :=
  tk_redispatches t = resends (tk_id t) h ∧ (tk_status t = "todo" → startable (tk_id t) h = true).

Record tickets_ok (db : TicketDb) : Prop := {
  to_ids : NoDup (List.map tk_id (td_tickets db));
  to_rows : ∀ t, t ∈ td_tickets db → row_ok (td_history db) t;
  to_history : history_ok (td_history db);
  to_outputs : ∀ id, latest_output id db = known_output id (td_history db)
}.

(** The invariant is kept, and nothing that was noted is forgotten. *)
Definition keeping (db db' : TicketDb) : Prop :=
  (tickets_ok db → tickets_ok db') ∧ td_history db `prefix_of` td_history db'.
#[export] Instance keeping_preorder : PreOrder keeping.
Proof. split; [by intros db|]. intros x y z [H1 P1] [H2 P2]. split; [auto|by etransitivity]. Qed.

(** Everything else: what does not touch tickets, outputs and history keeps the invariant. *)
Lemma keeping_same db db' : td_tickets db' = td_tickets db → td_history db' = td_history db →
  td_outputs db' = td_outputs db → keeping db db'.
Proof.
  intros Et Eh Eo. split; [|by rewrite Eh]. intros [H1 H2 H3 H4].
  split; rewrite ?Et, ?Eh; [done..|]. intros id. rewrite <- H4. unfold latest_output. by rewrite Eo.
Qed.

(** ** Updates *)

Lemma map_ids f (l : list TicketRow) : (∀ t, tk_id (f t) = tk_id t) → List.map tk_id (List.map f l) = List.map tk_id l.
Proof. intros H. rewrite map_map. by apply map_ext. Qed.

(** Of distinct ids, an UPDATE that names one meets at most one row. *)
Lemma one_row (where_ : TicketRow → bool) id l : NoDup (List.map tk_id l) → (∀ r, where_ r = true → tk_id r = id) →
  lfilter where_ l = [] ∨ ∃ r, r ∈ l ∧ where_ r = true ∧ lfilter where_ l = [r].
Proof.
  intros Hnd Hw. induction l as [|t l IH]; [by left|]. cbn in Hnd. apply NoDup_cons in Hnd as [Hni Hnd]. rewrite lfilter_cons.
  destruct (where_ t) eqn:E.
  - right. exists t. split_and!; [apply list_elem_of_here|done|].
    destruct (IH Hnd) as [->|(r & Hr & Er & _)]; [done|]. exfalso. apply Hni. rewrite (Hw t E), <- (Hw r Er).
    by apply list_elem_of_fmap_2.
  - destruct (IH Hnd) as [?|(r & Hr & Er & ?)]; [by left|]. right. exists r. split_and!; [by apply list_elem_of_further|done|done].
Qed.

(** The rule for UPDATEs: one row changes, with at most one event of its own, and what
    the row has to be afterwards follows from what it was. *)
Lemma keeping_update (where_ : TicketRow → bool) (set_ : TicketRow → TicketRow) (note_ : TicketRow → list TicketEvent) id db :
  (∀ r, where_ r = true → tk_id r = id) → (∀ r, tk_id (set_ r) = tk_id r) →
  (∀ r, where_ r = true → row_ok (td_history db) r →
    (note_ r = [] ∧ row_ok (td_history db) (set_ r)) ∨
    ∃ e, note_ r = [e] ∧ own_event (tk_id r) e ∧ justified (td_history db) e ∧ row_ok (td_history db ++ [e]) (set_ r)) →
  keeping db (update_rows where_ set_ note_ db).
Proof.
  intros Hw Hid Hrow. split; [|by eexists]. intros [Hnd Hrows Hh Hout]. unfold update_rows.
  assert (Hids : List.map tk_id (List.map (λ t, if where_ t then set_ t else t) (td_tickets db)) = List.map tk_id (td_tickets db))
    by (apply map_ids; intros t; by destruct (where_ t)).
  assert (Hcase : (List.flat_map note_ (lfilter where_ (td_tickets db)) = [] ∧
                   ∀ r, r ∈ td_tickets db → where_ r = true → row_ok (td_history db) (set_ r)) ∨
    ∃ r e, r ∈ td_tickets db ∧ where_ r = true ∧ List.flat_map note_ (lfilter where_ (td_tickets db)) = [e] ∧ own_event id e ∧
      justified (td_history db) e ∧ ∀ x, x ∈ td_tickets db → where_ x = true → row_ok (td_history db ++ [e]) (set_ x)).
  { destruct (one_row where_ id _ Hnd Hw) as [E|(r & Hr & Er & E)].
    - left. rewrite E. split; [done|]. intros r Hr Er. exfalso. by rewrite (proj1 (lfilter_nil _ _) E r Hr) in Er.
    - assert (Honly : ∀ x, x ∈ td_tickets db → where_ x = true → x = r).
      { intros x Hx Ex. assert (Hin : x ∈ lfilter where_ (td_tickets db)) by (by apply elem_of_lfilter). rewrite E in Hin.
        by apply list_elem_of_singleton in Hin. }
      rewrite E. cbn. rewrite app_nil_r. destruct (Hrow r Er (Hrows r Hr)) as [[-> Ho]|(e & -> & Ei & Hj & Ho)].
      + left. split; [done|]. intros x Hx Ex. by rewrite (Honly x Hx Ex).
      + right. exists r, e. split_and!; [done|done|done|by rewrite <- (Hw r Er)|done|]. intros x Hx Ex. by rewrite (Honly x Hx Ex). }
  destruct Hcase as [[E Ho]|(r & e & Hr & Er & E & [Ei Eh] & Hj & Ho)]; split; cbn; rewrite ?E, ?app_nil_r, ?Hids; try done.
  - intros t (x & -> & Hx)%list_elem_of_fmap. destruct (where_ x) eqn:Ex; [by apply Ho|by apply Hrows].
  - intros t (x & -> & Hx)%list_elem_of_fmap. destruct (where_ x) eqn:Ex; [by apply Ho|]. destruct (Hrows x Hx) as [H1 H2].
    assert (Hne : event_id e ≠ tk_id x).
    { intros En. assert (x = r) as ->; [|congruence].
      apply (NoDup_fmap_inj_on tk_id (td_tickets db)); [done|done|done|]. by rewrite <- En, Ei, (Hw r Er). }
    split; rewrite ?resends_snoc, ?startable_snoc, ?(recount_other _ _ _ Hne), ?(requeue_other _ _ _ Hne); done.
  - by apply history_ok_snoc.
  - intros i. rewrite known_snoc, Eh. apply Hout.
Qed.

Lemma keeps_update where_ set_ note_ id :
  (∀ r, where_ r = true → tk_id r = id) → (∀ r, tk_id (set_ r) = tk_id r) →
  (∀ h r, where_ r = true → row_ok h r →
    (note_ r = [] ∧ row_ok h (set_ r)) ∨
    ∃ e, note_ r = [e] ∧ own_event (tk_id r) e ∧ justified h e ∧ row_ok (h ++ [e]) (set_ r)) →
  steps keeping (update_tickets where_ set_ note_).
Proof. intros H1 H2 H3 db. split; [|done]. apply (keeping_update _ _ _ id); auto. Qed.

(** An UPDATE that leaves the count and the status alone. *)
Lemma keeps_quiet_update where_ set_ id :
  (∀ r, where_ r = true → tk_id r = id) → (∀ r, tk_id (set_ r) = tk_id r) →
  (∀ r, tk_redispatches (set_ r) = tk_redispatches r ∧ tk_status (set_ r) = tk_status r) →
  steps keeping (update_tickets where_ set_ (λ _, [])).
Proof.
  intros H1 H2 H3. apply (keeps_update _ _ _ id); [done|done|]. intros h r _ [Hr Hs]. left. split; [done|].
  destruct (H3 r) as [E1 E2]. split; rewrite ?E1, ?E2, H2; done.
Qed.

(** An UPDATE that sets the count back. *)
Lemma keeps_reset where_ set_ id :
  (∀ r, where_ r = true → tk_id r = id) → (∀ r, tk_id (set_ r) = tk_id r) →
  (∀ r, tk_redispatches (set_ r) = 0 ∧ (tk_status (set_ r) = "todo" → tk_status r = "todo")) →
  steps keeping (update_tickets where_ set_ (λ r, [h_reset (tk_id r)])).
Proof.
  intros H1 H2 H3. apply (keeps_update _ _ _ id); [done|done|]. intros h r _ [Hr Hs]. right. exists (h_reset (tk_id r)).
  split_and!; [done|done|done|]. destruct (H3 r) as [E1 E2].
  split; rewrite H2, ?resends_snoc, ?startable_snoc; cbn; rewrite ?String.eqb_refl; auto.
Qed.

Lemma keeps_same {A} upd (f : TicketDb → A) :
  (∀ db, td_tickets (upd db) = td_tickets db ∧ td_history (upd db) = td_history db ∧ td_outputs (upd db) = td_outputs db) →
  steps keeping (twrite upd f).
Proof. intros H. apply steps_write. intros db. by apply keeping_same; apply H. Qed.

Lemma keeps_log server a : steps keeping (logActivity server a).
Proof. intros db. split; [by apply keeping_same|done]. Qed.
Lemma keeps_save a : steps keeping (saveActivity a).
Proof. by apply keeps_same. Qed.

Create HintDb keep_db.
#[local] Hint Resolve keeps_log keeps_save : keep_db.

Ltac id_of := intros ? ?; breflect; done.
Ltac keeps := psteps ltac:(auto with keep_db nocore).

Section service.
Context (uuid : nat → string).

Lemma keeps_offline server t spec : steps keeping (noteOffline server t spec).
Proof.
  unfold noteOffline. apply steps_bind; [|intros due; keeps].
  intros db. split; [|done]. apply keeping_same; by destruct (_ <? _).
Qed.
#[local] Hint Resolve keeps_offline : keep_db.

Lemma keeps_emit t spec source force : steps keeping (emitTrigger uuid t spec source force).
Proof.
  unfold emitTrigger. keeps; [by apply keeps_same| |by apply keeps_same]. intros db. split; [|done].
  apply (keeping_update _ _ _ (tk_id t)); [id_of|intros r; by destruct (String.eqb source _)|].
  intros r _ [H1 H2]. left. split; [done|]. by destruct (String.eqb source _).
Qed.
#[local] Hint Resolve keeps_emit : keep_db.

Lemma keeps_dispatch server t source force : steps keeping (dispatchTicket uuid server t source force).
Proof. unfold dispatchTicket. keeps. Qed.
#[local] Hint Resolve keeps_dispatch : keep_db.

Lemma keeps_claim t : steps keeping (claimQueued t).
Proof.
  apply (keeps_update _ _ _ (tk_id t)); [id_of|done|]. intros h r Hw [H1 H2]. right. exists (h_start (tk_id r)).
  split_and!; [done|done|apply H2; by breflect|]. split; [by rewrite resends_snoc|done].
Qed.
#[local] Hint Resolve keeps_claim : keep_db.

Lemma keeps_pump_loop server accounts queued : ∀ running started,
  steps keeping (pump_loop uuid server accounts running started queued).
Proof. induction queued as [|t l IH]; intros running started; cbn [pump_loop]; keeps. Qed.

Lemma keeps_start server f : steps keeping (startQueued uuid server f).
Proof. unfold startQueued, pumpQueue. keeps; apply keeps_pump_loop. Qed.
#[local] Hint Resolve keeps_start : keep_db.

Lemma keeps_resume server id source : steps keeping (resumeTicket uuid server id source).
Proof. unfold resumeTicket. keeps. Qed.
#[local] Hint Resolve keeps_resume : keep_db.

Lemma keeps_manual server id : steps keeping (manualTrigger uuid server id).
Proof. unfold manualTrigger, blockReason. keeps. Qed.

Lemma keeps_resume_each server hosts key ids : ∀ r s, steps keeping (resume_each uuid server hosts key r s ids).
Proof. induction ids as [|id l IH]; intros r s; cbn [resume_each]; keeps. Qed.

#[local] Hint Resolve keeps_manual keeps_resume_each : keep_db.

Lemma keeps_progress id : steps keeping (noteProgress id).
Proof. unfold noteProgress. keeps. apply (keeps_reset _ _ id); [id_of|done|done]. Qed.
#[local] Hint Resolve keeps_progress : keep_db.

Lemma keeps_ack server ack : steps keeping (applyManagerAck server ack).
Proof.
  unfold applyManagerAck, renewEvidence, forgetEvidence. keeps.
  all: try (apply (keeps_quiet_update _ _ (tk_id t)); [|done|done]; unfold same_evidence; id_of).
  all: apply keeps_same; intros db; by destruct (ak_outcome ack).
Qed.

#[local] Hint Resolve keeps_ack : keep_db.

Lemma keeps_comment server c t a : steps keeping (onComment uuid server c t a).
Proof. unfold onComment. keeps. Qed.
#[local] Hint Resolve keeps_comment : keep_db.

Lemma keeps_open ids : steps keeping (anyPrereqOpen ids).
Proof. induction ids as [|id l IH]; cbn [anyPrereqOpen]; keeps. Qed.
#[local] Hint Resolve keeps_open : keep_db.

Lemma keeps_evaluate id : steps keeping (evaluatePendingForDependent id).
Proof. unfold evaluatePendingForDependent. keeps. apply (keeps_quiet_update _ _ id); [id_of|done|done]. Qed.
#[local] Hint Resolve keeps_evaluate : keep_db.

Lemma keeps_flips ids : ∀ l, steps keeping (collectFlips l ids).
Proof. induction ids as [|id r IH]; intros l; cbn [collectFlips]; keeps. Qed.
#[local] Hint Resolve keeps_flips : keep_db.

Lemma keeps_duplicates server t : steps keeping (resolveDuplicates server t).
Proof. unfold resolveDuplicates. keeps. match goal with |- context [String.eqb _ (tk_id ?d) && String.eqb _ _] => apply (keeps_reset _ _ (tk_id d)) end; [id_of|done|done]. Qed.

Lemma keeps_promote server t : steps keeping (promoteNext server t).
Proof.
  unfold promoteNext. keeps. match goal with |- context [String.eqb _ (tk_id ?n)] => apply (keeps_update _ _ _ (tk_id n)) end;
    [id_of|done|]. intros h r Hw [H1 H2]. right. exists (h_queued (tk_id r)). split_and!; [done|done|done|].
  split; [by rewrite resends_snoc|]. intros _. rewrite startable_snoc. cbn. by rewrite String.eqb_refl.
Qed.

#[local] Hint Resolve keeps_duplicates keeps_promote : keep_db.

Lemma keeps_done server t : steps keeping (onDone uuid server t).
Proof.
  unfold onDone, onPrerequisiteReached. keeps.
Qed.
#[local] Hint Resolve keeps_done : keep_db.

Lemma keeps_activity server a : steps keeping (onActivity uuid server a).
Proof. unfold onActivity. keeps. Qed.
#[local] Hint Resolve keeps_activity : keep_db.

(** A park is made on what the supervisor read, and the UPDATE looks at it again. *)
Lemma keeping_park t (liveQuiet : bool) now db :
  (if liveQuiet
   then liveConfirmed t now && quietExpired t now = true ∧
        ∃ output, h_look (tk_id t) output now ∈ td_history db ∧ output ≤ default 0 (tk_live_since t)
   else MAX_SUPERVISOR_REDISPATCHES ≤ tk_redispatches t) →
  keeping db (update_rows (parks_row t) park_row (λ r, [h_park r liveQuiet now]) db).
Proof.
  intros Hc. apply (keeping_update _ _ _ (tk_id t)); [unfold parks_row; id_of|done|].
  intros r Hw [H1 H2]. right. exists (h_park r liveQuiet now). unfold parks_row in Hw. breflect.
  assert (Er : tk_redispatches r = tk_redispatches t) by done. split_and!; [done|done| |].
  - cbn. split_and!; [done|done|done|]. destruct liveQuiet; [|lia]. destruct Hc as [Hc (output & Hl & Ho)].
    unfold liveConfirmed, quietExpired, vouched in *. breflect.
    match goal with H : tk_live_at r = _, H' : tk_live_since r = _, H'' : tk_id r = _ |- _ => rewrite H, H', H'' end.
    destruct (tk_live_at t) as [at_|]; [|done]. destruct (tk_live_since t) as [since|]; [|done]. breflect.
    split; [by eexists|]. exists since, output. split_and!; done.
  - split; [rewrite resends_snoc; cbn; by rewrite String.eqb_refl|]. cbn. intros E. congruence.
Qed.

(** The look of a supervisor at the output *)
Lemma keeping_look now t db : keeping db (look_at_output now t db).
Proof.
  split; [|by eexists]. intros [H1 H2 H3 H4].
  assert (Eh : td_history (look_at_output now t db) = td_history db ++ [h_look (tk_id t) (latest_output (tk_id t) db) now]) by done.
  split; rewrite ?Eh; [done| | |].
  - intros r Hr. destruct (H2 r Hr) as [Hc Hs]. split; [by rewrite resends_snoc|by rewrite startable_snoc].
  - by apply history_ok_snoc; [|apply H4].
  - intros id. rewrite known_snoc. apply H4.
Qed.

Lemma keeps_park server now t (liveQuiet : bool) :
  (if liveQuiet then liveConfirmed t now && quietExpired t now = true else MAX_SUPERVISOR_REDISPATCHES ≤ tk_redispatches t) →
  abides keeping (parkStalled server now t liveQuiet).
Proof.
  intros Hc. destruct liveQuiet.
  - intros db0 db _. split; [apply keeping_look|]. cbn. destruct (Z.ltb_spec (default 0 (tk_live_since t)) (latest_output (tk_id t) db));
      [done|]. intros db' [_ Hp].
    assert (Hlog : ∀ (b : bool) d a, safe keeping (λ _ _, True) (if negb b then mret tt : T unit else logActivity server a) d)
      by (intros [] d a; [apply (steps_abides keeping), keeps_log|done]).
    split; [|apply (Hlog (lsome (parks_row t) (td_tickets db')))]. apply keeping_park. split; [done|]. exists (latest_output (tk_id t) db). split; [|done].
    destruct Hp as [l ->]. apply elem_of_app. left. apply elem_of_app. right. apply list_elem_of_here.
  - apply steps_abides. unfold parkStalled. keeps. apply steps_write. intros db. by apply keeping_park.
Qed.

(** So is the claim of a re-send. *)
Lemma keeps_resend t now :
  (MAX_SUPERVISOR_REDISPATCHES <=? tk_redispatches t) && negb (liveConfirmed t now) = false → steps keeping (claimResend t now).
Proof.
  intros Hc. apply (keeps_update _ _ _ (tk_id t)); [id_of|done|]. intros h r Hw [H1 H2]. right.
  exists (h_resend (tk_id r) (tk_redispatches r) (tk_live_at t) now). breflect.
  assert (Er : tk_redispatches r = tk_redispatches t) by done. split_and!; [done|done| |].
  - cbn. split; [done|]. apply andb_false_iff in Hc as [Hc|Hc]; breflect; [left; lia|right]. unfold liveConfirmed in Hc.
    destruct (tk_live_at t) as [at_|]; [|done]. breflect. by exists at_.
  - split; [rewrite resends_snoc; cbn; rewrite String.eqb_refl; lia|]. rewrite startable_snoc. done.
Qed.

Lemma keeps_output t : steps keeping (noteOutput t).
Proof. unfold noteOutput. keeps. apply (keeps_reset _ _ (tk_id t)); [id_of|done|done]. Qed.
#[local] Hint Resolve keeps_output : keep_db.

#[local] Hint Resolve steps_abides : keep_db.

Lemma keeps_silent server now a t : abides keeping (superviseSilent uuid server now a t).
Proof.
  unfold superviseSilent.
  pabides ltac:(first [by auto with keep_db nocore|apply keeps_park; breflect; done|apply steps_abides, keeps_resend; done]).
Qed.
#[local] Hint Resolve keeps_silent : keep_db.

Lemma keeps_one server now accounts t : abides keeping (superviseOne uuid server now accounts t).
Proof.
  unfold superviseOne.
  pabides ltac:(first [by auto with keep_db nocore|apply keeps_park; done|by apply steps_abides, keeps_same]).
Qed.
#[local] Hint Resolve keeps_one : keep_db.

Lemma keeps_sweep server : abides keeping (sweep uuid server).
Proof. unfold sweep, supervise. pabides ltac:(first [by auto with keep_db nocore|by apply steps_abides, keeps_same]). Qed.
#[local] Hint Resolve keeps_sweep : keep_db.

Lemma keeps_serve server r : abides keeping (serve uuid server r).
Proof.
  destruct r; cbn [serve]; unfold ignoring, resumeAfterHostRestart, prepareSuppressedReplay;
    pabides ltac:(by auto with keep_db nocore).
Qed.

(** ** Pools *)

(** What everything else notes. *)
Definition outside (e : TicketEvent) : Prop :=
  match e with
  | h_reset _ | h_queued _ | h_output _ _ => True
  | h_saved _ n => 0 ≤ n
  | _ => False
  end.

(** It sets the count, whatever it was. *)
Definition recounts (id : string) (e : TicketEvent) : Prop :=
  match e with h_reset i | h_saved i _ => i = id | _ => False end.

(** What everything else does to the tables, between any two queries: it may set a count
    back on progress, save a whole row with any count, queue a ticket, and make an
    output known, which the history notes, and change everything else at will.  What it
    does not do is claim a re-send. *)
Definition elsewhere (db db' : TicketDb) : Prop :=
  NoDup (List.map tk_id (td_tickets db')) ∧
  ∃ evs, td_history db' = td_history db ++ evs ∧ (∀ e, e ∈ evs → outside e) ∧
    (∀ id, latest_output id db' = foldl (hear id) (latest_output id db) evs) ∧
    ∀ t', t' ∈ td_tickets db' →
      (((∃ e, e ∈ evs ∧ recounts (tk_id t') e) ∧ tk_redispatches t' = foldl (recount (tk_id t')) 0 evs) ∨
       ∃ t, t ∈ td_tickets db ∧ tk_id t = tk_id t' ∧ tk_redispatches t' = foldl (recount (tk_id t')) (tk_redispatches t) evs) ∧
      (tk_status t' = "todo" → h_queued (tk_id t') ∈ evs ∨ ∃ t, t ∈ td_tickets db ∧ tk_id t = tk_id t' ∧ tk_status t = "todo").

(** After an event that sets the count it does not matter what it was. *)
Lemma recounts_forget id evs n m : (∃ e, e ∈ evs ∧ recounts id e) → foldl (recount id) n evs = foldl (recount id) m evs.
Proof.
  revert n m. induction evs as [|e evs IH]; intros n m (x & Hx & Hr); [inversion Hx|]. cbn.
  apply elem_of_cons in Hx as [->|Hx]; [|by apply IH; eexists].
  assert (E : recount id n e = recount id m e); [|by rewrite E].
  destruct e; cbn in Hr |- *; try done; subst; by rewrite String.eqb_refl.
Qed.

Lemma others_startable id evs h : (∀ e, e ∈ evs → outside e) →
  startable id h = true ∨ h_queued id ∈ evs → startable id (h ++ evs) = true.
Proof.
  unfold startable. rewrite foldl_app. generalize (foldl (requeue id) true h) as b. induction evs as [|e evs IH]; intros b H Hs.
  - destruct Hs as [Hs|Hs]; [done|inversion Hs].
  - cbn. apply IH; [intros x Hx; by apply H, list_elem_of_further|].
    assert (He := H e (list_elem_of_here _ _)). destruct Hs as [->|[<-|Hs]%elem_of_cons]; [left| |by right].
    + destruct e; cbn in *; try done. by destruct (String.eqb _ _).
    + left. cbn. by rewrite String.eqb_refl.
Qed.

Lemma history_ok_others h evs : history_ok h → (∀ e, e ∈ evs → outside e) → history_ok (h ++ evs).
Proof.
  intros Hh. induction evs as [|e evs IH] using rev_ind; intros H; [by rewrite app_nil_r|]. rewrite app_assoc.
  apply history_ok_snoc; [apply IH; intros x Hx; apply H, elem_of_app; by left|].
  assert (He := H e ltac:(apply elem_of_app; right; by apply list_elem_of_singleton)). by destruct e.
Qed.

Lemma keeping_elsewhere db db' : elsewhere db db' → keeping db db'.
Proof.
  intros (Hnd & evs & Eh & Hevs & Hout & Hrows). split; [|by exists evs].
  intros [_ Hr Hh Ho]. split; [done| |rewrite Eh; by apply history_ok_others|].
  - intros t' Ht'. destruct (Hrows t' Ht') as [Hc Hq]. rewrite Eh. split.
    + unfold resends. rewrite foldl_app. destruct Hc as [[He ->]|(t & Ht & Ei & ->)]; [by apply recounts_forget|].
      by rewrite (proj1 (Hr t Ht)), Ei.
    + intros Es. apply others_startable; [done|]. destruct (Hq Es) as [?|(t & Ht & <- & Et)]; [by right|left]. by apply Hr.
  - intros id. rewrite Hout, Ho, Eh. unfold known_output. by rewrite foldl_app.
Qed.

(** The tables the servers and everything else can leave, for requests that arrive at
    any time. *)
Definition dispatch_reachable (db0 : TicketDb) (requests : list (string * TicketRequest)) (db : TicketDb) : Prop :=
  ∃ threads, rtc (pool_step (ticket_job uuid) elsewhere) (db0, List.map (λ r, serve uuid r.1 r.2) requests) (db, threads).

(** Tables on which the dispatcher has done nothing yet. *)
Definition fresh_board (db : TicketDb) : Prop :=
  NoDup (List.map tk_id (td_tickets db)) ∧ td_history db = [] ∧ td_outputs db = [] ∧
  ∀ t, t ∈ td_tickets db → tk_redispatches t = 0.

Lemma fresh_ok db : fresh_board db → tickets_ok db.
Proof.
  intros (H1 & H2 & H3 & H4). split; [done| | |].
  - intros t Ht. rewrite H2. split; [by rewrite (H4 t Ht)|done].
  - rewrite H2. intros h1 e h2 E. by destruct h1.
  - intros id. unfold latest_output. by rewrite H2, H3.
Qed.

Lemma reachable_ok db0 requests db : fresh_board db0 → dispatch_reachable db0 requests db → tickets_ok db.
Proof.
  intros Hf (threads & Hrun).
  destruct (pool_safe_run keeping (ticket_job uuid) elsewhere (λ _, True) (λ _ _ _, True)
    (db0, List.map (λ r, serve uuid r.1 r.2) requests) (db, threads)) as [Hk _]; try done.
  - exact keeping_elsewhere.
  - intros _ [server a] d _. apply steps_abides, keeps_activity.
  - intros i p Hi. apply list_lookup_fmap_Some in Hi as ([server r] & -> & _). apply keeps_serve.
  - by apply Hk, fresh_ok.
Qed.

(** ** What the histories say *)

Definition starts_over (id : string) (e : TicketEvent) : bool :=
  match e with
  | h_reset i | h_saved i _ => String.eqb i id
  | h_park r _ _ => String.eqb (tk_id r) id
  | _ => false
  end.
Definition is_resend (id : string) (e : TicketEvent) : bool :=
  match e with h_resend i _ _ _ => String.eqb i id | _ => false end.
Definition resent (id : string) (h : list TicketEvent) : Z := Z.of_nat (length (lfilter (is_resend id) h)).

Lemma resent_snoc id h e : resent id (h ++ [e]) = resent id h + (if is_resend id e then 1 else 0).
Proof. unfold resent. rewrite lfilter_app, length_app. cbn. destruct (is_resend id e); cbn; lia. Qed.

Lemma history_ok_before h1 h2 : history_ok (h1 ++ h2) → history_ok h1.
Proof. intros H a e b ->. apply (H a e (b ++ h2)). by rewrite <- app_assoc. Qed.

Lemma resends_nonneg id h : history_ok h → 0 ≤ resends id h.
Proof.
  induction h as [|e h IH] using rev_ind; intros H; [done|]. rewrite resends_snoc.
  specialize (IH (history_ok_before _ _ H)). pose proof (H h e [] eq_refl) as Hj.
  destruct e; cbn [recount justified] in Hj |- *; repeat case_match; lia.
Qed.

Lemma stretch_of_resends id h1 h2 : (∀ e, e ∈ h2 → starts_over id e = false) →
  resends id (h1 ++ h2) = resends id h1 + resent id h2.
Proof.
  induction h2 as [|e h2 IH] using rev_ind; intros H; [rewrite app_nil_r; change (resent id []) with 0; lia|].
  assert (He := H e ltac:(apply elem_of_app; right; by apply list_elem_of_singleton)).
  rewrite app_assoc, resends_snoc, resent_snoc, IH by (intros x Hx; apply H, elem_of_app; by left).
  destruct e; cbn in *; rewrite ?He; repeat case_match; simplify_eq; lia.
Qed.

(** C12: The supervisor gives up: however sweeps, acknowledgements and requests of any number
    of servers interleave with each other and with everything else that writes tickets,
    from one sign of progress, park, or save of the whole row of a ticket to the next
    the supervisor claims at most three re-sends of it, unless a manager vouched for a
    live process less than a quarter of an hour before.  (A save of the whole row by
    another service is named because it puts back the count it had read:
    [stale_save_resets_the_count].) *)
Theorem supervisor_gives_up db0 requests db id h1 h2 h3 :
  fresh_board db0 → dispatch_reachable db0 requests db → td_history db = h1 ++ h2 ++ h3 →
  (∀ e, e ∈ h2 → starts_over id e = false) →
  (∀ n live now, h_resend id n live now ∈ h2 → ¬ vouched live now) →
  resent id h2 ≤ MAX_SUPERVISOR_REDISPATCHES.
Proof.
  intros Hf Hr Eh Hno Hev. destruct (reachable_ok _ _ _ Hf Hr) as [_ _ Hok _]. clear Hf Hr. revert h3 Eh.
  induction h2 as [|e h2 IH] using rev_ind; intros h3 Eh; [done|]. rewrite resent_snoc.
  assert (Hno' : ∀ x, x ∈ h2 → starts_over id x = false) by (intros x Hx; apply Hno, elem_of_app; by left).
  destruct (is_resend id e) eqn:E; [|rewrite Z.add_0_r; apply (IH Hno') with ([e] ++ h3); [|by rewrite Eh, <- !app_assoc];
    intros n live now Hn; apply (Hev n), elem_of_app; by left].
  destruct e as [|i n live now| | | | | |]; try done. cbn in E. apply String.eqb_eq in E as ->.
  destruct (Hok (h1 ++ h2) (h_resend id n live now) h3) as [En [Hlt|Hv]]; [by rewrite Eh, <- !app_assoc| |].
  - rewrite stretch_of_resends in En by done. rewrite Eh in Hok. pose proof (resends_nonneg id h1 (history_ok_before _ _ Hok)). lia.
  - exfalso. apply (Hev n live now); [|done]. apply elem_of_app. right. by apply list_elem_of_singleton.
Qed.

(** C13: Tickets are parked for cause: whatever interleaves, a row that the supervisor parks is
    in progress, not archived and not pending at that moment, and one of two things
    holds.  Either its count stands at three: so many re-sends were claimed since its last
    sign of progress or park, on top of what a save of the whole row put there.  Or a
    manager vouched for its live process less than a quarter of an hour before the sweep,
    that was noted two hours before or more, and a sweep of that time looked at the
    output of the process: nothing that was known at that moment is newer than what had
    been noted. *)
Theorem tickets_are_parked_for_cause db0 requests db r live now h1 h2 :
  fresh_board db0 → dispatch_reachable db0 requests db → td_history db = h1 ++ h_park r live now :: h2 →
  tk_status r = "in_progress" ∧ tk_archived r = false ∧ unpended r = true ∧
  if live : bool
  then vouched (tk_live_at r) now ∧ ∃ since, tk_live_since r = Some since ∧ SUPERVISOR_LIVE_QUIET_LIMIT_MS ≤ now - since ∧
         ∃ ha hb output, h1 = ha ++ h_look (tk_id r) output now :: hb ∧
           output = known_output (tk_id r) ha ∧ output ≤ since
  else MAX_SUPERVISOR_REDISPATCHES ≤ resends (tk_id r) h1.
Proof.
  intros Hf Hr Eh. destruct (reachable_ok _ _ _ Hf Hr) as [_ _ Hok _].
  destruct (Hok h1 _ h2 Eh) as (H1 & H2 & H3 & H4). split_and!; [done..|]. destruct live; [|done].
  destruct H4 as [Hv (since & output & Es & Hl & Hlook & Ho)]. split; [done|]. exists since. split_and!; [done..|].
  apply list_elem_of_split in Hlook as (ha & hb & E). exists ha, hb, output. split_and!; [done| |done].
  apply (Hok ha (h_look (tk_id r) output now) (hb ++ h_park r true now :: h2)). by rewrite Eh, E, <- app_assoc.
Qed.

Lemma requeued id b h : foldl (requeue id) b h = true → b = true ∨ h_queued id ∈ h.
Proof.
  revert b. induction h as [|e h IH]; intros b H; [by left|]. destruct (IH _ H) as [Hb|Hq]; [|right; by apply list_elem_of_further].
  destruct e as [i|i| i|r|i|i|i|i]; cbn in Hb; try (left; done).
  - destruct (String.eqb i id); [done|by left].
  - destruct (String.eqb_spec i id) as [->|]; [right; apply list_elem_of_here|by left].
Qed.

(** C14: One start per queueing: however the queue pumps of any number of servers interleave, a
    ticket is taken out of the queue by one of them only: between two starts someone
    had put it back. *)
Theorem one_start_per_queueing db0 requests db id h1 h2 h3 :
  fresh_board db0 → dispatch_reachable db0 requests db → td_history db = h1 ++ h_start id :: h2 ++ h_start id :: h3 →
  h_queued id ∈ h2.
Proof.
  intros Hf Hr Eh. destruct (reachable_ok _ _ _ Hf Hr) as [_ _ Hok _].
  assert (Hs : startable id (h1 ++ h_start id :: h2) = true).
  { apply (Hok (h1 ++ h_start id :: h2) (h_start id) h3). by rewrite Eh, <- app_assoc. }
  unfold startable in Hs. rewrite foldl_app in Hs. cbn in Hs. rewrite String.eqb_refl in Hs.
  by destruct (requeued _ _ _ Hs).
Qed.
End service.

(** ** A sample board *)

Definition sample_uuid (n : nat) : string := "trigger-" +:+ pretty n.

Definition sample_ticket (id status : string) : TicketRow :=
  {| tk_id := id; tk_account_id := "acc"; tk_parent_id := ""; tk_canonical := ""; tk_next := ""; tk_archived := false;
     tk_status := status; tk_priority := "high"; tk_position := 0; tk_created_at := 0;
     tk_assignee := Some {| as_host := "host"; as_key := "rt-1" |}; tk_assignee_key := "rt-1";
     tk_pending_user_action := false; tk_pending_on_tickets := false; tk_pending_ci_wait := false; tk_pending_set_by := "";
     tk_last_dispatched_at := None; tk_redispatches := 0; tk_live_since := None; tk_live_at := None |}.

Definition sample_board (tickets : list TicketRow) (reachable : list string) (now : Z) : TicketDb :=
  {| td_tickets := tickets;
     td_accounts := [{| ac_id := "acc"; ac_paused := false; ac_max_concurrent := 1; ac_stale_ms := 1800000; ac_resend_ms := 300000 |}];
     td_hosts := [{| ho_id := "host"; ho_account_id := "acc"; ho_is_active := true |}];
     td_comments := []; td_activity := []; td_prerequisites := []; td_users := []; td_now := now; td_nonce := 0;
     td_quiesced := false; td_reachable := reachable; td_outputs := []; td_strands := [];
     td_refuses := λ _, None; td_build_fails := λ _, None; td_nacks := ∅; td_offline := ∅; td_emitted := []; td_history := [] |}.

Definition day : Z := 24 * 60 * 60000.

(** A ticket in progress whose host is away, and four sweeps. *)
Definition away_board : TicketDb := sample_board [sample_ticket "t" "in_progress"] [] day.
Definition four_sweeps : list (string * TicketRequest) := replicate 4 ("s", rq_sweep).
Definition away_schedule : list nat := flat_map (replicate 30) [0; 1; 2; 3]%nat.
Definition after_sweeps : TicketDb :=
  (run_schedule (ticket_job sample_uuid) away_schedule
     (away_board, List.map (λ r, serve sample_uuid r.1 r.2) four_sweeps)).1.

Lemma fresh_sample tickets reachable now :
  NoDup (List.map tk_id tickets) → Forall (λ t, tk_redispatches t = 0) tickets → fresh_board (sample_board tickets reachable now).
Proof. intros H1 H2. split_and!; [done|done|done|]. by apply Forall_forall. Qed.

Lemma away_reachable : dispatch_reachable sample_uuid away_board four_sweeps after_sweeps.
Proof.
  pose proof (run_schedule_steps (ticket_job sample_uuid) elsewhere away_schedule
    (away_board, List.map (λ r, serve sample_uuid r.1 r.2) four_sweeps)) as H. unfold after_sweeps.
  destruct (run_schedule _ _ _) as [db threads]. by exists threads.
Qed.

Definition three_resends : list TicketEvent := [h_resend "t" 0 None day; h_resend "t" 1 None day; h_resend "t" 2 None day].
Definition parked_row : TicketRow := (sample_ticket "t" "in_progress")<|tk_redispatches := 3|>.

(** Finding: the supervisor counts what it did not send.  The host of the ticket is away,
    so each re-send ends as [host_offline] and leaves no trace but the count; the next
    sweep, half a minute later, counts again, and the fourth parks the ticket for an
    agent that stopped three times — while the notice on it says that it waits until
    the host is back. *)
Lemma offline_host_parks_the_ticket :
  td_history after_sweeps = three_resends ++ [h_park parked_row false day] ∧ td_emitted after_sweeps = [] ∧
  List.map al_action (td_activity after_sweeps) = ["dispatch_deferred"; "updated"].
Proof. by vm_compute. Qed.

Lemma supervisor_gives_up_witness : resent "t" three_resends ≤ MAX_SUPERVISOR_REDISPATCHES.
Proof.
  refine (supervisor_gives_up sample_uuid away_board four_sweeps after_sweeps "t" [] three_resends
    [h_park parked_row false day] _ away_reachable (proj1 offline_host_parks_the_ticket) _ _).
  - apply fresh_sample; [apply NoDup_singleton|by repeat constructor].
  - intros e He. unfold three_resends in He. rewrite !elem_of_cons in He. destruct He as [->|[->|[->|He]]]; [done|done|done|inversion He].
  - intros n live now Hin (at_ & E & _). unfold three_resends in Hin. rewrite !elem_of_cons in Hin.
    destruct Hin as [?|[?|[?|Hin]]]; [congruence|congruence|congruence|inversion Hin].
Defined.

(** A process that a manager vouches for and that has said nothing for three hours: the
    sweep looks at its output and parks its ticket. *)
Definition quiet_row : TicketRow :=
  (sample_ticket "t" "in_progress")<|tk_live_since := Some (day - 3 * 60 * 60000)|><|tk_live_at := Some (day - 60000)|>.
Definition vouched_board : TicketDb := sample_board [quiet_row] ["host"] day.
Definition one_sweep : list (string * TicketRequest) := [("s", rq_sweep)].
Definition after_look : TicketDb :=
  (run_schedule (ticket_job sample_uuid) (replicate 30 0%nat)
     (vouched_board, List.map (λ r, serve sample_uuid r.1 r.2) one_sweep)).1.

Lemma look_reachable : dispatch_reachable sample_uuid vouched_board one_sweep after_look.
Proof.
  pose proof (run_schedule_steps (ticket_job sample_uuid) elsewhere (replicate 30 0%nat)
    (vouched_board, List.map (λ r, serve sample_uuid r.1 r.2) one_sweep)) as H. unfold after_look.
  destruct (run_schedule _ _ _) as [db threads]. by exists threads.
Qed.

Lemma after_look_history : td_history after_look = [h_look "t" 0 day] ++ h_park quiet_row true day :: [].
Proof. by vm_compute. Qed.

Lemma tickets_are_parked_for_cause_witness :
  MAX_SUPERVISOR_REDISPATCHES ≤ resends "t" three_resends ∧ vouched (tk_live_at quiet_row) day ∧
  ∃ ha hb output, [h_look "t" 0 day] = ha ++ h_look "t" output day :: hb ∧ output = known_output "t" ha.
Proof.
  destruct (tickets_are_parked_for_cause sample_uuid away_board four_sweeps after_sweeps parked_row false day three_resends [])
    as (_ & _ & _ & H); [|exact away_reachable|exact (proj1 offline_host_parks_the_ticket)|].
  { apply fresh_sample; [apply NoDup_singleton|by repeat constructor]. }
  split; [exact H|]. clear H.
  destruct (tickets_are_parked_for_cause sample_uuid vouched_board one_sweep after_look quiet_row true day [h_look "t" 0 day] [])
    as (_ & _ & _ & Hv & since & Es & _ & ha & hb & output & E & Eo & _); [|exact look_reachable|exact after_look_history|].
  { apply fresh_sample; [apply NoDup_singleton|by repeat constructor]. }
  split; [exact Hv|]. exists ha, hb, output. split; [exact E|exact Eo].
Defined.

(** Finding: an edit of a ticket reads the row, awaits, and saves it whole
    ([repo.save(ticket)]): a sweep that claims a re-send in between is undone, and the
    ticket is sent for once more than it is counted. *)
Definition save_whole (row : TicketRow) (db : TicketDb) : TicketDb :=
  db<|td_tickets ::= List.map (λ t, if String.eqb (tk_id t) (tk_id row) then row else t)|>
    <|td_history ::= λ h, h ++ [h_saved (tk_id row) (tk_redispatches row)]|>.

Lemma stale_save_resets_the_count :
  let db1 := (alone (sweep sample_uuid "s") away_board).1.1 in
  let read_ := find_ticket "t" away_board in
  let db2 := from_option (λ row, save_whole row db1) db1 read_ in
  let db3 := (alone (sweep sample_uuid "s") db2).1.1 in
  List.map tk_redispatches (td_tickets db1) = [1] ∧ List.map tk_redispatches (td_tickets db2) = [0] ∧
  List.map tk_redispatches (td_tickets db3) = [1] ∧ resent "t" (td_history db3) = 2.
Proof. by vm_compute. Qed.

Lemma save_whole_elsewhere db row t : NoDup (List.map tk_id (td_tickets db)) → 0 ≤ tk_redispatches row →
  t ∈ td_tickets db → tk_id t = tk_id row → (tk_status row = "todo" → tk_status t = "todo") → elsewhere db (save_whole row db).
Proof.
  intros Hnd Hc Ht Ei Hs. split.
  { cbn. rewrite map_ids; [done|]. intros r. by destruct (String.eqb_spec (tk_id r) (tk_id row)) as [->|]. }
  exists [h_saved (tk_id row) (tk_redispatches row)]. split_and!; [done|by intros e ->%list_elem_of_singleton|done|].
  intros t' Ht'. apply list_elem_of_In, in_map_iff in Ht' as (r & Er & Hr%list_elem_of_In).
  destruct (String.eqb_spec (tk_id r) (tk_id row)) as [E|N]; subst t'.
  - cbn. rewrite String.eqb_refl. split; [left; split; [by eexists; split; [apply list_elem_of_here|]|done]|].
    intros Es. right. exists t. auto.
  - split; [right|intros Es; right]; exists r; split_and!; try done. cbn.
    by rewrite (proj2 (String.eqb_neq (tk_id row) (tk_id r)) (not_eq_sym N)).
Qed.

(** A queued ticket, started by the pump of one server, put back by somebody, and started
    by the pump of another. *)
Definition queue_board : TicketDb := sample_board [sample_ticket "t" "todo"] ["host"] day.
Definition two_pumps : list (string * TicketRequest) := [("s1", rq_start no_filter); ("s2", rq_start no_filter)].
Definition first_start : TicketDb * list (T unit) :=
  run_schedule (ticket_job sample_uuid) (replicate 40 0%nat) (queue_board, List.map (λ r, serve sample_uuid r.1 r.2) two_pumps).
Definition put_back (db : TicketDb) : TicketDb :=
  db<|td_tickets ::= List.map (λ t, t<|tk_status := "todo"|>)|><|td_history ::= λ h, h ++ [h_queued "t"]|>.
Definition second_start : TicketDb * list (T unit) :=
  run_schedule (ticket_job sample_uuid) (replicate 40 1%nat) (put_back first_start.1, first_start.2).

Lemma put_back_elsewhere db r : td_tickets db = [r] → tk_id r = "t" → elsewhere db (put_back db).
Proof.
  intros E Ei. split; [cbn; rewrite E; apply NoDup_singleton|]. exists [h_queued "t"]. split; [done|]. split; [|split; [done|]].
  - by intros e ->%list_elem_of_singleton.
  - intros t' Ht'. cbn in Ht'. rewrite E in Ht'. apply list_elem_of_singleton in Ht' as ->. cbn. rewrite E, Ei. split.
    + right. exists r. split; [apply list_elem_of_here|done].
    + intros _. left. apply list_elem_of_here.
Qed.

Lemma first_start_tickets :
  td_tickets first_start.1 = [(sample_ticket "t" "in_progress")<|tk_last_dispatched_at := Some day|>].
Proof. by vm_compute. Qed.

(** A run, something from outside, and another run. *)
Lemma interrupted_run l1 l2 s db2 :
  let s1 := run_schedule (ticket_job sample_uuid) l1 s in
  elsewhere s1.1 db2 → rtc (pool_step (ticket_job sample_uuid) elsewhere) s (run_schedule (ticket_job sample_uuid) l2 (db2, s1.2)).
Proof.
  intros s1 H. transitivity s1; [apply run_schedule_steps|]. destruct s1 as [db1 ts]. eapply rtc_l; [by apply ps_others|].
  apply run_schedule_steps.
Qed.

Lemma second_start_reachable : dispatch_reachable sample_uuid queue_board two_pumps second_start.1.
Proof.
  exists second_start.2. rewrite <- surjective_pairing.
  exact (interrupted_run (replicate 40 0%nat) (replicate 40 1%nat)
    (queue_board, List.map (λ r, serve sample_uuid r.1 r.2) two_pumps) _
    (put_back_elsewhere _ _ first_start_tickets eq_refl)).
Qed.

Lemma one_start_per_queueing_witness : h_queued "t" ∈ [h_queued "t"].
Proof.
  refine (one_start_per_queueing sample_uuid queue_board two_pumps second_start.1 "t" [] [h_queued "t"] [] _ second_start_reachable _).
  - apply fresh_sample; [apply NoDup_singleton|by repeat constructor].
  - by vm_compute.
Defined.

(** ** Capacity *)

(** What decides whether a ticket takes a slot, and whose. *)
Definition face (t : TicketRow) : string * string * string * (bool * string * bool) :=
  (tk_id t, tk_assignee_key t, tk_status t, (tk_archived t, tk_parent_id t, unpended t)).
Definition faces (db : TicketDb) := List.map face (td_tickets db).
Definition same_faces (db db' : TicketDb) : Prop := faces db' = faces db.
#[export] Instance same_faces_preorder : PreOrder same_faces.
Proof. split; [done|]. intros x y z H1 H2. unfold same_faces in *. congruence. Qed.

Lemma running_faces key l l' : List.map face l' = List.map face l → running_of key l' = running_of key l.
Proof.
  revert l'. induction l as [|t l IH]; intros [|t' l'] E; try done. injection E as E1 E2 E3 E4 E5 E6 E.
  pose proof (IH _ E) as H. unfold running_of in *. rewrite !lfilter_cons.
  assert (Er : is_running t' = is_running t) by (unfold is_running; by rewrite E3, E4, E5, E6).
  rewrite Er, E2. destruct (_ && String.eqb _ _); cbn [length]; lia.
Qed.

Lemma faces_quiet_update where_ set_ note_ :
  (∀ db r, face (set_ db r) = face r) →
  ∀ db, same_faces db (update_rows where_ (set_ db) note_ db).
Proof.
  intros H db. unfold same_faces, faces. cbn. rewrite map_map. apply map_ext. intros r. by destruct (where_ r).
Qed.

Lemma faces_log server a : steps same_faces (logActivity server a).
Proof. intros db. by split. Qed.

Section capacity.
Context (uuid : nat → string) (server : string).

Lemma faces_offline t spec : steps same_faces (noteOffline server t spec).
Proof.
  unfold noteOffline. apply steps_bind; [|intros due; psteps ltac:(apply faces_log)].
  intros db. split; [|done]. by destruct (_ <? _).
Qed.

Lemma faces_emit t spec source force : steps same_faces (emitTrigger uuid t spec source force).
Proof.
  unfold emitTrigger. psteps fail; [by apply steps_write|by apply steps_write| |by apply steps_write].
  intros db. split; [|done].
  apply (faces_quiet_update _ (λ db r, if String.eqb source "supervisor" then r<|tk_last_dispatched_at := Some (td_now db)|>
    else (r<|tk_last_dispatched_at := Some (td_now db)|>)<|tk_live_since := None|><|tk_live_at := None|>)).
  intros d r. by destruct (String.eqb source _).
Qed.

Lemma faces_dispatch t source force : steps same_faces (dispatchTicket uuid server t source force).
Proof.
  unfold dispatchTicket. psteps ltac:(first [apply faces_emit|apply faces_offline|by apply steps_write]).
Qed.

Definition claimed_db (t : TicketRow) (db : TicketDb) : TicketDb := (alone (claimQueued t) db).1.1.

Definition claims_row (t r : TicketRow) : bool := String.eqb (tk_id r) (tk_id t) && String.eqb (tk_status r) "todo".

(** The slot the claim of a queued ticket takes. *)
Lemma claim_takes_a_slot t l key :
  NoDup (List.map tk_id l) → is_running (t<|tk_status := "in_progress"|>) = true → tk_status t = "todo" → face t ∈ List.map face l →
  lsome (claims_row t) l = true ∧
  running_of key (List.map (λ r, if claims_row t r then r<|tk_status := "in_progress"|> else r) l) =
  running_of key l + (if String.eqb (tk_assignee_key t) key then 1 else 0).
Proof.
  intros Hnd Hrun Hst. induction l as [|r l IH]; cbn [List.map]; intros Hin; [inversion Hin|].
  apply NoDup_cons in Hnd as [Hni Hnd]. unfold running_of. rewrite !lfilter_cons. apply elem_of_cons in Hin as [E|Hin].
  - injection E as E1 E2 E3 E4 E5 E6.
    assert (Hc : claims_row t r = true) by (unfold claims_row; rewrite <- E1, <- E3, Hst, !String.eqb_refl; done).
    assert (Hl : List.map (λ x, if claims_row t x then x<|tk_status := "in_progress"|> else x) l = l).
    { rewrite <- (map_id l) at 2. apply map_ext_in. intros x Hx. unfold claims_row.
      destruct (String.eqb_spec (tk_id x) (tk_id t)) as [Ex|]; [|done]. exfalso. apply Hni. rewrite <- E1, <- Ex.
      apply list_elem_of_In, in_map. exact Hx. }
    split; [apply lsome_true; exists r; split; [apply list_elem_of_here|done]|]. rewrite Hl, Hc.
    assert (Hr : is_running (r<|tk_status := "in_progress"|>) = true).
    { change (negb (tk_archived r) && negb (truthy (tk_parent_id r)) && unpended r = true).
      change (negb (tk_archived t) && negb (truthy (tk_parent_id t)) && unpended t = true) in Hrun.
      by rewrite <- E4, <- E5, <- E6. }
    assert (Hn : is_running r = false) by (unfold is_running; rewrite <- E3, Hst; done).
    rewrite Hr, Hn. cbn [andb]. change (tk_assignee_key (r<|tk_status := "in_progress"|>)) with (tk_assignee_key r). rewrite <- E2.
    destruct (String.eqb (tk_assignee_key t) key); cbn [length]; lia.
  - destruct (IH Hnd Hin) as [Hs Hc]. split; [unfold lsome in *; cbn; by rewrite Hs, orb_true_r|].
    assert (Hf : claims_row t r = false).
    { unfold claims_row. destruct (String.eqb_spec (tk_id r) (tk_id t)) as [Ex|]; [|done]. exfalso. apply Hni. rewrite Ex.
      apply list_elem_of_In, in_map_iff in Hin as (x & E & Hx). injection E as E _ _ _ _ _. rewrite <- E.
      by apply list_elem_of_In, in_map. }
    rewrite Hf. unfold running_of in Hc. destruct (is_running r && String.eqb (tk_assignee_key r) key); cbn [length]; lia.
Qed.

(** The queue of a pump that nobody interrupts: its tickets are as the table has them,
    and its map counts their agents' slots. *)
Record queue_ok (queued : list TicketRow) (running : list (string * Z)) (db : TicketDb) : Prop := {
  qo_ids : NoDup (List.map tk_id (td_tickets db));
  qo_distinct : NoDup (List.map tk_id queued);
  qo_face : ∀ t, t ∈ queued → face t ∈ faces db;
  qo_todo : ∀ t, t ∈ queued → tk_status t = "todo" ∧ is_running (t<|tk_status := "in_progress"|>) = true;
  qo_count : ∀ t, t ∈ queued → default 0 (JMap.get running (tk_assignee_key t)) = running_of (tk_assignee_key t) (td_tickets db)
}.

Lemma faces_ids db db' : same_faces db db' → List.map tk_id (td_tickets db') = List.map tk_id (td_tickets db).
Proof.
  intros H. pose proof (f_equal (List.map (λ f : string * string * string * (bool * string * bool), f.1.1.1)) H) as E.
  unfold faces in E. by rewrite !map_map in E.
Qed.

Lemma queue_ok_faces queued running db db' : same_faces db db' → queue_ok queued running db → queue_ok queued running db'.
Proof.
  intros H [H1 H2 H3 H4 H5]. split; [by rewrite (faces_ids _ _ H)|done|by rewrite H|done|].
  intros t Ht. rewrite (H5 t Ht). symmetry. by apply running_faces.
Qed.

Lemma queue_ok_rest t queued running db : queue_ok (t :: queued) running db → queue_ok queued running db.
Proof.
  intros [H1 H2 H3 H4 H5]. cbn in H2. apply NoDup_cons in H2 as [_ H2].
  split; [done|done|intros x Hx; apply H3|intros x Hx; apply H4|intros x Hx; apply H5]; by apply list_elem_of_further.
Qed.

(** After the claim of its first ticket the rest is a queue again. *)
Lemma queue_ok_claim t queued running db : queue_ok (t :: queued) running db →
  (alone (claimQueued t) db).1.2 = true ∧
  (∀ key, running_of key (td_tickets (claimed_db t db)) =
     running_of key (td_tickets db) + (if String.eqb (tk_assignee_key t) key then 1 else 0)) ∧
  queue_ok queued (JMap.set running (tk_assignee_key t) (default 0 (JMap.get running (tk_assignee_key t)) + 1)) (claimed_db t db).
Proof.
  intros Hq. destruct (queue_ok_rest _ _ _ _ Hq) as [_ Hd' _ _ _]. destruct Hq as [H1 H2 H3 H4 H5].
  destruct (H4 t ltac:(apply list_elem_of_here)) as [Hst Hrun]. pose proof (H3 t ltac:(apply list_elem_of_here)) as Hin.
  assert (Hslot := λ key, claim_takes_a_slot t (td_tickets db) key H1 Hrun Hst Hin).
  assert (Hcount : ∀ key, running_of key (td_tickets (claimed_db t db)) =
    running_of key (td_tickets db) + (if String.eqb (tk_assignee_key t) key then 1 else 0)) by (intros key; exact (proj2 (Hslot key))).
  split; [exact (proj1 (Hslot ""))|]. split; [exact Hcount|]. cbn in H2. apply NoDup_cons in H2 as [Hni _].
  assert (Hids : List.map tk_id (td_tickets (claimed_db t db)) = List.map tk_id (td_tickets db)).
  { change (td_tickets (claimed_db t db)) with
      (List.map (λ r, if claims_row t r then r<|tk_status := "in_progress"|> else r) (td_tickets db)).
    apply map_ids. intros r. by destruct (claims_row t r). }
  split; [by rewrite Hids|done| |intros x Hx; by apply H4, list_elem_of_further|].
  - intros x Hx. pose proof (H3 x ltac:(by apply list_elem_of_further)) as Hf. unfold faces in Hf.
    apply list_elem_of_In, in_map_iff in Hf as (r & Er & Hr). apply list_elem_of_In, in_map_iff. exists r. split; [done|].
    apply in_map_iff. exists r. split; [|done]. change ((if claims_row t r then r<|tk_status := "in_progress"|> else r) = r).
    unfold claims_row. destruct (String.eqb_spec (tk_id r) (tk_id t)) as [E|]; [|done]. exfalso. apply Hni. rewrite <- E.
    injection Er as -> _ _ _ _ _. by apply list_elem_of_In, in_map, list_elem_of_In.
  - intros x Hx. rewrite Hcount. destruct (String.eqb_spec (tk_assignee_key t) (tk_assignee_key x)) as [E|N].
    + rewrite <- E, JMap.get_set_eq. cbn. by rewrite (H5 t ltac:(apply list_elem_of_here)).
    + rewrite JMap.get_set_ne by done. rewrite (H5 x ltac:(by apply list_elem_of_further)). lia.
Qed.

Lemma pump_loop_capacity c accounts queued : (∀ a, a ∈ accounts → cap_of a ≤ c) → ∀ running started db key,
  queue_ok queued running db →
  running_of key (td_tickets (alone (pump_loop uuid server accounts running started queued) db).1.1)
  ≤ Z.max (running_of key (td_tickets db)) c.
Proof.
  intros Hcap. induction queued as [|t queued IH]; intros running started db key Hq; cbn [pump_loop]; [cbn; lia|].
  pose proof (queue_ok_rest _ _ _ _ Hq) as Hrest.
  destruct (find_account (tk_account_id t) accounts) as [a|] eqn:Ea; [|by apply IH]. destruct (ac_paused a); [by apply IH|].
  destruct (Z.leb_spec (cap_of a) (default 0 (JMap.get running (tk_assignee_key t)))) as [|Hlt]; [by apply IH|].
  destruct (tk_assignee t) as [spec|]; [|by apply IH]. rewrite alone_bind. cbn [alone fst snd tread id].
  destruct (isHostReachable spec db); cbn [negb].
  - rewrite alone_bind. destruct (queue_ok_claim _ _ _ _ Hq) as (-> & Hcount & Hq1). cbn [negb]. fold (claimed_db t db).
    rewrite !alone_bind.
    assert (F : ∀ a1 t1, same_faces (claimed_db t db)
      (alone (dispatchTicket uuid server t1 "start" false) (alone (logActivity server a1) (claimed_db t db)).1.1).1.1).
    { intros a1 t1. transitivity (alone (logActivity server a1) (claimed_db t db)).1.1;
        apply (steps_alone same_faces); [apply faces_log|apply faces_dispatch]. }
    etransitivity; [apply IH; exact (queue_ok_faces _ _ _ _ (F _ _) Hq1)|]. rewrite (running_faces key _ _ (F _ _)), Hcount.
    apply List.find_some in Ea as [Ha _]. apply list_elem_of_In in Ha. pose proof (Hcap a Ha).
    destruct (String.eqb_spec (tk_assignee_key t) key) as [<-|]; [|lia].
    rewrite (qo_count _ _ _ Hq t ltac:(apply list_elem_of_here)) in Hlt. lia.
  - rewrite alone_bind. assert (F : same_faces db (alone (noteOffline server t spec) db).1.1)
      by (apply (steps_alone same_faces), faces_offline).
    etransitivity; [apply IH; exact (queue_ok_faces _ _ _ _ F Hrest)|]. by rewrite (running_faces key _ _ F).
Qed.
End capacity.

Lemma counted_slots key l db : key ∈ l →
  default 0 (JMap.get (runningCounts l db) key) = running_of key (td_tickets db).
Proof.
  intros Hk. unfold runningCounts. assert (Hin : key ∈ new_Set l) by (by apply elem_of_new_Set).
  induction (new_Set l) as [|k r IH]; [inversion Hin|]. cbn [List.map]. rewrite lfilter_cons. cbn [snd].
  destruct (String.eqb_spec k key) as [->|N].
  - destruct (Z.eqb_spec (running_of key (td_tickets db)) 0) as [E0|]; cbn [negb]; [|by rewrite JMap.get_cons, String.eqb_refl].
    rewrite E0. clear -E0. induction r as [|k r IH]; [done|]. cbn [List.map]. rewrite lfilter_cons. cbn [snd].
    destruct (Z.eqb_spec (running_of k (td_tickets db)) 0) as [|Nz]; cbn [negb]; [done|]. rewrite JMap.get_cons.
    destruct (String.eqb_spec k key) as [->|]; [done|exact IH].
  - apply elem_of_cons in Hin as [->|Hin]; [done|]. specialize (IH Hin).
    destruct (_ =? 0); cbn [negb]; [exact IH|]. rewrite JMap.get_cons, (proj2 (String.eqb_neq _ _) N). exact IH.
Qed.

(** Pumps respect capacity: a pump that nobody interrupts leaves no agent with more
    tickets in progress than it had or than the largest cap of an account, however many
    are queued, whoever they belong to, and however their dispatches end. *)
Theorem pump_respects_capacity uuid server filter_ db c key :
  NoDup (List.map tk_id (td_tickets db)) → (∀ a, a ∈ td_accounts db → cap_of a ≤ c) →
  running_of key (td_tickets (alone (pumpQueue uuid server filter_) db).1.1) ≤ Z.max (running_of key (td_tickets db)) c.
Proof.
  intros Hnd Hcap. unfold pumpQueue. rewrite alone_bind. cbn [alone fst snd tread id]. destruct (td_quiesced db); [cbn; lia|].
  rewrite alone_bind. cbn [alone fst snd tread id].
  set (queued := take take_rows (lfilter (is_queued filter_) (td_tickets db))).
  assert (Hp : Permutation (queue_order queued) queued) by (unfold queue_order; by rewrite !sort_by_perm).
  assert (Hq : ∀ t, t ∈ queued → t ∈ td_tickets db ∧ is_queued filter_ t = true)
    by (intros t Ht; apply elem_of_lfilter; apply elem_of_take in Ht as (i & Hi & _); by eapply list_elem_of_lookup_2).
  assert (Hdq : NoDup (List.map tk_id queued)).
  { pose proof (NoDup_map_lfilter tk_id (is_queued filter_) _ Hnd) as H. rewrite <- (take_drop take_rows (lfilter _ _)) in H.
    rewrite List.map_app in H. by apply NoDup_app in H as [H _]. }
  destruct queued as [|t0 q0] eqn:Eq; [cbn; lia|]. rewrite <- Eq in *. rewrite !alone_bind. cbn [alone fst snd tread id].
  apply pump_loop_capacity; [intros a (Ha & _)%elem_of_lfilter; by apply Hcap|]. split.
  - done.
  - by rewrite Hp.
  - intros t Ht. rewrite Hp in Ht. apply list_elem_of_In, in_map, list_elem_of_In. by apply Hq.
  - intros t Ht. rewrite Hp in Ht. destruct (Hq t Ht) as [_ H]. unfold is_queued in H. breflect. split; [done|].
    change (negb (tk_archived t) && negb (truthy (tk_parent_id t)) && unpended t = true).
    repeat match goal with H : _ = false |- _ => rewrite H end. by rewrite andb_true_l.
  - intros t Ht. apply counted_slots. by apply list_elem_of_fmap_2.
Qed.

Definition two_queued : TicketDb := sample_board [sample_ticket "a" "todo"; sample_ticket "b" "todo"] ["host"] day.

Lemma pump_respects_capacity_witness :
  running_of "rt-1" (td_tickets (alone (pumpQueue sample_uuid "s" no_filter) two_queued).1.1) ≤ 1.
Proof.
  refine (pump_respects_capacity sample_uuid "s" no_filter two_queued 1 "rt-1" _ _).
  - vm_compute. apply NoDup_cons. split; [|apply NoDup_singleton]. intros H%list_elem_of_singleton. discriminate H.
  - intros a ->%list_elem_of_singleton. by vm_compute.
Defined.

(** The sample board after the programs took turns in the order of a schedule. *)
Definition interleaved (schedule : list nat) (db : TicketDb) (programs : list (T unit)) : TicketDb :=
  (run_schedule (ticket_job sample_uuid) schedule (db, programs)).1.

(** Finding: [pumpChain] keeps the pumps of one server apart, and the claim lets one pump
    have a ticket, but nothing keeps the pumps of two servers from counting the same
    slots: the one that loses the first ticket takes the second, and the agent has two
    tickets in progress where its account allows one. *)
Lemma two_servers_exceed_capacity :
  let db := interleaved (replicate 4 0 ++ replicate 40 1 ++ replicate 40 0)%nat two_queued
              [serve sample_uuid "s1" (rq_start no_filter); serve sample_uuid "s2" (rq_start no_filter)] in
  List.map cap_of (td_accounts db) = [1] ∧ running_of "rt-1" (td_tickets db) = 2 ∧
  List.map (λ e, tk_id (tg_ticket e)) (td_emitted db) = ["a"; "b"].
Proof. by vm_compute. Qed.

(** Finding: the supervisor claims a re-send by the count alone and then sends the row it
    read before: a ticket that is finished in between is sent for with a forced
    respawn. *)
Definition finish_ticket (db : TicketDb) : TicketDb := db<|td_tickets ::= List.map (λ t, t<|tk_status := "done"|>)|>.
Lemma finished_ticket_is_woken :
  let board := sample_board [sample_ticket "t" "in_progress"] ["host"] day in
  let s1 := run_schedule (ticket_job sample_uuid) (replicate 12 0%nat) (board, [serve sample_uuid "s" rq_sweep]) in
  let s2 := run_schedule (ticket_job sample_uuid) (replicate 40 0%nat) (finish_ticket s1.1, s1.2) in
  td_emitted s1.1 = [] ∧ td_history s1.1 = [] ∧
  List.map (λ e, (tg_source e, tg_force e)) (td_emitted s2.1) = [("supervisor", true)] ∧
  List.map tk_status (td_tickets s2.1) = ["done"].
Proof. by vm_compute. Qed.

(** Finding: the supervisor takes the note of a refusal away before it retries, and the
    next refusal counts from one again: the pause is a minute each time, however often
    the manager refuses. *)
Definition sample_nack (trigger : string) : ManagerAck :=
  {| ak_ticketId := "t"; ak_triggerId := trigger; ak_outcome := nack; ak_reason := "busy"; ak_managerAgentId := "host" |}.
Definition refuse_once (db : TicketDb) : TicketDb := (alone (applyManagerAck "s" (sample_nack "trigger-0")) db).1.1.
Definition a_minute_later (db : TicketDb) : TicketDb :=
  (alone (supervise sample_uuid "s") (db<|td_now ::= Z.add 60000|>)).1.1.
Lemma nack_backoff_never_grows :
  let board := sample_board [(sample_ticket "t" "in_progress")<|tk_last_dispatched_at := Some day|>] ["host"] day in
  let wait db := match td_nacks db !! ("s", "t") with Some (at_, n) => Some (at_ - td_now db, n) | None => None end in
  let db1 := refuse_once board in
  let db2 := refuse_once (a_minute_later db1) in
  let db3 := refuse_once (a_minute_later db2) in
  wait db1 = Some (60000, 1) ∧ wait db2 = Some (60000, 1) ∧ wait db3 = Some (60000, 1) ∧
  List.map tg_source (td_emitted db3) = ["nack_retry"; "nack_retry"].
Proof. by vm_compute. Qed.

(** ** A silent agent's ticket *)

(** What a program answers, whatever it reads. *)
Fixpoint returns {A} (Q : A → Prop) (p : T A) : Prop :=
  match p with
  | done_ a => Q a
  | query _ k => ∀ db, returns Q (k db)
  | fork _ p' => returns Q p'
  end.

Lemma steps_bind_when R {A B} (Q : A → Prop) (p : T A) (k : A → T B) :
  returns Q p → steps R p → (∀ a, Q a → steps R (k a)) → steps R (p ≫= k).
Proof.
  intros Hq Hp Hk. change (p ≫= k) with (prog_bind k p). induction p as [a|upd k' IH|j p IH]; cbn in *; [by apply Hk| |by apply IH].
  intros db. destruct (Hp db) as [Hr Hs]. split; [done|by apply IH].
Qed.

Lemma returns_bind {A B} (Q : B → Prop) (p : T A) (k : A → T B) : (∀ a, returns Q (k a)) → returns Q (p ≫= k).
Proof. intros Hk. change (p ≫= k) with (prog_bind k p). induction p as [a|upd k' IH|j p IH]; cbn in *; auto. Qed.

(** In the queue or in progress *)
Definition alive (t : TicketRow) : bool := String.eqb (tk_status t) "todo" || String.eqb (tk_status t) "in_progress".

(** What the supervisor looks at, apart from the tickets. *)
Definition surroundings (db : TicketDb) :=
  (td_accounts db, td_comments db, td_outputs db, td_strands db, td_quiesced db, td_now db).

Section silence.
Context (uuid : nat → string) (server id : string).

Section frame.
Context (P : Z → TicketRow → TicketRow → Prop) {HPre : ∀ now, PreOrder (P now)}.

Definition ticket_moves (now : Z) (r r' : TicketRow) : Prop :=
  tk_id r' = tk_id r ∧ alive r' = alive r ∧ (tk_id r = id → P now r r').

#[export] Instance ticket_moves_preorder now : PreOrder (ticket_moves now).
Proof using All.
  split; [by intros r|]. intros r s t (E1 & L1 & P1) (E2 & L2 & P2). split_and!; [congruence|congruence|].
  intros E. transitivity s; [by apply P1|apply P2; congruence].
Qed.

(** The surroundings stay, tickets neither come to life nor end, and the one in question
    changes as [P] allows. *)
Record frame (db db' : TicketDb) : Prop := {
  fr_around : surroundings db' = surroundings db;
  fr_rows : Forall2 (ticket_moves (td_now db)) (td_tickets db) (td_tickets db');
  fr_nack : ∀ s, td_nacks db !! (s, id) = None → td_nacks db' !! (s, id) = None
}.

#[export] Instance frame_preorder : PreOrder frame.
Proof using All.
  split; [by intros db|]. intros x y z [A1 R1 N1] [A2 R2 N2]. split; [congruence| |auto].
  assert (En : td_now y = td_now x) by (unfold surroundings in A1; congruence). rewrite En in R2. by etransitivity.
Qed.

Lemma frame_same db db' : surroundings db' = surroundings db → td_tickets db' = td_tickets db → td_nacks db' = td_nacks db → frame db db'.
Proof using All.
  intros E1 E2 E3. split; [done|by rewrite E2|by rewrite E3].
Qed.

Lemma frame_update where_ set_ note_ db :
  (∀ r, where_ r = true → tk_id (set_ r) = tk_id r ∧ alive (set_ r) = alive r ∧ (tk_id r = id → P (td_now db) r (set_ r))) →
  frame db (update_rows where_ set_ note_ db).
Proof using All.
  intros Hw. split; [done| |done]. cbn. induction (td_tickets db) as [|r l IH]; constructor; [|done].
  destruct (where_ r) eqn:E; [by apply Hw|done].
Qed.

Lemma frame_write {A} upd (f : TicketDb → A) :
  (∀ db, surroundings (upd db) = surroundings db ∧ td_tickets (upd db) = td_tickets db ∧ td_nacks (upd db) = td_nacks db) →
  steps frame (twrite upd f).
Proof using All. intros Hw. apply steps_write. intros db. destruct (Hw db) as (? & ? & ?). by apply frame_same. Qed.

Lemma frame_log a : steps frame (logActivity server a).
Proof using All. intros db. split; [by apply frame_same|done]. Qed.

Lemma frame_offline t spec : steps frame (noteOffline server t spec).
Proof using All.
  unfold noteOffline. apply steps_bind; [|intros due; psteps ltac:(apply frame_log)].
  intros db. split; [|done]. by destruct (_ <? _); apply frame_same.
Qed.

Definition after_send (source : string) (now : Z) (r : TicketRow) : TicketRow :=
  let r' := r<|tk_last_dispatched_at := Some now|> in
  if String.eqb source "supervisor" then r' else r'<|tk_live_since := None|><|tk_live_at := None|>.

(** A dispatch touches its own ticket only. *)
Lemma frame_dispatch t source force :
  (tk_id t = id → ∀ now r, P now r (after_send source now r)) → steps frame (dispatchTicket uuid server t source force).
Proof using All.
  intros HP. unfold dispatchTicket, emitTrigger. psteps ltac:(first [apply frame_offline|by apply frame_write]).
  intros db. split; [|done]. apply (frame_update _ (after_send source (td_now db))). intros r Er. breflect.
  unfold after_send. split_and!; [by destruct (String.eqb source _)|by destruct (String.eqb source _)|].
  intros E. apply HP. congruence.
Qed.

Lemma frame_update_tickets where_ set_ note_ :
  (∀ r, where_ r = true → tk_id (set_ r) = tk_id r ∧ alive (set_ r) = alive r ∧ (tk_id r = id → ∀ now, P now r (set_ r))) →
  steps frame (update_tickets where_ set_ note_).
Proof using All.
  intros Hw. apply steps_write. intros db. apply frame_update. intros r Er. destruct (Hw r Er) as (? & ? & HP).
  split_and!; [done|done|auto].
Qed.

(** Pumps leave what is not in the queue alone. *)
Lemma frame_pump_loop accounts queued : (∀ t, t ∈ queued → tk_id t ≠ id) → ∀ running started,
  steps frame (pump_loop uuid server accounts running started queued).
Proof using All.
  induction queued as [|t l IH]; intros Hq running started; cbn [pump_loop]; [done|].
  assert (Ht : tk_id t ≠ id) by (apply Hq, list_elem_of_here).
  assert (IH' := IH ltac:(intros x Hx; by apply Hq, list_elem_of_further)).
  psteps ltac:(first [apply IH'|apply frame_offline|apply frame_log|by apply frame_dispatch]).
  apply frame_update_tickets. intros r Er. breflect. unfold alive. cbn.
  match goal with H : tk_status r = _ |- _ => rewrite H end. split_and!; [done|done|congruence].
Qed.

Lemma frame_park now t liveQuiet : tk_id t ≠ id → steps frame (parkStalled server now t liveQuiet).
Proof using All.
  intros Ht. unfold parkStalled. psteps ltac:(first [apply frame_log|by apply frame_write]). apply frame_update_tickets.
  intros r Er. unfold parks_row in Er. breflect.
  split_and!; [done|done|congruence].
Qed.

Lemma output_of t : returns (λ o, match o with Some t' => tk_id t' = tk_id t | None => True end) (noteOutput t).
Proof using Type.
  unfold noteOutput. apply returns_bind. intros latest. destruct (tk_live_since t) as [since|]; [|done].
  destruct (since <? latest); [|done]. apply returns_bind. by intros [].
Qed.

Lemma frame_output t : tk_id t ≠ id → steps frame (noteOutput t).
Proof using All.
  intros Ht. unfold noteOutput. psteps fail. apply frame_update_tickets. intros r Er. breflect.
  split_and!; [done|done|congruence].
Qed.

Lemma frame_silent now a t : tk_id t ≠ id → steps frame (superviseSilent uuid server now a t).
Proof using All.
  intros Ht. unfold superviseSilent. psteps ltac:(first [by apply frame_park|by apply frame_dispatch]).
  apply frame_update_tickets. intros r Er. breflect. split_and!; [done|done|congruence].
Qed.

(** The supervisor's turns for other tickets *)
Lemma frame_one now accounts t : tk_id t ≠ id → steps frame (superviseOne uuid server now accounts t).
Proof using All.
  intros Ht. unfold superviseOne.
  apply (steps_bind_when _ (λ o, ∀ t0, o = Some t0 → tk_id t0 = tk_id t)); [|apply steps_read; tc_solve|].
  { intros db t0 E. apply List.find_some in E as [_ E]. by breflect. }
  intros [t0|] E; [|done]. specialize (E t0 eq_refl). assert (Ht0 : tk_id t0 ≠ id) by congruence.
  destruct (find_account _ _) as [a|]; [|done]. destruct (ac_paused a); [done|]. apply steps_bind; [apply steps_read; tc_solve|].
  intros [[at_ n]|].
  - destruct (at_ <=? now); [|done]. psteps ltac:(by apply frame_dispatch). apply steps_write. intros d.
    split; [done|done|]. intros s Hn. change (delete (server, tk_id t0) (td_nacks d) !! (s, id) = None).
    by rewrite lookup_delete_ne by congruence.
  - apply (steps_bind_when _ _ _ _ (output_of t0)); [by apply frame_output|]. intros [t1|] E1; [|done].
    assert (Ht1 : tk_id t1 ≠ id) by congruence. destruct (_ && _); [by apply frame_park|by apply frame_silent].
Qed.
End frame.

(** *** Silence *)

Definition longest_wait (a : AccountRow) : Z :=
  Z.max 60000 (Z.max (or_default (ac_resend_ms a) 300000) (or_default (ac_stale_ms a) 1800000)).

(** The ticket's agent has given no sign of life since [since], nobody vouches for it, it
    was sent for [n] times, and the supervisor may look after it. *)
Record silent_row (wait since n : Z) (db : TicketDb) (t : TicketRow) : Prop := {
  sr_working : is_working t = true;
  sr_count : tk_redispatches t = n;
  sr_since : tk_live_since t = None;
  sr_at : tk_live_at t = None;
  sr_sent : default 0 (tk_last_dispatched_at t) ≤ since;
  sr_strand : hasLiveRoleStrand (tk_assignee_key t) id db = false;
  sr_account : ∃ a, find_account (tk_account_id t) (td_accounts db) = Some a ∧ ac_paused a = false ∧ longest_wait a ≤ wait
}.

Record silent (wait since n : Z) (db : TicketDb) : Prop := {
  si_ids : NoDup (List.map tk_id (td_tickets db));
  si_few : (length (lfilter alive (td_tickets db)) ≤ take_rows)%nat;
  si_row : ∃ t, t ∈ td_tickets db ∧ tk_id t = id ∧ silent_row wait since n db t;
  si_running : td_quiesced db = false;
  si_comments : latestCommentAt id db ≤ since;
  si_output : latest_output id db ≤ since;
  si_nack : ∀ s, td_nacks db !! (s, id) = None
}.

Definition handed_over (db : TicketDb) : Prop :=
  ∃ t, t ∈ td_tickets db ∧ tk_id t = id ∧ tk_status t = "in_progress" ∧
    tk_pending_user_action t = true ∧ tk_pending_set_by t = "AWB".

(** What the supervisor decides on, but for the time of the last trigger. *)
Definition core (t : TicketRow) :=
  (is_working t, tk_redispatches t, tk_live_since t, tk_live_at t, tk_assignee_key t, tk_account_id t).

Definition aside : TicketDb → TicketDb → Prop := frame (λ _, eq).
Definition sent_for : TicketDb → TicketDb → Prop :=
  frame (λ now r r', core r' = core r ∧ default 0 (tk_last_dispatched_at r') ≤ Z.max (default 0 (tk_last_dispatched_at r)) now).

#[local] Instance anything_preorder : PreOrder (λ _ _ : TicketRow, True).
Proof. by split. Qed.
#[local] Instance sent_preorder now : PreOrder (λ r r', core r' = core r ∧
  default 0 (tk_last_dispatched_at r') ≤ Z.max (default 0 (tk_last_dispatched_at r)) now).
Proof. split; [intros r; split; [done|lia]|]. intros r s t [E1 L1] [E2 L2]. split; [congruence|lia]. Qed.

Lemma frame_ids P db db' : frame P db db' → List.map tk_id (td_tickets db') = List.map tk_id (td_tickets db).
Proof. intros [_ H _]. induction H as [|r r' l l' (E & _) _ IH]; cbn; congruence. Qed.

Lemma frame_alive P db db' : frame P db db' → length (lfilter alive (td_tickets db')) = length (lfilter alive (td_tickets db)).
Proof.
  intros [_ H _]. induction H as [|r r' l l' (_ & E & _) _ IH]; [done|]. rewrite !lfilter_cons, E.
  destruct (alive r); cbn; congruence.
Qed.

Lemma frame_row P db db' t : frame P db db' → t ∈ td_tickets db → tk_id t = id →
  ∃ t', t' ∈ td_tickets db' ∧ tk_id t' = id ∧ P (td_now db) t t'.
Proof.
  intros [_ H _] [i Hi]%list_elem_of_lookup_1 E. destruct (Forall2_lookup_l _ _ _ _ _ H Hi) as (t' & Ht' & Ei & _ & HP).
  exists t'. split_and!; [by eapply list_elem_of_lookup_2|congruence|auto].
Qed.

Lemma silent_frame P wait since since' n db db' :
  silent wait since n db → since ≤ since' → frame P db db' →
  (∀ r r', default 0 (tk_last_dispatched_at r) ≤ since → P (td_now db) r r' →
    core r' = core r ∧ default 0 (tk_last_dispatched_at r') ≤ since') →
  silent wait since' n db'.
Proof.
  intros [S1 S2 (t & Ht & Ei & [R1 R2 R3 R4 R5 R6 R7]) S4 S5 S6 S7] Hle F HP.
  destruct (frame_row _ _ _ _ F Ht Ei) as (t' & Ht' & Ei' & Hp). destruct (HP _ _ R5 Hp) as [Ec Hl].
  unfold core in Ec. injection Ec as E1 E2 E3 E4 E5 E6. pose proof (fr_around _ _ _ F) as A. injection A as A1 A2 A3 A4 A5 A6.
  split; rewrite ?(frame_ids _ _ _ F), ?(frame_alive _ _ _ F); try done.
  - exists t'. split_and!; [done|done|]. split; rewrite ?E1, ?E2, ?E3, ?E4, ?E5, ?E6, ?A1; try done.
    unfold hasLiveRoleStrand. by rewrite A4.
  - congruence.
  - unfold latestCommentAt in *. rewrite A2. lia.
  - unfold latest_output in *. rewrite A3. lia.
  - intros s. by apply (fr_nack _ _ _ F).
Qed.

Lemma silent_aside wait since n db db' : silent wait since n db → aside db db' → silent wait since n db'.
Proof. intros H F. apply (silent_frame _ _ _ _ _ _ _ H (Z.le_refl _) F). by intros r r' Hl <-. Qed.

Lemma silent_sent wait since n db db' : silent wait since n db → since ≤ td_now db → sent_for db db' → silent wait (td_now db) n db'.
Proof. intros H Hs F. apply (silent_frame _ _ _ _ _ _ _ H Hs F). intros r r' Hl [E L]. split; [done|lia]. Qed.

Lemma handed_aside db db' : handed_over db → aside db db' → handed_over db'.
Proof.
  intros (t & Ht & Ei & Hp) F. destruct (frame_row _ _ _ _ F Ht Ei) as (t' & Ht' & Ei' & <-). by exists t.
Qed.

(** *** A sweep *)

Lemma alone_each_app {A} (body : A → T unit) l1 l2 db :
  (alone (teach body (l1 ++ l2)) db).1.1 = (alone (teach body l2) (alone (teach body l1) db).1.1).1.1.
Proof.
  revert db. induction l1 as [|a l1 IH]; intros db; [done|]. cbn [teach app]. rewrite !alone_bind. apply IH.
Qed.

Lemma is_working_alive t : is_working t = true → tk_status t = "in_progress" ∧ alive t = true.
Proof. unfold is_working, alive. intros H. breflect. match goal with H : tk_status t = _ |- _ => by rewrite H end. Qed.

Lemma only_row db t r : NoDup (List.map tk_id (td_tickets db)) → t ∈ td_tickets db → tk_id t = id →
  r ∈ td_tickets db → tk_id r = id → r = t.
Proof. intros Hnd Ht Et Hr Er. apply (NoDup_fmap_inj_on tk_id (td_tickets db)); [done|done|done|congruence]. Qed.

Lemma in_taken (p : TicketRow → bool) l r : r ∈ take take_rows (lfilter p l) → r ∈ l ∧ p r = true.
Proof. intros (i & Hi & _)%elem_of_take. by apply elem_of_lfilter, (list_elem_of_lookup_2 _ i). Qed.

(** Pumps do not touch what is in progress. *)
Lemma aside_pump filter_ db t : NoDup (List.map tk_id (td_tickets db)) → t ∈ td_tickets db → tk_id t = id →
  tk_status t = "in_progress" → aside db (alone (pumpQueue uuid server filter_) db).1.1.
Proof.
  intros Hnd Ht Ei Hs. unfold pumpQueue. rewrite alone_bind. cbn [alone fst snd tread Datatypes.id].
  destruct (td_quiesced db); [cbn; reflexivity|]. rewrite alone_bind. cbn [alone fst snd tread Datatypes.id].
  set (queued := take take_rows (lfilter (is_queued filter_) (td_tickets db))). destruct queued as [|q0 q] eqn:Eq; [cbn; reflexivity|].
  rewrite <- Eq, !alone_bind. cbn [alone fst snd tread Datatypes.id]. apply (steps_alone aside), frame_pump_loop; [tc_solve|].
  intros r Hr Er. assert (Hq : r ∈ queued) by (unfold queue_order in Hr; by rewrite !sort_by_perm in Hr).
  apply in_taken in Hq as [Hin Hq]. rewrite (only_row _ _ _ Hnd Ht Ei Hin Er) in Hq. unfold is_queued in Hq. by rewrite Hs in Hq.
Qed.

Lemma aside_prune db : aside db (pruneNotes server db).
Proof.
  split; [done|done|]. intros s Hn. unfold pruneNotes. cbn. apply map_lookup_filter_None. by left.
Qed.

(** What a sweep does to the silent ticket: it hands it over, comes too early, or sends
    for it once more. *)
Definition turned (wait since now n : Z) (db : TicketDb) : Prop :=
  (NoDup (List.map tk_id (td_tickets db)) ∧ handed_over db) ∨
  (silent wait since n db ∧ now < since + wait) ∨
  (silent wait now (n + 1) db ∧ n < MAX_SUPERVISOR_REDISPATCHES).

Lemma turned_aside wait since now n db db' : turned wait since now n db → aside db db' → turned wait since now n db'.
Proof.
  intros [[Hi H]|[[H Hn]|[H Hn]]] F; [left; rewrite (frame_ids _ _ _ F)|right; left|right; right]; eauto using handed_aside, silent_aside.
Qed.

Lemma park_hands_over now t db :
  NoDup (List.map tk_id (td_tickets db)) → t ∈ td_tickets db → tk_id t = id → is_working t = true →
  let db' := (alone (parkStalled server now t false) db).1.1 in NoDup (List.map tk_id (td_tickets db')) ∧ handed_over db'.
Proof.
  intros Hnd Ht Ei Hw db'. subst db'. unfold parkStalled. rewrite alone_bind. cbn [alone fst snd mret prog_ret]. rewrite alone_bind.
  assert (Hm : parks_row t t = true).
  { unfold parks_row. unfold is_working in Hw. breflect. rewrite !String.eqb_refl, Z.eqb_refl, !bool_decide_eq_true_2 by done.
    repeat match goal with H : _ = _ |- _ => rewrite H; clear H end. done. }
  assert (Hd : ∀ d b, NoDup (List.map tk_id (td_tickets d)) ∧ handed_over d →
    let d' := (alone (if negb b then mret tt : T unit else logActivity server
    (ticket_activity t "updated" "pending_user_action" "true" "")) d).1.1 in
    NoDup (List.map tk_id (td_tickets d')) ∧ handed_over d') by (intros d [] H; exact H).
  apply Hd. split; [cbn; rewrite map_ids; [done|intros r; by destruct (parks_row t r)]|]. exists (t<|tk_pending_user_action := true|><|tk_pending_set_by := "AWB"|><|tk_redispatches := 0|>).
  split_and!; [|done|by apply is_working_alive in Hw as [Hw _]|done|done].
  apply list_elem_of_In, in_map_iff. exists t. rewrite Hm. split; [done|by apply list_elem_of_In].
Qed.

Lemma claim_counts wait since n t now db : silent wait since n db → t ∈ td_tickets db → tk_id t = id →
  (alone (claimResend t now) db).1.2 = true ∧ silent wait since (n + 1) (alone (claimResend t now) db).1.1.
Proof.
  intros S Ht Ei. pose proof S as [S1 S2 (t0 & Ht0 & Ei0 & Hr) S4 S5 S6 S7].
  rewrite (only_row _ _ _ S1 Ht Ei Ht0 Ei0) in Hr. destruct Hr as [R1 R2 R3 R4 R5 R6 R7].
  assert (F : frame (λ _ _ _, True) db (alone (claimResend t now) db).1.1).
  { by apply (frame_update (λ _ _ _, True) (HPre := λ _, anything_preorder)). }
  assert (Hm : String.eqb (tk_id t) (tk_id t) && (tk_redispatches t =? tk_redispatches t) = true)
    by (by rewrite String.eqb_refl, Z.eqb_refl).
  split; [unfold claimResend; cbn; apply lsome_true; by exists t|].
  split; rewrite ?(frame_ids _ _ _ F), ?(frame_alive _ _ _ F); try done.
  exists (t<|tk_redispatches := tk_redispatches t + 1|>). split_and!; [|done|].
  - apply list_elem_of_In, in_map_iff. exists t. rewrite Hm. split; [done|by apply list_elem_of_In].
  - split; [exact R1|cbn; lia|exact R3|exact R4|exact R5|exact R6|exact R7].
Qed.

Lemma resend_turn wait since n a t db : silent wait since n db → t ∈ td_tickets db → tk_id t = id →
  longest_wait a ≤ wait → since ≤ td_now db →
  turned wait since (td_now db) n (alone (superviseSilent uuid server (td_now db) a t) db).1.1.
Proof.
  intros S Ht Ei Ha Hs. pose proof S as [S1 S2 (t0 & Ht0 & Ei0 & Hr) S4 S5 S6 S7].
  rewrite (only_row _ _ _ S1 Ht Ei Ht0 Ei0) in Hr. destruct Hr as [R1 R2 R3 R4 R5 R6 R7].
  unfold superviseSilent. rewrite !alone_bind. cbn [alone fst snd tread Datatypes.id]. rewrite Ei, R6.
  rewrite alone_bind. cbn [alone fst snd tread Datatypes.id].
  assert (Hc : liveConfirmed t (td_now db) = false) by (unfold liveConfirmed; by rewrite R4).
  assert (Hl : waitMs t a (td_now db) ≤ wait).
  { unfold waitMs, cadenceMs. rewrite Hc. unfold longest_wait in Ha. destruct (0 <? tk_redispatches t); lia. }
  destruct (Z.ltb_spec (td_now db - Z.max (default 0 (tk_last_dispatched_at t)) (Z.max (latestCommentAt id db) (latest_output id db)))
    (waitMs t a (td_now db))); [right; left; split; [exact S|lia]|].
  rewrite Hc, R2, andb_true_r. destruct (Z.leb_spec MAX_SUPERVISOR_REDISPATCHES n); [left; by apply park_hands_over|].
  right. right. split; [|done].
  rewrite alone_bind. destruct (claim_counts _ _ _ t (td_now db) _ S Ht Ei) as [-> S']. cbn [negb]. rewrite alone_bind. cbn [alone fst snd mret prog_ret].
  set (db1 := (alone (claimResend t (td_now db)) db).1.1) in *. change (td_now db) with (td_now db1).
  refine (silent_sent wait since _ db1 _ S' _ _); [change (td_now db1) with (td_now db); lia|].
  apply (steps_alone sent_for), frame_dispatch; [tc_solve|]. intros _ now r. unfold after_send. cbn. split; [done|lia].
Qed.

Lemma own_turn wait since n accounts snapshot db : silent wait since n db → tk_id snapshot = id →
  since ≤ td_now db →
  (∀ t, t ∈ td_tickets db → tk_id t = id → find_account (tk_account_id t) accounts = find_account (tk_account_id t) (td_accounts db)) →
  turned wait since (td_now db) n (alone (superviseOne uuid server (td_now db) accounts snapshot) db).1.1.
Proof.
  intros S Es Hs Hacc. pose proof S as [S1 S2 (t & Ht & Ei & [R1 R2 R3 R4 R5 R6 (a & Ea & Hp & Hl)]) S4 S5 S6 S7].
  unfold superviseOne. rewrite alone_bind. cbn [alone fst snd tread Datatypes.id].
  assert (Ef : List.find (λ r, String.eqb (tk_id r) (tk_id snapshot) && is_working r) (td_tickets db) = Some t).
  { destruct (List.find _ _) as [r|] eqn:E.
    - apply List.find_some in E as [Hr E]. breflect. apply list_elem_of_In in Hr. f_equal.
      apply (only_row _ _ _ S1 Ht Ei Hr). congruence.
    - pose proof (List.find_none _ _ E t (proj1 (list_elem_of_In _ _) Ht)) as Hf. cbn in Hf.
      by rewrite Es, Ei, String.eqb_refl, R1 in Hf. }
  rewrite Ef, (Hacc t Ht Ei), Ea, Hp, alone_bind. cbn [alone fst snd tread Datatypes.id]. rewrite Ei, S7, alone_bind.
  unfold noteOutput. rewrite R3, alone_bind. cbn [alone fst snd tread Datatypes.id mret prog_ret].
  assert (Hc : liveConfirmed t (td_now db) = false) by (unfold liveConfirmed; by rewrite R4).
  rewrite Hc. by apply resend_turn.
Qed.

Lemma find_account_filter p k l : (∀ a, ac_id a = k → p a = true) → find_account k (lfilter p l) = find_account k l.
Proof.
  intros Hp. unfold find_account. induction l as [|a l IH]; [done|]. rewrite lfilter_cons. cbn [List.find].
  destruct (String.eqb_spec (ac_id a) k) as [E|N].
  - rewrite (Hp a E). cbn. by rewrite E, String.eqb_refl.
  - destruct (p a); [|done]. cbn. by rewrite (proj2 (String.eqb_neq _ _) N).
Qed.

(** The turns of other tickets *)
Lemma aside_turns now accounts l db : (∀ r, r ∈ l → tk_id r ≠ id) →
  aside db (alone (teach (superviseOne uuid server now accounts) l) db).1.1.
Proof. intros Hl. apply (steps_alone aside), steps_each. intros r Hr. apply frame_one; [tc_solve|by apply Hl]. Qed.

Lemma supervise_turn wait since n db : silent wait since n db → since ≤ td_now db →
  turned wait since (td_now db) n (alone (supervise uuid server) db).1.1.
Proof.
  intros S Hs. pose proof S as [S1 S2 (t & Ht & Ei & [R1 R2 R3 R4 R5 R6 R7]) S4 S5 S6 S7].
  unfold supervise. rewrite alone_bind. cbn [alone fst snd tread Datatypes.id]. rewrite alone_bind.
  cbn [alone fst snd tread Datatypes.id]. rewrite S4, alone_bind. cbn [alone fst snd tread Datatypes.id].
  set (working := take take_rows (lfilter is_working (td_tickets db))).
  assert (Hall : working = lfilter is_working (td_tickets db)).
  { apply take_ge. etransitivity; [|exact S2]. apply lfilter_weaker. intros r _ Hr. by apply is_working_alive. }
  assert (Hin : t ∈ working) by (rewrite Hall; by apply elem_of_lfilter).
  assert (Hnd : NoDup (List.map tk_id working)) by (rewrite Hall; by apply NoDup_map_lfilter).
  destruct working as [|w0 w] eqn:Ew; [inversion Hin|]. rewrite <- Ew in *. clear Ew w0 w. rewrite alone_bind.
  cbn [alone fst snd tread Datatypes.id]. set (accounts := lfilter _ (td_accounts db)).
  apply list_elem_of_split in Hin as (l1 & l2 & El). rewrite El, alone_each_app in *. rewrite List.map_app in Hnd.
  apply NoDup_app in Hnd as (_ & H1 & H2). cbn [List.map] in H1, H2. apply NoDup_cons in H2 as [H2 _].
  assert (F1 : aside db (alone (teach (superviseOne uuid server (td_now db) accounts) l1) db).1.1).
  { apply aside_turns. intros r Hr Er. apply (H1 (tk_id r)); [by apply list_elem_of_fmap_2|]. rewrite Er, <- Ei. apply list_elem_of_here. }
  set (db1 := (alone (teach _ l1) db).1.1) in *.
  pose proof (fr_around _ _ _ F1) as A. injection A as A1 _ _ _ _ A6. cbn [teach]. rewrite alone_bind.
  eapply turned_aside; [|apply aside_turns; intros r Hr Er; apply H2; rewrite Ei, <- Er; by apply list_elem_of_fmap_2].
  rewrite <- A6 in *. apply own_turn; [by apply (silent_aside _ _ _ db)|done|done|].
  intros r Hr Er. destruct (frame_row _ _ _ _ F1 Ht Ei) as (r0 & Hr0 & Er0 & <-).
  rewrite (only_row _ _ r (si_ids _ _ _ _ (silent_aside _ _ _ _ _ S F1)) Hr0 Er0 Hr Er), A1. apply find_account_filter.
  intros a Ea. apply includes_true. rewrite Ea, El, List.map_app. apply elem_of_app. right. apply list_elem_of_here.
Qed.

Lemma sweep_turn wait since n db : silent wait since n db → since ≤ td_now db →
  turned wait since (td_now db) n (alone (sweep uuid server) db).1.1.
Proof.
  intros S Hs. unfold sweep. rewrite alone_bind. cbn [alone fst snd twrite]. rewrite alone_bind.
  pose proof (silent_aside _ _ _ _ _ S (aside_prune db)) as S1. set (db1 := pruneNotes server db) in *.
  destruct (si_row _ _ _ _ S1) as (t & Ht & Ei & [Hw _ _ _ _ _ _]). apply is_working_alive in Hw as [Hw _].
  pose proof (aside_pump no_filter _ t (si_ids _ _ _ _ S1) Ht Ei Hw) as F.
  pose proof (fr_around _ _ _ F) as A. injection A as _ _ _ _ _ A.
  unfold startQueued. change (td_now db) with (td_now db1) in *. rewrite <- A in *.
  apply supervise_turn; [by apply (silent_aside _ _ _ db1)|done].
Qed.

End silence.

(** ** Sweeps one after the other *)

(** What may happen between two sweeps while the agent is silent: everything that is no
    sign of life of it and does not take its ticket from the supervisor.  Other
    tickets, other accounts, hosts, links, users, triggers and what would become of them
    change at will. *)
Record meanwhile (id : string) (db db' : TicketDb) : Prop := {
  mw_ids : NoDup (List.map tk_id (td_tickets db'));
  mw_few : (length (lfilter alive (td_tickets db')) ≤ take_rows)%nat;
  mw_row : ∀ t, t ∈ td_tickets db → tk_id t = id → ∃ t', t' ∈ td_tickets db' ∧ tk_id t' = id ∧ core t' = core t ∧
    tk_last_dispatched_at t' = tk_last_dispatched_at t ∧
    find_account (tk_account_id t) (td_accounts db') = find_account (tk_account_id t) (td_accounts db) ∧
    hasLiveRoleStrand (tk_assignee_key t) id db' = hasLiveRoleStrand (tk_assignee_key t) id db;
  mw_running : td_quiesced db' = td_quiesced db;
  mw_comments : latestCommentAt id db' = latestCommentAt id db;
  mw_output : latest_output id db' = latest_output id db;
  mw_nacks : ∀ s, td_nacks db !! (s, id) = None → td_nacks db' !! (s, id) = None
}.

(** Sweeps of any servers at given times, none interrupted, and the tables after each *)
Inductive sweeps_at (uuid : nat → string) (id : string) : list (string * Z) → TicketDb → list TicketDb → Prop :=
  | sweeps_none db : sweeps_at uuid id [] db []
  | sweeps_next server now rest db db1 states :
      meanwhile id db db1 → td_now db1 = now →
      sweeps_at uuid id rest (alone (sweep uuid server) db1).1.1 states →
      sweeps_at uuid id ((server, now) :: rest) db ((alone (sweep uuid server) db1).1.1 :: states).

Fixpoint not_back (previous : Z) (times : list Z) : Prop :=
  match times with [] => True | now :: rest => previous ≤ now ∧ not_back now rest end.

(** How often a time of [wait] has gone by with a sweep at its end. *)
Fixpoint full_waits (wait previous : Z) (times : list Z) : Z :=
  match times with
  | [] => 0
  | now :: rest => if previous + wait <=? now then 1 + full_waits wait now rest else full_waits wait previous rest
  end.

Lemma silent_meanwhile id wait since n db db' : silent id wait since n db → meanwhile id db db' → silent id wait since n db'.
Proof.
  intros [S1 S2 (t & Ht & Ei & [R1 R2 R3 R4 R5 R6 R7]) S4 S5 S6 S7] [M1 M2 M3 M4 M5 M6 M7].
  destruct (M3 t Ht Ei) as (t' & Ht' & Ei' & Ec & El & Ea & Es). unfold core in Ec. injection Ec as E1 E2 E3 E4 E5 E6.
  split; [done|done| |congruence|by rewrite M5|by rewrite M6|auto]. exists t'. split_and!; [done|done|].
  split; rewrite ?E1, ?E2, ?E3, ?E4, ?E5, ?E6, ?El, ?Ea, ?Es; done.
Qed.

(** Where [m] counts the waits gone by up to [last] on top of the re-sends there were: the
    ticket was sent for that often, or once more and later. *)
Lemma waits_are_spent uuid id wait sweeps : ∀ since last n m db states,
  sweeps_at uuid id sweeps db states → silent id wait since n db → n ≤ MAX_SUPERVISOR_REDISPATCHES → 0 ≤ wait →
  (since ≤ last ∧ m ≤ n) ∨ m + 1 ≤ n → not_back since (List.map snd sweeps) →
  MAX_SUPERVISOR_REDISPATCHES + 1 ≤ m + full_waits wait last (List.map snd sweeps) →
  ∃ db', db' ∈ states ∧ handed_over id db'.
Proof.
  induction sweeps as [|[server now] sweeps IH]; intros since last n m db states Hsw S Hn Hw Hm Ht Hlen;
    cbn [List.map snd full_waits] in *; [lia|].
  inversion Hsw as [|? ? ? ? db1 rest Hmw Hnow Hrest]; subst. clear Hsw. destruct Ht as [Hs Ht].
  pose proof (silent_meanwhile _ _ _ _ _ _ S Hmw) as S'. clear S.
  assert (Hb : not_back since (List.map snd sweeps)) by (destruct sweeps; [done|]; destruct Ht; split; [lia|done]).
  assert (Hlater : (∃ db', db' ∈ rest ∧ handed_over id db') →
    ∃ db', db' ∈ (alone (sweep uuid server) db1).1.1 :: rest ∧ handed_over id db')
    by (intros (d & Hd & H); exists d; split; [by apply list_elem_of_further|done]).
  destruct (sweep_turn uuid server id _ _ _ _ S' Hs) as [H|[[H He]|[H He]]].
  - eexists. split; [apply list_elem_of_here|apply H].
  - apply Hlater. destruct (Z.leb_spec (last + wait) (td_now db1)); [|by eapply (IH since last n m)].
    apply (IH since (td_now db1) n (m + 1) _ _ Hrest); [done|done|done| |done|lia]. lia.
  - apply Hlater. destruct (Z.leb_spec (last + wait) (td_now db1)).
    + apply (IH (td_now db1) (td_now db1) (n + 1) (m + 1) _ _ Hrest); [done|lia|done|lia|done|lia].
    + apply (IH (td_now db1) last (n + 1) m _ _ Hrest); [done|lia|done|lia|done|lia].
Qed.


(** Four sweeps an hour apart, with others between, of two servers in turn; the host goes
    away after the first. *)
Definition at_time (now : Z) (db : TicketDb) : TicketDb := db<|td_now := now|>.
Definition host_away (db : TicketDb) : TicketDb := db<|td_reachable := []|>.
Definition quiet_board : TicketDb := sample_board [sample_ticket "q" "todo"; sample_ticket "t" "in_progress"] ["host"] 0.
Definition hourly : list (string * Z) :=
  [("s1", 30000); ("s2", 3600000); ("s1", 3630000); ("s2", 7200000); ("s1", 10800000); ("s2", 10830000); ("s1", 14400000)].

Fixpoint hourly_states (sweeps : list (string * Z)) (db : TicketDb) : list TicketDb :=
  match sweeps with
  | [] => []
  | (server, now) :: rest =>
      let db' := (alone (sweep sample_uuid server) (at_time now (host_away db))).1.1 in db' :: hourly_states rest db'
  end.

Lemma meanwhile_away id now db : NoDup (List.map tk_id (td_tickets db)) →
  (length (lfilter alive (td_tickets db)) ≤ take_rows)%nat → meanwhile id db (at_time now (host_away db)).
Proof. intros H1 H2. split; [done|done| |done..]. intros t Ht Ei. by exists t. Qed.

Lemma hourly_sweeps sweeps : ∀ db, NoDup (List.map tk_id (td_tickets db)) →
  Forall (λ d, NoDup (List.map tk_id (td_tickets d)) ∧ (length (td_tickets d) ≤ take_rows)%nat) (db :: hourly_states sweeps db) →
  sweeps_at sample_uuid "t" sweeps db (hourly_states sweeps db).
Proof.
  induction sweeps as [|[server now] sweeps IH]; intros db Hnd Hall; cbn [hourly_states] in *; [constructor|].
  apply Forall_cons in Hall as [[_ Hl] Hall]. pose proof Hall as Hall'. apply Forall_cons in Hall' as [[Hn _] _].
  apply (sweeps_next _ _ _ _ _ _ (at_time now (host_away db))); [|done|by apply IH].
  apply meanwhile_away; [done|]. etransitivity; [|exact Hl]. apply lfilter_length_le.
Qed.

Lemma quiet_board_silent : silent "t" 1800000 0 0 quiet_board.
Proof.
  split; [| | |done|by vm_compute|by vm_compute|done].
  - apply (bool_decide_unpack _). by vm_compute.
  - apply Nat.leb_le. by vm_compute.
  - exists (sample_ticket "t" "in_progress"). split_and!; [by apply list_elem_of_further, list_elem_of_here|done|].
    split; [done|done|done|done|by vm_compute|by vm_compute|]. eexists. split_and!; [by vm_compute|done|by vm_compute].
Qed.

