(* ===== verification/Anomalies.v ===== *)
(** * Behaviours worth knowing

    Concrete runs in which the engine does something its comments do not expect.
    Each is evaluated on a small world. *)

From S2P Require Import Prelude JsStd Vocabulary Plan Graph GraphRun Roster Entities Logic Samples PostActions Engine.
From S2P Require Import Lifecycle StepEdit PlanIntake Reports Recovery Calls Fences.
From S2P Require Import Concurrent Approvals Tables ConfirmNotify ApprovalService Reaper ReaperGuarantees Outbox CircuitBreaker.
From S2P Require Import Timeline TimelineFacts.
From stdpp Require Import pretty.
#[local] Open Scope Z_scope.

Definition plain_report (status : ReportStatus) (visit : option Z) (token : string) : ReportInput :=
  {| ri_status := status; ri_summary := "s"; ri_artifacts := None; ri_verdict := Some "pass";
     ri_visit := JInt <$> visit; ri_lease_token := Some token |}.

Definition plain_update (action : StepAction) : StepUpdate :=
  {| su_action := action; su_assignee := None; su_assignee_agent_id := None; su_project := None;
     su_instructions := None; su_acceptance_criteria := None; su_max_attempts := None |}.

(** A confirm gate waits for a user, but it holds no lease, so the mission's
    orchestrator can report it done: the gate passes without a decision. *)
Lemma orchestrator_passes_a_gate :
  let w := after sample_env (c_report 5 "id-gate" the_orchestrator (plain_report report_done (Some 1) "")) sample_gate_world in
  match w_steps sample_gate_world, w_steps w with
  | [before], [gate] => isAwaitingUser (st_status before) = true ∧ st_status gate = "done" ∧
                        st_verdict gate = "pass" ∧ st_confirm_decision gate = None
  | _, _ => False
  end.
Proof. vm_compute. repeat split. Qed.

(** A retry keeps the lease token of the attempt it replaces: as long as the step
    waits for a slot, the old worker's result is accepted. *)
Definition waiting_retry : World :=
  sample_world "running"
    [(sample_step "a" "failed" [] 0)<|st_assignee_slot := None|><|st_attempt := 1|><|st_lease_token := "old"|>;
     (sample_step "b" "running" [] 1)<|st_assignee_slot := None|><|st_lease_token := "other"|>].

Lemma superseded_worker_reports_after_retry :
  let w1 := after sample_env (c_update 5 "id-a" the_orchestrator (plain_update act_retry)) waiting_retry in
  let w2 := after sample_env (c_report 6 "id-a" the_agent (plain_report report_done None "old")) w1 in
  List.map st_status (w_steps w1) = ["ready"; "running"] ∧ List.map st_status (w_steps w2) = ["done"; "running"].
Proof. vm_compute. split; reflexivity. Qed.

(** A step that was blocked by an upstream failure, retried and then reported
    blocked by its own worker keeps the mark of the first blocking: the next step
    control puts it back in the queue. *)
Definition marked_blocked : World :=
  sample_world "running"
    [sample_step "a" "done" [] 0;
     (sample_step "b" "running" ["a"] 1)<|st_auto_blocked := true|><|st_attempt := 1|><|st_lease_token := "t"|>].

Lemma reported_block_is_undone :
  let w1 := after sample_env (c_report 5 "id-b" the_agent (plain_report report_blocked None "t")) marked_blocked in
  let w2 := after sample_env (c_update 6 "id-a" the_orchestrator (plain_update act_amend)) w1 in
  List.map st_status (w_steps w1) = ["done"; "blocked"] ∧ List.map st_status (w_steps w2) = ["done"; "dispatched"].
Proof. vm_compute. split; reflexivity. Qed.

(** How the mark survives: blocking sets it, a retry leaves it. *)
Lemma retry_keeps_the_mark now s : st_auto_blocked (queue_retry (block_step now s)) = true.
Proof. reflexivity. Qed.

(** ** The reaper *)

Definition mission_events (id : string) (db : Adb) : list Event := from_option w_events [] (find_world id db).

(** Two re-briefings that were answered long ago — a step finished half an hour
    after the second — still count when the mission stalls again: the next sweep
    gives it up without briefing the orchestrator about the new stall. *)
Definition worked_again : World :=
  board_world "m" (spent_nudges ++ [reaper_wake "all_steps_terminal" 90])
    [(sample_step "a" "done" [] 0)<|st_finished_at := Some (minutes 90)|>].

Lemma answered_nudges_still_count :
  let db := board (minutes 115) [worked_again] in
  let after := snd (run_alone (one_sweep (minutes 115)) db) in
  status_at "m" db = Some "running" ∧ status_at "m" after = Some "failed" ∧
  List.map ev_type (mission_events "m" after) = List.map ev_type (mission_events "m" db) ++ ["mission_failed"].
Proof. vm_compute. split_and!; reflexivity. Qed.

(** Two servers that sweep at once both re-brief a mission, which spends both of
    its chances in one window: the next sweep gives it up. *)
Definition fresh_stall : World :=
  board_world "m" [] [(sample_step "a" "done" [] 0)<|st_finished_at := Some (minutes 60)|>].

Definition two_servers : Adb * list (P SweepResult) :=
  run_schedule notice_job (List.concat (List.repeat [0; 1]%nat 12))
    (board (minutes 100) [fresh_stall],
     sweeps_of (λ _, fenced_env) None sample_config 0 [(false, false, minutes 100); (false, false, minutes 100)]).

Lemma two_servers_spend_both_nudges :
  List.map ev_created_at (mission_events "m" two_servers.1) = [minutes 100; minutes 100] ∧
  status_at "m" (snd (run_alone (one_sweep (minutes 121)) two_servers.1)) = Some "failed".
Proof. vm_compute. split; reflexivity. Qed.

(** What giving up re-checks under the lock is work in flight, not a gate that
    has opened since the sweep looked: the gate is closed with the mission. *)
Lemma giving_up_closes_an_open_gate :
  let w := snd (failMissionExternally (minutes 100) "running" "stalled" waiting_world) in
  ms_status (w_mission w) = "failed" ∧ List.map st_status (w_steps w) = ["cancelled"].
Proof. vm_compute. split; reflexivity. Qed.

(** A message handed to a full outbox while the head is on its way pushes the
    head out; when its sender accepts it, the flush shifts the next message off
    the queue although nobody sent it. *)
Definition numbered_entry (i : nat) : OutboxEntry :=
  {| oe_id := "m" +:+ pretty.pretty (Z.of_nat i); oe_kind := chat_message; oe_enqueued_at_ms := 1000; oe_attempts := 0; oe_payload := JNull |}.

Definition full_outbox : Outbox :=
  restart zero_number 2000 uuid_ex all_kinds
    (persist (empty_outbox<|ob_entries := List.map numbered_entry (seq 0 OUTBOX_MAX_ENTRIES)|>)).

Lemma overflow_mid_send_drops_an_unsent_message :
  let '(s, fs) := run_outbox zero_number [k_flush 2001; k_enqueue 2002 "new" chat_message JNull; k_resume 2003 send_ok] full_outbox in
  fs = [fate_overflowed (numbered_entry 0); fate_shifted (numbered_entry 1)] ∧ length (ob_entries s) = 499%nat.
Proof. vm_compute. split; reflexivity. Qed.

(** A breaker forced open before the threshold: a failed probe does not restart
    its cooldown, so the next probe follows the failure by half of it. *)
Definition defaults : BreakerOptions := breaker_options None None None None.

Lemma forced_breaker_keeps_its_clock :
  let k := key "agent" "ticket" "dev" in
  let forced := [op_record 0 k (Some 1) "usage limit" true; op_check (minutes 60) k; op_record (minutes 90) k (Some 1) "" false] in
  JMap.get (operate_all defaults forced []) k
  = Some {| cb_consecutiveFailures := 2; cb_lastFailureAt := minutes 90; cb_lastExitCode := Some 1; cb_lastExitTail := "";
            cb_open := true; cb_openedAt := 0; cb_lastProbeAt := minutes 60 |} ∧
  probe defaults k (op_check (minutes 120) k) (operate_all defaults forced []) = [minutes 120].
Proof. vm_compute. split; reflexivity. Qed.

(** The failure of another agent closes an open breaker whose last failure is an
    hour old, although its probes go on and no operator has reset it. *)
Lemma another_failure_closes_an_open_breaker :
  let k := key "agent" "ticket" "dev" in
  let opened := List.map (λ n, op_record (minutes n) k (Some 41) "no api key" false) [0; 1; 2; 3; 4] in
  let history := opened ++ [op_check (minutes 64) k; op_success k; op_record (minutes 65) (key "other" "ticket" "dev") (Some 1) "" false] in
  is_open k (operate_all defaults opened []) = true ∧ is_open k (operate_all defaults history []) = false ∧
  snd (shouldBlock defaults (minutes 66) k (operate_all defaults history [])) = false.
Proof. vm_compute. split_and!; reflexivity. Qed.

(** The window a mission is opened with sorts by [created_at] alone; the cursor its
    reader goes on from assumes the timeline's order.  On a database that keeps
    seconds and returns ties as they were inserted, the newest of 201 events of one
    second is in neither: the window holds the first 200, and the pages from its
    oldest row go back from number 200. *)
Lemma timeline_window_hides_the_newest :
  let d := {| db_type := sqljs; db_precision := US_PER_S |} in
  let rows := List.map (λ n, sample_event (pretty n) 5000000 n) (seqZ 1 201) in
  let window := detail_events "m" 200 rows in
  er_id <$> head (timeline d "m" rows) = Some "201" ∧
  includes (List.map er_id window) "201" = false ∧
  (λ shown, includes (List.map er_id shown) "201") <$>
    read_back d (Some "acc") "m" "acc" None (λ _, rows) 4 O (cursor_of <$> last window) = Some false.
Proof. vm_compute. split_and!; reflexivity. Qed.
